(* ===== verification/_CoqProject ===== *)
-Q . S2P
Prelude.v
Wire.v
FrameCodec.v
Subscriptions.v
Resolve.v
SubsInv.v
Elements.v
Conn.v
ConnInv.v
Delivery.v
Egress.v
Server.v
Prims.v
Wave.v
Introspect.v
Encode.v
Pack.v
Decode.v
Values.v
ValuesStd.v
Typed.v
Transmit.v
Declared.v
Resume.v
Receive.v
Exchange.v
ExchangeStd.v
Remote.v
RemoteCall.v
RemoteStd.v
Split.v
Http.v
ParseInt.v
KeyValue.v
KeyValueRedis.v
Sockets.v
WasmCodec.v
WasmValues.v
WasmExchange.v
WasmPaths.v
WasmPlain.v
WasmCall.v
WasmRpc.v
WasmLink.v
WasmServe.v
WasmStd.v
WasmLinkStd.v
Channels.v
ChannelsSpec.v
Mirror.v
RpcChannels.v
RpcConn.v
RpcSet.v
RpcSpec.v
RpcStd.v
RpcStreams.v
RpcHost.v
Wit.v
JsNames.v
JsTypes.v
JsTrees.v
JsDefine.v
JsGen.v
JsFuncs.v
JsServe.v
JsWorld.v
WasmCli.v
WasmCliStd.v
Heck.v
GoWorld.v
RustWorld.v
