(* ===== verification/Prelude.v ===== *)
(** * Verification of wRPC

    wRPC is a component-native RPC framework: functions of WIT interfaces are
    invoked over a byte stream per invocation.  This library models its core,
    the crates [wrpc-transport] ([crates/transport]), [wrpc-introspect]
    ([crates/introspect]), [wrpc-wave] ([crates/wave]) and
    [wrpc-runtime-wasmtime] ([crates/wasmtime]), and what is built on it: the
    host of components ([crates/wasmtime-cli]), the transports ([crates/http],
    [crates/quic], [crates/webtransport]), the key-value stores
    ([crates/wasi-keyvalue-mem], [crates/wasi-keyvalue-redis]) and the bindings
    generators ([crates/wit-bindgen-js], and names and modules of
    [crates/wit-bindgen-rust] and [crates/wit-bindgen-go]); and it proves what
    they promise.

    ** The program and the files

    A client writes a header and frames; a frame carries data for a path, a
    sequence of indices which names a position in the parameters or results.
    Synchronous data is sent on the empty path; a future or stream which is
    pending when its value is encoded leaves a placeholder, and its contents
    follow on the path of its position.  The server declares the paths which
    the types of the parameters may be sent on, receives the frames, and hands
    out one reader per path.

    - [Prelude]: bytes, results and the notation [let?], machine bounds, lemmas
      on lists; this overview.
    - [Wire], [Prims]: LEB128, UTF-8, signed LEB128, characters and names.
    - [FrameCodec]: [frame/codec.rs], [frame/mod.rs] and [encode_invocation] of
      [frame/conn/client.rs]: the frame codec and the invocation header.
    - [Subscriptions]: [struct Subscriptions] of [frame/conn/mod.rs], the trie
      of declared paths and the channels of subscribed ones.  [Resolve] shows
      which paths it resolves, [SubsInv] who owns the channels and the permits,
      [Elements] the accounting of the elements of wildcards.
    - [Conn]: [Incoming], [IngressState] and the ingress task of
      [frame/conn/mod.rs], a state machine of handles and the task.  [ConnInv]
      holds its invariants by induction on its steps, [Delivery] what they mean
      for a reader.
    - [Egress]: [Outgoing], the egress task of [frame/conn/mod.rs] and [invoke]
      of [frame/conn/client.rs].
    - [Server]: [frame/conn/server.rs], the registry of handlers.
    - [Encode], [Decode]: the encoders and decoders of [value.rs], parametric
      in their deferred operations; [Pack]: [pack.rs].
    - [Values]: the types which implement the codec traits as a universe
      ([ty], [val], [dval]), the codecs their implementations select and the
      theorems on [pack] and [unpack]; [ValuesStd]: instances and witnesses.
    - [Transmit]: [impl Sink for Outgoing] of [value.rs], the transmission of
      pending values; [Declared]: the paths they use are declared.
    - [Resume], [Receive]: decoding from a stream, [BufferedIncoming] of
      [lib.rs] and the deferred operations of the decoders of [value.rs];
      [Exchange] composes both sides, [ExchangeStd] holds instances and
      witnesses.
    - [Remote]: [invoke.rs] and [serve.rs], invocations with values of Rust
      types; [RemoteCall] composes them with the codecs, the connection and the
      server, [RemoteStd] executes one.
    - [Split]: [frame/split.rs], the halves of a stream, a state machine of
      sections of two tasks, and [frame/oneshot.rs].
    - [Http]: [crates/http/src/lib.rs], bodies and their writers, a state machine
      of sections of two tasks, requests, responses and the service; [Sockets]:
      the streams and clients of [crates/quic], [crates/webtransport],
      [frame/tcp] and [frame/unix.rs], with one interface of the writers which
      abort their stream when they are dropped.
    - [KeyValue]: [crates/wasi-keyvalue-mem/src/lib.rs], the handler of
      [wasi:keyvalue], a state machine of the sections which hold a lock;
      [KeyValueRedis]: [crates/wasi-keyvalue-redis/src/lib.rs]; [ParseInt]: the
      integers they and the transports parse.
    - [Introspect]: [crates/introspect/src/lib.rs] and
      [crates/wasmtime/src/paths.rs], the asynchronous paths of types.
    - [Wave], [Typed]: [crates/wave/src], dynamically typed values.
    - [WasmCodec]: [crates/wasmtime/src/codec.rs], the codec of the values of
      components, in a monad of a store and errors.  [WasmValues] says which
      message a value is sent as ([exports]) and which value a message is
      received as ([imports]) and relates the codec to them; [WasmExchange],
      [WasmPaths] and [WasmPlain] hold the theorems, [WasmStd] an instance of
      Wasmtime and the witnesses.
    - [WasmCall]: [call] of [crates/wasmtime/src/lib.rs] and the polyfills of
      [crates/wasmtime/src/polyfill.rs]; [WasmRpc] composes them with the
      codec and the connection.
    - [WasmLink]: the recursion over the items of a component in [lib.rs],
      [paths.rs] and [polyfill.rs], which collects resources and polyfills
      imports; [WasmServe]: [crates/wasmtime/src/serve.rs], the shared store, a
      state machine of its event loop and callers, and the functions which are
      served; [WasmLinkStd] holds instances and witnesses.
    - [Channels], [RpcChannels]: [crates/wasmtime/src/rpc/mod.rs], the channels
      of an invocation which a component makes itself, before and after it is
      transmitted.  [ChannelsSpec] specifies them by the history of the channels
      which were returned; [Mirror] and [RpcConn] show that the connection
      follows the same history, [RpcSet] that setting the root transfers it, and
      [RpcSpec] and [RpcStd] hold the executions and the theorems.
    - [RpcStreams]: [crates/wasmtime/src/rpc/host], the paths an invocation
      declares and the streams by which channels are read and written;
      [RpcHost]: the functions which components call, on the table of the
      resources of a store.
    - [WasmCli]: [crates/wasmtime-cli/src/lib.rs], the imports which are linked and
      the types of their resources, and the functions which are served;
      [WasmCliStd] holds the witnesses.
    - [Wit]: the data of [wit_parser] which the bindings generators use, and
      strings.
    - [JsNames], [JsTypes], [JsGen]: [crates/wit-bindgen-js/src/lib.rs], the names,
      the descriptions of types and the modules which are generated, in a
      monad of the module which is written.  [JsTrees] says what descriptions mean,
      [JsDefine] relates the definitions of types to that, [JsFuncs] the clients
      and servers of functions, [JsServe] those of interfaces, and [JsWorld]
      holds the worlds.
    - [Heck]: the cases of identifiers; [GoWorld]:
      [crates/wit-bindgen-go/src/lib.rs], and [RustWorld]:
      [crates/wit-bindgen-rust/src/lib.rs], the identifiers, the modules, the
      remapping of interfaces, and the paths of types.

    Definitions keep the names of the source; [T_f] is the method [f] of [T].
    A fallible operation yields a [result] with the [ErrorKind] of the error of
    Rust.  [usize] is 64 bits wide.

    ** The theorems

    - Connection ([Egress.end_to_end], [Delivery]): in every reachable state,
      the data received for a path is a prefix of what the peer sent on it, and
      a handle reads it in order; a successful ingress processed everything; at
      most a constant number of elements are subscribed to before they are
      indexed; the handles of elements are accounted.
    - Frames and headers ([FrameCodec], [Server]): round trips, independence of
      the way in which a stream is cut into chunks, limits and errors; an
      invocation reaches the handler of its function and no other.
    - Values ([Values], [Decode]): what [pack] appends, that [unpack] inverts
      it, when [pack_ready] fails, and that sequences decode from pieces.
    - Asynchronous values ([Transmit], [Exchange], [Declared]): the data of the
      pending parts of a value is sent on their paths, which the peer declares;
      a value which is sent arrives, at any nesting of futures and streams; a
      truncated stream is an error.
    - Typed calls ([RemoteCall]): the parameters of an invocation reach the
      handler of its function and the results reach the client, with all their
      pending parts, in whichever order transmission and receipt complete;
      timeouts.
    - Transports ([Split], [Http], [Sockets]): a reader does not wait for a
      stream whose write half was dropped; the body of an HTTP message is never
      truncated without an error, and a request reaches the handler of its
      function; the streams of WASI are used within their contract.
    - Key-value stores ([KeyValue], [KeyValueRedis]): concurrent operations on
      the one in memory are linearizable, and a bucket of Redis is a map.
    - Types ([Introspect], [Resolve]): the asynchronous paths are the least
      generalisation of the positions of the futures and streams of a type which
      may be declared, and are computed in agreement by both implementations; the
      trie resolves exactly the declared paths.
    - Dynamic values ([Wave], [Typed]): round trip and errors, and agreement with
      the static codecs for the instances of [ValuesStd].

    - Components ([WasmExchange], [WasmPlain], [WasmPaths]): a value of a
      component with its resources, futures and streams arrives at another one;
      a shared resource which comes back is the same; only values of the type
      are encoded, and their paths are declared.
    - Calls ([WasmRpc]): an import which is satisfied by the function of a
      component elsewhere yields the results of that function; whatever the peer
      sends, what it yields is of its type, and a failed invocation is a value of
      the type unless the host cannot make one.
    - Linking and serving ([WasmLink], [WasmServe], [WasmCli]): a component is
      linked with exactly the definitions of its imports, its resources have the
      types of the host, and each function it exports can be invoked by its name;
      no call on a shared store is lost.
    - Bindings of JavaScript ([JsDefine], [JsFuncs], [JsServe], [JsWorld]): the
      definitions of types evaluate to the types of WIT if their names are of
      lower case and the types they refer to are of modules which were named, the
      clients and the servers of a function agree on them, each function is served and each
      exported instance dispatched, and the files of modules do not overwrite each
      other.
    - Bindings of Rust and Go ([RustWorld], [GoWorld]): identifiers are valid and
      told apart, each module of Rust is written once, in the modules of its path,
      the paths of types lead to their modules, and which modules of Go collide.
    - Channels ([ChannelsSpec], [RpcStd]): channels are returned and refused by
      their history, the same before and after the transmission, and the data of
      a channel becomes available, as long as fewer than 64 channels are returned
      before the transmission; [RpcStreams]: the streams of channels lose no
      data and have exactly one result; [RpcHost]: the functions keep the
      resources of a component in order.

    ** Parameters

    Code which is not in the repository is a class of operations and a class of
    laws it documents: [Leb128], [CoreName], [ValueWire], [CmEncoder],
    [CmDecoder], [PrimCodec] and the laws [CmDecoderResume] and [PrimResume]
    for [wasm-tokio]; [FramedRead] for [tokio-util]; [AsyncStream] for the streams
    of [tokio]; [Simplex] for the pipe of [tokio]; the laws [WasiLaws] for
    the streams of WASI, and [RedisLaws] for Redis; [WasmValue] for
    [wasm-wave]; [WitParser], with the law of [dealias], and [BindgenCore] for
    [wit-parser] and [wit-bindgen-core]; [Heck] for [heck]; [Host], [RpcHost], [Linker] and the laws [HostLaws] and
    [LinkerLaws] for [wasmtime] and [uuid].  [leb128_std], [name_std], [value_wire_std],
    [cm_encoder_std], [cm_decoder_std], [prim_codec_std] and [framed_std] are
    instances which satisfy them, [test_host] is one of Wasmtime, and the
    witnesses use those.  What the
    environment chooses is an argument: the order in which futures finish
    ([sched]), whether a batch is flushed ([flush]), the capacity of reads
    ([cap]), the peer of a connection.

    ** Fuel and bounds

    [split_frames] and the loops of receivers take at least a byte per
    iteration and have the length of the data as fuel; LEB128 has the number of
    bytes of its width; the readers of [Wave] have the depth of the type, and
    [async_paths_tyid] the number of types of the arena, which is enough for a
    well-formed one ([Introspect.async_paths_total]).  The theorems on results
    show that fuel suffices.

    ** Findings

    [RpcStd.prune_breaks_channel]: once 64 channels were returned before the
    transmission, pruning may forget a dropped channel whose position orders the
    elements, so that a channel which is held loses its position.

    [Delivery.drain_loses_data]: data received while draining, for a declared
    path within an element which was subscribed to earlier, is accepted, never
    read, and ingress still succeeds, although the documentation of
    [Incoming::new] says that it fails.

    [KeyValue.missing_bucket_fails]: an error of the key-value store fails the
    invocation, although its interface says that the function returns it.

    [JsNames.camel_case_acronyms]: names of WIT with acronyms may be the same in
    JavaScript.

    [GoWorld.go_modules_collide]: the modules of some packages with several versions
    are written to the same file.  [GoWorld.acronym_not_escaped],
    [RustWorld.gen_not_escaped], [RustWorld.exports_not_escaped]: names which are
    not escaped.  [RustWorld.interfaces_named]: an import which is remapped is
    not if the interface is exported as well.

    ** Not modelled

    - The sockets, the connections and the HTTP implementation which the
      transports use: third-party code, which is a parameter.
    - The text of interfaces which the generators of Rust and Go write:
      templates of their source text, whose meaning is that of the compiled
      program.
    - Fetching and compiling components, command components and options of the
      command line: calls of Wasmtime, [reqwest] and [clap].
    - Characters of names and docs which are not ASCII, in the generators: WIT has
      none in names.
    - Concurrency of the operations of different elements: they use paths of
      their own, and run one after the other here. *)

From Stdlib Require Export ZArith NArith Lia ZifyNat.
From Stdlib Require Export Strings.Byte.
From stdpp Require Export base gmap list numbers option sorting.

(** [lia] reasons about [/] and [mod] by constants. *)
Ltac Zify.zify_post_hook ::= Z.to_euclidean_division_equations.

(** ** Bytes *)

Abbreviation byte := Corelib.Init.Byte.byte (only parsing).
Abbreviation bytes := (list Corelib.Init.Byte.byte) (only parsing).

#[global] Instance byte_eq_decision : EqDecision Corelib.Init.Byte.byte := Byte.byte_eq_dec.

#[global] Instance byte_countable : Countable Corelib.Init.Byte.byte.
Proof.
  refine (inj_countable Byte.to_N Byte.of_N _). intros b. apply Byte.of_to_N.
Defined.

(** The byte holding the low 8 bits of [n]. *)
Definition byte_of_N (n : N) : byte := default x00 (Byte.of_N (n mod 256)).

Lemma to_N_lt (b : byte) : (Byte.to_N b < 256)%N.
Proof. pose proof (Byte.to_N_bounded b). lia. Qed.

Lemma to_N_byte_of_N n : Byte.to_N (byte_of_N n) = (n mod 256)%N.
Proof.
  unfold byte_of_N. destruct (Byte.of_N (n mod 256)) as [b|] eqn:E; simpl.
  - by apply Byte.to_of_N in E.
  - apply Byte.of_N_None_iff in E. pose proof (N.mod_lt n 256). lia.
Qed.

Lemma byte_of_N_to_N b : byte_of_N (Byte.to_N b) = b.
Proof.
  unfold byte_of_N. rewrite N.mod_small by apply to_N_lt.
  by rewrite Byte.of_to_N.
Qed.

(** The length of a buffer, as the machine integer the code works with. *)
Definition len {A} (l : list A) : N := N.of_nat (length l).

Lemma len_nil {A} : len (@nil A) = 0%N.
Proof. done. Qed.

Lemma len_cons {A} (x : A) l : len (x :: l) = N.succ (len l).
Proof. unfold len. simpl. lia. Qed.

Lemma len_app {A} (l k : list A) : len (l ++ k) = (len l + len k)%N.
Proof. unfold len. rewrite length_app. lia. Qed.

Lemma to_nat_len {A} (l : list A) : N.to_nat (len l) = length l.
Proof. apply Nat2N.id. Qed.

Lemma len_0 {A} (l : list A) : len l = 0%N ↔ l = [].
Proof. unfold len. destruct l; simpl; split; (done || lia). Qed.

(** ** Errors and results *)

(** The [std::io::ErrorKind]s the modelled code produces or inspects.  The
    message carried by an error is diagnostic only and is not modelled. *)
Inductive ErrorKind :=
  | UnexpectedEof
  | InvalidData
  | InvalidInput
  | NotFound
  | BrokenPipe
  | WouldBlock
  | Unsupported
  | OutOfMemory
  | AlreadyExists
  | NotConnected
  | ConnectionAborted
  | TimedOut
  | Other.

#[global] Instance ErrorKind_eq_dec : EqDecision ErrorKind.
Proof. solve_decision. Defined.

Inductive result (E A : Type) :=
  | Ok (a : A)
  | Err (e : E).
Arguments Ok {E A} a.
Arguments Err {E A} e.

#[global] Instance result_eq_dec {E A} `{EqDecision E, EqDecision A} :
  EqDecision (result E A).
Proof. solve_decision. Defined.

Abbreviation io_result := (result ErrorKind).

Definition rbind {E A B} (r : result E A) (k : A → result E B) : result E B :=
  match r with
  | Ok a => k a
  | Err e => Err e
  end.

Definition map_err {E F A} (f : E → F) (r : result E A) : result F A :=
  match r with
  | Ok a => Ok a
  | Err e => Err (f e)
  end.

Definition ok_or {E A} (e : E) (o : option A) : result E A :=
  match o with
  | Some a => Ok a
  | None => Err e
  end.

Declare Scope wrpc_scope.
Delimit Scope wrpc_scope with wrpc.
Open Scope wrpc_scope.

Notation "'let?' x ':=' e 'in' k" := (rbind e (λ x, k))
  (at level 10, x pattern, e at level 100, k at level 200)
  : wrpc_scope.

Lemma rbind_ok {E A B} (r : result E A) (k : A → result E B) b :
  rbind r k = Ok b ↔ ∃ a, r = Ok a ∧ k a = Ok b.
Proof.
  destruct r; simpl; split.
  - eauto.
  - by intros (? & [= ->] & ?).
  - done.
  - by intros (? & ? & ?).
Qed.

Lemma rbind_err {E A B} (r : result E A) (k : A → result E B) e :
  rbind r k = Err e ↔ r = Err e ∨ ∃ a, r = Ok a ∧ k a = Err e.
Proof.
  destruct r; simpl; split.
  - eauto.
  - by intros [?|(? & [= ->] & ?)].
  - intros [= ->]. by left.
  - by intros [[= ->]|(? & ? & ?)].
Qed.

(** ** Machine integers *)

Definition u32_MAX : N := 2 ^ 32 - 1.
Definition usize_MAX : N := 2 ^ 64 - 1.

(** [u32::try_from(n)], with the failure mapped to an [InvalidInput] error as
    every call site does. *)
Definition u32_try_from (n : N) : io_result N :=
  if (n <=? u32_MAX)%N then Ok n else Err InvalidInput.

Lemma u32_try_from_ok n m : u32_try_from n = Ok m ↔ n = m ∧ (n ≤ u32_MAX)%N.
Proof. unfold u32_try_from. destruct (N.leb_spec n u32_MAX); (split; [intros [= <-]|intros [? ?]]); subst; (done || lia). Qed.

Lemma u32_try_from_fit n : (n ≤ u32_MAX)%N → u32_try_from n = Ok n.
Proof. intros. by apply u32_try_from_ok. Qed.

Lemma u32_try_from_err n e :
  u32_try_from n = Err e ↔ e = InvalidInput ∧ (u32_MAX < n)%N.
Proof. unfold u32_try_from. destruct (N.leb_spec n u32_MAX); (split; [intros [= <-]|intros [? ?]]); subst; (done || lia). Qed.

(** [usize::saturating_add] on a 64-bit target. *)
Definition usize_saturating_add (a b : N) : N := N.min (a + b) usize_MAX.

(** ** Automation *)

(** Case analysis on the condition of the goal *)
Ltac case_if :=
  match goal with |- context [if ?b then _ else _] => destruct b end.

Create HintDb wrpc discriminated.
#[export] Hint Constants Opaque : wrpc.

(** Decomposes the successful and failing branches of a [let?] chain. *)
Ltac simp_res :=
  repeat match goal with
  | H : rbind _ _ = Ok _ |- _ => apply rbind_ok in H as (? & ? & H)
  | H : u32_try_from _ = Ok _ |- _ => apply u32_try_from_ok in H as [? ?]
  | H : Ok _ = Ok _ |- _ => injection H as H
  | H : Err _ = Err _ |- _ => injection H as H
  | H : Ok _ = Err _ |- _ => discriminate H
  | H : Err _ = Ok _ |- _ => discriminate H
  | _ => progress simplify_eq/=
  end.

(** Arithmetic about the lengths of concatenated buffers. *)
Ltac len_lia :=
  unfold len in *; rewrite ?length_app, ?length_take, ?length_drop in *; simpl in *; lia.

(** ** Lists *)

Section lists.
Context {A : Type}.
Implicit Types l k : list A.

Lemma take_drop_app_eq l (n : nat) : take n l ++ drop n l = l.
Proof. apply take_drop. Qed.

Lemma prefix_app_cases l k m :
  l `prefix_of` k ++ m → l `prefix_of` k ∨ ∃ l', l = k ++ l' ∧ l' `prefix_of` m.
Proof.
  revert l. induction k as [|x k IH]; intros l Hp; simpl in *.
  - right. by exists l.
  - destruct l as [|y l]; [left; apply prefix_nil|].
    pose proof (prefix_cons_inv_1 _ _ _ _ Hp) as ->.
    apply prefix_cons_inv_2 in Hp. destruct (IH _ Hp) as [?|(l' & -> & ?)].
    + left. by apply prefix_cons.
    + right. by exists l'.
Qed.

Lemma strict_prefix_app l k m :
  l `prefix_of` k ++ m → l `prefix_of` k ∧ l ≠ k ∨ k `prefix_of` l.
Proof.
  intros [?|(l' & -> & _)]%prefix_app_cases.
  - destruct (decide (length l = length k)) as [Hl|Hl].
    + right. destruct H as [l' ->]. rewrite length_app in Hl.
      destruct l'; simpl in Hl; [by rewrite app_nil_r|lia].
    + left. split; [done|]. by intros ->.
  - right. by exists l'.
Qed.

Lemma filter_none (P : A → Prop) `{∀ x, Decision (P x)} l :
  (∀ x, x ∈ l → ¬ P x) → filter P l = [].
Proof.
  induction l as [|x l IH]; intros Hn; [done|].
  rewrite filter_cons_False by (apply Hn; by left). apply IH. intros y ?. apply Hn. by right.
Qed.

Lemma StronglySorted_filter (R : relation A) (P : A → Prop) `{∀ x, Decision (P x)} l :
  StronglySorted R l → StronglySorted R (filter P l).
Proof.
  induction 1 as [|x l Hs IH HR]; [constructor|].
  destruct (decide (P x)).
  - rewrite filter_cons_True by done. constructor; [done|].
    rewrite Forall_forall in *. intros y [_ ?]%list_elem_of_filter. auto.
  - by rewrite filter_cons_False.
Qed.

End lists.
