(* ===== verification/Wire.v ===== *)
(** * Wire primitives

    The LEB128 and UTF-8 primitives every wRPC codec is built on.

    The LEB128 codecs come from the [wasm-tokio] crate, which is not part of
    the repository: they are parameters (class [Leb128]) and what wRPC relies
    on is the class [Leb128Laws].  [leb128_std] is the encoding of the
    WebAssembly specification and satisfies the laws.

    [String::from_utf8] and [str::from_utf8] are Rust's standard library:
    [utf8_valid] is the well-formedness table of the Unicode standard
    (Table 3-7), which they implement. *)

From S2P Require Import Prelude.

(** ** LEB128 *)

(** [leb_encode n] is what [Leb128Encoder] appends for an unsigned integer,
    [leb_decode_u32] is [Leb128DecoderU32::decode] ([None]: more input is
    needed and nothing is consumed), [leb_read w] is [read_u<w>_leb128] on a
    reader, which holds the given bytes followed by the end of the stream. *)
Class Leb128 := {
  leb_encode : N → bytes;
  leb_decode_u32 : bytes → io_result (option (N * bytes));
  leb_read : N → bytes → io_result (N * bytes)
}.

Class Leb128Laws `{Leb128} : Prop := {
  leb_encode_0 : leb_encode 0 = [x00];
  leb_decode_encode n rest :
    (n ≤ u32_MAX)%N → leb_decode_u32 (leb_encode n ++ rest) = Ok (Some (n, rest));
  leb_decode_incomplete n p :
    (n ≤ u32_MAX)%N → p `prefix_of` leb_encode n → p ≠ leb_encode n →
    leb_decode_u32 p = Ok None;
  leb_decode_inv bs n rest :
    leb_decode_u32 bs = Ok (Some (n, rest)) →
    (n ≤ u32_MAX)%N ∧ ∃ c, c ≠ [] ∧ bs = c ++ rest;
  leb_decode_some_app bs n rest more :
    leb_decode_u32 bs = Ok (Some (n, rest)) →
    leb_decode_u32 (bs ++ more) = Ok (Some (n, rest ++ more));
  leb_decode_err_app bs e more :
    leb_decode_u32 bs = Err e → leb_decode_u32 (bs ++ more) = Err e;
  leb_read_encode w n rest :
    w ∈ [8; 16; 32; 64]%N → (n < 2 ^ w)%N →
    leb_read w (leb_encode n ++ rest) = Ok (n, rest);
  leb_read_incomplete w n p :
    w ∈ [8; 16; 32; 64]%N → (n < 2 ^ w)%N →
    p `prefix_of` leb_encode n → p ≠ leb_encode n →
    leb_read w p = Err UnexpectedEof;
  leb_read_inv w bs n rest :
    w ∈ [8; 16; 32; 64]%N → leb_read w bs = Ok (n, rest) →
    (n < 2 ^ w)%N ∧ ∃ c, c ≠ [] ∧ bs = c ++ rest
}.

(** ** The encoding of the WebAssembly specification *)

(** Seven bits per byte, least significant first, the high bit marking that
    more bytes follow.  [fuel] bounds the number of bytes. *)
Fixpoint uleb (fuel : nat) (n : N) : bytes :=
  match fuel with
  | O => []
  | S fuel =>
      if (n <? 128)%N then [byte_of_N n]
      else byte_of_N (n mod 128 + 128) :: uleb fuel (n / 128)
  end.

(** Outcome of scanning an encoded integer of at most [fuel] bytes. *)
Inductive scan :=
  | Complete (n : N) (rest : bytes)
  | Incomplete
  | Overlong.

Fixpoint uleb_scan (fuel : nat) (bs : bytes) : scan :=
  match fuel with
  | O => Overlong
  | S fuel =>
      match bs with
      | [] => Incomplete
      | b :: bs =>
          let v := Byte.to_N b in
          if (v <? 128)%N then Complete v bs
          else match uleb_scan fuel bs with
               | Complete n rest => Complete (v - 128 + 128 * n) rest
               | s => s
               end
      end
  end.

(** Number of bytes an integer of [w] bits takes at most. *)
Definition uleb_max (w : N) : nat := N.to_nat ((w + 6) / 7).

Definition uleb_decode (w : N) (bs : bytes) : io_result (option (N * bytes)) :=
  match uleb_scan (uleb_max w) bs with
  | Complete n rest => if (n <? 2 ^ w)%N then Ok (Some (n, rest)) else Err InvalidData
  | Incomplete => Ok None
  | Overlong => Err InvalidData
  end.

Definition uleb_read (w : N) (bs : bytes) : io_result (N * bytes) :=
  match uleb_decode w bs with
  | Ok (Some r) => Ok r
  | Ok None => Err UnexpectedEof
  | Err e => Err e
  end.

Definition leb128_std : Leb128 := {|
  leb_encode n := uleb (S (N.to_nat (N.size n))) n;
  leb_decode_u32 := uleb_decode 32;
  leb_read := uleb_read
|}.

(** ** UTF-8 *)

Definition utf8_cont (b : byte) : bool :=
  (128 <=? Byte.to_N b)%N && (Byte.to_N b <=? 191)%N.

Definition in_range (lo hi : N) (b : byte) : bool :=
  (lo <=? Byte.to_N b)%N && (Byte.to_N b <=? hi)%N.

(** [str::from_utf8(bs).is_ok()] *)
Fixpoint utf8_valid (bs : bytes) : bool :=
  match bs with
  | [] => true
  | b0 :: bs =>
      let v := Byte.to_N b0 in
      if (v <? 128)%N then utf8_valid bs
      else if (v <? 194)%N then false
      else if (v <? 224)%N then
        match bs with
        | b1 :: bs => utf8_cont b1 && utf8_valid bs
        | _ => false
        end
      else if (v <? 240)%N then
        match bs with
        | b1 :: b2 :: bs =>
            in_range (if (v =? 224)%N then 160 else 128)
                     (if (v =? 237)%N then 159 else 191) b1
            && utf8_cont b2 && utf8_valid bs
        | _ => false
        end
      else if (v <? 245)%N then
        match bs with
        | b1 :: b2 :: b3 :: bs =>
            in_range (if (v =? 240)%N then 144 else 128)
                     (if (v =? 244)%N then 143 else 191) b1
            && utf8_cont b2 && utf8_cont b3 && utf8_valid bs
        | _ => false
        end
      else false
  end.

(** ** The standard encoding satisfies the laws *)


Lemma ltb_add_r a b : (a + b <? b)%N = false.
Proof. apply N.ltb_ge. lia. Qed.

Lemma uleb_S fuel n :
  uleb (S fuel) n =
  if (n <? 128)%N then [byte_of_N n]
  else byte_of_N (n mod 128 + 128) :: uleb fuel (n / 128).
Proof. done. Qed.

Lemma pow128_succ k : (128 ^ N.of_nat (S k) = 128 * 128 ^ N.of_nat k)%N.
Proof. rewrite Nat2N.inj_succ, N.pow_succ_r'. done. Qed.

Lemma uleb_scan_uleb fuel f n rest :
  (n < 128 ^ N.of_nat (S fuel))%N → (n < 128 ^ N.of_nat (S f))%N →
  uleb_scan (S f) (uleb (S fuel) n ++ rest) = Complete n rest.
Proof.
  revert f n. induction fuel as [|fuel IH]; intros f n Hn Hf;
    rewrite pow128_succ in Hn, Hf; rewrite uleb_S; destruct (N.ltb_spec n 128);
    cbn [app uleb_scan].
  1, 3: rewrite to_N_byte_of_N, N.mod_small by lia;
        by destruct (N.ltb_spec n 128); [|lia].
  { simpl in Hn. lia. }
  pose proof (N.mod_lt n 128 ltac:(done)). pose proof (N.div_mod' n 128).
  rewrite to_N_byte_of_N, N.mod_small by lia.
  rewrite ltb_add_r.
  destruct f as [|f]; [simpl in Hf; lia|].
  rewrite IH by (apply N.Div0.div_lt_upper_bound; lia).
  f_equal; lia.
Qed.

Lemma uleb_scan_incomplete fuel f n p :
  (n < 128 ^ N.of_nat (S f))%N →
  p `prefix_of` uleb fuel n → p ≠ uleb fuel n → uleb_scan (S f) p = Incomplete.
Proof.
  revert f n p. induction fuel as [|fuel IH]; intros f n p Hf Hp Hne.
  { simpl in *. by apply prefix_nil_inv in Hp as ->. }
  destruct p as [|b p]; [done|].
  rewrite pow128_succ in Hf; rewrite uleb_S in Hp, Hne.
  cbn [uleb_scan]. destruct (N.ltb_spec n 128).
  { pose proof (prefix_cons_inv_2 _ _ _ _ Hp) as Hp'.
    apply prefix_nil_inv in Hp' as ->. by apply prefix_cons_inv_1 in Hp as ->. }
  pose proof (prefix_cons_inv_1 _ _ _ _ Hp) as ->. apply prefix_cons_inv_2 in Hp.
  pose proof (N.mod_lt n 128 ltac:(done)).
  rewrite to_N_byte_of_N, N.mod_small by lia.
  rewrite ltb_add_r.
  destruct f as [|f]; [simpl in Hf; lia|].
  assert (uleb_scan (S f) p = Incomplete) as ->; [|done].
  apply (IH f (n / 128)%N); [apply N.Div0.div_lt_upper_bound; lia|done|congruence].
Qed.

Lemma uleb_scan_inv f bs n rest :
  uleb_scan f bs = Complete n rest → ∃ c, c ≠ [] ∧ bs = c ++ rest.
Proof.
  revert bs n. induction f as [|f IH]; intros [|b bs] n; simpl; try done.
  destruct (_ <? _)%N; [intros [= <- <-]; by exists [b]|].
  destruct (uleb_scan f bs) eqn:E; try done. intros [= <- <-].
  destruct (IH _ _ E) as (c & ? & ->). by exists (b :: c).
Qed.

Lemma uleb_scan_app f bs more :
  match uleb_scan f bs with
  | Complete n rest => uleb_scan f (bs ++ more) = Complete n (rest ++ more)
  | Overlong => uleb_scan f (bs ++ more) = Overlong
  | Incomplete => True
  end.
Proof.
  revert bs. induction f as [|f IH]; intros [|b bs]; simpl; try done.
  destruct (_ <? _)%N; [done|]. specialize (IH bs).
  destruct (uleb_scan f bs); by rewrite ?IH.
Qed.

Lemma uleb_max_bound w n :
  w ∈ [8; 16; 32; 64]%N → (n < 2 ^ w)%N →
  ∃ f, uleb_max w = S f ∧ (n < 128 ^ N.of_nat (S f))%N.
Proof.
  rewrite !elem_of_cons. intros [->|[->|[->|[->|?%not_elem_of_nil]]]] Hn; try done;
    eexists; (split; [reflexivity|]); eapply N.lt_le_trans; [exact Hn| |exact Hn| |exact Hn| |exact Hn|];
    vm_compute; discriminate.
Qed.

Lemma uleb_fuel_enough n : (n < 128 ^ N.of_nat (S (N.to_nat (N.size n))))%N.
Proof.
  rewrite pow128_succ, N2Nat.id.
  pose proof (N.size_gt n). pose proof (N.pow_le_mono_l 2 128 (N.size n) ltac:(done)).
  lia.
Qed.

Lemma uleb_decode_encode w n rest :
  w ∈ [8; 16; 32; 64]%N → (n < 2 ^ w)%N →
  uleb_decode w (uleb (S (N.to_nat (N.size n))) n ++ rest) = Ok (Some (n, rest)).
Proof.
  intros Hw Hn. destruct (uleb_max_bound w n) as (f & Hf & ?); [done..|].
  unfold uleb_decode. rewrite Hf, uleb_scan_uleb by (done || apply uleb_fuel_enough).
  by destruct (N.ltb_spec n (2 ^ w)); [|lia].
Qed.

Lemma uleb_decode_incomplete w n p :
  w ∈ [8; 16; 32; 64]%N → (n < 2 ^ w)%N →
  p `prefix_of` uleb (S (N.to_nat (N.size n))) n → p ≠ uleb (S (N.to_nat (N.size n))) n →
  uleb_decode w p = Ok None.
Proof.
  intros Hw Hn Hp Hne. destruct (uleb_max_bound w n) as (f & Hf & ?); [done..|].
  unfold uleb_decode. rewrite Hf. by erewrite uleb_scan_incomplete by done.
Qed.

Lemma uleb_decode_inv w bs n rest :
  uleb_decode w bs = Ok (Some (n, rest)) →
  (n < 2 ^ w)%N ∧ ∃ c, c ≠ [] ∧ bs = c ++ rest.
Proof.
  unfold uleb_decode. destruct (uleb_scan _ bs) eqn:E; try done.
  destruct (N.ltb_spec n0 (2 ^ w)); [|done]. intros [= <- <-].
  split; [done|]. by eapply uleb_scan_inv.
Qed.

Lemma u32_MAX_lt n : (n ≤ u32_MAX ↔ n < 2 ^ 32)%N.
Proof. unfold u32_MAX. lia. Qed.

Lemma leb128_std_laws : @Leb128Laws leb128_std.
Proof.
  assert (32 ∈ [8; 16; 32; 64])%N as H32 by set_solver.
  split; cbn [leb_encode leb_decode_u32 leb_read leb128_std].
  - reflexivity.
  - intros. apply uleb_decode_encode; [done|by apply u32_MAX_lt].
  - intros. eapply uleb_decode_incomplete; [done|by apply u32_MAX_lt|done..].
  - intros bs n rest H. rewrite u32_MAX_lt. by apply uleb_decode_inv in H.
  - intros bs n rest more. unfold uleb_decode.
    pose proof (uleb_scan_app (uleb_max 32) bs more) as Ha.
    destruct (uleb_scan _ bs); try done. rewrite Ha.
    by destruct (_ <? _)%N; [intros [= <- <-]|].
  - intros bs e more. unfold uleb_decode.
    pose proof (uleb_scan_app (uleb_max 32) bs more) as Ha.
    destruct (uleb_scan _ bs); try done; rewrite Ha; by destruct (_ <? _)%N || idtac.
  - intros. unfold uleb_read. by rewrite uleb_decode_encode.
  - intros. unfold uleb_read. by erewrite uleb_decode_incomplete.
  - intros w bs n rest Hw. unfold uleb_read.
    destruct (uleb_decode w bs) as [[[? ?]|]|] eqn:E; try done.
    intros [= -> ->]. by eapply uleb_decode_inv.
Qed.

(** Derived facts the clients use. *)
Section laws.
Context `{Leb128Laws}.

Lemma leb_encode_nonempty n : (n ≤ u32_MAX)%N → leb_encode n ≠ [].
Proof.
  intros Hn E. pose proof (leb_decode_encode n [] Hn) as D.
  rewrite E in D. apply leb_decode_inv in D as (_ & c & Hc & Happ).
  by destruct c.
Qed.

Lemma leb_decode_shorter bs n rest :
  leb_decode_u32 bs = Ok (Some (n, rest)) → length rest < length bs.
Proof.
  intros (_ & c & Hc & ->)%leb_decode_inv. rewrite length_app.
  destruct c; simpl; [done|lia].
Qed.

Lemma leb_read_u32_encode n rest :
  (n ≤ u32_MAX)%N → leb_read 32 (leb_encode n ++ rest) = Ok (n, rest).
Proof. intros. apply leb_read_encode; [set_solver|by apply u32_MAX_lt]. Qed.

Lemma leb_read_u32_incomplete n p :
  (n ≤ u32_MAX)%N → p `prefix_of` leb_encode n → p ≠ leb_encode n →
  leb_read 32 p = Err UnexpectedEof.
Proof.
  intros ? Hp Hne. eapply leb_read_incomplete; [set_solver|by apply u32_MAX_lt|done..].
Qed.

Lemma leb_read_u32_inv bs n rest :
  leb_read 32 bs = Ok (n, rest) → (n ≤ u32_MAX)%N ∧ ∃ c, c ≠ [] ∧ bs = c ++ rest.
Proof. rewrite u32_MAX_lt. apply leb_read_inv. set_solver. Qed.

End laws.
