(* ===== verification/FrameCodec.v ===== *)
(** * Frame and header codec

    Model of [crates/transport/src/frame/codec.rs], of the frame type of
    [frame/mod.rs] and of [encode_invocation] in [frame/conn/client.rs].

    [Decoder_decode] is the incremental decoder with the state the code keeps
    between two calls; [HeaderDecoder_read] and [read_name] work on a byte
    stream given by its remaining bytes.  The theorems show the round trips,
    that decoding does not depend on how the transport splits the bytes, the
    bounds the decoder enforces and the errors it reports. *)

From S2P Require Import Prelude Wire.

(** ** Data *)

(** Framing protocol version *)
Definition PROTOCOL : byte := x01.

Definition DEFAULT_MAX_DEPTH : N := 64.
Definition DEFAULT_MAX_SIZE : N := N.shiftl 16 20.
Definition DEFAULT_MAX_NAME_LEN : N := N.shiftl 1 10.

(** [path] holds [usize]s. *)
Record Frame := mkFrame { f_path : list N; f_data : bytes }.

#[global] Instance Frame_eq_dec : EqDecision Frame.
Proof. solve_decision. Defined.

Record Header := mkHeader { h_instance : bytes; h_name : bytes }.

Inductive HeaderReadError :=
  | IO (e : ErrorKind)
  | UnsupportedVersion (v : byte).

Record HeaderDecoder := mkHeaderDecoder { hd_max_instance_len : N; hd_max_name_len : N }.

Definition HeaderDecoder_new (max_instance_len max_name_len : N) : HeaderDecoder :=
  mkHeaderDecoder max_instance_len max_name_len.

Definition HeaderDecoder_default : HeaderDecoder :=
  HeaderDecoder_new DEFAULT_MAX_NAME_LEN DEFAULT_MAX_NAME_LEN.

(** [path_cap] counts the path elements, which are still to be decoded. *)
Record Decoder := mkDecoder {
  d_path : option (list N);
  d_path_cap : nat;
  d_data_len : N;
  d_max_depth : N;
  d_max_size : N
}.

Definition Decoder_new (max_depth max_size : N) : Decoder :=
  mkDecoder None 0 0 max_depth max_size.

Definition Decoder_default : Decoder := Decoder_new DEFAULT_MAX_DEPTH DEFAULT_MAX_SIZE.

(** [CoreNameEncoder] of [wasm-tokio]: what it appends for a string. *)
Class CoreName := { name_encode : bytes → io_result bytes }.

Class CoreNameLaws `{Leb128, CoreName} : Prop := {
  name_encode_fit s :
    (len s ≤ u32_MAX)%N → name_encode s = Ok (leb_encode (len s) ++ s)
}.

Section codec.
Context `{Leb128}.

(** ** Operations *)

(** [while self.path_cap > 0]: the path is complete, or more input is needed,
    or an element is malformed. *)
Inductive path_loop :=
  | PathDone (path : list N) (src : bytes)
  | PathMore (cap : nat) (path : list N) (src : bytes)
  | PathErr (e : ErrorKind) (cap : nat) (src : bytes).

Fixpoint decode_path (cap : nat) (path : list N) (src : bytes) : path_loop :=
  match cap with
  | O => PathDone path src
  | S cap' =>
      match leb_decode_u32 src with
      | Err e => PathErr e cap src
      | Ok None => PathMore cap path src
      | Ok (Some (i, src)) => decode_path cap' (path ++ [i]) src
      end
  end.

(** The part of [Decoder::decode] after the path is complete. *)
Definition decode_data (d : Decoder) (path : list N) (src : bytes) :
    io_result (option Frame) * Decoder * bytes :=
  let depth := d_max_depth d in
  let size := d_max_size d in
  let payload (n : N) (src : bytes) :=
    if (0 <? n - len src)%N then
      (Ok None, mkDecoder (Some path) 0 n depth size, src)
    else
      (Ok (Some (mkFrame path (take (N.to_nat n) src))),
       mkDecoder None 0 0 depth size, drop (N.to_nat n) src) in
  if (d_data_len d =? 0)%N then
    match leb_decode_u32 src with
    | Err e => (Err e, mkDecoder None 0 0 depth size, src)
    | Ok None => (Ok None, mkDecoder (Some path) 0 0 depth size, src)
    | Ok (Some (n, src)) =>
        if (size <? n)%N then (Err InvalidInput, mkDecoder None 0 0 depth size, src)
        else if (n =? 0)%N then
          (Ok (Some (mkFrame path [])), mkDecoder None 0 0 depth size, src)
        else payload n src
    end
  else payload (d_data_len d) src.

(** The part of [Decoder::decode] after the path length is known. *)
Definition decode_rest (d : Decoder) (cap : nat) (path : list N) (src : bytes) :
    io_result (option Frame) * Decoder * bytes :=
  match decode_path cap path src with
  | PathErr e cap src =>
      (Err e, mkDecoder None cap (d_data_len d) (d_max_depth d) (d_max_size d), src)
  | PathMore cap path src =>
      (Ok None, mkDecoder (Some path) cap (d_data_len d) (d_max_depth d) (d_max_size d), src)
  | PathDone path src => decode_data d path src
  end.

Definition Decoder_decode (d : Decoder) (src : bytes) :
    io_result (option Frame) * Decoder * bytes :=
  match d_path d with
  | Some path => decode_rest d (d_path_cap d) path src
  | None =>
      match leb_decode_u32 src with
      | Err e => (Err e, d, src)
      | Ok None => (Ok None, d, src)
      | Ok (Some (n, src)) =>
          if (d_max_depth d <? n)%N then (Err InvalidInput, d, src)
          else decode_rest d (N.to_nat n) [] src
      end
  end.

(** [for p in path { Leb128Encoder.encode(u32::try_from(p)?, dst)? }] *)
Fixpoint encode_path (path : list N) (dst : bytes) : io_result bytes :=
  match path with
  | [] => Ok dst
  | p :: path =>
      let? p := u32_try_from p in
      encode_path path (dst ++ leb_encode p)
  end.

Definition Encoder_encode (f : Frame) (dst : bytes) : io_result bytes :=
  let? n := u32_try_from (len (f_path f)) in
  let dst := dst ++ leb_encode n in
  let? dst := encode_path (f_path f) dst in
  let? n := u32_try_from (len (f_data f)) in
  Ok (dst ++ leb_encode n ++ f_data f).

(** A read of exactly [n] bytes from a stream holding [rx]. *)
Definition read_exact (n : N) (rx : bytes) : io_result (bytes * bytes) :=
  if (len rx <? n)%N then Err UnexpectedEof
  else Ok (take (N.to_nat n) rx, drop (N.to_nat n) rx).

Definition read_u8 (rx : bytes) : io_result (byte * bytes) :=
  match rx with
  | [] => Err UnexpectedEof
  | b :: rx => Ok (b, rx)
  end.

Definition read_name (max_len : N) (rx : bytes) : io_result (bytes * bytes) :=
  let? (n, rx) := leb_read 32 rx in
  if (max_len <? n)%N then Err InvalidData
  else
    let? (buf, rx) := read_exact n rx in
    if utf8_valid buf then Ok (buf, rx) else Err InvalidData.

Definition HeaderDecoder_read (d : HeaderDecoder) (rx : bytes) :
    result HeaderReadError (Header * bytes) :=
  let? (v, rx) := map_err IO (read_u8 rx) in
  if decide (v = PROTOCOL) then
    let? (instance, rx) := map_err IO (read_name (hd_max_instance_len d) rx) in
    let? (name, rx) := map_err IO (read_name (hd_max_name_len d) rx) in
    Ok (mkHeader instance name, rx)
  else Err (UnsupportedVersion v).

Definition encode_invocation `{CoreName} (buf instance func : bytes) (params_len : N) :
    io_result bytes :=
  let? params_len := u32_try_from params_len in
  let buf := buf ++ [PROTOCOL] in
  let? i := name_encode instance in
  let buf := buf ++ i in
  let? f := name_encode func in
  let buf := buf ++ f in
  if (0 <? params_len)%N then Ok (buf ++ [x00] ++ leb_encode params_len) else Ok buf.

(** The calls a reader makes, which appends the received [chunks] to its
    buffer and calls [decode] until it asks for more input. *)
Inductive decodes : Decoder → bytes → list bytes → list Frame → Decoder → bytes → Prop :=
  | decodes_end d buf d' buf' :
      Decoder_decode d buf = (Ok None, d', buf') → decodes d buf [] [] d' buf'
  | decodes_more d buf d1 buf1 c chunks fs d' buf' :
      Decoder_decode d buf = (Ok None, d1, buf1) →
      decodes d1 (buf1 ++ c) chunks fs d' buf' →
      decodes d buf (c :: chunks) fs d' buf'
  | decodes_frame d buf f d1 buf1 chunks fs d' buf' :
      Decoder_decode d buf = (Ok (Some f), d1, buf1) →
      decodes d1 buf1 chunks fs d' buf' →
      decodes d buf chunks (f :: fs) d' buf'.

(** ** Specification *)

(** The encoding of a path and of a frame, as a function. *)
Definition path_bytes (path : list N) : bytes :=
  leb_encode (len path) ++ concat (leb_encode <$> path).

Definition frame_bytes (f : Frame) : bytes :=
  path_bytes (f_path f) ++ leb_encode (len (f_data f)) ++ f_data f.

(** The frame fits the 32-bit integers of the framing. *)
Definition frame_fits (f : Frame) : Prop :=
  (len (f_path f) ≤ u32_MAX)%N ∧ Forall (λ p, p ≤ u32_MAX)%N (f_path f)
  ∧ (len (f_data f) ≤ u32_MAX)%N.

(** The frame is within the limits of the decoder. *)
Definition frame_within (d : Decoder) (f : Frame) : Prop :=
  (len (f_path f) ≤ d_max_depth d)%N ∧ (len (f_data f) ≤ d_max_size d)%N.

(** The decoder is between two frames. *)
Definition idle (d : Decoder) : Prop :=
  d_path d = None ∧ d_path_cap d = 0 ∧ d_data_len d = 0%N.

(** What the decoder keeps between two calls. *)
Definition Decoder_wf (d : Decoder) : Prop :=
  match d_path d with
  | None => d_path_cap d = 0 ∧ d_data_len d = 0%N
  | Some path =>
      (len path + N.of_nat (d_path_cap d) ≤ d_max_depth d)%N ∧
      (d_data_len d ≤ d_max_size d)%N ∧ (d_data_len d ≠ 0%N → d_path_cap d = 0)
  end.

End codec.

(** ** Lemmas *)

Section lemmas.
Context `{Leb128Laws}.

Lemma decode_path_bytes path acc rest :
  Forall (λ p, p ≤ u32_MAX)%N path →
  decode_path (length path) acc (concat (leb_encode <$> path) ++ rest)
  = PathDone (acc ++ path) rest.
Proof.
  revert acc. induction path as [|p path IH]; intros acc Hp; simpl.
  { by rewrite app_nil_r. }
  inversion Hp; subst. rewrite <- (assoc (++)), leb_decode_encode by done.
  rewrite IH by done. by rewrite <- (assoc (++)).
Qed.

Lemma encode_path_spec path dst :
  Forall (λ p, p ≤ u32_MAX)%N path →
  encode_path path dst = Ok (dst ++ concat (leb_encode <$> path)).
Proof.
  revert dst. induction path as [|p path IH]; intros dst Hp; simpl.
  { by rewrite app_nil_r. }
  inversion Hp; subst. rewrite u32_try_from_fit by done. simpl.
  rewrite IH by done. by rewrite <- (assoc (++)).
Qed.

Lemma encode_path_err path dst :
  ¬ Forall (λ p, p ≤ u32_MAX)%N path → encode_path path dst = Err InvalidInput.
Proof.
  revert dst. induction path as [|p path IH]; intros dst Hp; simpl.
  { by destruct Hp. }
  destruct (u32_try_from p) as [q|e] eqn:E; simpl.
  - apply u32_try_from_ok in E as [-> ?]. apply IH. intros ?. apply Hp. by constructor.
  - apply u32_try_from_err in E as [-> ?]. done.
Qed.

Lemma Encoder_encode_spec f dst :
  frame_fits f → Encoder_encode f dst = Ok (dst ++ frame_bytes f).
Proof.
  intros (? & ? & ?). unfold Encoder_encode, frame_bytes, path_bytes.
  rewrite !u32_try_from_fit by done. simpl.
  rewrite encode_path_spec by done. simpl. by rewrite <- !(assoc (++)).
Qed.

Lemma decode_path_app cap path src more :
  match decode_path cap path src with
  | PathDone p s => decode_path cap path (src ++ more) = PathDone p (s ++ more)
  | PathMore c p s => decode_path cap path (src ++ more) = decode_path c p (s ++ more)
  | PathErr e c s => decode_path cap path (src ++ more) = PathErr e c (s ++ more)
  end.
Proof.
  revert path src. induction cap as [|cap IH]; intros path src; simpl; [done|].
  destruct (leb_decode_u32 src) as [[[i s]|]|e] eqn:E.
  - rewrite (leb_decode_some_app _ _ _ more E). apply IH.
  - done.
  - by rewrite (leb_decode_err_app _ _ more E).
Qed.

Lemma decode_path_inv cap path src :
  match decode_path cap path src with
  | PathDone p _ => length p = length path + cap
  | PathMore c p _ => length p + c = length path + cap ∧ length path ≤ length p ∧ 0 < c
  | PathErr _ _ _ => True
  end.
Proof.
  revert path src. induction cap as [|cap IH]; intros path src; simpl; [lia|].
  destruct (leb_decode_u32 src) as [[[i s]|]|e]; [|lia|done].
  specialize (IH (path ++ [i]) s). rewrite length_app in IH. simpl in IH.
  destruct (decode_path cap (path ++ [i]) s); lia.
Qed.

(** The decoder does not look at the state of the path loop once it is
    complete: resuming with more input is decoding the whole input. *)
Lemma decode_data_resume d path src d1 src1 more :
  decode_data d path src = (Ok None, d1, src1) →
  decode_rest d1 (d_path_cap d1) (default [] (d_path d1)) (src1 ++ more)
  = decode_data d path (src ++ more) ∧ is_Some (d_path d1).
Proof.
  unfold decode_data. destruct (N.eqb_spec (d_data_len d) 0) as [E|E].
  - destruct (leb_decode_u32 src) as [[[n s]|]|e] eqn:EL; [| |done].
    + rewrite (leb_decode_some_app _ _ _ more EL).
      destruct (N.ltb_spec (d_max_size d) n); [done|].
      destruct (N.eqb_spec n 0); [done|].
      destruct (N.ltb_spec 0 (n - len s)); [|done].
      intros [= <- <-]. split; [|by eexists]. simpl. unfold decode_rest, decode_data; simpl.
      by destruct (N.eqb_spec n 0).
    + intros [= <- <-]. split; [|by eexists]. done.
  - destruct (N.ltb_spec 0 (d_data_len d - len src)); [|done].
    intros [= <- <-]. split; [|by eexists]. simpl. unfold decode_rest, decode_data; simpl.
    by destruct (N.eqb_spec (d_data_len d) 0).
Qed.

Lemma decode_rest_resume d cap path src d1 src1 more :
  decode_rest d cap path src = (Ok None, d1, src1) →
  Decoder_decode d1 (src1 ++ more) = decode_rest d cap path (src ++ more).
Proof.
  unfold decode_rest at 1. pose proof (decode_path_app cap path src more) as Ha.
  destruct (decode_path cap path src) as [p s|c p s|e c s] eqn:E; [| |done].
  - intros Hd. destruct (decode_data_resume _ _ _ _ _ more Hd) as [Hr [p' Hp']].
    unfold Decoder_decode. rewrite Hp' in Hr |- *. simpl in Hr. rewrite Hr.
    unfold decode_rest. by rewrite Ha.
  - intros [= <- <-]. unfold Decoder_decode; simpl. unfold decode_rest; simpl.
    rewrite Ha. destruct (decode_path c p (s ++ more)); done.
Qed.

Lemma decode_data_wf d path src r d1 src1 :
  decode_data d path src = (Ok r, d1, src1) →
  (len path ≤ d_max_depth d)%N → (d_data_len d ≤ d_max_size d)%N →
  Decoder_wf d1 ∧ d_max_depth d1 = d_max_depth d ∧ d_max_size d1 = d_max_size d ∧
  match r with Some f => frame_within d f ∧ idle d1 | None => True end.
Proof.
  unfold decode_data. intros Hd Hp Hs.
  assert (∀ n s, (n ≤ d_max_size d)%N → (0 <? n - len s)%N = false →
    frame_within d (mkFrame path (take (N.to_nat n) s))) as Hw.
  { intros n s Hn _. split; simpl; [done|]. unfold len. rewrite length_take. lia. }
  destruct (d_data_len d =? 0)%N eqn:E0.
  - destruct (leb_decode_u32 src) as [[[n s]|]|e]; [| |done].
    + destruct (N.ltb_spec (d_max_size d) n); [done|].
      destruct (N.eqb_spec n 0).
      { injection Hd as <- <- <-. repeat split; simpl; rewrite ?len_nil; try done; lia. }
      destruct (0 <? n - len s)%N eqn:E; injection Hd as <- <- <-;
        repeat split; simpl; try done; try lia. eapply Hw; done.
    + injection Hd as <- <- <-. repeat split; simpl; try done; lia.
  - destruct (0 <? d_data_len d - len src)%N eqn:E; injection Hd as <- <- <-;
      repeat split; simpl; try done; try lia. by eapply Hw.
Qed.

Lemma decode_rest_wf d cap path src r d1 src1 :
  decode_rest d cap path src = (Ok r, d1, src1) →
  (len path + N.of_nat cap ≤ d_max_depth d)%N → (d_data_len d ≤ d_max_size d)%N →
  (d_data_len d ≠ 0%N → cap = 0) →
  Decoder_wf d1 ∧ d_max_depth d1 = d_max_depth d ∧ d_max_size d1 = d_max_size d ∧
  match r with Some f => frame_within d f ∧ idle d1 | None => True end.
Proof.
  unfold decode_rest. intros Hd Hp Hs Hc. pose proof (decode_path_inv cap path src) as Hi.
  destruct (decode_path cap path src) as [p s|c p s|e c s]; [| |done].
  - eapply decode_data_wf; [done| |done]. unfold len in *. lia.
  - injection Hd as <- <- <-. unfold Decoder_wf; simpl. unfold len in *.
    repeat split; try done; lia.
Qed.

Lemma Decoder_decode_wf d src r d1 src1 :
  Decoder_wf d → Decoder_decode d src = (Ok r, d1, src1) →
  Decoder_wf d1 ∧ d_max_depth d1 = d_max_depth d ∧ d_max_size d1 = d_max_size d ∧
  match r with Some f => frame_within d f ∧ idle d1 | None => True end.
Proof.
  unfold Decoder_decode, Decoder_wf at 1. destruct (d_path d) as [p|] eqn:Ep.
  - intros (? & ? & ?) Hd. by eapply decode_rest_wf.
  - intros [? ?] Hd. destruct (leb_decode_u32 src) as [[[n s]|]|e]; [| |done].
    + destruct (N.ltb_spec (d_max_depth d) n); [done|].
      eapply decode_rest_wf; [done| |lia|done]. rewrite len_nil. lia.
    + injection Hd as <- <- <-. unfold Decoder_wf. rewrite Ep. done.
Qed.

Lemma Decoder_decode_frame d f rest :
  idle d → frame_fits f → frame_within d f →
  Decoder_decode d (frame_bytes f ++ rest) = (Ok (Some f), d, rest).
Proof.
  destruct d as [path cap dl depth size], f as [p data].
  intros (Hp & Hc & Hl) (Hf1 & Hf2 & Hf3) [Hw1 Hw2]; simpl in *; subst.
  unfold Decoder_decode, frame_bytes, path_bytes; simpl.
  rewrite <- !(assoc (++)), leb_decode_encode by done.
  destruct (N.ltb_spec depth (len p)); [lia|].
  unfold decode_rest, len. rewrite Nat2N.id, decode_path_bytes by done. simpl.
  unfold decode_data; simpl. fold (len data).
  rewrite leb_decode_encode by done.
  destruct (N.ltb_spec size (len data)); [lia|].
  destruct (N.eqb_spec (len data) 0) as [E|E].
  { apply len_0 in E as ->. done. }
  destruct (N.ltb_spec 0 (len data - len (data ++ rest))) as [Hlt|_].
  { rewrite len_app in Hlt. lia. }
  unfold len. by rewrite Nat2N.id, take_app_length, drop_app_length.
Qed.

Lemma Decoder_decode_resume d a d1 a1 b :
  Decoder_decode d a = (Ok None, d1, a1) →
  Decoder_decode d1 (a1 ++ b) = Decoder_decode d (a ++ b).
Proof.
  unfold Decoder_decode at 1. destruct (d_path d) as [p|] eqn:Ep.
  - intros Hd. rewrite (decode_rest_resume _ _ _ _ _ _ b Hd).
    unfold Decoder_decode. by rewrite Ep.
  - destruct (leb_decode_u32 a) as [[[n s]|]|e] eqn:E; [| |done].
    + destruct (N.ltb_spec (d_max_depth d) n) as [|Hn]; [done|].
      intros Hd. rewrite (decode_rest_resume _ _ _ _ _ _ b Hd).
      unfold Decoder_decode. rewrite Ep, (leb_decode_some_app _ _ _ b E).
      by destruct (N.ltb_spec (d_max_depth d) n); [lia|].
    + by intros [= <- <-].
Qed.

(** *** More input *)

Lemma decode_data_app d path src more :
  match decode_data d path src with
  | (Ok None, _, _) => True
  | (r, d1, s1) => decode_data d path (src ++ more) = (r, d1, s1 ++ more)
  end.
Proof.
  assert (∀ n s, (0 <? n - len s)%N = false →
    (0 <? n - len (s ++ more))%N = false ∧
    take (N.to_nat n) (s ++ more) = take (N.to_nat n) s ∧
    drop (N.to_nat n) (s ++ more) = drop (N.to_nat n) s ++ more) as Hs.
  { intros n s ?%N.ltb_ge. split; [apply N.ltb_ge; len_lia|].
    split; [apply take_app_le|apply drop_app_le]; len_lia. }
  unfold decode_data. destruct (d_data_len d =? 0)%N.
  - destruct (leb_decode_u32 src) as [[[n s]|]|e] eqn:EL; [| done |].
    + rewrite (leb_decode_some_app _ _ _ more EL).
      destruct (d_max_size d <? n)%N; [done|]. destruct (n =? 0)%N; [done|].
      destruct (0 <? n - len s)%N eqn:E; [done|].
      by destruct (Hs _ _ E) as (-> & -> & ->).
    + by rewrite (leb_decode_err_app _ _ more EL).
  - destruct (0 <? d_data_len d - len src)%N eqn:E; [done|].
    by destruct (Hs _ _ E) as (-> & -> & ->).
Qed.

Lemma decode_rest_app d cap path src more :
  match decode_rest d cap path src with
  | (Ok None, _, _) => True
  | (r, d1, s1) => decode_rest d cap path (src ++ more) = (r, d1, s1 ++ more)
  end.
Proof.
  unfold decode_rest. pose proof (decode_path_app cap path src more) as Ha.
  destruct (decode_path cap path src) as [p s|c p s|e c s]; [|done|by rewrite Ha].
  rewrite Ha. apply decode_data_app.
Qed.

Lemma Decoder_decode_app d src more :
  match Decoder_decode d src with
  | (Ok None, _, _) => True
  | (r, d1, s1) => Decoder_decode d (src ++ more) = (r, d1, s1 ++ more)
  end.
Proof.
  unfold Decoder_decode. destruct (d_path d); [apply decode_rest_app|].
  destruct (leb_decode_u32 src) as [[[n s]|]|e] eqn:EL; [|done|].
  - rewrite (leb_decode_some_app _ _ _ more EL).
    destruct (d_max_depth d <? n)%N; [done|]. apply decode_rest_app.
  - by rewrite (leb_decode_err_app _ _ more EL).
Qed.

Lemma Decoder_decode_empty d : idle d → Decoder_decode d [] = (Ok None, d, []).
Proof.
  intros (Hp & _). unfold Decoder_decode. rewrite Hp.
  rewrite (leb_decode_incomplete 0 []); [done| |apply prefix_nil|].
  - apply N.le_0_l.
  - intros E. symmetry in E. by apply leb_encode_nonempty in E.
Qed.

(** The calls depend on the state only through the next result. *)
Lemma decodes_ext d b d2 b2 cs fs d' b' :
  Decoder_decode d b = Decoder_decode d2 b2 →
  decodes d b cs fs d' b' → decodes d2 b2 cs fs d' b'.
Proof.
  intros E. destruct 1; rewrite E in *;
    [eapply decodes_end|eapply decodes_more|eapply decodes_frame]; eassumption.
Qed.

Lemma decodes_split d buf c cs fs d' b' :
  decodes d (buf ++ c) cs fs d' b' → decodes d buf (c :: cs) fs d' b'.
Proof.
  remember (buf ++ c) as bc eqn:Hbc. intros Hd. revert buf Hbc.
  assert (∀ d buf fs, decodes d (buf ++ c) cs fs d' b' →
    ∀ d1 b1, Decoder_decode d buf = (Ok None, d1, b1) →
    decodes d buf (c :: cs) fs d' b') as Hmore.
  { intros d0 buf fs0 Hd0 d1 b1 E. eapply decodes_more; [done|].
    eapply decodes_ext; [|exact Hd0]. symmetry. by apply Decoder_decode_resume. }
  induction Hd as [d b d1 b1 E|d b d1 b1 c' cs' fs d2 b2 E Hd IH|d b f d1 b1 cs' fs d2 b2 E Hd IH];
    intros buf ->; pose proof (Decoder_decode_app d buf c) as Ha;
    destruct (Decoder_decode d buf) as [[[[f'|]|e] d3] b3] eqn:E3; rewrite ?E in Ha;
    try (simplify_eq; done).
  - eapply Hmore; [by eapply decodes_end|done].
  - eapply Hmore; [by eapply decodes_more|done].
  - simplify_eq. eapply decodes_frame; [done|]. by apply IH.
  - eapply Hmore; [by eapply decodes_frame|done].
Qed.

Lemma decodes_chunks d buf cs fs d' b' :
  decodes d (buf ++ concat cs) [] fs d' b' → decodes d buf cs fs d' b'.
Proof.
  revert buf. induction cs as [|c cs IH]; intros buf; simpl.
  { by rewrite app_nil_r. }
  rewrite (assoc (++)). intros Hd. by apply decodes_split, IH.
Qed.

Lemma decodes_frames d fs :
  idle d → Forall frame_fits fs → Forall (frame_within d) fs →
  decodes d (concat (frame_bytes <$> fs)) [] fs d [].
Proof.
  intros Hd. induction fs as [|f fs IH]; intros Hf Hw; simpl.
  - by apply decodes_end, Decoder_decode_empty.
  - inversion Hf; inversion Hw; subst. eapply decodes_frame.
    + by apply Decoder_decode_frame.
    + by apply IH.
Qed.

Lemma decodes_within d buf cs fs d' b' :
  decodes d buf cs fs d' b' → Decoder_wf d → Forall (frame_within d) fs.
Proof.
  induction 1 as [|d b d1 b1 c cs fs d2 b2 E Hd IH|d b f d1 b1 cs fs d2 b2 E Hd IH]; intros Hwf.
  - done.
  - destruct (Decoder_decode_wf _ _ _ _ _ Hwf E) as (Hwf1 & E1 & E2 & _).
    unfold frame_within in *. rewrite E1, E2 in IH. by apply IH.
  - destruct (Decoder_decode_wf _ _ _ _ _ Hwf E) as (Hwf1 & E1 & E2 & ? & _).
    constructor; [done|]. unfold frame_within in *. rewrite E1, E2 in IH. by apply IH.
Qed.

End lemmas.

(** ** Headers *)

Section header.
Context `{Leb128Laws} `{!CoreName} `{!CoreNameLaws}.

Lemma read_exact_app buf rest : read_exact (len buf) (buf ++ rest) = Ok (buf, rest).
Proof.
  unfold read_exact. destruct (N.ltb_spec (len (buf ++ rest)) (len buf)) as [Hlt|_].
  { rewrite len_app in Hlt. lia. }
  unfold len. by rewrite Nat2N.id, take_app_length, drop_app_length.
Qed.

Lemma read_name_spec max s rest :
  (len s ≤ u32_MAX)%N →
  read_name max (leb_encode (len s) ++ s ++ rest) =
  if (max <? len s)%N then Err InvalidData
  else if utf8_valid s then Ok (s, rest) else Err InvalidData.
Proof.
  intros Hs. unfold read_name. rewrite leb_read_u32_encode by done. simpl.
  destruct (max <? len s)%N; [done|]. by rewrite read_exact_app.
Qed.

Lemma encode_invocation_spec buf instance func n :
  (len instance ≤ u32_MAX)%N → (len func ≤ u32_MAX)%N → (n ≤ u32_MAX)%N →
  encode_invocation buf instance func n =
  Ok (buf ++ PROTOCOL :: (leb_encode (len instance) ++ instance) ++
      (leb_encode (len func) ++ func) ++
      (if (0 <? n)%N then x00 :: leb_encode n else [])).
Proof.
  intros. unfold encode_invocation. rewrite u32_try_from_fit by done. simpl.
  rewrite !name_encode_fit by done. simpl.
  destruct (0 <? n)%N; rewrite <- !(assoc (++)); simpl; by rewrite ?app_nil_r.
Qed.

Lemma header_read_invocation hd instance func n rest :
  utf8_valid instance = true → utf8_valid func = true →
  (len instance ≤ u32_MAX)%N → (len func ≤ u32_MAX)%N → (n ≤ u32_MAX)%N →
  (len instance ≤ hd_max_instance_len hd)%N → (len func ≤ hd_max_name_len hd)%N →
  ∃ e, encode_invocation [] instance func n = Ok e ∧
    HeaderDecoder_read hd (e ++ rest) =
    Ok (mkHeader instance func, (if (0 <? n)%N then x00 :: leb_encode n else []) ++ rest).
Proof.
  intros Hu1 Hu2 Hi Hf Hn Hl1 Hl2. rewrite encode_invocation_spec by done.
  eexists. split; [done|]. unfold HeaderDecoder_read. simpl.
  rewrite <- !(assoc (++)).
  rewrite read_name_spec, Hu1 by done.
  destruct (N.ltb_spec (hd_max_instance_len hd) (len instance)); [lia|]. simpl.
  rewrite read_name_spec, Hu2 by done.
  by destruct (N.ltb_spec (hd_max_name_len hd) (len func)); [lia|].
Qed.

End header.

(** ** Determinism of the calls *)

Lemma decodes_det `{Leb128} d buf cs fs d' buf' fs2 d2 buf2 :
  decodes d buf cs fs d' buf' → decodes d buf cs fs2 d2 buf2 →
  fs = fs2 ∧ d' = d2 ∧ buf' = buf2.
Proof.
  intros Hd. revert fs2 d2 buf2.
  induction Hd; intros fs2 d2 buf2 Hd2; inversion Hd2; subst;
    match goal with
    | H1 : Decoder_decode ?d ?b = _, H2 : Decoder_decode ?d ?b = _ |- _ =>
        rewrite H1 in H2; simplify_eq
    end; try done.
  - by apply IHHd.
  - destruct (IHHd _ _ _ ltac:(eassumption)) as (-> & -> & ->). done.
Qed.

(** ** Properties *)

(** Encoding a frame which fits the 32-bit integers of the framing and
    decoding the result, followed by any other bytes, with an idle decoder
    whose limits admit the frame gives back exactly that frame, consumes
    exactly its encoding and leaves the decoder idle. *)
Theorem frame_roundtrip `{Leb128Laws} f dst d rest :
  frame_fits f → idle d → frame_within d f →
  ∃ e, Encoder_encode f dst = Ok (dst ++ e) ∧
       Decoder_decode d (e ++ rest) = (Ok (Some f), d, rest).
Proof.
  intros Hf Hd Hw. exists (frame_bytes f). split.
  - by apply Encoder_encode_spec.
  - by apply Decoder_decode_frame.
Qed.

(** The decoder may be interrupted anywhere.  If it asks for more input
    after [a], then continuing with the bytes it left over followed by [b] has
    the result, the final state and the leftover of decoding [a ++ b] at once,
    errors included. *)
Theorem decode_resumable `{Leb128Laws} d a d1 a1 b :
  Decoder_decode d a = (Ok None, d1, a1) →
  Decoder_decode d1 (a1 ++ b) = Decoder_decode d (a ++ b).
Proof. apply Decoder_decode_resume. Qed.

(** [C7] a reader which receives the encodings of a sequence of frames split
    into chunks at arbitrary positions gets exactly these frames, in order,
    and ends between two frames with an empty buffer. *)
Theorem decode_frames_any_chunking `{Leb128Laws} d fs cs :
  idle d → Forall frame_fits fs → Forall (frame_within d) fs →
  concat cs = concat (frame_bytes <$> fs) →
  ∀ fs' d' buf', decodes d [] cs fs' d' buf' ↔ fs' = fs ∧ d' = d ∧ buf' = [].
Proof.
  intros Hd Hf Hw Hc fs' d' buf'.
  assert (decodes d [] cs fs d []) as Hdec.
  { apply decodes_chunks. simpl. rewrite Hc. by apply decodes_frames. }
  split.
  - intros Hd'. destruct (decodes_det _ _ _ _ _ _ _ _ _ Hd' Hdec) as (-> & -> & ->). done.
  - by intros (-> & -> & ->).
Qed.

(** Whatever bytes are received and however they are split, no frame whose
    path is longer than [max_depth] or whose data is longer than [max_size] is
    ever produced by a decoder constructed with these limits. *)
Theorem decode_enforces_limits `{Leb128Laws} max_depth max_size cs fs d' buf' :
  decodes (Decoder_new max_depth max_size) [] cs fs d' buf' →
  Forall (λ f, (len (f_path f) ≤ max_depth)%N ∧ (len (f_data f) ≤ max_size)%N) fs.
Proof. intros Hd. by apply decodes_within in Hd. Qed.

(** A frame over the limits is rejected with [InvalidInput] as soon as the
    length which exceeds them is received: a path longer than [max_depth]
    before any of its elements, a payload longer than [max_size] before any of
    its bytes. *)
Theorem decode_rejects_oversized `{Leb128Laws} d path n rest :
  idle d → (len path ≤ u32_MAX)%N → Forall (λ p, p ≤ u32_MAX)%N path → (n ≤ u32_MAX)%N →
  (d_max_depth d < len path)%N ∨ (d_max_size d < n)%N →
  ∃ d' src',
    Decoder_decode d
      ((if (d_max_depth d <? len path)%N then leb_encode (len path)
        else path_bytes path ++ leb_encode n) ++ rest)
    = (Err InvalidInput, d', src').
Proof.
  intros (Hp & Hc & Hl) Hlen Hall Hn Hor. unfold Decoder_decode. rewrite Hp.
  destruct (N.ltb_spec (d_max_depth d) (len path)) as [Hlt|Hge].
  - rewrite leb_decode_encode by done.
    destruct (N.ltb_spec (d_max_depth d) (len path)); [eauto|lia].
  - destruct Hor as [?|Hn2]; [lia|]. unfold path_bytes.
    rewrite <- !app_assoc, leb_decode_encode by done.
    destruct (N.ltb_spec (d_max_depth d) (len path)); [lia|].
    unfold decode_rest, len. rewrite Nat2N.id, decode_path_bytes by done.
    unfold decode_data. rewrite Hl; simpl. rewrite leb_decode_encode by done.
    destruct (N.ltb_spec (d_max_size d) n); [eauto|lia].
Qed.

(** The server reads back from the bytes of an invocation exactly the
    instance and function names the client encoded, provided they are within
    its limits, and what follows the header is the first frame, the one of the
    root path carrying [params_len] bytes, or nothing when there are no
    synchronous parameters. *)
Theorem invocation_roundtrip `{Leb128Laws} `{!CoreName} `{!CoreNameLaws}
    hd instance func params_len rest :
  utf8_valid instance = true → utf8_valid func = true →
  (len instance ≤ u32_MAX)%N → (len func ≤ u32_MAX)%N → (params_len ≤ u32_MAX)%N →
  (len instance ≤ hd_max_instance_len hd)%N → (len func ≤ hd_max_name_len hd)%N →
  ∃ e, encode_invocation [] instance func params_len = Ok e ∧
    HeaderDecoder_read hd (e ++ rest) =
    Ok (mkHeader instance func,
        (if (0 <? params_len)%N then x00 :: leb_encode params_len else []) ++ rest).
Proof.
  apply header_read_invocation.
Qed.

(** Reading a header fails with [UnsupportedVersion] on any other version
    byte, with [InvalidData] when the instance name is longer than the limit
    or is not UTF-8, whatever follows its length, and with [UnexpectedEof] when
    the stream ends inside the name. *)
Theorem header_errors `{Leb128Laws} hd v s cut rest :
  (len s ≤ u32_MAX)%N → 
  (v ≠ PROTOCOL → HeaderDecoder_read hd (v :: rest) = Err (UnsupportedVersion v)) ∧
  ((hd_max_instance_len hd < len s)%N →
    HeaderDecoder_read hd (PROTOCOL :: leb_encode (len s) ++ rest) = Err (IO InvalidData)) ∧
  (utf8_valid s = false →
    HeaderDecoder_read hd (PROTOCOL :: leb_encode (len s) ++ s ++ rest) = Err (IO InvalidData)) ∧
  ((len s ≤ hd_max_instance_len hd)%N → cut < length s →
    HeaderDecoder_read hd (PROTOCOL :: leb_encode (len s) ++ take cut s)
    = Err (IO UnexpectedEof)) ∧
  HeaderDecoder_read hd [] = Err (IO UnexpectedEof).
Proof.
  intros Hs. unfold HeaderDecoder_read; simpl. split_and!; [| | | |done].
  - intros ?. by rewrite decide_False.
  - intros Hlt. unfold read_name. rewrite leb_read_u32_encode by done. simpl.
    by destruct (N.ltb_spec (hd_max_instance_len hd) (len s)); [|lia].
  - intros Hu. rewrite read_name_spec, Hu by done. by destruct (_ <? _)%N.
  - intros Hle Hcut. unfold read_name. rewrite leb_read_u32_encode by done. simpl.
    destruct (N.ltb_spec (hd_max_instance_len hd) (len s)); [lia|].
    unfold read_exact. destruct (N.ltb_spec (len (take cut s)) (len s)); [done|len_lia].
Qed.

(** ** Witnesses

    The hypotheses hold on concrete inputs, with the encoding of the
    WebAssembly specification for the LEB128 primitives. *)

#[local] Existing Instance leb128_std.
#[local] Existing Instance leb128_std_laws.

Definition name_std : CoreName := {|
  name_encode s := let? n := u32_try_from (len s) in Ok (leb_encode n ++ s)
|}.

Lemma name_std_laws : @CoreNameLaws leb128_std name_std.
Proof. split. intros s Hs. cbn [name_encode name_std]. by rewrite u32_try_from_fit. Qed.

#[local] Existing Instance name_std.
#[local] Existing Instance name_std_laws.

(** The frame of [codec.rs]'s unit test. *)
Definition test_frame : Frame := mkFrame [0; 1; 2]%N [x74; x65; x73; x74].

Lemma test_frame_fits : frame_fits test_frame.
Proof. unfold frame_fits, u32_MAX, len; simpl. repeat constructor; lia. Defined.

Lemma test_frame_within : frame_within Decoder_default test_frame.
Proof. unfold frame_within; vm_compute. by split. Defined.

Example test_frame_encode :
  Encoder_encode test_frame [] =
  Ok [x03; x00; x01; x02; x04; x74; x65; x73; x74].
Proof. vm_compute. reflexivity. Qed.

Lemma frame_roundtrip_witness :
  ∃ e, Encoder_encode test_frame [x2a] = Ok ([x2a] ++ e) ∧
       Decoder_decode Decoder_default (e ++ [x00]) = (Ok (Some test_frame), Decoder_default, [x00]).
Proof.
  apply (frame_roundtrip test_frame [x2a] Decoder_default [x00]).
  - exact test_frame_fits.
  - by vm_compute.
  - exact test_frame_within.
Defined.

Lemma decode_resumable_witness :
  Decoder_decode (mkDecoder (Some [0; 1]%N) 1 0 64 (N.shiftl 16 20)) ([] ++ [x02; x00])
  = Decoder_decode Decoder_default ([x03; x00; x01] ++ [x02; x00]).
Proof. apply (decode_resumable _ [x03; x00; x01]). vm_compute. reflexivity. Defined.

Lemma decode_frames_any_chunking_witness :
  decodes Decoder_default [] [[x03; x00; x01]; [x02; x04; x74]; []; [x65; x73; x74]]
    [test_frame] Decoder_default [].
Proof.
  apply (decode_frames_any_chunking Decoder_default [test_frame]
           [[x03; x00; x01]; [x02; x04; x74]; []; [x65; x73; x74]]).
  - by vm_compute.
  - constructor; [exact test_frame_fits|constructor].
  - constructor; [exact test_frame_within|constructor].
  - vm_compute. reflexivity.
  - done.
Defined.

Lemma decode_enforces_limits_witness :
  Forall (λ f, (len (f_path f) ≤ 3)%N ∧ (len (f_data f) ≤ 4)%N) [mkFrame [5]%N [x2a]].
Proof.
  eapply (decode_enforces_limits 3 4 [[x01; x05; x01; x2a]]).
  eapply decodes_more; [vm_compute; reflexivity|].
  eapply decodes_frame; [vm_compute; reflexivity|].
  eapply decodes_end. vm_compute. reflexivity.
Defined.

Lemma decode_rejects_oversized_witness :
  ∃ d' src', Decoder_decode (Decoder_new 3 4) ([x01; x05; x05] ++ [x2a]) = (Err InvalidInput, d', src').
Proof.
  change [x01; x05; x05] with
    (if (d_max_depth (Decoder_new 3 4) <? len [5%N])%N then leb_encode (len [5%N])
     else path_bytes [5%N] ++ leb_encode 5).
  apply (decode_rejects_oversized (Decoder_new 3 4) [5]%N 5 [x2a]).
  - by vm_compute.
  - by vm_compute.
  - repeat constructor; by vm_compute.
  - by vm_compute.
  - right. by vm_compute.
Defined.

(** [foo] and [bar], as in the unit test of the limits. *)
Lemma invocation_roundtrip_witness :
  ∃ e, encode_invocation [] [x66; x6f; x6f] [x62; x61; x72] 5 = Ok e ∧
    HeaderDecoder_read HeaderDecoder_default (e ++ [x2a]) =
    Ok (mkHeader [x66; x6f; x6f] [x62; x61; x72], [x00; x05] ++ [x2a]).
Proof.
  change [x00; x05] with (if (0 <? 5)%N then x00 :: leb_encode 5 else []).
  apply (invocation_roundtrip HeaderDecoder_default [x66; x6f; x6f] [x62; x61; x72] 5 [x2a]);
    by vm_compute.
Defined.

Lemma header_errors_witness :
  HeaderDecoder_read (HeaderDecoder_new 2 3) (x01 :: leb_encode 3 ++ [x66]) = Err (IO InvalidData).
Proof.
  refine (proj1 (proj2 (header_errors (HeaderDecoder_new 2 3) x01 [x66; x6f; x6f] 0 [x66] _)) _);
    by vm_compute.
Defined.
