(* ===== verification/Subscriptions.v ===== *)
(** * Subscriptions of the asynchronous paths of an invocation

    Model of [struct Subscriptions] of [crates/transport/src/frame/conn/mod.rs]
    with all of its methods: which paths data may be received for, the channel
    the data of each path goes to and the life time of the elements matched by
    wildcards.

    A [BTreeMap] is a [gmap] whose iteration is in the order of the keys
    ([btree_range]).  The bounded channels between the ingress task and the
    handles are a store of queues shared by both sides: [s_chans] holds the
    queue of every channel whose receiver is alive, a [Subscription] holds the
    identity of its channel as sender ([Open]) and as receiver ([sub_rx]), so
    that dropping a receiver is removing its queue. *)

From S2P Require Import Prelude.

(** ** Ordered maps keyed by slices *)

(** [Ord] of slices: lexicographic. *)
Fixpoint slice_le (a b : list N) : bool :=
  match a, b with
  | [], _ => true
  | _ :: _, [] => false
  | x :: a, y :: b => (x <? y)%N || ((x =? y)%N && slice_le a b)
  end.

Definition starts_with (p path : list N) : bool := bool_decide (path `prefix_of` p).

Definition slice_leP (a b : list N) : Prop := slice_le a b = true.

#[global] Instance slice_leP_dec a b : Decision (slice_leP a b).
Proof. unfold slice_leP. apply _. Defined.

(** The keys of a map, in the order a [BTreeMap] iterates over them. *)
Definition btree_keys {V} (m : gmap (list N) V) : list (list N) :=
  merge_sort slice_leP (map_to_list m).*1.

(** [map.range((Bound::Included(lo), Bound::Unbounded))] *)
Definition btree_range_from {V} (lo : list N) (m : gmap (list N) V) : list (list N) :=
  filter (λ k, slice_leP lo k) (btree_keys m).

(** [map.range((Bound::Included(lo), Bound::Excluded(hi)))] *)
Definition btree_range {V} (lo hi : list N) (m : gmap (list N) V) : list (list N) :=
  filter (λ k, slice_leP lo k ∧ ¬ slice_leP hi k) (btree_keys m).

Fixpoint take_while {A} (P : A → bool) (l : list A) : list A :=
  match l with
  | [] => []
  | x :: l => if P x then x :: take_while P l else []
  end.

(** Removes the entries of [map] at [path] and nested in it, returning them. *)
Definition remove_nested {V} (map : gmap (list N) V) (path : list N) :
    gmap (list N) V * list V :=
  let keys := take_while (λ p, starts_with p path) (btree_range_from path map) in
  (foldl (λ m p, delete p m) map keys, omap (λ p, map !! p) keys).

(** ** Data *)

Definition MAX_UNCLAIMED_ELEMENTS : nat := 64.
Definition MAX_BUFFERED_CHUNKS : nat := 16.

(** Declared path or a prefix of one *)
Record Pattern := mkPattern { p_declared : bool; p_wildcard : option bool }.

Definition Pattern_default : Pattern := mkPattern false None.

(** Sender of a subscribed path; the sender is named by its channel. *)
Inductive TxSlot :=
  | Open (c : N)
  | Closed.

#[global] Instance TxSlot_eq_dec : EqDecision TxSlot.
Proof. solve_decision. Defined.

(** [sub_permit] tells whether the subscription holds a permit. *)
Record Subscription := mkSubscription {
  sub_tx : option TxSlot;
  sub_rx : option N;
  sub_handles : N;
  sub_permit : bool
}.

Definition Subscription_default : Subscription := mkSubscription None None 0 false.

(** [s_permits] is the number of available permits of the semaphore
    [unclaimed], [s_unclaimed_closed] whether it is closed; [s_indexed] is
    whether [indexed] was notified.  [s_chans] and [s_fresh] are the store of
    the channels. *)
Record Subscriptions := mkSubs {
  s_patterns : gmap (list (option N)) Pattern;
  s_subs : gmap (list N) Subscription;
  s_next : gmap (list N) N;
  s_permits : nat;
  s_unclaimed_closed : bool;
  s_indexed : bool;
  s_closed : bool;
  s_depth : nat;
  s_chans : gmap N (list bytes);
  s_fresh : N
}.

(** Destination of a received frame *)
Inductive Route :=
  | RouteTx (slot : TxSlot)
  | RouteNotFound
  | RouteReleased
  | RouteUnclaimed.

(** *** Field updates *)

Definition set_patterns ps st := mkSubs ps (s_subs st) (s_next st) (s_permits st)
  (s_unclaimed_closed st) (s_indexed st) (s_closed st) (s_depth st) (s_chans st) (s_fresh st).
Definition set_subs ss st := mkSubs (s_patterns st) ss (s_next st) (s_permits st)
  (s_unclaimed_closed st) (s_indexed st) (s_closed st) (s_depth st) (s_chans st) (s_fresh st).
Definition set_next nx st := mkSubs (s_patterns st) (s_subs st) nx (s_permits st)
  (s_unclaimed_closed st) (s_indexed st) (s_closed st) (s_depth st) (s_chans st) (s_fresh st).
Definition set_permits n st := mkSubs (s_patterns st) (s_subs st) (s_next st) n
  (s_unclaimed_closed st) (s_indexed st) (s_closed st) (s_depth st) (s_chans st) (s_fresh st).
Definition set_unclaimed_closed b st := mkSubs (s_patterns st) (s_subs st) (s_next st) (s_permits st)
  b (s_indexed st) (s_closed st) (s_depth st) (s_chans st) (s_fresh st).
Definition set_indexed b st := mkSubs (s_patterns st) (s_subs st) (s_next st) (s_permits st)
  (s_unclaimed_closed st) b (s_closed st) (s_depth st) (s_chans st) (s_fresh st).
Definition set_closed b st := mkSubs (s_patterns st) (s_subs st) (s_next st) (s_permits st)
  (s_unclaimed_closed st) (s_indexed st) b (s_depth st) (s_chans st) (s_fresh st).
Definition set_depth n st := mkSubs (s_patterns st) (s_subs st) (s_next st) (s_permits st)
  (s_unclaimed_closed st) (s_indexed st) (s_closed st) n (s_chans st) (s_fresh st).
Definition set_chans cs st := mkSubs (s_patterns st) (s_subs st) (s_next st) (s_permits st)
  (s_unclaimed_closed st) (s_indexed st) (s_closed st) (s_depth st) cs (s_fresh st).

(** [mpsc::channel(MAX_BUFFERED_CHUNKS)] *)
Definition new_chan (st : Subscriptions) : N * Subscriptions :=
  (s_fresh st,
   mkSubs (s_patterns st) (s_subs st) (s_next st) (s_permits st) (s_unclaimed_closed st)
     (s_indexed st) (s_closed st) (s_depth st) (<[s_fresh st := []]> (s_chans st))
     (s_fresh st + 1)).

(** Whether the receiver of a channel holds data. *)
Definition chan_holds_data (chans : gmap N (list bytes)) (rx : option N) : bool :=
  match rx with
  | Some c => match chans !! c with Some (_ :: _) => true | _ => false end
  | None => false
  end.

Definition drop_rx (rx : option N) (chans : gmap N (list bytes)) : gmap N (list bytes) :=
  match rx with
  | Some c => delete c chans
  | None => chans
  end.

(** The permit of a dropped subscription returns to the semaphore, its
    receiver is dropped. *)
Definition drop_subscription (sub : Subscription) (st : Subscriptions) : Subscriptions :=
  set_permits ((if sub_permit sub then 1 else 0) + s_permits st)
    (set_chans (drop_rx (sub_rx sub) (s_chans st)) st).

(** ** Operations *)

(** [Subscription::new(declared)] *)
Definition Subscription_new (declared : bool) (st : Subscriptions) :
    Subscription * Subscriptions :=
  if declared then
    let '(c, st) := new_chan st in
    (mkSubscription (Some (Open c)) (Some c) 0 false, st)
  else (Subscription_default, st).

Definition alter_pattern (f : Pattern → Pattern) (k : list (option N))
    (ps : gmap (list (option N)) Pattern) : gmap (list (option N)) Pattern :=
  <[k := f (default Pattern_default (ps !! k))]> ps.

Definition set_wildcard (b : bool) (p : Pattern) : Pattern := mkPattern (p_declared p) (Some b).
Definition set_declared (p : Pattern) : Pattern := mkPattern true (p_wildcard p).

Definition is_none {A} (o : option A) : bool := match o with None => true | Some _ => false end.

(** [for (k, i) in path.iter().enumerate()]: marks the prefix [pre] of the path
    [pre ++ path] and those longer than it. *)
Fixpoint declare_prefixes (pre path : list (option N))
    (ps : gmap (list (option N)) Pattern) : gmap (list (option N)) Pattern :=
  match path with
  | [] => ps
  | i :: path =>
      declare_prefixes (pre ++ [i]) path (alter_pattern (set_wildcard (is_none i)) pre ps)
  end.

(** Inserts a subscription, dropping the one it replaces, if any. *)
Definition insert_subscription (path : list N) (sub : Subscription) (st : Subscriptions) :
    Subscriptions :=
  let st' := set_subs (<[path := sub]> (s_subs st)) st in
  match s_subs st !! path with
  | Some old => drop_subscription old st'
  | None => st'
  end.

(** [path.iter().copied().collect::<Option<Box<[usize]>>>()] *)
Definition collect (path : list (option N)) : option (list N) := mapM id path.

(** The body of [for path in paths]. *)
Definition declare_path (st : Subscriptions) (path : list (option N)) : Subscriptions :=
  match path with
  | [] => st
  | _ =>
      let st := set_depth (s_depth st `max` length path) st in
      let st := set_patterns (declare_prefixes [] path (s_patterns st)) st in
      let st := set_patterns (alter_pattern set_declared path (s_patterns st)) st in
      match collect path with
      | Some path =>
          let '(sub, st) := Subscription_new true st in
          insert_subscription path sub st
      | None => st
      end
  end.

(** The channel of the root is created by the caller: [tx] names it and its
    receiver is alive. *)
Definition Subscriptions_new (paths : list (list (option N))) (tx : N) : Subscriptions :=
  foldl declare_path
    (mkSubs {[ [] := mkPattern true None ]}
       {[ [] := mkSubscription (Some (Open tx)) None 0 false ]}
       ∅ MAX_UNCLAIMED_ELEMENTS false false false 0 {[ tx := [] ]} (tx + 1))
    paths.

Fixpoint resolve_from (ps : gmap (list (option N)) Pattern) (node : Pattern)
    (pattern : list (option N)) (path : list N) : option (Pattern * list (option N)) :=
  match path with
  | [] => Some (node, pattern)
  | i :: path =>
      w ← p_wildcard node;
      let pattern := pattern ++ [if (w : bool) then None else Some i] in
      node ← ps !! pattern;
      resolve_from ps node pattern path
  end.

Definition resolve (st : Subscriptions) (path : list N) :
    option (Pattern * list (option N)) :=
  node ← s_patterns st !! [];
  resolve_from (s_patterns st) node [] path.

Definition next (st : Subscriptions) (path : list N) : N := default 0%N (s_next st !! path).

(** [pattern.iter().enumerate().filter(|(.., p)| p.is_none())]: the positions
    of the wildcards. *)
Fixpoint wildcards_from (k : nat) (pattern : list (option N)) : list nat :=
  match pattern with
  | [] => []
  | None :: pattern => k :: wildcards_from (S k) pattern
  | Some _ :: pattern => wildcards_from (S k) pattern
  end.

Definition wildcards (pattern : list (option N)) : list nat := wildcards_from 0 pattern.

(** [path[k]], which exists for every position of a wildcard. *)
Definition path_at (path : list N) (k : nat) : N := default 0%N (path !! k).

Definition subscribe (path : list N) (pattern : list (option N)) (st : Subscriptions) :
    Subscriptions :=
  match s_subs st !! path with
  | Some _ => st
  | None =>
      let declared :=
        match s_patterns st !! pattern with Some p => p_declared p | None => false end in
      let '(sub, st) := Subscription_new declared st in
      let sub :=
        if s_closed st then
          mkSubscription None (sub_rx sub) (sub_handles sub) (sub_permit sub)
        else sub in
      set_subs (<[path := sub]> (s_subs st)) st
  end.

(** [self.unclaimed.close()] and [sub.rx.take()] for every subscription. *)
Definition close_rx (st : Subscriptions) : bool * Subscriptions :=
  let pending :=
    existsb (λ kv, chan_holds_data (s_chans st) (sub_rx (kv.2))) (map_to_list (s_subs st)) in
  let chans :=
    foldl (λ cs kv, drop_rx (sub_rx (kv.2)) cs) (s_chans st) (map_to_list (s_subs st)) in
  (pending,
   set_unclaimed_closed true
     (set_chans chans
        (set_subs ((λ sub, mkSubscription (sub_tx sub) None (sub_handles sub) (sub_permit sub))
                   <$> s_subs st) st))).

Definition close_tx_sub (sub : Subscription) : Subscription :=
  match sub_tx sub with
  | Some (Open _) => mkSubscription None (sub_rx sub) (sub_handles sub) (sub_permit sub)
  | _ => sub
  end.

Definition close_tx (st : Subscriptions) : Subscriptions :=
  set_closed true (set_subs (close_tx_sub <$> s_subs st) st).

Definition notify_indexed (st : Subscriptions) : Subscriptions := set_indexed true st.

(** The body of the second loop of [take_rx]. *)
Definition claim_element (path : list N) (pattern : list (option N)) (st : Subscriptions)
    (k : nat) : Subscriptions :=
  let element := take (S k) path in
  let st := subscribe element (take (S k) pattern) st in
  let st :=
    match s_subs st !! element with
    | Some sub =>
        set_permits ((if sub_permit sub then 1 else 0) + s_permits st)
          (set_subs (<[element := mkSubscription (sub_tx sub) (sub_rx sub)
                                    (sub_handles sub + 1) false]> (s_subs st)) st)
    | None => st
    end in
  let st := set_next
    (<[take k path := N.max (next st (take k path))
                        (usize_saturating_add (path_at path k) 1)]> (s_next st)) st in
  notify_indexed st.

(** The element at position [k] of [path] was released. *)
Definition element_released (st : Subscriptions) (path : list N) (k : nat) : bool :=
  is_none (s_subs st !! take (S k) path) && (path_at path k <? next st (take k path))%N.

(** [self.subs.get(path).is_some_and(|sub| sub.rx.is_none())] *)
Definition rx_taken (st : Subscriptions) (path : list N) : bool :=
  match s_subs st !! path with
  | Some sub => is_none (sub_rx sub)
  | None => false
  end.

Definition take_sub_rx (path : list N) (st : Subscriptions) : option N * Subscriptions :=
  match s_subs st !! path with
  | Some sub =>
      (sub_rx sub,
       set_subs (<[path := mkSubscription (sub_tx sub) None (sub_handles sub)
                             (sub_permit sub)]> (s_subs st)) st)
  | None => (None, st)
  end.

Definition take_rx (path : list N) (st : Subscriptions) :
    option (option N) * Subscriptions :=
  match resolve st path with
  | None => (None, st)
  | Some (node, pattern) =>
      if existsb (element_released st path) (wildcards pattern) then (None, st)
      else if p_declared node && is_none (p_wildcard node) && rx_taken st path then (None, st)
      else
        let st := foldl (claim_element path pattern) st (wildcards pattern) in
        if p_declared node then
          let st := subscribe path pattern st in
          let '(rx, st) := take_sub_rx path st in
          (Some rx, st)
        else (Some None, st)
  end.

(** Removes the element at [path] and everything nested in it, returning [true]
    if any of the removed subscriptions held data, which was not processed. *)
Definition remove (path : list N) (st : Subscriptions) : bool * Subscriptions :=
  let st := set_next (remove_nested (s_next st) path).1 st in
  let st := notify_indexed st in
  let '(subs, removed) := remove_nested (s_subs st) path in
  let pending := existsb (λ sub, chan_holds_data (s_chans st) (sub_rx sub)) removed in
  (pending, foldl (λ st sub, drop_subscription sub st) (set_subs subs st) removed).

(** The elements removed by [skip] at position [k]. *)
Definition skipped (path : list N) (st : Subscriptions) (k : nat) : list (list N) :=
  filter (λ p, length p = S k ∧ (sub_handles <$> s_subs st !! p) = Some 0%N)
    (btree_range (take k path ++ [next st (take k path)]) (take (S k) path) (s_subs st)).

Definition skip_at (path : list N) (acc : bool * Subscriptions) (k : nat) :
    bool * Subscriptions :=
  if (path_at path k <=? next acc.2 (take k path))%N then acc
  else
    foldl (λ acc p, let '(pending, st) := remove p acc.2 in (acc.1 || pending, st))
      acc (skipped path acc.2 k).

Definition skip (path : list N) (st : Subscriptions) : bool * Subscriptions :=
  match resolve st path with
  | None => (false, st)
  | Some (_, pattern) => foldl (skip_at path) (false, st) (wildcards pattern)
  end.

Definition retain_element (path : list N) (st : Subscriptions) (k : nat) : Subscriptions :=
  match s_subs st !! take (S k) path with
  | Some sub =>
      set_subs (<[take (S k) path := mkSubscription (sub_tx sub) (sub_rx sub)
                                       (sub_handles sub + 1) (sub_permit sub)]> (s_subs st)) st
  | None => st
  end.

Definition retain (path : list N) (st : Subscriptions) : Subscriptions :=
  match resolve st path with
  | None => st
  | Some (_, pattern) => foldl (retain_element path) st (wildcards pattern)
  end.

Fixpoint release_elements (path : list N) (ks : list nat) (st : Subscriptions) :
    bool * Subscriptions :=
  match ks with
  | [] => (false, st)
  | k :: ks =>
      match s_subs st !! take (S k) path with
      | None => (false, st)
      | Some sub =>
          let handles := (sub_handles sub - 1)%N in
          let st :=
            set_subs (<[take (S k) path := mkSubscription (sub_tx sub) (sub_rx sub)
                                             handles (sub_permit sub)]> (s_subs st)) st in
          if (handles =? 0)%N then remove (take (S k) path) st
          else release_elements path ks st
      end
  end.

Definition release (path : list N) (st : Subscriptions) : bool * Subscriptions :=
  match resolve st path with
  | None => (false, st)
  | Some (_, pattern) => release_elements path (wildcards pattern) st
  end.

(** The loop of [route]: [Some] of the route it returns early with, if any,
    and the permit which is left. *)
Fixpoint route_elements (path : list N) (pattern : list (option N)) (ks : list nat)
    (permit : bool) (st : Subscriptions) : option Route * bool * Subscriptions :=
  match ks with
  | [] => (None, permit, st)
  | k :: ks =>
      match s_subs st !! take (S k) path with
      | Some _ => route_elements path pattern ks permit st
      | None =>
          if (path_at path k <? next st (take k path))%N then (Some RouteReleased, permit, st)
          else if permit then
            let st := subscribe (take (S k) path) (take (S k) pattern) st in
            let st :=
              match s_subs st !! take (S k) path with
              | Some sub =>
                  set_subs (<[take (S k) path := mkSubscription (sub_tx sub) (sub_rx sub)
                                (sub_handles sub) true]> (s_subs st)) st
              | None => st
              end in
            route_elements path pattern ks false st
          else (Some RouteUnclaimed, permit, st)
      end
  end.

Definition get_tx_mut (path : list N) (st : Subscriptions) : option TxSlot :=
  sub ← s_subs st !! path; sub_tx sub.

Definition route (path : list N) (permit : bool) (st : Subscriptions) :
    Route * bool * Subscriptions :=
  let finish permit st :=
    (match get_tx_mut path st with Some slot => RouteTx slot | None => RouteNotFound end,
     permit, st) in
  match get_tx_mut path st with
  | Some _ => finish permit st
  | None =>
      match resolve st path with
      | Some (mkPattern true _, pattern) =>
          match route_elements path pattern (wildcards pattern) permit st with
          | (Some r, permit, st) => (r, permit, st)
          | (None, permit, st) => finish permit (subscribe path pattern st)
          end
      | _ => (RouteNotFound, permit, st)
      end
  end.

(** [*slot = TxSlot::Closed] *)
Definition close_slot (path : list N) (st : Subscriptions) : Subscriptions :=
  match s_subs st !! path with
  | Some sub =>
      set_subs (<[path := mkSubscription (Some Closed) (sub_rx sub) (sub_handles sub)
                            (sub_permit sub)]> (s_subs st)) st
  | None => st
  end.

(** ** Ordered maps: lemmas *)

Lemma slice_le_refl a : slice_leP a a.
Proof.
  unfold slice_leP. induction a as [|x a IH]; simpl; [done|].
  rewrite N.eqb_refl, IH. by rewrite orb_true_r.
Qed.

Lemma slice_le_cons x a y b :
  slice_leP (x :: a) (y :: b) ↔ (x < y)%N ∨ x = y ∧ slice_leP a b.
Proof.
  unfold slice_leP; simpl. rewrite orb_true_iff, andb_true_iff, N.ltb_lt, N.eqb_eq. done.
Qed.

Lemma slice_le_total a b : slice_leP a b ∨ slice_leP b a.
Proof.
  revert b. induction a as [|x a IH]; intros [|y b]; [by left|by left|by right|].
  rewrite !slice_le_cons. destruct (IH b); destruct (N.lt_trichotomy x y) as [|[|]]; auto.
Qed.

Lemma slice_le_trans a b c : slice_leP a b → slice_leP b c → slice_leP a c.
Proof.
  revert b c. induction a as [|x a IH]; intros [|y b] [|z c]; try done.
  rewrite !slice_le_cons. intros [?|[-> ?]] [?|[-> ?]]; [left; lia|auto|auto|].
  right. eauto.
Qed.

Lemma slice_le_antisym a b : slice_leP a b → slice_leP b a → a = b.
Proof.
  revert b. induction a as [|x a IH]; intros [|y b]; try done.
  rewrite !slice_le_cons. intros [?|[-> ?]] [?|[? ?]]; subst; try lia. f_equal. auto.
Qed.

#[global] Instance slice_leP_trans : Transitive slice_leP.
Proof. intros ???. apply slice_le_trans. Qed.

#[global] Instance slice_leP_total : Total slice_leP.
Proof. intros a b. apply slice_le_total. Qed.

Lemma prefix_slice_le a b : a `prefix_of` b → slice_leP a b.
Proof.
  intros [l ->]. induction a as [|x a IH]; [done|]. simpl. rewrite slice_le_cons. auto.
Qed.

(** Between a slice and a slice starting with it there are only slices
    starting with it: the entries nested in a path are contiguous. *)
Lemma slice_le_prefix_convex p a b :
  slice_leP p a → slice_leP a b → p `prefix_of` b → p `prefix_of` a.
Proof.
  revert a b. induction p as [|x p IH]; intros a b Hpa Hab Hpb; [apply prefix_nil|].
  destruct Hpb as [l ->]. destruct a as [|y a]; [done|]. simpl in Hab.
  apply slice_le_cons in Hpa. apply slice_le_cons in Hab.
  destruct Hpa as [?|[-> Hpa]], Hab as [?|[? Hab]]; subst; try lia.
  apply prefix_cons. eapply IH; [done..|]. by exists l.
Qed.

Lemma elem_of_btree_keys {V} (m : gmap (list N) V) k :
  k ∈ btree_keys m ↔ is_Some (m !! k).
Proof.
  unfold btree_keys. rewrite merge_sort_Permutation, list_elem_of_fmap. split.
  - intros ([k' v] & -> & ?%elem_of_map_to_list). by exists v.
  - intros [v ?]. exists (k, v). split; [done|]. by apply elem_of_map_to_list.
Qed.

Lemma NoDup_btree_keys {V} (m : gmap (list N) V) : NoDup (btree_keys m).
Proof. unfold btree_keys. rewrite merge_sort_Permutation. apply NoDup_fst_map_to_list. Qed.

Lemma sorted_btree_keys {V} (m : gmap (list N) V) : StronglySorted slice_leP (btree_keys m).
Proof. apply StronglySorted_merge_sort; apply _. Qed.

Lemma take_while_filter {A} (R : relation A) (P : A → Prop) `{∀ x, Decision (P x)} l :
  StronglySorted R l →
  (∀ a b, a ∈ l → b ∈ l → R a b → P b → P a) →
  take_while (λ x, bool_decide (P x)) l = filter P l.
Proof.
  induction 1 as [|x l Hs IH HR]; intros Hdown; simpl; [done|].
  rewrite Forall_forall in HR.
  destruct (decide (P x)) as [HP|HP].
  - rewrite bool_decide_true, filter_cons_True by done. f_equal.
    apply IH. intros a b ??. apply Hdown; by right.
  - rewrite bool_decide_false, filter_cons_False by done. symmetry.
    apply filter_none. intros y Hy HPy. apply HP.
    eapply Hdown; [by left|by right|by apply HR|done].
Qed.

Section remove_nested.
Context {V : Type}.
Implicit Types m : gmap (list N) V.

Definition nested_keys m (path : list N) : list (list N) :=
  take_while (λ p, starts_with p path) (btree_range_from path m).

Lemma nested_keys_filter m path :
  nested_keys m path = filter (λ p, path `prefix_of` p) (btree_range_from path m).
Proof.
  unfold nested_keys, starts_with. apply (take_while_filter slice_leP).
  - unfold btree_range_from. apply StronglySorted_filter, sorted_btree_keys.
  - unfold btree_range_from. intros a b [? _]%list_elem_of_filter _ ? ?.
    by eapply slice_le_prefix_convex.
Qed.

Lemma elem_of_nested_keys m path k :
  k ∈ nested_keys m path ↔ path `prefix_of` k ∧ is_Some (m !! k).
Proof.
  rewrite nested_keys_filter, list_elem_of_filter. unfold btree_range_from.
  rewrite list_elem_of_filter, elem_of_btree_keys. split; [by intros (? & _ & ?)|].
  intros [? ?]. split; [done|]. split; [by apply prefix_slice_le|done].
Qed.

Lemma NoDup_nested_keys m path : NoDup (nested_keys m path).
Proof.
  rewrite nested_keys_filter. unfold btree_range_from.
  by apply NoDup_filter, NoDup_filter, NoDup_btree_keys.
Qed.

Lemma lookup_foldl_delete m ks k :
  foldl (λ m p, delete p m) m ks !! k = if decide (k ∈ ks) then None else m !! k.
Proof.
  revert m. induction ks as [|p ks IH]; intros m; simpl; [done|].
  rewrite IH. destruct (decide (k ∈ ks)), (decide (k ∈ p :: ks)); try done.
  - by destruct n; right.
  - assert (k = p) as -> by (by apply elem_of_cons in e as [?|?]). apply lookup_delete_eq.
  - apply lookup_delete_ne. intros ->. apply n0. by left.
Qed.

Lemma lookup_remove_nested m path k :
  (remove_nested m path).1 !! k = if decide (path `prefix_of` k) then None else m !! k.
Proof.
  unfold remove_nested; simpl. fold (nested_keys m path). rewrite lookup_foldl_delete.
  destruct (decide (k ∈ nested_keys m path)) as [Hk|Hk];
    rewrite elem_of_nested_keys in Hk; destruct (decide (path `prefix_of` k)); try done.
  - by destruct Hk.
  - destruct (m !! k) eqn:E; [|done]. destruct Hk. by split.
Qed.

Lemma omap_lookup_perm m ks :
  NoDup ks →
  omap (λ p, m !! p) ks ≡ₚ (map_to_list (filter (λ kv, kv.1 ∈ ks) m)).*2.
Proof.
  induction 1 as [|p ks Hp HN IH]; simpl.
  - assert (filter (λ kv, kv.1 ∈ []) m = ∅) as ->; [|by rewrite map_to_list_empty].
    apply map_eq. intros k. rewrite lookup_empty. apply map_lookup_filter_None.
    right. intros v _ []%not_elem_of_nil.
  - destruct (m !! p) as [v|] eqn:E.
    + assert (filter (λ kv, kv.1 ∈ p :: ks) m = <[p := v]> (filter (λ kv, kv.1 ∈ ks) m)) as ->.
      { apply map_eq. intros k. destruct (decide (k = p)) as [->|Hne].
        - rewrite lookup_insert_eq. apply map_lookup_filter_Some. simpl. split; [done|by left].
        - rewrite lookup_insert_ne by done. rewrite !map_lookup_filter.
          destruct (m !! k) as [w|]; simpl; [|done].
          assert (k ∈ p :: ks ↔ k ∈ ks) as Hiff by (rewrite elem_of_cons; tauto).
          repeat case_guard; simpl; tauto. }
      rewrite map_to_list_insert; [simpl; by constructor|].
      apply map_lookup_filter_None. right. by intros ? _ ?.
    + rewrite IH.
      assert (filter (λ kv, kv.1 ∈ p :: ks) m = filter (λ kv, kv.1 ∈ ks) m) as ->; [|done].
      apply map_filter_ext. intros k v Hk. simpl. rewrite elem_of_cons. split; [|by right].
      intros [->|?]; [by simplify_eq|done].
Qed.

(** What [remove_nested] returns is what it removes. *)
Lemma remove_nested_values m path :
  (remove_nested m path).2 ≡ₚ (map_to_list (filter (λ kv, path `prefix_of` kv.1) m)).*2.
Proof.
  unfold remove_nested; simpl. fold (nested_keys m path).
  rewrite omap_lookup_perm by apply NoDup_nested_keys.
  assert (filter (λ kv, kv.1 ∈ nested_keys m path) m = filter (λ kv, path `prefix_of` kv.1) m)
    as ->; [|done].
  apply map_filter_ext. intros k v Hk. simpl.
  rewrite elem_of_nested_keys. split; [by intros [??]|by intros; split].
Qed.

End remove_nested.
