(* ===== verification/Resolve.v ===== *)
(** * Resolution of paths to the declared patterns

    What [Subscriptions::new] builds from the declared paths and what
    [Subscriptions::resolve] (both of [frame/conn/mod.rs]) answers: if no two
    declared paths have a wildcard and an index at the same position, which is
    what the documentation of [Incoming::new] asks for, the resolved paths are
    exactly those matched by a prefix of a declared path. *)

From S2P Require Import Prelude Subscriptions.

(** ** Specification *)

(** A position of a pattern matches an index, if it is a wildcard or it. *)
Definition matches_at (o : option N) (i : N) : Prop := o = None ∨ o = Some i.

Definition matches (pattern : list (option N)) (path : list N) : Prop :=
  Forall2 matches_at pattern path.

(** "[paths] must not contain both a wildcard and an index at the same
    position" *)
Definition compatible (paths : list (list (option N))) : Prop :=
  ∀ q x y p1 p2, p1 ∈ paths → p2 ∈ paths →
    q ++ [x] `prefix_of` p1 → q ++ [y] `prefix_of` p2 → is_none x = is_none y.

(** The path is the root or is matched by a declared path. *)
Definition declared_by (paths : list (list (option N))) (path : list N) : Prop :=
  path = [] ∨ ∃ p, p ∈ paths ∧ matches p path.

#[global] Instance matches_at_dec o i : Decision (matches_at o i).
Proof. unfold matches_at. apply _. Defined.

#[global] Instance matches_dec pattern path : Decision (matches pattern path).
Proof. unfold matches. apply _. Defined.

(** ** The patterns of the declared paths *)

Definition declare_patterns (ps : gmap (list (option N)) Pattern) (path : list (option N)) :
    gmap (list (option N)) Pattern :=
  match path with
  | [] => ps
  | _ => alter_pattern set_declared path (declare_prefixes [] path ps)
  end.

Definition patterns_of (paths : list (list (option N))) : gmap (list (option N)) Pattern :=
  foldl declare_patterns {[ [] := mkPattern true None ]} paths.

Lemma s_patterns_insert_subscription path sub st :
  s_patterns (insert_subscription path sub st) = s_patterns st.
Proof. unfold insert_subscription. by destruct (s_subs st !! path). Qed.

Lemma s_patterns_declare_path st path :
  s_patterns (declare_path st path) = declare_patterns (s_patterns st) path.
Proof.
  unfold declare_path, declare_patterns. destruct path as [|i path]; [done|].
  destruct (collect (i :: path)); [|done].
  unfold Subscription_new; simpl. by rewrite s_patterns_insert_subscription.
Qed.

Lemma s_patterns_foldl paths st :
  s_patterns (foldl declare_path st paths) = foldl declare_patterns (s_patterns st) paths.
Proof.
  revert st. induction paths as [|p paths IH]; intros st; simpl; [done|].
  by rewrite IH, s_patterns_declare_path.
Qed.

Lemma s_patterns_new paths tx : s_patterns (Subscriptions_new paths tx) = patterns_of paths.
Proof. unfold Subscriptions_new. by rewrite s_patterns_foldl. Qed.

Lemma lookup_alter_pattern f k ps q :
  alter_pattern f k ps !! q =
  if decide (q = k) then Some (f (default Pattern_default (ps !! k))) else ps !! q.
Proof.
  unfold alter_pattern. destruct (decide (q = k)) as [->|].
  - by rewrite lookup_insert_eq.
  - by rewrite lookup_insert_ne.
Qed.

(** Only the proper prefixes of the path are marked, each with what follows. *)
Lemma lookup_declare_prefixes_ne pre path ps q :
  (∀ x, ¬ (pre `prefix_of` q ∧ q ++ [x] `prefix_of` pre ++ path)) →
  declare_prefixes pre path ps !! q = ps !! q.
Proof.
  revert pre ps. induction path as [|i path IH]; intros pre ps Hq; simpl; [done|].
  rewrite IH.
  - rewrite lookup_alter_pattern, decide_False; [done|]. intros ->.
    apply (Hq i). split; [done|]. rewrite (assoc (++) _ [i] path). by apply prefix_app_r.
  - intros x [Hpre Hqx]. apply (Hq x). split.
    + by eapply prefix_app_l.
    + by rewrite <- (assoc (++)) in Hqx.
Qed.

Lemma lookup_declare_prefixes_eq pre path ps x rest :
  path = x :: rest → declare_prefixes pre path ps !! pre =
  Some (set_wildcard (is_none x) (default Pattern_default (ps !! pre))).
Proof.
  intros ->. simpl. rewrite lookup_declare_prefixes_ne.
  - by rewrite lookup_alter_pattern, decide_True.
  - intros y [Hp _]. apply prefix_length in Hp. rewrite length_app in Hp. simpl in Hp. lia.
Qed.

Lemma lookup_declare_prefixes pre l x rest ps :
  declare_prefixes pre (l ++ x :: rest) ps !! (pre ++ l) =
  Some (set_wildcard (is_none x) (default Pattern_default (ps !! (pre ++ l)))).
Proof.
  revert pre ps. induction l as [|y l IH]; intros pre ps.
  - rewrite app_nil_r. by eapply lookup_declare_prefixes_eq.
  - simpl. rewrite (cons_middle y pre l), (assoc (++)), IH. do 2 f_equal.
    rewrite lookup_alter_pattern, decide_False; [done|].
    intros Hl%(f_equal length). rewrite !length_app in Hl. simpl in Hl. lia.
Qed.

Section patterns.
Implicit Types (paths : list (list (option N))) (q p : list (option N)).

(** What the map of patterns says about a prefix [q] of the declared paths. *)
Record pattern_spec paths q (o : option Pattern) : Prop := {
  pattern_exists : is_Some o ↔ q = [] ∨ ∃ p, p ∈ paths ∧ q `prefix_of` p;
  pattern_declared pt : o = Some pt → (p_declared pt = true ↔ q = [] ∨ q ∈ paths);
  pattern_wildcard pt p x :
    o = Some pt → p ∈ paths → q ++ [x] `prefix_of` p → p_wildcard pt = Some (is_none x);
  pattern_wildcard_inv pt b :
    o = Some pt → p_wildcard pt = Some b →
    ∃ p x, p ∈ paths ∧ q ++ [x] `prefix_of` p ∧ is_none x = b
}.

Lemma compatible_app_l paths1 paths2 : compatible (paths1 ++ paths2) → compatible paths1.
Proof. intros Hc q x y p1 p2 H1 H2. apply Hc; apply elem_of_app; by left. Qed.

Lemma prefix_snoc_or q p : q `prefix_of` p → q = p ∨ ∃ x, q ++ [x] `prefix_of` p.
Proof.
  intros [[|x l] ->]; [left; by rewrite app_nil_r|right; exists x].
  exists l. by rewrite <- (assoc (++)).
Qed.

(** The lookup after declaring one more path. *)
Lemma lookup_declare_patterns ps p q :
  p ≠ [] → declare_patterns ps p !! q =
  if decide (q = p) then Some (set_declared (default Pattern_default (ps !! q)))
  else match decide (q `prefix_of` p) with
       | left _ => match p !! length q with
                   | Some x => Some (set_wildcard (is_none x) (default Pattern_default (ps !! q)))
                   | None => ps !! q
                   end
       | right _ => ps !! q
       end.
Proof.
  intros Hp. unfold declare_patterns. destruct p as [|i p]; [done|].
  remember (i :: p) as p0 eqn:E. clear i p Hp E.
  rewrite lookup_alter_pattern. destruct (decide (q = p0)) as [->|Hne].
  - rewrite lookup_declare_prefixes_ne; [done|]. intros x [_ Hx%prefix_length].
    rewrite length_app in Hx. simpl in Hx. lia.
  - destruct (decide (q `prefix_of` p0)) as [[l ->]|Hnp].
    + destruct l as [|x l]; [by rewrite app_nil_r in Hne|].
      rewrite list_lookup_middle by done. 
      pose proof (lookup_declare_prefixes [] q x l ps) as Hl. simpl in Hl. by rewrite Hl.
    + apply lookup_declare_prefixes_ne. intros x [_ Hx]. apply Hnp. by eapply prefix_app_l.
Qed.

Lemma prefix_snoc_lookup q x p : q ++ [x] `prefix_of` p → p !! length q = Some x.
Proof. intros [l ->]. rewrite <- (assoc (++)). by apply list_lookup_middle. Qed.

Lemma prefix_lookup_snoc q p x : q `prefix_of` p → p !! length q = Some x → q ++ [x] `prefix_of` p.
Proof.
  intros [[|y l] ->]; rewrite ?app_nil_r.
  - rewrite lookup_ge_None_2 by done. done.
  - rewrite list_lookup_middle by done. intros [= ->]. exists l. by rewrite <- (assoc (++)).
Qed.

Lemma pattern_spec_irrelevant paths p q o :
  pattern_spec paths q o → (q `prefix_of` p → q = [] ∧ p = []) → pattern_spec (paths ++ [p]) q o.
Proof.
  intros [He Hd Hw Hwi] Hn. split.
  - rewrite He. setoid_rewrite elem_of_app. setoid_rewrite list_elem_of_singleton.
    split; [naive_solver|]. intros [?|(p' & [?| ->] & Hp)]; [by left|naive_solver|].
    left. by apply Hn.
  - intros pt Ho. rewrite (Hd pt Ho), elem_of_app, list_elem_of_singleton.
    split; [naive_solver|]. intros [?|[?| ->]]; [by left|by right|]. left. by apply Hn.
  - intros pt p' x Ho [?| ->%list_elem_of_singleton]%elem_of_app Hx; [by eapply Hw|].
    destruct (Hn (prefix_app_l _ _ _ Hx)) as [-> ->]. by apply prefix_nil_not in Hx.
  - intros pt b Ho Hb. destruct (Hwi pt b Ho Hb) as (p' & x & ? & ? & ?).
    exists p', x. split; [apply elem_of_app; by left|done].
Qed.

Lemma pattern_spec_self paths p o :
  pattern_spec paths p o →
  pattern_spec (paths ++ [p]) p (Some (set_declared (default Pattern_default o))).
Proof.
  intros [He Hd Hw Hwi]. split.
  - split; [|eauto]. intros _. right. exists p. split; [apply elem_of_app; right; by left|done].
  - intros pt [= <-]. split; [|done]. intros _. right. apply elem_of_app. right. by left.
  - intros pt p' x [= <-] [Hp'| ->%list_elem_of_singleton]%elem_of_app Hx; simpl.
    + assert (is_Some o) as [pt ->].
      { apply He. right. exists p'. split; [done|]. by eapply prefix_app_l. }
      by eapply Hw.
    + apply prefix_length in Hx. rewrite length_app in Hx. simpl in Hx. lia.
  - intros pt b [= <-]; simpl. destruct o as [pt|]; simpl; [|done]. intros Hb.
    destruct (Hwi pt b eq_refl Hb) as (p' & x & ? & ? & ?).
    exists p', x. split; [apply elem_of_app; by left|done].
Qed.

Lemma pattern_spec_prefix paths p q x o :
  compatible (paths ++ [p]) → q ≠ p → q ++ [x] `prefix_of` p → pattern_spec paths q o →
  pattern_spec (paths ++ [p]) q (Some (set_wildcard (is_none x) (default Pattern_default o))).
Proof.
  intros Hc Hne Hx [He Hd Hw Hwi].
  assert (p ∈ paths ++ [p]) as Hp by (apply elem_of_app; right; by left). split.
  - split; [|eauto]. intros _. right. exists p. split; [done|]. by eapply prefix_app_l.
  - intros pt [= <-]; simpl. rewrite elem_of_app, list_elem_of_singleton.
    destruct o as [pt|]; simpl; [rewrite (Hd pt eq_refl); naive_solver|].
    split; [done|]. intros [?|[?|?]]; [| |done].
    + assert (is_Some (@None Pattern)) as [? ?] by (apply He; by left). done.
    + assert (is_Some (@None Pattern)) as [? ?] by (apply He; right; by exists q). done.
  - intros pt p' y [= <-] Hp' Hy; simpl. f_equal. by apply (Hc q x y p p').
  - intros pt b [= <-]; simpl. intros [= <-]. by exists p, x.
Qed.

Lemma patterns_of_spec paths q : compatible paths → pattern_spec paths q (patterns_of paths !! q).
Proof.
  revert q. induction paths as [|p paths IH] using rev_ind; intros q Hc.
  { unfold patterns_of; simpl. destruct (decide (q = [])) as [->|Hq].
    - rewrite lookup_singleton_eq. split; [naive_solver|naive_solver| |].
      + intros ? ? ? _ []%not_elem_of_nil.
      + by intros ? ? [= <-].
    - rewrite lookup_singleton_ne by done. split; [|done..].
      split; [by intros []|]. intros [?|(? & []%not_elem_of_nil & _)]; done. }
  specialize (IH q (compatible_app_l _ _ Hc)).
  unfold patterns_of in *. rewrite foldl_app. simpl.
  destruct (decide (p = [])) as [->|Hp]; simpl.
  { apply pattern_spec_irrelevant; [done|]. by intros ->%prefix_nil_inv. }
  rewrite lookup_declare_patterns by done.
  destruct (decide (q = p)) as [->|Hne]; [by apply pattern_spec_self|].
  destruct (decide (q `prefix_of` p)) as [Hpre|Hpre].
  - destruct (p !! length q) as [x|] eqn:Ex.
    + apply pattern_spec_prefix with (p := p); [done..| |done]. by apply prefix_lookup_snoc.
    + destruct (prefix_snoc_or _ _ Hpre) as [?|[x Hx%prefix_snoc_lookup]]; [done|].
      by rewrite Ex in Hx.
  - by apply pattern_spec_irrelevant.
Qed.

End patterns.

(** ** Resolution *)

Lemma resolve_from_sound ps node pre path node' pat :
  ps !! pre = Some node → resolve_from ps node pre path = Some (node', pat) →
  ∃ suf, pat = pre ++ suf ∧ matches suf path ∧ ps !! pat = Some node'.
Proof.
  revert node pre. induction path as [|i path IH]; intros node pre Hn Hr; simpl in Hr.
  - simplify_eq. exists []. rewrite app_nil_r. split_and!; [done|constructor|done].
  - destruct (p_wildcard node) as [w|]; simpl in Hr; [|done].
    destruct (ps !! (pre ++ [if w then None else Some i])) as [node1|] eqn:E; simpl in Hr; [|done].
    destruct (IH _ _ E Hr) as (suf & -> & Hm & ?).
    exists ((if w then None else Some i) :: suf). rewrite <- (assoc (++)) in *.
    split_and!; [done| |done]. constructor; [|done]. by destruct w; [left|right].
Qed.

Lemma resolve_sound st path node pat :
  resolve st path = Some (node, pat) → matches pat path ∧ s_patterns st !! pat = Some node.
Proof.
  unfold resolve. destruct (s_patterns st !! []) as [n0|] eqn:E; simpl; [|done].
  intros Hr. destruct (resolve_from_sound _ _ _ _ _ _ E Hr) as (suf & -> & ? & ?). done.
Qed.

Lemma resolve_length st path node pat :
  resolve st path = Some (node, pat) → length pat = length path.
Proof. intros [Hm _]%resolve_sound. by apply Forall2_length in Hm. Qed.

Lemma resolve_from_complete paths ps node pre suf t path :
  (∀ q, pattern_spec paths q (ps !! q)) → ps !! pre = Some node →
  pre ++ suf ++ t ∈ paths → matches suf path →
  ∃ node', resolve_from ps node pre path = Some (node', pre ++ suf) ∧
           ps !! (pre ++ suf) = Some node'.
Proof.
  intros Hspec. revert node pre path. induction suf as [|x suf IH];
    intros node pre path Hn Hp Hm; inversion Hm as [|? i ? path' Hx Hm']; subst; simpl.
  - exists node. by rewrite app_nil_r.
  - assert (p_wildcard node = Some (is_none x)) as ->.
    { eapply (pattern_wildcard _ _ _ (Hspec pre)); [done|exact Hp|].
      exists (suf ++ t). by rewrite <- (assoc (++)). }
    simpl. assert ((if is_none x then None else Some i) = x) as ->.
    { destruct Hx as [->| ->]; done. }
    assert (is_Some (ps !! (pre ++ [x]))) as [node1 E].
    { apply (pattern_exists _ _ _ (Hspec (pre ++ [x]))). right. eexists. split; [exact Hp|].
      exists (suf ++ t). by rewrite <- (assoc (++)). }
    rewrite E. simpl. destruct (IH node1 (pre ++ [x]) path' E) as (node' & ? & ?).
    + by rewrite <- (assoc (++)).
    + done.
    + exists node'. by rewrite <- (assoc (++)) in *.
Qed.

(** Resolution of a prefix of a path. *)
Lemma resolve_from_app ps node pre p1 p2 r :
  resolve_from ps node pre (p1 ++ p2) = Some r →
  ∃ node' pat, resolve_from ps node pre p1 = Some (node', pat) ∧
               resolve_from ps node' pat p2 = Some r.
Proof.
  revert node pre. induction p1 as [|i p1 IH]; intros node pre; simpl; [eauto|].
  destruct (p_wildcard node) as [w|]; simpl; [|done].
  destruct (ps !! _) as [node1|]; simpl; [|done]. apply IH.
Qed.

Lemma resolve_app st p1 p2 node pat :
  resolve st (p1 ++ p2) = Some (node, pat) →
  ∃ node', resolve st p1 = Some (node', take (length p1) pat).
Proof.
  unfold resolve. destruct (s_patterns st !! []) as [n0|] eqn:E; simpl; [|done].
  intros (node1 & pat1 & H1 & H2)%resolve_from_app. exists node1. rewrite H1. do 2 f_equal.
  destruct (resolve_from_sound _ _ _ _ _ _ E H1) as (suf & -> & Hm & Hn). simpl in *.
  destruct (resolve_from_sound _ _ _ _ _ _ Hn H2) as (suf2 & -> & _).
  apply Forall2_length in Hm. by rewrite <- Hm, take_app_length.
Qed.

Lemma resolve_take st path node pat k :
  resolve st path = Some (node, pat) → k ≤ length path →
  ∃ node', resolve st (take k path) = Some (node', take k pat).
Proof.
  intros Hr Hk. rewrite <- (take_drop k path) in Hr.
  apply resolve_app in Hr as [node' Hr]. rewrite length_take_le in Hr by done. eauto.
Qed.

(** Resolution reads the patterns only. *)
Lemma resolve_patterns st1 st2 path :
  s_patterns st1 = s_patterns st2 → resolve st1 path = resolve st2 path.
Proof. unfold resolve. by intros ->. Qed.

Lemma resolve_declared_iff st paths path :
  compatible paths → s_patterns st = patterns_of paths →
  (∃ pt pat, resolve st path = Some (pt, pat) ∧ p_declared pt = true) ↔ declared_by paths path.
Proof.
  intros Hc Hps. pose proof (λ q, patterns_of_spec paths q Hc) as Hspec.
  rewrite <- Hps in Hspec. split.
  - intros (pt & pat & [Hm Hl]%resolve_sound & Hd).
    apply (pattern_declared _ _ _ (Hspec pat) pt Hl) in Hd as [->|Hin].
    + left. by inversion Hm.
    + right. by exists pat.
  - assert (is_Some (s_patterns st !! [])) as [n0 E0].
    { apply (pattern_exists _ _ _ (Hspec [])). by left. }
    unfold resolve. rewrite E0. simpl. intros [->|(p & Hp & Hm)].
    + exists n0, []. split; [done|]. apply (pattern_declared _ _ _ (Hspec []) n0 E0). by left.
    + destruct (resolve_from_complete paths (s_patterns st) n0 [] p [] path) as (pt & Hr & Hl);
        [done|done|by rewrite app_nil_r|done|]. simpl in *.
      exists pt, p. split; [done|].
      apply (pattern_declared _ _ _ (Hspec p) pt Hl). by right.
Qed.

(** ** Properties *)

(** If the declared paths do not have both a wildcard and an index at the
    same position, then [resolve] finds a declared position for exactly the
    root and the paths matched by one of the declared paths. *)
Theorem new_resolves_declared paths tx path :
  compatible paths →
  (∃ pt pat, resolve (Subscriptions_new paths tx) path = Some (pt, pat) ∧ p_declared pt = true)
  ↔ declared_by paths path.
Proof. intros Hc. apply resolve_declared_iff; [done|]. apply s_patterns_new. Qed.

(** ** Witnesses *)

(** The declared paths of the [conn] unit test. *)
Definition test_paths : list (list (option N)) :=
  [[Some 0]; [Some 1; None; Some 0]]%N.

(** Decides [compatible], one position at a time. *)
Definition compatible_at (p1 p2 : list (option N)) : bool :=
  forallb (λ k, match p1 !! k, p2 !! k with
                | Some x, Some y =>
                    negb (bool_decide (take k p1 = take k p2)) || Bool.eqb (is_none x) (is_none y)
                | _, _ => true
                end) (seq 0 (length p1)).

Definition compatibleb (paths : list (list (option N))) : bool :=
  forallb (λ p1, forallb (compatible_at p1) paths) paths.

Lemma compatibleb_sound paths : compatibleb paths = true → compatible paths.
Proof.
  intros Hb q x y p1 p2 H1 H2 [l1 ->] [l2 ->].
  unfold compatibleb in Hb. rewrite forallb_forall in Hb.
  specialize (Hb _ (proj1 (list_elem_of_In _ _) H1)). rewrite forallb_forall in Hb.
  specialize (Hb _ (proj1 (list_elem_of_In _ _) H2)). unfold compatible_at in Hb.
  rewrite forallb_forall in Hb. specialize (Hb (length q)).
  assert (∀ z l, (q ++ [z]) ++ l = q ++ z :: l) as Happ
    by (intros; by rewrite <- (assoc (++))).
  rewrite !Happ, !list_lookup_middle in Hb by done.
  rewrite bool_decide_true in Hb by (by rewrite !take_app_length). simpl in Hb. apply Bool.eqb_prop, Hb.
  apply in_seq. rewrite length_app. simpl. lia.
Qed.

Lemma new_resolves_declared_witness :
  ∃ pt pat, resolve (Subscriptions_new test_paths 0) [1; 7; 0]%N = Some (pt, pat)
            ∧ p_declared pt = true.
Proof.
  apply (new_resolves_declared test_paths 0 [1; 7; 0]%N).
  - apply compatibleb_sound. vm_compute. reflexivity.
  - right. exists [Some 1; None; Some 0]%N. split; [right; left|].
    constructor; [by right|]. constructor; [by left|]. constructor; [by right|constructor].
Defined.
