(* ===== verification/SubsInv.v ===== *)
(** * Invariants of the subscriptions

    What every method of [Subscriptions] ([frame/conn/mod.rs]) preserves:

    - the permits of the semaphore [unclaimed] are conserved;
    - the ownership of the channels: every operation either keeps a channel at
      its path, hands its receiver out, or drops the receiver, reporting
      whether it held data ([evolves]). *)

From S2P Require Import Prelude Subscriptions Resolve.

(** ** Field access after the updates *)

Lemma s_patterns_subscribe path pat st : s_patterns (subscribe path pat st) = s_patterns st.
Proof.
  unfold subscribe, Subscription_new. destruct (s_subs st !! path); [done|].
  by destruct (s_patterns st !! pat) as [[[] ?]|].
Qed.

(** The subscriptions dropped by [remove], one after the other. *)
Definition drop_subscriptions (removed : list Subscription) (st : Subscriptions) : Subscriptions :=
  foldl (λ st sub, drop_subscription sub st) st removed.

Definition drop_chans (removed : list Subscription) (chans : gmap N (list bytes)) :
    gmap N (list bytes) :=
  foldl (λ cs sub, drop_rx (sub_rx sub) cs) chans removed.

Definition permit_count (subs : list Subscription) : nat :=
  sum_list_with (λ sub, if sub_permit sub then 1 else 0) subs.

Lemma drop_subscriptions_eq removed st :
  drop_subscriptions removed st =
  set_permits (permit_count removed + s_permits st)
    (set_chans (drop_chans removed (s_chans st)) st).
Proof.
  unfold drop_subscriptions, drop_chans, permit_count. revert st.
  induction removed as [|sub removed IH]; intros st; simpl.
  - by destruct st.
  - rewrite IH. unfold drop_subscription, set_permits, set_chans. simpl. f_equal. lia.
Qed.

Definition nested {V} (path : list N) (m : gmap (list N) V) : gmap (list N) V :=
  filter (λ kv, path `prefix_of` kv.1) m.

(** [remove] in terms of the entries it removes. *)
Lemma remove_eq path st :
  ∃ removed, removed ≡ₚ (map_to_list (nested path (s_subs st))).*2 ∧
  remove path st =
    (existsb (λ sub, chan_holds_data (s_chans st) (sub_rx sub)) removed,
     mkSubs (s_patterns st) (remove_nested (s_subs st) path).1 (remove_nested (s_next st) path).1
       (permit_count removed + s_permits st) (s_unclaimed_closed st) true (s_closed st)
       (s_depth st) (drop_chans removed (s_chans st)) (s_fresh st)).
Proof.
  exists (remove_nested (s_subs st) path).2. split; [apply remove_nested_values|].
  unfold remove, notify_indexed. cbn [s_subs set_indexed set_next].
  destruct (remove_nested (s_subs st) path) as [subs removed]; simpl.
  f_equal. etransitivity; [apply drop_subscriptions_eq|done].
Qed.

(** ** Permits *)

(** Number of elements subscribed to before being indexed. *)
Definition unclaimed (st : Subscriptions) : nat :=
  permit_count (map_to_list (s_subs st)).*2.

Definition permits_inv (held : bool) (st : Subscriptions) : Prop :=
  s_permits st + unclaimed st + (if held then 1 else 0) = MAX_UNCLAIMED_ELEMENTS.

Section permit_count.
Implicit Types (m : gmap (list N) Subscription) (l : list Subscription).

Definition pc m : nat := permit_count (map_to_list m).*2.

#[global] Instance permit_count_perm : Proper ((≡ₚ) ==> eq) permit_count.
Proof. intros l1 l2 Hl. unfold permit_count. by rewrite Hl. Qed.

Lemma permit_count_app l1 l2 : permit_count (l1 ++ l2) = permit_count l1 + permit_count l2.
Proof. unfold permit_count. apply sum_list_with_app. Qed.

Lemma pc_empty : pc ∅ = 0.
Proof. done. Qed.

Lemma pc_insert_new m k v : m !! k = None → pc (<[k := v]> m) = (if sub_permit v then 1 else 0) + pc m.
Proof. intros Hk. unfold pc. by rewrite map_to_list_insert. Qed.

Lemma pc_insert m k v old :
  m !! k = Some old →
  pc (<[k := v]> m) + (if sub_permit old then 1 else 0) = pc m + (if sub_permit v then 1 else 0).
Proof.
  intros Hk. rewrite <- insert_delete_eq, pc_insert_new by apply lookup_delete_eq.
  rewrite <- (insert_delete_id m k old) at 2 by done.
  rewrite (pc_insert_new (delete k m)) by apply lookup_delete_eq. lia.
Qed.

Lemma pc_insert_same m k v old :
  m !! k = Some old → sub_permit v = sub_permit old → pc (<[k := v]> m) = pc m.
Proof. intros Hk Hv. pose proof (pc_insert m k v old Hk) as H. rewrite Hv in H. lia. Qed.

Lemma pc_fmap m f : (∀ v, sub_permit (f v) = sub_permit v) → pc (f <$> m) = pc m.
Proof.
  intros Hf. induction m as [|k v m Hk IH] using map_ind; [done|].
  rewrite fmap_insert, !pc_insert_new by (done || by rewrite lookup_fmap, Hk).
  by rewrite IH, Hf.
Qed.

Lemma pc_filter m (P : list N * Subscription → Prop) `{∀ x, Decision (P x)} :
  pc (filter P m) + pc (filter (λ kv, ¬ P kv) m) = pc m.
Proof.
  induction m as [|k v m Hk IH] using map_ind; [done|].
  rewrite pc_insert_new by done.
  assert (filter P m !! k = None) by (apply map_lookup_filter_None; by left).
  assert (filter (λ kv, ¬ P kv) m !! k = None) by (apply map_lookup_filter_None; by left).
  destruct (decide (P (k, v))).
  - rewrite map_filter_insert_True by done. rewrite pc_insert_new by done.
    rewrite map_filter_insert_False by naive_solver.
    rewrite delete_id by done. lia.
  - rewrite map_filter_insert_False by done. rewrite delete_id by done.
    rewrite map_filter_insert_True by done. rewrite pc_insert_new by done. lia.
Qed.

Lemma remove_nested_filter {V} (m : gmap (list N) V) path :
  (remove_nested m path).1 = filter (λ kv, ¬ path `prefix_of` kv.1) m.
Proof.
  apply map_eq. intros k. rewrite lookup_remove_nested.
  destruct (decide (path `prefix_of` k)) as [Hp|Hp].
  - symmetry. apply map_lookup_filter_None. right. intros v _ Hn. by apply Hn.
  - rewrite map_lookup_filter. destruct (m !! k); simpl; [|done].
    by rewrite option_guard_True.
Qed.

End permit_count.

Lemma unclaimed_pc st : unclaimed st = pc (s_subs st).
Proof. done. Qed.

Lemma permits_subscribe path pat st :
  s_permits (subscribe path pat st) = s_permits st ∧
  pc (s_subs (subscribe path pat st)) = pc (s_subs st).
Proof.
  unfold subscribe, Subscription_new. destruct (s_subs st !! path) eqn:E; [done|].
  destruct (s_patterns st !! pat) as [[[] ?]|]; simpl;
    destruct (s_closed st); simpl; by rewrite pc_insert_new.
Qed.

Lemma permits_remove path st held :
  permits_inv held st → permits_inv held (remove path st).2.
Proof.
  unfold permits_inv. rewrite !unclaimed_pc. destruct (remove_eq path st) as (removed & Hp & ->).
  cbn [snd s_permits s_subs]. rewrite Hp, remove_nested_filter.
  pose proof (pc_filter (s_subs st) (λ kv, path `prefix_of` kv.1)) as Hf.
  unfold pc, nested in *. lia.
Qed.

Lemma foldl_inv {A B} (P : A → Prop) (f : A → B → A) l a :
  P a → (∀ a b, P a → P (f a b)) → P (foldl f a l).
Proof. intros Ha Hf. revert a Ha. induction l; simpl; auto. Qed.

Lemma permits_claim_element path pat st k held :
  permits_inv held st → permits_inv held (claim_element path pat st k).
Proof.
  intros Hp. unfold claim_element. set (st1 := subscribe _ _ _).
  assert (permits_inv held st1) as H1.
  { unfold permits_inv in *. rewrite unclaimed_pc in *.
    destruct (permits_subscribe (take (S k) path) (take (S k) pat) st) as [E1 E2].
    unfold st1. by rewrite E1, E2. }
  clearbody st1. unfold permits_inv in *. rewrite !unclaimed_pc in *.
  destruct (s_subs st1 !! take (S k) path) as [sub|] eqn:E; [|done].
  simpl. pose proof (pc_insert _ _ (mkSubscription (sub_tx sub) (sub_rx sub)
    (sub_handles sub + 1) false) _ E) as Hpc. simpl in Hpc.
  destruct (sub_permit sub); lia.
Qed.

Lemma permits_take_rx path st held :
  permits_inv held st → permits_inv held (take_rx path st).2.
Proof.
  intros Hp. unfold take_rx. destruct (resolve st path) as [[node pat]|]; [|done].
  destruct (existsb _ _); [done|]. destruct (_ && _); [done|].
  assert (permits_inv held (foldl (claim_element path pat) st (wildcards pat))) as H1.
  { apply foldl_inv; [done|]. intros. by apply permits_claim_element. }
  destruct (p_declared node); [|done]. unfold take_sub_rx.
  set (st1 := foldl _ _ _) in *. clearbody st1.
  destruct (permits_subscribe path pat st1) as [E1 E2].
  destruct (s_subs (subscribe path pat st1) !! path) as [sub|] eqn:E; simpl.
  - unfold permits_inv in *. rewrite unclaimed_pc in *. simpl.
    by erewrite pc_insert_same, E1, E2.
  - unfold permits_inv in *. rewrite unclaimed_pc in *. by rewrite E1, E2.
Qed.

Lemma permits_skip path st held :
  permits_inv held st → permits_inv held (skip path st).2.
Proof.
  intros Hp. unfold skip. destruct (resolve st path) as [[node pat]|]; [|done].
  apply (foldl_inv (λ acc, permits_inv held (acc.2))); [done|].
  intros acc k Ha. unfold skip_at. destruct (_ <=? _)%N; [done|].
  apply (foldl_inv (λ acc, permits_inv held (acc.2))); [done|].
  intros acc' p Ha'. pose proof (permits_remove p (acc'.2) held Ha') as Hr.
  by destruct (remove p (acc'.2)).
Qed.

Lemma permits_insert_same held st k v old :
  s_subs st !! k = Some old → sub_permit v = sub_permit old →
  permits_inv held st → permits_inv held (set_subs (<[k := v]> (s_subs st)) st).
Proof.
  unfold permits_inv. rewrite !unclaimed_pc. simpl. intros ?? <-. by erewrite pc_insert_same.
Qed.

Lemma permits_retain path st held :
  permits_inv held st → permits_inv held (retain path st).
Proof.
  intros Hp. unfold retain. destruct (resolve st path) as [[node pat]|]; [|done].
  apply foldl_inv; [done|]. intros st' k Ha. unfold retain_element.
  destruct (s_subs st' !! _) eqn:E; [|done]. by eapply permits_insert_same.
Qed.

Lemma permits_release_elements path ks st held :
  permits_inv held st → permits_inv held (release_elements path ks st).2.
Proof.
  revert st. induction ks as [|k ks IH]; intros st Hp; simpl; [done|].
  destruct (s_subs st !! _) eqn:E; [|done].
  destruct (_ =? _)%N; [apply permits_remove|apply IH]; by eapply permits_insert_same.
Qed.

Lemma permits_release path st held :
  permits_inv held st → permits_inv held (release path st).2.
Proof.
  intros Hp. unfold release. destruct (resolve st path) as [[node pat]|]; [|done].
  by apply permits_release_elements.
Qed.

Lemma permits_route_elements path pat ks held st r held' st' :
  route_elements path pat ks held st = (r, held', st') →
  permits_inv held st → permits_inv held' st'.
Proof.
  revert held st. induction ks as [|k ks IH]; intros held st; simpl; [by intros [= <- <- <-]|].
  destruct (s_subs st !! take (S k) path) eqn:E; [apply IH|].
  destruct (_ <? _)%N; [by intros [= <- <- <-]|].
  destruct held; [|by intros [= <- <- <-]].
  intros Hr Hp. eapply IH; [exact Hr|]. clear IH Hr.
  destruct (permits_subscribe (take (S k) path) (take (S k) pat) st) as [E1 E2].
  set (st1 := subscribe _ _ _) in *.
  assert (∃ sub, s_subs st1 !! take (S k) path = Some sub ∧ sub_permit sub = false) as (sub & Es & Ef).
  { unfold st1, subscribe. rewrite E. unfold Subscription_new.
    destruct (s_patterns st !! _) as [[[] ?]|]; simpl; destruct (s_closed st); simpl;
      rewrite lookup_insert_eq; eauto. }
  rewrite Es. unfold permits_inv in *. rewrite !unclaimed_pc in *. simpl.
  pose proof (pc_insert _ _ (mkSubscription (sub_tx sub) (sub_rx sub) (sub_handles sub) true)
    _ Es) as Hpc. simpl in Hpc. rewrite Ef in Hpc. lia.
Qed.

Lemma permits_route path held st r held' st' :
  route path held st = (r, held', st') → permits_inv held st → permits_inv held' st'.
Proof.
  unfold route. destruct (get_tx_mut path st); [by intros [= <- <- <-]|].
  destruct (resolve st path) as [[[[] w] pat]|]; try (by intros [= <- <- <-]).
  destruct (route_elements _ _ _ _ _) as [[[r1|] held1] st1] eqn:E.
  - intros [= <- <- <-]. by eapply permits_route_elements.
  - intros [= <- <- <-] Hp. eapply permits_route_elements in Hp; [|done].
    destruct (permits_subscribe path pat st1) as [E1 E2].
    unfold permits_inv in *. rewrite unclaimed_pc in *. by rewrite E1, E2.
Qed.

Lemma permits_close_rx st held : permits_inv held st → permits_inv held (close_rx st).2.
Proof. unfold permits_inv. rewrite !unclaimed_pc. simpl. by rewrite pc_fmap. Qed.

Lemma permits_close_tx st held : permits_inv held st → permits_inv held (close_tx st).
Proof.
  unfold permits_inv. rewrite !unclaimed_pc. simpl. rewrite pc_fmap; [done|].
  intros [[[]|] ? ? ?]; done.
Qed.

Lemma permits_close_slot path st held : permits_inv held st → permits_inv held (close_slot path st).
Proof.
  unfold close_slot. destruct (s_subs st !! path) eqn:E; [|done]. by apply (permits_insert_same _ _ _ _ _ E).
Qed.

Lemma permits_new paths tx : permits_inv false (Subscriptions_new paths tx).
Proof.
  unfold Subscriptions_new. apply (foldl_inv (permits_inv false)).
  { unfold permits_inv. rewrite unclaimed_pc. simpl.
    rewrite <- insert_empty, pc_insert_new by apply lookup_empty. by rewrite pc_empty. }
  intros st p Hp. unfold declare_path. destruct p as [|i p]; [done|].
  destruct (collect _) as [q|]; [|done]. unfold Subscription_new, insert_subscription. simpl.
  unfold permits_inv in *. rewrite !unclaimed_pc in *.
  destruct (s_subs st !! q) as [old|] eqn:E; simpl.
  - pose proof (pc_insert _ _ (mkSubscription (Some (Open (s_fresh st))) (Some (s_fresh st)) 0 false)
      _ E) as Hpc. simpl in Hpc. destruct (sub_permit old); lia.
  - by rewrite pc_insert_new.
Qed.

#[export] Hint Resolve permits_new permits_close_slot permits_close_tx permits_close_rx
  permits_release permits_retain permits_skip permits_take_rx permits_remove : wrpc.

(** ** Channels *)

(** The sender, respectively the receiver, of the channel [c] is held by the
    subscription of [p]. *)
Definition tx_at (st : Subscriptions) (p : list N) (c : N) : Prop :=
  ∃ sub, s_subs st !! p = Some sub ∧ sub_tx sub = Some (Open c).
Definition rx_at (st : Subscriptions) (p : list N) (c : N) : Prop :=
  ∃ sub, s_subs st !! p = Some sub ∧ sub_rx sub = Some c.
Definition chan_at (st : Subscriptions) (p : list N) (c : N) : Prop :=
  tx_at st p c ∨ rx_at st p c.

Lemma rx_at_bind st p c : rx_at st p c ↔ (s_subs st !! p ≫= sub_rx) = Some c.
Proof. unfold rx_at. by rewrite bind_Some. Qed.

#[global] Instance rx_at_dec st p c : Decision (rx_at st p c).
Proof.
  destruct (decide ((s_subs st !! p ≫= sub_rx) = Some c)); [left|right]; by rewrite rx_at_bind.
Defined.

Record chan_wf (st : Subscriptions) : Prop := {
  wf_fresh p c : chan_at st p c → (c < s_fresh st)%N;
  wf_live p c : rx_at st p c → is_Some (s_chans st !! c);
  wf_unique p q c : chan_at st p c → chan_at st q c → p = q;
  wf_chans c : is_Some (s_chans st !! c) → (c < s_fresh st)%N
}.

Definition holds_data (st : Subscriptions) (c : N) : Prop :=
  ∃ b q, s_chans st !! c = Some (b :: q).

(** How the operations may change the channels.  [out] is the receiver which is
    handed out, with the path it is for; [lost] tells whether a receiver which
    held data was dropped. *)
Record evolves (out : option (list N * N)) (lost : bool) (st st' : Subscriptions) : Prop := {
  ev_fresh : (s_fresh st ≤ s_fresh st')%N;
  ev_patterns : s_patterns st' = s_patterns st;
  ev_tx p c : tx_at st' p c → tx_at st p c ∨ (s_fresh st ≤ c)%N;
  ev_rx p c : rx_at st' p c → rx_at st p c ∨ (s_fresh st ≤ c)%N;
  ev_rx_keep p c :
    rx_at st p c → rx_at st' p c ∨ s_chans st' !! c = None ∨ out = Some (p, c);
  ev_old c :
    (c < s_fresh st)%N → s_chans st' !! c = s_chans st !! c ∨
                         s_chans st' !! c = None ∧ ∃ p, rx_at st p c;
  ev_lost : lost = true ↔ ∃ c, holds_data st c ∧ s_chans st' !! c = None;
  ev_new c :
    (s_fresh st ≤ c)%N → is_Some (s_chans st' !! c) →
    s_chans st' !! c = Some [] ∧ ((∃ p, rx_at st' p c) ∨ ∃ p, out = Some (p, c));
  ev_out p c :
    out = Some (p, c) →
    is_Some (s_chans st' !! c) ∧ (rx_at st p c ∨ (s_fresh st ≤ c)%N) ∧
    (∀ q, ¬ rx_at st' q c) ∧ (∀ q, tx_at st' q c → q = p);
  ev_wf : chan_wf st'
}.

Lemma holds_data_fresh st c : chan_wf st → holds_data st c → (c < s_fresh st)%N.
Proof. intros Hwf (b & q & Hc). apply (wf_chans _ Hwf). by exists (b :: q). Qed.

(** An operation which drops no channel, creates none and moves no receiver. *)
Lemma evolves_same st st' :
  chan_wf st → s_fresh st' = s_fresh st → s_patterns st' = s_patterns st →
  s_chans st' = s_chans st →
  (∀ p c, tx_at st' p c → tx_at st p c) → (∀ p c, rx_at st' p c ↔ rx_at st p c) →
  evolves None false st st'.
Proof.
  intros Hwf Hf Hp Hc Htx Hrx. split; rewrite ?Hf, ?Hc; try done; eauto.
  - intros p c ?%Hrx. by left.
  - intros p c ?. left. by apply Hrx.
  - split; [done|]. intros (c & (? & ? & Hd) & Hn). congruence.
  - intros c Hle [q Hq]. assert (c < s_fresh st)%N by (apply (wf_chans _ Hwf); eauto). lia.
  - assert (∀ p c, chan_at st' p c → chan_at st p c) as Hat.
    { intros p c [?%Htx|?%Hrx]; [by left|by right]. }
    split; rewrite ?Hf, ?Hc.
    + intros p c ?%Hat. by eapply wf_fresh.
    + intros p c ?%Hrx. by eapply wf_live.
    + intros p q c ?%Hat ?%Hat. by eapply wf_unique.
    + apply (wf_chans _ Hwf).
Qed.

Lemma evolves_trans out l1 l2 st1 st2 st3 :
  evolves None l1 st1 st2 → evolves out l2 st2 st3 →
  chan_wf st1 → evolves out (l1 || l2) st1 st3.
Proof.
  intros E1 E2 Hwf. pose proof (ev_fresh _ _ _ _ E1) as Hf1.
  pose proof (ev_fresh _ _ _ _ E2) as Hf2. split.
  - lia.
  - by rewrite (ev_patterns _ _ _ _ E2), (ev_patterns _ _ _ _ E1).
  - intros p c [H|]%(ev_tx _ _ _ _ E2); [by eapply ev_tx|right; lia].
  - intros p c [H|]%(ev_rx _ _ _ _ E2); [by eapply ev_rx|right; lia].
  - intros p c H. pose proof (wf_fresh _ Hwf p c (or_intror H)) as Hc.
    destruct (ev_rx_keep _ _ _ _ E1 p c H) as [H2|[H2|?]]; [by eapply ev_rx_keep| |done].
    right. left. destruct (ev_old _ _ _ _ E2 c) as [->|[-> _]]; [lia|done|done].
  - intros c Hc. destruct (ev_old _ _ _ _ E2 c) as [->|[-> [p Hp]]]; [lia|by eapply ev_old|].
    right. split; [done|]. destruct (ev_rx _ _ _ _ E1 p c Hp) as [?|?]; [eauto|lia].
  - rewrite orb_true_iff, (ev_lost _ _ _ _ E1), (ev_lost _ _ _ _ E2). split.
    + intros [(c & Hd & Hn)|(c & (b & q & Hd) & Hn)].
      * exists c. split; [done|]. pose proof (holds_data_fresh _ _ Hwf Hd).
        destruct (ev_old _ _ _ _ E2 c) as [->|[-> _]]; [lia|done|done].
      * exists c. split; [|done]. destruct (decide (c < s_fresh st1)%N) as [Hc|Hc].
        -- destruct (ev_old _ _ _ _ E1 c Hc) as [Ho|[Ho _]]; [|congruence].
           exists b, q. congruence.
        -- destruct (ev_new _ _ _ _ E1 c) as [Ho _]; [lia|by exists (b :: q)|congruence].
    + intros (c & (b & q & Hd) & Hn).
      destruct (s_chans st2 !! c) as [q2|] eqn:E; [right|left]; exists c.
      * assert (c < s_fresh st1)%N by (apply (wf_chans _ Hwf); eauto).
        split; [|done]. exists b, q. destruct (ev_old _ _ _ _ E1 c) as [?|[? _]]; congruence.
      * split; [|done]. by exists b, q.
  - intros c Hc [q Hq]. destruct (decide (c < s_fresh st2)%N) as [Hc2|Hc2].
    + destruct (ev_old _ _ _ _ E2 c Hc2) as [Ho|[Ho _]]; [|congruence]. rewrite Ho in *.
      destruct (ev_new _ _ _ _ E1 c Hc) as [-> [[p Hp]|[? ?]]]; [eauto| |done].
      split; [done|]. destruct (ev_rx_keep _ _ _ _ E2 p c Hp) as [?|[?|?]]; [eauto|congruence|eauto].
    + apply (ev_new _ _ _ _ E2); [lia|eauto].
  - intros p c Ho. destruct (ev_out _ _ _ _ E2 p c Ho) as (Hl & Hr & Hn & Ht).
    split; [done|]. split; [|done]. destruct Hr as [Hr|?]; [|right; lia]. by eapply ev_rx.
  - by eapply ev_wf.
Qed.

Lemma evolves_refl st : chan_wf st → evolves None false st st.
Proof. intros. by apply evolves_same. Qed.

(** The same channels with other fields changed. *)
Lemma evolves_fields st st' :
  chan_wf st → s_subs st' = s_subs st → s_fresh st' = s_fresh st →
  s_patterns st' = s_patterns st → s_chans st' = s_chans st → evolves None false st st'.
Proof. intros ? Hs ???. apply evolves_same; unfold tx_at, rx_at; by rewrite ?Hs. Qed.

(** A subscription whose sender may be closed and whose receiver is kept. *)
Lemma evolves_insert st st' k v old :
  chan_wf st → s_subs st !! k = Some old → s_subs st' = <[k := v]> (s_subs st) →
  (∀ c, sub_tx v = Some (Open c) → sub_tx old = Some (Open c)) → sub_rx v = sub_rx old →
  s_fresh st' = s_fresh st → s_patterns st' = s_patterns st → s_chans st' = s_chans st →
  evolves None false st st'.
Proof.
  intros ? Hk Hs Htx Hrx ???. apply evolves_same; try done; unfold tx_at, rx_at; rewrite Hs;
    intros p c; (destruct (decide (p = k)) as [->|];
      [rewrite lookup_insert_eq|by rewrite lookup_insert_ne]).
  - intros (? & [= <-] & ?). eauto.
  - split; intros (? & ? & ?); simplify_eq; [rewrite Hrx in *|rewrite <- Hrx in *]; eauto.
Qed.

Lemma lookup_subscribe_ne path pat st q :
  q ≠ path → s_subs (subscribe path pat st) !! q = s_subs st !! q.
Proof.
  intros ?. unfold subscribe, Subscription_new. destruct (s_subs st !! path); [done|].
  destruct (s_patterns st !! pat) as [[[] ?]|]; simpl; by rewrite lookup_insert_ne.
Qed.

(** The two outcomes of subscribing to a path which is not subscribed to. *)
Lemma subscribe_new_eq path pat st :
  s_subs st !! path = None →
  let d := match s_patterns st !! pat with Some p => p_declared p | None => false end in
  subscribe path pat st =
  if d then
    mkSubs (s_patterns st)
      (<[path := mkSubscription (if s_closed st then None else Some (Open (s_fresh st)))
                   (Some (s_fresh st)) 0 false]> (s_subs st))
      (s_next st) (s_permits st) (s_unclaimed_closed st) (s_indexed st) (s_closed st) (s_depth st)
      (<[s_fresh st := []]> (s_chans st)) (s_fresh st + 1)
  else set_subs (<[path := Subscription_default]> (s_subs st)) st.
Proof.
  intros Hn. unfold subscribe. rewrite Hn. simpl.
  destruct (s_patterns st !! pat) as [[[] ?]|]; simpl; by destruct (s_closed st).
Qed.

Lemma evolves_subscribe path pat st :
  chan_wf st → evolves None false st (subscribe path pat st).
Proof.
  intros Hwf. destruct (s_subs st !! path) eqn:E.
  { unfold subscribe. rewrite E. by apply evolves_refl. }
  rewrite subscribe_new_eq by done. destruct (match _ with Some _ => _ | None => _ end).
  2: { apply evolves_same; try done; unfold tx_at, rx_at; simpl; intros p c;
       (destruct (decide (p = path)) as [->|]; [rewrite lookup_insert_eq|by rewrite lookup_insert_ne]).
       - by intros (? & [= <-] & ?).
       - rewrite E. split; by intros (? & [= <-] & ?). }
  set (sub := mkSubscription _ _ _ _). set (st' := mkSubs _ _ _ _ _ _ _ _ _ _).
  assert (∀ p c, tx_at st' p c → tx_at st p c ∨ p = path ∧ c = s_fresh st) as Htx.
  { intros p c (v & Hv & Hc). unfold st' in Hv; simpl in Hv. destruct (decide (p = path)) as [->|].
    - rewrite lookup_insert_eq in Hv. injection Hv as <-. unfold sub in Hc; simpl in Hc.
      right. by destruct (s_closed st); simplify_eq.
    - rewrite lookup_insert_ne in Hv by done. left. by exists v. }
  assert (∀ p c, rx_at st' p c ↔ rx_at st p c ∨ p = path ∧ c = s_fresh st) as Hrx.
  { intros p c. unfold rx_at, st'; simpl. destruct (decide (p = path)) as [->|].
    - rewrite lookup_insert_eq, E. split; [intros (? & [= <-] & ?)|];
      [|intros [(? & ? & ?)|[_ ->]]; [done|by eexists]]. right. unfold sub in *. by simplify_eq/=.
    - rewrite lookup_insert_ne by done. naive_solver. }
  assert (∀ c, (c < s_fresh st)%N → s_chans st' !! c = s_chans st !! c) as Hold.
  { intros c ?. unfold st'; simpl. by rewrite lookup_insert_ne by lia. }
  split.
  - unfold st'; simpl; lia.
  - done.
  - intros p c [?|[_ ->]]%Htx; [by left|right; lia].
  - intros p c [?|[_ ->]]%Hrx; [by left|right; lia].
  - intros p c ?. left. apply Hrx. by left.
  - intros c ?. left. by apply Hold.
  - split; [done|]. intros (c & Hd & Hn). pose proof (holds_data_fresh _ _ Hwf Hd).
    rewrite Hold in Hn by done. destruct Hd as (? & ? & ?). congruence.
  - intros c Hc Hs. assert (c = s_fresh st) as ->.
    { destruct (decide (c = s_fresh st)); [done|]. unfold st' in Hs; simpl in Hs.
      rewrite lookup_insert_ne in Hs by done. apply (wf_chans _ Hwf) in Hs. lia. }
    unfold st'; simpl. rewrite lookup_insert_eq. split; [done|].
    left. exists path. apply Hrx. by right.
  - done.
  - assert (∀ p c, chan_at st' p c → chan_at st p c ∨ p = path ∧ c = s_fresh st) as Hat.
    { intros p c [[?|?]%Htx|[?|?]%Hrx]; unfold chan_at; tauto. }
    assert (∀ p, ¬ chan_at st p (s_fresh st)) as Hno.
    { intros p ?%(wf_fresh _ Hwf). lia. }
    split.
    + intros p c [?%(wf_fresh _ Hwf)|[_ ->]]%Hat; unfold st'; simpl; lia.
    + intros p c [Hr|[_ ->]]%Hrx; [|unfold st'; simpl; rewrite lookup_insert_eq; eauto].
      rewrite Hold; [by eapply wf_live|]. apply (wf_fresh _ Hwf p). by right.
    + intros p q c [H1|[-> ->]]%Hat [H2|[-> Hc]]%Hat; subst;
        [by eapply wf_unique|by apply Hno in H1|by apply Hno in H2|done].
    + intros c. unfold st'; simpl. destruct (decide (c = s_fresh st)) as [->|]; [lia|].
      rewrite lookup_insert_ne by done. intros ?%(wf_chans _ Hwf). lia.
Qed.

(** The receivers of some channels are dropped. *)
Lemma chan_holds_data_spec st c : chan_holds_data (s_chans st) (Some c) = true ↔ holds_data st c.
Proof.
  unfold chan_holds_data, holds_data. destruct (s_chans st !! c) as [[|b q]|]; naive_solver.
Qed.

Lemma evolves_drop st st' (dropped : list N) :
  chan_wf st → s_fresh st' = s_fresh st → s_patterns st' = s_patterns st →
  (∀ p c, tx_at st' p c → tx_at st p c) →
  (∀ p c, rx_at st' p c ↔ rx_at st p c ∧ c ∉ dropped) →
  (∀ c, c ∈ dropped → ∃ p, rx_at st p c) →
  (∀ c, s_chans st' !! c = if decide (c ∈ dropped) then None else s_chans st !! c) →
  evolves None (existsb (λ c, chan_holds_data (s_chans st) (Some c)) dropped) st st'.
Proof.
  intros Hwf Hf Hp Htx Hrx Hd Hc. split; try (rewrite ?Hf; done); eauto.
  - intros p c [? _]%Hrx. by left.
  - intros p c ?. destruct (decide (c ∈ dropped)) as [Hin|Hin].
    + right. left. by rewrite Hc, decide_True.
    + left. by apply Hrx.
  - intros c _. rewrite Hc. destruct (decide (c ∈ dropped)) as [Hin|Hin]; eauto.
  - rewrite existsb_exists. split.
    + intros (c & Hin & Hh). exists c. split; [by apply chan_holds_data_spec|].
      rewrite Hc. apply list_elem_of_In in Hin. by rewrite decide_True.
    + intros (c & Hh & Hn). exists c. split; [|by apply chan_holds_data_spec].
      rewrite Hc in Hn. apply list_elem_of_In. destruct (decide (c ∈ dropped)); [done|].
      destruct Hh as (? & ? & ?). congruence.
  - intros c Hle [q Hq]. rewrite Hc in Hq. destruct (decide _); [done|].
    assert (c < s_fresh st)%N by (apply (wf_chans _ Hwf); eauto). lia.
  - assert (∀ p c, chan_at st' p c → chan_at st p c) as Hat.
    { intros p c [?%Htx|[? _]%Hrx]; [by left|by right]. }
    split; rewrite ?Hf.
    + intros p c ?%Hat. by eapply wf_fresh.
    + intros p c [? ?]%Hrx. rewrite Hc, decide_False by done. by eapply wf_live.
    + intros p q c ?%Hat ?%Hat. by eapply wf_unique.
    + intros c. rewrite Hc. destruct (decide _); [by intros []|]. apply (wf_chans _ Hwf).
Qed.

Lemma existsb_rx chans (subs : list Subscription) :
  existsb (λ sub, chan_holds_data chans (sub_rx sub)) subs =
  existsb (λ c, chan_holds_data chans (Some c)) (omap sub_rx subs).
Proof.
  induction subs as [|sub subs IH]; simpl; [done|].
  destruct (sub_rx sub); simpl; by rewrite IH.
Qed.

Lemma lookup_drop_chans subs chans c :
  drop_chans subs chans !! c = if decide (c ∈ omap sub_rx subs) then None else chans !! c.
Proof.
  unfold drop_chans. revert chans. induction subs as [|sub subs IH]; intros chans; simpl; [done|].
  rewrite IH. destruct (sub_rx sub) as [c'|]; simpl; [|done].
  change (list_omap _ _ sub_rx subs) with (omap sub_rx subs).
  destruct (decide (c ∈ omap sub_rx subs)) as [Hi|Hi],
    (decide (c ∈ c' :: omap sub_rx subs)) as [Hj|Hj]; try done.
  - by destruct Hj; right.
  - assert (c = c') as -> by (by apply elem_of_cons in Hj as [?|?]). apply lookup_delete_eq.
  - apply lookup_delete_ne. intros ->. apply Hj. by left.
Qed.

Lemma elem_of_omap_rx (m : gmap (list N) Subscription) (subs : list Subscription) c :
  subs ≡ₚ (map_to_list m).*2 →
  c ∈ omap sub_rx subs ↔ ∃ p sub, m !! p = Some sub ∧ sub_rx sub = Some c.
Proof.
  intros Hp. rewrite list_elem_of_omap. setoid_rewrite Hp. setoid_rewrite list_elem_of_fmap. split.
  - intros (sub & ([p sub'] & -> & Hin%elem_of_map_to_list) & ?). by exists p, sub'.
  - intros (p & sub & Hin & ?). exists sub. split; [|done].
    exists (p, sub). split; [done|]. by apply elem_of_map_to_list.
Qed.

Lemma evolves_remove path st pending st' :
  chan_wf st → remove path st = (pending, st') → evolves None pending st st'.
Proof.
  intros Hwf Hr. destruct (remove_eq path st) as (removed & Hp & He). rewrite He in Hr.
  apply pair_equal_spec in Hr as [<- <-]. rewrite existsb_rx.
  assert (∀ c, c ∈ omap sub_rx removed ↔ ∃ p, path `prefix_of` p ∧ rx_at st p c) as Hin.
  { intros c. rewrite elem_of_omap_rx by done. unfold nested, rx_at.
    setoid_rewrite map_lookup_filter_Some. simpl. naive_solver. }
  apply evolves_drop; cbn [s_fresh s_patterns s_chans]; try done.
  - intros p c (sub & Hs & Ht). cbn [s_subs] in Hs. rewrite lookup_remove_nested in Hs.
    destruct (decide _); [done|]. by exists sub.
  - intros p c. unfold rx_at at 1; cbn [s_subs]. rewrite lookup_remove_nested, Hin. split.
    + intros (sub & Hs & Hrx). destruct (decide _); [done|]. split; [by exists sub|].
      intros (q & Hq & Hc). assert (rx_at st p c) as Hpc by (by exists sub).
      by rewrite (wf_unique _ Hwf p q c (or_intror Hpc) (or_intror Hc)) in *.
    + intros [(sub & Hs & Hrx) Hn]. destruct (decide _); [|by exists sub].
      destruct Hn. exists p. split; [done|by exists sub].
  - intros c (p & _ & ?)%Hin. by exists p.
  - intros c. apply lookup_drop_chans.
Qed.

Lemma evolves_close_rx st pending st' :
  chan_wf st → close_rx st = (pending, st') →
  evolves None pending st st' ∧ (∀ p c, ¬ rx_at st' p c) ∧
  s_unclaimed_closed st' = true.
Proof.
  intros Hwf [= <- <-].
  assert (existsb (λ kv, chan_holds_data (s_chans st) (sub_rx kv.2)) (map_to_list (s_subs st)) =
          existsb (λ c, chan_holds_data (s_chans st) (Some c))
            (omap sub_rx (map_to_list (s_subs st)).*2)) as ->.
  { rewrite <- existsb_rx. induction (map_to_list (s_subs st)); simpl; [done|by f_equal]. }
  assert (∀ cs l, foldl (λ cs (kv : list N * Subscription), drop_rx (sub_rx kv.2) cs) cs l
                  = drop_chans l.*2 cs) as Hfold.
  { intros cs l. unfold drop_chans. revert cs. induction l; simpl; auto. }
  assert (∀ p c, tx_at (close_rx st).2 p c → tx_at st p c) as Htx.
  { intros p c (sub & Hs & Ht). simpl in Hs. rewrite lookup_fmap in Hs.
    apply fmap_Some in Hs as (sub' & Hs & ->). by exists sub'. }
  assert (∀ p c, ¬ rx_at (close_rx st).2 p c) as Hrx.
  { intros p c (sub & Hs & Ht). simpl in Hs. rewrite lookup_fmap in Hs.
    by apply fmap_Some in Hs as (sub' & Hs & ->). }
  assert (∀ c, c ∈ omap sub_rx (map_to_list (s_subs st)).*2 ↔ ∃ p, rx_at st p c) as Hin.
  { intros c. by rewrite elem_of_omap_rx. }
  split; [|done]. apply evolves_drop; try done.
  - intros p c. split; [by intros ?%Hrx|]. intros [? Hn]. destruct Hn. apply Hin. by exists p.
  - intros c. by rewrite Hin.
  - intros c. simpl. rewrite Hfold. apply lookup_drop_chans.
Qed.

Lemma evolves_close_tx st : chan_wf st → evolves None false st (close_tx st).
Proof.
  intros Hwf. apply evolves_same; try done; intros p c; unfold tx_at, rx_at; simpl;
    rewrite lookup_fmap.
  - intros (sub & (sub' & Hs & ->)%fmap_Some & Ht). exists sub'. split; [done|].
    unfold close_tx_sub in Ht. by destruct (sub_tx sub') as [[]|] eqn:E; simpl in Ht; rewrite ?E in Ht.
  - assert (∀ sub, sub_rx (close_tx_sub sub) = sub_rx sub) as Hc.
    { intros [[[]|] ???]; done. }
    split; intros (sub & Hs & Ht).
    + apply fmap_Some in Hs as (sub' & Hs & ->). exists sub'. by rewrite <- Hc.
    + exists (close_tx_sub sub). by rewrite Hs, Hc.
Qed.

Lemma tx_at_close_tx st p c : ¬ tx_at (close_tx st) p c.
Proof.
  intros (sub & Hs & Ht). simpl in Hs. rewrite lookup_fmap in Hs.
  apply fmap_Some in Hs as (sub' & Hs & ->). by destruct sub' as [[[]|] ???].
Qed.

Lemma evolves_close_slot path st : chan_wf st → evolves None false st (close_slot path st).
Proof.
  intros Hwf. unfold close_slot. destruct (s_subs st !! path) eqn:E; [|by apply evolves_refl].
  by eapply evolves_insert.
Qed.

(** A change of the handles and the permit of a subscription. *)
Lemma evolves_account st st' k sub n b :
  chan_wf st → s_subs st !! k = Some sub →
  s_subs st' = <[k := mkSubscription (sub_tx sub) (sub_rx sub) n b]> (s_subs st) →
  s_fresh st' = s_fresh st → s_patterns st' = s_patterns st → s_chans st' = s_chans st →
  evolves None false st st'.
Proof. intros. by eapply evolves_insert. Qed.

Lemma evolves_claim_element path pat st k :
  chan_wf st → evolves None false st (claim_element path pat st k).
Proof.
  intros Hwf. unfold claim_element. set (st1 := subscribe _ _ _).
  assert (evolves None false st st1) as E1 by (by apply evolves_subscribe).
  change false with (false || false). eapply evolves_trans; [exact E1| |done].
  pose proof (ev_wf _ _ _ _ E1) as Hwf1. clearbody st1.
  destruct (s_subs st1 !! take (S k) path) eqn:E; [by eapply evolves_account|by apply evolves_fields].
Qed.

Lemma evolves_foldl {A} (f : Subscriptions → A → Subscriptions) l st :
  (∀ st x, chan_wf st → evolves None false st (f st x)) →
  chan_wf st → evolves None false st (foldl f st l).
Proof.
  intros Hf. revert st. induction l as [|x l IH]; intros st Hwf; simpl; [by apply evolves_refl|].
  change false with (false || false). eapply evolves_trans; [by apply Hf| |done].
  apply IH. by apply (ev_wf _ _ _ _ (Hf st x Hwf)).
Qed.

Lemma evolves_take_sub_rx path st rx st' :
  chan_wf st → take_sub_rx path st = (rx, st') →
  evolves ((λ c, (path, c)) <$> rx) false st st'.
Proof.
  intros Hwf. unfold take_sub_rx. destruct (s_subs st !! path) as [sub|] eqn:E.
  2: { intros [= <- <-]. by apply evolves_refl. }
  intros [= <- <-]. set (sub' := mkSubscription _ _ _ _). set (st' := set_subs _ _).
  assert (∀ p c, tx_at st' p c → tx_at st p c) as Htx.
  { intros p c (v & Hv & Ht). simpl in Hv. destruct (decide (p = path)) as [->|].
    - rewrite lookup_insert_eq in Hv. injection Hv as <-. by exists sub.
    - rewrite lookup_insert_ne in Hv by done. by exists v. }
  assert (∀ p c, rx_at st' p c ↔ rx_at st p c ∧ p ≠ path) as Hrx.
  { intros p c. unfold rx_at; simpl. destruct (decide (p = path)) as [->|].
    - rewrite lookup_insert_eq. split; [by intros (v & [= <-] & ?)|naive_solver].
    - rewrite lookup_insert_ne by done. naive_solver. }
  split; try done.
  - intros p c ?%Htx. by left.
  - intros p c [? _]%Hrx. by left.
  - intros p c Hc. destruct (decide (p = path)) as [->|]; [|left; by apply Hrx].
    right. right. destruct Hc as (v & Hv & Hvc). simplify_eq. by rewrite Hvc.
  - intros c _. by left.
  - split; [done|]. intros (c & (? & ? & ?) & ?). unfold st' in *. simpl in *. congruence.
  - intros c Hle ?%(wf_chans _ Hwf). lia.
  - intros p c Ho. destruct (sub_rx sub) as [c'|] eqn:Ec; simpl in Ho; simplify_eq.
    assert (rx_at st p c) as Hr by (by exists sub).
    assert (∀ q, chan_at st' q c → q = p) as Hq.
    { intros q [?%Htx|[? _]%Hrx]; apply (wf_unique _ Hwf q p c); by (left + right). }
    split; [by apply (wf_live _ Hwf p)|]. split; [by left|]. split.
    + intros q Hqr. assert (q = p) as -> by (apply Hq; by right). by apply Hrx in Hqr as [_ ?].
    + intros q ?. apply Hq. by left.
  - assert (∀ p c, chan_at st' p c → chan_at st p c) as Hat.
    { intros p c [?%Htx|[? _]%Hrx]; by (left + right). }
    split.
    + intros p c ?%Hat. by apply (wf_fresh _ Hwf p c).
    + intros p c [? _]%Hrx. by apply (wf_live _ Hwf p c).
    + intros p q c ?%Hat ?%Hat. by apply (wf_unique _ Hwf p q c).
    + apply (wf_chans _ Hwf).
Qed.

Lemma evolves_take_rx path st r st' :
  chan_wf st → take_rx path st = (r, st') →
  evolves (c ← r; (λ c, (path, c)) <$> c) false st st'.
Proof.
  intros Hwf. unfold take_rx. destruct (resolve st path) as [[node pat]|].
  2: { intros [= <- <-]. by apply evolves_refl. }
  destruct (existsb _ _). { intros [= <- <-]. by apply evolves_refl. }
  destruct (_ && _). { intros [= <- <-]. by apply evolves_refl. }
  pose proof (evolves_foldl (claim_element path pat) (wildcards pat) st
    (λ st k, evolves_claim_element path pat st k) Hwf) as E1.
  set (st1 := foldl _ _ _) in *. clearbody st1. pose proof (ev_wf _ _ _ _ E1) as Hwf1.
  destruct (p_declared node); [|by intros [= <- <-]].
  pose proof (evolves_subscribe path pat st1 Hwf1) as E2.
  set (st2 := subscribe path pat st1) in *. clearbody st2. pose proof (ev_wf _ _ _ _ E2) as Hwf2.
  destruct (take_sub_rx path st2) as [rx st3] eqn:E. intros [= <- <-]. simpl.
  pose proof (evolves_take_sub_rx _ _ _ _ Hwf2 E) as E3.
  eapply (evolves_trans _ false false); [done| |done].
  eapply (evolves_trans _ false false); done.
Qed.

Lemma evolves_skip path st pending st' :
  chan_wf st → skip path st = (pending, st') → evolves None pending st st'.
Proof.
  intros Hwf. unfold skip. destruct (resolve st path) as [[node pat]|].
  2: { intros [= <- <-]. by apply evolves_refl. }
  assert (∀ acc : bool * Subscriptions, evolves None acc.1 st acc.2 →
    ∀ p, evolves None (acc.1 || (remove p acc.2).1) st (remove p acc.2).2) as Hrem.
  { intros acc Ha p. eapply evolves_trans; [exact Ha| |done].
    eapply evolves_remove; [by eapply ev_wf|]. apply surjective_pairing. }
  pose (P := λ acc : bool * Subscriptions, evolves None acc.1 st acc.2).
  assert (P (foldl (skip_at path) (false, st) (wildcards pat))) as HP.
  { apply foldl_inv; [by apply evolves_refl|]. intros acc k Ha. unfold skip_at.
    destruct (_ <=? _)%N; [done|]. apply foldl_inv; [done|]. intros acc' p Ha'.
    specialize (Hrem acc' Ha' p). by destruct (remove p acc'.2). }
  unfold P in HP. intros Heq. by rewrite Heq in HP.
Qed.

Lemma evolves_retain path st : chan_wf st → evolves None false st (retain path st).
Proof.
  intros Hwf. unfold retain. destruct (resolve st path) as [[node pat]|]; [|by apply evolves_refl].
  apply evolves_foldl; [|done]. intros st' k Hwf'. unfold retain_element.
  destruct (s_subs st' !! _) eqn:E; [by eapply evolves_account|by apply evolves_refl].
Qed.

Lemma evolves_release_elements path ks st pending st' :
  chan_wf st → release_elements path ks st = (pending, st') → evolves None pending st st'.
Proof.
  revert st. induction ks as [|k ks IH]; intros st Hwf; simpl.
  { intros [= <- <-]. by apply evolves_refl. }
  destruct (s_subs st !! _) as [sub|] eqn:E; [|intros [= <- <-]; by apply evolves_refl].
  set (st1 := set_subs _ _).
  assert (evolves None false st st1) as E1 by (by eapply evolves_account).
  clearbody st1. pose proof (ev_wf _ _ _ _ E1) as Hwf1.
  destruct (_ =? _)%N; intros Hr; (eapply (evolves_trans _ false); [exact E1| |done]);
    [by eapply evolves_remove|by eapply IH].
Qed.

Lemma evolves_release path st pending st' :
  chan_wf st → release path st = (pending, st') → evolves None pending st st'.
Proof.
  intros Hwf. unfold release. destruct (resolve st path) as [[node pat]|];
    [by apply evolves_release_elements|]. intros [= <- <-]. by apply evolves_refl.
Qed.

Lemma evolves_route_elements path pat ks held st r held' st' :
  chan_wf st → route_elements path pat ks held st = (r, held', st') → evolves None false st st'.
Proof.
  revert held st. induction ks as [|k ks IH]; intros held st Hwf; simpl.
  { intros [= <- <- <-]. by apply evolves_refl. }
  destruct (s_subs st !! take (S k) path) eqn:E; [by apply IH|].
  destruct (_ <? _)%N; [intros [= <- <- <-]; by apply evolves_refl|].
  destruct held; [|intros [= <- <- <-]; by apply evolves_refl].
  pose proof (evolves_subscribe (take (S k) path) (take (S k) pat) st Hwf) as E1.
  set (st1 := subscribe _ _ _) in *. clearbody st1. pose proof (ev_wf _ _ _ _ E1) as Hwf1.
  intros Hr. eapply (evolves_trans _ false false); [exact E1| |done].
  destruct (s_subs st1 !! take (S k) path) as [sub|] eqn:Es; [|by eapply IH].
  set (st2 := set_subs _ _) in *.
  assert (evolves None false st1 st2) as E2 by (by eapply evolves_account).
  eapply (evolves_trans _ false false); [exact E2| |done]. eapply IH; [|done]. by eapply ev_wf.
Qed.

Lemma evolves_route path held st r held' st' :
  chan_wf st → route path held st = (r, held', st') → evolves None false st st'.
Proof.
  intros Hwf. unfold route. destruct (get_tx_mut path st);
    [intros [= <- <- <-]; by apply evolves_refl|].
  destruct (resolve st path) as [[[[] w] pat]|]; try (intros [= <- <- <-]; by apply evolves_refl).
  destruct (route_elements _ _ _ _ _) as [[[r1|] held1] st1] eqn:E.
  - intros [= <- <- <-]. by eapply evolves_route_elements.
  - intros [= <- <- <-]. apply evolves_route_elements in E; [|done].
    eapply (evolves_trans _ false false); [exact E| |done].
    apply evolves_subscribe. by eapply ev_wf.
Qed.

(** The slot a frame is routed to is the one of its path. *)
Lemma route_tx_at path held st c held' st' :
  route path held st = (RouteTx (Open c), held', st') → tx_at st' path c.
Proof.
  unfold route.
  assert (∀ st, (match get_tx_mut path st with Some slot => RouteTx slot | None => RouteNotFound end)
                = RouteTx (Open c) → tx_at st path c) as Hg.
  { intros s. unfold get_tx_mut, tx_at. destruct (s_subs s !! path) as [sub|]; simpl; [|done].
    destruct (sub_tx sub) eqn:E; [|done]. intros [= ->]. by exists sub. }
  destruct (get_tx_mut path st) eqn:Et.
  { intros [= Hr <- <-]. apply Hg. by rewrite Et, Hr. }
  destruct (resolve st path) as [[[[] w] pat]|]; try done.
  destruct (route_elements _ _ _ _ _) as [[[r1|] held1] st1] eqn:E.
  - intros [= -> <- <-]. revert E. clear. generalize (wildcards pat).
    intros ks. revert held st. induction ks as [|k ks IH]; intros held st; simpl; [done|].
    destruct (s_subs st !! _); [apply IH|]. destruct (_ <? _)%N; [done|].
    destruct held; [apply IH|done].
  - intros [= Hr <- <-]. by apply Hg.
Qed.

Lemma chan_wf_ext st st' :
  s_subs st' = s_subs st → s_fresh st' = s_fresh st → s_chans st' = s_chans st →
  chan_wf st → chan_wf st'.
Proof.
  intros Hs Hf Hc [H1 H2 H3 H4].
  split; unfold chan_at, tx_at, rx_at in *; rewrite ?Hs, ?Hf, ?Hc; eauto.
Qed.

(** [Subscriptions::new] *)
(** The channels while the paths of new subscriptions are declared: that of the
    root has no receiver, and the others have one. *)
Record chan_new (tx : N) (st : Subscriptions) : Prop := {
  cn_wf : chan_wf st;
  cn_no_rx p : ¬ rx_at st p tx;
  cn_root p : tx_at st p tx → p = [];
  cn_chans c q : s_chans st !! c = Some q → q = [] ∧ (c = tx ∨ ∃ p, rx_at st p c);
  cn_fresh : (tx < s_fresh st)%N
}.

(** Where the channels are once a subscription with a new one is inserted *)
Record chan_inserted (key : list N) (st st' : Subscriptions) : Prop := {
  ci_tx p c : tx_at st' p c ↔ p = key ∧ c = s_fresh st ∨ p ≠ key ∧ tx_at st p c;
  ci_rx p c : rx_at st' p c ↔ p = key ∧ c = s_fresh st ∨ p ≠ key ∧ rx_at st p c;
  ci_chans c : s_chans st' !! c =
    if decide (rx_at st key c) then None else if decide (c = s_fresh st) then Some [] else s_chans st !! c;
  ci_fresh : s_fresh st' = (s_fresh st + 1)%N
}.

Lemma chan_inserted_intro key sub st st' :
  sub_tx sub = Some (Open (s_fresh st)) → sub_rx sub = Some (s_fresh st) →
  s_subs st' = <[key := sub]> (s_subs st) → s_fresh st' = (s_fresh st + 1)%N →
  s_chans st' = drop_rx (o ← s_subs st !! key; sub_rx o) (<[s_fresh st := []]> (s_chans st)) →
  chan_inserted key st st'.
Proof.
  intros Htx Hrx Hs Hf Hc. split; [| | |done].
  - intros p c. unfold tx_at. rewrite Hs. destruct (decide (p = key)) as [->|].
    + rewrite lookup_insert_eq. split; [intros (? & [= <-] & Hx); simplify_eq; by left|].
      intros [[_ ->]|[? _]]; [by exists sub|done].
    + rewrite lookup_insert_ne by done. naive_solver.
  - intros p c. unfold rx_at. rewrite Hs. destruct (decide (p = key)) as [->|].
    + rewrite lookup_insert_eq. split; [intros (? & [= <-] & Hx); simplify_eq; by left|].
      intros [[_ ->]|[? _]]; [by exists sub|done].
    + rewrite lookup_insert_ne by done. naive_solver.
  - intros c. rewrite Hc. destruct (decide (rx_at st key c)) as [(o & Ho & Hoc)|Hn].
    + rewrite Ho. simpl. rewrite Hoc. apply lookup_delete_eq.
    + assert (drop_rx (o ← s_subs st !! key; sub_rx o) (<[s_fresh st:=[]]> (s_chans st)) !! c
              = <[s_fresh st:=[]]> (s_chans st) !! c) as ->.
      { destruct (s_subs st !! key) as [o|] eqn:Ho; simpl; [|done].
        destruct (sub_rx o) as [c'|] eqn:Hoc; simpl; [|done].
        apply lookup_delete_ne. intros ->. apply Hn. by exists o. }
      destruct (decide (c = s_fresh st)) as [->|]; [apply lookup_insert_eq|by apply lookup_insert_ne].
Qed.

Lemma chan_wf_inserted key st st' : chan_inserted key st st' → chan_wf st → chan_wf st'.
Proof.
  intros [Htx Hrx Hl Hf'] Hwf.
  assert (∀ p, ¬ chan_at st p (s_fresh st)) as Hno by (intros p ?%(wf_fresh _ Hwf); lia).
  assert (∀ p c, chan_at st' p c ↔ p = key ∧ c = s_fresh st ∨ p ≠ key ∧ chan_at st p c) as Hat.
  { intros p c. unfold chan_at. rewrite Htx, Hrx. tauto. }
  split.
  - intros p c [[_ ->]|[_ ?%(wf_fresh _ Hwf)]]%Hat; lia.
  - intros p c Hpc. rewrite Hl. apply Hrx in Hpc as [[-> ->]|[Hne Hpc]].
    + rewrite decide_False by (intros ?; apply (Hno key); by right). by rewrite decide_True.
    + rewrite decide_False by (intros ?; apply Hne; apply (wf_unique _ Hwf _ _ c); by right).
      rewrite decide_False; [by eapply wf_live|]. intros ->. apply (Hno p). by right.
  - intros p q c [[-> ->]|[? Hp]]%Hat [[-> Hq]|[? Hq]]%Hat; subst;
      [done|by apply Hno in Hq|by apply Hno in Hp|by eapply wf_unique].
  - intros c. rewrite Hl, Hf'. destruct (decide _); [by intros []|].
    destruct (decide _) as [->|]; [lia|]. intros ?%(wf_chans _ Hwf). lia.
Qed.

Lemma chan_new_inserted tx key st st' : chan_inserted key st st' → chan_new tx st → chan_new tx st'.
Proof.
  intros Hi [Hwf Hr Ht Hc Hf]. pose proof (chan_wf_inserted _ _ _ Hi Hwf) as Hwf'.
  destruct Hi as [Htx Hrx Hl Hf']. split; [done|..].
  - intros p [[_ ->]|[_ ?%Hr]]%Hrx; [lia|done].
  - intros p [[_ ->]|[_ ?]]%Htx; [lia|by apply Ht].
  - intros c q. rewrite Hl. destruct (decide _) as [|Hn]; [done|]. destruct (decide _) as [->|].
    + intros [= <-]. split; [done|]. right. exists key. apply Hrx. by left.
    + intros [-> [->|[p Hp]]]%Hc; split; try done; [by left|].
      right. exists p. apply Hrx. right. split; [|done]. by intros ->.
  - lia.
Qed.

Lemma chan_new_declare tx path st : chan_new tx st → chan_new tx (declare_path st path).
Proof.
  intros Hn. unfold declare_path. destruct path as [|i path]; [done|].
  destruct (collect (i :: path)) as [key|]; simpl.
  2: { destruct Hn as [Hwf ? ? ? ?]. split; try done. by apply (chan_wf_ext st). }
  eapply (chan_new_inserted tx key st); [|done].
  unfold insert_subscription. cbn [s_subs set_patterns set_depth set_subs].
  eapply (chan_inserted_intro _ (mkSubscription _ _ _ _)); [done..| | |]; by destruct (s_subs st !! key).
Qed.

Lemma chan_wf_new paths tx :
  chan_wf (Subscriptions_new paths tx) ∧
  (∀ p, ¬ rx_at (Subscriptions_new paths tx) p tx) ∧
  (∀ p, tx_at (Subscriptions_new paths tx) p tx → p = []) ∧
  (∀ c q, s_chans (Subscriptions_new paths tx) !! c = Some q →
     q = [] ∧ (c = tx ∨ ∃ p, rx_at (Subscriptions_new paths tx) p c)).
Proof.
  enough (chan_new tx (Subscriptions_new paths tx)) as [] by done. unfold Subscriptions_new.
  apply (foldl_inv (chan_new tx)); [|by intros; apply chan_new_declare].
  set (st0 := mkSubs _ _ _ _ _ _ _ _ _ _).
  assert (∀ p c, tx_at st0 p c → p = [] ∧ c = tx) as Htx.
  { intros p c (sub & Hs & Ht). unfold st0 in Hs; simpl in Hs. apply lookup_singleton_Some in Hs as [<- <-]. by simplify_eq/=. }
  assert (∀ p c, ¬ rx_at st0 p c) as Hrx.
  { intros p c (sub & Hs & Ht). unfold st0 in Hs; simpl in Hs. apply lookup_singleton_Some in Hs as [<- <-]. done. }
  split; [split|..].
  - intros p c [[_ ->]%Htx|[]%Hrx]. unfold st0; simpl. lia.
  - by intros p c ?%Hrx.
  - by intros p q c [[-> _]%Htx|[]%Hrx] [[-> _]%Htx|[]%Hrx].
  - unfold st0; simpl. intros c [q [<- _]%lookup_singleton_Some]. lia.
  - intros p. apply Hrx.
  - by intros p [-> _]%Htx.
  - unfold st0; simpl. intros c q [<- <-]%lookup_singleton_Some. auto.
  - unfold st0; simpl. lia.
Qed.
