(* ===== verification/Elements.v ===== *)
(** * Elements and the handles within them

    An element is a position matched by a wildcard.  This file shows what the
    methods of [Subscriptions] ([frame/conn/mod.rs]) maintain about them:
    the count of an element is the number of the live handles within it, an
    element which no handle is within holds a permit and was not released, and
    the elements which were indexed precede those which were not
    ([elem_inv]). *)

From S2P Require Import Prelude Subscriptions Resolve SubsInv.

(** ** The elements of a path *)

Definition resolve_in (ps : gmap (list (option N)) Pattern) (path : list N) :
    option (Pattern * list (option N)) :=
  node ← ps !! []; resolve_from ps node [] path.

Lemma resolve_resolve_in st path : resolve st path = resolve_in (s_patterns st) path.
Proof. done. Qed.

Definition is_element (ps : gmap (list (option N)) Pattern) (e : list N) : Prop :=
  ∃ node pat, resolve_in ps e = Some (node, pat ++ [None]).

Lemma wildcards_from_spec k pat i :
  i ∈ wildcards_from k pat ↔ k ≤ i ∧ pat !! (i - k) = Some None.
Proof.
  revert k. induction pat as [|[x|] pat IH]; intros k; simpl.
  - rewrite lookup_nil. split; [by intros ?%not_elem_of_nil|by intros [_ ?]].
  - rewrite IH. destruct (decide (i = k)) as [->|].
    + rewrite Nat.sub_diag. simpl. split; [lia|by intros [_ ?]].
    + split; intros [? Hp]; (split; [lia|]).
      * by replace (i - k) with (S (i - S k)) by lia.
      * by replace (i - k) with (S (i - S k)) in Hp by lia.
  - rewrite elem_of_cons, IH. destruct (decide (i = k)) as [->|].
    + rewrite Nat.sub_diag. simpl. split; [done|by left].
    + split; [intros [?|[? Hp]]; [done|]|intros [? Hp]; right]; (split; [lia|]).
      * by replace (i - k) with (S (i - S k)) by lia.
      * by replace (i - k) with (S (i - S k)) in Hp by lia.
Qed.

Lemma elem_of_wildcards pat i : i ∈ wildcards pat ↔ pat !! i = Some None.
Proof.
  unfold wildcards. rewrite wildcards_from_spec, Nat.sub_0_r. split; [by intros [_ ?]|].
  intros; split; [lia|done].
Qed.

Lemma wildcards_sorted k pat : StronglySorted lt (wildcards_from k pat).
Proof.
  revert k. induction pat as [|[x|] pat IH]; intros k; simpl; [constructor|done|].
  constructor; [done|]. apply Forall_forall. intros i [? _]%wildcards_from_spec. lia.
Qed.

Lemma wildcards_split pat done k rest :
  wildcards pat = done ++ k :: rest → k ∉ done ∧ ∀ i, i ∈ rest → k < i.
Proof.
  intros Hw. pose proof (wildcards_sorted 0 pat) as Hs. unfold wildcards in Hw. rewrite Hw in Hs.
  clear Hw. induction done as [|x done IH]; simpl in Hs; inversion Hs as [|? ? Hs' Hf]; subst;
    rewrite Forall_forall in Hf.
  - split; [apply not_elem_of_nil|done].
  - destruct (IH Hs') as [Hn ?]. split; [|done]. intros [->|?]%elem_of_cons; [|done].
    assert (x < x); [|lia]. apply Hf, elem_of_app. right. by left.
Qed.

Lemma wildcards_before pat done k rest i :
  wildcards pat = done ++ k :: rest → pat !! i = Some None → i < k → i ∈ done.
Proof.
  intros Hw Hi Hlt. assert (i ∈ wildcards pat) as Hin by (by apply elem_of_wildcards).
  destruct (wildcards_split _ _ _ _ Hw) as [_ Hafter].
  rewrite Hw, elem_of_app, elem_of_cons in Hin.
  destruct Hin as [?|[->|Hin%Hafter]]; [done|lia|lia].
Qed.

Section elements.
Context (ps : gmap (list (option N)) Pattern).

Lemma resolve_in_take path node pat k :
  resolve_in ps path = Some (node, pat) → k ≤ length path →
  ∃ node', resolve_in ps (take k path) = Some (node', take k pat).
Proof.
  set (st := mkSubs ps ∅ ∅ 0 false false false 0 ∅ 0). apply (resolve_take st).
Qed.

Lemma resolve_in_length path node pat :
  resolve_in ps path = Some (node, pat) → length pat = length path.
Proof.
  set (st := mkSubs ps ∅ ∅ 0 false false false 0 ∅ 0). apply (resolve_length st).
Qed.

(** The elements containing a path are those at its wildcards. *)
Lemma element_prefix path node pat e :
  resolve_in ps path = Some (node, pat) →
  e `prefix_of` path ∧ is_element ps e ↔
  ∃ k, pat !! k = Some None ∧ e = take (S k) path.
Proof.
  intros Hr. pose proof (resolve_in_length _ _ _ Hr) as Hlen. split.
  - intros [[suf ->] (node' & pat' & He)].
    destruct (resolve_in_take _ _ _ (length e) Hr) as [node'' He'].
    { rewrite length_app. lia. }
    rewrite take_app_length, He in He'. injection He' as _ Hp.
    pose proof (resolve_in_length _ _ _ He) as Hl. rewrite length_app in Hl; simpl in Hl.
    exists (length pat'). replace (S (length pat')) with (length e) by lia.
    split; [|by rewrite take_app_length].
    rewrite <- (take_drop (length e) pat), <- Hp, <- (assoc (++)). by apply list_lookup_middle.
  - intros (k & Hk & ->). pose proof (lookup_lt_Some _ _ _ Hk) as Hlt.
    destruct (resolve_in_take _ _ _ (S k) Hr) as [node' Ht]; [lia|].
    split; [by apply prefix_take|]. exists node', (take k pat).
    by rewrite Ht, (take_S_r _ _ _ Hk).
Qed.

Lemma is_element_take path node pat k :
  resolve_in ps path = Some (node, pat) → pat !! k = Some None → is_element ps (take (S k) path).
Proof. intros Hr Hk. eapply (element_prefix _ _ _ _ Hr). eauto. Qed.

Lemma is_element_resolve e : is_element ps e → is_Some (resolve_in ps e).
Proof. intros (node & pat & ->). eauto. Qed.

(** All the positions of a path at which there is a wildcard are elements. *)
Lemma is_element_sibling q i j : is_element ps (q ++ [i]) → is_element ps (q ++ [j]).
Proof.
  intros (node & pat & Hr). unfold is_element, resolve_in in *.
  destruct (ps !! []) as [n0|]; simpl in *; [|done].
  apply resolve_from_app in Hr as (n1 & p1 & H1 & H2). simpl in H2.
  destruct (p_wildcard n1) as [w|] eqn:Ew; simpl in H2; [|done].
  destruct (ps !! (p1 ++ [if w then None else Some i])) as [n2|] eqn:E2; simpl in H2; [|done].
  injection H2 as -> Hp. apply app_inj_tail in Hp as [-> Hp]. destruct w; [|done].
  exists node, pat. clear -H1 Ew E2.
  assert (∀ pre n0, resolve_from ps n0 pre q = Some (n1, pat) →
    resolve_from ps n0 pre (q ++ [j]) = Some (node, pat ++ [None])) as Hq; [clear H1|by apply Hq].
  induction q as [|x q IH]; intros pre m0 H1; simpl in *.
  - injection H1 as -> ->. rewrite Ew. simpl. by rewrite E2.
  - destruct (p_wildcard m0); simpl in *; [|done].
    destruct (ps !! (pre ++ _)); simpl in *; [|done]. by apply IH.
Qed.

End elements.

(** ** The invariant *)

(** What the subscriptions say about handles and permits. *)
Definition sub_view (sub : Subscription) : N * bool := (sub_handles sub, sub_permit sub).
Definition view (st : Subscriptions) : gmap (list N) (N * bool) := sub_view <$> s_subs st.

Definition next_in (nx : gmap (list N) N) (q : list N) : N := default 0%N (nx !! q).

(** Number of the handles within [p]. *)
Definition handles_in (hs : list (list N)) (p : list N) : N :=
  len (filter (λ h, p `prefix_of` h) hs).

(** [hs] are the paths of the live handles; [extra] are the elements which one
    more handle is accounted for in, while a handle is created or dropped. *)
Record elem_inv (ps : gmap (list (option N)) Pattern) (hs extra : list (list N))
    (subs : gmap (list N) (N * bool)) (nx : gmap (list N) N) : Prop := {
  ei_subs p v :
    subs !! p = Some v → is_Some (resolve_in ps p) ∧
    ∀ e, e `prefix_of` p → is_element ps e → is_Some (subs !! e);
  ei_handles p v :
    subs !! p = Some v → is_element ps p →
    v.1 = (handles_in hs p + if decide (p ∈ extra) then 1 else 0)%N;
  ei_live h :
    h ∈ hs → is_Some (resolve_in ps h) ∧
    ∀ e, e `prefix_of` h → is_element ps e → is_Some (subs !! e);
  ei_indexed q i v :
    subs !! (q ++ [i]) = Some v → is_element ps (q ++ [i]) → (0 < v.1)%N →
    (usize_saturating_add i 1 ≤ next_in nx q)%N;
  ei_unindexed q i v :
    subs !! (q ++ [i]) = Some v → is_element ps (q ++ [i]) → v.1 = 0%N →
    (next_in nx q ≤ i)%N ∧ v.2 = true;
  ei_permit p v :
    subs !! p = Some v → v.2 = true → is_element ps p ∧ v.1 = 0%N;
  ei_next q e :
    is_Some (nx !! q) → e `prefix_of` q → is_element ps e →
    ∃ v, subs !! e = Some v ∧ (0 < v.1)%N
}.

Definition elements_ok (hs : list (list N)) (st : Subscriptions) : Prop :=
  elem_inv (s_patterns st) hs [] (view st) (s_next st).

Section elem_inv.
Context (ps : gmap (list (option N)) Pattern).
Implicit Types (hs extra : list (list N)) (subs : gmap (list N) (N * bool)) (nx : gmap (list N) N).

Lemma handles_in_0 hs p : handles_in hs p = 0%N ↔ ∀ h, h ∈ hs → ¬ p `prefix_of` h.
Proof.
  unfold handles_in. rewrite len_0. split.
  - intros Hf h Hh Hp. assert (h ∈ filter (λ h, p `prefix_of` h) hs) as Hin
      by (by apply list_elem_of_filter). rewrite Hf in Hin. by apply not_elem_of_nil in Hin.
  - intros Hn. by apply filter_none.
Qed.

Lemma handles_in_cons hs h p :
  handles_in (h :: hs) p = ((if decide (p `prefix_of` h) then 1 else 0) + handles_in hs p)%N.
Proof.
  unfold handles_in. rewrite filter_cons. destruct (decide _); [|done]. rewrite len_cons. lia.
Qed.

#[global] Instance handles_in_perm : Proper ((≡ₚ) ==> eq ==> eq) handles_in.
Proof.
  intros hs1 hs2 Hp p ? <-. unfold handles_in, len. by rewrite Hp.
Qed.

Lemma elem_inv_perm hs1 hs2 extra subs nx :
  hs1 ≡ₚ hs2 → elem_inv ps hs1 extra subs nx → elem_inv ps hs2 extra subs nx.
Proof.
  intros Hp [H1 H2 H3 H4 H5 H6 H7]. split; try done.
  - intros p v ??. rewrite <- Hp. eauto.
  - intros h. rewrite <- Hp. eauto.
Qed.

(** An element without handles is removed with everything nested in it. *)
Lemma elem_inv_remove hs extra p subs nx :
  (∀ h, h ∈ hs → ¬ p `prefix_of` h) →
  elem_inv ps hs extra subs nx →
  elem_inv ps hs (filter (λ e, ¬ p `prefix_of` e) extra)
    (remove_nested subs p).1 (remove_nested nx p).1.
Proof.
  intros Hh [H1 H2 H3 H4 H5 H6 H7].
  assert (∀ q, ¬ p `prefix_of` q → next_in (remove_nested nx p).1 q = next_in nx q) as Hnx.
  { intros q Hq. unfold next_in. by rewrite lookup_remove_nested, decide_False. }
  assert (∀ q v, (remove_nested subs p).1 !! q = Some v ↔ subs !! q = Some v ∧ ¬ p `prefix_of` q)
    as Hl.
  { intros q v. rewrite lookup_remove_nested. destruct (decide (p `prefix_of` q)); naive_solver. }
  split.
  - intros q v [Hq Hn]%Hl. destruct (H1 q v Hq) as [? He]. split; [done|].
    intros e Hp Hel. destruct (He e Hp Hel) as [w Hw]. exists w. apply Hl. split; [done|].
    intros Hpe. apply Hn. by trans e.
  - intros q v [Hq Hn]%Hl Hel. rewrite (H2 q v Hq Hel). f_equal.
    destruct (decide (q ∈ extra)), (decide (q ∈ filter _ extra)); try done;
      by rewrite list_elem_of_filter in *; naive_solver.
  - intros h Hin. destruct (H3 h Hin) as [? He]. split; [done|].
    intros e Hp Hel. destruct (He e Hp Hel) as [w Hw]. exists w. apply Hl. split; [done|].
    intros Hpe. apply (Hh h Hin). by trans e.
  - intros q i v [Hq Hn]%Hl Hel Hv. rewrite Hnx; [by eapply H4|].
    intros Hpq. apply Hn. by apply prefix_app_r.
  - intros q i v [Hq Hn]%Hl Hel Hv. rewrite Hnx; [by eapply H5|].
    intros Hpq. apply Hn. by apply prefix_app_r.
  - intros q v [Hq Hn]%Hl. by apply H6.
  - intros q e [n Hq] Hp Hel. rewrite lookup_remove_nested in Hq.
    destruct (decide (p `prefix_of` q)); [done|].
    destruct (H7 q e) as (v & Hv & ?); [eauto|done|done|]. exists v. split; [|done].
    apply Hl. split; [done|]. intros Hpe. apply n0. by trans e.
Qed.

(** A subscription to a position which is not an element. *)
Lemma elem_inv_subscribe hs extra p subs nx :
  subs !! p = None → ¬ is_element ps p → is_Some (resolve_in ps p) →
  (∀ e, e `prefix_of` p → is_element ps e → is_Some (subs !! e)) →
  elem_inv ps hs extra subs nx → elem_inv ps hs extra (<[p := (0%N, false)]> subs) nx.
Proof.
  intros Hp Hnel Hres Hels [H1 H2 H3 H4 H5 H6 H7].
  assert (∀ e, is_Some (subs !! e) → is_Some (<[p := (0%N, false)]> subs !! e)) as Hs.
  { intros e [v Hv]. exists v. rewrite lookup_insert_ne; congruence. }
  assert (∀ q v, <[p := (0%N, false)]> subs !! q = Some v → is_element ps q → subs !! q = Some v)
    as Hel.
  { intros q v. rewrite lookup_insert_Some. naive_solver. }
  split.
  - intros q v [[<- <-]|[Hne Hq]]%lookup_insert_Some; [by auto|].
    destruct (H1 q v Hq) as [? He]. by auto.
  - intros q v Hq He. eauto.
  - intros h Hh. destruct (H3 h Hh). by auto.
  - intros q i v Hq He. eauto.
  - intros q i v Hq He. eauto.
  - intros q v [[<- <-]|[Hne Hq]]%lookup_insert_Some; [done|by eauto].
  - intros q e Hq Hpe He. destruct (H7 q e Hq Hpe He) as (v & Hv & ?). exists v. split; [|done].
    rewrite lookup_insert_ne; [done|]. by intros ->.
Qed.

(** An element is subscribed to before it is indexed. *)
Lemma elem_inv_unclaimed hs q i subs nx :
  let p := q ++ [i] in
  subs !! p = None → is_element ps p → (next_in nx q ≤ i)%N →
  (∀ e, e `prefix_of` p → e ≠ p → is_element ps e → is_Some (subs !! e)) →
  elem_inv ps hs [] subs nx → elem_inv ps hs [] (<[p := (0%N, true)]> subs) nx.
Proof.
  intros p Hp Hel Hnx Hels [H1 H2 H3 H4 H5 H6 H7].
  assert (∀ e, is_Some (subs !! e) → is_Some (<[p := (0%N, true)]> subs !! e)) as Hs.
  { intros e [v Hv]. exists v. rewrite lookup_insert_ne; congruence. }
  split.
  - intros q' v [[<- <-]|[Hne Hq]]%lookup_insert_Some.
    + split; [by apply is_element_resolve|]. intros e He ?. destruct (decide (e = p)) as [->|].
      * rewrite lookup_insert_eq. eauto.
      * eauto.
    + destruct (H1 q' v Hq) as [? He]. by auto.
  - intros q' v [[<- <-]|[Hne Hq]]%lookup_insert_Some He; [|by eauto]. simpl.
    assert (handles_in hs p = 0%N) as ->; [|done].
    apply handles_in_0. intros h Hh Hph.
    destruct (H3 h Hh) as [_ Hx]. destruct (Hx p Hph Hel). congruence.
  - intros h Hh. destruct (H3 h Hh). by auto.
  - intros q' j v [[Heq <-]|[Hne Hq]]%lookup_insert_Some He; [simpl; lia|by eauto].
  - intros q' j v [[Heq <-]|[Hne Hq]]%lookup_insert_Some He; [|by eauto].
    unfold p in Heq. apply app_inj_tail in Heq as [<- <-]. by simpl.
  - intros q' v [[<- <-]|[Hne Hq]]%lookup_insert_Some; [done|by eauto].
  - intros q' e Hq Hpe He. destruct (H7 q' e Hq Hpe He) as (v & Hv & ?). exists v. split; [|done].
    rewrite lookup_insert_ne; congruence.
Qed.

(** An element is indexed: the preceding elements are released. *)
Lemma elem_inv_claim hs extra q i subs nx :
  let p := q ++ [i] in
  let h := default 0%N (fst <$> subs !! p) in
  is_element ps p → p ∉ extra →
  (is_Some (subs !! p) ∨ ∀ h, h ∈ hs → ¬ p `prefix_of` h) →
  (∀ j v, subs !! (q ++ [j]) = Some v → v.1 = 0%N → (i ≤ j)%N) →
  (∀ e, e `prefix_of` q → is_element ps e → ∃ v, subs !! e = Some v ∧ (0 < v.1)%N) →
  elem_inv ps hs extra subs nx →
  elem_inv ps hs (p :: extra) (<[p := ((h + 1)%N, false)]> subs)
    (<[q := N.max (next_in nx q) (usize_saturating_add i 1)]> nx).
Proof.
  intros p h Hel Hex Hor Hmin Hels [H1 H2 H3 H4 H5 H6 H7].
  assert (∀ e, is_Some (subs !! e) → is_Some (<[p := ((h + 1)%N, false)]> subs !! e)) as Hs.
  { intros e [v Hv]. destruct (decide (e = p)) as [->|].
    - rewrite lookup_insert_eq. eauto.
    - rewrite lookup_insert_ne; eauto. }
  assert (∀ q', next_in (<[q := N.max (next_in nx q) (usize_saturating_add i 1)]> nx) q' =
          if decide (q' = q) then N.max (next_in nx q) (usize_saturating_add i 1)
          else next_in nx q') as Hnx.
  { intros q'. unfold next_in. destruct (decide (q' = q)) as [->|].
    - by rewrite lookup_insert_eq.
    - by rewrite lookup_insert_ne. }
  assert (∀ e, e `prefix_of` p → is_element ps e →
          is_Some (<[p := ((h + 1)%N, false)]> subs !! e)) as Hpre.
  { intros e He Hee. destruct (decide (e = p)) as [->|Hne]; [rewrite lookup_insert_eq; eauto|].
    apply prefix_app_cases in He as [He|(l' & -> & Hl)].
    - destruct (Hels e He Hee) as (v & ? & _). apply Hs. eauto.
    - destruct l' as [|x l']; [rewrite app_nil_r in *; destruct (Hels q) as (v & ? & _); [done..|]; apply Hs; eauto|].
      pose proof (prefix_cons_inv_1 _ _ _ _ Hl) as ->. apply prefix_cons_inv_2 in Hl.
      by apply prefix_nil_inv in Hl as ->. }
  split.
  - intros q' v [[<- <-]|[Hne Hq]]%lookup_insert_Some.
    + split; [by apply is_element_resolve|done].
    + destruct (H1 q' v Hq) as [? He]. by auto.
  - intros q' v [[<- <-]|[Hne Hq]]%lookup_insert_Some He; simpl.
    + rewrite decide_True by (by left). f_equal. unfold h.
      destruct (subs !! p) as [v|] eqn:E; simpl.
      * rewrite (H2 p v E Hel), decide_False by done. lia.
      * symmetry. apply handles_in_0. destruct Hor as [[? ?]|?]; [congruence|done].
    + rewrite (H2 q' v Hq He). f_equal. destruct (decide (q' ∈ extra)), (decide (q' ∈ p :: extra));
        rewrite ?elem_of_cons in *; naive_solver.
  - intros h' Hh. destruct (H3 h' Hh). by auto.
  - intros q' j v Hq He Hv. rewrite Hnx. apply lookup_insert_Some in Hq as [[Heq <-]|[Hne Hq]].
    + unfold p in Heq. apply app_inj_tail in Heq as [<- <-]. rewrite decide_True by done. lia.
    + pose proof (H4 q' j v Hq He Hv). destruct (decide _) as [->|]; lia.
  - intros q' j v Hq He Hv. rewrite Hnx. apply lookup_insert_Some in Hq as [[Heq <-]|[Hne Hq]].
    + simpl in Hv. lia.
    + destruct (H5 q' j v Hq He Hv) as [? ?]. split; [|done].
      destruct (decide _) as [->|]; [|done]. specialize (Hmin j v Hq Hv).
      assert (i ≠ j) by (intros ->; by apply Hne). unfold usize_saturating_add. lia.
  - intros q' v [[<- <-]|[Hne Hq]]%lookup_insert_Some; [done|by eauto].
  - assert (∀ e, (∃ v, subs !! e = Some v ∧ (0 < v.1)%N) →
                 ∃ v, <[p := ((h + 1)%N, false)]> subs !! e = Some v ∧ (0 < v.1)%N) as Hs'.
    { intros e (v & Hv & ?). destruct (decide (e = p)) as [->|].
      - rewrite lookup_insert_eq. eexists. split; [done|]. simpl. lia.
      - rewrite lookup_insert_ne by done. eauto. }
    intros q' e Hq Hpe He. apply Hs'. destruct (decide (q' = q)) as [->|Hne]; [by auto|].
    rewrite lookup_insert_ne in Hq by done. eauto.
Qed.

(** One more, respectively one less, handle within an element which keeps at
    least one. *)
Lemma elem_inv_account hs extra extra' p v n subs nx :
  subs !! p = Some v → is_element ps p → (0 < v.1)%N → (0 < n)%N →
  n = (handles_in hs p + if decide (p ∈ extra') then 1 else 0)%N →
  (∀ e, e ≠ p → e ∈ extra' ↔ e ∈ extra) →
  elem_inv ps hs extra subs nx → elem_inv ps hs extra' (<[p := (n, v.2)]> subs) nx.
Proof.
  intros Hp Hel Hv Hn Heq Hex [H1 H2 H3 H4 H5 H6 H7].
  assert (∀ e, is_Some (subs !! e) → is_Some (<[p := (n, v.2)]> subs !! e)) as Hs.
  { intros e [w Hw]. destruct (decide (e = p)) as [->|].
    - rewrite lookup_insert_eq. eauto.
    - rewrite lookup_insert_ne; eauto. }
  split.
  - intros q w [[<- <-]|[Hne Hq]]%lookup_insert_Some.
    + destruct (H1 p v Hp). by auto.
    + destruct (H1 q w Hq). by auto.
  - intros q w [[<- <-]|[Hne Hq]]%lookup_insert_Some He; [done|].
    rewrite (H2 q w Hq He). f_equal. specialize (Hex q (not_eq_sym Hne)).
    destruct (decide (q ∈ extra)), (decide (q ∈ extra')); naive_solver.
  - intros h Hh. destruct (H3 h Hh). by auto.
  - intros q i w [[Hqi <-]|[Hne Hq]]%lookup_insert_Some He; [|by eauto]. intros _.
    apply (H4 q i v); congruence.
  - intros q i w [[<- <-]|[Hne Hq]]%lookup_insert_Some He; simpl; [lia|by eauto].
  - intros q w [[<- <-]|[Hne Hq]]%lookup_insert_Some; simpl; [|by eauto].
    intros Ht. destruct (H6 p v Hp Ht). lia.
  - intros q e Hq Hpe He. destruct (H7 q e Hq Hpe He) as (w & Hw & ?).
    destruct (decide (e = p)) as [->|].
    + rewrite lookup_insert_eq. by eexists.
    + rewrite lookup_insert_ne by done. eauto.
Qed.

End elem_inv.

(** ** The operations *)

Lemma view_lookup st p : view st !! p = sub_view <$> s_subs st !! p.
Proof. unfold view. apply lookup_fmap. Qed.

Lemma view_subscribe path pat st :
  view (subscribe path pat st) =
  match view st !! path with
  | Some _ => view st
  | None => <[path := (0%N, false)]> (view st)
  end ∧ s_next (subscribe path pat st) = s_next st ∧ s_patterns (subscribe path pat st) = s_patterns st.
Proof.
  rewrite view_lookup. destruct (s_subs st !! path) as [sub|] eqn:E; simpl.
  - unfold subscribe. by rewrite E.
  - rewrite subscribe_new_eq by done. unfold view.
    destruct (match _ with Some _ => _ | None => _ end); simpl; by rewrite fmap_insert.
Qed.

Lemma remove_nested_fmap {V W} (f : V → W) (m : gmap (list N) V) p :
  (remove_nested (f <$> m) p).1 = f <$> (remove_nested m p).1.
Proof.
  apply map_eq. intros k. rewrite lookup_fmap, !lookup_remove_nested, lookup_fmap.
  by destruct (decide _).
Qed.

Lemma view_remove p st :
  view (remove p st).2 = (remove_nested (view st) p).1 ∧
  s_next (remove p st).2 = (remove_nested (s_next st) p).1 ∧
  s_patterns (remove p st).2 = s_patterns st.
Proof.
  destruct (remove_eq p st) as (removed & _ & ->). cbn [snd s_next s_patterns].
  unfold view; cbn [s_subs]. by rewrite remove_nested_fmap.
Qed.

Lemma elements_remove hs p st :
  (∀ h, h ∈ hs → ¬ p `prefix_of` h) → elements_ok hs st → elements_ok hs (remove p st).2.
Proof.
  intros Hh Hok. unfold elements_ok. destruct (view_remove p st) as (-> & -> & ->).
  by apply (elem_inv_remove _ _ []).
Qed.

Lemma next_next_in st q : next st q = next_in (s_next st) q.
Proof. done. Qed.

(** *** [skip] *)

Lemma slice_le_app q a b : slice_leP (q ++ [a]) (q ++ [b]) ↔ (a ≤ b)%N.
Proof.
  induction q as [|x q IH]; simpl; rewrite slice_le_cons; [|rewrite IH; lia].
  split; [intros [?|[-> _]]; lia|]. intros ?. destruct (decide (a = b)) as [->|]; [by right|left; lia].
Qed.

Lemma take_S_path_at (path : list N) k :
  k < length path → take (S k) path = take k path ++ [path_at path k].
Proof.
  intros Hk. destruct (lookup_lt_is_Some_2 path k Hk) as [x Hx].
  unfold path_at. rewrite Hx. by apply take_S_r.
Qed.

Lemma elem_of_skipped path st k p :
  k < length path →
  p ∈ skipped path st k ↔
  ∃ j, p = take k path ++ [j] ∧ (next st (take k path) ≤ j < path_at path k)%N ∧
       sub_handles <$> s_subs st !! p = Some 0%N.
Proof.
  intros Hk. unfold skipped, btree_range. rewrite list_elem_of_filter, list_elem_of_filter.
  rewrite elem_of_btree_keys, take_S_path_at by done. set (q := take k path). 
  assert (length q = k) as Hq by (unfold q; rewrite length_take_le; lia). split.
  - intros ([Hlen Hh] & (Hlo & Hhi) & Hs).
    assert (q `prefix_of` p) as [l ->].
    { apply slice_le_prefix_convex with (b := q ++ [path_at path k]).
      - eapply slice_le_trans; [|exact Hlo]. apply prefix_slice_le. by eexists.
      - by destruct (slice_le_total p (q ++ [path_at path k])).
      - by eexists. }
    rewrite length_app, Hq in Hlen. destruct l as [|j [|]]; simpl in Hlen; [lia| |lia].
    exists j. rewrite slice_le_app in *. split_and!; [done|lia|lia|done].
  - intros (j & -> & Hj & Hh). rewrite !slice_le_app. split_and!; [|done|lia|lia|].
    + rewrite length_app, Hq. simpl. lia.
    + destruct (s_subs st !! _); [eauto|done].
Qed.

(** What is left after [skip] at a position: no element without handles before
    the one of the path. *)
Definition skipped_at (path : list N) (st : Subscriptions) (k : nat) : Prop :=
  ∀ j v, view st !! (take k path ++ [j]) = Some v → v.1 = 0%N → (path_at path k ≤ j)%N.

Lemma remove_subseteq p st : view (remove p st).2 ⊆ view st.
Proof.
  destruct (view_remove p st) as (-> & _). apply map_subseteq_spec. intros k v.
  rewrite lookup_remove_nested. by destruct (decide _).
Qed.

Definition remove_all (l : list (list N)) (acc : bool * Subscriptions) : bool * Subscriptions :=
  foldl (λ acc p, let '(pending, st) := remove p acc.2 in (acc.1 || pending, st)) acc l.

Lemma remove_all_cons p l acc :
  remove_all (p :: l) acc = remove_all l (acc.1 || (remove p acc.2).1, (remove p acc.2).2).
Proof. unfold remove_all; simpl. by destruct (remove p acc.2). Qed.

Lemma remove_all_spec hs l acc :
  (∀ p h, p ∈ l → h ∈ hs → ¬ p `prefix_of` h) → elements_ok hs acc.2 →
  let st' := (remove_all l acc).2 in
  elements_ok hs st' ∧ view st' ⊆ view acc.2 ∧ s_patterns st' = s_patterns acc.2 ∧
  (∀ p, p ∈ l → view st' !! p = None).
Proof.
  revert acc. induction l as [|p l IH]; intros acc Hh Hok.
  { simpl. split_and!; [done..|]. by intros p ?%not_elem_of_nil. }
  rewrite remove_all_cons.
  destruct (IH (acc.1 || (remove p acc.2).1, (remove p acc.2).2)) as (H1 & H2 & H3 & H4).
  { intros p' h ??. apply Hh; [by right|done]. }
  { apply elements_remove; [|done]. intros h. apply Hh. by left. }
  cbn [snd] in *. split_and!; [done| | |].
  - etrans; [exact H2|apply remove_subseteq].
  - rewrite H3. by destruct (view_remove p acc.2) as (_ & _ & ?).
  - intros p' [->|?]%elem_of_cons; [|by apply H4].
    destruct (view (remove_all l _).2 !! p) eqn:E; [|done].
    pose proof (lookup_weaken _ _ _ _ E H2) as Hw. destruct (view_remove p acc.2) as (Hv & _ & _).
    rewrite Hv, lookup_remove_nested, decide_True in Hw by done. done.
Qed.

Lemma skip_at_spec hs path pat node acc k :
  resolve acc.2 path = Some (node, pat) → pat !! k = Some None →
  elements_ok hs acc.2 →
  let st' := (skip_at path acc k).2 in
  elements_ok hs st' ∧ view st' ⊆ view acc.2 ∧ s_patterns st' = s_patterns acc.2 ∧
  skipped_at path st' k.
Proof.
  intros Hr Hk Hok. rewrite resolve_resolve_in in Hr.
  pose proof (resolve_in_length _ _ _ _ Hr) as Hlen.
  pose proof (lookup_lt_Some _ _ _ Hk) as Hlt. rewrite Hlen in Hlt.
  assert (∀ j, is_element (s_patterns acc.2) (take k path ++ [j])) as Hel.
  { intros j. eapply is_element_sibling. rewrite <- take_S_path_at by done.
    by eapply is_element_take. }
  unfold skip_at. destruct (N.leb_spec (path_at path k) (next acc.2 (take k path))) as [Hle|Hgt].
  { split_and!; [done..|]. intros j v Hv H0.
    destruct (ei_unindexed _ _ _ _ _ Hok _ _ _ Hv (Hel j) H0) as [? _].
    rewrite next_next_in in Hle. lia. }
  fold (remove_all (skipped path acc.2 k) acc).
  destruct (remove_all_spec hs (skipped path acc.2 k) acc) as (H1 & H2 & H3 & H4); [|done|].
  { intros p h (j & -> & _ & Hs)%elem_of_skipped Hh; [|done]. revert h Hh. apply handles_in_0.
    destruct (s_subs acc.2 !! (take k path ++ [j])) as [sub|] eqn:E; [|done].
    simpl in Hs. injection Hs as Hs.
    pose proof (ei_handles _ _ _ _ _ Hok (take k path ++ [j]) (sub_view sub)) as Hh.
    rewrite view_lookup, E in Hh. specialize (Hh eq_refl (Hel j)).
    rewrite decide_False in Hh by apply not_elem_of_nil. simpl in Hh. lia. }
  split_and!; [done..|]. intros j v Hv H0.
  destruct (N.le_gt_cases (path_at path k) j) as [?|Hj]; [done|]. exfalso.
  pose proof (lookup_weaken _ _ _ _ Hv H2) as Hw.
  destruct (ei_unindexed _ _ _ _ _ Hok _ _ _ Hw (Hel j) H0) as [? _].
  rewrite H4 in Hv; [done|]. apply elem_of_skipped; [done|]. exists j.
  rewrite next_next_in. split_and!; [done|lia|lia|].
  rewrite view_lookup in Hw. destruct (s_subs acc.2 !! _); simpl in Hw; [|done].
  injection Hw as <-. simpl in *. by f_equal.
Qed.

Lemma skipped_at_subseteq path st st' k :
  view st' ⊆ view st → skipped_at path st k → skipped_at path st' k.
Proof. intros Hs Hk j v Hv. apply Hk. by eapply lookup_weaken. Qed.

Lemma skip_fold_spec hs path pat node ks acc :
  resolve acc.2 path = Some (node, pat) → (∀ k, k ∈ ks → pat !! k = Some None) →
  elements_ok hs acc.2 →
  let st' := (foldl (skip_at path) acc ks).2 in
  elements_ok hs st' ∧ view st' ⊆ view acc.2 ∧ s_patterns st' = s_patterns acc.2 ∧
  (∀ k, k ∈ ks → skipped_at path st' k).
Proof.
  revert acc. induction ks as [|k ks IH]; intros acc Hr Hks Hok; simpl.
  { split_and!; [done..|]. by intros k ?%not_elem_of_nil. }
  destruct (skip_at_spec hs path pat node acc k Hr) as (H1 & H2 & H3 & H4);
    [apply Hks; by left|done|].
  destruct (IH (skip_at path acc k)) as (H1' & H2' & H3' & H4').
  { by rewrite (resolve_patterns _ acc.2). }
  { intros k' ?. apply Hks. by right. }
  { done. }
  split_and!; [done| | |].
  - by etrans.
  - congruence.
  - intros k' [->|?]%elem_of_cons; [|by apply H4']. by eapply skipped_at_subseteq.
Qed.

Lemma elements_skip hs path st :
  elements_ok hs st →
  let st' := (skip path st).2 in
  elements_ok hs st' ∧ s_patterns st' = s_patterns st ∧
  (∀ node pat k, resolve st path = Some (node, pat) → pat !! k = Some None → skipped_at path st' k).
Proof.
  intros Hok. unfold skip. destruct (resolve st path) as [[node pat]|] eqn:Hr; [|done].
  destruct (skip_fold_spec hs path pat node (wildcards pat) (false, st) Hr) as (H1 & H2 & H3 & H4).
  { intros k. by rewrite elem_of_wildcards. }
  { done. }
  split_and!; [done..|]. intros ? ? k [= <- <-] Hk. apply H4. by apply elem_of_wildcards.
Qed.

(** *** A handle is created or dropped *)

Section push_pop.
Context (ps : gmap (list (option N)) Pattern).
Implicit Types (hs extra : list (list N)) (subs : gmap (list N) (N * bool)) (nx : gmap (list N) N).

Lemma handles_extra hs extra path p :
  (∀ e, e ∈ extra ↔ e `prefix_of` path ∧ is_element ps e) → is_element ps p →
  handles_in (path :: hs) p = (handles_in hs p + if decide (p ∈ extra) then 1 else 0)%N.
Proof.
  intros Hex Hel. rewrite handles_in_cons.
  destruct (decide (p ∈ extra)) as [Hin|Hin], (decide (p `prefix_of` path)); rewrite Hex in Hin;
    [lia|by destruct Hin|by destruct Hin|lia].
Qed.

Lemma elem_inv_push hs extra path subs nx :
  is_Some (resolve_in ps path) → (∀ e, e ∈ extra ↔ e `prefix_of` path ∧ is_element ps e) →
  (∀ e, e ∈ extra → is_Some (subs !! e)) →
  elem_inv ps hs extra subs nx → elem_inv ps (path :: hs) [] subs nx.
Proof.
  intros Hr Hex Hs [H1 H2 H3 H4 H5 H6 H7]. split; try done.
  - intros p v Hp Hel. rewrite (handles_extra hs extra), (H2 p v) by done.
    rewrite (decide_False (P := p ∈ [])) by apply not_elem_of_nil. lia.
  - intros h [->|Hh]%elem_of_cons; [|by apply H3]. split; [done|].
    intros e ??. apply Hs, Hex. done.
Qed.

Lemma elem_inv_pop hs extra path subs nx :
  (∀ e, e ∈ extra ↔ e `prefix_of` path ∧ is_element ps e) →
  elem_inv ps (path :: hs) [] subs nx → elem_inv ps hs extra subs nx.
Proof.
  intros Hex [H1 H2 H3 H4 H5 H6 H7]. split; try done.
  - intros p v Hp Hel. rewrite (H2 p v), (handles_extra hs extra path) by done.
    rewrite (decide_False (P := p ∈ [])) by apply not_elem_of_nil. lia.
  - intros h Hh. apply H3. by right.
Qed.

End push_pop.

(** The elements of the first wildcards of a path. *)
Definition els (path : list N) (ks : list nat) : list (list N) := (λ k, take (S k) path) <$> ks.

Lemma elem_of_els path ks e : e ∈ els path ks ↔ ∃ k, e = take (S k) path ∧ k ∈ ks.
Proof. apply list_elem_of_fmap. Qed.

Lemma elem_of_els_reverse path ks e : e ∈ els path (reverse ks) ↔ e ∈ els path ks.
Proof. rewrite !elem_of_els. by setoid_rewrite elem_of_reverse. Qed.

Lemma els_wildcards ps path node pat e :
  resolve_in ps path = Some (node, pat) →
  e ∈ els path (wildcards pat) ↔ e `prefix_of` path ∧ is_element ps e.
Proof.
  intros Hr. rewrite elem_of_els, (element_prefix _ _ _ _ _ Hr).
  setoid_rewrite elem_of_wildcards. naive_solver.
Qed.

Lemma take_S_inj (path : list N) i j :
  i < length path → j < length path → take (S i) path = take (S j) path → i = j.
Proof. intros ?? Ht%(f_equal length). rewrite !length_take_le in Ht by lia. lia. Qed.

Lemma view_claim_element path pat st k :
  k < length path →
  let p := take k path ++ [path_at path k] in
  let st' := claim_element path pat st k in
  view st' = <[p := ((default 0%N (fst <$> view st !! p) + 1)%N, false)]> (view st) ∧
  s_next st' = <[take k path := N.max (next_in (s_next st) (take k path))
                                  (usize_saturating_add (path_at path k) 1)]> (s_next st) ∧
  s_patterns st' = s_patterns st.
Proof.
  intros Hk. unfold claim_element. rewrite take_S_path_at by done. cbn zeta.
  set (p := take k path ++ [path_at path k]).
  destruct (view_subscribe p (take (S k) pat) st) as (Hv & Hn & Hp).
  set (st1 := subscribe p (take (S k) pat) st) in *. clearbody st1.
  assert (default 0%N (fst <$> view st1 !! p) = default 0%N (fst <$> view st !! p) ∧
          <[p := ((default 0%N (fst <$> view st !! p) + 1)%N, false)]> (view st1) =
          <[p := ((default 0%N (fst <$> view st !! p) + 1)%N, false)]> (view st) ∧
          is_Some (view st1 !! p)) as (Hd & Hi & Hs).
  { rewrite Hv. destruct (view st !! p) eqn:E; [rewrite E; eauto|].
    rewrite lookup_insert_eq, insert_insert_eq. eauto. }
  rewrite view_lookup in Hd, Hs. destruct (s_subs st1 !! p) as [sub|] eqn:E; [|by destruct Hs].
  simpl in Hd. rewrite <- Hi, <- Hd. unfold notify_indexed. simpl.
  split_and!; [|by rewrite <- Hn|done].
  unfold view; simpl. by rewrite fmap_insert.
Qed.

Lemma claim_fold_spec ps hs path node pat done ks st :
  resolve_in ps path = Some (node, pat) → wildcards pat = done ++ ks →
  s_patterns st = ps →
  (∀ e, e ∈ els path done → is_Some (view st !! e)) →
  (∀ k, k ∈ ks → skipped_at path st k) →
  elem_inv ps hs (els path (reverse done)) (view st) (s_next st) →
  let st' := foldl (claim_element path pat) st ks in
  s_patterns st' = ps ∧ (∀ e, e ∈ els path (wildcards pat) → is_Some (view st' !! e)) ∧
  elem_inv ps hs (els path (reverse (wildcards pat))) (view st') (s_next st').
Proof.
  intros Hr. pose proof (resolve_in_length _ _ _ _ Hr) as Hlen. revert done st.
  induction ks as [|k ks IH]; intros done st Hw Hps Hd Hsk Hok; simpl.
  { rewrite app_nil_r in Hw. by rewrite Hw. }
  assert (pat !! k = Some None) as Hk.
  { apply elem_of_wildcards. rewrite Hw. apply elem_of_app. right. by left. }
  assert (k < length path) as Hlt by (rewrite <- Hlen; by eapply lookup_lt_Some).
  assert (∀ i, i ∈ done → i < length path) as Hdl.
  { intros i Hi. rewrite <- Hlen. assert (pat !! i = Some None) as Hx.
    { apply elem_of_wildcards. rewrite Hw. apply elem_of_app. by left. }
    by apply lookup_lt_Some in Hx. }
  assert (∀ e, e ∈ els path (reverse done) ↔ e ∈ els path done) as Hrev.
  { intros e. apply elem_of_els_reverse. }
  destruct (view_claim_element path pat st k Hlt) as (Hv & Hn & Hp). cbn zeta in *.
  set (p := take k path ++ [path_at path k]) in *.
  assert (take (S k) path = p) as Ht by (by apply take_S_path_at).
  set (st1 := claim_element path pat st k) in *. clearbody st1.
  apply (IH (done ++ [k])).
  - by rewrite <- (assoc (++)).
  - congruence.
  - intros e (i & -> & [Hi|Hi]%elem_of_app)%elem_of_els.
    + destruct (Hd (take (S i) path)) as [v Hvi]; [apply elem_of_els; eauto|].
      rewrite Hv. destruct (decide (take (S i) path = p)) as [->|].
      * rewrite lookup_insert_eq. eauto.
      * rewrite lookup_insert_ne by done. eauto.
    + apply list_elem_of_singleton in Hi as ->. rewrite Ht, Hv, lookup_insert_eq. eauto.
  - intros i Hi j v Hj Hv0. rewrite Hv in Hj.
    apply lookup_insert_Some in Hj as [[_ <-]|[_ Hj]]; [simpl in Hv0; lia|].
    eapply Hsk; [by right|done|done].
  - rewrite reverse_snoc, Hv, Hn. simpl. rewrite Ht. fold (els path (reverse done)).
    apply elem_inv_claim; [| | | | |done].
    + fold p. rewrite <- Ht. by eapply is_element_take.
    + rewrite Hrev. fold p. rewrite <- Ht. intros (i & Hi & Hin)%elem_of_els.
      apply take_S_inj in Hi; [|done|by apply Hdl]. subst i.
      by destruct (wildcards_split _ _ _ _ Hw).
    + fold p. destruct (view st !! p) as [v|] eqn:E; [left; eauto|right].
      intros h Hh Hph. destruct (ei_live _ _ _ _ _ Hok h Hh) as [_ Hx].
      destruct (Hx p Hph) as [? ?]; [|congruence]. rewrite <- Ht. by eapply is_element_take.
    + apply Hsk. by left.
    + intros e He Hel.
      assert (∃ i, pat !! i = Some None ∧ e = take (S i) path) as (i & Hi & ->).
      { apply (element_prefix _ _ _ _ _ Hr). split; [|done].
        etrans; [exact He|apply prefix_take]. }
      assert (i < length path) by (rewrite <- Hlen; by eapply lookup_lt_Some).
      assert (i < k).
      { apply prefix_length in He. rewrite !length_take_le in He by lia. lia. }
      assert (take (S i) path ∈ els path done) as Hin.
      { apply elem_of_els. exists i. split; [done|]. by eapply wildcards_before. }
      destruct (Hd _ Hin) as [v Hvi]. exists v. split; [done|].
      rewrite (ei_handles _ _ _ _ _ Hok _ _ Hvi Hel), decide_True by (by apply Hrev). lia.
Qed.

Lemma view_take_sub_rx path st : view (take_sub_rx path st).2 = view st ∧
  s_next (take_sub_rx path st).2 = s_next st ∧ s_patterns (take_sub_rx path st).2 = s_patterns st.
Proof.
  unfold take_sub_rx. destruct (s_subs st !! path) as [sub|] eqn:E; [|done]. simpl.
  split; [|done]. unfold view; simpl. rewrite fmap_insert. apply insert_id.
  by rewrite lookup_fmap, E.
Qed.

(** A subscription to a declared path whose elements are subscribed to. *)
Lemma elements_subscribe ps hs path pat st :
  s_patterns st = ps → is_Some (resolve_in ps path) →
  (∀ e, e `prefix_of` path → is_element ps e → is_Some (view st !! e)) →
  elem_inv ps hs [] (view st) (s_next st) → elements_ok hs (subscribe path pat st).
Proof.
  intros Hps Hr He Hok. unfold elements_ok.
  destruct (view_subscribe path pat st) as (Hv & -> & ->). rewrite Hps, Hv.
  destruct (view st !! path) as [v|] eqn:E; [done|].
  apply elem_inv_subscribe; try done. intros Hel. destruct (He path) as [v ?]; [done..|congruence].
Qed.

Lemma elements_take_rx hs path st r st' :
  take_rx path st = (r, st') → elements_ok hs st →
  (∀ node pat k, resolve st path = Some (node, pat) → pat !! k = Some None → skipped_at path st k) →
  match r with Some _ => elements_ok (path :: hs) st' | None => st' = st end.
Proof.
  unfold take_rx. destruct (resolve st path) as [[node pat]|] eqn:Hr; [|by intros [= <- <-]].
  destruct (existsb _ _); [by intros [= <- <-]|]. destruct (_ && _); [by intros [= <- <-]|].
  intros Ht Hok Hsk. rewrite resolve_resolve_in in Hr.
  destruct (claim_fold_spec (s_patterns st) hs path node pat [] (wildcards pat) st) as (Hp & He & Hi);
    try done.
  { by intros e ?%not_elem_of_nil. }
  { intros k ?%elem_of_wildcards. by eapply Hsk. }
  set (st1 := foldl _ _ _) in *. clearbody st1. simpl in *.
  assert (elem_inv (s_patterns st) (path :: hs) [] (view st1) (s_next st1)) as Hok1.
  { eapply elem_inv_push; [eauto| |  |exact Hi].
    - intros e. by rewrite elem_of_els_reverse, (els_wildcards _ _ _ _ _ Hr).
    - intros e. rewrite elem_of_els_reverse. apply He. }
  destruct (p_declared node).
  2: { injection Ht as <- <-. unfold elements_ok. by rewrite Hp. }
  assert (elements_ok (path :: hs) (subscribe path pat st1)) as Hok2.
  { eapply elements_subscribe; [done|eauto| |done].
    intros e ??. apply He. by apply (els_wildcards _ _ _ _ _ Hr). }
  destruct (view_take_sub_rx path (subscribe path pat st1)) as (E1 & E2 & E3).
  destruct (take_sub_rx path (subscribe path pat st1)) as [rx st3].
  injection Ht as <- <-. simpl in *. unfold elements_ok in *. by rewrite E1, E2, E3.
Qed.

(** *** [retain] and [release] *)

Lemma view_account st k sub n :
  s_subs st !! k = Some sub →
  view (set_subs (<[k := mkSubscription (sub_tx sub) (sub_rx sub) n (sub_permit sub)]> (s_subs st)) st)
  = <[k := (n, (sub_view sub).2)]> (view st).
Proof. intros Hk. unfold view; simpl. by rewrite fmap_insert. Qed.

Lemma retain_fold_spec ps hs path node pat done ks st :
  resolve_in ps path = Some (node, pat) → wildcards pat = done ++ ks → path ∈ hs →
  s_patterns st = ps → elem_inv ps hs (els path (reverse done)) (view st) (s_next st) →
  let st' := foldl (retain_element path) st ks in
  s_patterns st' = ps ∧
  elem_inv ps hs (els path (reverse (wildcards pat))) (view st') (s_next st').
Proof.
  intros Hr. pose proof (resolve_in_length _ _ _ _ Hr) as Hlen. revert done st.
  induction ks as [|k ks IH]; intros done st Hw Hin Hps Hok; simpl.
  { rewrite app_nil_r in Hw. by rewrite Hw. }
  assert (pat !! k = Some None) as Hk.
  { apply elem_of_wildcards. rewrite Hw. apply elem_of_app. right. by left. }
  assert (is_element ps (take (S k) path)) as Hel by (by eapply is_element_take).
  destruct (ei_live _ _ _ _ _ Hok path Hin) as [_ Hx].
  destruct (Hx (take (S k) path)) as [v Hv]; [apply prefix_take|done|].
  rewrite view_lookup in Hv.
  destruct (s_subs st !! take (S k) path) as [sub|] eqn:E; simpl in Hv; [|done].
  injection Hv as <-. assert (retain_element path st k = set_subs
    (<[take (S k) path := mkSubscription (sub_tx sub) (sub_rx sub) (sub_handles sub + 1)
                            (sub_permit sub)]> (s_subs st)) st) as ->
    by (unfold retain_element; by rewrite E).
  set (st1 := set_subs _ _).
  assert (view st !! take (S k) path = Some (sub_view sub)) as Hvs by (by rewrite view_lookup, E).
  assert (0 < handles_in hs (take (S k) path))%N as Hpos.
  { destruct (N.eq_0_gt_0_cases (handles_in hs (take (S k) path))) as [H0|]; [|done].
    exfalso. rewrite handles_in_0 in H0. apply (H0 path Hin). apply prefix_take. }
  pose proof (ei_handles _ _ _ _ _ Hok _ _ Hvs Hel) as Hh. simpl in Hh.
  assert (take (S k) path ∉ els path (reverse done)) as Hnd.
  { rewrite elem_of_els_reverse, elem_of_els. intros (i & Hi & Hid).
    assert (i ∈ wildcards pat) as Hiw%elem_of_wildcards by (rewrite Hw; apply elem_of_app; by left).
    apply take_S_inj in Hi; [|rewrite <- Hlen; by eapply lookup_lt_Some..]. subst i.
    by destruct (wildcards_split _ _ _ _ Hw). }
  rewrite decide_False in Hh by done.
  apply (IH (done ++ [k])); [by rewrite <- (assoc (++))|done|done|].
  rewrite reverse_snoc. simpl. fold (els path (reverse done)).
  unfold st1. rewrite view_account by done.
  eapply elem_inv_account; [done|done|simpl; lia|lia| | |exact Hok].
  - rewrite decide_True by (by left). lia.
  - intros e He. rewrite elem_of_cons. naive_solver.
Qed.

Lemma elements_retain hs path st :
  path ∈ hs → elements_ok hs st → elements_ok (path :: hs) (retain path st).
Proof.
  intros Hin Hok. unfold retain. destruct (ei_live _ _ _ _ _ Hok path Hin) as [[[node pat] Hr] He].
  rewrite resolve_resolve_in, Hr.
  destruct (retain_fold_spec (s_patterns st) hs path node pat [] (wildcards pat) st) as [Hp Hi];
    try done. simpl in *.
  unfold elements_ok. rewrite Hp. eapply elem_inv_push; [eauto| | |exact Hi].
  - intros e. by rewrite elem_of_els_reverse, (els_wildcards _ _ _ _ _ Hr).
  - intros e. rewrite elem_of_els_reverse, (els_wildcards _ _ _ _ _ Hr). intros [Hpre Hel].
    by eapply (ei_live _ _ _ _ _ Hi path Hin).
Qed.

Lemma release_elements_spec ps hs path node pat prev ks st :
  resolve_in ps path = Some (node, pat) → wildcards pat = prev ++ ks →
  s_patterns st = ps → (∀ e, e ∈ els path ks → is_Some (view st !! e)) →
  elem_inv ps hs (els path ks) (view st) (s_next st) →
  let st' := (release_elements path ks st).2 in
  s_patterns st' = ps ∧ elem_inv ps hs [] (view st') (s_next st').
Proof.
  intros Hr. pose proof (resolve_in_length _ _ _ _ Hr) as Hlen. revert prev st.
  induction ks as [|k ks IH]; intros prev st Hw Hps Hin Hok; simpl; [done|].
  assert (pat !! k = Some None) as Hk.
  { apply elem_of_wildcards. rewrite Hw. apply elem_of_app. right. by left. }
  assert (is_element ps (take (S k) path)) as Hel by (by eapply is_element_take).
  destruct (Hin (take (S k) path)) as [v Hv]; [by left|]. rewrite view_lookup in Hv.
  destruct (s_subs st !! take (S k) path) as [sub|] eqn:E; simpl in Hv; [|done].
  injection Hv as <-. set (st1 := set_subs _ _).
  assert (view st !! take (S k) path = Some (sub_view sub)) as Hvs by (by rewrite view_lookup, E).
  pose proof (ei_handles _ _ _ _ _ Hok _ _ Hvs Hel) as Hh. simpl in Hh.
  rewrite decide_True in Hh by (by left).
  assert (view st1 = <[take (S k) path := ((sub_handles sub - 1)%N, (sub_view sub).2)]> (view st))
    as Hv1 by (by apply view_account).
  assert (∀ i, i ∈ ks → k < i ∧ i < length path) as Hafter.
  { intros i Hi. assert (i ∈ wildcards pat) as Hiw%elem_of_wildcards
      by (rewrite Hw; apply elem_of_app; right; by right).
    split; [by apply (wildcards_split _ _ _ _ Hw)|rewrite <- Hlen; by eapply lookup_lt_Some]. }
  destruct (N.eqb_spec (sub_handles sub - 1) 0) as [H0|H0].
  - destruct (view_remove (take (S k) path) st1) as (-> & -> & ->). split; [done|].
    rewrite Hv1.
    assert (∀ w, (remove_nested (<[take (S k) path := w]> (view st)) (take (S k) path)).1 =
                 (remove_nested (view st) (take (S k) path)).1) as Heq.
    { intros w. apply map_eq. intros q. rewrite !lookup_remove_nested.
      destruct (decide _) as [|Hn]; [done|]. rewrite lookup_insert_ne; [done|].
      intros <-. by apply Hn. }
    rewrite Heq.
    assert (filter (λ e, ¬ take (S k) path `prefix_of` e) (els path (k :: ks)) = []) as Hf.
    { apply filter_none. intros e (i & -> & Hi)%elem_of_els Hn. apply Hn.
      apply elem_of_cons in Hi as [->|Hi]; [done|].
      destruct (Hafter i Hi). replace (take (S k) path) with (take (S k) (take (S i) path));
        [apply prefix_take|]. rewrite take_take. f_equal. lia. }
    rewrite <- Hf. apply elem_inv_remove; [|done]. apply handles_in_0. lia.
  - apply (IH (prev ++ [k])); [by rewrite <- (assoc (++))|done| |].
    + intros e He. rewrite Hv1. destruct (decide (e = take (S k) path)) as [->|].
      * rewrite lookup_insert_eq. eauto.
      * rewrite lookup_insert_ne by done. apply Hin. by right.
    + rewrite Hv1. assert (take (S k) path ∉ els path ks) as Hnk.
      { intros (i & Hi & Hik)%elem_of_els. destruct (Hafter i Hik).
        apply take_S_inj in Hi; lia. }
      eapply elem_inv_account; [done|done|simpl; lia|lia| | |exact Hok].
      * rewrite decide_False by done. lia.
      * intros e He. simpl. rewrite elem_of_cons. naive_solver.
Qed.

Lemma elements_release hs path st :
  elements_ok (path :: hs) st → elements_ok hs (release path st).2.
Proof.
  intros Hok. unfold release.
  destruct (ei_live _ _ _ _ _ Hok path) as [[[node pat] Hr] He]; [by left|].
  rewrite resolve_resolve_in, Hr.
  destruct (release_elements_spec (s_patterns st) hs path node pat [] (wildcards pat) st)
    as [Hp Hi]; try done.
  { intros e [? ?]%(els_wildcards _ _ _ _ _ Hr). by apply He. }
  { eapply elem_inv_pop; [|exact Hok]. intros e. by apply (els_wildcards _ _ _ _ _ Hr). }
  simpl in *. unfold elements_ok. by rewrite Hp.
Qed.

(** *** [route] *)

Lemma view_unclaimed path pat st sub :
  s_subs st !! path = None → s_subs (subscribe path pat st) !! path = Some sub →
  view (set_subs (<[path := mkSubscription (sub_tx sub) (sub_rx sub) (sub_handles sub) true]>
          (s_subs (subscribe path pat st))) (subscribe path pat st)) =
  <[path := (0%N, true)]> (view st).
Proof.
  intros Hn Hs. destruct (view_subscribe path pat st) as (Hv & _ & _).
  rewrite view_lookup, Hn in Hv. simpl in Hv. unfold view at 1; simpl. rewrite fmap_insert.
  fold (view (subscribe path pat st)). rewrite Hv, insert_insert_eq. do 2 f_equal.
  unfold sub_view; simpl. f_equal.
  assert (view (subscribe path pat st) !! path = Some (sub_view sub)) as Hx
    by (by rewrite view_lookup, Hs).
  rewrite Hv, lookup_insert_eq in Hx. by injection Hx.
Qed.

Lemma route_elements_spec ps hs path node pat prev ks held st r held' st' :
  resolve_in ps path = Some (node, pat) → wildcards pat = prev ++ ks →
  s_patterns st = ps → (∀ e, e ∈ els path prev → is_Some (view st !! e)) →
  elem_inv ps hs [] (view st) (s_next st) →
  route_elements path pat ks held st = (r, held', st') →
  s_patterns st' = ps ∧ elem_inv ps hs [] (view st') (s_next st') ∧
  (r = None → ∀ e, e ∈ els path (wildcards pat) → is_Some (view st' !! e)).
Proof.
  intros Hr. pose proof (resolve_in_length _ _ _ _ Hr) as Hlen. revert prev held st.
  induction ks as [|k ks IH]; intros prev held st Hw Hps Hin Hok; simpl.
  { intros [= <- <- <-]. rewrite app_nil_r in Hw. by rewrite Hw. }
  assert (pat !! k = Some None) as Hk.
  { apply elem_of_wildcards. rewrite Hw. apply elem_of_app. right. by left. }
  assert (k < length path) as Hlt by (rewrite <- Hlen; by eapply lookup_lt_Some).
  assert (∀ st1, is_Some (view st1 !! take (S k) path) →
    (∀ e, is_Some (view st !! e) → is_Some (view st1 !! e)) →
    ∀ e, e ∈ els path (prev ++ [k]) → is_Some (view st1 !! e)) as Hstep.
  { intros st1 H1 H2 e (i & -> & [Hi|Hi]%elem_of_app)%elem_of_els.
    - apply H2, Hin, elem_of_els. eauto.
    - by apply list_elem_of_singleton in Hi as ->. }
  assert (wildcards pat = (prev ++ [k]) ++ ks) as Hw' by (by rewrite <- (assoc (++))).
  destruct (s_subs st !! take (S k) path) as [sub|] eqn:E.
  { apply (IH (prev ++ [k])); try done. apply Hstep; [|done]. rewrite view_lookup, E. eauto. }
  destruct (N.ltb_spec (path_at path k) (next st (take k path))) as [|Hnx]; [by intros [= <- <- <-]|].
  destruct held; [|by intros [= <- <- <-]].
  destruct (s_subs (subscribe (take (S k) path) (take (S k) pat) st) !! take (S k) path)
    as [sub|] eqn:Es.
  2: { destruct (view_subscribe (take (S k) path) (take (S k) pat) st) as (Hv & _ & _).
       rewrite view_lookup, E in Hv. simpl in Hv.
       assert (view (subscribe (take (S k) path) (take (S k) pat) st) !! take (S k) path
               = Some (0%N, false)) as Hx by (by rewrite Hv, lookup_insert_eq).
       by rewrite view_lookup, Es in Hx. }
  destruct (view_subscribe (take (S k) path) (take (S k) pat) st) as (_ & Hn & Hp).
  pose proof (view_unclaimed _ _ _ _ E Es) as Hv.
  match type of Hv with view ?x = _ => set (st1 := x) in * end.
  apply (IH (prev ++ [k])); [done|by rewrite <- Hps| |].
  - apply Hstep; rewrite Hv; [rewrite lookup_insert_eq; eauto|].
    intros e [v Hve]. destruct (decide (e = take (S k) path)) as [->|].
    + rewrite lookup_insert_eq. eauto.
    + rewrite lookup_insert_ne by done. eauto.
  - rewrite Hv. change (s_next st1) with (s_next (subscribe (take (S k) path) (take (S k) pat) st)).
    rewrite Hn, take_S_path_at by done. apply elem_inv_unclaimed; rewrite <- ?take_S_path_at by done.
    + by rewrite view_lookup, E.
    + by eapply is_element_take.
    + by rewrite next_next_in in Hnx.
    + intros e He Hne Hel. apply Hin, elem_of_els.
      assert (∃ i, pat !! i = Some None ∧ e = take (S i) path) as (i & Hi & ->).
      { apply (element_prefix _ _ _ _ _ Hr). split; [|done]. etrans; [exact He|apply prefix_take]. }
      exists i. split; [done|]. eapply wildcards_before; [done|done|].
      assert (i < length path) by (rewrite <- Hlen; by eapply lookup_lt_Some).
      apply prefix_length in He. rewrite !length_take_le in He by lia.
      assert (i ≠ k) by (by intros ->). lia.
    + done.
Qed.

Lemma elements_route hs path held st r held' st' :
  route path held st = (r, held', st') → elements_ok hs st → elements_ok hs st'.
Proof.
  unfold route. destruct (get_tx_mut path st); [by intros [= <- <- <-]|].
  destruct (resolve st path) as [[[[] w] pat]|] eqn:Hr; try (by intros [= <- <- <-]).
  rewrite resolve_resolve_in in Hr.
  destruct (route_elements _ _ _ _ _) as [[r1 held1] st1] eqn:E. intros Hres Hok.
  assert (∀ e, e ∈ els path [] → is_Some (view st !! e)) as Hnil by (by intros e ?%not_elem_of_nil).
  destruct (route_elements_spec _ hs _ _ _ [] _ _ _ _ _ _ Hr eq_refl eq_refl Hnil Hok E)
    as (Hp & Hi & He).
  destruct r1 as [r1|]; injection Hres as <- <- <-.
  - unfold elements_ok. by rewrite Hp.
  - eapply elements_subscribe; [done|eauto| |done].
    intros e ??. apply He; [done|]. by apply (els_wildcards _ _ _ _ _ Hr).
Qed.

(** *** Closing *)

Lemma elements_same hs st st' :
  view st' = view st → s_next st' = s_next st → s_patterns st' = s_patterns st →
  elements_ok hs st → elements_ok hs st'.
Proof. unfold elements_ok. by intros -> -> ->. Qed.

Lemma elements_close_slot hs path st : elements_ok hs st → elements_ok hs (close_slot path st).
Proof.
  unfold close_slot. destruct (s_subs st !! path) as [sub|] eqn:E; [|done].
  apply elements_same; try done. unfold view; simpl. rewrite fmap_insert. apply insert_id.
  by rewrite lookup_fmap, E.
Qed.

Lemma elements_close_tx hs st : elements_ok hs st → elements_ok hs (close_tx st).
Proof.
  apply elements_same; try done. unfold view; simpl. rewrite <- map_fmap_compose.
  apply map_fmap_ext. intros k [[[]|] ???] _; done.
Qed.

Lemma elements_close_rx hs st : elements_ok hs st → elements_ok hs (close_rx st).2.
Proof.
  apply elements_same; try done. unfold view; simpl. rewrite <- map_fmap_compose.
  by apply map_fmap_ext.
Qed.

(** *** [Subscriptions::new] *)

Lemma collect_Some path key : collect path = Some key ↔ path = Some <$> key.
Proof.
  unfold collect. rewrite mapM_Some. split.
  - induction 1 as [|[x|] y l k Hx _ IH]; simpl in *; [done| |done]. by simplify_eq.
  - intros ->. induction key; simpl; constructor; done.
Qed.

Definition declared_keys (paths : list (list (option N))) : list (list N) := omap collect paths.

(** The initial subscriptions are those of the declared paths without
    wildcards and of the root; none has handles or a permit. *)
Lemma view_new paths tx :
  s_next (Subscriptions_new paths tx) = ∅ ∧
  ∀ p v, view (Subscriptions_new paths tx) !! p = Some v →
    v = (0%N, false) ∧ (p = [] ∨ (Some <$> p) ∈ paths).
Proof.
  unfold Subscriptions_new.
  match goal with |- context [foldl declare_path ?st0 paths] => set (st0' := st0) end.
  assert (∀ qs st, s_next st = ∅ → (∀ p v, view st !! p = Some v →
            v = (0%N, false) ∧ (p = [] ∨ (Some <$> p) ∈ paths)) → (∀ q, q ∈ qs → q ∈ paths) →
          s_next (foldl declare_path st qs) = ∅ ∧
          ∀ p v, view (foldl declare_path st qs) !! p = Some v →
            v = (0%N, false) ∧ (p = [] ∨ (Some <$> p) ∈ paths)) as H.
  { induction qs as [|q qs IH]; intros st Hn Hv Hq; simpl; [done|].
    apply IH; [| |intros q' ?; apply Hq; by right].
    - unfold declare_path. destruct q; [done|]. destruct (collect _); [|done]. simpl.
      unfold insert_subscription; simpl. by destruct (s_subs st !! _).
    - unfold declare_path. destruct q as [|i q]; [done|].
      destruct (collect (i :: q)) as [key|] eqn:Ek; [|done]. simpl.
      unfold insert_subscription; simpl.
      assert (view (set_subs (<[key := mkSubscription (Some (Open (s_fresh st))) (Some (s_fresh st)) 0 false]> (s_subs st)) st) = <[key := (0%N, false)]> (view st)) as Hkey
        by (unfold view; simpl; by rewrite fmap_insert).
      apply collect_Some in Ek. intros p v Hp.
      assert (<[key := (0%N, false)]> (view st) !! p = Some v) as Hp'.
      { rewrite <- Hkey. by destruct (s_subs st !! key). }
      apply lookup_insert_Some in Hp' as [[<- <-]|[_ ?]]; [|by apply Hv].
      split; [done|]. right. rewrite <- Ek. apply Hq. by left. }
  apply H; [done| |done]. intros p v. unfold view; simpl. rewrite map_fmap_singleton.
  intros [<- <-]%lookup_singleton_Some. auto.
Qed.

Lemma matches_concrete (p : list N) : matches (Some <$> p) p.
Proof. induction p; simpl; constructor; [by right|done]. Qed.

Lemma elements_new paths tx : compatible paths → elements_ok [] (Subscriptions_new paths tx).
Proof.
  intros Hc. destruct (view_new paths tx) as [Hn Hv]. unfold elements_ok.
  rewrite s_patterns_new, Hn.
  pose proof (λ q, patterns_of_spec paths q Hc) as Hspec.
  assert (is_Some (patterns_of paths !! [])) as [n0 E0].
  { apply (pattern_exists _ _ _ (Hspec [])). by left. }
  assert (∀ p v, view (Subscriptions_new paths tx) !! p = Some v →
    ∃ node, resolve_in (patterns_of paths) p = Some (node, Some <$> p)) as Hres.
  { intros p v [_ [->|Hp]]%Hv; unfold resolve_in; rewrite E0; simpl; [eauto|].
    destruct (resolve_from_complete paths (patterns_of paths) n0 [] (Some <$> p) [] p)
      as (pt & Hr & _); [done|done|by rewrite app_nil_r|apply matches_concrete|eauto]. }
  assert (∀ p v e, view (Subscriptions_new paths tx) !! p = Some v → e `prefix_of` p →
    ¬ is_element (patterns_of paths) e) as Hnel.
  { intros p v e Hp He Hel. destruct (Hres p v Hp) as [node Hr].
    assert (∃ k, (Some <$> p) !! k = Some None ∧ e = take (S k) p) as (k & Hk & _).
    { by apply (element_prefix _ _ _ _ _ Hr). }
    rewrite list_lookup_fmap in Hk. by destruct (p !! k). }
  split.
  - intros p v Hp. destruct (Hres p v Hp) as [node Hr]. split; [eauto|].
    intros e He Hel. by destruct (Hnel p v e Hp He).
  - intros p v Hp Hel. by destruct (Hnel p v p Hp).
  - by intros h ?%not_elem_of_nil.
  - intros q i v Hp Hel. by destruct (Hnel _ _ (q ++ [i]) Hp).
  - intros q i v Hp Hel. by destruct (Hnel _ _ (q ++ [i]) Hp).
  - intros p v Hp Ht. apply Hv in Hp as [-> _]. done.
  - intros q e Hq. rewrite lookup_empty in Hq. by destruct Hq.
Qed.

#[export] Hint Resolve elements_close_slot elements_close_tx elements_close_rx elements_new
  elements_route elements_retain elements_release : wrpc.
