(* ===== verification/Conn.v ===== *)
(** * The connection of an invocation

    Model of [Incoming], [IngressState] and the ingress task of
    [crates/transport/src/frame/conn/mod.rs].

    The receiving side is a state machine: a [World] is the shared
    [IngressState], the live [Incoming] handles and the state of the spawned
    task at its await points.  The operations of the handles are functions on
    the world; each of them holds the mutex of the index while it uses it and
    is one step.  The task makes one step per frame header, data chunk or
    wake-up.  The reader is the list of the bytes which are still to be read:
    what the peer sends until it closes the stream.  A read waits for bytes,
    never for anything else, so how the bytes are split into reads is not
    observable.

    The traces of the runtime and the poisoning of the mutex by a panic are
    not modelled. *)

From S2P Require Import Prelude Wire FrameCodec Subscriptions.

(** ** Data *)

(** [IncomingProj]: [in_rx] is the channel the [StreamReader] reads from and
    the rest of the chunk it holds. *)
Record Incoming := mkIncoming {
  in_rx : option (N * bytes);
  in_subscribed : bool;
  in_path : list N
}.

(** The await points of [ingress]: reading the header of a frame, waiting for
    the elements of [path] to be indexed, forwarding the [n] bytes of data
    left in a frame to the channel [tx]. *)
Inductive Ingress :=
  | IFrame
  | IWait (path : list N) (n : N)
  | IData (path : list N) (tx : N) (n : N).

(** The await points of the task spawned by [Incoming::new]: ingress is running
    (and, if [draining], all handles were dropped), ingress is complete and the
    handles are waited for, and the task is complete or aborted. *)
Inductive Task :=
  | TIngress (i : Ingress) (draining : bool)
  | TDropped
  | TEnd.

(** [w_err] is the [OnceLock], [w_failed] whether [failed] was notified,
    [w_done] the value of the watch channel, [w_finished] the number of the
    futures returned by [finished] which are held, [w_depth] the argument of
    [ingress] and [w_rx] the bytes left in the reader. *)
Record World := mkWorld {
  w_index : Subscriptions;
  w_err : option ErrorKind;
  w_failed : bool;
  w_done : option (io_result unit);
  w_handles : gmap N Incoming;
  w_next_handle : N;
  w_finished : nat;
  w_depth : nat;
  w_rx : bytes;
  w_task : Task
}.

(** What is observed of a step. *)
Inductive event :=
  | EvRecv (path : list N) (c : N) (data : bytes)
  | EvClose (path : list N)
  | EvRead (path : list N) (c : N) (data : bytes)
  | EvTau.

Definition set_index st w := mkWorld st (w_err w) (w_failed w) (w_done w) (w_handles w)
  (w_next_handle w) (w_finished w) (w_depth w) (w_rx w) (w_task w).
Definition set_err e w := mkWorld (w_index w) e (w_failed w) (w_done w) (w_handles w)
  (w_next_handle w) (w_finished w) (w_depth w) (w_rx w) (w_task w).
Definition set_failed b w := mkWorld (w_index w) (w_err w) b (w_done w) (w_handles w)
  (w_next_handle w) (w_finished w) (w_depth w) (w_rx w) (w_task w).
Definition set_done d w := mkWorld (w_index w) (w_err w) (w_failed w) d (w_handles w)
  (w_next_handle w) (w_finished w) (w_depth w) (w_rx w) (w_task w).
Definition set_handles hs w := mkWorld (w_index w) (w_err w) (w_failed w) (w_done w) hs
  (w_next_handle w) (w_finished w) (w_depth w) (w_rx w) (w_task w).
Definition set_finished n w := mkWorld (w_index w) (w_err w) (w_failed w) (w_done w) (w_handles w)
  (w_next_handle w) n (w_depth w) (w_rx w) (w_task w).
Definition set_rx rx w := mkWorld (w_index w) (w_err w) (w_failed w) (w_done w) (w_handles w)
  (w_next_handle w) (w_finished w) (w_depth w) rx (w_task w).
Definition set_task t w := mkWorld (w_index w) (w_err w) (w_failed w) (w_done w) (w_handles w)
  (w_next_handle w) (w_finished w) (w_depth w) (w_rx w) t.

Definition new_handle (h : Incoming) (w : World) : N * World :=
  (w_next_handle w,
   mkWorld (w_index w) (w_err w) (w_failed w) (w_done w) (<[w_next_handle w := h]> (w_handles w))
     (w_next_handle w + 1) (w_finished w) (w_depth w) (w_rx w) (w_task w)).

Definition set_handle (id : N) (h : Incoming) (w : World) : World :=
  set_handles (<[id := h]> (w_handles w)) w.

(** [_ = state.err.set(err)]: only the first error is kept. *)
Definition err_set (e : ErrorKind) (w : World) : World :=
  match w_err w with
  | Some _ => w
  | None => set_err (Some e) w
  end.

Definition error_unprocessed : ErrorKind := BrokenPipe.
Definition error_receiver_closed : ErrorKind := BrokenPipe.
Definition error_closed : ErrorKind := InvalidData.
Definition error_not_found : ErrorKind := NotFound.

(** ** [Incoming] *)

(** The channel of the root is the channel [0]. *)
Definition Incoming_new (paths : list (list (option N))) (rx : bytes) : World :=
  let index := Subscriptions_new paths 0 in
  mkWorld index None false None {[ 0%N := mkIncoming (Some (0%N, [])) true [] ]} 1 0
    (s_depth index) rx (TIngress IFrame false).

Definition fail_unprocessed (w : World) : World := set_failed true (err_set error_unprocessed w).

Definition fail_if (b : bool) (w : World) : World := if b then fail_unprocessed w else w.

(** The handle [id] is indexed using [path]. *)
Definition Incoming_index (id : N) (path : list N) (w : World) :
    option (io_result N * World) :=
  h ← w_handles w !! id;
  Some
    match path with
    | [] => (Err InvalidInput, w)
    | _ =>
        let path := match in_path h with [] => path | _ => in_path h ++ path end in
        let '(pending, index) := skip path (w_index w) in
        let w := fail_if pending (set_index index w) in
        let '(rx, index) := take_rx path (w_index w) in
        let w := set_index index w in
        match rx with
        | None => (Err error_not_found, w)
        | Some rx =>
            let '(id, w) :=
              new_handle (mkIncoming ((λ c, (c, [])) <$> rx)
                            (match rx with Some _ => true | None => false end) path) w in
            (Ok id, w)
        end
    end.

Definition Incoming_is_subscribed (id : N) (w : World) : option bool :=
  h ← w_handles w !! id; Some (in_subscribed h).

Definition Incoming_take_reader (id : N) (w : World) : option (option N * World) :=
  h ← w_handles w !! id;
  Some
    match in_rx h with
    | None => (None, w)
    | Some rx =>
        let w := set_handle id (mkIncoming None (in_subscribed h) (in_path h)) w in
        let w :=
          match in_path h with
          | [] => w
          | _ => set_index (retain (in_path h) (w_index w)) w
          end in
        let '(id', w) := new_handle (mkIncoming (Some rx) true (in_path h)) w in
        (Some id', w)
    end.

(** Some sender of the channel [c] is alive: the slot of a subscription or the
    clone [ingress] forwards data to. *)
Definition slot_is (c : N) (sub : Subscription) : bool := bool_decide (sub_tx sub = Some (Open c)).

Definition tx_alive (w : World) (c : N) : bool :=
  existsb (λ kv, slot_is c kv.2) (map_to_list (s_subs (w_index w)))
  || match w_task w with TIngress (IData _ c' _) _ => (c =? c')%N | _ => false end.

(** Whether an empty frame closed the [path]. *)
Definition is_closed (path : list N) (w : World) : bool :=
  bool_decide (get_tx_mut path (w_index w) = Some Closed).

Inductive poll := Pending | Ready (r : io_result bytes).

(** [poll_read] of the handle [id] with room for [n] bytes: what it returns,
    the bytes which were read being the result, and the channel they are
    from. *)
Definition Incoming_poll_read (id : N) (n : nat) (w : World) : option (poll * World) :=
  h ← w_handles w !! id;
  Some
    match n with
    | O => (Ready (Ok []), w)
    | _ =>
        match in_rx h with
        | None =>
            if in_subscribed h then (Ready (Ok []), w) else (Ready (Err error_not_found), w)
        | Some (c, b :: chunk) =>
            (Ready (Ok (take n (b :: chunk))),
             set_handle id (mkIncoming (Some (c, drop n (b :: chunk))) (in_subscribed h)
                              (in_path h)) w)
        | Some (c, []) =>
            match s_chans (w_index w) !! c with
            | Some (chunk :: queue) =>
                (Ready (Ok (take n chunk)),
                 set_handle id (mkIncoming (Some (c, drop n chunk)) (in_subscribed h) (in_path h))
                   (set_index (set_chans (<[c := queue]> (s_chans (w_index w))) (w_index w)) w))
            | _ =>
                if tx_alive w c then (Pending, w)
                else
                  let w := set_handle id (mkIncoming None (in_subscribed h) (in_path h)) w in
                  let w := set_index (set_chans (delete c (s_chans (w_index w))) (w_index w)) w in
                  match w_err w with
                  | Some e =>
                      if is_closed (in_path h) w then (Ready (Ok []), w) else (Ready (Err e), w)
                  | None => (Ready (Ok []), w)
                  end
            end
        end
    end.

(** [PinnedDrop for Incoming] *)
Definition Incoming_drop (id : N) (w : World) : option World :=
  h ← w_handles w !! id;
  let w := set_handles (delete id (w_handles w)) w in
  let w :=
    match in_rx h with
    | Some (c, chunk) =>
        let unread := negb (bool_decide (chunk = [])) || chan_holds_data (s_chans (w_index w)) (Some c) in
        fail_if unread (set_index (set_chans (delete c (s_chans (w_index w))) (w_index w)) w)
    | None => w
    end in
  Some
    match in_path h with
    | [] => w
    | _ =>
        let '(pending, index) := release (in_path h) (w_index w) in
        fail_if pending (set_index index w)
    end.

(** [Incoming::finished] and dropping the future it returns. *)
Definition Incoming_finished (id : N) (w : World) : option World :=
  _ ← w_handles w !! id; Some (set_finished (S (w_finished w)) w).

(** [finished]: the result of the task, once there is one; [None] waits. *)
Definition finished (w : World) : option (io_result unit) :=
  match w_done w, w_task w with
  | Some r, _ => Some r
  | None, TEnd => Some (Err Other)
  | None, _ => None
  end.

(** ** Ingress *)

Section ingress.
Context `{Leb128}.

(** [for i in 0..path_len]: [i] elements were read. *)
Fixpoint read_path (depth : nat) (i rest : nat) (path : list N) (rx : bytes) :
    io_result (list N * bytes) :=
  match rest with
  | O => Ok (path, rx)
  | S rest =>
      let? (p, rx) := leb_read 32 rx in
      read_path depth (S i) rest (if i <? depth then path ++ [p] else path) rx
  end.

(** The header of the next frame: its path and the length of its data; [None]
    at the end of the stream. *)
Definition read_frame (depth : nat) (rx : bytes) : io_result (option (list N * N * bytes)) :=
  match read_u8 rx with
  | Err UnexpectedEof => Ok None
  | Err e => Err e
  | Ok (b, rx) =>
      let? (path_len, rx) := leb_read 32 (b :: rx) in
      let path_len := N.to_nat path_len in
      let? (path, rx) := read_path depth 0 path_len [] rx in
      let? (n, rx) := leb_read 32 rx in
      if depth <? path_len then Err NotFound else Ok (Some (path, n, rx))
  end.

Inductive progress :=
  | Continue (i : Ingress)
  | Finish (r : io_result unit).

(** The body of the inner loop of [ingress] with [permit] held: the frame is
    routed and the permit is dropped unless an element holds it. *)
Definition dispatch (path : list N) (n : N) (permit : bool) (st : Subscriptions) :
    event * progress * Subscriptions :=
  let '(r, permit, st) := route path permit st in
  let st := if permit then set_permits (S (s_permits st)) st else st in
  match r with
  | RouteTx (Open tx) =>
      if (n =? 0)%N then (EvClose path, Continue IFrame, close_slot path st)
      else (EvTau, Continue (IData path tx n), st)
  | RouteTx Closed => (EvTau, Finish (Err error_closed), st)
  | RouteNotFound => (EvTau, Finish (Err error_not_found), st)
  | RouteReleased => (EvTau, Finish (Err error_receiver_closed), st)
  | RouteUnclaimed => (EvTau, Continue (IWait path n), st)
  end.

(** [acquire_owned] succeeds, respectively fails since the semaphore is
    closed, and [notified] completes. *)
Definition can_acquire (st : Subscriptions) : bool :=
  negb (s_unclaimed_closed st) && (0 <? s_permits st).

Definition acquire (st : Subscriptions) : Subscriptions := set_permits (pred (s_permits st)) st.

(** [DEFAULT_MAX_INITIAL_CAPACITY] of [wasm-tokio] *)
Context (cap : N).

(** Reads the next chunk of the data of a frame and sends it: [None] while the
    channel is full. *)
Definition forward (path : list N) (tx n : N) (rx : bytes) (st : Subscriptions) :
    option (event * progress * bytes * Subscriptions) :=
  let k := N.to_nat (N.min n cap) in
  if length rx <? k then Some (EvTau, Finish (Err UnexpectedEof), [], st)
  else
    match s_chans st !! tx with
    | None => Some (EvTau, Finish (Err error_receiver_closed), drop k rx, st)
    | Some queue =>
        if length queue <? MAX_BUFFERED_CHUNKS then
          let n := (n - N.of_nat k)%N in
          Some (EvRecv path tx (take k rx),
                Continue (if (n =? 0)%N then IFrame else IData path tx n),
                drop k rx,
                set_chans (<[tx := queue ++ [take k rx]]> (s_chans st)) st)
        else None
    end.

(** ** The task *)

(** [close_rx(&state)] *)
Definition state_close_rx (w : World) : io_result unit * World :=
  let '(pending, index) := close_rx (w_index w) in
  (if pending then Err error_unprocessed
   else match w_err w with Some e => Err e | None => Ok tt end,
   set_index index w).

Definition complete (r : io_result unit) (w : World) : World :=
  set_task TEnd (set_done (Some r) w).

(** The future [io] completes with [res]. *)
Definition io_complete (res : io_result unit) (draining : bool) (w : World) : World :=
  let w := match res with Err e => err_set e w | Ok _ => w end in
  let w := set_index (close_tx (w_index w)) w in
  if draining then complete res w
  else match res with
       | Err e => complete (Err e) w
       | Ok _ => set_task TDropped w
       end.

Definition advance (p : progress) (draining : bool) (w : World) : World :=
  match p with
  | Continue i => set_task (TIngress i draining) w
  | Finish res => io_complete res draining w
  end.

(** The steps of the task. *)
Inductive task_step : World → event → World → Prop :=
  (** the next frame *)
  | step_frame w d path n rx ev p st :
      w_task w = TIngress IFrame d →
      read_frame (w_depth w) (w_rx w) = Ok (Some (path, n, rx)) →
      dispatch path n false (w_index w) = (ev, p, st) →
      task_step w ev (advance p d (set_rx rx (set_index st w)))
  (** the end of the stream *)
  | step_eof w d :
      w_task w = TIngress IFrame d →
      read_frame (w_depth w) (w_rx w) = Ok None →
      task_step w EvTau (io_complete (Ok tt) d w)
  | step_frame_err w d e :
      w_task w = TIngress IFrame d →
      read_frame (w_depth w) (w_rx w) = Err e →
      task_step w EvTau (io_complete (Err e) d w)
  (** a permit is acquired *)
  | step_acquire w d path n ev p st :
      w_task w = TIngress (IWait path n) d →
      can_acquire (w_index w) = true →
      dispatch path n true (acquire (w_index w)) = (ev, p, st) →
      task_step w ev (advance p d (set_index st w))
  (** the semaphore is closed *)
  | step_acquire_err w d path n :
      w_task w = TIngress (IWait path n) d →
      s_unclaimed_closed (w_index w) = true →
      task_step w EvTau (io_complete (Err error_receiver_closed) d w)
  (** an element was indexed or removed *)
  | step_indexed w d path n ev p st :
      w_task w = TIngress (IWait path n) d →
      s_indexed (w_index w) = true →
      dispatch path n false (set_indexed false (w_index w)) = (ev, p, st) →
      task_step w ev (advance p d (set_index st w))
  (** the next chunk of data *)
  | step_forward w d path tx n ev p rx st :
      w_task w = TIngress (IData path tx n) d →
      forward path tx n (w_rx w) (w_index w) = Some (ev, p, rx, st) →
      task_step w ev (advance p d (set_rx rx (set_index st w)))
  (** a handle failed ingress *)
  | step_failed w i d :
      w_task w = TIngress i d → w_failed w = true →
      task_step w EvTau (io_complete (Err error_unprocessed) d (set_failed false w))
  (** all handles were dropped: ingress is drained *)
  | step_drain w i r w' :
      w_task w = TIngress i false → w_handles w = ∅ →
      state_close_rx w = (r, w') →
      task_step w EvTau
        match r with Err e => complete (Err e) w' | Ok _ => set_task (TIngress i true) w' end
  | step_dropped w r w' :
      w_task w = TDropped → w_handles w = ∅ →
      state_close_rx w = (r, w') →
      task_step w EvTau (complete r w')
  (** the last reference to the task was dropped *)
  | step_abort w :
      w_task w ≠ TEnd → w_handles w = ∅ → w_finished w = 0 →
      task_step w EvTau (set_task TEnd w).

(** ** Steps of the connection *)

Inductive step : World → event → World → Prop :=
  | step_task w ev w' : task_step w ev w' → step w ev w'
  | step_index w id path r w' :
      Incoming_index id path w = Some (r, w') → step w EvTau w'
  | step_take_reader w id r w' :
      Incoming_take_reader id w = Some (r, w') → step w EvTau w'
  | step_poll_read w id n h c chunk data w' :
      w_handles w !! id = Some h → in_rx h = Some (c, chunk) →
      Incoming_poll_read id n w = Some (Ready (Ok data), w') →
      step w (EvRead (in_path h) c data) w'
  | step_poll_read_other w id n h r w' :
      w_handles w !! id = Some h → (in_rx h = None ∨ ∀ data, r ≠ Ready (Ok data)) →
      Incoming_poll_read id n w = Some (r, w') → step w EvTau w'
  | step_fail_unprocessed w id h :
      w_handles w !! id = Some h → step w EvTau (fail_unprocessed w)
  | step_drop w id w' : Incoming_drop id w = Some w' → step w EvTau w'
  | step_finished w id w' : Incoming_finished id w = Some w' → step w EvTau w'
  | step_drop_finished w k : w_finished w = S k → step w EvTau (set_finished k w).

Inductive steps : World → list event → World → Prop :=
  | steps_nil w : steps w [] w
  | steps_snoc w1 tr w2 ev w3 : steps w1 tr w2 → step w2 ev w3 → steps w1 (tr ++ [ev]) w3.

(** The states of the connection which receives [rx] and their traces. *)
Definition reachable (paths : list (list (option N))) (rx : bytes) (tr : list event) (w : World) :
    Prop :=
  steps (Incoming_new paths rx) tr w.

End ingress.
