(* ===== verification/ConnInv.v ===== *)
(** * Invariants of the connection

    What holds in every reachable state of the receiving side of a connection
    ([Conn]): the ownership of the channels and the data in them
    ([chan_inv]), the accounting of elements, handles and permits, and what
    the result of the task says. *)

From S2P Require Import Prelude Wire FrameCodec Subscriptions Resolve SubsInv Elements Conn.

(** ** Data received and read *)

Definition ev_recv (c : N) (ev : event) : bytes :=
  match ev with EvRecv _ c' data => if (c =? c')%N then data else [] | _ => [] end.
Definition ev_read (c : N) (ev : event) : bytes :=
  match ev with EvRead _ c' data => if (c =? c')%N then data else [] | _ => [] end.

(** The data received for, respectively read from, the channel [c]. *)
Definition received (c : N) (tr : list event) : bytes := concat (ev_recv c <$> tr).
Definition read (c : N) (tr : list event) : bytes := concat (ev_read c <$> tr).

Lemma received_snoc c tr ev : received c (tr ++ [ev]) = received c tr ++ ev_recv c ev.
Proof. unfold received. rewrite fmap_app, concat_app; simpl. by rewrite app_nil_r. Qed.

Lemma read_snoc c tr ev : read c (tr ++ [ev]) = read c tr ++ ev_read c ev.
Proof. unfold read. rewrite fmap_app, concat_app; simpl. by rewrite app_nil_r. Qed.

(** The trace has an event of the channel [c] for the path [p]. *)
Definition ev_at (tr : list event) (p : list N) (c : N) : Prop :=
  ∃ data, EvRecv p c data ∈ tr ∨ EvRead p c data ∈ tr.

Lemma ev_at_snoc tr ev p c :
  ev_at (tr ++ [ev]) p c ↔ ev_at tr p c ∨ ∃ data, ev = EvRecv p c data ∨ ev = EvRead p c data.
Proof.
  unfold ev_at. setoid_rewrite elem_of_app. setoid_rewrite list_elem_of_singleton. naive_solver.
Qed.

(** The handle [id] holds the receiver of [c] with the chunk [k]. *)
Definition holds (hs : gmap N Incoming) (id : N) (p : list N) (c : N) (k : bytes) : Prop :=
  ∃ h, hs !! id = Some h ∧ in_rx h = Some (c, k) ∧ in_path h = p.

(** ** Channels *)

(** [busy] is the channel ingress forwards data to, with its path; [bad] holds
    if ingress failed. *)
Record chan_inv (tr : list event) (st : Subscriptions) (hs : gmap N Incoming)
    (busy : option (list N * N)) (bad : Prop) : Prop := {
  ci_wf : chan_wf st;
  ci_handle id p c k :
    holds hs id p c k →
    is_Some (s_chans st !! c) ∧ (∀ q, ¬ rx_at st q c) ∧ (∀ q, tx_at st q c → q = p);
  ci_unique id1 id2 p1 p2 c k1 k2 : holds hs id1 p1 c k1 → holds hs id2 p2 c k2 → id1 = id2;
  ci_busy p c :
    busy = Some (p, c) →
    (c < s_fresh st)%N ∧ (∀ q, chan_at st q c → q = p) ∧ (∀ id q k, holds hs id q c k → q = p);
  ci_event p c :
    ev_at tr p c →
    (c < s_fresh st)%N ∧ (∀ q, chan_at st q c → q = p) ∧ (∀ id q k, holds hs id q c k → q = p) ∧
    (∀ q, busy = Some (q, c) → q = p) ∧ (∀ q, ev_at tr q c → q = p);
  ci_ledger c queue :
    s_chans st !! c = Some queue →
    ∃ k, received c tr = read c tr ++ k ++ concat queue ∧
         (k = [] ∧ (∃ p, rx_at st p c) ∨ ∃ id p, holds hs id p c k);
  ci_lost c : s_chans st !! c = None → received c tr = read c tr ∨ bad;
  ci_bound c queue : s_chans st !! c = Some queue → length queue ≤ MAX_BUFFERED_CHUNKS
}.

Section chan_inv.
Implicit Types (tr : list event) (st : Subscriptions) (hs : gmap N Incoming).

Lemma ci_live tr st hs busy bad id p c k :
  chan_inv tr st hs busy bad → holds hs id p c k → (c < s_fresh st)%N.
Proof. intros Hi Hh. apply (wf_chans _ (ci_wf _ _ _ _ _ Hi)). by apply (ci_handle _ _ _ _ _ Hi) in Hh as [? _]. Qed.

Lemma chan_inv_bad tr st hs busy (bad bad' : Prop) :
  (bad → bad') → chan_inv tr st hs busy bad → chan_inv tr st hs busy bad'.
Proof. intros Hb [H1 H2 H3 H4 H5 H6 H7 H8]. split; try done. intros c []%H7; auto. Qed.

Lemma chan_inv_tau tr st hs busy bad :
  chan_inv tr st hs busy bad → chan_inv (tr ++ [EvTau]) st hs busy bad.
Proof.
  assert (∀ p c, ev_at (tr ++ [EvTau]) p c ↔ ev_at tr p c) as He.
  { intros p c. rewrite ev_at_snoc. naive_solver. }
  intros [H1 H2 H3 H4 H5 H6 H7 H8]. split; try done.
  - intros p c Hp%He. destruct (H5 p c Hp) as (? & ? & ? & ? & Hq). split_and!; try done.
    intros q ?%He. by apply Hq.
  - intros c queue Hc. rewrite received_snoc, read_snoc. simpl. rewrite !app_nil_r. by apply H6.
  - intros c Hc. rewrite received_snoc, read_snoc. simpl. rewrite !app_nil_r. by apply H7.
Qed.

Lemma chan_inv_close tr st hs busy bad p :
  chan_inv tr st hs busy bad → chan_inv (tr ++ [EvClose p]) st hs busy bad.
Proof.
  assert (∀ q c, ev_at (tr ++ [EvClose p]) q c ↔ ev_at tr q c) as He.
  { intros q c. rewrite ev_at_snoc. naive_solver. }
  intros [H1 H2 H3 H4 H5 H6 H7 H8]. split; try done.
  - intros q c Hp%He. destruct (H5 q c Hp) as (? & ? & ? & ? & Hq). split_and!; try done.
    intros q' ?%He. by apply Hq.
  - intros c queue Hc. rewrite received_snoc, read_snoc. simpl. rewrite !app_nil_r. by apply H6.
  - intros c Hc. rewrite received_snoc, read_snoc. simpl. rewrite !app_nil_r. by apply H7.
Qed.

(** No data is received for a channel which does not exist yet. *)
Lemma received_fresh tr st hs busy bad c :
  chan_inv tr st hs busy bad → (s_fresh st ≤ c)%N → received c tr = [] ∧ read c tr = [].
Proof.
  intros Hi Hc. assert (∀ p, ¬ ev_at tr p c) as Hn.
  { intros p [? _]%(ci_event _ _ _ _ _ Hi). lia. }
  clear Hi. unfold received, read. induction tr as [|ev tr IH]; [done|].
  rewrite !fmap_cons; cbn [concat].
  destruct IH as [-> ->].
  { intros p (d & Hd). apply (Hn p). exists d. destruct Hd; [left|right]; by right. }
  rewrite !app_nil_r. destruct ev as [p c' d| |p c' d|]; simpl; try done;
    destruct (N.eqb_spec c c') as [<-|]; try done; exfalso; apply (Hn p); exists d.
  - left. by left.
  - right. by left.
Qed.

(** An operation on the subscriptions hands out no receiver. *)
Lemma chan_inv_evolves tr st st' hs busy (bad bad' : Prop) lost :
  evolves None lost st st' → (lost = true → bad') → (bad → bad') →
  chan_inv tr st hs busy bad → chan_inv tr st' hs busy bad'.
Proof.
  intros Ev Hl Hb Hi. pose proof (ev_fresh _ _ _ _ Ev) as Hf.
  assert (∀ q c, chan_at st' q c → chan_at st q c ∨ (s_fresh st ≤ c)%N) as Hat.
  { intros q c [[?|?]%(ev_tx _ _ _ _ Ev)|[?|?]%(ev_rx _ _ _ _ Ev)]; unfold chan_at; tauto. }
  assert (∀ id p c k, holds hs id p c k → s_chans st' !! c = s_chans st !! c) as Hkeep.
  { intros id p c k Hh. pose proof (ci_live _ _ _ _ _ _ _ _ _ Hi Hh) as Hc.
    destruct (ev_old _ _ _ _ Ev c Hc) as [?|[_ [q Hq]]]; [done|].
    apply (ci_handle _ _ _ _ _ Hi) in Hh as (_ & Hn & _). by destruct (Hn q). }
  split.
  - by eapply ev_wf.
  - intros id p c k Hh. pose proof (ci_live _ _ _ _ _ _ _ _ _ Hi Hh) as Hc.
    rewrite (Hkeep _ _ _ _ Hh). destruct (ci_handle _ _ _ _ _ Hi _ _ _ _ Hh) as (? & Hn & Ht).
    split; [done|]. split.
    + intros q [?%Hn|?]%(ev_rx _ _ _ _ Ev); [done|lia].
    + intros q [?%Ht|?]%(ev_tx _ _ _ _ Ev); [done|lia].
  - apply (ci_unique _ _ _ _ _ Hi).
  - intros p c Hbc. destruct (ci_busy _ _ _ _ _ Hi p c Hbc) as (? & Hq & ?). split; [lia|].
    split; [|done]. intros q [?%Hq|?]%Hat; [done|lia].
  - intros p c He. destruct (ci_event _ _ _ _ _ Hi p c He) as (? & Hq & ? & ?).
    split; [lia|]. split; [|done]. intros q [?%Hq|?]%Hat; [done|lia].
  - intros c queue Hc. destruct (decide (c < s_fresh st)%N) as [Hlt|Hge].
    + destruct (ev_old _ _ _ _ Ev c Hlt) as [Ho|[Ho _]]; [|congruence]. rewrite Ho in Hc.
      destruct (ci_ledger _ _ _ _ _ Hi c queue Hc) as (k & Hk & Hown). exists k. split; [done|].
      destruct Hown as [[-> [p Hp]]|?]; [|by right]. left. split; [done|]. exists p.
      destruct (ev_rx_keep _ _ _ _ Ev p c Hp) as [?|[?|?]]; [done|congruence|done].
    + destruct (ev_new _ _ _ _ Ev c) as [Hnew Hown]; [lia|by eexists|].
      rewrite Hnew in Hc. injection Hc as <-. exists [].
      destruct (received_fresh _ _ _ _ _ c Hi) as [-> ->]; [lia|]. split; [done|].
      left. split; [done|]. destruct Hown as [?|[? ?]]; [done|done].
  - intros c Hc. destruct (s_chans st !! c) as [queue|] eqn:E.
    + destruct (ci_ledger _ _ _ _ _ Hi c queue E) as (k & Hk & Hown).
      destruct queue as [|b queue].
      * left. destruct Hown as [[-> _]|(id & p & Hh)]; [by rewrite !app_nil_r in Hk|].
        rewrite (Hkeep _ _ _ _ Hh) in Hc. congruence.
      * right. apply Hl, (ev_lost _ _ _ _ Ev). exists c. split; [|done]. by exists b, queue.
    + destruct (ci_lost _ _ _ _ _ Hi c E); auto.
  - intros c queue Hc. destruct (decide (c < s_fresh st)%N) as [Hlt|Hge].
    + destruct (ev_old _ _ _ _ Ev c Hlt) as [Ho|[Ho _]]; [|congruence]. rewrite Ho in Hc.
      by eapply ci_bound.
    + destruct (ev_new _ _ _ _ Ev c) as [Hnew _]; [lia|by eexists|].
      rewrite Hnew in Hc. injection Hc as <-. simpl. lia.
Qed.

(** [take_rx] hands out the receiver of [c] to a new handle. *)
Lemma chan_inv_out tr st st' hs busy bad id p c s :
  evolves (Some (p, c)) false st st' → hs !! id = None →
  chan_inv tr st hs busy bad →
  chan_inv tr st' (<[id := mkIncoming (Some (c, [])) s p]> hs) busy bad.
Proof.
  intros Ev Hid Hi. pose proof (ev_fresh _ _ _ _ Ev) as Hf.
  destruct (ev_out _ _ _ _ Ev p c eq_refl) as (Hlive & Hfrom & Hnrx & Htxp).
  assert (∀ q c, chan_at st' q c → chan_at st q c ∨ (s_fresh st ≤ c)%N) as Hat.
  { intros q c' [[?|?]%(ev_tx _ _ _ _ Ev)|[?|?]%(ev_rx _ _ _ _ Ev)]; unfold chan_at; tauto. }
  assert (∀ id' p' c' k, holds (<[id := mkIncoming (Some (c, [])) s p]> hs) id' p' c' k ↔
    id' = id ∧ p' = p ∧ c' = c ∧ k = [] ∨ holds hs id' p' c' k) as Hh.
  { intros id' p' c' k. unfold holds. setoid_rewrite lookup_insert_Some. split.
    - intros (h & [[<- <-]|[? ?]] & Hx & Hy); simpl in *; [left; by simplify_eq|right; eauto].
    - intros [(-> & -> & -> & ->)|(h & Hx & Hy & Hz)]; [eexists; split; [by left|done]|].
      exists h. split; [right; split; [|done]; congruence|done]. }
  assert (∀ id' p' k, ¬ holds hs id' p' c k) as Hnh.
  { intros id' p' k Hx. pose proof (ci_live _ _ _ _ _ _ _ _ _ Hi Hx).
    destruct Hfrom as [Hr|?]; [|lia]. apply (ci_handle _ _ _ _ _ Hi) in Hx as (_ & Hn & _).
    by destruct (Hn p). }
  assert (∀ id' p' c' k, holds hs id' p' c' k → s_chans st' !! c' = s_chans st !! c') as Hkeep.
  { intros id' p' c' k Hx. pose proof (ci_live _ _ _ _ _ _ _ _ _ Hi Hx) as Hc.
    destruct (ev_old _ _ _ _ Ev c' Hc) as [?|[_ [q Hq]]]; [done|].
    apply (ci_handle _ _ _ _ _ Hi) in Hx as (_ & Hn & _). by destruct (Hn q). }
  assert (∀ p', (c < s_fresh st)%N → (∀ q, chan_at st q c → q = p') → p = p') as Hpp.
  { intros p' Hlt Hq. destruct Hfrom as [Hr|?]; [|lia]. apply Hq. by right. }
  split.
  - by eapply ev_wf.
  - intros id' p' c' k [(-> & -> & -> & ->)|Hx]%Hh; [done|].
    pose proof (ci_live _ _ _ _ _ _ _ _ _ Hi Hx) as Hc.
    rewrite (Hkeep _ _ _ _ Hx). destruct (ci_handle _ _ _ _ _ Hi _ _ _ _ Hx) as (? & Hn & Ht).
    split; [done|]. split.
    + intros q [?%Hn|?]%(ev_rx _ _ _ _ Ev); [done|lia].
    + intros q [?%Ht|?]%(ev_tx _ _ _ _ Ev); [done|lia].
  - intros id1 id2 p1 p2 c' k1 k2 [(-> & -> & -> & ->)|H1]%Hh [(-> & -> & Hc & ->)|H2]%Hh; subst;
      [done|by apply Hnh in H2|by apply Hnh in H1|by eapply ci_unique].
  - intros p' c' Hbc. destruct (ci_busy _ _ _ _ _ Hi p' c' Hbc) as (? & Hq & Hx). split; [lia|].
    split; [intros q [?%Hq|?]%Hat; [done|lia]|].
    intros id' q k [(-> & -> & -> & ->)|?]%Hh; [by apply Hpp|by eapply Hx].
  - intros p' c' He. destruct (ci_event _ _ _ _ _ Hi p' c' He) as (? & Hq & Hx & ?).
    split; [lia|]. split; [intros q [?%Hq|?]%Hat; [done|lia]|]. split; [|done].
    intros id' q k [(-> & -> & -> & ->)|?]%Hh; [by apply Hpp|by eapply Hx].
  - intros c' queue Hc. setoid_rewrite Hh. destruct (decide (c' < s_fresh st)%N) as [Hlt|Hge].
    + destruct (ev_old _ _ _ _ Ev c' Hlt) as [Ho|[Ho _]]; [|congruence]. rewrite Ho in Hc.
      destruct (ci_ledger _ _ _ _ _ Hi c' queue Hc) as (k & Hk & Hown). exists k. split; [done|].
      destruct Hown as [[-> [p' Hp]]|(id' & p' & ?)]; [|right; eauto].
      destruct (ev_rx_keep _ _ _ _ Ev p' c' Hp) as [?|[?|[= <- <-]]]; [|congruence|].
      * left. eauto.
      * right. exists id, p. by left.
    + destruct (ev_new _ _ _ _ Ev c') as [Hnew Hown]; [lia|by eexists|].
      rewrite Hnew in Hc. injection Hc as <-. exists [].
      destruct (received_fresh _ _ _ _ _ c' Hi) as [-> ->]; [lia|]. split; [done|].
      destruct Hown as [?|[p' [= <- <-]]]; [by left|]. right. exists id, p. by left.
  - intros c' Hc. destruct (s_chans st !! c') as [queue|] eqn:E.
    + destruct (ci_ledger _ _ _ _ _ Hi c' queue E) as (k & Hk & Hown).
      destruct queue as [|b queue].
      * left. destruct Hown as [[-> _]|(id' & p' & Hx)]; [by rewrite !app_nil_r in Hk|].
        rewrite (Hkeep _ _ _ _ Hx) in Hc. congruence.
      * assert (false = true); [|done]. apply (ev_lost _ _ _ _ Ev). exists c'.
        split; [|done]. by exists b, queue.
    + by apply (ci_lost _ _ _ _ _ Hi).
  - intros c' queue Hc. destruct (decide (c' < s_fresh st)%N) as [Hlt|Hge].
    + destruct (ev_old _ _ _ _ Ev c' Hlt) as [Ho|[Ho _]]; [|congruence]. rewrite Ho in Hc.
      by eapply ci_bound.
    + destruct (ev_new _ _ _ _ Ev c') as [Hnew _]; [lia|by eexists|].
      rewrite Hnew in Hc. injection Hc as <-. simpl. lia.
Qed.

(** The receivers are passed from handle to handle. *)
Lemma chan_inv_handles tr st hs hs' busy bad :
  (∀ p c k, (∃ id, holds hs' id p c k) ↔ ∃ id, holds hs id p c k) →
  (∀ id1 id2 p1 p2 c k1 k2, holds hs' id1 p1 c k1 → holds hs' id2 p2 c k2 → id1 = id2) →
  chan_inv tr st hs busy bad → chan_inv tr st hs' busy bad.
Proof.
  intros Hh Hu [H1 H2 H3 H4 H5 H6 H7 H8].
  assert (∀ id p c k, holds hs' id p c k → ∃ id', holds hs id' p c k) as Hh'.
  { intros. apply Hh. eauto. }
  split; try done.
  - intros id p c k (id' & ?)%Hh'. eauto.
  - intros p c (? & ? & Hq)%H4. split_and!; try done. intros id q k (id' & ?)%Hh'. eauto.
  - intros p c (? & ? & Hq & ?)%H5. split_and!; try naive_solver.
  - intros c queue (k & Hk & [?|(id & p & Hx)])%H6; exists k; (split; [done|]); [by left|].
    right. destruct (proj2 (Hh p c k)) as [id' ?]; eauto.
Qed.

(** A handle which holds no receiver. *)
Lemma holds_insert hs id h id' p c k :
  holds (<[id := h]> hs) id' p c k ↔
  id' = id ∧ in_rx h = Some (c, k) ∧ in_path h = p ∨ id' ≠ id ∧ holds hs id' p c k.
Proof.
  unfold holds. setoid_rewrite lookup_insert_Some. split.
  - intros (h' & [[<- <-]|[? ?]] & Hx & Hy); [left|right]; naive_solver.
  - intros [(-> & ? & ?)|(? & h' & ? & ? & ?)]; [exists h|exists h']; naive_solver.
Qed.

Lemma holds_delete hs id id' p c k :
  holds (delete id hs) id' p c k ↔ id' ≠ id ∧ holds hs id' p c k.
Proof. unfold holds. setoid_rewrite lookup_delete_Some. naive_solver. Qed.

Lemma chan_inv_new_handle tr st hs busy bad id h :
  hs !! id = None → in_rx h = None →
  chan_inv tr st hs busy bad → chan_inv tr st (<[id := h]> hs) busy bad.
Proof.
  intros Hid Hrx Hi.
  assert (∀ id' p c k, holds (<[id := h]> hs) id' p c k ↔ holds hs id' p c k) as Hh.
  { intros id' p c k. rewrite holds_insert, Hrx. split; [naive_solver|]. intros Hx. right.
    split; [|done]. intros ->. destruct Hx as (? & ? & _). congruence. }
  eapply chan_inv_handles; [| |exact Hi].
  - intros p c k. by setoid_rewrite Hh.
  - intros id1 id2 p1 p2 c k1 k2. rewrite !Hh. by apply (ci_unique _ _ _ _ _ Hi).
Qed.

Lemma chan_inv_take_reader tr st hs busy bad id id' p c k s s' :
  hs !! id' = None → holds hs id p c k →
  chan_inv tr st hs busy bad →
  chan_inv tr st (<[id' := mkIncoming (Some (c, k)) s' p]> (<[id := mkIncoming None s p]> hs))
    busy bad.
Proof.
  intros Hid Hc Hi. assert (id ≠ id') as Hne by (intros ->; destruct Hc as (? & ? & _); congruence).
  pose proof (ci_unique _ _ _ _ _ Hi) as Hu.
  eapply chan_inv_handles; [| |exact Hi].
  - intros q c' k'. setoid_rewrite holds_insert. setoid_rewrite holds_insert. simpl. split.
    + intros (i & [(-> & [= <- <-] & <-)|(? & [(-> & ? & _)|(? & ?)])]); [by exists id|done|by exists i].
    + intros (i & Hx). destruct (decide (i = id)) as [->|].
      * exists id'. left. destruct Hx as (h & Hh & Hr & Hp), Hc as (h' & Hh' & Hr' & Hp').
        by simplify_eq.
      * exists i. right. split; [|by right]. intros ->. destruct Hx as (? & ? & _). congruence.
  - intros id1 id2 p1 p2 c' k1 k2. rewrite !holds_insert. simpl.
    intros [(-> & [= <- <-] & <-)|(? & [(? & ? & _)|(? & Hx)])]
      [(-> & ? & ?)|(? & [(? & ? & _)|(? & Hy)])]; try done; simplify_eq.
    + by pose proof (Hu _ _ _ _ _ _ _ Hc Hy).
    + by pose proof (Hu _ _ _ _ _ _ _ Hc Hx).
    + by eapply Hu.
Qed.

(** *** The channels change, the slots do not *)

Definition same_slots (st st' : Subscriptions) : Prop :=
  s_subs st' = s_subs st ∧ s_fresh st' = s_fresh st.

Lemma same_slots_at st st' :
  same_slots st st' →
  (∀ p c, tx_at st' p c ↔ tx_at st p c) ∧ (∀ p c, rx_at st' p c ↔ rx_at st p c) ∧
  (∀ p c, chan_at st' p c ↔ chan_at st p c).
Proof. intros [Hs _]. unfold chan_at, tx_at, rx_at. by rewrite Hs. Qed.

Lemma chan_wf_chans st st' :
  same_slots st st' → chan_wf st →
  (∀ p c, rx_at st p c → is_Some (s_chans st' !! c)) →
  (∀ c, is_Some (s_chans st' !! c) → is_Some (s_chans st !! c)) → chan_wf st'.
Proof.
  intros Hs Hwf Hk Hd. destruct (same_slots_at _ _ Hs) as (Ht & Hr & Ha). destruct Hs as [_ Hf].
  split; rewrite ?Hf.
  - intros p c ?%Ha. by eapply wf_fresh.
  - intros p c ?%Hr. eauto.
  - intros p q c ?%Ha ?%Ha. by eapply wf_unique.
  - intros c ?%Hd. by apply (wf_chans _ Hwf).
Qed.

(** A handle drops its receiver. *)
Lemma chan_inv_drop tr st st' hs hs' busy (bad bad' : Prop) id p c k :
  holds hs id p c k → same_slots st st' → s_chans st' = delete c (s_chans st) →
  (∀ id' p' c' k', holds hs' id' p' c' k' ↔ id' ≠ id ∧ holds hs id' p' c' k') →
  (bad → bad') → (k ≠ [] → bad') → (holds_data st c → bad') →
  chan_inv tr st hs busy bad → chan_inv tr st' hs' busy bad'.
Proof.
  intros Hc Hs Hch Hh Hb Hk Hd Hi. destruct (same_slots_at _ _ Hs) as (Ht & Hr & Ha).
  destruct (ci_handle _ _ _ _ _ Hi _ _ _ _ Hc) as (_ & Hn & _).
  pose proof (proj2 Hs) as Hf.
  assert (∀ c', c' ≠ c → s_chans st' !! c' = s_chans st !! c') as Hne.
  { intros. rewrite Hch. by apply lookup_delete_ne. }
  assert (∀ id' p' k', ¬ holds hs' id' p' c k') as Hno.
  { intros id' p' k' [? Hx]%Hh. by pose proof (ci_unique _ _ _ _ _ Hi _ _ _ _ _ _ _ Hx Hc). }
  split.
  - eapply chan_wf_chans; [done|by eapply ci_wf| |].
    + intros q c' Hq. rewrite Hne; [by eapply wf_live; [by eapply ci_wf|]|]. intros ->. by destruct (Hn q).
    + intros c' [x Hx]. rewrite Hch, lookup_delete_Some in Hx. destruct Hx. eauto.
  - intros id' p' c' k' Hx. assert (c' ≠ c) by (intros ->; by apply Hno in Hx).
    rewrite Hne by done. apply Hh in Hx as [_ Hx].
    destruct (ci_handle _ _ _ _ _ Hi _ _ _ _ Hx) as (? & ? & ?). split; [done|].
    split; [intros q; rewrite Hr; auto|intros q; rewrite Ht; auto].
  - intros id1 id2 p1 p2 c' k1 k2 [_ H1]%Hh [_ H2]%Hh. by eapply ci_unique.
  - intros p' c' Hx. destruct (ci_busy _ _ _ _ _ Hi p' c' Hx) as (? & Hq & Hy). rewrite Hf.
    split; [done|]. split; [intros q ?%Ha; auto|]. intros id' q k' [_ ?]%Hh. eauto.
  - intros p' c' Hx. destruct (ci_event _ _ _ _ _ Hi p' c' Hx) as (? & Hq & Hy & ?). rewrite Hf.
    split; [done|]. split; [intros q ?%Ha; auto|]. split; [|done]. intros id' q k' [_ ?]%Hh. eauto.
  - intros c' queue. rewrite Hch, lookup_delete_Some. intros [Hcc Hq].
    destruct (ci_ledger _ _ _ _ _ Hi c' queue Hq) as (k' & Hk' & Hown). exists k'. split; [done|].
    setoid_rewrite Hr. destruct Hown as [?|(id' & p' & Hx)]; [by left|]. right. exists id', p'.
    apply Hh. split; [|done]. intros ->. destruct Hx as (? & ? & ? & _), Hc as (? & ? & ? & _).
    by simplify_eq.
  - intros c' Hx. destruct (decide (c' = c)) as [->|Hcc].
    + destruct (s_chans st !! c) as [[|b queue]|] eqn:E.
      * destruct (ci_ledger _ _ _ _ _ Hi c [] E) as (k' & Hk' & [[-> [q Hq]]|(id' & p' & Hy)]).
        -- by destruct (Hn q).
        -- pose proof (ci_unique _ _ _ _ _ Hi _ _ _ _ _ _ _ Hy Hc) as ->.
           assert (k' = k) as ->.
           { destruct Hy as (? & ? & ? & _), Hc as (? & ? & ? & _). by simplify_eq. }
           destruct k as [|? ?]; [left; by rewrite !app_nil_r in Hk'|right; by apply Hk].
      * right. apply Hd. by exists b, queue.
      * destruct (ci_lost _ _ _ _ _ Hi c E); auto.
    + rewrite Hne in Hx by done. destruct (ci_lost _ _ _ _ _ Hi c' Hx); auto.
  - intros c' queue. rewrite Hch, lookup_delete_Some. intros [_ Hq]. by eapply ci_bound.
Qed.

(** A handle reads data from its receiver. *)
Lemma chan_inv_read tr st st' hs hs' busy bad id p c k k' queue queue' data :
  holds hs id p c k → same_slots st st' →
  s_chans st !! c = Some queue → s_chans st' = <[c := queue']> (s_chans st) →
  k ++ concat queue = data ++ k' ++ concat queue' → length queue' ≤ length queue →
  (∀ id2 p2 c2 k2, holds hs' id2 p2 c2 k2 ↔
     id2 = id ∧ p2 = p ∧ c2 = c ∧ k2 = k' ∨ id2 ≠ id ∧ holds hs id2 p2 c2 k2) →
  chan_inv tr st hs busy bad → chan_inv (tr ++ [EvRead p c data]) st' hs' busy bad.
Proof.
  intros Hc Hs Hq Hch Hdata Hlen Hh Hi. destruct (same_slots_at _ _ Hs) as (Ht & Hr & Ha).
  pose proof (proj2 Hs) as Hf. pose proof (ci_live _ _ _ _ _ _ _ _ _ Hi Hc) as Hlt.
  destruct (ci_handle _ _ _ _ _ Hi _ _ _ _ Hc) as (_ & Hn & Htx).
  assert (∀ id2 p2 c2 k2, holds hs' id2 p2 c2 k2 → ∃ k3, holds hs id2 p2 c2 k3) as Hback.
  { intros id2 p2 c2 k2 [(-> & -> & -> & ->)|[_ ?]]%Hh; eauto. }
  assert (∀ q, chan_at st q c → q = p) as Hat.
  { intros q [?|Hx]; [by apply Htx|by destruct (Hn q)]. }
  split.
  - eapply chan_wf_chans; [done|by eapply ci_wf| |].
    + intros q c' Hx. rewrite Hch. apply lookup_insert_is_Some'. right. by eapply wf_live; [by eapply ci_wf|].
    + intros c'. rewrite Hch, lookup_insert_is_Some'. intros [->|?]; [eauto|done].
  - intros id2 p2 c2 k2 (k3 & Hx)%Hback.
    destruct (ci_handle _ _ _ _ _ Hi _ _ _ _ Hx) as (? & ? & ?). split.
    + rewrite Hch. apply lookup_insert_is_Some'. by right.
    + split; [intros q; rewrite Hr; auto|intros q; rewrite Ht; auto].
  - intros id1 id2 p1 p2 c' k1 k2 (? & H1)%Hback (? & H2)%Hback. by eapply ci_unique.
  - intros p' c' Hx. destruct (ci_busy _ _ _ _ _ Hi p' c' Hx) as (? & Hy & Hz). rewrite Hf.
    split; [done|]. split; [intros q ?%Ha; auto|]. intros id' q k2 (? & ?)%Hback. eauto.
  - intros p' c' [Hx|(d & [?|Hx])]%ev_at_snoc; [|done|].
    + destruct (ci_event _ _ _ _ _ Hi p' c' Hx) as (? & Hy & Hz & Hb & He). rewrite Hf.
      split; [done|]. split; [intros q ?%Ha; auto|].
      split; [intros id' q k2 (? & ?)%Hback; eauto|]. split; [done|].
      intros q [?|(d & [?|[= -> -> _]])]%ev_at_snoc; [by apply He|done|]. by eapply Hz.
    + injection Hx as <- <- _. rewrite Hf. split; [done|]. split; [intros q ?%Ha; auto|].
      split; [|split].
      * intros id' q k2 (? & Hx)%Hback. pose proof (ci_unique _ _ _ _ _ Hi _ _ _ _ _ _ _ Hx Hc) as ->.
        destruct Hx as (? & ? & ? & ?), Hc as (? & ? & ? & ?). by simplify_eq.
      * intros q Hb. destruct (ci_busy _ _ _ _ _ Hi q c Hb) as (_ & _ & Hz).
        symmetry. by eapply Hz.
      * intros q [Hx|(d' & [?|[= -> _]])]%ev_at_snoc; [|done|done].
        destruct (ci_event _ _ _ _ _ Hi q c Hx) as (_ & _ & Hz & _). symmetry. by eapply Hz.
  - intros c' queue2. rewrite Hch, received_snoc, read_snoc. simpl. rewrite app_nil_r.
    setoid_rewrite Hr. rewrite lookup_insert_Some. intros [[<- <-]|[Hne Hq2]].
    + rewrite N.eqb_refl. exists k'.
      destruct (ci_ledger _ _ _ _ _ Hi c queue Hq) as (k2 & Hk2 & [[-> [q Hx]]|(id2 & p2 & Hx)]).
      { by destruct (Hn q). }
      pose proof (ci_unique _ _ _ _ _ Hi _ _ _ _ _ _ _ Hx Hc) as ->.
      assert (k2 = k) as ->.
      { destruct Hx as (? & ? & ? & _), Hc as (? & ? & ? & _). by simplify_eq. }
      split; [by rewrite Hk2, Hdata, (assoc (++))|]. right. exists id, p. apply Hh. by left.
    + assert (c' =? c = false)%N as -> by (by apply N.eqb_neq). rewrite app_nil_r.
      destruct (ci_ledger _ _ _ _ _ Hi c' queue2 Hq2) as (k2 & Hk2 & Hown). exists k2.
      split; [done|]. destruct Hown as [?|(id2 & p2 & Hx)]; [by left|]. right. exists id2, p2.
      apply Hh. right. split; [|done]. intros ->.
      destruct Hx as (? & ? & ? & _), Hc as (? & ? & ? & _). by simplify_eq.
  - intros c'. rewrite Hch, received_snoc, read_snoc. simpl. rewrite app_nil_r.
    rewrite lookup_insert_None. intros [Hx Hne].
    assert (c' =? c = false)%N as -> by (by apply N.eqb_neq). rewrite app_nil_r.
    by apply (ci_lost _ _ _ _ _ Hi).
  - intros c' queue2. rewrite Hch, lookup_insert_Some. intros [[<- <-]|[_ Hq2]].
    + etrans; [exact Hlen|]. by eapply ci_bound.
    + by eapply ci_bound.
Qed.

(** Ingress sends a chunk of data. *)
Lemma chan_inv_recv tr st st' hs busy bad p c queue data :
  same_slots st st' → s_chans st !! c = Some queue → length queue < MAX_BUFFERED_CHUNKS →
  s_chans st' = <[c := queue ++ [data]]> (s_chans st) →
  chan_inv tr st hs (Some (p, c)) bad → (busy = Some (p, c) ∨ busy = None) →
  chan_inv (tr ++ [EvRecv p c data]) st' hs busy bad.
Proof.
  intros Hs Hq Hlen Hch Hi Hbusy. destruct (same_slots_at _ _ Hs) as (Ht & Hr & Ha).
  pose proof (proj2 Hs) as Hf.
  destruct (ci_busy _ _ _ _ _ Hi p c eq_refl) as (Hlt & Hat & Hhp).
  split.
  - eapply chan_wf_chans; [done|by eapply ci_wf| |].
    + intros q c' Hx. rewrite Hch. apply lookup_insert_is_Some'. right. by eapply wf_live; [by eapply ci_wf|].
    + intros c'. rewrite Hch, lookup_insert_is_Some'. intros [->|?]; [eauto|done].
  - intros id2 p2 c2 k2 Hx.
    destruct (ci_handle _ _ _ _ _ Hi _ _ _ _ Hx) as (? & ? & ?). split.
    + rewrite Hch. apply lookup_insert_is_Some'. by right.
    + split; [intros q; rewrite Hr; auto|intros q; rewrite Ht; auto].
  - apply (ci_unique _ _ _ _ _ Hi).
  - intros p' c' Hx. destruct Hbusy as [->| ->]; [|done]. injection Hx as <- <-. rewrite Hf.
    split; [done|]. split; [intros q ?%Ha; auto|done].
  - intros p' c' [Hx|(d & [Hx|?])]%ev_at_snoc; [| |done].
    + destruct (ci_event _ _ _ _ _ Hi p' c' Hx) as (? & Hy & Hz & Hb & He). rewrite Hf.
      split; [done|]. split; [intros q ?%Ha; auto|]. split; [done|]. split.
      * intros q Hbq. destruct Hbusy as [->| ->]; [by apply Hb|done].
      * intros q [?|(d & [[= -> -> _]|?])]%ev_at_snoc; [by apply He| |done]. by apply Hb.
    + injection Hx as <- <- _. rewrite Hf. split; [done|]. split; [intros q ?%Ha; auto|].
      split; [done|]. split.
      * intros q Hbq. destruct Hbusy as [->| ->]; [by simplify_eq|done].
      * intros q [Hx|(d' & [[= -> _]|?])]%ev_at_snoc; [|done|done].
        destruct (ci_event _ _ _ _ _ Hi q c Hx) as (_ & _ & _ & Hz & _). symmetry. by apply Hz.
  - intros c' queue2. rewrite Hch, received_snoc, read_snoc. simpl. rewrite app_nil_r.
    setoid_rewrite Hr. rewrite lookup_insert_Some. intros [[<- <-]|[Hne Hq2]].
    + rewrite N.eqb_refl. destruct (ci_ledger _ _ _ _ _ Hi c queue Hq) as (k2 & Hk2 & Hown).
      exists k2. split; [|done]. rewrite Hk2, concat_app; simpl. by rewrite app_nil_r, <- !(assoc (++)).
    + assert (c' =? c = false)%N as -> by (by apply N.eqb_neq). rewrite app_nil_r.
      by apply (ci_ledger _ _ _ _ _ Hi).
  - intros c'. rewrite Hch, received_snoc, read_snoc. simpl. rewrite app_nil_r.
    rewrite lookup_insert_None. intros [Hx Hne].
    assert (c' =? c = false)%N as -> by (by apply N.eqb_neq). rewrite app_nil_r.
    by apply (ci_lost _ _ _ _ _ Hi).
  - intros c' queue2. rewrite Hch, lookup_insert_Some. intros [[<- <-]|[_ Hq2]].
    + rewrite length_app. simpl. lia.
    + by eapply ci_bound.
Qed.

(** Ingress starts, respectively stops, to forward data. *)
Lemma chan_inv_idle tr st hs busy bad : chan_inv tr st hs busy bad → chan_inv tr st hs None bad.
Proof.
  intros [H1 H2 H3 H4 H5 H6 H7 H8]. split; try done.
  intros p c (? & ? & ? & _ & ?)%H5. split_and!; done.
Qed.

Lemma chan_inv_busy tr st hs busy bad p c :
  tx_at st p c → chan_inv tr st hs busy bad → chan_inv tr st hs (Some (p, c)) bad.
Proof.
  intros Ht [H1 H2 H3 H4 H5 H6 H7 H8]. split; try done.
  - intros p' c' [= <- <-]. split_and!.
    + apply (wf_fresh _ H1 p). by left.
    + intros q Hq. apply (wf_unique _ H1 q p c Hq). by left.
    + intros id q k (_ & _ & Hq)%H2. symmetry. by apply Hq.
  - intros p' c' (? & Hq & ? & _ & ?)%H5. split_and!; try done.
    intros q [= <- <-]. apply Hq. by left.
Qed.

End chan_inv.

(** ** The world *)

(** The paths of the live handles, except for those of the root. *)
Definition handle_path (h : Incoming) : list (list N) :=
  match in_path h with [] => [] | p => [p] end.
Definition handle_paths (hs : gmap N Incoming) : list (list N) :=
  (map_to_list hs).*2 ≫= handle_path.

Definition busy_of (w : World) : option (list N * N) :=
  match w_task w with TIngress (IData p c _) _ => Some (p, c) | _ => None end.

(** Ingress failed. *)
Definition bad_of (w : World) : Prop := is_Some (w_err w) ∨ ∃ e, w_done w = Some (Err e).

Record winv (tr : list event) (w : World) : Prop := {
  wi_permits : permits_inv false (w_index w);
  wi_elements : elements_ok (handle_paths (w_handles w)) (w_index w);
  wi_chans : chan_inv tr (w_index w) (w_handles w) (busy_of w) (bad_of w);
  wi_fresh id : is_Some (w_handles w !! id) → (id < w_next_handle w)%N;
  wi_done r : w_done w = Some r → w_task w = TEnd;
  wi_drain i : w_task w = TIngress i true → w_handles w = ∅ ∧ w_err w = None;
  wi_ok : w_done w = Some (Ok tt) → w_handles w = ∅ ∧ w_err w = None
}.

Lemma handle_paths_insert hs id h :
  hs !! id = None → handle_paths (<[id := h]> hs) ≡ₚ handle_path h ++ handle_paths hs.
Proof. intros Hid. unfold handle_paths. by rewrite map_to_list_insert by done. Qed.

Lemma handle_paths_delete hs id h :
  hs !! id = Some h → handle_paths hs ≡ₚ handle_path h ++ handle_paths (delete id hs).
Proof. intros Hid. unfold handle_paths. by rewrite <- (map_to_list_delete hs id h Hid). Qed.

Lemma handle_paths_update hs id h h' :
  hs !! id = Some h → in_path h' = in_path h →
  handle_paths (<[id := h']> hs) ≡ₚ handle_paths hs.
Proof.
  intros Hid Hp. rewrite <- insert_delete_eq, handle_paths_insert by apply lookup_delete_eq.
  rewrite (handle_paths_delete hs id h Hid). unfold handle_path. by rewrite Hp.
Qed.

Lemma elements_perm hs hs' st : hs ≡ₚ hs' → elements_ok hs st → elements_ok hs' st.
Proof. apply elem_inv_perm. Qed.

Lemma elem_of_handle_paths hs id h :
  hs !! id = Some h → in_path h ≠ [] → in_path h ∈ handle_paths hs.
Proof.
  intros Hid Hp. rewrite (handle_paths_delete hs id h Hid). apply elem_of_app. left.
  unfold handle_path. destruct (in_path h); [done|by left].
Qed.

(** *** [Incoming::new] *)

Lemma chan_inv_init paths :
  chan_inv [] (Subscriptions_new paths 0) {[ 0%N := mkIncoming (Some (0%N, [])) true [] ]} None False.
Proof.
  destruct (chan_wf_new paths 0) as (Hwf & Hr & Ht & Hc).
  assert (∀ id p c k, holds {[ 0%N := mkIncoming (Some (0%N, [])) true [] ]} id p c k ↔
    id = 0%N ∧ p = [] ∧ c = 0%N ∧ k = []) as Hh.
  { intros id p c k. unfold holds. setoid_rewrite lookup_singleton_Some. split.
    - intros (h & [<- <-] & Hx & Hy). simpl in *. by simplify_eq.
    - intros (-> & -> & -> & ->). by eexists. }
  assert (is_Some (s_chans (Subscriptions_new paths 0) !! 0%N)) as Hlive.
  { unfold Subscriptions_new. apply (foldl_inv (λ st, is_Some (s_chans st !! 0%N) ∧ (0 < s_fresh st)%N ∧
      ∀ p, ¬ rx_at st p 0)); [simpl; rewrite lookup_singleton_eq|].
    - split; [eauto|]. split; [lia|]. intros p (sub & Hs & Hx). simpl in Hs.
      by apply lookup_singleton_Some in Hs as [<- <-].
    - intros st [|i path] (H1 & H2 & H3); [done|]. unfold declare_path.
      destruct (collect _) as [key|]; [|done]. unfold insert_subscription; simpl.
      destruct (s_subs st !! key) as [old|] eqn:E; simpl.
      + split; [|split; [lia|]].
        * destruct (sub_rx old) as [c|] eqn:Ec; simpl.
          -- rewrite lookup_delete_ne by (intros ->; apply (H3 key); by exists old).
             rewrite lookup_insert_ne by lia. done.
          -- rewrite lookup_insert_ne by lia. done.
        * intros p (sub & Hs & Hx). simpl in Hs.
          apply lookup_insert_Some in Hs as [[<- <-]|[_ Hs]]; [simpl in Hx; injection Hx; lia|].
          apply (H3 p). by exists sub.
      + split; [rewrite lookup_insert_ne by lia; done|]. split; [lia|].
        intros p (sub & Hs & Hx). simpl in Hs.
        apply lookup_insert_Some in Hs as [[<- <-]|[_ Hs]]; [simpl in Hx; injection Hx; lia|].
        apply (H3 p). by exists sub. }
  split.
  - done.
  - by intros id p c k (-> & -> & -> & ->)%Hh.
  - by intros id1 id2 p1 p2 c k1 k2 (-> & _)%Hh (-> & _)%Hh.
  - done.
  - intros p c (d & [?%not_elem_of_nil|?%not_elem_of_nil]); done.
  - intros c queue [-> Hown]%Hc. exists []. split; [done|]. destruct Hown as [->|?]; [|by left].
    right. exists 0%N, []. by apply Hh.
  - by left.
  - intros c queue [-> _]%Hc. simpl. lia.
Qed.

Lemma winv_init paths rx : compatible paths → winv [] (Incoming_new paths rx).
Proof.
  intros Hc. split; simpl; try done.
  - apply permits_new.
  - eapply elements_perm; [|by apply elements_new].
    unfold handle_paths. by rewrite map_to_list_singleton.
  - eapply chan_inv_bad; [|apply chan_inv_init]. done.
  - intros id. rewrite lookup_singleton_is_Some. lia.
Qed.

(** *** Changes of the index *)

Lemma bad_fail_if b w : b = true → bad_of (fail_if b w).
Proof. intros ->. left. simpl. unfold err_set. destruct (w_err w) eqn:E; simpl; rewrite ?E; eauto. Qed.

Lemma fail_if_fields b w :
  w_index (fail_if b w) = w_index w ∧ w_handles (fail_if b w) = w_handles w ∧
  w_task (fail_if b w) = w_task w ∧ w_done (fail_if b w) = w_done w ∧
  w_next_handle (fail_if b w) = w_next_handle w ∧ (is_Some (w_err w) → is_Some (w_err (fail_if b w))).
Proof. destruct b; [|done]. simpl. unfold err_set. by destruct (w_err w) eqn:E; simpl; rewrite ?E. Qed.

Lemma bad_fail_if_mono b w : bad_of w → bad_of (fail_if b w).
Proof.
  destruct (fail_if_fields b w) as (_ & _ & _ & Hd & _ & He).
  intros [?|?]; [left; auto|right; by rewrite Hd].
Qed.

(** A step of a live handle: the task is neither draining nor complete. *)
Lemma winv_alive tr w id h :
  winv tr w → w_handles w !! id = Some h →
  (∀ i, w_task w ≠ TIngress i true) ∧ w_done w ≠ Some (Ok tt).
Proof.
  intros Hw Hid. split.
  - intros i [Hn _]%(wi_drain _ _ Hw). by rewrite Hn in Hid.
  - intros [Hn _]%(wi_ok _ _ Hw). by rewrite Hn in Hid.
Qed.

Lemma winv_handle_step tr tr' w w' id h :
  winv tr w → w_handles w !! id = Some h → w_task w' = w_task w → w_done w' = w_done w →
  permits_inv false (w_index w') → elements_ok (handle_paths (w_handles w')) (w_index w') →
  chan_inv tr' (w_index w') (w_handles w') (busy_of w') (bad_of w') →
  (∀ id, is_Some (w_handles w' !! id) → (id < w_next_handle w')%N) → winv tr' w'.
Proof.
  intros Hw Hid Ht Hd ????. destruct (winv_alive _ _ _ _ Hw Hid) as [Hi Hok].
  split; try done; rewrite ?Ht, ?Hd.
  - apply (wi_done _ _ Hw).
  - by intros i ?%Hi.
  - done.
Qed.

Lemma busy_task w w' : w_task w' = w_task w → busy_of w' = busy_of w.
Proof. unfold busy_of. by intros ->. Qed.

(** *** The operations of the handles *)

Lemma winv_index tr w id path r w' :
  winv tr w → Incoming_index id path w = Some (r, w') → winv (tr ++ [EvTau]) w'.
Proof.
  intros Hw Hs. unfold Incoming_index in Hs.
  destruct (w_handles w !! id) as [h|] eqn:Hid; simpl in Hs; [|done].
  destruct path as [|i path].
  { injection Hs as <- <-. destruct Hw. split; try done. by apply chan_inv_tau. }
  set (full := match in_path h with [] => i :: path | _ => in_path h ++ i :: path end) in *.
  assert (full ≠ []) as Hfull by (unfold full; by destruct (in_path h)).
  clearbody full. destruct (skip full (w_index w)) as [pending st1] eqn:Esk.
  destruct (elements_skip _ full _ (wi_elements _ _ Hw)) as (He1 & Hp1 & Hpost).
  rewrite Esk in He1, Hp1, Hpost. simpl in He1, Hp1, Hpost.
  pose proof (permits_skip full _ _ (wi_permits _ _ Hw)) as Hpm1. rewrite Esk in Hpm1. simpl in Hpm1.
  pose proof (evolves_skip _ _ _ _ (ci_wf _ _ _ _ _ (wi_chans _ _ Hw)) Esk) as Ev1.
  set (w1 := fail_if pending (set_index st1 w)) in *.
  destruct (fail_if_fields pending (set_index st1 w)) as (F1 & F2 & F3 & F4 & F5 & F6).
  simpl in F1, F2, F3, F4, F5, F6. fold w1 in F1, F2, F3, F4, F5, F6.
  assert (chan_inv (tr ++ [EvTau]) st1 (w_handles w1) (busy_of w1) (bad_of w1)) as Hc1.
  { rewrite F2, (busy_task w w1 F3). apply chan_inv_tau.
    eapply chan_inv_evolves; [exact Ev1| | |apply (wi_chans _ _ Hw)].
    - intros. by apply bad_fail_if.
    - intros Hb. by apply bad_fail_if_mono. }
  rewrite F1 in Hs. destruct (take_rx full st1) as [rx st2] eqn:Etk.
  pose proof (elements_take_rx _ _ _ _ _ Etk He1) as He2.
  assert (∀ node pat k, resolve st1 full = Some (node, pat) → pat !! k = Some None →
    skipped_at full st1 k) as Hpost1.
  { intros node pat k Hr. apply Hpost with node. by rewrite <- (resolve_patterns st1). }
  specialize (He2 Hpost1).
  pose proof (permits_take_rx full _ _ Hpm1) as Hpm2. rewrite Etk in Hpm2. simpl in Hpm2.
  pose proof (evolves_take_rx _ _ _ _ (ev_wf _ _ _ _ Ev1) Etk) as Ev2.
  destruct rx as [rx|]; injection Hs as <- <-.
  2: { eapply winv_handle_step; [exact Hw|exact Hid|done|done|done| | |].
       - simpl. by rewrite F2, He2.
       - simpl. by rewrite He2.
       - simpl. rewrite F2, F5. apply (wi_fresh _ _ Hw). }
  assert (w_handles w1 !! w_next_handle w1 = None) as Hfresh.
  { rewrite F2, F5. destruct (w_handles w !! w_next_handle w) eqn:E; [|done].
    assert (w_next_handle w < w_next_handle w)%N by (apply (wi_fresh _ _ Hw); eauto). lia. }
  eapply winv_handle_step; [exact Hw|exact Hid|done|done|done| | |]; simpl.
  - eapply elements_perm; [|exact He2]. rewrite handle_paths_insert by done. rewrite F2.
    unfold handle_path; simpl. by destruct full.
  - destruct rx as [c|]; simpl in Ev2 |- *.
    + by eapply chan_inv_out.
    + apply chan_inv_new_handle; [done|done|].
      eapply chan_inv_evolves; [exact Ev2|done| |exact Hc1]. by intros Hb.
  - intros id'. rewrite lookup_insert_is_Some'. rewrite F2, F5.
    intros [<-|?%(wi_fresh _ _ Hw)]; lia.
Qed.

Lemma winv_take_reader tr w id r w' :
  winv tr w → Incoming_take_reader id w = Some (r, w') → winv (tr ++ [EvTau]) w'.
Proof.
  intros Hw Hs. unfold Incoming_take_reader in Hs.
  destruct (w_handles w !! id) as [h|] eqn:Hid; simpl in Hs; [|done].
  destruct (in_rx h) as [[c k]|] eqn:Hrx.
  2: { injection Hs as <- <-. destruct Hw. split; try done. by apply chan_inv_tau. }
  assert (w_handles w !! w_next_handle w = None) as Hfresh.
  { destruct (w_handles w !! w_next_handle w) eqn:E; [|done].
    assert (w_next_handle w < w_next_handle w)%N by (apply (wi_fresh _ _ Hw); eauto). lia. }
  assert (id ≠ w_next_handle w) as Hne by congruence.
  set (st1 := match in_path h with [] => w_index w | _ => retain (in_path h) (w_index w) end).
  assert (w' = mkWorld st1 (w_err w) (w_failed w) (w_done w)
    (<[w_next_handle w := mkIncoming (Some (c, k)) true (in_path h)]>
       (<[id := mkIncoming None (in_subscribed h) (in_path h)]> (w_handles w)))
    (w_next_handle w + 1) (w_finished w) (w_depth w) (w_rx w) (w_task w)) as ->.
  { unfold st1. by destruct (in_path h); injection Hs as <- <-. }
  assert (evolves None false (w_index w) st1) as Ev.
  { unfold st1. pose proof (ci_wf _ _ _ _ _ (wi_chans _ _ Hw)) as Hwf.
    destruct (in_path h); [by apply evolves_refl|by apply evolves_retain]. }
  eapply winv_handle_step; [exact Hw|exact Hid|done|done| | | |]; simpl.
  - unfold st1. pose proof (wi_permits _ _ Hw) as Hp.
    destruct (in_path h); [done|by apply permits_retain].
  - eapply elements_perm; [symmetry; apply handle_paths_insert; by rewrite lookup_insert_ne|].
    eapply elements_perm; [apply Permutation_app_head; symmetry; by apply (handle_paths_update _ _ h)|].
    unfold handle_path, st1. simpl. pose proof (wi_elements _ _ Hw) as He.
    destruct (in_path h) as [|x q] eqn:Ep; [done|]. apply elements_retain; [|done].
    rewrite <- Ep. apply elem_of_handle_paths with id; [done|]. by rewrite Ep.
  - apply chan_inv_tau, chan_inv_take_reader; [done| |].
    + by exists h.
    + eapply chan_inv_evolves; [exact Ev|done| |apply (wi_chans _ _ Hw)]. by intros Hb.
  - intros id'. rewrite !lookup_insert_is_Some'.
    intros [<-|[<-|?%(wi_fresh _ _ Hw)]]; [lia| |lia].
    assert (id < w_next_handle w)%N by (apply (wi_fresh _ _ Hw); eauto). lia.
Qed.

(** A handle keeps its path and its place. *)
Lemma winv_update_handle tr tr' w w' id h h' :
  winv tr w → w_handles w !! id = Some h → w_handles w' = <[id := h']> (w_handles w) →
  in_path h' = in_path h →
  w_task w' = w_task w → w_done w' = w_done w → w_next_handle w' = w_next_handle w →
  view (w_index w') = view (w_index w) → s_next (w_index w') = s_next (w_index w) →
  s_patterns (w_index w') = s_patterns (w_index w) →
  permits_inv false (w_index w') →
  chan_inv tr' (w_index w') (<[id := h']> (w_handles w)) (busy_of w) (bad_of w') → winv tr' w'.
Proof.
  intros Hw Hid Hh Hp Ht Hd Hn Hv Hnx Hps Hpm Hc.
  eapply winv_handle_step; [exact Hw|exact Hid|done|done|done| | |]; rewrite ?Hh.
  - eapply elements_same; [done..|]. eapply elements_perm; [|apply (wi_elements _ _ Hw)].
    symmetry. by apply (handle_paths_update _ _ h).
  - by rewrite (busy_task w w' Ht).
  - intros id'. rewrite Hn, lookup_insert_is_Some'.
    intros [<-|?%(wi_fresh _ _ Hw)]; [|done]. apply (wi_fresh _ _ Hw). eauto.
Qed.

Lemma holds_update hs id h c k s p id' p' c' k' :
  hs !! id = Some h →
  holds (<[id := mkIncoming (Some (c, k)) s p]> hs) id' p' c' k' ↔
  id' = id ∧ p' = p ∧ c' = c ∧ k' = k ∨ id' ≠ id ∧ holds hs id' p' c' k'.
Proof. intros Hid. rewrite holds_insert. simpl. naive_solver. Qed.

Lemma winv_trace tr tr' w :
  (∀ st hs busy bad, chan_inv tr st hs busy bad → chan_inv tr' st hs busy bad) →
  winv tr w → winv tr' w.
Proof. intros Htr [H1 H2 H3 H4 H5 H6 H7]. split; auto. Qed.

Lemma chan_inv_read_nil tr st hs busy bad id p c k :
  holds hs id p c k → chan_inv tr st hs busy bad → chan_inv (tr ++ [EvRead p c []]) st hs busy bad.
Proof.
  intros Hh Hi. destruct (ci_handle _ _ _ _ _ Hi _ _ _ _ Hh) as ([queue Hq] & _ & _).
  eapply chan_inv_read; [exact Hh|done|exact Hq|by rewrite insert_id|done|done| |done].
  intros id2 p2 c2 k2. split.
  - intros Hx. destruct (decide (id2 = id)) as [->|]; [left|by right].
    destruct Hx as (? & ? & ? & ?), Hh as (? & ? & ? & ?). by simplify_eq.
  - intros [(-> & -> & -> & ->)|[_ ?]]; done.
Qed.

(** The receiver reached its end: it is dropped. *)
Lemma winv_reader_end tr w w' id h c :
  winv tr w → w_handles w !! id = Some h → in_rx h = Some (c, []) →
  (∀ b q, s_chans (w_index w) !! c ≠ Some (b :: q)) →
  w' = set_index (set_chans (delete c (s_chans (w_index w))) (w_index w))
         (set_handle id (mkIncoming None (in_subscribed h) (in_path h)) w) →
  winv tr w'.
Proof.
  intros Hw Hid Hrx Hq ->.
  eapply winv_update_handle; [exact Hw|exact Hid|..]; try done; [apply (wi_permits _ _ Hw)|].
  eapply (chan_inv_drop _ (w_index w)); [by exists h|done|done| |by intros Hb|done| |apply (wi_chans _ _ Hw)].
  - intros id' p' c' k'. rewrite holds_insert; simpl. naive_solver.
  - intros (b & q & Hx). by destruct (Hq b q).
Qed.

Lemma winv_poll_read tr w id n h c chunk data w' :
  winv tr w → w_handles w !! id = Some h → in_rx h = Some (c, chunk) →
  Incoming_poll_read id n w = Some (Ready (Ok data), w') →
  winv (tr ++ [EvRead (in_path h) c data]) w'.
Proof.
  intros Hw Hid Hrx Hs. unfold Incoming_poll_read in Hs. rewrite Hid in Hs. simpl in Hs.
  assert (holds (w_handles w) id (in_path h) c chunk) as Hh by (by exists h).
  assert (∃ queue, s_chans (w_index w) !! c = Some queue) as [queue Hq].
  { by apply (ci_handle _ _ _ _ _ (wi_chans _ _ Hw)) in Hh as ([? ?] & _); eauto. }
  assert (winv (tr ++ [EvRead (in_path h) c []]) w) as Hw0.
  { destruct Hw as [W1 W2 W3 W4 W5 W6 W7]. split; try done. by eapply chan_inv_read_nil. }
  destruct n as [|n]; [by injection Hs as <- <-|]. rewrite Hrx in Hs. destruct chunk as [|b chunk].
  - rewrite Hq in Hs. destruct queue as [|chunk queue].
    + destruct (tx_alive w c); [done|].
      set (w1 := set_index _ _) in Hs.
      assert (data = [] ∧ w' = w1) as [-> ->].
      { destruct (w_err w); [destruct (is_closed (in_path h) w1)|]; by simplify_eq. }
      eapply winv_reader_end; [exact Hw0|exact Hid|exact Hrx| |done].
      intros b q. by rewrite Hq.
    + injection Hs as <- <-.
      eapply winv_update_handle; [exact Hw|exact Hid|..]; try done; [apply (wi_permits _ _ Hw)|].
      eapply (chan_inv_read _ (w_index w)) with (k' := drop (S n) chunk);
        [exact Hh|done|exact Hq|done| |simpl; lia| |apply (wi_chans _ _ Hw)].
      * change (chunk ++ concat queue = take (S n) chunk ++ drop (S n) chunk ++ concat queue).
        by rewrite (assoc (++)), take_drop.
      * intros id2 p2 c2 k2. by apply (holds_update _ _ h).
  - injection Hs as <- <-.
    eapply winv_update_handle; [exact Hw|exact Hid|..]; try done; [apply (wi_permits _ _ Hw)|].
    eapply (chan_inv_read _ (w_index w)) with (k' := drop (S n) (b :: chunk));
      [exact Hh|done|exact Hq|simpl; by rewrite insert_id| |done| |apply (wi_chans _ _ Hw)].
    + change ((b :: chunk) ++ concat queue =
        take (S n) (b :: chunk) ++ drop (S n) (b :: chunk) ++ concat queue).
      by rewrite (assoc (++)), take_drop.
    + intros id2 p2 c2 k2. by apply (holds_update _ _ h).
Qed.

Lemma winv_poll_read_other tr w id n h r w' :
  winv tr w → w_handles w !! id = Some h → (in_rx h = None ∨ ∀ data, r ≠ Ready (Ok data)) →
  Incoming_poll_read id n w = Some (r, w') → winv (tr ++ [EvTau]) w'.
Proof.
  intros Hw Hid Hor Hs. apply (winv_trace _ _ _ (chan_inv_tau tr)) in Hw.
  unfold Incoming_poll_read in Hs. rewrite Hid in Hs. simpl in Hs.
  destruct n as [|n]; [by injection Hs as <- <-|].
  destruct (in_rx h) as [[c [|b chunk]]|] eqn:Hrx.
  - destruct Hor as [?|Hr]; [done|].
    destruct (s_chans (w_index w) !! c) as [[|chunk queue]|] eqn:Hq.
    + destruct (tx_alive w c); [by injection Hs as <- <-|].
      set (w1 := set_index _ _) in Hs.
      assert (w' = w1) as ->.
      { destruct (w_err w); [destruct (is_closed (in_path h) w1)|]; by simplify_eq. }
      eapply winv_reader_end; [exact Hw|exact Hid|exact Hrx| |done]. intros b q. by rewrite Hq.
    + injection Hs as <- <-. by destruct (Hr (take (S n) chunk)).
    + destruct (tx_alive w c); [by injection Hs as <- <-|].
      set (w1 := set_index _ _) in Hs.
      assert (w' = w1) as ->.
      { destruct (w_err w); [destruct (is_closed (in_path h) w1)|]; by simplify_eq. }
      eapply winv_reader_end; [exact Hw|exact Hid|exact Hrx| |done]. intros b q. by rewrite Hq.
  - injection Hs as <- <-. destruct Hor as [?|Hr]; [done|]. by destruct (Hr (take (S n) (b :: chunk))).
  - by destruct (in_subscribed h); injection Hs as <- <-.
Qed.

Lemma winv_fail tr w id h b :
  winv tr w → w_handles w !! id = Some h → winv tr (fail_if b w).
Proof.
  intros Hw Hid. destruct (fail_if_fields b w) as (F1 & F2 & F3 & F4 & F5 & F6).
  eapply winv_handle_step; [exact Hw|exact Hid|done|done|..]; rewrite ?F1, ?F2, ?F5.
  - apply (wi_permits _ _ Hw).
  - apply (wi_elements _ _ Hw).
  - rewrite (busy_task w _ F3). eapply chan_inv_bad; [|apply (wi_chans _ _ Hw)].
    apply bad_fail_if_mono.
  - apply (wi_fresh _ _ Hw).
Qed.

Lemma winv_drop tr w id w' :
  winv tr w → Incoming_drop id w = Some w' → winv (tr ++ [EvTau]) w'.
Proof.
  intros Hw Hs. apply (winv_trace _ _ _ (chan_inv_tau tr)) in Hw.
  unfold Incoming_drop in Hs. destruct (w_handles w !! id) as [h|] eqn:Hid; simpl in Hs; [|done].
  set (w1 := set_handles (delete id (w_handles w)) w) in *.
  set (w2 := match in_rx h with Some _ => _ | None => _ end) in Hs.
  assert (w_index w2 = match in_rx h with
    | Some (c, _) => set_chans (delete c (s_chans (w_index w))) (w_index w)
    | None => w_index w end ∧
    w_handles w2 = delete id (w_handles w) ∧ w_task w2 = w_task w ∧ w_done w2 = w_done w ∧
    w_next_handle w2 = w_next_handle w ∧ (bad_of w → bad_of w2)) as (E1 & E2 & E3 & E4 & E5 & E6).
  { unfold w2. destruct (in_rx h) as [[c k]|]; [|done].
    match goal with |- context [fail_if ?b ?x] =>
      destruct (fail_if_fields b x) as (F1 & F2 & F3 & F4 & F5 & F6);
      pose proof (bad_fail_if_mono b x) end.
    rewrite F1, F2, F3, F4, F5. by split_and!. }
  assert (chan_inv (tr ++ [EvTau]) (w_index w2) (w_handles w2) (busy_of w2) (bad_of w2)) as Hc2.
  { rewrite (busy_task w w2 E3), E1, E2. destruct (in_rx h) as [[c k]|] eqn:Hrx.
    - eapply (chan_inv_drop _ (w_index w)); [by exists h|done|done| |done| | |apply (wi_chans _ _ Hw)].
      + intros. apply holds_delete.
      + intros Hk. unfold w2. apply bad_fail_if. by rewrite bool_decide_false.
      + intros Hd. unfold w2. apply bad_fail_if. apply chan_holds_data_spec in Hd.
        apply orb_true_iff. right. exact Hd.
    - eapply chan_inv_bad; [exact E6|]. eapply chan_inv_handles; [| |apply (wi_chans _ _ Hw)].
      + intros p c k. setoid_rewrite holds_delete. split; [naive_solver|].
        intros (id' & Hx). exists id'. split; [|done]. intros ->.
        destruct Hx as (? & ? & ? & _). congruence.
      + intros ??????? [_ ?]%holds_delete [_ ?]%holds_delete. by eapply ci_unique; [apply (wi_chans _ _ Hw)|..]. }
  assert (permits_inv false (w_index w2)) as Hp2.
  { rewrite E1. pose proof (wi_permits _ _ Hw). by destruct (in_rx h) as [[? ?]|]. }
  assert (elements_ok (handle_paths (w_handles w)) (w_index w2)) as He2.
  { eapply elements_same; [| | |apply (wi_elements _ _ Hw)]; rewrite E1;
      by destruct (in_rx h) as [[? ?]|]. }
  apply (elements_perm _ _ _ (handle_paths_delete _ _ _ Hid)) in He2.
  assert (∀ id', is_Some (delete id (w_handles w) !! id') → (id' < w_next_handle w)%N) as Hf2.
  { intros id'. rewrite lookup_delete_is_Some. intros [_ ?]. by apply (wi_fresh _ _ Hw). }
  clearbody w2. unfold handle_path in He2. injection Hs as <-.
  destruct (in_path h) as [|x q] eqn:Ep.
  { eapply winv_handle_step; [exact Hw|exact Hid|done|done|done|by rewrite E2|done|].
    by rewrite E2, E5. }
  destruct (release (x :: q) (w_index w2)) as [pending st] eqn:Er.
  pose proof (evolves_release _ _ _ _ (ci_wf _ _ _ _ _ Hc2) Er) as Ev.
  pose proof (permits_release (x :: q) _ _ Hp2) as Hp3.
  pose proof (elements_release _ (x :: q) _ He2) as He3. rewrite Er in Hp3, He3. simpl in Hp3, He3.
  destruct (fail_if_fields pending (set_index st w2)) as (F1 & F2 & F3 & F4 & F5 & F6).
  simpl in F1, F2, F3, F4, F5, F6.
  eapply winv_handle_step; [exact Hw|exact Hid|congruence|congruence|..]; rewrite ?F1, ?F2, ?F5; try done.
  - by rewrite E2.
  - rewrite (busy_task w2 _ F3). eapply chan_inv_evolves; [exact Ev| | |exact Hc2].
    + intros. by apply bad_fail_if.
    + intros ?. by apply bad_fail_if_mono.
  - by rewrite E2, E5.
Qed.

(** *** The steps of the task *)

(** What holds while the task runs, whatever ingress is about to do. *)
Record wrun (tr : list event) (d : bool) (busy : option (list N * N)) (w : World) : Prop := {
  wr_permits : permits_inv false (w_index w);
  wr_elements : elements_ok (handle_paths (w_handles w)) (w_index w);
  wr_chans : chan_inv tr (w_index w) (w_handles w) busy (bad_of w);
  wr_fresh id : is_Some (w_handles w !! id) → (id < w_next_handle w)%N;
  wr_done : w_done w = None;
  wr_drain : d = true → w_handles w = ∅ ∧ w_err w = None
}.

Lemma wrun_winv tr w i d : winv tr w → w_task w = TIngress i d → wrun tr d (busy_of w) w.
Proof.
  intros Hw Ht. destruct Hw as [W1 W2 W3 W4 W5 W6 W7]. split; try done.
  - destruct (w_done w) as [r|]; [|done]. specialize (W5 r eq_refl). congruence.
  - intros ->. by apply (W6 i).
Qed.

Lemma winv_continue tr w i d busy :
  wrun tr d busy w →
  busy = match i with IData p c _ => Some (p, c) | _ => None end →
  winv tr (set_task (TIngress i d) w).
Proof.
  intros [H1 H2 H3 H4 H5 H6] ->. split; simpl; try done.
  - intros r. by rewrite H5.
  - intros i' [= <- ->]. by apply H6.
  - by rewrite H5.
Qed.

Lemma winv_io_complete tr w d busy res : wrun tr d busy w → winv tr (io_complete res d w).
Proof.
  intros [H1 H2 H3 H4 H5 H6]. unfold io_complete.
  set (w1 := match res with Ok _ => w | Err e => err_set e w end).
  assert (w_index w1 = w_index w ∧ w_handles w1 = w_handles w ∧ w_next_handle w1 = w_next_handle w ∧
          w_done w1 = None ∧ (bad_of w → bad_of w1) ∧ (res = Ok tt → w_err w1 = w_err w))
    as (E1 & E2 & E3 & E4 & E5 & E6).
  { unfold w1. destruct res as [[]|e]; [done|]. unfold err_set, bad_of.
    destruct (w_err w) eqn:Ee; simpl; rewrite ?Ee; split_and!; try done; eauto. }
  assert (∀ bad' : Prop, (bad_of w1 → bad') →
    chan_inv tr (close_tx (w_index w1)) (w_handles w1) None bad') as Hc.
  { intros bad' Hb. rewrite E1, E2. eapply chan_inv_evolves with (bad := bad_of w);
      [apply evolves_close_tx; by eapply ci_wf|done|auto|by eapply chan_inv_idle]. }
  assert (∀ r, (r = Ok tt → res = Ok tt ∧ d = true) →
    winv tr (complete r (set_index (close_tx (w_index w1)) w1))) as Hend.
  { intros r Hr. split; simpl.
    - rewrite E1. by apply permits_close_tx.
    - rewrite E1, E2. by apply elements_close_tx.
    - unfold busy_of; simpl. apply Hc. intros [?|[e ?]]; [by left|]. by rewrite E4 in *.
    - by rewrite E2, E3.
    - done.
    - done.
    - intros [= ->]. destruct Hr as [-> ->]; [done|]. rewrite E2, E6 by done. by apply H6. }
  clearbody w1. destruct d; [by apply Hend; intros ->|].
  destruct res as [[]|e]; [|by apply Hend].
  split; simpl; try done.
  - rewrite E1. by apply permits_close_tx.
  - rewrite E1, E2. by apply elements_close_tx.
  - unfold busy_of; simpl. apply Hc. intros [?|[e ?]]; [by left|by right; exists e].
  - by rewrite E2, E3.
  - by rewrite E4.
  - by rewrite E4.
Qed.

Lemma permits_return st : permits_inv true st → permits_inv false (set_permits (S (s_permits st)) st).
Proof. unfold permits_inv. rewrite !unclaimed_pc. simpl. lia. Qed.

Lemma dispatch_spec hs path n held st ev p st' :
  dispatch path n held st = (ev, p, st') → chan_wf st → permits_inv held st → elements_ok hs st →
  evolves None false st st' ∧ permits_inv false st' ∧ elements_ok hs st' ∧
  (ev = EvTau ∨ ev = EvClose path) ∧
  (∀ q c m, p = Continue (IData q c m) → q = path ∧ m = n ∧ n ≠ 0%N ∧ tx_at st' path c).
Proof.
  unfold dispatch. destruct (route path held st) as [[r held'] st1] eqn:Er. intros Hd Hwf Hp He.
  pose proof (evolves_route _ _ _ _ _ _ Hwf Er) as Ev.
  pose proof (permits_route _ _ _ _ _ _ Er Hp) as Hp1.
  pose proof (elements_route _ _ _ _ _ _ _ Er He) as He1.
  set (st2 := if held' then set_permits (S (s_permits st1)) st1 else st1) in Hd.
  assert (evolves None false st st2 ∧ permits_inv false st2 ∧ elements_ok hs st2 ∧
          (∀ q c, tx_at st1 q c → tx_at st2 q c)) as (Ev2 & Hp2 & He2 & Ht2).
  { unfold st2. destruct held'; [|done]. split_and!.
    - eapply (evolves_trans _ false false); [exact Ev| |done].
      apply evolves_fields; try done. by eapply ev_wf.
    - by apply permits_return.
    - by eapply elements_same.
    - done. }
  clearbody st2. assert (chan_wf st2) as Hwf2 by (by eapply ev_wf).
  destruct r as [[tx|]| | |]; try (injection Hd as <- <- <-; split_and!; by auto).
  destruct (N.eqb_spec n 0) as [->|Hn]; injection Hd as <- <- <-.
  - split_and!; try done; [|by apply permits_close_slot|by apply elements_close_slot|by right].
    eapply (evolves_trans _ false false); [exact Ev2|by apply evolves_close_slot|done].
  - split_and!; try done; [by left|]. intros q c m [= <- <- <-]. split_and!; try done.
    apply Ht2. by eapply route_tx_at.
Qed.

Lemma chan_inv_quiet tr st hs busy bad ev path :
  ev = EvTau ∨ ev = EvClose path → chan_inv tr st hs busy bad →
  chan_inv (tr ++ [ev]) st hs busy bad.
Proof. intros [->| ->]; [apply chan_inv_tau|apply chan_inv_close]. Qed.

Lemma winv_dispatch tr w d busy st0 held path n ev p st' rx :
  wrun tr d busy w → chan_wf st0 → evolves None false (w_index w) st0 →
  permits_inv held st0 → elements_ok (handle_paths (w_handles w)) st0 →
  dispatch path n held st0 = (ev, p, st') →
  winv (tr ++ [ev]) (advance p d (set_rx rx (set_index st' w))).
Proof.
  intros Hr Hwf Ev0 Hp He Hd. pose proof Hr as [H1 H2 H3 H4 H5 H6].
  destruct (dispatch_spec _ _ _ _ _ _ _ _ Hd Hwf Hp He) as (Ev & Hp' & He' & Hev & Hdata).
  assert (chan_inv (tr ++ [ev]) st' (w_handles w) None (bad_of w)) as Hc.
  { eapply chan_inv_quiet; [exact Hev|]. eapply chan_inv_idle.
    eapply (chan_inv_evolves _ st0); [exact Ev|done|by intros Hb|].
    by eapply chan_inv_evolves; [exact Ev0|done|by intros Hb|]. }
  assert (∀ busy', chan_inv (tr ++ [ev]) st' (w_handles w) busy' (bad_of w) →
    wrun (tr ++ [ev]) d busy' (set_rx rx (set_index st' w))) as Hrun.
  { intros busy' Hb. by split. }
  destruct p as [i|res]; simpl.
  - eapply winv_continue; [|done]. apply Hrun.
    destruct i as [|q m|q c m]; [done|done|]. destruct (Hdata q c m eq_refl) as (-> & _ & _ & Ht).
    by eapply chan_inv_busy.
  - eapply winv_io_complete. by apply Hrun.
Qed.

Lemma winv_forward cap tr w d path tx n ev p rx st :
  winv tr w → w_task w = TIngress (IData path tx n) d →
  forward cap path tx n (w_rx w) (w_index w) = Some (ev, p, rx, st) →
  winv (tr ++ [ev]) (advance p d (set_rx rx (set_index st w))).
Proof.
  intros Hw Ht. pose proof (wrun_winv _ _ _ _ Hw Ht) as Hr. unfold busy_of in Hr. rewrite Ht in Hr.
  pose proof Hr as [H1 H2 H3 H4 H5 H6]. unfold forward.
  assert (wrun (tr ++ [EvTau]) d (Some (path, tx)) w) as Hr'.
  { split; try done. by apply chan_inv_tau. }
  destruct (_ <? _).
  { intros [= <- <- <- <-]. simpl. eapply winv_io_complete. split; try done; apply Hr'. }
  destruct (s_chans (w_index w) !! tx) as [queue|] eqn:Hq.
  2: { intros [= <- <- <- <-]. simpl. eapply winv_io_complete. split; try done; apply Hr'. }
  destruct (Nat.ltb_spec (length queue) MAX_BUFFERED_CHUNKS); [|done].
  set (k := N.to_nat (N.min n cap)).
  intros [= <- <- <- <-]. simpl.
  assert (∀ busy, busy = Some (path, tx) ∨ busy = None →
    chan_inv (tr ++ [EvRecv path tx (take k (w_rx w))])
      (set_chans (<[tx := queue ++ [take k (w_rx w)]]> (s_chans (w_index w))) (w_index w))
      (w_handles w) busy (bad_of w)) as Hc.
  { intros busy. by apply (chan_inv_recv _ (w_index w) _ _ _ _ path tx queue). }
  destruct (_ =? _)%N.
  - eapply (winv_continue _ _ _ _ None); [|done]. split; try done. apply Hc. by right.
  - eapply (winv_continue _ _ _ _ (Some (path, tx))); [|done]. split; try done. apply Hc. by left.
Qed.

(** All handles are dropped: the receivers which are left are closed. *)
Lemma close_rx_spec tr w r w' :
  winv tr w → w_done w = None → w_handles w = ∅ → state_close_rx w = (r, w') →
  w' = set_index (close_rx (w_index w)).2 w ∧
  chan_inv tr (w_index w') ∅ (busy_of w) (bad_of w ∨ ∃ e, r = Err e) ∧
  (∀ c, s_chans (w_index w') !! c = None) ∧ (r = Ok tt → w_err w = None).
Proof.
  intros Hw Hd Hh. unfold state_close_rx.
  destruct (close_rx (w_index w)) as [pending st] eqn:E. intros [= <- <-]. simpl.
  pose proof (wi_chans _ _ Hw) as Hc.
  destruct (evolves_close_rx _ _ _ (ci_wf _ _ _ _ _ Hc) E) as (Ev & Hrx & _).
  assert (chan_inv tr st ∅ (busy_of w) (bad_of w ∨
     ∃ e, (if pending then Err error_unprocessed
           else match w_err w with Some e => Err e | None => Ok () end) = Err e)) as Hc'.
  { rewrite <- Hh. eapply chan_inv_evolves; [exact Ev| |by left|exact Hc].
    intros ->. right. by eexists. }
  split_and!; [done|done| |].
  - intros c. destruct (s_chans st !! c) as [queue|] eqn:Eq; [|done].
    destruct (ci_ledger _ _ _ _ _ Hc' c queue Eq) as (k & _ & [[_ [p Hp]]|(id & p & h & Hx & _)]).
    + by apply Hrx in Hp.
    + by rewrite lookup_empty in Hx.
  - destruct pending; [done|]. by destruct (w_err w).
Qed.

Lemma winv_complete_close_rx tr w r w' :
  winv tr w → w_done w = None → w_handles w = ∅ → state_close_rx w = (r, w') →
  winv tr (complete r w').
Proof.
  intros Hw Hd Hh Hs. destruct (close_rx_spec _ _ _ _ Hw Hd Hh Hs) as (-> & Hc & _ & He).
  split; simpl; try done.
  - apply permits_close_rx, (wi_permits _ _ Hw).
  - apply elements_close_rx, (wi_elements _ _ Hw).
  - rewrite Hh. unfold busy_of; simpl. eapply chan_inv_bad; [|eapply chan_inv_idle; exact Hc].
    unfold bad_of. rewrite Hd. intros [[?|[? ?]]|[e ->]]; [by left|done|]. right. by exists e.
  - apply (wi_fresh _ _ Hw).
  - intros [= ->]. auto.
Qed.

Section steps.
Context `{Leb128} (cap : N).

Lemma winv_task_step tr w ev w' : winv tr w → task_step cap w ev w' → winv (tr ++ [ev]) w'.
Proof.
  intros Hw Hs. destruct Hs as
    [w d path n rx ev p st Ht _ Hd|w d Ht _|w d e Ht _|w d path n ev p st Ht Ha Hd|w d path n Ht _
    |w d path n ev p st Ht _ Hd|w d path tx n ev p rx st Ht Hf|w i d Ht _|w i r w' Ht Hh Hs
    |w r w' Ht Hh Hs|w Ht Hh _].
  - pose proof (wrun_winv _ _ _ _ Hw Ht) as Hr. pose proof (ci_wf _ _ _ _ _ (wi_chans _ _ Hw)) as Hwf.
    eapply winv_dispatch; [exact Hr|done| | | |exact Hd];
      [by apply evolves_refl|apply (wi_permits _ _ Hw)|apply (wi_elements _ _ Hw)].
  - eapply winv_trace; [apply chan_inv_tau|]. eapply winv_io_complete. by eapply wrun_winv.
  - eapply winv_trace; [apply chan_inv_tau|]. eapply winv_io_complete. by eapply wrun_winv.
  - pose proof (wrun_winv _ _ _ _ Hw Ht) as Hr. pose proof (ci_wf _ _ _ _ _ (wi_chans _ _ Hw)) as Hwf.
    replace (set_index st w) with (set_rx (w_rx w) (set_index st w)) by done.
    assert (evolves None false (w_index w) (acquire (w_index w))) as Ev by (by apply evolves_fields).
    eapply winv_dispatch; [exact Hr| |exact Ev| | |exact Hd].
    + by eapply ev_wf.
    + pose proof (wi_permits _ _ Hw) as Hp. unfold can_acquire in Ha.
      apply andb_prop in Ha as [_ Ha]. apply Nat.ltb_lt in Ha.
      unfold permits_inv in *. rewrite !unclaimed_pc in *. simpl in *. lia.
    + by eapply elements_same; [..|apply (wi_elements _ _ Hw)].
  - eapply winv_trace; [apply chan_inv_tau|]. eapply winv_io_complete. by eapply wrun_winv.
  - pose proof (wrun_winv _ _ _ _ Hw Ht) as Hr. pose proof (ci_wf _ _ _ _ _ (wi_chans _ _ Hw)) as Hwf.
    replace (set_index st w) with (set_rx (w_rx w) (set_index st w)) by done.
    assert (evolves None false (w_index w) (set_indexed false (w_index w))) as Ev
      by (by apply evolves_fields).
    eapply winv_dispatch; [exact Hr| |exact Ev| | |exact Hd].
    + by eapply ev_wf.
    + apply (wi_permits _ _ Hw).
    + by eapply elements_same; [..|apply (wi_elements _ _ Hw)].
  - by eapply winv_forward.
  - eapply winv_trace; [apply chan_inv_tau|]. eapply winv_io_complete.
    pose proof (wrun_winv _ _ _ _ Hw Ht) as [H1 H2 H3 H4 H5 H6]. by split.
  - eapply winv_trace; [apply chan_inv_tau|].
    assert (w_done w = None) as Hdone by (by eapply wr_done, wrun_winv).
    destruct r as [[]|e]; [|by eapply winv_complete_close_rx].
    destruct (close_rx_spec _ _ _ _ Hw Hdone Hh Hs) as (-> & Hc & _ & He).
    eapply winv_continue; [|done].
    pose proof (wrun_winv _ _ _ _ Hw Ht) as [H1 H2 H3 H4 H5 H6]. split; simpl.
    + by apply permits_close_rx.
    + by apply elements_close_rx.
    + rewrite Hh. unfold busy_of in Hc. rewrite Ht in Hc.
      eapply chan_inv_bad; [|exact Hc]. intros [?|[e ?]]; [done|done].
    + done.
    + done.
    + auto.
  - eapply winv_trace; [apply chan_inv_tau|].
    assert (w_done w = None) as Hdone.
    { destruct (w_done w) as [r'|] eqn:E; [|done]. apply (wi_done _ _ Hw) in E. congruence. }
    by eapply winv_complete_close_rx.
  - eapply winv_trace; [apply chan_inv_tau|].
    destruct Hw as [W1 W2 W3 W4 W5 W6 W7]. split; simpl; try done. by eapply chan_inv_idle.
Qed.

Lemma winv_step tr w ev w' : winv tr w → step cap w ev w' → winv (tr ++ [ev]) w'.
Proof.
  intros Hw Hs. destruct Hs as
    [w ev w' Hs|w id path r w' Hs|w id r w' Hs|w id n h c chunk data w' Hh Hr Hs
    |w id n h r w' Hh Hr Hs|w id h Hh|w id w' Hs|w id w' Hs|w k Hk].
  - by eapply winv_task_step.
  - by eapply winv_index.
  - by eapply winv_take_reader.
  - by eapply winv_poll_read.
  - by eapply winv_poll_read_other.
  - eapply winv_trace; [apply chan_inv_tau|]. by eapply (winv_fail _ _ _ _ true).
  - by eapply winv_drop.
  - eapply winv_trace; [apply chan_inv_tau|]. unfold Incoming_finished in Hs.
    destruct (w_handles w !! id) eqn:E; simpl in Hs; [|done]. injection Hs as <-.
    destruct Hw as [W1 W2 W3 W4 W5 W6 W7]. by split.
  - eapply winv_trace; [apply chan_inv_tau|]. destruct Hw as [W1 W2 W3 W4 W5 W6 W7]. by split.
Qed.

Lemma winv_reachable paths rx tr w :
  compatible paths → reachable cap paths rx tr w → winv tr w.
Proof.
  intros Hc Hr. unfold reachable in Hr. remember (Incoming_new paths rx) as w0 eqn:E.
  induction Hr as [w0|w0 tr w2 ev w3 _ IH Hs]; subst; [by apply winv_init|].
  eapply winv_step; [by apply IH|done].
Qed.

End steps.
