(* ===== verification/Delivery.v ===== *)
(** * Delivery of the frames of a connection

    What the receiving side of a connection ([Conn]) guarantees to the reader
    of its handles and to the holder of [Incoming::finished]:
    the data of the frames on the wire is received for their paths, in order
    and completely if ingress succeeds; the data received is read in order by
    the handle which holds the receiver; ingress succeeds only if all the data
    received while there were handles was read. *)

From S2P Require Import Prelude Wire FrameCodec Subscriptions Resolve SubsInv Elements Conn ConnInv.

(** ** Frames on the wire *)

Definition stream `{Leb128} (fs : list Frame) : bytes := concat (frame_bytes <$> fs).

(** The data of the frames for the path [p]. *)
Definition data_on (p : list N) (fs : list Frame) : bytes :=
  concat (f_data <$> filter (λ f, f_path f = p) fs).

Definition ev_recv_on (p : list N) (ev : event) : bytes :=
  match ev with EvRecv q _ data => if decide (q = p) then data else [] | _ => [] end.

(** The data received for the path [p]. *)
Definition received_on (p : list N) (tr : list event) : bytes := concat (ev_recv_on p <$> tr).

Lemma received_on_snoc p tr ev : received_on p (tr ++ [ev]) = received_on p tr ++ ev_recv_on p ev.
Proof. unfold received_on. rewrite fmap_app, concat_app; simpl. by rewrite app_nil_r. Qed.

Lemma data_on_app p fs1 fs2 : data_on p (fs1 ++ fs2) = data_on p fs1 ++ data_on p fs2.
Proof. unfold data_on. by rewrite filter_app, fmap_app, concat_app. Qed.

Lemma data_on_singleton p f : data_on p [f] = if decide (f_path f = p) then f_data f else [].
Proof. unfold data_on. rewrite filter_cons. destruct (decide _); simpl; by rewrite ?app_nil_r. Qed.

Section wire.
Context `{Leb128Laws} (cap : N) (Hcap : (0 < cap)%N).

Lemma read_path_bytes depth i path acc rest :
  Forall (λ p, p ≤ u32_MAX)%N path →
  read_path depth i (length path) acc (concat (leb_encode <$> path) ++ rest) =
  Ok (acc ++ take (depth - i) path, rest).
Proof.
  revert i acc. induction path as [|p path IH]; intros i acc Hp; simpl.
  { by rewrite take_nil, app_nil_r. }
  inversion Hp; subst. rewrite <- (assoc (++)), leb_read_u32_encode by done. simpl.
  rewrite IH by done. destruct (Nat.ltb_spec i depth).
  - replace (depth - i) with (S (depth - S i)) by lia. simpl. by rewrite <- (assoc (++)).
  - replace (depth - i) with 0 by lia. replace (depth - S i) with 0 by lia. done.
Qed.

Lemma read_frame_bytes depth f rest :
  frame_fits f →
  read_frame depth (frame_bytes f ++ rest) =
  if depth <? length (f_path f) then Err NotFound
  else Ok (Some (f_path f, len (f_data f), f_data f ++ rest)).
Proof.
  intros (Hl & Hp & Hd). unfold read_frame, frame_bytes, path_bytes.
  destruct (leb_encode (len (f_path f))) as [|b bs] eqn:E.
  { by apply leb_encode_nonempty in E. }
  cbn [app read_u8]. rewrite <- !(assoc (++)).
  change (b :: bs ++ ?x) with ((b :: bs) ++ x). rewrite <- E, leb_read_u32_encode by done. simpl.
  replace (N.to_nat (len (f_path f))) with (length (f_path f)) by (unfold len; lia).
  rewrite read_path_bytes by done. simpl. rewrite leb_read_u32_encode by done. simpl.
  destruct (Nat.ltb_spec depth (length (f_path f))); [done|].
  by rewrite Nat.sub_0_r, take_ge by lia.
Qed.

Lemma read_frame_nil depth : read_frame depth [] = Ok None.
Proof. done. Qed.

(** The frames which were received, and what is left of them in the reader. *)
Definition wire_inv (fs : list Frame) (tr : list event) (w : World) : Prop :=
  ∃ fs1 fs2, fs = fs1 ++ fs2 ∧
  match w_task w with
  | TIngress IFrame _ => w_rx w = stream fs2 ∧ ∀ q, received_on q tr = data_on q fs1
  | TIngress (IWait p n) _ =>
      ∃ f fs3, fs2 = f :: fs3 ∧ f_path f = p ∧ n = len (f_data f) ∧
               w_rx w = f_data f ++ stream fs3 ∧ ∀ q, received_on q tr = data_on q fs1
  | TIngress (IData p _ n) _ =>
      ∃ f fs3 sent rest, fs2 = f :: fs3 ∧ f_path f = p ∧ f_data f = sent ++ rest ∧
        n = len rest ∧ n ≠ 0%N ∧ w_rx w = rest ++ stream fs3 ∧
        ∀ q, received_on q tr = data_on q fs1 ++ (if decide (p = q) then sent else [])
  | TDropped => fs2 = [] ∧ ∀ q, received_on q tr = data_on q fs1
  | TEnd =>
      (∀ q, received_on q tr `prefix_of` data_on q fs) ∧
      (w_done w = Some (Ok tt) → ∀ q, received_on q tr = data_on q fs)
  end.

Lemma wire_inv_prefix fs tr w q :
  wire_inv fs tr w → received_on q tr `prefix_of` data_on q fs.
Proof.
  intros (fs1 & fs2 & -> & Ht). rewrite data_on_app.
  destruct (w_task w) as [[|p n|p c n] d| |].
  - destruct Ht as [_ ->]. by eexists.
  - destruct Ht as (f & fs3 & _ & _ & _ & _ & ->). by eexists.
  - destruct Ht as (f & fs3 & sent & rest & -> & Hp & Hd & _ & _ & _ & ->).
    change (f :: fs3) with ([f] ++ fs3). rewrite data_on_app, data_on_singleton, Hp.
    destruct (decide (p = q)).
    + exists (rest ++ data_on q fs3). by rewrite Hd, <- !(assoc (++)).
    + rewrite app_nil_r. by eexists.
  - destruct Ht as [-> ->]. by eexists.
  - destruct Ht as [Ht _]. specialize (Ht q). by rewrite data_on_app in Ht.
Qed.

(** The task is complete or failed. *)
Lemma wire_inv_end fs tr w w' :
  wire_inv fs tr w → w_task w' = TEnd → w_done w' ≠ Some (Ok tt) → wire_inv fs tr w'.
Proof.
  intros Hw Ht Hd. exists fs, []. rewrite app_nil_r. split; [done|]. rewrite Ht.
  split; [|done]. intros q. by apply (wire_inv_prefix _ _ w).
Qed.

Lemma wire_inv_io_err fs tr w e d :
  wire_inv fs tr w → wire_inv fs tr (io_complete (Err e) d w).
Proof.
  intros Hw. eapply wire_inv_end; [exact Hw| |]; unfold io_complete; by destruct d.
Qed.

Lemma wire_inv_quiet fs tr ev w :
  (∀ q, ev_recv_on q ev = []) → wire_inv fs tr w → wire_inv fs (tr ++ [ev]) w.
Proof.
  intros Hev (fs1 & fs2 & Hfs & Ht). exists fs1, fs2. split; [done|].
  assert (∀ q, received_on q (tr ++ [ev]) = received_on q tr) as Hr.
  { intros q. by rewrite received_on_snoc, Hev, app_nil_r. }
  destruct (w_task w) as [[|p n|p c n] d| |]; setoid_rewrite Hr; done.
Qed.

Lemma wire_inv_same fs tr w w' :
  w_task w' = w_task w → w_rx w' = w_rx w → w_done w' = w_done w →
  wire_inv fs tr w → wire_inv fs tr w'.
Proof. unfold wire_inv. by intros -> -> ->. Qed.

(** The frame [f] was read up to its data. *)
Lemma wire_inv_dispatch fs1 f fs3 tr w d p st st' held ev rx :
  dispatch (f_path f) (len (f_data f)) held st = (ev, p, st') →
  (∀ q, received_on q tr = data_on q fs1) → rx = f_data f ++ stream fs3 →
  wire_inv (fs1 ++ f :: fs3) tr w →
  wire_inv (fs1 ++ f :: fs3) (tr ++ [ev]) (advance p d (set_rx rx (set_index st' w))).
Proof.
  intros Hd Hr -> Hw. unfold dispatch in Hd.
  destruct (route _ _ _) as [[r held'] st1]. set (st2 := if held' then _ else _) in Hd.
  assert (∀ e, wire_inv (fs1 ++ f :: fs3) (tr ++ [EvTau]) (io_complete (Err e) d
    (set_rx (f_data f ++ stream fs3) (set_index st2 w)))) as Herr.
  { intros e. eapply wire_inv_end; [apply wire_inv_quiet; [done|exact Hw]| |];
      unfold io_complete; by destruct d. }
  destruct r as [[tx|]| | |]; try (injection Hd as <- <- <-; by apply Herr).
  - destruct (N.eqb_spec (len (f_data f)) 0) as [E|E]; injection Hd as <- <- <-.
    + exists (fs1 ++ [f]), fs3. split; [by rewrite <- (assoc (++))|]. simpl.
      apply len_0 in E. rewrite E. split; [done|]. intros q.
      rewrite received_on_snoc, Hr, data_on_app, data_on_singleton, E. simpl. by destruct (decide _).
    + exists fs1, (f :: fs3). split; [done|]. simpl. exists f, fs3, [], (f_data f).
      split_and!; try done. intros q. rewrite received_on_snoc, Hr. simpl. by destruct (decide _).
  - injection Hd as <- <- <-. exists fs1, (f :: fs3). split; [done|]. simpl. exists f, fs3.
    split_and!; try done. intros q. by rewrite received_on_snoc, Hr, app_nil_r.
Qed.

Lemma wire_inv_forward fs tr w d path tx n ev p rx st :
  wire_inv fs tr w → w_task w = TIngress (IData path tx n) d →
  forward cap path tx n (w_rx w) (w_index w) = Some (ev, p, rx, st) →
  wire_inv fs (tr ++ [ev]) (advance p d (set_rx rx (set_index st w))).
Proof.
  intros Hw Ht. pose proof Hw as (fs1 & fs2 & -> & Hi). rewrite Ht in Hi.
  destruct Hi as (f & fs3 & sent & rest & -> & Hp & Hd & -> & Hn & Hrx & Hr).
  assert (∀ e rx' st', wire_inv (fs1 ++ f :: fs3) (tr ++ [EvTau])
    (io_complete (Err e) d (set_rx rx' (set_index st' w)))) as Herr.
  { intros. eapply wire_inv_end; [apply wire_inv_quiet; [done|exact Hw]| |];
      unfold io_complete; by destruct d. }
  unfold forward. set (k := N.to_nat (N.min (len rest) cap)).
  assert (0 < k ≤ length rest) as Hk.
  { unfold k, len in *. assert (0 < length rest) by (destruct rest; simpl in *; lia). lia. }
  destruct (_ <? _); [intros [= <- <- <- <-]; apply Herr|].
  destruct (s_chans (w_index w) !! tx) as [queue|]; [|intros [= <- <- <- <-]; apply Herr].
  destruct (_ <? _); [|done]. intros [= <- <- <- <-]. rewrite Hrx.
  rewrite take_app_le, drop_app_le by lia.
  assert (∀ q, received_on q (tr ++ [EvRecv path tx (take k rest)]) =
    data_on q fs1 ++ (if decide (path = q) then sent ++ take k rest else [])) as Hr'.
  { intros q. rewrite received_on_snoc, Hr. simpl.
    destruct (decide (path = q)); by rewrite ?app_nil_r, <- ?(assoc (++)). }
  destruct (N.eqb_spec (len rest - N.of_nat k) 0) as [E|E].
  - assert (length rest = k) as Ek by (unfold len in E; lia).
    exists (fs1 ++ [f]), fs3. split; [by rewrite <- (assoc (++))|]. simpl.
    split; [by rewrite drop_ge by lia|]. intros q.
    rewrite Hr', data_on_app, data_on_singleton, Hd, Hp, take_ge by lia. by destruct (decide _).
  - exists fs1, (f :: fs3). split; [done|]. simpl.
    exists f, fs3, (sent ++ take k rest), (drop k rest). split_and!; try done.
    + by rewrite <- (assoc (++)), take_drop.
    + unfold len. rewrite length_drop. lia.
Qed.

Lemma stream_cons f fs : stream (f :: fs) = frame_bytes f ++ stream fs.
Proof. done. Qed.

Lemma wire_inv_task_step fs tr w ev w' :
  Forall frame_fits fs → wire_inv fs tr w → winv tr w → task_step cap w ev w' →
  wire_inv fs (tr ++ [ev]) w'.
Proof.
  intros Hfit Hw Hv Hs. destruct Hs as
    [w d path n rx ev p st Ht Hf Hd|w d Ht Hf|w d e Ht _|w d path n ev p st Ht Ha Hd|w d path n Ht _
    |w d path n ev p st Ht _ Hd|w d path tx n ev p rx st Ht Hf|w i d Ht _|w i r w' Ht Hh Hs
    |w r w' Ht Hh Hs|w Ht Hh _].
  - pose proof Hw as (fs1 & fs2 & -> & Hi). rewrite Ht in Hi. destruct Hi as [Hrx Hr].
    rewrite Hrx in Hf. destruct fs2 as [|f fs3]; [done|].
    apply Forall_app in Hfit as [_ Hfit]. inversion Hfit; subst.
    rewrite stream_cons, read_frame_bytes in Hf by done.
    destruct (_ <? _); [done|]. injection Hf as <- <- <-. by eapply wire_inv_dispatch.
  - apply wire_inv_quiet; [done|]. pose proof Hw as (fs1 & fs2 & -> & Hi). rewrite Ht in Hi.
    destruct Hi as [Hrx Hr]. destruct fs2 as [|f fs3].
    2: { rewrite Hrx, stream_cons in Hf. apply Forall_app in Hfit as [_ Hfit]. inversion Hfit; subst.
         rewrite read_frame_bytes in Hf by done. by destruct (_ <? _). }
    rewrite app_nil_r in *. exists fs1, []. rewrite app_nil_r. split; [done|]. unfold io_complete.
    destruct d; simpl; [|done]. split; [|done]. intros q. by rewrite Hr.
  - apply wire_inv_quiet; [done|]. by apply wire_inv_io_err.
  - pose proof Hw as (fs1 & fs2 & -> & Hi). rewrite Ht in Hi.
    destruct Hi as (f & fs3 & -> & <- & -> & Hrx & Hr).
    replace (set_index st w) with (set_rx (w_rx w) (set_index st w)) by done.
    by eapply wire_inv_dispatch.
  - apply wire_inv_quiet; [done|]. by apply wire_inv_io_err.
  - pose proof Hw as (fs1 & fs2 & -> & Hi). rewrite Ht in Hi.
    destruct Hi as (f & fs3 & -> & <- & -> & Hrx & Hr).
    replace (set_index st w) with (set_rx (w_rx w) (set_index st w)) by done.
    by eapply wire_inv_dispatch.
  - by eapply wire_inv_forward.
  - apply wire_inv_quiet; [done|]. apply wire_inv_io_err. by eapply wire_inv_same.
  - apply wire_inv_quiet; [done|]. unfold state_close_rx in Hs.
    destruct (close_rx (w_index w)) as [pending st]. injection Hs as Hr <-.
    destruct r as [[]|e]; [|by eapply wire_inv_end].
    destruct Hw as (fs1 & fs2 & -> & Hi). rewrite Ht in Hi. exists fs1, fs2. split; [done|]. by destruct i.
  - apply wire_inv_quiet; [done|]. destruct Hw as (fs1 & fs2 & -> & Hi). rewrite Ht in Hi.
    destruct Hi as [-> Hr]. rewrite app_nil_r. exists fs1, []. rewrite app_nil_r. split; [done|].
    simpl. split; [|done]. intros q. by rewrite Hr.
  - apply wire_inv_quiet; [done|]. eapply wire_inv_end; [exact Hw|done|]. simpl.
    intros Hd. by apply (wi_done _ _ Hv) in Hd.
Qed.

Lemma handle_step_task w ev w' :
  step cap w ev w' → task_step cap w ev w' ∨
  (w_task w' = w_task w ∧ w_rx w' = w_rx w ∧ w_done w' = w_done w ∧ ∀ q, ev_recv_on q ev = []).
Proof.
  intros Hs. destruct Hs as
    [w ev w' Hs|w id path r w' Hs|w id r w' Hs|w id n h c chunk data w' Hh Hr Hs
    |w id n h r w' Hh Hr Hs|w id h Hh|w id w' Hs|w id w' Hs|w k Hk]; [by left|right..].
  - unfold Incoming_index in Hs. destruct (w_handles w !! id) as [h|]; simpl in Hs; [|done].
    destruct path as [|i path]; [by injection Hs as <- <-|].
    destruct (skip _ _) as [pending st]. destruct (take_rx _ _) as [rx st'].
    assert (∀ b w0, w_task (fail_if b w0) = w_task w0 ∧ w_rx (fail_if b w0) = w_rx w0 ∧
                    w_done (fail_if b w0) = w_done w0) as Hf.
    { intros [] w0; [|done]. simpl. unfold err_set. by destruct (w_err w0). }
    destruct (Hf pending (set_index st w)) as (F1 & F2 & F3).
    destruct rx; injection Hs as <- <-; simpl; rewrite F1, F2, F3; done.
  - unfold Incoming_take_reader in Hs. destruct (w_handles w !! id) as [h|]; simpl in Hs; [|done].
    destruct (in_rx h); [|by injection Hs as <- <-].
    destruct (in_path h); by injection Hs as <- <-.
  - unfold Incoming_poll_read in Hs. rewrite Hh in Hs. simpl in Hs. rewrite Hr in Hs.
    destruct n; [by injection Hs as <- <-|]. destruct chunk as [|b chunk]; [|by injection Hs as <- <-].
    destruct (s_chans (w_index w) !! c) as [[|x q]|]; [|by injection Hs as <- <-|];
      (destruct (tx_alive w c); [done|]; destruct (w_err w);
       [destruct (is_closed _ _)|]; simplify_eq; done).
  - unfold Incoming_poll_read in Hs. rewrite Hh in Hs. simpl in Hs.
    destruct n; [by injection Hs as <- <-|].
    destruct (in_rx h) as [[c [|b chunk]]|]; [|by injection Hs as <- <-|].
    + destruct (s_chans (w_index w) !! c) as [[|x q]|]; [|by injection Hs as <- <-|];
        (destruct (tx_alive w c); [by injection Hs as <- <-|]; destruct (w_err w);
         [destruct (is_closed _ _)|]; simplify_eq; done).
    + by destruct (in_subscribed h); injection Hs as <- <-.
  - unfold fail_unprocessed, err_set. by destruct (w_err w).
  - assert (∀ b w0, w_task (fail_if b w0) = w_task w0 ∧ w_rx (fail_if b w0) = w_rx w0 ∧
                    w_done (fail_if b w0) = w_done w0) as Hf.
    { intros [] w0; [|done]. simpl. unfold err_set. by destruct (w_err w0). }
    unfold Incoming_drop in Hs. destruct (w_handles w !! id) as [h|]; simpl in Hs; [|done].
    injection Hs as <-. destruct (in_rx h) as [[c k]|], (in_path h);
      try (destruct (release _ _)); rewrite ?(proj1 (Hf _ _)), ?(proj1 (proj2 (Hf _ _))),
      ?(proj2 (proj2 (Hf _ _))); simpl; rewrite ?(proj1 (Hf _ _)), ?(proj1 (proj2 (Hf _ _))),
      ?(proj2 (proj2 (Hf _ _))); done.
  - unfold Incoming_finished in Hs. destruct (w_handles w !! id); simpl in Hs; [|done].
    by injection Hs as <-.
  - done.
Qed.

Lemma wire_inv_reachable paths fs tr w :
  Forall frame_fits fs → compatible paths → reachable cap paths (stream fs) tr w → wire_inv fs tr w.
Proof.
  intros Hfit Hc Hr. unfold reachable in Hr.
  remember (Incoming_new paths (stream fs)) as w0 eqn:E.
  induction Hr as [w0|w0 tr w2 ev w3 Hst IH Hs]; subst.
  { exists [], fs. simpl. split; [done|]. done. }
  specialize (IH eq_refl). destruct (handle_step_task _ _ _ Hs) as [Ht|(F1 & F2 & F3 & F4)].
  - eapply wire_inv_task_step; [done|done| |done]. by eapply winv_reachable.
  - apply wire_inv_quiet; [done|]. by eapply wire_inv_same.
Qed.

(** What was received of the frames, and once ingress completed *)
Lemma received_in_order paths fs tr w q :
  Forall frame_fits fs → compatible paths → reachable cap paths (stream fs) tr w →
  received_on q tr `prefix_of` data_on q fs.
Proof. intros. by eapply wire_inv_prefix, wire_inv_reachable. Qed.

Lemma received_complete paths fs tr w q :
  Forall frame_fits fs → compatible paths → reachable cap paths (stream fs) tr w →
  w_done w = Some (Ok tt) → received_on q tr = data_on q fs.
Proof.
  intros Hfit Hc Hr Hd. pose proof (wi_done _ _ (winv_reachable cap _ _ _ _ Hc Hr) _ Hd) as Ht.
  destruct (wire_inv_reachable paths fs tr w Hfit Hc Hr) as (fs1 & fs2 & -> & Hi).
  rewrite Ht in Hi. destruct Hi as [_ Hi]. by apply Hi.
Qed.

End wire.

(** ** Executions *)

(** The steps as actions which can be run. *)
Inductive action :=
  | AFrame | AAcquire | AIndexed | AForward | AFailed | ADrain | ADropped
  | AIndex (id : N) (path : list N) | ATakeReader (id : N) | ARead (id : N) (n : nat)
  | ADrop (id : N) | AFinished (id : N).

Section exec.
Context `{Leb128} (cap : N).

Definition do_action (a : action) (w : World) : option (event * World) :=
  match a with
  | AFrame =>
      match w_task w with
      | TIngress IFrame d =>
          match read_frame (w_depth w) (w_rx w) with
          | Ok (Some (path, n, rx)) =>
              let '(ev, p, st) := dispatch path n false (w_index w) in
              Some (ev, advance p d (set_rx rx (set_index st w)))
          | Ok None => Some (EvTau, io_complete (Ok tt) d w)
          | Err e => Some (EvTau, io_complete (Err e) d w)
          end
      | _ => None
      end
  | AAcquire =>
      match w_task w with
      | TIngress (IWait path n) d =>
          if can_acquire (w_index w) then
            let '(ev, p, st) := dispatch path n true (acquire (w_index w)) in
            Some (ev, advance p d (set_index st w))
          else if s_unclaimed_closed (w_index w) then
            Some (EvTau, io_complete (Err error_receiver_closed) d w)
          else None
      | _ => None
      end
  | AIndexed =>
      match w_task w with
      | TIngress (IWait path n) d =>
          if s_indexed (w_index w) then
            let '(ev, p, st) := dispatch path n false (set_indexed false (w_index w)) in
            Some (ev, advance p d (set_index st w))
          else None
      | _ => None
      end
  | AForward =>
      match w_task w with
      | TIngress (IData path tx n) d =>
          match forward cap path tx n (w_rx w) (w_index w) with
          | Some (ev, p, rx, st) => Some (ev, advance p d (set_rx rx (set_index st w)))
          | None => None
          end
      | _ => None
      end
  | AFailed =>
      match w_task w with
      | TIngress i d =>
          if w_failed w then
            Some (EvTau, io_complete (Err error_unprocessed) d (set_failed false w))
          else None
      | _ => None
      end
  | ADrain =>
      match w_task w with
      | TIngress i false =>
          if decide (w_handles w = ∅) then
            let '(r, w') := state_close_rx w in
            Some (EvTau, match r with Err e => complete (Err e) w'
                                    | Ok _ => set_task (TIngress i true) w' end)
          else None
      | _ => None
      end
  | ADropped =>
      match w_task w with
      | TDropped =>
          if decide (w_handles w = ∅) then
            let '(r, w') := state_close_rx w in Some (EvTau, complete r w')
          else None
      | _ => None
      end
  | AIndex id path => '(_, w') ← Incoming_index id path w; Some (EvTau, w')
  | ATakeReader id => '(_, w') ← Incoming_take_reader id w; Some (EvTau, w')
  | ARead id n =>
      h ← w_handles w !! id;
      '(r, w') ← Incoming_poll_read id n w;
      match in_rx h, r with
      | Some (c, _), Ready (Ok data) => Some (EvRead (in_path h) c data, w')
      | _, _ => Some (EvTau, w')
      end
  | ADrop id => w' ← Incoming_drop id w; Some (EvTau, w')
  | AFinished id => w' ← Incoming_finished id w; Some (EvTau, w')
  end.

Fixpoint exec (acts : list action) (tr : list event) (w : World) : option (list event * World) :=
  match acts with
  | [] => Some (tr, w)
  | a :: acts => '(ev, w') ← do_action a w; exec acts (tr ++ [ev]) w'
  end.

Lemma do_action_step a w ev w' : do_action a w = Some (ev, w') → step cap w ev w'.
Proof.
  destruct a; simpl; intros Hd.
  - apply step_task. destruct (w_task w) as [[|?|?] d| |] eqn:Et; try done.
    destruct (read_frame _ _) as [[[[path n] rx]|]|e] eqn:Er; [| |].
    + destruct (dispatch _ _ _ _) as [[ev' p] st] eqn:Ed. simplify_eq. by eapply step_frame.
    + simplify_eq. by eapply step_eof.
    + simplify_eq. by eapply step_frame_err.
  - apply step_task. destruct (w_task w) as [[|?|?] d| |] eqn:Et; try done.
    destruct (can_acquire _) eqn:Ea.
    + destruct (dispatch _ _ _ _) as [[ev' p] st] eqn:Ed. simplify_eq. by eapply step_acquire.
    + destruct (s_unclaimed_closed _) eqn:Ec; simplify_eq. by eapply step_acquire_err.
  - apply step_task. destruct (w_task w) as [[|?|?] d| |] eqn:Et; try done.
    destruct (s_indexed _) eqn:Ei; [|done].
    destruct (dispatch _ _ _ _) as [[ev' p] st] eqn:Ed. simplify_eq. by eapply step_indexed.
  - apply step_task. destruct (w_task w) as [[|?|?] d| |] eqn:Et; try done.
    destruct (forward _ _ _ _ _ _) as [[[[ev' p] rx] st]|] eqn:Ef; simplify_eq. by eapply step_forward.
  - apply step_task. destruct (w_task w) as [i d| |] eqn:Et; try done.
    destruct (w_failed w) eqn:Ef; simplify_eq. by eapply step_failed.
  - apply step_task. destruct (w_task w) as [i []| |] eqn:Et; try done.
    destruct (decide _); [|done]. destruct (state_close_rx w) as [r w1] eqn:Ec. simplify_eq.
    by eapply step_drain.
  - apply step_task. destruct (w_task w) as [i d| |] eqn:Et; try done.
    destruct (decide _); [|done]. destruct (state_close_rx w) as [r w1] eqn:Ec. simplify_eq.
    by eapply step_dropped.
  - destruct (Incoming_index id path w) as [[r w1]|] eqn:E; simplify_eq/=. by eapply step_index.
  - destruct (Incoming_take_reader id w) as [[r w1]|] eqn:E; simplify_eq/=. by eapply step_take_reader.
  - destruct (w_handles w !! id) as [h|] eqn:Eh; simpl in Hd; [|done].
    destruct (Incoming_poll_read id n w) as [[r w1]|] eqn:E; simpl in Hd; [|done].
    destruct (in_rx h) as [[c k]|] eqn:Er.
    + destruct r as [|[data|e]]; simplify_eq; [|by eapply step_poll_read|];
        (eapply step_poll_read_other; [exact Eh| |exact E]; right; by intros).
    + simplify_eq. eapply step_poll_read_other; [exact Eh|by left|exact E].
  - destruct (Incoming_drop id w) as [w1|] eqn:E; simplify_eq/=. by eapply step_drop.
  - destruct (Incoming_finished id w) as [w1|] eqn:E; simplify_eq/=. by eapply step_finished.
Qed.

Lemma exec_steps acts tr w tr' w' w0 :
  exec acts tr w = Some (tr', w') → steps cap w0 tr w → steps cap w0 tr' w'.
Proof.
  revert tr w. induction acts as [|a acts IH]; intros tr w; simpl; [by intros [= <- <-]|].
  destruct (do_action a w) as [[ev w1]|] eqn:E; simpl; [|done]. intros He Hs.
  eapply IH; [exact He|]. eapply steps_snoc; [exact Hs|]. by eapply do_action_step.
Qed.

Lemma exec_reachable acts paths rx tr w :
  exec acts [] (Incoming_new paths rx) = Some (tr, w) → reachable cap paths rx tr w.
Proof. intros He. eapply exec_steps; [exact He|constructor]. Qed.

End exec.

(** ** Lemmas *)

Lemma received_prefix c tr1 tr2 : received c tr1 `prefix_of` received c (tr1 ++ tr2).
Proof. unfold received. rewrite fmap_app, concat_app. by eexists. Qed.

Section finished.
Context `{Leb128} (cap : N).

Lemma steps_app w1 tr1 w2 tr2 w3 :
  steps cap w1 tr1 w2 → steps cap w2 tr2 w3 → steps cap w1 (tr1 ++ tr2) w3.
Proof.
  intros H1 H2. induction H2 as [w|w2 tr2 w3 ev w4 _ IH Hs]; [by rewrite app_nil_r|].
  rewrite (assoc (++)). eapply steps_snoc; [by apply IH|done].
Qed.

(** All handles were dropped and nothing was left unread then. *)
Definition settled (w : World) : Prop :=
  (∃ i, w_task w = TIngress i true) ∨ w_done w = Some (Ok tt).

(** Only dropping the last handle settles a connection. *)
Lemma settled_step tr w ev w' :
  winv tr w → step cap w ev w' → settled w' →
  settled w ∨ (∀ c, received c tr = read c tr).
Proof.
  intros Hw Hs Hset. destruct (handle_step_task _ _ _ _ Hs) as [Ht|(F1 & F2 & F3 & _)].
  2: { left. unfold settled in *. by rewrite F1, F3 in Hset. }
  assert (∀ w0 i d res, w_task w = TIngress i d → w_done w = None → w_done w0 = None →
    w_task w0 = TIngress i d → settled (io_complete res d w0) → settled w) as Hio.
  { intros w0 i d res E1 E2 E3 E4 Hset0. destruct d; [left; eauto|]. exfalso.
    unfold settled, io_complete in Hset0.
    destruct res as [[]|e]; simpl in Hset0; destruct Hset0 as [[? ?]|Hx]; try done.
    by rewrite E3 in Hx. }
  assert (∀ p d w0 i, w_task w = TIngress i d → w_done w = None → w_done w0 = None →
    w_task w0 = TIngress i d → settled (advance p d w0) → settled w) as Hadv.
  { intros p d w0 i E1 E2 E3 E4 Hset0. destruct p as [i'|res]; simpl in Hset0; [|by eapply Hio].
    destruct Hset0 as [[j Hj]|Hx]; simpl in *; [injection Hj as _ ->; left; eauto|congruence]. }
  assert (∀ i d, w_task w = TIngress i d → w_done w = None) as Hrun.
  { intros i d E. by eapply wr_done, wrun_winv. }
  assert (∀ r w1, w_done w = None → w_handles w = ∅ → state_close_rx w = (r, w1) → r = Ok tt →
    ∀ c, received c tr = read c tr) as Hclose.
  { intros r w1 Hd Hh Hc -> c. destruct (close_rx_spec _ _ _ _ Hw Hd Hh Hc) as (_ & Hi & Hn & He).
    destruct (ci_lost _ _ _ _ _ Hi c (Hn c)) as [?|[[Hb|[e Hb]]|[e ?]]]; try done.
    - rewrite He in Hb by done. by destruct Hb.
    - congruence. }
  destruct Ht as
    [w d path n rx ev p st Ht _ Hd|w d Ht _|w d e Ht _|w d path n ev p st Ht Ha Hd|w d path n Ht _
    |w d path n ev p st Ht _ Hd|w d path tx n ev p rx st Ht Hf|w i d Ht _|w i r w' Ht Hh Hc
    |w r w' Ht Hh Hc|w Ht Hh _].
  1-8: left; first [refine (Hadv _ _ _ _ Ht _ _ _ Hset)|refine (Hio _ _ _ _ Ht _ _ _ Hset)];
    simpl; eauto.
  - right. destruct r as [[]|e]; [by eapply Hclose; eauto|].
    destruct Hset as [[? ?]|?]; by simplify_eq/=.
  - right. destruct r as [[]|e].
    + eapply Hclose; [|done..]. destruct (w_done w) as [r|] eqn:E; [|done].
      apply (wi_done _ _ Hw) in E. congruence.
    + destruct Hset as [[? ?]|?]; by simplify_eq/=.
  - left. destruct Hset as [[? ?]|?]; [done|by right].
Qed.

Lemma settled_processed paths rx tr1 w1 tr2 w2 c :
  compatible paths → reachable cap paths rx tr1 w1 → ¬ settled w1 →
  steps cap w1 tr2 w2 → settled w2 → received c tr1 `prefix_of` read c (tr1 ++ tr2).
Proof.
  intros Hc Hr Hn Hs. induction Hs as [w1|w1 tr2 w2 ev w3 Hs IH Hstep]; intros Hset; [done|].
  rewrite (assoc (++)), read_snoc.
  assert (winv (tr1 ++ tr2) w2) as Hw.
  { eapply winv_reachable; [done|]. by eapply steps_app. }
  destruct (settled_step _ _ _ _ Hw Hstep Hset) as [Hset2|Heq].
  - etrans; [by apply IH|]. by eexists.
  - etrans; [apply (received_prefix c tr1 tr2)|]. rewrite Heq. by eexists.
Qed.

Lemma finished_done w : finished w = Some (Ok tt) → w_done w = Some (Ok tt).
Proof. unfold finished. destruct (w_done w); [done|]. by destruct (w_task w). Qed.

(** While a handle is alive the connection is not settled. *)
Lemma not_settled_handles tr w : winv tr w → w_handles w ≠ ∅ → ¬ settled w.
Proof.
  intros Hw Hh [[i Hi]|Hx]; [by destruct (wi_drain _ _ Hw i Hi)|by destruct (wi_ok _ _ Hw Hx)].
Qed.

End finished.

(** ** Properties *)

(** [C4] the data received for each path is a prefix of the data of the frames
    on the wire for it, in order and whatever the interleaving with the
    handles; all of it was received once ingress completed successfully. *)
Theorem frames_delivered `{Leb128Laws} cap paths fs tr w :
  (0 < cap)%N → Forall frame_fits fs → compatible paths →
  reachable cap paths (stream fs) tr w →
  ∀ p, received_on p tr `prefix_of` data_on p fs ∧
       (w_done w = Some (Ok tt) → received_on p tr = data_on p fs).
Proof.
  intros Hcap Hfit Hc Hr p. split; [by eapply received_in_order|]. by eapply received_complete.
Qed.

(** [C5] a handle reads exactly the data received for its own path, in the
    order it was received: what was received through its channel is what was
    read, followed by the chunk it holds and by what is queued, and every
    event of the channel is for the path of the handle. *)
Theorem reader_in_order `{Leb128} cap paths rx tr w id h c chunk :
  compatible paths → reachable cap paths rx tr w →
  w_handles w !! id = Some h → in_rx h = Some (c, chunk) →
  ∃ queue, s_chans (w_index w) !! c = Some queue ∧
    received c tr = read c tr ++ chunk ++ concat queue ∧
    ∀ p, ev_at tr p c → p = in_path h.
Proof.
  intros Hc Hr Hid Hrx. pose proof (wi_chans _ _ (winv_reachable cap _ _ _ _ Hc Hr)) as Hi.
  assert (holds (w_handles w) id (in_path h) c chunk) as Hh by (by exists h).
  destruct (ci_handle _ _ _ _ _ Hi _ _ _ _ Hh) as ([queue Hq] & Hn & _).
  exists queue. split; [done|]. split.
  - destruct (ci_ledger _ _ _ _ _ Hi c queue Hq) as (k & Hk & [[_ [p Hp]]|(id' & p & Hh')]).
    + by destruct (Hn p).
    + pose proof (ci_unique _ _ _ _ _ Hi _ _ _ _ _ _ _ Hh' Hh) as ->.
      destruct Hh' as (? & ? & ? & _). by simplify_eq.
  - intros p He. destruct (ci_event _ _ _ _ _ Hi p c He) as (_ & _ & Hx & _).
    symmetry. by eapply Hx.
Qed.

(** [C6] if the future of [Incoming::finished] resolves successfully, then the
    stream was processed to its end, that is all the data its frames carry was
    received for the paths of the frames, and all the data which was received
    while handles were alive was read from the channel it was received on. *)
Theorem finished_ok_processed `{Leb128Laws} cap paths fs tr1 w1 tr2 w2 :
  (0 < cap)%N → Forall frame_fits fs → compatible paths →
  reachable cap paths (stream fs) tr1 w1 → w_handles w1 ≠ ∅ →
  steps cap w1 tr2 w2 → finished w2 = Some (Ok tt) →
  (∀ p, received_on p (tr1 ++ tr2) = data_on p fs) ∧
  (∀ c, received c tr1 `prefix_of` read c (tr1 ++ tr2)).
Proof.
  intros Hcap Hfit Hc Hr Hh Hs Hf.
  assert (w_done w2 = Some (Ok tt)) as Hd by (by apply finished_done). split.
  - intros p. eapply received_complete; [done..| |done]. by eapply steps_app.
  - intros c. eapply settled_processed; [done|done| |done|by right].
    eapply not_settled_handles; [by eapply winv_reachable|done].
Qed.

(** [C38] the count of a subscribed element is the number of the live handles
    within it, and every element a live handle is within is subscribed to;
    that is, an element is released exactly when the last handle within it is
    dropped, and never before. *)
Theorem handles_accounted `{Leb128} cap paths rx tr w e :
  compatible paths → reachable cap paths rx tr w →
  is_element (s_patterns (w_index w)) e →
  (∀ sub, s_subs (w_index w) !! e = Some sub →
     sub_handles sub = handles_in (handle_paths (w_handles w)) e) ∧
  (∀ id h, w_handles w !! id = Some h → e `prefix_of` in_path h →
     is_Some (s_subs (w_index w) !! e)).
Proof.
  intros Hc Hr Hel. pose proof (wi_elements _ _ (winv_reachable cap _ _ _ _ Hc Hr)) as He. split.
  - intros sub Hs. pose proof (ei_handles _ _ _ _ _ He e (sub_view sub)) as Hx.
    rewrite view_lookup, Hs in Hx. specialize (Hx eq_refl Hel).
    rewrite decide_False in Hx by apply not_elem_of_nil. simpl in Hx. lia.
  - intros id h Hid Hp. destruct (in_path h) as [|x q] eqn:Ep.
    { apply prefix_nil_inv in Hp as ->. destruct Hel as (node & pat & Hx).
      apply resolve_in_length in Hx. rewrite length_app in Hx. simpl in Hx. lia. }
    destruct (ei_live _ _ _ _ _ He (in_path h)) as [_ Hx].
    { apply elem_of_handle_paths with id; [done|]. by rewrite Ep. }
    rewrite Ep in Hx. destruct (Hx e Hp Hel) as [v Hv]. rewrite view_lookup in Hv.
    destruct (s_subs (w_index w) !! e); [eauto|done].
Qed.

(** [C39] at most [MAX_UNCLAIMED_ELEMENTS] elements are subscribed to before
    being indexed, and permits are never lost: an element which is subscribed
    to holds a permit exactly when no live handle is within it, and the permits
    which are held and those which are available are 64 in all. *)
Theorem unclaimed_bounded `{Leb128} cap paths rx tr w :
  compatible paths → reachable cap paths rx tr w →
  unclaimed (w_index w) + s_permits (w_index w) = MAX_UNCLAIMED_ELEMENTS ∧
  ∀ e sub, is_element (s_patterns (w_index w)) e → s_subs (w_index w) !! e = Some sub →
    sub_permit sub = true ↔ handles_in (handle_paths (w_handles w)) e = 0%N.
Proof.
  intros Hc Hr. pose proof (winv_reachable cap _ _ _ _ Hc Hr) as Hw. split.
  - pose proof (wi_permits _ _ Hw) as Hp. unfold permits_inv in Hp. lia.
  - pose proof (wi_elements _ _ Hw) as He. intros e sub Hel Hs.
    assert (view (w_index w) !! e = Some (sub_view sub)) as Hv by (by rewrite view_lookup, Hs).
    pose proof (ei_handles _ _ _ _ _ He _ _ Hv Hel) as Hx.
    rewrite decide_False in Hx by apply not_elem_of_nil. simpl in Hx. rewrite N.add_0_r in Hx.
    rewrite <- Hx. split.
    + intros Ht. by destruct (ei_permit _ _ _ _ _ He _ _ Hv Ht).
    + intros H0. destruct Hel as (node & pat & Hr'). pose proof (resolve_in_length _ _ _ _ Hr') as Hl.
      rewrite length_app in Hl. simpl in Hl.
      destruct e as [|x q _] using rev_ind; [simpl in Hl; lia|].
      destruct (ei_unindexed _ _ _ _ _ He q x _ Hv) as [_ ?]; [by eexists _, _|done|done].
Qed.

(** ** Witnesses *)

(** The exchange of the [conn] unit test: the root, [[0]] and the element 7 of
    [[1]] are received and read, then all handles are dropped. *)
Definition test_frames : list Frame :=
  [mkFrame [] [x2a]; mkFrame [0]%N [x2b]; mkFrame [1; 7; 0]%N [x2c]; mkFrame [0]%N []].

Definition test_receive : list action :=
  [ATakeReader 0; AFinished 0; AFrame; AForward; AFrame; AForward; AFrame; AAcquire; AForward;
   AIndex 0 [0]; ARead 2 1; AIndex 0 [1; 7; 0]]%N.
Definition test_read : list action :=
  [ARead 3 8; AFrame; AFrame; ARead 1 8; ARead 1 8; ARead 3 8; ARead 2 8;
   ADrop 3; ADrop 2; ADrop 1; ADrop 0; ADropped]%N.

Definition test_state (acts : list action) : list event * World :=
  default ([], Incoming_new test_paths [])
    (@exec leb128_std 1024 acts [] (Incoming_new test_paths (@stream leb128_std test_frames))).

Definition test_received : list event * World := test_state test_receive.
Definition test_finished : list event * World := test_state (test_receive ++ test_read).

Lemma test_received_reachable :
  @reachable leb128_std 1024 test_paths (@stream leb128_std test_frames)
    test_received.1 test_received.2.
Proof. apply exec_reachable with test_receive. vm_compute. reflexivity. Qed.

Lemma test_finished_reachable :
  @reachable leb128_std 1024 test_paths (@stream leb128_std test_frames)
    test_finished.1 test_finished.2.
Proof. apply exec_reachable with (test_receive ++ test_read). vm_compute. reflexivity. Qed.

Lemma test_paths_compatible : compatible test_paths.
Proof. apply compatibleb_sound. vm_compute. reflexivity. Qed.

Lemma test_frames_fit : Forall frame_fits test_frames.
Proof.
  repeat constructor; unfold len; simpl; vm_compute; discriminate.
Qed.

Lemma frames_delivered_witness :
  received_on [1; 7; 0]%N test_finished.1 = [x2c] ∧
  received_on [1; 7; 0]%N test_finished.1 = data_on [1; 7; 0]%N test_frames.
Proof.
  split; [vm_compute; reflexivity|].
  pose proof leb128_std_laws.
  apply (@frames_delivered leb128_std leb128_std_laws 1024 test_paths test_frames
    test_finished.1 test_finished.2); [done|apply test_frames_fit|apply test_paths_compatible
    |apply test_finished_reachable|vm_compute; reflexivity].
Defined.

Lemma reader_in_order_witness :
  ∃ queue, s_chans (w_index test_received.2) !! 2%N = Some queue ∧
    received 2 test_received.1 = read 2 test_received.1 ++ [] ++ concat queue ∧
    ∀ p, ev_at test_received.1 p 2 → p = [1; 7; 0]%N.
Proof.
  apply (@reader_in_order leb128_std 1024 test_paths (@stream leb128_std test_frames)
    test_received.1 test_received.2 3%N (mkIncoming (Some (2%N, [])) true [1; 7; 0]%N) 2%N []).
  - apply test_paths_compatible.
  - apply test_received_reachable.
  - vm_compute. reflexivity.
  - reflexivity.
Defined.

Definition test_rest : list event * World :=
  default ([], test_received.2) (@exec leb128_std 1024 test_read [] test_received.2).

Lemma finished_ok_processed_witness :
  received 2 test_received.1 = [x2c] ∧
  (∀ p, received_on p (test_received.1 ++ test_rest.1) = data_on p test_frames) ∧
  (∀ c, received c test_received.1 `prefix_of` read c (test_received.1 ++ test_rest.1)).
Proof.
  split; [vm_compute; reflexivity|].
  apply (@finished_ok_processed leb128_std leb128_std_laws 1024 test_paths test_frames
    test_received.1 test_received.2 test_rest.1 test_rest.2).
  - done.
  - apply test_frames_fit.
  - apply test_paths_compatible.
  - apply test_received_reachable.
  - intros Hh. apply (f_equal size) in Hh. vm_compute in Hh. discriminate.
  - apply (@exec_steps leb128_std 1024 test_read [] test_received.2); [vm_compute; reflexivity|constructor].
  - vm_compute. reflexivity.
Defined.

Lemma test_element : is_element (s_patterns (w_index test_received.2)) [1; 7]%N.
Proof. exists (mkPattern false (Some false)), [Some 1%N]. vm_compute. reflexivity. Qed.

Lemma handles_accounted_witness :
  (∀ sub, s_subs (w_index test_received.2) !! [1; 7]%N = Some sub →
     sub_handles sub = handles_in (handle_paths (w_handles test_received.2)) [1; 7]%N) ∧
  (∀ id h, w_handles test_received.2 !! id = Some h → [1; 7]%N `prefix_of` in_path h →
     is_Some (s_subs (w_index test_received.2) !! [1; 7]%N)).
Proof.
  apply (@handles_accounted leb128_std 1024 test_paths (@stream leb128_std test_frames)
    test_received.1 test_received.2 [1; 7]%N);
    [apply test_paths_compatible|apply test_received_reachable|apply test_element].
Defined.

Lemma unclaimed_bounded_witness :
  unclaimed (w_index test_received.2) + s_permits (w_index test_received.2) = 64 ∧
  ∀ e sub, is_element (s_patterns (w_index test_received.2)) e →
    s_subs (w_index test_received.2) !! e = Some sub →
    sub_permit sub = true ↔ handles_in (handle_paths (w_handles test_received.2)) e = 0%N.
Proof.
  apply (@unclaimed_bounded leb128_std 1024 test_paths (@stream leb128_std test_frames)
    test_received.1 test_received.2); [apply test_paths_compatible|apply test_received_reachable].
Defined.

(** ** Data received while draining *)

(** The documentation of [Incoming::new] says that any data received after all
    handles were dropped fails ingress.  It does not if it is for a path within
    an element which is subscribed to, but not itself: here the element 3 is
    subscribed to by an empty frame for its first field, all handles are
    dropped, data is received for its second field, which no handle can ever
    read, and ingress completes successfully. *)
Definition drain_paths : list (list (option N)) := [[None; Some 0]; [None; Some 1]]%N.
Definition drain_frames : list Frame := [mkFrame [3; 0]%N []; mkFrame [3; 1]%N [x2a]].
Definition drain_acts : list action :=
  [AFinished 0; AFrame; AAcquire; ADrop 0; ADrain; AFrame; AForward; AFrame]%N.

(** [C40] While ingress is drained, data received for a path of an element which
    was subscribed to before is accepted, is never read, and ingress completes
    successfully: an execution which the documentation of [Incoming::new]
    excludes. *)
Theorem drain_loses_data :
  ∃ tr w, @reachable leb128_std 1024 drain_paths (@stream leb128_std drain_frames) tr w ∧
    received_on [3; 1]%N tr = [x2a] ∧ (∀ c, read c tr = []) ∧ finished w = Some (Ok tt).
Proof.
  set (r := default ([], Incoming_new drain_paths [])
    (@exec leb128_std 1024 drain_acts [] (Incoming_new drain_paths (@stream leb128_std drain_frames)))).
  exists r.1, r.2. split_and!.
  - apply exec_reachable with drain_acts. vm_compute. reflexivity.
  - vm_compute. reflexivity.
  - intros c. vm_compute. reflexivity.
  - vm_compute. reflexivity.
Qed.
