(* ===== verification/Egress.v ===== *)
(** * The sending side of a connection

    Model of [Outgoing] and of the egress task of
    [crates/transport/src/frame/conn/mod.rs], and of [invoke] of
    [frame/conn/client.rs].

    The handles share the queue of frames of the task: [e_queue] holds the
    frames which were sent and not written yet.  The peer is a parameter: a
    writer is the function which takes what was written so far and the bytes to
    write and fails or returns what was written then.  The theorems show that
    the wire carries the frames of the handles, and, with those of [Delivery],
    that what is written to a handle is received for its path. *)

From S2P Require Import Prelude Wire FrameCodec Subscriptions Resolve Conn Delivery.

Definition MAX_FRAME_DATA : N := u32_MAX.

(** The frame queue holds at most 128 frames; [e_done] is the value of the
    watch channel. *)
Definition EGRESS_QUEUE : nat := 128.

Record Outgoing := mkOutgoing { out_path : list N; out_path_buf : bytes }.

Record Egress := mkEgress {
  e_queue : list (bytes * bytes);
  e_done : option (io_result unit)
}.

Section egress.
Context `{Leb128}.

Definition Outgoing_new : Outgoing := mkOutgoing [] [x00].

Definition Outgoing_index (o : Outgoing) (path : list N) : io_result Outgoing :=
  match path with
  | [] => Err InvalidInput
  | _ =>
      let path := match out_path o with [] => path | _ => out_path o ++ path end in
      let? n := u32_try_from (len path) in
      let? buf := encode_path path (leb_encode n) in
      Ok (mkOutgoing path buf)
  end.

Definition error_egress (e : Egress) : ErrorKind :=
  match e_done e with Some (Err err) => err | _ => BrokenPipe end.

(** [reserve]: [None] waits for room in the queue, and the receiver of the queue
    is dropped once the task is complete. *)
Definition reserve (e : Egress) : option (io_result unit) :=
  match e_done e with
  | Some _ => Some (Err (error_egress e))
  | None => if length (e_queue e) <? EGRESS_QUEUE then Some (Ok tt) else None
  end.

Definition send_reserved (o : Outgoing) (buf : bytes) (e : Egress) : io_result Egress :=
  match e_done e with
  | Some _ => Err (error_egress e)
  | None => Ok (mkEgress (e_queue e ++ [(out_path_buf o, buf)]) (e_done e))
  end.

(** The frames [write_bytes] sends: at most [MAX_FRAME_DATA] bytes each.  Every
    frame takes at least a byte, so the length of the buffer is fuel enough. *)
Fixpoint split_frames (fuel : nat) (buf : bytes) : list bytes :=
  match fuel, buf with
  | O, _ | _, [] => []
  | S fuel, _ =>
      let k := N.to_nat (N.min (len buf) MAX_FRAME_DATA) in
      take k buf :: split_frames fuel (drop k buf)
  end.

Fixpoint send_all (o : Outgoing) (bufs : list bytes) (e : Egress) : io_result Egress :=
  match bufs with
  | [] => Ok e
  | buf :: bufs => let? e := send_reserved o buf e in send_all o bufs e
  end.

(** [write_bytes] with room in the queue for all the frames. *)
Definition write_bytes (o : Outgoing) (buf : bytes) (e : Egress) : io_result Egress :=
  send_all o (split_frames (length buf) buf) e.

Definition Outgoing_close (o : Outgoing) (e : Egress) : io_result Egress := send_reserved o [] e.

(** [poll_write]: the number of bytes written; [None] waits. *)
Definition Outgoing_poll_write (o : Outgoing) (buf : bytes) (e : Egress) :
    option (io_result (N * Egress)) :=
  match buf with
  | [] => Some (Ok (0%N, e))
  | _ =>
      match reserve e with
      | None => None
      | Some (Err err) => Some (Err err)
      | Some (Ok _) =>
          let buf := take (N.to_nat (N.min (len buf) MAX_FRAME_DATA)) buf in
          Some (let? e := send_reserved o buf e in Ok (len buf, e))
      end
  end.

(** [write_all] and [shutdown] of the peer. *)
Context (write_all : bytes → bytes → io_result bytes).
Context (shutdown : bytes → io_result unit).

(** The loop of [egress] on the frames which are sent until the last handle is
    dropped: its result and what was written. *)
Fixpoint egress (written : bytes) (frames : list (bytes * bytes)) : io_result unit * bytes :=
  match frames with
  | [] => (shutdown written, written)
  | (path, data) :: frames =>
      match u32_try_from (len data) with
      | Err e => (Err e, written)
      | Ok data_len =>
          match write_all written (path ++ leb_encode data_len ++ data) with
          | Err e => (Err e, written)
          | Ok written => egress written frames
          end
      end
  end.

(** [invoke]: the header and the parameters are written first, then the handles
    are created. *)
Definition invoke `{CoreName} (instance func params : bytes) :
    io_result (Outgoing * bytes) :=
  let? buf := encode_invocation [] instance func (len params) in
  let? written := write_all [] (buf ++ params) in
  Ok (Outgoing_new, written).

End egress.

(** ** Specification *)

(** What is done to the handles. *)
Inductive write :=
  | WriteBytes (o : Outgoing) (buf : bytes)
  | WriteReserved (o : Outgoing) (buf : bytes)
  | WriteClose (o : Outgoing).

Section spec.
Context `{Leb128}.

Definition do_write (wr : write) (e : Egress) : io_result Egress :=
  match wr with
  | WriteBytes o buf => write_bytes o buf e
  | WriteReserved o buf => send_reserved o buf e
  | WriteClose o => Outgoing_close o e
  end.

Fixpoint do_writes (wrs : list write) (e : Egress) : io_result Egress :=
  match wrs with
  | [] => Ok e
  | wr :: wrs => let? e := do_write wr e in do_writes wrs e
  end.

Definition write_handle (wr : write) : Outgoing :=
  match wr with WriteBytes o _ | WriteReserved o _ | WriteClose o => o end.
Definition write_data (wr : write) : bytes :=
  match wr with WriteBytes _ buf | WriteReserved _ buf => buf | WriteClose _ => [] end.

(** [send_reserved] sends one frame: the data fits a frame. *)
Definition write_fits (wr : write) : Prop :=
  match wr with WriteReserved _ buf => (len buf ≤ MAX_FRAME_DATA)%N | _ => True end.

(** The data written to the handles of the path [p]. *)
Definition written_on (p : list N) (wrs : list write) : bytes :=
  concat (write_data <$> filter (λ wr, out_path (write_handle wr) = p) wrs).

(** The handles of a connection: those created by [new] and [index]. *)
Inductive outgoing_handle : Outgoing → Prop :=
  | outgoing_handle_new : outgoing_handle Outgoing_new
  | outgoing_handle_index o path o' :
      outgoing_handle o → Outgoing_index o path = Ok o' → outgoing_handle o'.

Definition outgoing_ok (o : Outgoing) : Prop :=
  out_path_buf o = path_bytes (out_path o) ∧
  (len (out_path o) ≤ u32_MAX)%N ∧ Forall (λ p, p ≤ u32_MAX)%N (out_path o).

(** Writes to handles of the connection, which fit frames *)
Definition write_ok (wr : write) : Prop := outgoing_handle (write_handle wr) ∧ write_fits wr.

Definition write_frames (wr : write) : list Frame :=
  match wr with
  | WriteBytes o buf => mkFrame (out_path o) <$> split_frames (length buf) buf
  | WriteReserved o buf => [mkFrame (out_path o) buf]
  | WriteClose o => [mkFrame (out_path o) []]
  end.

End spec.

(** ** Lemmas *)

Lemma split_frames_concat fuel buf : length buf ≤ fuel → concat (split_frames fuel buf) = buf.
Proof.
  revert buf. induction fuel as [|fuel IH]; intros buf Hf; [by destruct buf; simpl in *; [|lia]|].
  destruct buf as [|b buf]; [done|]. cbn [split_frames concat].
  set (k := N.to_nat (N.min (len (b :: buf)) MAX_FRAME_DATA)).
  assert (0 < k).
  { unfold k. rewrite len_cons. unfold MAX_FRAME_DATA, u32_MAX. lia. }
  rewrite IH, take_drop; [done|]. rewrite length_drop. lia.
Qed.

Lemma split_frames_fit fuel buf d :
  d ∈ split_frames fuel buf → (0 < len d ≤ MAX_FRAME_DATA)%N.
Proof.
  revert buf. induction fuel as [|fuel IH]; intros buf; [by intros ?%not_elem_of_nil|].
  destruct buf as [|b buf]; [by intros ?%not_elem_of_nil|]. cbn [split_frames].
  intros [->|?]%elem_of_cons; [|by eapply IH].
  unfold len, MAX_FRAME_DATA, u32_MAX. rewrite length_take. cbn [length]. lia.
Qed.

Section lemmas.
Context `{Leb128Laws}.

Lemma Outgoing_index_ok o path o' :
  Outgoing_index o path = Ok o' → out_path o' = out_path o ++ path ∧ outgoing_ok o'.
Proof.
  unfold Outgoing_index. destruct path as [|i path]; [done|].
  assert (match out_path o with [] => i :: path | _ => out_path o ++ i :: path end =
          out_path o ++ i :: path) as -> by (by destruct (out_path o)).
  set (p := out_path o ++ i :: path). clearbody p. intros Hx. simp_res.
  destruct (decide (Forall (λ p, p ≤ u32_MAX)%N p)) as [Hf|Hf].
  - rewrite encode_path_spec in * by done. by simp_res.
  - rewrite encode_path_err in * by done. done.
Qed.

Lemma outgoing_handle_ok o : outgoing_handle o → outgoing_ok o.
Proof.
  destruct 1 as [|o path o' _ Hi]; [|by destruct (Outgoing_index_ok _ _ _ Hi)].
  split; [|split; [vm_compute; discriminate|constructor]].
  unfold path_bytes, len; simpl. by rewrite leb_encode_0.
Qed.

Lemma do_write_frames wr e :
  e_done e = None → outgoing_ok (write_handle wr) →
  do_write wr e = Ok (mkEgress
    (e_queue e ++ ((λ f, (path_bytes (f_path f), f_data f)) <$> write_frames wr)) None).
Proof.
  intros Hd [Hb _]. destruct wr as [o buf|o buf|o]; simpl in *.
  - unfold write_bytes. generalize (split_frames (length buf) buf). intros bufs.
    revert e Hd. induction bufs as [|d bufs IH]; intros e Hd; simpl.
    + rewrite app_nil_r, <- Hd. by destruct e.
    + unfold send_reserved at 1. rewrite Hd. simpl. rewrite IH by done. simpl.
      by rewrite Hb, <- (assoc (++)).
  - unfold send_reserved. by rewrite Hd, Hb.
  - unfold Outgoing_close, send_reserved. by rewrite Hd, Hb.
Qed.

Lemma do_writes_frames wrs e :
  e_done e = None → Forall (λ wr, outgoing_ok (write_handle wr)) wrs →
  do_writes wrs e = Ok (mkEgress
    (e_queue e ++ ((λ f, (path_bytes (f_path f), f_data f)) <$> (wrs ≫= write_frames))) None).
Proof.
  revert e. induction wrs as [|wr wrs IH]; intros e Hd Hok; simpl.
  { rewrite app_nil_r, <- Hd. by destruct e. }
  inversion Hok; subst. rewrite do_write_frames by done. simpl. rewrite IH by done. simpl.
  by rewrite fmap_app, <- (assoc (++)).
Qed.

Lemma write_frames_fit wr :
  outgoing_ok (write_handle wr) → write_fits wr → Forall frame_fits (write_frames wr).
Proof.
  intros (_ & Hl & Hp) Hf. destruct wr as [o buf|o buf|o]; simpl in *.
  - apply Forall_fmap, Forall_forall. intros d Hd%split_frames_fit. split_and!; simpl; [done|done|].
    unfold MAX_FRAME_DATA in Hd. lia.
  - constructor; [|done]. by split_and!.
  - constructor; [|done]. split_and!; simpl; [done|done|]. unfold len, u32_MAX. simpl. lia.
Qed.

Lemma data_on_fmap p q bufs :
  data_on p (mkFrame q <$> bufs) = if decide (q = p) then concat bufs else [].
Proof.
  induction bufs as [|d bufs IH]; [by simpl; destruct (decide _)|]. rewrite fmap_cons.
  change (mkFrame q d :: ?x) with ([mkFrame q d] ++ x).
  rewrite data_on_app, data_on_singleton, IH. simpl. by destruct (decide (q = p)).
Qed.

Lemma data_on_writes p wrs : data_on p (wrs ≫= write_frames) = written_on p wrs.
Proof.
  unfold written_on. induction wrs as [|wr wrs IH]; [done|].
  rewrite bind_cons, data_on_app, filter_cons, IH.
  assert (data_on p (write_frames wr) =
    if decide (out_path (write_handle wr) = p) then write_data wr else []) as ->.
  { destruct wr as [o buf|o buf|o]; simpl.
    - by rewrite data_on_fmap, split_frames_concat.
    - rewrite data_on_singleton. by destruct (decide _).
    - rewrite data_on_singleton. by destruct (decide _). }
  by destruct (decide _).
Qed.

(** A writer which does not fail writes the frames. *)
Lemma egress_stream shutdown written fs :
  Forall frame_fits fs →
  egress (λ w b, Ok (w ++ b)) shutdown written ((λ f, (path_bytes (f_path f), f_data f)) <$> fs) =
  (shutdown (written ++ stream fs), written ++ stream fs).
Proof.
  revert written. induction fs as [|f fs IH]; intros written Hf; simpl.
  { unfold stream. simpl. by rewrite app_nil_r. }
  inversion Hf as [|? ? (_ & _ & Hd) Hf']; subst. rewrite u32_try_from_fit by done.
  rewrite IH by done. rewrite stream_cons. unfold frame_bytes. by rewrite <- !(assoc (++)).
Qed.

(** The wire carries the frames of the writes. *)
Lemma writes_on_wire wrs shutdown e :
  Forall write_ok wrs → do_writes wrs (mkEgress [] None) = Ok e →
  (egress (λ w b, Ok (w ++ b)) shutdown [] (e_queue e)).2 = stream (wrs ≫= write_frames) ∧
  Forall frame_fits (wrs ≫= write_frames).
Proof.
  intros Hok Hd.
  assert (Forall (λ wr, outgoing_ok (write_handle wr) ∧ write_fits wr) wrs) as Hok'.
  { eapply Forall_impl; [exact Hok|]. intros wr (Ho & Hf). split; [by apply outgoing_handle_ok|done]. }
  rewrite do_writes_frames in Hd by (done || (eapply Forall_impl; [exact Hok'|]; by intros wr [])).
  injection Hd as <-. cbn [e_queue app].
  assert (Forall frame_fits (wrs ≫= write_frames)) as Hfit.
  { apply Forall_bind. eapply Forall_impl; [exact Hok'|]. intros wr []. by apply write_frames_fit. }
  by rewrite egress_stream.
Qed.

End lemmas.

(** ** Properties *)

(** [C1] what is written to the handles of a connection is received, in order
    and byte for byte, for the paths of the handles by the other side of it,
    and all of it once ingress completed successfully: multiplexing the
    sub-streams by [Outgoing], [egress], [ingress] and [Incoming] loses,
    reorders and mixes up nothing. *)
Theorem end_to_end `{Leb128Laws} cap paths wrs shutdown e tr w :
  (0 < cap)%N → compatible paths → Forall write_ok wrs →
  do_writes wrs (mkEgress [] None) = Ok e →
  reachable cap paths (egress (λ w b, Ok (w ++ b)) shutdown [] (e_queue e)).2 tr w →
  ∀ p, received_on p tr `prefix_of` written_on p wrs ∧
       (w_done w = Some (Ok tt) → received_on p tr = written_on p wrs).
Proof.
  intros Hcap Hc Hok Hd Hr p. destruct (writes_on_wire wrs shutdown e Hok Hd) as (Hw & Hfit).
  rewrite Hw in Hr. rewrite <- data_on_writes.
  split; [by eapply received_in_order|]. by eapply received_complete.
Qed.

(** [index] on an outgoing handle addresses the concatenation of the
    paths, is associative, and fails with [InvalidInput] exactly for an empty
    path or a path which does not fit 32-bit integers. *)
Theorem outgoing_index_spec `{Leb128Laws} o path :
  match Outgoing_index o path with
  | Ok o' => out_path o' = out_path o ++ path ∧ outgoing_ok o'
  | Err err =>
      err = InvalidInput ∧
      (path = [] ∨ (u32_MAX < len (out_path o ++ path))%N ∨
       ¬ Forall (λ p, p ≤ u32_MAX)%N (out_path o ++ path))
  end.
Proof.
  destruct (Outgoing_index o path) as [o'|err] eqn:E; [by apply Outgoing_index_ok|].
  unfold Outgoing_index in E. destruct path as [|i path]; [injection E as <-; auto|].
  assert (match out_path o with [] => i :: path | _ => out_path o ++ i :: path end =
          out_path o ++ i :: path) as Heq by (by destruct (out_path o)).
  rewrite Heq in E. set (p := out_path o ++ i :: path) in *. clearbody p.
  destruct (u32_try_from (len p)) as [n|e] eqn:En; simpl in E.
  - apply u32_try_from_ok in En as [<- Hn].
    destruct (decide (Forall (λ p, p ≤ u32_MAX)%N p)) as [Hf|Hf].
    + by rewrite encode_path_spec in E.
    + rewrite encode_path_err in E by done. injection E as <-. auto.
  - apply u32_try_from_err in En as [-> Hn]. injection E as <-. auto.
Qed.

(** ** Witnesses *)

Definition test_outgoing (path : list N) : Outgoing :=
  match @Outgoing_index leb128_std Outgoing_new path with Ok o => o | Err _ => Outgoing_new end.

Definition test_writes : list write :=
  [WriteBytes Outgoing_new [x2a]; WriteBytes (test_outgoing [0]%N) [x2b];
   WriteReserved (test_outgoing [1; 7; 0]%N) [x2c]; WriteClose (test_outgoing [0]%N)].

Definition test_egress : Egress :=
  match do_writes test_writes (mkEgress [] None) with
  | Ok e => e | Err _ => mkEgress [] None
  end.

Lemma test_writes_ok :
  Forall (@write_ok leb128_std) test_writes.
Proof.
  assert (∀ path, @Outgoing_index leb128_std Outgoing_new path = Ok (test_outgoing path) →
    @outgoing_handle leb128_std (test_outgoing path)) as Hi.
  { intros path. apply outgoing_handle_index. constructor. }
  repeat (apply Forall_cons_2; [split; [|by vm_compute]|]); [constructor|..|by constructor];
    apply Hi; vm_compute; reflexivity.
Qed.

Lemma end_to_end_witness :
  received_on [1; 7; 0]%N test_finished.1 = [x2c] ∧
  received_on [1; 7; 0]%N test_finished.1 = written_on [1; 7; 0]%N test_writes.
Proof.
  split; [vm_compute; reflexivity|].
  apply (@end_to_end leb128_std leb128_std_laws 1024 test_paths test_writes (λ _, Ok tt)
    test_egress test_finished.1 test_finished.2).
  - done.
  - apply test_paths_compatible.
  - apply test_writes_ok.
  - vm_compute. reflexivity.
  - apply exec_reachable with (test_receive ++ test_read). vm_compute. reflexivity.
  - vm_compute. reflexivity.
Defined.

Lemma outgoing_index_spec_witness :
  match @Outgoing_index leb128_std (test_outgoing [1]%N) [2; 3]%N with
  | Ok o => out_path o = out_path (test_outgoing [1]%N) ++ [2; 3]%N
  | Err _ => False
  end.
Proof.
  pose proof (@outgoing_index_spec leb128_std leb128_std_laws (test_outgoing [1]%N) [2; 3]%N) as Hs.
  destruct (@Outgoing_index leb128_std (test_outgoing [1]%N) [2; 3]%N) as [o|e] eqn:E.
  - exact (proj1 Hs).
  - vm_compute in E. discriminate E.
Defined.
