(* ===== verification/Server.v ===== *)
(** * The server of a framed transport

    Model of [Server] of [crates/transport/src/frame/conn/server.rs]: the
    registry of the handlers, [accept], which dispatches an established
    connection to the handler of the function named in its header, and
    [serve], which registers a handler.  With [invoke] of
    [frame/conn/client.rs] ([Egress]) this is how an invocation reaches the
    function it names.

    The channel of a handler is named by a number; [srv_chans] holds the queue of
    every channel whose receiver, the stream returned by [serve], is alive.
    A connection is its context, its reader (the bytes to come) and its writer;
    contexts and writers are only passed on. *)

From S2P Require Import Prelude Wire FrameCodec Subscriptions Resolve Conn Delivery Egress.

(** [mpsc::channel(1024)] *)
Definition HANDLER_QUEUE : nat := 1024.

Section server.
Context {C O : Type}.

Record Server := mkServer {
  srv_handlers : gmap bytes (gmap bytes N);
  srv_header : HeaderDecoder;
  srv_chans : gmap N (list (C * bytes * O));
  srv_fresh : N
}.

Definition Server_with_header_decoder (header : HeaderDecoder) : Server := mkServer ∅ header ∅ 0.
Definition Server_new : Server := Server_with_header_decoder HeaderDecoder_default.

Inductive AcceptError :=
  | HeaderRead (e : HeaderReadError)
  | UnhandledFunction (instance name : bytes)
  | Send (conn : C * bytes * O).

(** The outcome of [accept]; it waits while the queue of the handler is full. *)
Inductive accepted :=
  | Accepted (srv : Server)
  | AcceptPending
  | AcceptFailed (e : AcceptError).

Definition handler (srv : Server) (instance name : bytes) : option N :=
  h ← srv_handlers srv !! instance; h !! name.

Definition Server_accept `{Leb128} (srv : Server) (cx : C) (tx : O) (rx : bytes) : accepted :=
  match HeaderDecoder_read (srv_header srv) rx with
  | Err e => AcceptFailed (HeaderRead e)
  | Ok (h, rx) =>
      match handler srv (h_instance h) (h_name h) with
      | None => AcceptFailed (UnhandledFunction (h_instance h) (h_name h))
      | Some c =>
          match srv_chans srv !! c with
          | None => AcceptFailed (Send (cx, rx, tx))
          | Some queue =>
              if length queue <? HANDLER_QUEUE then
                Accepted (mkServer (srv_handlers srv) (srv_header srv)
                            (<[c := queue ++ [(cx, rx, tx)]]> (srv_chans srv)) (srv_fresh srv))
              else AcceptPending
          end
      end
  end.

(** [serve]: the channel of the new handler; it fails if there is one already.
    The entry of the instance is created in any case. *)
Definition Server_serve (srv : Server) (instance func : bytes) : option N * Server :=
  let c := srv_fresh srv in
  let handlers := default ∅ (srv_handlers srv !! instance) in
  match handlers !! func with
  | Some _ =>
      (None, mkServer (<[instance := handlers]> (srv_handlers srv)) (srv_header srv)
               (srv_chans srv) (srv_fresh srv))
  | None =>
      (Some c, mkServer (<[instance := <[func := c]> handlers]> (srv_handlers srv))
                 (srv_header srv) (<[c := []]> (srv_chans srv)) (c + 1))
  end.

(** An item of the stream returned by [serve]: the handles of the next
    connection in the queue. *)
Definition serve_next (paths : list (list (option N))) (srv : Server) (c : N) :
    option (C * Outgoing * World * O * Server) :=
  match srv_chans srv !! c with
  | Some ((cx, rx, tx) :: queue) =>
      Some (cx, Outgoing_new, Incoming_new paths rx, tx,
            mkServer (srv_handlers srv) (srv_header srv) (<[c := queue]> (srv_chans srv))
              (srv_fresh srv))
  | _ => None
  end.

(** Dropping the stream returned by [serve]. *)
Definition serve_drop (srv : Server) (c : N) : Server :=
  mkServer (srv_handlers srv) (srv_header srv) (delete c (srv_chans srv)) (srv_fresh srv).

(** *** The registry *)

(** Every function has its own channel. *)
Record server_wf (srv : Server) : Prop := {
  srv_unique i1 n1 i2 n2 c :
    handler srv i1 n1 = Some c → handler srv i2 n2 = Some c → i1 = i2 ∧ n1 = n2;
  srv_bound i n c : handler srv i n = Some c → (c < srv_fresh srv)%N;
  srv_chan_bound c : is_Some (srv_chans srv !! c) → (c < srv_fresh srv)%N;
  srv_queue c queue : srv_chans srv !! c = Some queue → length queue ≤ HANDLER_QUEUE
}.

Lemma handler_insert hs hd cs k i h i' f' :
  handler (mkServer (<[i := h]> hs) hd cs k) i' f' =
  if decide (i' = i) then h !! f' else handler (mkServer hs hd cs k) i' f'.
Proof.
  unfold handler; simpl. destruct (decide (i' = i)) as [->|].
  - by rewrite lookup_insert_eq.
  - by rewrite lookup_insert_ne.
Qed.

Lemma handler_default srv i f :
  default ∅ (srv_handlers srv !! i) !! f = handler srv i f.
Proof. unfold handler. by destruct (srv_handlers srv !! i). Qed.

Lemma handler_serve srv instance func i f :
  handler (Server_serve srv instance func).2 i f =
  if decide (i = instance ∧ f = func) then
    Some (default (srv_fresh srv) (handler srv instance func))
  else handler srv i f.
Proof.
  unfold Server_serve. rewrite handler_default.
  destruct (handler srv instance func) as [c|] eqn:E; simpl; rewrite handler_insert.
  - destruct (decide (i = instance)) as [->|]; [rewrite handler_default|].
    + destruct (decide (instance = instance ∧ f = func)) as [[_ ->]|]; done.
    + rewrite decide_False by naive_solver. done.
  - destruct (decide (i = instance)) as [->|].
    + destruct (decide (f = func)) as [->|].
      * rewrite lookup_insert_eq. by rewrite decide_True.
      * rewrite lookup_insert_ne, handler_default by done. by rewrite decide_False by naive_solver.
    + rewrite decide_False by naive_solver. done.
Qed.

Lemma server_wf_serve srv instance func :
  server_wf srv → server_wf (Server_serve srv instance func).2.
Proof.
  intros [H1 H2 H3 H4].
  assert (srv_fresh srv ≤ srv_fresh (Server_serve srv instance func).2)%N as Hf.
  { unfold Server_serve. destruct (_ !! func); simpl; lia. }
  assert (handler srv instance func = None →
    (srv_fresh srv < srv_fresh (Server_serve srv instance func).2)%N) as Hf'.
  { unfold Server_serve. rewrite handler_default. intros ->. simpl. lia. }
  split.
  - intros i1 n1 i2 n2 c. rewrite !handler_serve.
    destruct (decide _) as [[-> ->]|N1], (decide _) as [[-> ->]|N2]; [done| | |apply H1].
    + intros Hc Hc2. destruct (handler srv instance func) as [c'|] eqn:E; simpl in Hc.
      * simplify_eq. by destruct (H1 _ _ _ _ _ E Hc2) as [-> ->].
      * apply H2 in Hc2. injection Hc. lia.
    + intros Hc2 Hc. destruct (handler srv instance func) as [c'|] eqn:E; simpl in Hc.
      * simplify_eq. by destruct (H1 _ _ _ _ _ E Hc2) as [-> ->].
      * apply H2 in Hc2. injection Hc. lia.
  - intros i n c. rewrite handler_serve. destruct (decide _) as [[-> ->]|].
    + destruct (handler srv instance func) as [c'|] eqn:E; simpl; intros [= <-].
      * apply H2 in E. lia.
      * by apply Hf'.
    + intros ?%H2. lia.
  - intros c Hc. unfold Server_serve in *. destruct (_ !! func); simpl in *; [by apply H3|].
    apply lookup_insert_is_Some' in Hc as [<-|?%H3]; lia.
  - intros c queue. unfold Server_serve. destruct (_ !! func); simpl; [apply H4|].
    intros [[<- <-]|[_ ?]]%lookup_insert_Some; [simpl; lia|by apply (H4 c)].
Qed.

Lemma server_wf_accept `{Leb128} srv cx tx rx srv' :
  server_wf srv → Server_accept srv cx tx rx = Accepted srv' → server_wf srv'.
Proof.
  intros [H1 H2 H3 H4]. unfold Server_accept.
  destruct (HeaderDecoder_read _ _) as [[h rx']|]; [|done].
  destruct (handler srv _ _) as [c|] eqn:Eh; [|done].
  destruct (srv_chans srv !! c) as [queue|] eqn:E; [|done].
  destruct (Nat.ltb_spec (length queue) HANDLER_QUEUE); [|done].
  intros [= <-]. split; simpl; try done.
  - intros c'. rewrite lookup_insert_is_Some'. intros [<-|?]; [by eapply H2|by apply H3].
  - intros c' q. rewrite lookup_insert_Some. intros [[<- <-]|[_ ?]]; [|by eapply H4].
    rewrite length_app. simpl. lia.
Qed.

End server.
Arguments Server : clear implicits.
Arguments AcceptError : clear implicits.

(** The connection of an invocation is queued for the handler of its function. *)
Lemma accept_invocation {C O} `{Leb128Laws} `{!CoreName} `{!CoreNameLaws}
    (srv : Server C O) cx tx instance func params fs out written c queue :
  utf8_valid instance = true → utf8_valid func = true →
  (len instance ≤ hd_max_instance_len (srv_header srv))%N →
  (len func ≤ hd_max_name_len (srv_header srv))%N →
  (hd_max_instance_len (srv_header srv) ≤ u32_MAX)%N →
  (hd_max_name_len (srv_header srv) ≤ u32_MAX)%N → (len params ≤ u32_MAX)%N →
  invoke (λ w b, Ok (w ++ b)) instance func params = Ok (out, written) →
  handler srv instance func = Some c → srv_chans srv !! c = Some queue →
  length queue < HANDLER_QUEUE →
  Server_accept srv cx tx (written ++ stream fs) =
  Accepted (mkServer (srv_handlers srv) (srv_header srv)
    (<[c := queue ++ [(cx, stream ((if decide (params = []) then [] else [mkFrame [] params]) ++ fs),
                       tx)]]> (srv_chans srv)) (srv_fresh srv)).
Proof.
  intros Hu1 Hu2 Hl1 Hl2 Hm1 Hm2 Hp Hinv Hh Hc Hq. unfold invoke in Hinv.
  destruct (header_read_invocation (srv_header srv) instance func (len params)
    (params ++ stream fs)) as (e & He & Hread); [done|done|lia|lia|done..|].
  rewrite He in Hinv. simpl in Hinv. injection Hinv as <- <-.
  unfold Server_accept. rewrite <- (assoc (++)), Hread. simpl. rewrite Hh, Hc.
  destruct (Nat.ltb_spec (length queue) HANDLER_QUEUE); [|lia]. do 5 f_equal.
  destruct (decide (params = [])) as [->|Hne]; [done|].
  assert (0 < len params)%N as Hlt%N.ltb_lt by (destruct params; [done|rewrite len_cons; lia]).
  rewrite Hlt. simpl. rewrite stream_cons. unfold frame_bytes, path_bytes, len at 2; simpl.
  rewrite leb_encode_0. simpl. by rewrite <- !(assoc (++)).
Qed.

(** ** Properties *)

(** An invocation reaches the handler of the function it names, and only
    it: a connection whose client invoked [func] of [instance] with [params] and
    sent the frames [fs] then is queued, behind those which are queued already,
    for the handler which serves them, with the parameters as the first frame
    of the root. *)
Theorem invocation_dispatched {C O} `{Leb128Laws} `{!CoreName} `{!CoreNameLaws}
    (srv : Server C O) cx tx instance func params fs out written c queue :
  utf8_valid instance = true → utf8_valid func = true →
  (len instance ≤ hd_max_instance_len (srv_header srv))%N →
  (len func ≤ hd_max_name_len (srv_header srv))%N →
  (hd_max_instance_len (srv_header srv) ≤ u32_MAX)%N →
  (hd_max_name_len (srv_header srv) ≤ u32_MAX)%N → (len params ≤ u32_MAX)%N →
  invoke (λ w b, Ok (w ++ b)) instance func params = Ok (out, written) →
  handler srv instance func = Some c → srv_chans srv !! c = Some queue →
  length queue < HANDLER_QUEUE →
  Server_accept srv cx tx (written ++ stream fs) =
  Accepted (mkServer (srv_handlers srv) (srv_header srv)
    (<[c := queue ++ [(cx, stream ((if decide (params = []) then [] else [mkFrame [] params]) ++ fs),
                       tx)]]> (srv_chans srv)) (srv_fresh srv)).
Proof. apply accept_invocation. Qed.

(** The registry of the server has one handler per function: [serve] fails
    exactly if the function is served already, and then changes no handler;
    otherwise it registers a new queue for the function and leaves the other
    functions as they are. *)
Theorem serve_registers {C O} (srv : Server C O) instance func :
  server_wf srv →
  let '(r, srv') := Server_serve srv instance func in
  server_wf srv' ∧
  match handler srv instance func with
  | Some c => r = None ∧ ∀ i n, handler srv' i n = handler srv i n
  | None =>
      r = Some (srv_fresh srv) ∧ srv_chans srv' !! srv_fresh srv = Some [] ∧
      handler srv' instance func = Some (srv_fresh srv) ∧
      (∀ i n, ¬ (i = instance ∧ n = func) → handler srv' i n = handler srv i n) ∧
      (∀ c, c ≠ srv_fresh srv → srv_chans srv' !! c = srv_chans srv !! c)
  end.
Proof.
  intros Hwf. pose proof (server_wf_serve srv instance func Hwf) as Hwf'.
  pose proof (handler_serve srv instance func) as Hh.
  destruct (Server_serve srv instance func) as [r srv'] eqn:E. simpl in *. split; [done|].
  unfold Server_serve in E. rewrite handler_default in E.
  destruct (handler srv instance func) as [c|] eqn:Ec; injection E as <- <-.
  - split; [done|]. intros i n. rewrite Hh. destruct (decide _) as [[-> ->]|]; [|done]. by simpl.
  - split; [done|]. simpl. rewrite lookup_insert_eq. split; [done|]. split_and!.
    + by rewrite Hh, decide_True.
    + intros i n Hn. by rewrite Hh, decide_False.
    + intros c Hc. by rewrite lookup_insert_ne.
Qed.

(** A connection for a function which is not served is rejected, naming
    the function, and one with an invalid header with the error of reading
    it. *)
Theorem accept_errors {C O} `{Leb128} (srv : Server C O) cx tx rx :
  match HeaderDecoder_read (srv_header srv) rx with
  | Err e => Server_accept srv cx tx rx = AcceptFailed (HeaderRead e)
  | Ok (h, _) =>
      handler srv (h_instance h) (h_name h) = None →
      Server_accept srv cx tx rx = AcceptFailed (UnhandledFunction (h_instance h) (h_name h))
  end.
Proof.
  unfold Server_accept. destruct (HeaderDecoder_read _ _) as [[h rx']|e]; [|done]. by intros ->.
Qed.

(** ** Witnesses *)

Definition test_instance : bytes := [x61; x3a; x62].
Definition test_func : bytes := [x66].
Definition test_server : Server nat nat := (Server_serve Server_new test_instance test_func).2.

Lemma server_wf_new {C O} hd : server_wf (@Server_with_header_decoder C O hd).
Proof. split; unfold handler; simpl; intros *; rewrite !lookup_empty; try done. Qed.

Lemma invocation_dispatched_witness :
  ∃ srv', @Server_accept nat nat leb128_std test_server 7 8
    ([x01; x03; x61; x3a; x62; x01; x66; x00; x01; x2a] ++ @stream leb128_std test_frames) = Accepted srv'
    ∧ srv_chans srv' !! 0%N = Some [(7, @stream leb128_std (mkFrame [] [x2a] :: test_frames), 8)].
Proof.
  eexists. split.
  - apply (@invocation_dispatched nat nat leb128_std leb128_std_laws name_std name_std_laws
      test_server 7 8 test_instance test_func [x2a] test_frames Outgoing_new
      [x01; x03; x61; x3a; x62; x01; x66; x00; x01; x2a] 0%N []);
      try (vm_compute; reflexivity); try (vm_compute; discriminate); vm_compute; lia.
  - vm_compute. reflexivity.
Defined.

Lemma serve_registers_witness :
  handler test_server test_instance test_func = Some 0%N ∧
  server_wf (@Server_new nat nat).
Proof.
  pose proof (serve_registers (@Server_new nat nat) test_instance test_func
    (server_wf_new HeaderDecoder_default)) as Hs.
  split; [|apply server_wf_new]. apply Hs.
Defined.

Lemma accept_errors_witness :
  @Server_accept nat nat leb128_std test_server 7 8 [x01; x00; x01; x66] =
  AcceptFailed (UnhandledFunction [] [x66]).
Proof.
  pose proof (@accept_errors nat nat leb128_std test_server 7 8 [x01; x00; x01; x66]) as Ha.
  vm_compute in Ha |- *. by apply Ha.
Defined.
