(* ===== verification/Prims.v ===== *)
(** * Primitive value encodings

    The primitives of [wasm-tokio] the codecs of values use, as parameters
    with laws ([ValueWire], [ValueWireLaws]), and an instance of them which
    follows the encodings of the WebAssembly specification: signed LEB128 and
    UTF-8.  Little-endian integers are those of Rust's standard library. *)

From S2P Require Import Prelude Wire FrameCodec.

(** [i8] as [u8] *)
Definition byte_of_Z (z : Z) : byte := byte_of_N (Z.to_N (z mod 256)).

(** The primitives of [wasm-tokio] beyond those of [Leb128] and [CoreName]. *)
Class ValueWire := {
  sleb_encode : Z → bytes;
  sleb_read : N → bytes → io_result (Z * bytes);
  char_encode : N → bytes;
  char_read : bytes → io_result (N * bytes);
  name_read : bytes → io_result (bytes * bytes);
  read_bool : bytes → io_result (bool * bytes);
  read_option_status : bytes → io_result (bool * bytes);
  read_result_status : bytes → io_result (bool * bytes)
}.

(** [n] as [k] little-endian bytes, and back: [put_*_le] and [read_*_le]. *)
Fixpoint le_bytes (k : nat) (n : N) : bytes :=
  match k with
  | O => []
  | S k => byte_of_N n :: le_bytes k (n / 256)
  end.

Fixpoint of_le_bytes (bs : bytes) : N :=
  match bs with
  | [] => 0
  | b :: bs => Byte.to_N b + 256 * of_le_bytes bs
  end.

Definition is_char (c : N) : bool :=
  (c <? 55296)%N || (57344 <=? c)%N && (c <? 1114112)%N.

Class ValueWireLaws `{Leb128, CoreName, ValueWire} : Prop := {
  sleb_read_encode w z rest :
    w ∈ [16; 32; 64]%N → (- 2 ^ (Z.of_N w - 1) ≤ z < 2 ^ (Z.of_N w - 1))%Z →
    sleb_read w (sleb_encode z ++ rest) = Ok (z, rest);
  char_read_encode c rest : is_char c = true → char_read (char_encode c ++ rest) = Ok (c, rest);
  name_read_encode s rest :
    utf8_valid s = true → (len s ≤ u32_MAX)%N →
    name_read (leb_encode (len s) ++ s ++ rest) = Ok (s, rest);
  read_bool_spec b rest : read_bool (byte_of_N (if b : bool then 1 else 0) :: rest) = Ok (b, rest);
  read_option_status_spec b rest :
    read_option_status (byte_of_N (if b : bool then 1 else 0) :: rest) = Ok (b, rest);
  read_result_status_spec (ok : bool) rest :
    read_result_status (byte_of_N (if ok then 0 else 1) :: rest) = Ok (ok, rest)
}.

(** ** An instance *)

(** Signed LEB128, [fuel] bounding the number of bytes. *)
Fixpoint sleb (fuel : nat) (z : Z) : bytes :=
  match fuel with
  | O => []
  | S fuel =>
      let b := (z mod 128)%Z in
      let r := (z / 128)%Z in
      if ((r =? 0) && (b <? 64) || (r =? -1) && (64 <=? b))%Z then [byte_of_Z b]
      else byte_of_Z (b + 128) :: sleb fuel r
  end.

Fixpoint sleb_scan (fuel : nat) (bs : bytes) : io_result (Z * bytes) :=
  match fuel, bs with
  | O, _ => Err InvalidData
  | S _, [] => Err UnexpectedEof
  | S fuel, b :: bs =>
      let v := Z.of_N (Byte.to_N b) in
      if (v <? 128)%Z then Ok (if (v <? 64)%Z then v else (v - 128)%Z, bs)
      else
        let? (z, rest) := sleb_scan fuel bs in
        Ok ((v - 128 + 128 * z)%Z, rest)
  end.

Definition utf8_char (c : N) : bytes :=
  let q := (c / 64)%N in
  let r := (q / 64)%N in
  if (c <? 128)%N then [byte_of_N c]
  else if (c <? 2048)%N then [byte_of_N (192 + q); byte_of_N (128 + c mod 64)]
  else if (c <? 65536)%N then
    [byte_of_N (224 + r); byte_of_N (128 + q mod 64); byte_of_N (128 + c mod 64)]
  else
    [byte_of_N (240 + r / 64); byte_of_N (128 + r mod 64); byte_of_N (128 + q mod 64);
     byte_of_N (128 + c mod 64)].

Definition utf8_char_len (v : N) : nat :=
  if (v <? 128)%N then 1 else if (v <? 224)%N then 2 else if (v <? 240)%N then 3 else 4.

Definition utf8_char_value (bs : bytes) : N :=
  match Byte.to_N <$> bs with
  | [a] => a
  | [a; b] => (a - 192) * 64 + (b - 128)
  | [a; b; c] => ((a - 224) * 64 + (b - 128)) * 64 + (c - 128)
  | [a; b; c; d] => (((a - 240) * 64 + (b - 128)) * 64 + (c - 128)) * 64 + (d - 128)
  | _ => 0
  end.

Definition utf8_char_read (bs : bytes) : io_result (N * bytes) :=
  match bs with
  | [] => Err UnexpectedEof
  | b :: _ =>
      let? (buf, rest) := read_exact (N.of_nat (utf8_char_len (Byte.to_N b))) bs in
      let c := utf8_char_value buf in
      if is_char c && bool_decide (utf8_char c = buf) then Ok (c, rest) else Err InvalidData
  end.

Definition read_flag (zero : bool) (rx : bytes) : io_result (bool * bytes) :=
  let? (b, rx) := read_u8 rx in
  if (Byte.to_N b =? 0)%N then Ok (zero, rx)
  else if (Byte.to_N b =? 1)%N then Ok (negb zero, rx)
  else Err InvalidData.

Definition value_wire_std : ValueWire := {|
  sleb_encode z := sleb (S (Z.to_nat (Z.log2_up (Z.abs z + 2)))) z;
  sleb_read w := sleb_scan (N.to_nat (w / 7 + 1));
  char_encode := utf8_char;
  char_read := utf8_char_read;
  name_read := @read_name leb128_std u32_MAX;
  read_bool := read_flag false;
  read_option_status := read_flag false;
  read_result_status := read_flag true
|}.

(** ** Lemmas *)

Lemma to_N_byte_of_Z z : Z.of_N (Byte.to_N (byte_of_Z z)) = (z mod 256)%Z.
Proof. unfold byte_of_Z. rewrite to_N_byte_of_N. lia. Qed.

Lemma le_bytes_length k n : length (le_bytes k n) = k.
Proof. revert n. induction k; intros; simpl; auto. Qed.

Lemma of_le_bytes_le_bytes k n : (n < 256 ^ N.of_nat k)%N → of_le_bytes (le_bytes k n) = n.
Proof.
  revert n. induction k as [|k IH]; intros n Hn; cbn [le_bytes of_le_bytes].
  { simpl in Hn. lia. }
  rewrite Nat2N.inj_succ, N.pow_succ_r' in Hn.
  rewrite to_N_byte_of_N, IH; lia.
Qed.

Lemma le_bytes_lookup k n j :
  j < k → le_bytes k n !! j = Some (byte_of_N (N.shiftr n (8 * N.of_nat j))).
Proof.
  revert n j. induction k as [|k IH]; intros n j Hj; [lia|]. cbn [le_bytes].
  destruct j as [|j]; [done|]. cbn [lookup list_lookup]. rewrite IH by lia.
  do 2 f_equal. replace (n / 256)%N with (N.shiftr n 8) by (by rewrite N.shiftr_div_pow2).
  rewrite N.shiftr_shiftr. f_equal. lia.
Qed.

Lemma testbit_byte_of_N n b :
  N.testbit (Byte.to_N (byte_of_N n)) b = (b <? 8)%N && N.testbit n b.
Proof.
  rewrite to_N_byte_of_N. change 256%N with (2 ^ 8)%N.
  destruct (N.ltb_spec b 8); [by rewrite N.mod_pow2_bits_low|by rewrite N.mod_pow2_bits_high].
Qed.

Lemma testbit_byte_high (x : byte) b : (8 ≤ b)%N → N.testbit (Byte.to_N x) b = false.
Proof.
  intros. rewrite <- (byte_of_N_to_N x), testbit_byte_of_N.
  by destruct (N.ltb_spec b 8); [lia|].
Qed.

(** Bytes with the same bits are equal. *)
Lemma byte_bits_inj (x y : byte) :
  (∀ b, (b < 8)%N → N.testbit (Byte.to_N x) b = N.testbit (Byte.to_N y) b) → x = y.
Proof.
  intros Hb. rewrite <- (byte_of_N_to_N x), <- (byte_of_N_to_N y). f_equal.
  apply N.bits_inj. intros b. destruct (N.lt_ge_cases b 8); [auto|].
  by rewrite !testbit_byte_high.
Qed.

Lemma pow128_succ_Z k : (128 ^ Z.of_nat (S k) = 128 * 128 ^ Z.of_nat k)%Z.
Proof. rewrite Nat2Z.inj_succ, Z.pow_succ_r by lia. done. Qed.

Lemma sleb_S fuel z :
  sleb (S fuel) z =
  if ((z / 128 =? 0) && (z mod 128 <? 64) || (z / 128 =? -1) && (64 <=? z mod 128))%Z
  then [byte_of_Z (z mod 128)]
  else byte_of_Z (z mod 128 + 128) :: sleb fuel (z / 128).
Proof. done. Qed.

Lemma sleb_scan_cons fuel b bs :
  sleb_scan (S fuel) (b :: bs) =
  if (Z.of_N (Byte.to_N b) <? 128)%Z
  then Ok (if (Z.of_N (Byte.to_N b) <? 64)%Z then Z.of_N (Byte.to_N b)
           else (Z.of_N (Byte.to_N b) - 128)%Z, bs)
  else
    let? (z, rest) := sleb_scan fuel bs in
    Ok ((Z.of_N (Byte.to_N b) - 128 + 128 * z)%Z, rest).
Proof. done. Qed.

Lemma sleb_scan_sleb fe fd z rest :
  (- (64 * 128 ^ Z.of_nat fe) ≤ z < 64 * 128 ^ Z.of_nat fe)%Z →
  (- (64 * 128 ^ Z.of_nat fd) ≤ z < 64 * 128 ^ Z.of_nat fd)%Z →
  sleb_scan (S fd) (sleb (S fe) z ++ rest) = Ok (z, rest).
Proof.
  revert fd z. induction fe as [|fe IH]; intros fd z He Hd; rewrite sleb_S.
  all: pose proof (Z.mod_pos_bound z 128 ltac:(lia)); pose proof (Z.div_mod z 128 ltac:(lia)).
  all: destruct ((z / 128 =? 0) && (z mod 128 <? 64) || (z / 128 =? -1) && (64 <=? z mod 128))%Z
    eqn:E; cbn [app]; rewrite sleb_scan_cons, to_N_byte_of_Z.
  1, 3: rewrite Z.mod_small by lia; destruct (Z.ltb_spec (z mod 128) 128); [|lia];
        destruct (Z.ltb_spec (z mod 128) 64); do 2 f_equal; lia.
  { exfalso. simpl in He. lia. }
  rewrite Z.mod_small by lia. destruct (Z.ltb_spec (z mod 128 + 128) 128); [lia|].
  destruct fd as [|fd]; [exfalso; simpl in Hd; lia|].
  rewrite pow128_succ_Z in He, Hd.
  rewrite IH by (split; [apply Z.div_le_lower_bound|apply Z.div_lt_upper_bound]; lia).
  simp_res. do 2 f_equal. lia.
Qed.

Lemma sleb_fuel_enough z :
  let k := Z.to_nat (Z.log2_up (Z.abs z + 2)) in
  (- (64 * 128 ^ Z.of_nat k) ≤ z < 64 * 128 ^ Z.of_nat k)%Z.
Proof.
  intros k. assert (Z.abs z + 2 ≤ 2 ^ Z.of_nat k)%Z as Hk.
  { unfold k. rewrite Z2Nat.id by apply Z.log2_up_nonneg. apply Z.log2_up_spec. lia. }
  pose proof (Z.pow_le_mono_l 2 128 (Z.of_nat k) ltac:(lia)). lia.
Qed.

Lemma utf8_char_read_encode c rest :
  is_char c = true → utf8_char_read (utf8_char c ++ rest) = Ok (c, rest).
Proof.
  intros Hc. assert (c < 1114112)%N as Hlt.
  { unfold is_char in Hc. rewrite orb_true_iff, andb_true_iff, !N.ltb_lt in Hc. lia. }
  assert (∃ b bs, utf8_char c = b :: bs ∧ utf8_char_len (Byte.to_N b) = S (length bs) ∧
    utf8_char_value (utf8_char c) = c) as (b & bs & E & Hlen & Hv).
  { pose proof (N.div_mod' c 64) as H1. pose proof (N.mod_lt c 64 ltac:(done)).
    unfold utf8_char, utf8_char_value, utf8_char_len.
    set (q := (c / 64)%N) in *. set (m := (c mod 64)%N) in *. clearbody q m.
    pose proof (N.div_mod' q 64) as H2. pose proof (N.mod_lt q 64 ltac:(done)).
    set (r := (q / 64)%N) in *. set (k := (q mod 64)%N) in *. clearbody r k.
    pose proof (N.div_mod' r 64) as H3. pose proof (N.mod_lt r 64 ltac:(done)).
    set (t := (r / 64)%N) in *. set (j := (r mod 64)%N) in *. clearbody t j.
    destruct (N.ltb_spec c 128); [|destruct (N.ltb_spec c 2048); [|destruct (N.ltb_spec c 65536)]].
    all: eexists _, _; split; [reflexivity|]; cbn [fmap list_fmap];
      rewrite !to_N_byte_of_N, !N.mod_small by lia;
      repeat match goal with |- context [(?a <? ?b)%N] => destruct (N.ltb_spec a b); try lia end;
      split; [reflexivity|lia]. }
  unfold utf8_char_read. rewrite E. cbn [app]. rewrite Hlen.
  change (b :: bs ++ rest) with ((b :: bs) ++ rest).
  replace (N.of_nat (S (length bs))) with (len (b :: bs)) by done.
  rewrite read_exact_app. simp_res. rewrite <- E, Hv, Hc. by rewrite bool_decide_true.
Qed.

Lemma value_wire_std_laws : @ValueWireLaws leb128_std name_std value_wire_std.
Proof.
  pose proof leb128_std_laws.
  split; cbn [value_wire_std sleb_encode sleb_read char_encode char_read name_read read_bool
    read_option_status read_result_status].
  - intros w z rest Hw Hz. rewrite !elem_of_cons in Hw.
    assert (∃ fd, N.to_nat (w / 7 + 1) = S fd ∧
      (2 ^ (Z.of_N w - 1) ≤ 64 * 128 ^ Z.of_nat fd)%Z) as (fd & -> & Hfd).
    { destruct Hw as [->|[->|[->|[]%not_elem_of_nil]]]; eexists; (split; [reflexivity|]);
        vm_compute; discriminate. }
    apply sleb_scan_sleb; [apply sleb_fuel_enough|lia].
  - apply utf8_char_read_encode.
  - intros s rest Hs Hlen. rewrite <- (assoc (++)) || idtac. rewrite read_name_spec by done.
    destruct (N.ltb_spec u32_MAX (len s)); [lia|]. by rewrite Hs.
  - by intros [].
  - by intros [].
  - by intros [].
Qed.
