(* ===== verification/Wave.v ===== *)
(** * Encoding of dynamically typed values

    Model of [crates/wave/src/encode.rs] and [crates/wave/src/decode.rs]: the
    encoder and the reader of values which implement the traits of
    [wasm_wave], and [decode_value].

    The types and values of [wasm_wave] are not part of the repository: they
    are parameters, seen through their [kind] and the [unwrap] functions
    ([ty_view], [val_view]) and built by the [make] functions ([make]).
    [has_type] says when a value is one of a type.  The primitives of
    [wasm-tokio] are parameters as well, with the laws of [ValueWireLaws].
    Recursion is on the depth of the value: [n] bounds it. *)

From S2P Require Import Prelude Wire FrameCodec Prims.

(** ** Parameters *)

Inductive TypeView (T : Type) :=
  | KBool | KS8 | KU8 | KS16 | KU16 | KS32 | KU32 | KS64 | KU64 | KF32 | KF64 | KChar | KString
  | KList (element : option T)
  | KRecord (fields : list (bytes * T))
  | KTuple (types : list T)
  | KVariant (cases : list (bytes * option T))
  | KEnum (names : list bytes)
  | KOption (some : option T)
  | KResult (types : option (option T * option T))
  | KFlags (names : list bytes)
  | KUnsupported.
Arguments KBool {T}. Arguments KS8 {T}. Arguments KU8 {T}. Arguments KS16 {T}. Arguments KU16 {T}.
Arguments KS32 {T}. Arguments KU32 {T}. Arguments KS64 {T}. Arguments KU64 {T}. Arguments KF32 {T}.
Arguments KF64 {T}. Arguments KChar {T}. Arguments KString {T}. Arguments KList {T}.
Arguments KRecord {T}. Arguments KTuple {T}. Arguments KVariant {T}. Arguments KEnum {T}.
Arguments KOption {T}. Arguments KResult {T}. Arguments KFlags {T}. Arguments KUnsupported {T}.

(** Floats are their bits, characters their code points. *)
Inductive ValueView (V : Type) :=
  | VBool (b : bool)
  | VS8 (z : Z) | VU8 (n : N) | VS16 (z : Z) | VU16 (n : N) | VS32 (z : Z) | VU32 (n : N)
  | VS64 (z : Z) | VU64 (n : N) | VF32 (bits : N) | VF64 (bits : N)
  | VChar (c : N)
  | VString (s : bytes)
  | VList (vs : list V)
  | VRecord (fields : list (bytes * V))
  | VTuple (vs : list V)
  | VVariant (case : bytes) (payload : option V)
  | VEnum (case : bytes)
  | VOption (v : option V)
  | VResult (ok : bool) (v : option V)
  | VFlags (flags : list bytes)
  | VUnsupported.
Arguments VBool {V}. Arguments VS8 {V}. Arguments VU8 {V}. Arguments VS16 {V}. Arguments VU16 {V}.
Arguments VS32 {V}. Arguments VU32 {V}. Arguments VS64 {V}. Arguments VU64 {V}. Arguments VF32 {V}.
Arguments VF64 {V}. Arguments VChar {V}. Arguments VString {V}. Arguments VList {V}.
Arguments VRecord {V}. Arguments VTuple {V}. Arguments VVariant {V}. Arguments VEnum {V}.
Arguments VOption {V}. Arguments VResult {V}. Arguments VFlags {V}. Arguments VUnsupported {V}.

(** The traits [WasmType] and [WasmValue]; [make] is [None] where the trait
    returns an error. *)
Class WasmValue (T V : Type) := {
  ty_view : T → TypeView T;
  val_view : V → ValueView V;
  make : T → ValueView V → option V
}.

Section wave.
Context {T V : Type} `{WasmValue T V} `{Leb128, CoreName, ValueWire}.

(** The accessors of [WasmType]. *)
Definition list_element_type (ty : T) : option T :=
  match ty_view ty with KList e => e | _ => None end.
Definition record_fields (ty : T) : list (bytes * T) :=
  match ty_view ty with KRecord fs => fs | _ => [] end.
Definition tuple_element_types (ty : T) : list T :=
  match ty_view ty with KTuple ts => ts | _ => [] end.
Definition variant_cases (ty : T) : list (bytes * option T) :=
  match ty_view ty with KVariant cs => cs | _ => [] end.
Definition enum_cases (ty : T) : list bytes :=
  match ty_view ty with KEnum ns => ns | _ => [] end.
Definition option_some_type (ty : T) : option T :=
  match ty_view ty with KOption t => t | _ => None end.
Definition result_types (ty : T) : option (option T * option T) :=
  match ty_view ty with KResult r => r | _ => None end.
Definition flags_names (ty : T) : list bytes :=
  match ty_view ty with KFlags ns => ns | _ => [] end.

(** ** Encoding *)

Definition find_enum_discriminant (names : list bytes) (discriminant : bytes) : option N :=
  (λ x, N.of_nat x.1) <$> list_find (λ name, name = discriminant) names.

Definition find_variant_discriminant (cases : list (bytes * option T)) (discriminant : bytes) :
    option (N * option T) :=
  (λ x, (N.of_nat x.1, x.2.2)) <$> list_find (λ c, c.1 = discriminant) cases.

(** The bits of the flags with the names from the index [i] on. *)
Fixpoint flag_bits_from (i : nat) (names flags : list bytes) : N :=
  match names with
  | [] => 0
  | name :: names =>
      N.lor (if decide (name ∈ flags) then N.shiftl 1 (N.of_nat i) else 0)
        (flag_bits_from (S i) names flags)
  end.

(** [flag_bits::<T>] of a type of [w] bits. *)
Definition flag_bits (w : N) (names flags : list bytes) : N :=
  (flag_bits_from 0 names flags mod 2 ^ w)%N.

(** [buf[i / 8] |= 1 << (i % 8)] for the flags which are set. *)
Fixpoint set_flags (i : nat) (names flags : list bytes) (buf : list N) : list N :=
  match names with
  | [] => buf
  | name :: names =>
      set_flags (S i) names flags
        (if decide (name ∈ flags) then
           alter (λ b, N.lor b (N.shiftl 1 (N.of_nat (i mod 8)))) (i / 8) buf
         else buf)
  end.

Definition div_ceil (n k : nat) : nat := (n + k - 1) / k.

(** The encoding of flags, by the number of their names. *)
Definition encode_flags (names flags : list bytes) : bytes :=
  let n := length names in
  if n <=? 8 then le_bytes 1 (flag_bits 8 names flags)
  else if n <=? 16 then le_bytes 2 (flag_bits 16 names flags)
  else if n <=? 24 then take 3 (le_bytes 4 (flag_bits 32 names flags))
  else if n <=? 32 then le_bytes 4 (flag_bits 32 names flags)
  else if n <=? 40 then take 5 (le_bytes 8 (flag_bits 64 names flags))
  else if n <=? 48 then take 6 (le_bytes 8 (flag_bits 64 names flags))
  else if n <=? 56 then take 7 (le_bytes 8 (flag_bits 64 names flags))
  else if n <=? 64 then le_bytes 8 (flag_bits 64 names flags)
  else if n <=? 72 then take 9 (le_bytes 16 (flag_bits 128 names flags))
  else if n <=? 80 then take 10 (le_bytes 16 (flag_bits 128 names flags))
  else if n <=? 88 then take 11 (le_bytes 16 (flag_bits 128 names flags))
  else if n <=? 96 then take 12 (le_bytes 16 (flag_bits 128 names flags))
  else if n <=? 104 then take 13 (le_bytes 16 (flag_bits 128 names flags))
  else if n <=? 112 then take 14 (le_bytes 16 (flag_bits 128 names flags))
  else if n <=? 120 then take 15 (le_bytes 16 (flag_bits 128 names flags))
  else if n <=? 128 then le_bytes 16 (flag_bits 128 names flags)
  else byte_of_N <$> set_flags 0 names flags (replicate (div_ceil n 8) 0%N).

(** Encodes the values of a sequence with their types; the shorter of the two
    decides ([zip]). *)
Fixpoint encode_zip (f : T → V → bytes → option bytes) (vs : list V) (tys : list T) (dst : bytes) :
    option bytes :=
  match vs, tys with
  | v :: vs, ty :: tys => dst ← f ty v dst; encode_zip f vs tys dst
  | _, _ => Some dst
  end.

Fixpoint encode_list (f : V → bytes → option bytes) (vs : list V) (dst : bytes) : option bytes :=
  match vs with
  | [] => Some dst
  | v :: vs => dst ← f v dst; encode_list f vs dst
  end.

Definition encode_variant (f : T → V → bytes → option bytes) (cases : list (bytes * option T))
    (case : bytes) (payload : option V) (dst : bytes) : option bytes :=
  if (len cases <=? u32_MAX)%N then
    '(discriminant, ty) ← find_variant_discriminant cases case;
    let dst := dst ++ leb_encode discriminant in
    match payload, ty with
    | Some v, Some ty => f ty v dst
    | None, None => Some dst
    | _, _ => None
    end
  else None.

Definition encode_enum (names : list bytes) (case : bytes) (dst : bytes) : option bytes :=
  if (len names <=? u32_MAX)%N then
    discriminant ← find_enum_discriminant names case;
    Some (dst ++ leb_encode discriminant)
  else None.

Definition encode_result (f : T → V → bytes → option bytes) (types : option (option T * option T))
    (ok : bool) (v : option V) (dst : bytes) : option bytes :=
  '(ok_ty, err_ty) ← types;
  match v, (if ok then ok_ty else err_ty) with
  | Some v, Some ty => f ty v (dst ++ [byte_of_N (if ok then 0 else 1)])
  | None, None => Some (dst ++ [byte_of_N (if ok then 0 else 1)])
  | _, _ => None
  end.

(** [ValueEncoder::encode] *)
Fixpoint encode (n : nat) (ty : T) (val : V) (dst : bytes) : option bytes :=
  match n with
  | O => None
  | S n =>
      match val_view val with
      | VBool b => Some (dst ++ [byte_of_N (if b then 1 else 0)])
      | VS8 z => Some (dst ++ [byte_of_Z z])
      | VU8 k => Some (dst ++ [byte_of_N k])
      | VS16 z | VS32 z | VS64 z => Some (dst ++ sleb_encode z)
      | VU16 k | VU32 k | VU64 k => Some (dst ++ leb_encode k)
      | VF32 bits => Some (dst ++ le_bytes 4 bits)
      | VF64 bits => Some (dst ++ le_bytes 8 bits)
      | VChar c => Some (dst ++ char_encode c)
      | VString s => match name_encode s with Ok e => Some (dst ++ e) | Err _ => None end
      | VList vs =>
          match u32_try_from (len vs) with
          | Err _ => None
          | Ok k =>
              ty ← list_element_type ty;
              encode_list (encode n ty) vs (dst ++ leb_encode k)
          end
      | VRecord fields => encode_zip (encode n) fields.*2 (record_fields ty).*2 dst
      | VTuple vs => encode_zip (encode n) vs (tuple_element_types ty) dst
      | VVariant case payload => encode_variant (encode n) (variant_cases ty) case payload dst
      | VEnum case => encode_enum (enum_cases ty) case dst
      | VOption None => Some (dst ++ [byte_of_N 0])
      | VOption (Some v) =>
          ty ← option_some_type ty; encode n ty v (dst ++ [byte_of_N 1])
      | VResult ok v => encode_result (encode n) (result_types ty) ok v dst
      | VFlags flags => Some (dst ++ encode_flags (flags_names ty) flags)
      | VUnsupported => None
      end
  end.

(** ** Decoding *)

Definition io_error {A} : io_result A := Err InvalidData.

Fixpoint read_list (f : bytes → io_result (V * bytes)) (k : nat) (rx : bytes) :
    io_result (list V * bytes) :=
  match k with
  | O => Ok ([], rx)
  | S k =>
      let? (v, rx) := f rx in
      let? (vs, rx) := read_list f k rx in
      Ok (v :: vs, rx)
  end.

Fixpoint read_types (f : T → bytes → io_result (V * bytes)) (tys : list T) (rx : bytes) :
    io_result (list V * bytes) :=
  match tys with
  | [] => Ok ([], rx)
  | ty :: tys =>
      let? (v, rx) := f ty rx in
      let? (vs, rx) := read_types f tys rx in
      Ok (v :: vs, rx)
  end.

Definition read_opt (f : T → bytes → io_result (V * bytes)) (ty : option T) (rx : bytes) :
    io_result (option V * bytes) :=
  match ty with
  | Some ty => let? (v, rx) := f ty rx in Ok (Some v, rx)
  | None => Ok (None, rx)
  end.

(** The names of the flags whose bit is set in [buf], from the index [i] on. *)
Fixpoint flags_set (i : nat) (names : list bytes) (buf : bytes) : list bytes :=
  match names with
  | [] => []
  | name :: names =>
      if N.testbit (Byte.to_N (default x00 (buf !! (i / 8)))) (N.of_nat (i mod 8))
      then name :: flags_set (S i) names buf
      else flags_set (S i) names buf
  end.

Definition read_le (k : nat) (rx : bytes) : io_result (N * bytes) :=
  let? (buf, rx) := read_exact (N.of_nat k) rx in Ok (of_le_bytes buf, rx).

(** [make] with its error as [InvalidData] *)
Definition make_value (ty : T) (v : ValueView V) (rx : bytes) : io_result (V * bytes) :=
  match make ty v with Some v => Ok (v, rx) | None => io_error end.

Definition read_i8 (rx : bytes) : io_result (Z * bytes) :=
  let? (b, rx) := read_u8 rx in
  let k := Z.of_N (Byte.to_N b) in
  Ok (if (k <? 128)%Z then k else (k - 256)%Z, rx).

Fixpoint read_value (n : nat) (ty : T) (rx : bytes) : io_result (V * bytes) :=
  match n with
  | O => io_error
  | S n =>
      match ty_view ty with
      | KBool => let? (b, rx) := read_bool rx in make_value ty (VBool b) rx
      | KS8 => let? (z, rx) := read_i8 rx in make_value ty (VS8 z) rx
      | KU8 => let? (b, rx) := read_u8 rx in make_value ty (VU8 (Byte.to_N b)) rx
      | KS16 => let? (z, rx) := sleb_read 16 rx in make_value ty (VS16 z) rx
      | KU16 => let? (k, rx) := leb_read 16 rx in make_value ty (VU16 k) rx
      | KS32 => let? (z, rx) := sleb_read 32 rx in make_value ty (VS32 z) rx
      | KU32 => let? (k, rx) := leb_read 32 rx in make_value ty (VU32 k) rx
      | KS64 => let? (z, rx) := sleb_read 64 rx in make_value ty (VS64 z) rx
      | KU64 => let? (k, rx) := leb_read 64 rx in make_value ty (VU64 k) rx
      | KF32 => let? (k, rx) := read_le 4 rx in make_value ty (VF32 k) rx
      | KF64 => let? (k, rx) := read_le 8 rx in make_value ty (VF64 k) rx
      | KChar => let? (c, rx) := char_read rx in make_value ty (VChar c) rx
      | KString => let? (s, rx) := name_read rx in make_value ty (VString s) rx
      | KList element =>
          let? (k, rx) := leb_read 32 rx in
          let? element := ok_or InvalidData element in
          let? (vs, rx) := read_list (read_value n element) (N.to_nat k) rx in
          make_value ty (VList vs) rx
      | KRecord fields =>
          let? (vs, rx) := read_types (read_value n) fields.*2 rx in
          make_value ty (VRecord (zip fields.*1 vs)) rx
      | KTuple tys =>
          let? (vs, rx) := read_types (read_value n) tys rx in
          make_value ty (VTuple vs) rx
      | KVariant cases =>
          let? (discriminant, rx) := leb_read 32 rx in
          let? (name, payload) := ok_or InvalidData (cases !! N.to_nat discriminant) in
          let? (v, rx) := read_opt (read_value n) payload rx in
          make_value ty (VVariant name v) rx
      | KEnum names =>
          let? (discriminant, rx) := leb_read 32 rx in
          let? name := ok_or InvalidData (names !! N.to_nat discriminant) in
          make_value ty (VEnum name) rx
      | KOption some =>
          let? (is_some, rx) := read_option_status rx in
          if is_some then
            let? some := ok_or InvalidData some in
            let? (v, rx) := read_value n some rx in
            make_value ty (VOption (Some v)) rx
          else make_value ty (VOption None) rx
      | KResult types =>
          let? (ok, rx) := read_result_status rx in
          let? (ok_ty, err_ty) := ok_or InvalidData types in
          let? (v, rx) := read_opt (read_value n) (if ok then ok_ty else err_ty) rx in
          make_value ty (VResult ok v) rx
      | KFlags names =>
          let? (buf, rx) := read_exact (N.of_nat (div_ceil (length names) 8 `max` 1)) rx in
          make_value ty (VFlags (flags_set 0 names buf)) rx
      | KUnsupported => io_error
      end
  end.

(** [decode_value]: the reader never waits. *)
Definition decode_value (n : nat) (buf : bytes) (ty : T) : io_result V :=
  let? (v, rest) := read_value n ty buf in
  match rest with
  | [] => Ok v
  | _ => io_error
  end.

(** ** Specification *)

Definition s_range (w : N) (z : Z) : Prop := (- 2 ^ (Z.of_N w - 1) ≤ z < 2 ^ (Z.of_N w - 1))%Z.

(** The value is one of the type and its lengths fit 32-bit integers; [n]
    bounds its depth. *)
Fixpoint has_type (n : nat) (ty : T) (v : V) : Prop :=
  match n with
  | O => False
  | S n =>
      let opt ty v :=
        match ty, v with
        | Some ty, Some v => has_type n ty v
        | None, None => True
        | _, _ => False
        end in
      match ty_view ty, val_view v with
      | KBool, VBool _ => True
      | KS8, VS8 z => s_range 8 z
      | KU8, VU8 k => (k < 2 ^ 8)%N
      | KS16, VS16 z => s_range 16 z
      | KU16, VU16 k => (k < 2 ^ 16)%N
      | KS32, VS32 z => s_range 32 z
      | KU32, VU32 k => (k < 2 ^ 32)%N
      | KS64, VS64 z => s_range 64 z
      | KU64, VU64 k => (k < 2 ^ 64)%N
      | KF32, VF32 k => (k < 2 ^ 32)%N
      | KF64, VF64 k => (k < 2 ^ 64)%N
      | KChar, VChar c => is_char c = true
      | KString, VString s => utf8_valid s = true ∧ (len s ≤ u32_MAX)%N
      | KList (Some ty), VList vs => (len vs ≤ u32_MAX)%N ∧ Forall (has_type n ty) vs
      | KRecord fields, VRecord vs =>
          vs.*1 = fields.*1 ∧ Forall2 (has_type n) fields.*2 vs.*2
      | KTuple tys, VTuple vs => Forall2 (has_type n) tys vs
      | KVariant cases, VVariant case payload =>
          (len cases ≤ u32_MAX)%N ∧
          ∃ i ty, list_find (λ c, c.1 = case) cases = Some (i, (case, ty)) ∧ opt ty payload
      | KEnum names, VEnum case =>
          (len names ≤ u32_MAX)%N ∧ ∃ i, list_find (λ c, c = case) names = Some (i, case)
      | KOption (Some ty), VOption (Some v) => has_type n ty v
      | KOption _, VOption None => True
      | KResult (Some (ok_ty, err_ty)), VResult ok v => opt (if ok then ok_ty else err_ty) v
      | KFlags names, VFlags flags => Forall (.∈ names) flags
      | _, _ => False
      end
  end.

(** The flags of the value in the order of the names of the type. *)
Definition canonical (ty : T) (v : ValueView V) : ValueView V :=
  match v with
  | VFlags flags => VFlags (filter (λ name, name ∈ flags) (flags_names ty))
  | v => v
  end.

End wave.

(** The [make] functions build the value with the given contents. *)
Class WasmValueLaws (T V : Type) `{WasmValue T V} : Prop := {
  make_view n (ty : T) (v : V) : has_type n ty v → make ty (canonical ty (val_view v)) = Some v
}.

(** ** Flags *)

Section flags.
Implicit Types names flags : list bytes.

(** The flag [k] of the type is one of [flags]. *)
Definition flag_at names flags (k : nat) : bool :=
  match names !! k with
  | Some name => bool_decide (name ∈ flags)
  | None => false
  end.

(** The bytes of an encoding of flags: one bit per name, least significant
    bits first. *)
Definition flags_width names : nat := div_ceil (length names) 8 `max` 1.

Definition flag_byte_ok names flags (j : nat) (b : byte) : Prop :=
  ∀ k, k < 8 → N.testbit (Byte.to_N b) (N.of_nat k) = flag_at names flags (8 * j + k).

Lemma testbit_one_shiftl i j :
  N.testbit (N.shiftl 1 (N.of_nat i)) (N.of_nat j) = bool_decide (i = j).
Proof.
  destruct (decide (j < i)) as [|Hge].
  - rewrite N.shiftl_spec_low by lia. symmetry. apply bool_decide_eq_false. lia.
  - rewrite N.shiftl_spec_high' by lia. destruct (decide (i = j)) as [->|].
    + rewrite N.sub_diag, bool_decide_true by done. done.
    + rewrite bool_decide_false by done.
      destruct (N.of_nat j - N.of_nat i)%N eqn:E; [lia|done].
Qed.

Lemma flag_at_cons name names flags i j :
  bool_decide (i = j) && bool_decide (name ∈ flags)
    || (S i <=? j) && flag_at names flags (j - S i) =
  (i <=? j) && flag_at (name :: names) flags (j - i).
Proof.
  destruct (decide (i = j)) as [->|].
  - rewrite bool_decide_true, Nat.sub_diag by done. rewrite Nat.leb_refl.
    destruct (Nat.leb_spec (S j) j); [lia|]. cbn [andb]. by rewrite orb_false_r.
  - rewrite (bool_decide_false (i = j)) by done. cbn [andb orb]. unfold flag_at.
    destruct (Nat.leb_spec (S i) j), (Nat.leb_spec i j); try lia; try done.
    by replace (j - i) with (S (j - S i)) by lia.
Qed.

Lemma flag_bits_from_testbit i names flags j :
  N.testbit (flag_bits_from i names flags) (N.of_nat j) =
  (i <=? j) && flag_at names flags (j - i).
Proof.
  revert i. induction names as [|name names IH]; intros i; cbn [flag_bits_from].
  { rewrite N.bits_0. unfold flag_at. rewrite lookup_nil. by rewrite andb_false_r. }
  rewrite N.lor_spec, IH, <- flag_at_cons. f_equal.
  destruct (decide (name ∈ flags)).
  - rewrite testbit_one_shiftl, (bool_decide_true (name ∈ flags)) by done. by rewrite andb_true_r.
  - rewrite N.bits_0, (bool_decide_false (name ∈ flags)) by done. by rewrite andb_false_r.
Qed.

Lemma le_flag_bits_ok w k names flags j :
  (8 * N.of_nat k ≤ w)%N → j < k →
  ∃ b, le_bytes k (flag_bits w names flags) !! j = Some b ∧ flag_byte_ok names flags j b.
Proof.
  intros Hw Hj. rewrite le_bytes_lookup by done. eexists; split; [done|].
  intros i Hi. rewrite testbit_byte_of_N. destruct (N.ltb_spec (N.of_nat i) 8); [|lia].
  rewrite N.shiftr_spec'. unfold flag_bits. rewrite N.mod_pow2_bits_low by lia.
  replace (N.of_nat i + 8 * N.of_nat j)%N with (N.of_nat (8 * j + i)) by lia.
  rewrite flag_bits_from_testbit. simpl. by rewrite Nat.sub_0_r.
Qed.

Lemma set_flags_lookup i names flags buf j x :
  buf !! j = Some x →
  ∃ y, set_flags i names flags buf !! j = Some y ∧
    ∀ k, k < 8 → N.testbit y (N.of_nat k) =
      N.testbit x (N.of_nat k) || (i <=? 8 * j + k) && flag_at names flags (8 * j + k - i).
Proof.
  revert i buf x. induction names as [|name names IH]; intros i buf x Hx; cbn [set_flags].
  { exists x. split; [done|]. intros k _. unfold flag_at. rewrite lookup_nil.
    by rewrite andb_false_r, orb_false_r. }
  set (buf' := if decide (name ∈ flags) then _ else buf).
  assert (∃ x', buf' !! j = Some x' ∧ ∀ k, k < 8 → N.testbit x' (N.of_nat k) =
    N.testbit x (N.of_nat k) || bool_decide (i = 8 * j + k) && bool_decide (name ∈ flags))
    as (x' & Hx' & Hb).
  { unfold buf'. destruct (decide (name ∈ flags)) as [Hin|Hin].
    - rewrite (bool_decide_true _ Hin). destruct (decide (i / 8 = j)) as [Hj|Hj].
      + rewrite list_lookup_alter, decide_True, Hj, Hx by done. cbn [fmap option_fmap option_map].
        eexists; split; [done|]. intros k Hk.
        rewrite N.lor_spec, testbit_one_shiftl, andb_true_r. f_equal.
        apply bool_decide_ext. pose proof (Nat.div_mod_eq i 8).
        pose proof (Nat.mod_upper_bound i 8 ltac:(done)). lia.
      + rewrite list_lookup_alter_ne by done. exists x. split; [done|]. intros k Hk.
        rewrite (bool_decide_false (i = _)) by lia. by rewrite orb_false_r.
    - rewrite (bool_decide_false _ Hin). exists x. split; [done|]. intros k Hk.
      by rewrite andb_false_r, orb_false_r. }
  destruct (IH (S i) buf' x' Hx') as (y & Hy & Hyb). exists y. split; [done|].
  intros k Hk. rewrite Hyb, Hb by done. rewrite <- orb_assoc. f_equal. apply flag_at_cons.
Qed.

Lemma set_flags_length i names flags buf : length (set_flags i names flags buf) = length buf.
Proof.
  revert i buf. induction names as [|name names IH]; intros i buf; cbn [set_flags]; [done|].
  rewrite IH. by destruct (decide _); rewrite ?length_alter.
Qed.

(** The wide branches cut the last bytes off. *)
Lemma take_le_flag_bits_ok w k m names flags j :
  (8 * N.of_nat k ≤ w)%N → j < m → m ≤ k →
  ∃ b, take m (le_bytes k (flag_bits w names flags)) !! j = Some b ∧ flag_byte_ok names flags j b.
Proof.
  intros Hw Hj Hm. rewrite lookup_take_lt by done. apply le_flag_bits_ok; [done|lia].
Qed.

Lemma set_flags_ok m names flags j :
  j < m →
  ∃ b, (byte_of_N <$> set_flags 0 names flags (replicate m 0%N)) !! j = Some b ∧
    flag_byte_ok names flags j b.
Proof.
  intros Hj. destruct (set_flags_lookup 0 names flags (replicate m 0%N) j 0%N) as (y & Hy & Hb).
  { by apply lookup_replicate. }
  rewrite list_lookup_fmap, Hy. eexists; split; [done|]. intros k Hk.
  rewrite testbit_byte_of_N, Hb, N.bits_0 by done. cbn [orb Nat.leb andb].
  rewrite Nat.sub_0_r. by destruct (N.ltb_spec (N.of_nat k) 8); [|lia].
Qed.

Lemma encode_flags_cases names flags :
  length (encode_flags names flags) = flags_width names ∧
  ∀ j, j < flags_width names →
    ∃ b, encode_flags names flags !! j = Some b ∧ flag_byte_ok names flags j b.
Proof.
  unfold encode_flags, flags_width, div_ceil.
  repeat match goal with
  | |- context [if ?n <=? ?k then _ else _] => destruct (Nat.leb_spec n k)
  end.
  all: split; [rewrite ?length_fmap, ?length_take, ?le_bytes_length, ?set_flags_length,
    ?length_replicate; lia|].
  all: intros j Hj; (apply le_flag_bits_ok || apply take_le_flag_bits_ok || apply set_flags_ok); lia.
Qed.

End flags.

(** ** Round trip *)

Section roundtrip.
Context {T V : Type} `{!WasmValue T V} {HL : Leb128} {HC : CoreName} {HW : ValueWire}.
Context {HLL : Leb128Laws} {HCL : CoreNameLaws} {HWL : ValueWireLaws} {HVL : WasmValueLaws T V}.

(** The encoder appends a code which the reader turns back into the value. *)
Definition codes {A} (enc : bytes → option bytes) (rd : bytes → io_result (A * bytes)) (v : A) :
    Prop :=
  ∃ e, (∀ dst, enc dst = Some (dst ++ e)) ∧ ∀ rest, rd (e ++ rest) = Ok (v, rest).

Lemma codes_list enc rd (vs : list V) :
  Forall (λ v, codes (enc v) rd v) vs → codes (encode_list enc vs) (read_list rd (length vs)) vs.
Proof.
  induction 1 as [|v vs (e & He & Hr) _ (es & Hes & Hrs)]; cbn [encode_list read_list length].
  { exists []. split; [intros; by rewrite app_nil_r|done]. }
  exists (e ++ es). split.
  - intros dst. rewrite He. simpl. by rewrite Hes, app_assoc.
  - intros rest. rewrite <- app_assoc, Hr. simp_res. by rewrite Hrs.
Qed.

Lemma codes_zip (enc : T → V → bytes → option bytes) rd tys vs :
  Forall2 (λ ty v, codes (enc ty v) (rd ty) v) tys vs →
  codes (encode_zip enc vs tys) (read_types rd tys) vs.
Proof.
  induction 1 as [|ty v tys vs (e & He & Hr) _ (es & Hes & Hrs)]; cbn [encode_zip read_types].
  { exists []. split; [intros; by rewrite app_nil_r|done]. }
  exists (e ++ es). split.
  - intros dst. rewrite He. simpl. by rewrite Hes, app_assoc.
  - intros rest. rewrite <- app_assoc, Hr. simp_res. by rewrite Hrs.
Qed.

Lemma make_value_ok n ty v rest :
  has_type n ty v → make_value ty (canonical ty (val_view v)) rest = Ok (v, rest).
Proof. intros Ht. unfold make_value. by rewrite (make_view n). Qed.

(** The flags read are those of the value, in the order of the names. *)
Lemma flags_set_filter i names names' flags buf :
  (∀ j, j < length names →
     N.testbit (Byte.to_N (default x00 (buf !! ((i + j) / 8)))) (N.of_nat ((i + j) mod 8)) =
     flag_at names' flags (i + j)) →
  (∀ j, j < length names → names' !! (i + j) = names !! j) →
  flags_set i names buf = filter (λ name, name ∈ flags) names.
Proof.
  revert i. induction names as [|name names IH]; intros i Hb Hn; [done|].
  assert (flags_set (S i) names buf = filter (λ name, name ∈ flags) names) as Hrest.
  { apply IH; intros j Hj; [specialize (Hb (S j))|specialize (Hn (S j))];
      rewrite Nat.add_succ_r in *; [apply Hb|apply Hn]; simpl; lia. }
  cbn [flags_set]. specialize (Hb 0). specialize (Hn 0). rewrite Nat.add_0_r in Hb, Hn.
  rewrite Hb by (simpl; lia). unfold flag_at. rewrite Hn by (simpl; lia). cbn [lookup list_lookup].
  rewrite filter_cons, Hrest. case_bool_decide; case_decide; done.
Qed.

Lemma flags_set_encode names flags :
  flags_set 0 names (encode_flags names flags) = filter (λ name, name ∈ flags) names.
Proof.
  apply (flags_set_filter 0 names names flags); intros j Hj; [|done]. rewrite Nat.add_0_l.
  destruct (encode_flags_cases names flags) as (_ & Hb).
  destruct (Hb (j / 8)) as (b & -> & Hk); [unfold flags_width, div_ceil; lia|].
  cbn [default from_option id]. rewrite Hk by (apply Nat.mod_upper_bound; done). f_equal. symmetry. apply Nat.div_mod_eq.
Qed.

Lemma list_find_lookup {A} (P : A → Prop) `{∀ x, Decision (P x)} l i x :
  list_find P l = Some (i, x) → l !! i = Some x ∧ (N.of_nat i < len l)%N.
Proof.
  intros (Hi & _)%list_find_Some. split; [done|]. apply lookup_lt_Some in Hi. unfold len. lia.
Qed.

Lemma read_i8_byte_of_Z z rest : s_range 8 z → read_i8 (byte_of_Z z :: rest) = Ok (z, rest).
Proof.
  intros Hz. unfold s_range in Hz. simpl in Hz. unfold read_i8, read_u8. simp_res.
  rewrite to_N_byte_of_Z. do 2 f_equal. destruct (Z.ltb_spec (z mod 256) 128); lia.
Qed.

Lemma read_le_le_bytes k m rest :
  (m < 256 ^ N.of_nat k)%N → read_le k (le_bytes k m ++ rest) = Ok (m, rest).
Proof.
  intros Hm. unfold read_le.
  replace (N.of_nat k) with (len (le_bytes k m)) by (unfold len; by rewrite le_bytes_length).
  rewrite read_exact_app. simp_res. by rewrite of_le_bytes_le_bytes.
Qed.

(** A payload which is there when its type is. *)
Definition opt_typed (n : nat) (ty : option T) (v : option V) : Prop :=
  match ty, v with
  | Some ty, Some v => has_type n ty v
  | None, None => True
  | _, _ => False
  end.

Lemma codes_opt n ty v :
  (∀ ty v, has_type n ty v → codes (encode n ty v) (read_value n ty) v) →
  opt_typed n ty v →
  codes (λ dst, match v, ty with
                | Some v, Some ty => encode n ty v dst
                | None, None => Some dst
                | _, _ => None
                end) (read_opt (read_value n) ty) v.
Proof.
  intros IH Ht. destruct ty as [ty|], v as [v|]; try done; cbn [opt_typed read_opt] in *.
  - destruct (IH _ _ Ht) as (e & He & Hr). exists e. split; [done|].
    intros rest. unfold read_opt. by rewrite Hr.
  - exists []. split; [intros; by rewrite app_nil_r|done].
Qed.

Lemma codes_variant n cases case payload i ty :
  (∀ ty v, has_type n ty v → codes (encode n ty v) (read_value n ty) v) →
  (len cases ≤ u32_MAX)%N →
  list_find (λ c, c.1 = case) cases = Some (i, (case, ty)) → opt_typed n ty payload →
  ∃ e, (∀ dst, encode_variant (encode n) cases case payload dst =
               Some (dst ++ leb_encode (N.of_nat i) ++ e)) ∧
    (∀ rest, leb_read 32 (leb_encode (N.of_nat i) ++ rest) = Ok (N.of_nat i, rest)) ∧
    cases !! i = Some (case, ty) ∧
    ∀ rest, read_opt (read_value n) ty (e ++ rest) = Ok (payload, rest).
Proof.
  intros IH Hlen Hf Ht. destruct (list_find_lookup _ _ _ _ Hf) as (Hi & Hlt).
  destruct (codes_opt n ty payload IH Ht) as (e & He & Hr). exists e. repeat split; try done.
  - intros dst. unfold encode_variant. destruct (N.leb_spec (len cases) u32_MAX); [|lia].
    unfold find_variant_discriminant. rewrite Hf. cbn. by rewrite He, app_assoc.
  - intros rest. apply leb_read_u32_encode. lia.
Qed.

Ltac value_case e :=
  exists e; split;
  [ intros dst; cbn [encode]; repeat match goal with E : val_view _ = _ |- _ => rewrite E end
  | intros rest; cbn [read_value]; repeat match goal with E : ty_view _ = _ |- _ => rewrite E end ].

Ltac range_in H := rewrite !elem_of_cons; tauto.

Lemma codes_value n ty v : has_type n ty v → codes (encode n ty v) (read_value n ty) v.
Proof.
  revert ty v. induction n as [|n IH]; intros ty v Ht; [done|].
  assert (∀ rest, make_value ty (canonical ty (val_view v)) rest = Ok (v, rest)) as Hm
    by (intros; by apply (make_value_ok (S n))).
  cbn [has_type] in Ht.
  destruct (ty_view ty) eqn:Ety; destruct (val_view v) eqn:Ev;
    try contradiction; try (by destruct element); try (by destruct some);
    try (by destruct types as [[? ?]|]); cbn [canonical] in Hm.
  - value_case [byte_of_N (if b then 1 else 0)]; [done|]. cbn [app]. rewrite read_bool_spec. simp_res; apply Hm.
  - value_case [byte_of_Z z]; [done|]. cbn [app]. rewrite read_i8_byte_of_Z by done. simp_res; apply Hm.
  - value_case [byte_of_N n0]; [done|]. cbn [app read_u8]. simp_res.
    rewrite to_N_byte_of_N, N.mod_small by lia. apply Hm.
  - value_case (sleb_encode z); [done|]. rewrite sleb_read_encode by (set_solver || done). simp_res; apply Hm.
  - value_case (leb_encode n0); [done|]. rewrite leb_read_encode by (set_solver || done). simp_res; apply Hm.
  - value_case (sleb_encode z); [done|]. rewrite sleb_read_encode by (set_solver || done). simp_res; apply Hm.
  - value_case (leb_encode n0); [done|]. rewrite leb_read_encode by (set_solver || done). simp_res; apply Hm.
  - value_case (sleb_encode z); [done|]. rewrite sleb_read_encode by (set_solver || done). simp_res; apply Hm.
  - value_case (leb_encode n0); [done|]. rewrite leb_read_encode by (set_solver || done). simp_res; apply Hm.
  - value_case (le_bytes 4 bits); [done|]. rewrite read_le_le_bytes by done. simp_res; apply Hm.
  - value_case (le_bytes 8 bits); [done|]. rewrite read_le_le_bytes by done. simp_res; apply Hm.
  - value_case (char_encode c); [done|]. rewrite char_read_encode by done. simp_res; apply Hm.
  - destruct Ht as (Hs & Hlen). value_case (leb_encode (len s) ++ s).
    + by rewrite name_encode_fit.
    + rewrite <- app_assoc. rewrite name_read_encode by done. simp_res; apply Hm.
  - destruct element as [el|]; [|done]. destruct Ht as (Hlen & Hvs).
    destruct (codes_list (encode n el) (read_value n el) vs) as (e & He & Hr).
    { eapply Forall_impl; [exact Hvs|]. intros w. apply IH. }
    value_case (leb_encode (len vs) ++ e).
    + unfold u32_try_from. destruct (N.leb_spec (len vs) u32_MAX); [|lia].
      unfold list_element_type. rewrite Ety. simpl. by rewrite He, app_assoc.
    + rewrite <- app_assoc, leb_read_u32_encode by done. simp_res. cbn [ok_or]. simp_res.
      unfold len. rewrite Nat2N.id, Hr. simp_res; apply Hm.
  - destruct Ht as (Hn & Hvs).
    destruct (codes_zip (encode n) (read_value n) fields.*2 fields0.*2) as (e & He & Hr).
    { eapply Forall2_impl; [exact Hvs|]. intros. by apply IH. }
    value_case e.
    + unfold record_fields. by rewrite Ety.
    + rewrite Hr. simp_res. rewrite <- Hn, zip_fst_snd. apply Hm.
  - destruct (codes_zip (encode n) (read_value n) types vs) as (e & He & Hr).
    { eapply Forall2_impl; [exact Ht|]. intros. by apply IH. }
    value_case e.
    + unfold tuple_element_types. by rewrite Ety.
    + rewrite Hr. simp_res; apply Hm.
  - destruct Ht as (Hlen & i & cty & Hf & Hp).
    destruct (codes_variant n cases case payload i cty) as (e & He & Hd & Hi & Hr); try done.
    value_case (leb_encode (N.of_nat i) ++ e).
    + unfold variant_cases. by rewrite Ety.
    + rewrite <- app_assoc, Hd. simp_res. rewrite Nat2N.id, Hi. cbn [ok_or]. simp_res.
      rewrite Hr. simp_res; apply Hm.
  - destruct Ht as (Hlen & i & Hf). destruct (list_find_lookup _ _ _ _ Hf) as (Hi & Hlt).
    value_case (leb_encode (N.of_nat i)).
    + unfold encode_enum, enum_cases. rewrite Ety. destruct (N.leb_spec (len names) u32_MAX); [|lia].
      unfold find_enum_discriminant. by rewrite Hf.
    + rewrite leb_read_u32_encode by lia. simp_res. rewrite Nat2N.id, Hi. cbn [ok_or]. simp_res; apply Hm.
  - destruct v0 as [w|].
    + destruct some as [sty|]; [|done]. destruct (IH _ _ Ht) as (e & He & Hr).
      value_case (byte_of_N 1 :: e).
      * unfold option_some_type. rewrite Ety. simpl. by rewrite He, <- app_assoc.
      * cbn [app]. rewrite (read_option_status_spec true). simp_res. cbn [ok_or]. simp_res.
        rewrite Hr. simp_res; apply Hm.
    + value_case [byte_of_N 0]; [done|]. cbn [app].
      rewrite (read_option_status_spec false). simp_res; apply Hm.
  - destruct types as [[ok_ty err_ty]|]; [|done].
    destruct (codes_opt n (if ok then ok_ty else err_ty) v0 IH Ht) as (e & He & Hr).
    value_case (byte_of_N (if ok then 0 else 1) :: e).
    + unfold encode_result, result_types. rewrite Ety. simpl.
      specialize (He (dst ++ [byte_of_N (if ok then 0 else 1)])).
      rewrite <- app_assoc in He. cbn [app] in He. rewrite <- He.
      by destruct v0, (if ok then ok_ty else err_ty).
    + cbn [app]. rewrite read_result_status_spec. simp_res. cbn [ok_or]. simp_res.
      rewrite Hr. simp_res; apply Hm.
  - value_case (encode_flags names flags).
    + unfold flags_names. by rewrite Ety.
    + destruct (encode_flags_cases names flags) as (Hl & _). fold (flags_width names).
      rewrite <- Hl. change (N.of_nat (length ?l)) with (len l). rewrite read_exact_app. simp_res.
      rewrite flags_set_encode. unfold flags_names in Hm. rewrite Ety in Hm. apply Hm.
Qed.

(** [C36] A value of a type, whatever its depth, is encoded, and the code
    decodes to the value; the reader consumes exactly the code, so that a
    buffer with bytes after it is rejected. *)
Theorem wave_roundtrip n ty v dst :
  has_type n ty v →
  ∃ e, encode n ty v dst = Some (dst ++ e) ∧
    decode_value n e ty = Ok v ∧
    (∀ rest, read_value n ty (e ++ rest) = Ok (v, rest)) ∧
    ∀ b rest, decode_value n (e ++ b :: rest) ty = Err InvalidData.
Proof.
  intros (e & He & Hr)%codes_value. exists e. repeat split; auto; unfold decode_value.
  - specialize (Hr []). rewrite app_nil_r in Hr. by rewrite Hr.
  - intros b rest. by rewrite Hr.
Qed.

(** The discriminants the reader accepts are those of the cases: any
    other one is invalid data, for enums and variants. *)
Theorem unknown_discriminant n ty d rest :
  (d ≤ u32_MAX)%N →
  (∀ names, ty_view ty = KEnum names → (len names ≤ d)%N →
     read_value (S n) ty (leb_encode d ++ rest) = Err InvalidData) ∧
  (∀ cases, ty_view ty = KVariant cases → (len cases ≤ d)%N →
     read_value (S n) ty (leb_encode d ++ rest) = Err InvalidData).
Proof.
  intros Hd. split; intros l Hty Hlen; cbn [read_value]; rewrite Hty, leb_read_u32_encode by done;
    simp_res; rewrite lookup_ge_None_2 by (unfold len in Hlen; lia); done.
Qed.

End roundtrip.

(** Flags of any number are encoded as the general loop encodes them:
    the flag [i] is the bit [i % 8] of the byte [i / 8], with at least one byte,
    whichever of the branches on the number of flags is taken. *)
Theorem encode_flags_general names flags :
  encode_flags names flags =
  byte_of_N <$> set_flags 0 names flags (replicate (div_ceil (length names) 8 `max` 1) 0%N).
Proof.
  destruct (encode_flags_cases names flags) as (Hlen & Hb).
  apply list_eq_same_length with (flags_width names);
    [by rewrite length_fmap, set_flags_length, length_replicate|done|].
  intros j x y Hj Hx Hy. destruct (Hb j Hj) as (b & Hx' & Hok).
  destruct (set_flags_ok (flags_width names) names flags j Hj) as (b' & Hy' & Hok').
  rewrite Hx in Hx'. unfold flags_width in Hy'. rewrite Hy in Hy'. simplify_eq.
  apply byte_bits_inj. intros k Hk. rewrite <- (N2Nat.id k). rewrite Hok, Hok' by lia. done.
Qed.

(** ** An instance *)

(** Types and values of [wasm_wave] as plain data; flags are a set. *)
Inductive CType := ct (view : TypeView CType).
Inductive CValue := cv (view : ValueView CValue) | cflags (flags : gset bytes).

Definition ct_view (t : CType) : TypeView CType := let 'ct view := t in view.
Definition cv_view (v : CValue) : ValueView CValue :=
  match v with
  | cv (VFlags _) => VUnsupported
  | cv view => view
  | cflags flags => VFlags (elements flags)
  end.

#[global] Instance concrete_value : WasmValue CType CValue := {|
  ty_view := ct_view;
  val_view := cv_view;
  make _ v := match v with VFlags flags => Some (cflags (list_to_set flags)) | v => Some (cv v) end
|}.

Lemma concrete_value_laws : WasmValueLaws CType CValue.
Proof.
  split. intros [|n] ty v Ht; [done|]. cbn [has_type] in Ht.
  destruct v as [w|flags].
  - destruct w; try done. exfalso. cbn [val_view concrete_value cv_view] in Ht.
    destruct (ty_view ty) as [| | | | | | | | | | | | |[]| | | | |[]|[[]|]| |]; done.
  - cbn [val_view concrete_value cv_view] in Ht. cbn [make concrete_value val_view cv_view canonical].
    f_equal. f_equal. unfold flags_names. destruct (ty_view ty) eqn:Ety; try done; try (by destruct element);
      try (by destruct some); try (by destruct types as [[]|]).
    rewrite Forall_forall in Ht. apply set_eq. intros x.
    rewrite elem_of_list_to_set, list_elem_of_filter, elem_of_elements.
    split; [tauto|]. intros Hx. split; [done|]. apply Ht. by apply elem_of_elements.
Qed.

(** A record of a list of flags and of a result. *)
Definition test_type : CType :=
  ct (KTuple [ct (KList (Some (ct (KFlags [[x61]; [x62]; [x63]]))));
              ct (KResult (Some (Some (ct KString), Some (ct KS32))))]).
Definition test_value : CValue :=
  cv (VTuple [cv (VList [cflags {[ [x61]; [x63] ]}; cflags ∅]);
              cv (VResult false (Some (cv (VS32 (-2)))))]).

Lemma wave_roundtrip_witness :
  ∃ e, @encode CType CValue concrete_value leb128_std name_std value_wire_std 3 test_type test_value
         [x07] = Some ([x07] ++ e) ∧
    @decode_value CType CValue concrete_value leb128_std value_wire_std 3 e test_type = Ok test_value.
Proof.
  destruct (@wave_roundtrip CType CValue concrete_value leb128_std name_std value_wire_std
    leb128_std_laws name_std_laws value_wire_std_laws concrete_value_laws
    3 test_type test_value [x07]) as (e & He & Hd & _).
  - unfold test_type, test_value. cbn. repeat (constructor; cbn); try lia.
    all: repeat constructor; try (vm_compute; congruence).
  - exists e. split; [exact He|exact Hd].
Defined.

Lemma unknown_discriminant_witness :
  @read_value CType CValue concrete_value leb128_std value_wire_std 1
    (ct (KEnum [[x61]; [x62]])) [x02] = Err InvalidData.
Proof.
  destruct (@unknown_discriminant CType CValue concrete_value leb128_std value_wire_std
    leb128_std_laws 0 (ct (KEnum [[x61]; [x62]])) 2 []) as (He & _); [vm_compute; congruence|].
  apply (He [[x61]; [x62]]); [reflexivity|vm_compute; congruence].
Defined.
