(* ===== verification/Introspect.v ===== *)
(** * The asynchronous paths of types

    Model of [crates/introspect/src/lib.rs], which computes the asynchronous
    paths of WIT types, and of [crates/wasmtime/src/paths.rs], which computes
    them for the types of Wasmtime.

    The types of [wit_parser] are entries of an arena which refer to each
    other by identifiers: recursion follows the references with fuel, and
    [wf_resolve] says that references go to preceding entries, for which the
    number of entries is fuel enough ([async_paths_total]).  [None] is a panic or
    the lack of fuel.  A [BTreeSet] is a [gset].  Names and documentation of
    types are not modelled. *)

From Stdlib Require Import String.
From S2P Require Import Prelude Subscriptions Resolve.

(** ** WIT *)

Inductive Type_ :=
  | TyBool | TyU8 | TyU16 | TyU32 | TyU64 | TyS8 | TyS16 | TyS32 | TyS64
  | TyF32 | TyF64 | TyChar | TyString | TyErrorContext
  | TyId (id : nat).

#[global] Instance Type_eq_dec : EqDecision Type_.
Proof. solve_decision. Defined.

Inductive TypeDefKind :=
  | KRecord (fields : list Type_)
  | KResource
  | KOwn (id : nat)
  | KBorrow (id : nat)
  | KFlags (flags : nat)
  | KTuple (types : list Type_)
  | KVariant (cases : list (option Type_))
  | KEnum (cases : nat)
  | KOption (ty : Type_)
  | KResult (ok err : option Type_)
  | KList (ty : Type_)
  | KFixedLengthList (ty : Type_) (n : N)
  | KMap (key value : Type_)
  | KFuture (ty : option Type_)
  | KStream (element : option Type_)
  | KType (ty : Type_)
  | KUnknown.

(** [resolve.types[id].kind]; an identifier out of range panics. *)
Abbreviation Resolve := (list TypeDefKind) (only parsing).

Inductive Int_ := IntU8 | IntU16 | IntU32 | IntU64.

Definition flag_repr (flags : nat) : Int_ :=
  if flags <=? 8 then IntU8
  else if flags <=? 16 then IntU16
  else if flags <=? 32 then IntU32
  else IntU64.

Inductive FunctionKind :=
  | Freestanding | AsyncFreestanding
  | Method | AsyncMethod | Static | AsyncStatic | Constructor.

Fixpoint strip_prefix (prefix s : string) : option string :=
  match prefix, s with
  | EmptyString, _ => Some s
  | String a prefix, String b s => if Ascii.eqb a b then strip_prefix prefix s else None
  | _, EmptyString => None
  end.

Definition rpc_func_name (kind : FunctionKind) (name : string) : option string :=
  match kind with
  | Constructor => strip_prefix "[constructor]" name
  | Static | AsyncStatic => strip_prefix "[static]" name
  | Method | AsyncMethod => strip_prefix "[method]" name
  | AsyncFreestanding | Freestanding => Some name
  end.

Fixpoint is_ty (fuel : nat) (resolve : Resolve) (expected ty : Type_) : option bool :=
  if decide (ty = expected) then Some true
  else
    match ty with
    | TyId id =>
        kind ← resolve !! id;
        match kind with
        | KType t => match fuel with O => None | S fuel => is_ty fuel resolve expected t end
        | _ => Some false
        end
    | _ => Some false
    end.

Fixpoint is_list_of (fuel : nat) (resolve : Resolve) (expected ty : Type_) : option bool :=
  match ty with
  | TyId id =>
      kind ← resolve !! id;
      match kind with
      | KType t => match fuel with O => None | S fuel => is_list_of fuel resolve expected t end
      | KList t => is_ty fuel resolve expected t
      | _ => Some false
      end
  | _ => Some false
  end.

Fixpoint is_tuple (fuel : nat) (resolve : Resolve) (ty : Type_) : option bool :=
  match ty with
  | TyId id =>
      kind ← resolve !! id;
      match kind with
      | KType t => match fuel with O => None | S fuel => is_tuple fuel resolve t end
      | KTuple _ => Some true
      | _ => Some false
      end
  | _ => Some false
  end.

(** ** Sets of paths *)

Abbreviation path := (list (option N)) (only parsing).
Abbreviation paths := (gset (list (option N))) (only parsing).

Definition max_len (ps : list path) : nat := foldr (λ p n, length p `max` n) 0 ps.

(** The body of [for k in 0..depth]. *)
Definition wildcard_prefixes (k : nat) (ps : list path) : list path :=
  take k <$> filter (λ p, p !! k = Some None) ps.

Definition merge_at (ps : list path) (k : nat) : list path :=
  let wildcards := wildcard_prefixes k ps in
  (λ p, if (k <? length p) && bool_decide (take k p ∈ wildcards) then <[k := None]> p else p) <$> ps.

Definition merge_wildcards (ps : paths) : paths :=
  let ps := elements ps in
  list_to_set (foldl merge_at ps (seq 0 (max_len ps))).

(** [for mut path in nested { path.push_front(i); paths.insert(path) }] and
    [if fut { paths.insert([i]) }] *)
Definition push_paths (i : option N) (r : paths * bool) : paths :=
  set_map (λ p, i :: p) r.1 ∪ (if r.2 then {[ [i] ]} else ∅).

(** [u32::try_from(i).unwrap()] *)
Definition index_u32 (i : nat) : option N :=
  if (N.of_nat i <=? u32_MAX)%N then Some (N.of_nat i) else None.

(** The body of the loop on the fields: the index is converted for each path of
    the field, if there are any. *)
Definition push_index (i : nat) (r : paths * bool) : option paths :=
  if decide (r = (∅, false)) then Some ∅ else n ← index_u32 i; Some (push_paths (Some n) r).

(** [for (i, ty) in types.iter().enumerate()] *)
Fixpoint tuple_paths (f : Type_ → option (paths * bool)) (i : nat) (tys : list Type_) :
    option paths :=
  match tys with
  | [] => Some ∅
  | ty :: tys =>
      r ← f ty;
      ps ← push_index i r;
      rest ← tuple_paths f (S i) tys;
      Some (ps ∪ rest)
  end.

(** [for Case { ty, .. } in &ty.cases] *)
Fixpoint variant_paths (f : Type_ → option (paths * bool)) (cases : list (option Type_)) :
    option (paths * bool) :=
  match cases with
  | [] => Some (∅, false)
  | None :: cases => variant_paths f cases
  | Some ty :: cases =>
      '(nested, fut) ← f ty;
      '(rest, is_fut) ← variant_paths f cases;
      Some (nested ∪ rest, fut || is_fut)
  end.

(** The [match] of [async_paths_tyid] on the kind of a type, [f] being
    [async_paths_ty]. *)
Definition async_paths_kind (f : Type_ → option (paths * bool)) (kind : TypeDefKind) :
    option (paths * bool) :=
  match kind with
  | KList ty | KFixedLengthList ty _ => r ← f ty; Some (push_paths None r, false)
  | KOption ty => f ty
  | KResult ok err =>
      '(ps, is_fut) ← variant_paths f [ok; err]; Some (merge_wildcards ps, is_fut)
  | KVariant cases =>
      '(ps, is_fut) ← variant_paths f cases; Some (merge_wildcards ps, is_fut)
  | KTuple tys | KRecord tys => ps ← tuple_paths f 0 tys; Some (ps, false)
  | KFuture None => Some (∅, true)
  | KFuture (Some ty) => '(ps, _) ← f ty; Some (ps, true)
  | KStream None => Some (∅, true)
  | KStream (Some ty) => r ← f ty; Some (push_paths None r, true)
  | KType ty => f ty
  | KResource | KFlags _ | KEnum _ | KMap _ _ | KOwn _ | KBorrow _ => Some (∅, false)
  | KUnknown => None
  end.

Fixpoint async_paths_tyid (fuel : nat) (resolve : Resolve) (id : nat) : option (paths * bool) :=
  match fuel with
  | O => None
  | S fuel =>
      kind ← resolve !! id;
      async_paths_kind
        (λ ty, match ty with
               | TyId id => async_paths_tyid fuel resolve id
               | _ => Some (∅, false)
               end) kind
  end.

Definition async_paths_ty (fuel : nat) (resolve : Resolve) (ty : Type_) : option (paths * bool) :=
  match ty with TyId id => async_paths_tyid fuel resolve id | _ => Some (∅, false) end.

(** ** Wasmtime *)

(** [wasmtime::component::types::Type]; a resource is named by a number. *)
Inductive Ty :=
  | WList (ty : Ty)
  | WOption (ty : Ty)
  | WResult (ok err : option Ty)
  | WVariant (cases : list (option Ty))
  | WTuple (types : list Ty)
  | WRecord (fields : list Ty)
  | WFuture (ty : option Ty)
  | WStream (ty : option Ty)
  | WOwn (r : nat)
  | WBorrow (r : nat)
  | WOther.

(** [async_paths]; [io_streams] are the resources of [wasi:io/streams] of
    [ResourceTypes]. *)
Section wasmtime.
Context (io_streams : list nat).

Fixpoint async_paths (ty : Ty) : paths * bool :=
  let case := λ o, match o with Some ty => async_paths ty | None => (∅, false) end in
  match ty with
  | WList ty => (push_paths None (async_paths ty), false)
  | WOption ty => async_paths ty
  | WResult ok err =>
      (merge_wildcards ((case ok).1 ∪ (case err).1), (case ok).2 || (case err).2)
  | WVariant cases =>
      let rs := map case cases in
      (merge_wildcards (⋃ (rs.*1)), existsb snd rs)
  | WTuple tys | WRecord tys =>
      (⋃ (imap (λ i r, push_paths (Some (N.of_nat i)) r) (map async_paths tys)), false)
  | WFuture ty => ((case ty).1, true)
  | WStream None => (∅, true)
  | WStream (Some ty) => (push_paths None (async_paths ty), true)
  | WOwn r | WBorrow r => (∅, bool_decide (r ∈ io_streams))
  | WOther => (∅, false)
  end.

Definition params_async_paths (params : list Ty) : paths :=
  ⋃ (imap (λ i r, push_paths (Some (N.of_nat i)) r) (map async_paths params)).

End wasmtime.

(** ** Specification *)

(** A path which matches at least what another one matches. *)
Definition covers (p' p : path) : Prop := Forall2 (λ a b, a = None ∨ a = b) p' p.

(** The positions of the streams and futures of a type. *)
Inductive async_at (resolve : Resolve) : Type_ → path → Prop :=
  | at_future id ty : resolve !! id = Some (KFuture ty) → async_at resolve (TyId id) []
  | at_stream id ty : resolve !! id = Some (KStream ty) → async_at resolve (TyId id) []
  | at_list id ty p :
      resolve !! id = Some (KList ty) → async_at resolve ty p →
      async_at resolve (TyId id) (None :: p)
  | at_fixed_length_list id ty n p :
      resolve !! id = Some (KFixedLengthList ty n) → async_at resolve ty p →
      async_at resolve (TyId id) (None :: p)
  | at_option id ty p :
      resolve !! id = Some (KOption ty) → async_at resolve ty p → async_at resolve (TyId id) p
  | at_result id ok err ty p :
      resolve !! id = Some (KResult ok err) → ok = Some ty ∨ err = Some ty →
      async_at resolve ty p → async_at resolve (TyId id) p
  | at_variant id cases ty p :
      resolve !! id = Some (KVariant cases) → Some ty ∈ cases →
      async_at resolve ty p → async_at resolve (TyId id) p
  | at_tuple id tys i ty p :
      resolve !! id = Some (KTuple tys) ∨ resolve !! id = Some (KRecord tys) → tys !! i = Some ty →
      async_at resolve ty p → async_at resolve (TyId id) (Some (N.of_nat i) :: p)
  | at_future_value id ty p :
      resolve !! id = Some (KFuture (Some ty)) → async_at resolve ty p →
      async_at resolve (TyId id) p
  | at_stream_element id ty p :
      resolve !! id = Some (KStream (Some ty)) → async_at resolve ty p →
      async_at resolve (TyId id) (None :: p)
  | at_type id ty p :
      resolve !! id = Some (KType ty) → async_at resolve ty p → async_at resolve (TyId id) p.

(** The types an entry refers to. *)
Definition references (kind : TypeDefKind) : list Type_ :=
  match kind with
  | KRecord tys | KTuple tys => tys
  | KVariant cases => omap id cases
  | KOption ty | KList ty | KFixedLengthList ty _ | KType ty => [ty]
  | KResult ok err => omap id [ok; err]
  | KFuture ty | KStream ty => omap id [ty]
  | _ => []
  end.

(** Every entry refers to preceding ones, is known and has at most 2{^32}
    fields. *)
Definition wf_resolve (resolve : Resolve) : Prop :=
  ∀ id kind, resolve !! id = Some kind → kind ≠ KUnknown ∧
    (N.of_nat (length (references kind)) ≤ u32_MAX)%N ∧
    ∀ j, TyId j ∈ references kind → j < id.

(** ** Merging of wildcards *)

Definition agree (p1 p2 : path) (k : nat) : Prop :=
  take k p1 = take k p2 → ∀ x y, p1 !! k = Some x → p2 !! k = Some y → is_none x = is_none y.

Lemma compatible_agree ps : compatible ps ↔ ∀ p1 p2 k, p1 ∈ ps → p2 ∈ ps → agree p1 p2 k.
Proof.
  split.
  - intros Hc p1 p2 k H1 H2 Ht x y Hx Hy. apply (Hc (take k p1) x y p1 p2); [done..| |].
    + rewrite <- take_S_r by done. apply prefix_take.
    + rewrite Ht, <- take_S_r by done. apply prefix_take.
  - intros Ha q x y p1 p2 H1 H2 [l1 ->] [l2 ->].
    rewrite <- (app_assoc q [x] l1) in H1. rewrite <- (app_assoc q [y] l2) in H2.
    apply (Ha _ _ (length q) H1 H2).
    + by rewrite !take_app_length.
    + by apply list_lookup_middle.
    + by apply list_lookup_middle.
Qed.

Definition merge_one (k : nat) (wildcards : list path) (p : path) : path :=
  if (k <? length p) && bool_decide (take k p ∈ wildcards) then <[k := None]> p else p.

Lemma merge_at_eq ps k : merge_at ps k = merge_one k (wildcard_prefixes k ps) <$> ps.
Proof. done. Qed.

Lemma merge_one_length k ws p : length (merge_one k ws p) = length p.
Proof. unfold merge_one. destruct (_ && _); [apply length_insert|done]. Qed.

Lemma merge_one_lookup k ws p j : j ≠ k → merge_one k ws p !! j = p !! j.
Proof. intros. unfold merge_one. destruct (_ && _); [by apply list_lookup_insert_ne|done]. Qed.

Lemma merge_one_take k ws p j : j ≤ k → take j (merge_one k ws p) = take j p.
Proof.
  intros. unfold merge_one. destruct (_ && _); [|done]. apply list_eq. intros i.
  rewrite !lookup_take. repeat case_decide; try done. apply list_lookup_insert_ne. lia.
Qed.

Lemma covers_refl p : covers p p.
Proof. unfold covers. induction p; constructor; auto. Qed.

Lemma covers_trans p1 p2 p3 : covers p1 p2 → covers p2 p3 → covers p1 p3.
Proof.
  unfold covers. intros H12. revert p3. induction H12 as [|x y p1 p2 Hxy _ IH]; intros p3 H23;
    inversion H23; subst; constructor; [|by apply IH]. naive_solver.
Qed.

Lemma Forall2_covers_trans ps1 ps2 ps3 :
  Forall2 covers ps1 ps2 → Forall2 covers ps2 ps3 → Forall2 covers ps1 ps3.
Proof.
  intros H12. revert ps3. induction H12 as [|x y l1 l2 Hxy _ IH]; intros l3 H3;
    inversion H3; subst; constructor; [by eapply covers_trans|by apply IH].
Qed.

Lemma merge_one_covers k ws p : covers (merge_one k ws p) p.
Proof.
  unfold merge_one. destruct (_ && _); [|apply covers_refl].
  apply Forall2_same_length_lookup. rewrite length_insert. split; [done|].
  intros i x y. destruct (decide (i = k)) as [->|].
  - intros Hx Hy. rewrite list_lookup_insert_eq in Hx by (by eapply lookup_lt_Some). left. congruence.
  - rewrite list_lookup_insert_ne by done. intros. right. congruence.
Qed.

(** The step at [k] establishes agreement at [k]. *)
Lemma merge_at_agree ps k p1 p2 : p1 ∈ merge_at ps k → p2 ∈ merge_at ps k → agree p1 p2 k.
Proof.
  rewrite merge_at_eq. set (ws := wildcard_prefixes k ps).
  intros (q1 & -> & H1)%list_elem_of_fmap (q2 & -> & H2)%list_elem_of_fmap Ht x y.
  rewrite !merge_one_take in Ht by lia.
  assert (∀ q z, q ∈ ps → merge_one k ws q !! k = Some z →
    is_none z = bool_decide (take k q ∈ ws)) as Hz.
  { intros q z Hq. unfold merge_one. destruct (Nat.ltb_spec k (length q)); simpl.
    - case_bool_decide as Hin.
      + rewrite list_lookup_insert_eq by done. by intros [= <-].
      + intros Hk. destruct z; [done|]. destruct Hin. apply list_elem_of_fmap. exists q.
        split; [done|]. by apply list_elem_of_filter.
    - rewrite lookup_ge_None_2 by done. done. }
  intros Hx%Hz Hy%Hz; [|done..]. by rewrite Hx, Hy, Ht.
Qed.

(** Further steps keep it. *)
Lemma merge_at_keep ps k j :
  j < k → (∀ p1 p2, p1 ∈ ps → p2 ∈ ps → agree p1 p2 j) →
  ∀ p1 p2, p1 ∈ merge_at ps k → p2 ∈ merge_at ps k → agree p1 p2 j.
Proof.
  intros Hj Ha p1 p2. rewrite merge_at_eq.
  intros (q1 & -> & H1)%list_elem_of_fmap (q2 & -> & H2)%list_elem_of_fmap Ht x y.
  rewrite !merge_one_take in Ht by lia. rewrite !merge_one_lookup by lia. by apply Ha.
Qed.

Lemma merge_fold ps n m :
  (∀ j p1 p2, j < n → p1 ∈ ps → p2 ∈ ps → agree p1 p2 j) →
  let ps' := foldl merge_at ps (seq n m) in
  (∀ j p1 p2, j < n + m → p1 ∈ ps' → p2 ∈ ps' → agree p1 p2 j) ∧
  Forall2 covers ps' ps.
Proof.
  revert ps n. induction m as [|m IH]; intros ps n Ha; simpl.
  { rewrite Nat.add_0_r. split; [done|]. apply Forall2_same_length_lookup.
    split; [done|]. intros i x y. intros. simplify_eq. apply covers_refl. }
  destruct (IH (merge_at ps n) (S n)) as [Ha' Hc].
  { intros j p1 p2 Hj. destruct (decide (j = n)) as [->|]; [apply merge_at_agree|].
    apply merge_at_keep; [lia|]. intros. apply Ha; [lia|done..]. }
  split; [intros j p1 p2 Hj; apply Ha'; lia|].
  assert (Forall2 covers (merge_at ps n) ps) as Hc'.
  { rewrite merge_at_eq. apply Forall2_fmap_l. generalize (wildcard_prefixes n ps). intros ws.
    clear. induction ps; constructor; [apply merge_one_covers|done]. }
  by eapply Forall2_covers_trans.
Qed.

Lemma max_len_spec ps p : p ∈ ps → length p ≤ max_len ps.
Proof.
  unfold max_len. induction ps as [|q ps IH]; [by intros ?%not_elem_of_nil|].
  intros [->|?]%elem_of_cons; simpl; [lia|]. specialize (IH H). lia.
Qed.

Definition set_compatible (ps : paths) : Prop := compatible (elements ps).

Lemma set_compatible_agree ps :
  set_compatible ps ↔ ∀ p1 p2 k, p1 ∈ ps → p2 ∈ ps → agree p1 p2 k.
Proof.
  unfold set_compatible. rewrite compatible_agree. by setoid_rewrite elem_of_elements.
Qed.

(** [merge_wildcards] makes any set of paths compatible... *)
Lemma merge_wildcards_compatible ps : set_compatible (merge_wildcards ps).
Proof.
  apply set_compatible_agree. intros p1 p2 k. unfold merge_wildcards.
  rewrite !elem_of_list_to_set.
  destruct (merge_fold (elements ps) 0 (max_len (elements ps))) as [Ha Hc]; [lia|].
  set (ps' := foldl _ _ _) in *.
  assert (∀ p, p ∈ ps' → length p ≤ max_len (elements ps)) as Hlen.
  { intros p [i Hi]%list_elem_of_lookup.
    destruct (Forall2_lookup_l _ _ _ _ _ Hc Hi) as (q & Hq & Hpq%Forall2_length).
    rewrite Hpq. apply max_len_spec. by apply list_elem_of_lookup_2 in Hq. }
  intros H1 H2. destruct (decide (k < max_len (elements ps))) as [Hk|Hk]; [by apply Ha|].
  intros _ x y Hx%lookup_lt_Some. specialize (Hlen p1 H1). lia.
Qed.

(** ... by generalising them. *)
Lemma merge_wildcards_covers ps :
  (∀ p, p ∈ ps → ∃ p', p' ∈ merge_wildcards ps ∧ covers p' p) ∧
  (∀ p', p' ∈ merge_wildcards ps → ∃ p, p ∈ ps ∧ covers p' p).
Proof.
  unfold merge_wildcards. setoid_rewrite elem_of_list_to_set.
  destruct (merge_fold (elements ps) 0 (max_len (elements ps))) as [_ Hc]; [lia|]. split.
  - intros p [i Hi]%elem_of_elements%list_elem_of_lookup.
    destruct (Forall2_lookup_r _ _ _ _ _ Hc Hi) as (p' & Hp' & ?).
    exists p'. split; [by eapply list_elem_of_lookup_2|done].
  - intros p' [i Hi]%list_elem_of_lookup.
    destruct (Forall2_lookup_l _ _ _ _ _ Hc Hi) as (p & Hp & ?). exists p. split; [|done].
    apply elem_of_elements. by eapply list_elem_of_lookup_2.
Qed.

(** Of two paths which agree, those which cover the same prefix start with the
    same generalisation of it. *)
Lemma covers_prefix_eq q1 q2 p1 p2 n :
  (∀ k, agree q1 q2 k) → covers q1 p1 → covers q2 p2 → take n p1 = take n p2 → take n q1 = take n q2.
Proof.
  intros Ha Hc1 Hc2. induction n as [|n IH]; intros Ht; [done|].
  assert (take n p1 = take n p2) as Ht'.
  { apply (f_equal (take n)) in Ht. by rewrite !take_take, Nat.min_l in Ht by lia. }
  specialize (IH Ht').
  assert (p1 !! n = p2 !! n) as Hn.
  { apply (f_equal (lookup n)) in Ht. by rewrite !lookup_take_lt in Ht by lia. }
  destruct (p1 !! n) as [x|] eqn:E1; symmetry in Hn.
  - destruct (Forall2_lookup_r _ _ _ _ _ Hc1 E1) as (x1 & Hx1 & Hcx1).
    destruct (Forall2_lookup_r _ _ _ _ _ Hc2 Hn) as (x2 & Hx2 & Hcx2).
    rewrite (take_S_r _ _ _ Hx1), (take_S_r _ _ _ Hx2), IH.
    pose proof (Ha n IH _ _ Hx1 Hx2) as Hnone. do 2 f_equal. destruct x1, x2; naive_solver.
  - pose proof (Forall2_length _ _ _ Hc1). pose proof (Forall2_length _ _ _ Hc2).
    apply lookup_ge_None in E1, Hn.
    rewrite !take_ge by lia. by rewrite !take_ge in IH by lia.
Qed.

(** Whatever generalises the paths and can be declared generalises the merged
    paths too: merging makes no index a wildcard which may stay. *)
Lemma merge_at_least (D : path → Prop) ps k :
  (∀ q1 q2 k, D q1 → D q2 → agree q1 q2 k) →
  (∀ p, p ∈ ps → ∃ q, D q ∧ covers q p) → ∀ p, p ∈ merge_at ps k → ∃ q, D q ∧ covers q p.
Proof.
  intros Ha Hc p. rewrite merge_at_eq. intros (p0 & -> & Hp)%list_elem_of_fmap.
  destruct (Hc p0 Hp) as (q & Hq & Hcov). exists q. split; [done|]. unfold merge_one.
  destruct (Nat.ltb_spec k (length p0)) as [Hk|]; [|done]. cbn [andb]. case_bool_decide as Hin; [|done].
  apply list_elem_of_fmap in Hin as (w & Ht & Hw). apply list_elem_of_filter in Hw as [Hwk Hw].
  destruct (Hc w Hw) as (qw & Hqw & Hcw).
  assert (take k q = take k qw) as Heq.
  { eapply covers_prefix_eq; [|exact Hcov|exact Hcw|done]. intros. by apply Ha. }
  destruct (Forall2_lookup_r _ _ _ _ _ Hcw Hwk) as (x & Hx & Hcx).
  assert (x = None) as -> by naive_solver.
  destruct (lookup_lt_is_Some_2 p0 k Hk) as [y Hy].
  destruct (Forall2_lookup_r _ _ _ _ _ Hcov Hy) as (z & Hz & _).
  pose proof (Ha _ _ k Hq Hqw Heq _ _ Hz Hx) as Hnone. destruct z; [done|].
  rewrite <- (list_insert_id q k None Hz). apply Forall2_insert; [done|by left].
Qed.

Lemma merge_wildcards_least (D : path → Prop) ps :
  (∀ q1 q2 k, D q1 → D q2 → agree q1 q2 k) →
  (∀ p, p ∈ ps → ∃ q, D q ∧ covers q p) → ∀ p, p ∈ merge_wildcards ps → ∃ q, D q ∧ covers q p.
Proof.
  intros Ha Hc. unfold merge_wildcards. setoid_rewrite elem_of_list_to_set.
  setoid_rewrite <- elem_of_elements in Hc. revert Hc. generalize (elements ps). intros l.
  generalize (seq 0 (max_len l)). intros ks. revert l.
  induction ks as [|k ks IH]; intros l Hc; [done|]. cbn [foldl]. apply IH. by apply merge_at_least.
Qed.

(** ** Compatibility *)

Lemma elem_of_push_paths i r q :
  q ∈ push_paths i r ↔ (∃ p, q = i :: p ∧ p ∈ r.1) ∨ r.2 = true ∧ q = [i].
Proof.
  unfold push_paths. rewrite elem_of_union, elem_of_map. f_equiv.
  destruct r.2; [rewrite elem_of_singleton; naive_solver|]. rewrite elem_of_empty. naive_solver.
Qed.

Lemma agree_cons i p1 p2 k : agree p1 p2 k → agree (i :: p1) (i :: p2) (S k).
Proof. intros Ha Ht x y. simpl in *. injection Ht as Ht. by apply Ha. Qed.

Lemma agree_head i j p1 p2 : is_none i = is_none j → agree (i :: p1) (j :: p2) 0.
Proof. by intros Hi _ x y [= <-] [= <-]. Qed.

Lemma agree_nil_l p k : agree [] p k.
Proof. by intros _ x y Hx; rewrite lookup_nil in Hx. Qed.

Lemma agree_nil_r p k : agree p [] k.
Proof. by intros _ x y _ Hy; rewrite lookup_nil in Hy. Qed.

#[local] Hint Resolve agree_cons agree_head agree_nil_l agree_nil_r : core.

Lemma push_paths_compatible i r : set_compatible r.1 → set_compatible (push_paths i r).
Proof.
  rewrite !set_compatible_agree. intros Ha p1 p2 k.
  rewrite !elem_of_push_paths. intros [(q1 & -> & H1)|[_ ->]] [(q2 & -> & H2)|[_ ->]];
    destruct k; auto.
Qed.

Lemma set_compatible_empty : set_compatible ∅.
Proof. apply set_compatible_agree. by intros p1 p2 k ?%not_elem_of_empty. Qed.

(** The paths of the fields of a tuple start with their indices. *)
Lemma union_compatible i r ps :
  set_compatible r.1 → set_compatible ps →
  (∀ q, q ∈ ps → ∃ j q', q = Some j :: q' ∧ (i < j)%N) →
  set_compatible (push_paths (Some i) r ∪ ps).
Proof.
  intros Hr Hps Hgt. apply (push_paths_compatible (Some i)) in Hr.
  rewrite set_compatible_agree in *. intros p1 p2 k.
  assert (∀ p1 p2, p1 ∈ push_paths (Some i) r → p2 ∈ ps → agree p1 p2 k ∧ agree p2 p1 k) as Hx.
  { intros q1 q2 H1 (j & q' & -> & Hj)%Hgt.
    assert (∃ q, q1 = Some i :: q) as [q ->].
    { apply elem_of_push_paths in H1 as [(? & -> & _)|[_ ->]]; eauto. }
    destruct k; [auto|]. split; intros Ht; simpl in Ht; injection Ht; lia. }
  rewrite !elem_of_union. intros [H1|H1] [H2|H2];
    [by apply Hr|apply (Hx p1 p2)|apply (Hx p2 p1)|by apply Hps]; done.
Qed.

Lemma index_u32_Some i n : index_u32 i = Some n → n = N.of_nat i.
Proof. unfold index_u32. destruct (_ <=? _)%N; [|done]. by intros [= <-]. Qed.

Lemma push_index_Some i r ps : push_index i r = Some ps → ps = push_paths (Some (N.of_nat i)) r.
Proof.
  unfold push_index. case_decide as E.
  - intros [= <-]. subst r. unfold push_paths. cbn. by rewrite set_map_empty, (left_id_L ∅ (∪)).
  - destruct (index_u32 i) as [n|] eqn:En; [|done]. intros [= <-]. by apply index_u32_Some in En as ->.
Qed.

Lemma tuple_paths_compatible f i tys ps :
  (∀ ty r, f ty = Some r → set_compatible r.1) → tuple_paths f i tys = Some ps →
  set_compatible ps ∧ ∀ q, q ∈ ps → ∃ j q', q = Some j :: q' ∧ (N.of_nat i ≤ j)%N.
Proof.
  intros Hf. revert i ps. induction tys as [|ty tys IH]; intros i ps; simpl.
  { intros [= <-]. split; [apply set_compatible_empty|]. by intros q ?%not_elem_of_empty. }
  destruct (f ty) as [r|] eqn:E; simpl; [|done].
  destruct (push_index i r) as [ps1|] eqn:En; simpl; [|done].
  destruct (tuple_paths f (S i) tys) as [rest|] eqn:Er; simpl; [|done]. intros [= <-].
  apply push_index_Some in En as ->. destruct (IH _ _ Er) as [Hc Hge]. split.
  - apply union_compatible; [by eapply Hf|done|]. intros q (j & q' & -> & ?)%Hge.
    exists j, q'. split; [done|lia].
  - intros q [Hq|Hq]%elem_of_union.
    + apply elem_of_push_paths in Hq as [(p & -> & _)|[_ ->]]; eexists _, _; (split; [done|lia]).
    + destruct (Hge q Hq) as (j & q' & -> & ?). exists j, q'. split; [done|lia].
Qed.

Lemma async_paths_tyid_S fuel resolve id :
  async_paths_tyid (S fuel) resolve id =
  (kind ← resolve !! id; async_paths_kind (async_paths_ty fuel resolve) kind).
Proof. done. Qed.

Lemma async_paths_kind_compatible f kind r :
  (∀ ty r, f ty = Some r → set_compatible r.1) →
  async_paths_kind f kind = Some r → set_compatible r.1.
Proof.
  intros Hf.
  destruct kind as [fs| | | | |tys|cases| |ty|ok err|ty|ty n| |[ty|]|[ty|]|ty|];
    cbn [async_paths_kind]; try (intros [= <-]; apply set_compatible_empty); try done; try apply Hf.
  - destruct (tuple_paths f 0 fs) as [ps|] eqn:E; simpl; [|done]. intros [= <-].
    by eapply tuple_paths_compatible.
  - destruct (tuple_paths f 0 tys) as [ps|] eqn:E; simpl; [|done]. intros [= <-].
    by eapply tuple_paths_compatible.
  - destruct (variant_paths f cases) as [[ps b]|]; simpl; [|done]. intros [= <-].
    apply merge_wildcards_compatible.
  - destruct (variant_paths f [ok; err]) as [[ps b]|]; simpl; [|done].
    intros [= <-]. apply merge_wildcards_compatible.
  - destruct (f ty) as [r'|] eqn:E; simpl; [|done]. intros [= <-].
    eapply push_paths_compatible, Hf, E.
  - destruct (f ty) as [r'|] eqn:E; simpl; [|done]. intros [= <-].
    eapply push_paths_compatible, Hf, E.
  - destruct (f ty) as [[ps b]|] eqn:E; simpl; [|done]. intros [= <-]. apply (Hf _ _ E).
  - destruct (f ty) as [r'|] eqn:E; simpl; [|done]. intros [= <-].
    eapply push_paths_compatible, Hf, E.
Qed.

Lemma async_paths_ty_compatible fuel resolve ty r :
  async_paths_ty fuel resolve ty = Some r → set_compatible r.1.
Proof.
  revert ty r. induction fuel as [|fuel IH]; intros ty r; destruct ty as [| | | | | | | | | | | | | |id];
    try (intros [= <-]; apply set_compatible_empty).
  unfold async_paths_ty. rewrite async_paths_tyid_S.
  destruct (resolve !! id) as [kind|]; simpl; [|done]. by apply async_paths_kind_compatible.
Qed.

(** *** Wasmtime *)

Section Ty_ind.
Context (P : Ty → Prop).
Context (Plist : ∀ ty, P ty → P (WList ty)) (Poption : ∀ ty, P ty → P (WOption ty)).
Context (Presult : ∀ ok err, option_Forall P ok → option_Forall P err → P (WResult ok err)).
Context (Pvariant : ∀ cases, Forall (option_Forall P) cases → P (WVariant cases)).
Context (Ptuple : ∀ tys, Forall P tys → P (WTuple tys)).
Context (Precord : ∀ tys, Forall P tys → P (WRecord tys)).
Context (Pfuture : ∀ ty, option_Forall P ty → P (WFuture ty)).
Context (Pstream : ∀ ty, option_Forall P ty → P (WStream ty)).
Context (Pown : ∀ r, P (WOwn r)) (Pborrow : ∀ r, P (WBorrow r)) (Pother : P WOther).

Fixpoint Ty_induction (ty : Ty) : P ty :=
  let opt (o : option Ty) : option_Forall P o :=
    match o with Some ty => Forall_Some P ty (Ty_induction ty) | None => Forall_None P end in
  let all := fix all (tys : list Ty) : Forall P tys :=
    match tys with
    | [] => Forall_nil_2 P
    | ty :: tys => Forall_cons_2 P ty tys (Ty_induction ty) (all tys)
    end in
  let alls := fix alls (cases : list (option Ty)) : Forall (option_Forall P) cases :=
    match cases with
    | [] => Forall_nil_2 _
    | case :: cases => Forall_cons_2 _ case cases (opt case) (alls cases)
    end in
  match ty with
  | WList ty => Plist ty (Ty_induction ty)
  | WOption ty => Poption ty (Ty_induction ty)
  | WResult ok err => Presult ok err (opt ok) (opt err)
  | WVariant cases => Pvariant cases (alls cases)
  | WTuple tys => Ptuple tys (all tys)
  | WRecord tys => Precord tys (all tys)
  | WFuture ty => Pfuture ty (opt ty)
  | WStream ty => Pstream ty (opt ty)
  | WOwn r => Pown r
  | WBorrow r => Pborrow r
  | WOther => Pother
  end.
End Ty_ind.

(** The union of the paths of the fields from the index [i] on. *)
Fixpoint fields_paths (i : nat) (rs : list (paths * bool)) : paths :=
  match rs with
  | [] => ∅
  | r :: rs => push_paths (Some (N.of_nat i)) r ∪ fields_paths (S i) rs
  end.

Lemma imap_fields_paths i rs :
  ⋃ (imap (λ j r, push_paths (Some (N.of_nat (i + j))) r) rs) = fields_paths i rs.
Proof.
  revert i. induction rs as [|r rs IH]; intros i; simpl; [done|].
  rewrite Nat.add_0_r. f_equal. rewrite <- IH. f_equal. apply imap_ext. intros j x _. simpl.
  do 2 f_equal. lia.
Qed.

Lemma fields_paths_compatible i rs :
  Forall (λ r, set_compatible r.1) rs →
  set_compatible (fields_paths i rs) ∧
  ∀ q, q ∈ fields_paths i rs → ∃ j q', q = Some j :: q' ∧ (N.of_nat i ≤ j)%N.
Proof.
  revert i. induction rs as [|r rs IH]; intros i Hr; simpl.
  { split; [apply set_compatible_empty|]. by intros q ?%not_elem_of_empty. }
  inversion Hr; subst. destruct (IH (S i)) as [Hc Hge]; [done|]. split.
  - apply union_compatible; [done|done|]. intros q (j & q' & -> & ?)%Hge.
    exists j, q'. split; [done|lia].
  - intros q [Hq|Hq]%elem_of_union.
    + apply elem_of_push_paths in Hq as [(p & -> & _)|[_ ->]]; eexists _, _; (split; [done|lia]).
    + destruct (Hge q Hq) as (j & q' & -> & ?). exists j, q'. split; [done|lia].
Qed.

Lemma async_paths_compatible io ty : set_compatible (async_paths io ty).1.
Proof.
  induction ty as [ty IH|ty IH|ok err IH1 IH2|cases IH|tys IH|tys IH|ty IH|ty IH|r|r|]
    using Ty_induction; simpl; try apply set_compatible_empty.
  - by apply push_paths_compatible.
  - done.
  - apply merge_wildcards_compatible.
  - apply merge_wildcards_compatible.
  - rewrite (imap_fields_paths 0). apply fields_paths_compatible. by apply Forall_map.
  - rewrite (imap_fields_paths 0). apply fields_paths_compatible. by apply Forall_map.
  - destruct IH; [apply set_compatible_empty|done].
  - destruct IH; [apply set_compatible_empty|by apply push_paths_compatible].
Qed.

(** ** Soundness and completeness *)

Lemma tuple_paths_spec f i tys ps :
  tuple_paths f i tys = Some ps →
  (∀ k ty, tys !! k = Some ty → is_Some (f ty)) ∧
  ∀ q, q ∈ ps ↔ ∃ k ty r, tys !! k = Some ty ∧ f ty = Some r ∧
                          q ∈ push_paths (Some (N.of_nat (i + k))) r.
Proof.
  revert i ps. induction tys as [|ty tys IH]; intros i ps; simpl.
  { intros [= <-]. split; [done|]. intros q. rewrite elem_of_empty. naive_solver. }
  destruct (f ty) as [r|] eqn:E; simpl; [|done].
  destruct (push_index i r) as [ps1|] eqn:En; simpl; [|done].
  destruct (tuple_paths f (S i) tys) as [rest|] eqn:Er; simpl; [|done]. intros [= <-].
  apply push_index_Some in En as ->. destruct (IH _ _ Er) as [H1 H2]. split.
  - intros [|k] ty'; simpl; [intros [= <-]; eauto|apply H1].
  - intros q. rewrite elem_of_union, H2. split.
    + intros [Hq|(k & ty' & r' & Hk & Hf & Hq)].
      * exists 0, ty, r. by rewrite Nat.add_0_r.
      * exists (S k), ty', r'. by rewrite Nat.add_succ_r.
    + intros ([|k] & ty' & r' & Hk & Hf & Hq); simpl in Hk.
      * simplify_eq. rewrite Nat.add_0_r in Hq. by left.
      * right. exists k, ty', r'. by rewrite Nat.add_succ_r in Hq.
Qed.

Lemma variant_paths_spec f cases ps b :
  variant_paths f cases = Some (ps, b) →
  (∀ ty, Some ty ∈ cases → ∃ r, f ty = Some r ∧ r.1 ⊆ ps ∧ (r.2 = true → b = true)) ∧
  (∀ q, q ∈ ps → ∃ ty r, Some ty ∈ cases ∧ f ty = Some r ∧ q ∈ r.1) ∧
  (b = true → ∃ ty r, Some ty ∈ cases ∧ f ty = Some r ∧ r.2 = true).
Proof.
  revert ps b. induction cases as [|[ty|] cases IH]; intros ps b; simpl.
  - intros [= <- <-]. split_and!; [by intros ? ?%not_elem_of_nil|by intros ? ?%not_elem_of_empty|done].
  - destruct (f ty) as [[nested fut]|] eqn:E; simpl; [|done].
    destruct (variant_paths f cases) as [[rest is_fut]|]; simpl; [|done]. intros [= <- <-].
    destruct (IH _ _ eq_refl) as (H1 & H2 & H3). split_and!.
    + intros ty' [[= ->]|Hin]%elem_of_cons.
      * exists (nested, fut). simpl. split; [done|]. split; [set_solver|by intros ->].
      * destruct (H1 _ Hin) as (r & ? & ? & Hr). exists r. split; [done|]. split; [set_solver|].
        intros Hr2. rewrite (Hr Hr2). apply orb_true_r.
    + intros q [Hq|Hq]%elem_of_union.
      * exists ty, (nested, fut). split; [by left|done].
      * destruct (H2 q Hq) as (ty' & r & ? & ? & ?). exists ty', r. split; [by right|done].
    + intros [->|Hb]%orb_true_iff.
      * exists ty, (nested, true). split; [by left|done].
      * destruct (H3 Hb) as (ty' & r & ? & ? & ?). exists ty', r. split; [by right|done].
  - intros Hv. destruct (IH _ _ Hv) as (H1 & H2 & H3). split_and!.
    + intros ty' [?|Hin]%elem_of_cons; [done|by apply H1].
    + intros q (ty' & r & ? & ? & ?)%H2. exists ty', r. split; [by right|done].
    + intros (ty' & r & ? & ? & ?)%H3. exists ty', r. split; [by right|done].
Qed.

(** The paths [D] can be declared together and cover the positions of a type. *)
Definition declares (resolve : Resolve) (ty : Type_) (D : path → Prop) : Prop :=
  (∀ q1 q2 k, D q1 → D q2 → agree q1 q2 k) ∧
  ∀ p, async_at resolve ty p → ∃ q, D q ∧ covers q p.

Lemma declares_weaken resolve ty ty' D :
  (∀ p, async_at resolve ty' p → async_at resolve ty p) → declares resolve ty D → declares resolve ty' D.
Proof. intros Hat [Ha Hc]. split; [done|]. intros p ?%Hat. by apply Hc. Qed.

(** Paths which are declared for [ty'] at [i] are declared for a type with [ty']
    there. *)
Lemma declares_at resolve ty ty' i D :
  (∀ p, async_at resolve ty' p → async_at resolve ty (i :: p)) → declares resolve ty D →
  declares resolve ty' (λ t, ∃ x, D (x :: t) ∧ (x = None ∨ x = i)).
Proof.
  intros Hat [Ha Hc]. split.
  - intros t1 t2 k (x1 & H1 & Hx1) (x2 & H2 & Hx2) Ht.
    assert (x1 = x2) as <-.
    { pose proof (Ha _ _ 0 H1 H2 eq_refl x1 x2 eq_refl eq_refl) as Hn. destruct x1, x2; naive_solver. }
    apply (Ha _ _ (S k) H1 H2). cbn [take]. by f_equal.
  - intros p (q & Hq & Hcov)%Hat%Hc. inversion Hcov as [|x ? t ? Hx Ht]; subst.
    exists t. split; [|done]. exists x. naive_solver.
Qed.

Definition paths_spec_least (resolve : Resolve) (ty : Type_) (r : paths * bool) : Prop :=
  ∀ D, declares resolve ty D → ∀ q, q ∈ r.1 → ∃ q', D q' ∧ covers q' q.

Lemma push_paths_least resolve ty ty' i r D :
  paths_spec_least resolve ty' r → (r.2 = true → async_at resolve ty' []) →
  (∀ p, async_at resolve ty' p → async_at resolve ty (i :: p)) → declares resolve ty D →
  ∀ q, q ∈ push_paths i r → ∃ q', D q' ∧ covers q' q.
Proof.
  intros Hl Hs Hat HD%(declares_at _ _ _ _ _ Hat) q Hq.
  apply elem_of_push_paths in Hq as [(p & -> & Hp)|[Hr ->]].
  - destruct (Hl _ HD p Hp) as (t & (x & Hx & Hxi) & Hc). exists (x :: t). split; [done|].
    constructor; [naive_solver|done].
  - destruct HD as [_ HD]. destruct (HD [] (Hs Hr)) as (t & (x & Hx & Hxi) & Hc).
    apply Forall2_nil_inv_r in Hc as ->. exists [x]. split; [done|]. constructor; [naive_solver|done].
Qed.

(** The computed paths are those of the streams and futures of the type, up to
    generalised indices. *)
Record paths_spec (resolve : Resolve) (ty : Type_) (r : paths * bool) : Prop := {
  ps_complete p :
    async_at resolve ty p →
    p = [] ∧ r.2 = true ∨ p ≠ [] ∧ ∃ p', p' ∈ r.1 ∧ covers p' p;
  ps_self : r.2 = true → async_at resolve ty [];
  ps_sound p' : p' ∈ r.1 → ∃ p, p ≠ [] ∧ async_at resolve ty p ∧ covers p' p;
  ps_least : paths_spec_least resolve ty r
}.

Lemma covers_cons i p' p : covers p' p → covers (i :: p') (i :: p).
Proof. intros. constructor; auto. Qed.

(** A type whose positions are those of another type, one level down. *)
Lemma push_paths_spec resolve ty r i :
  paths_spec resolve ty r →
  (∀ p, async_at resolve ty p → ∃ p', p' ∈ push_paths i r ∧ covers p' (i :: p)) ∧
  (∀ p', p' ∈ push_paths i r → ∃ p, async_at resolve ty p ∧ covers p' (i :: p)).
Proof.
  intros [H1 H2 H3 _]. setoid_rewrite elem_of_push_paths. split.
  - intros p [[-> Hr]|(_ & p' & Hp' & Hc)]%H1.
    + exists [i]. split; [by right|apply covers_refl].
    + exists (i :: p'). split; [left; eauto|by apply covers_cons].
  - intros p' [(q & -> & Hq)|[Hr ->]].
    + destruct (H3 q Hq) as (p & _ & ? & ?). exists p. split; [done|by apply covers_cons].
    + exists []. split; [by apply H2|apply covers_refl].
Qed.

Lemma merge_spec (A : path → Prop) ps b :
  (∀ p, A p → p = [] ∧ b = true ∨ p ≠ [] ∧ ∃ p', p' ∈ ps ∧ covers p' p) →
  (∀ p', p' ∈ ps → ∃ p, p ≠ [] ∧ A p ∧ covers p' p) →
  (∀ p, A p → p = [] ∧ b = true ∨ p ≠ [] ∧ ∃ p', p' ∈ merge_wildcards ps ∧ covers p' p) ∧
  (∀ p', p' ∈ merge_wildcards ps → ∃ p, p ≠ [] ∧ A p ∧ covers p' p).
Proof.
  intros H1 H2. destruct (merge_wildcards_covers ps) as [M1 M2]. split.
  - intros p [?|(Hp & p' & Hp' & Hc)]%H1; [by left|right]. split; [done|].
    destruct (M1 p' Hp') as (p'' & ? & ?). exists p''. split; [done|by eapply covers_trans].
  - intros p' (q & Hq & Hc)%M2. destruct (H2 q Hq) as (p & ? & ? & ?). exists p.
    split_and!; [done..|by eapply covers_trans].
Qed.

Lemma variant_spec resolve id f cases ps b :
  (∀ ty r, f ty = Some r → paths_spec resolve ty r) →
  variant_paths f cases = Some (ps, b) →
  (∀ p, async_at resolve (TyId id) p ↔ ∃ ty, Some ty ∈ cases ∧ async_at resolve ty p) →
  paths_spec resolve (TyId id) (merge_wildcards ps, b).
Proof.
  intros Hf Hv Hat. destruct (variant_paths_spec _ _ _ _ Hv) as (V1 & V2 & V3).
  destruct (merge_spec (async_at resolve (TyId id)) ps b) as [M1 M2].
  - intros p (ty & Hin & Hp)%Hat. destruct (V1 ty Hin) as (r & Hr & Hs & Hb).
    destruct (ps_complete _ _ _ (Hf _ _ Hr) p Hp) as [[-> ?]|(? & p' & ? & ?)]; [by left; auto|].
    right. split; [done|]. exists p'. split; [by apply Hs|done].
  - intros p' (ty & r & Hin & Hr & Hp')%V2.
    destruct (ps_sound _ _ _ (Hf _ _ Hr) p' Hp') as (p & ? & ? & ?). exists p.
    split_and!; [done| |done]. apply Hat. eauto.
  - split; [done| |done|].
    + intros (ty & r & Hin & Hr & Hb)%V3. apply Hat.
      exists ty. split; [done|]. by apply (ps_self _ _ _ (Hf _ _ Hr)).
    + intros D HD. apply merge_wildcards_least; [apply HD|]. intros p (ty & r & Hin & Hr & Hp)%V2.
      eapply (ps_least _ _ _ (Hf _ _ Hr)); [|done]. eapply declares_weaken; [|done].
      intros q ?. apply Hat. eauto.
Qed.

Lemma tuple_spec resolve id f tys ps :
  (∀ ty r, f ty = Some r → paths_spec resolve ty r) →
  tuple_paths f 0 tys = Some ps →
  (∀ p, async_at resolve (TyId id) p ↔
     ∃ i ty q, tys !! i = Some ty ∧ async_at resolve ty q ∧ p = Some (N.of_nat i) :: q) →
  paths_spec resolve (TyId id) (ps, false).
Proof.
  intros Hf Hv Hat. destruct (tuple_paths_spec _ _ _ _ Hv) as (T1 & T2). split; [|done| |]; simpl.
  - intros p (i & ty & q & Hi & Hq & ->)%Hat. right. split; [done|].
    destruct (T1 i ty Hi) as [r Hr].
    destruct (push_paths_spec _ _ _ (Some (N.of_nat i)) (Hf _ _ Hr)) as [P1 _].
    destruct (P1 q Hq) as (p' & ? & ?). exists p'. split; [|done]. apply T2. eauto 6.
  - intros p' (i & ty & r & Hi & Hr & Hp')%T2. simpl in Hp'.
    destruct (push_paths_spec _ _ _ (Some (N.of_nat i)) (Hf _ _ Hr)) as [_ P2].
    destruct (P2 p' Hp') as (q & ? & ?). eexists (Some (N.of_nat i) :: q).
    split_and!; [done| |done]. apply Hat. eauto 6.
  - intros D HD q (i & ty & r & Hi & Hr & Hq)%T2. destruct (Hf _ _ Hr) as [_ F2 _ F4].
    eapply push_paths_least; [exact F4|done| |exact HD|exact Hq]. intros p ?. apply Hat. eauto 6.
Qed.

Lemma list_spec resolve id ty r b :
  paths_spec resolve ty r →
  (∀ p, async_at resolve (TyId id) p ↔
     b = true ∧ p = [] ∨ ∃ q, async_at resolve ty q ∧ p = None :: q) →
  paths_spec resolve (TyId id) (push_paths None r, b).
Proof.
  intros Hr Hat. destruct (push_paths_spec _ _ _ None Hr) as [P1 P2]. split; simpl.
  - intros p [[-> ->]|(q & Hq & ->)]%Hat; [by left|right]. split; [done|]. by apply P1.
  - intros ->. apply Hat. by left.
  - intros p' (q & ? & ?)%P2. exists (None :: q). split_and!; [done| |done]. apply Hat. eauto.
  - intros D HD. destruct Hr as [_ F2 _ F4]. eapply push_paths_least; [exact F4|done| |exact HD].
    intros p ?. apply Hat. eauto.
Qed.

Lemma alias_spec resolve id ty r :
  paths_spec resolve ty r →
  (∀ p, async_at resolve (TyId id) p ↔ async_at resolve ty p) → paths_spec resolve (TyId id) r.
Proof.
  intros [H1 H2 H3 H4] Hat. split.
  - intros p ?%Hat. by apply H1.
  - intros ?. by apply Hat, H2.
  - intros p' (p & ? & ? & ?)%H3. exists p. by rewrite Hat.
  - intros D HD. apply H4. eapply declares_weaken; [|exact HD]. intros p. apply Hat.
Qed.

Lemma none_spec resolve ty b :
  (∀ p, async_at resolve ty p ↔ b = true ∧ p = []) → paths_spec resolve ty (∅, b).
Proof.
  intros Hat. split; simpl.
  - intros p [-> ->]%Hat. by left.
  - intros ->. by apply Hat.
  - by intros p' ?%not_elem_of_empty.
  - by intros D _ p' ?%not_elem_of_empty.
Qed.

Ltac invert_at :=
  intros Hat; inversion Hat; simplify_eq; destruct_or?; simplify_eq; eauto 6.

Lemma async_paths_kind_spec resolve id f kind r :
  (∀ ty r, f ty = Some r → paths_spec resolve ty r) → resolve !! id = Some kind →
  async_paths_kind f kind = Some r → paths_spec resolve (TyId id) r.
Proof.
  intros Hf Hid.
  destruct kind as [fs| | | | |tys|cases| |ty|ok err|ty|ty n| |[ty|]|[ty|]|ty|];
    cbn [async_paths_kind]; intros Hk; try done;
    try (injection Hk as <-; apply none_spec; intros p; split; [by invert_at|by intros []]).
  - destruct (tuple_paths f 0 fs) as [ps|] eqn:E; simpl in Hk; [|done]. injection Hk as <-.
    eapply tuple_spec; [exact Hf|exact E|]. intros p; split; [invert_at|].
    intros (i & ty & q & ? & ? & ->). eapply at_tuple; eauto.
  - destruct (tuple_paths f 0 tys) as [ps|] eqn:E; simpl in Hk; [|done]. injection Hk as <-.
    eapply tuple_spec; [exact Hf|exact E|]. intros p; split; [invert_at|].
    intros (i & ty & q & ? & ? & ->). eapply at_tuple; eauto.
  - destruct (variant_paths f cases) as [[ps b]|] eqn:E; simpl in Hk; [|done]. injection Hk as <-.
    eapply variant_spec; [exact Hf|exact E|]. intros p; split; [invert_at|].
    intros (ty & ? & ?). by eapply at_variant.
  - eapply alias_spec; [by eapply Hf|]. intros p; split; [invert_at|]. intros. by eapply at_option.
  - destruct (variant_paths f [ok; err]) as [[ps b]|] eqn:E; cbn [mbind option_bind] in Hk; [|done].
    injection Hk as <-.
    eapply variant_spec; [exact Hf|exact E|]. intros p; split.
    + invert_at; eexists; (split; [|done]); rewrite !elem_of_cons; auto.
    + intros (ty & Hin & ?). eapply at_result; [done| |done].
      rewrite !elem_of_cons in Hin. destruct Hin as [?|[?|?%not_elem_of_nil]]; auto; done.
  - destruct (f ty) as [r'|] eqn:E; simpl in Hk; [|done]. injection Hk as <-.
    eapply list_spec; [by eapply Hf|]. intros p; split; [invert_at|].
    intros [[? _]|(q & ? & ->)]; [done|]. by eapply at_list.
  - destruct (f ty) as [r'|] eqn:E; simpl in Hk; [|done]. injection Hk as <-.
    eapply list_spec; [by eapply Hf|]. intros p; split; [invert_at|].
    intros [[? _]|(q & ? & ->)]; [done|]. by eapply at_fixed_length_list.
  - destruct (f ty) as [[ps b]|] eqn:E; simpl in Hk; [|done]. injection Hk as <-.
    destruct (Hf _ _ E) as [H1 H2 H3 H4]. simpl in *. split; simpl.
    + intros p. invert_at. destruct (H1 p) as [[-> _]|?]; auto.
    + intros _. by eapply at_future.
    + intros p' (p & ? & ? & ?)%H3. exists p. split_and!; [done| |done]. by eapply at_future_value.
    + intros D HD. apply H4. eapply declares_weaken; [|exact HD]. intros p ?. by eapply at_future_value.
  - injection Hk as <-. apply none_spec. intros p; split; [invert_at|]. intros [_ ->]. by eapply at_future.
  - destruct (f ty) as [r'|] eqn:E; simpl in Hk; [|done]. injection Hk as <-.
    eapply list_spec; [by eapply Hf|]. intros p; split; [invert_at|].
    intros [[_ ->]|(q & ? & ->)]; [by eapply at_stream|by eapply at_stream_element].
  - injection Hk as <-. apply none_spec. intros p; split; [invert_at|]. intros [_ ->]. by eapply at_stream.
  - eapply alias_spec; [by eapply Hf|]. intros p; split; [invert_at|]. intros. by eapply at_type.
Qed.

Lemma async_paths_ty_spec fuel resolve ty r :
  async_paths_ty fuel resolve ty = Some r → paths_spec resolve ty r.
Proof.
  revert ty r. induction fuel as [|fuel IH]; intros ty r; destruct ty as [| | | | | | | | | | | | | |id];
    try (intros [= <-]; apply none_spec; intros p; split; [by inversion 1|by intros []]); [done|].
  unfold async_paths_ty. rewrite async_paths_tyid_S.
  destruct (resolve !! id) as [kind|] eqn:E; simpl; [|done].
  intros. by eapply async_paths_kind_spec.
Qed.

(** ** Totality *)

Lemma tuple_paths_total f i tys :
  (∀ ty, ty ∈ tys → is_Some (f ty)) → (N.of_nat (i + length tys) ≤ u32_MAX + 1)%N →
  is_Some (tuple_paths f i tys).
Proof.
  revert i. induction tys as [|ty tys IH]; intros i Hf Hi; simpl in *; [eauto|].
  destruct (Hf ty) as [r ->]; [by left|]. cbn [mbind option_bind].
  destruct (IH (S i)) as [rest ->]; [intros; apply Hf; by right|lia|].
  unfold push_index, index_u32. case_decide; [cbn; eauto|].
  destruct (N.leb_spec (N.of_nat i) u32_MAX); [cbn; eauto|lia].
Qed.

Lemma variant_paths_total f cases :
  (∀ ty, ty ∈ omap id cases → is_Some (f ty)) → is_Some (variant_paths f cases).
Proof.
  induction cases as [|[ty|] cases IH]; intros Hf; simpl in *; [eauto| |by apply IH].
  destruct (Hf ty) as [[nested fut] ->]; [by left|]. simpl.
  destruct IH as [[rest b] ->]; [intros; apply Hf; by right|eauto].
Qed.

Lemma async_paths_kind_total f kind :
  (∀ ty, ty ∈ references kind → is_Some (f ty)) → kind ≠ KUnknown →
  (N.of_nat (length (references kind)) ≤ u32_MAX)%N → is_Some (async_paths_kind f kind).
Proof.
  intros Hf Hk Hlen.
  assert (∀ ty, ty ∈ references kind → ∃ ps b, f ty = Some (ps, b)) as Hf'.
  { intros ty Hin. destruct (Hf ty Hin) as [[ps b] ?]. eauto. }
  destruct kind as [fs| | | | |tys|cases| |ty|ok err|ty|ty n| |[ty|]|[ty|]|ty|];
    cbn [async_paths_kind references] in *; eauto; try done;
    try (destruct (Hf' ty) as (ps & b & ->); [by left|simpl; eauto]).
  - destruct (tuple_paths_total f 0 fs Hf) as [ps ->]; [lia|simpl; eauto].
  - destruct (tuple_paths_total f 0 tys Hf) as [ps ->]; [lia|simpl; eauto].
  - destruct (variant_paths_total f cases Hf) as [[ps b] ->]. simpl. eauto.
  - destruct (variant_paths_total f [ok; err] Hf) as [[ps b] ->]. cbn [mbind option_bind]. eauto.
Qed.

Lemma async_paths_total_fuel resolve fuel id :
  wf_resolve resolve → id < length resolve → id < fuel → is_Some (async_paths_tyid fuel resolve id).
Proof.
  intros Hwf. revert id. induction fuel as [|fuel IH]; intros id Hid Hf; [lia|].
  rewrite async_paths_tyid_S. destruct (lookup_lt_is_Some_2 resolve id Hid) as [kind E].
  rewrite E. simpl. destruct (Hwf id kind E) as (Hk & Hlen & Href).
  apply async_paths_kind_total; [|done..]. intros ty Hty. unfold async_paths_ty.
  destruct ty as [| | | | | | | | | | | | | |j]; eauto. specialize (Href j Hty).
  apply IH; lia.
Qed.

(** ** The two computations *)

(** The type of Wasmtime for a WIT type.  Wasmtime has no lists of a fixed
    length. *)
Definition tree_kind (f : Type_ → option Ty) (kind : TypeDefKind) : option Ty :=
  match kind with
  | KList ty => WList <$> f ty
  | KOption ty => WOption <$> f ty
  | KResult ok err => match mapM (λ o, match o with Some ty => Some <$> f ty | None => Some None end)
                              [ok; err] with
                      | Some [ok; err] => Some (WResult ok err)
                      | _ => None
                      end
  | KVariant cases =>
      WVariant <$> mapM (λ o, match o with Some ty => Some <$> f ty | None => Some None end) cases
  | KTuple tys => WTuple <$> mapM f tys
  | KRecord tys => WRecord <$> mapM f tys
  | KFuture None => Some (WFuture None)
  | KFuture (Some ty) => (WFuture ∘ Some) <$> f ty
  | KStream None => Some (WStream None)
  | KStream (Some ty) => (WStream ∘ Some) <$> f ty
  | KType ty => f ty
  | KOwn id => Some (WOwn id)
  | KBorrow id => Some (WBorrow id)
  | KFlags _ | KEnum _ | KMap _ _ => Some WOther
  | KResource | KFixedLengthList _ _ | KUnknown => None
  end.

Fixpoint type_tree (fuel : nat) (resolve : Resolve) (ty : Type_) : option Ty :=
  match ty with
  | TyId id =>
      match fuel with
      | O => None
      | S fuel => kind ← resolve !! id; tree_kind (type_tree fuel resolve) kind
      end
  | _ => Some WOther
  end.

Section equivalence.
Context (f : Type_ → option (paths * bool)) (g : Type_ → option Ty).
Context (Hfg : ∀ ty t r, g ty = Some t → f ty = Some r → r = async_paths [] t).

Lemma tuple_paths_tree i tys ts ps :
  mapM g tys = Some ts → tuple_paths f i tys = Some ps →
  ps = fields_paths i (map (async_paths []) ts).
Proof.
  revert i ts ps. induction tys as [|ty tys IH]; intros i ts ps; simpl.
  { by intros [= <-] [= <-]. }
  destruct (g ty) as [t|] eqn:Eg; simpl; [|done].
  destruct (mapM g tys) as [ts'|] eqn:Em; simpl; [|done]. intros [= <-].
  destruct (f ty) as [r|] eqn:E; simpl; [|done].
  destruct (push_index i r) as [ps1|] eqn:En; simpl; [|done].
  destruct (tuple_paths f (S i) tys) as [rest|] eqn:Er; simpl; [|done]. intros [= <-].
  apply push_index_Some in En as ->. rewrite (Hfg _ _ _ Eg E). f_equal. by eapply IH.
Qed.

Definition case_paths (o : option Ty) : paths * bool :=
  match o with Some ty => async_paths [] ty | None => (∅, false) end.

Lemma variant_paths_tree cases ts ps b :
  mapM (λ o, match o with Some ty => Some <$> g ty | None => Some None end) cases = Some ts →
  variant_paths f cases = Some (ps, b) →
  ps = ⋃ (map case_paths ts).*1 ∧ b = existsb snd (map case_paths ts).
Proof.
  revert ts ps b. induction cases as [|[ty|] cases IH]; intros ts ps b; simpl.
  - by intros [= <-] [= <- <-].
  - destruct (g ty) as [t|] eqn:Eg; simpl; [|done].
    destruct (mapM _ cases) as [ts'|] eqn:Em; simpl; [|done]. intros [= <-].
    destruct (f ty) as [[nested fut]|] eqn:E; simpl; [|done].
    destruct (variant_paths f cases) as [[rest is_fut]|] eqn:Er; simpl; [|done]. intros [= <- <-].
    destruct (IH _ _ _ eq_refl eq_refl) as [-> ->].
    pose proof (Hfg _ _ _ Eg E) as Hr. rewrite <- Hr. done.
  - destruct (mapM _ cases) as [ts'|] eqn:Em; simpl; [|done]. intros [= <-] Hv.
    destruct (IH _ _ _ eq_refl Hv) as [-> ->]. split; [|done]. simpl. by rewrite (left_id_L ∅ (∪)).
Qed.

Lemma async_paths_kind_tree kind t r :
  tree_kind g kind = Some t → async_paths_kind f kind = Some r → r = async_paths [] t.
Proof.
  destruct kind as [fs| | | | |tys|cases| |ty|ok err|ty|ty n| |[ty|]|[ty|]|ty|];
    cbn [tree_kind async_paths_kind]; try done; try (by intros [= <-] [= <-]); try apply Hfg;
    try (destruct (g ty) as [t'|] eqn:Eg; simpl; [|done]; intros [= <-]);
    try (destruct (f ty) as [[ps b]|] eqn:Ef; simpl; [|done];
         pose proof (Hfg _ _ _ Eg Ef) as Hr; intros [= <-]; simpl; by rewrite <- Hr).
  - destruct (mapM g fs) as [ts|] eqn:Em; simpl; [|done]. intros [= <-].
    destruct (tuple_paths f 0 fs) as [ps|] eqn:E; simpl; [|done]. intros [= <-]. f_equal.
    rewrite (imap_fields_paths 0). by eapply tuple_paths_tree.
  - destruct (mapM g tys) as [ts|] eqn:Em; simpl; [|done]. intros [= <-].
    destruct (tuple_paths f 0 tys) as [ps|] eqn:E; simpl; [|done]. intros [= <-]. f_equal.
    rewrite (imap_fields_paths 0). by eapply tuple_paths_tree.
  - destruct (mapM _ cases) as [ts|] eqn:Em; simpl; [|done]. intros [= <-].
    destruct (variant_paths f cases) as [[ps b]|] eqn:E; simpl; [|done]. intros [= <-].
    by destruct (variant_paths_tree _ _ _ _ Em E) as [-> ->].
  - destruct (mapM _ [ok; err]) as [[|t1 [|t2 []]]|] eqn:Em; try done. intros [= <-].
    destruct (variant_paths f [ok; err]) as [[ps b]|] eqn:E; cbn [mbind option_bind]; [|done].
    intros [= <-]. destruct (variant_paths_tree _ _ _ _ Em E) as [-> ->]. simpl.
    unfold case_paths. rewrite (right_id_L ∅ (∪)), orb_false_r. done.
Qed.
End equivalence.

Lemma type_tree_paths fuel resolve ty t r :
  type_tree fuel resolve ty = Some t → async_paths_ty fuel resolve ty = Some r →
  r = async_paths [] t.
Proof.
  revert ty t r. induction fuel as [|fuel IH]; intros ty t r;
    destruct ty as [| | | | | | | | | | | | | |id]; try (by intros [= <-] [= <-]).
  unfold async_paths_ty. rewrite async_paths_tyid_S. simpl.
  destruct (resolve !! id) as [kind|]; simpl; [|done]. by apply async_paths_kind_tree.
Qed.

(** The root needs no declaration. *)
Lemma declares_nil resolve ty (qs : list path) :
  (∀ q1 q2 k, q1 ∈ qs → q2 ∈ qs → agree q1 q2 k) →
  (∀ p, p ≠ [] → async_at resolve ty p → ∃ q, q ∈ qs ∧ covers q p) →
  declares resolve ty (λ q, q ∈ qs ∨ q = []).
Proof.
  intros Ha Hc. split.
  - intros q1 q2 k [?| ->] [?| ->]; [by apply Ha|apply agree_nil_r|apply agree_nil_l|apply agree_nil_l].
  - intros [|x p] Hp; [exists []; split; [by right|constructor]|].
    destruct (Hc (x :: p) ltac:(done) Hp) as (q & ? & ?). eauto.
Qed.

(** ** Properties *)

(** The asynchronous paths of every WIT type can be declared to
    [Incoming::new]: no two of them have both a wildcard and an index at the same
    position, also for the cases of variants and results, whose paths are not
    indexed. *)
Theorem async_paths_ty_declarable fuel resolve ty ps fut :
  async_paths_ty fuel resolve ty = Some (ps, fut) → compatible (elements ps).
Proof. intros Hr. by apply (async_paths_ty_compatible _ _ _ _ Hr). Qed.

(** [C34] the asynchronous paths of a WIT type are exactly the positions of the
    streams and futures in it, with only those indices generalised to wildcards
    which have to be for the paths to be declared together: the paths can be
    declared, every position is covered by one of them and each of them covers
    one, and whatever other paths which can be declared cover the positions,
    they cover these paths; the flag tells whether the type itself is a stream
    or a future. *)
Theorem async_paths_ty_exact fuel resolve ty ps fut :
  async_paths_ty fuel resolve ty = Some (ps, fut) →
  (fut = true ↔ async_at resolve ty []) ∧
  compatible (elements ps) ∧
  (∀ p, p ≠ [] → async_at resolve ty p → ∃ q, q ∈ ps ∧ covers q p) ∧
  (∀ q, q ∈ ps → ∃ p, p ≠ [] ∧ async_at resolve ty p ∧ covers q p) ∧
  (∀ qs, compatible qs →
     (∀ p, p ≠ [] → async_at resolve ty p → ∃ q, q ∈ qs ∧ covers q p) →
     ∀ q, q ∈ ps → ∃ q', q' ∈ qs ∧ covers q' q).
Proof.
  intros Hr. pose proof (async_paths_ty_compatible _ _ _ _ Hr) as Hc.
  destruct (async_paths_ty_spec _ _ _ _ Hr) as [H1 H2 H3 H4]. simpl in *. split_and!.
  - split; [done|]. by intros [[_ ?]|[? _]]%H1.
  - done.
  - intros p Hp [[? _]|[_ ?]]%H1; done.
  - done.
  - intros qs Hqs Hcov q Hq.
    destruct (H4 (λ q, q ∈ qs ∨ q = [])) with q as (q' & [?| ->] & Hq'); [|done|by eauto|].
    + apply declares_nil; [by apply compatible_agree|done].
    + apply Forall2_nil_inv_l in Hq' as ->. by destruct (H3 [] Hq) as (p & Hp & _ & ->%Forall2_nil_inv_l).
Qed.

(** [C35] the computation terminates without a panic on every well-formed arena
    of types. *)
Theorem async_paths_total resolve ty :
  wf_resolve resolve → (∀ id, ty = TyId id → id < length resolve) →
  is_Some (async_paths_ty (length resolve) resolve ty).
Proof.
  intros Hwf Hid. destruct ty as [| | | | | | | | | | | | | |id]; try (by eexists).
  apply async_paths_total_fuel; [done|by apply Hid|by apply Hid].
Qed.

(** The computation on the types of Wasmtime, which serves components,
    gives the paths of the computation on WIT types, which the bindings are
    generated from. *)
Theorem async_paths_wasmtime_agree fuel resolve ty t ps fut :
  type_tree fuel resolve ty = Some t → async_paths_ty fuel resolve ty = Some (ps, fut) →
  async_paths [] t = (ps, fut).
Proof. intros Ht Hr. symmetry. by eapply type_tree_paths. Qed.

(** The paths which are subscribed to when a component function is served
    can be declared to [Incoming::new], and a path is resolved to a declared
    position exactly if a parameter has a stream or a future there. *)
Theorem params_async_paths_declarable io_streams params tx path :
  let ps := elements (params_async_paths io_streams params) in
  compatible ps ∧
  ((∃ pt pat, resolve (Subscriptions_new ps tx) path = Some (pt, pat) ∧ p_declared pt = true) ↔
   declared_by ps path).
Proof.
  cbn zeta.
  assert (compatible (elements (params_async_paths io_streams params))) as Hc.
  { unfold params_async_paths. rewrite (imap_fields_paths 0). apply fields_paths_compatible.
    apply Forall_map, Forall_forall. intros ty _. apply async_paths_compatible. }
  split; [done|]. apply resolve_declared_iff; [done|]. apply s_patterns_new.
Qed.

(** ** Witnesses *)

(** [variant { record { u32, list<stream<u8>> }, none, list<stream<u8>> }] *)
Definition test_resolve : Resolve :=
  [KStream (Some TyU8); KList (TyId 0); KRecord [TyU32; TyId 1];
   KVariant [Some (TyId 2); None; Some (TyId 1)]].

Definition test_ty_paths : paths := {[ [None; None]; [None] ]}.

Lemma test_async_paths : async_paths_ty 4 test_resolve (TyId 3) = Some (test_ty_paths, false).
Proof. vm_compute. reflexivity. Qed.

Lemma async_paths_ty_declarable_witness : compatible (elements test_ty_paths).
Proof.
  apply (async_paths_ty_declarable 4 test_resolve (TyId 3) test_ty_paths false).
  vm_compute. reflexivity.
Defined.

(** The index of the field is generalised, since the other case is a list. *)
Lemma async_paths_ty_exact_witness :
  async_at test_resolve (TyId 3) [Some 1%N; None] ∧
  compatible (elements test_ty_paths) ∧
  (∃ q, q ∈ test_ty_paths ∧ covers q [Some 1%N; None]) ∧
  ∀ qs, compatible qs →
    (∀ p, p ≠ [] → async_at test_resolve (TyId 3) p → ∃ q, q ∈ qs ∧ covers q p) →
    ∃ q', q' ∈ qs ∧ covers q' [None; None].
Proof.
  destruct (async_paths_ty_exact 4 test_resolve (TyId 3) test_ty_paths false)
    as (_ & Hc & Hp & _ & Hl); [vm_compute; reflexivity|].
  assert (async_at test_resolve (TyId 3) [Some 1%N; None]) as Hat.
  { eapply at_variant; [reflexivity|by left|].
    eapply (at_tuple _ _ _ 1); [right; reflexivity|reflexivity|].
    eapply at_list; [reflexivity|]. by eapply at_stream. }
  split_and!; [done|done|by apply Hp|]. intros qs Hqs Hcov. apply (Hl qs Hqs Hcov).
  unfold test_ty_paths. set_solver.
Defined.

Lemma test_wf_resolve : wf_resolve test_resolve.
Proof.
  intros id kind. do 4 (destruct id as [|id]; [intros [= <-]; split_and!;
    [done|vm_compute; discriminate|intros j; simpl; rewrite ?elem_of_cons, ?elem_of_nil; naive_solver lia]|]).
  done.
Qed.

Lemma async_paths_total_witness : is_Some (async_paths_ty 4 test_resolve (TyId 3)).
Proof.
  apply (async_paths_total test_resolve (TyId 3)); [apply test_wf_resolve|].
  intros id [= <-]. simpl. lia.
Defined.

Lemma async_paths_wasmtime_agree_witness :
  async_paths [] (WVariant [Some (WRecord [WOther; WList (WStream (Some WOther))]); None;
                            Some (WList (WStream (Some WOther)))]) = (test_ty_paths, false).
Proof.
  apply (async_paths_wasmtime_agree 4 test_resolve (TyId 3)); vm_compute; reflexivity.
Defined.
