(* ===== verification/Encode.v ===== *)
(** * Encoding of values with asynchronous parts

    Model of the encoders of [crates/transport/src/value.rs]: the traits
    [Deferred], [Sink] and [Encode], the encoders of lists, arrays, tuples,
    options, results, bytes, resources, futures and streams, and
    [encode_ready_bytes_header] of [crates/transport/src/lib.rs].

    A sink [W] is seen through its deferred operations: [D] stands for
    [DeferredFn<W>], and the class [Sink] holds the operations which build
    them.  An encoder is its state, its [Default], its [encode] and its
    [take_deferred].  Own and borrowed values share their definitions.  The
    encoders of [wasm-tokio] are parameters ([CmEncoder], [PrimCodec]). *)

From S2P Require Import Prelude Wire FrameCodec.

(** ** Interfaces *)

(** [tokio_util::codec::Encoder<T> + Deferred<W> + Default] *)
Record Encoder (D T : Type) := mkEncoder {
  enc_state : Type;
  enc_default : enc_state;
  enc_encode : enc_state → T → bytes → io_result (bytes * enc_state);
  enc_take_deferred : enc_state → option D * enc_state
}.
Arguments enc_state {D T}. Arguments enc_default {D T}. Arguments enc_encode {D T}.
Arguments enc_take_deferred {D T}. Arguments mkEncoder {D T}.

(** Encoders whose default state holds no operation *)
Definition clean {D T} (E : Encoder D T) : Prop :=
  enc_take_deferred E (enc_default E) = (None, enc_default E).

(** A future, by whether it is ready when it is encoded, and what it resolves
    to. *)
Record Future (T : Type) := mkFuture { fut_ready : bool; fut_item : T }.
Arguments fut_ready {T}. Arguments fut_item {T}. Arguments mkFuture {T}.

(** A stream, by the items it yields without waiting, whether it ends after
    them, and the items it yields later otherwise. *)
Record Stream (A : Type) := mkStream { str_now : list A; str_end : bool; str_later : list A }.
Arguments str_now {A}. Arguments str_end {A}. Arguments str_later {A}. Arguments mkStream {A}.

(** An [AsyncRead], by the results of its reads which do not wait, whether it
    ends after them, and the results of the later ones otherwise. *)
Record Reader := mkReader {
  rd_now : list (io_result bytes);
  rd_end : bool;
  rd_later : list (io_result bytes)
}.

(** The deferred operations on a sink: [Sink], and [handle_deferred] of the
    elements of a value. *)
Class Sink (D : Type) := {
  handle_deferred : list (option D) → D;
  write_future : ∀ T, Encoder D T → N → T → D;
  write_stream : ∀ T, Encoder D T → Encoder D (list T) → N → list (list T) → D;
  write_stream_bytes : N → list bytes → D;
  write_stream_read : N → bytes → Reader → D
}.
Arguments write_future {D _ T}. Arguments write_stream {D _ T}.

(** Encoders of tuples, component by component. *)
Inductive Encoders (D : Type) : Type → Type :=
  | ENil : Encoders D unit
  | ECons {A B} (E : Encoder D A) (Es : Encoders D B) : Encoders D (A * B).
Arguments ENil {D}. Arguments ECons {D A B}.

Fixpoint encs_state {D A} (Es : Encoders D A) : Type :=
  match Es with
  | ENil => unit
  | ECons E Es => enc_state E * encs_state Es
  end.

Fixpoint encs_default {D A} (Es : Encoders D A) : encs_state Es :=
  match Es with
  | ENil => tt
  | ECons E Es => (enc_default E, encs_default Es)
  end.

(** The encoders of options, results, tuples and byte vectors of [wasm-tokio],
    over the encoders of their contents. *)
Class CmEncoder (D : Type) := {
  option_encode : ∀ T (E : Encoder D T),
    enc_state E → option T → bytes → io_result (bytes * enc_state E);
  result_encode : ∀ A B (E : Encoder D A) (F : Encoder D B),
    enc_state E * enc_state F → A + B → bytes → io_result (bytes * (enc_state E * enc_state F));
  tuple_encode : ∀ A (Es : Encoders D A),
    encs_state Es → A → bytes → io_result (bytes * encs_state Es);
  vec_bytes_encode : bytes → bytes → io_result bytes
}.
Arguments option_encode {D _ T}. Arguments result_encode {D _ A B}. Arguments tuple_encode {D _ A}.
Arguments vec_bytes_encode D {_}.

Class CmEncoderLaws (D : Type) `{Leb128, CmEncoder D} : Prop := {
  option_encode_none T (E : Encoder D T) s dst :
    option_encode E s None dst = Ok (dst ++ [x00], s);
  option_encode_some T (E : Encoder D T) s v dst :
    option_encode E s (Some v) dst = enc_encode E s v (dst ++ [x01]);
  result_encode_ok A B (E : Encoder D A) (F : Encoder D B) s t v dst :
    result_encode E F (s, t) (inl v) dst =
    (let? (dst, s) := enc_encode E s v (dst ++ [x00]) in Ok (dst, (s, t)));
  result_encode_err A B (E : Encoder D A) (F : Encoder D B) s t v dst :
    result_encode E F (s, t) (inr v) dst =
    (let? (dst, t) := enc_encode F t v (dst ++ [x01]) in Ok (dst, (s, t)));
  tuple_encode_nil s dst : tuple_encode (D := D) ENil s tt dst = Ok (dst, s);
  tuple_encode_cons A B (E : Encoder D A) (Es : Encoders D B) s ss v vs dst :
    tuple_encode (ECons E Es) (s, ss) (v, vs) dst =
    (let? (dst, s) := enc_encode E s v dst in
     let? (dst, ss) := tuple_encode Es ss vs dst in
     Ok (dst, (s, ss)));
  vec_bytes_encode_spec bs dst :
    vec_bytes_encode D bs dst =
    (let? n := u32_try_from (len bs) in Ok (dst ++ leb_encode n ++ bs))
}.

(** [Encode<W>]: the encoder and the methods which types override. *)
Record Encode (D T : Type) := mkEncode {
  encode_enc : Encoder D T;
  encode_iter : list T → enc_state encode_enc → bytes → io_result (option D * bytes);
  encode_list : list T → enc_state encode_enc → bytes → io_result (option D * bytes)
}.
Arguments encode_enc {D T}. Arguments encode_iter {D T}. Arguments encode_list {D T}.
Arguments mkEncode {D T}.

(** ** Encoders *)

Section encoders.
Context {D : Type} `{Sink D} `{Leb128} `{CmEncoder D} `{CoreName}.

(** [impl_deferred_sync!] *)
Definition SyncEncoder {T} (f : T → bytes → io_result bytes) : Encoder D T :=
  mkEncoder unit tt
    (λ s v dst, let? dst := f v dst in Ok (dst, s))
    (λ s, (None, s)).

(** [Encode::encode] *)
Definition encode {T} (E : Encoder D T) (v : T) (s : enc_state E) (dst : bytes) :
    io_result (option D * bytes * enc_state E) :=
  let? (dst, s) := enc_encode E s v dst in
  let '(d, s) := enc_take_deferred E s in
  Ok (d, dst, s).

(** The loop of [encode_iter_own] *)
Fixpoint encode_items {T} (E : Encoder D T) (items : list T) (s : enc_state E) (dst : bytes)
    (deferred : list (option D)) : io_result (list (option D) * bytes) :=
  match items with
  | [] => Ok (deferred, dst)
  | item :: items =>
      let? (dst, s) := enc_encode E s item dst in
      let '(d, s) := enc_take_deferred E s in
      encode_items E items s dst (deferred ++ [d])
  end.

(** [handle_deferred] is deferred if any of the elements is. *)
Definition deferred_all (deferred : list (option D)) : option D :=
  if existsb (λ d : option D, if d then true else false) deferred
  then Some (handle_deferred deferred) else None.

(** [Encode::encode_iter_own], [Encode::encode_iter_ref] *)
Definition encode_iter_own {T} (E : Encoder D T) (items : list T) (s : enc_state E) (dst : bytes) :
    io_result (option D * bytes) :=
  let? (deferred, dst) := encode_items E items s dst [] in
  Ok (deferred_all deferred, dst).

(** [Encode::encode_list_own], [Encode::encode_list_ref] *)
Definition encode_list_own {T} (E : Encoder D T)
    (iter : list T → enc_state E → bytes → io_result (option D * bytes))
    (items : list T) (s : enc_state E) (dst : bytes) : io_result (option D * bytes) :=
  let? n := u32_try_from (len items) in
  iter items s (dst ++ leb_encode n).

(** The provided methods of [Encode] *)
Definition Encode_default {T} (E : Encoder D T) : Encode D T :=
  mkEncode E (encode_iter_own E) (encode_list_own E (encode_iter_own E)).

(** [encode_iter_own] and [encode_iter_ref] of [impl_copy_codec!] *)
Fixpoint encode_iter_copy {T} (E : Encoder D T) (items : list T) (s : enc_state E) (dst : bytes) :
    io_result (option D * bytes) :=
  match items with
  | [] => Ok (None, dst)
  | item :: items =>
      let? (dst, s) := enc_encode E s item dst in
      encode_iter_copy E items s dst
  end.

(** [impl_copy_codec!] *)
Definition Encode_copy {T} (E : Encoder D T) : Encode D T :=
  mkEncode E (encode_iter_copy E) (encode_list_own E (encode_iter_copy E)).

(** [u8]: its codec writes the byte. *)
Definition Encode_u8 (E : Encoder D byte) : Encode D byte :=
  mkEncode E
    (λ items _ dst, Ok (None, dst ++ items))
    (λ items _ dst, let? dst := vec_bytes_encode D items dst in Ok (None, dst)).

(** [OptionEncoder] *)
Definition OptionEncoder {T} (E : Encoder D T) : Encoder D (option T) :=
  mkEncoder (enc_state E) (enc_default E) (option_encode E) (enc_take_deferred E).

(** [ResultEncoder]; with both operations set, a debug build panics. *)
Definition ResultEncoder {A B} (E : Encoder D A) (F : Encoder D B) : Encoder D (A + B) :=
  mkEncoder (enc_state E * enc_state F) (enc_default E, enc_default F) (result_encode E F)
    (λ s,
      let '(ok, s1) := enc_take_deferred E s.1 in
      let '(err, s2) := enc_take_deferred F s.2 in
      (match ok, err with
       | None, None => None
       | Some ok, None => Some ok
       | None, Some err => Some err
       | Some ok, Some _ => Some ok
       end, (s1, s2))).

(** [ListEncoder] *)
Definition ListEncoder {T} (T_enc : Encode D T) : Encoder D (list T) :=
  mkEncoder (option D) None
    (λ _ items dst,
      let? (deferred, dst) := encode_list T_enc items (enc_default (encode_enc T_enc)) dst in
      Ok (dst, deferred))
    (λ s, (s, None)).

(** [ArrayEncoder] *)
Definition ArrayEncoder {T} (T_enc : Encode D T) : Encoder D (list T) :=
  mkEncoder (option D) None
    (λ _ items dst,
      let? (deferred, dst) := encode_iter T_enc items (enc_default (encode_enc T_enc)) dst in
      Ok (dst, deferred))
    (λ s, (s, None)).

Fixpoint take_deferred_all {A} (Es : Encoders D A) : encs_state Es → list (option D) :=
  match Es with
  | ENil => λ _, []
  | ECons E Es => λ s, (enc_take_deferred E s.1).1 :: take_deferred_all Es s.2
  end.

(** [TupleEncoder] of [impl_tuple_codec!] *)
Definition TupleEncoder {A} (Es : Encoders D A) : Encoder D A :=
  mkEncoder (encs_state Es) (encs_default Es) (tuple_encode Es)
    (λ s, (deferred_all (take_deferred_all Es s), encs_default Es)).

(** [UnitCodec] *)
Definition UnitCodec : Encoder D unit := SyncEncoder (λ _ dst, Ok dst).

(** [ResourceEncoder], [CoreVecEncoderBytes] *)
Definition ResourceEncoder : Encoder D bytes := SyncEncoder (vec_bytes_encode D).

(** [Utf8BytesEncoder] *)
Definition Utf8BytesEncoder : Encoder D bytes :=
  SyncEncoder (λ item dst,
    if utf8_valid item then let? e := name_encode item in Ok (dst ++ e)
    else Err InvalidData).

(** [FutureEncoder] *)
Definition FutureEncoder {T} (E : Encoder D T) : Encoder D (Future T) :=
  mkEncoder (option D) None
    (λ _ item dst,
      if fut_ready item then
        let? (d, dst, _) := encode E (fut_item item) (enc_default E) (dst ++ [x01]) in
        Ok (dst, d)
      else
        let offset := len dst in
        Ok (dst ++ [x00], Some (write_future E offset (fut_item item))))
    (λ s, (s, None)).

(** The chunks which are ready are collected into one. *)
Fixpoint gather {T} (ready : list T) (items : list (list T)) : list T :=
  match items with
  | [] => ready
  | chunk :: items =>
      match ready with
      | [] => gather chunk items
      | _ => gather (ready ++ chunk) items
      end
  end.

(** [StreamEncoder] *)
Definition StreamEncoder {T} (T_enc : Encode D T) : Encoder D (Stream (list T)) :=
  mkEncoder (option D) None
    (λ _ items dst,
      let ready := gather [] (str_now items) in
      if str_end items then
        let? (d, dst, _) := encode (ListEncoder T_enc) ready None (dst ++ [x01]) in
        Ok (dst, d)
      else
        let offset := len dst in
        Ok (dst ++ [x00],
            Some (write_stream (encode_enc T_enc) (ListEncoder T_enc) offset
                    ([ready] ++ str_later items))))
    (λ s, (s, None)).

Definition encode_ready_bytes_header (n : N) (dst : bytes) : io_result bytes :=
  let? n := u32_try_from n in
  Ok (dst ++ [x01] ++ leb_encode n).

Definition encode_ready_bytes (chunks : list bytes) (dst : bytes) : io_result bytes :=
  let n := foldr (λ chunk n, len chunk + n)%N 0%N chunks in
  let? dst := encode_ready_bytes_header n dst in
  Ok (dst ++ concat chunks).

(** [StreamEncoderBytes] *)
Definition StreamEncoderBytes : Encoder D (Stream bytes) :=
  mkEncoder (option D) None
    (λ _ items dst,
      if str_end items then
        let? dst := encode_ready_bytes (str_now items) dst in
        Ok (dst, None)
      else
        let offset := len dst in
        Ok (dst ++ [x00], Some (write_stream_bytes offset (str_now items ++ str_later items))))
    (λ s, (s, None)).

(** The reads of [StreamEncoderRead] which do not wait: the bytes up to the
    end, or the bytes and the reads which are left. *)
Inductive read_ready_result :=
  | ReadEnd (ready : bytes)
  | ReadPending (ready : bytes) (now : list (io_result bytes))
  | ReadErr (e : ErrorKind).

Fixpoint read_ready (max_ready : N) (is_end : bool) (ready : bytes) (now : list (io_result bytes)) :
    read_ready_result :=
  let n := (max_ready - len ready)%N in
  if (n =? 0)%N then ReadPending ready now
  else
    match now with
    | [] => if is_end then ReadEnd ready else ReadPending ready []
    | Err e :: _ => ReadErr e
    | Ok [] :: _ => ReadEnd ready
    | Ok chunk :: now =>
        if (len chunk <=? n)%N then read_ready max_ready is_end (ready ++ chunk) now
        else ReadPending (ready ++ take (N.to_nat n) chunk) (Ok (drop (N.to_nat n) chunk) :: now)
    end.

(** [StreamEncoderRead] *)
Definition StreamEncoderRead (max_ready : N) : Encoder D Reader :=
  mkEncoder (option D) None
    (λ _ items dst,
      match read_ready max_ready (rd_end items) [] (rd_now items) with
      | ReadErr e => Err e
      | ReadEnd ready =>
          let? dst := encode_ready_bytes [ready] dst in
          Ok (dst, None)
      | ReadPending ready now =>
          let offset := len dst in
          Ok (dst ++ [x00],
              Some (write_stream_read offset ready (mkReader now (rd_end items) (rd_later items))))
      end)
    (λ s, (s, None)).

End encoders.
