(* ===== verification/Pack.v ===== *)
(** * Packing

    Model of [crates/transport/src/pack.rs]: the sink [Packer], which collects
    the encodings of the asynchronous values of a value, [fill], which puts
    them in place of their placeholders, [pack] and [pack_ready].

    A deferred operation on a [Packer] is the list of the results of its
    leaves, each of which pushes one encoding with its offset or fails.  They
    run concurrently: [sched] is the order in which they finish. *)

From S2P Require Import Prelude Wire FrameCodec Encode.

(** The offset of a placeholder and the buffers which replace it. *)
Abbreviation hole := (N * list Prelude.bytes)%type.
Abbreviation Packing := (list (result ErrorKind (N * list Prelude.bytes))).

(** [collect::<Result<_, _>>] *)
Fixpoint collect {A} (l : list (io_result A)) : io_result (list A) :=
  match l with
  | [] => Ok []
  | r :: l =>
      let? a := r in
      let? l := collect l in
      Ok (a :: l)
  end.

(** The loop of [fill] over the holes in the order of their offsets. *)
Fixpoint fill_holes (dst : bytes) (prev : N) (holes : list hole) (out : bytes) : io_result bytes :=
  match holes with
  | [] => Ok (out ++ drop (N.to_nat prev) dst)
  | (offset, bufs) :: holes =>
      if (offset <? prev)%N || bool_decide (dst !! N.to_nat offset ≠ Some x00) then Err InvalidData
      else
        let out := out ++ take (N.to_nat offset - N.to_nat prev) (drop (N.to_nat prev) dst) in
        fill_holes dst (offset + 1) holes (out ++ concat bufs)
  end.

Definition before (a b : hole) : Prop := (a.1 ≤ b.1)%N.
#[global] Instance before_dec a b : Decision (before a b).
Proof. unfold before. apply _. Defined.

Section pack.
Context (sched : Packing → Packing) `{Leb128}.

(** [fill]: [f(Packer(tx)).await?] fails with the first error. *)
Definition fill (deferred : option Packing) (dst : bytes) : io_result bytes :=
  match deferred with
  | None => Ok dst
  | Some tasks =>
      let? holes := collect (sched tasks) in
      fill_holes dst 0 (merge_sort before holes) []
  end.

(** [Packer::push_bytes] *)
Definition push_bytes (offset : N) (chunks : list bytes) : io_result hole :=
  let? header := encode_ready_bytes_header (foldr (λ c n, len c + n)%N 0%N chunks) [] in
  Ok (offset, header :: chunks).

(** [Packer::write_future] *)
Definition Packer_write_future {T} (E : Encoder Packing T) (offset : N) (item : T) : Packing :=
  [let? (deferred, buf, _) := encode E item (enc_default E) [x01] in
   let? buf := fill deferred buf in
   Ok (offset, [buf])].

(** [Packer::write_stream] *)
Definition Packer_write_stream {T} (_ : Encoder Packing T) (L : Encoder Packing (list T)) (offset : N)
    (items : list (list T)) : Packing :=
  Packer_write_future L offset (concat items).

(** [Packer::write_stream_bytes] *)
Definition Packer_write_stream_bytes (offset : N) (items : list bytes) : Packing :=
  [push_bytes offset items].

(** [while items.read_buf(&mut ready).await? > 0 {}] *)
Fixpoint read_rest (ready : bytes) (reads : list (io_result bytes)) : io_result bytes :=
  match reads with
  | [] | Ok [] :: _ => Ok ready
  | Err e :: _ => Err e
  | Ok chunk :: reads => read_rest (ready ++ chunk) reads
  end.

(** The reads of a reader up to its end. *)
Definition reads (items : Reader) : list (io_result bytes) :=
  rd_now items ++ (if rd_end items then [] else rd_later items).

(** [Packer::write_stream_read] *)
Definition Packer_write_stream_read (offset : N) (ready : bytes) (items : Reader) : Packing :=
  [let? ready := read_rest ready (reads items) in push_bytes offset [ready]].

(** [handle_deferred]: [Packer::index] does not fail. *)
Definition Packer_handle_deferred (deferred : list (option Packing)) : Packing :=
  concat (omap id deferred).

#[global] Instance Packer : Sink Packing := {|
  handle_deferred := Packer_handle_deferred;
  write_future := @Packer_write_future;
  write_stream := @Packer_write_stream;
  write_stream_bytes := Packer_write_stream_bytes;
  write_stream_read := Packer_write_stream_read
|}.

Definition pack {T} (E : Encoder Packing T) (v : T) (dst : bytes) : io_result bytes :=
  let? (deferred, dst, _) := encode E v (enc_default E) dst in
  fill deferred dst.

Definition pack_ready {T} (E : Encoder Packing T) (v : T) (dst : bytes) : io_result bytes :=
  let? (deferred, dst, _) := encode E v (enc_default E) dst in
  match deferred with
  | Some _ => Err WouldBlock
  | None => Ok dst
  end.

End pack.

(** ** Tokens

    An encoding with placeholders: plain bytes, and holes with the buffers
    which fill them. *)

Inductive token := Plain (b : byte) | Hole (bufs : list bytes).

Definition plain_token (t : token) : byte := match t with Plain b => b | Hole _ => x00 end.
Definition filled_token (t : token) : bytes := match t with Plain b => [b] | Hole bufs => concat bufs end.

(** The encoding with its placeholders, and with the holes filled. *)
Definition plain (ts : list token) : bytes := plain_token <$> ts.
Definition filled (ts : list token) : bytes := ts ≫= filled_token.

(** The holes of an encoding which starts at the offset [base]. *)
Fixpoint holes (base : N) (ts : list token) : list hole :=
  match ts with
  | [] => []
  | Plain _ :: ts => holes (N.succ base) ts
  | Hole bufs :: ts => (base, bufs) :: holes (N.succ base) ts
  end.

Definition has_holes (ts : list token) : bool :=
  existsb (λ t, match t with Plain _ => false | Hole _ => true end) ts.

Lemma plain_app ts us : plain (ts ++ us) = plain ts ++ plain us.
Proof. apply fmap_app. Qed.

Lemma filled_app ts us : filled (ts ++ us) = filled ts ++ filled us.
Proof. apply bind_app. Qed.

Lemma len_plain ts : len (plain ts) = len ts.
Proof. unfold len, plain. by rewrite length_fmap. Qed.

Lemma holes_app base ts us : holes base (ts ++ us) = holes base ts ++ holes (base + len ts) us.
Proof.
  revert base. induction ts as [|[b|bufs] ts IH]; intros base; cbn [app holes].
  - by rewrite N.add_0_r.
  - rewrite IH. by replace (N.succ base + len ts)%N with (base + len (Plain b :: ts))%N by len_lia.
  - rewrite IH. f_equal. f_equal.
    by replace (N.succ base + len ts)%N with (base + len (Hole bufs :: ts))%N by len_lia.
Qed.

Lemma plain_bytes bs : plain (Plain <$> bs) = bs.
Proof. unfold plain. rewrite <- list_fmap_compose. apply list_fmap_id. Qed.

Lemma filled_bytes bs : filled (Plain <$> bs) = bs.
Proof. induction bs as [|b bs IH]; [done|]. unfold filled in *. by rewrite fmap_cons, bind_cons, IH. Qed.

Lemma holes_bytes base bs : holes base (Plain <$> bs) = [].
Proof. revert base. induction bs; intros; simpl; auto. Qed.

Lemma has_holes_bytes bs : has_holes (Plain <$> bs) = false.
Proof. unfold has_holes. induction bs; [done|]. by rewrite fmap_cons. Qed.

Lemma has_holes_app ts us : has_holes (ts ++ us) = has_holes ts || has_holes us.
Proof. apply existsb_app. Qed.

Lemma no_holes base ts : has_holes ts = false → holes base ts = [] ∧ filled ts = plain ts.
Proof.
  revert base. induction ts as [|[b|bufs] ts IH]; intros base Hh; [done| |done].
  destruct (IH (N.succ base) Hh) as (Hl & Hf). split; [done|].
  change (b :: filled ts = b :: plain ts). by rewrite Hf.
Qed.

Lemma holes_above base ts h : h ∈ holes base ts → (base ≤ h.1)%N.
Proof.
  revert base. induction ts as [|[b|bufs] ts IH]; intros base; cbn [holes].
  - by intros ?%not_elem_of_nil.
  - intros Hh%IH. lia.
  - rewrite elem_of_cons. intros [->|Hh%IH]; simpl; lia.
Qed.

Lemma holes_sorted base ts : StronglySorted before (holes base ts).
Proof.
  revert base. induction ts as [|[b|bufs] ts IH]; intros base; cbn [holes]; [constructor|done|].
  constructor; [done|]. apply Forall_forall. intros h Hh%holes_above. unfold before. simpl. lia.
Qed.

Lemma holes_offset_inj base ts h h' :
  h ∈ holes base ts → h' ∈ holes base ts → h.1 = h'.1 → h = h'.
Proof.
  revert base. induction ts as [|[b|bufs] ts IH]; intros base; cbn [holes].
  - by intros ?%not_elem_of_nil.
  - apply IH.
  - rewrite !elem_of_cons. intros [->|Hh] [->|Hh']; [done|..|by eapply IH].
    + apply holes_above in Hh'. simpl. lia.
    + apply holes_above in Hh. simpl. lia.
Qed.

#[global] Instance before_total : Total before.
Proof. intros a b. unfold before. lia. Qed.
#[global] Instance before_trans : Transitive before.
Proof. intros a b c. unfold before. lia. Qed.

(** In whichever order the holes come, sorting restores theirs. *)
Lemma sort_holes base ts l : l ≡ₚ holes base ts → merge_sort before l = holes base ts.
Proof.
  intros Hp. assert (merge_sort before l ≡ₚ holes base ts) as Hs
    by (by rewrite merge_sort_Permutation).
  apply (StronglySorted_unique_strong before).
  - intros x y Hx Hy Hxy Hyx. rewrite Hs in Hx. eapply holes_offset_inj; [done..|].
    unfold before in *. lia.
  - apply StronglySorted_merge_sort; apply _.
  - apply holes_sorted.
  - done.
Qed.

Lemma fill_holes_tokens p g ts out :
  fill_holes (p ++ g ++ plain ts) (len p) (holes (len p + len g) ts) out =
  Ok (out ++ g ++ filled ts).
Proof.
  revert p g out. induction ts as [|[b|bufs] ts IH]; intros p g out.
  - cbn [holes fill_holes]. unfold len. by rewrite Nat2N.id, drop_app_length.
  - cbn [holes]. specialize (IH p (g ++ [b]) out).
    rewrite <- !app_assoc in IH. cbn [app] in IH.
    change (plain (Plain b :: ts)) with (b :: plain ts).
    change (filled (Plain b :: ts)) with (b :: filled ts).
    rewrite <- IH. do 2 f_equal. len_lia.
  - cbn [holes fill_holes]. change (plain (Hole bufs :: ts)) with (x00 :: plain ts).
    change (filled (Hole bufs :: ts)) with (concat bufs ++ filled ts).
    destruct (N.ltb_spec (len p + len g) (len p)); [lia|]. cbn [orb].
    replace (N.to_nat (len p + len g)) with (length (p ++ g)) by (rewrite length_app; unfold len; lia).
    rewrite (app_assoc p g), list_lookup_middle, bool_decide_false by (done || tauto).
    rewrite <- (app_assoc p g). replace (N.to_nat (len p)) with (length p) by (unfold len; lia).
    rewrite drop_app_length, length_app.
    replace (length p + length g - length p) with (length g) by lia. rewrite take_app_length.
    specialize (IH (p ++ g ++ [x00]) [] ((out ++ g) ++ concat bufs)).
    rewrite <- !app_assoc in IH. cbn [app] in IH. rewrite <- !app_assoc.
    rewrite <- IH. f_equal; [len_lia|f_equal; len_lia].
Qed.

Section packs.
Context (sched : Packing → Packing) (Hsched : ∀ l, sched l ≡ₚ l) `{Leb128}.

Definition tasks_of (d : option Packing) : Packing := default [] d.

(** The deferred operation [d] fills the holes of [ts], encoded at the offset
    [base]; there is one if there are holes. *)
Definition fills (base : N) (ts : list token) (d : option Packing) : Prop :=
  tasks_of d ≡ₚ Ok <$> holes base ts ∧ (d = None ↔ has_holes ts = false).

Lemma collect_ok {A} (l : list A) : collect (Ok <$> l) = Ok l.
Proof. induction l as [|a l IH]; [done|]. rewrite fmap_cons. cbn [collect]. simp_res. by rewrite IH. Qed.

Lemma fill_fills dst ts d :
  fills (len dst) ts d → fill sched d (dst ++ plain ts) = Ok (dst ++ filled ts).
Proof.
  intros (Ht & Hd). destruct d as [tasks|]; cbn [fill tasks_of default] in *.
  - destruct (Permutation_map_inv Ok (holes (len dst) ts) (l1 := sched tasks)) as (hs & -> & Hp).
    { etrans; [apply Hsched|exact Ht]. }
    change (map Ok hs) with (Ok (E := ErrorKind) <$> hs). rewrite collect_ok. simp_res.
    rewrite (sort_holes (len dst) ts hs) by done.
    pose proof (fill_holes_tokens [] dst ts []) as Hf. cbn [app] in Hf.
    by rewrite N.add_0_l in Hf.
  - destruct (no_holes 0 ts) as (_ & ->); [by apply Hd|done].
Qed.

(** Encoding the value appends the tokens, and the deferred operation fills
    their holes. *)
Definition packs_as {T} (E : Encoder Packing T) (v : T) (ts : list token) : Prop :=
  ∀ dst, ∃ d s,
    enc_encode E (enc_default E) v dst = Ok (dst ++ plain ts, s) ∧
    enc_take_deferred E s = (d, enc_default E) ∧ fills (len dst) ts d.

Lemma packs_pack {T} (E : Encoder Packing T) v ts dst :
  packs_as E v ts →
  pack sched E v dst = Ok (dst ++ filled ts) ∧
  pack_ready E v dst = if has_holes ts then Err WouldBlock else Ok (dst ++ filled ts).
Proof.
  intros Hp. destruct (Hp dst) as (d & s & He & Ht & Hf).
  unfold pack, pack_ready, encode. rewrite He. simp_res. rewrite Ht. simp_res.
  split; [by apply fill_fills|]. destruct Hf as (_ & Hd). destruct (has_holes ts) eqn:Hh.
  - destruct d; [done|]. by destruct Hd as (Hd & _); discriminate Hd.
  - destruct (no_holes 0 ts Hh) as (_ & ->). by rewrite (proj2 Hd).
Qed.

End packs.

(** ** The encoders on a packer *)

Section encoders.
Context (sched : Packing → Packing) (Hsched : ∀ l, sched l ≡ₚ l) `{Leb128} `{CoreName}.
Context `{CmEncoder Packing} {HCM : CmEncoderLaws Packing}.
#[local] Existing Instance Packer.
#[local] Instance packer_sink : Sink Packing := Packer sched.

Lemma fills_none base bs : fills base (Plain <$> bs) None.
Proof. split; [by rewrite holes_bytes|by rewrite has_holes_bytes]. Qed.

Lemma fills_prefix base bs ts d :
  fills (base + len bs) ts d → fills base ((Plain <$> bs) ++ ts) d.
Proof.
  intros (Ht & Hd). split.
  - rewrite holes_app, holes_bytes. replace (len (Plain <$> bs)) with (len bs); [done|].
    unfold len. by rewrite length_fmap.
  - by rewrite has_holes_app, has_holes_bytes.
Qed.

(** The deferred operations of the elements of a sequence *)
Fixpoint fills_all (base : N) (tss : list (list token)) (ds : list (option Packing)) : Prop :=
  match tss, ds with
  | [], [] => True
  | ts :: tss, d :: ds => fills base ts d ∧ fills_all (base + len ts) tss ds
  | _, _ => False
  end.

Lemma fills_deferred_all base tss ds :
  fills_all base tss ds → fills base (concat tss) (deferred_all ds).
Proof.
  intros Hf.
  assert (concat (omap id ds) ≡ₚ Ok <$> holes base (concat tss) ∧
    existsb (λ d : option Packing, if d then true else false) ds = has_holes (concat tss))
    as (Ht & Hd).
  { revert base tss Hf. induction ds as [|d ds IH]; intros base [|ts tss] Hf; try done.
    destruct Hf as ((Ht & Hd) & Hf). destruct (IH _ _ Hf) as (Hts & Hds).
    cbn [concat existsb]. rewrite holes_app, fmap_app, <- Hts, <- Ht, has_holes_app, <- Hds.
    destruct d as [tasks|]; (split; [done|]).
    - destruct (has_holes ts); [done|]. by destruct Hd as (_ & Hd); discriminate Hd.
    - by rewrite (proj1 Hd). }
  unfold deferred_all. rewrite Hd. destruct (has_holes (concat tss)) eqn:Hh.
  - split; [exact Ht|]. by rewrite Hh.
  - split; [|by rewrite Hh]. by destruct (no_holes base _ Hh) as (-> & _).
Qed.

Lemma encode_items_packs {T} (E : Encoder Packing T) items tss dst acc :
  Forall2 (packs_as E) items tss →
  ∃ ds, encode_items E items (enc_default E) dst acc = Ok (acc ++ ds, dst ++ plain (concat tss)) ∧
    fills_all (len dst) tss ds.
Proof.
  intros Hp. revert dst acc. induction Hp as [|v ts vs tss Hv Hvs IH]; intros dst acc.
  { exists []. cbn. by rewrite !app_nil_r. }
  destruct (Hv dst) as (d & s & He & Ht & Hf).
  destruct (IH (dst ++ plain ts) (acc ++ [d])) as (ds & Hes & Hfs).
  exists (d :: ds). cbn [encode_items concat]. rewrite He. simp_res. rewrite Ht, Hes.
  rewrite plain_app, <- !app_assoc. split; [done|]. split; [done|].
  by rewrite len_app, len_plain in Hfs.
Qed.

(** What the methods of [Encode] promise to the encoders of sequences *)
Definition iter_packs {T} (C : Encode Packing T) (items : list T) (tss : list (list token)) : Prop :=
  (∀ dst, ∃ d, encode_iter C items (enc_default (encode_enc C)) dst =
               Ok (d, dst ++ plain (concat tss)) ∧ fills (len dst) (concat tss) d) ∧
  ((len items ≤ u32_MAX)%N →
   ∀ dst, ∃ d, encode_list C items (enc_default (encode_enc C)) dst =
               Ok (d, dst ++ plain ((Plain <$> leb_encode (len items)) ++ concat tss)) ∧
     fills (len dst) ((Plain <$> leb_encode (len items)) ++ concat tss) d).

Lemma encode_list_own_packs {T} (E : Encoder Packing T) iter items tss :
  (∀ dst, ∃ d, iter items (enc_default E) dst = Ok (d, dst ++ plain (concat tss)) ∧
               fills (len dst) (concat tss) d) →
  (len items ≤ u32_MAX)%N →
  ∀ dst, ∃ d, encode_list_own E iter items (enc_default E) dst =
              Ok (d, dst ++ plain ((Plain <$> leb_encode (len items)) ++ concat tss)) ∧
    fills (len dst) ((Plain <$> leb_encode (len items)) ++ concat tss) d.
Proof.
  intros Hi Hlen dst. destruct (Hi (dst ++ leb_encode (len items))) as (d & He & Hf).
  exists d. unfold encode_list_own. rewrite u32_try_from_fit by done. simp_res.
  rewrite He, plain_app, plain_bytes, <- !app_assoc. split; [done|].
  apply fills_prefix. by rewrite <- len_app.
Qed.

Lemma default_iter_packs {T} (E : Encoder Packing T) items tss :
  Forall2 (packs_as E) items tss → iter_packs (Encode_default E) items tss.
Proof.
  intros Hp.
  assert (∀ dst, ∃ d, encode_iter_own E items (enc_default E) dst =
    Ok (d, dst ++ plain (concat tss)) ∧ fills (len dst) (concat tss) d) as Hi.
  { intros dst. destruct (encode_items_packs E items tss dst [] Hp) as (ds & He & Hf).
    exists (deferred_all ds). unfold encode_iter_own. rewrite He. simp_res.
    split; [done|]. by apply fills_deferred_all. }
  split; [exact Hi|]. apply (encode_list_own_packs E (encode_iter_own E)). exact Hi.
Qed.

(** Synchronous codecs *)
Lemma sync_packs {T} (f : T → bytes → io_result bytes) v e :
  (∀ dst, f v dst = Ok (dst ++ e)) → packs_as (SyncEncoder f) v (Plain <$> e).
Proof.
  intros Hf dst. exists None, tt. cbn [SyncEncoder enc_encode]. rewrite Hf. simp_res.
  rewrite plain_bytes. split; [done|]. split; [done|]. apply fills_none.
Qed.

Lemma copy_iter_packs {T} (f : T → bytes → io_result bytes) items es :
  Forall2 (λ v e, ∀ dst, f v dst = Ok (dst ++ e)) items es →
  iter_packs (Encode_copy (SyncEncoder f)) items (map Plain <$> es).
Proof.
  intros Hp.
  assert (concat (map Plain <$> es) = Plain <$> concat es) as Hc.
  { clear Hp. induction es as [|e es IH]; [done|]. cbn [concat].
    rewrite fmap_cons, fmap_app. cbn [concat]. by rewrite IH. }
  assert (∀ dst, ∃ d, encode_iter_copy (SyncEncoder f) items tt dst =
    Ok (d, dst ++ plain (concat (map Plain <$> es))) ∧
    fills (len dst) (concat (map Plain <$> es)) d) as Hi.
  { intros dst. exists None. rewrite Hc, plain_bytes. split; [|apply fills_none].
    clear Hc. revert dst. induction Hp as [|v e items es Hv _ IH]; intros dst;
      cbn [encode_iter_copy concat SyncEncoder enc_encode].
    - by rewrite app_nil_r.
    - rewrite Hv. simp_res. by rewrite IH, app_assoc. }
  split; [exact Hi|]. apply (encode_list_own_packs (SyncEncoder f)). exact Hi.
Qed.

Lemma u8_iter_packs (E : Encoder Packing byte) (items : bytes) :
  iter_packs (Encode_u8 E) items ((λ b, [Plain b]) <$> items).
Proof.
  assert (concat ((λ b, [Plain b]) <$> items) = Plain <$> items) as Hc.
  { induction items as [|b items IH]; [done|]. rewrite fmap_cons. cbn [concat app]. by rewrite IH. }
  split; rewrite Hc.
  - intros dst. exists None. cbn. rewrite plain_bytes. split; [done|apply fills_none].
  - intros Hlen dst. exists None. cbn [Encode_u8 encode_list]. rewrite vec_bytes_encode_spec.
    rewrite u32_try_from_fit by done. simp_res. rewrite <- fmap_app, plain_bytes.
    split; [done|apply fills_none].
Qed.

(** Options and results *)
Lemma option_packs {T} (E : Encoder Packing T) v ts :
  from_option (λ w, packs_as E w ts) (ts = []) v → clean E →
  packs_as (OptionEncoder E) v (Plain (if v then x01 else x00) :: ts).
Proof.
  intros Hp Hc dst. destruct v as [v|]; cbn [from_option OptionEncoder enc_encode enc_state
    enc_default enc_take_deferred] in *.
  - destruct (Hp (dst ++ [x01])) as (d & s & He & Ht & Hf). exists d, s.
    rewrite option_encode_some, He, <- app_assoc. split; [done|]. split; [done|].
    apply (fills_prefix _ [x01]). by rewrite <- len_app.
  - subst ts. exists None, (enc_default E). rewrite option_encode_none. split; [done|].
    split; [done|]. apply (fills_none _ [x00]).
Qed.

Lemma result_packs {A B} (E : Encoder Packing A) (F : Encoder Packing B) v ts :
  clean E → clean F →
  match v with inl a => packs_as E a ts | inr b => packs_as F b ts end →
  packs_as (ResultEncoder E F) v (Plain (if v then x00 else x01) :: ts).
Proof.
  intros HE HF Hp dst. cbn [ResultEncoder enc_encode enc_state enc_default enc_take_deferred].
  destruct v as [a|b].
  - destruct (Hp (dst ++ [x00])) as (d & s & He & Ht & Hf).
    exists d, (s, enc_default F). rewrite result_encode_ok, He, <- app_assoc. simp_res.
    split; [done|]. cbn [fst snd]. rewrite Ht, HF. split; [by destruct d|].
    apply (fills_prefix _ [x00]). by rewrite <- len_app.
  - destruct (Hp (dst ++ [x01])) as (d & s & He & Ht & Hf).
    exists d, (enc_default E, s). rewrite result_encode_err, He, <- app_assoc. simp_res.
    split; [done|]. cbn [fst snd]. rewrite Ht, HE. split; [by destruct d|].
    apply (fills_prefix _ [x01]). by rewrite <- len_app.
Qed.

(** Sequences *)
Lemma list_packs {T} (C : Encode Packing T) items tss :
  iter_packs C items tss → (len items ≤ u32_MAX)%N →
  packs_as (ListEncoder C) items ((Plain <$> leb_encode (len items)) ++ concat tss).
Proof.
  intros (_ & Hl) Hlen dst. destruct (Hl Hlen dst) as (d & He & Hf). exists d, d.
  cbn [ListEncoder enc_encode enc_take_deferred]. rewrite He. by simp_res.
Qed.

Lemma array_packs {T} (C : Encode Packing T) items tss :
  iter_packs C items tss → packs_as (ArrayEncoder C) items (concat tss).
Proof.
  intros (Hi & _) dst. destruct (Hi dst) as (d & He & Hf). exists d, d.
  cbn [ArrayEncoder enc_encode enc_take_deferred]. rewrite He. by simp_res.
Qed.

(** The components of a tuple, with their tokens *)
Fixpoint tuple_packs_as {A} (Es : Encoders Packing A) : A → list (list token) → Prop :=
  match Es with
  | ENil => λ _ tss, tss = []
  | ECons E Es => λ v tss,
      match tss with
      | ts :: tss => packs_as E v.1 ts ∧ tuple_packs_as Es v.2 tss
      | [] => False
      end
  end.

Lemma tuple_packs {A} (Es : Encoders Packing A) v tss :
  tuple_packs_as Es v tss → packs_as (TupleEncoder Es) v (concat tss).
Proof.
  intros Hp dst.
  assert (∃ s, tuple_encode Es (encs_default Es) v dst = Ok (dst ++ plain (concat tss), s) ∧
    fills_all (len dst) tss (take_deferred_all Es s)) as (s & He & Hf).
  { revert v tss Hp dst. induction Es as [|A B E Es IH]; intros v tss Hp dst; cbn [tuple_packs_as] in Hp.
    - subst tss. exists tt. destruct v. rewrite tuple_encode_nil. cbn. by rewrite app_nil_r.
    - destruct v as [v vs], tss as [|ts tss]; [done|]. destruct Hp as (Hv & Hvs).
      destruct (Hv dst) as (d & s & He & Ht & Hf).
      destruct (IH vs tss Hvs (dst ++ plain ts)) as (ss & Hes & Hfs).
      exists (s, ss). cbn [encs_default take_deferred_all concat fst snd].
      rewrite tuple_encode_cons. cbn [fst] in He. rewrite He. simp_res. rewrite Hes. simp_res.
      rewrite Ht, plain_app, app_assoc. split; [done|]. split; [done|].
      by rewrite len_app, len_plain in Hfs. }
  exists (deferred_all (take_deferred_all Es s)), s.
  split; [exact He|]. split; [done|]. by apply fills_deferred_all.
Qed.

(** Futures *)
Lemma fills_hole base bufs : fills base [Hole bufs] (Some [Ok (base, bufs)]).
Proof. split; [done|]. split; done. Qed.

Lemma write_future_packs {T} (E : Encoder Packing T) base item ts :
  packs_as E item ts →
  Packer_write_future sched E base item = [Ok (base, [x01 :: filled ts])].
Proof.
  intros Hp. destruct (Hp [x01]) as (d & s & He & Ht & Hf).
  unfold Packer_write_future, encode. rewrite He. simp_res. rewrite Ht. simp_res.
  pose proof (fill_fills sched Hsched [x01] ts d Hf) as Hx. cbn [app] in Hx. by rewrite Hx.
Qed.

Lemma future_packs {T} (E : Encoder Packing T) (f : Future T) ts :
  packs_as E (fut_item f) ts →
  packs_as (FutureEncoder E) f
    (if fut_ready f then Plain x01 :: ts else [Hole [x01 :: filled ts]]).
Proof.
  intros Hp dst. cbn [FutureEncoder enc_encode enc_take_deferred enc_default].
  destruct (fut_ready f).
  - destruct (Hp (dst ++ [x01])) as (d & s & He & Ht & Hf). exists d, d.
    unfold encode. rewrite He. simp_res. rewrite Ht. simp_res. rewrite <- app_assoc.
    split; [done|]. split; [done|]. apply (fills_prefix _ [x01]). by rewrite <- len_app.
  - eexists _, _. split; [done|]. split; [done|]. cbn [write_future packer_sink Packer].
    rewrite (write_future_packs E _ _ ts) by done. apply fills_hole.
Qed.

(** Streams *)
Lemma gather_concat {T} (ready : list T) items : gather ready items = ready ++ concat items.
Proof.
  revert ready. induction items as [|chunk items IH]; intros ready; cbn [gather concat].
  - by rewrite app_nil_r.
  - destruct ready; rewrite IH; [done|]. by rewrite <- app_assoc.
Qed.

(** The elements of a stream, up to its end *)
Definition stream_items {A} (s : Stream A) : list A :=
  str_now s ++ (if str_end s then [] else str_later s).

Lemma stream_packs {T} (C : Encode Packing T) (s : Stream (list T)) ts :
  packs_as (ListEncoder C) (concat (stream_items s)) ts →
  packs_as (StreamEncoder C) s
    (if str_end s then Plain x01 :: ts else [Hole [x01 :: filled ts]]).
Proof.
  intros Hp dst. cbn [StreamEncoder enc_encode enc_take_deferred enc_default].
  unfold stream_items in Hp. rewrite gather_concat. cbn [app]. destruct (str_end s).
  - rewrite app_nil_r in Hp. destruct (Hp (dst ++ [x01])) as (d & st & He & Ht & Hf).
    injection Ht as ->. exists d, d. unfold encode. cbn [ListEncoder enc_default] in He.
    rewrite He. cbn [rbind ListEncoder enc_take_deferred]. rewrite <- app_assoc.
    split; [done|]. split; [done|]. apply (fills_prefix _ [x01]). by rewrite <- len_app.
  - eexists _, _. split; [done|]. split; [done|]. cbn [write_stream packer_sink Packer].
    unfold Packer_write_stream. cbn [concat]. rewrite concat_app in Hp.
    rewrite (write_future_packs _ _ _ ts) by done. apply fills_hole.
Qed.

Lemma sum_len chunks : foldr (λ (c : bytes) n, len c + n)%N 0%N chunks = len (concat chunks).
Proof. induction chunks as [|c chunks IH]; [done|]. cbn [foldr concat]. by rewrite IH, len_app. Qed.

Lemma push_bytes_ok base chunks :
  (len (concat chunks) ≤ u32_MAX)%N →
  push_bytes base chunks = Ok (base, (x01 :: leb_encode (len (concat chunks))) :: chunks).
Proof.
  intros. unfold push_bytes, encode_ready_bytes_header. rewrite sum_len, u32_try_from_fit by done.
  by simp_res.
Qed.

Lemma encode_ready_bytes_ok chunks dst :
  (len (concat chunks) ≤ u32_MAX)%N →
  encode_ready_bytes chunks dst =
  Ok (dst ++ x01 :: leb_encode (len (concat chunks)) ++ concat chunks).
Proof.
  intros. unfold encode_ready_bytes, encode_ready_bytes_header.
  rewrite sum_len, u32_try_from_fit by done. simp_res. by rewrite <- app_assoc.
Qed.

(** The tokens of a stream of bytes *)
Definition bytes_tokens (ended : bool) (chunks : list bytes) : list token :=
  if ended then Plain <$> (x01 :: leb_encode (len (concat chunks)) ++ concat chunks)
  else [Hole ((x01 :: leb_encode (len (concat chunks))) :: chunks)].

Lemma filled_bytes_tokens ended chunks :
  filled (bytes_tokens ended chunks) = x01 :: leb_encode (len (concat chunks)) ++ concat chunks.
Proof.
  unfold bytes_tokens. destruct ended; [apply filled_bytes|].
  unfold filled. rewrite bind_cons. cbn. by rewrite app_nil_r.
Qed.

Lemma stream_bytes_packs (s : Stream bytes) :
  (len (concat (stream_items s)) ≤ u32_MAX)%N →
  packs_as StreamEncoderBytes s (bytes_tokens (str_end s) (stream_items s)).
Proof.
  intros Hlen dst. unfold stream_items in *. cbn [StreamEncoderBytes enc_encode enc_take_deferred enc_default].
  destruct (str_end s); cbn [bytes_tokens].
  - rewrite app_nil_r in *. rewrite encode_ready_bytes_ok by done. simp_res.
    exists None, None. rewrite plain_bytes. split; [done|]. split; [done|]. apply fills_none.
  - eexists _, _. split; [done|]. split; [done|]. cbn [write_stream_bytes packer_sink Packer].
    unfold Packer_write_stream_bytes. rewrite push_bytes_ok by done. apply fills_hole.
Qed.

(** The reads of a reader of [chunks], none of which is empty *)
Lemma read_ready_chunks max_ready is_end ready chunks :
  Forall (.≠ []) chunks → (len ready + len (concat chunks) < max_ready)%N →
  read_ready max_ready is_end ready (Ok <$> chunks) =
  if is_end then ReadEnd (ready ++ concat chunks) else ReadPending (ready ++ concat chunks) [].
Proof.
  revert ready. induction chunks as [|c chunks IH]; intros ready Hne Hlen; cbn [concat] in *.
  - cbn. destruct (N.eqb_spec (max_ready - len ready) 0); [lia|]. by rewrite app_nil_r.
  - apply Forall_cons in Hne as (Hc & Hne). rewrite fmap_cons. rewrite len_app in Hlen.
    cbn [read_ready]. destruct (N.eqb_spec (max_ready - len ready) 0); [lia|].
    destruct c as [|b c]; [done|].
    destruct (N.leb_spec (len (b :: c)) (max_ready - len ready)); [|lia].
    rewrite IH by (done || rewrite len_app; lia). by rewrite <- app_assoc.
Qed.

Lemma read_rest_chunks ready chunks :
  Forall (.≠ []) chunks → read_rest ready (Ok <$> chunks) = Ok (ready ++ concat chunks).
Proof.
  revert ready. induction chunks as [|c chunks IH]; intros ready Hne; cbn [concat].
  - by rewrite app_nil_r.
  - apply Forall_cons in Hne as (Hc & Hne). rewrite fmap_cons. cbn [read_rest].
    destruct c as [|b c]; [done|]. rewrite IH by done. by rewrite <- app_assoc.
Qed.

Lemma stream_read_packs max_ready (now : list bytes) (is_end : bool) (later : list bytes) :
  Forall (.≠ []) now → Forall (.≠ []) later →
  (len (concat now) < max_ready)%N →
  (len (concat now ++ (if is_end then [] else concat later)) ≤ u32_MAX)%N →
  packs_as (StreamEncoderRead max_ready) (mkReader (Ok <$> now) is_end (Ok <$> later))
    (bytes_tokens is_end [concat now ++ (if is_end then [] else concat later)]).
Proof.
  intros Hn Hl Hmax Hlen dst.
  cbn [StreamEncoderRead enc_encode enc_take_deferred enc_default rd_now rd_end rd_later].
  rewrite read_ready_chunks by (done || (rewrite len_nil; lia)). cbn [app].
  destruct is_end; cbn [bytes_tokens].
  - rewrite app_nil_r in Hlen |- *.
    rewrite encode_ready_bytes_ok by (cbn [concat]; by rewrite app_nil_r).
    exists None, None. simp_res. rewrite plain_bytes. split; [done|]. split; [done|].
    apply fills_none.
  - eexists _, _. split; [done|]. split; [done|]. cbn [write_stream_read packer_sink Packer].
    unfold Packer_write_stream_read, reads. cbn [rd_now rd_end rd_later app].
    rewrite read_rest_chunks by done. simp_res.
    rewrite push_bytes_ok by (cbn [concat]; by rewrite app_nil_r). apply fills_hole.
Qed.

End encoders.
