(* ===== verification/Decode.v ===== *)
(** * Decoding of values

    Model of the decoders of [crates/transport/src/value.rs]: the trait
    [Decode], the decoders of lists, arrays, options, results, tuples,
    resources, futures and streams, and [unpack] of
    [crates/transport/src/pack.rs].

    As for encoders, [D] stands for the deferred operations, here those on a
    [BufferedIncoming], and a decoder is its state, its [Default], its [decode]
    and its [take_deferred].  A decoded future or stream which is pending is
    [None]: its contents arrive through the deferred operation. *)

From S2P Require Import Prelude Wire FrameCodec.

(** [tokio_util::codec::Decoder<Item = T> + Deferred<W> + Default]; [decode]
    yields its result, the state and the bytes left in [src]. *)
Record Decoder (D T : Type) := mkDecoder {
  dec_state : Type;
  dec_default : dec_state;
  dec_decode : dec_state → bytes → io_result (option T) * dec_state * bytes;
  dec_take_deferred : dec_state → option D * dec_state
}.
Arguments dec_state {D T}. Arguments dec_default {D T}. Arguments dec_decode {D T}.
Arguments dec_take_deferred {D T}. Arguments mkDecoder {D T}.

(** A decoder without [Deferred] *)
Record Core (T : Type) := mkCore {
  core_state : Type;
  core_default : core_state;
  core_decode : core_state → bytes → io_result (option T) * core_state * bytes
}.
Arguments core_state {T}. Arguments core_default {T}. Arguments core_decode {T}.
Arguments mkCore {T}.

(** The codec of a decoder *)
Definition dec_core {D T} (Dec : Decoder D T) : Core T :=
  mkCore (dec_state Dec) (dec_default Dec) (dec_decode Dec).

(** [Decode] *)
Record Decode (D T : Type) := mkDecode {
  decode_dec : Decoder D T;
  decode_list : Decoder D (list T)
}.
Arguments decode_dec {D T}. Arguments decode_list {D T}. Arguments mkDecode {D T}.

(** The deferred operations of decoders: [handle_deferred] of elements, and
    the reception of pending values. *)
Class Source (D : Type) := {
  handle_deferred_in : list (option D) → D;
  receive_future : ∀ T (Dec : Decoder D T), dec_state Dec → D;
  receive_stream : ∀ T, Decoder D T → D;
  receive_stream_bytes : ∀ (Dec : Decoder D bytes), dec_state Dec → D
}.
Arguments receive_future {D _ T}. Arguments receive_stream {D _ T}.
Arguments receive_stream_bytes {D _}.

(** Decoders of tuples, component by component *)
Inductive Decoders (D : Type) : Type → Type :=
  | DNil : Decoders D unit
  | DCons {A B} (Dec : Decoder D A) (Decs : Decoders D B) : Decoders D (A * B).
Arguments DNil {D}. Arguments DCons {D A B}.

Fixpoint decs_state {D A} (Decs : Decoders D A) : Type :=
  match Decs with
  | DNil => unit
  | DCons Dec Decs => dec_state Dec * decs_state Decs
  end.

Fixpoint decs_default {D A} (Decs : Decoders D A) : decs_state Decs :=
  match Decs with
  | DNil => tt
  | DCons Dec Decs => (dec_default Dec, decs_default Decs)
  end.

(** The decoders of options, results, tuples and vectors of [wasm-tokio].
    [option_wrap] is the decoder of an option of which nothing has been read,
    over a decoder of its content; [into_inner] gives that decoder back. *)
Class CmDecoder (D : Type) := {
  option_state : ∀ T, Decoder D T → Type;
  option_wrap : ∀ T (Dec : Decoder D T), dec_state Dec → option_state T Dec;
  option_into_inner : ∀ T (Dec : Decoder D T), option_state T Dec → dec_state Dec;
  option_decode : ∀ T (Dec : Decoder D T), option_state T Dec → bytes →
    io_result (option (option T)) * option_state T Dec * bytes;
  result_state : ∀ A B, Decoder D A → Decoder D B → Type;
  result_wrap : ∀ A B (F : Decoder D A) (G : Decoder D B),
    dec_state F → dec_state G → result_state A B F G;
  result_into_inner : ∀ A B (F : Decoder D A) (G : Decoder D B),
    result_state A B F G → dec_state F * dec_state G;
  result_decode : ∀ A B (F : Decoder D A) (G : Decoder D B), result_state A B F G → bytes →
    io_result (option (A + B)) * result_state A B F G * bytes;
  tuple_state : ∀ A, Decoders D A → Type;
  tuple_wrap : ∀ A (Decs : Decoders D A), decs_state Decs → tuple_state A Decs;
  tuple_into_inner : ∀ A (Decs : Decoders D A), tuple_state A Decs → decs_state Decs;
  tuple_decode : ∀ A (Decs : Decoders D A), tuple_state A Decs → bytes →
    io_result (option A) * tuple_state A Decs * bytes;
  (* [CoreVecDecoder] *)
  vec_core : ∀ T, Decoder D T → Core (list T);
  (* [CoreVecDecoderBytes] *)
  vec_bytes_core : Core bytes
}.
Arguments option_state {D _ T}. Arguments option_wrap {D _ T}. Arguments option_into_inner {D _ T}.
Arguments option_decode {D _ T}. Arguments result_state {D _ A B}. Arguments result_wrap {D _ A B}.
Arguments result_into_inner {D _ A B}. Arguments result_decode {D _ A B}.
Arguments tuple_state {D _ A}. Arguments tuple_wrap {D _ A}. Arguments tuple_into_inner {D _ A}.
Arguments tuple_decode {D _ A}. Arguments vec_core {D _ T}.
Arguments vec_bytes_core D {_}.

Section decoders.
Context {D : Type} `{Source D} `{Leb128} `{CmDecoder D}.

Definition any_deferred (deferred : list (option D)) : bool :=
  existsb (λ d : option D, if d then true else false) deferred.

(** [handle_deferred] is deferred if any of the elements is. *)
Definition deferred_all_in (deferred : list (option D)) : option D :=
  if any_deferred deferred then Some (handle_deferred_in deferred) else None.

(** [impl_deferred_sync!], [SyncCodec] *)
Definition SyncDecoder {T} (C : Core T) : Decoder D T :=
  mkDecoder (core_state C) (core_default C) (core_decode C) (λ s, (None, s)).

(** [CoreVecDecoder], [CoreVecDecoderBytes] *)
Definition vec_decoder {T} (Dec : Decoder D T) : Decoder D (list T) := SyncDecoder (vec_core Dec).
Definition vec_bytes_decoder : Decoder D bytes := SyncDecoder (vec_bytes_core D).

(** [ListDecoder] *)
Record ListDecoder_state {T} (Dec : Decoder D T) := mkListDecoder {
  ld_dec : dec_state Dec;
  ld_ret : list T;
  ld_cap : N;
  ld_deferred : list (option D)
}.
Arguments mkListDecoder {T Dec}. Arguments ld_dec {T Dec}. Arguments ld_ret {T Dec}.
Arguments ld_cap {T Dec}. Arguments ld_deferred {T Dec}.

Definition ListDecoder_new {T} (Dec : Decoder D T) (s : dec_state Dec) : ListDecoder_state Dec :=
  mkListDecoder s [] 0 [].

(** [deferred.resize_with(n, || None); deferred.push(Some(d))] *)
Definition push_deferred (n : nat) (d : D) (deferred : list (option D)) : list (option D) :=
  resize n None deferred ++ [Some d].

(** [while self.cap > 0], [fuel] being [self.cap] *)
Fixpoint ListDecoder_loop {T} (Dec : Decoder D T) (fuel : nat) (self : ListDecoder_state Dec)
    (src : bytes) : io_result (option (list T)) * ListDecoder_state Dec * bytes :=
  match fuel with
  | O => (Ok (Some (ld_ret self)), mkListDecoder (ld_dec self) [] (ld_cap self) (ld_deferred self), src)
  | S fuel =>
      let '(r, dec, src) := dec_decode Dec (ld_dec self) src in
      match r with
      | Ok None => (Ok None, mkListDecoder dec (ld_ret self) (ld_cap self) (ld_deferred self), src)
      | Err e => (Err e, mkListDecoder dec [] 0 [], src)
      | Ok (Some v) =>
          let '(d, dec) := dec_take_deferred Dec dec in
          let deferred :=
            match d with
            | Some d => push_deferred (length (ld_ret self)) d (ld_deferred self)
            | None => ld_deferred self
            end in
          ListDecoder_loop Dec fuel
            (mkListDecoder dec (ld_ret self ++ [v]) (ld_cap self - 1) deferred) src
      end
  end.

Definition ListDecoder_decode {T} (Dec : Decoder D T) (self : ListDecoder_state Dec) (src : bytes) :
    io_result (option (list T)) * ListDecoder_state Dec * bytes :=
  if (ld_cap self =? 0)%N then
    match leb_decode_u32 src with
    | Err e => (Err e, self, src)
    | Ok None => (Ok None, self, src)
    | Ok (Some (n, src)) =>
        if (n =? 0)%N then (Ok (Some []), self, src)
        else
          ListDecoder_loop Dec (N.to_nat n)
            (mkListDecoder (ld_dec self) [] n (ld_deferred self)) src
    end
  else ListDecoder_loop Dec (N.to_nat (ld_cap self)) self src.

Definition ListDecoder_take_deferred {T} {Dec : Decoder D T} (self : ListDecoder_state Dec) :
    option D * ListDecoder_state Dec :=
  (deferred_all_in (ld_deferred self), mkListDecoder (ld_dec self) (ld_ret self) (ld_cap self) []).

Definition ListDecoder {T} (Dec : Decoder D T) : Decoder D (list T) :=
  mkDecoder (ListDecoder_state Dec) (ListDecoder_new Dec (dec_default Dec))
    (ListDecoder_decode Dec) ListDecoder_take_deferred.

(** [ArrayDecoder] *)
Record ArrayDecoder_state {T} (Dec : Decoder D T) := mkArrayDecoder {
  ad_dec : dec_state Dec;
  ad_ret : list T;
  ad_deferred : list (option D)
}.
Arguments mkArrayDecoder {T Dec}. Arguments ad_dec {T Dec}. Arguments ad_ret {T Dec}.
Arguments ad_deferred {T Dec}.

(** [while self.ret.len() < N], [fuel] being [N - self.ret.len()] *)
Fixpoint ArrayDecoder_loop {T} (Dec : Decoder D T) (fuel : nat) (self : ArrayDecoder_state Dec)
    (src : bytes) : io_result (option (list T)) * ArrayDecoder_state Dec * bytes :=
  match fuel with
  | O => (Ok (Some (ad_ret self)), mkArrayDecoder (ad_dec self) [] (ad_deferred self), src)
  | S fuel =>
      let '(r, dec, src) := dec_decode Dec (ad_dec self) src in
      match r with
      | Ok None => (Ok None, mkArrayDecoder dec (ad_ret self) (ad_deferred self), src)
      | Err e => (Err e, mkArrayDecoder dec [] [], src)
      | Ok (Some v) =>
          let '(d, dec) := dec_take_deferred Dec dec in
          let deferred :=
            match d with
            | Some d => push_deferred (length (ad_ret self)) d (ad_deferred self)
            | None => ad_deferred self
            end in
          ArrayDecoder_loop Dec fuel (mkArrayDecoder dec (ad_ret self ++ [v]) deferred) src
      end
  end.

Definition ArrayDecoder_decode {T} (N : nat) (Dec : Decoder D T) (self : ArrayDecoder_state Dec)
    (src : bytes) : io_result (option (list T)) * ArrayDecoder_state Dec * bytes :=
  ArrayDecoder_loop Dec (N - length (ad_ret self)) self src.

Definition ArrayDecoder {T} (N : nat) (Dec : Decoder D T) : Decoder D (list T) :=
  mkDecoder (ArrayDecoder_state Dec) (mkArrayDecoder (dec_default Dec) [] [])
    (ArrayDecoder_decode N Dec)
    (λ self, (deferred_all_in (ad_deferred self), mkArrayDecoder (ad_dec self) (ad_ret self) [])).

(** [OptionDecoder]: [mem::take(self).into_inner().take_deferred()] *)
Definition OptionDecoder {T} (Dec : Decoder D T) : Decoder D (option T) :=
  mkDecoder (option_state Dec) (option_wrap Dec (dec_default Dec)) (option_decode Dec)
    (λ self, ((dec_take_deferred Dec (option_into_inner Dec self)).1,
              option_wrap Dec (dec_default Dec))).

(** [ResultDecoder]; with both operations set, a debug build panics. *)
Definition ResultDecoder {A B} (F : Decoder D A) (G : Decoder D B) : Decoder D (A + B) :=
  mkDecoder (result_state F G) (result_wrap F G (dec_default F) (dec_default G))
    (result_decode F G)
    (λ self,
      let '(ok, err) := result_into_inner F G self in
      (match (dec_take_deferred F ok).1, (dec_take_deferred G err).1 with
       | None, None => None
       | Some ok, None => Some ok
       | None, Some err => Some err
       | Some ok, Some _ => Some ok
       end, result_wrap F G (dec_default F) (dec_default G))).

Fixpoint take_deferred_in {A} (Decs : Decoders D A) : decs_state Decs → list (option D) :=
  match Decs with
  | DNil => λ _, []
  | DCons Dec Decs => λ s, (dec_take_deferred Dec s.1).1 :: take_deferred_in Decs s.2
  end.

(** [TupleDecoder] of [impl_tuple_codec!] *)
Definition TupleDecoder {A} (Decs : Decoders D A) : Decoder D A :=
  mkDecoder (tuple_state Decs) (tuple_wrap Decs (decs_default Decs)) (tuple_decode Decs)
    (λ self, (deferred_all_in (take_deferred_in Decs (tuple_into_inner Decs self)),
              tuple_wrap Decs (decs_default Decs))).

(** [UnitCodec] *)
Definition UnitDecoder : Decoder D unit :=
  SyncDecoder (mkCore unit tt (λ s src, (Ok (Some tt), s, src))).

(** [ResourceOwnDecoder], [ResourceBorrowDecoder], [ListDecoderU8] *)
Definition ResourceDecoder : Decoder D bytes :=
  SyncDecoder (mkCore _ (core_default (vec_bytes_core D)) (core_decode (vec_bytes_core D))).

(** The state of the decoders of futures and streams: their option decoder and
    their deferred operation. *)
Record AsyncDecoder_state {T} (Dec : Decoder D T) := mkAsyncDecoder {
  as_dec : option_state Dec;
  as_deferred : option D
}.
Arguments mkAsyncDecoder {T Dec}. Arguments as_dec {T Dec}. Arguments as_deferred {T Dec}.

(** [FutureDecoder] *)
Definition FutureDecoder_decode {T} (Dec : Decoder D T) (self : AsyncDecoder_state Dec)
    (src : bytes) : io_result (option (option T)) * AsyncDecoder_state Dec * bytes :=
  let '(r, dec, src) := option_decode Dec (as_dec self) src in
  match r with
  | Err e => (Err e, mkAsyncDecoder dec (as_deferred self), src)
  | Ok None => (Ok None, mkAsyncDecoder dec (as_deferred self), src)
  | Ok (Some (Some item)) =>
      let '(d, dec) := dec_take_deferred (OptionDecoder Dec) dec in
      (Ok (Some (Some item)), mkAsyncDecoder dec d, src)
  | Ok (Some None) =>
      (Ok (Some None),
       mkAsyncDecoder (option_wrap Dec (dec_default Dec))
         (Some (receive_future Dec (option_into_inner Dec dec))), src)
  end.

Definition FutureDecoder {T} (Dec : Decoder D T) : Decoder D (option T) :=
  mkDecoder (AsyncDecoder_state Dec) (mkAsyncDecoder (option_wrap Dec (dec_default Dec)) None)
    (FutureDecoder_decode Dec)
    (λ self, (as_deferred self, mkAsyncDecoder (as_dec self) None)).

(** A ready stream of one chunk, or of none if it is empty *)
Definition ready_stream {A} (chunk : list A) : list (list A) :=
  match chunk with [] => [] | _ => [chunk] end.

(** [StreamDecoder] *)
Definition StreamDecoder_decode {T} (C : Decode D T) (self : AsyncDecoder_state (decode_list C))
    (src : bytes) :
    io_result (option (option (list (list T)))) * AsyncDecoder_state (decode_list C) * bytes :=
  let '(r, dec, src) := option_decode (decode_list C) (as_dec self) src in
  match r with
  | Err e => (Err e, mkAsyncDecoder dec (as_deferred self), src)
  | Ok None => (Ok None, mkAsyncDecoder dec (as_deferred self), src)
  | Ok (Some (Some chunk)) =>
      let '(d, dec) := dec_take_deferred (OptionDecoder (decode_list C)) dec in
      (Ok (Some (Some (ready_stream chunk))), mkAsyncDecoder dec d, src)
  | Ok (Some None) =>
      (Ok (Some None), mkAsyncDecoder dec (Some (receive_stream (decode_dec C))), src)
  end.

Definition StreamDecoder {T} (C : Decode D T) : Decoder D (option (list (list T))) :=
  mkDecoder (AsyncDecoder_state (decode_list C))
    (mkAsyncDecoder (option_wrap _ (dec_default (decode_list C))) None)
    (StreamDecoder_decode C)
    (λ self, (as_deferred self, mkAsyncDecoder (as_dec self) None)).

(** [StreamDecoderBytes], [StreamDecoderRead] *)
Definition StreamDecoderBytes_decode (self : AsyncDecoder_state vec_bytes_decoder)
    (src : bytes) :
    io_result (option (option (list bytes))) * AsyncDecoder_state vec_bytes_decoder * bytes :=
  let '(r, dec, src) := option_decode vec_bytes_decoder (as_dec self) src in
  match r with
  | Err e => (Err e, mkAsyncDecoder dec (as_deferred self), src)
  | Ok None => (Ok None, mkAsyncDecoder dec (as_deferred self), src)
  | Ok (Some (Some chunk)) =>
      (Ok (Some (Some (ready_stream chunk))), mkAsyncDecoder dec (as_deferred self), src)
  | Ok (Some None) =>
      (Ok (Some None),
       mkAsyncDecoder (option_wrap _ (dec_default vec_bytes_decoder))
         (Some (receive_stream_bytes vec_bytes_decoder (option_into_inner _ dec))), src)
  end.

Definition StreamDecoderBytes : Decoder D (option (list bytes)) :=
  mkDecoder (AsyncDecoder_state vec_bytes_decoder)
    (mkAsyncDecoder (option_wrap _ (dec_default vec_bytes_decoder)) None)
    StreamDecoderBytes_decode
    (λ self, (as_deferred self, mkAsyncDecoder (as_dec self) None)).

(** [unpack] *)
Definition unpack {T} (Dec : Decoder D T) (buf : bytes) : io_result T :=
  let '(r, dec, buf) := dec_decode Dec (dec_default Dec) buf in
  let? v := r in
  let? v := ok_or UnexpectedEof v in
  match (dec_take_deferred Dec dec).1, buf with
  | Some _, _ => Err InvalidData
  | None, _ :: _ => Err InvalidData
  | None, [] => Ok v
  end.

End decoders.
Arguments mkListDecoder {D T Dec}. Arguments ld_dec {D T Dec}. Arguments ld_ret {D T Dec}.
Arguments ld_cap {D T Dec}. Arguments ld_deferred {D T Dec}.
Arguments mkArrayDecoder {D T Dec}. Arguments ad_dec {D T Dec}. Arguments ad_ret {D T Dec}.
Arguments ad_deferred {D T Dec}.
Arguments mkAsyncDecoder {D _ T Dec}. Arguments as_dec {D _ T Dec}. Arguments as_deferred {D _ T Dec}.

(** ** Decoding in pieces

    What a decoder promises to its callers when the buffer does not hold the
    whole encoding yet: it asks for more, keeps what it has consumed in its
    state, and yields the value, with the operation it defers, when the
    encoding is complete.  [res_inv s e v d] says that in the state [s], the
    bytes [e] are what is left of the encoding of [v]. *)

Record Resumable {D T} (Dec : Decoder D T) := mkResumable {
  res_inv : dec_state Dec → bytes → T → option D → Prop;
  res_incomplete s p q v d :
    res_inv s (p ++ q) v d → q ≠ [] →
    ∃ s' c p', p = c ++ p' ∧ dec_decode Dec s p = (Ok None, s', p') ∧ res_inv s' (p' ++ q) v d;
  res_complete s e v d rest :
    res_inv s e v d →
    ∃ s', dec_decode Dec s (e ++ rest) = (Ok (Some v), s', rest) ∧
      dec_take_deferred Dec s' = (d, dec_default Dec)
}.
Arguments res_inv {D T Dec}. Arguments res_incomplete {D T Dec}. Arguments res_complete {D T Dec}.

(** [e] encodes [v], with the deferred operation [d]. *)
Definition codes_as {D T} {Dec : Decoder D T} (R : Resumable Dec) (e : bytes) (v : T)
    (d : option D) : Prop := res_inv R (dec_default Dec) e v d.

(** The decoder is called each time a chunk is appended to the buffer, until
    it yields a value. *)
Fixpoint feed {D T} (Dec : Decoder D T) (s : dec_state Dec) (buf : bytes) (chunks : list bytes) :
    io_result (option T) * dec_state Dec * bytes :=
  match chunks with
  | [] => (Ok None, s, buf)
  | chunk :: chunks =>
      match dec_decode Dec s (buf ++ chunk) with
      | (Ok None, s, buf) => feed Dec s buf chunks
      | r => r
      end
  end.

(** However the encoding is cut into chunks, the value is decoded as soon as
    it is complete. *)
Lemma feed_resumable {D T} {Dec : Decoder D T} (R : Resumable Dec) s buf chunks last rest v d :
  res_inv R s (buf ++ concat chunks ++ last) v d → last ≠ [] →
  ∃ s', feed Dec s buf (chunks ++ [last ++ rest]) = (Ok (Some v), s', rest) ∧
    dec_take_deferred Dec s' = (d, dec_default Dec).
Proof.
  revert s buf. induction chunks as [|chunk chunks IH]; intros s buf Hi Hl; cbn [app feed concat].
  - cbn [concat app] in Hi. destruct (res_complete R _ _ _ _ rest Hi) as (s' & Hd & Ht).
    rewrite app_assoc, Hd. by exists s'.
  - cbn [concat] in Hi. rewrite <- app_assoc, app_assoc in Hi.
    destruct (res_incomplete R _ _ _ _ _ Hi) as (s' & c & p' & _ & Hd & Hi').
    { by destruct (concat chunks), last. }
    rewrite Hd. by apply IH.
Qed.

(** *** Lists *)

Section lists.
Context {D : Type} `{Source D} `{Leb128Laws} {T : Type} {Dec : Decoder D T} (R : Resumable Dec).

(** An element: its encoding, its value and its deferred operation *)
Record element := mkElement { el_code : bytes; el_val : T; el_deferred : option D }.

Definition el_codes (x : element) : Prop := codes_as R (el_code x) (el_val x) (el_deferred x).
Definition codes (l : list element) : bytes := concat (el_code <$> l).

(** The operations collected after elements, the first of which has the index
    [i]. *)
Fixpoint push_all (i : nat) (deferred : list (option D)) (ds : list (option D)) : list (option D) :=
  match ds with
  | [] => deferred
  | Some d :: ds => push_all (S i) (push_deferred i d deferred) ds
  | None :: ds => push_all (S i) deferred ds
  end.

(** The elements [l] are left to decode, the first one from the state of the
    element decoder. *)
Definition list_mid (s : ListDecoder_state Dec) (l : list element) : Prop :=
  match l with
  | [] => ld_dec s = dec_default Dec
  | x :: l => res_inv R (ld_dec s) (el_code x) (el_val x) (el_deferred x) ∧ Forall el_codes l
  end ∧ ld_cap s = len l.

Lemma list_mid_next s x l dec deferred :
  list_mid s (x :: l) → dec = dec_default Dec →
  list_mid (mkListDecoder dec (ld_ret s ++ [el_val x]) (ld_cap s - 1) deferred) l.
Proof.
  intros ((_ & Hl) & Hc) ->. split; [|rewrite len_cons in Hc; cbn [ld_cap]; lia].
  destruct l as [|y l]; [done|]. by apply Forall_cons in Hl.
Qed.

Lemma loop_complete s l rest :
  list_mid s l →
  ListDecoder_loop Dec (length l) s (codes l ++ rest) =
  (Ok (Some (ld_ret s ++ (el_val <$> l))),
   mkListDecoder (dec_default Dec) [] 0
     (push_all (length (ld_ret s)) (ld_deferred s) (el_deferred <$> l)), rest).
Proof.
  revert s. induction l as [|x l IH]; intros s Hm.
  { destruct Hm as (Hd & Hc). cbn. by rewrite app_nil_r, Hd, Hc. }
  pose proof Hm as ((Hx & _) & _).
  change (codes (x :: l)) with (el_code x ++ codes l). rewrite <- app_assoc. cbn [length].
  destruct (res_complete R _ _ _ _ (codes l ++ rest) Hx) as (s' & Hd & Ht).
  cbn [ListDecoder_loop]. rewrite Hd, Ht. rewrite !fmap_cons. cbn [push_all].
  rewrite IH by (by apply list_mid_next). cbn [ld_ret ld_deferred].
  rewrite <- app_assoc, length_app, Nat.add_1_r. by destruct (el_deferred x).
Qed.

(** The state after a part of the encoding *)
Definition list_rest (s : ListDecoder_state Dec) (e : bytes) (vs : list T) (ds : list (option D)) : Prop :=
  ∃ l, l ≠ [] ∧ list_mid s l ∧ e = codes l ∧ vs = ld_ret s ++ (el_val <$> l) ∧
    ds = push_all (length (ld_ret s)) (ld_deferred s) (el_deferred <$> l).

Lemma loop_incomplete s l p q :
  list_mid s l → codes l = p ++ q → q ≠ [] →
  ∃ s' c p', p = c ++ p' ∧ ListDecoder_loop Dec (length l) s p = (Ok None, s', p') ∧
    list_rest s' (p' ++ q) (ld_ret s ++ (el_val <$> l))
      (push_all (length (ld_ret s)) (ld_deferred s) (el_deferred <$> l)).
Proof.
  revert s p. induction l as [|x l IH]; intros s p Hm He Hq.
  { exfalso. symmetry in He. by apply app_nil in He as (_ & ?). }
  change (codes (x :: l)) with (el_code x ++ codes l) in He.
  pose proof Hm as ((Hx & Hl) & Hc).
  assert ((∃ q0, q0 ≠ [] ∧ el_code x = p ++ q0 ∧ q = q0 ++ codes l) ∨
          ∃ p1, p = el_code x ++ p1 ∧ codes l = p1 ++ q) as [(q0 & Hq0 & Hp & ->)|(p1 & -> & Hp)].
  { apply app_eq_app in He as (k & [(Hk & ->)|(-> & Hk)]).
    - destruct k as [|b k]; [right; exists []; split; [by rewrite app_nil_r in *|done]|].
      left. by exists (b :: k).
    - right. by exists k. }
  - rewrite Hp in Hx. destruct (res_incomplete R _ _ _ _ _ Hx Hq0) as (s' & c & p' & -> & Hd & Hi).
    eexists _, c, p'. split; [done|]. cbn [length ListDecoder_loop]. rewrite Hd. split; [done|].
    exists (mkElement (p' ++ q0) (el_val x) (el_deferred x) :: l).
    split; [done|]. split; [|by rewrite app_assoc].
    split; [done|]. rewrite len_cons in Hc. cbn [ld_cap]. rewrite len_cons. done.
  - destruct (res_complete R _ _ _ _ p1 Hx) as (s' & Hd & Ht).
    cbn [length ListDecoder_loop]. rewrite Hd, Ht.
    edestruct (IH (mkListDecoder (dec_default Dec) (ld_ret s ++ [el_val x]) (ld_cap s - 1)
      match el_deferred x with
      | Some d => push_deferred (length (ld_ret s)) d (ld_deferred s)
      | None => ld_deferred s
      end) p1) as (s'' & c & p' & -> & Hloop & Hr); [by apply list_mid_next|done|done|].
    exists s'', (el_code x ++ c), p'. split; [by rewrite app_assoc|]. split; [exact Hloop|].
    cbn [ld_ret ld_deferred] in Hr. rewrite <- app_assoc, length_app, Nat.add_1_r in Hr.
    rewrite !fmap_cons. by destruct (el_deferred x).
Qed.

(** The decoder is at the start of a list, or within one. *)
Definition list_inv (s : ListDecoder_state Dec) (e : bytes) (vs : list T) (ds : list (option D)) :
    Prop :=
  (s = ListDecoder_new Dec (dec_default Dec) ∧
   ∃ l, Forall el_codes l ∧ (len l ≤ u32_MAX)%N ∧ e = leb_encode (len l) ++ codes l ∧
     vs = el_val <$> l ∧ ds = push_all 0 [] (el_deferred <$> l)) ∨
  list_rest s e vs ds.

Lemma el_codes_mid l deferred :
  Forall el_codes l → list_mid (mkListDecoder (dec_default Dec) [] (len l) deferred) l.
Proof. intros Hl. split; [|done]. destruct l; [done|]. by apply Forall_cons in Hl. Qed.

Lemma list_inv_complete s e vs ds rest :
  list_inv s e vs ds →
  ListDecoder_decode Dec s (e ++ rest) =
  (Ok (Some vs), mkListDecoder (dec_default Dec) [] 0 ds, rest).
Proof.
  intros [(-> & l & Hl & Hn & -> & -> & ->)|(l & Hne & Hm & -> & -> & ->)];
    unfold ListDecoder_decode.
  - cbn [ListDecoder_new ld_cap]. rewrite N.eqb_refl, <- app_assoc, leb_decode_encode by done.
    destruct (N.eqb_spec (len l) 0) as [->%len_0|Hz]; [done|].
    rewrite to_nat_len. cbn [ld_dec ld_deferred].
    by rewrite loop_complete by (by apply el_codes_mid).
  - assert (ld_cap s ≠ 0%N) as Hc by (destruct Hm as (_ & ->); by rewrite len_0).
    destruct (N.eqb_spec (ld_cap s) 0); [done|]. pose proof Hm as (_ & ->).
    by rewrite to_nat_len, loop_complete.
Qed.

Lemma list_inv_incomplete s p q vs ds :
  list_inv s (p ++ q) vs ds → q ≠ [] →
  ∃ s' c p', p = c ++ p' ∧ ListDecoder_decode Dec s p = (Ok None, s', p') ∧
    list_inv s' (p' ++ q) vs ds.
Proof.
  intros [(-> & l & Hl & Hn & He & -> & ->)|(l & Hne & Hm & He & -> & ->)] Hq;
    unfold ListDecoder_decode.
  - cbn [ListDecoder_new ld_cap]. rewrite N.eqb_refl.
    assert ((p `prefix_of` leb_encode (len l) ∧ p ≠ leb_encode (len l)) ∨
            ∃ p1, p = leb_encode (len l) ++ p1 ∧ codes l = p1 ++ q) as [(Hp & Hpn)|(p1 & -> & Hp)].
    { symmetry in He. apply app_eq_app in He as (k & [(Hk & ->)|(-> & Hk)]).
      - destruct k as [|b k].
        + right. exists []. rewrite app_nil_r in *. done.
        + left. rewrite Hk. split; [by eexists|]. intros Hx.
          apply (f_equal length) in Hx. rewrite length_app in Hx. simpl in Hx. lia.
      - right. by exists k. }
    + rewrite (leb_decode_incomplete (len l)) by done. exists (ListDecoder_new Dec (dec_default Dec)), [], p.
      split; [done|]. split; [done|]. left. split; [done|]. by exists l.
    + rewrite leb_decode_encode by done. destruct (N.eqb_spec (len l) 0) as [->%len_0|Hz].
      { symmetry in Hp. by apply app_nil in Hp as (_ & ?). }
      rewrite to_nat_len. cbn [ld_dec ld_deferred].
      edestruct (loop_incomplete (mkListDecoder (dec_default Dec) [] (len l) []) l p1 q)
        as (s' & c & p' & -> & Hloop & Hr); [by apply el_codes_mid|done|done|].
      eexists s', (_ ++ c), p'. split; [by rewrite <- app_assoc|]. split; [exact Hloop|].
      right. exact Hr.
  - assert (ld_cap s ≠ 0%N) as Hc by (destruct Hm as (_ & ->); by rewrite len_0).
    destruct (N.eqb_spec (ld_cap s) 0); [done|]. pose proof Hm as (_ & ->).
    rewrite to_nat_len.
    destruct (loop_incomplete s l p q) as (s' & c & p' & -> & Hloop & Hr); [done..|].
    exists s', c, p'. split; [done|]. split; [exact Hloop|]. right. exact Hr.
Qed.

(** A decoder of lists promises what its element decoder promises: lists of
    lists are decoded in pieces too. *)
Definition list_deferred_inv (s : ListDecoder_state Dec) (e : bytes) (vs : list T) (d : option D) :
    Prop := ∃ ds, list_inv s e vs ds ∧ d = deferred_all_in ds.

Lemma list_deferred_incomplete s p q vs d :
  list_deferred_inv s (p ++ q) vs d → q ≠ [] →
  ∃ s' c p', p = c ++ p' ∧ ListDecoder_decode Dec s p = (Ok None, s', p') ∧
    list_deferred_inv s' (p' ++ q) vs d.
Proof.
  intros (ds & Hi & ->) Hq. destruct (list_inv_incomplete _ _ _ _ _ Hi Hq) as (s' & c & p' & Hp & Hd & Hi').
  exists s', c, p'. split; [done|]. split; [done|]. by exists ds.
Qed.

Lemma list_deferred_complete s e vs d rest :
  list_deferred_inv s e vs d →
  ∃ s', ListDecoder_decode Dec s (e ++ rest) = (Ok (Some vs), s', rest) ∧
    ListDecoder_take_deferred s' = (d, ListDecoder_new Dec (dec_default Dec)).
Proof.
  intros (ds & Hi & ->). rewrite (list_inv_complete _ _ _ _ _ Hi). by eexists.
Qed.

Definition ListDecoder_resumable : Resumable (ListDecoder Dec) :=
  mkResumable _ _ (ListDecoder Dec) list_deferred_inv list_deferred_incomplete list_deferred_complete.

(** The operations a list defers are those of its elements, at their indices. *)
Lemma push_all_lookup i deferred ds j :
  length deferred ≤ i →
  mjoin (push_all i deferred ds !! j) =
  if decide (j < i) then mjoin (deferred !! j) else mjoin (ds !! (j - i)).
Proof.
  revert i deferred. induction ds as [|d ds IH]; intros i deferred Hlen; cbn [push_all].
  { destruct (decide (j < i)); [done|]. by rewrite lookup_nil, lookup_ge_None_2 by lia. }
  destruct d as [d|]; rewrite IH.
  - destruct (decide (j < S i)), (decide (j < i)); try lia; unfold push_deferred.
    + rewrite lookup_app_l by (rewrite length_resize; lia).
      destruct (decide (j < length deferred)).
      * by rewrite lookup_resize by lia.
      * rewrite lookup_resize_new by lia. by rewrite lookup_ge_None_2 by lia.
    + replace j with i by lia. rewrite lookup_app_r by (rewrite length_resize; lia).
      by rewrite length_resize, !Nat.sub_diag.
    + by replace (j - i) with (S (j - S i)) by lia.
  - unfold push_deferred. rewrite length_app, length_resize. simpl. lia.
  - destruct (decide (j < S i)), (decide (j < i)); try lia; try done.
    + replace j with i by lia. rewrite Nat.sub_diag. by rewrite lookup_ge_None_2 by lia.
    + by replace (j - i) with (S (j - S i)) by lia.
  - lia.
Qed.

(** Whichever way the encoding of a list is cut into chunks, the decoder
    asks for more until the last chunk completes it, and then yields the list,
    leaving the bytes after it; the operations it defers are those of its
    elements, each at the index of its element. *)
Theorem list_decoded_in_pieces l chunks last rest :
  Forall el_codes l → (len l ≤ u32_MAX)%N → last ≠ [] →
  concat chunks ++ last = leb_encode (len l) ++ codes l →
  ∃ s ds, feed (ListDecoder Dec) (dec_default (ListDecoder Dec)) [] (chunks ++ [last ++ rest]) =
            (Ok (Some (el_val <$> l)), s, rest) ∧
    dec_take_deferred (ListDecoder Dec) s = (deferred_all_in ds, dec_default (ListDecoder Dec)) ∧
    ∀ i, mjoin (ds !! i) = mjoin ((el_deferred <$> l) !! i).
Proof.
  intros Hl Hlen Hne He.
  destruct (feed_resumable ListDecoder_resumable (dec_default (ListDecoder Dec)) [] chunks last rest
    (el_val <$> l) (deferred_all_in (push_all 0 [] (el_deferred <$> l)))) as (s & Hf & Ht); [|done|].
  { exists (push_all 0 [] (el_deferred <$> l)). split; [|done].
    left. split; [done|]. exists l. by rewrite app_nil_l, He. }
  exists s, (push_all 0 [] (el_deferred <$> l)). split; [done|]. split; [done|].
  intros i. rewrite push_all_lookup by (simpl; lia). destruct (decide (i < 0)); [lia|].
  by rewrite Nat.sub_0_r.
Qed.

End lists.

(** Integers are decoded in pieces. *)
Section leb_resumable.
Context {D : Type} `{Leb128Laws}.

Definition leb_core : Core N :=
  mkCore unit tt (λ s src,
    match leb_decode_u32 src with
    | Ok (Some (n, rest)) => (Ok (Some n), s, rest)
    | Ok None => (Ok None, s, src)
    | Err e => (Err e, s, src)
    end).

Definition leb_inv (s : unit) (e : bytes) (n : N) (d : option D) : Prop :=
  (n ≤ u32_MAX)%N ∧ e = leb_encode n ∧ d = None.

Lemma leb_inv_incomplete s p q n d :
  leb_inv s (p ++ q) n d → q ≠ [] →
  ∃ s' c p', p = c ++ p' ∧ dec_decode (SyncDecoder (D := D) leb_core) s p = (Ok None, s', p') ∧
    leb_inv s' (p' ++ q) n d.
Proof.
  intros (Hn & He & ->) Hq. exists s, [], p. split; [done|]. split; [|done]. cbn.
  rewrite (leb_decode_incomplete n); [done|done|rewrite <- He; by eexists|].
  intros Hp. rewrite Hp in He. apply (f_equal length) in He. rewrite length_app in He.
  destruct q; [done|]. simpl in He. lia.
Qed.

Lemma leb_inv_complete s e n d rest :
  leb_inv s e n d →
  ∃ s', dec_decode (SyncDecoder (D := D) leb_core) s (e ++ rest) = (Ok (Some n), s', rest) ∧
    dec_take_deferred (SyncDecoder (D := D) leb_core) s' = (d, dec_default (SyncDecoder (D := D) leb_core)).
Proof.
  destruct s. intros (Hn & -> & ->). exists tt. cbn. by rewrite leb_decode_encode.
Qed.

Definition leb_resumable : Resumable (SyncDecoder (D := D) leb_core) :=
  mkResumable _ _ (SyncDecoder leb_core) leb_inv leb_inv_incomplete leb_inv_complete.

End leb_resumable.

#[local] Instance source_test : Source nat := {|
  handle_deferred_in := length;
  receive_future _ _ _ := 0;
  receive_stream _ _ := 0;
  receive_stream_bytes _ _ := 0
|}.

(** A list of two lists of integers, in three chunks *)
Lemma list_decoded_in_pieces_witness :
  ∃ s, feed (@ListDecoder nat source_test leb128_std _ (@ListDecoder nat source_test leb128_std _
           (SyncDecoder (@leb_core leb128_std)))) (dec_default _) [] [[x02]; [x01; xac]; [x02; x00; x07]] =
         (Ok (Some [[300%N]; []]), s, [x07]).
Proof.
  pose (R := @ListDecoder_resumable nat source_test leb128_std leb128_std_laws _ _
    (@leb_resumable nat leb128_std leb128_std_laws)).
  destruct (@list_decoded_in_pieces nat source_test leb128_std leb128_std_laws _ _ R
    [mkElement [x01; xac; x02] [300%N] None; mkElement [x00] [] None]
    [[x02]; [x01; xac]] [x02; x00] [x07]) as (s & ds & Hf & _).
  - apply Forall_cons_2; [exists []; split; [left; split; [reflexivity|]|reflexivity]|
      apply Forall_cons_2; [exists []; split; [left; split; [reflexivity|]|reflexivity]|
      apply Forall_nil_2]].
    + exists [mkElement [xac; x02] 300%N None].
      split; [apply Forall_cons_2; [|apply Forall_nil_2]; split; [vm_compute; congruence|done]|].
      split; [vm_compute; congruence|]. split; [reflexivity|]. split; reflexivity.
    + exists []. split; [apply Forall_nil_2|]. split; [vm_compute; congruence|].
      split; [reflexivity|]. split; reflexivity.
  - vm_compute. congruence.
  - discriminate.
  - reflexivity.
  - exists s. exact Hf.
Defined.
