(* ===== verification/Values.v ===== *)
(** * Packed values

    The types which implement [Encode] and [Decode] in
    [crates/transport/src/value.rs], as a universe: a type [t], the values of
    [t] given to encoders ([val]) and yielded by decoders ([dval]), and the
    codecs the implementations of the traits select ([encode_of],
    [decode_of]).  The theorems show what [pack], [pack_ready] and [unpack]
    promise for all of them. *)

From S2P Require Import Prelude Wire FrameCodec Prims Encode Pack Decode.

(** The primitive types, with their codecs of [wasm-tokio] as parameters *)
Inductive prim := PBool | PS8 | PS16 | PU16 | PS32 | PU32 | PS64 | PU64 | PF32 | PF64 | PChar | PString.

#[global] Instance prim_eq_dec : EqDecision prim.
Proof. solve_decision. Defined.

Definition prim_val (p : prim) : Type :=
  match p with
  | PBool => bool
  | PS8 | PS16 | PS32 | PS64 => Z
  | PU16 | PU32 | PU64 | PF32 | PF64 | PChar => N
  | PString => bytes
  end.

(** The values of the Rust type *)
Definition prim_ok (p : prim) : prim_val p → bool :=
  let s w z := ((- 2 ^ (w - 1) <=? z) && (z <? 2 ^ (w - 1)))%Z in
  let u w n := (n <? 2 ^ w)%N in
  match p with
  | PBool => λ _, true
  | PS8 => s 8%Z | PS16 => s 16%Z | PS32 => s 32%Z | PS64 => s 64%Z
  | PU16 => u 16%N | PU32 | PF32 => u 32%N | PU64 | PF64 => u 64%N
  | PChar => is_char
  | PString => λ b, utf8_valid b && (len b <=? u32_MAX)%N
  end.

Class PrimCodec := {
  prim_encode : ∀ p, prim_val p → bytes → io_result bytes;
  prim_core : ∀ p, Core (prim_val p);
  u8_encode : byte → bytes → io_result bytes;
  u8_core : Core byte
}.

(** The code of a value, as the encoder appends it *)
Definition prim_code `{PrimCodec} (p : prim) (v : prim_val p) : bytes :=
  match prim_encode p v [] with Ok e => e | Err _ => [] end.

(** The complete code of [v] decodes to [v], and leaves the decoder as it was. *)
Definition reads_as {D T} (Dec : Decoder D T) (e : bytes) (v : T) : Prop :=
  ∀ rest, ∃ s, dec_decode Dec (dec_default Dec) (e ++ rest) = (Ok (Some v), s, rest) ∧
    dec_take_deferred Dec s = (None, dec_default Dec).

Definition core_reads {T} (C : Core T) (e : bytes) (v : T) : Prop :=
  ∀ rest, core_decode C (core_default C) (e ++ rest) = (Ok (Some v), core_default C, rest).

Class PrimLaws `{PrimCodec} : Prop := {
  prim_encode_app p v dst : prim_ok p v = true → prim_encode p v dst = Ok (dst ++ prim_code p v);
  prim_decode_code p v : prim_ok p v = true → core_reads (prim_core p) (prim_code p v) v;
  u8_encode_app b dst : u8_encode b dst = Ok (dst ++ [b]);
  u8_decode_code b : core_reads u8_core [b] b
}.

(** The decoders of the components of a tuple, one after the other *)
Fixpoint decs_run {D A} (Decs : Decoders D A) :
    decs_state Decs → bytes → option (A * decs_state Decs * bytes) :=
  match Decs with
  | DNil => λ s bs, Some (tt, s, bs)
  | DCons Dec Decs => λ s bs,
      match dec_decode Dec s.1 bs with
      | (Ok (Some v), s1, bs) =>
          '(vs, s2, bs) ← decs_run Decs s.2 bs; Some ((v, vs), (s1, s2), bs)
      | _ => None
      end
  end.

(** The complete code of a value, for the decoders of [wasm-tokio] *)
Class CmDecoderLaws (D : Type) `{Leb128, CmDecoder D} : Prop := {
  option_into_wrap T (Dec : Decoder D T) s : option_into_inner Dec (option_wrap Dec s) = s;
  option_decode_none T (Dec : Decoder D T) s rest :
    option_decode Dec (option_wrap Dec s) (x00 :: rest) = (Ok (Some None), option_wrap Dec s, rest);
  option_decode_some T (Dec : Decoder D T) s s' bs v rest :
    dec_decode Dec s bs = (Ok (Some v), s', rest) →
    option_decode Dec (option_wrap Dec s) (x01 :: bs) =
    (Ok (Some (Some v)), option_wrap Dec s', rest);
  result_into_wrap A B (F : Decoder D A) (G : Decoder D B) s t :
    result_into_inner F G (result_wrap F G s t) = (s, t);
  result_decode_ok A B (F : Decoder D A) (G : Decoder D B) s s' t bs v rest :
    dec_decode F s bs = (Ok (Some v), s', rest) →
    result_decode F G (result_wrap F G s t) (x00 :: bs) =
    (Ok (Some (inl v)), result_wrap F G s' t, rest);
  result_decode_err A B (F : Decoder D A) (G : Decoder D B) s t t' bs v rest :
    dec_decode G t bs = (Ok (Some v), t', rest) →
    result_decode F G (result_wrap F G s t) (x01 :: bs) =
    (Ok (Some (inr v)), result_wrap F G s t', rest);
  tuple_into_wrap A (Decs : Decoders D A) s : tuple_into_inner Decs (tuple_wrap Decs s) = s;
  tuple_decode_run A (Decs : Decoders D A) s s' bs v rest :
    decs_run Decs s bs = Some (v, s', rest) →
    tuple_decode Decs (tuple_wrap Decs s) bs = (Ok (Some v), tuple_wrap Decs s', rest);
  vec_decode T (Dec : Decoder D T) es vs :
    Forall2 (core_reads (dec_core Dec)) es vs → (len vs ≤ u32_MAX)%N →
    core_reads (vec_core Dec) (leb_encode (len vs) ++ concat es) vs;
  vec_bytes_decode bs :
    (len bs ≤ u32_MAX)%N → core_reads (vec_bytes_core D) (leb_encode (len bs) ++ bs) bs
}.

(** ** The universe *)

Inductive ty :=
  | TPrim (p : prim)
  | TU8
  | TUnit
  | TResource
  | TOption (t : ty)
  | TResult (t u : ty)
  | TList (t : ty)
  | TArray (n : nat) (t : ty)
  | TTuple (ts : list ty)
  | TFuture (t : ty)
  | TStream (t : ty)
  | TStreamBytes
  | TStreamRead.

Section ty_ind.
Context (P : ty → Prop).
Context (HPrim : ∀ p, P (TPrim p)) (HU8 : P TU8) (HUnit : P TUnit) (HResource : P TResource).
Context (HOption : ∀ t, P t → P (TOption t)) (HResult : ∀ t u, P t → P u → P (TResult t u)).
Context (HList : ∀ t, P t → P (TList t)) (HArray : ∀ n t, P t → P (TArray n t)).
Context (HTuple : ∀ ts, Forall P ts → P (TTuple ts)).
Context (HFuture : ∀ t, P t → P (TFuture t)) (HStream : ∀ t, P t → P (TStream t)).
Context (HBytes : P TStreamBytes) (HRead : P TStreamRead).

(** Induction with the components of tuples *)
Fixpoint ty_ind_nested (t : ty) : P t :=
  match t with
  | TPrim p => HPrim p
  | TU8 => HU8
  | TUnit => HUnit
  | TResource => HResource
  | TOption t => HOption t (ty_ind_nested t)
  | TResult t u => HResult t u (ty_ind_nested t) (ty_ind_nested u)
  | TList t => HList t (ty_ind_nested t)
  | TArray n t => HArray n t (ty_ind_nested t)
  | TTuple ts =>
      HTuple ts ((fix go ts : Forall P ts :=
        match ts with
        | [] => Forall_nil_2 P
        | t :: ts => Forall_cons_2 P t ts (ty_ind_nested t) (go ts)
        end) ts)
  | TFuture t => HFuture t (ty_ind_nested t)
  | TStream t => HStream t (ty_ind_nested t)
  | TStreamBytes => HBytes
  | TStreamRead => HRead
  end.
End ty_ind.

(** A reader, by the chunks it reads without waiting, whether it ends after
    them, and the later chunks otherwise; none fails. *)
Definition to_reader (s : Stream bytes) : Reader :=
  mkReader (Ok <$> str_now s) (str_end s) (Ok <$> str_later s).

(** The values encoders take *)
Fixpoint val (t : ty) : Type :=
  match t with
  | TPrim p => prim_val p
  | TU8 => byte
  | TUnit => unit
  | TResource => bytes
  | TOption t => option (val t)
  | TResult t u => val t + val u
  | TList t | TArray _ t => list (val t)
  | TTuple ts => foldr (λ t A, (val t * A)%type) unit ts
  | TFuture t => Future (val t)
  | TStream t => Stream (list (val t))
  | TStreamBytes | TStreamRead => Stream bytes
  end.

(** The values decoders yield: [None] is a future or stream which is pending. *)
Fixpoint dval (t : ty) : Type :=
  match t with
  | TPrim p => prim_val p
  | TU8 => byte
  | TUnit => unit
  | TResource => bytes
  | TOption t => option (dval t)
  | TResult t u => dval t + dval u
  | TList t | TArray _ t => list (dval t)
  | TTuple ts => foldr (λ t A, (dval t * A)%type) unit ts
  | TFuture t => option (dval t)
  | TStream t => option (list (list (dval t)))
  | TStreamBytes | TStreamRead => option (list bytes)
  end.

(** ** The codecs of the types *)

Section codecs.
Context {D : Type} `{Leb128}.

Definition map_encoder {A B} (f : B → A) (E : Encoder D A) : Encoder D B :=
  mkEncoder (enc_state E) (enc_default E) (λ s v, enc_encode E s (f v)) (enc_take_deferred E).

Fixpoint encode_of `{Sink D} `{CmEncoder D} `{PrimCodec} (t : ty) : Encode D (val t) :=
  match t with
  | TPrim PString => Encode_default (SyncEncoder (prim_encode PString))
  | TPrim p => Encode_copy (SyncEncoder (prim_encode p))
  | TU8 => Encode_u8 (SyncEncoder u8_encode)
  | TUnit => Encode_default UnitCodec
  | TResource => Encode_default ResourceEncoder
  | TOption t => Encode_default (OptionEncoder (encode_enc (encode_of t)))
  | TResult t u =>
      Encode_default (ResultEncoder (encode_enc (encode_of t)) (encode_enc (encode_of u)))
  | TList t => Encode_default (ListEncoder (encode_of t))
  | TArray _ t => Encode_default (ArrayEncoder (encode_of t))
  | TTuple ts =>
      Encode_default (TupleEncoder
        ((fix encs (ts : list ty) : Encoders D (foldr (λ t A, (val t * A)%type) unit ts) :=
            match ts with
            | [] => ENil
            | t :: ts => ECons (encode_enc (encode_of t)) (encs ts)
            end) ts))
  | TFuture t => Encode_default (FutureEncoder (encode_enc (encode_of t)))
  | TStream t => Encode_default (StreamEncoder (encode_of t))
  | TStreamBytes => Encode_default StreamEncoderBytes
  | TStreamRead => Encode_default (map_encoder to_reader (StreamEncoderRead usize_MAX))
  end.

Fixpoint decode_of `{Source D} `{CmDecoder D} `{PrimCodec} (t : ty) : Decode D (dval t) :=
  match t with
  | TPrim p => mkDecode (SyncDecoder (prim_core p)) (vec_decoder (SyncDecoder (prim_core p)))
  | TU8 => mkDecode (SyncDecoder u8_core) ResourceDecoder
  | TUnit => mkDecode UnitDecoder (vec_decoder UnitDecoder)
  | TResource => mkDecode ResourceDecoder (vec_decoder ResourceDecoder)
  | TOption t =>
      let dec := OptionDecoder (decode_dec (decode_of t)) in mkDecode dec (ListDecoder dec)
  | TResult t u =>
      let dec := ResultDecoder (decode_dec (decode_of t)) (decode_dec (decode_of u)) in
      mkDecode dec (ListDecoder dec)
  | TList t => let dec := decode_list (decode_of t) in mkDecode dec (ListDecoder dec)
  | TArray n t =>
      let dec := ArrayDecoder n (decode_dec (decode_of t)) in mkDecode dec (ListDecoder dec)
  | TTuple ts =>
      let dec := TupleDecoder
        ((fix decs (ts : list ty) : Decoders D (foldr (λ t A, (dval t * A)%type) unit ts) :=
            match ts with
            | [] => DNil
            | t :: ts => DCons (decode_dec (decode_of t)) (decs ts)
            end) ts) in
      mkDecode dec (ListDecoder dec)
  | TFuture t =>
      let dec := FutureDecoder (decode_dec (decode_of t)) in mkDecode dec (ListDecoder dec)
  | TStream t => let dec := StreamDecoder (decode_of t) in mkDecode dec (ListDecoder dec)
  | TStreamBytes | TStreamRead =>
      mkDecode StreamDecoderBytes (ListDecoder StreamDecoderBytes)
  end.

Lemma clean_encode_of `{Sink D} `{CmEncoder D} `{PrimCodec} t : clean (encode_enc (encode_of t)).
Proof.
  induction t using ty_ind_nested; cbn [encode_of].
  - by destruct p.
  - done.
  - done.
  - done.
  - exact IHt.
  - unfold clean. cbn. by rewrite IHt1, IHt2.
  - done.
  - done.
  - unfold clean. cbn [Encode_default encode_enc TupleEncoder enc_take_deferred enc_default].
    f_equal. unfold deferred_all.
    match goal with |- context [existsb ?f ?l] => replace (existsb f l) with false; [done|] end.
    induction ts as [|t ts IH]; [done|]. apply Forall_cons in H3 as (Ht & Hts).
    cbn [encs_default take_deferred_all fst snd existsb]. rewrite Ht. cbn [fst orb]. by apply IH.
  - done.
  - done.
  - done.
  - done.
Qed.

End codecs.

(** ** What values are packed as *)

Section wire.
Context `{Leb128} `{PrimCodec}.

(** The packed value: its asynchronous parts are all ready. *)
Fixpoint wire (t : ty) : val t → bytes :=
  match t with
  | TPrim p => prim_code p
  | TU8 => λ b, [b]
  | TUnit => λ _, []
  | TResource => λ bs, leb_encode (len bs) ++ bs
  | TOption t => λ v, match v with Some v => x01 :: wire t v | None => [x00] end
  | TResult t u => λ v, match v with inl v => x00 :: wire t v | inr v => x01 :: wire u v end
  | TList t => λ vs, leb_encode (len vs) ++ concat (map (wire t) vs)
  | TArray _ t => λ vs, concat (map (wire t) vs)
  | TTuple ts =>
      (fix go (ts : list ty) : foldr (λ t A, (val t * A)%type) unit ts → bytes :=
         match ts with
         | [] => λ _, []
         | t :: ts => λ v, wire t v.1 ++ go ts v.2
         end) ts
  | TFuture t => λ f, x01 :: wire t (fut_item f)
  | TStream t => λ s,
      x01 :: leb_encode (len (concat (stream_items s))) ++
      concat (map (wire t) (concat (stream_items s)))
  | TStreamBytes | TStreamRead => λ s,
      x01 :: leb_encode (len (concat (stream_items s))) ++ concat (stream_items s)
  end.

(** The value fits its type: integers and strings are those of the Rust types,
    arrays have their length, and lengths which are encoded fit [u32]. *)
Fixpoint fits (t : ty) : val t → Prop :=
  match t with
  | TPrim p => λ v, prim_ok p v = true
  | TU8 | TUnit => λ _, True
  | TResource => λ bs, (len bs ≤ u32_MAX)%N
  | TOption t => from_option (fits t) True
  | TResult t u => λ v, match v with inl v => fits t v | inr v => fits u v end
  | TList t => λ vs, (len vs ≤ u32_MAX)%N ∧ Forall (fits t) vs
  | TArray n t => λ vs, length vs = n ∧ Forall (fits t) vs
  | TTuple ts =>
      (fix go (ts : list ty) : foldr (λ t A, (val t * A)%type) unit ts → Prop :=
         match ts with
         | [] => λ _, True
         | t :: ts => λ v, fits t v.1 ∧ go ts v.2
         end) ts
  | TFuture t => λ f, fits t (fut_item f)
  | TStream t => λ s,
      (len (concat (stream_items s)) ≤ u32_MAX)%N ∧ Forall (fits t) (concat (stream_items s))
  | TStreamBytes => λ s, (len (concat (stream_items s)) ≤ u32_MAX)%N
  | TStreamRead => λ s,
      (len (concat (str_now s ++ str_later s)) ≤ u32_MAX)%N ∧
      Forall (.≠ []) (str_now s ++ str_later s)
  end.

(** A future or stream within the value is pending when it is encoded. *)
Fixpoint pending (t : ty) : val t → bool :=
  match t with
  | TPrim _ | TU8 | TUnit | TResource => λ _, false
  | TOption t => from_option (pending t) false
  | TResult t u => λ v, match v with inl v => pending t v | inr v => pending u v end
  | TList t | TArray _ t => existsb (pending t)
  | TTuple ts =>
      (fix go (ts : list ty) : foldr (λ t A, (val t * A)%type) unit ts → bool :=
         match ts with
         | [] => λ _, false
         | t :: ts => λ v, pending t v.1 || go ts v.2
         end) ts
  | TFuture t => λ f, negb (fut_ready f) || pending t (fut_item f)
  | TStream t => λ s, negb (str_end s) || existsb (pending t) (concat (stream_items s))
  | TStreamBytes | TStreamRead => λ s, negb (str_end s)
  end.

(** The value a decoder yields for the packed value *)
Fixpoint resolved (t : ty) : val t → dval t :=
  match t with
  | TPrim _ | TU8 | TUnit | TResource => λ v, v
  | TOption t => fmap (resolved t)
  | TResult t u => λ v, match v with inl v => inl (resolved t v) | inr v => inr (resolved u v) end
  | TList t | TArray _ t => map (resolved t)
  | TTuple ts =>
      (fix go (ts : list ty) :
          foldr (λ t A, (val t * A)%type) unit ts → foldr (λ t A, (dval t * A)%type) unit ts :=
         match ts with
         | [] => λ _, tt
         | t :: ts => λ v, (resolved t v.1, go ts v.2)
         end) ts
  | TFuture t => λ f, Some (resolved t (fut_item f))
  | TStream t => λ s, Some (ready_stream (map (resolved t) (concat (stream_items s))))
  | TStreamBytes | TStreamRead => λ s, Some (ready_stream (concat (stream_items s)))
  end.

(** The tokens the encoders append *)
Fixpoint tokens (t : ty) : val t → list token :=
  match t with
  | TPrim p => λ v, Plain <$> prim_code p v
  | TU8 => λ b, [Plain b]
  | TUnit => λ _, []
  | TResource => λ bs, Plain <$> (leb_encode (len bs) ++ bs)
  | TOption t => λ v, match v with Some v => Plain x01 :: tokens t v | None => [Plain x00] end
  | TResult t u => λ v,
      match v with inl v => Plain x00 :: tokens t v | inr v => Plain x01 :: tokens u v end
  | TList t => λ vs, (Plain <$> leb_encode (len vs)) ++ concat (map (tokens t) vs)
  | TArray _ t => λ vs, concat (map (tokens t) vs)
  | TTuple ts =>
      (fix go (ts : list ty) : foldr (λ t A, (val t * A)%type) unit ts → list token :=
         match ts with
         | [] => λ _, []
         | t :: ts => λ v, tokens t v.1 ++ go ts v.2
         end) ts
  | TFuture t => λ f,
      if fut_ready f then Plain x01 :: tokens t (fut_item f)
      else [Hole [x01 :: filled (tokens t (fut_item f))]]
  | TStream t => λ s,
      let ts := (Plain <$> leb_encode (len (concat (stream_items s)))) ++
                concat (map (tokens t) (concat (stream_items s))) in
      if str_end s then Plain x01 :: ts else [Hole [x01 :: filled ts]]
  | TStreamBytes => λ s, bytes_tokens (str_end s) (stream_items s)
  | TStreamRead => λ s, bytes_tokens (str_end s) [concat (stream_items s)]
  end.

Lemma filled_concat (tss : list (list token)) : filled (concat tss) = concat (map filled tss).
Proof. induction tss as [|ts tss IH]; [done|]. cbn [concat map]. by rewrite filled_app, IH. Qed.

Lemma filled_tokens_list t vs :
  (∀ v, filled (tokens t v) = wire t v) →
  filled (concat (map (tokens t) vs)) = concat (map (wire t) vs).
Proof. intros IH. rewrite filled_concat, map_map. f_equal. by apply map_ext. Qed.

Lemma filled_plain_cons b ts : filled (Plain b :: ts) = b :: filled ts.
Proof. done. Qed.

Lemma filled_hole buf : filled [Hole [buf]] = buf.
Proof. unfold filled. rewrite bind_cons. cbn. by rewrite !app_nil_r. Qed.

(** With its holes filled, the encoding is that of the value with its parts
    ready. *)
Lemma filled_tokens t v : filled (tokens t v) = wire t v.
Proof.
  revert v. induction t using ty_ind_nested; cbn [val tokens wire]; intros v.
  - apply filled_bytes.
  - done.
  - done.
  - apply filled_bytes.
  - destruct v; rewrite filled_plain_cons; by rewrite ?IHt.
  - destruct v; rewrite filled_plain_cons; by rewrite ?IHt1, ?IHt2.
  - by rewrite filled_app, filled_bytes, filled_tokens_list.
  - by apply filled_tokens_list.
  - induction ts as [|t ts IH]; [done|]. apply Forall_cons in H1 as (Ht & Hts).
    by rewrite filled_app, Ht, IH.
  - case_if; rewrite ?filled_plain_cons, ?filled_hole; by rewrite IHt.
  - case_if; rewrite ?filled_plain_cons, ?filled_hole, filled_app, filled_bytes;
      by rewrite filled_tokens_list.
  - apply filled_bytes_tokens.
  - rewrite filled_bytes_tokens. cbn [concat]. by rewrite app_nil_r.
Qed.

Lemma has_holes_concat (tss : list (list token)) : has_holes (concat tss) = existsb has_holes tss.
Proof. induction tss as [|ts tss IH]; [done|]. cbn [concat existsb]. by rewrite has_holes_app, IH. Qed.

Lemma has_holes_list t vs :
  (∀ v, has_holes (tokens t v) = pending t v) →
  has_holes (concat (map (tokens t) vs)) = existsb (pending t) vs.
Proof.
  intros IH. rewrite has_holes_concat. induction vs as [|v vs IHvs]; [done|].
  cbn [map existsb]. by rewrite IH, IHvs.
Qed.

Lemma has_holes_bytes_tokens ended chunks : has_holes (bytes_tokens ended chunks) = negb ended.
Proof. unfold bytes_tokens. destruct ended; [apply has_holes_bytes|done]. Qed.

(** The encoding has placeholders if a part of the value is pending. *)
Lemma has_holes_tokens t v : has_holes (tokens t v) = pending t v.
Proof.
  revert v. induction t using ty_ind_nested; cbn [val tokens pending]; intros v.
  - apply has_holes_bytes.
  - done.
  - done.
  - apply has_holes_bytes.
  - destruct v; [apply IHt|done].
  - destruct v; [apply IHt1|apply IHt2].
  - by rewrite has_holes_app, has_holes_bytes, has_holes_list.
  - by apply has_holes_list.
  - induction ts as [|t ts IH]; [done|]. apply Forall_cons in H1 as (Ht & Hts).
    by rewrite has_holes_app, Ht, IH.
  - case_if; [apply IHt|done].
  - case_if; [|done]. cbn [negb orb].
    change (has_holes ((Plain <$> leb_encode (len (concat (stream_items v)))) ++
      concat (map (tokens t) (concat (stream_items v)))) =
      existsb (pending t) (concat (stream_items v))).
    by rewrite has_holes_app, has_holes_bytes, has_holes_list.
  - apply has_holes_bytes_tokens.
  - apply has_holes_bytes_tokens.
Qed.

End wire.

(** ** Packing *)

Section packing.
Context (sched : Packing → Packing) (Hsched : ∀ l, sched l ≡ₚ l) `{Leb128} `{CoreName}.
Context `{CmEncoder Packing} {HCM : CmEncoderLaws Packing}.
Context `{PrimCodec} {HP : PrimLaws}.
#[local] Instance packing_sink : Sink Packing := Packer sched.

(** The encoder of a type, on a packer *)
Definition enc (t : ty) : Encoder Packing (val t) := encode_enc (encode_of t).

Lemma forall2_map {A} (P : A → Prop) (R : A → list token → Prop) (f : A → list token) vs :
  (∀ v, P v → R v (f v)) → Forall P vs → Forall2 R vs (map f vs).
Proof. intros HR. induction 1; constructor; auto. Qed.

(** What the encoder of a type does, alone and on the elements of sequences *)
Definition packs (t : ty) : Prop :=
  (∀ v, fits t v → packs_as (enc t) v (tokens t v)) ∧
  (∀ vs, Forall (fits t) vs → iter_packs (encode_of t) vs (map (tokens t) vs)).

(** Types with the provided methods of [Encode] *)
Lemma packs_default t E :
  encode_of t = Encode_default E →
  (∀ v, fits t v → packs_as E v (tokens t v)) → packs t.
Proof.
  intros Ht HE. unfold packs, enc. rewrite Ht. split; [exact HE|].
  intros vs Hvs. apply default_iter_packs; [done..|]. by eapply forall2_map.
Qed.

Lemma sync_code_packs p v :
  prim_ok p v = true →
  packs_as (SyncEncoder (prim_encode p)) v (Plain <$> prim_code p v).
Proof. intros. apply sync_packs. intros. by apply prim_encode_app. Qed.

Lemma packs_prim p : packs (TPrim p).
Proof.
  destruct (decide (p = PString)) as [->|Hp].
  { eapply packs_default; [done|]. intros v. apply sync_code_packs. }
  assert (encode_of (TPrim p) = Encode_copy (SyncEncoder (prim_encode p))) as Ht
    by (by destruct p).
  unfold packs, enc. rewrite Ht. split; [intros v; apply sync_code_packs|].
  intros vs Hvs. cbn [tokens].
  replace (map (λ v, Plain <$> prim_code p v) vs)
    with (map Plain <$> (map (prim_code p) vs)) by apply map_map.
  apply copy_iter_packs. induction Hvs; constructor; auto. intros. by apply prim_encode_app.
Qed.

Lemma packs_u8 : packs TU8.
Proof.
  split.
  - intros b _. apply (sync_packs u8_encode b [b]). intros. apply u8_encode_app.
  - intros vs _. apply u8_iter_packs.
Qed.

Lemma packs_option t : packs t → packs (TOption t).
Proof.
  intros (IH & _). eapply packs_default; [done|]. intros v Hv. cbn [tokens].
  destruct v as [v|]; cbn [fits from_option] in Hv.
  - apply (option_packs (enc t) (Some v)); [by apply IH|apply clean_encode_of].
  - apply (option_packs (enc t) None); [done|apply clean_encode_of].
Qed.

Lemma packs_result t u : packs t → packs u → packs (TResult t u).
Proof.
  intros (IH1 & _) (IH2 & _). eapply packs_default; [done|]. intros v Hv. cbn [tokens].
  destruct v as [v|v]; cbn [fits] in Hv.
  - apply (result_packs (enc t) (enc u) (inl v)); [apply clean_encode_of..|by apply IH1].
  - apply (result_packs (enc t) (enc u) (inr v)); [apply clean_encode_of..|by apply IH2].
Qed.

Lemma packs_list t : packs t → packs (TList t).
Proof.
  intros (_ & IH). eapply packs_default; [done|]. intros vs (Hlen & Hvs).
  apply (list_packs (encode_of t) vs); [by apply IH|done].
Qed.

Lemma packs_array n t : packs t → packs (TArray n t).
Proof.
  intros (_ & IH). eapply packs_default; [done|]. intros vs (_ & Hvs).
  apply (array_packs (encode_of t) vs). by apply IH.
Qed.

Lemma packs_tuple ts : Forall packs ts → packs (TTuple ts).
Proof.
  intros Hts. eapply packs_default; [done|]. intros v Hv.
  assert (∃ tss, tokens (TTuple ts) v = concat tss ∧
    tuple_packs_as
      ((fix encs (ts : list ty) : Encoders Packing (foldr (λ t A, (val t * A)%type) unit ts) :=
          match ts with
          | [] => ENil
          | t :: ts => ECons (encode_enc (encode_of t)) (encs ts)
          end) ts) v tss) as (tss & -> & Hp); [|by apply tuple_packs].
  cbn [val fits tokens] in *. induction Hts as [|t ts (IHt & _) _ IH].
  - by exists [].
  - destruct v as [v vs], Hv as (Hv & Hvs). cbn [fst snd] in *.
    destruct (IH vs Hvs) as (tss & Htss & Hp).
    exists (tokens t v :: tss). cbn [concat]. rewrite Htss. split; [done|].
    split; [by apply IHt|done].
Qed.

Lemma packs_future t : packs t → packs (TFuture t).
Proof.
  intros (IH & _). eapply packs_default; [done|]. intros f Hf.
  apply (future_packs sched Hsched (enc t) f). by apply IH.
Qed.

Lemma packs_stream t : packs t → packs (TStream t).
Proof.
  intros (_ & IH). eapply packs_default; [done|]. intros s (Hlen & Hs).
  apply (stream_packs sched Hsched (encode_of t) s).
  apply list_packs; [by apply IH|done].
Qed.

Lemma packs_stream_read : packs TStreamRead.
Proof.
  eapply packs_default; [done|]. intros [now is_end later] (Hlen & Hne).
  cbn [str_now str_later] in *. rewrite Forall_app, concat_app in *. destruct Hne as (Hn & Hl).
  rewrite len_app in Hlen.
  pose proof (stream_read_packs sched usize_MAX now is_end later Hn Hl) as Hp.
  assert (concat now ++ (if is_end then [] else concat later) =
    concat (stream_items (mkStream now is_end later))) as Hc.
  { unfold stream_items. cbn. rewrite concat_app. by destruct is_end. }
  rewrite Hc in Hp. apply Hp; rewrite <- ?Hc.
  - unfold usize_MAX, u32_MAX in *. lia.
  - destruct is_end; rewrite len_app, ?len_nil; lia.
Qed.

(** The encoders append the tokens of the value. *)
Lemma packs_all t : packs t.
Proof.
  induction t using ty_ind_nested.
  - apply packs_prim.
  - apply packs_u8.
  - eapply packs_default; [done|]. intros v _. apply (sync_packs _ v []).
    intros. by rewrite app_nil_r.
  - eapply packs_default; [done|]. intros v Hv. apply sync_packs. intros dst.
    rewrite vec_bytes_encode_spec. cbn [fits] in Hv. by rewrite u32_try_from_fit.
  - by apply packs_option.
  - by apply packs_result.
  - by apply packs_list.
  - by apply packs_array.
  - by apply packs_tuple.
  - by apply packs_future.
  - by apply packs_stream.
  - eapply packs_default; [done|]. intros s Hs. by apply stream_bytes_packs.
  - apply packs_stream_read.
Qed.

(** [pack] appends the value with all its futures and streams ready,
    whichever of them are ready when the value is encoded, and in whichever
    order the pending ones are resolved. *)
Theorem pack_correct t v dst :
  fits t v → pack sched (enc t) v dst = Ok (dst ++ wire t v).
Proof.
  intros Hv. destruct (packs_pack sched Hsched (enc t) v (tokens t v) dst) as (-> & _).
  - by apply (proj1 (packs_all t)).
  - by rewrite filled_tokens.
Qed.

(** [pack_ready] gives the result of [pack] if no future or stream within
    the value is pending, and fails with [WouldBlock] otherwise. *)
Theorem pack_ready_correct t v dst :
  fits t v →
  pack_ready (enc t) v dst =
  if pending t v then Err WouldBlock else pack sched (enc t) v dst.
Proof.
  intros Hv. destruct (packs_pack sched Hsched (enc t) v (tokens t v) dst) as (-> & ->).
  - by apply (proj1 (packs_all t)).
  - by rewrite has_holes_tokens.
Qed.

End packing.

(** ** Unpacking *)

Section unpacking.
Context {D : Type} `{Source D} `{Leb128} {HL : Leb128Laws} `{CmDecoder D} {HCM : CmDecoderLaws D}.
Context `{PrimCodec} {HP : PrimLaws}.

(** The decoder of a type *)
Definition dec (t : ty) : Decoder D (dval t) := decode_dec (decode_of t).

Lemma list_loop_reads {T} (Dec : Decoder D T) es vs ret cap rest :
  Forall2 (reads_as Dec) es vs → cap = len vs →
  ListDecoder_loop Dec (length vs) (mkListDecoder (dec_default Dec) ret cap []) (concat es ++ rest) =
  (Ok (Some (ret ++ vs)), mkListDecoder (dec_default Dec) [] 0 [], rest).
Proof.
  intros Hv. revert ret cap. induction Hv as [|e v es vs Hv _ IH]; intros ret cap ->.
  { cbn. by rewrite app_nil_r. }
  cbn [length concat ListDecoder_loop]. rewrite <- app_assoc. cbn [ld_dec ld_ret ld_cap ld_deferred].
  destruct (Hv (concat es ++ rest)) as (s & -> & ->). rewrite IH by (rewrite len_cons; lia).
  by rewrite <- app_assoc.
Qed.

Lemma list_decode_reads {T} (Dec : Decoder D T) es vs rest :
  Forall2 (reads_as Dec) es vs → (len vs ≤ u32_MAX)%N →
  ListDecoder_decode Dec (ListDecoder_new Dec (dec_default Dec))
    ((leb_encode (len vs) ++ concat es) ++ rest) =
  (Ok (Some vs), ListDecoder_new Dec (dec_default Dec), rest).
Proof.
  intros Hv Hlen. unfold ListDecoder_decode, ListDecoder_new. cbn [ld_cap].
  rewrite N.eqb_refl, <- app_assoc, leb_decode_encode by done.
  destruct (N.eqb_spec (len vs) 0) as [->%len_0|Hz].
  - by apply Forall2_nil_inv_r in Hv as ->.
  - rewrite to_nat_len. cbn [ld_dec ld_deferred]. by rewrite list_loop_reads.
Qed.

Lemma list_reads {T} (Dec : Decoder D T) es vs :
  Forall2 (reads_as Dec) es vs → (len vs ≤ u32_MAX)%N →
  reads_as (ListDecoder Dec) (leb_encode (len vs) ++ concat es) vs.
Proof. intros Hv Hlen rest. eexists. split; [by apply list_decode_reads|done]. Qed.

Lemma array_loop_reads {T} (Dec : Decoder D T) es vs ret rest :
  Forall2 (reads_as Dec) es vs →
  ArrayDecoder_loop Dec (length vs) (mkArrayDecoder (dec_default Dec) ret []) (concat es ++ rest) =
  (Ok (Some (ret ++ vs)), mkArrayDecoder (dec_default Dec) [] [], rest).
Proof.
  intros Hv. revert ret. induction Hv as [|e v es vs Hv _ IH]; intros ret.
  { cbn. by rewrite app_nil_r. }
  cbn [length concat ArrayDecoder_loop]. rewrite <- app_assoc. cbn [ad_dec ad_ret ad_deferred].
  destruct (Hv (concat es ++ rest)) as (s & -> & ->). rewrite IH. by rewrite <- app_assoc.
Qed.

Lemma array_reads {T} (Dec : Decoder D T) es vs :
  Forall2 (reads_as Dec) es vs → reads_as (ArrayDecoder (length vs) Dec) (concat es) vs.
Proof.
  intros Hv rest. cbn [ArrayDecoder dec_decode dec_default]. unfold ArrayDecoder_decode.
  cbn [ad_ret length]. rewrite Nat.sub_0_r, array_loop_reads by done. by eexists.
Qed.

(** Decoders whose default state holds no operation *)
Definition dec_clean {T} (Dec : Decoder D T) : Prop :=
  (dec_take_deferred Dec (dec_default Dec)).1 = None.

Lemma option_reads {T} (Dec : Decoder D T) e v :
  dec_clean Dec → from_option (reads_as Dec e) (e = []) v →
  reads_as (OptionDecoder Dec) ((if v then x01 else x00) :: e) v.
Proof.
  intros Hc Hv rest. cbn [OptionDecoder dec_decode dec_default app dec_take_deferred].
  destruct v as [v|]; cbn [from_option] in Hv.
  - destruct (Hv rest) as (s & Hd & Ht). rewrite (option_decode_some _ _ _ _ _ _ _ Hd).
    eexists. split; [done|]. by rewrite option_into_wrap, Ht.
  - subst e. rewrite option_decode_none. eexists. split; [done|]. by rewrite option_into_wrap, Hc.
Qed.

Lemma result_reads {A B} (F : Decoder D A) (G : Decoder D B) e v :
  dec_clean F → dec_clean G →
  match v with inl v => reads_as F e v | inr v => reads_as G e v end →
  reads_as (ResultDecoder F G) ((if v then x00 else x01) :: e) v.
Proof.
  intros HF HG Hv rest. cbn [ResultDecoder dec_decode dec_default app dec_take_deferred].
  destruct v as [v|v]; destruct (Hv rest) as (s & Hd & Ht).
  - rewrite (result_decode_ok _ _ _ _ _ _ _ _ _ _ Hd). eexists. split; [done|].
    by rewrite result_into_wrap, Ht, HG.
  - rewrite (result_decode_err _ _ _ _ _ _ _ _ _ _ Hd). eexists. split; [done|].
    by rewrite result_into_wrap, Ht, HF.
Qed.

(** The components of a tuple, with their codes *)
Fixpoint tuple_reads_as {A} (Decs : Decoders D A) : list bytes → A → Prop :=
  match Decs with
  | DNil => λ es _, es = []
  | DCons Dec Decs => λ es v,
      match es with
      | e :: es => reads_as Dec e v.1 ∧ tuple_reads_as Decs es v.2
      | [] => False
      end
  end.

Lemma tuple_reads {A} (Decs : Decoders D A) es v :
  tuple_reads_as Decs es v → reads_as (TupleDecoder Decs) (concat es) v.
Proof.
  intros Hv rest.
  assert (∃ s, decs_run Decs (decs_default Decs) (concat es ++ rest) = Some (v, s, rest) ∧
    any_deferred (take_deferred_in Decs s) = false) as (s & Hr & Ht).
  { revert es v Hv rest. induction Decs as [|A B Dec Decs IH]; intros es v Hv rest;
      cbn [tuple_reads_as] in Hv.
    - subst es. destruct v. by exists tt.
    - destruct es as [|e es], v as [v vs]; [done|]. destruct Hv as (Hv & Hvs).
      cbn [concat decs_default decs_run fst snd]. rewrite <- app_assoc.
      destruct (Hv (concat es ++ rest)) as (s & Hd & Ht). cbn [fst] in Hd. rewrite Hd.
      destruct (IH es vs Hvs rest) as (ss & Hr & Hts). rewrite Hr. exists (s, ss).
      split; [done|]. unfold any_deferred in *. cbn [take_deferred_in fst snd existsb].
      by rewrite Ht, Hts. }
  exists (tuple_wrap Decs s). cbn [TupleDecoder dec_decode dec_default dec_take_deferred].
  rewrite (tuple_decode_run _ _ _ _ _ _ _ Hr), tuple_into_wrap. split; [done|].
  unfold deferred_all_in. by rewrite Ht.
Qed.

Lemma future_reads {T} (Dec : Decoder D T) e v :
  reads_as Dec e v → reads_as (FutureDecoder Dec) (x01 :: e) (Some v).
Proof.
  intros Hv rest. destruct (Hv rest) as (s & Hd & Ht).
  cbn [FutureDecoder dec_decode dec_default dec_take_deferred app]. unfold FutureDecoder_decode.
  cbn [as_dec]. rewrite (option_decode_some _ _ _ _ _ _ _ Hd).
  cbn [OptionDecoder dec_take_deferred]. rewrite option_into_wrap, Ht. by eexists.
Qed.

Lemma stream_reads {T} (C : Decode D T) e vs :
  reads_as (decode_list C) e vs → reads_as (StreamDecoder C) (x01 :: e) (Some (ready_stream vs)).
Proof.
  intros Hv rest. destruct (Hv rest) as (s & Hd & Ht).
  cbn [StreamDecoder dec_decode dec_default dec_take_deferred app]. unfold StreamDecoder_decode.
  cbn [as_dec]. rewrite (option_decode_some _ _ _ _ _ _ _ Hd).
  cbn [OptionDecoder dec_take_deferred]. rewrite option_into_wrap, Ht. by eexists.
Qed.

Lemma core_reads_as {T} (C : Core T) e v : core_reads C e v → reads_as (D := D) (SyncDecoder C) e v.
Proof. intros Hc rest. eexists. split; [apply Hc|done]. Qed.

Lemma stream_bytes_reads bs :
  (len bs ≤ u32_MAX)%N →
  reads_as (D := D) StreamDecoderBytes (x01 :: leb_encode (len bs) ++ bs) (Some (ready_stream bs)).
Proof.
  intros Hlen rest. pose proof (vec_bytes_decode (D := D) bs Hlen rest) as Hd.
  cbn [StreamDecoderBytes dec_decode dec_default dec_take_deferred app].
  unfold StreamDecoderBytes_decode. cbn [as_dec].
  rewrite (option_decode_some _ vec_bytes_decoder _ _ _ _ _ Hd). by eexists.
Qed.

Lemma clean_dec t : dec_clean (dec t) ∧ dec_clean (decode_list (decode_of t)).
Proof.
  unfold dec, dec_clean. induction t using ty_ind_nested; cbn; try done.
  - rewrite option_into_wrap. split; [apply IHt|done].
  - rewrite result_into_wrap. destruct IHt1 as (-> & _), IHt2 as (-> & _). done.
  - split; [apply IHt|done].
  - rewrite tuple_into_wrap. split; [|done]. unfold deferred_all_in.
    match goal with |- context [any_deferred ?l] => replace (any_deferred l) with false; [done|] end.
    induction ts as [|t ts IH]; [done|]. apply Forall_cons in H3 as ((Ht & _) & Hts).
    unfold any_deferred in *. cbn [decs_default take_deferred_in fst snd existsb].
    rewrite Ht. cbn [orb]. by apply IH.
Qed.

(** What the decoders of a type do with the codes of values and of lists *)
Definition reads_list (t : ty) (L : Decoder D (list (dval t))) : Prop :=
  ∀ vs, Forall (fits t) vs → (len vs ≤ u32_MAX)%N →
    reads_as L (leb_encode (len vs) ++ concat (map (wire t) vs)) (map (resolved t) vs).

Definition reads (t : ty) : Prop :=
  (∀ v, fits t v → reads_as (dec t) (wire t v) (resolved t v)) ∧ reads_list t (decode_list (decode_of t)).

Lemma forall2_reads {T} (Dec : Decoder D T) t (r : val t → T) vs :
  (∀ v, fits t v → reads_as Dec (wire t v) (r v)) → Forall (fits t) vs →
  Forall2 (reads_as Dec) (map (wire t) vs) (map r vs).
Proof. intros HD. induction 1; constructor; auto. Qed.

Lemma len_map {A B} (f : A → B) l : len (map f l) = len l.
Proof. unfold len. by rewrite length_map. Qed.

(** Types whose lists are decoded by [ListDecoder], and by [CoreVecDecoder] *)
Lemma reads_list_decoder t :
  (∀ v, fits t v → reads_as (dec t) (wire t v) (resolved t v)) → reads_list t (ListDecoder (dec t)).
Proof.
  intros HD vs Hvs Hlen. rewrite <- (len_map (resolved t)).
  apply list_reads; [by apply forall2_reads|by rewrite len_map].
Qed.

Lemma reads_vec_decoder t :
  (∀ v, fits t v → core_reads (dec_core (dec t)) (wire t v) (resolved t v)) →
  reads_list t (vec_decoder (dec t)).
Proof.
  intros HD vs Hvs Hlen. rewrite <- (len_map (resolved t)). apply core_reads_as, vec_decode.
  - clear Hlen. induction Hvs; constructor; auto.
  - by rewrite len_map.
Qed.

Lemma concat_singletons {A} (vs : list A) : concat (map (λ v, [v]) vs) = vs.
Proof. induction vs as [|v vs IH]; [done|]. cbn [map concat app]. by rewrite IH. Qed.

Lemma resource_reads bs :
  (len bs ≤ u32_MAX)%N → reads_as (D := D) ResourceDecoder (leb_encode (len bs) ++ bs) bs.
Proof.
  intros Hlen rest. eexists. split; [|done].
  apply (vec_bytes_decode (D := D) bs Hlen rest).
Qed.

Lemma reads_u8 : reads TU8.
Proof.
  split; [intros b _; apply core_reads_as, u8_decode_code|]. intros vs _ Hlen.
  cbn [decode_of decode_list wire resolved]. rewrite concat_singletons, map_id.
  by apply resource_reads.
Qed.

Lemma reads_tuple_fields ts v :
  Forall reads ts → fits (TTuple ts) v → reads_as (dec (TTuple ts)) (wire (TTuple ts) v) (resolved (TTuple ts) v).
Proof.
  intros Hts Hv.
  assert (∃ es, wire (TTuple ts) v = concat es ∧
    tuple_reads_as
      ((fix decs (ts : list ty) : Decoders D (foldr (λ t A, (dval t * A)%type) unit ts) :=
          match ts with
          | [] => DNil
          | t :: ts => DCons (decode_dec (decode_of t)) (decs ts)
          end) ts) es (resolved (TTuple ts) v)) as (es & -> & Hr); [|by apply tuple_reads].
  cbn [val dval fits wire resolved] in *. induction Hts as [|t ts (IHt & _) _ IH].
  - by exists [].
  - destruct v as [v vs], Hv as (Hv & Hvs). cbn [fst snd] in *.
    destruct (IH vs Hvs) as (es & Hes & Hr).
    exists (wire t v :: es). cbn [concat]. rewrite Hes. split; [done|]. split; [by apply IHt|done].
Qed.

Lemma reads_all t : reads t.
Proof.
  assert (∀ t, (∀ v, fits t v → reads_as (dec t) (wire t v) (resolved t v)) →
    decode_list (decode_of t) = ListDecoder (dec t) → reads t) as Hlist.
  { intros u Hu Hl. split; [done|]. rewrite Hl. by apply reads_list_decoder. }
  assert (∀ t, (∀ v, fits t v → core_reads (dec_core (dec t)) (wire t v) (resolved t v)) →
    (∀ s, dec_take_deferred (dec t) s = (None, s)) →
    decode_list (decode_of t) = vec_decoder (dec t) → reads t) as Hvec.
  { intros u Hu Hs Hl. split; [|rewrite Hl; by apply reads_vec_decoder].
    intros v Hv rest. exists (dec_default (dec u)). split; [by apply (Hu v Hv)|apply Hs]. }
  induction t using ty_ind_nested.
  - apply Hvec; [|done..]. intros v Hv. by apply prim_decode_code.
  - apply reads_u8.
  - apply Hvec; [|done..]. by intros [] _ rest.
  - apply Hvec; [|done..]. intros v Hv. by apply (vec_bytes_decode (D := D)).
  - apply Hlist; [|done]. intros v Hv. destruct IHt as (IH & _).
    destruct v as [v|]; [apply (option_reads _ _ (Some (resolved t v)))|
      apply (option_reads _ _ None)]; try apply clean_dec; [by apply IH|done].
  - apply Hlist; [|done]. intros v Hv. destruct IHt1 as (IH1 & _), IHt2 as (IH2 & _).
    destruct v as [v|v].
    + apply (result_reads _ _ _ (inl (resolved t1 v))); [apply clean_dec..|by apply IH1].
    + apply (result_reads _ _ _ (inr (resolved t2 v))); [apply clean_dec..|by apply IH2].
  - apply Hlist; [|done]. intros vs (Hlen & Hvs). by apply IHt.
  - apply Hlist; [|done]. intros vs (Hlen & Hvs). destruct IHt as (IH & _).
    pose proof (array_reads (dec t) _ _ (forall2_reads _ _ _ _ IH Hvs)) as Ha.
    rewrite length_map in Ha.
    match type of Ha with context [ArrayDecoder ?k] => replace k with n in Ha by (by symmetry) end.
    exact Ha.
  - apply Hlist; [|done]. intros v. by apply reads_tuple_fields.
  - apply Hlist; [|done]. intros v Hv. by apply future_reads, IHt.
  - apply Hlist; [|done]. intros s (Hlen & Hvs). by apply (stream_reads (decode_of t)), IHt.
  - apply Hlist; [|done]. intros s Hs. by apply stream_bytes_reads.
  - apply Hlist; [|done]. intros s (Hs & _). apply stream_bytes_reads. etrans; [|exact Hs].
    unfold stream_items. case_if; rewrite ?app_nil_r, ?concat_app, ?len_app; lia.
Qed.

Lemma unpack_wire t v :
  fits t v →
  unpack (dec t) (wire t v) = Ok (resolved t v) ∧
  ∀ b rest, unpack (dec t) (wire t v ++ b :: rest) = Err InvalidData.
Proof.
  intros Hv. pose proof (proj1 (reads_all t) v Hv) as Hr. split; [|intros b rest]; unfold unpack.
  - destruct (Hr []) as (s & Hd & Ht). rewrite app_nil_r in Hd. rewrite Hd. simp_res.
    by rewrite Ht.
  - destruct (Hr (b :: rest)) as (s & Hd & Ht). rewrite Hd. simp_res. by rewrite Ht.
Qed.

End unpacking.

Section roundtrip.
Context (sched : Packing → Packing) (Hsched : ∀ l, sched l ≡ₚ l) `{Leb128} {HL : Leb128Laws}.
Context `{CmEncoder Packing} {HCE : CmEncoderLaws Packing} `{PrimCodec} {HP : PrimLaws}.
Context {D : Type} `{Source D} `{CmDecoder D} {HCM : CmDecoderLaws D}.

(** [C8] A packed value is unpacked to the value, its futures and streams
    ready with all their elements; with bytes after it, it is rejected. *)
Theorem pack_unpack t v :
  fits t v →
  ∃ buf, pack sched (enc sched t) v [] = Ok buf ∧
    unpack (dec (D := D) t) buf = Ok (resolved t v) ∧
    ∀ b rest, unpack (dec (D := D) t) (buf ++ b :: rest) = Err InvalidData.
Proof.
  intros Hv. exists (wire t v).
  destruct (packs_pack sched Hsched (enc sched t) v (tokens t v) []) as (-> & _).
  - by apply packs_all.
  - rewrite filled_tokens. split; [done|]. by apply unpack_wire.
Qed.

End roundtrip.
