(* ===== verification/ValuesStd.v ===== *)
(** * An instance of the codecs of values

    The codecs of [wasm-tokio] the development is parametric in, as the
    encodings of the component model define them: the laws the theorems on
    packed values assume hold for them, and the theorems apply to concrete
    values. *)

From S2P Require Import Prelude Wire FrameCodec Prims Wave Encode Pack Decode Values.

(** ** Encoders *)

Fixpoint tuple_encode_std {D A} (Es : Encoders D A) :
    encs_state Es → A → bytes → io_result (bytes * encs_state Es) :=
  match Es with
  | ENil => λ s _ dst, Ok (dst, s)
  | ECons E Es => λ s v dst,
      let? (dst, s1) := enc_encode E s.1 v.1 dst in
      let? (dst, s2) := tuple_encode_std Es s.2 v.2 dst in
      Ok (dst, (s1, s2))
  end.

#[global] Instance cm_encoder_std D : CmEncoder D := {|
  option_encode T E s v dst :=
    match v with
    | None => Ok (dst ++ [x00], s)
    | Some v => enc_encode E s v (dst ++ [x01])
    end;
  result_encode A B E F s v dst :=
    match v with
    | inl v => let? (dst, s1) := enc_encode E s.1 v (dst ++ [x00]) in Ok (dst, (s1, s.2))
    | inr v => let? (dst, s2) := enc_encode F s.2 v (dst ++ [x01]) in Ok (dst, (s.1, s2))
    end;
  tuple_encode A Es := tuple_encode_std Es;
  vec_bytes_encode bs dst :=
    let? n := u32_try_from (len bs) in Ok (dst ++ @leb_encode leb128_std n ++ bs)
|}.

Lemma cm_encoder_std_laws D : @CmEncoderLaws D leb128_std (cm_encoder_std D).
Proof. by split. Qed.

(** ** Decoders *)

Definition option_inner {D T} (Dec : Decoder D T) (s : dec_state Dec) (bs : bytes) :
    io_result (option (option T)) * (bool * dec_state Dec) * bytes :=
  match dec_decode Dec s bs with
  | (Ok (Some v), s, rest) => (Ok (Some (Some v)), (false, s), rest)
  | (Ok None, s, rest) => (Ok None, (true, s), rest)
  | (Err e, s, rest) => (Err e, (false, s), rest)
  end.

Definition result_inner {D A B} (F : Decoder D A) (G : Decoder D B) (ok : bool)
    (s : dec_state F * dec_state G) (bs : bytes) :
    io_result (option (A + B)) * (option bool * (dec_state F * dec_state G)) * bytes :=
  if ok then
    match dec_decode F s.1 bs with
    | (Ok (Some v), s1, rest) => (Ok (Some (inl v)), (None, (s1, s.2)), rest)
    | (Ok None, s1, rest) => (Ok None, (Some ok, (s1, s.2)), rest)
    | (Err e, s1, rest) => (Err e, (None, (s1, s.2)), rest)
    end
  else
    match dec_decode G s.2 bs with
    | (Ok (Some v), s2, rest) => (Ok (Some (inr v)), (None, (s.1, s2)), rest)
    | (Ok None, s2, rest) => (Ok None, (Some ok, (s.1, s2)), rest)
    | (Err e, s2, rest) => (Err e, (None, (s.1, s2)), rest)
    end.

#[global] Instance source_unit : Source unit := {|
  handle_deferred_in _ := tt;
  receive_future _ _ _ := tt;
  receive_stream _ _ := tt;
  receive_stream_bytes _ _ := tt
|}.

(** The components of a tuple which were decoded *)
Fixpoint progress {D A} (Decs : Decoders D A) : Type :=
  match Decs with
  | DNil => unit
  | @DCons _ A B Dec Decs => option A * progress Decs
  end.

Fixpoint no_progress {D A} (Decs : Decoders D A) : progress Decs :=
  match Decs with
  | DNil => tt
  | DCons Dec Decs => (None, no_progress Decs)
  end.

Fixpoint tuple_decode_std {D A} (Decs : Decoders D A) :
    decs_state Decs * progress Decs → bytes →
    io_result (option A) * (decs_state Decs * progress Decs) * bytes :=
  match Decs with
  | DNil => λ s bs, (Ok (Some tt), s, bs)
  | DCons Dec Decs => λ s bs,
      let others v s1 bs :=
        match tuple_decode_std Decs (s.1.2, s.2.2) bs with
        | (Ok (Some vs), s2, bs) => (Ok (Some (v, vs)), ((s1, s2.1), (None, s2.2)), bs)
        | (Ok None, s2, bs) => (Ok None, ((s1, s2.1), (Some v, s2.2)), bs)
        | (Err e, s2, bs) => (Err e, ((s1, s2.1), (None, s2.2)), bs)
        end in
      match s.2.1 with
      | Some v => others v s.1.1 bs
      | None =>
          match dec_decode Dec s.1.1 bs with
          | (Ok (Some v), s1, bs) => others v s1 bs
          | (Ok None, s1, bs) => (Ok None, ((s1, s.1.2), s.2), bs)
          | (Err e, s1, bs) => (Err e, ((s1, s.1.2), s.2), bs)
          end
      end
  end.

#[global] Instance cm_decoder_std D : CmDecoder D := {|
  option_state T Dec := (bool * dec_state Dec)%type;
  option_wrap T Dec s := (false, s);
  option_into_inner T Dec s := s.2;
  option_decode T Dec s bs :=
    if s.1 : bool then option_inner Dec s.2 bs
    else
      match bs with
      | [] => (Ok None, s, [])
      | b :: bs =>
          if decide (b = x00) then (Ok (Some None), s, bs)
          else if decide (b = x01) then option_inner Dec s.2 bs
          else (Err InvalidData, s, bs)
      end;
  result_state A B F G := (option bool * (dec_state F * dec_state G))%type;
  result_wrap A B F G s t := (None, (s, t));
  result_into_inner A B F G s := s.2;
  result_decode A B F G s bs :=
    match s.1, bs with
    | Some ok, _ => result_inner F G ok s.2 bs
    | None, [] => (Ok None, s, [])
    | None, b :: bs =>
        if decide (b = x00) then result_inner F G true s.2 bs
        else if decide (b = x01) then result_inner F G false s.2 bs
        else (Err InvalidData, s, bs)
    end;
  tuple_state A Decs := (decs_state Decs * progress Decs)%type;
  tuple_wrap A Decs s := (s, no_progress Decs);
  tuple_into_inner A Decs s := s.1;
  tuple_decode A Decs := tuple_decode_std Decs;
  vec_core T Dec := 
    dec_core (@ListDecoder unit source_unit leb128_std T (SyncDecoder (dec_core Dec)));
  vec_bytes_core :=
    mkCore unit tt (λ s src,
      match @leb_decode_u32 leb128_std src with
      | Err e => (Err e, s, src)
      | Ok None => (Ok None, s, src)
      | Ok (Some (n, rest)) =>
          if (len rest <? n)%N then (Ok None, s, src)
          else (Ok (Some (take (N.to_nat n) rest)), s, drop (N.to_nat n) rest)
      end)
|}.

Lemma cm_decoder_std_laws D : @CmDecoderLaws D leb128_std (cm_decoder_std D).
Proof.
  pose proof leb128_std_laws. split; try done.
  - intros T Dec s s' bs v rest Hd. cbn. unfold option_inner. by rewrite Hd.
  - intros A B F G s s' t bs v rest Hd. cbn. by rewrite Hd.
  - intros A B F G s t t' bs v rest Hd. cbn. by rewrite Hd.
  - intros A Decs. cbn. induction Decs as [|A B Dec Decs IH]; intros s s' bs v rest Hr;
      cbn [decs_run tuple_decode_std no_progress] in *.
    + by injection Hr as <- <- <-.
    + destruct s as [sd sds]. cbn [fst snd] in *.
      destruct (dec_decode Dec sd bs) as [[[[v1|]|] s1] bs1]; try done.
      destruct (decs_run Decs sds bs1) as [[[vs s2] bs2]|] eqn:E; [|done].
      injection Hr as <- <- <-. cbn [fst snd].
      match goal with |- context [tuple_decode_std Decs ?st bs1] =>
        assert (tuple_decode_std Decs st bs1 = (Ok (Some vs), (s2, no_progress Decs), bs2)) as ->
          by exact (IH _ _ _ _ _ E) end. done.
  - intros T Dec es vs Hv Hlen rest. apply (list_decode_reads (SyncDecoder (dec_core Dec)) es vs rest);
      [|done]. eapply Forall2_impl; [exact Hv|]. intros e v He rest'. eexists. split; [apply He|done].
  - intros bs Hlen rest. cbn [vec_bytes_core cm_decoder_std core_decode core_default].
    rewrite <- app_assoc, leb_decode_encode by done.
    destruct (N.ltb_spec (len (bs ++ rest)) (len bs)) as [Hlt|_]; [rewrite len_app in Hlt; lia|].
    by rewrite to_nat_len, take_app_length, drop_app_length.
Qed.

(** ** Primitive types *)

Definition read_core {T} (rd : bytes → io_result (T * bytes)) : Core T :=
  mkCore unit tt (λ s src,
    match rd src with
    | Ok (v, rest) => (Ok (Some v), s, rest)
    | Err UnexpectedEof => (Ok None, s, src)
    | Err e => (Err e, s, src)
    end).

Definition prim_bytes (p : prim) : prim_val p → bytes :=
  match p with
  | PBool => λ b, [byte_of_N (if b then 1 else 0)]
  | PS8 => λ z, [byte_of_Z z]
  | PS16 | PS32 | PS64 => @sleb_encode value_wire_std
  | PU16 | PU32 | PU64 => @leb_encode leb128_std
  | PF32 => le_bytes 4
  | PF64 => le_bytes 8
  | PChar => @char_encode value_wire_std
  | PString => λ s, @leb_encode leb128_std (len s) ++ s
  end.

Definition prim_read (p : prim) : bytes → io_result (prim_val p * bytes) :=
  match p with
  | PBool => @read_bool value_wire_std
  | PS8 => read_i8
  | PS16 => @sleb_read value_wire_std 16
  | PS32 => @sleb_read value_wire_std 32
  | PS64 => @sleb_read value_wire_std 64
  | PU16 => @leb_read leb128_std 16
  | PU32 => @leb_read leb128_std 32
  | PU64 => @leb_read leb128_std 64
  | PF32 => read_le 4
  | PF64 => read_le 8
  | PChar => @char_read value_wire_std
  | PString => @name_read value_wire_std
  end.

#[global] Instance prim_codec_std : PrimCodec := {|
  prim_encode p v dst := Ok (dst ++ prim_bytes p v);
  prim_core p := read_core (prim_read p);
  u8_encode b dst := Ok (dst ++ [b]);
  u8_core := read_core read_u8
|}.

Lemma in_s_range w z :
  ((- 2 ^ (w - 1) <=? z) && (z <? 2 ^ (w - 1)))%Z = true → (- 2 ^ (w - 1) ≤ z < 2 ^ (w - 1))%Z.
Proof. rewrite andb_true_iff, Z.leb_le, Z.ltb_lt. done. Qed.

Lemma prim_read_bytes p v rest :
  prim_ok p v = true → prim_read p (prim_bytes p v ++ rest) = Ok (v, rest).
Proof.
  pose proof leb128_std_laws as HL. pose proof value_wire_std_laws as HV.
  destruct p; cbn [prim_val] in v; cbn [prim_read prim_bytes prim_ok]; intros Hv.
  - apply (read_bool_spec (ValueWireLaws := HV) v).
  - apply read_i8_byte_of_Z, (in_s_range 8 v Hv).
  - apply (sleb_read_encode (ValueWireLaws := HV)); [set_solver|apply (in_s_range 16 v Hv)].
  - apply leb_read_encode; [set_solver|by apply N.ltb_lt].
  - apply (sleb_read_encode (ValueWireLaws := HV)); [set_solver|apply (in_s_range 32 v Hv)].
  - apply leb_read_encode; [set_solver|by apply N.ltb_lt].
  - apply (sleb_read_encode (ValueWireLaws := HV)); [set_solver|apply (in_s_range 64 v Hv)].
  - apply leb_read_encode; [set_solver|by apply N.ltb_lt].
  - by apply read_le_le_bytes, N.ltb_lt.
  - by apply read_le_le_bytes, N.ltb_lt.
  - by apply (char_read_encode (ValueWireLaws := HV)).
  - apply andb_true_iff in Hv as (Hu & Hl%N.leb_le). rewrite <- app_assoc.
    by apply (name_read_encode (ValueWireLaws := HV)).
Qed.

Lemma prim_codec_std_laws : @PrimLaws prim_codec_std.
Proof.
  split.
  - done.
  - intros p v Hv rest. cbn. by rewrite prim_read_bytes.
  - done.
  - done.
Qed.

(** ** Concrete values *)

(** A pending future of a list of futures, one of which is pending, a pending
    stream of strings, and a reader which waits. *)
Definition test_ty : ty :=
  TTuple [TFuture (TList (TFuture (TPrim PU32))); TStream (TPrim PString); TStreamRead].

Definition test_val : val test_ty :=
  (mkFuture false [mkFuture true 300%N; mkFuture false 7%N],
   (mkStream [[[x61]]] false [[]; [[x62; x63]; []]],
    (mkStream [[x01; x02]] false [[x03]], tt))).

Definition test_packed : bytes :=
  [x01; x02; x01; xac; x02; x01; x07; x01; x03; x01; x61; x02; x62; x63; x00; x01; x03; x01; x02; x03].

(** The encoder, with the futures finishing in the reverse order, and the
    decoder *)
Definition enc_std (t : ty) : Encoder Packing (val t) :=
  @enc reverse leb128_std (cm_encoder_std Packing) prim_codec_std t.
Definition dec_std (t : ty) : Decoder unit (dval t) :=
  @dec unit source_unit leb128_std (cm_decoder_std unit) prim_codec_std t.

Example pack_test : pack reverse (enc_std test_ty) test_val [x00] = Ok (x00 :: test_packed).
Proof. vm_compute. reflexivity. Qed.

Example unpack_pending_test : unpack (dec_std (TFuture (TPrim PU32))) [x00] = Err InvalidData.
Proof. vm_compute. reflexivity. Qed.

Lemma test_fits : fits test_ty test_val.
Proof.
  split; [|split; [|split; [|exact I]]].
  - split; [vm_compute; discriminate|].
    apply Forall_cons_2; [reflexivity|]. apply Forall_cons_2; [reflexivity|]. apply Forall_nil_2.
  - split; [vm_compute; discriminate|].
    apply Forall_cons_2; [reflexivity|]. apply Forall_cons_2; [reflexivity|].
    apply Forall_cons_2; [reflexivity|]. apply Forall_nil_2.
  - split; [vm_compute; discriminate|].
    apply Forall_cons_2; [done|]. apply Forall_cons_2; [done|]. apply Forall_nil_2.
Qed.

Lemma reverse_sched (l : Packing) : reverse l ≡ₚ l.
Proof. apply reverse_Permutation. Qed.

Lemma pack_correct_witness :
  pack reverse (enc_std test_ty) test_val [] = Ok ([] ++ @wire leb128_std prim_codec_std test_ty test_val).
Proof.
  apply (@pack_correct reverse reverse_sched leb128_std (cm_encoder_std Packing)
    (cm_encoder_std_laws Packing) prim_codec_std prim_codec_std_laws test_ty test_val []).
  exact test_fits.
Defined.

Lemma pack_ready_correct_witness : pack_ready (enc_std test_ty) test_val [] = Err WouldBlock.
Proof.
  apply (@pack_ready_correct reverse reverse_sched leb128_std (cm_encoder_std Packing)
    (cm_encoder_std_laws Packing) prim_codec_std prim_codec_std_laws test_ty test_val []).
  exact test_fits.
Defined.

Lemma pack_unpack_witness :
  ∃ buf, pack reverse (enc_std test_ty) test_val [] = Ok buf ∧
    unpack (dec_std test_ty) buf = Ok (resolved test_ty test_val).
Proof.
  destruct (@pack_unpack reverse reverse_sched leb128_std leb128_std_laws (cm_encoder_std Packing)
    (cm_encoder_std_laws Packing) prim_codec_std prim_codec_std_laws unit source_unit
    (cm_decoder_std unit) (cm_decoder_std_laws unit) test_ty test_val test_fits)
    as (buf & Hp & Hu & _).
  exists buf. split; [exact Hp|exact Hu].
Defined.
