(* ===== verification/Typed.v ===== *)
(** * Values of [wasm_wave] as packed values

    Model of [crates/wave/src/typed.rs]: the encoder of values paired with
    their types, which makes them values of the transport.  The theorems show
    that such a value is packed as what [decode_value] decodes, and that it has
    the encoding of the Rust value it stands for. *)

From S2P Require Import Prelude Wire FrameCodec Prims Wave Encode Pack Decode Values ValuesStd.

Section typed.
Context {D T V : Type} `{!WasmValue T V} {HL : Leb128} {HC : CoreName} {HW : ValueWire}.

(** [TypedValueEncoder]; a value is paired with its type, and [n] bounds its
    depth. *)
Definition TypedValueEncoder (n : nat) : Encoder D (V * T) :=
  SyncEncoder (λ v dst, ok_or Other (Wave.encode n v.2 v.1 dst)).

End typed.

Section packed.
Context {T V : Type} `{!WasmValue T V} {HL : Leb128} {HC : CoreName} {HW : ValueWire}.
Context {HLL : Leb128Laws} {HCL : CoreNameLaws} {HWL : ValueWireLaws} {HVL : WasmValueLaws T V}.

(** A value paired with its type is packed without waiting, and what is
    packed decodes to the value. *)
Theorem typed_value_packed n ty v dst :
  has_type n ty v →
  ∃ e, pack_ready (TypedValueEncoder n) (v, ty) dst = Ok (dst ++ e) ∧ decode_value n e ty = Ok v.
Proof.
  intros (e & He & Hr)%codes_value. exists e. split.
  - unfold pack_ready, Encode.encode. cbn. by rewrite He.
  - unfold decode_value. specialize (Hr []). rewrite app_nil_r in Hr. by rewrite Hr.
Qed.

End packed.

(** ** Agreement with the encoders of Rust values *)

Definition wave_prim_ty (p : prim) : TypeView CType :=
  match p with
  | PBool => KBool | PS8 => KS8 | PS16 => KS16 | PU16 => KU16 | PS32 => KS32 | PU32 => KU32
  | PS64 => KS64 | PU64 => KU64 | PF32 => KF32 | PF64 => KF64 | PChar => KChar | PString => KString
  end.

Definition wave_prim (p : prim) : prim_val p → ValueView CValue :=
  match p with
  | PBool => VBool | PS8 => VS8 | PS16 => VS16 | PU16 => VU16 | PS32 => VS32 | PU32 => VU32
  | PS64 => VS64 | PU64 => VU64 | PF32 => VF32 | PF64 => VF64 | PChar => VChar | PString => VString
  end.

(** The types of [wasm_wave] of Rust types; futures, streams and resources have
    none. *)
Fixpoint wave_ty (t : ty) : CType :=
  ct match t with
     | TPrim p => wave_prim_ty p
     | TU8 => KU8
     | TOption t => KOption (Some (wave_ty t))
     | TResult t u => KResult (Some (Some (wave_ty t), Some (wave_ty u)))
     | TList t => KList (Some (wave_ty t))
     | TTuple ts => KTuple (map wave_ty ts)
     | _ => KUnsupported
     end.

Fixpoint wave_val (t : ty) : val t → CValue :=
  match t with
  | TPrim p => λ v, cv (wave_prim p v)
  | TU8 => λ b, cv (VU8 (Byte.to_N b))
  | TOption t => λ v, cv (VOption (wave_val t <$> v))
  | TResult t u => λ v,
      cv match v with
         | inl v => VResult true (Some (wave_val t v))
         | inr v => VResult false (Some (wave_val u v))
         end
  | TList t => λ vs, cv (VList (map (wave_val t) vs))
  | TTuple ts => λ v,
      cv (VTuple
        ((fix go (ts : list ty) : foldr (λ t A, (val t * A)%type) unit ts → list CValue :=
            match ts with
            | [] => λ _, []
            | t :: ts => λ v, wave_val t v.1 :: go ts v.2
            end) ts v))
  | _ => λ _, cv VUnsupported
  end.

Fixpoint wave_supported (t : ty) : bool :=
  match t with
  | TPrim _ | TU8 => true
  | TOption t | TList t => wave_supported t
  | TResult t u => wave_supported t && wave_supported u
  | TTuple ts => forallb wave_supported ts
  | _ => false
  end.

Fixpoint ty_depth (t : ty) : nat :=
  S match t with
    | TOption t | TList t => ty_depth t
    | TResult t u => ty_depth t `max` ty_depth u
    | TTuple ts => max_list (map ty_depth ts)
    | _ => 0
    end.

Section agreement.
#[local] Existing Instance leb128_std.
#[local] Existing Instance name_std.
#[local] Existing Instance value_wire_std.

(** The encoder of [wasm_wave] values appends the packed Rust value. *)
Definition agrees (t : ty) : Prop :=
  wave_supported t = true →
  ∀ n v dst, ty_depth t ≤ n → fits t v →
    Wave.encode n (wave_ty t) (wave_val t v) dst = Some (dst ++ wire t v).

Lemma encode_list_agrees t n vs dst :
  (∀ v dst, fits t v → Wave.encode n (wave_ty t) (wave_val t v) dst = Some (dst ++ wire t v)) →
  Forall (fits t) vs →
  Wave.encode_list (Wave.encode n (wave_ty t)) (map (wave_val t) vs) dst =
  Some (dst ++ concat (map (wire t) vs)).
Proof.
  intros IH Hvs. revert dst. induction Hvs as [|v vs Hv _ IHvs]; intros dst.
  { cbn. by rewrite app_nil_r. }
  cbn [map Wave.encode_list concat]. rewrite IH by done. cbn [mbind option_bind].
  by rewrite IHvs, app_assoc.
Qed.

Lemma prim_agrees p : agrees (TPrim p).
Proof.
  intros _ n v dst Hn Hv. destruct n as [|n]; [simpl in Hn; lia|].
  destruct p; cbn [fits prim_ok] in Hv; try reflexivity.
  cbn [wave_val Wave.encode val_view concrete_value cv_view wave_prim].
  apply andb_true_iff in Hv as (_ & Hl%N.leb_le).
  by rewrite (name_encode_fit (CoreNameLaws := name_std_laws)).
Qed.

Lemma tuple_agrees ts : Forall agrees ts → agrees (TTuple ts).
Proof.
  intros Hts Hsup n v dst Hn Hv. destruct n as [|n]; [simpl in Hn; lia|].
  cbn [wave_supported ty_depth] in Hsup, Hn. apply le_S_n in Hn.
  cbn [wave_val wave_ty Wave.encode val_view concrete_value cv_view wire].
  unfold tuple_element_types. cbn [ty_view concrete_value ct_view].
  cbn [val fits] in v, Hv. revert dst. induction Hts as [|t ts Ht Hts IH]; intros dst.
  { cbn. by rewrite app_nil_r. }
  cbn [forallb map max_list_with] in Hsup, Hn. unfold id in Hn at 1. apply andb_true_iff in Hsup as (Ht1 & Hts1).
  destruct v as [v vs], Hv as (Hv & Hvs). cbn [fst snd map encode_zip] in *.
  rewrite (Ht Ht1 n v) by (done || lia). cbn [mbind option_bind].
  rewrite IH by (done || lia). by rewrite app_assoc.
Qed.

Lemma agrees_all t : agrees t.
Proof.
  induction t using ty_ind_nested; try done.
  - apply prim_agrees.
  - intros _ n v dst Hn Hv. destruct n as [|n]; [simpl in Hn; lia|].
    cbn [wave_val Wave.encode val_view concrete_value cv_view wire]. by rewrite byte_of_N_to_N.
  - intros Hsup n v dst Hn Hv. destruct n as [|n]; [simpl in Hn; lia|]. apply le_S_n in Hn.
    destruct v as [v|]; [|done]. cbn [fits from_option] in Hv.
    cbn [wave_val wave_ty Wave.encode val_view concrete_value cv_view wire fmap option_fmap option_map].
    unfold option_some_type. cbn [ty_view concrete_value ct_view mbind option_bind].
    by rewrite IHt, <- app_assoc.
  - intros Hsup n v dst Hn Hv. destruct n as [|n]; [simpl in Hn; lia|].
    cbn [ty_depth wave_supported] in Hn, Hsup. apply le_S_n in Hn. apply andb_true_iff in Hsup as (H1 & H2).
    destruct v as [v|v]; cbn [fits] in Hv;
      cbn [wave_val wave_ty Wave.encode val_view concrete_value cv_view wire];
      unfold encode_result, result_types; cbn [ty_view concrete_value ct_view mbind option_bind];
      [rewrite IHt1|rewrite IHt2]; rewrite <- ?app_assoc; done || lia.
  - intros Hsup n vs dst Hn (Hlen & Hvs). destruct n as [|n]; [simpl in Hn; lia|].
    apply le_S_n in Hn.
    cbn [wave_val wave_ty Wave.encode val_view concrete_value cv_view wire].
    rewrite len_map, u32_try_from_fit by done.
    unfold list_element_type. cbn [ty_view concrete_value ct_view mbind option_bind].
    rewrite encode_list_agrees; [by rewrite <- app_assoc| |done].
    intros v d Hv. by apply IHt.
  - by apply tuple_agrees.
Qed.

(** Values without futures and streams are not pending. *)
Lemma supported_ready t v : wave_supported t = true → pending t v = false.
Proof.
  revert v. induction t using ty_ind_nested; intros v Hsup; try done.
  - destruct v as [v|]; [by apply IHt|done].
  - cbn [wave_supported] in Hsup. apply andb_true_iff in Hsup as (H1 & H2).
    destruct v as [v|v]; [by apply IHt1|by apply IHt2].
  - cbn [pending val] in *. induction v as [|w v IHv]; [done|]. cbn [existsb].
    by rewrite IHt, IHv.
  - cbn [pending val wave_supported] in *. induction H as [|t ts Ht _ IH]; [done|].
    apply andb_true_iff in Hsup as (H1 & H2). by rewrite Ht, IH.
Qed.

(** With the codecs of [ValuesStd], a value of [wasm_wave] has the encoding of the
    Rust value it stands for: both are packed as the same bytes. *)
Theorem wave_agrees_with_pack t v n dst :
  wave_supported t = true → fits t v → ty_depth t ≤ n →
  pack_ready (TypedValueEncoder n) (wave_val t v, wave_ty t) dst = pack_ready (enc_std t) v dst.
Proof.
  intros Hsup Hv Hn.
  destruct (packs_pack reverse reverse_sched (enc_std t) v (tokens t v) dst) as (_ & ->).
  { apply (@packs_all reverse reverse_sched leb128_std (cm_encoder_std Packing)
      (cm_encoder_std_laws Packing) prim_codec_std prim_codec_std_laws t). exact Hv. }
  rewrite has_holes_tokens, supported_ready, filled_tokens by done.
  unfold pack_ready, Encode.encode. cbn [TypedValueEncoder SyncEncoder enc_encode fst snd].
  by rewrite agrees_all.
Qed.

End agreement.

Lemma typed_value_packed_witness :
  ∃ e, pack_ready (@TypedValueEncoder _ CType CValue concrete_value leb128_std name_std value_wire_std 3)
         (test_value, test_type) [] = Ok ([] ++ e).
Proof.
  destruct (@typed_value_packed CType CValue concrete_value leb128_std name_std value_wire_std
    leb128_std_laws name_std_laws value_wire_std_laws concrete_value_laws
    3 test_type test_value []) as (e & He & _).
  - unfold test_type, test_value. cbn. repeat (constructor; cbn); try lia.
    all: repeat constructor; try (vm_compute; congruence).
  - exists e. exact He.
Defined.

Lemma wave_agrees_with_pack_witness :
  pack_ready (@TypedValueEncoder _ CType CValue concrete_value leb128_std name_std value_wire_std 3)
    (wave_val (TOption (TList (TPrim PU32))) (Some [1; 300]%N), wave_ty (TOption (TList (TPrim PU32)))) [] =
  pack_ready (enc_std (TOption (TList (TPrim PU32)))) (Some [1; 300]%N) [].
Proof.
  apply wave_agrees_with_pack.
  - reflexivity.
  - split; [vm_compute; discriminate|].
    apply Forall_cons_2; [reflexivity|]. apply Forall_cons_2; [reflexivity|]. apply Forall_nil_2.
  - vm_compute. lia.
Defined.
