(* ===== verification/Transmit.v ===== *)
(** * Transmission of pending values

    Model of [impl Sink for Outgoing] and of [handle_deferred] on outgoing
    handles, in [crates/transport/src/value.rs]: how the futures and streams
    which are pending when a value is encoded are written to the sub-streams of
    a connection.

    A deferred operation takes a handle and yields its writes, in the order of
    one of its executions.  Operations on different elements run
    concurrently, but each writes to paths of its own, so that the data of each
    path does not depend on their interleaving.  [flush] says whether a batch
    is sent, when there is room in the queue, before the next chunk is
    encoded. *)

From S2P Require Import Prelude Wire FrameCodec Subscriptions Resolve Conn Delivery Egress.
From S2P Require Import Encode Pack Decode Values ValuesStd.

Abbreviation OutgoingFn := (Outgoing → result ErrorKind (list write)).

Definition MAX_PENDING_STREAM_BATCH : N := 2 ^ 20.
Definition u64_MAX : N := 2 ^ 64 - 1.

Section sink.
Context `{Leb128} (flush : nat → bool).

(** The operations of the elements with their handles; [index] is called on
    all of them first. *)
Fixpoint index_all (w : Outgoing) (i : N) (deferred : list (option OutgoingFn)) :
    io_result (list (OutgoingFn * Outgoing)) :=
  match deferred with
  | [] => Ok []
  | None :: deferred => index_all w (N.succ i) deferred
  | Some f :: deferred =>
      let? w' := Outgoing_index w [i] in
      let? futs := index_all w (N.succ i) deferred in
      Ok ((f, w') :: futs)
  end.

Fixpoint run_all (futs : list (OutgoingFn * Outgoing)) : io_result (list write) :=
  match futs with
  | [] => Ok []
  | (f, w) :: futs =>
      let? s := f w in
      let? ss := run_all futs in
      Ok (s ++ ss)
  end.

(** [handle_deferred] *)
Definition Outgoing_handle_deferred (deferred : list (option OutgoingFn)) : OutgoingFn :=
  λ w, let? futs := index_all w 0 deferred in run_all futs.

(** [Outgoing::write_future] *)
Definition Outgoing_write_future {T} (E : Encoder OutgoingFn T) (_ : N) (item : T) : OutgoingFn :=
  λ w,
    let? (buf, s) := enc_encode E (enc_default E) item [] in
    let first := match buf with [] => WriteClose w | _ => WriteBytes w buf end in
    match (enc_take_deferred E s).1 with
    | Some f => let? rest := f w in Ok (first :: rest)
    | None => Ok [first]
    end.

(** [for (i, item) in zip(i.., chunk)] *)
Fixpoint encode_chunk {T} (E : Encoder OutgoingFn T) (w : Outgoing) (i : N) (chunk : list T)
    (s : enc_state E) (buf : bytes) (deferred : list (OutgoingFn * Outgoing)) :
    io_result (enc_state E * bytes * list (OutgoingFn * Outgoing)) :=
  match chunk with
  | [] => Ok (s, buf, deferred)
  | item :: chunk =>
      let? (buf, s) := enc_encode E s item buf in
      let '(d, s) := enc_take_deferred E s in
      match d with
      | Some f =>
          let? w' := Outgoing_index w [i] in
          encode_chunk E w (N.succ i) chunk s buf (deferred ++ [(f, w')])
      | None => encode_chunk E w (N.succ i) chunk s buf deferred
      end
  end.

(** The loop of [Outgoing::write_stream]: [k] chunks were received, with [i]
    elements. *)
Fixpoint stream_loop {T} (E : Encoder OutgoingFn T) (w : Outgoing) (k : nat) (i : N)
    (s : enc_state E) (buf : bytes) (deferred : list (OutgoingFn * Outgoing))
    (items : list (list T)) : io_result (list write) :=
  match items with
  | [] =>
      let? ss := run_all deferred in
      Ok (WriteBytes w (buf ++ [x00]) :: ss)
  | [] :: items => stream_loop E w (S k) i s buf deferred items
  | chunk :: items =>
      let? n := u32_try_from (len chunk) in
      if (u64_MAX <? i + n)%N then Err InvalidInput
      else
        let? (s, buf, deferred) := encode_chunk E w i chunk s (buf ++ leb_encode n) deferred in
        if flush k || (MAX_PENDING_STREAM_BATCH <=? len buf)%N then
          let? ss := run_all deferred in
          let? rest := stream_loop E w (S k) (i + n) s [] [] items in
          Ok (WriteReserved w buf :: ss ++ rest)
        else stream_loop E w (S k) (i + n) s buf deferred items
  end.

(** [Outgoing::write_stream] *)
Definition Outgoing_write_stream {T} (E : Encoder OutgoingFn T) (_ : Encoder OutgoingFn (list T))
    (_ : N) (items : list (list T)) : OutgoingFn :=
  λ w, stream_loop E w 0 0 (enc_default E) [] [] items.

(** The loop of [Outgoing::write_stream_bytes] *)
Fixpoint bytes_loop (w : Outgoing) (k : nat) (buf : bytes) (items : list bytes) :
    io_result (list write) :=
  match items with
  | [] => Ok [WriteBytes w (buf ++ [x00])]
  | [] :: items => bytes_loop w (S k) buf items
  | chunk :: items =>
      let? n := u32_try_from (len chunk) in
      let buf := buf ++ leb_encode n ++ chunk in
      if flush k || (MAX_PENDING_STREAM_BATCH <=? len buf)%N then
        let? rest := bytes_loop w (S k) [] items in
        Ok (WriteReserved w buf :: rest)
      else bytes_loop w (S k) buf items
  end.

(** [Outgoing::write_stream_bytes] *)
Definition Outgoing_write_stream_bytes (_ : N) (items : list bytes) : OutgoingFn :=
  λ w, bytes_loop w 0 [] items.

(** The loop of [Outgoing::write_stream_read]; a read of no bytes is the end. *)
Fixpoint read_loop (w : Outgoing) (k : nat) (buf : bytes) (items : list (io_result bytes)) :
    io_result (list write) :=
  match items with
  | [] | Ok [] :: _ => Ok [WriteBytes w (buf ++ [x00])]
  | Err e :: _ => Err e
  | Ok chunk :: items =>
      let? n := u32_try_from (len chunk) in
      let buf := buf ++ leb_encode n ++ chunk in
      if flush k || (MAX_PENDING_STREAM_BATCH <=? len buf)%N then
        let? rest := read_loop w (S k) [] items in
        Ok (WriteReserved w buf :: rest)
      else read_loop w (S k) buf items
  end.

(** [Outgoing::write_stream_read]: the header of the bytes which are ready is
    written first; they are sent before anything is read if they are a batch,
    or if there is room. *)
Definition Outgoing_write_stream_read (_ : N) (buf : bytes) (items : Reader) : OutgoingFn :=
  λ w,
    match buf with
    | [] => read_loop w 0 [] (Pack.reads items)
    | _ =>
        let? n := u32_try_from (len buf) in
        let? rest :=
          if flush 0 || (MAX_PENDING_STREAM_BATCH <=? len buf)%N then
            let? rest := read_loop w 1 [] (Pack.reads items) in
            Ok (WriteReserved w buf :: rest)
          else read_loop w 1 buf (Pack.reads items) in
        Ok (WriteBytes w (leb_encode n) :: rest)
    end.

#[global] Instance OutgoingSink : Sink OutgoingFn := {|
  handle_deferred := Outgoing_handle_deferred;
  write_future := @Outgoing_write_future;
  write_stream := @Outgoing_write_stream;
  write_stream_bytes := Outgoing_write_stream_bytes;
  write_stream_read := Outgoing_write_stream_read
|}.

End sink.

(** ** What is sent *)

(** The data of paths relative to that of a handle, in pieces *)
Abbreviation traffic := (list (list N * list bytes)).

(** The data on the path [q], for a handle of the path [p] *)
Definition content (p : list N) (tr : traffic) (q : list N) : bytes :=
  concat ((λ x, concat x.2) <$> filter (λ x, p ++ x.1 = q) tr).

(** Two traffics are the same if they carry the same data on every path. *)
Definition same_traffic (tr tr' : traffic) : Prop := ∀ p q, content p tr q = content p tr' q.
Infix "≃" := same_traffic (at level 70, no associativity).

(** What is at paths of the element [i], such as traffic *)
Definition push {A} (i : N) (tr : list (list N * A)) : list (list N * A) :=
  (λ x, (i :: x.1, x.2)) <$> tr.

(** What is at paths of the elements from [i] *)
Fixpoint indexed {A} (i : N) (trs : list (list (list N * A))) : list (list N * A) :=
  match trs with
  | [] => []
  | tr :: trs => push i tr ++ indexed (N.succ i) trs
  end.

(** No data is on the path of the handle itself. *)
Definition away (tr : traffic) : Prop := Forall (λ x, x.1 ≠ []) tr.

(** The pieces with the bytes of a batch which is not full fit a frame. *)
Definition MAX_PIECE : N := MAX_FRAME_DATA - MAX_PENDING_STREAM_BATCH.

(** The paths fit the integers of the framing, and the pieces fit frames. *)
Definition fit_path (p : list N) : Prop := (len p ≤ u32_MAX)%N ∧ Forall (λ i, i ≤ u32_MAX)%N p.
Definition fit_traffic (p : list N) (tr : traffic) : Prop :=
  Forall (λ x, fit_path (p ++ x.1) ∧ Forall (λ d, len d ≤ MAX_PIECE)%N x.2) tr.

Lemma content_app p tr tr' q : content p (tr ++ tr') q = content p tr q ++ content p tr' q.
Proof. unfold content. by rewrite filter_app, fmap_app, concat_app. Qed.

Lemma content_cons p x tr q :
  content p (x :: tr) q = (if decide (p ++ x.1 = q) then concat x.2 else []) ++ content p tr q.
Proof. unfold content. rewrite filter_cons. by destruct (decide _). Qed.

Lemma content_push p i tr q : content p (push i tr) q = content (p ++ [i]) tr q.
Proof.
  induction tr as [|x tr IH]; [done|]. unfold push. rewrite fmap_cons, !content_cons. cbn [fst snd].
  rewrite <- app_assoc. cbn [app]. fold (push i tr). by rewrite IH.
Qed.

Lemma content_away p tr : away tr → content p tr p = [].
Proof.
  induction 1 as [|x tr Hx _ IH]; [done|]. rewrite content_cons, IH, decide_False; [done|].
  intros Hp. apply (f_equal length) in Hp. rewrite length_app in Hp.
  destruct (x.1); [done|]. simpl in Hp. lia.
Qed.

#[global] Instance same_traffic_equiv : Equivalence same_traffic.
Proof.
  split; unfold same_traffic; [by intros tr p q|by intros tr tr' Ht p q|].
  intros tr1 tr2 tr3 H1 H2 p q. by rewrite H1.
Qed.

#[global] Instance same_traffic_app : Proper (same_traffic ==> same_traffic ==> same_traffic) (++).
Proof. intros tr1 tr1' H1 tr2 tr2' H2 p q. by rewrite !content_app, H1, H2. Qed.

#[global] Instance same_traffic_cons x : Proper (same_traffic ==> same_traffic) (cons x).
Proof. intros tr tr' Ht p q. by rewrite !content_cons, Ht. Qed.

(** The data of the handle commutes with that of its elements. *)
Lemma same_traffic_own tr ds tr' : away tr → tr ++ ([], ds) :: tr' ≃ ([], ds) :: tr ++ tr'.
Proof.
  intros Ha p q. rewrite content_app, !content_cons, content_app. cbn [fst snd]. rewrite app_nil_r.
  destruct (decide (p = q)) as [->|]; [|done]. by rewrite content_away.
Qed.

Lemma same_traffic_join ds es tr : ([], ds) :: ([], es) :: tr ≃ ([], ds ++ es) :: tr.
Proof.
  intros p q. rewrite !content_cons. cbn [fst snd]. case_decide; [|done].
  by rewrite concat_app, app_assoc.
Qed.

Lemma away_push i tr : away (push i tr).
Proof. apply Forall_fmap, Forall_true. done. Qed.

Lemma away_indexed i trs : away (indexed i trs).
Proof.
  revert i. induction trs as [|tr trs IH]; intros i; [constructor|].
  apply Forall_app. split; [apply away_push|apply IH].
Qed.

Lemma indexed_app {A} i (trs trs' : list (list (list N * A))) :
  indexed i (trs ++ trs') = indexed i trs ++ indexed (i + len trs) trs'.
Proof.
  revert i. induction trs as [|tr trs IH]; intros i; cbn [app indexed].
  - by rewrite N.add_0_r.
  - rewrite IH, <- app_assoc. do 3 f_equal. len_lia.
Qed.

(** ** The encoders on outgoing handles *)

Section transmit.
Context (flush : nat → bool) `{Leb128} {HL : Leb128Laws} `{CoreName}.
Context `{CmEncoder OutgoingFn} {HCM : CmEncoderLaws OutgoingFn}.
#[local] Instance outgoing_sink : Sink OutgoingFn := OutgoingSink flush.

(** The writes [r] are the traffic [tr] of a handle of the path [p]. *)
Definition transmits (p : list N) (r : io_result (list write)) (tr : traffic) : Prop :=
  ∃ wrs, r = Ok wrs ∧ Forall write_ok wrs ∧ ∀ q, written_on q wrs = content p tr q.

(** The deferred operation sends the traffic; there is one if there is
    traffic. *)
Definition delivers (d : option OutgoingFn) (tr : traffic) : Prop :=
  (d = None ↔ tr = []) ∧
  ∀ f o, d = Some f → outgoing_handle o → fit_traffic (out_path o) tr →
    transmits (out_path o) (f o) tr.

#[global] Instance transmits_proper p r : Proper (same_traffic ==> iff) (transmits p r).
Proof.
  intros tr tr' Ht. unfold transmits. split; intros (wrs & ? & ? & Hw); exists wrs;
    (split; [done|split; [done|]]); intros q; by rewrite Hw, Ht.
Qed.

Lemma written_on_app q wrs wrs' : written_on q (wrs ++ wrs') = written_on q wrs ++ written_on q wrs'.
Proof. unfold written_on. by rewrite filter_app, fmap_app, concat_app. Qed.

Lemma transmits_nil p : transmits p (Ok []) [].
Proof. by exists []. Qed.

Lemma transmits_app p r r' tr tr' :
  transmits p r tr → transmits p r' tr' →
  transmits p (let? ws := r in let? ws' := r' in Ok (ws ++ ws')) (tr ++ tr').
Proof.
  intros (ws & -> & Hw & Hc) (ws' & -> & Hw' & Hc'). simp_res. exists (ws ++ ws').
  split; [done|]. split; [by apply Forall_app|]. intros q.
  by rewrite written_on_app, content_app, Hc, Hc'.
Qed.

(** A write on the path of the handle, before others *)
Lemma transmits_cons wr r tr :
  write_ok wr → transmits (out_path (write_handle wr)) r tr →
  transmits (out_path (write_handle wr)) (let? ws := r in Ok (wr :: ws)) (([], [write_data wr]) :: tr).
Proof.
  intros Hwr (ws & -> & Hw & Hc). simp_res. exists (wr :: ws). split; [done|].
  split; [by constructor|]. intros q. rewrite content_cons, <- Hc. cbn [fst snd concat].
  rewrite !app_nil_r. unfold written_on. rewrite filter_cons. by destruct (decide _).
Qed.

Lemma run_all_app p futs futs' tr tr' :
  transmits p (run_all futs) tr → transmits p (run_all futs') tr' →
  transmits p (run_all (futs ++ futs')) (tr ++ tr').
Proof.
  intros (ws & Hr & Hw & Hc) (ws' & Hr' & Hw' & Hc'). exists (ws ++ ws').
  split; [|split; [by apply Forall_app|]].
  - clear Hw Hc. revert ws Hr. induction futs as [|[f w] futs IH]; intros ws Hr; cbn [run_all app] in *.
    + by injection Hr as <-.
    + apply rbind_ok in Hr as (s & -> & Hr). apply rbind_ok in Hr as (ss & Hs & Hr).
      simp_res. rewrite (IH _ Hs). simp_res. by rewrite <- app_assoc.
  - intros q. by rewrite written_on_app, content_app, Hc, Hc'.
Qed.

(** ** Indexing *)

Lemma fit_path_prefix p q : fit_path (p ++ q) → fit_path p.
Proof.
  intros (Hl & Hf). rewrite len_app in Hl. apply Forall_app in Hf as (Hf & _). split; [lia|done].
Qed.

Lemma fit_traffic_push p i tr : fit_traffic p (push i tr) → fit_traffic (p ++ [i]) tr.
Proof.
  unfold fit_traffic, push. rewrite Forall_fmap. intros Hf. eapply Forall_impl; [exact Hf|].
  intros x. cbn [compose fst snd]. by rewrite <- app_assoc.
Qed.

Lemma index_fits o i :
  outgoing_handle o → fit_path (out_path o ++ [i]) →
  ∃ o', Outgoing_index o [i] = Ok o' ∧ outgoing_handle o' ∧ out_path o' = out_path o ++ [i].
Proof.
  intros Ho (Hl & Hf). destruct (Outgoing_index o [i]) as [o'|e] eqn:Hi.
  - exists o'. split; [done|]. split; [by eapply outgoing_handle_index|].
    by apply Outgoing_index_ok in Hi as (? & _).
  - exfalso. unfold Outgoing_index in Hi.
    replace (match out_path o with [] => [i] | _ => out_path o ++ [i] end) with (out_path o ++ [i])
      in Hi by (by destruct (out_path o)).
    rewrite u32_try_from_fit in Hi by done. simp_res. by rewrite encode_path_spec in Hi.
Qed.

(** The operation of the element [i], with its handle *)
Lemma delivers_element o i f tr :
  outgoing_handle o → delivers (Some f) tr → fit_traffic (out_path o) (push i tr) →
  ∃ o', Outgoing_index o [i] = Ok o' ∧ transmits (out_path o) (run_all [(f, o')]) (push i tr).
Proof.
  intros Ho (Hn & Hd) Hf. destruct (index_fits o i Ho) as (o' & Hi & Ho' & Hp).
  { destruct tr as [|x tr]; [by destruct Hn as (_ & Hn); discriminate Hn|].
    apply Forall_cons in Hf as ((Hf & _) & _). cbn [fst] in Hf.
    apply (fit_path_prefix _ x.1). by rewrite <- app_assoc. }
  exists o'. split; [done|]. apply fit_traffic_push in Hf. rewrite <- Hp in Hf.
  destruct (Hd f o' eq_refl Ho' Hf) as (ws & Hr & Hw & Hc). exists ws.
  cbn [run_all]. rewrite Hr. simp_res. rewrite app_nil_r. split; [done|]. split; [done|].
  intros q. by rewrite Hc, Hp, content_push.
Qed.

Lemma index_all_transmits o i ds trs :
  outgoing_handle o → Forall2 delivers ds trs → fit_traffic (out_path o) (indexed i trs) →
  ∃ futs, index_all o i ds = Ok futs ∧ transmits (out_path o) (run_all futs) (indexed i trs).
Proof.
  intros Ho Hd. revert i. induction Hd as [|d tr ds trs Hd _ IH]; intros i Hf; cbn [indexed] in *.
  { exists []. split; [done|apply transmits_nil]. }
  apply Forall_app in Hf as (Hf & Hfs). destruct (IH _ Hfs) as (futs & Hi & Ht).
  destruct d as [f|]; cbn [index_all].
  - destruct (delivers_element o i f tr) as (o' & -> & Ht'); [done..|].
    simp_res. rewrite Hi. simp_res. eexists. split; [done|]. by apply (run_all_app _ [(f, o')]).
  - destruct Hd as (Hn & _). rewrite (proj1 Hn eq_refl). eauto.
Qed.

Lemma delivers_none : delivers None [].
Proof. by split. Qed.

Lemma delivers_some f tr :
  tr ≠ [] →
  (∀ o, outgoing_handle o → fit_traffic (out_path o) tr → transmits (out_path o) (f o) tr) →
  delivers (Some f) tr.
Proof. intros Ht Hf. split; [done|]. intros ? o [= <-]. apply Hf. Qed.

Lemma delivers_all ds trs : Forall2 delivers ds trs → delivers (deferred_all ds) (indexed 0 trs).
Proof.
  intros Hd.
  assert (∀ i, existsb (λ d : option OutgoingFn, if d then true else false) ds = false ↔
    indexed i trs = []) as He.
  { induction Hd as [|d tr ds trs (Hn & _) _ IH]; [done|]. intros i. cbn [existsb indexed].
    rewrite orb_false_iff, app_nil, (IH (N.succ i)). apply and_iff_compat_r.
    transitivity (tr = []); [rewrite <- Hn; by destruct d|by destruct tr]. }
  unfold deferred_all. specialize (He 0%N). destruct (existsb _ ds).
  - apply delivers_some; [by rewrite <- He|]. intros o Ho Hf.
    cbn [handle_deferred outgoing_sink OutgoingSink]. unfold Outgoing_handle_deferred.
    destruct (index_all_transmits o 0 ds trs) as (futs & -> & Ht); [done..|]. by simp_res.
  - rewrite (proj1 He eq_refl). apply delivers_none.
Qed.

(** ** The encoders *)

(** Encoding the value appends [e], and the deferred operation sends [tr]. *)
Definition sends_as {T} (E : Encoder OutgoingFn T) (v : T) (x : bytes * traffic) : Prop :=
  ∀ dst, ∃ d s,
    enc_encode E (enc_default E) v dst = Ok (dst ++ x.1, s) ∧
    enc_take_deferred E s = (d, enc_default E) ∧ delivers d x.2.

(** The same for the methods on sequences *)
Definition iter_sends {T} (C : Encode OutgoingFn T) (items : list T) (xs : list (bytes * traffic)) :
    Prop :=
  (∀ dst, ∃ d, encode_iter C items (enc_default (encode_enc C)) dst = Ok (d, dst ++ concat xs.*1) ∧
     delivers d (indexed 0 xs.*2)) ∧
  ((len items ≤ u32_MAX)%N →
   ∀ dst, ∃ d, encode_list C items (enc_default (encode_enc C)) dst =
               Ok (d, dst ++ leb_encode (len items) ++ concat xs.*1) ∧
     delivers d (indexed 0 xs.*2)).

Lemma encode_items_sends {T} (E : Encoder OutgoingFn T) items xs dst ds :
  Forall2 (sends_as E) items xs →
  ∃ ds', encode_items E items (enc_default E) dst ds = Ok (ds ++ ds', dst ++ concat xs.*1) ∧
    Forall2 delivers ds' xs.*2.
Proof.
  intros Hp. revert dst ds. induction Hp as [|v x items xs Hv _ IH]; intros dst ds.
  { exists []. cbn. by rewrite !app_nil_r. }
  destruct (Hv dst) as (d & s & He & Ht & Hd).
  destruct (IH (dst ++ x.1) (ds ++ [d])) as (ds' & Hi & Hds).
  exists (d :: ds'). cbn [encode_items]. rewrite He. simp_res. rewrite Ht, Hi.
  rewrite <- !app_assoc. split; [done|]. by constructor.
Qed.

Lemma list_own_sends {T} (E : Encoder OutgoingFn T) iter items xs :
  (∀ dst, ∃ d, iter items (enc_default E) dst = Ok (d, dst ++ concat xs.*1) ∧
               delivers d (indexed 0 xs.*2)) →
  iter_sends (mkEncode E iter (encode_list_own E iter)) items xs.
Proof.
  intros Hi. split; [exact Hi|]. intros Hlen dst. cbn [encode_list]. unfold encode_list_own.
  rewrite u32_try_from_fit by done. simp_res.
  destruct (Hi (dst ++ leb_encode (len items))) as (d & -> & Hd). rewrite <- app_assoc. eauto.
Qed.

Lemma default_iter_sends {T} (E : Encoder OutgoingFn T) items xs :
  Forall2 (sends_as E) items xs → iter_sends (Encode_default E) items xs.
Proof.
  intros Hp. apply list_own_sends. intros dst.
  destruct (encode_items_sends E items xs dst [] Hp) as (ds & He & Hds).
  exists (deferred_all ds). unfold encode_iter_own. rewrite He. simp_res.
  split; [done|]. by apply delivers_all.
Qed.

Lemma sync_sends {T} (f : T → bytes → io_result bytes) v e :
  (∀ dst, f v dst = Ok (dst ++ e)) → sends_as (SyncEncoder f) v (e, []).
Proof.
  intros Hf dst. exists None, tt. cbn [SyncEncoder enc_encode]. rewrite Hf. simp_res.
  split; [done|]. split; [done|apply delivers_none].
Qed.

Lemma indexed_sync i (es : list bytes) : indexed i ((λ e, (e, [] : traffic)) <$> es).*2 = [].
Proof. revert i. induction es as [|e es IH]; intros i; [done|]. apply IH. Qed.

Lemma fst_sync (es : list bytes) : ((λ e, (e, [] : traffic)) <$> es).*1 = es.
Proof. rewrite <- list_fmap_compose. apply list_fmap_id. Qed.

Lemma copy_iter_sends {T} (f : T → bytes → io_result bytes) items es :
  Forall2 (λ v e, ∀ dst, f v dst = Ok (dst ++ e)) items es →
  iter_sends (Encode_copy (SyncEncoder f)) items ((λ e, (e, [])) <$> es).
Proof.
  intros Hp. apply list_own_sends. intros dst. exists None. rewrite indexed_sync, fst_sync.
  split; [|apply delivers_none]. revert dst.
  induction Hp as [|v e items es Hv _ IH]; intros dst;
    cbn [encode_iter_copy concat SyncEncoder enc_encode].
  - by rewrite app_nil_r.
  - rewrite Hv. simp_res. by rewrite app_assoc.
Qed.

Lemma u8_iter_sends (E : Encoder OutgoingFn byte) (items : bytes) :
  iter_sends (Encode_u8 E) items ((λ b, ([b], [])) <$> items).
Proof.
  assert (((λ b, ([b], [])) <$> items) = (λ e, (e, [] : traffic)) <$> ((λ b, [b]) <$> items)) as ->
    by (by rewrite <- list_fmap_compose).
  unfold iter_sends. rewrite indexed_sync, fst_sync.
  replace (concat ((λ b, [b]) <$> items)) with items
    by (symmetry; apply concat_singletons).
  split.
  - intros dst. exists None. split; [done|apply delivers_none].
  - intros Hlen dst. exists None. cbn [Encode_u8 encode_list]. rewrite vec_bytes_encode_spec.
    rewrite u32_try_from_fit by done. simp_res. split; [done|apply delivers_none].
Qed.

(** Options and results share the operations of their contents. *)
Lemma option_sends {T} (E : Encoder OutgoingFn T) v x :
  clean E → from_option (λ w, sends_as E w x) (x = ([], [])) v →
  sends_as (OptionEncoder E) v ((if v then x01 else x00) :: x.1, x.2).
Proof.
  intros Hc Hp dst. destruct v as [v|]; cbn [from_option OptionEncoder enc_encode enc_state
    enc_default enc_take_deferred fst snd] in *.
  - destruct (Hp (dst ++ [x01])) as (d & s & He & Ht & Hd). exists d, s.
    by rewrite option_encode_some, He, <- app_assoc.
  - subst x. exists None, (enc_default E). rewrite option_encode_none. split; [done|].
    split; [done|apply delivers_none].
Qed.

Lemma result_sends {A B} (E : Encoder OutgoingFn A) (F : Encoder OutgoingFn B) v x :
  clean E → clean F →
  match v with inl a => sends_as E a x | inr b => sends_as F b x end →
  sends_as (ResultEncoder E F) v ((if v then x00 else x01) :: x.1, x.2).
Proof.
  intros HE HF Hp dst. cbn [ResultEncoder enc_encode enc_state enc_default enc_take_deferred fst snd].
  destruct v as [a|b].
  - destruct (Hp (dst ++ [x00])) as (d & s & He & Ht & Hd). exists d, (s, enc_default F).
    rewrite result_encode_ok, He, <- app_assoc. simp_res. rewrite Ht, HF. by destruct d.
  - destruct (Hp (dst ++ [x01])) as (d & s & He & Ht & Hd). exists d, (enc_default E, s).
    rewrite result_encode_err, He, <- app_assoc. simp_res. rewrite Ht, HE. by destruct d.
Qed.

Lemma list_sends {T} (C : Encode OutgoingFn T) items xs :
  iter_sends C items xs → (len items ≤ u32_MAX)%N →
  sends_as (ListEncoder C) items (leb_encode (len items) ++ concat xs.*1, indexed 0 xs.*2).
Proof.
  intros (_ & Hl) Hlen dst. destruct (Hl Hlen dst) as (d & He & Hd). exists d, d.
  cbn [ListEncoder enc_encode enc_take_deferred]. rewrite He. by simp_res.
Qed.

Lemma array_sends {T} (C : Encode OutgoingFn T) items xs :
  iter_sends C items xs → sends_as (ArrayEncoder C) items (concat xs.*1, indexed 0 xs.*2).
Proof.
  intros (Hi & _) dst. destruct (Hi dst) as (d & He & Hd). exists d, d.
  cbn [ArrayEncoder enc_encode enc_take_deferred]. rewrite He. by simp_res.
Qed.

Fixpoint tuple_sends_as {A} (Es : Encoders OutgoingFn A) : A → list (bytes * traffic) → Prop :=
  match Es with
  | ENil => λ _ xs, xs = []
  | ECons E Es => λ v xs,
      match xs with
      | x :: xs => sends_as E v.1 x ∧ tuple_sends_as Es v.2 xs
      | [] => False
      end
  end.

Lemma tuple_sends {A} (Es : Encoders OutgoingFn A) v xs :
  tuple_sends_as Es v xs → sends_as (TupleEncoder Es) v (concat xs.*1, indexed 0 xs.*2).
Proof.
  intros Hp dst.
  assert (∃ s, tuple_encode Es (encs_default Es) v dst = Ok (dst ++ concat xs.*1, s) ∧
    Forall2 delivers (take_deferred_all Es s) xs.*2) as (s & He & Hd).
  { revert v xs Hp dst. induction Es as [|A B E Es IH]; intros v xs Hp dst; cbn [tuple_sends_as] in Hp.
    - subst xs. exists tt. destruct v. rewrite tuple_encode_nil. cbn. by rewrite app_nil_r.
    - destruct v as [v vs], xs as [|x xs]; [done|]. destruct Hp as (Hv & Hvs).
      destruct (Hv dst) as (d & s & He & Ht & Hd).
      destruct (IH vs xs Hvs (dst ++ x.1)) as (ss & Hes & Hds).
      exists (s, ss). cbn [encs_default take_deferred_all fst snd].
      rewrite tuple_encode_cons. cbn [fst] in He. rewrite He. simp_res. rewrite Hes. simp_res.
      rewrite Ht, <- app_assoc. split; [done|]. by constructor. }
  exists (deferred_all (take_deferred_all Es s)), s.
  split; [exact He|]. split; [done|]. by apply delivers_all.
Qed.

(** ** Futures *)

Lemma fit_traffic_own o ds tr :
  fit_traffic (out_path o) (([], ds) :: tr) →
  Forall (λ d, len d ≤ MAX_PIECE)%N ds ∧ fit_traffic (out_path o) tr.
Proof. by intros ((_ & Hd) & Ht)%Forall_cons. Qed.

Lemma write_future_transmits {T} (E : Encoder OutgoingFn T) offset item x o :
  sends_as E item x → outgoing_handle o → fit_traffic (out_path o) x.2 →
  transmits (out_path o) (Outgoing_write_future E offset item o) (([], [x.1]) :: x.2).
Proof.
  intros Hp Ho Hf. destruct (Hp []) as (d & s & He & Ht & (Hn & Hd)).
  unfold Outgoing_write_future. rewrite He. cbn [rbind app]. rewrite Ht. cbn [fst].
  set (wr := match x.1 with [] => WriteClose o | _ => WriteBytes o x.1 end).
  assert (write_handle wr = o ∧ write_data wr = x.1 ∧ write_fits wr) as (Hh & Hw & Hfit)
    by (unfold wr; by destruct (x.1)).
  assert (write_ok wr) as Hok by (split; [by rewrite Hh|done]).
  rewrite <- Hw, <- Hh. destruct d as [f|].
  - apply transmits_cons; [done|]. rewrite Hh. by apply Hd.
  - rewrite (proj1 Hn eq_refl). by apply (transmits_cons wr (Ok []) []), transmits_nil.
Qed.

Lemma future_sends {T} (E : Encoder OutgoingFn T) (f : Future T) x :
  sends_as E (fut_item f) x →
  sends_as (FutureEncoder E) f
    (if fut_ready f then (x01 :: x.1, x.2) else ([x00], ([], [x.1]) :: x.2)).
Proof.
  intros Hp dst. cbn [FutureEncoder enc_encode enc_take_deferred enc_default].
  destruct (fut_ready f); cbn [fst snd].
  - destruct (Hp (dst ++ [x01])) as (d & s & He & Ht & Hd). exists d, d.
    unfold encode. rewrite He. simp_res. rewrite Ht. simp_res. by rewrite <- app_assoc.
  - eexists _, _. split; [done|]. split; [done|]. apply delivers_some; [done|].
    intros o Ho (_ & Hf)%fit_traffic_own. by apply write_future_transmits.
Qed.

(** ** Streams *)

(** What a chunk of elements adds to the data of its stream *)
Definition chunk_piece (xs : list (bytes * traffic)) : bytes :=
  match xs with [] => [] | _ => leb_encode (len xs) ++ concat xs.*1 end.

(** A stream, in chunks and its end *)
Definition stream_traffic (xss : list (list (bytes * traffic))) : traffic :=
  ([], (chunk_piece <$> xss) ++ [[x00]]) :: indexed 0 (concat xss).*2.

Lemma encode_chunk_transmits {T} (E : Encoder OutgoingFn T) o i chunk xs buf deferred :
  Forall2 (sends_as E) chunk xs → outgoing_handle o →
  fit_traffic (out_path o) (indexed i xs.*2) →
  ∃ futs, encode_chunk E o i chunk (enc_default E) buf deferred =
          Ok (enc_default E, buf ++ concat xs.*1, deferred ++ futs) ∧
    transmits (out_path o) (run_all futs) (indexed i xs.*2).
Proof.
  intros Hp Ho. revert i buf deferred. induction Hp as [|v x chunk xs Hv _ IH]; intros i buf deferred Hf.
  { exists []. cbn [encode_chunk]. rewrite !app_nil_r. split; [done|apply transmits_nil]. }
  rewrite (fmap_cons snd) in Hf |- *. rewrite (fmap_cons fst). cbn [indexed] in Hf |- *. apply Forall_app in Hf as (Hf & Hfs). destruct (Hv buf) as (d & s & He & Ht & Hd).
  cbn [encode_chunk]. rewrite He. cbn [rbind]. rewrite Ht. cbn [concat].
  destruct d as [f|].
  - destruct (delivers_element o i f x.2) as (o' & -> & Ht'); [done..|]. cbn [rbind].
    destruct (IH (N.succ i) (buf ++ x.1) (deferred ++ [(f, o')]) Hfs) as (futs & -> & Htf).
    exists ((f, o') :: futs). rewrite <- !app_assoc. split; [done|].
    by apply (run_all_app _ [(f, o')]).
  - destruct (IH (N.succ i) (buf ++ x.1) deferred Hfs) as (futs & -> & Htf). exists futs.
    rewrite <- !app_assoc. split; [done|]. by rewrite (proj1 (proj1 Hd) eq_refl).
Qed.

Lemma same_traffic_pieces ds es tr :
  concat ds = concat es → ([], ds) :: tr ≃ ([], es) :: tr.
Proof. intros Hc p q. rewrite !content_cons. cbn [fst snd]. by rewrite Hc. Qed.

Lemma write_reserved_ok o buf piece :
  outgoing_handle o → (len buf < MAX_PENDING_STREAM_BATCH)%N → (len piece ≤ MAX_PIECE)%N →
  write_ok (WriteReserved o (buf ++ piece)).
Proof.
  intros Ho Hb Hp. split; [done|]. cbn [write_fits]. rewrite len_app.
  assert (MAX_PIECE + MAX_PENDING_STREAM_BATCH = MAX_FRAME_DATA)%N by (by vm_compute). lia.
Qed.

(** The steps of the loops: the last write, and a batch *)
Lemma last_transmits o buf r tr :
  outgoing_handle o → transmits (out_path o) r tr →
  transmits (out_path o) (let? ws := r in Ok (WriteBytes o (buf ++ [x00]) :: ws))
    (([], [buf; [x00]]) :: tr).
Proof.
  intros Ho Hr. rewrite (same_traffic_pieces _ [buf ++ [x00]])
    by (cbn [concat]; by rewrite !app_nil_r).
  by apply (transmits_cons (WriteBytes o (buf ++ [x00]))).
Qed.

Lemma batch_transmits o buf piece ds r r' trd tr :
  write_ok (WriteReserved o (buf ++ piece)) → away trd →
  transmits (out_path o) r trd → transmits (out_path o) r' (([], [] :: ds) :: tr) →
  transmits (out_path o)
    (let? ss := r in let? rest := r' in Ok (WriteReserved o (buf ++ piece) :: ss ++ rest))
    (([], buf :: piece :: ds) :: trd ++ tr).
Proof.
  intros Hok Ha Hr Hr'.
  assert (([], buf :: piece :: ds) :: trd ++ tr ≃
    ([], [buf ++ piece]) :: trd ++ ([], [] :: ds) :: tr) as ->.
  { rewrite (same_traffic_own trd), same_traffic_join by done. apply same_traffic_pieces.
    cbn [concat app]. by rewrite <- app_assoc. }
  pose proof (transmits_cons (WriteReserved o (buf ++ piece)) _ _ Hok
    (transmits_app _ _ _ _ _ Hr Hr')) as Ht.
  cbn [write_handle write_data] in Ht.
  destruct Hr as (ws & -> & _), Hr' as (ws' & -> & _). exact Ht.
Qed.

Lemma stream_loop_transmits {T} (E : Encoder OutgoingFn T) o chunks xss k i buf deferred trd :
  Forall2 (Forall2 (sends_as E)) chunks xss → outgoing_handle o →
  Forall (λ xs, len (chunk_piece xs) ≤ MAX_PIECE)%N xss →
  fit_traffic (out_path o) (indexed i (concat xss).*2) →
  Forall (λ c, len c ≤ u32_MAX)%N chunks → (i + len (concat chunks) ≤ u64_MAX)%N →
  (len buf < MAX_PENDING_STREAM_BATCH)%N → transmits (out_path o) (run_all deferred) trd → away trd →
  transmits (out_path o) (stream_loop flush E o k i (enc_default E) buf deferred chunks)
    (([], buf :: (chunk_piece <$> xss) ++ [[x00]]) :: trd ++ indexed i (concat xss).*2).
Proof.
  intros Hp Ho. revert k i buf deferred trd.
  induction Hp as [|chunk xs chunks xss Hc _ IH]; intros k i buf deferred trd Hm Hf Hl Hi Hb Hd Ha.
  { cbn [stream_loop concat indexed]. rewrite fmap_nil, app_nil_r. by apply last_transmits. }
  apply Forall_cons in Hm as (Hm & Hms). apply Forall_cons in Hl as (Hl & Hls).
  cbn [concat] in Hi, Hf |- *. rewrite len_app in Hi. rewrite fmap_app, indexed_app in Hf |- *.
  apply Forall_app in Hf as (Hf & Hfs).
  assert (len xs.*2 = len chunk) as Hn.
  { unfold len. rewrite length_fmap. by rewrite (Forall2_length _ _ _ Hc). }
  rewrite Hn in Hfs |- *. rewrite fmap_cons.
  destruct chunk as [|v chunk].
  { apply Forall2_nil_inv_l in Hc as ->. cbn [stream_loop chunk_piece indexed app].
    rewrite (same_traffic_pieces _ (buf :: (chunk_piece <$> xss) ++ [[x00]])) by done.
    rewrite N.add_0_r in Hfs |- *. by apply IH. }
  cbn [stream_loop]. rewrite u32_try_from_fit by done. cbn [rbind].
  destruct (N.ltb_spec u64_MAX (i + len (v :: chunk))); [lia|].
  destruct (encode_chunk_transmits E o i (v :: chunk) xs (buf ++ leb_encode (len (v :: chunk)))
    deferred) as (futs & -> & Ht); [done..|]. cbn [rbind].
  pose proof (run_all_app _ _ _ _ _ Hd Ht) as Hd'.
  replace ((buf ++ leb_encode (len (v :: chunk))) ++ concat xs.*1) with (buf ++ chunk_piece xs).
  2:{ rewrite <- app_assoc. destruct xs; [by inversion Hc|]. unfold chunk_piece. do 2 f_equal.
      unfold len in *. rewrite length_fmap in Hn. by rewrite Hn. }
  rewrite app_assoc. cbn [app].
  assert (away (trd ++ indexed i xs.*2)) as Ha' by (apply Forall_app; split; [done|apply away_indexed]).
  destruct (flush k || _) eqn:Hflush.
  - apply batch_transmits; [by apply write_reserved_ok|done..|].
    apply (IH _ _ [] [] []); try done; [lia|apply transmits_nil|constructor].
  - rewrite (same_traffic_pieces _ ((buf ++ chunk_piece xs) :: (chunk_piece <$> xss) ++ [[x00]]))
      by (cbn [concat]; by rewrite <- app_assoc).
    apply orb_false_iff in Hflush as (_ & Hflush%N.leb_gt). apply IH; try done; lia.
Qed.

Lemma len_chunks {A} (chunks : list (list A)) n :
  (len (concat chunks) ≤ n)%N → Forall (λ c, len c ≤ n)%N chunks.
Proof.
  induction chunks as [|c chunks IH]; [constructor|]. cbn [concat]. rewrite len_app. intros Hn.
  constructor; [lia|]. apply IH. lia.
Qed.

Lemma stream_sends {T} (C : Encode OutgoingFn T) (s : Stream (list T)) xss :
  str_end s = false →
  Forall2 (Forall2 (sends_as (encode_enc C))) (concat (str_now s) :: str_later s) xss →
  (len (concat (stream_items s)) ≤ u32_MAX)%N →
  sends_as (StreamEncoder C) s ([x00], stream_traffic xss).
Proof.
  intros He Hp Hlen dst. cbn [StreamEncoder enc_encode enc_take_deferred enc_default].
  rewrite He, gather_concat. eexists _, _. split; [done|]. split; [done|].
  apply delivers_some; [done|]. intros o Ho (Hm & Hf)%fit_traffic_own.
  apply Forall_app in Hm as (Hm & _). rewrite Forall_fmap in Hm.
  cbn [write_stream outgoing_sink OutgoingSink app fst snd]. unfold Outgoing_write_stream.
  unfold stream_traffic.
  rewrite (same_traffic_pieces _ ([] :: (chunk_piece <$> xss) ++ [[x00]])) by done.
  unfold stream_items in Hlen. rewrite He, concat_app, len_app in Hlen.
  apply (stream_loop_transmits _ o _ _ 0 0 [] [] []); try done.
  - apply len_chunks. cbn [concat]. by rewrite len_app.
  - cbn [concat]. rewrite len_app. unfold u64_MAX, u32_MAX in *. lia.
  - apply transmits_nil.
  - constructor.
Qed.

Lemma stream_sends_ready {T} (C : Encode OutgoingFn T) (s : Stream (list T)) x :
  str_end s = true → sends_as (ListEncoder C) (concat (stream_items s)) x →
  sends_as (StreamEncoder C) s (x01 :: x.1, x.2).
Proof.
  intros He Hp dst. cbn [StreamEncoder enc_encode enc_take_deferred enc_default].
  unfold stream_items in Hp. rewrite He, app_nil_r in Hp. rewrite He, gather_concat.
  destruct (Hp (dst ++ [x01])) as (d & st & Hx & Ht & Hd). injection Ht as ->.
  exists d, d. unfold encode. cbn [ListEncoder enc_default] in Hx. cbn [app].
  rewrite Hx. cbn [rbind ListEncoder enc_take_deferred fst snd]. by rewrite <- app_assoc.
Qed.

(** Streams of bytes *)

Definition bytes_piece (chunk : bytes) : bytes :=
  match chunk with [] => [] | _ => leb_encode (len chunk) ++ chunk end.

Definition bytes_traffic (chunks : list bytes) : traffic :=
  [([], (bytes_piece <$> chunks) ++ [[x00]])].

Lemma write_stream_batch o buf piece ds r :
  write_ok (WriteReserved o (buf ++ piece)) → transmits (out_path o) r [([], [] :: ds)] →
  transmits (out_path o) (let? rest := r in Ok (WriteReserved o (buf ++ piece) :: rest))
    [([], buf :: piece :: ds)].
Proof.
  intros Hok Hr. apply (batch_transmits o buf piece ds (Ok []) r [] []); try done.
  - constructor.
  - apply transmits_nil.
Qed.

Lemma bytes_loop_transmits o chunks k buf :
  outgoing_handle o → Forall (λ c, len (bytes_piece c) ≤ MAX_PIECE)%N chunks →
  Forall (λ c, len c ≤ u32_MAX)%N chunks → (len buf < MAX_PENDING_STREAM_BATCH)%N →
  transmits (out_path o) (bytes_loop flush o k buf chunks)
    [([], buf :: (bytes_piece <$> chunks) ++ [[x00]])].
Proof.
  intros Ho Hm Hl. revert k buf. induction chunks as [|chunk chunks IH]; intros k buf Hb.
  { by apply (last_transmits o buf (Ok []) []), transmits_nil. }
  apply Forall_cons in Hm as (Hm & Hms). apply Forall_cons in Hl as (Hl & Hls).
  rewrite fmap_cons. cbn [app bytes_loop]. destruct chunk as [|b chunk].
  { rewrite (same_traffic_pieces _ (buf :: (bytes_piece <$> chunks) ++ [[x00]])) by done.
    by apply IH. }
  rewrite u32_try_from_fit by done. cbn [rbind].
  change (leb_encode (len (b :: chunk)) ++ b :: chunk) with (bytes_piece (b :: chunk)).
  destruct (flush k || _) eqn:Hflush.
  - apply write_stream_batch; [by apply write_reserved_ok|]. by apply IH.
  - rewrite (same_traffic_pieces _ ((buf ++ bytes_piece (b :: chunk)) ::
      (bytes_piece <$> chunks) ++ [[x00]])) by (cbn [concat]; by rewrite <- app_assoc).
    apply orb_false_iff in Hflush as (_ & Hflush%N.leb_gt). by apply IH.
Qed.

(** A reader yields its chunks until it ends. *)
Lemma read_loop_chunks o k buf chunks :
  Forall (.≠ []) chunks → read_loop flush o k buf (Ok <$> chunks) = bytes_loop flush o k buf chunks.
Proof.
  intros Hc. revert k buf. induction Hc as [|chunk chunks Hc _ IH]; intros k buf; [done|].
  rewrite fmap_cons. cbn [read_loop bytes_loop]. destruct chunk as [|b chunk]; [done|].
  destruct (u32_try_from _); [|done]. cbn [rbind]. by rewrite !IH.
Qed.

Lemma stream_bytes_sends (s : Stream bytes) :
  (len (concat (stream_items s)) ≤ u32_MAX)%N →
  sends_as StreamEncoderBytes s
    (if str_end s then (x01 :: leb_encode (len (concat (stream_items s))) ++ concat (stream_items s), [])
     else ([x00], bytes_traffic (stream_items s))).
Proof.
  intros Hlen dst. unfold stream_items in *. cbn [StreamEncoderBytes enc_encode enc_take_deferred enc_default].
  destruct (str_end s); cbn [fst snd].
  - rewrite app_nil_r in *. rewrite encode_ready_bytes_ok by done. simp_res.
    exists None, None. split; [done|]. split; [done|apply delivers_none].
  - eexists _, _. split; [done|]. split; [done|]. apply delivers_some; [done|].
    intros o Ho (Hm & _)%fit_traffic_own. apply Forall_app in Hm as (Hm & _).
    rewrite Forall_fmap in Hm. cbn [write_stream_bytes outgoing_sink OutgoingSink].
    unfold Outgoing_write_stream_bytes, bytes_traffic.
    rewrite (same_traffic_pieces _ ([] :: (bytes_piece <$> str_now s ++ str_later s) ++ [[x00]])) by done.
    apply bytes_loop_transmits; try done. by apply len_chunks.
Qed.

Lemma write_stream_read_transmits o offset ready (rd : Reader) chunks :
  outgoing_handle o → Pack.reads rd = Ok <$> chunks → Forall (.≠ []) chunks →
  Forall (λ c, len (bytes_piece c) ≤ MAX_PIECE)%N (ready :: chunks) →
  Forall (λ c, len c ≤ u32_MAX)%N (ready :: chunks) →
  transmits (out_path o) (Outgoing_write_stream_read flush offset ready rd o)
    (bytes_traffic (ready :: chunks)).
Proof.
  intros Ho Hr Hc (Hm & Hms)%Forall_cons (Hl & Hls)%Forall_cons.
  unfold Outgoing_write_stream_read, bytes_traffic. rewrite Hr.
  assert (∀ k buf, (len buf < MAX_PENDING_STREAM_BATCH)%N → transmits (out_path o)
    (read_loop flush o k buf (Ok <$> chunks)) [([], buf :: (bytes_piece <$> chunks) ++ [[x00]])]) as Hloop.
  { intros k buf Hb. rewrite read_loop_chunks by done. by apply bytes_loop_transmits. }
  rewrite fmap_cons. destruct ready as [|b ready]; [by apply Hloop|].
  rewrite u32_try_from_fit by done. cbn [rbind app].
  assert ([([], bytes_piece (b :: ready) :: (bytes_piece <$> chunks) ++ [[x00]])] ≃
    ([], [leb_encode (len (b :: ready))]) :: [([], (b :: ready) :: (bytes_piece <$> chunks) ++ [[x00]])])
    as ->.
  { rewrite same_traffic_join. apply same_traffic_pieces. cbn [app concat bytes_piece].
    by rewrite <- app_assoc. }
  apply (transmits_cons (WriteBytes o (leb_encode (len (b :: ready))))); [done|].
  cbn [write_handle]. destruct (flush 0 || _) eqn:Hflush.
  - rewrite (same_traffic_pieces _ ([] :: (b :: ready) :: (bytes_piece <$> chunks) ++ [[x00]])) by done.
    apply (write_stream_batch o []); [|by apply Hloop].
    apply write_reserved_ok; [done..|]. etrans; [|exact Hm]. cbn [bytes_piece].
    rewrite len_app. lia.
  - apply orb_false_iff in Hflush as (_ & Hflush%N.leb_gt). by apply Hloop.
Qed.

Lemma stream_read_sends max_ready (now : list bytes) (is_end : bool) (later : list bytes) :
  Forall (.≠ []) now → Forall (.≠ []) later →
  (len (concat now) < max_ready)%N → (len (concat (now ++ later)) ≤ u32_MAX)%N →
  sends_as (StreamEncoderRead max_ready) (mkReader (Ok <$> now) is_end (Ok <$> later))
    (if is_end then (x01 :: leb_encode (len (concat now)) ++ concat now, [])
     else ([x00], bytes_traffic (concat now :: later))).
Proof.
  intros Hn Hl Hmax Hlen dst. rewrite concat_app, len_app in Hlen.
  cbn [StreamEncoderRead enc_encode enc_take_deferred enc_default rd_now rd_end rd_later].
  rewrite read_ready_chunks by (done || (rewrite len_nil; lia)). cbn [app].
  destruct is_end; cbn [fst snd].
  - rewrite encode_ready_bytes_ok by (cbn [concat]; rewrite app_nil_r; lia).
    exists None, None. simp_res. rewrite app_nil_r. split; [done|]. split; [done|apply delivers_none].
  - eexists _, _. split; [done|]. split; [done|]. apply delivers_some; [done|].
    intros o Ho (Hm & _)%fit_traffic_own. apply Forall_app in Hm as (Hm & _).
    rewrite Forall_fmap in Hm. apply write_stream_read_transmits; try done.
    apply (len_chunks (concat now :: later)). cbn [concat]. by rewrite len_app.
Qed.

(** ** Values *)

Context `{PrimCodec} {HP : PrimLaws}.

(** What is sent of a value after its encoding *)
Fixpoint streams (t : ty) : val t → traffic :=
  match t with
  | TPrim _ | TU8 | TUnit | TResource => λ _, []
  | TOption t => from_option (streams t) []
  | TResult t u => λ v, match v with inl v => streams t v | inr v => streams u v end
  | TList t | TArray _ t => λ vs, indexed 0 (map (streams t) vs)
  | TTuple ts => λ v,
      indexed 0
        ((fix go (ts : list ty) : foldr (λ t A, (val t * A)%type) unit ts → list traffic :=
            match ts with
            | [] => λ _, []
            | t :: ts => λ v, streams t v.1 :: go ts v.2
            end) ts v)
  | TFuture t => λ f,
      if fut_ready f then streams t (fut_item f)
      else ([], [plain (tokens t (fut_item f))]) :: streams t (fut_item f)
  | TStream t => λ s,
      if str_end s then indexed 0 (map (streams t) (concat (stream_items s)))
      else stream_traffic (map (map (λ v, (plain (tokens t v), streams t v)))
             (concat (str_now s) :: str_later s))
  | TStreamBytes => λ s, if str_end s then [] else bytes_traffic (stream_items s)
  | TStreamRead => λ s, if str_end s then [] else bytes_traffic (concat (str_now s) :: str_later s)
  end.

(** The encoder of a type, on outgoing handles *)
Definition out_enc (t : ty) : Encoder OutgoingFn (val t) := encode_enc (encode_of t).

Definition part (t : ty) (v : val t) : bytes * traffic := (plain (tokens t v), streams t v).

Definition sends (t : ty) : Prop :=
  (∀ v, fits t v → sends_as (out_enc t) v (part t v)) ∧
  (∀ vs, Forall (fits t) vs → iter_sends (encode_of t) vs (map (part t) vs)).

Lemma parts_sends t (R : val t → bytes * traffic → Prop) vs :
  (∀ v, fits t v → R v (part t v)) → Forall (fits t) vs → Forall2 R vs (map (part t) vs).
Proof. intros HR. induction 1; constructor; auto. Qed.

Lemma sends_default t E :
  encode_of t = Encode_default E → (∀ v, fits t v → sends_as E v (part t v)) → sends t.
Proof.
  intros Ht HE. unfold sends, out_enc. rewrite Ht. split; [exact HE|].
  intros vs Hvs. by apply default_iter_sends, parts_sends.
Qed.

Lemma parts_fst t vs : (map (part t) vs).*1 = plain <$> map (tokens t) vs.
Proof. induction vs as [|v vs IH]; [done|]. cbn [map]. by rewrite !fmap_cons, IH. Qed.

Lemma parts_snd t vs : (map (part t) vs).*2 = map (streams t) vs.
Proof. induction vs as [|v vs IH]; [done|]. cbn [map]. by rewrite fmap_cons, IH. Qed.

Lemma plain_concat tss : plain (concat tss) = concat (plain <$> tss).
Proof. induction tss as [|ts tss IH]; [done|]. cbn [concat]. by rewrite plain_app, fmap_cons, IH. Qed.

Lemma sends_prim p : sends (TPrim p).
Proof.
  assert (∀ v, fits (TPrim p) v → sends_as (SyncEncoder (prim_encode p)) v (part (TPrim p) v)) as Hs.
  { intros v Hv. unfold part. cbn [tokens streams]. rewrite plain_bytes.
    apply sync_sends. intros dst. by apply prim_encode_app. }
  destruct (decide (p = PString)) as [->|Hp]; [by eapply sends_default|].
  assert (encode_of (TPrim p) = Encode_copy (SyncEncoder (prim_encode p))) as Ht by (by destruct p).
  unfold sends, out_enc. rewrite Ht. split; [exact Hs|]. intros vs Hvs.
  assert (map (part (TPrim p)) vs = (λ e, (e, [])) <$> map (prim_code p) vs) as ->.
  { induction vs as [|v vs IH]; [done|]. apply Forall_cons in Hvs as (_ & Hvs).
    cbn [map]. rewrite fmap_cons, IH by done. f_equal. unfold part. cbn [tokens streams].
    by rewrite plain_bytes. }
  apply copy_iter_sends. induction Hvs as [|v vs Hv _ IH]; constructor; [|done].
  intros dst. by apply prim_encode_app.
Qed.

Lemma sends_u8 : sends TU8.
Proof.
  split.
  - intros b _. apply (sync_sends u8_encode b [b]). intros. apply u8_encode_app.
  - intros vs _. apply u8_iter_sends.
Qed.

Lemma sends_unit : sends TUnit.
Proof.
  eapply sends_default; [done|]. intros v _. apply (sync_sends _ v []). intros dst.
  by rewrite app_nil_r.
Qed.

Lemma sends_resource : sends TResource.
Proof.
  eapply sends_default; [done|]. intros v Hv. unfold part. cbn [tokens]. rewrite plain_bytes.
  apply sync_sends. intros dst. rewrite vec_bytes_encode_spec, u32_try_from_fit by done. done.
Qed.

Lemma sends_option t : sends t → sends (TOption t).
Proof.
  intros (IH & _). eapply sends_default; [done|]. intros v Hv.
  destruct v as [v|]; cbn [fits from_option] in Hv.
  - apply (option_sends (out_enc t) (Some v) (part t v)); [apply clean_encode_of|by apply IH].
  - apply (option_sends (out_enc t) None ([], [])); [apply clean_encode_of|done].
Qed.

Lemma sends_result t u : sends t → sends u → sends (TResult t u).
Proof.
  intros (IH1 & _) (IH2 & _). eapply sends_default; [done|]. intros v Hv.
  destruct v as [v|v]; cbn [fits] in Hv.
  - apply (result_sends (out_enc t) (out_enc u) (inl v) (part t v));
      [apply clean_encode_of..|by apply IH1].
  - apply (result_sends (out_enc t) (out_enc u) (inr v) (part u v));
      [apply clean_encode_of..|by apply IH2].
Qed.

Lemma list_part_sends t vs :
  sends t → fits (TList t) vs → sends_as (ListEncoder (encode_of t)) vs (part (TList t) vs).
Proof.
  intros (_ & IH) (Hlen & Hvs). pose proof (list_sends (encode_of t) vs _ (IH vs Hvs) Hlen) as Hs.
  rewrite parts_fst, parts_snd in Hs. unfold part. cbn [tokens streams].
  by rewrite plain_app, plain_bytes, plain_concat.
Qed.

Lemma sends_list t : sends t → sends (TList t).
Proof. intros IH. eapply sends_default; [done|]. intros vs. by apply list_part_sends. Qed.

Lemma sends_array n t : sends t → sends (TArray n t).
Proof.
  intros (_ & IH). eapply sends_default; [done|]. intros vs (_ & Hvs).
  pose proof (array_sends (encode_of t) vs _ (IH vs Hvs)) as Hs.
  rewrite parts_fst, parts_snd in Hs. unfold part. cbn [tokens streams]. by rewrite plain_concat.
Qed.

Lemma sends_tuple ts : Forall sends ts → sends (TTuple ts).
Proof.
  intros Hts. eapply sends_default; [done|]. intros v Hv.
  assert (∃ xs, part (TTuple ts) v = (concat xs.*1, indexed 0 xs.*2) ∧
    tuple_sends_as
      ((fix encs (ts : list ty) : Encoders OutgoingFn (foldr (λ t A, (val t * A)%type) unit ts) :=
          match ts with
          | [] => ENil
          | t :: ts => ECons (encode_enc (encode_of t)) (encs ts)
          end) ts) v xs) as (xs & -> & Hp); [|by apply tuple_sends].
  unfold part. cbn [val fits tokens streams] in *. revert v Hv. generalize 0%N.
  induction Hts as [|t ts (IHt & _) _ IH]; intros i v Hv.
  - by exists [].
  - destruct v as [v vs], Hv as (Hv & Hvs). cbn [fst snd] in *.
    destruct (IH (N.succ i) vs Hvs) as (xs & Hxs & Hp). injection Hxs as Hx1 Hx2.
    exists (part t v :: xs). rewrite (fmap_cons fst), (fmap_cons snd). cbn [concat indexed].
    rewrite plain_app. split; [|split; [by apply IHt|done]].
    f_equal; [f_equal; exact Hx1|]. f_equal. exact Hx2.
Qed.

Lemma sends_future t : sends t → sends (TFuture t).
Proof.
  intros (IH & _). eapply sends_default; [done|]. intros [ready v] Hf.
  pose proof (future_sends (out_enc t) (mkFuture ready v) _ (IH v Hf)) as Hs. by destruct ready.
Qed.

Lemma sends_stream t : sends t → sends (TStream t).
Proof.
  intros IH. eapply sends_default; [done|]. intros [now is_end later] (Hlen & Hs). destruct is_end.
  - exact (stream_sends_ready (encode_of t) (mkStream now true later) _ eq_refl
      (list_part_sends t _ IH (conj Hlen Hs))).
  - refine (stream_sends (encode_of t) (mkStream now false later) _ eq_refl _ Hlen).
    destruct IH as (IH & _). unfold stream_items in Hs. cbn [str_end str_now str_later] in *.
    rewrite concat_app, Forall_app in Hs. destruct Hs as (Hn & Hl).
    constructor; [by apply (parts_sends t)|].
    apply Forall_concat in Hl. clear Hlen. induction Hl; constructor; [by apply (parts_sends t)|done].
Qed.

Lemma sends_stream_bytes : sends TStreamBytes.
Proof.
  eapply sends_default; [done|]. intros [now is_end later] Hs.
  pose proof (stream_bytes_sends (mkStream now is_end later) Hs) as Hp.
  unfold part. cbn [tokens streams str_end] in *. unfold bytes_tokens.
  destruct is_end; [by rewrite plain_bytes|done].
Qed.

Lemma sends_stream_read : sends TStreamRead.
Proof.
  eapply sends_default; [done|]. intros [now is_end later] (Hlen & Hne).
  cbn [str_now str_later] in *. apply Forall_app in Hne as (Hn & Hl).
  pose proof (stream_read_sends usize_MAX now is_end later Hn Hl) as Hp.
  unfold part. cbn [tokens streams str_end str_now str_later]. unfold bytes_tokens, stream_items.
  cbn [str_end str_now str_later concat]. rewrite app_nil_r.
  assert (len (concat now) < usize_MAX)%N as Hmax.
  { rewrite concat_app, len_app in Hlen. unfold usize_MAX, u32_MAX in *. lia. }
  specialize (Hp Hmax Hlen). destruct is_end; [|done]. by rewrite plain_bytes, app_nil_r.
Qed.

Lemma sends_all t : sends t.
Proof.
  induction t using ty_ind_nested.
  - apply sends_prim.
  - apply sends_u8.
  - apply sends_unit.
  - apply sends_resource.
  - by apply sends_option.
  - by apply sends_result.
  - by apply sends_list.
  - by apply sends_array.
  - by apply sends_tuple.
  - by apply sends_future.
  - by apply sends_stream.
  - apply sends_stream_bytes.
  - apply sends_stream_read.
Qed.

(** There is traffic if a part of the value is pending. *)
Lemma indexed_nil_iff {A} i (trs : list (list (list N * A))) : indexed i trs = [] ↔ Forall (.= []) trs.
Proof.
  revert i. induction trs as [|tr trs IH]; intros i; [done|]. cbn [indexed].
  rewrite app_nil, Forall_cons, IH. apply and_iff_compat_r. by destruct tr.
Qed.

Lemma streams_nil_list t vs :
  (∀ v, streams t v = [] ↔ pending t v = false) →
  indexed 0 (map (streams t) vs) = [] ↔ existsb (pending t) vs = false.
Proof.
  intros IH. rewrite indexed_nil_iff. induction vs as [|v vs IHvs]; [done|].
  cbn [map existsb]. by rewrite Forall_cons, orb_false_iff, IH, IHvs.
Qed.

Lemma streams_pending t v : streams t v = [] ↔ pending t v = false.
Proof.
  revert v. induction t using ty_ind_nested; cbn [val streams pending]; intros v.
  - done.
  - done.
  - done.
  - done.
  - destruct v; [apply IHt|done].
  - destruct v; [apply IHt1|apply IHt2].
  - by apply streams_nil_list.
  - by apply streams_nil_list.
  - rewrite indexed_nil_iff. induction ts as [|t ts IH]; [done|].
    apply Forall_cons in H3 as (Ht & Hts). by rewrite Forall_cons, orb_false_iff, Ht, IH.
  - destruct v as [[] v]; [apply IHt|done].
  - destruct v as [now [] later]; [|done]. by apply streams_nil_list.
  - by destruct v as [now [] later].
  - by destruct v as [now [] later].
Qed.

(** ** Properties *)

(** Encoding a value on an outgoing handle appends its encoding with a
    placeholder for each future and stream which is pending; if there is one,
    the deferred operation sends exactly the data of the pending parts on the
    path of each, in order, however batches are formed. *)
Theorem value_transmitted t v dst :
  fits t v →
  ∃ d s, encode (out_enc t) v (enc_default (out_enc t)) dst = Ok (d, dst ++ plain (tokens t v), s) ∧
    (d = None ↔ pending t v = false) ∧
    ∀ f o, d = Some f → outgoing_handle o → fit_traffic (out_path o) (streams t v) →
      ∃ wrs, f o = Ok wrs ∧ Forall write_ok wrs ∧
        ∀ q, written_on q wrs = content (out_path o) (streams t v) q.
Proof.
  intros Hv. destruct (proj1 (sends_all t) v Hv dst) as (d & s & He & Ht & (Hn & Hd)).
  exists d, (enc_default (out_enc t)). unfold encode. rewrite He. cbn [rbind]. rewrite Ht.
  split; [done|]. split; [etrans; [exact Hn|apply streams_pending]|]. exact Hd.
Qed.

(** The pending parts of a value which is sent on a connection are
    received by the other side, each on its own path, in order and byte for
    byte, and all of them once ingress completed successfully. *)
Theorem value_received t v dst cap paths f d s wrs shutdown e tr w :
  fits t v → fit_traffic [] (streams t v) →
  encode (out_enc t) v (enc_default (out_enc t)) dst = Ok (Some f, d, s) →
  f Outgoing_new = Ok wrs →
  (0 < cap)%N → compatible paths → do_writes wrs (mkEgress [] None) = Ok e →
  reachable cap paths (egress (λ w b, Ok (w ++ b)) shutdown [] (e_queue e)).2 tr w →
  ∀ q, received_on q tr `prefix_of` content [] (streams t v) q ∧
       (w_done w = Some (Ok tt) → received_on q tr = content [] (streams t v) q).
Proof.
  intros Hv Hf He Hw Hcap Hc Hd Hr q.
  destruct (proj1 (sends_all t) v Hv dst) as (d' & s' & He' & Ht' & (_ & Hs)).
  unfold encode in He. rewrite He' in He. cbn [rbind] in He. rewrite Ht' in He.
  injection He as -> _ _.
  destruct (Hs f Outgoing_new eq_refl outgoing_handle_new Hf) as (wrs' & Hw' & Hok & Hq).
  rewrite Hw in Hw'. injection Hw' as <-. cbn [out_path Outgoing_new] in Hq. rewrite <- Hq.
  destruct (writes_on_wire wrs shutdown e Hok Hd) as (Hwire & Hfit). rewrite Hwire in Hr.
  rewrite <- data_on_writes. split; [by eapply received_in_order|]. by eapply received_complete.
Qed.

End transmit.

(** ** Witnesses *)

(** A pending future, and a pending stream of an element which is pending too *)
Definition sent_ty : ty := TTuple [TFuture (TPrim PU32); TStream (TFuture (TPrim PU16))].
Definition sent_val : val sent_ty :=
  (mkFuture false 42%N, (mkStream [] false [[mkFuture false 7%N]], tt)).

Definition out_std (t : ty) : Encoder OutgoingFn (val t) :=
  @out_enc (λ _, true) leb128_std (cm_encoder_std OutgoingFn) prim_codec_std t.

Definition sent_encoded :
    option OutgoingFn * bytes * enc_state (out_std sent_ty) :=
  match encode (out_std sent_ty) sent_val (enc_default (out_std sent_ty)) [] with
  | Ok r => r | Err _ => (None, [], enc_default (out_std sent_ty))
  end.

Definition sent_fn : OutgoingFn := default (λ _, Ok []) sent_encoded.1.1.
Definition sent_writes : list write :=
  match sent_fn Outgoing_new with Ok wrs => wrs | Err _ => [] end.

Definition sent_traffic : traffic := @streams leb128_std prim_codec_std sent_ty sent_val.

Example sent_traffic_test :
  sent_traffic = [([0], [[x2a]]); ([1], [[]; [x01; x00]; [x00]]); ([1; 0], [[x07]])]%N.
Proof. vm_compute. reflexivity. Qed.

Lemma sent_fits : fits sent_ty sent_val.
Proof.
  split; [reflexivity|split; [|exact I]]. split; [vm_compute; discriminate|].
  apply Forall_cons_2; [reflexivity|apply Forall_nil_2].
Qed.

Lemma sent_fit_traffic : fit_traffic [] sent_traffic.
Proof.
  rewrite sent_traffic_test. unfold fit_traffic, fit_path.
  repeat apply Forall_cons_2; try apply Forall_nil_2;
    (split; [split; [vm_compute; discriminate|]|]); repeat apply Forall_cons_2; try apply Forall_nil_2;
    vm_compute; discriminate.
Qed.

Lemma value_transmitted_witness :
  ∃ wrs, sent_fn Outgoing_new = Ok wrs ∧ written_on [1]%N wrs = [x01; x00; x00].
Proof.
  destruct (@value_transmitted (λ _, true) leb128_std (cm_encoder_std OutgoingFn)
    (cm_encoder_std_laws OutgoingFn) prim_codec_std prim_codec_std_laws sent_ty sent_val [] sent_fits)
    as (d & s & He & Hn & Hs).
  assert (d = Some sent_fn) as Hd.
  { unfold sent_fn, sent_encoded, out_std. rewrite He. cbn [fst]. destruct d; [done|].
    by destruct (proj1 Hn eq_refl). }
  destruct (Hs sent_fn Outgoing_new Hd) as (wrs & Hw & _ & Hq);
    [constructor|exact sent_fit_traffic|].
  exists wrs. split; [exact Hw|]. rewrite Hq. vm_compute. reflexivity.
Defined.

Definition sent_egress : Egress :=
  match do_writes sent_writes (mkEgress [] None) with Ok e => e | Err _ => mkEgress [] None end.
Definition sent_wire : bytes :=
  (@egress leb128_std (λ w b, Ok (w ++ b)) (λ _, Ok tt) [] (e_queue sent_egress)).2.
Definition sent_paths : list (list (option N)) := [[Some 0]; [Some 1]; [Some 1; None]]%N.

(** The peer receives the frames, reads them from handles of their paths, and
    drops the handles. *)
Definition sent_receive : list action :=
  [AFrame; AForward; AFrame; AForward; AFrame; AAcquire; AForward; AFrame; AForward; AFrame;
   AIndex 0 [0]; AIndex 0 [1]; AIndex 0 [1; 0]; ARead 1 8; ARead 1 8; ARead 2 8; ARead 2 8;
   ARead 2 8; ARead 3 8; ARead 3 8; ADrop 3; ADrop 2; ADrop 1; ADrop 0; ADropped]%N.
Definition sent_received : list event * World :=
  default ([], Incoming_new sent_paths [])
    (@exec leb128_std 1024 sent_receive [] (Incoming_new sent_paths sent_wire)).

Lemma sent_paths_compatible : compatible sent_paths.
Proof. apply compatibleb_sound. vm_compute. reflexivity. Qed.

Lemma value_received_witness :
  received_on [1; 0]%N sent_received.1 = [x07] ∧
  received_on [1; 0]%N sent_received.1 = content [] sent_traffic [1; 0]%N.
Proof.
  split; [vm_compute; reflexivity|].
  apply (@value_received (λ _, true) leb128_std leb128_std_laws (cm_encoder_std OutgoingFn)
    (cm_encoder_std_laws OutgoingFn) prim_codec_std prim_codec_std_laws sent_ty sent_val []
    1024 sent_paths sent_fn sent_encoded.1.2 sent_encoded.2 sent_writes (λ _, Ok tt) sent_egress
    sent_received.1 sent_received.2 sent_fits sent_fit_traffic).
  - reflexivity.
  - vm_compute. reflexivity.
  - done.
  - apply sent_paths_compatible.
  - vm_compute. reflexivity.
  - apply exec_reachable with sent_receive. vm_compute. reflexivity.
  - vm_compute. reflexivity.
Defined.
