(* ===== verification/Declared.v ===== *)
(** * Declared paths of values

    The paths which the pending parts of a value are sent on are those the
    other side declares for its type: [streams] of [Transmit], against the
    asynchronous paths of [crates/wasmtime/src/paths.rs] and the subscriptions
    of [crates/transport/src/frame/conn/mod.rs]. *)

From S2P Require Import Prelude Wire FrameCodec Subscriptions Resolve Conn Delivery Egress.
From S2P Require Import Introspect Prims Encode Pack Decode Values ValuesStd Transmit.

(** The type of Wasmtime of a Rust type *)
Fixpoint component_ty (t : ty) : Ty :=
  match t with
  | TPrim _ | TU8 | TUnit | TResource => WOther
  | TOption t => WOption (component_ty t)
  | TResult t u => WResult (Some (component_ty t)) (Some (component_ty u))
  | TList t | TArray _ t => WList (component_ty t)
  | TTuple ts => WTuple (map component_ty ts)
  | TFuture t => WFuture (Some (component_ty t))
  | TStream t => WStream (Some (component_ty t))
  | TStreamBytes | TStreamRead => WStream (Some WOther)
  end.

(** The path is that of the value itself, or is one of the set. *)
Definition declared_in (r : gset (list (option N)) * bool) (path : list N) : Prop :=
  path = [] ∧ r.2 = true ∨ ∃ p, p ∈ r.1 ∧ matches p path.

Lemma declared_push r o i path :
  matches_at o i → declared_in r path → ∃ p, p ∈ push_paths o r ∧ matches p (i :: path).
Proof.
  intros Ho [[-> Hr]|(p & Hp & Hm)]; setoid_rewrite elem_of_push_paths.
  - exists [o]. split; [by right|]. constructor; [done|constructor].
  - exists (o :: p). split; [by left; eauto|]. by constructor.
Qed.

Lemma covers_matches p' p path : covers p' p → matches p path → matches p' path.
Proof.
  intros Hc. revert path. induction Hc as [|a b p' p Hab _ IH]; intros path Hm; [done|].
  inversion Hm as [|? i ? path' Hb Hm']; subst. constructor; [|by apply IH].
  unfold matches_at in *. destruct Hab as [->| ->]; auto.
Qed.

Lemma declared_merge ps b path p :
  p ∈ ps → matches p path → declared_in (merge_wildcards ps, b) path.
Proof.
  intros Hp Hm. right. destruct (merge_wildcards_covers ps) as [Hc _].
  destruct (Hc p Hp) as (p' & Hp' & Hcov). exists p'. split; [done|by eapply covers_matches].
Qed.

(** The cases of a result are not indexed. *)
Lemma declared_case r r1 r2 path :
  r = r1 ∨ r = r2 → declared_in r path →
  declared_in (merge_wildcards (r1.1 ∪ r2.1), r1.2 || r2.2) path.
Proof.
  intros Hr [[-> Hb]|(p & Hp & Hm)].
  - left. split; [done|]. cbn [snd]. apply orb_true_iff. destruct Hr as [->| ->]; auto.
  - eapply declared_merge; [|exact Hm]. apply elem_of_union. destruct Hr as [->| ->]; auto.
Qed.

(** ** Elements *)

Lemma indexed_declared (R : N → list N → Prop) i (trs : list traffic) :
  (∀ j tr x, trs !! j = Some tr → x ∈ tr → R (i + N.of_nat j)%N x.1) →
  ∀ x, x ∈ indexed i trs → ∃ j path, x.1 = j :: path ∧ R j path.
Proof.
  revert i. induction trs as [|tr trs IH]; intros i HR x; cbn [indexed].
  { by intros ?%not_elem_of_nil. }
  rewrite elem_of_app. intros [Hx|Hx].
  - apply list_elem_of_fmap in Hx as (y & -> & Hy). exists i, y.1. split; [done|].
    specialize (HR 0 tr y eq_refl Hy). by rewrite N.add_0_r in HR.
  - apply (IH (N.succ i)); [|done]. intros j tr' y Hj Hy.
    replace (N.succ i + N.of_nat j)%N with (i + N.of_nat (S j))%N by lia. by apply (HR (S j) tr').
Qed.

Lemma list_declared r (trs : list traffic) x :
  (∀ tr y, tr ∈ trs → y ∈ tr → declared_in r y.1) → x ∈ indexed 0 trs →
  ∃ p, p ∈ push_paths None r ∧ matches p x.1.
Proof.
  intros Htr Hx. destruct (indexed_declared (λ _, declared_in r) 0 trs) with (x := x)
    as (j & path & -> & Hd); [|done|].
  - intros j tr y Hj. apply Htr. by eapply list_elem_of_lookup_2.
  - apply declared_push; [by left|done].
Qed.

Lemma elem_of_fields_paths i rs j r q :
  rs !! j = Some r → q ∈ push_paths (Some (N.of_nat (i + j))) r → q ∈ fields_paths i rs.
Proof.
  revert i j. induction rs as [|r' rs IH]; intros i [|j] Hj Hq; try done; cbn [fields_paths].
  - injection Hj as ->. rewrite Nat.add_0_r in Hq. apply elem_of_union. by left.
  - apply elem_of_union. right. apply (IH (S i) j Hj). by rewrite Nat.add_succ_r in Hq.
Qed.

(** The fields of a tuple, and the parameters of a function *)
Lemma fields_declared rs (trs : list traffic) x :
  (∀ j tr y, trs !! j = Some tr → y ∈ tr → ∃ r, rs !! j = Some r ∧ declared_in r y.1) →
  x ∈ indexed 0 trs →
  ∃ p, p ∈ ⋃ (imap (λ i r, push_paths (Some (N.of_nat i)) r) rs) ∧ matches p x.1.
Proof.
  intros Htr Hx. rewrite (imap_fields_paths 0).
  destruct (indexed_declared (λ j path, ∃ r, rs !! N.to_nat j = Some r ∧ declared_in r path) 0 trs)
    with (x := x) as (j & path & -> & r & Hr & Hd); [|done|].
  - intros j tr y Hj Hy. rewrite N.add_0_l, Nat2N.id. by eapply Htr.
  - destruct (declared_push r (Some j) j path) as (p & Hp & Hm); [by right|done|].
    exists p. split; [|done]. apply (elem_of_fields_paths 0 _ (N.to_nat j) r); [done|].
    by rewrite Nat.add_0_l, N2Nat.id.
Qed.

Lemma bytes_declared `{Leb128} chunks x :
  x ∈ bytes_traffic chunks → declared_in (∅, true) x.1.
Proof. intros ->%list_elem_of_singleton. by left. Qed.

(** ** Values *)

Section values.
Context `{Leb128} `{PrimCodec}.

Lemma tuple_parts ts (v : val (TTuple ts)) j tr :
  (fix go (ts : list ty) : foldr (λ t A, (val t * A)%type) unit ts → list traffic :=
     match ts with
     | [] => λ _, []
     | t :: ts => λ v, streams t v.1 :: go ts v.2
     end) ts v !! j = Some tr →
  ∃ t v', ts !! j = Some t ∧ tr = streams t v'.
Proof.
  revert v j. induction ts as [|t ts IH]; intros v [|j] Hj; try done.
  - injection Hj as <-. by exists t, v.1.
  - by apply (IH v.2 j).
Qed.

Lemma map_parts {A} (f : A → traffic) vs tr : tr ∈ map f vs → ∃ v, tr = f v.
Proof. intros (v & -> & _)%list_elem_of_fmap. by exists v. Qed.

Lemma stream_parts {A} (e : A → bytes) (f : A → traffic) vss tr :
  tr ∈ (concat (map (map (λ v, (e v, f v))) vss)).*2 → ∃ v, tr = f v.
Proof.
  intros (y & -> & Hy)%list_elem_of_fmap. apply list_elem_of_In, in_concat in Hy as (l & Hl & Hy).
  apply list_elem_of_In, list_elem_of_fmap in Hl as (vs & -> & _).
  apply list_elem_of_In, list_elem_of_fmap in Hy as (v & -> & _). by exists v.
Qed.

(** Every path on which a part of the value is sent is an asynchronous path of
    its type. *)
Lemma streams_declared t v x :
  x ∈ streams t v → declared_in (async_paths [] (component_ty t)) x.1.
Proof.
  revert v x. induction t using ty_ind_nested; cbn [val streams component_ty async_paths]; intros v x.
  - by intros ?%not_elem_of_nil.
  - by intros ?%not_elem_of_nil.
  - by intros ?%not_elem_of_nil.
  - by intros ?%not_elem_of_nil.
  - destruct v; [apply IHt|by intros ?%not_elem_of_nil].
  - destruct v as [v|v]; intros Hx; (eapply declared_case; [|by eauto]); auto.
  - intros Hx. right. eapply list_declared; [|exact Hx]. intros tr y (v' & ->)%map_parts. apply IHt.
  - intros Hx. right. eapply list_declared; [|exact Hx]. intros tr y (v' & ->)%map_parts. apply IHt.
  - intros Hx. right. eapply fields_declared; [|exact Hx].
    intros j tr y (t & v' & Hj & ->)%tuple_parts Hy. exists (async_paths [] (component_ty t)).
    rewrite !list_lookup_fmap, Hj. split; [done|]. rewrite Forall_lookup in H1. by eapply (H1 j t).
  - assert (∀ y, y ∈ streams t (fut_item v) →
      declared_in ((async_paths [] (component_ty t)).1, true) y.1) as Hi.
    { intros y [[-> _]|?]%IHt; [by left|by right]. }
    case_if; [apply Hi|]. intros [->|Hx]%elem_of_cons; [by left|by apply Hi].
  - case_if; [intros Hx|intros [->|Hx]%elem_of_cons]; [right|by left|right];
      (eapply list_declared; [|exact Hx]); intros tr y Htr.
    + apply map_parts in Htr as (v' & ->). apply IHt.
    + apply stream_parts in Htr as (v' & ->). apply IHt.
  - case_if; [by intros ?%not_elem_of_nil|apply bytes_declared].
  - case_if; [by intros ?%not_elem_of_nil|apply bytes_declared].
Qed.

(** Every path on which a pending part of the parameters of a function is
    sent resolves to a declared position of the subscriptions of a peer which
    declares the asynchronous paths of the parameter types: no frame of the
    parameters is for a path which was not declared. *)
Theorem params_declared ts (v : val (TTuple ts)) x tx :
  x ∈ streams (TTuple ts) v →
  let ps := elements (params_async_paths [] (map component_ty ts)) in
  ∃ pt pat, resolve (Subscriptions_new ps tx) x.1 = Some (pt, pat) ∧ p_declared pt = true.
Proof.
  intros Hx ps. apply (resolve_declared_iff _ ps); [|apply s_patterns_new|].
  - apply (async_paths_compatible [] (WTuple (map component_ty ts))).
  - destruct (streams_declared (TTuple ts) v x Hx) as [[_ Hf]|(p & Hp & Hm)]; [done|].
    right. exists p. split; [|done]. by apply elem_of_elements.
Qed.

End values.

(** ** Witnesses *)

Lemma params_declared_witness :
  ∃ pt pat,
    resolve (Subscriptions_new (elements (params_async_paths []
      [WFuture (Some WOther); WStream (Some (WFuture (Some WOther)))])) 0) [1; 0]%N = Some (pt, pat) ∧
    p_declared pt = true.
Proof.
  apply (@params_declared leb128_std prim_codec_std
    [TFuture (TPrim PU32); TStream (TFuture (TPrim PU16))] sent_val ([1; 0]%N, [[x07]]) 0%N).
  vm_compute. right. right. left.
Defined.
