(* ===== verification/Resume.v ===== *)
(** * Decoding from a stream

    The decoders of [crates/transport/src/value.rs] read from streams: an
    encoding may arrive in any number of pieces.  [resumes] says that a decoder
    in a state yields a value for an encoding however it is cut, and the lemmas
    show it of every decoder of the crate, with the operation which the decoder
    defers.  What the decoders of [wasm-tokio] promise is a class of laws. *)

From S2P Require Import Prelude Wire FrameCodec Prims Decode Values.

(** [I] holds of a state and of what is left of an encoding: the decoder asks
    for more, and keeps what it consumed, until the encoding is complete; then
    it yields the value, in a state of [F]. *)
Definition resume_closed {S T} (decode : S → bytes → io_result (option T) * S * bytes)
    (F : S → Prop) (v : T) (I : S → bytes → Prop) : Prop :=
  (∀ s p q, I s (p ++ q) → q ≠ [] →
     ∃ s' c p', p = c ++ p' ∧ decode s p = (Ok None, s', p') ∧ I s' (p' ++ q)) ∧
  (∀ s e rest, I s e → ∃ s', decode s (e ++ rest) = (Ok (Some v), s', rest) ∧ F s').

(** [v] is decoded from [e] in the state [s], however [e] is cut. *)
Definition resumes {S T} (decode : S → bytes → io_result (option T) * S * bytes)
    (F : S → Prop) (s : S) (e : bytes) (v : T) : Prop :=
  ∃ I, resume_closed decode F v I ∧ I s e.

Section resumes.
Context {S T : Type} (decode : S → bytes → io_result (option T) * S * bytes).

Lemma resumes_complete (F : S → Prop) s e v rest :
  resumes decode F s e v → ∃ s', decode s (e ++ rest) = (Ok (Some v), s', rest) ∧ F s'.
Proof. intros (I & (_ & Hc) & HI). by apply Hc. Qed.

Lemma resumes_incomplete (F : S → Prop) s p q v :
  resumes decode F s (p ++ q) v → q ≠ [] →
  ∃ s' c p', p = c ++ p' ∧ decode s p = (Ok None, s', p') ∧ resumes decode F s' (p' ++ q) v.
Proof.
  intros (I & Hc & HI) Hq. destruct (proj1 Hc s p q HI Hq) as (s' & c & p' & -> & Hd & HI').
  exists s', c, p'. split; [done|]. split; [done|]. by exists I.
Qed.

Lemma resumes_closed F v : resume_closed decode F v (λ s e, resumes decode F s e v).
Proof.
  split; [intros; by apply resumes_incomplete|]. intros. by apply resumes_complete.
Qed.

Lemma resumes_mono (F G : S → Prop) s e v :
  (∀ s, F s → G s) → resumes decode F s e v → resumes decode G s e v.
Proof.
  intros HFG (I & (Hi & Hc) & HI). exists I. split; [|done]. split; [done|].
  intros s0 e0 rest H0. destruct (Hc s0 e0 rest H0) as (s' & Hd & HF). eauto.
Qed.

End resumes.

(** A decoder in the state [s] decodes [v] from [e], and defers [d]. *)
Definition coded {D T} (Dec : Decoder D T) (s : dec_state Dec) (e : bytes) (v : T) (d : option D) :
    Prop :=
  resumes (dec_decode Dec) (λ s', dec_take_deferred Dec s' = (d, dec_default Dec)) s e v.

(** What holds of [coded] is what [Resumable] asks for. *)
Definition coded_resumable {D T} (Dec : Decoder D T) : Resumable Dec :=
  mkResumable D T Dec (coded Dec)
    (λ s p q v d, resumes_incomplete (dec_decode Dec) _ s p q v)
    (λ s e v d rest, resumes_complete (dec_decode Dec) _ s e v rest).

Lemma resumable_coded {D T} {Dec : Decoder D T} (R : Resumable Dec) s e v d :
  res_inv R s e v d → coded Dec s e v d.
Proof.
  intros Hi. exists (λ s e, res_inv R s e v d). split; [|done]. split.
  - intros s0 p q H0 Hq. by eapply res_incomplete.
  - intros s0 e0 rest H0. by eapply res_complete.
Qed.

(** ** The decoders of wasm-tokio *)

(** Conditions on the states of the components of a tuple *)
Fixpoint decs_preds {D A} (Decs : Decoders D A) : Type :=
  match Decs with
  | DNil => unit
  | DCons Dec Decs => (dec_state Dec → Prop) * decs_preds Decs
  end.

Fixpoint decs_final {D A} (Decs : Decoders D A) : decs_preds Decs → decs_state Decs → Prop :=
  match Decs with
  | DNil => λ _ _, True
  | DCons Dec Decs => λ Ps ss, Ps.1 ss.1 ∧ decs_final Decs Ps.2 ss.2
  end.

Fixpoint decs_resume {D A} (Decs : Decoders D A) :
    decs_preds Decs → decs_state Decs → list bytes → A → Prop :=
  match Decs with
  | DNil => λ _ _ es _, es = []
  | DCons Dec Decs => λ Ps ss es v,
      match es with
      | e :: es => resumes (dec_decode Dec) Ps.1 ss.1 e v.1 ∧ decs_resume Decs Ps.2 ss.2 es v.2
      | [] => False
      end
  end.

(** The decoders of [wasm-tokio] on streams *)
Class CmDecoderResume (D : Type) `{Leb128, CmDecoder D} : Prop := {
  option_decode_empty T (Dec : Decoder D T) s :
    option_decode Dec (option_wrap Dec s) [] = (Ok None, option_wrap Dec s, []);
  option_resumes T (Dec : Decoder D T) F s e v :
    resumes (dec_decode Dec) F s e v →
    resumes (option_decode Dec) (λ o, ∃ s, o = option_wrap Dec s ∧ F s) (option_wrap Dec s)
      (x01 :: e) (Some v);
  result_resumes_ok A B (G : Decoder D A) (K : Decoder D B) F s t e v :
    resumes (dec_decode G) F s e v →
    resumes (result_decode G K)
      (λ r, F (result_into_inner G K r).1 ∧ (result_into_inner G K r).2 = t)
      (result_wrap G K s t) (x00 :: e) (inl v);
  result_resumes_err A B (G : Decoder D A) (K : Decoder D B) F s t e v :
    resumes (dec_decode K) F t e v →
    resumes (result_decode G K)
      (λ r, (result_into_inner G K r).1 = s ∧ F (result_into_inner G K r).2)
      (result_wrap G K s t) (x01 :: e) (inr v);
  tuple_resumes A (Decs : Decoders D A) Ps ss es v :
    decs_resume Decs Ps ss es v →
    resumes (tuple_decode Decs) (λ ts, decs_final Decs Ps (tuple_into_inner Decs ts))
      (tuple_wrap Decs ss) (concat es) v;
  vec_resumes T (Dec : Decoder D T) es vs :
    Forall2 (resumes (dec_decode Dec) (eq (dec_default Dec)) (dec_default Dec)) es vs →
    (len vs ≤ u32_MAX)%N →
    resumes (core_decode (vec_core Dec)) (eq (core_default (vec_core Dec)))
      (core_default (vec_core Dec)) (leb_encode (len vs) ++ concat es) vs;
  vec_bytes_resumes bs :
    (len bs ≤ u32_MAX)%N →
    resumes (core_decode (vec_bytes_core D)) (eq (core_default (vec_bytes_core D)))
      (core_default (vec_bytes_core D)) (leb_encode (len bs) ++ bs) bs
}.

Class PrimResume `{PrimCodec} : Prop := {
  prim_resumes p v :
    prim_ok p v = true →
    resumes (core_decode (prim_core p)) (eq (core_default (prim_core p)))
      (core_default (prim_core p)) (prim_code p v) v;
  u8_resumes b :
    resumes (core_decode u8_core) (eq (core_default u8_core)) (core_default u8_core) [b] b
}.

(** ** The decoders *)

Section decoders.
Context {D : Type} `{Source D} `{Leb128} {HL : Leb128Laws} `{CmDecoder D}.
Context {HCM : CmDecoderLaws D} {HR : CmDecoderResume D}.

(** Synchronous codecs *)
Lemma sync_coded {T} (C : Core T) e v :
  resumes (core_decode C) (eq (core_default C)) (core_default C) e v →
  coded (D := D) (SyncDecoder C) (core_default C) e v None.
Proof. apply resumes_mono. by intros s <-. Qed.

Lemma vec_coded {T} (Dec : Decoder D T) es vs :
  Forall2 (resumes (dec_decode Dec) (eq (dec_default Dec)) (dec_default Dec)) es vs →
  (len vs ≤ u32_MAX)%N →
  coded (vec_decoder Dec) (dec_default (vec_decoder Dec)) (leb_encode (len vs) ++ concat es) vs None.
Proof. intros. by apply sync_coded, vec_resumes. Qed.

(** A code of one byte, which is not decoded from nothing *)
Lemma resumes_byte {S T} (decode : S → bytes → io_result (option T) * S * bytes) (F : S → Prop) s b v s' :
  decode s [] = (Ok None, s, []) → (∀ rest, decode s (b :: rest) = (Ok (Some v), s', rest)) → F s' →
  resumes decode F s [b] v.
Proof.
  intros Hn Hs HF. exists (λ s0 e, s0 = s ∧ e = [b]). split; [|done]. split.
  - intros s0 p q (-> & He) Hq. destruct p as [|b' p].
    { exists s, [], []. split; [done|]. split; [exact Hn|]. by split. }
    injection He as _ He. by apply app_nil in He as (_ & ?).
  - intros s0 e rest (-> & ->). exists s'. split; [apply Hs|done].
Qed.

Lemma option_resumes_none {T} (Dec : Decoder D T) s :
  resumes (option_decode Dec) (eq (option_wrap Dec s)) (option_wrap Dec s) [x00] None.
Proof.
  eapply resumes_byte; [apply option_decode_empty| |done]. intros rest. apply option_decode_none.
Qed.

(** Options and results *)
Lemma option_coded {T} (Dec : Decoder D T) e v d :
  dec_clean Dec →
  match v with
  | Some v => coded Dec (dec_default Dec) e v d
  | None => e = [] ∧ d = None
  end →
  coded (OptionDecoder Dec) (dec_default (OptionDecoder Dec)) ((if v then x01 else x00) :: e) v d.
Proof.
  intros Hc Hv. destruct v as [v|].
  - eapply resumes_mono; [|by apply option_resumes]. cbn [OptionDecoder dec_take_deferred dec_default].
    intros o (s & -> & Hs). by rewrite option_into_wrap, Hs.
  - destruct Hv as (-> & ->). eapply resumes_mono; [|apply option_resumes_none].
    intros o <-. cbn [OptionDecoder dec_take_deferred dec_default]. by rewrite option_into_wrap, Hc.
Qed.

Lemma result_coded {A B} (F : Decoder D A) (G : Decoder D B) e v d :
  dec_clean F → dec_clean G →
  match v with
  | inl v => coded F (dec_default F) e v d
  | inr v => coded G (dec_default G) e v d
  end →
  coded (ResultDecoder F G) (dec_default (ResultDecoder F G)) ((if v then x00 else x01) :: e) v d.
Proof.
  intros HF HG Hv. destruct v as [v|v].
  - eapply resumes_mono; [|by apply result_resumes_ok]. cbn [ResultDecoder dec_take_deferred dec_default].
    intros r. destruct (result_into_inner F G r) as [s t]. cbn [fst snd]. intros (-> & ->).
    rewrite HG. by destruct d.
  - eapply resumes_mono; [|by apply result_resumes_err]. cbn [ResultDecoder dec_take_deferred dec_default].
    intros r. destruct (result_into_inner F G r) as [s t]. cbn [fst snd]. intros (-> & ->).
    rewrite HF. by destruct d.
Qed.

(** Tuples *)
Fixpoint tuple_coded_as {A} (Decs : Decoders D A) : list bytes → A → list (option D) → Prop :=
  match Decs with
  | DNil => λ es _ ds, es = [] ∧ ds = []
  | DCons Dec Decs => λ es v ds,
      match es, ds with
      | e :: es, d :: ds => coded Dec (dec_default Dec) e v.1 d ∧ tuple_coded_as Decs es v.2 ds
      | _, _ => False
      end
  end.

Lemma tuple_coded {A} (Decs : Decoders D A) es v ds :
  tuple_coded_as Decs es v ds →
  coded (TupleDecoder Decs) (dec_default (TupleDecoder Decs)) (concat es) v (deferred_all_in ds).
Proof.
  intros Hv.
  assert (∃ Ps, decs_resume Decs Ps (decs_default Decs) es v ∧
    ∀ ss, decs_final Decs Ps ss → take_deferred_in Decs ss = ds) as (Ps & Hr & Hf).
  { revert es v ds Hv. induction Decs as [|A B Dec Decs IH]; intros es v ds Hv;
      cbn [tuple_coded_as] in Hv.
    - destruct Hv as (-> & ->). by exists tt.
    - destruct es as [|e es], ds as [|d ds]; try done. destruct Hv as (Hv & Hvs).
      destruct (IH es v.2 ds Hvs) as (Ps & Hr & Hf).
      exists (λ s, dec_take_deferred Dec s = (d, dec_default Dec), Ps). split; [done|].
      intros ss (Hs & Hss). cbn [fst] in Hs. cbn [take_deferred_in]. by rewrite Hs, (Hf _ Hss). }
  eapply resumes_mono; [|by apply tuple_resumes]. intros ts Hts.
  cbn [TupleDecoder dec_take_deferred dec_default]. by rewrite (Hf _ Hts).
Qed.

(** Sequences *)
Lemma list_coded {T} (Dec : Decoder D T) (l : list (element (D := D) (T := T))) :
  Forall (λ x, coded Dec (dec_default Dec) (el_code x) (el_val x) (el_deferred x)) l →
  (len l ≤ u32_MAX)%N →
  coded (ListDecoder Dec) (dec_default (ListDecoder Dec))
    (leb_encode (len l) ++ concat (el_code <$> l)) (el_val <$> l)
    (deferred_all_in (push_all 0 [] (el_deferred <$> l))).
Proof.
  intros Hl Hlen. apply (resumable_coded (ListDecoder_resumable (coded_resumable Dec))).
  eexists. split; [|done]. left. split; [done|]. by exists l.
Qed.

(** [decode] alone, with the operations it collects *)
Lemma list_resumes {T} (Dec : Decoder D T) (l : list (element (D := D) (T := T))) :
  Forall (λ x, coded Dec (dec_default Dec) (el_code x) (el_val x) (el_deferred x)) l →
  (len l ≤ u32_MAX)%N →
  resumes (ListDecoder_decode Dec)
    (eq (mkListDecoder (dec_default Dec) [] 0 (push_all 0 [] (el_deferred <$> l))))
    (ListDecoder_new Dec (dec_default Dec))
    (leb_encode (len l) ++ concat (el_code <$> l)) (el_val <$> l).
Proof.
  intros Hl Hlen.
  exists (λ s e, list_inv (coded_resumable Dec) s e (el_val <$> l) (push_all 0 [] (el_deferred <$> l))).
  split; [split|].
  - intros s p q Hi Hq. by apply list_inv_incomplete.
  - intros s e rest Hi. rewrite (list_inv_complete _ _ _ _ _ _ Hi). by eexists.
  - left. split; [done|]. by exists l.
Qed.

(** The loop of [ArrayDecoder] is that of [ListDecoder]. *)
Definition to_array {T} {Dec : Decoder D T} (s : ListDecoder_state Dec) : ArrayDecoder_state Dec :=
  mkArrayDecoder (ld_dec s) (ld_ret s) (ld_deferred s).

Lemma array_loop_list {T} (Dec : Decoder D T) fuel s src :
  ArrayDecoder_loop Dec fuel (to_array s) src =
  (let '(r, s, src) := ListDecoder_loop Dec fuel s src in (r, to_array s, src)).
Proof.
  revert s src. induction fuel as [|fuel IH]; intros s src; [done|].
  cbn [ArrayDecoder_loop ListDecoder_loop]. unfold to_array at 1. cbn [ad_dec ad_ret ad_deferred].
  destruct (dec_decode Dec (ld_dec s) src) as [[[[v|]|e] dec] src']; [|done..].
  destruct (dec_take_deferred Dec dec) as [d dec'].
  rewrite <- (IH (mkListDecoder dec' (ld_ret s ++ [v]) (ld_cap s - 1)
    match d with
    | Some d => push_deferred (length (ld_ret s)) d (ld_deferred s)
    | None => ld_deferred s
    end)). done.
Qed.

Lemma array_coded {T} (Dec : Decoder D T) (l : list (element (D := D) (T := T))) :
  Forall (λ x, coded Dec (dec_default Dec) (el_code x) (el_val x) (el_deferred x)) l →
  coded (ArrayDecoder (length l) Dec) (dec_default (ArrayDecoder (length l) Dec))
    (concat (el_code <$> l)) (el_val <$> l) (deferred_all_in (push_all 0 [] (el_deferred <$> l))).
Proof.
  set (R := coded_resumable Dec). set (N := length l). intros Hl.
  exists (λ s e, ∃ ls k, s = to_array ls ∧ list_mid R ls k ∧ e = Decode.codes k ∧
    el_val <$> l = ld_ret ls ++ (el_val <$> k) ∧
    push_all 0 [] (el_deferred <$> l) = push_all (length (ld_ret ls)) (ld_deferred ls) (el_deferred <$> k)).
  assert (∀ (ls : ListDecoder_state Dec) (k : list (element (D := D) (T := T))),
    el_val <$> l = ld_ret ls ++ (el_val <$> k) → N - length (ld_ret ls) = length k) as HN.
  { intros ls k He. apply (f_equal length) in He. rewrite length_app, !length_fmap in He. lia. }
  split; [split|].
  - intros s p q (ls & k & -> & Hm & He & Hv & Hd) Hq.
    cbn [ArrayDecoder dec_decode]. unfold ArrayDecoder_decode.
    change (ad_ret (to_array ls)) with (ld_ret ls). rewrite (HN ls k Hv), array_loop_list.
    destruct (loop_incomplete R ls k p q Hm) as (s' & c & p' & -> & -> & k' & Hne & Hm' & He' & Hv' & Hd');
      [done..|]. rewrite <- Hv in Hv'. rewrite <- Hd in Hd'.
    exists (to_array s'), c, p'. split; [done|]. split; [done|]. by exists s', k'.
  - intros s e rest (ls & k & -> & Hm & -> & Hv & Hd).
    cbn [ArrayDecoder dec_decode]. unfold ArrayDecoder_decode.
    change (ad_ret (to_array ls)) with (ld_ret ls). rewrite (HN ls k Hv), array_loop_list.
    rewrite (loop_complete R ls k rest Hm), <- Hv, <- Hd. by eexists.
  - exists (mkListDecoder (dec_default Dec) [] (len l) []), l. split; [done|].
    split; [by apply (el_codes_mid R)|done].
Qed.

(** The decoders of futures and streams: their states, and what they do with
    the result of the option decoder *)
Definition async_default {T} (Dec : Decoder D T) : AsyncDecoder_state Dec :=
  mkAsyncDecoder (option_wrap Dec (dec_default Dec)) None.

Lemma async_resumes {T U} (Dec : Decoder D T)
    (g : AsyncDecoder_state Dec → bytes → io_result (option U) * AsyncDecoder_state Dec * bytes)
    F e ov u d :
  resumes (option_decode Dec) F (option_wrap Dec (dec_default Dec)) e ov →
  (∀ s src dec src', as_deferred s = None → option_decode Dec (as_dec s) src = (Ok None, dec, src') →
     g s src = (Ok None, mkAsyncDecoder dec None, src')) →
  (∀ s src dec src', as_deferred s = None →
     option_decode Dec (as_dec s) src = (Ok (Some ov), dec, src') → F dec →
     g s src = (Ok (Some u), mkAsyncDecoder (option_wrap Dec (dec_default Dec)) d, src')) →
  resumes g (λ s, (as_deferred s, mkAsyncDecoder (as_dec s) None) = (d, async_default Dec))
    (async_default Dec) e u.
Proof.
  intros (I & (Hi & Hc) & HI) Hn Hs. exists (λ s e, as_deferred s = None ∧ I (as_dec s) e).
  split; [split|done].
  - intros s p q (Hd & Hp) Hq. destruct (Hi _ _ _ Hp Hq) as (dec & c & p' & -> & Ho & Hp').
    exists (mkAsyncDecoder dec None), c, p'. split; [done|]. split; [by apply Hn|done].
  - intros s e0 rest (Hd & He). destruct (Hc _ _ rest He) as (dec & Ho & HF).
    eexists. split; [by apply (Hs s _ dec)|done].
Qed.

Lemma future_coded_ready {T} (Dec : Decoder D T) e v d :
  coded Dec (dec_default Dec) e v d →
  coded (FutureDecoder Dec) (async_default Dec) (x01 :: e) (Some v) d.
Proof.
  intros Hv. eapply (async_resumes Dec (FutureDecoder_decode Dec)); [by apply option_resumes|..];
    intros s src dec src' Hd Ho; unfold FutureDecoder_decode; rewrite Ho.
  - by rewrite Hd.
  - intros (s' & -> & HF). cbn [OptionDecoder dec_take_deferred]. by rewrite option_into_wrap, HF.
Qed.

Lemma future_coded_pending {T} (Dec : Decoder D T) :
  coded (FutureDecoder Dec) (async_default Dec) [x00] None
    (Some (receive_future Dec (dec_default Dec))).
Proof.
  eapply (async_resumes Dec (FutureDecoder_decode Dec)); [apply option_resumes_none|..];
    intros s src dec src' Hd Ho; unfold FutureDecoder_decode; rewrite Ho.
  - by rewrite Hd.
  - intros <-. by rewrite option_into_wrap.
Qed.

Lemma stream_coded_ready {T} (C : Decode D T) e vs d :
  coded (decode_list C) (dec_default (decode_list C)) e vs d →
  coded (StreamDecoder C) (async_default (decode_list C)) (x01 :: e) (Some (ready_stream vs)) d.
Proof.
  intros Hv. eapply (async_resumes (decode_list C) (StreamDecoder_decode C)); [by apply option_resumes|..];
    intros s src dec src' Hd Ho; unfold StreamDecoder_decode; rewrite Ho.
  - by rewrite Hd.
  - intros (s' & -> & HF). cbn [OptionDecoder dec_take_deferred]. by rewrite option_into_wrap, HF.
Qed.

Lemma stream_coded_pending {T} (C : Decode D T) :
  coded (StreamDecoder C) (async_default (decode_list C)) [x00] None
    (Some (receive_stream (decode_dec C))).
Proof.
  eapply (async_resumes (decode_list C) (StreamDecoder_decode C)); [apply option_resumes_none|..];
    intros s src dec src' Hd Ho; unfold StreamDecoder_decode; rewrite Ho.
  - by rewrite Hd.
  - by intros <-.
Qed.

Lemma stream_bytes_coded_ready bs :
  (len bs ≤ u32_MAX)%N →
  coded StreamDecoderBytes (async_default vec_bytes_decoder) (x01 :: leb_encode (len bs) ++ bs)
    (Some (ready_stream bs)) None.
Proof.
  intros Hlen. eapply (async_resumes vec_bytes_decoder StreamDecoderBytes_decode);
    [apply option_resumes, (vec_bytes_resumes bs Hlen)|..];
    intros s src dec src' Hd Ho; unfold StreamDecoderBytes_decode; rewrite Ho.
  - by rewrite Hd.
  - intros (s' & -> & <-). by rewrite Hd.
Qed.

Lemma stream_bytes_coded_pending :
  coded StreamDecoderBytes (async_default vec_bytes_decoder) [x00] None
    (Some (receive_stream_bytes vec_bytes_decoder (dec_default vec_bytes_decoder))).
Proof.
  eapply (async_resumes vec_bytes_decoder StreamDecoderBytes_decode); [apply option_resumes_none|..];
    intros s src dec src' Hd Ho; unfold StreamDecoderBytes_decode; rewrite Ho.
  - by rewrite Hd.
  - intros <-. by rewrite option_into_wrap.
Qed.

End decoders.
