(* ===== verification/Receive.v ===== *)
(** * Reception of pending values

    Model of [BufferedIncoming] of [crates/transport/src/lib.rs] and of the
    deferred operations of the decoders of [crates/transport/src/value.rs]: how
    the futures and streams which are pending when a value is decoded are
    received from the sub-streams of a connection.

    The data of a path, in the chunks in which it is read up to its end, comes
    from [env_data], which fails where [Incoming::index] does, and [env_open]
    tells whether the receiver of the items is still held when an item is sent
    to it.  A deferred operation yields what it sends to the receivers of its
    pending values, by their paths.  Operations on different elements run
    concurrently, and each reads paths of its own: they are modelled one after
    the other.  [FramedRead] of [tokio-util] is a parameter. *)

From S2P Require Import Prelude Wire FrameCodec Prims Encode Pack Decode Values.
From S2P Require Import Subscriptions Resolve Conn Delivery Egress Transmit Resume ValuesStd.

(** ** BufferedIncoming *)

(** [bi_rest] are the chunks which [inner] still yields. *)
Record BufferedIncoming := mkBufferedIncoming {
  bi_buffer : bytes;
  bi_path : list N;
  bi_rest : list bytes
}.

(** What is left to read *)
Definition bi_data (r : BufferedIncoming) : bytes := bi_buffer r ++ concat (bi_rest r).

(** [Incoming::poll_read], where an empty read is the end *)
Fixpoint inner_read (cap : nat) (rest : list bytes) : bytes * list bytes :=
  match rest with
  | [] => ([], [])
  | [] :: rest => inner_read cap rest
  | chunk :: rest =>
      if cap <? length chunk then (take cap chunk, drop cap chunk :: rest) else (chunk, rest)
  end.

Lemma inner_read_spec n rest chunk rest' :
  inner_read (S n) rest = (chunk, rest') →
  chunk ++ concat rest' = concat rest ∧ (chunk = [] → concat rest = []).
Proof.
  induction rest as [|[|b c] rest IH]; cbn [inner_read concat]; [by intros [= <- <-]|done|].
  destruct (Nat.ltb_spec (S n) (length (b :: c))); intros (<- & <-)%pair_equal_spec; [|done].
  cbn [concat]. by rewrite app_assoc, take_drop.
Qed.

Definition BufferedIncoming_poll_read (cap : nat) (r : BufferedIncoming) : bytes * BufferedIncoming :=
  if cap =? 0 then ([], r)
  else
    match bi_buffer r with
    | [] =>
        let '(chunk, rest) := inner_read cap (bi_rest r) in
        (chunk, mkBufferedIncoming [] (bi_path r) rest)
    | buffer =>
        if cap <? length buffer then
          (take cap buffer, mkBufferedIncoming (drop cap buffer) (bi_path r) (bi_rest r))
        else (buffer, mkBufferedIncoming [] (bi_path r) (bi_rest r))
    end.

(** [fail_unprocessed] is called when a reader with a buffer is dropped. *)
Definition BufferedIncoming_drop (r : BufferedIncoming) : bool :=
  match bi_buffer r with [] => false | _ => true end.

Record Env := mkEnv {
  env_data : list N → option (list bytes);
  env_open : list N → nat → bool
}.

(** The error of [Incoming::index] becomes [Other]. *)
Definition BufferedIncoming_index (env : Env) (r : BufferedIncoming) (path : list N) :
    io_result BufferedIncoming :=
  let? rest := ok_or Other (env_data env (bi_path r ++ path)) in
  Ok (mkBufferedIncoming [] (bi_path r ++ path) rest).

(** ** Deferred operations *)

(** A value with its type *)
Record dyn := Dyn { dyn_type : Type; dyn_value : dyn_type }.

(** What a pending value resolves to, by its path: the item of a future, and
    the chunks of a stream *)
Abbreviation delivery := (list N * dyn)%type.
Abbreviation IncomingFn := (Env → BufferedIncoming → result ErrorKind (list (list N * dyn))).

(** [FramedRead] of [tokio-util]: [next] takes the decoder, the read buffer and
    the reader, and yields the item. *)
Class FramedRead := {
  framed_next : ∀ T (Dec : Decoder IncomingFn T), dec_state Dec → bytes → BufferedIncoming →
    option (io_result T) * dec_state Dec * bytes * BufferedIncoming
}.
Arguments framed_next {_ T}.

(** It yields the value whose encoding it reads, however it is cut, and keeps
    what it has read after it; and it ends at the end of the reader. *)
Class FramedReadLaws `{FramedRead} : Prop := {
  framed_next_value T (Dec : Decoder IncomingFn T) F s buf r e v rest :
    resumes (dec_decode Dec) F s e v → buf ++ bi_data r = e ++ rest →
    ∃ s' buf' r', framed_next Dec s buf r = (Some (Ok v), s', buf', r') ∧ F s' ∧
      buf' ++ bi_data r' = rest ∧ bi_path r' = bi_path r;
  framed_next_end T (Dec : Decoder IncomingFn T) s s' r :
    bi_data r = [] → dec_decode Dec s [] = (Ok None, s', []) →
    (framed_next Dec s [] r).1.1.1 = None
}.

Section receive.
Context `{Leb128} `{FramedRead}.

Definition ensure_processed (buf : bytes) (r : BufferedIncoming) : io_result unit :=
  match buf, bi_buffer r with [], [] => Ok tt | _, _ => Err InvalidData end.

(** The operations of elements from the index [i], with their readers *)
Fixpoint spawn_all (env : Env) (r : BufferedIncoming) (i : N) (deferred : list (option IncomingFn)) :
    io_result (list (IncomingFn * BufferedIncoming)) :=
  match deferred with
  | [] => Ok []
  | None :: deferred => spawn_all env r (N.succ i) deferred
  | Some f :: deferred =>
      let? r' := BufferedIncoming_index env r [i] in
      let? futs := spawn_all env r (N.succ i) deferred in
      Ok ((f, r') :: futs)
  end.

Fixpoint join_all (env : Env) (futs : list (IncomingFn * BufferedIncoming)) : io_result (list delivery) :=
  match futs with
  | [] => Ok []
  | (f, r) :: futs =>
      let? ds := f env r in
      let? dss := join_all env futs in
      Ok (ds ++ dss)
  end.

(** [handle_deferred] *)
Definition Incoming_handle_deferred (deferred : list (option IncomingFn)) : IncomingFn :=
  λ env r, let? futs := spawn_all env r 0 deferred in join_all env futs.

(** The deferred operation of [FutureDecoder] *)
Definition receive_pending_future {T} (Dec : Decoder IncomingFn T) (dec : dec_state Dec) : IncomingFn :=
  λ env r,
    let '(item, dec, buf, r) := framed_next Dec dec [] r in
    match item with
    | None => Err UnexpectedEof
    | Some item =>
        let? item := item in
        let rx := (dec_take_deferred Dec dec).1 in
        let? _ := match rx with None => ensure_processed buf r | Some _ => Ok tt end in
        if env_open env (bi_path r) 0 then
          let d := (bi_path r, Dyn T item) in
          match rx with
          | None => Ok [d]
          | Some rx =>
              let? ds := rx env (mkBufferedIncoming (buf ++ bi_buffer r) (bi_path r) (bi_rest r)) in
              Ok (d :: ds)
          end
        else Err BrokenPipe
    end.

(** [ListDecoder] as [handle_deferred_stream] uses it: its operations are taken
    from its field. *)
Definition ChunkDecoder {T} (Dec : Decoder IncomingFn T) : Decoder IncomingFn (list T) :=
  SyncDecoder (mkCore (ListDecoder_state Dec) (ListDecoder_new Dec (dec_default Dec))
    (ListDecoder_decode Dec)).

(** The loop of [handle_deferred_stream] at the element [i] and the chunk [k]:
    the chunks which are sent, and what the elements send.  The operations of
    the elements are joined at the end of the stream, or at that of its data.
    Every iteration takes at least a byte: the length of the data is fuel
    enough. *)
Fixpoint receive_chunks {T} (Dec : Decoder IncomingFn T) (env : Env) (fuel k : nat) (i : N)
    (dec : ListDecoder_state Dec) (buf : bytes) (r : BufferedIncoming)
    (tasks : list (IncomingFn * BufferedIncoming)) : io_result (list (list T) * list delivery) :=
  match fuel with
  | O => Err Other
  | S fuel =>
      match framed_next (ChunkDecoder Dec) dec buf r with
      | (None, _, _, _) => let? _ := join_all env tasks in Err UnexpectedEof
      | (Some (Err e), _, _, _) => Err e
      | (Some (Ok []), _, buf, r) =>
          let? _ := ensure_processed buf r in
          let? ds := join_all env tasks in
          Ok ([], ds)
      | (Some (Ok chunk), dec, buf, r) =>
          if (usize_MAX <? i + len chunk)%N then Err InvalidInput
          else
            let? futs := spawn_all env r i (ld_deferred dec) in
            if env_open env (bi_path r) k then
              let dec := mkListDecoder (ld_dec dec) (ld_ret dec) (ld_cap dec) [] in
              let? (chunks, ds) :=
                receive_chunks Dec env fuel (S k) (i + len chunk) dec buf r (tasks ++ futs) in
              Ok (chunk :: chunks, ds)
            else Err BrokenPipe
      end
  end.

(** [handle_deferred_stream] *)
Definition handle_deferred_stream {T} (Dec : Decoder IncomingFn T) : IncomingFn :=
  λ env r,
    let? (chunks, ds) :=
      receive_chunks Dec env (S (length (bi_data r))) 0 0 (ListDecoder_new Dec (dec_default Dec)) [] r [] in
    Ok ((bi_path r, Dyn (list (list T)) chunks) :: ds).

(** The loop of the deferred operation of [StreamDecoderBytes] *)
Fixpoint receive_bytes_chunks (Dec : Decoder IncomingFn bytes) (env : Env) (fuel k : nat)
    (dec : dec_state Dec) (buf : bytes) (r : BufferedIncoming) : io_result (list bytes) :=
  match fuel with
  | O => Err Other
  | S fuel =>
      match framed_next Dec dec buf r with
      | (None, _, _, _) => Err UnexpectedEof
      | (Some (Err e), _, _, _) => Err e
      | (Some (Ok []), _, buf, r) => let? _ := ensure_processed buf r in Ok []
      | (Some (Ok chunk), dec, buf, r) =>
          if env_open env (bi_path r) k then
            let? chunks := receive_bytes_chunks Dec env fuel (S k) dec buf r in
            Ok (chunk :: chunks)
          else Err BrokenPipe
      end
  end.

(** The deferred operation of [StreamDecoderBytes] *)
Definition receive_pending_bytes (Dec : Decoder IncomingFn bytes) (dec : dec_state Dec) : IncomingFn :=
  λ env r,
    let? chunks := receive_bytes_chunks Dec env (S (length (bi_data r))) 0 dec [] r in
    Ok [(bi_path r, Dyn (list bytes) chunks)].

#[global] Instance IncomingSource : Source IncomingFn := {|
  handle_deferred_in := Incoming_handle_deferred;
  receive_future := @receive_pending_future;
  receive_stream := @handle_deferred_stream;
  receive_stream_bytes := receive_pending_bytes
|}.

End receive.

(** ** What is received *)

(** The deliveries of a reader of the path [p] *)
Definition deliver_at (p : list N) (ds : list delivery) : list delivery := (λ x, (p ++ x.1, x.2)) <$> ds.

Lemma deliver_at_app p ds ds' : deliver_at p (ds ++ ds') = deliver_at p ds ++ deliver_at p ds'.
Proof. apply fmap_app. Qed.

Lemma deliver_at_push p i ds : deliver_at p (push i ds) = deliver_at (p ++ [i]) ds.
Proof.
  unfold deliver_at, push. rewrite <- list_fmap_compose. apply list_fmap_ext. intros j x _.
  cbn. by rewrite <- app_assoc.
Qed.

(** The path is one of the traffic, or leads to one. *)
Definition on_way (tr : traffic) (q : list N) : Prop := ∃ p, p ∈ tr.*1 ∧ q `prefix_of` p.

(** The reader and the paths on the way of the traffic carry it. *)
Definition supplied (env : Env) (r : BufferedIncoming) (tr : traffic) : Prop :=
  bi_data r = content [] tr [] ∧
  ∀ q, q ≠ [] → on_way tr q → ∃ cs, env_data env (bi_path r ++ q) = Some cs ∧ concat cs = content [] tr q.

Definition held (env : Env) : Prop := ∀ p k, env_open env p k = true.

(** The deferred operation yields the deliveries from the traffic. *)
Definition obtains (d : option IncomingFn) (tr : traffic) (ds : list delivery) : Prop :=
  (d = None ↔ tr = []) ∧ (tr = [] → ds = []) ∧
  ∀ f env r, d = Some f → held env → supplied env r tr → f env r = Ok (deliver_at (bi_path r) ds).

Lemma obtains_none : obtains None [] [].
Proof. by split_and!. Qed.

Lemma obtains_some f tr ds :
  tr ≠ [] →
  (∀ env r, held env → supplied env r tr → f env r = Ok (deliver_at (bi_path r) ds)) →
  obtains (Some f) tr ds.
Proof. intros Ht Hf. split_and!; [done|done|]. intros ? env r [= <-]. apply Hf. Qed.

(** *** Elements *)

Lemma content_push_ne i j tr q : i ≠ j → content [] (push i tr) (j :: q) = [].
Proof.
  intros Hij. induction tr as [|x tr IH]; [done|]. unfold push. rewrite fmap_cons, content_cons.
  cbn [fst snd app]. rewrite decide_False by congruence. exact IH.
Qed.

Lemma content_indexed_lt i j trs q : (j < i)%N → content [] (indexed i trs) (j :: q) = [].
Proof.
  revert i. induction trs as [|tr trs IH]; intros i Hj; [done|]. cbn [indexed].
  by rewrite content_app, IH, content_push_ne by lia.
Qed.

Lemma content_indexed_ge i j trs q : (i + len trs ≤ j)%N → content [] (indexed i trs) (j :: q) = [].
Proof.
  revert i. induction trs as [|tr trs IH]; intros i; [done|]. rewrite len_cons. intros Hj.
  cbn [indexed]. rewrite content_app, IH, content_push_ne by lia. done.
Qed.

Lemma content_push_same i tr q : content [] (push i tr) (i :: q) = content [] tr q.
Proof.
  induction tr as [|x tr IH]; [done|]. unfold push. rewrite fmap_cons, !content_cons.
  cbn [fst snd app]. fold (push i tr). rewrite IH.
  destruct (decide (x.1 = q)) as [<-|Hx]; [by rewrite decide_True|].
  by rewrite decide_False by congruence.
Qed.

(** The data of the elements from [i] of a reader of the path [p] *)
Definition supplied_from (env : Env) (p : list N) (i : N) (trs : list traffic) : Prop :=
  ∀ j q, (i ≤ j < i + len trs)%N → on_way (indexed i trs) (j :: q) →
    ∃ cs, env_data env (p ++ j :: q) = Some cs ∧ concat cs = content [] (indexed i trs) (j :: q).

Lemma on_way_app tr tr' q : on_way (tr ++ tr') q ↔ on_way tr q ∨ on_way tr' q.
Proof. unfold on_way. rewrite fmap_app. setoid_rewrite elem_of_app. naive_solver. Qed.

Lemma on_way_push i tr q : on_way tr q → on_way (push i tr) (i :: q).
Proof.
  intros (p & (x & -> & Hx)%list_elem_of_fmap & Hq). exists (i :: x.1). split; [|by apply prefix_cons].
  apply list_elem_of_fmap. exists (i :: x.1, x.2). split; [done|]. apply list_elem_of_fmap. by exists x.
Qed.

Lemma on_way_nil tr : tr ≠ [] → on_way tr [].
Proof. destruct tr as [|x tr]; [done|]. intros _. exists x.1. split; [by left|apply prefix_nil]. Qed.

Lemma supplied_indexed env r trs :
  supplied env r (indexed 0 trs) → supplied_from env (bi_path r) 0 trs.
Proof. intros (_ & Hs) j q _. by apply Hs. Qed.

Lemma supplied_next env p i tr trs :
  supplied_from env p i (tr :: trs) → supplied_from env p (N.succ i) trs.
Proof.
  intros Hs j q Hj Hw. destruct (Hs j q) as (cs & He & Hc); [rewrite len_cons; lia|apply on_way_app; by right|].
  exists cs. split; [done|]. rewrite Hc. cbn [indexed]. by rewrite content_app, content_push_ne by lia.
Qed.

Lemma supplied_element env p i tr trs :
  tr ≠ [] → supplied_from env p i (tr :: trs) →
  ∃ cs, env_data env (p ++ [i]) = Some cs ∧ supplied env (mkBufferedIncoming [] (p ++ [i]) cs) tr.
Proof.
  intros Hne Hs.
  assert (∀ q, on_way tr q → ∃ cs, env_data env (p ++ i :: q) = Some cs ∧ concat cs = content [] tr q) as Hi.
  { intros q Hw. destruct (Hs i q) as (cs & He & Hc);
      [rewrite len_cons; lia|apply on_way_app; left; by apply on_way_push|]. exists cs. split; [done|].
    rewrite Hc. cbn [indexed]. rewrite content_app, content_push_same, content_indexed_lt by lia.
    by rewrite app_nil_r. }
  destruct (Hi []) as (cs & He & Hc); [by apply on_way_nil|]. exists cs. split; [done|]. split; [done|].
  intros q _ Hw. cbn [bi_path]. rewrite <- app_assoc. by apply Hi.
Qed.

Lemma supplied_app env p i trs trs' :
  supplied_from env p i (trs ++ trs') →
  supplied_from env p i trs ∧ supplied_from env p (i + len trs) trs'.
Proof.
  intros Hs. split; intros j q Hj Hw;
    (destruct (Hs j q) as (cs & He & Hc); [rewrite len_app; lia|rewrite indexed_app, on_way_app; auto|]);
    exists cs; (split; [done|]); rewrite Hc, indexed_app, content_app.
  - by rewrite (content_indexed_lt (i + len trs)), app_nil_r by lia.
  - by rewrite content_indexed_ge by lia.
Qed.

(** An element of a stream: its encoding, its value and its operation, its
    traffic, and what it resolves to *)
Abbreviation item T := (element (D := IncomingFn) (T := T) * traffic * list delivery)%type.

Section deferred.
Context `{Leb128} {HL : Leb128Laws} `{FramedRead} {HF : FramedReadLaws}.

Lemma spawn_join env r i ds trs arrs :
  Forall3 obtains ds trs arrs → held env → supplied_from env (bi_path r) i trs →
  ∃ futs, spawn_all env r i ds = Ok futs ∧
    join_all env futs = Ok (deliver_at (bi_path r) (indexed i arrs)).
Proof.
  intros Hd Ho. revert i.
  induction Hd as [|d tr arr ds trs arrs (Hn & Ha & Hd) _ IH]; intros i Hs; [by exists []|].
  destruct (IH (N.succ i)) as (futs & Hf & Hj); [by eapply supplied_next|].
  cbn [indexed spawn_all]. rewrite deliver_at_app, deliver_at_push. destruct d as [f|].
  - destruct (supplied_element _ _ _ _ _ ltac:(intros Ht; by apply Hn in Ht) Hs) as (cs & He & Hr).
    unfold BufferedIncoming_index. rewrite He. cbn [ok_or rbind]. rewrite Hf. cbn [rbind].
    eexists. split; [done|]. cbn [join_all]. rewrite (Hd f env _ eq_refl Ho Hr). cbn [rbind bi_path].
    by rewrite Hj.
  - rewrite (Ha (proj1 Hn eq_refl)). eauto.
Qed.

Lemma join_all_app env futs futs' ds ds' :
  join_all env futs = Ok ds → join_all env futs' = Ok ds' → join_all env (futs ++ futs') = Ok (ds ++ ds').
Proof.
  intros Hf Hf'. revert ds Hf. induction futs as [|[f r] futs IH]; intros ds Hf; cbn [app join_all] in *.
  { by injection Hf as <-. }
  destruct (f env r) as [d|]; [|done]. cbn [rbind] in *.
  destruct (join_all env futs) as [dss|]; [|done]. cbn [rbind] in Hf. injection Hf as <-.
  rewrite (IH dss eq_refl). cbn [rbind]. by rewrite app_assoc.
Qed.

(** The operations collected by a decoder of sequences, up to the last one *)
Lemma push_all_trailing {D} i (deferred ds : list (option D)) :
  length deferred ≤ i →
  ∃ k, push_all i deferred ds ++ replicate k None =
       deferred ++ replicate (i - length deferred) None ++ ds.
Proof.
  revert i deferred. induction ds as [|d ds IH]; intros i deferred Hl; cbn [push_all].
  { exists (i - length deferred). by rewrite app_nil_r. }
  destruct d as [d|].
  - destruct (IH (S i) (push_deferred i d deferred)) as (k & Hk).
    { unfold push_deferred. rewrite length_app, length_resize. simpl. lia. }
    exists k. rewrite Hk. unfold push_deferred. rewrite length_app, length_resize.
    replace (S i - (i + length [Some d])) with 0 by (simpl; lia). cbn [replicate app].
    rewrite resize_ge by done. by rewrite <- !app_assoc.
  - destruct (IH (S i) deferred) as (k & Hk); [lia|]. exists k. rewrite Hk. f_equal.
    replace (S i - length deferred) with ((i - length deferred) + 1) by lia.
    by rewrite replicate_add, <- app_assoc.
Qed.

Lemma spawn_all_trailing env r i ds k : spawn_all env r i (ds ++ replicate k None) = spawn_all env r i ds.
Proof.
  revert i. induction ds as [|[f|] ds IH]; intros i; cbn [app spawn_all]; [|by rewrite IH..].
  revert i. induction k as [|k IHk]; intros i; [done|]. cbn. apply IHk.
Qed.

Lemma any_deferred_iff ds trs arrs i :
  Forall3 obtains ds trs arrs → any_deferred ds = false ↔ indexed i trs = [].
Proof.
  intros Hd. revert i. induction Hd as [|d tr arr ds trs arrs (Hn & _) _ IH]; intros i; [done|].
  unfold any_deferred in *. cbn [existsb indexed]. rewrite orb_false_iff, app_nil, (IH (N.succ i)).
  apply and_iff_compat_r. transitivity (tr = []); [rewrite <- Hn; by destruct d|by destruct tr].
Qed.

Lemma indexed_deliveries_nil ds trs arrs i :
  Forall3 obtains ds trs arrs → indexed i trs = [] → indexed i arrs = [].
Proof.
  intros Hd. revert i. induction Hd as [|d tr arr ds trs arrs (_ & Ha & _) _ IH]; intros i; [done|].
  cbn [indexed]. rewrite app_nil. intros (Ht & Hts). rewrite (IH _ Hts), Ha; [done|].
  by destruct tr.
Qed.

Lemma obtains_all ds ds' k trs arrs :
  Forall3 obtains ds trs arrs → ds' ++ replicate k None = ds →
  obtains (deferred_all_in ds') (indexed 0 trs) (indexed 0 arrs).
Proof.
  intros Hd Hk.
  assert (any_deferred ds' = false ↔ indexed 0 trs = []) as Ha.
  { rewrite <- (any_deferred_iff ds trs arrs 0 Hd), <- Hk. unfold any_deferred.
    rewrite existsb_app, orb_false_iff. split; [|by intros []]. intros ->. split; [done|].
    clear. by induction k. }
  unfold deferred_all_in. destruct (any_deferred ds').
  - apply obtains_some; [by rewrite <- Ha|]. intros env r Ho Hs. cbn [handle_deferred_in IncomingSource].
    unfold Incoming_handle_deferred. rewrite <- (spawn_all_trailing _ _ _ _ k), Hk.
    destruct (spawn_join env r 0 ds trs arrs) as (futs & -> & Hj);
      [done|done|by apply supplied_indexed|]. by cbn [rbind].
  - rewrite (proj1 Ha eq_refl), (indexed_deliveries_nil ds trs arrs 0 Hd (proj1 Ha eq_refl)).
    apply obtains_none.
Qed.

(** *** Futures *)

Lemma content_own ds tr : content [] (([], ds) :: tr) [] = concat ds ++ content [] tr [].
Proof. rewrite content_cons. cbn [fst snd app]. by rewrite decide_True. Qed.

Lemma content_other ds tr q : q ≠ [] → content [] (([], ds) :: tr) q = content [] tr q.
Proof. intros Hq. rewrite content_cons. cbn [fst snd app]. by rewrite decide_False. Qed.

(** Nothing is left of the data. *)
Lemma processed buf r : buf ++ bi_data r = [] → ensure_processed buf r = Ok tt.
Proof.
  intros (-> & Hd)%app_nil. apply app_nil in Hd as (Hb & _). unfold ensure_processed. by rewrite Hb.
Qed.

Lemma future_obtains {T} (Dec : Decoder IncomingFn T) e v d tr arr :
  coded Dec (dec_default Dec) e v d → obtains d tr arr →
  obtains (Some (receive_pending_future Dec (dec_default Dec))) (([], [e]) :: tr) (([], Dyn T v) :: arr).
Proof.
  intros Hc (Hn & Ha & Hd). apply obtains_some; [done|]. intros env r Ho (Hr & Hq).
  rewrite content_own in Hr. cbn [concat] in Hr. rewrite app_nil_r in Hr.
  destruct (framed_next_value _ Dec _ (dec_default Dec) [] r e v _ Hc Hr) as (s' & buf & r' & Hf & Ht & Hb & Hp).
  unfold receive_pending_future. rewrite Hf, Ht. cbn [rbind fst]. rewrite Ho.
  unfold deliver_at. rewrite fmap_cons. cbn [fst snd]. rewrite app_nil_r, Hp. destruct d as [f|].
  - cbn [rbind]. rewrite (Hd f env _ eq_refl Ho); [done|]. split.
    + cbn. rewrite <- app_assoc. exact Hb.
    + intros q Hq0 Hw. cbn [bi_path]. destruct (Hq q Hq0) as (cs & He & Hcs); [by apply (on_way_app [_]); right|]. exists cs. split; [done|].
      by rewrite Hcs, content_other.
  - specialize (proj1 Hn eq_refl) as Htr. subst tr. rewrite (Ha eq_refl).
    rewrite processed by done. done.
Qed.

(** *** Streams *)

Definition item_ok {T} (Dec : Decoder IncomingFn T) (x : item T) : Prop :=
  coded Dec (dec_default Dec) (el_code x.1.1) (el_val x.1.1) (el_deferred x.1.1) ∧
  obtains (el_deferred x.1.1) x.1.2 x.2.

Definition items_code {T} (c : list (item T)) : bytes :=
  leb_encode (len c) ++ concat (el_code <$> c.*1.*1).

Lemma items_obtain {T} (Dec : Decoder IncomingFn T) c :
  Forall (item_ok Dec) c → Forall3 obtains (el_deferred <$> c.*1.*1) c.*1.*2 c.*2.
Proof. induction 1 as [|x c (_ & Hx) _ IH]; constructor; done. Qed.

Lemma items_resume {T} (Dec : Decoder IncomingFn T) (c : list (item T)) :
  Forall (item_ok Dec) c → (len c ≤ u32_MAX)%N →
  resumes (dec_decode (ChunkDecoder Dec))
    (eq (mkListDecoder (dec_default Dec) [] 0 (push_all 0 [] (el_deferred <$> c.*1.*1))))
    (ListDecoder_new Dec (dec_default Dec)) (items_code c) (el_val <$> c.*1.*1).
Proof.
  intros Hc Hlen.
  assert (len c = len c.*1.*1) as Hl by (unfold len; by rewrite !length_fmap).
  unfold items_code. rewrite Hl in Hlen |- *. apply (list_resumes Dec c.*1.*1); [|done].
  clear Hl Hlen. induction Hc as [|x c (Hx & _) _ IH]; constructor; done.
Qed.

Lemma len_fmap {A B} (f : A → B) l : len (f <$> l) = len l.
Proof. unfold len. by rewrite length_fmap. Qed.

(** A chunk is sent on, and the operations of its elements run. *)
Lemma receive_chunk {T} (Dec : Decoder IncomingFn T) env (c : list (item T)) fuel k i buf r tasks rest :
  held env → Forall (item_ok Dec) c → c ≠ [] → (len c ≤ u32_MAX)%N → (i + len c ≤ usize_MAX)%N →
  buf ++ bi_data r = items_code c ++ rest → supplied_from env (bi_path r) i c.*1.*2 →
  ∃ buf' r' futs, bi_path r' = bi_path r ∧ buf' ++ bi_data r' = rest ∧
    join_all env futs = Ok (deliver_at (bi_path r) (indexed i c.*2)) ∧
    receive_chunks Dec env (S fuel) k i (ListDecoder_new Dec (dec_default Dec)) buf r tasks =
    (let? (chunks, ds) := receive_chunks Dec env fuel (S k) (i + len c)
       (ListDecoder_new Dec (dec_default Dec)) buf' r' (tasks ++ futs) in
     Ok ((el_val <$> c.*1.*1) :: chunks, ds)).
Proof.
  intros Ho Hc Hne Hlen Hi Hd Hs. cbn [receive_chunks].
  destruct (framed_next_value _ (ChunkDecoder Dec) _ (ListDecoder_new Dec (dec_default Dec)) buf r
    (items_code c) (el_val <$> c.*1.*1) rest (items_resume Dec c Hc Hlen) Hd)
    as (s' & buf' & r' & -> & <- & Hb & Hp).
  destruct c as [|x c]; [done|]. rewrite !fmap_cons. set (xs := x :: c) in *.
  change (el_val x.1.1 :: (el_val <$> c.*1.*1)) with (el_val <$> xs.*1.*1).
  change (el_deferred x.1.1 :: (el_deferred <$> c.*1.*1)) with (el_deferred <$> xs.*1.*1).
  assert (len (el_val <$> xs.*1.*1) = len xs) as -> by (by rewrite !len_fmap).
  destruct (N.ltb_spec usize_MAX (i + len xs)); [lia|]. cbn [ld_deferred ld_dec ld_ret ld_cap].
  destruct (push_all_trailing 0 [] (el_deferred <$> xs.*1.*1)) as (n & Hn); [done|].
  cbn [length Nat.sub replicate app] in Hn. rewrite <- (spawn_all_trailing _ _ _ _ n), Hn.
  destruct (spawn_join env r' i (el_deferred <$> xs.*1.*1) xs.*1.*2 xs.*2) as (futs & -> & Hj);
    [by apply (items_obtain Dec)|done|by rewrite Hp|]. exists buf', r', futs. rewrite Hp in Hj.
  split_and!; [done..|]. cbn [rbind]. by rewrite Ho.
Qed.

Lemma chunk_decoder_empty {T} (Dec : Decoder IncomingFn T) :
  dec_decode (ChunkDecoder Dec) (ListDecoder_new Dec (dec_default Dec)) [] =
  (Ok None, ListDecoder_new Dec (dec_default Dec), []).
Proof.
  cbn. unfold ListDecoder_decode. cbn [ListDecoder_new ld_cap].
  rewrite (leb_decode_incomplete 0); [done|done|apply prefix_nil|by rewrite leb_encode_0].
Qed.

(** After chunks, the end of the stream or that of its data *)
Lemma receive_chunks_obtains {T} (Dec : Decoder IncomingFn T) env (css : list (list (item T))) ended fuel k i buf r tasks ds :
  held env → join_all env tasks = Ok ds →
  Forall (λ c, Forall (item_ok Dec) c ∧ c ≠ [] ∧ (len c ≤ u32_MAX)%N) css → length css < fuel →
  (i + len (concat css) ≤ usize_MAX)%N →
  buf ++ bi_data r = concat (items_code <$> css) ++ (if ended : bool then [x00] else []) →
  supplied_from env (bi_path r) i (concat css).*1.*2 →
  receive_chunks Dec env fuel k i (ListDecoder_new Dec (dec_default Dec)) buf r tasks =
  if ended then
    Ok ((λ c, el_val <$> c.*1.*1) <$> css, ds ++ deliver_at (bi_path r) (indexed i (concat css).*2))
  else Err UnexpectedEof.
Proof.
  intros Ho Hj Hcss. revert fuel k i buf r tasks ds Hj.
  induction Hcss as [|c css (Hc & Hne & Hlen) _ IH]; intros fuel k i buf r tasks ds Hj Hfuel Hi Hd Hs;
    (destruct fuel as [|fuel]; [simpl in Hfuel; lia|]).
  - cbn [receive_chunks]. destruct ended.
    + destruct (framed_next_value _ (ChunkDecoder Dec) _ (ListDecoder_new Dec (dec_default Dec)) buf r
        (items_code []) [] [] (items_resume Dec [] (Forall_nil_2 _) ltac:(done)))
        as (s' & buf' & r' & -> & _ & Hb & _).
      { rewrite Hd. unfold items_code. cbn. by rewrite leb_encode_0. }
      rewrite processed, Hj by done. cbn. by rewrite app_nil_r.
    + apply app_nil in Hd as (-> & Hd).
      pose proof (framed_next_end _ (ChunkDecoder Dec) _ _ r Hd (chunk_decoder_empty Dec)) as Hn.
      destruct (framed_next _ _ _ _) as [[[[[c|e]|] s'] buf'] r']; try done. by rewrite Hj.
  - cbn [concat] in Hi, Hs |- *. rewrite len_app in Hi.
    rewrite (fmap_app fst), (fmap_app snd) in Hs. rewrite (fmap_app snd).
    apply supplied_app in Hs as (Hsc & Hss). rewrite !len_fmap in Hss.
    rewrite fmap_cons in Hd. cbn [concat] in Hd. rewrite <- app_assoc in Hd.
    destruct (receive_chunk Dec env c fuel k i buf r tasks _ Ho Hc Hne Hlen ltac:(lia) Hd Hsc)
      as (buf' & r' & futs & Hp & Hb & Hf & ->).
    rewrite (IH _ _ _ _ _ _ _ (join_all_app _ _ _ _ _ Hj Hf));
      [|simpl in Hfuel; lia|lia|done|by rewrite Hp]. destruct ended; [|done].
    cbn [rbind]. by rewrite Hp, indexed_app, deliver_at_app, len_fmap, fmap_cons, <- app_assoc.
Qed.

Lemma length_concat_pieces (ds : list bytes) : Forall (.≠ []) ds → length ds ≤ length (concat ds).
Proof.
  induction 1 as [|d ds Hd _ IH]; [done|]. cbn [length concat]. rewrite length_app.
  destruct d; [done|]. simpl. lia.
Qed.

Lemma stream_obtains {T} (Dec : Decoder IncomingFn T) (css : list (list (item T))) pieces :
  Forall (λ c, Forall (item_ok Dec) c ∧ c ≠ [] ∧ (len c ≤ u32_MAX)%N) css →
  (len (concat css) ≤ usize_MAX)%N → concat pieces = concat (items_code <$> css) ++ [x00] →
  obtains (Some (handle_deferred_stream Dec)) (([], pieces) :: indexed 0 (concat css).*1.*2)
    (([], Dyn (list (list T)) ((λ c, el_val <$> c.*1.*1) <$> css)) :: indexed 0 (concat css).*2).
Proof.
  intros Hcss Hlen Hp. apply obtains_some; [done|]. intros env r Ho (Hr & Hq).
  rewrite content_own, content_away, app_nil_r, Hp in Hr by apply away_indexed.
  assert (length css ≤ length (bi_data r)) as Hf.
  { rewrite Hr, length_app, <- (length_fmap items_code css).
    assert (Forall (.≠ []) (items_code <$> css)) as Hne%length_concat_pieces; [|lia].
    apply Forall_fmap. eapply Forall_impl; [exact Hcss|]. intros c (_ & _ & Hl) Hc.
    apply app_nil in Hc as (Hc & _). by apply leb_encode_nonempty in Hc. }
  unfold handle_deferred_stream. rewrite (receive_chunks_obtains Dec env css true _ _ _ _ _ [] []); try done.
  - cbn [rbind]. unfold deliver_at at 2. rewrite fmap_cons. cbn [fst snd]. by rewrite app_nil_r.
  - lia.
  - intros j q _ Hw. destruct (Hq (j :: q)) as (cs & He & Hc); [done|by apply (on_way_app [_]); right|]. exists cs. split; [done|].
    by rewrite Hc, content_other.
Qed.

(** Streams of bytes *)
Context `{CmDecoder IncomingFn} {HR : CmDecoderResume IncomingFn}.

Lemma receive_bytes_obtains env chunks fuel k buf r :
  held env → Forall (λ c : bytes, c ≠ [] ∧ (len c ≤ u32_MAX)%N) chunks → length chunks < fuel →
  buf ++ bi_data r = concat ((λ c, leb_encode (len c) ++ c) <$> chunks) ++ [x00] →
  receive_bytes_chunks vec_bytes_decoder env fuel k (dec_default vec_bytes_decoder) buf r = Ok chunks.
Proof.
  intros Ho Hc. revert fuel k buf r.
  induction Hc as [|c chunks (Hne & Hlen) _ IH]; intros fuel k buf r Hfuel Hd;
    (destruct fuel as [|fuel]; [simpl in Hfuel; lia|]); cbn [receive_bytes_chunks].
  - destruct (framed_next_value _ vec_bytes_decoder _ (dec_default vec_bytes_decoder) buf r _ [] []
      (vec_bytes_resumes (D := IncomingFn) [] ltac:(done))) as (s' & buf' & r' & -> & _ & Hb & _).
    { rewrite Hd. change (len []) with 0%N. by rewrite leb_encode_0. }
    by rewrite processed.
  - destruct (framed_next_value _ vec_bytes_decoder _ (dec_default vec_bytes_decoder) buf r
      (leb_encode (len c) ++ c) c (concat ((λ c, leb_encode (len c) ++ c) <$> chunks) ++ [x00])
      (vec_bytes_resumes (D := IncomingFn) c Hlen)) as (s' & buf' & r' & -> & <- & Hb & Hp).
    { rewrite Hd, fmap_cons. cbn [concat]. by rewrite <- app_assoc. }
    destruct c as [|b c]; [done|]. rewrite Ho.
    change (core_default (vec_bytes_core IncomingFn)) with (dec_default (vec_bytes_decoder (D := IncomingFn))).
    rewrite IH; [done|simpl in Hfuel; lia|done].
Qed.

Lemma bytes_obtains chunks pieces :
  Forall (λ c : bytes, c ≠ [] ∧ (len c ≤ u32_MAX)%N) chunks →
  concat pieces = concat ((λ c, leb_encode (len c) ++ c) <$> chunks) ++ [x00] →
  obtains (Some (receive_pending_bytes vec_bytes_decoder (dec_default vec_bytes_decoder)))
    [([], pieces)] [([], Dyn (list bytes) chunks)].
Proof.
  intros Hc Hp. apply obtains_some; [done|]. intros env r Ho (Hr & _).
  rewrite content_own, Hp in Hr. change (content [] [] []) with (@nil byte) in Hr. rewrite app_nil_r in Hr.
  unfold receive_pending_bytes. rewrite (receive_bytes_obtains env chunks); try done.
  - cbn. by rewrite app_nil_r.
  - rewrite Hr, length_app, <- (length_fmap (λ c, leb_encode (len c) ++ c) chunks).
    assert (Forall (.≠ []) ((λ c, leb_encode (len c) ++ c) <$> chunks)) as Hne%length_concat_pieces; [|simpl; lia].
    apply Forall_fmap. eapply Forall_impl; [exact Hc|]. by intros c (Hne & _) (_ & ?)%app_nil.
Qed.

End deferred.
