(* ===== verification/Exchange.v ===== *)
(** * Exchange of values

    What the two sides of a connection make of a value with pending parts: the
    decoder yields the value with its pending parts left open ([shallow]), and
    the deferred operation yields what they resolve to ([arrivals]).  With the
    theorems of [Transmit] and [Egress], a value which is sent is received,
    whatever parts of it are pending and however its data is cut into frames,
    batches and reads. *)

From S2P Require Import Prelude Wire FrameCodec Subscriptions Resolve Conn Delivery Egress.
From S2P Require Import Prims Encode Pack Decode Values Transmit Resume Receive.

Section values.
Context `{Leb128} {HL : Leb128Laws} `{PrimCodec} {HP : PrimLaws} {HPR : PrimResume}.

(** The chunks of a pending stream which are sent *)
Definition live_chunks {A} (s : Stream (list A)) : list (list A) :=
  filter (λ c, c ≠ []) (concat (str_now s) :: str_later s).

(** The chunks of a pending stream of bytes *)
Definition live_bytes (chunks : list bytes) : list bytes := filter (λ c, c ≠ []) chunks.

(** The value a decoder yields: pending futures and streams are [None]. *)
Fixpoint shallow (t : ty) : val t → dval t :=
  match t with
  | TPrim _ | TU8 | TUnit | TResource => λ v, v
  | TOption t => fmap (shallow t)
  | TResult t u => λ v, match v with inl v => inl (shallow t v) | inr v => inr (shallow u v) end
  | TList t | TArray _ t => map (shallow t)
  | TTuple ts =>
      (fix go (ts : list ty) :
          foldr (λ t A, (val t * A)%type) unit ts → foldr (λ t A, (dval t * A)%type) unit ts :=
         match ts with
         | [] => λ _, tt
         | t :: ts => λ v, (shallow t v.1, go ts v.2)
         end) ts
  | TFuture t => λ f, if fut_ready f then Some (shallow t (fut_item f)) else None
  | TStream t => λ s,
      if str_end s then Some (ready_stream (map (shallow t) (concat (stream_items s)))) else None
  | TStreamBytes | TStreamRead => λ s,
      if str_end s then Some (ready_stream (concat (stream_items s))) else None
  end.

(** What the pending parts resolve to, by their paths *)
Fixpoint arrivals (t : ty) : val t → list delivery :=
  match t with
  | TPrim _ | TU8 | TUnit | TResource => λ _, []
  | TOption t => from_option (arrivals t) []
  | TResult t u => λ v, match v with inl v => arrivals t v | inr v => arrivals u v end
  | TList t | TArray _ t => λ vs, indexed 0 (map (arrivals t) vs)
  | TTuple ts => λ v,
      indexed 0
        ((fix go (ts : list ty) : foldr (λ t A, (val t * A)%type) unit ts → list (list delivery) :=
            match ts with
            | [] => λ _, []
            | t :: ts => λ v, arrivals t v.1 :: go ts v.2
            end) ts v)
  | TFuture t => λ f,
      if fut_ready f then arrivals t (fut_item f)
      else ([], Dyn (dval t) (shallow t (fut_item f))) :: arrivals t (fut_item f)
  | TStream t => λ s,
      if str_end s then indexed 0 (map (arrivals t) (concat (stream_items s)))
      else ([], Dyn (list (list (dval t))) (map (map (shallow t)) (live_chunks s))) ::
           indexed 0 (map (arrivals t) (concat (live_chunks s)))
  | TStreamBytes => λ s,
      if str_end s then [] else [([], Dyn (list bytes) (live_bytes (stream_items s)))]
  | TStreamRead => λ s,
      if str_end s then []
      else [([], Dyn (list bytes) (live_bytes (concat (str_now s) :: str_later s)))]
  end.

Lemma concat_live {A} (chunks : list (list A)) : concat (filter (λ c, c ≠ []) chunks) = concat chunks.
Proof.
  induction chunks as [|c chunks IH]; [done|]. rewrite filter_cons. cbn [concat].
  destruct c as [|x c]; [by rewrite decide_False by tauto|].
  rewrite decide_True by done. cbn [concat]. by rewrite IH.
Qed.

Context `{FramedRead} {HF : FramedReadLaws}.
Context `{CmDecoder IncomingFn} {HCM : CmDecoderLaws IncomingFn} {HR : CmDecoderResume IncomingFn}.

(** The decoder of a type, on incoming handles *)
Definition in_dec (t : ty) : Decoder IncomingFn (dval t) := decode_dec (decode_of t).

(** The code of a value, its value, its operation, its traffic and what it
    resolves to *)
Definition item_of (t : ty) (v : val t) (d : option IncomingFn) : item (dval t) :=
  (mkElement (plain (tokens t v)) (shallow t v) d, streams t v, arrivals t v).

Definition gets_value (t : ty) : Prop := ∀ v, fits t v → ∃ d, item_ok (in_dec t) (item_of t v d).

Definition gets_list (t : ty) (L : Decoder IncomingFn (list (dval t))) : Prop :=
  ∀ vs, Forall (fits t) vs → (len vs ≤ u32_MAX)%N →
    ∃ d, coded L (dec_default L) (leb_encode (len vs) ++ concat (map (λ v, plain (tokens t v)) vs))
           (map (shallow t) vs) d ∧
      obtains d (indexed 0 (map (streams t) vs)) (indexed 0 (map (arrivals t) vs)).

Definition gets (t : ty) : Prop := gets_value t ∧ gets_list t (decode_list (decode_of t)).

(** The items of a sequence *)
Definition items_of (t : ty) (vs : list (val t)) (xs : list (item (dval t))) : Prop :=
  Forall (item_ok (in_dec t)) xs ∧ el_code <$> xs.*1.*1 = map (λ v, plain (tokens t v)) vs ∧
  el_val <$> xs.*1.*1 = map (shallow t) vs ∧ xs.*1.*2 = map (streams t) vs ∧
  xs.*2 = map (arrivals t) vs.

Lemma gets_items t vs : gets_value t → Forall (fits t) vs → ∃ xs, items_of t vs xs.
Proof.
  intros Ht. induction 1 as [|v vs Hv _ (xs & Hok & He & Hx & Htr & Ha)].
  { exists []. split; [constructor|done]. }
  destruct (Ht v Hv) as (d & Hd). exists (item_of t v d :: xs). split; [by constructor|].
  cbn. rewrite He, Hx, Htr, Ha. done.
Qed.

Lemma items_len t vs xs : items_of t vs xs → len xs = len vs.
Proof.
  intros (_ & _ & _ & _ & Ha). apply (f_equal len) in Ha. by rewrite len_fmap, len_map in Ha.
Qed.

(** What a decoder of sequences collects of the items *)
Lemma items_obtain_all t vs xs :
  items_of t vs xs →
  obtains (deferred_all_in (push_all 0 [] (el_deferred <$> xs.*1.*1)))
    (indexed 0 (map (streams t) vs)) (indexed 0 (map (arrivals t) vs)).
Proof.
  intros (Hok & _ & _ & Htr & Ha). rewrite <- Htr, <- Ha.
  destruct (push_all_trailing 0 [] (el_deferred <$> xs.*1.*1)) as (k & Hk); [done|].
  eapply obtains_all; [by apply (items_obtain (in_dec t))|exact Hk].
Qed.

Lemma items_coded t xs :
  Forall (item_ok (in_dec t)) xs →
  Forall (λ x, coded (in_dec t) (dec_default (in_dec t)) (el_code x) (el_val x) (el_deferred x)) xs.*1.*1.
Proof. induction 1 as [|x xs (Hx & _) _ IH]; constructor; done. Qed.

(** Types whose lists are decoded by [ListDecoder] *)
Lemma gets_default t :
  gets_value t → decode_list (decode_of t) = ListDecoder (in_dec t) → gets t.
Proof.
  intros Ht Hl. split; [done|]. rewrite Hl. intros vs Hvs Hlen.
  destruct (gets_items t vs Ht Hvs) as (xs & Hxs). eexists. split; [|by apply (items_obtain_all t vs xs)].
  pose proof Hxs as (Hok & He & Hx & _). rewrite <- He, <- Hx, <- (items_len t vs xs Hxs).
  rewrite <- (len_fmap fst xs), <- (len_fmap fst xs.*1).
  apply list_coded; [by apply items_coded|]. by rewrite !len_fmap, (items_len t vs xs Hxs).
Qed.

(** Types without asynchronous parts *)
Definition sync (t : ty) : Prop := ∀ v : val t, streams t v = [] ∧ arrivals t v = [].

Lemma indexed_nils {A B} (f : A → list (list N * B)) i vs : (∀ v, f v = []) → indexed i (map f vs) = [].
Proof. intros Hf. revert i. induction vs as [|v vs IH]; intros i; [done|]. cbn. by rewrite Hf, IH. Qed.

Lemma sync_item t v :
  sync t → coded (in_dec t) (dec_default (in_dec t)) (plain (tokens t v)) (shallow t v) None →
  item_ok (in_dec t) (item_of t v None).
Proof. intros Hs Hc. destruct (Hs v) as (Ht & Ha). split; [done|]. cbn. rewrite Ht, Ha. apply obtains_none. Qed.

Lemma sync_list t L vs :
  sync t →
  coded L (dec_default L) (leb_encode (len vs) ++ concat (map (λ v, plain (tokens t v)) vs))
    (map (shallow t) vs) None →
  ∃ d, coded L (dec_default L) (leb_encode (len vs) ++ concat (map (λ v, plain (tokens t v)) vs))
         (map (shallow t) vs) d ∧
    obtains d (indexed 0 (map (streams t) vs)) (indexed 0 (map (arrivals t) vs)).
Proof.
  intros Hs Hc. exists None. split; [done|]. rewrite !indexed_nils by apply Hs. apply obtains_none.
Qed.

(** Those whose lists are decoded by [CoreVecDecoder] *)
Lemma gets_sync t :
  sync t → (∀ s, dec_take_deferred (in_dec t) s = (None, s)) →
  decode_list (decode_of t) = vec_decoder (in_dec t) →
  (∀ v, fits t v → resumes (dec_decode (in_dec t)) (eq (dec_default (in_dec t)))
     (dec_default (in_dec t)) (plain (tokens t v)) (shallow t v)) →
  gets t.
Proof.
  intros Hs Hd Hl Hv. split.
  - intros v Hf. exists None. apply sync_item; [done|]. eapply resumes_mono; [|by apply Hv].
    intros s <-. apply Hd.
  - rewrite Hl. intros vs Hvs Hlen. apply sync_list; [done|]. rewrite <- (len_map (shallow t)).
    apply vec_coded; [|by rewrite len_map]. clear Hlen. induction Hvs; constructor; auto.
Qed.

Lemma gets_prim p : gets (TPrim p).
Proof.
  apply gets_sync; [done|done|done|]. intros v Hv. cbn [tokens]. rewrite plain_bytes.
  by apply prim_resumes.
Qed.

Lemma gets_u8 : gets TU8.
Proof.
  split.
  - intros b _. exists None. apply sync_item; [done|]. apply sync_coded, u8_resumes.
  - intros vs _ Hlen. apply sync_list; [done|]. cbn [tokens plain]. rewrite map_id.
    change (λ v : val TU8, plain [Plain v]) with (λ v : byte, [v]). rewrite concat_singletons.
    by apply (sync_coded (mkCore _ (core_default (vec_bytes_core IncomingFn))
      (core_decode (vec_bytes_core IncomingFn)))), vec_bytes_resumes.
Qed.

(** Codes which are empty *)
Lemma unit_resumes F (v : unit) :
  F tt → resumes (dec_decode (UnitDecoder (D := IncomingFn))) F tt [] v.
Proof.
  intros Hf. exists (λ s e, e = []). split; [|done]. split.
  - intros s p q He Hq. by apply app_nil in He as (_ & ?).
  - intros [] e rest ->. destruct v. by exists tt.
Qed.

Lemma gets_unit : gets TUnit.
Proof. apply gets_sync; [done|done|done|]. intros v _. by apply (unit_resumes (eq tt) v). Qed.

Lemma gets_resource : gets TResource.
Proof.
  apply gets_sync; [done|done|done|]. intros v Hv. cbn [tokens]. rewrite plain_bytes.
  by apply vec_bytes_resumes.
Qed.

Lemma clean_in t : dec_clean (in_dec t).
Proof. apply clean_dec. Qed.

Lemma gets_option t : gets t → gets (TOption t).
Proof.
  intros (Ht & _). apply gets_default; [|done]. intros v Hv.
  destruct v as [v|].
  - destruct (Ht v Hv) as (d & Hc & Ho). exists d. split; [|exact Ho].
    by apply (option_coded (in_dec t) _ (Some (shallow t v)) d (clean_in t)).
  - exists None. split; [|apply obtains_none].
    by apply (option_coded (in_dec t) [] None None (clean_in t)).
Qed.

Lemma gets_result t u : gets t → gets u → gets (TResult t u).
Proof.
  intros (Ht & _) (Hu & _). apply gets_default; [|done]. intros v Hv. destruct v as [v|v].
  - destruct (Ht v Hv) as (d & Hc & Ho). exists d. split; [|exact Ho].
    by apply (result_coded (in_dec t) (in_dec u) _ (inl (shallow t v)) d (clean_in t) (clean_in u)).
  - destruct (Hu v Hv) as (d & Hc & Ho). exists d. split; [|exact Ho].
    by apply (result_coded (in_dec t) (in_dec u) _ (inr (shallow u v)) d (clean_in t) (clean_in u)).
Qed.

Lemma plain_map t vs : plain (concat (map (tokens t) vs)) = concat (map (λ v, plain (tokens t v)) vs).
Proof. rewrite plain_concat. f_equal. exact (map_map (tokens t) plain vs). Qed.

Lemma gets_list_type t : gets t → gets (TList t).
Proof.
  intros (_ & Hl). apply gets_default; [|done]. intros vs (Hlen & Hvs).
  destruct (Hl vs Hvs Hlen) as (d & Hc & Ho). exists d. split; [|exact Ho].
  cbn [item_of fst el_code el_val el_deferred tokens]. by rewrite plain_app, plain_bytes, plain_map.
Qed.

Lemma gets_array n t : gets t → gets (TArray n t).
Proof.
  intros (Ht & _). apply gets_default; [|done]. intros vs (Hn & Hvs).
  destruct (gets_items t vs Ht Hvs) as (xs & Hxs). pose proof Hxs as (Hok & He & Hx & _).
  eexists. split; [|by apply (items_obtain_all t vs xs)].
  cbn [item_of fst el_code el_val el_deferred tokens]. rewrite plain_map, <- He.
  change (shallow (TArray n t) vs) with (map (shallow t) vs). rewrite <- Hx.
  assert (n = length xs.*1.*1) as Hl.
  { rewrite !length_fmap. apply (f_equal length) in Hx. rewrite !length_fmap in Hx. by rewrite Hx. }
  pose proof (array_coded (in_dec t) xs.*1.*1 (items_coded t xs Hok)) as Ha. by rewrite <- Hl in Ha.
Qed.

Lemma gets_tuple ts : Forall gets ts → gets (TTuple ts).
Proof.
  intros Hts. apply gets_default; [|done]. intros v Hv.
  assert (∃ es ds trs arrs,
    tuple_coded_as
      ((fix decs (ts : list ty) : Decoders IncomingFn (foldr (λ t A, (dval t * A)%type) unit ts) :=
          match ts with
          | [] => DNil
          | t :: ts => DCons (decode_dec (decode_of t)) (decs ts)
          end) ts) es (shallow (TTuple ts) v) ds ∧
    plain (tokens (TTuple ts) v) = concat es ∧ Forall3 obtains ds trs arrs ∧
    streams (TTuple ts) v = indexed 0 trs ∧ arrivals (TTuple ts) v = indexed 0 arrs)
    as (es & ds & trs & arrs & Hc & He & Ho & Htr & Ha).
  { cbn [val dval fits tokens streams arrivals shallow] in *. revert v Hv. generalize 0%N.
    induction Hts as [|t ts (Ht & _) _ IH]; intros i v Hv.
    - exists [], [], [], []. split; [done|]. split; [done|]. split; [constructor|done].
    - destruct v as [v vs], Hv as (Hv & Hvs). cbn [fst snd] in *.
      destruct (Ht v Hv) as (d & Hd & Hod).
      destruct (IH (N.succ i) vs Hvs) as (es & ds & trs & arrs & Hc & He & Ho & Htr & Ha).
      exists (plain (tokens t v) :: es), (d :: ds), (streams t v :: trs), (arrivals t v :: arrs).
      split; [by split|]. split; [cbn [concat]; by rewrite plain_app, He|].
      split; [by constructor|]. split; cbn [indexed]; f_equal; [exact Htr|exact Ha]. }
  exists (deferred_all_in ds). split.
  - cbn [item_of fst el_code el_val el_deferred]. rewrite He. by apply tuple_coded.
  - cbn [item_of fst snd el_deferred]. rewrite Htr, Ha.
    apply (obtains_all ds ds 0 trs arrs Ho). cbn. by rewrite app_nil_r.
Qed.

Lemma gets_future t : gets t → gets (TFuture t).
Proof.
  intros (Ht & _). apply gets_default; [|done]. intros [ready v] Hv.
  destruct (Ht v Hv) as (d & Hc & Ho). destruct ready.
  - exists d. split; [|exact Ho]. by apply future_coded_ready.
  - eexists. split; [apply future_coded_pending|]. by eapply future_obtains.
Qed.

(** The items of the chunks of a stream *)
Lemma gets_chunks t chunks :
  gets_value t → Forall (λ c, c ≠ []) chunks → Forall (fits t) (concat chunks) →
  (len (concat chunks) ≤ u32_MAX)%N →
  ∃ css, Forall (λ c, Forall (item_ok (in_dec t)) c ∧ c ≠ [] ∧ (len c ≤ u32_MAX)%N) css ∧
    items_code <$> css =
      map (λ c, leb_encode (len c) ++ concat (map (λ v, plain (tokens t v)) c)) chunks ∧
    (λ c, el_val <$> c.*1.*1) <$> css = map (map (shallow t)) chunks ∧
    (concat css).*1.*2 = map (streams t) (concat chunks) ∧
    (concat css).*2 = map (arrivals t) (concat chunks).
Proof.
  intros Ht Hne. induction Hne as [|c chunks Hc _ IH]; intros Hf Hlen; cbn [concat] in *.
  { exists []. split; [constructor|done]. }
  apply Forall_app in Hf as (Hf & Hfs). rewrite len_app in Hlen.
  destruct IH as (css & Hok & He & Hx & Htr & Ha); [done|lia|].
  destruct (gets_items t c Ht Hf) as (xs & Hxs). pose proof (items_len t c xs Hxs) as Hl.
  destruct Hxs as (Hok' & He' & Hx' & Htr' & Ha'). exists (xs :: css). split.
  { constructor; [|done]. split; [done|]. split; [|lia]. intros ->. by destruct c. }
  cbn [concat map]. rewrite !fmap_cons. unfold items_code at 1. rewrite Hl, He', Hx', He, Hx.
  rewrite (fmap_app fst), !(fmap_app snd), Htr', Htr, Ha', Ha. by rewrite !map_app.
Qed.

Lemma parts_codes t c :
  (map (λ v, (plain (tokens t v), streams t v)) c).*1 = map (λ v, plain (tokens t v)) c.
Proof. induction c as [|v c IH]; [done|]. cbn. by rewrite IH. Qed.

Lemma parts_streams t chunks :
  (concat (map (map (λ v, (plain (tokens t v), streams t v))) chunks)).*2 =
  map (streams t) (concat chunks).
Proof.
  induction chunks as [|c chunks IH]; [done|]. cbn [map concat]. rewrite !map_app. f_equal; [|exact IH].
  clear IH. induction c as [|v c IH]; [done|]. cbn. by rewrite IH.
Qed.

Lemma stream_pieces t chunks :
  concat ((chunk_piece <$> map (map (λ v, (plain (tokens t v), streams t v))) chunks) ++ [[x00]]) =
  concat (map (λ c, leb_encode (len c) ++ concat (map (λ v, plain (tokens t v)) c))
    (filter (λ c, c ≠ []) chunks)) ++ [x00].
Proof.
  rewrite concat_app. f_equal. induction chunks as [|c chunks IH]; [done|].
  cbn [map]. rewrite fmap_cons, filter_cons. cbn [concat]. rewrite IH. destruct c as [|v c].
  - by rewrite decide_False by tauto.
  - rewrite decide_True by done. cbn [map concat]. f_equal. unfold chunk_piece. cbn [map].
    change (?x :: map ?f c) with (map f (v :: c)).
    by rewrite len_map, parts_codes.
Qed.

Lemma pending_stream_obtains t (chunks : list (list (val t))) :
  gets_value t → Forall (fits t) (concat chunks) → (len (concat chunks) ≤ u32_MAX)%N →
  obtains (Some (handle_deferred_stream (in_dec t)))
    (stream_traffic (map (map (λ v, (plain (tokens t v), streams t v))) chunks))
    (([], Dyn (list (list (dval t))) (map (map (shallow t)) (filter (λ c, c ≠ []) chunks))) ::
     indexed 0 (map (arrivals t) (concat (filter (λ c, c ≠ []) chunks)))).
Proof.
  intros Ht Hv Hlen. rewrite <- (concat_live chunks) in Hv, Hlen.
  destruct (gets_chunks t (filter (λ c, c ≠ []) chunks) Ht) as (css & Hok & He & Hx & Htr & Ha);
    [apply Forall_forall; by intros c (? & _)%list_elem_of_filter|done..|].
  unfold stream_traffic. rewrite parts_streams, <- (concat_live chunks), <- Htr, <- Ha, <- Hx.
  apply stream_obtains; [done|..].
  - assert (len (concat css) = len (concat (filter (λ c, c ≠ []) chunks))) as ->.
    { apply (f_equal len) in Ha. by rewrite len_fmap, len_map in Ha. }
    unfold usize_MAX, u32_MAX in *. lia.
  - rewrite He. apply stream_pieces.
Qed.

Lemma gets_stream t : gets t → gets (TStream t).
Proof.
  intros (Ht & Hl). apply gets_default; [|done]. intros [now is_end later] (Hlen & Hv). destruct is_end.
  - destruct (Hl _ Hv Hlen) as (d & Hc & Ho). exists d. split; [|exact Ho].
    apply (stream_coded_ready (decode_of t)) in Hc.
    unfold item_of. cbn [fst el_code el_val el_deferred tokens str_end shallow].
    match goal with |- context [plain (Plain x01 :: ?x)] =>
      change (plain (Plain x01 :: x)) with (x01 :: plain x) end.
    rewrite plain_app, plain_bytes, plain_map. exact Hc.
  - eexists. split; [apply stream_coded_pending|].
    apply (pending_stream_obtains t (concat now :: later) Ht); unfold stream_items in *;
      cbn [str_now str_end str_later concat] in *; by rewrite concat_app in *.
Qed.

Lemma bytes_pieces chunks :
  concat ((bytes_piece <$> chunks) ++ [[x00]]) =
  concat ((λ c, leb_encode (len c) ++ c) <$> live_bytes chunks) ++ [x00].
Proof.
  rewrite concat_app. f_equal. unfold live_bytes. induction chunks as [|c chunks IH]; [done|].
  rewrite fmap_cons, filter_cons. cbn [concat]. rewrite IH. destruct c as [|b c].
  - by rewrite decide_False by tauto.
  - by rewrite decide_True by done.
Qed.

Lemma pending_bytes_obtains chunks :
  (len (concat chunks) ≤ u32_MAX)%N →
  obtains (Some (receive_pending_bytes vec_bytes_decoder (dec_default vec_bytes_decoder)))
    (bytes_traffic chunks) [([], Dyn (list bytes) (live_bytes chunks))].
Proof.
  intros Hlen. apply bytes_obtains; [|apply bytes_pieces].
  apply Forall_forall. intros c (Hc & Hin)%list_elem_of_filter. split; [done|].
  apply len_chunks in Hlen. by eapply Forall_forall in Hlen.
Qed.

Lemma gets_stream_bytes : gets TStreamBytes.
Proof.
  apply gets_default; [|done]. intros [now is_end later] Hv. destruct is_end.
  - exists None. split; [|apply obtains_none]. unfold item_of.
    cbn [fst el_code el_val el_deferred tokens str_end shallow]. unfold bytes_tokens. rewrite plain_bytes.
    by apply stream_bytes_coded_ready.
  - eexists. split; [apply stream_bytes_coded_pending|]. by apply pending_bytes_obtains.
Qed.

Lemma gets_stream_read : gets TStreamRead.
Proof.
  apply gets_default; [|done]. intros [now is_end later] (Hlen & _).
  cbn [str_now str_later] in Hlen. rewrite concat_app in Hlen. destruct is_end.
  - exists None. split; [|apply obtains_none]. unfold item_of.
    cbn [fst el_code el_val el_deferred tokens str_end shallow]. unfold bytes_tokens. rewrite plain_bytes.
    cbn [concat]. rewrite app_nil_r. apply stream_bytes_coded_ready. unfold stream_items.
    cbn [str_now str_end]. rewrite app_nil_r. rewrite len_app in Hlen. lia.
  - eexists. split; [apply stream_bytes_coded_pending|].
    by apply (pending_bytes_obtains (concat now :: later)).
Qed.

Lemma gets_all t : gets t.
Proof.
  induction t using ty_ind_nested.
  - apply gets_prim.
  - apply gets_u8.
  - apply gets_unit.
  - apply gets_resource.
  - by apply gets_option.
  - by apply gets_result.
  - by apply gets_list_type.
  - by apply gets_array.
  - by apply gets_tuple.
  - by apply gets_future.
  - by apply gets_stream.
  - apply gets_stream_bytes.
  - apply gets_stream_read.
Qed.

(** ** Properties *)

(** However the encoding of a value is cut into chunks, the decoder yields
    the value with its pending parts open, leaving the bytes after it; there is
    a deferred operation if a part is pending, and it yields exactly what the
    pending parts resolve to, each at its path, from readers of the data of
    their paths, however that is cut into reads. *)
Theorem value_obtained t v chunks last rest :
  fits t v → concat chunks ++ last = plain (tokens t v) → last ≠ [] →
  ∃ s d, feed (in_dec t) (dec_default (in_dec t)) [] (chunks ++ [last ++ rest]) =
           (Ok (Some (shallow t v)), s, rest) ∧
    dec_take_deferred (in_dec t) s = (d, dec_default (in_dec t)) ∧
    (d = None ↔ pending t v = false) ∧
    ∀ f env r, d = Some f → held env → supplied env r (streams t v) →
      f env r = Ok (deliver_at (bi_path r) (arrivals t v)).
Proof.
  intros Hv He Hl. destruct (proj1 (gets_all t) v Hv) as (d & Hc & Hn & _ & Ho).
  cbn [item_of fst snd el_code el_val el_deferred] in *. rewrite <- He in Hc.
  destruct (feed_resumable (coded_resumable (in_dec t)) _ [] chunks last rest _ _ Hc Hl) as (s & Hf & Ht).
  exists s, d. split; [done|]. split; [done|]. split; [by rewrite Hn, streams_pending|done].
Qed.

(** A pending stream whose data ends before the end of the stream fails
    with [UnexpectedEof], after whichever chunks of it were received. *)
Theorem stream_truncated t chunks env r :
  Forall (fits t) (concat chunks) → (len (concat chunks) ≤ u32_MAX)%N → held env →
  supplied env r
    (([], map (λ c, leb_encode (len c) ++ concat (map (λ v, plain (tokens t v)) c))
            (filter (λ c, c ≠ []) chunks)) :: indexed 0 (map (streams t) (concat chunks))) →
  handle_deferred_stream (in_dec t) env r = Err UnexpectedEof.
Proof.
  intros Hv Hlen Ho (Hr & Hq). rewrite content_own, content_away, app_nil_r in Hr by apply away_indexed.
  rewrite <- (concat_live chunks) in Hv, Hlen.
  destruct (gets_chunks t (filter (λ c, c ≠ []) chunks) (proj1 (gets_all t)))
    as (css & Hok & He & _ & Htr & Ha);
    [apply Forall_forall; by intros c (? & _)%list_elem_of_filter|done..|].
  assert (length css ≤ length (bi_data r)) as Hf.
  { rewrite Hr, <- He, <- (length_fmap items_code css). apply length_concat_pieces, Forall_fmap.
    eapply Forall_impl; [exact Hok|]. intros c (_ & _ & Hl) Hc.
    apply app_nil in Hc as (Hc & _). by apply leb_encode_nonempty in Hc. }
  unfold handle_deferred_stream. rewrite (receive_chunks_obtains (in_dec t) env css false _ _ _ _ _ [] []); try done.
  - lia.
  - assert (len (concat css) = len (concat (filter (λ c, c ≠ []) chunks))) as ->.
    { apply (f_equal len) in Ha. by rewrite len_fmap, len_map in Ha. }
    unfold usize_MAX, u32_MAX in *. lia.
  - cbn [app]. by rewrite He, app_nil_r, Hr.
  - rewrite Htr, (concat_live chunks). intros j q _ Hw.
    destruct (Hq (j :: q)) as (cs & Hcs & Hc); [done|by apply (on_way_app [_]); right|].
    exists cs. split; [done|]. by rewrite Hc, content_other.
Qed.

(** [C9] A value which is sent on a connection arrives: the other side decodes
    the encoding to the value with its pending parts open, and, once ingress
    completed successfully, its deferred operation on readers of what was
    received on the paths of the pending parts, and on those which lead to
    them, yields exactly what the pending parts of the value resolve to.  The
    receivers of what it yields are held. *)
Theorem value_exchanged (flush : nat → bool) `{CmEncoder OutgoingFn} {HCE : CmEncoderLaws OutgoingFn}
    t v cap paths f buf s wrs shutdown e tr w :
  fits t v → fit_traffic [] (streams t v) →
  encode (out_enc flush t) v (enc_default (out_enc flush t)) [] = Ok (Some f, buf, s) →
  f Outgoing_new = Ok wrs →
  (0 < cap)%N → compatible paths → do_writes wrs (mkEgress [] None) = Ok e →
  reachable cap paths (egress (λ w b, Ok (w ++ b)) shutdown [] (e_queue e)).2 tr w →
  w_done w = Some (Ok tt) →
  ∃ s' g, dec_decode (in_dec t) (dec_default (in_dec t)) buf = (Ok (Some (shallow t v)), s', []) ∧
    dec_take_deferred (in_dec t) s' = (Some g, dec_default (in_dec t)) ∧
    ∀ env r, held env → bi_path r = [] → bi_data r = received_on [] tr →
      (∀ q, q ≠ [] → on_way (streams t v) q → ∃ cs, env_data env q = Some cs ∧ concat cs = received_on q tr) →
      g env r = Ok (arrivals t v).
Proof.
  intros Hv Hfit He Hw Hcap Hc Hd Hr Hdone.
  destruct (proj1 (sends_all flush t) v Hv []) as (d & s0 & He0 & Ht0 & (Hn & Hs)).
  unfold encode in He. rewrite He0 in He. cbn [rbind] in He. rewrite Ht0 in He.
  injection He as -> <- _. cbn [part fst snd app] in *.
  destruct (Hs f Outgoing_new eq_refl outgoing_handle_new Hfit) as (wrs' & Hw' & Hok & Hq).
  rewrite Hw in Hw'. injection Hw' as <-. cbn [out_path Outgoing_new] in Hq.
  destruct (writes_on_wire wrs shutdown e Hok Hd) as (Hwire & Hff). rewrite Hwire in Hr.
  assert (∀ q, received_on q tr = content [] (streams t v) q) as Hrec.
  { intros q. rewrite <- Hq, <- data_on_writes. by eapply received_complete. }
  destruct (proj1 (gets_all t) v Hv) as (g & Hg & Hgn & _ & Ho).
  cbn [item_of fst snd el_code el_val el_deferred] in *.
  destruct (resumes_complete _ _ _ _ _ [] Hg) as (s' & Hdec & Htake). rewrite app_nil_r in Hdec.
  destruct g as [g|]; [|by specialize (proj2 Hn (proj1 Hgn eq_refl))].
  exists s', g. split; [done|]. split; [done|]. intros env r Hh Hp Hdata Henv.
  rewrite (Ho g env r eq_refl Hh).
  - rewrite Hp. unfold deliver_at. rewrite <- (list_fmap_id (arrivals t v)) at 2. f_equal.
    apply list_fmap_ext. by intros i [].
  - split; [by rewrite Hdata, Hrec|]. intros q Hq0 Hway. rewrite Hp. destruct (Henv q Hq0 Hway) as (cs & Hcs & Hx).
    exists cs. split; [done|]. by rewrite Hx, Hrec.
Qed.

End values.
