(* ===== verification/ExchangeStd.v ===== *)
(** * An instance of the codecs on streams

    The codecs of [ValuesStd] decode encodings which arrive in pieces, a
    [FramedRead] which reads from a [BufferedIncoming] into a buffer until its
    decoder yields an item satisfies the laws of the development, and a value
    with pending parts is exchanged over a connection. *)

From S2P Require Import Prelude Wire FrameCodec Subscriptions Resolve Conn Delivery Egress.
From S2P Require Import Prims Wave Encode Pack Decode Values ValuesStd Transmit Resume Receive Exchange.

(** ** Readers *)

(** More input changes nothing, unless the reader ran out of input. *)
Definition stable {T} (rd : bytes → io_result (T * bytes)) : Prop :=
  ∀ bs q,
    match rd bs with
    | Ok (v, rest) => rd (bs ++ q) = Ok (v, rest ++ q)
    | Err UnexpectedEof => True
    | Err e => rd (bs ++ q) = Err e
    end.

Lemma stable_bind {A B} (rd : bytes → io_result (A * bytes)) (k : A → bytes → io_result (B * bytes)) :
  stable rd → (∀ a, stable (k a)) → stable (λ bs, let? (a, bs) := rd bs in k a bs).
Proof.
  intros Hr Hk bs q. specialize (Hr bs q). destruct (rd bs) as [[a rest]|[]]; cbn [rbind];
    try (by rewrite Hr); [|done]. rewrite Hr. cbn [rbind]. apply Hk.
Qed.

Lemma stable_ret {A} (a : A) : stable (λ bs, Ok (a, bs)).
Proof. intros bs q. done. Qed.

Lemma stable_fail {A} e : stable (λ bs, Err e : io_result (A * bytes)).
Proof. intros bs q. by destruct e. Qed.

Lemma stable_if {A} (b : bool) (rd rd' : bytes → io_result (A * bytes)) :
  stable rd → stable rd' → stable (λ bs, if b then rd bs else rd' bs).
Proof. by destruct b. Qed.

Lemma stable_read_exact n : stable (read_exact n).
Proof.
  intros bs q. unfold read_exact. destruct (N.ltb_spec (len bs) n) as [|Hn]; [done|].
  rewrite len_app. destruct (N.ltb_spec (len bs + len q) n); [lia|].
  assert (N.to_nat n ≤ length bs) by (unfold len in *; lia).
  by rewrite take_app_le, drop_app_le.
Qed.

Lemma stable_read_u8 : stable read_u8.
Proof. by intros [|b bs] q. Qed.

Lemma stable_uleb_read w : stable (uleb_read w).
Proof.
  intros bs q. unfold uleb_read, uleb_decode. pose proof (uleb_scan_app (uleb_max w) bs q) as Hs.
  destruct (uleb_scan (uleb_max w) bs) as [n rest| |]; [|done|by rewrite Hs].
  rewrite Hs. by destruct (n <? 2 ^ w)%N.
Qed.

Lemma stable_sleb_scan fuel : stable (sleb_scan fuel).
Proof.
  induction fuel as [|fuel IH]; intros [|b bs] q; try done. cbn [app]. rewrite !sleb_scan_cons.
  destruct (Z.of_N (Byte.to_N b) <? 128)%Z; [done|]. specialize (IH bs q).
  destruct (sleb_scan fuel bs) as [[z rest]|[]]; cbn [rbind]; by rewrite ?IH.
Qed.

Lemma stable_utf8_char_read : stable utf8_char_read.
Proof.
  intros [|b bs] q; [done|]. cbn [app utf8_char_read].
  pose proof (stable_read_exact (N.of_nat (utf8_char_len (Byte.to_N b))) (b :: bs) q) as Hr.
  cbn [app] in Hr. destruct (read_exact _ (b :: bs)) as [[buf rest]|[]]; cbn [rbind];
    try (by rewrite Hr); [|done]. rewrite Hr. cbn [rbind].
  by destruct (is_char _ && bool_decide _).
Qed.

#[local] Hint Resolve stable_ret stable_fail stable_if stable_read_exact stable_read_u8 stable_uleb_read
  stable_sleb_scan stable_utf8_char_read : core.

Lemma stable_prim_read p : stable (prim_read p).
Proof.
  assert (∀ zero, stable (read_flag zero)) as Hflag.
  { intros zero. apply stable_bind; [done|]. intros b. by repeat apply stable_if. }
  destruct p; cbn [prim_read];
    lazymatch goal with
    | |- stable (sleb_read _) => apply stable_sleb_scan
    | |- stable (leb_read _) => apply stable_uleb_read
    | |- stable read_bool => apply Hflag
    | |- stable char_read => apply stable_utf8_char_read
    | |- stable name_read => idtac
    | |- _ => by apply stable_bind
    end.
  - apply stable_bind; [done|]. intros n. apply stable_if; [done|]. apply stable_bind; [done|].
    intros buf. by apply stable_if.
Qed.

(** A reader which reads a code waits for the rest of it. *)
Lemma read_core_resumes {T} (rd : bytes → io_result (T * bytes)) e v :
  stable rd → (∀ rest, rd (e ++ rest) = Ok (v, rest)) →
  resumes (core_decode (read_core rd)) (eq (core_default (read_core rd))) (core_default (read_core rd)) e v.
Proof.
  intros Hs He. exists (λ _ e', e' = e). split; [split|done].
  - intros [] p q Hpq Hq. exists tt, [], p. split; [done|]. split; [|done].
    cbn [read_core core_decode]. specialize (Hs p q). specialize (He []). rewrite app_nil_r in He.
    rewrite Hpq, He in Hs. destruct (rd p) as [[v' rest]|[]]; try done.
    injection Hs as _ Hs. by symmetry in Hs; apply app_nil in Hs as (_ & ->).
  - intros [] e' rest ->. cbn [read_core core_decode]. rewrite He. by eexists.
Qed.

Lemma prim_std_resume : @PrimResume prim_codec_std.
Proof.
  split.
  - intros p v Hv. apply read_core_resumes; [apply stable_prim_read|].
    intros rest. apply prim_read_bytes, Hv.
  - intros b. by apply read_core_resumes.
Qed.

(** ** Decoders *)

Section decoders.
Context {D : Type}.

Lemma option_std_resumes {T} (Dec : Decoder D T) F s e v :
  resumes (dec_decode Dec) F s e v →
  resumes (option_decode Dec) (λ o, ∃ s, o = option_wrap Dec s ∧ F s) (option_wrap Dec s)
    (x01 :: e) (Some v).
Proof.
  intros (I & (Hi & Hc) & HI).
  exists (λ (o : bool * dec_state Dec) e, if o.1 then I o.2 e else ∃ e', e = x01 :: e' ∧ I o.2 e').
  split; [split|by eexists].
  - assert (∀ s p q, I s (p ++ q) → q ≠ [] → ∃ o c p', p = c ++ p' ∧
      option_inner Dec s p = (Ok None, (true, o), p') ∧ I o (p' ++ q)) as Hin.
    { intros s0 p q Hp Hq. destruct (Hi s0 p q Hp Hq) as (s' & c & p' & -> & Hd & Hp').
      exists s', c, p'. split; [done|]. split; [|done]. unfold option_inner. by rewrite Hd. }
    intros [[] s0] p q Hp Hq; cbn [fst snd] in Hp.
    + destruct (Hin s0 p q Hp Hq) as (o & c & p' & -> & Hd & Hp'). by exists (true, o), c, p'.
    + destruct Hp as (e' & He & Hp). destruct p as [|b p].
      { exists (false, s0), [], []. split; [done|]. split; [done|]. by exists e'. }
      injection He as -> <-. destruct (Hin s0 p q Hp Hq) as (o & c & p' & -> & Hd & Hp').
      by exists (true, o), (x01 :: c), p'.
  - assert (∀ s e rest, I s e → ∃ s', option_inner Dec s (e ++ rest) = (Ok (Some (Some v)), (false, s'), rest) ∧
      F s') as Hin.
    { intros s0 e0 rest H0. destruct (Hc s0 e0 rest H0) as (s' & Hd & HF). exists s'. split; [|done].
      unfold option_inner. by rewrite Hd. }
    intros [[] s0] e0 rest He; cbn [fst snd] in He; [|destruct He as (e' & -> & He)];
      (destruct (Hin s0 _ rest He) as (s' & Hd & HF)); exists (false, s'); (split; [exact Hd|by exists s']).
Qed.

(** Both alternatives of a result *)
Lemma result_std_resumes {A B C U} (G : Decoder D A) (K : Decoder D B) (ok : bool) (inj : C → A + B)
    (decode : U → bytes → io_result (option C) * U * bytes)
    (put : dec_state G * dec_state K → U → dec_state G * dec_state K) s u F e v :
  (∀ u r u' bs bs', decode u bs = (Ok r, u', bs') →
     result_inner G K ok (put s u) bs =
     (Ok (inj <$> r), (match r with Some _ => None | None => Some ok end, put s u'), bs')) →
  resumes decode F u e v →
  resumes (result_decode G K) (λ r, ∃ u, r.2 = put s u ∧ F u) (None, put s u)
    ((if ok then x00 else x01) :: e) (inj v).
Proof.
  intros Hin (I & (Hi & Hc) & HI). set (b := if ok then x00 else x01).
  assert (∀ st bs, result_decode G K (None, st) (b :: bs) = result_inner G K ok st bs) as Hb.
  { intros st bs. unfold b. by destruct ok. }
  exists (λ (r : option bool * (dec_state G * dec_state K)) e', ∃ u, r.2 = put s u ∧
    match r.1 with
    | Some ok' => ok' = ok ∧ I u e'
    | None => ∃ e'', e' = b :: e'' ∧ I u e''
    end).
  split; [split|].
  - intros [o st] p q (u0 & Hst & Hp) Hq. cbn [fst snd] in *. subst st. destruct o as [ok'|].
    + destruct Hp as (-> & Hp). destruct (Hi u0 p q Hp Hq) as (u' & c & p' & -> & Hd & Hp').
      exists (Some ok, put s u'), c, p'. split; [done|].
      split; [exact (Hin _ _ _ _ _ Hd)|by exists u'].
    + destruct Hp as (e' & He & Hp). destruct p as [|b' p].
      { exists (None, put s u0), [], []. split; [done|]. split; [done|]. exists u0. split; [done|].
        by exists e'. }
      injection He as -> <-. destruct (Hi u0 p q Hp Hq) as (u' & c & p' & -> & Hd & Hp').
      exists (Some ok, put s u'), (b :: c), p'. split; [done|].
      split; [rewrite Hb; exact (Hin _ _ _ _ _ Hd)|by exists u'].
  - intros [o st] e0 rest (u0 & Hst & He). cbn [fst snd] in *. subst st. destruct o as [ok'|].
    + destruct He as (-> & He). destruct (Hc u0 e0 rest He) as (u' & Hd & HF).
      eexists. split; [exact (Hin _ _ _ _ _ Hd)|by exists u'].
    + destruct He as (e' & -> & He). destruct (Hc u0 e' rest He) as (u' & Hd & HF).
      eexists. split; [cbn [app]; rewrite Hb; exact (Hin _ _ _ _ _ Hd)|by exists u'].
  - exists u. split; [done|]. by exists e.
Qed.

(** Rewriting with an equation on a tuple, up to conversion of its state *)
Ltac rewrite_tuple E :=
  lazymatch type of E with
  | tuple_decode_std ?Decs _ _ = ?r =>
      match goal with
      | |- context [tuple_decode_std Decs ?st ?bs] =>
          let H := fresh in
          assert (tuple_decode_std Decs st bs = r) as H by exact E; rewrite H; clear H
      end
  end.

(** The first component, then the others *)
Lemma tuple_cons_resumes {A B} (Dec : Decoder D A) (Decs : Decoders D B) F G s ss pr e es v vs :
  resumes (dec_decode Dec) F s e v → resumes (tuple_decode_std Decs) G (ss, pr) es vs →
  resumes (tuple_decode_std (DCons Dec Decs)) (λ t, F t.1.1 ∧ G (t.1.2, t.2.2))
    ((s, ss), (None, pr)) (e ++ es) (v, vs).
Proof.
  intros (I & (Hi & Hc) & HI) (J & (Ki & Kc) & HJ).
  exists (λ (t : (dec_state Dec * decs_state Decs) * (option A * progress Decs)) e', match t.2.1 with
    | Some v' => v' = v ∧ F t.1.1 ∧ J (t.1.2, t.2.2) e'
    | None => ∃ e1 e2, e' = e1 ++ e2 ∧ I t.1.1 e1 ∧ J (t.1.2, t.2.2) e2
    end).
  split; [split|by exists e, es].
  - intros [[s0 ss0] [[v'|] pr0]] p q Hp Hq; cbn [fst snd] in Hp.
    + destruct Hp as (-> & HF & Hp). destruct (Ki _ _ _ Hp Hq) as ([ss' pr'] & c & p' & -> & Hd & Hp').
      exists ((s0, ss'), (Some v, pr')), c, p'. split; [done|]. split; [|done].
      cbn [tuple_decode_std fst snd]. by rewrite_tuple Hd.
    + destruct Hp as (e1 & e2 & He & H1 & H2).
      assert (∃ k, (k ≠ [] ∧ e1 = p ++ k ∧ q = k ++ e2) ∨ (p = e1 ++ k ∧ e2 = k ++ q)) as (k & Hk).
      { apply app_eq_inv in He as [(k & -> & Hk)|(k & -> & ->)].
        - exists k. right. done.
        - destruct k as [|b k]; [exists []; right; by rewrite !app_nil_r|]. exists (b :: k). by left. }
      destruct Hk as [(Hk & -> & ->)|(-> & ->)].
      * destruct (Hi _ _ _ H1 Hk) as (s' & c & p' & -> & Hd & H1').
        exists ((s', ss0), (None, pr0)), c, p'. split; [done|].
        split; [cbn [tuple_decode_std fst snd]; by rewrite Hd|]. exists (p' ++ k), e2.
        by rewrite <- app_assoc.
      * destruct (Hc _ _ k H1) as (s' & Hd & HF).
        destruct (Ki _ _ _ H2 Hq) as ([ss' pr'] & c & p' & -> & Hds & Hp').
        exists ((s', ss'), (Some v, pr')), (e1 ++ c), p'. split; [by rewrite <- app_assoc|].
        split; [|done]. cbn [tuple_decode_std fst snd]. rewrite Hd. by rewrite_tuple Hds.
  - intros [[s0 ss0] [[v'|] pr0]] e0 rest He; cbn [fst snd] in He.
    + destruct He as (-> & HF & He). destruct (Kc _ _ rest He) as ([ss' pr'] & Hd & HG).
      exists ((s0, ss'), (None, pr')). split; [|done]. cbn [tuple_decode_std fst snd].
      by rewrite_tuple Hd.
    + destruct He as (e1 & e2 & -> & H1 & H2). destruct (Hc _ _ (e2 ++ rest) H1) as (s' & Hd & HF).
      destruct (Kc _ _ rest H2) as ([ss' pr'] & Hds & HG).
      exists ((s', ss'), (None, pr')). split; [|done]. rewrite <- app_assoc.
      cbn [tuple_decode_std fst snd]. rewrite Hd. by rewrite_tuple Hds.
Qed.

Lemma tuple_std_resumes {A} (Decs : Decoders D A) Ps ss es v :
  decs_resume Decs Ps ss es v →
  resumes (tuple_decode_std Decs) (λ t, decs_final Decs Ps t.1) (ss, no_progress Decs) (concat es) v.
Proof.
  revert es v. induction Decs as [|A B Dec Decs IH]; intros es v Hv; cbn [decs_resume] in Hv.
  - subst es. exists (λ _ e, e = []). split; [split|done].
    + intros s p q (_ & ->)%app_nil. done.
    + intros s e rest ->. exists s. by destruct v.
  - destruct es as [|e es]; [done|]. destruct v as [v vs], ss as [s ss], Hv as (Hd & Hds).
    eapply resumes_mono; [|eapply tuple_cons_resumes; [exact Hd|exact (IH _ _ _ _ Hds)]].
    intros [[s' ss'] pr] (HF & HG). done.
Qed.

Lemma vec_std_resumes {T} (Dec : Decoder D T) es vs :
  Forall2 (resumes (dec_decode Dec) (eq (dec_default Dec)) (dec_default Dec)) es vs →
  (len vs ≤ u32_MAX)%N →
  resumes (core_decode (vec_core Dec)) (eq (core_default (vec_core Dec)))
    (core_default (vec_core Dec)) (@leb_encode leb128_std (len vs) ++ concat es) vs.
Proof.
  pose proof leb128_std_laws as HL. intros Hv Hlen.
  set (l := zip_with (λ e v, mkElement (D := unit) e v None) es vs).
  assert (Forall (λ x, coded (D := unit) (SyncDecoder (dec_core Dec)) (dec_default Dec) (el_code x) (el_val x)
    (el_deferred x)) l ∧ el_code <$> l = es ∧ el_val <$> l = vs ∧ ∀ i, push_all i [] (el_deferred <$> l) = [])
    as (Hl & He & Hx & Hd).
  { subst l. clear Hlen. induction Hv as [|e v es vs Hv _ (Hl & He & Hx & Hd)]; [done|].
    cbn. split; [constructor; [by apply (sync_coded (dec_core Dec))|done]|].
    rewrite He, Hx. split; [done|]. split; [done|]. intros i. cbn. apply Hd. }
  assert (len vs = len l) as Hn by (rewrite <- Hx; unfold len; by rewrite length_fmap).
  rewrite Hn in Hlen |- *. rewrite <- He, <- Hx.
  pose proof (@list_resumes unit leb128_std HL T (SyncDecoder (dec_core Dec)) l Hl Hlen) as Hr.
  rewrite Hd in Hr. exact Hr.
Qed.

Lemma vec_bytes_std_resumes bs :
  (len bs ≤ u32_MAX)%N →
  resumes (core_decode (vec_bytes_core D)) (eq (core_default (vec_bytes_core D)))
    (core_default (vec_bytes_core D)) (@leb_encode leb128_std (len bs) ++ bs) bs.
Proof.
  pose proof leb128_std_laws as HL. intros Hlen.
  exists (λ _ e, e = @leb_encode leb128_std (len bs) ++ bs). split; [split|done].
  - intros [] p q He Hq. exists tt, [], p. split; [done|]. split; [|done].
    cbn [vec_bytes_core cm_decoder_std core_decode].
    apply app_eq_inv in He as [(k & -> & Hk)|(k & Hk & ->)].
    + rewrite (leb_decode_encode _ k Hlen), Hk. destruct q as [|b q]; [done|].
      rewrite len_app, len_cons. destruct (N.ltb_spec (len k) (len k + N.succ (len q))); [done|lia].
    + destruct (decide (k = [])) as [->|Hne].
      { rewrite app_nil_r in Hk. rewrite <- Hk. cbn [app] in Hq.
        pose proof (leb_decode_encode (Leb128Laws := HL) _ [] Hlen) as Hd. rewrite app_nil_r in Hd. rewrite Hd.
        destruct bs as [|b bs]; [done|]. rewrite len_cons. change (len (A := byte) []) with 0%N.
        by destruct (N.ltb_spec 0 (N.succ (len bs))) as [|Hge]; [|lia]. }
      rewrite (leb_decode_incomplete (len bs)); [done|done|by exists k|].
      intros Hp. apply (f_equal length) in Hk. rewrite length_app, <- Hp in Hk.
      destruct k; [done|simpl in Hk; lia].
  - intros [] e rest ->. exists tt. split; [|done]. cbn [vec_bytes_core cm_decoder_std core_decode].
    rewrite <- app_assoc, leb_decode_encode by done.
    destruct (N.ltb_spec (len (bs ++ rest)) (len bs)) as [Hlt|_]; [rewrite len_app in Hlt; lia|].
    by rewrite to_nat_len, take_app_length, drop_app_length.
Qed.

Lemma cm_decoder_std_resume : @CmDecoderResume D leb128_std (cm_decoder_std D).
Proof.
  split.
  - done.
  - intros T Dec F s e v. apply option_std_resumes.
  - intros A B G K F s t e v Hv.
    eapply resumes_mono;
      [|apply (result_std_resumes G K true inl (dec_decode G) (λ s u, (u, s.2)) (s, t) s F); [|exact Hv]].
    { intros [o [s' t']] (u & [= -> ->] & HF). done. }
    intros u r u' bs bs' Hd. cbn [result_inner fst snd]. rewrite Hd. by destruct r.
  - intros A B G K F s t e v Hv.
    eapply resumes_mono;
      [|apply (result_std_resumes G K false inr (dec_decode K) (λ s u, (s.1, u)) (s, t) t F); [|exact Hv]].
    { intros [o [s' t']] (u & [= -> ->] & HF). done. }
    intros u r u' bs bs' Hd. cbn [result_inner fst snd]. rewrite Hd. by destruct r.
  - intros A Decs Ps ss es v. apply tuple_std_resumes.
  - intros T Dec es vs. apply vec_std_resumes.
  - intros bs. apply vec_bytes_std_resumes.
Qed.

End decoders.

(** ** FramedRead *)

(** A read takes the next bytes, and at least one unless there are none. *)
Lemma poll_read_spec n r chunk r' :
  BufferedIncoming_poll_read (S n) r = (chunk, r') →
  chunk ++ bi_data r' = bi_data r ∧ bi_path r' = bi_path r ∧ (chunk = [] → bi_data r = []).
Proof.
  unfold BufferedIncoming_poll_read. cbn [Nat.eqb]. destruct r as [[|b buf] path rest]; cbn [bi_buffer bi_path bi_rest].
  - destruct (inner_read (S n) rest) as [c rest'] eqn:E. intros [= <- <-].
    by destruct (inner_read_spec n rest c rest' E) as (Hc & Hn).
  - unfold bi_data. destruct (Nat.ltb_spec (S n) (length (b :: buf)));
      intros (<- & <-)%pair_equal_spec; [|done].
    cbn [bi_buffer bi_path bi_rest]. by rewrite app_assoc, take_drop.
Qed.

(** [next] with reads of at most [S n] bytes: the decoder is asked for an item,
    and again after each read.  At the end of the reader, what is left in the
    buffer is an error. *)
Fixpoint framed_loop (n fuel : nat) {T} (Dec : Decoder IncomingFn T) (s : dec_state Dec) (buf : bytes)
    (r : BufferedIncoming) : option (io_result T) * dec_state Dec * bytes * BufferedIncoming :=
  match dec_decode Dec s buf with
  | (Ok (Some v), s, buf) => (Some (Ok v), s, buf, r)
  | (Err e, s, buf) => (Some (Err e), s, buf, r)
  | (Ok None, s, buf) =>
      match fuel with
      | O => (None, s, buf, r)
      | S fuel =>
          match BufferedIncoming_poll_read (S n) r with
          | ([], r) => (match buf with [] => None | _ => Some (Err Other) end, s, buf, r)
          | (chunk, r) => framed_loop n fuel Dec s (buf ++ chunk) r
          end
      end
  end.

Definition framed_std (n : nat) : FramedRead := {|
  framed_next T Dec s buf r := framed_loop n (S (length (bi_data r))) Dec s buf r
|}.

Lemma framed_loop_value n fuel {T} (Dec : Decoder IncomingFn T) F s buf r e v rest :
  resumes (dec_decode Dec) F s e v → buf ++ bi_data r = e ++ rest → length (bi_data r) < fuel →
  ∃ s' buf' r', framed_loop n fuel Dec s buf r = (Some (Ok v), s', buf', r') ∧ F s' ∧
    buf' ++ bi_data r' = rest ∧ bi_path r' = bi_path r.
Proof.
  revert s buf r e. induction fuel as [|fuel IH]; intros s buf r e Hr He Hf; [lia|]. cbn [framed_loop].
  apply app_eq_inv in He as [(k & -> & Hk)|(k & -> & Hk)].
  { destruct (resumes_complete _ _ _ _ _ k Hr) as (s' & -> & HF). exists s', k, r. done. }
  destruct (decide (k = [])) as [->|Hne].
  { destruct (resumes_complete _ _ _ _ _ [] Hr) as (s' & Hd & HF). rewrite !app_nil_r in Hd. rewrite Hd.
    exists s', [], r. done. }
  destruct (resumes_incomplete _ _ _ _ _ _ Hr Hne) as (s' & c & p' & -> & -> & Hr').
  destruct (BufferedIncoming_poll_read (S n) r) as [chunk r'] eqn:E.
  destruct (poll_read_spec n r chunk r' E) as (Hd & Hp & Hnil).
  destruct chunk as [|b chunk].
  { rewrite Hnil in Hk by done. by destruct k. }
  destruct (IH s' (p' ++ b :: chunk) r' (p' ++ k) Hr') as (s2 & buf2 & r2 & H2 & HF & Hb2 & Hp2).
  - by rewrite <- !app_assoc, Hd, Hk.
  - rewrite <- Hd, length_app in Hf. simpl in Hf. lia.
  - exists s2, buf2, r2. by rewrite <- Hp, Hp2.
Qed.

Lemma framed_std_laws n : @FramedReadLaws (framed_std n).
Proof.
  split.
  - intros T Dec F s buf r e v rest Hr He. apply (framed_loop_value n _ Dec F s buf r e v rest Hr He). lia.
  - intros T Dec s s' r Hr Hd. cbn [framed_next framed_std framed_loop]. rewrite Hd.
    destruct (BufferedIncoming_poll_read (S n) r) as [chunk r'] eqn:E.
    destruct (poll_read_spec n r chunk r' E) as (Hc & _ & _). rewrite Hr in Hc. by destruct chunk.
Qed.

(** ** Witnesses *)

Definition in_std (t : ty) : Decoder IncomingFn (dval t) :=
  @in_dec leb128_std prim_codec_std (framed_std 2) (cm_decoder_std IncomingFn) t.

(** Every byte of a path is read on its own. *)
Definition test_env (data : list N → bytes) : Env :=
  mkEnv (λ p, Some (map (λ b, [b]) (data p))) (λ _ _, true).

Lemma test_env_held data : held (test_env data).
Proof. done. Qed.

Lemma test_env_data data p : ∃ cs, env_data (test_env data) p = Some cs ∧ concat cs = data p.
Proof.
  eexists. split; [done|]. generalize (data p). intros bs. induction bs as [|b bs IH]; [done|]. cbn. by rewrite IH.
Qed.

(** Only the paths on the way of the traffic can be indexed. *)
Definition way_env (tr : traffic) (data : list N → bytes) : Env :=
  mkEnv (λ p, if existsb (λ q, bool_decide (p `prefix_of` q)) tr.*1 then env_data (test_env data) p else None) (λ _ _, true).

Lemma way_env_data tr data p : on_way tr p → ∃ cs, env_data (way_env tr data) p = Some cs ∧ concat cs = data p.
Proof.
  intros (q & Hq & Hp). cbn [env_data way_env].
  assert (existsb (λ q, bool_decide (p `prefix_of` q)) tr.*1 = true) as ->; [|apply test_env_data].
  apply existsb_exists. exists q. split; [by apply list_elem_of_In|by apply bool_decide_true].
Qed.

Definition sent_arrivals : list delivery := @arrivals sent_ty sent_val.

Example sent_arrivals_test :
  sent_arrivals =
    [([0], Dyn N 42); ([1], Dyn (list (list (option N))) [[None]]); ([1; 0], Dyn N 7)]%N.
Proof. reflexivity. Qed.

Lemma value_obtained_witness :
  ∃ s f, feed (in_std sent_ty) (dec_default (in_std sent_ty)) [] [[x00]; [x00; x2a]] =
           (Ok (Some (None, (None, tt))), s, [x2a]) ∧
    (dec_take_deferred (in_std sent_ty) s).1 = Some f ∧
    f (way_env sent_traffic (content [] sent_traffic)) (mkBufferedIncoming [] [] []) = Ok sent_arrivals.
Proof.
  destruct (@value_obtained leb128_std leb128_std_laws prim_codec_std prim_std_resume (framed_std 2)
    (framed_std_laws 2) (cm_decoder_std IncomingFn) (cm_decoder_std_laws IncomingFn) cm_decoder_std_resume
    sent_ty sent_val [[x00]] [x00] [x2a] sent_fits eq_refl ltac:(done)) as (s & d & Hf & Ht & Hn & Hd).
  destruct d as [f|]; [|by specialize (proj1 Hn eq_refl)].
  exists s, f. split; [exact Hf|]. split; [exact (f_equal fst Ht)|].
  rewrite (Hd f (way_env sent_traffic (content [] sent_traffic)) (mkBufferedIncoming [] [] []) eq_refl ltac:(done)).
  - reflexivity.
  - split; [by vm_compute|]. intros q _. apply way_env_data.
Defined.

(** The stream of [sent_val] without its end *)
Definition cut_traffic : traffic := [([], [[x01; x00]]); ([0%N], [[x07]])].

Lemma stream_truncated_witness :
  @handle_deferred_stream leb128_std (framed_std 2) _ (in_std (TFuture (TPrim PU16)))
    (test_env (content [] cut_traffic)) (mkBufferedIncoming [] [] [[x01]; [x00]]) = Err UnexpectedEof.
Proof.
  apply (@stream_truncated leb128_std leb128_std_laws prim_codec_std prim_std_resume (framed_std 2)
    (framed_std_laws 2) (cm_decoder_std IncomingFn) (cm_decoder_std_laws IncomingFn) cm_decoder_std_resume
    (TFuture (TPrim PU16)) [[]; [mkFuture false 7%N]]).
  - apply Forall_cons_2; [reflexivity|apply Forall_nil_2].
  - vm_compute. discriminate.
  - apply test_env_held.
  - split; [vm_compute; reflexivity|]. intros q _ _. apply test_env_data.
Defined.

Lemma value_exchanged_witness :
  ∃ s g, dec_decode (in_std sent_ty) (dec_default (in_std sent_ty)) sent_encoded.1.2 =
           (Ok (Some (None, (None, tt))), s, []) ∧
    (dec_take_deferred (in_std sent_ty) s).1 = Some g ∧
    g (way_env sent_traffic (λ q, received_on q sent_received.1)) (mkBufferedIncoming [] [] []) = Ok sent_arrivals.
Proof.
  destruct (@value_exchanged leb128_std leb128_std_laws prim_codec_std prim_codec_std_laws prim_std_resume
    (framed_std 2) (framed_std_laws 2) (cm_decoder_std IncomingFn) (cm_decoder_std_laws IncomingFn)
    cm_decoder_std_resume (λ _, true) (cm_encoder_std OutgoingFn) (cm_encoder_std_laws OutgoingFn)
    sent_ty sent_val 1024 sent_paths sent_fn sent_encoded.1.2 sent_encoded.2 sent_writes (λ _, Ok tt)
    sent_egress sent_received.1 sent_received.2 sent_fits sent_fit_traffic) as (s & g & Hd & Ht & Hg).
  - reflexivity.
  - vm_compute. reflexivity.
  - done.
  - apply sent_paths_compatible.
  - vm_compute. reflexivity.
  - apply exec_reachable with sent_receive. vm_compute. reflexivity.
  - vm_compute. reflexivity.
  - exists s, g. split; [exact Hd|]. split; [exact (f_equal fst Ht)|]. apply Hg.
    + done.
    + done.
    + vm_compute. reflexivity.
    + intros q _. apply way_env_data.
Defined.
