(* ===== verification/Remote.v ===== *)
(** * Typed invocations

    Model of [crates/transport/src/invoke.rs] and [crates/transport/src/serve.rs]:
    a function is invoked with, and served by, values of Rust types.  The
    parameters are encoded and sent, the results are decoded, and the operations
    on the pending parts of both run while the results are awaited and after.

    The transports are instances of the trait [Invoke]; what they yield takes a
    number of ticks of the timer, or they never complete.  Tasks and futures are
    their outcomes; which of two concurrent ones completes first is an
    argument. *)

From S2P Require Import Prelude Wire FrameCodec Subscriptions Resolve Conn Delivery Egress Server.
From S2P Require Import Prims Encode Pack Decode Values Transmit Resume Receive Exchange.

(** ** Invoking *)

(** The handles of an invocation; [conn_env] has the data of the other paths. *)
Record Connection := mkConnection {
  conn_outgoing : Outgoing;
  conn_incoming : BufferedIncoming;
  conn_env : Env
}.

Inductive InvokeFailure :=
  | InvokeIo (e : ErrorKind)
  | InvokeTimedOut.

(** What a future yields and after how many ticks, unless it never completes *)
Definition future A : Type := option (N * A).

(** [trait Invoke] *)
Class Invoke (T : Type) := {
  Invoke_invoke : T → bytes → bytes → bytes → list (list (option N)) → future (result InvokeFailure Connection)
}.

(** [tokio::time::timeout]: the future is polled before the timer. *)
Definition tokio_timeout {A} (duration : N) (f : future A) : N * option A :=
  match f with
  | Some (t, a) => if (t <=? duration)%N then (t, Some a) else (duration, None)
  | None => (duration, None)
  end.

Section timeout.
Context {T : Type} `{!Invoke T}.

Record Timeout := mkTimeout { to_inner : T; to_timeout : N }.

(** [InvokeExt::timeout] *)
Definition timeout (self : T) (duration : N) : Timeout := mkTimeout self duration.

Definition Timeout_invoke (self : Timeout) (instance func params : bytes) (paths : list (list (option N))) :
    future (result InvokeFailure Connection) :=
  let '(t, res) := tokio_timeout (to_timeout self) (Invoke_invoke (to_inner self) instance func params paths) in
  Some (t, let? res := ok_or InvokeTimedOut res in res).

#[global] Instance invoke_timeout_instance : Invoke Timeout := {| Invoke_invoke := Timeout_invoke |}.

End timeout.
Arguments Timeout : clear implicits.

Section timeout_owned.
Context {T : Type} `{!Invoke T}.

Record TimeoutOwned := mkTimeoutOwned { too_inner : T; too_timeout : N }.

(** [InvokeExt::timeout_owned] *)
Definition timeout_owned (self : T) (duration : N) : TimeoutOwned := mkTimeoutOwned self duration.

Definition TimeoutOwned_invoke (self : TimeoutOwned) (instance func params : bytes)
    (paths : list (list (option N))) : future (result InvokeFailure Connection) :=
  Invoke_invoke (timeout (too_inner self) (too_timeout self)) instance func params paths.

#[global] Instance invoke_timeout_owned_instance : Invoke TimeoutOwned :=
  {| Invoke_invoke := TimeoutOwned_invoke |}.

End timeout_owned.
Arguments TimeoutOwned : clear implicits.

(** The contexts of the errors of [invoke_values]; [JoinError] is that of the
    task of the parameters. *)
Inductive InvokeValuesError :=
  | EncodeParametersFailed (e : ErrorKind)
  | InvokeFunctionFailed (e : InvokeFailure)
  | WriteAsyncParametersFailed (e : ErrorKind)
  | JoinError
  | ReceiveSyncResultsFailed (e : ErrorKind)
  | IncompleteResults
  | ReceivingAsyncResultsFailed (e : ErrorKind)
  | TransmittingAsyncParametersFailed.

(** What the environment chooses: whether the task of the parameters panics,
    whether it completes before the results are received, and which of two
    operations fails first. *)
Record Schedule := mkSchedule {
  sch_panics : bool;
  sch_tx_first : bool;
  sch_tx_fails_first : bool
}.

(** [try_join!] *)
Definition try_join {E A B} (second_fails_first : bool) (a : result E A) (b : result E B) : result E (A * B) :=
  match a, b with
  | Ok a, Ok b => Ok (a, b)
  | Err e, Ok _ | Ok _, Err e => Err e
  | Err e, Err e' => Err (if second_fails_first then e' else e)
  end.

Section values.
Context `{Leb128, PrimCodec} (flush : nat → bool) `{CmEncoder OutgoingFn} `{FramedRead} `{CmDecoder IncomingFn}.

(** The task which transmits the parameters, and what joining it yields *)
Definition transmit_params (sch : Schedule) (tx : OutgoingFn) (outgoing : Outgoing) :
    option (result InvokeValuesError (list write)) :=
  if sch_panics sch then None else Some (map_err WriteAsyncParametersFailed (tx outgoing)).

(** [res??] *)
Definition joined (e : InvokeValuesError) (task : option (result InvokeValuesError (list write))) :
    result InvokeValuesError (list write) :=
  let? res := ok_or e task in res.

(** What [invoke_values] returns with the results: the outcome of the I/O, with
    what the pending parts of the results resolve to *)
Definition io : Type := option (result InvokeValuesError (list delivery)).

(** The connection of an invocation, with the encoder of its parameters:
    [invoke_values] after the function is invoked *)
Definition invoke_values_on (P R : ty) (enc : enc_state (out_enc flush P)) (conn : Connection) (sch : Schedule) :
    result InvokeValuesError (dval R * io) :=
  let tx := (λ tx, transmit_params sch tx (conn_outgoing conn)) <$> (enc_take_deferred (out_enc flush P) enc).1 in
  let '(item, dec, buffer, incoming) :=
    framed_next (in_dec R) (dec_default (in_dec R)) [] (conn_incoming conn) in
  let results :=
    match item with
    | Some (Ok results) => Ok results
    | Some (Err e) => Err (ReceiveSyncResultsFailed e)
    | None => Err IncompleteResults
    end in
  let? (results, tx) :=
    match tx with
    | Some fut =>
        if sch_tx_first sch then
          let? _ := joined JoinError fut in
          let? results := results in
          Ok (results, None)
        else
          let? results := results in
          Ok (results, Some fut)
    | None => let? results := results in Ok (results, None)
    end in
  let rx := (dec_take_deferred (in_dec R) dec).1 in
  let incoming := mkBufferedIncoming (buffer ++ bi_buffer incoming) (bi_path incoming) (bi_rest incoming) in
  let receive (rx : IncomingFn) := map_err ReceivingAsyncResultsFailed (rx (conn_env conn) incoming) in
  Ok (results,
      match tx, rx with
      | Some tx, Some rx =>
          Some (let? (ds, _) :=
                  try_join (sch_tx_fails_first sch) (receive rx) (joined TransmittingAsyncParametersFailed tx) in
                Ok ds)
      | Some tx, None => Some (let? _ := joined TransmittingAsyncParametersFailed tx in Ok [])
      | None, Some rx => Some (receive rx)
      | None, None => None
      end).

(** [InvokeExt::invoke_values], unless the invocation does not complete *)
Definition invoke_values {T} `{!Invoke T} (P R : ty) (self : T) (instance func : bytes) (params : val P)
    (paths : list (list (option N))) (sch : Schedule) : option (result InvokeValuesError (dval R * io)) :=
  match enc_encode (out_enc flush P) (enc_default (out_enc flush P)) params [] with
  | Err e => Some (Err (EncodeParametersFailed e))
  | Ok (buf, enc) =>
      match Invoke_invoke self instance func buf paths with
      | None => None
      | Some (_, conn) =>
          Some (let? conn := map_err InvokeFunctionFailed conn in invoke_values_on P R enc conn sch)
      end
  end.

(** [InvokeExt::invoke_values_blocking] *)
Definition invoke_values_blocking {T} `{!Invoke T} (P R : ty) (self : T) (instance func : bytes)
    (params : val P) (paths : list (list (option N))) (sch : Schedule) :
    option (result InvokeValuesError (dval R * list delivery)) :=
  match invoke_values P R self instance func params paths sch with
  | None => None
  | Some res =>
      Some (let? (ret, io) := res in
            match io with
            | Some io => let? ds := io in Ok (ret, ds)
            | None => Ok (ret, [])
            end)
  end.

(** ** Serving *)

Inductive ServeValuesError :=
  | DecodeSyncParametersFailed (e : ErrorKind)
  | ReceiveSyncParametersFailed (e : ErrorKind)
  | IncompleteSyncParameters
  | EncodeSyncResultsFailed (e : ErrorKind)
  | TransmitSyncResultsFailed (e : ErrorKind)
  | WriteAsyncResultsFailed (e : ErrorKind).

(** The parameters of a connection which is served, with the operation on their
    pending parts: decoding is tried before anything is read. *)
Definition serve_params (P : ty) (incoming : BufferedIncoming) :
    result ServeValuesError (dval P * option (Env → io_result (list delivery))) :=
  let? (params, dec, buffer, incoming) :=
    match dec_decode (in_dec P) (dec_default (in_dec P)) [] with
    | (Err e, _, _) => Err (DecodeSyncParametersFailed e)
    | (Ok (Some params), dec, _) => Ok (params, dec, [], incoming)
    | (Ok None, dec, _) =>
        match framed_next (in_dec P) dec [] incoming with
        | (Some (Err e), _, _, _) => Err (ReceiveSyncParametersFailed e)
        | (None, _, _, _) => Err IncompleteSyncParameters
        | (Some (Ok params), dec, buffer, incoming) => Ok (params, dec, buffer, incoming)
        end
    end in
  let rx := (dec_take_deferred (in_dec P) dec).1 in
  let incoming := mkBufferedIncoming (buffer ++ bi_buffer incoming) (bi_path incoming) (bi_rest incoming) in
  Ok (params, (λ (f : IncomingFn) env, f env incoming) <$> rx).

(** The function which sends the results; [written] is what writing the
    synchronous ones yields. *)
Definition serve_results (R : ty) (outgoing : Outgoing) (written : io_result unit) (results : val R) :
    result ServeValuesError (list write) :=
  let? (buf, enc) :=
    map_err EncodeSyncResultsFailed (enc_encode (out_enc flush R) (enc_default (out_enc flush R)) results []) in
  let? _ := map_err TransmitSyncResultsFailed written in
  match (enc_take_deferred (out_enc flush R) enc).1 with
  | Some tx =>
      let? wrs := map_err WriteAsyncResultsFailed (tx outgoing) in
      Ok (WriteBytes outgoing buf :: wrs)
  | None => Ok [WriteBytes outgoing buf]
  end.

(** An item of the stream of [ServeExt::serve_values], on the connection [w] of
    [Server.serve_next] with what its handles read *)
Definition serve_values {C} (P R : ty) (cx : C) (outgoing : Outgoing) (incoming : BufferedIncoming) :
    result ServeValuesError
      (C * dval P * option (Env → io_result (list delivery)) *
       (io_result unit → val R → result ServeValuesError (list write))) :=
  let? (params, rx) := serve_params P incoming in
  Ok (cx, params, rx, serve_results R outgoing).

End values.
