(* ===== verification/RemoteCall.v ===== *)
(** * Typed remote calls

    The theorems on [Remote]: the parameters of an invocation arrive at the
    server, and its results at the client, with all their pending parts; the
    outcome of an invocation does not depend on the order in which the
    parameters are transmitted and the results received; and timeouts. *)

From S2P Require Import Prelude Wire FrameCodec Subscriptions Resolve Conn Delivery Egress Server.
From S2P Require Import Prims Encode Pack Decode Values Transmit Resume Receive Exchange Remote.

(** ** Specification *)

(** Ingress of the bytes completes at a peer which declares the paths: [r] reads
    the data of the root, and [env] has that of the paths on the way of the
    traffic which was sent; the receivers of what arrives are held. *)
Definition receives `{Leb128} (cap : N) (paths : list (list (option N))) (wire : bytes) (sent : traffic) (env : Env)
    (r : BufferedIncoming) : Prop :=
  ∃ tr w, reachable cap paths wire tr w ∧ w_done w = Some (Ok tt) ∧
    bi_path r = [] ∧ bi_data r = received_on [] tr ∧ held env ∧
    ∀ q, q ≠ [] → on_way sent q → ∃ cs, env_data env q = Some cs ∧ concat cs = received_on q tr.

(** The frames carry the value: its encoding in the root, and the data of its
    pending parts on their paths. *)
Definition carries `{Leb128, PrimCodec} (fs : list Frame) (t : ty) (v : val t) : Prop :=
  Forall frame_fits fs ∧ data_on [] fs = plain (tokens t v) ∧
  ∀ q, q ≠ [] → data_on q fs = content [] (streams t v) q.

(** The operation yields what the pending parts of the value resolve to. *)
Definition resolves `{Leb128, PrimCodec, FramedRead, CmDecoder IncomingFn} (d : option (Env → io_result (list delivery)))
    (env : Env) (t : ty) (v : val t) : Prop :=
  (d = None ↔ pending t v = false) ∧ ∀ f, d = Some f → f env = Ok (arrivals t v).

(** The parameters are the first frame of the root, unless there are none. *)
Definition params_frames (params : bytes) : list Frame :=
  if decide (params = []) then [] else [mkFrame [] params].

Lemma data_on_params params q : data_on q (params_frames params) = if decide (q = []) then params else [].
Proof.
  unfold params_frames. destruct (decide (params = [])) as [->|Hne]; [by destruct (decide (q = []))|].
  rewrite data_on_singleton. cbn [f_path f_data].
  destruct (decide (q = [])) as [->|Hq]; [by rewrite decide_True|]. by rewrite decide_False.
Qed.

Lemma params_frames_fit params : (len params ≤ u32_MAX)%N → Forall frame_fits (params_frames params).
Proof.
  intros Hlen. unfold params_frames. destruct (decide _); [constructor|]. apply Forall_singleton. by split.
Qed.

Section remote.
Context `{Leb128} {HL : Leb128Laws} `{CoreName} {HN : CoreNameLaws}.
Context `{PrimCodec} {HP : PrimLaws} {HPR : PrimResume}.
Context (flush : nat → bool) `{CmEncoder OutgoingFn} {HCE : CmEncoderLaws OutgoingFn}.
Context `{FramedRead} {HF : FramedReadLaws}.
Context `{CmDecoder IncomingFn} {HCM : CmDecoderLaws IncomingFn} {HR : CmDecoderResume IncomingFn}.

(** ** Receiving *)

(** The readers of a connection which received the frames supply the value, once
    its encoding was read. *)
Lemma received_supplies cap paths fs env r t v :
  (0 < cap)%N → compatible paths → away (streams t v) → carries fs t v →
  receives cap paths (stream fs) (streams t v) env r →
  bi_path r = [] ∧ bi_data r = plain (tokens t v) ∧ held env ∧
  ∀ r', bi_path r' = [] → bi_data r' = [] → supplied env r' (streams t v).
Proof.
  intros Hcap Hc Ha (Hfit & Hroot & Hpaths) (tr & w & Hr & Hd & Hp & Hdata & Hh & Henv).
  assert (∀ q, received_on q tr = data_on q fs) as Hrec by (intros q; by eapply received_complete).
  split; [done|]. split; [by rewrite Hdata, Hrec|]. split; [done|]. intros r' Hp' Hd'. split.
  - by rewrite Hd', content_away.
  - intros q Hq Hw. rewrite Hp'. destruct (Henv q Hq Hw) as (cs & Hcs & Hx). exists cs. split; [done|].
    by rewrite Hx, Hrec, Hpaths.
Qed.

(** Reading a value, with what is left of the reader *)
Lemma value_read {T} (Dec : Decoder IncomingFn T) F s r e v :
  resumes (dec_decode Dec) F s e v → bi_data r = e →
  ∃ s' buf r', framed_next Dec s [] r = (Some (Ok v), s', buf, r') ∧ F s' ∧
    let r'' := mkBufferedIncoming (buf ++ bi_buffer r') (bi_path r') (bi_rest r') in
    bi_path r'' = bi_path r ∧ bi_data r'' = [].
Proof.
  intros Hres Hr. destruct (framed_next_value _ Dec F s [] r e v [] Hres) as (s' & buf & r' & Hf & HF' & Hb & Hp).
  { by rewrite app_nil_r. }
  exists s', buf, r'. split; [done|]. split; [done|]. split; [done|].
  unfold bi_data. cbn [bi_buffer bi_rest]. by rewrite <- app_assoc.
Qed.

(** The operation on the pending parts of a value of the root *)
Lemma resolved_root t v (g : IncomingFn) env r :
  (∀ env r, Some g = Some g → held env → supplied env r (streams t v) →
     g env r = Ok (deliver_at (bi_path r) (arrivals t v))) →
  held env → bi_path r = [] → supplied env r (streams t v) → g env r = Ok (arrivals t v).
Proof.
  intros Ho Hh Hp Hs. rewrite (Ho env r eq_refl Hh Hs), Hp. unfold deliver_at. f_equal.
  rewrite <- (list_fmap_id (arrivals t v)) at 2. apply list_fmap_ext. by intros i [].
Qed.

(** The results of a connection which received them *)
Lemma results_received cap paths fs env r t v :
  fits t v → (0 < cap)%N → compatible paths → away (streams t v) → carries fs t v →
  receives cap paths (stream fs) (streams t v) env r →
  ∃ s buf r', framed_next (in_dec t) (dec_default (in_dec t)) [] r = (Some (Ok (shallow t v)), s, buf, r') ∧
    resolves ((λ (f : IncomingFn) env, f env (mkBufferedIncoming (buf ++ bi_buffer r') (bi_path r') (bi_rest r')))
      <$> (dec_take_deferred (in_dec t) s).1) env t v ∧
    (pending t v = false → arrivals t v = []).
Proof.
  intros Hv Hcap Hc Ha Hfs Hr. destruct (received_supplies _ _ _ _ _ _ _ Hcap Hc Ha Hfs Hr) as (Hp & Hd & Hh & Hs).
  destruct (proj1 (gets_all t) v Hv) as (d & Hcd & Hn & Hempty & Ho).
  cbn [item_of fst snd el_code el_val el_deferred] in *.
  destruct (value_read (in_dec t) _ _ r _ _ Hcd Hd) as (s & buf & r' & Hf & Ht & Hp' & Hd').
  exists s, buf, r'. split; [done|]. rewrite Ht. cbn [fst]. split; [|by intros Hn'%streams_pending; apply Hempty].
  split; [by rewrite fmap_None, Hn, streams_pending|]. intros f (g & -> & ->)%fmap_Some.
  apply (resolved_root t v g env _ (Ho g) Hh); [|apply Hs]; by rewrite ?Hp'.
Qed.

(** The parameters of a connection which received them *)
Lemma params_received cap paths fs env r t v :
  fits t v → (0 < cap)%N → compatible paths → away (streams t v) → carries fs t v →
  receives cap paths (stream fs) (streams t v) env r →
  ∃ d, serve_params t r = Ok (shallow t v, d) ∧ resolves d env t v.
Proof.
  intros Hv Hcap Hc Ha Hfs Hr. destruct (received_supplies _ _ _ _ _ _ _ Hcap Hc Ha Hfs Hr) as (Hp & Hd & Hh & Hs).
  destruct (proj1 (gets_all t) v Hv) as (d & Hcd & Hn & Hempty & Ho).
  cbn [item_of fst snd el_code el_val el_deferred] in *.
  assert (∃ s buf r', dec_take_deferred (in_dec t) s = (d, dec_default (in_dec t)) ∧
    let r'' := mkBufferedIncoming (buf ++ bi_buffer r') (bi_path r') (bi_rest r') in
    bi_path r'' = bi_path r ∧ bi_data r'' = [] ∧
    serve_params t r = Ok (shallow t v, (λ (f : IncomingFn) env, f env r'') <$> d))
    as (s & buf & r' & Ht & Hp' & Hd' & Hserve).
  { unfold serve_params. destruct (decide (plain (tokens t v) = [])) as [He|Hne].
    - rewrite He in Hcd, Hd. destruct (resumes_complete _ _ _ _ _ [] Hcd) as (s & Hdec & Ht).
      exists s, [], r. split; [done|]. cbn [app]. split; [done|]. split; [by rewrite <- Hd; destruct r|].
      cbn [app] in Hdec. rewrite Hdec. cbn [rbind]. by rewrite Ht.
    - destruct (resumes_incomplete (dec_decode (in_dec t)) _ _ [] _ _ Hcd Hne) as (s0 & c & p & Hcp & Hdec & Hres).
      symmetry in Hcp. apply app_nil in Hcp as (-> & ->).
      destruct (value_read (in_dec t) _ _ r _ _ Hres Hd) as (s & buf & r' & Hf & Ht & Hp' & Hd').
      exists s, buf, r'. split; [done|]. split; [done|]. split; [done|]. rewrite Hdec, Hf. cbn [rbind]. by rewrite Ht. }
  eexists. split; [exact Hserve|]. split; [by rewrite fmap_None, Hn, streams_pending|].
  intros f (g & -> & ->)%fmap_Some.
  apply (resolved_root t v g env _ (Ho g) Hh); [|apply Hs]; by rewrite ?Hp'.
Qed.

(** ** Sending *)

(** A value which is encoded, with what its operation writes: the frames after
    its encoding in the root carry it. *)
Lemma value_sent t v :
  fits t v → fit_traffic [] (streams t v) → away (streams t v) →
  ∃ enc wrs,
    enc_encode (out_enc flush t) (enc_default (out_enc flush t)) v [] = Ok (plain (tokens t v), enc) ∧
    Forall write_ok wrs ∧
    match (enc_take_deferred (out_enc flush t) enc).1 with
    | Some f => f Outgoing_new = Ok wrs
    | None => wrs = []
    end ∧
    ∀ q, data_on q (wrs ≫= write_frames) = content [] (streams t v) q.
Proof.
  intros Hv Hfit Ha. destruct (proj1 (sends_all flush t) v Hv []) as (d & s & He & Ht & Hn & Hs).
  cbn [part fst snd app] in *. destruct d as [f|].
  - destruct (Hs f Outgoing_new eq_refl outgoing_handle_new Hfit) as (wrs & Hw & Hok & Hq).
    exists s, wrs. rewrite Ht. split_and!; [done|done|done|]. intros q. by rewrite data_on_writes, Hq.
  - exists s, []. rewrite Ht. split_and!; [done|constructor|done|]. intros q.
    by rewrite (proj1 Hn eq_refl).
Qed.

(** What a handle writes is on the wire. *)
Lemma writes_sent wrs shutdown :
  Forall write_ok wrs →
  ∃ e, do_writes wrs (mkEgress [] None) = Ok e ∧ Forall frame_fits (wrs ≫= write_frames) ∧
    (egress (λ w b, Ok (w ++ b)) shutdown [] (e_queue e)).2 = stream (wrs ≫= write_frames).
Proof.
  intros Hok.
  assert (Forall (λ wr, outgoing_ok (write_handle wr)) wrs) as Ho
    by (eapply Forall_impl; [exact Hok|]; intros wr (Ho & _); by apply outgoing_handle_ok).
  pose proof (do_writes_frames wrs (mkEgress [] None) eq_refl Ho) as Hd. eexists. split; [exact Hd|].
  by destruct (writes_on_wire wrs shutdown _ Hok Hd).
Qed.

(** The response carries the results. *)
Lemma results_sent t v :
  fits t v → fit_traffic [] (streams t v) → away (streams t v) →
  ∃ wrs, serve_results flush t Outgoing_new (Ok tt) v = Ok wrs ∧ Forall write_ok wrs ∧
    (Forall frame_fits (wrs ≫= write_frames) → carries (wrs ≫= write_frames) t v).
Proof.
  intros Hv Hfit Ha. destruct (value_sent t v Hv Hfit Ha) as (enc & wrs & He & Hok & Hw & Hq).
  exists (WriteBytes Outgoing_new (plain (tokens t v)) :: wrs). split; [|split].
  - unfold serve_results. rewrite He. cbn [map_err rbind].
    destruct (enc_take_deferred (out_enc flush t) enc).1 as [f|]; [by rewrite Hw|by subst].
  - constructor; [|done]. split; [constructor|done].
  - intros Hff. split; [done|].
    assert (∀ q, data_on q ((WriteBytes Outgoing_new (plain (tokens t v)) :: wrs) ≫= write_frames) =
      (if decide (q = []) then plain (tokens t v) else []) ++ content [] (streams t v) q) as Hd.
    { intros q. specialize (Hq q). rewrite data_on_writes in *. unfold written_on in *. rewrite filter_cons.
      cbn [write_handle out_path Outgoing_new].
      destruct (decide (q = [])) as [->|Hne]; [rewrite decide_True by done|by rewrite decide_False].
      rewrite fmap_cons. cbn [concat write_data]. by rewrite Hq. }
    split.
    + by rewrite Hd, decide_True, content_away, app_nil_r.
    + intros q Hne. by rewrite Hd, decide_False.
Qed.

(** The parameters are transmitted, and the results are received: so is what
    their pending parts resolve to, whatever completes first. *)
Lemma invoke_values_answered {T} `{!Invoke T} P R (self : T) instance func (v : val P) (u : val R) paths sch
    buf enc wrs ticks cap fs env r :
  enc_encode (out_enc flush P) (enc_default (out_enc flush P)) v [] = Ok (buf, enc) →
  match (enc_take_deferred (out_enc flush P) enc).1 with Some f => f Outgoing_new = Ok wrs | None => wrs = [] end →
  Invoke_invoke self instance func buf paths = Some (ticks, Ok (mkConnection Outgoing_new r env)) →
  fits R u → (0 < cap)%N → compatible paths → away (streams R u) → carries fs R u →
  receives cap paths (stream fs) (streams R u) env r → sch_panics sch = false →
  invoke_values_blocking flush P R self instance func v paths sch = Some (Ok (shallow R u, arrivals R u)).
Proof.
  intros He Hw Hi Hu Hcap Hc Ha Hfs Hr Hsch.
  destruct (results_received _ _ _ _ _ _ _ Hu Hcap Hc Ha Hfs Hr) as (s & rbuf & r' & Hf & (Hn & Hd) & Hempty).
  unfold invoke_values_blocking, invoke_values. rewrite He, Hi. cbn [map_err rbind].
  unfold invoke_values_on. cbn [conn_outgoing conn_incoming conn_env]. rewrite Hf.
  unfold transmit_params. rewrite Hsch.
  destruct (dec_take_deferred (in_dec R) s).1 as [g|].
  - specialize (Hd _ eq_refl). cbn beta in Hd.
    destruct (enc_take_deferred (out_enc flush P) enc).1 as [f|];
      [cbn [fmap option_fmap option_map]; rewrite Hw; destruct (sch_tx_first sch)|];
      cbn; by rewrite Hd.
  - rewrite (Hempty (proj1 Hn eq_refl)).
    destruct (enc_take_deferred (out_enc flush P) enc).1 as [f|];
      [cbn [fmap option_fmap option_map]; rewrite Hw; by destruct (sch_tx_first sch)|done].
Qed.
(** The pending parts of parameters and results are not on the path of the root. *)
Lemma streams_tuple_away ts (v : val (TTuple ts)) : away (streams (TTuple ts) v).
Proof. cbn [streams]. apply away_indexed. Qed.

(** [C2] A typed remote call: the parameters which a client invokes a function
    with are queued for the handler of the function, whose [serve_values] yields
    them and what their pending parts resolve to; and the results which are
    returned to it are those [invoke_values_blocking] of the client yields, with
    what their pending parts resolve to, whether the parameters are transmitted
    before or after the results are received.  The readers which a side holds on
    the paths of the pending parts, and on those which lead to them, read what
    ingress received there, and the receivers of what it yields are held. *)
Theorem remote_values {C O} ps rs (v : val (TTuple ps)) (u : val (TTuple rs)) (srv : Server C O) cx tx
    instance func out written c queue cap paths paths' shutdown shutdown' :
  fits _ v → fits _ u → fit_traffic [] (streams _ v) → fit_traffic [] (streams _ u) →
  (0 < cap)%N → compatible paths → compatible paths' →
  utf8_valid instance = true → utf8_valid func = true →
  (len instance ≤ hd_max_instance_len (srv_header srv) ≤ u32_MAX)%N →
  (len func ≤ hd_max_name_len (srv_header srv) ≤ u32_MAX)%N → (len (plain (tokens _ v)) ≤ u32_MAX)%N →
  invoke (λ w b, Ok (w ++ b)) instance func (plain (tokens _ v)) = Ok (out, written) →
  handler srv instance func = Some c → srv_chans srv !! c = Some queue → length queue < HANDLER_QUEUE →
  ∃ enc wrs e srv' rx,
    enc_encode (out_enc flush (TTuple ps)) (enc_default _) v [] = Ok (plain (tokens _ v), enc) ∧
    match (enc_take_deferred (out_enc flush (TTuple ps)) enc).1 with
    | Some f => f out = Ok wrs
    | None => wrs = []
    end ∧
    do_writes wrs (mkEgress [] None) = Ok e ∧
    Server_accept srv cx tx (written ++ (egress (λ w b, Ok (w ++ b)) shutdown [] (e_queue e)).2) = Accepted srv' ∧
    srv_chans srv' !! c = Some (queue ++ [(cx, rx, tx)]) ∧
    ∀ env r, receives cap paths rx (streams _ v) env r →
      ∃ d wrs' e',
        serve_values flush (TTuple ps) (TTuple rs) cx Outgoing_new r =
          Ok (cx, shallow _ v, d, serve_results flush (TTuple rs) Outgoing_new) ∧
        resolves d env _ v ∧
        serve_results flush (TTuple rs) Outgoing_new (Ok tt) u = Ok wrs' ∧
        do_writes wrs' (mkEgress [] None) = Ok e' ∧
        ∀ T (HT : Invoke T) (self : T) ticks sch env' r',
          receives cap paths' (egress (λ w b, Ok (w ++ b)) shutdown' [] (e_queue e')).2 (streams _ u) env' r' →
          Invoke_invoke self instance func (plain (tokens _ v)) paths' =
            Some (ticks, Ok (mkConnection out r' env')) →
          sch_panics sch = false →
          invoke_values_blocking flush (TTuple ps) (TTuple rs) self instance func v paths' sch =
            Some (Ok (shallow _ u, arrivals _ u)).
Proof.
  intros Hv Hu Hfv Hfu Hcap Hc Hc' Hi Hf (Hil & Him) (Hfl & Hfm) Hlen Hinv Hh Hq Hql.
  pose proof (streams_tuple_away ps v) as Hav. pose proof (streams_tuple_away rs u) as Hau.
  destruct (value_sent _ v Hv Hfv Hav) as (enc & wrs & He & Hok & Hw & Hdata).
  destruct (writes_sent wrs shutdown Hok) as (e & Hde & Hff & Hwire).
  assert (out = Outgoing_new) as ->.
  { unfold invoke in Hinv. apply rbind_ok in Hinv as (b & _ & Hinv). by injection Hinv. }
  exists enc, wrs, e. do 2 eexists. split; [done|]. split; [done|]. split; [done|]. rewrite Hwire. split.
  { by apply (accept_invocation srv cx tx instance func _ _ _ written c queue Hi Hf Hil Hfl Him Hfm Hlen Hinv). }
  cbn [srv_chans]. rewrite lookup_insert_eq. split; [done|]. intros env r Hr. fold (params_frames (plain (tokens _ v))) in Hr.
  destruct (params_received cap paths (params_frames (plain (tokens _ v)) ++ (wrs ≫= write_frames)) env r _ v
    Hv Hcap Hc Hav) as (d & Hserve & Hres); [|exact Hr|].
  { split; [apply Forall_app; split; [by apply params_frames_fit|done]|].
    split; [|intros q Hne]; rewrite data_on_app, data_on_params, Hdata.
    - by rewrite decide_True, content_away, app_nil_r.
    - by rewrite decide_False. }
  destruct (results_sent _ u Hu Hfu Hau) as (wrs' & Hsr & Hok' & Hcar).
  destruct (writes_sent wrs' shutdown' Hok') as (e' & Hde' & Hff' & Hwire').
  exists d, wrs', e'. unfold serve_values. rewrite Hserve. split; [done|]. split; [done|]. split; [done|]. split; [done|].
  rewrite Hwire'. intros T HT self ticks sch env' r' Hr' Hclt Hsch. by eapply invoke_values_answered; eauto.
Qed.

(** The outcome of an invocation does not depend on whether the parameters
    are transmitted before the results are received, nor on which operation fails
    first: with every order, [invoke_values_blocking] succeeds with the same
    results, or fails. *)
Theorem invocation_order {T} `{!Invoke T} P R (self : T) instance func (v : val P) paths sch sch' x :
  sch_panics sch = sch_panics sch' →
  invoke_values_blocking flush P R self instance func v paths sch = Some (Ok x) →
  invoke_values_blocking flush P R self instance func v paths sch' = Some (Ok x).
Proof.
  intros Hp. unfold invoke_values_blocking, invoke_values.
  destruct (enc_encode _ _ v []) as [[buf enc]|e]; [|done].
  destruct (Invoke_invoke _ _ _ _ _) as [[t [conn|e]]|]; [|done..]. cbn [map_err rbind].
  unfold invoke_values_on, transmit_params. rewrite Hp.
  destruct (framed_next _ _ _ _) as [[[[[results|e]|] dec] buffer] incoming];
  destruct (enc_take_deferred _ enc).1 as [tx|]; destruct (dec_take_deferred _ dec).1 as [rx|]; cbn;
  destruct (sch_panics sch'), (sch_tx_first sch), (sch_tx_first sch'); cbn; try done;
  try destruct (tx _); cbn; try done; destruct (rx _ _); done.
Qed.

End remote.

Lemma invoke_timeout {T} `{!Invoke T} (self : T) d instance func params paths :
  Invoke_invoke (timeout self d) instance func params paths =
  Some match Invoke_invoke self instance func params paths with
       | Some (t, res) => if (t <=? d)%N then (t, res) else (d, Err InvokeTimedOut)
       | None => (d, Err InvokeTimedOut)
       end.
Proof.
  cbn [Invoke_invoke invoke_timeout_instance]. unfold Timeout_invoke, tokio_timeout.
  cbn [to_inner to_timeout timeout]. destruct (Invoke_invoke self _ _ _ _) as [[t res]|]; [|done].
  by destruct (t <=? d)%N.
Qed.

(** A timeout bounds an invocation: it completes within the timeout,
    whether or not what it wraps does, with what that yields if it completes in
    time and with the error of the timeout otherwise; and the shorter of nested
    timeouts is what counts. *)
Theorem timeout_bounds {T} `{!Invoke T} (self : T) d d' instance func params paths :
  (∃ t res, Invoke_invoke (timeout self d) instance func params paths = Some (t, res) ∧ (t ≤ d)%N ∧
     match Invoke_invoke self instance func params paths with
     | Some (t', res') => if (t' <=? d)%N then t = t' ∧ res = res' else t = d ∧ res = Err InvokeTimedOut
     | None => t = d ∧ res = Err InvokeTimedOut
     end) ∧
  Invoke_invoke (timeout (timeout self d) d') instance func params paths =
    Invoke_invoke (timeout_owned self (d `min` d')%N) instance func params paths.
Proof.
  assert (Invoke_invoke (timeout_owned self (d `min` d')%N) instance func params paths =
    Invoke_invoke (timeout self (d `min` d')%N) instance func params paths) as -> by done.
  rewrite !invoke_timeout.
  destruct (Invoke_invoke self instance func params paths) as [[t' res']|]; [destruct (N.leb_spec t' d)|].
  all: split; [eexists _, _; split; [done|]; split; [lia|done]|].
  - destruct (N.leb_spec t' d'), (N.leb_spec t' (d `min` d')%N); try lia; [done|]. by rewrite N.min_r by lia.
  - destruct (N.leb_spec d d'), (N.leb_spec t' (d `min` d')%N); try lia; repeat f_equal; lia.
  - destruct (N.leb_spec d d'); repeat f_equal; lia.
Qed.
