(* ===== verification/RemoteStd.v ===== *)
(** * Witnesses of typed remote calls

    An invocation with a pending future and a pending stream as parameters and
    as results, executed from the encoding of its parameters to the receipt of
    its results. *)

From S2P Require Import Prelude Wire FrameCodec Subscriptions Resolve SubsInv Conn Delivery Egress Server.
From S2P Require Import Prims Encode Pack Decode Values ValuesStd Transmit Resume Receive Exchange ExchangeStd Remote RemoteCall.

#[local] Existing Instance leb128_std.
#[local] Existing Instance leb128_std_laws.
#[local] Existing Instance name_std.
#[local] Existing Instance name_std_laws.
#[local] Existing Instance prim_codec_std.
#[local] Existing Instance prim_codec_std_laws.
#[local] Existing Instance prim_std_resume.
#[local] Existing Instance framed_std_laws.
#[local] Existing Instance cm_decoder_std_resume.
#[local] Instance test_framed_read : FramedRead := framed_std 2.
#[local] Instance test_cm_encoder : CmEncoder OutgoingFn := cm_encoder_std OutgoingFn.
#[local] Instance test_cm_encoder_laws : CmEncoderLaws OutgoingFn := cm_encoder_std_laws OutgoingFn.
#[local] Instance test_cm_decoder : CmDecoder IncomingFn := cm_decoder_std IncomingFn.
#[local] Instance test_cm_decoder_laws : CmDecoderLaws IncomingFn := cm_decoder_std_laws IncomingFn.

(** The header and the parameters of the invocation, and what is received of the
    frames of the parameters and of the results *)
Definition call_header : bytes := [x01; x03; x61; x3a; x62; x01; x66; x00; x02; x00; x00].
Definition call_wire : bytes := stream [mkFrame [] [x00; x00]] ++ sent_wire.
Definition call_receive : list action := [AFrame; AForward; ARead 0 8] ++ sent_receive.
Definition call_received : list event * World :=
  default ([], Incoming_new sent_paths [])
    (exec 1024 call_receive [] (Incoming_new sent_paths call_wire)).
Definition call_env : Env := way_env sent_traffic (λ q, received_on q call_received.1).
Definition call_reader : BufferedIncoming := mkBufferedIncoming [] [] [[x00]; [x00]].

(** A client whose invocations take three ticks *)
#[local] Instance test_invoke : Invoke unit :=
  {| Invoke_invoke _ _ _ _ _ := Some (3%N, Ok (mkConnection Outgoing_new call_reader call_env)) |}.

Lemma call_receives : receives 1024 sent_paths call_wire sent_traffic call_env call_reader.
Proof.
  exists call_received.1, call_received.2. split; [|split; [|split; [done|split; [|split; [done|]]]]].
  - apply exec_reachable with call_receive. vm_compute. reflexivity.
  - vm_compute. reflexivity.
  - vm_compute. reflexivity.
  - intros q _. apply way_env_data.
Qed.

(** The state of the encoder of the parameters, and the server with the
    connection of the invocation *)
Definition call_enc : enc_state (out_std sent_ty) :=
  match enc_encode (out_std sent_ty) (enc_default (out_std sent_ty)) sent_val [] with
  | Ok (_, enc) => enc
  | Err _ => enc_default (out_std sent_ty)
  end.
Definition call_writes : list write :=
  match (enc_take_deferred (out_std sent_ty) call_enc).1 with
  | Some f => match f Outgoing_new with Ok wrs => wrs | Err _ => [] end
  | None => []
  end.

Lemma remote_values_witness :
  ∃ srv' d,
    Server_accept test_server 7 8 (call_header ++ sent_wire) = Accepted srv' ∧
    srv_chans srv' !! 0%N = Some [(7, call_wire, 8)] ∧
    serve_values (λ _, true) sent_ty sent_ty 7 Outgoing_new call_reader =
      Ok (7, shallow sent_ty sent_val, d, serve_results (λ _, true) sent_ty Outgoing_new) ∧
    resolves d call_env sent_ty sent_val ∧
    invoke_values_blocking (λ _, true) sent_ty sent_ty (timeout tt 5) test_instance test_func sent_val
      sent_paths (mkSchedule false true false) = Some (Ok (shallow sent_ty sent_val, sent_arrivals)).
Proof.
  destruct (remote_values (λ _, true) [TFuture (TPrim PU32); TStream (TFuture (TPrim PU16))]
    [TFuture (TPrim PU32); TStream (TFuture (TPrim PU16))] sent_val sent_val test_server 7 8 test_instance test_func
    Outgoing_new call_header 0%N [] 1024 sent_paths sent_paths (λ _, Ok tt) (λ _, Ok tt)
    sent_fits sent_fits sent_fit_traffic sent_fit_traffic eq_refl sent_paths_compatible sent_paths_compatible
    eq_refl eq_refl ltac:(vm_compute; split; discriminate) ltac:(vm_compute; split; discriminate)
    ltac:(vm_compute; discriminate) ltac:(vm_compute; reflexivity) ltac:(vm_compute; reflexivity)
    ltac:(vm_compute; reflexivity) ltac:(vm_compute; lia))
    as (enc & wrs & e & srv' & rx & He & Hw & Hde & Hacc & Hq & Hcont).
  assert (enc = call_enc) as ->.
  { unfold call_enc. by rewrite (He : enc_encode (out_std sent_ty) (enc_default (out_std sent_ty)) sent_val [] = _). }
  assert (wrs = sent_writes) as ->.
  { transitivity call_writes; [|vm_compute; reflexivity]. unfold call_writes.
    match type of Hw with match ?d with _ => _ end =>
      change (enc_take_deferred (out_std sent_ty) call_enc).1 with d; destruct d; [by rewrite Hw|done] end. }
  assert (e = sent_egress) as -> by (unfold sent_egress; by rewrite Hde).
  fold sent_wire in Hacc.
  assert (rx = call_wire) as ->.
  { assert (Accepted srv' = Server_accept test_server 7 8 (call_header ++ sent_wire)) as Hs by done.
    vm_compute in Hs. injection Hs as ->. vm_compute in Hq. injection Hq as <-. vm_compute. reflexivity. }
  destruct (Hcont call_env call_reader call_receives) as (d & wrs' & e' & Hs & Hres & Hsr & Hde' & Hinv).
  exists srv', d. split; [done|]. split; [done|]. split; [done|]. split; [done|].
  apply (Hinv _ _ (timeout tt 5) 3%N (mkSchedule false true false) call_env call_reader); [|vm_compute; reflexivity|done].
  assert ((egress (λ w b, Ok (w ++ b)) (λ _, Ok tt) [] (e_queue e')).2 = call_wire) as ->; [|apply call_receives].
  vm_compute in Hsr. injection Hsr as <-. vm_compute in Hde'. injection Hde' as <-. vm_compute. reflexivity.
Defined.

Lemma invocation_order_witness :
  invoke_values_blocking (λ _, true) sent_ty sent_ty (timeout tt 5) test_instance test_func sent_val
    sent_paths (mkSchedule false false true) = Some (Ok (shallow sent_ty sent_val, sent_arrivals)).
Proof.
  apply (invocation_order (λ _, true) sent_ty sent_ty (timeout tt 5) test_instance test_func sent_val sent_paths
    (mkSchedule false true false)); [reflexivity|]. vm_compute. reflexivity.
Defined.
