(* ===== verification/Split.v ===== *)
(** * Streams of connections

    Model of [crates/transport/src/frame/split.rs], which splits a stream into a
    half which is read and one which is written, and of the [Oneshot] client of
    [crates/transport/src/frame/oneshot.rs].

    The halves are used by tasks of their own and share the stream and a waker.
    A section of a task is what it does while it holds the lock, or one operation
    of the waker; sections interleave.  The stream is a parameter; [None] waits.
    The theorems show that a reader never waits for a stream whose write half was
    dropped, and that a stream which was shut down is not aborted. *)

From S2P Require Import Prelude Wire FrameCodec Subscriptions Resolve Conn Delivery Egress.

(** [AsyncRead] and [AsyncWrite] of a stream *)
Class AsyncStream (T : Type) := {
  stream_poll_read : nat → T → option (io_result bytes) * T;
  stream_poll_write : bytes → T → option (io_result N) * T;
  stream_poll_write_vectored : list bytes → T → option (io_result N) * T;
  stream_is_write_vectored : T → bool;
  stream_poll_flush : T → option (io_result unit) * T;
  stream_poll_shutdown : T → option (io_result unit) * T
}.

Section split.
Context {T : Type} `{!AsyncStream T} (abort : T → T).

(** [AtomicWaker]: [wk_set] is whether the waker of the reader is registered, and
    [wk_woken] whether it was woken since. *)
Record Waker := mkWaker { wk_set : bool; wk_woken : bool }.

Definition waker_register (_ : Waker) : Waker := mkWaker true false.
Definition waker_wake (w : Waker) : Waker := if wk_set w then mkWaker false true else w.

(** [Shared]; [sh_closed] is the stream once it was closed. *)
Record Shared := mkShared {
  sh_stream : option T;
  sh_waker : Waker;
  sh_closed : option T
}.

Definition Shared_poll {U} (sh : Shared) (f : T → option (io_result U) * T) : option (io_result U) * Shared :=
  match sh_stream sh with
  | None => (Some (Err ConnectionAborted), sh)
  | Some stream => let '(r, stream) := f stream in (r, mkShared (Some stream) (sh_waker sh) (sh_closed sh))
  end.

Record ReadHalf := mkReadHalf { rh_eof : bool }.
Record WriteHalf := mkWriteHalf { wh_shutdown : bool }.

(** [split] *)
Definition split_halves (stream : T) : Shared * ReadHalf * WriteHalf :=
  (mkShared (Some stream) (mkWaker false false) None, mkReadHalf false, mkWriteHalf false).

(** The sections of [ReadHalf::poll_read]: what it does before it takes the
    lock, which returns at once at the end of the stream, and the read *)
Definition ReadHalf_register (rh : ReadHalf) (sh : Shared) : option (io_result bytes) * Shared :=
  if rh_eof rh then (Some (Ok []), sh)
  else (None, mkShared (sh_stream sh) (waker_register (sh_waker sh)) (sh_closed sh)).

Definition ReadHalf_read (n : nat) (rh : ReadHalf) (sh : Shared) :
    option (io_result bytes) * ReadHalf * Shared :=
  match Shared_poll sh (stream_poll_read n) with
  | (Some (Ok chunk), sh) => (Some (Ok chunk), mkReadHalf ((length chunk =? 0) && (0 <? n)), sh)
  | (r, sh) => (r, rh, sh)
  end.

(** [ReadHalf::poll_read] when nothing is in between *)
Definition ReadHalf_poll_read (n : nat) (rh : ReadHalf) (sh : Shared) :
    option (io_result bytes) * ReadHalf * Shared :=
  match ReadHalf_register rh sh with
  | (Some r, sh) => (Some r, rh, sh)
  | (None, sh) => ReadHalf_read n rh sh
  end.

Definition WriteHalf_poll_write (buf : bytes) (sh : Shared) : option (io_result N) * Shared :=
  Shared_poll sh (stream_poll_write buf).
Definition WriteHalf_poll_write_vectored (bufs : list bytes) (sh : Shared) : option (io_result N) * Shared :=
  Shared_poll sh (stream_poll_write_vectored bufs).
Definition WriteHalf_is_write_vectored (sh : Shared) : bool :=
  match sh_stream sh with Some stream => stream_is_write_vectored stream | None => false end.
Definition WriteHalf_poll_flush (sh : Shared) : option (io_result unit) * Shared :=
  Shared_poll sh stream_poll_flush.

Definition WriteHalf_poll_shutdown (wh : WriteHalf) (sh : Shared) :
    option (io_result unit) * WriteHalf * Shared :=
  match Shared_poll sh stream_poll_shutdown with
  | (Some (Ok _), sh) => (Some (Ok tt), mkWriteHalf true, sh)
  | (r, sh) => (r, wh, sh)
  end.

(** The sections of [drop] of a write half which was not shut down: the stream is
    taken, aborted and closed, and then the reader is woken. *)
Definition WriteHalf_take (sh : Shared) : Shared :=
  match sh_stream sh with
  | Some stream => mkShared None (sh_waker sh) (Some (abort stream))
  | None => sh
  end.
Definition WriteHalf_wake (sh : Shared) : Shared :=
  mkShared (sh_stream sh) (waker_wake (sh_waker sh)) (sh_closed sh).

(** ** Executions *)

(** Where the task of a reader is: before a read, between its registration and
    the lock, or waiting to be woken *)
Inductive reader_pc := RIdle | RRegistered (n : nat) | RWaiting.

(** Where that of the writer is: it has the half, is between the sections of its
    [drop], or is done *)
Inductive writer_pc := WHeld | WTaken | WDropped.

Record Halves := mkHalves {
  hv_shared : Shared;
  hv_read : ReadHalf;
  hv_reader : reader_pc;
  hv_write : WriteHalf;
  hv_writer : writer_pc
}.

Definition Halves_new (stream : T) : Halves :=
  let '(sh, rh, wh) := split_halves stream in mkHalves sh rh RIdle wh WHeld.

(** The event of a step is what a read which completes yields. *)
Inductive half_step : Halves → option (io_result bytes) → Halves → Prop :=
  | step_register n sh rh wh w r sh' :
      ReadHalf_register rh sh = (r, sh') →
      half_step (mkHalves sh rh RIdle wh w) r
        (mkHalves sh' rh (match r with Some _ => RIdle | None => RRegistered n end) wh w)
  | step_read n sh rh wh w r rh' sh' :
      ReadHalf_read n rh sh = (r, rh', sh') →
      half_step (mkHalves sh rh (RRegistered n) wh w) r
        (mkHalves sh' rh' (match r with Some _ => RIdle | None => RWaiting end) wh w)
  | step_repoll sh rh wh w : half_step (mkHalves sh rh RWaiting wh w) None (mkHalves sh rh RIdle wh w)
  | step_write buf sh rh r wh o sh' :
      WriteHalf_poll_write buf sh = (o, sh') →
      half_step (mkHalves sh rh r wh WHeld) None (mkHalves sh' rh r wh WHeld)
  | step_write_vectored bufs sh rh r wh o sh' :
      WriteHalf_poll_write_vectored bufs sh = (o, sh') →
      half_step (mkHalves sh rh r wh WHeld) None (mkHalves sh' rh r wh WHeld)
  | step_flush sh rh r wh o sh' :
      WriteHalf_poll_flush sh = (o, sh') →
      half_step (mkHalves sh rh r wh WHeld) None (mkHalves sh' rh r wh WHeld)
  | step_shutdown sh rh r wh o wh' sh' :
      WriteHalf_poll_shutdown wh sh = (o, wh', sh') →
      half_step (mkHalves sh rh r wh WHeld) None (mkHalves sh' rh r wh' WHeld)
  | step_drop_shutdown sh rh r wh :
      wh_shutdown wh = true → half_step (mkHalves sh rh r wh WHeld) None (mkHalves sh rh r wh WDropped)
  | step_drop_take sh rh r wh :
      wh_shutdown wh = false →
      half_step (mkHalves sh rh r wh WHeld) None (mkHalves (WriteHalf_take sh) rh r wh WTaken)
  | step_drop_wake sh rh r wh :
      half_step (mkHalves sh rh r wh WTaken) None (mkHalves (WriteHalf_wake sh) rh r wh WDropped).

Inductive half_steps : Halves → list (option (io_result bytes)) → Halves → Prop :=
  | half_steps_refl s : half_steps s [] s
  | half_steps_snoc s1 tr s2 ev s3 : half_steps s1 tr s2 → half_step s2 ev s3 → half_steps s1 (tr ++ [ev]) s3.

(** ** Invariant *)

(** The stream is taken by [drop] alone; while the reader waits or is about to
    read, it is registered or was woken since, and it was woken if [drop] is
    complete. *)
Record halves_inv (s : Halves) : Prop := {
  hi_held : hv_writer s = WHeld ∨ wh_shutdown (hv_write s) = true →
    is_Some (sh_stream (hv_shared s)) ∧ sh_closed (hv_shared s) = None;
  hi_taken : hv_writer s ≠ WHeld → wh_shutdown (hv_write s) = false →
    sh_stream (hv_shared s) = None ∧ is_Some (sh_closed (hv_shared s));
  hi_closed stream : sh_closed (hv_shared s) = Some stream → ∃ stream', stream = abort stream';
  hi_shutdown : hv_writer s = WTaken → wh_shutdown (hv_write s) = false;
  hi_waker : hv_reader s ≠ RIdle →
    wk_set (sh_waker (hv_shared s)) = true ∨ wk_woken (sh_waker (hv_shared s)) = true;
  hi_woken : hv_writer s = WDropped → wh_shutdown (hv_write s) = false → hv_reader s = RWaiting →
    wk_woken (sh_waker (hv_shared s)) = true
}.

Lemma Shared_poll_same {U} sh (f : T → option (io_result U) * T) r sh' :
  Shared_poll sh f = (r, sh') →
  sh_waker sh' = sh_waker sh ∧ sh_closed sh' = sh_closed sh ∧ (is_Some (sh_stream sh') ↔ is_Some (sh_stream sh)) ∧
  (sh_stream sh = None → r = Some (Err ConnectionAborted)).
Proof.
  unfold Shared_poll. destruct (sh_stream sh) as [stream|] eqn:Hs; [|intros [= <- <-]; by rewrite Hs].
  destruct (f stream) as [r' stream']. intros [= <- <-]. by cbn.
Qed.

Lemma ReadHalf_read_same n rh sh r rh' sh' :
  ReadHalf_read n rh sh = (r, rh', sh') →
  sh_waker sh' = sh_waker sh ∧ sh_closed sh' = sh_closed sh ∧ (is_Some (sh_stream sh') ↔ is_Some (sh_stream sh)) ∧
  (sh_stream sh = None → r = Some (Err ConnectionAborted) ∧ rh' = rh).
Proof.
  unfold ReadHalf_read. destruct (Shared_poll sh (stream_poll_read n)) as [o sh1] eqn:Hp.
  apply Shared_poll_same in Hp as (Hw & Hc & Hs & Ha).
  destruct o as [[chunk|e]|]; intros [= <- <- <-]; (split_and!; [done|done|done|]); intros Hn;
    specialize (Ha Hn); by simplify_eq.
Qed.
Lemma halves_inv_new stream : halves_inv (Halves_new stream).
Proof. by split. Qed.

(** An operation on the stream which leaves the rest as it is *)
Lemma halves_inv_poll sh sh' rh rh' r r' wh wh' w :
  sh_waker sh' = sh_waker sh → sh_closed sh' = sh_closed sh → (is_Some (sh_stream sh') ↔ is_Some (sh_stream sh)) →
  (r' ≠ RIdle → r ≠ RIdle) → (r' = RWaiting → r = RWaiting ∨ is_Some (sh_stream sh)) →
  (wh_shutdown wh' = wh_shutdown wh ∨ w = WHeld) →
  halves_inv (mkHalves sh rh r wh w) → halves_inv (mkHalves sh' rh' r' wh' w).
Proof.
  intros Hw Hc Hs Hr Hwait Hwh [Hheld Htaken Hcl Hsd Hwk Hwoken]; split; cbn in *; rewrite ?Hw, ?Hc, ?Hs.
  - intros Hx. apply Hheld. destruct Hwh as [<-|]; [done|by left].
  - intros Hx Hsd'. destruct Hwh as [Hwh|]; [|done]. destruct (Htaken Hx) as (Hn & ?); [congruence|].
    split; [|done]. apply eq_None_not_Some. rewrite Hs, Hn. apply is_Some_None.
  - done.
  - intros ->. destruct Hwh as [->|]; [by apply Hsd|done].
  - auto.
  - intros -> Hsd' ->. destruct Hwh as [Hwh|]; [|done]. rewrite Hwh in Hsd'.
    destruct (Hwait eq_refl) as [->|Hsome]; [by apply Hwoken|].
    destruct (Htaken ltac:(done) Hsd') as (Hn & _). rewrite Hn in Hsome. by apply is_Some_None in Hsome.
Qed.

Lemma halves_inv_step s ev s' : half_step s ev s' → halves_inv s → halves_inv s'.
Proof.
  destruct 1 as [n sh rh wh w r sh' Hr|n sh rh wh w r rh' sh' Hr|sh rh wh w|buf sh rh r wh o sh' Hp|
    bufs sh rh r wh o sh' Hp|sh rh r wh o sh' Hp|sh rh r wh o wh' sh' Hp|sh rh r wh Hsh|sh rh r wh Hsh|sh rh r wh].
  - intros Hi. unfold ReadHalf_register in Hr. destruct (rh_eof rh); injection Hr as <- <-; [done|].
    destruct Hi as [Hheld Htaken Hcl Hsd Hwk Hwoken]. split; cbn in *; auto; done.
  - apply ReadHalf_read_same in Hr as (Hw & Hc & Hs & Ha). apply halves_inv_poll; [done..|by destruct r| |by left].
    destruct r; [done|]. intros _. right. destruct (sh_stream sh); [by eexists|]. by destruct (Ha eq_refl).
  - apply halves_inv_poll; try done. by left.
  - apply Shared_poll_same in Hp as (Hw & Hc & Hs & _). apply halves_inv_poll; auto.
  - apply Shared_poll_same in Hp as (Hw & Hc & Hs & _). apply halves_inv_poll; auto.
  - apply Shared_poll_same in Hp as (Hw & Hc & Hs & _). apply halves_inv_poll; auto.
  - unfold WriteHalf_poll_shutdown in Hp. destruct (Shared_poll sh stream_poll_shutdown) as [o' sh1] eqn:Hp'.
    apply Shared_poll_same in Hp' as (Hw & Hc & Hs & _).
    destruct o' as [[?|?]|]; injection Hp as <- <- <-; apply halves_inv_poll; auto.
  - intros [Hheld Htaken Hcl Hsd Hwk Hwoken]. split; cbn in *; auto; congruence.
  - intros [Hheld Htaken Hcl Hsd Hwk Hwoken]. cbn in *. destruct (Hheld (or_introl eq_refl)) as ((stream & Hs) & _).
    unfold WriteHalf_take. rewrite Hs. split; cbn; try done.
    + intros [|?]; congruence.
    + intros x [= <-]. by eexists.
  - intros [Hheld Htaken Hcl Hsd Hwk Hwoken]. cbn in *. pose proof (Hsd eq_refl) as Hsh. split; cbn; try done.
    + intros [|?]; congruence.
    + auto.
    + intros Hr. unfold waker_wake. destruct (wk_set (sh_waker sh)) eqn:Hset; [by right|].
      rewrite Hset. by destruct (Hwk Hr); [congruence|right].
    + intros _ _ ->. unfold waker_wake. destruct (wk_set (sh_waker sh)) eqn:Hset; [done|].
      by destruct (Hwk ltac:(done)); [congruence|].
Qed.

Lemma halves_inv_reachable stream tr s : half_steps (Halves_new stream) tr s → halves_inv s.
Proof.
  intros Hs. remember (Halves_new stream) as s0 eqn:E. induction Hs as [|s0 tr s ev s' _ IH Hstep]; subst.
  - apply halves_inv_new.
  - eapply halves_inv_step; eauto.
Qed.

(** ** Properties *)

(** [C22] A reader does not wait for a stream whose write half was dropped: once
    a half which was not shut down is dropped, however the sections of the tasks
    interleave, the stream was aborted and closed, a reader which waits was woken,
    and every read fails with [ConnectionAborted], unless the reader reached the
    end of the stream before; while a half which was shut down leaves the stream
    open to the reader. *)
Theorem dropped_half_wakes_reader stream tr s :
  half_steps (Halves_new stream) tr s →
  (hv_writer s = WDropped → wh_shutdown (hv_write s) = false →
     (∃ stream', sh_closed (hv_shared s) = Some (abort stream')) ∧
     (hv_reader s = RWaiting → wk_woken (sh_waker (hv_shared s)) = true) ∧
     ∀ n, (ReadHalf_poll_read n (hv_read s) (hv_shared s)).1.1 =
       Some (if rh_eof (hv_read s) then Ok [] else Err ConnectionAborted)) ∧
  (hv_writer s = WHeld ∨ wh_shutdown (hv_write s) = true →
     is_Some (sh_stream (hv_shared s)) ∧ sh_closed (hv_shared s) = None).
Proof.
  intros Hs. pose proof (halves_inv_reachable _ _ _ Hs) as [Hheld Htaken Hcl Hsd Hwk Hwoken].
  split; [|done]. intros Hd Hsh. destruct (Htaken) as (Hn & Hc); [congruence|done|].
  split; [destruct Hc as (x & Hc); rewrite Hc; by destruct (Hcl x Hc) as (y & ->); eexists|]. split; [by apply Hwoken|]. intros n.
  unfold ReadHalf_poll_read, ReadHalf_register. destruct (rh_eof (hv_read s)); [done|].
  destruct (ReadHalf_read _ _ _) as [[r rh'] sh'] eqn:Hr. apply ReadHalf_read_same in Hr as (_ & _ & _ & Ha).
  cbn in *. by destruct (Ha Hn) as (-> & _).
Qed.

End split.

(** ** Oneshot *)

(** [Mutex::try_lock] *)
Inductive lock := Locked | LockWouldBlock | Poisoned.

Section oneshot.
Context {I O : Type}.

(** [Oneshot]: the pair of streams, until it is used *)
Definition Oneshot : Type := option (I * O).

Definition try_take_inner (l : lock) (o : Oneshot) : io_result (I * O) * Oneshot :=
  match l, o with
  | Locked, Some stream => (Ok stream, None)
  | Locked, None => (Err UnexpectedEof, None)
  | LockWouldBlock, o => (Err UnexpectedEof, o)
  | Poisoned, o => (Err Other, o)
  end.

(** [invoke] of [Oneshot]; the writer of [O] is a parameter.  The reader is that
    of the connection. *)
Definition Oneshot_invoke `{Leb128, CoreName} (write_all : O → bytes → bytes → io_result bytes) (l : lock)
    (instance func params : bytes) (o : Oneshot) : io_result (Outgoing * I * bytes) * Oneshot :=
  match try_take_inner l o with
  | (Err e, o) => (Err e, o)
  | (Ok (rx, tx), o) =>
      (let? (outgoing, written) := invoke (write_all tx) instance func params in Ok (outgoing, rx, written), o)
  end.

(** What a sequence of calls takes *)
Fixpoint takes (ls : list lock) (o : Oneshot) : list (io_result (I * O)) :=
  match ls with
  | [] => []
  | l :: ls => let '(r, o) := try_take_inner l o in r :: takes ls o
  end.

Lemma takes_used ls i x : takes ls None !! i ≠ Some (Ok x).
Proof. revert i. induction ls as [|[] ls IH]; intros [|i]; cbn; try done. Qed.

(** A client with one pair of streams is used at most once: of all calls, the
    first which gets the lock takes the streams, and the others fail. *)
Theorem oneshot_once ls stream i x :
  takes ls (Some stream) !! i = Some (Ok x) ↔
  x = stream ∧ ls !! i = Some Locked ∧ ∀ j, j < i → ls !! j ≠ Some Locked.
Proof.
  revert i. induction ls as [|l ls IH]; intros i; [cbn; split; [done|by intros (_ & ? & _)]|].
  destruct i as [|i].
  - destruct l; cbn; (split; [intros [= <-]|intros (? & ? & _)]); simplify_eq; try done.
    split_and!; [done..|lia].
  - destruct l; cbn [takes try_take_inner]; rewrite !lookup_cons; [|rewrite IH..].
    + split; [by intros ?%takes_used|]. intros (_ & _ & Hj). by destruct (Hj 0); [lia|].
    + split; intros (? & ? & Hj); (split_and!; [done..|]).
      * intros [|j] Hlt; [done|]. rewrite lookup_cons. apply Hj. lia.
      * intros j Hlt. apply (Hj (S j)). lia.
    + split; intros (? & ? & Hj); (split_and!; [done..|]).
      * intros [|j] Hlt; [done|]. rewrite lookup_cons. apply Hj. lia.
      * intros j Hlt. apply (Hj (S j)). lia.
Qed.

End oneshot.

(** ** Witnesses *)

(** A stream of chunks, which waits when there is none; an aborted one has none. *)
#[local] Instance test_stream : AsyncStream (list bytes) := {|
  stream_poll_read n s := match s with [] => (None, []) | c :: s => (Some (Ok (take n c)), s) end;
  stream_poll_write buf s := (Some (Ok (len buf)), s);
  stream_poll_write_vectored bufs s := (Some (Ok (len (concat bufs))), s);
  stream_is_write_vectored _ := true;
  stream_poll_flush s := (Some (Ok tt), s);
  stream_poll_shutdown s := (Some (Ok tt), s)
|}.

(** The reader reads a chunk and waits for another, and the writer is dropped:
    the states of the reader and the writer, with the stream and the waker *)
Definition test_halves (stream closed : option (list bytes)) (wk : Waker) (r : reader_pc) (w : writer_pc) :
    Halves :=
  mkHalves (mkShared stream wk closed) (mkReadHalf false) r (mkWriteHalf false) w.
Definition waiting : Halves := test_halves None (Some []) (mkWaker false true) RWaiting WDropped.

Lemma waiting_reachable :
  half_steps (λ _, []) (Halves_new [[x2a]]) [None; Some (Ok [x2a]); None; None; None; None] waiting.
Proof.
  change [None; Some (Ok [x2a]); None; None; None; None] with
    (((((([] ++ [None]) ++ [Some (Ok [x2a])]) ++ [None]) ++ [None]) ++ [None]) ++ [None]
     : list (option (io_result bytes))).
  apply half_steps_snoc with (test_halves None (Some []) (mkWaker true false) RWaiting WTaken); 
    [|apply (step_drop_wake (λ _, []) (mkShared None (mkWaker true false) (Some [])))].
  apply half_steps_snoc with (test_halves (Some []) None (mkWaker true false) RWaiting WHeld); 
    [|by apply (step_drop_take (λ _, []) (mkShared (Some []) (mkWaker true false) None))].
  apply half_steps_snoc with (test_halves (Some []) None (mkWaker true false) (RRegistered 8) WHeld);
    [|by apply (step_read (λ _, []) 8 _ _ _ _ None)].
  apply half_steps_snoc with (test_halves (Some []) None (mkWaker true false) RIdle WHeld);
    [|by apply (step_register (λ _, []) 8 _ _ _ _ None)].
  apply half_steps_snoc with (test_halves (Some [[x2a]]) None (mkWaker true false) (RRegistered 8) WHeld);
    [|by apply (step_read (λ _, []) 8 _ _ _ _ (Some (Ok [x2a])))].
  apply half_steps_snoc with (Halves_new [[x2a]]); [apply half_steps_refl|by apply (step_register (λ _, []) 8 _ _ _ _ None)].
Qed.

Lemma dropped_half_wakes_reader_witness :
  wk_woken (sh_waker (hv_shared waiting)) = true ∧
  (ReadHalf_poll_read 8 (hv_read waiting) (hv_shared waiting)).1.1 = Some (Err ConnectionAborted).
Proof.
  destruct (dropped_half_wakes_reader (λ _, []) [[x2a]] _ waiting waiting_reachable) as (Hd & _).
  destruct (Hd eq_refl eq_refl) as (_ & Hw & Hr). split; [by apply Hw|]. exact (Hr 8).
Defined.
