(* ===== verification/Http.v ===== *)
(** * The HTTP transport

    Model of [crates/http/src/lib.rs]: an invocation is a request whose body has
    the header, the parameters and the frames of the client, and the frames of
    the server are the body of its response.

    The body of a message, [OutgoingBody], and its writer are used by tasks of
    their own, which share a pipe ([simplex] of tokio) and the flag [aborted].  A
    section of a task is what it does while it holds the lock of the pipe, or one
    access of the flag; sections interleave.  The pipe is a parameter with the
    laws [Simplex]; [None] waits.  The theorems show that the peer gets what was
    written in order, that it sees the end of the body only once the writer was
    shut down, and that a request reaches the handler of the function it names. *)

From S2P Require Import Prelude Wire FrameCodec Subscriptions Resolve Conn Delivery Egress Server Split.

Definition DEFAULT_BODY_BUFFER_SIZE : nat := N.to_nat 8192.

(** [SimplexStream]: its operations are those of a stream, [pipe_data] is what was
    written and not read yet, and [pipe_closed] whether the write end is closed. *)
Class Simplex (P : Type) `{!AsyncStream P} (simplex : nat → P) := {
  pipe_data : P → bytes;
  pipe_closed : P → bool;
  simplex_data n : pipe_data (simplex n) = [];
  simplex_closed n : pipe_closed (simplex n) = false;
  simplex_read n p r p' :
    0 < n → stream_poll_read n p = (r, p') →
    pipe_closed p' = pipe_closed p ∧
    match r with
    | Some (Ok chunk) => pipe_data p = chunk ++ pipe_data p' ∧ (chunk = [] → pipe_data p = [] ∧ pipe_closed p = true)
    | Some (Err _) => False
    | None => pipe_data p' = pipe_data p
    end;
  simplex_write buf p r p' :
    stream_poll_write buf p = (r, p') →
    pipe_closed p' = pipe_closed p ∧
    match r with
    | Some (Ok n) => pipe_closed p = false ∧ pipe_data p' = pipe_data p ++ take (N.to_nat n) buf
    | _ => pipe_data p' = pipe_data p
    end;
  simplex_write_vectored bufs p r p' :
    stream_poll_write_vectored bufs p = (r, p') →
    pipe_closed p' = pipe_closed p ∧
    match r with
    | Some (Ok n) => pipe_closed p = false ∧ pipe_data p' = pipe_data p ++ take (N.to_nat n) (concat bufs)
    | _ => pipe_data p' = pipe_data p
    end;
  simplex_flush p r p' :
    stream_poll_flush p = (r, p') → pipe_data p' = pipe_data p ∧ pipe_closed p' = pipe_closed p;
  simplex_shutdown p r p' :
    stream_poll_shutdown p = (r, p') →
    r = Some (Ok tt) ∧ pipe_data p' = pipe_data p ∧ pipe_closed p' = true
}.

(** ** The body of a message *)

Section body.
Context {P : Type} `{!AsyncStream P} (simplex : nat → P).

(** What [OutgoingBody] and [OutgoingBodyDataWriter] share *)
Record BodyShared := mkBodyShared { bd_pipe : P; bd_aborted : bool }.

Record OutgoingBody := mkOutgoingBody { ob_chunks : list bytes; ob_buffer : bytes }.
Record OutgoingBodyDataWriter := mkBodyWriter { obw_shutdown : bool }.

Definition OutgoingBody_new (chunks : list bytes) : OutgoingBody * OutgoingBodyDataWriter * BodyShared :=
  (mkOutgoingBody (filter (λ buf, buf ≠ []) chunks) [], mkBodyWriter false,
   mkBodyShared (simplex DEFAULT_BODY_BUFFER_SIZE) false).

(** [Poll<Option<Result<Frame>>>] *)
Definition frame_poll : Type := option (option (io_result bytes)).

Definition BodyShared_poll {U} (sh : BodyShared) (f : P → option (io_result U) * P) :
    option (io_result U) * BodyShared :=
  let '(r, pipe) := f (bd_pipe sh) in (r, mkBodyShared pipe (bd_aborted sh)).

(** [reserve] leaves room for [room] bytes, at least [DEFAULT_BODY_BUFFER_SIZE],
    and [poll_read_buf] appends what it reads. *)
Definition poll_read_buf (room : nat) (body : OutgoingBody) (sh : BodyShared) :
    option (io_result unit) * OutgoingBody * BodyShared :=
  match BodyShared_poll sh (stream_poll_read room) with
  | (Some (Ok chunk), sh) => (Some (Ok tt), mkOutgoingBody (ob_chunks body) (ob_buffer body ++ chunk), sh)
  | (Some (Err e), sh) => (Some (Err e), body, sh)
  | (None, sh) => (None, body, sh)
  end.

(** The sections of [OutgoingBody::poll_frame]: the read, which yields the
    result of the poll unless nothing was read, and what then loads [aborted] *)
Inductive frame_read :=
  | FramePolled (r : frame_poll)
  | FrameEmpty.

Definition OutgoingBody_read (room : nat) (body : OutgoingBody) (sh : BodyShared) :
    frame_read * OutgoingBody * BodyShared :=
  match ob_chunks body with
  | buf :: chunks => (FramePolled (Some (Some (Ok buf))), mkOutgoingBody chunks (ob_buffer body), sh)
  | [] =>
      match poll_read_buf room body sh with
      | (None, body, sh) => (FramePolled None, body, sh)
      | (Some (Err e), body, sh) => (FramePolled (Some (Some (Err e))), body, sh)
      | (Some (Ok _), body, sh) =>
          let buf := ob_buffer body in
          let body := mkOutgoingBody (ob_chunks body) [] in
          (if decide (buf = []) then FrameEmpty else FramePolled (Some (Some (Ok buf))), body, sh)
      end
  end.

Definition OutgoingBody_end (sh : BodyShared) : frame_poll :=
  if bd_aborted sh then Some (Some (Err BrokenPipe)) else Some None.

(** [OutgoingBody::poll_frame] when nothing is in between *)
Definition OutgoingBody_poll_frame (room : nat) (body : OutgoingBody) (sh : BodyShared) :
    frame_poll * OutgoingBody * BodyShared :=
  match OutgoingBody_read room body sh with
  | (FramePolled r, body, sh) => (r, body, sh)
  | (FrameEmpty, body, sh) => (OutgoingBody_end sh, body, sh)
  end.

Definition BodyWriter_poll_write (buf : bytes) (sh : BodyShared) : option (io_result N) * BodyShared :=
  BodyShared_poll sh (stream_poll_write buf).
Definition BodyWriter_poll_write_vectored (bufs : list bytes) (sh : BodyShared) :
    option (io_result N) * BodyShared :=
  BodyShared_poll sh (stream_poll_write_vectored bufs).
Definition BodyWriter_is_write_vectored (sh : BodyShared) : bool := stream_is_write_vectored (bd_pipe sh).
Definition BodyWriter_poll_flush (sh : BodyShared) : option (io_result unit) * BodyShared :=
  BodyShared_poll sh stream_poll_flush.

Definition BodyWriter_poll_shutdown (w : OutgoingBodyDataWriter) (sh : BodyShared) :
    option (io_result unit) * OutgoingBodyDataWriter * BodyShared :=
  match BodyShared_poll sh stream_poll_shutdown with
  | (Some (Ok _), sh) => (Some (Ok tt), mkBodyWriter true, sh)
  | (r, sh) => (r, w, sh)
  end.

(** The sections of [drop] of a writer which was not shut down: the flag is
    stored, and then the pipe is closed, whatever that yields. *)
Definition BodyWriter_abort (sh : BodyShared) : BodyShared := mkBodyShared (bd_pipe sh) true.
Definition BodyWriter_close (sh : BodyShared) : BodyShared := (BodyShared_poll sh stream_poll_shutdown).2.

(** ** Executions *)

(** [true] if the task of the body is between the sections of a poll; the states
    of the writer are those of a write half. *)
Record BodyState := mkBodyState {
  bs_shared : BodyShared;
  bs_body : OutgoingBody;
  bs_empty : bool;
  bs_writer : OutgoingBodyDataWriter;
  bs_writer_pc : writer_pc
}.

Definition BodyState_new (chunks : list bytes) : BodyState :=
  let '(body, w, sh) := OutgoingBody_new chunks in mkBodyState sh body false w WHeld.

(** The events of steps: the bytes which a write accepts, and what a poll of the
    body which completes yields *)
Inductive body_event :=
  | BodyQuiet
  | BodyWrote (data : bytes)
  | BodyPolled (r : option (io_result bytes)).

Definition polled (r : frame_poll) : body_event :=
  match r with Some r => BodyPolled r | None => BodyQuiet end.
Definition wrote (buf : bytes) (r : option (io_result N)) : body_event :=
  match r with Some (Ok n) => BodyWrote (take (N.to_nat n) buf) | _ => BodyQuiet end.

Inductive body_step : BodyState → body_event → BodyState → Prop :=
  | bstep_read room sh body w pc r body' sh' :
      DEFAULT_BODY_BUFFER_SIZE ≤ room →
      OutgoingBody_read room body sh = (FramePolled r, body', sh') →
      body_step (mkBodyState sh body false w pc) (polled r) (mkBodyState sh' body' false w pc)
  | bstep_empty room sh body w pc body' sh' :
      DEFAULT_BODY_BUFFER_SIZE ≤ room →
      OutgoingBody_read room body sh = (FrameEmpty, body', sh') →
      body_step (mkBodyState sh body false w pc) BodyQuiet (mkBodyState sh' body' true w pc)
  | bstep_end sh body w pc :
      body_step (mkBodyState sh body true w pc) (polled (OutgoingBody_end sh)) (mkBodyState sh body false w pc)
  | bstep_write buf sh body b w r sh' :
      BodyWriter_poll_write buf sh = (r, sh') →
      body_step (mkBodyState sh body b w WHeld) (wrote buf r) (mkBodyState sh' body b w WHeld)
  | bstep_write_vectored bufs sh body b w r sh' :
      BodyWriter_poll_write_vectored bufs sh = (r, sh') →
      body_step (mkBodyState sh body b w WHeld) (wrote (concat bufs) r) (mkBodyState sh' body b w WHeld)
  | bstep_flush sh body b w r sh' :
      BodyWriter_poll_flush sh = (r, sh') →
      body_step (mkBodyState sh body b w WHeld) BodyQuiet (mkBodyState sh' body b w WHeld)
  | bstep_shutdown sh body b w r w' sh' :
      BodyWriter_poll_shutdown w sh = (r, w', sh') →
      body_step (mkBodyState sh body b w WHeld) BodyQuiet (mkBodyState sh' body b w' WHeld)
  | bstep_drop_shutdown sh body b w :
      obw_shutdown w = true →
      body_step (mkBodyState sh body b w WHeld) BodyQuiet (mkBodyState sh body b w WDropped)
  | bstep_drop_abort sh body b w :
      obw_shutdown w = false →
      body_step (mkBodyState sh body b w WHeld) BodyQuiet (mkBodyState (BodyWriter_abort sh) body b w WTaken)
  | bstep_drop_close sh body b w :
      body_step (mkBodyState sh body b w WTaken) BodyQuiet (mkBodyState (BodyWriter_close sh) body b w WDropped).

Inductive body_steps : BodyState → list body_event → BodyState → Prop :=
  | body_steps_refl s : body_steps s [] s
  | body_steps_snoc s1 tr s2 ev s3 : body_steps s1 tr s2 → body_step s2 ev s3 → body_steps s1 (tr ++ [ev]) s3.

(** What was written to, and what the body yielded in an execution *)
Definition event_written (ev : body_event) : bytes := match ev with BodyWrote data => data | _ => [] end.
Definition event_data (ev : body_event) : bytes :=
  match ev with BodyPolled (Some (Ok buf)) => buf | _ => [] end.
Definition written (tr : list body_event) : bytes := concat (map event_written tr).
Definition delivered (tr : list body_event) : bytes := concat (map event_data tr).

(** ** Invariant *)

Context `{!Simplex P simplex}.

(** What the body holds back: its chunks and the data in the pipe *)
Definition held_back (s : BodyState) : bytes :=
  concat (ob_chunks (bs_body s)) ++ pipe_data (bd_pipe (bs_shared s)).

(** Whether the body has nothing more to yield: the pipe is closed and empty *)
Definition drained (s : BodyState) : Prop :=
  pipe_closed (bd_pipe (bs_shared s)) = true ∧ held_back s = [].

(** How the flag and the end of the pipe relate to the writer *)
Record writer_inv (s : BodyState) : Prop := {
  wi_closed : pipe_closed (bd_pipe (bs_shared s)) = true →
    obw_shutdown (bs_writer s) = true ∨ bd_aborted (bs_shared s) = true;
  wi_aborted : bd_aborted (bs_shared s) = true → obw_shutdown (bs_writer s) = false ∧ bs_writer_pc s ≠ WHeld;
  wi_taken : bs_writer_pc s = WTaken → bd_aborted (bs_shared s) = true;
  wi_shutdown : obw_shutdown (bs_writer s) = true → pipe_closed (bd_pipe (bs_shared s)) = true;
  wi_dropped : bs_writer_pc s = WDropped →
    pipe_closed (bd_pipe (bs_shared s)) = true ∧ bd_aborted (bs_shared s) = negb (obw_shutdown (bs_writer s))
}.

Record body_inv (chunks : list bytes) (tr : list body_event) (s : BodyState) : Prop := {
  bi_data : concat chunks ++ written tr = delivered tr ++ held_back s;
  bi_buffer : ob_buffer (bs_body s) = [];
  bi_chunks : Forall (λ buf, buf ≠ []) (ob_chunks (bs_body s));
  bi_empty : bs_empty s = true → drained s;
  bi_writer : writer_inv s;
  bi_end : BodyPolled None ∈ tr → drained s ∧ obw_shutdown (bs_writer s) = true;
  bi_failed e : BodyPolled (Some (Err e)) ∈ tr → drained s ∧ e = BrokenPipe ∧ obw_shutdown (bs_writer s) = false;
  bi_frames buf : BodyPolled (Some (Ok buf)) ∈ tr → buf ≠ []
}.

Lemma written_snoc tr ev : written (tr ++ [ev]) = written tr ++ event_written ev.
Proof. unfold written. by rewrite map_app, concat_app; cbn; rewrite app_nil_r. Qed.
Lemma delivered_snoc tr ev : delivered (tr ++ [ev]) = delivered tr ++ event_data ev.
Proof. unfold delivered. by rewrite map_app, concat_app; cbn; rewrite app_nil_r. Qed.

Lemma concat_filter_nonempty (chunks : list bytes) : concat (filter (λ buf, buf ≠ []) chunks) = concat chunks.
Proof.
  induction chunks as [|c chunks IH]; [done|]. rewrite filter_cons. destruct (decide _) as [|Hc]; cbn; rewrite IH; [done|].
  by destruct c; [|destruct Hc].
Qed.

Lemma body_inv_new chunks : body_inv chunks [] (BodyState_new chunks).
Proof.
  split; cbn; try done; try (intros; set_solver).
  - unfold held_back. cbn. rewrite simplex_data, concat_filter_nonempty. by rewrite !app_nil_r.
  - apply Forall_forall. intros buf Hb. by apply list_elem_of_filter in Hb as [].
  - split; cbn; rewrite ?simplex_closed; try done.
Qed.

(** A read of the body yields the next bytes, or nothing once it is drained. *)
Lemma body_read_spec room body sh o body' sh' :
  DEFAULT_BODY_BUFFER_SIZE ≤ room → ob_buffer body = [] → Forall (λ buf, buf ≠ []) (ob_chunks body) →
  OutgoingBody_read room body sh = (o, body', sh') →
  let held b sh := concat (ob_chunks b) ++ pipe_data (bd_pipe sh) in
  ob_buffer body' = [] ∧ Forall (λ buf, buf ≠ []) (ob_chunks body') ∧
  pipe_closed (bd_pipe sh') = pipe_closed (bd_pipe sh) ∧ bd_aborted sh' = bd_aborted sh ∧
  match o with
  | FramePolled (Some (Some (Ok buf))) => buf ≠ [] ∧ held body sh = buf ++ held body' sh'
  | FramePolled (Some _) => False
  | FramePolled None => held body' sh' = held body sh
  | FrameEmpty => held body sh = [] ∧ held body' sh' = [] ∧ pipe_closed (bd_pipe sh) = true
  end.
Proof.
  intros Hroom Hb Hc. unfold OutgoingBody_read, poll_read_buf, BodyShared_poll.
  destruct (ob_chunks body) as [|buf chunks] eqn:Eb.
  - destruct (stream_poll_read room (bd_pipe sh)) as [r p'] eqn:Er.
    apply simplex_read in Er as (Hcl & Hr); [|unfold DEFAULT_BODY_BUFFER_SIZE in Hroom; lia].
    destruct r as [[chunk|e]|]; [|done|].
    + cbn. rewrite Hb; cbn. destruct Hr as [Hd Hend].
      destruct (decide (chunk = [])) as [->|Hne]; intros [= <- <- <-]; cbn; rewrite ?Eb; cbn; [|by split_and!].
      destruct (Hend eq_refl) as [Hn Hclosed]. split_and!; try done. cbn in Hd. congruence.
    + intros [= <- <- <-]. cbn. rewrite ?Eb; cbn. by split_and!.
  - apply Forall_cons in Hc as [Hn Hc]. intros [= <- <- <-]. cbn. split_and!; try done. by rewrite (assoc (++)).
Qed.

Lemma polled_snoc r tr ev : BodyPolled r ∈ tr ++ [ev] ↔ BodyPolled r ∈ tr ∨ ev = BodyPolled r.
Proof. rewrite elem_of_app, list_elem_of_singleton. naive_solver. Qed.

(** A step of the writer *)
Lemma body_inv_writer chunks tr sh body b w pc ev sh' w' pc' :
  body_inv chunks tr (mkBodyState sh body b w pc) → writer_inv (mkBodyState sh' body b w' pc') →
  (∀ r, ev ≠ BodyPolled r) → pipe_data (bd_pipe sh') = pipe_data (bd_pipe sh) ++ event_written ev →
  (pipe_closed (bd_pipe sh) = true →
     pipe_closed (bd_pipe sh') = true ∧ event_written ev = [] ∧ obw_shutdown w' = obw_shutdown w) →
  body_inv chunks (tr ++ [ev]) (mkBodyState sh' body b w' pc').
Proof.
  intros [Hd Hb Hc He Hw Hend Hfail Hfr] Hw' Hev Hdata Hcl.
  assert (event_data ev = []) as Hev' by (destruct ev; try done; by destruct (Hev r)).
  assert (drained (mkBodyState sh body b w pc) →
    drained (mkBodyState sh' body b w' pc') ∧ obw_shutdown w' = obw_shutdown w) as Hdr.
  { intros [Hc1 Hh]. destruct (Hcl Hc1) as (Hc2 & Hn & Hs). split; [|done]. split; [done|].
    unfold held_back in *. cbn in *. by rewrite Hdata, Hn, app_nil_r. }
  split; cbn in *; try done.
  - rewrite written_snoc, delivered_snoc, Hev', app_nil_r, (assoc (++)), Hd. unfold held_back. cbn.
    by rewrite Hdata, !(assoc (++)).
  - intros Hbt. by apply Hdr, He.
  - intros [Hin|Hx]%polled_snoc; [|by destruct (Hev _ Hx)].
    destruct (Hend Hin) as [Hdd Hs]. destruct (Hdr Hdd) as [? ->]. done.
  - intros e [Hin|Hx]%polled_snoc; [|by destruct (Hev _ Hx)].
    destruct (Hfail e Hin) as (Hdd & -> & Hs). destruct (Hdr Hdd) as [? ->]. done.
  - intros buf [Hin|Hx]%polled_snoc; [by apply Hfr|by destruct (Hev _ Hx)].
Qed.

(** A section of the body *)
Lemma body_inv_read chunks tr sh body w pc room o body' sh' :
  DEFAULT_BODY_BUFFER_SIZE ≤ room → OutgoingBody_read room body sh = (o, body', sh') →
  body_inv chunks tr (mkBodyState sh body false w pc) →
  body_inv chunks (tr ++ [match o with FramePolled r => polled r | FrameEmpty => BodyQuiet end])
    (mkBodyState sh' body' (match o with FramePolled _ => false | FrameEmpty => true end) w pc).
Proof.
  intros Hroom Hread [Hd Hb Hc He Hw Hend Hfail Hfr].
  destruct (body_read_spec _ _ _ _ _ _ Hroom Hb Hc Hread) as (Hb' & Hc' & Hcl & Hab & Ho).
  assert (writer_inv (mkBodyState sh' body' (match o with FramePolled _ => false | FrameEmpty => true end) w pc))
    as Hw'.
  { destruct Hw. split; cbn in *; rewrite ?Hcl, ?Hab; done. }
  assert (∀ r, match o with FramePolled r => polled r | FrameEmpty => BodyQuiet end = BodyPolled r →
    ∃ buf, r = Some (Ok buf) ∧ buf ≠ []) as Hev.
  { destruct o as [[[[]|]|]|]; cbn in *; try done. intros r [= <-]. naive_solver. }
  assert (held_back (mkBodyState sh body false w pc) =
    event_data (match o with FramePolled r => polled r | FrameEmpty => BodyQuiet end) ++
    held_back (mkBodyState sh' body' false w pc)) as Hh.
  { unfold held_back. destruct o as [[[[]|]|]|]; cbn in *; try done; naive_solver congruence. }
  assert (drained (mkBodyState sh body false w pc) → drained (mkBodyState sh' body' false w pc)) as Hdr.
  { intros [Hc1 Hn]. split; [cbn in *; by rewrite Hcl|]. rewrite Hn in Hh. symmetry in Hh.
    by apply app_nil in Hh as []. }
  split; cbn in *; try done.
  - rewrite written_snoc, delivered_snoc, <- (assoc (++)).
    replace (event_written _) with (@nil byte) by (by destruct o as [[[[]|]|]|]). rewrite app_nil_r, Hd. by f_equal.
  - destruct o; [done|]. intros _. split; [cbn; rewrite Hcl; apply Ho|]. apply Ho.
  - intros [Hin|Hx]%polled_snoc; [|by destruct (Hev _ Hx) as (? & ? & _)].
    destruct (Hend Hin). split; [by apply Hdr|done].
  - intros e [Hin|Hx]%polled_snoc; [|by destruct (Hev _ Hx) as (? & ? & _)].
    destruct (Hfail e Hin) as (? & ? & ?). split_and!; [by apply Hdr|done..].
  - intros buf [Hin|Hx]%polled_snoc; [by apply Hfr|]. destruct (Hev _ Hx) as (? & ? & ?). congruence.
Qed.

Lemma body_inv_end chunks tr sh body w pc :
  body_inv chunks tr (mkBodyState sh body true w pc) →
  body_inv chunks (tr ++ [polled (OutgoingBody_end sh)]) (mkBodyState sh body false w pc).
Proof.
  intros [Hd Hb Hc He Hw Hend Hfail Hfr]. pose proof (He eq_refl) as Hdr. cbn in *.
  unfold OutgoingBody_end. destruct (bd_aborted sh) eqn:Ha; cbn; split; cbn; try done.
  - by rewrite written_snoc, delivered_snoc, !app_nil_r.
  - by destruct Hw.
  - intros [Hin|Hx]%polled_snoc; [by apply Hend|done].
  - intros e [Hin|Hx]%polled_snoc; [by apply Hfail|]. injection Hx as <-. by destruct (wi_aborted _ Hw Ha).
  - intros buf [Hin|Hx]%polled_snoc; [by apply Hfr|done].
  - by rewrite written_snoc, delivered_snoc, !app_nil_r.
  - by destruct Hw.
  - intros _. split; [done|]. destruct (wi_closed _ Hw) as [|Hx]; [by apply Hdr|done|]. cbn in Hx. congruence.
  - intros e [Hin|Hx]%polled_snoc; [by apply Hfail|done].
  - intros buf [Hin|Hx]%polled_snoc; [by apply Hfr|done].
Qed.

(** A write of the held writer *)
Lemma body_inv_write chunks tr sh body b w buf (r : option (io_result N)) p' :
  pipe_closed p' = pipe_closed (bd_pipe sh) →
  match r with
  | Some (Ok n) => pipe_closed (bd_pipe sh) = false ∧ pipe_data p' = pipe_data (bd_pipe sh) ++ take (N.to_nat n) buf
  | _ => pipe_data p' = pipe_data (bd_pipe sh)
  end →
  body_inv chunks tr (mkBodyState sh body b w WHeld) →
  body_inv chunks (tr ++ [wrote buf r]) (mkBodyState (mkBodyShared p' (bd_aborted sh)) body b w WHeld).
Proof.
  intros Hcl Hr Hi. eapply body_inv_writer; [done|..].
  - destruct (bi_writer _ _ _ Hi). split; cbn in *; by rewrite ?Hcl.
  - by destruct r as [[]|].
  - destruct r as [[]|]; cbn in *; rewrite ?app_nil_r; naive_solver.
  - cbn. intros Hc. rewrite Hcl. destruct r as [[]|]; cbn; try done. destruct Hr. congruence.
Qed.

Lemma body_inv_step chunks tr s ev s' : body_step s ev s' → body_inv chunks tr s → body_inv chunks (tr ++ [ev]) s'.
Proof.
  destruct 1 as [room sh body w pc r body' sh' Hroom Hr|room sh body w pc body' sh' Hroom Hr|sh body w pc|
    buf sh body b w r sh' Hp|bufs sh body b w r sh' Hp|sh body b w r sh' Hp|sh body b w r w' sh' Hp|
    sh body b w Hs|sh body b w Hs|sh body b w].
  - exact (body_inv_read _ _ _ _ _ _ _ _ _ _ Hroom Hr).
  - exact (body_inv_read _ _ _ _ _ _ _ _ _ _ Hroom Hr).
  - apply body_inv_end.
  - unfold BodyWriter_poll_write, BodyShared_poll in Hp. destruct (stream_poll_write _ _) as [o p'] eqn:E.
    injection Hp as <- <-. apply simplex_write in E as []. by apply body_inv_write.
  - unfold BodyWriter_poll_write_vectored, BodyShared_poll in Hp.
    destruct (stream_poll_write_vectored _ _) as [o p'] eqn:E.
    injection Hp as <- <-. apply simplex_write_vectored in E as []. by apply body_inv_write.
  - unfold BodyWriter_poll_flush, BodyShared_poll in Hp. destruct (stream_poll_flush _) as [o p'] eqn:E.
    injection Hp as <- <-. apply simplex_flush in E as []. by apply (body_inv_write _ _ _ _ _ _ [] None).
  - unfold BodyWriter_poll_shutdown, BodyShared_poll in Hp. destruct (stream_poll_shutdown _) as [o p'] eqn:E.
    apply simplex_shutdown in E as (-> & Hd & Hc). injection Hp as <- <- <-. intros Hi.
    destruct (bi_writer _ _ _ Hi) as [Hcl Hab _ _ _]; cbn in *.
    assert (bd_aborted sh = false) as Ha by (destruct (bd_aborted sh); [by destruct (Hab eq_refl)|done]).
    eapply body_inv_writer; [done|split; cbn; try done; [by left|by rewrite Ha]|done|cbn; by rewrite app_nil_r|].
    intros Hx. split_and!; [done..|]. destruct (Hcl Hx); [done|congruence].
  - intros Hi. destruct (bi_writer _ _ _ Hi) as [Hcl Hab Ht Hsd Hdr]; cbn in *.
    eapply body_inv_writer; [done|split; cbn; try done|done|cbn; by rewrite app_nil_r|done].
    + intros Ha. by destruct (Hab Ha).
    + intros _. split; [by apply Hsd|]. rewrite Hs. destruct (bd_aborted sh); [by destruct (Hab eq_refl)|done].
  - intros Hi. destruct (bi_writer _ _ _ Hi) as [Hcl Hab Ht Hsd Hdr]; cbn in *.
    eapply body_inv_writer; [done|split; cbn; try done|done|cbn; by rewrite app_nil_r|done]. by right.
  - intros Hi. destruct (bi_writer _ _ _ Hi) as [Hcl Hab Ht Hsd Hdr]; cbn in *.
    unfold BodyWriter_close, BodyShared_poll. destruct (stream_poll_shutdown _) as [o p'] eqn:E.
    apply simplex_shutdown in E as (-> & Hd & Hc). pose proof (Ht eq_refl) as Ha. destruct (Hab Ha) as [Hs _].
    eapply body_inv_writer; [done|split; cbn; try done|done|cbn; by rewrite app_nil_r|done].
    + by right.
    + intros _. by rewrite Ha, Hs.
Qed.

Lemma body_inv_reachable chunks tr s : body_steps (BodyState_new chunks) tr s → body_inv chunks tr s.
Proof.
  intros Hs. remember (BodyState_new chunks) as s0 eqn:E. induction Hs as [|s0 tr s ev s' _ IH Hstep]; subst.
  - apply body_inv_new.
  - eapply body_inv_step; eauto.
Qed.

(** ** Properties of bodies *)

(** [C23] The body of a message is what was given and written, in order, and is
    never truncated without an error: however the sections of the body and its
    writer interleave, what the body yields are non-empty frames whose data is a
    prefix of the initial chunks and the data which the writer accepted; it ends
    only once the writer was shut down, and fails, with [BrokenPipe], only if it
    was dropped before, and all the data was yielded before either.  After the
    writer is dropped, a poll which completes yields the next bytes, or what the
    writer left it with. *)
Theorem body_not_truncated chunks tr s :
  body_steps (BodyState_new chunks) tr s →
  delivered tr `prefix_of` concat chunks ++ written tr ∧
  (∀ buf, BodyPolled (Some (Ok buf)) ∈ tr → buf ≠ []) ∧
  (BodyPolled None ∈ tr → obw_shutdown (bs_writer s) = true ∧ delivered tr = concat chunks ++ written tr) ∧
  (∀ e, BodyPolled (Some (Err e)) ∈ tr →
     e = BrokenPipe ∧ obw_shutdown (bs_writer s) = false ∧ delivered tr = concat chunks ++ written tr) ∧
  (bs_writer_pc s = WDropped → ∀ room r, DEFAULT_BODY_BUFFER_SIZE ≤ room →
     (OutgoingBody_poll_frame room (bs_body s) (bs_shared s)).1.1 = Some r →
     if decide (delivered tr = concat chunks ++ written tr) then
       r = if obw_shutdown (bs_writer s) then None else Some (Err BrokenPipe)
     else ∃ buf, r = Some (Ok buf) ∧ buf ≠ [] ∧ delivered tr ++ buf `prefix_of` concat chunks ++ written tr).
Proof.
  intros [Hd Hb Hc He Hw Hend Hfail Hfr]%body_inv_reachable. rewrite Hd.
  split_and!; [by eexists|done| | |].
  - intros [[_ Hn] Hs]%Hend. rewrite Hn, app_nil_r. done.
  - intros e ([_ Hn] & -> & Hs)%Hfail. rewrite Hn, app_nil_r. done.
  - intros Hpc room r Hroom. unfold OutgoingBody_poll_frame.
    destruct (OutgoingBody_read room (bs_body s) (bs_shared s)) as [[o body'] sh'] eqn:Er.
    destruct (body_read_spec _ _ _ _ _ _ Hroom Hb Hc Er) as (_ & _ & _ & Hab & Ho). fold (held_back s) in Ho.
    destruct (wi_dropped _ Hw Hpc) as [_ Ha]. destruct o as [[[[buf|e]|]|]|]; cbn; try done.
    + intros [= <-]. destruct Ho as [Hne Hh]. rewrite decide_False.
      * exists buf. split_and!; [done..|]. rewrite Hh, (assoc (++)). by eexists.
      * intros Hx. rewrite <- (app_nil_r (delivered tr)) in Hx at 1. apply (inj (app _)) in Hx. rewrite Hh in Hx.
        symmetry in Hx. by apply app_nil in Hx as [].
    + intros Hr. destruct Ho as (Hn & _). rewrite Hn, app_nil_r, decide_True by done.
      unfold OutgoingBody_end in Hr. rewrite Hab, Ha in Hr. by destruct (obw_shutdown _); cbn in Hr; simplify_eq.
Qed.

End body.

(** ** Requests and responses *)

Section http.
Context {P : Type} `{!AsyncStream P} (simplex : nat → P).

(** [hyper::Error], and the parts of a request: the method and the others *)
Context {HyperError : Type} (is_timeout : HyperError → bool) {Others : Type}.

Record Parts := mkParts { parts_method : bytes; parts_others : Others }.
Record Request := mkRequest { req_parts : Parts; req_body : OutgoingBody }.

Definition POST : bytes := [x50; x4f; x53; x54].

Definition new_request (parts : Parts) (chunks : list bytes) : Request * OutgoingBodyDataWriter * BodyShared (P := P) :=
  let '(rx, tx, sh) := OutgoingBody_new simplex chunks in
  (mkRequest (mkParts POST (parts_others parts)) rx, tx, sh).

Definition io_error_from_hyper (err : HyperError) : ErrorKind := if is_timeout err then TimedOut else Other.

(** A body which is received is its data frames, up to the first error. *)
Definition data_stream_from_incoming (body : list (result HyperError bytes)) : list (io_result bytes) :=
  map (map_err io_error_from_hyper) body.

(** What [read_to_end] of a [StreamReader] leaves in its buffer *)
Fixpoint read_to_end {E} (stream : list (result E bytes)) : bytes :=
  match stream with
  | Ok chunk :: stream => chunk ++ read_to_end stream
  | _ => []
  end.

(** The errors of the reader of a response; the message has the status and the
    start of the body. *)
Inductive ResponseError :=
  | RequestFailed
  | ResponseStatus (status : N) (message : bytes)
  | ResponseBody (e : ErrorKind).

Definition is_success (status : N) : bool := (200 <=? status)%N && (status <? 300)%N.

(** [data_reader_from_response], as the items of the stream which is read *)
Definition data_reader_from_response (res : result HyperError (N * list (result HyperError bytes))) :
    list (result ResponseError bytes) :=
  match res with
  | Err _ => [Err RequestFailed]
  | Ok (status, body) =>
      if is_success status then map (map_err ResponseBody) (data_stream_from_incoming body)
      else [Err (ResponseStatus status (take (N.to_nat 4096) (read_to_end (data_stream_from_incoming body))))]
  end.

Inductive HttpInvokeError :=
  | ConnectionClosed
  | EncodeInvocationFailed (e : ErrorKind).

Section client.
Context `{Leb128, CoreName}.

(** What both clients do: the request, with the writer of its body, and the
    handle on the writer; the handle on the response reads what
    [data_reader_from_response] yields. *)
Definition client_request (cx : Parts) (instance func params : bytes) :
    result HttpInvokeError (Request * OutgoingBodyDataWriter * BodyShared (P := P) * Outgoing) :=
  let? buf := map_err EncodeInvocationFailed (encode_invocation [] instance func (len params)) in
  Ok (new_request cx [buf; params], Outgoing_new).

(** [invoke] of the client of HTTP/2, whose sender is waited for *)
Definition Http2Client_invoke (ready : result HyperError unit) (cx : Parts) (instance func params : bytes) :
    result HttpInvokeError (Request * OutgoingBodyDataWriter * BodyShared (P := P) * Outgoing) :=
  let? _ := map_err (λ _, ConnectionClosed) ready in client_request cx instance func params.

(** [invoke] of the client of [hyper_util] *)
Definition LegacyClient_invoke (cx : Parts) (instance func params : bytes) :
    result HttpInvokeError (Request * OutgoingBodyDataWriter * BodyShared (P := P) * Outgoing) :=
  client_request cx instance func params.

End client.

Definition HttpServer : Type := Server Parts OutgoingBodyDataWriter.

(** The outcome of a call of the service: the response, whose body is written by
    the handler *)
Inductive http_called :=
  | HttpResponse (body : OutgoingBody) (shared : BodyShared (P := P)) (srv : HttpServer)
  | HttpPending
  | HttpFailed (e : AcceptError Parts OutgoingBodyDataWriter).

(** [Service::call] *)
Definition HttpServer_call `{Leb128} (srv : HttpServer) (parts : Parts) (body : list (result HyperError bytes)) :
    http_called :=
  let '(rx, tx, sh) := OutgoingBody_new simplex [] in
  match Server_accept srv parts tx (read_to_end (data_stream_from_incoming body)) with
  | Accepted srv => HttpResponse rx sh srv
  | AcceptPending => HttpPending
  | AcceptFailed e => HttpFailed e
  end.

(** ** Properties of invocations *)

Lemma read_to_end_ok {E} (frames : list bytes) : read_to_end (map (@Ok E bytes) frames) = concat frames.
Proof. induction frames as [|f frames IH]; [done|]. cbn. by rewrite IH. Qed.

Lemma read_to_end_map {E F} (f : E → F) (body : list (result E bytes)) :
  read_to_end (map (map_err f) body) = read_to_end body.
Proof. induction body as [|[chunk|e] body IH]; [done| |done]. cbn. by rewrite IH. Qed.

(** The data of a response is that of its body if its status is a success, and
    there is none but an error with the start of the body otherwise. *)
Theorem response_read res :
  read_to_end (data_reader_from_response res) =
    match res with
    | Ok (status, body) => if is_success status then read_to_end body else []
    | Err _ => []
    end ∧
  (∀ status body, res = Ok (status, body) → is_success status = false →
     ∃ message, data_reader_from_response res = [Err (ResponseStatus status message)] ∧
       message `prefix_of` read_to_end body ∧ (len message ≤ 4096)%N).
Proof.
  unfold data_reader_from_response, data_stream_from_incoming. destruct res as [[status body]|e]; [|done].
  destruct (is_success status) eqn:Hs; (split; [by rewrite ?read_to_end_map|]).
  - intros ? ? [= -> ->]. congruence.
  - intros ? ? [= <- <-] _. eexists. split_and!; [done| |].
    + rewrite read_to_end_map. apply prefix_take.
    + unfold len. rewrite length_take. lia.
Qed.

(** [C24] An invocation over HTTP reaches the handler of the function it names
    with all that the client sent: if the peer gets the frames of the body of the
    request until its end, however the writer and the body interleaved, and the
    frames [fs] were written to it, the server answers with a response and queues
    the parts of the request, with the parameters as the first frame of the root
    and [fs] after it, for the handler of the function. *)
Theorem http_request_dispatched `{Leb128Laws, !CoreName, !CoreNameLaws, !Simplex P simplex}
    (srv : HttpServer) cx instance func params fs req tx sh out tr s (body : list (result HyperError bytes)) c queue :
  utf8_valid instance = true → utf8_valid func = true →
  (len instance ≤ hd_max_instance_len (srv_header srv))%N → (len func ≤ hd_max_name_len (srv_header srv))%N →
  (hd_max_instance_len (srv_header srv) ≤ u32_MAX)%N → (hd_max_name_len (srv_header srv) ≤ u32_MAX)%N →
  (len params ≤ u32_MAX)%N →
  LegacyClient_invoke cx instance func params = Ok (req, tx, sh, out) →
  body_steps (mkBodyState sh (req_body req) false tx WHeld) tr s → BodyPolled None ∈ tr →
  written tr = stream fs → read_to_end body = delivered tr →
  handler srv instance func = Some c → srv_chans srv !! c = Some queue → length queue < HANDLER_QUEUE →
  parts_method (req_parts req) = POST ∧
  ∃ rx sh' tx', HttpServer_call srv (req_parts req) body =
    HttpResponse rx sh' (mkServer (srv_handlers srv) (srv_header srv)
      (<[c := queue ++ [(req_parts req,
                         stream ((if decide (params = []) then [] else [mkFrame [] params]) ++ fs), tx')]]>
         (srv_chans srv)) (srv_fresh srv)).
Proof.
  intros Hu1 Hu2 Hl1 Hl2 Hm1 Hm2 Hp Hinv Hsteps Hend Hw Hbody Hh Hc Hq.
  unfold LegacyClient_invoke, client_request in Hinv.
  destruct (encode_invocation [] instance func (len params)) as [buf|e] eqn:He; [|done].
  cbn in Hinv. injection Hinv as <- <- <- <-. split; [done|].
  destruct (body_inv_reachable simplex [buf; params] tr s Hsteps) as [Hd _ _ _ _ Hfin _ _].
  destruct (Hfin Hend) as [[_ Hn] _]. rewrite Hn, app_nil_r in Hd.
  unfold HttpServer_call. cbn. unfold data_stream_from_incoming. rewrite read_to_end_map, Hbody, <- Hd. cbn.
  rewrite app_nil_r, Hw.
  erewrite (accept_invocation srv _ _ instance func params fs Outgoing_new (buf ++ params) c queue); [|done..| | | |].
  - by eexists _, _, _.
  - unfold invoke. by rewrite He.
  - done.
  - done.
  - done.
Qed.

End http.

(** ** Witnesses *)

(** A pipe of the size [pp_size] *)
Record TestPipe := mkTestPipe { pp_size : nat; pp_data : bytes; pp_closed : bool }.

Definition test_pipe_write (buf : bytes) (p : TestPipe) : option (io_result N) * TestPipe :=
  if pp_closed p then (Some (Err BrokenPipe), p)
  else
    let n := pp_size p - length (pp_data p) in
    if n =? 0 then (None, p)
    else
      (Some (Ok (N.of_nat (Nat.min n (length buf)))),
       mkTestPipe (pp_size p) (pp_data p ++ take (Nat.min n (length buf)) buf) false).

#[local] Instance test_pipe : AsyncStream TestPipe := {|
  stream_poll_read n p :=
    if decide (pp_data p = []) then (if pp_closed p then Some (Ok []) else None, p)
    else (Some (Ok (take n (pp_data p))), mkTestPipe (pp_size p) (drop n (pp_data p)) (pp_closed p));
  stream_poll_write := test_pipe_write;
  stream_poll_write_vectored bufs := test_pipe_write (concat bufs);
  stream_is_write_vectored _ := true;
  stream_poll_flush p := (Some (Ok tt), p);
  stream_poll_shutdown p := (Some (Ok tt), mkTestPipe (pp_size p) (pp_data p) true)
|}.

Lemma test_pipe_write_spec buf p r p' :
  test_pipe_write buf p = (r, p') →
  pp_closed p' = pp_closed p ∧
  match r with
  | Some (Ok n) => pp_closed p = false ∧ pp_data p' = pp_data p ++ take (N.to_nat n) buf
  | _ => pp_data p' = pp_data p
  end.
Proof.
  unfold test_pipe_write. destruct (pp_closed p) eqn:Hc; [by intros [= <- <-]|].
  destruct (_ =? 0); intros [= <- <-]; cbn; [done|]. by rewrite Nat2N.id.
Qed.

Definition test_pipe_new (n : nat) : TestPipe := mkTestPipe n [] false.

#[local] Instance test_simplex : Simplex TestPipe test_pipe_new.
Proof.
  apply (Build_Simplex TestPipe test_pipe test_pipe_new pp_data pp_closed); try done.
  - intros n p r p' Hn. cbn. destruct (decide (pp_data p = [])) as [Hd|Hd].
    + destruct (pp_closed p) eqn:Hc; intros [= <- <-]; by rewrite ?Hd.
    + intros [= <- <-]; cbn. split; [done|]. split; [by rewrite take_drop|]. destruct n; [lia|]. by destruct (pp_data p).
  - apply test_pipe_write_spec.
  - intros bufs. apply (test_pipe_write_spec (concat bufs)).
  - intros p r p'. cbn. by intros [= <- <-].
  - intros p r p'. cbn. by intros [= <- <-].
Defined.

#[local] Abbreviation test_state chunks data closed aborted empty shutdown pc :=
  (mkBodyState (mkBodyShared (mkTestPipe DEFAULT_BODY_BUFFER_SIZE data closed) aborted) (mkOutgoingBody chunks [])
     empty (mkBodyWriter shutdown) pc) (only parsing).

(** The writer is dropped after a byte. *)
Lemma truncated_reachable :
  body_steps (BodyState_new test_pipe_new [[x01]; []])
    [BodyPolled (Some (Ok [x01])); BodyWrote [x2a]; BodyQuiet; BodyQuiet; BodyPolled (Some (Ok [x2a]))]
    (test_state [] [] true true false false WDropped).
Proof.
  set (tr := [_; _; _; _; _]).
  change tr with (((((([] : list body_event) ++ [BodyPolled (Some (Ok [x01]))]) ++ [BodyWrote [x2a]]) ++ [BodyQuiet]) ++
    [BodyQuiet]) ++ [BodyPolled (Some (Ok [x2a]))]).
  eapply (body_steps_snoc _ _ (test_state [] [x2a] true true false false WDropped));
    [|by apply (bstep_read DEFAULT_BODY_BUFFER_SIZE _ _ _ _ (Some (Some (Ok [x2a]))))].
  eapply (body_steps_snoc _ _ (test_state [] [x2a] false true false false WTaken)); [|
    exact (bstep_drop_close (mkBodyShared (mkTestPipe _ [x2a] false) true) _ _ _)].
  eapply (body_steps_snoc _ _ (test_state [] [x2a] false false false false WHeld)); [|
    by apply (bstep_drop_abort (mkBodyShared (mkTestPipe _ [x2a] false) false))].
  eapply (body_steps_snoc _ _ (test_state [] [] false false false false WHeld));
    [|by apply (bstep_write [x2a] _ _ _ _ (Some (Ok 1%N)))].
  eapply (body_steps_snoc _ _ (test_state [[x01]] [] false false false false WHeld)); [|
    by apply (bstep_read DEFAULT_BODY_BUFFER_SIZE _ _ _ _ (Some (Some (Ok [x01]))))].
  apply body_steps_refl.
Qed.

Lemma body_not_truncated_witness :
  (OutgoingBody_poll_frame DEFAULT_BODY_BUFFER_SIZE (mkOutgoingBody [] [])
     (mkBodyShared (mkTestPipe DEFAULT_BODY_BUFFER_SIZE [] true) true)).1.1 = Some (Some (Err BrokenPipe)).
Proof.
  destruct (body_not_truncated test_pipe_new _ _ _ truncated_reachable) as (_ & _ & _ & _ & Hp).
  specialize (Hp eq_refl DEFAULT_BODY_BUFFER_SIZE (Some (Err BrokenPipe)) ltac:(done) eq_refl).
  destruct (decide _) as [_|Hn]; [by rewrite Hp|by destruct Hn].
Defined.

(** A request with a parameter and the frames of [test_frames] *)
Definition test_http_server : HttpServer (Others := unit) := (Server_serve Server_new test_instance test_func).2.
Definition test_parts : Parts (Others := unit) := mkParts [] tt.
Definition test_header : bytes := [x01; x03; x61; x3a; x62; x01; x66; x00; x01].
Definition test_sent : bytes := @stream leb128_std test_frames.

Definition test_trace : list body_event :=
  [BodyPolled (Some (Ok test_header)); BodyPolled (Some (Ok [x2a])); BodyWrote test_sent; BodyQuiet;
   BodyPolled (Some (Ok test_sent)); BodyQuiet; BodyPolled None].

Lemma request_reachable :
  body_steps (BodyState_new test_pipe_new [test_header; [x2a]]) test_trace
    (test_state [] [] true false false true WHeld).
Proof.
  change test_trace with (((((((([] : list body_event) ++ [BodyPolled (Some (Ok test_header))]) ++
    [BodyPolled (Some (Ok [x2a]))]) ++ [BodyWrote test_sent]) ++ [BodyQuiet]) ++
    [BodyPolled (Some (Ok test_sent))]) ++ [BodyQuiet]) ++ [BodyPolled None]).
  eapply (body_steps_snoc _ _ (test_state [] [] true false true true WHeld));
    [|exact (bstep_end (mkBodyShared (mkTestPipe _ [] true) false) _ _ _)].
  eapply (body_steps_snoc _ _ (test_state [] [] true false false true WHeld));
    [|by apply (bstep_empty DEFAULT_BODY_BUFFER_SIZE)].
  eapply (body_steps_snoc _ _ (test_state [] test_sent true false false true WHeld));
    [|by apply (bstep_read DEFAULT_BODY_BUFFER_SIZE _ _ _ _ (Some (Some (Ok test_sent))))].
  eapply (body_steps_snoc _ _ (test_state [] test_sent false false false false WHeld));
    [|by eapply (bstep_shutdown _ _ _ _ (Some (Ok tt)))].
  eapply (body_steps_snoc _ _ (test_state [] [] false false false false WHeld));
    [|by apply (bstep_write test_sent _ _ _ _ (Some (Ok (len test_sent))))].
  eapply (body_steps_snoc _ _ (test_state [[x2a]] [] false false false false WHeld));
    [|by apply (bstep_read DEFAULT_BODY_BUFFER_SIZE _ _ _ _ (Some (Some (Ok [x2a]))))].
  eapply (body_steps_snoc _ _ (test_state [test_header; [x2a]] [] false false false false WHeld));
    [|by apply (bstep_read DEFAULT_BODY_BUFFER_SIZE _ _ _ _ (Some (Some (Ok test_header))))].
  apply body_steps_refl.
Qed.

Lemma http_request_dispatched_witness :
  ∃ rx sh tx srv,
    @HttpServer_call _ test_pipe_new unit (λ _, false) unit leb128_std test_http_server (mkParts POST tt)
      [Ok test_header; Ok [x2a]; Ok test_sent] = HttpResponse rx sh srv ∧
    srv_chans srv !! 0%N = Some [(mkParts POST tt, @stream leb128_std (mkFrame [] [x2a] :: test_frames), tx)].
Proof.
  destruct (@http_request_dispatched TestPipe _ test_pipe_new unit (λ _, false) unit leb128_std leb128_std_laws
    name_std name_std_laws test_simplex test_http_server test_parts test_instance test_func [x2a] test_frames
    (mkRequest (mkParts POST tt) (mkOutgoingBody [test_header; [x2a]] [])) (mkBodyWriter false)
    (mkBodyShared (mkTestPipe DEFAULT_BODY_BUFFER_SIZE [] false) false) Outgoing_new test_trace
    (test_state [] [] true false false true WHeld) [Ok test_header; Ok [x2a]; Ok test_sent] 0%N [])
    as (_ & rx & sh & tx & Hr);
    try done; [exact request_reachable|unfold test_trace; set_solver|by apply Nat.ltb_lt|].
  eexists rx, sh, tx, _. split; [exact Hr|]. cbn [srv_chans]. by rewrite lookup_insert_eq.
Defined.
