(* ===== verification/ParseInt.v ===== *)
(** * Parsing of integers

    [from_str] of the unsigned integers of the standard library, which the
    key-value store uses for cursors and the transports for ports, and the
    decimal digits it inverts. *)

From S2P Require Import Prelude.

Inductive ParseIntError := ParseEmpty | ParseInvalidDigit | ParsePosOverflow.

Definition digit (c : byte) : option N :=
  let n := Byte.to_N c in if ((48 <=? n) && (n <=? 57))%N then Some (n - 48)%N else None.

(** The integers up to [max] *)
Fixpoint parse_digits (max acc : N) (s : bytes) : result ParseIntError N :=
  match s with
  | [] => Ok acc
  | c :: s =>
      let? d := ok_or ParseInvalidDigit (digit c) in
      if (max <? acc * 10 + d)%N then Err ParsePosOverflow else parse_digits max (acc * 10 + d) s
  end.

Definition parse_uint (max : N) (s : bytes) : result ParseIntError N :=
  match s with
  | [] => Err ParseEmpty
  | [x2b] => Err ParseInvalidDigit
  | x2b :: s => parse_digits max 0 s
  | s => parse_digits max 0 s
  end.

(** ** Digits *)

Fixpoint show_digits (fuel : nat) (n : N) (s : bytes) : bytes :=
  match fuel with
  | 0 => s
  | S fuel =>
      let s := byte_of_N (48 + n mod 10) :: s in
      if (n <? 10)%N then s else show_digits fuel (n / 10) s
  end.

Definition is_digit (c : byte) : Prop := is_Some (digit c).

Lemma digit_show n : digit (byte_of_N (48 + n mod 10)) = Some (n mod 10)%N.
Proof.
  unfold digit. rewrite to_N_byte_of_N. assert (n mod 10 < 10)%N by (apply N.mod_lt; lia).
  rewrite N.mod_small by lia. rewrite (proj2 (N.leb_le _ _)), (proj2 (N.leb_le _ _)) by lia. cbn [andb]. f_equal. lia.
Qed.

(** The digits which are shown are those which are parsed. *)
Lemma parse_show_digits max fuel n s :
  0 < fuel → (n < 10 ^ N.of_nat fuel)%N → (n ≤ max)%N →
  parse_digits max 0 (show_digits fuel n s) = parse_digits max n s.
Proof.
  revert n s. induction fuel as [|fuel IH]; intros n s Hf Hn Hmax; [lia|]. cbn [show_digits].
  destruct (N.ltb_spec n 10) as [Hlt|Hge].
  - cbn. rewrite digit_show. cbn. rewrite N.mod_small by lia. by rewrite (proj2 (N.ltb_ge _ _)) by lia.
  - assert (n = n / 10 * 10 + n mod 10)%N as Hdm by (rewrite N.mul_comm; apply N.div_mod; lia).
    rewrite IH.
    + cbn. rewrite digit_show. cbn. rewrite <- Hdm. by rewrite (proj2 (N.ltb_ge _ _)) by lia.
    + destruct fuel; [cbn in Hn; lia|lia].
    + rewrite Nat2N.inj_succ, N.pow_succ_r' in Hn. apply N.Div0.div_lt_upper_bound; lia.
    + transitivity n; [|done]. apply N.Div0.div_le_upper_bound; lia.
Qed.

Lemma show_digits_digits fuel n s :
  Forall is_digit s → Forall is_digit (show_digits fuel n s) ∧ (0 < fuel → show_digits fuel n s ≠ []).
Proof.
  revert n s. induction fuel as [|fuel IH]; intros n s Hs; cbn [show_digits]; [split; [done|lia]|].
  assert (Forall is_digit (byte_of_N (48 + n mod 10) :: s)) as Hs'
    by (apply Forall_cons; split; [unfold is_digit; rewrite digit_show; by eexists|done]).
  destruct (n <? 10)%N; [done|]. destruct (IH (n / 10)%N _ Hs') as [Hb Hne]. split; [done|]. intros _.
  destruct fuel; [done|]. apply Hne. lia.
Qed.

(** An integer of at most [fuel] digits is parsed from the digits which show it. *)
Lemma parse_uint_show max fuel n :
  0 < fuel → (n < 10 ^ N.of_nat fuel)%N → (n ≤ max)%N → parse_uint max (show_digits fuel n []) = Ok n.
Proof.
  intros Hf Hn Hmax. destruct (show_digits_digits fuel n []) as [Hd Hne]; [done|].
  rewrite <- (parse_show_digits max fuel n [] Hf Hn Hmax : _ = Ok n).
  destruct (show_digits fuel n []) as [|c s]; [by destruct Hne|].
  apply Forall_cons in Hd as [Hc _]. by destruct c; try done; apply is_Some_None in Hc.
Qed.

(** A parsed integer is in bounds. *)
Lemma parse_uint_bounded max s n : parse_uint max s = Ok n → (n ≤ max)%N.
Proof.
  assert (∀ s acc, (acc ≤ max)%N → parse_digits max acc s = Ok n → (n ≤ max)%N) as Hp.
  { clear s. induction s as [|c s IH]; intros acc Ha; cbn; [by intros [= <-]|].
    destruct (digit c) as [d|]; [|done]. cbn. destruct (N.ltb_spec max (acc * 10 + d)); [done|]. by apply IH. }
  destruct s as [|c s]; [done|]. destruct c; try (apply Hp; lia). destruct s; [done|]. apply Hp; lia.
Qed.
