(* ===== verification/KeyValue.v ===== *)
(** * The key-value store in memory

    Model of [crates/wasi-keyvalue-mem/src/lib.rs], the handler of
    [wasi:keyvalue] which the repository provides: a map of buckets behind a
    lock, where each bucket is a map behind a lock of its own.

    Invocations run concurrently.  An operation is a program of atomic sections,
    which are what it does while it holds a lock; those of different invocations
    interleave.  The theorem is that they are linearizable: the replies, in the
    order of the last sections of the operations, are those of a store which
    runs one operation at a time. *)

From S2P Require Import Prelude ParseInt.

(** ** Data *)

(** [Error::Other] has the message of an error. *)
Inductive message :=
  | not_supported
  | parse_int (e : ParseIntError).

(** [store::Error] *)
Inductive store_error :=
  | NoSuchStore
  | AccessDenied
  | StoreOther (m : message).

(** The errors of the functions: [swap] has an error of [atomics::CasError]. *)
Inductive function_error :=
  | StoreError (e : store_error)
  | CasStoreError (e : store_error).

Inductive value :=
  | VBucket (identifier : bytes)
  | VValue (v : option bytes)
  | VUnit
  | VBool (b : bool)
  | VKeys (keys : list bytes) (cursor : option bytes).

(** [anyhow::Result<Result<T>>]: the error of the invocation, which [?] makes of
    an error of the store, or the result of the function *)
Definition reply : Type := result store_error (result function_error value).

(** [Arc<RwLock<HashMap<String, Bytes>>>]: buckets are shared, and named by
    numbers. *)
Abbreviation Bucket := N.

Record Handler := mkHandler {
  h_store : gmap bytes Bucket;
  h_buckets : gmap Bucket (gmap bytes bytes);
  h_fresh : Bucket
}.

Definition Handler_default : Handler := mkHandler ∅ ∅ 0%N.

(** The map of a bucket, while its lock is held *)
Definition bucket_map (h : Handler) (b : Bucket) : gmap bytes bytes := default ∅ (h_buckets h !! b).
Definition bucket_update (f : gmap bytes bytes → gmap bytes bytes) (h : Handler) (b : Bucket) : Handler :=
  mkHandler (h_store h) (<[b := f (bucket_map h b)]> (h_buckets h)) (h_fresh h).

(** ** Programs *)

(** The order in which maps are iterated *)
Definition order : Type := gmap bytes bytes → list bytes.
Definition keys_order (ks : order) : Prop := ∀ m, ks m ≡ₚ (map_to_list m).*1.

(** A section takes the order of the iterations at its time. *)
Inductive prog :=
  | Ret (r : reply)
  | Atomic (f : order → Handler → prog * Handler).

(** [self.bucket] *)
Definition Handler_bucket (bucket : bytes) (h : Handler) : result store_error Bucket :=
  ok_or NoSuchStore (h_store h !! bucket).

(** [self.bucket(bucket).await?] *)
Definition with_bucket (bucket : bytes) (k : Bucket → prog) : prog :=
  Atomic (λ _ h, match Handler_bucket bucket h with Ok b => (k b, h) | Err e => (Ret (Err e), h) end).

Definition ok (v : value) : prog := Ret (Ok (Ok v)).

(** [store.entry(identifier).or_default()] *)
Definition or_default (identifier : bytes) (h : Handler) : Handler :=
  match h_store h !! identifier with
  | Some _ => h
  | None =>
      mkHandler (<[identifier := h_fresh h]> (h_store h)) (<[h_fresh h := ∅]> (h_buckets h)) (h_fresh h + 1)%N
  end.

Definition open_insert (identifier : bytes) : prog :=
  Atomic (λ _ h, (ok (VBucket identifier), or_default identifier h)).

Definition open (identifier : bytes) : prog :=
  Atomic (λ _ h,
    match h_store h !! identifier with
    | Some _ => (ok (VBucket identifier), h)
    | None => (open_insert identifier, h)
    end).

Definition bucket_get (key : bytes) (b : Bucket) : prog :=
  Atomic (λ _ h, (ok (VValue (bucket_map h b !! key)), h)).
Definition get (bucket key : bytes) : prog := with_bucket bucket (bucket_get key).

Definition bucket_set (key v : bytes) (b : Bucket) : prog :=
  Atomic (λ _ h, (ok VUnit, bucket_update <[key := v]> h b)).
Definition set (bucket key v : bytes) : prog := with_bucket bucket (bucket_set key v).

Definition bucket_delete (key : bytes) (b : Bucket) : prog :=
  Atomic (λ _ h, (ok VUnit, bucket_update (delete key) h b)).
Definition delete_key (bucket key : bytes) : prog := with_bucket bucket (bucket_delete key).

Definition bucket_exists (key : bytes) (b : Bucket) : prog :=
  Atomic (λ _ h, (ok (VBool (bool_decide (is_Some (bucket_map h b !! key)))), h)).
Definition exists_key (bucket key : bytes) : prog := with_bucket bucket (bucket_exists key).

(** [str::parse::<usize>] *)
Definition parse_usize : bytes → result ParseIntError N := parse_uint usize_MAX.

(** What [list_keys] returns of the keys of a bucket *)
Definition list_from (cursor : option bytes) (keys : list bytes) : reply :=
  match cursor with
  | Some cursor =>
      let? cursor := map_err (λ e, StoreOther (parse_int e)) (parse_usize cursor) in
      Ok (Ok (VKeys (drop (N.to_nat cursor) keys) None))
  | None => Ok (Ok (VKeys keys None))
  end.

Definition bucket_list_keys (cursor : option bytes) (b : Bucket) : prog :=
  Atomic (λ ks h, (Ret (list_from cursor (ks (bucket_map h b))), h)).
Definition list_keys (bucket : bytes) (cursor : option bytes) : prog :=
  with_bucket bucket (bucket_list_keys cursor).

(** The functions of [atomics] and [batch] *)
Definition unsupported : prog := Ret (Ok (Err (StoreError (StoreOther not_supported)))).
Definition increment (_ _ : bytes) (_ : Z) : prog := unsupported.
Definition swap (_ _ : bytes) : prog := Ret (Ok (Err (CasStoreError (StoreOther not_supported)))).
Definition cas_new (_ _ : bytes) : prog := unsupported.
Definition cas_current (_ : bytes) : prog := unsupported.
Definition get_many (_ : bytes) (_ : list bytes) : prog := unsupported.
Definition set_many (_ : bytes) (_ : list (bytes * bytes)) : prog := unsupported.
Definition delete_many (_ : bytes) (_ : list bytes) : prog := unsupported.

(** ** Executions *)

Inductive call :=
  | Open (identifier : bytes)
  | Get (bucket key : bytes)
  | Set_ (bucket key v : bytes)
  | Delete (bucket key : bytes)
  | Exists (bucket key : bytes)
  | ListKeys (bucket : bytes) (cursor : option bytes)
  | Increment (bucket key : bytes) (delta : Z)
  | Swap (cas v : bytes)
  | CasNew (bucket key : bytes)
  | CasCurrent (cas : bytes)
  | GetMany (bucket : bytes) (keys : list bytes)
  | SetMany (bucket : bytes) (key_values : list (bytes * bytes))
  | DeleteMany (bucket : bytes) (keys : list bytes).

Definition handle (c : call) : prog :=
  match c with
  | Open identifier => open identifier
  | Get bucket key => get bucket key
  | Set_ bucket key v => set bucket key v
  | Delete bucket key => delete_key bucket key
  | Exists bucket key => exists_key bucket key
  | ListKeys bucket cursor => list_keys bucket cursor
  | Increment bucket key delta => increment bucket key delta
  | Swap cas v => swap cas v
  | CasNew bucket key => cas_new bucket key
  | CasCurrent cas => cas_current cas
  | GetMany bucket keys => get_many bucket keys
  | SetMany bucket key_values => set_many bucket key_values
  | DeleteMany bucket keys => delete_many bucket keys
  end.

(** The tasks which serve invocations *)
Inductive task := Idle | Running (c : call) (p : prog).

(** A step of the tasks, with the reply to a call if it is the last section of
    its program *)
Inductive kv_step : list task * Handler → list (nat * call * reply) → list task * Handler → Prop :=
  | step_invoke ts h i c :
      ts !! i = Some Idle → kv_step (ts, h) [] (<[i := Running c (handle c)]> ts, h)
  | step_section ts h i c f ks p h' :
      ts !! i = Some (Running c (Atomic f)) → keys_order ks → f ks h = (p, h') → (∀ r, p ≠ Ret r) →
      kv_step (ts, h) [] (<[i := Running c p]> ts, h')
  | step_last ts h i c f ks r h' :
      ts !! i = Some (Running c (Atomic f)) → keys_order ks → f ks h = (Ret r, h') →
      kv_step (ts, h) [(i, c, r)] (<[i := Idle]> ts, h')
  | step_return ts h i c r :
      ts !! i = Some (Running c (Ret r)) → kv_step (ts, h) [(i, c, r)] (<[i := Idle]> ts, h).

Inductive kv_steps : list task * Handler → list (nat * call * reply) → list task * Handler → Prop :=
  | kv_steps_refl s : kv_steps s [] s
  | kv_steps_snoc s1 log s2 ev s3 : kv_steps s1 log s2 → kv_step s2 ev s3 → kv_steps s1 (log ++ ev) s3.

(** ** Specification *)

(** A store runs one call at a time. *)
Abbreviation store := (gmap bytes (gmap bytes bytes)).

Definition on_store (bucket : bytes) (σ : store) (f : gmap bytes bytes → reply * gmap bytes bytes) : reply * store :=
  match σ !! bucket with
  | None => (Err NoSuchStore, σ)
  | Some m => let '(r, m') := f m in (r, <[bucket := m']> σ)
  end.

Definition serve_call (ks : order) (c : call) (σ : store) : reply * store :=
  match c with
  | Open identifier => (Ok (Ok (VBucket identifier)), <[identifier := default ∅ (σ !! identifier)]> σ)
  | Get bucket key => on_store bucket σ (λ m, (Ok (Ok (VValue (m !! key))), m))
  | Set_ bucket key v => on_store bucket σ (λ m, (Ok (Ok VUnit), <[key := v]> m))
  | Delete bucket key => on_store bucket σ (λ m, (Ok (Ok VUnit), delete key m))
  | Exists bucket key => on_store bucket σ (λ m, (Ok (Ok (VBool (bool_decide (key ∈ dom m)))), m))
  | ListKeys bucket cursor => on_store bucket σ (λ m, (list_from cursor (ks m), m))
  | Swap _ _ => (Ok (Err (CasStoreError (StoreOther not_supported))), σ)
  | Increment _ _ _ | CasNew _ _ | CasCurrent _ | GetMany _ _ | SetMany _ _ | DeleteMany _ _ =>
      (Ok (Err (StoreError (StoreOther not_supported))), σ)
  end.

(** The log of a store which runs the calls in its order *)
Inductive serves : store → list (nat * call * reply) → store → Prop :=
  | serves_nil σ : serves σ [] σ
  | serves_snoc σ log σ1 i c r σ2 ks :
      serves σ log σ1 → keys_order ks → serve_call ks c σ1 = (r, σ2) → serves σ (log ++ [(i, c, r)]) σ2.

(** The store which a handler stands for *)
Definition contents (h : Handler) : store := bucket_map h <$> h_store h.

(** Identifiers have buckets of their own. *)
Record handler_wf (h : Handler) : Prop := {
  hw_bound i b : h_store h !! i = Some b → (b < h_fresh h)%N;
  hw_unique i j b : h_store h !! i = Some b → h_store h !! j = Some b → i = j
}.

(** The section which a call is before: its first, that of [open] which inserts
    the bucket, or that of the bucket which was looked up *)
Definition bucket_section (c : call) : option (bytes * (Bucket → prog)) :=
  match c with
  | Get bucket key => Some (bucket, bucket_get key)
  | Set_ bucket key v => Some (bucket, bucket_set key v)
  | Delete bucket key => Some (bucket, bucket_delete key)
  | Exists bucket key => Some (bucket, bucket_exists key)
  | ListKeys bucket cursor => Some (bucket, bucket_list_keys cursor)
  | _ => None
  end.

Inductive before (h : Handler) : call → prog → Prop :=
  | before_call c : before h c (handle c)
  | before_insert identifier : before h (Open identifier) (open_insert identifier)
  | before_bucket c bucket k b :
      bucket_section c = Some (bucket, k) → h_store h !! bucket = Some b → before h c (k b).

Definition tasks_ok (ts : list task) (h : Handler) : Prop :=
  ∀ i c p, ts !! i = Some (Running c p) → before h c p.

(** ** Lemmas *)

Lemma contents_lookup h i : contents h !! i = bucket_map h <$> h_store h !! i.
Proof. unfold contents. apply lookup_fmap. Qed.

(** A bucket is updated where its identifier says. *)
Lemma contents_update h i b f :
  handler_wf h → h_store h !! i = Some b →
  contents (bucket_update f h b) = <[i := f (bucket_map h b)]> (contents h).
Proof.
  intros Hwf Hi. apply map_eq. intros j. rewrite contents_lookup. cbn [bucket_update h_store].
  destruct (decide (i = j)) as [<-|Hne].
  - rewrite Hi, lookup_insert_eq. cbn. unfold bucket_map at 1. cbn [bucket_update h_buckets].
    by rewrite lookup_insert_eq.
  - rewrite lookup_insert_ne, contents_lookup by done.
    destruct (h_store h !! j) as [b'|] eqn:Hj; [|done]. cbn. f_equal. unfold bucket_map at 1.
    cbn [bucket_update h_buckets]. rewrite lookup_insert_ne; [done|]. intros ->.
    apply Hne. by eapply hw_unique.
Qed.

Lemma contents_same h i b : h_store h !! i = Some b → <[i := bucket_map h b]> (contents h) = contents h.
Proof. intros Hi. apply insert_id. by rewrite contents_lookup, Hi. Qed.

(** Opening a bucket which is new, or again *)
Lemma contents_or_default h i :
  handler_wf h → contents (or_default i h) = <[i := default ∅ (contents h !! i)]> (contents h).
Proof.
  intros Hwf. rewrite contents_lookup. unfold or_default. destruct (h_store h !! i) as [b|] eqn:Hi;
    cbn [fmap option_fmap option_map default from_option id].
  - by rewrite contents_same.
  - apply map_eq. intros j. rewrite contents_lookup. cbn [h_store]. destruct (decide (i = j)) as [<-|Hne].
    + rewrite !lookup_insert_eq. cbn. unfold bucket_map. cbn [h_buckets]. by rewrite lookup_insert_eq.
    + rewrite !lookup_insert_ne, contents_lookup by done.
      destruct (h_store h !! j) as [b|] eqn:Hj; [|done]. cbn. f_equal. unfold bucket_map. cbn [h_buckets].
      rewrite lookup_insert_ne; [done|]. intros <-. apply (hw_bound h Hwf) in Hj. lia.
Qed.

Lemma handler_wf_or_default h i : handler_wf h → handler_wf (or_default i h).
Proof.
  intros Hwf. unfold or_default. destruct (h_store h !! i) as [b|] eqn:Hi; [done|]. split; cbn [h_store h_fresh].
  - intros j b. rewrite lookup_insert. case_decide; [intros [= <-]; lia|]. intros Hb%hw_bound; [lia|done].
  - intros j j' b. rewrite !lookup_insert. repeat case_decide; subst; [done|..].
    + intros [= <-] Hj%hw_bound; [lia|done].
    + intros Hj%hw_bound [= <-]; [lia|done].
    + by apply hw_unique.
Qed.

(** Buckets are not removed. *)
Definition keeps (h h' : Handler) : Prop := ∀ i b, h_store h !! i = Some b → h_store h' !! i = Some b.

Lemma keeps_or_default h i : keeps h (or_default i h).
Proof.
  intros j b Hj. unfold or_default. destruct (h_store h !! i) eqn:Hi; [done|]. cbn [h_store].
  rewrite lookup_insert_ne; [done|]. by intros ->; simplify_eq.
Qed.

Lemma before_keeps h h' c p : keeps h h' → before h c p → before h' c p.
Proof. intros Hk [|?|? ? ? ? ? ?]; econstructor; eauto. Qed.

(** What a section does: it replies as the store does, or leaves the contents as
    they are. *)
Definition section_ok (ks : order) (c : call) (h : Handler) (p : prog) (h' : Handler) : Prop :=
  handler_wf h' ∧ keeps h h' ∧
  match p with
  | Ret r => serve_call ks c (contents h) = (r, contents h')
  | _ => contents h' = contents h ∧ before h' c p
  end.

(** The section of a bucket *)
Lemma bucket_section_ok ks c h bucket k b f p h' :
  handler_wf h → bucket_section c = Some (bucket, k) → h_store h !! bucket = Some b → k b = Atomic f →
  f ks h = (p, h') → section_ok ks c h p h'.
Proof.
  intros Hwf Hc Hb Hk Hf.
  assert (contents h !! bucket = Some (bucket_map h b)) as Hm by (by rewrite contents_lookup, Hb).
  destruct c; try discriminate Hc; injection Hc as <- <-; injection Hk as <-; injection Hf as <- <-;
    (split; [by split; apply Hwf|]); (split; [by intros ? ?|]); cbn [serve_call]; unfold on_store, ok; rewrite Hm;
    rewrite ?(contents_update h _ b _ Hwf Hb), ?(contents_same h _ b Hb); try done.
  do 4 f_equal. apply bool_decide_ext. by rewrite elem_of_dom.
Qed.

Lemma with_bucket_ok ks c h bucket k f p h' :
  handler_wf h → bucket_section c = Some (bucket, k) → with_bucket bucket k = Atomic f →
  f ks h = (p, h') → (∀ b r, k b ≠ Ret r) → section_ok ks c h p h'.
Proof.
  intros Hwf Hc [= <-] Hf Hret. unfold Handler_bucket in Hf.
  destruct (h_store h !! bucket) as [b|] eqn:Hb; cbn in Hf; injection Hf as <- <-;
    (split; [done|]); (split; [by intros ? ?|]).
  - specialize (Hret b). pose proof (before_bucket h c bucket k b Hc Hb) as Hbefore.
    destruct (k b) eqn:Hk; [by destruct (Hret r)|]. done.
  - assert (contents h !! bucket = None) as Hm by (by rewrite contents_lookup, Hb).
    destruct c; try discriminate Hc; injection Hc as <- <-; cbn [serve_call]; unfold on_store; by rewrite Hm.
Qed.

Lemma open_ok ks i h f p h' :
  handler_wf h → open i = Atomic f → f ks h = (p, h') → section_ok ks (Open i) h p h'.
Proof.
  intros Hwf [= <-] Hf. destruct (h_store h !! i) as [b|] eqn:Hi; injection Hf as <- <-;
    (split; [done|]); (split; [by intros ? ?|]).
  - cbn [ok serve_call]. rewrite contents_lookup, Hi. cbn [fmap option_fmap option_map default from_option id].
    by rewrite (contents_same h i b Hi).
  - split; [done|]. constructor.
Qed.

(** Every section is that of a store, or leaves the contents as they are. *)
Lemma before_section_ok ks c h f p h' :
  handler_wf h → before h c (Atomic f) → f ks h = (p, h') → section_ok ks c h p h'.
Proof.
  intros Hwf Hb Hf. remember (Atomic f) as q eqn:Hq. destruct Hb as [c|i|c bucket k b Hc Hb].
  - destruct c; try discriminate Hq; cbn [handle] in Hq;
      [by eapply open_ok|eapply (with_bucket_ok ks _ h bucket); by eauto..].
  - injection Hq as <-. injection Hf as <- <-. split; [by apply handler_wf_or_default|].
    split; [apply keeps_or_default|]. cbn [ok serve_call]. by rewrite contents_or_default.
  - by eapply bucket_section_ok.
Qed.

(** What returns at once does so in the store. *)
Lemma before_return_ok ks c h r : before h c (Ret r) → serve_call ks c (contents h) = (r, contents h).
Proof.
  intros Hb. remember (Ret r) as q eqn:Hq. destruct Hb as [c|i|c bucket k b Hc Hb].
  - destruct c; try discriminate Hq; by injection Hq as <-.
  - discriminate Hq.
  - destruct c; try discriminate Hc; by injection Hc as <- <-.
Qed.

Lemma tasks_ok_step ts h h' i t :
  tasks_ok ts h → keeps h h' → (∀ c p, t = Running c p → before h' c p) → tasks_ok (<[i := t]> ts) h'.
Proof.
  intros Hts Hk Ht j c p Hj. apply list_lookup_insert_Some in Hj as [(_ & Hj & _)|(_ & Hj)].
  - by apply Ht.
  - by eapply before_keeps, Hts.
Qed.

Lemma keys_order_exists : ∃ ks, keys_order ks.
Proof. exists (λ m, (map_to_list m).*1). by intros m. Qed.

Lemma kv_step_ok ts h ev ts' h' :
  kv_step (ts, h) ev (ts', h') → handler_wf h → tasks_ok ts h →
  handler_wf h' ∧ tasks_ok ts' h' ∧
  ∀ σ log, serves σ log (contents h) → serves σ (log ++ ev) (contents h').
Proof.
  inversion 1 as [? ? i c Hi|? ? i c f ks p ? Hi Hks Hf Hp|? ? i c f ks r ? Hi Hks Hf|? ? i c r Hi]; subst;
    intros Hwf Hts.
  - split; [done|]. split; [|by intros σ log; rewrite app_nil_r]. apply (tasks_ok_step ts h'); [done|by intros ? ?|].
    intros c' p [= <- <-]. constructor.
  - destruct (before_section_ok ks c h f p h' Hwf (Hts i c _ Hi) Hf) as (Hwf' & Hk & Hs).
    destruct p as [r|g]; [by destruct (Hp r)|]. destruct Hs as (Hc & Hb). split; [done|]. split; [|by intros σ log; rewrite app_nil_r, Hc].
    apply (tasks_ok_step ts h); [done..|]. by intros c' p [= <- <-].
  - destruct (before_section_ok ks c h f (Ret r) h' Hwf (Hts i c _ Hi) Hf) as (Hwf' & Hk & Hs).
    split; [done|]. split; [by apply (tasks_ok_step ts h)|]. intros σ log Hlog. by econstructor.
  - destruct keys_order_exists as (ks & Hks). pose proof (before_return_ok ks c h' r (Hts i c _ Hi)) as Hs.
    split; [done|]. split; [apply (tasks_ok_step ts h'); [done|by intros ? ?|done]|].
    intros σ log Hlog. by econstructor.
Qed.

(** ** Properties *)

(** [C26] The store is linearizable: however the sections of concurrent
    invocations interleave, the replies are those of a store which runs the calls
    one at a time, in the order of their last sections, from the contents of the
    handler at the start, and the contents of the handler are those of that
    store. *)
Theorem kv_linearizable n h log ts' h' :
  handler_wf h → kv_steps (replicate n Idle, h) log (ts', h') → serves (contents h) log (contents h').
Proof.
  intros Hwf Hs. assert (tasks_ok (replicate n Idle) h) as Hts.
  { intros i c p (Hi & _)%lookup_replicate. done. }
  remember (replicate n Idle, h) as s eqn:Es. remember (ts', h') as s' eqn:Es'.
  assert (handler_wf s'.2 ∧ tasks_ok s'.1 s'.2 ∧ serves (contents h) log (contents s'.2)) as (_ & _ & Hl).
  { clear Es'. induction Hs as [|s log [ts1 h1] ev [ts2 h2] Hs IH Hstep]; subst; [split_and!; [done|done|constructor]|].
    destruct IH as (Hwf1 & Hts1 & Hl); [done|]. cbn [fst snd] in *.
    destruct (kv_step_ok _ _ _ _ _ Hstep Hwf1 Hts1) as (Hwf2 & Hts2 & Hl2). split_and!; [done|done|by apply Hl2]. }
  by subst.
Qed.

(** A function of a bucket which does not exist fails the invocation, instead of
    returning the error to its caller. *)
Theorem missing_bucket_fails ks c h bucket k :
  bucket_section c = Some (bucket, k) → h_store h !! bucket = None →
  ∃ f, handle c = Atomic f ∧ f ks h = (Ret (Err NoSuchStore), h).
Proof.
  intros Hc Hb. destruct c; try discriminate Hc; injection Hc as <- <-; (eexists; split; [done|]); cbn beta;
    unfold Handler_bucket; by rewrite Hb.
Qed.

(** ** Witnesses *)

(** What a task does next; maps are iterated in the order of their keys. *)
Inductive kv_action := AInvoke (i : nat) (c : call) | ARun (i : nat).

Definition test_order : order := λ m, (map_to_list m).*1.

Lemma test_order_keys : keys_order test_order.
Proof. by intros m. Qed.

Definition kv_act (a : kv_action) (s : list task * Handler) :
    option (list (nat * call * reply) * (list task * Handler)) :=
  let '(ts, h) := s in
  match a with
  | AInvoke i c => match ts !! i with Some Idle => Some ([], (<[i := Running c (handle c)]> ts, h)) | _ => None end
  | ARun i =>
      match ts !! i with
      | Some (Running c (Ret r)) => Some ([(i, c, r)], (<[i := Idle]> ts, h))
      | Some (Running c (Atomic f)) =>
          match f test_order h with
          | (Ret r, h) => Some ([(i, c, r)], (<[i := Idle]> ts, h))
          | (p, h) => Some ([], (<[i := Running c p]> ts, h))
          end
      | _ => None
      end
  end.

Lemma kv_act_step a s ev s' : kv_act a s = Some (ev, s') → kv_step s ev s'.
Proof.
  destruct s as [ts h], a as [i c|i]; cbn; destruct (ts !! i) as [[|c' [r|f]]|] eqn:Hi; try done.
  - intros [= <- <-]. by constructor.
  - intros [= <- <-]. by constructor.
  - destruct (f test_order h) as [[r|g] h1] eqn:Hf; intros [= <- <-].
    + apply step_last with f test_order; [done|apply test_order_keys|done].
    + apply step_section with f test_order; [done|apply test_order_keys|done|done].
Qed.

Fixpoint kv_exec (acts : list kv_action) (s : list (nat * call * reply) * (list task * Handler)) :
    option (list (nat * call * reply) * (list task * Handler)) :=
  match acts with
  | [] => Some s
  | a :: acts => '(ev, s') ← kv_act a s.2; kv_exec acts (s.1 ++ ev, s')
  end.

Lemma kv_exec_steps acts s0 log s log' s' :
  kv_exec acts (log, s) = Some (log', s') → kv_steps s0 log s → kv_steps s0 log' s'.
Proof.
  revert log s. induction acts as [|a acts IH]; intros log s; cbn [kv_exec]; [by intros [= -> ->]|].
  intros ([ev s1] & Ha & He)%bind_Some Hs. apply (IH _ _ He). econstructor; [exact Hs|by eapply kv_act_step].
Qed.

(** Two invocations open the same bucket at the same time, and the bucket is
    written to before the second of them inserts it. *)
Definition test_id : bytes := [x62].
Definition test_key : bytes := [x6b].
Definition race : list kv_action :=
  [AInvoke 0 (Open test_id); AInvoke 1 (Open test_id); ARun 0; ARun 1; ARun 1;
   AInvoke 1 (Set_ test_id test_key [x2a]); ARun 1; ARun 1; ARun 0;
   AInvoke 0 (Get test_id test_key); AInvoke 1 (ListKeys test_id (Some [x31])); ARun 0; ARun 1; ARun 1; ARun 0].
Definition race_end : list (nat * call * reply) * (list task * Handler) :=
  default ([], ([], Handler_default)) (kv_exec race ([], (replicate 2 Idle, Handler_default))).

Example race_log :
  race_end.1 =
    [(1, Open test_id, Ok (Ok (VBucket test_id))); (1, Set_ test_id test_key [x2a], Ok (Ok VUnit));
     (0, Open test_id, Ok (Ok (VBucket test_id))); (1, ListKeys test_id (Some [x31]), Ok (Ok (VKeys [] None)));
     (0, Get test_id test_key, Ok (Ok (VValue (Some [x2a]))))].
Proof. vm_compute. reflexivity. Qed.

Lemma kv_linearizable_witness :
  serves (contents Handler_default) race_end.1 (contents race_end.2.2).
Proof.
  apply (kv_linearizable 2 Handler_default race_end.1 race_end.2.1 race_end.2.2).
  - split; cbn [h_store Handler_default]; intros *; by rewrite lookup_empty.
  - apply (kv_exec_steps race _ [] (replicate 2 Idle, Handler_default)); [|constructor]. vm_compute. reflexivity.
Defined.
