(* ===== verification/KeyValueRedis.v ===== *)
(** * The key-value store on Redis

    Model of [crates/wasi-keyvalue-redis/src/lib.rs]: the handler maps the handles
    of buckets to connections of Redis and forwards the operations to them.

    Redis is a parameter: the clients and connections, and commands which act on
    the state of the servers.  A handle is a new UUID, an argument of [redis_open].
    The theorem is that a bucket is a map: its operations are those on the keys of
    its connection, and handles which were not opened fail. *)

From S2P Require Import Prelude ParseInt KeyValue.

(** [redis::Value], as far as it is told apart *)
Inductive redis_value := RedisNil | RedisBulkString (buf : bytes) | RedisOther.

Class Redis (E Client Conn St : Type) := {
  Client_open : bytes → result E Client;
  get_connection_manager : Client → St → result E Conn * St;
  cmd_get : Conn → bytes → St → result E redis_value * St;
  cmd_set : Conn → bytes → bytes → St → result E unit * St;
  cmd_del : Conn → bytes → St → result E unit * St;
  cmd_exists : Conn → bytes → St → result E bool * St
}.

(** [store::Error], with the errors of Redis *)
Inductive redis_error E :=
  | RedisNoSuchStore
  | RedisError (e : E)
  | InvalidDataType
  | NotSupported.
Arguments RedisNoSuchStore {_}.
Arguments RedisError {_} _.
Arguments InvalidDataType {_}.
Arguments NotSupported {_}.

Section redis.
Context {E Client Conn St : Type} `{!Redis E Client Conn St}.

#[local] Abbreviation RedisHandler := (gmap bytes Conn).
Definition redis_result A : Type := result (redis_error E) A.

Definition redis_bucket (h : RedisHandler) (bucket : bytes) : redis_result Conn := ok_or RedisNoSuchStore (h !! bucket).

Definition redis_open (id identifier : bytes) (h : RedisHandler) (st : St) : redis_result bytes * RedisHandler * St :=
  match Client_open identifier with
  | Err e => (Err (RedisError e), h, st)
  | Ok client =>
      match get_connection_manager client st with
      | (Err e, st) => (Err (RedisError e), h, st)
      | (Ok conn, st) => (Ok id, <[id := conn]> h, st)
      end
  end.

(** A command on the connection of a bucket *)
Definition redis_command {A B} (cmd : Conn → St → result E A * St) (f : A → redis_result B)
    (h : RedisHandler) (bucket : bytes) (st : St) : redis_result B * St :=
  match redis_bucket h bucket with
  | Err e => (Err e, st)
  | Ok conn => let '(r, st) := cmd conn st in (let? a := map_err RedisError r in f a, st)
  end.

Definition redis_get (h : RedisHandler) (bucket key : bytes) (st : St) : redis_result (option bytes) * St :=
  redis_command (λ conn, cmd_get conn key)
    (λ v, match v with
          | RedisNil => Ok None
          | RedisBulkString buf => Ok (Some buf)
          | RedisOther => Err InvalidDataType
          end) h bucket st.
Definition redis_set (h : RedisHandler) (bucket key value : bytes) (st : St) : redis_result unit * St :=
  redis_command (λ conn, cmd_set conn key value) Ok h bucket st.
Definition redis_delete (h : RedisHandler) (bucket key : bytes) (st : St) : redis_result unit * St :=
  redis_command (λ conn, cmd_del conn key) Ok h bucket st.
Definition redis_exists (h : RedisHandler) (bucket key : bytes) (st : St) : redis_result bool * St :=
  redis_command (λ conn, cmd_exists conn key) Ok h bucket st.

(** [list_keys] and the functions of [atomics] and [batch] *)
Definition redis_unsupported {A} : redis_result A := Err NotSupported.

(** What Redis promises of the commands which succeed: the keys of a connection
    are a map of byte strings. *)
Class RedisLaws := {
  conn_map : Conn → St → gmap bytes bytes;
  cmd_get_map conn key st v st' :
    cmd_get conn key st = (Ok v, st') →
    conn_map conn st' = conn_map conn st ∧
    v = match conn_map conn st !! key with Some buf => RedisBulkString buf | None => RedisNil end;
  cmd_set_map conn key value st st' :
    cmd_set conn key value st = (Ok tt, st') → conn_map conn st' = <[key := value]> (conn_map conn st);
  cmd_del_map conn key st st' :
    cmd_del conn key st = (Ok tt, st') → conn_map conn st' = delete key (conn_map conn st);
  cmd_exists_map conn key st b st' :
    cmd_exists conn key st = (Ok b, st') →
    conn_map conn st' = conn_map conn st ∧ b = bool_decide (is_Some (conn_map conn st !! key))
}.

Lemma redis_command_ok {A B} (cmd : Conn → St → result E A * St) (f : A → redis_result B) h bucket conn st b st' :
  h !! bucket = Some conn → redis_command cmd f h bucket st = (Ok b, st') →
  ∃ a, cmd conn st = (Ok a, st') ∧ f a = Ok b.
Proof.
  intros Hb. unfold redis_command, redis_bucket. rewrite Hb. cbn. destruct (cmd conn st) as [[a|e] st1]; cbn; [|done].
  intros [= Hf <-]. by eexists.
Qed.

(** The bucket of a handle behaves as the map of its connection: the operations
    on it which succeed read and update it, other handles keep their connections
    when a bucket is opened, and a handle which was not opened fails without a
    command. *)
Theorem redis_bucket_map `{!RedisLaws} h bucket key :
  (∀ conn st, h !! bucket = Some conn →
     (∀ r st', redis_get h bucket key st = (Ok r, st') →
        r = conn_map conn st !! key ∧ conn_map conn st' = conn_map conn st) ∧
     (∀ value st', redis_set h bucket key value st = (Ok tt, st') →
        conn_map conn st' = <[key := value]> (conn_map conn st)) ∧
     (∀ st', redis_delete h bucket key st = (Ok tt, st') → conn_map conn st' = delete key (conn_map conn st)) ∧
     (∀ b st', redis_exists h bucket key st = (Ok b, st') →
        b = bool_decide (is_Some (conn_map conn st !! key)) ∧ conn_map conn st' = conn_map conn st)) ∧
  (∀ id identifier st r h' st', redis_open id identifier h st = (r, h', st') →
     bucket ≠ id → h' !! bucket = h !! bucket) ∧
  (h !! bucket = None → ∀ st value,
     redis_get h bucket key st = (Err RedisNoSuchStore, st) ∧
     redis_set h bucket key value st = (Err RedisNoSuchStore, st) ∧
     redis_delete h bucket key st = (Err RedisNoSuchStore, st) ∧
     redis_exists h bucket key st = (Err RedisNoSuchStore, st)).
Proof.
  split_and!.
  - intros conn st Hb. split_and!.
    + intros r st' (v & Hc & Hv)%(redis_command_ok _ _ _ _ conn); [|done].
      apply cmd_get_map in Hc as [? ->]. by destruct (conn_map conn st !! key); simplify_eq.
    + intros value st' ([] & Hc & _)%(redis_command_ok _ _ _ _ conn); [|done]. by eapply cmd_set_map.
    + intros st' ([] & Hc & _)%(redis_command_ok _ _ _ _ conn); [|done]. by eapply cmd_del_map.
    + intros b st' (b' & Hc & [= ->])%(redis_command_ok _ _ _ _ conn); [|done]. by apply cmd_exists_map in Hc as [].
  - intros id identifier st r h' st' Ho Hne. unfold redis_open in Ho. destruct (Client_open identifier); [|by simplify_eq].
    destruct (get_connection_manager _ st) as [[conn|e] st1]; simplify_eq; [|done]. by rewrite lookup_insert_ne.
  - intros Hn st value. unfold redis_get, redis_set, redis_delete, redis_exists, redis_command, redis_bucket. by rewrite Hn.
Qed.

End redis.

(** ** Witness *)

(** One server, whose state is a map *)
#[local] Instance test_redis : Redis unit unit unit (gmap bytes bytes) := {|
  Client_open _ := Ok tt;
  get_connection_manager _ st := (Ok tt, st);
  cmd_get _ key st := (Ok (match st !! key with Some buf => RedisBulkString buf | None => RedisNil end), st);
  cmd_set _ key value st := (Ok tt, <[key := value]> st);
  cmd_del _ key st := (Ok tt, delete key st);
  cmd_exists _ key st := (Ok (bool_decide (is_Some (st !! key))), st)
|}.

#[local] Program Instance test_redis_laws : RedisLaws (E := unit) (Conn := unit) (St := gmap bytes bytes) :=
  {| conn_map _ st := st |}.
Next Obligation. by intros [] key st v st' [= <- <-]. Qed.
Next Obligation. by intros [] key value st st' [= <-]. Qed.
Next Obligation. by intros [] key st st' [= <-]. Qed.
Next Obligation. by intros [] key st b st' [= <- <-]. Qed.

Lemma redis_bucket_map_witness :
  redis_get ({[ [x01] := tt ]} : gmap bytes unit) [x01] [x2a] ({[ [x2a] := [x07] ]} : gmap bytes bytes) =
    (Ok (Some [x07]), {[ [x2a] := [x07] ]}) ∧
  redis_get ({[ [x01] := tt ]} : gmap bytes unit) [x02] [x2a] ∅ = (Err RedisNoSuchStore, ∅).
Proof.
  split; [reflexivity|].
  destruct (redis_bucket_map ({[ [x01] := tt ]} : gmap bytes unit) [x02] [x2a]) as (_ & _ & Hn).
  apply Hn; [reflexivity|exact []].
Defined.
