(* ===== verification/Sockets.v ===== *)
(** * Transports over sockets

    Model of the clients which connect streams: [crates/quic/src/lib.rs] and
    [crates/webtransport/src/lib.rs], whose streams are the same, and
    [frame/tcp/tokio.rs], [frame/unix.rs] and [frame/tcp/wasi.rs] of
    [crates/transport/src].

    Sockets, connections and their streams are parameters.  [None] waits.  The
    theorems show that a stream which is dropped is aborted unless it was shut
    down, that the streams of [wasi:sockets] are used within their contract, and
    to which address a client connects. *)

From S2P Require Import Prelude Wire FrameCodec Subscriptions Resolve Conn Delivery Egress Server Split Http ParseInt.

(** ** Writers which abort *)

(** A writer [W] of a stream [S]: its flag is set by [poll_shutdown] once it
    succeeds, and [drop] aborts the stream if it is not. *)
Class AbortWriter (W S : Type) := {
  aw_shutdown : W → bool;
  aw_poll_shutdown : W → S → option (io_result unit) * W * S;
  aw_drop : W → S → S;
  aw_abort : S → S;
  aw_poll_shutdown_flag w s r w' s' :
    aw_poll_shutdown w s = (r, w', s') → aw_shutdown w' = aw_shutdown w || bool_decide (r = Some (Ok tt));
  aw_drop_aborts w s : aw_drop w s = if aw_shutdown w then s else aw_abort s
}.

(** What is done to a writer: a shutdown, or another operation on the stream *)
Inductive writer_op S :=
  | OpShutdown
  | OpStream (f : S → S).
Arguments OpShutdown {_}.
Arguments OpStream {_} _.

Section abort.
Context {W S : Type} `{!AbortWriter W S}.

(** The writer and the stream after operations, and whether a shutdown
    succeeded *)
Fixpoint writer_run (ops : list (writer_op S)) (w : W) (s : S) (ok : bool) : W * S * bool :=
  match ops with
  | [] => (w, s, ok)
  | OpShutdown :: ops =>
      let '(r, w, s) := aw_poll_shutdown w s in writer_run ops w s (ok || bool_decide (r = Some (Ok tt)))
  | OpStream f :: ops => writer_run ops w (f s) ok
  end.

(** A writer aborts its stream when it is dropped, unless a shutdown of it
    succeeded. *)
Theorem dropped_writer_aborts ops w s w' s' ok :
  aw_shutdown w = false → writer_run ops w s false = (w', s', ok) →
  aw_drop w' s' = if ok then s' else aw_abort s'.
Proof.
  intros Hw Hr. rewrite aw_drop_aborts. enough (aw_shutdown w' = ok) as -> by done. rewrite <- Hw in Hr. clear Hw.
  revert w s Hr. induction ops as [|[|f] ops IH]; intros w s; cbn.
  - by intros [= <- <- <-].
  - destruct (aw_poll_shutdown w s) as [[r w1] s1] eqn:E. apply aw_poll_shutdown_flag in E. rewrite <- E. apply IH.
  - apply IH.
Qed.

End abort.

#[global] Program Instance split_abort_writer {T} `{!AsyncStream T} (abort : T → T) :
    AbortWriter WriteHalf (Shared (T := T)) := {|
  aw_shutdown := wh_shutdown;
  aw_poll_shutdown := WriteHalf_poll_shutdown;
  aw_abort sh := WriteHalf_wake (WriteHalf_take abort sh);
  aw_drop w sh := if wh_shutdown w then sh else WriteHalf_wake (WriteHalf_take abort sh)
|}.
Next Obligation.
  intros T ? abort w s r w' s'. unfold WriteHalf_poll_shutdown.
  destruct (Shared_poll s stream_poll_shutdown) as [[[[]|e]|] sh]; intros [= <- <- <-]; cbn; by destruct (wh_shutdown w).
Qed.
Next Obligation. done. Qed.

#[global] Program Instance http_abort_writer {P} `{!AsyncStream P} :
    AbortWriter OutgoingBodyDataWriter (BodyShared (P := P)) := {|
  aw_shutdown := obw_shutdown;
  aw_poll_shutdown := BodyWriter_poll_shutdown;
  aw_abort sh := BodyWriter_close (BodyWriter_abort sh);
  aw_drop w sh := if obw_shutdown w then sh else BodyWriter_close (BodyWriter_abort sh)
|}.
Next Obligation.
  intros P ? w s r w' s'. unfold BodyWriter_poll_shutdown.
  destruct (BodyShared_poll s stream_poll_shutdown) as [[[[]|e]|] sh]; intros [= <- <- <-]; cbn; by destruct (obw_shutdown w).
Qed.
Next Obligation. done. Qed.

(** ** QUIC and WebTransport *)

(** The streams of a connection: [AsyncWrite] and [reset] of its send side, and
    [AsyncRead], [AsyncBufRead] and [stop] of its receive side with its buffer *)
Class QuicSend (S : Type) := {
  send_poll_write : bytes → S → option (io_result N) * S;
  send_poll_flush : S → option (io_result unit) * S;
  send_poll_shutdown : S → option (io_result unit) * S;
  send_reset : N → S → S
}.

Class QuicRecv (R : Type) := {
  recv_poll_read : nat → R → option (io_result bytes) * R;
  recv_poll_fill_buf : R → option (io_result bytes) * R;
  recv_consume : N → R → R;
  recv_stop : N → R → R
}.

Module Quic.

Definition DONE : N := 0.
Definition ABORTED : N := 1.

Section streams.
Context {S R Conn : Type} `{!QuicSend S, !QuicRecv R}.

Definition RecvStream : Type := R.
Definition RecvStream_poll_read (n : nat) (rx : RecvStream) : option (io_result bytes) * RecvStream := recv_poll_read n rx.
Definition RecvStream_poll_fill_buf (rx : RecvStream) : option (io_result bytes) * RecvStream := recv_poll_fill_buf rx.
Definition RecvStream_consume (amt : N) (rx : RecvStream) : RecvStream := recv_consume amt rx.
Definition RecvStream_drop (rx : RecvStream) : RecvStream := recv_stop DONE rx.

(** [SendStream] has the stream; its flag is the writer. *)
Record SendStream := mkSendStream { ss_shutdown : bool }.

Definition SendStream_from (inner : S) : SendStream * S := (mkSendStream false, inner).
Definition SendStream_poll_write (buf : bytes) (inner : S) : option (io_result N) * S := send_poll_write buf inner.
Definition SendStream_poll_flush (inner : S) : option (io_result unit) * S := send_poll_flush inner.
Definition SendStream_poll_shutdown (self : SendStream) (inner : S) : option (io_result unit) * SendStream * S :=
  match send_poll_shutdown inner with
  | (Some (Ok _), inner) => (Some (Ok tt), mkSendStream true, inner)
  | (r, inner) => (r, self, inner)
  end.
Definition SendStream_drop (self : SendStream) (inner : S) : S :=
  if ss_shutdown self then inner else send_reset ABORTED inner.

(** [invoke] of a client; the write of the header and the parameters is a
    parameter, as in [Egress]. *)
Definition Client_invoke `{Leb128, CoreName} (open_bi : Conn → io_result (S * R))
    (write_all : SendStream * S → bytes → bytes → io_result bytes) (conn : Conn) (instance func params : bytes) :
    io_result (Outgoing * SendStream * S * RecvStream * bytes) :=
  let? (tx, rx) := open_bi conn in
  let '(ss, tx) := SendStream_from tx in
  let? (outgoing, written) := invoke (write_all (ss, tx)) instance func params in
  Ok (outgoing, ss, tx, rx, written).

#[global] Program Instance quic_abort_writer : AbortWriter SendStream S := {|
  aw_shutdown := ss_shutdown;
  aw_poll_shutdown := SendStream_poll_shutdown;
  aw_abort := send_reset ABORTED;
  aw_drop := SendStream_drop
|}.
Next Obligation.
  intros w s r w' s'. unfold SendStream_poll_shutdown.
  destruct (send_poll_shutdown s) as [[[[]|e]|] inner]; intros [= <- <- <-]; cbn; by destruct (ss_shutdown w).
Qed.
Next Obligation. done. Qed.

End streams.
End Quic.

(** ** TCP and Unix sockets *)

(** [TcpStream] and [UnixStream] *)
Class TcpSocket (A T : Type) := {
  tcp_connect : A → io_result T;
  tcp_set_nodelay : bool → T → io_result T;
  tcp_set_zero_linger : T → io_result T
}.

Section tcp.
Context {A T : Type} `{!TcpSocket A T, !AsyncStream T}.

(** The abort of the halves of [split] *)
Definition tcp_abort (stream : T) : T :=
  match tcp_set_zero_linger stream with Ok stream => stream | Err _ => stream end.

Record TcpClient := mkTcpClient { tc_addr : A; tc_nodelay : option bool; tc_zero_linger : bool }.

Definition TcpClient_from (addr : A) : TcpClient := mkTcpClient addr (Some true) false.
Definition TcpClient_nodelay (self : TcpClient) (nodelay : option bool) : TcpClient :=
  mkTcpClient (tc_addr self) nodelay (tc_zero_linger self).
Definition TcpClient_set_zero_linger (self : TcpClient) : TcpClient := mkTcpClient (tc_addr self) (tc_nodelay self) true.

(** The stream of an invocation, with the options of the client *)
Definition TcpClient_connect (self : TcpClient) : io_result T :=
  let? stream := tcp_connect (tc_addr self) in
  let? stream := match tc_nodelay self with Some nodelay => tcp_set_nodelay nodelay stream | None => Ok stream end in
  if tc_zero_linger self then tcp_set_zero_linger stream else Ok stream.

Definition TcpClient_invoke `{Leb128, CoreName}
    (write_all : Shared (T := T) * WriteHalf → bytes → bytes → io_result bytes)
    (self : TcpClient) (instance func params : bytes) :
    io_result (Outgoing * Shared (T := T) * ReadHalf * WriteHalf * bytes) :=
  let? stream := TcpClient_connect self in
  let '(sh, rx, tx) := split_halves stream in
  let? (outgoing, written) := invoke (write_all (sh, tx)) instance func params in
  Ok (outgoing, sh, rx, tx, written).

End tcp.
Arguments TcpClient : clear implicits.

Section unix.
Context {A T : Type} (connect : A → io_result T) `{!AsyncStream T}.

Definition unix_abort (stream : T) : T := stream.

Definition UnixClient_invoke `{Leb128, CoreName}
    (write_all : Shared (T := T) * WriteHalf → bytes → bytes → io_result bytes)
    (path : A) (instance func params : bytes) :
    io_result (Outgoing * Shared (T := T) * ReadHalf * WriteHalf * bytes) :=
  let? stream := connect path in
  let '(sh, rx, tx) := split_halves stream in
  let? (outgoing, written) := invoke (write_all (sh, tx)) instance func params in
  Ok (outgoing, sh, rx, tx, written).

End unix.

(** ** Sockets of WASI *)

(** [StreamError] *)
Inductive StreamError := StreamClosed | LastOperationFailed.

(** [None] of [out_write] is a trap of the host. *)
Class WasiStreams (I O Sock : Type) := {
  in_read : N → I → result StreamError bytes * I;
  out_check_write : O → result StreamError N * O;
  out_write : bytes → O → option (result StreamError unit * O);
  out_flush : O → result StreamError unit * O;
  sock_shutdown_receive : Sock → Sock;
  sock_shutdown_send : Sock → result StreamError unit * Sock
}.

(** What a poll yields: it waits, is ready, or panics *)
Inductive poll A :=
  | Pending
  | Ready (r : io_result A)
  | Panicked.
Arguments Pending {_}.
Arguments Ready {_} _.
Arguments Panicked {_}.

(** The pollables which were sent to the executor, by what they wait for; [None]
    once it is gone *)
Inductive pollable := PollRead | PollWrite.
Definition Pollables : Type := option (list pollable).

Definition send_pollable {A} (p : pollable) (ps : Pollables) : poll A * Pollables :=
  match ps with
  | Some ps => (Pending, Some (ps ++ [p]))
  | None => (Ready (Err Other), None)
  end.

Section wasi.
Context {I O Sock : Type} `{!WasiStreams I O Sock}.

(** [IncomingStream::poll_read] into a buffer with room for [n] bytes *)
Definition IncomingStream_poll_read (n : N) (rx : I) (ps : Pollables) : poll bytes * I * Pollables :=
  if (n =? 0)%N then (Ready (Ok []), rx, ps)
  else
    match in_read n rx with
    | (Ok chunk, rx) =>
        if decide (chunk = []) then let '(r, ps) := send_pollable PollRead ps in (r, rx, ps)
        else if (len chunk <=? n)%N then (Ready (Ok chunk), rx, ps) else (Panicked, rx, ps)
    | (Err StreamClosed, rx) => (Ready (Ok []), rx, ps)
    | (Err LastOperationFailed, rx) => (Ready (Err Other), rx, ps)
    end.

Definition IncomingStream_drop (socket : Sock) : Sock := sock_shutdown_receive socket.

(** [OutgoingStream::poll_write]; [usize] has 32 bits on this target. *)
Definition OutgoingStream_poll_write (buf : bytes) (tx : O) (ps : Pollables) : poll N * O * Pollables :=
  match out_check_write tx with
  | (Err _, tx) => (Ready (Err Other), tx, ps)
  | (Ok n, tx) =>
      if (n =? 0)%N then let '(r, ps) := send_pollable PollWrite ps in (r, tx, ps)
      else
        let n := if (n <=? u32_MAX)%N then N.min n (len buf) else len buf in
        match out_write (take (N.to_nat n) buf) tx with
        | None => (Panicked, tx, ps)
        | Some (Err _, tx) => (Ready (Err Other), tx, ps)
        | Some (Ok _, tx) => (Ready (Ok n), tx, ps)
        end
  end.

Definition OutgoingStream_poll_flush (tx : O) : poll unit * O :=
  match out_flush tx with
  | (Err _, tx) => (Ready (Err Other), tx)
  | (Ok _, tx) => (Ready (Ok tt), tx)
  end.

Definition OutgoingStream_poll_shutdown (tx : O) (socket : Sock) : poll unit * O * Sock :=
  match OutgoingStream_poll_flush tx with
  | (Ready (Ok _), tx) =>
      match sock_shutdown_send socket with
      | (Err _, socket) => (Ready (Err Other), tx, socket)
      | (Ok _, socket) => (Ready (Ok tt), tx, socket)
      end
  | (r, tx) => (r, tx, socket)
  end.

(** What [wasi:io] promises: [out_sent] is what was written, a read yields at most
    the bytes it asks for, and a write of at most the bytes which [check_write]
    permitted does not trap. *)
Class WasiLaws := {
  out_sent : O → bytes;
  in_read_len n rx chunk rx' : in_read n rx = (Ok chunk, rx') → (len chunk ≤ n)%N;
  out_check_sent tx r tx' : out_check_write tx = (r, tx') → out_sent tx' = out_sent tx;
  out_write_permitted tx n tx' buf :
    out_check_write tx = (Ok n, tx') → (len buf ≤ n)%N →
    ∃ r tx'', out_write buf tx' = Some (r, tx'') ∧ (r = Ok tt → out_sent tx'' = out_sent tx' ++ buf)
}.

(** [C25] Writes to a socket of WASI are within the contract of the host: a poll
    never makes it trap; it either sends some bytes from the start of the buffer
    and reports how many, none of them only if the buffer is empty, or waits
    after it sent the pollable which wakes it, with nothing sent, or fails.  A
    read never panics, and ends only at the end of the stream. *)
Theorem wasi_streams_respected `{!WasiLaws} buf tx ps n rx :
  (len buf ≤ u32_MAX)%N →
  (let '(r, tx', ps') := OutgoingStream_poll_write buf tx ps in
   match r with
   | Ready (Ok n) =>
       ps' = ps ∧ (n ≤ len buf)%N ∧ out_sent tx' = out_sent tx ++ take (N.to_nat n) buf ∧ (n = 0%N → buf = [])
   | Pending => ∃ ps0, ps = Some ps0 ∧ ps' = Some (ps0 ++ [PollWrite]) ∧ out_sent tx' = out_sent tx
   | Ready (Err e) => e = Other ∧ ps' = ps
   | Panicked => False
   end) ∧
  (let '(r, _, ps') := IncomingStream_poll_read n rx ps in
   match r with
   | Ready (Ok chunk) =>
       ps' = ps ∧ (len chunk ≤ n)%N ∧ (chunk = [] → n = 0%N ∨ (in_read n rx).1 = Err StreamClosed)
   | Pending => ∃ ps0, ps = Some ps0 ∧ ps' = Some (ps0 ++ [PollRead])
   | Ready (Err e) => e = Other ∧ ps' = ps
   | Panicked => False
   end).
Proof.
  intros Hmax. split.
  - unfold OutgoingStream_poll_write. destruct (out_check_write tx) as [[k|e] tx1] eqn:Ec; [|done].
    pose proof (out_check_sent _ _ _ Ec) as Hsame. destruct (N.eqb_spec k 0) as [->|Hk].
    { destruct ps; cbn; [by eexists|done]. }
    set (m := if (k <=? u32_MAX)%N then N.min k (len buf) else len buf).
    assert (m = N.min k (len buf)) as Hm by (unfold m; destruct (N.leb_spec k u32_MAX); lia).
    destruct (out_write_permitted tx k tx1 (take (N.to_nat m) buf) Ec) as (r & tx2 & -> & Hr).
    { unfold len. rewrite length_take. unfold len in Hm. lia. }
    destruct r as [[]|e]; [|done]. split_and!; [done|lia|by rewrite Hr, Hsame by done|].
    intros Hz. apply len_0. lia.
  - unfold IncomingStream_poll_read. destruct (N.eqb_spec n 0) as [->|Hn]; [split_and!; [done..|by left]|].
    destruct (in_read n rx) as [[chunk|[|]] rx1] eqn:Er; [|split_and!; [done|rewrite len_nil; lia|by right]|done].
    pose proof (in_read_len _ _ _ _ Er) as Hl. destruct (decide (chunk = [])) as [->|Hne].
    { destruct ps; cbn; [by eexists|done]. }
    destruct (N.leb_spec (len chunk) n); [|lia]. split_and!; [done..|]. by intros ->.
Qed.

End wasi.

(** ** Addresses of WASI clients *)

(** [rsplit_once] *)
Fixpoint rsplit_once (sep : byte) (s : bytes) : option (bytes * bytes) :=
  match s with
  | [] => None
  | b :: s' =>
      match rsplit_once sep s' with
      | Some (l, r) => Some (b :: l, r)
      | None => if decide (b = sep) then Some ([], s') else None
      end
  end.

Definition u16_MAX : N := 2 ^ 16 - 1.

(** [port.parse()] *)
Definition parse_u16 : bytes → result ParseIntError N := parse_uint u16_MAX.

Inductive IpAddress := Ipv4 (address : bytes) | Ipv6 (address : bytes).
Inductive IpAddressFamily := FamilyIpv4 | FamilyIpv6.

Inductive IpSocketAddress :=
  | Ipv4SocketAddress (port : N) (address : bytes)
  | Ipv6SocketAddress (port flow_info : N) (address : bytes) (scope_id : N).

(** The decimal digits of a port *)
Definition show_port (port : N) : bytes := show_digits 5 port [].

(** The socket address of an address and a port *)
Definition socket_address (port : N) (addr : IpAddress) : IpSocketAddress :=
  match addr with Ipv4 address => Ipv4SocketAddress port address | Ipv6 address => Ipv6SocketAddress port 0 address 0 end.

Lemma rsplit_once_none sep s : rsplit_once sep s = None ↔ sep ∉ s.
Proof.
  induction s as [|b s IH]; cbn; [split; [set_solver|done]|]. rewrite not_elem_of_cons, <- IH.
  destruct (rsplit_once sep s) as [[]|]; [split; [done|by intros []]|]. destruct (decide (b = sep)); naive_solver.
Qed.

Lemma rsplit_once_app sep l r : sep ∉ r → rsplit_once sep (l ++ sep :: r) = Some (l, r).
Proof.
  intros Hr%rsplit_once_none. induction l as [|b l IH]; cbn; [|by rewrite IH]. rewrite Hr. by rewrite decide_True.
Qed.

Lemma parse_show_port port : (port ≤ u16_MAX)%N → parse_u16 (show_port port) = Ok port ∧ x3a ∉ show_port port.
Proof.
  intros Hp. split; [apply parse_uint_show; [lia|unfold u16_MAX in Hp; cbn; lia|done]|].
  destruct (show_digits_digits 5 port []) as [Hb _]; [done|]. rewrite Forall_forall in Hb. by intros []%Hb.
Qed.

(** The contexts of the errors of an invocation *)
Inductive WasiInvokeError :=
  | AddressNotValid
  | PortNotValid
  | ResolveFailed
  | ResolveAddressFailed
  | CannotBeResolved
  | CreateSocketFailed
  | StartConnectionFailed
  | FinishConnectionFailed
  | WasiInvokeIo (e : ErrorKind).

Section wasi_client.
Context {E I O Sock : Type}.

(** [wasi:sockets]: the first address a name resolves to, if there is one, and
    the operations of sockets *)
Class WasiNetwork := {
  resolve_addresses : bytes → result E (result E (option IpAddress));
  create_tcp_socket : IpAddressFamily → result E Sock;
  start_connect : Sock → IpSocketAddress → result E Sock;
  finish_connect : Sock → result E (I * O)
}.

Context `{!WasiNetwork, Leb128, CoreName} (write_all : O → bytes → bytes → io_result bytes).

(** [finish_invoke]: the handle, the streams and what was written *)
Definition finish_invoke (socket : Sock) (instance func params : bytes) :
    result WasiInvokeError (Outgoing * I * O * bytes) :=
  let? (rx, tx) := map_err (λ _, FinishConnectionFailed) (finish_connect socket) in
  let? (outgoing, written) := map_err WasiInvokeIo (invoke (write_all tx) instance func params) in
  Ok (outgoing, rx, tx, written).

(** [invoke_ip] *)
Definition invoke_ip (addr : IpSocketAddress) (instance func params : bytes) :
    result WasiInvokeError (Outgoing * I * O * bytes) :=
  let family := match addr with Ipv4SocketAddress _ _ => FamilyIpv4 | Ipv6SocketAddress _ _ _ _ => FamilyIpv6 end in
  let? socket := map_err (λ _, CreateSocketFailed) (create_tcp_socket family) in
  let? socket := map_err (λ _, StartConnectionFailed) (start_connect socket addr) in
  finish_invoke socket instance func params.

(** [invoke_unresolved] *)
Definition invoke_unresolved (addr : bytes) (instance func params : bytes) :
    result WasiInvokeError (Outgoing * I * O * bytes) :=
  let? (addr, port) := ok_or AddressNotValid (rsplit_once x3a addr) in
  let? port := map_err (λ _, PortNotValid) (parse_u16 port) in
  let? addrs := map_err (λ _, ResolveFailed) (resolve_addresses addr) in
  let? addr := map_err (λ _, ResolveAddressFailed) addrs in
  let? addr := ok_or CannotBeResolved addr in
  let? (socket, addr) :=
    match addr with
    | Ipv4 address =>
        let? socket := map_err (λ _, CreateSocketFailed) (create_tcp_socket FamilyIpv4) in
        Ok (socket, Ipv4SocketAddress port address)
    | Ipv6 address =>
        let? socket := map_err (λ _, CreateSocketFailed) (create_tcp_socket FamilyIpv6) in
        Ok (socket, Ipv6SocketAddress port 0 address 0)
    end in
  let? socket := map_err (λ _, StartConnectionFailed) (start_connect socket addr) in
  finish_invoke socket instance func params.

(** [C99] A client of WASI connects to the address it names: that of a host and a
    port, with a colon between, even if the host has colons itself, is invoked on
    the first address which the host resolves to, with this port and on a socket
    of its family; it fails if the host does not resolve, and an address without
    a colon, or with a port which is not a number of 16 bits, is not valid. *)
Theorem wasi_address_invoked addr instance func params :
  (∀ host port, addr = host ++ x3a :: show_port port → (port ≤ u16_MAX)%N →
     invoke_unresolved addr instance func params =
     match resolve_addresses host with
     | Err _ => Err ResolveFailed
     | Ok (Err _) => Err ResolveAddressFailed
     | Ok (Ok None) => Err CannotBeResolved
     | Ok (Ok (Some ip)) => invoke_ip (socket_address port ip) instance func params
     end) ∧
  (x3a ∉ addr → invoke_unresolved addr instance func params = Err AddressNotValid) ∧
  (∀ host port e, addr = host ++ x3a :: port → x3a ∉ port → parse_u16 port = Err e →
     invoke_unresolved addr instance func params = Err PortNotValid).
Proof.
  unfold invoke_unresolved. split_and!.
  - intros host port -> Hp. destruct (parse_show_port port Hp) as [Hparse Hn].
    rewrite rsplit_once_app by done. cbn [ok_or map_err rbind]. rewrite Hparse. cbn [ok_or map_err rbind].
    destruct (resolve_addresses host) as [[[[a|a]|]|]|]; cbn; try done.
    + unfold invoke_ip. cbn. by destruct (create_tcp_socket FamilyIpv4).
    + unfold invoke_ip. cbn. by destruct (create_tcp_socket FamilyIpv6).
  - intros ->%rsplit_once_none. done.
  - intros host port e -> Hn Hparse. rewrite rsplit_once_app by done. cbn [ok_or map_err rbind]. by rewrite Hparse.
Qed.

End wasi_client.

(** ** Witnesses *)

(** Streams which permit three bytes at a time and keep what was written; a
    longer write traps. *)
#[local] Instance test_wasi : WasiStreams bytes bytes unit := {|
  in_read n rx := (Ok (take (N.to_nat n) rx), drop (N.to_nat n) rx);
  out_check_write tx := (Ok 3%N, tx);
  out_write buf tx := if (len buf <=? 3)%N then Some (Ok tt, tx ++ buf) else None;
  out_flush tx := (Ok tt, tx);
  sock_shutdown_receive s := s;
  sock_shutdown_send s := (Ok tt, s)
|}.

#[local] Program Instance test_wasi_laws : WasiLaws (I := bytes) (O := bytes) (Sock := unit) := {| out_sent tx := tx |}.
Next Obligation. intros n rx chunk rx' [= <- <-]. unfold len. rewrite length_take. lia. Qed.
Next Obligation. by intros tx r tx' [= <- <-]. Qed.
Next Obligation.
  intros tx n tx' buf [= <- <-] Hl. cbn. rewrite (proj2 (N.leb_le _ _)) by done. by eexists _, _.
Qed.

Lemma wasi_streams_respected_witness :
  OutgoingStream_poll_write [x01; x02; x03; x04; x05] ([] : bytes) (Some []) = (Ready (Ok 3%N), [x01; x02; x03], Some []) ∧
  (3 ≤ len [x01; x02; x03; x04; x05])%N.
Proof.
  pose proof (wasi_streams_respected [x01; x02; x03; x04; x05] ([] : bytes) (Some []) 0 ([] : bytes)
    ltac:(vm_compute; discriminate)) as (Hw & _).
  split; [by vm_compute|]. vm_compute in Hw |- *. apply Hw.
Defined.

(** A network whose only host is [::1] *)
#[local] Instance test_network : WasiNetwork (E := unit) (I := unit) (O := unit) (Sock := option IpSocketAddress) := {|
  resolve_addresses host := Ok (Ok (if decide (host = [x3a; x3a; x31]) then Some (Ipv6 [x01]) else None));
  create_tcp_socket _ := Ok None;
  start_connect _ addr := Ok (Some addr);
  finish_connect s := match s with Some (Ipv6SocketAddress 80 0 _ 0) => Ok (tt, tt) | _ => Err tt end
|}.

Lemma wasi_address_invoked_witness :
  @invoke_unresolved unit unit unit _ test_network leb128_std name_std (λ _ w b, Ok (w ++ b))
    [x3a; x3a; x31; x3a; x38; x30] test_instance test_func [] =
  @invoke_ip unit unit unit _ test_network leb128_std name_std (λ _ w b, Ok (w ++ b))
    (Ipv6SocketAddress 80 0 [x01] 0) test_instance test_func [].
Proof.
  destruct (@wasi_address_invoked unit unit unit _ test_network leb128_std name_std (λ _ w b, Ok (w ++ b))
    [x3a; x3a; x31; x3a; x38; x30] test_instance test_func []) as (Hi & _).
  by rewrite (Hi [x3a; x3a; x31] 80%N).
Defined.

(** A stream of QUIC which is its sequence of operations *)
#[local] Instance test_quic : QuicSend (list N) := {|
  send_poll_write buf s := (Some (Ok (len buf)), s);
  send_poll_flush s := (Some (Ok tt), s);
  send_poll_shutdown s := (Some (Ok tt), s);
  send_reset code s := s ++ [code]
|}.

Lemma dropped_writer_aborts_witness :
  aw_drop (Quic.mkSendStream false) ([] : list N) = [Quic.ABORTED] ∧
  aw_drop (Quic.mkSendStream true) ([] : list N) = [].
Proof.
  split.
  - exact (dropped_writer_aborts [] (Quic.mkSendStream false) ([] : list N) _ _ false eq_refl eq_refl).
  - exact (dropped_writer_aborts [OpShutdown] (Quic.mkSendStream false) ([] : list N) _ _ true eq_refl eq_refl).
Defined.
