(* ===== verification/WasmCodec.v ===== *)
(** * The codec of Wasmtime values

    Model of [crates/wasmtime/src/codec.rs]: [ValEncoder], which encodes a
    dynamically typed [Val] of a component and leaves the operations which send
    its futures and streams, and [read_value], which reads a value and creates
    the futures and streams of the component which receive their contents.

    Wasmtime is not part of the repository: the store of a component and its
    resource table, the resources, futures and streams are parameters ([Host]).
    A future of Wasmtime is seen through what its consumer reads, a stream
    through what each of the polls of its consumer is offered.  Types and values are
    those of Wasmtime; [Val] is parametric in what stands for its resources,
    futures and streams.  The feature [wasmtime-wasi], which is on by default,
    is on. *)

From S2P Require Import Prelude Wire FrameCodec Prims Wave Subscriptions Resolve Conn Delivery Egress.
From S2P Require Import Encode Pack Decode Values ValuesStd Transmit Resume Receive.

(** ** Effects *)

(** A computation on a state which may fail; the state survives a failure. *)
Definition ST (S E A : Type) : Type := S → result E A * S.

Definition ret {S E A} (a : A) : ST S E A := λ s, (Ok a, s).
Definition fail {S E A} (e : E) : ST S E A := λ s, (Err e, s).
Definition bind {S E A B} (m : ST S E A) (k : A → ST S E B) : ST S E B := λ s,
  match m s with
  | (Ok a, s) => k a s
  | (Err e, s) => (Err e, s)
  end.

Notation "'let!' x ':=' m 'in' k" := (bind m (λ x, k))
  (at level 10, x pattern, m at level 100, k at level 200) : wrpc_scope.

Lemma bind_ok {S E A B} (m : ST S E A) (k : A → ST S E B) s a s' :
  m s = (Ok a, s') → bind m k s = k a s'.
Proof. unfold bind. by intros ->. Qed.

(** ** Types and values *)

Inductive Type_ (RT : Type) :=
  | Type_Bool | Type_S8 | Type_U8 | Type_S16 | Type_U16 | Type_S32 | Type_U32 | Type_S64 | Type_U64
  | Type_Float32 | Type_Float64 | Type_Char | Type_String
  | Type_List (ty : Type_ RT)
  | Type_Record (fields : list (bytes * Type_ RT))
  | Type_Tuple (types : list (Type_ RT))
  | Type_Variant (cases : list (bytes * option (Type_ RT)))
  | Type_Enum (names : list bytes)
  | Type_Option (ty : Type_ RT)
  | Type_Result (ok err : option (Type_ RT))
  | Type_Flags (names : list bytes)
  | Type_Own (ty : RT)
  | Type_Borrow (ty : RT)
  | Type_Future (ty : option (Type_ RT))
  | Type_Stream (ty : option (Type_ RT))
  | Type_ErrorContext
  | Type_Map (key value : Type_ RT)
  | Type_FixedLengthList (ty : Type_ RT) (n : N).
Arguments Type_Bool {RT}. Arguments Type_S8 {RT}. Arguments Type_U8 {RT}. Arguments Type_S16 {RT}.
Arguments Type_U16 {RT}. Arguments Type_S32 {RT}. Arguments Type_U32 {RT}. Arguments Type_S64 {RT}.
Arguments Type_U64 {RT}. Arguments Type_Float32 {RT}. Arguments Type_Float64 {RT}.
Arguments Type_Char {RT}. Arguments Type_String {RT}. Arguments Type_List {RT}.
Arguments Type_Record {RT}. Arguments Type_Tuple {RT}. Arguments Type_Variant {RT}.
Arguments Type_Enum {RT}. Arguments Type_Option {RT}. Arguments Type_Result {RT}.
Arguments Type_Flags {RT}. Arguments Type_Own {RT}. Arguments Type_Borrow {RT}.
Arguments Type_Future {RT}. Arguments Type_Stream {RT}. Arguments Type_ErrorContext {RT}.
Arguments Type_Map {RT}. Arguments Type_FixedLengthList {RT}.

(** Floats are their bits, characters their code points. *)
Inductive Val (R F S : Type) :=
  | Val_Bool (b : bool)
  | Val_S8 (z : Z) | Val_U8 (b : byte) | Val_S16 (z : Z) | Val_U16 (n : N) | Val_S32 (z : Z)
  | Val_U32 (n : N) | Val_S64 (z : Z) | Val_U64 (n : N) | Val_Float32 (n : N) | Val_Float64 (n : N)
  | Val_Char (c : N)
  | Val_String (s : bytes)
  | Val_List (vs : list (Val R F S))
  | Val_Record (fields : list (bytes * Val R F S))
  | Val_Tuple (vs : list (Val R F S))
  | Val_Variant (case : bytes) (payload : option (Val R F S))
  | Val_Enum (case : bytes)
  | Val_Option (v : option (Val R F S))
  | Val_Result (ok : bool) (v : option (Val R F S))
  | Val_Flags (flags : list bytes)
  | Val_Resource (r : R)
  | Val_Future (f : F)
  | Val_Stream (s : S).
Arguments Val_Bool {R F S}. Arguments Val_S8 {R F S}. Arguments Val_U8 {R F S}. Arguments Val_S16 {R F S}.
Arguments Val_U16 {R F S}. Arguments Val_S32 {R F S}. Arguments Val_U32 {R F S}. Arguments Val_S64 {R F S}.
Arguments Val_U64 {R F S}. Arguments Val_Float32 {R F S}. Arguments Val_Float64 {R F S}.
Arguments Val_Char {R F S}. Arguments Val_String {R F S}. Arguments Val_List {R F S}.
Arguments Val_Record {R F S}. Arguments Val_Tuple {R F S}. Arguments Val_Variant {R F S}.
Arguments Val_Enum {R F S}. Arguments Val_Option {R F S}. Arguments Val_Result {R F S}.
Arguments Val_Flags {R F S}. Arguments Val_Resource {R F S}. Arguments Val_Future {R F S}.
Arguments Val_Stream {R F S}.

(** ** Payloads *)

(** The types which implement [Payload] *)
Inductive payload := PayUnit | PayU8 | PayPrim (p : prim).

Definition pay_ty (P : payload) : ty :=
  match P with PayUnit => TUnit | PayU8 => TU8 | PayPrim p => TPrim p end.

Abbreviation pay_val P := (val (pay_ty P)).

(** What decoders of payloads yield *)
Definition pay_dval (P : payload) : dval (pay_ty P) → val (pay_ty P) :=
  match P with PayUnit => λ v, v | PayU8 => λ v, v | PayPrim _ => λ v, v end.

Definition prim_from_val {R F S} (p : prim) : Val R F S → option (prim_val p) :=
  match p with
  | PBool => λ v, match v with Val_Bool v => Some v | _ => None end
  | PS8 => λ v, match v with Val_S8 v => Some v | _ => None end
  | PS16 => λ v, match v with Val_S16 v => Some v | _ => None end
  | PU16 => λ v, match v with Val_U16 v => Some v | _ => None end
  | PS32 => λ v, match v with Val_S32 v => Some v | _ => None end
  | PU32 => λ v, match v with Val_U32 v => Some v | _ => None end
  | PS64 => λ v, match v with Val_S64 v => Some v | _ => None end
  | PU64 => λ v, match v with Val_U64 v => Some v | _ => None end
  | PF32 => λ v, match v with Val_Float32 v => Some v | _ => None end
  | PF64 => λ v, match v with Val_Float64 v => Some v | _ => None end
  | PChar => λ v, match v with Val_Char v => Some v | _ => None end
  | PString => λ v, match v with Val_String v => Some v | _ => None end
  end.

(** [Payload::from_val] *)
Definition from_val {R F S} (P : payload) : option (Val R F S) → option (pay_val P) :=
  match P with
  | PayUnit => λ v, match v with None => Some tt | Some _ => None end
  | PayU8 => λ v, match v with Some (Val_U8 b) => Some b | _ => None end
  | PayPrim p => λ v, v ← v; prim_from_val p v
  end.

(** [with_payload!]; [None] is [$unsupported]. *)
Definition with_payload_some {RT} (ty : Type_ RT) : option payload :=
  match ty with
  | Type_Bool => Some (PayPrim PBool)
  | Type_S8 => Some (PayPrim PS8)
  | Type_U8 => Some PayU8
  | Type_S16 => Some (PayPrim PS16)
  | Type_U16 => Some (PayPrim PU16)
  | Type_S32 => Some (PayPrim PS32)
  | Type_U32 => Some (PayPrim PU32)
  | Type_S64 => Some (PayPrim PS64)
  | Type_U64 => Some (PayPrim PU64)
  | Type_Float32 => Some (PayPrim PF32)
  | Type_Float64 => Some (PayPrim PF64)
  | Type_Char => Some (PayPrim PChar)
  | Type_String => Some (PayPrim PString)
  | _ => None
  end.

Definition with_payload {RT} (ty : option (Type_ RT)) : option payload :=
  match ty with
  | None => Some PayUnit
  | Some ty => with_payload_some ty
  end.

(** ** Wasmtime *)

(** [Resource]: its index in the table, and whether it is owned *)
Record Resource := mkResource { res_rep : N; res_owned : bool }.

(** The reads of an input stream: those which do not wait, whether it is closed
    after them, and the later ones otherwise *)
Record InputReads := mkInputReads {
  in_now : list (result unit bytes);
  in_end : bool;
  in_later : list (result unit bytes)
}.

(** A future which is created: with a value, or with what the async block
    yields, which is [None] if it waits forever *)
Inductive future_source (P : payload) :=
  | FutureReady (v : pay_val P)
  | FutureReceived (v : option (pay_val P)).
Arguments FutureReady {P}. Arguments FutureReceived {P}.

(** A stream which is created: with a vector, or with a producer, by the chunks
    which it produces and whether it reports the end after them *)
Inductive stream_source (P : payload) :=
  | StreamVec (vs : list (pay_val P))
  | StreamProduced (chunks : list (list (pay_val P))) (ended : bool).
Arguments StreamVec {P}. Arguments StreamProduced {P}.

(** The operations of Wasmtime on the store of a component; [None] is an error.
    [now_v7 k] is the [k]-th identifier which is generated. *)
Class Host := {
  ResourceType : Type;
  ResourceType_eq_dec :: EqDecision ResourceType;
  ResourceAny : Type;
  FutureAny : Type;
  StreamAny : Type;
  InputStream : Type;
  Uuid : Type;
  Uuid_eq_dec :: EqDecision Uuid;
  Uuid_countable :: Countable Uuid;
  HostStore : Type;
  host_input_stream : ResourceType;
  host_remote : ResourceType;
  resource_ty : ResourceAny → ResourceType;
  try_into_resource : ResourceType → ResourceAny → HostStore → option Resource * HostStore;
  try_into_resource_any : ResourceType → N → HostStore → option ResourceAny * HostStore;
  table_delete_stream : N → HostStore → option InputStream * HostStore;
  table_get_stream : N → HostStore → option unit * HostStore;
  table_push_stream : InputStream → HostStore → option N * HostStore;
  table_delete_remote : N → HostStore → option bytes * HostStore;
  table_get_remote : N → HostStore → option bytes * HostStore;
  table_push_remote : bytes → HostStore → option N * HostStore;
  input_reads : InputStream → InputReads;
  memory_input_pipe : bytes → InputStream;
  async_read_stream : list (io_result bytes) → InputStream;
  uuid_to_bytes_le : Uuid → bytes;
  uuid_from_bytes_le : bytes → Uuid;
  now_v7 : N → Uuid;
  future_pipe : ∀ P, FutureAny → HostStore → option (option (pay_val P)) * HostStore;
  future_close : FutureAny → HostStore → option unit * HostStore;
  future_new : ∀ P, future_source P → HostStore → option FutureAny * HostStore;
  stream_pipe : ∀ P, StreamAny → HostStore → option (list (list (pay_val P))) * HostStore;
  stream_close : StreamAny → HostStore → option unit * HostStore;
  stream_new : ∀ P, stream_source P → HostStore → option StreamAny * HostStore
}.

Section codec.
Context `{Host}.

Abbreviation Ty := (Type_ ResourceType).
Abbreviation Value := (Val ResourceAny FutureAny StreamAny).

(** [ResourceTypes] *)
Record ResourceTypes := mkResourceTypes {
  rt_guest : list ResourceType;
  rt_io_streams : list ResourceType
}.

(** The store: that of Wasmtime, [SharedResourceTable], and the number of
    identifiers which were generated *)
Record Store := mkStore {
  st_host : HostStore;
  st_shared : gmap Uuid ResourceAny;
  st_ids : N
}.

Definition set_host (h : HostStore) (st : Store) : Store := mkStore h (st_shared st) (st_ids st).

(** ** Flags *)

(** [flag_bits] of a type of [w] bits *)
Definition flag_bits (w : N) (names flags : list bytes) : N :=
  (Wave.flag_bits_from 0 names flags mod 2 ^ w)%N.

Definition flags_cap (bits : nat) : nat :=
  let cap := bits / 8 in
  if bits mod 8 =? 0 then cap else S cap.

Definition encode_flags (names flags : list bytes) : bytes :=
  let n := length names in
  if n <=? 8 then le_bytes 1 (flag_bits 8 names flags)
  else if n <=? 16 then le_bytes 2 (flag_bits 16 names flags)
  else if n <=? 24 then take 3 (le_bytes 4 (flag_bits 32 names flags))
  else if n <=? 32 then le_bytes 4 (flag_bits 32 names flags)
  else if n <=? 40 then take 5 (le_bytes 8 (flag_bits 64 names flags))
  else if n <=? 48 then take 6 (le_bytes 8 (flag_bits 64 names flags))
  else if n <=? 56 then take 7 (le_bytes 8 (flag_bits 64 names flags))
  else if n <=? 64 then le_bytes 8 (flag_bits 64 names flags)
  else if n <=? 72 then take 9 (le_bytes 16 (flag_bits 128 names flags))
  else if n <=? 80 then take 10 (le_bytes 16 (flag_bits 128 names flags))
  else if n <=? 88 then take 11 (le_bytes 16 (flag_bits 128 names flags))
  else if n <=? 96 then take 12 (le_bytes 16 (flag_bits 128 names flags))
  else if n <=? 104 then take 13 (le_bytes 16 (flag_bits 128 names flags))
  else if n <=? 112 then take 14 (le_bytes 16 (flag_bits 128 names flags))
  else if n <=? 120 then take 15 (le_bytes 16 (flag_bits 128 names flags))
  else if n <=? 128 then le_bytes 16 (flag_bits 128 names flags)
  else byte_of_N <$> Wave.set_flags 0 names flags (replicate (flags_cap n) 0%N).

(** [read_flags] *)
Definition read_flags (n : nat) (rx : bytes) : io_result (N * bytes) :=
  let? (buf, rx) := read_exact (N.of_nat n) rx in
  Ok (of_le_bytes buf, rx).

(** [zip(0.., names)] with the bits of [flags] *)
Fixpoint flag_names (i : N) (names : list bytes) (flags : N) : list bytes :=
  match names with
  | [] => []
  | name :: names =>
      if N.testbit flags i then name :: flag_names (N.succ i) names flags
      else flag_names (N.succ i) names flags
  end.

(** The reader of flags, by the number of their names *)
Definition read_flags_value (names : list bytes) (rx : bytes) : io_result (list bytes * bytes) :=
  let n := length names in
  let bits k := let? (flags, rx) := read_flags k rx in Ok (flag_names 0 names flags, rx) in
  if n <=? 8 then bits 1
  else if n <=? 16 then bits 2
  else if n <=? 24 then bits 3
  else if n <=? 32 then bits 4
  else if n <=? 40 then bits 5
  else if n <=? 48 then bits 6
  else if n <=? 56 then bits 7
  else if n <=? 64 then bits 8
  else if n <=? 72 then bits 9
  else if n <=? 80 then bits 10
  else if n <=? 88 then bits 11
  else if n <=? 96 then bits 12
  else if n <=? 104 then bits 13
  else if n <=? 112 then bits 14
  else if n <=? 120 then bits 15
  else if n <=? 128 then bits 16
  else
    let? (buf, rx) := read_exact (N.of_nat (flags_cap n)) rx in
    Ok (Wave.flags_set 0 names buf, rx).

(** ** Encoding *)

(** What [ValEncoder::encode] fails with *)
Inductive EncodeError :=
  | TypeMismatch
  | UnsupportedType
  | LengthOverflow
  | FieldCount
  | UnknownDiscriminant
  | PayloadMissing
  | PayloadUnexpected
  | HostFailed
  | EncoderFailed (e : ErrorKind).

(** On the bytes which are written and the store *)
Abbreviation Enc := (ST (bytes * Store) EncodeError).

Definition put (bs : bytes) : Enc unit := λ s, (Ok tt, (s.1 ++ bs, s.2)).

(** A leaf without an operation *)
Definition put_sync (bs : bytes) : Enc (option OutgoingFn) := let! _ := put bs in ret None.

Definition on_host {A} (op : HostStore → option A * HostStore) : Enc A := λ s,
  match op (st_host s.2) with
  | (Some a, h) => (Ok a, (s.1, set_host h s.2))
  | (None, h) => (Err HostFailed, (s.1, set_host h s.2))
  end.

(** The result of an encoder which appends to the bytes *)
Definition put_encoded {A} (f : bytes → io_result (bytes * A)) : Enc A := λ s,
  match f s.1 with
  | Ok (dst, a) => (Ok a, (dst, s.2))
  | Err e => (Err (EncoderFailed e), s)
  end.

Definition find_enum_discriminant (names : list bytes) (discriminant : bytes) : option N :=
  (λ x, N.of_nat x.1) <$> list_find (λ name, name = discriminant) names.

Definition find_variant_discriminant (cases : list (bytes * option Ty)) (discriminant : bytes) :
    option (N * option Ty) :=
  (λ x, (N.of_nat x.1, x.2.2)) <$> list_find (λ c, c.1 = discriminant) cases.

Context `{Leb128, CoreName, ValueWire, PrimCodec} (flush : nat → bool).
Context `{CmEncoder OutgoingFn}.
#[local] Instance val_sink : Sink OutgoingFn := OutgoingSink flush.

(** [write_deferred] *)
Fixpoint write_deferred_from (i : N) (deferred : list (option OutgoingFn)) : OutgoingFn := λ w,
  match deferred with
  | [] => Ok []
  | None :: deferred => write_deferred_from (N.succ i) deferred w
  | Some f :: deferred =>
      let? w' := Outgoing_index w [i] in
      let? ws := f w' in
      let? rest := write_deferred_from (N.succ i) deferred w in
      Ok (ws ++ rest)
  end.

Definition write_deferred (deferred : list (option OutgoingFn)) : OutgoingFn :=
  write_deferred_from 0 deferred.

Definition deferred_any (deferred : list (option OutgoingFn)) : option OutgoingFn :=
  if existsb (λ d : option OutgoingFn, match d with Some _ => true | None => false end) deferred
  then Some (write_deferred deferred) else None.

(** The encoder of a payload *)
Definition pay_enc (P : payload) : Encode OutgoingFn (pay_val P) := encode_of (pay_ty P).

(** [encode_future]: the operation fails if the future is dropped. *)
Definition encode_future (P : payload) (future : FutureAny) : Enc (option OutgoingFn) := λ s,
  let offset := len s.1 in
  match on_host (future_pipe P future) s with
  | (Ok item, s) =>
      (Ok (Some (λ w,
         match item with
         | Some v => Outgoing_write_future (encode_enc (pay_enc P)) offset v w
         | None => Err Other
         end)), s)
  | (Err e, s) => (Err e, s)
  end.

(** What polling a consumer of a stream yields *)
Inductive StreamResult := Completed | Cancelled | Dropped.

(** [poll_consume] of the consumer of [encode_stream]: [reserve] is what
    [poll_reserve] yields, [None] being [Pending], [open] whether the receiver
    takes the chunk, and [source] what is offered.  The chunk which is sent is
    yielded as well; [None] is [Pending]. *)
Definition poll_consume {A} (reserve : option bool) (source : list A) (open finish : bool) :
    option StreamResult * option (list A) :=
  match reserve with
  | Some false => (Some Dropped, None)
  | None => if finish then (Some Cancelled, None) else (None, None)
  | Some true =>
      match source with
      | [] => (Some Completed, None)
      | _ => if open then (Some Completed, Some source) else (Some Dropped, None)
      end
  end.

(** The chunks of a stream which is consumed up to its end *)
Definition consume {A} (offers : list (list A)) : list (list A) :=
  omap (λ source, (poll_consume (Some true) source true false).2) offers.

(** [encode_stream] *)
Definition encode_stream (P : payload) (stream : StreamAny) : Enc (option OutgoingFn) := λ s,
  let offset := len s.1 in
  match on_host (stream_pipe P stream) s with
  | (Ok offers, s) =>
      (Ok (Some (Outgoing_write_stream flush (encode_enc (pay_enc P)) (ListEncoder (pay_enc P)) offset
         (consume offers))), s)
  | (Err e, s) => (Err e, s)
  end.

(** The loop of [try_unfold] on an input stream *)
Fixpoint unfold_reads (reads : list (result unit bytes)) : list (io_result bytes) :=
  match reads with
  | [] => []
  | Ok [] :: reads => unfold_reads reads
  | Ok buf :: reads => Ok buf :: unfold_reads reads
  | Err _ :: _ => [Err Other]
  end.

Definition input_reader (stream : InputStream) : Reader :=
  let r := input_reads stream in
  mkReader (unfold_reads (in_now r)) (in_end r) (unfold_reads (in_later r)).

Definition READ_CHUNK_SIZE : N := 8192.

(** Resources: input streams, remote resources, and resources of the guest *)
Definition encode_input_stream (resource : ResourceAny) : Enc (option OutgoingFn) :=
  let! stream := on_host (try_into_resource host_input_stream resource) in
  if res_owned stream then
    let! stream := on_host (table_delete_stream (res_rep stream)) in
    put_encoded (λ dst,
      let E := StreamEncoderRead READ_CHUNK_SIZE in
      let? (dst, s) := enc_encode E (enc_default E) (input_reader stream) dst in
      Ok (dst, (enc_take_deferred E s).1))
  else
    let! _ := on_host (table_get_stream (res_rep stream)) in
    fail UnsupportedType.

Definition encode_remote (resource : ResourceAny) : Enc (option OutgoingFn) :=
  let! resource := on_host (try_into_resource host_remote resource) in
  let! buf :=
    on_host (if res_owned resource then table_delete_remote (res_rep resource)
             else table_get_remote (res_rep resource)) in
  put_encoded (λ dst, let? dst := vec_bytes_encode OutgoingFn buf dst in Ok (dst, None)).

(** [Uuid::now_v7] *)
Definition new_id : Enc Uuid := λ s,
  (Ok (now_v7 (st_ids s.2)), (s.1, mkStore (st_host s.2) (st_shared s.2) (N.succ (st_ids s.2)))).

(** [shared_resources().0.insert] *)
Definition insert_shared (id : Uuid) (resource : ResourceAny) : Enc unit := λ s,
  (Ok tt, (s.1, mkStore (st_host s.2) (<[id := resource]> (st_shared s.2)) (st_ids s.2))).

Definition encode_guest (resource : ResourceAny) : Enc (option OutgoingFn) :=
  let! id := new_id in
  let! _ := put_encoded (λ dst,
    let? dst := vec_bytes_encode OutgoingFn (uuid_to_bytes_le id) dst in Ok (dst, tt)) in
  let! _ := insert_shared id resource in
  ret None.

Definition is_input_stream (types : ResourceTypes) (ty : ResourceType) : bool :=
  bool_decide (ty = host_input_stream) || bool_decide (ty ∈ rt_io_streams types).

Definition encode_resource (types : ResourceTypes) (ty : ResourceType) (resource : ResourceAny) :
    Enc (option OutgoingFn) :=
  if is_input_stream types ty then encode_input_stream resource
  else if decide (resource_ty resource = host_remote) then encode_remote resource
  else if decide (ty ∈ rt_guest types) then encode_guest resource
  else fail UnsupportedType.

(** The elements of a value, with their types; the operations of the elements
    are collected. *)
Fixpoint encode_list (f : Value → Enc (option OutgoingFn)) (vs : list Value) :
    Enc (list (option OutgoingFn)) :=
  match vs with
  | [] => ret []
  | v :: vs => let! d := f v in let! ds := encode_list f vs in ret (d :: ds)
  end.

Fixpoint encode_fields (f : Value → Ty → Enc (option OutgoingFn)) (vs : list (bytes * Value))
    (fields : list (bytes * Ty)) : Enc (list (option OutgoingFn)) :=
  match vs, fields with
  | (_, v) :: vs, (_, ty) :: fields =>
      let! d := f v ty in let! ds := encode_fields f vs fields in ret (d :: ds)
  | _, _ => ret []
  end.

Fixpoint encode_types (f : Value → Ty → Enc (option OutgoingFn)) (vs : list Value) (types : list Ty) :
    Enc (list (option OutgoingFn)) :=
  match vs, types with
  | v :: vs, ty :: types =>
      let! d := f v ty in let! ds := encode_types f vs types in ret (d :: ds)
  | _, _ => ret []
  end.

(** [Leb128Encoder] writes a discriminant alike at all of the widths, which are
    chosen by the number of cases. *)
Definition encode_variant (f : Value → Ty → Enc (option OutgoingFn)) (cases : list (bytes * option Ty))
    (case : bytes) (v : option Value) : Enc (option OutgoingFn) :=
  if (u32_MAX <? len cases)%N then fail LengthOverflow
  else
    match find_variant_discriminant cases case with
    | None => fail UnknownDiscriminant
    | Some (discriminant, ty) =>
        let! _ := put (leb_encode discriminant) in
        match v, ty with
        | Some v, Some ty => f v ty
        | Some _, None => fail PayloadUnexpected
        | None, Some _ => fail PayloadMissing
        | None, None => ret None
        end
    end.

Definition encode_enum (names : list bytes) (case : bytes) : Enc (option OutgoingFn) :=
  if (u32_MAX <? len names)%N then fail LengthOverflow
  else
    match find_enum_discriminant names case with
    | None => fail UnknownDiscriminant
    | Some discriminant => put_sync (leb_encode discriminant)
    end.

Definition encode_result (f : Value → Ty → Enc (option OutgoingFn)) (tag : byte) (ty : option Ty)
    (v : option Value) : Enc (option OutgoingFn) :=
  match v, ty with
  | Some v, Some ty => let! _ := put [tag] in f v ty
  | Some _, None => fail PayloadUnexpected
  | None, Some _ => fail PayloadMissing
  | None, None => put_sync [tag]
  end.

(** [Val::Future] and [Val::Stream]: a future or stream of an unsupported type
    is closed. *)
Definition encode_val_future (ty : option Ty) (future : FutureAny) : Enc (option OutgoingFn) :=
  match with_payload ty with
  | Some P =>
      let! deferred := encode_future P future in
      let! _ := put [x00] in
      ret deferred
  | None => let! _ := on_host (future_close future) in fail UnsupportedType
  end.

Definition encode_val_stream (ty : option Ty) (stream : StreamAny) : Enc (option OutgoingFn) :=
  match ty ≫= with_payload_some with
  | Some P =>
      let! deferred := encode_stream P stream in
      let! _ := put [x00] in
      ret deferred
  | None => let! _ := on_host (stream_close stream) in fail UnsupportedType
  end.

Definition encode_name (s : bytes) : Enc (option OutgoingFn) :=
  match name_encode s with
  | Ok e => put_sync e
  | Err e => fail (EncoderFailed e)
  end.

(** Values of other types *)
Definition mismatch {A} (ty : Ty) : Enc A :=
  match ty with
  | Type_ErrorContext | Type_Map _ _ | Type_FixedLengthList _ _ => fail UnsupportedType
  | _ => fail TypeMismatch
  end.

(** [ValEncoder::encode]: the operation is that of [deferred]. *)
Fixpoint encode (types : ResourceTypes) (v : Value) (ty : Ty) : Enc (option OutgoingFn) :=
  match v, ty with
  | Val_Bool b, Type_Bool => put_sync [byte_of_N (if b then 1 else 0)]
  | Val_S8 z, Type_S8 => put_sync [byte_of_Z z]
  | Val_U8 b, Type_U8 => put_sync [b]
  | Val_S16 z, Type_S16 => put_sync (sleb_encode z)
  | Val_U16 n, Type_U16 => put_sync (leb_encode n)
  | Val_S32 z, Type_S32 => put_sync (sleb_encode z)
  | Val_U32 n, Type_U32 => put_sync (leb_encode n)
  | Val_S64 z, Type_S64 => put_sync (sleb_encode z)
  | Val_U64 n, Type_U64 => put_sync (leb_encode n)
  | Val_Float32 n, Type_Float32 => put_sync (le_bytes 4 n)
  | Val_Float64 n, Type_Float64 => put_sync (le_bytes 8 n)
  | Val_Char c, Type_Char => put_sync (char_encode c)
  | Val_String s, Type_String => encode_name s
  | Val_List vs, Type_List ty =>
      match u32_try_from (len vs) with
      | Err _ => fail LengthOverflow
      | Ok n =>
          let! _ := put (leb_encode n) in
          let! deferred := encode_list (λ v, encode types v ty) vs in
          ret (deferred_any deferred)
      end
  | Val_Record vs, Type_Record fields =>
      if length vs =? length fields then
        let! deferred := encode_fields (encode types) vs fields in
        ret (deferred_any deferred)
      else fail FieldCount
  | Val_Tuple vs, Type_Tuple tys =>
      if length vs =? length tys then
        let! deferred := encode_types (encode types) vs tys in
        ret (deferred_any deferred)
      else fail FieldCount
  | Val_Variant case v, Type_Variant cases => encode_variant (encode types) cases case v
  | Val_Enum case, Type_Enum names => encode_enum names case
  | Val_Option None, Type_Option _ => put_sync [x00]
  | Val_Option (Some v), Type_Option ty => let! _ := put [x01] in encode types v ty
  | Val_Result ok v, Type_Result ok_ty err_ty =>
      if ok then encode_result (encode types) x00 ok_ty v
      else encode_result (encode types) x01 err_ty v
  | Val_Flags flags, Type_Flags names => put_sync (encode_flags names flags)
  | Val_Resource resource, Type_Own ty | Val_Resource resource, Type_Borrow ty =>
      encode_resource types ty resource
  | Val_Future future, Type_Future ty => encode_val_future ty future
  | Val_Stream stream, Type_Stream ty => encode_val_stream ty stream
  | _, ty => mismatch ty
  end.

(** ** Decoding *)

(** On the bytes which are left to read and the store *)
Abbreviation Rd := (ST (bytes * Store) ErrorKind).

Definition lift_read {A} (rd : bytes → io_result (A * bytes)) : Rd A := λ s,
  match rd s.1 with
  | Ok (a, rx) => (Ok a, (rx, s.2))
  | Err e => (Err e, s)
  end.

(** [with_store], with an error of Wasmtime as [e] *)
Definition with_store {A} (e : ErrorKind) (op : HostStore → option A * HostStore) : Rd A := λ s,
  match op (st_host s.2) with
  | (Some a, h) => (Ok a, (s.1, set_host h s.2))
  | (None, h) => (Err e, (s.1, set_host h s.2))
  end.

Context `{FramedRead} `{CmDecoder IncomingFn} (env : Env).

(** The decoders of a payload, and of its chunks *)
Definition pay_dec (P : payload) : Decode IncomingFn (dval (pay_ty P)) := decode_of (pay_ty P).

(** [r.index(path)]: an [Incoming] is a [BufferedIncoming] with no buffer. *)
Definition index_incoming (path : list N) : io_result BufferedIncoming :=
  let? rest := ok_or Other (env_data env path) in
  Ok (mkBufferedIncoming [] path rest).

(** The async block of [read_future]: [None] is [pending()]. *)
Definition receive_future_value (P : payload) (r : BufferedIncoming) : option (pay_val P) :=
  let Dec := decode_dec (pay_dec P) in
  match framed_next Dec (dec_default Dec) [] r with
  | (Some (Ok v), _, [], _) => Some (pay_dval P v)
  | _ => None
  end.

(** The state of the producer of [read_stream]: the [FramedRead], if there is
    one *)
Definition Producer (P : payload) : Type :=
  option (dec_state (decode_list (pay_dec P)) * bytes * BufferedIncoming).

(** [poll_produce]: [n] is the number of items the destination takes, and
    [ready] whether the [FramedRead] does not wait.  The chunk which the buffer
    is set to is yielded as well; [None] is [Pending]. *)
Definition poll_produce (P : payload) (n : option N) (ready finish : bool) (rx : Producer P) :
    option StreamResult * option (list (pay_val P)) * Producer P :=
  let waits rx := (if finish then Some Cancelled else None, None, rx) in
  if decide (n = Some 0%N) then (Some Completed, None, rx)
  else
    match rx with
    | None => waits None
    | Some (dec, buf, r) =>
        if ready then
          match framed_next (decode_list (pay_dec P)) dec buf r with
          | (Some (Ok []), _, [], _) => (Some Dropped, None, None)
          | (Some (Ok []), _, _, _) => waits None
          | (Some (Ok chunk), dec, buf, r) =>
              (Some Completed, Some (pay_dval P <$> chunk), Some (dec, buf, r))
          | (Some (Err _), _, _, _) => waits None
          | (None, _, _, _) => waits None
          end
        else waits rx
    end.

(** The chunks which a producer yields, and whether it reports the end.  Every
    chunk takes a byte: the length of the data is fuel enough. *)
Fixpoint produce (P : payload) (fuel : nat) (rx : Producer P) : list (list (pay_val P)) * bool :=
  match fuel with
  | O => ([], false)
  | S fuel =>
      match poll_produce P None true false rx with
      | (Some Completed, Some chunk, rx) =>
          let '(chunks, ended) := produce P fuel rx in (chunk :: chunks, ended)
      | (Some Dropped, _, _) => ([], true)
      | _ => ([], false)
      end
  end.

Definition receive_stream_chunks (P : payload) (r : BufferedIncoming) : stream_source P :=
  let '(chunks, ended) :=
    produce P (S (length (bi_data r)))
      (Some (dec_default (decode_list (pay_dec P)), [], r)) in
  StreamProduced chunks ended.

(** [read_payload] with the reader of values *)
Definition read_payload (read : Ty → Rd Value) (P : payload) (ty : option Ty) : Rd (pay_val P) :=
  let! v :=
    match ty with
    | Some ty => let! v := read ty in ret (Some v)
    | None => ret None
    end in
  match from_val P v with
  | Some v => ret v
  | None => fail Other
  end.

Definition read_future (read : Ty → Rd Value) (P : payload) (ty : option Ty) (path : list N) :
    Rd FutureAny :=
  let! status := lift_read read_option_status in
  if status then
    let! v := read_payload read P ty in
    with_store Other (future_new P (FutureReady v))
  else
    match index_incoming path with
    | Ok r => with_store Other (future_new P (FutureReceived (receive_future_value P r)))
    | Err e => fail e
    end.

Fixpoint read_times {A} (n : nat) (read : Rd A) : Rd (list A) :=
  match n with
  | O => ret []
  | S n => let! v := read in let! vs := read_times n read in ret (v :: vs)
  end.

Definition read_stream (read : Ty → Rd Value) (P : payload) (ty : Ty) (path : list N) : Rd StreamAny :=
  let! status := lift_read read_option_status in
  if status then
    let! n := lift_read (leb_read 32) in
    let! vs := read_times (N.to_nat n) (read_payload read P (Some ty)) in
    with_store Other (stream_new P (StreamVec vs))
  else
    match index_incoming path with
    | Ok r => with_store Other (stream_new P (receive_stream_chunks P r))
    | Err e => fail e
    end.

(** [read_bytes] *)
Definition read_bytes (rx : bytes) : io_result (bytes * bytes) :=
  let? (n, rx) := leb_read 32 rx in
  read_exact n rx.

(** The chunks of an input stream: the end is an empty chunk which nothing
    follows. *)
Fixpoint receive_input (fuel : nat) (dec : dec_state (vec_bytes_decoder (D := IncomingFn)))
    (buf : bytes) (r : BufferedIncoming) : list (io_result bytes) :=
  match fuel with
  | O => [Err Other]
  | S fuel =>
      match framed_next vec_bytes_decoder dec buf r with
      | (Some (Ok []), _, [], _) => []
      | (Some (Ok []), _, _, _) => [Err InvalidData]
      | (Some (Ok chunk), dec, buf, r) => Ok chunk :: receive_input fuel dec buf r
      | (Some (Err e), _, _, _) => [Err e]
      | (None, _, _, _) => [Err UnexpectedEof]
      end
  end.

Definition read_input_stream (path : list N) : Rd ResourceAny :=
  let! status := lift_read read_u8 in
  let! stream :=
    if decide (status = x00) then
      match index_incoming path with
      | Ok r =>
          ret (async_read_stream
            (receive_input (S (length (bi_data r))) (dec_default vec_bytes_decoder) [] r))
      | Err e => fail e
      end
    else if decide (status = x01) then
      let! buf := lift_read read_bytes in
      ret (memory_input_pipe buf)
    else fail InvalidData in
  let! res := with_store OutOfMemory (table_push_stream stream) in
  with_store Other (try_into_resource_any host_input_stream res).

(** [shared_resources().0.get] *)
Definition get_shared (id : Uuid) : Rd ResourceAny := λ s,
  match st_shared s.2 !! id with
  | Some resource => (Ok resource, s)
  | None => (Err NotFound, s)
  end.

Definition read_guest : Rd ResourceAny :=
  let! n := lift_read (leb_read 8) in
  if decide (n = 16%N) then
    let! id := lift_read (read_exact 16) in
    get_shared (uuid_from_bytes_le id)
  else fail InvalidInput.

Definition read_remote : Rd ResourceAny :=
  let! buf := lift_read read_bytes in
  let! res := with_store OutOfMemory (table_push_remote buf) in
  with_store Other (try_into_resource_any host_remote res).

Definition read_resource (types : ResourceTypes) (ty : ResourceType) (path : list N) : Rd ResourceAny :=
  if is_input_stream types ty then read_input_stream path
  else if decide (ty ∈ rt_guest types) then read_guest
  else read_remote.

(** The elements of a value from the index [i] *)
Fixpoint read_list (f : list N → Rd Value) (path : list N) (i : N) (n : nat) : Rd (list Value) :=
  match n with
  | O => ret []
  | S n =>
      let! v := f (path ++ [i]) in
      let! vs := read_list f path (N.succ i) n in
      ret (v :: vs)
  end.

Fixpoint read_fields (f : Ty → list N → Rd Value) (path : list N) (i : N)
    (fields : list (bytes * Ty)) : Rd (list (bytes * Value)) :=
  match fields with
  | [] => ret []
  | (name, ty) :: fields =>
      let! v := f ty (path ++ [i]) in
      let! vs := read_fields f path (N.succ i) fields in
      ret ((name, v) :: vs)
  end.

Fixpoint read_types (f : Ty → list N → Rd Value) (path : list N) (i : N) (types : list Ty) :
    Rd (list Value) :=
  match types with
  | [] => ret []
  | ty :: types =>
      let! v := f ty (path ++ [i]) in
      let! vs := read_types f path (N.succ i) types in
      ret (v :: vs)
  end.

Definition read_opt (f : Ty → list N → Rd Value) (path : list N) (ty : option Ty) : Rd (option Value) :=
  match ty with
  | Some ty => let! v := f ty path in ret (Some v)
  | None => ret None
  end.

(** [ty.cases().nth(discriminant)], and the payload *)
Fixpoint read_case (f : Ty → list N → Rd Value) (path : list N) (cases : list (bytes * option Ty))
    (discriminant : nat) : Rd Value :=
  match cases, discriminant with
  | [], _ => fail InvalidInput
  | (name, ty) :: _, O => let! v := read_opt f path ty in ret (Val_Variant name v)
  | _ :: cases, S discriminant => read_case f path cases discriminant
  end.

(** [read_value] *)
Fixpoint read_value (types : ResourceTypes) (ty : Ty) (path : list N) : Rd Value :=
  match ty with
  | Type_Bool => let! v := lift_read read_bool in ret (Val_Bool v)
  | Type_S8 => let! v := lift_read read_i8 in ret (Val_S8 v)
  | Type_U8 => let! v := lift_read read_u8 in ret (Val_U8 v)
  | Type_S16 => let! v := lift_read (sleb_read 16) in ret (Val_S16 v)
  | Type_U16 => let! v := lift_read (leb_read 16) in ret (Val_U16 v)
  | Type_S32 => let! v := lift_read (sleb_read 32) in ret (Val_S32 v)
  | Type_U32 => let! v := lift_read (leb_read 32) in ret (Val_U32 v)
  | Type_S64 => let! v := lift_read (sleb_read 64) in ret (Val_S64 v)
  | Type_U64 => let! v := lift_read (leb_read 64) in ret (Val_U64 v)
  | Type_Float32 => let! v := lift_read (read_le 4) in ret (Val_Float32 v)
  | Type_Float64 => let! v := lift_read (read_le 8) in ret (Val_Float64 v)
  | Type_Char => let! v := lift_read char_read in ret (Val_Char v)
  | Type_String => let! v := lift_read name_read in ret (Val_String v)
  | Type_List ty =>
      let! n := lift_read (leb_read 32) in
      let! vs := read_list (read_value types ty) path 0 (N.to_nat n) in
      ret (Val_List vs)
  | Type_Record fields =>
      let! vs := read_fields (read_value types) path 0 fields in
      ret (Val_Record vs)
  | Type_Tuple tys =>
      let! vs := read_types (read_value types) path 0 tys in
      ret (Val_Tuple vs)
  | Type_Variant cases =>
      let! discriminant := lift_read (leb_read 32) in
      read_case (read_value types) path cases (N.to_nat discriminant)
  | Type_Enum names =>
      let! discriminant := lift_read (leb_read 32) in
      match names !! N.to_nat discriminant with
      | Some name => ret (Val_Enum name)
      | None => fail InvalidInput
      end
  | Type_Option ty =>
      let! ok := lift_read read_option_status in
      if ok then let! v := read_value types ty path in ret (Val_Option (Some v))
      else ret (Val_Option None)
  | Type_Result ok_ty err_ty =>
      let! ok := lift_read read_result_status in
      if ok then let! v := read_opt (read_value types) path ok_ty in ret (Val_Result true v)
      else let! v := read_opt (read_value types) path err_ty in ret (Val_Result false v)
  | Type_Flags names => let! vs := lift_read (read_flags_value names) in ret (Val_Flags vs)
  | Type_Own ty | Type_Borrow ty =>
      let! resource := read_resource types ty path in ret (Val_Resource resource)
  | Type_Future payload =>
      match with_payload payload with
      | Some P =>
          let! future := read_future (λ ty, read_value types ty path) P payload path in
          ret (Val_Future future)
      | None => fail Unsupported
      end
  | Type_Stream None => fail Unsupported
  | Type_Stream (Some payload) =>
      match with_payload_some payload with
      | Some P =>
          let! stream := read_stream (λ ty, read_value types ty path) P payload path in
          ret (Val_Stream stream)
      | None => fail Unsupported
      end
  | Type_ErrorContext | Type_Map _ _ | Type_FixedLengthList _ _ => fail Unsupported
  end.

End codec.
