(* ===== verification/WasmValues.v ===== *)
(** * Exchange of Wasmtime values

    What the codec of [crates/wasmtime/src/codec.rs] ([WasmCodec]) promises: a
    value of a component is sent as a message, which is the value with what its
    resources, futures and streams carry in place of them ([exports]); the
    encoder appends the code of the message and its operation sends its traffic;
    the reader creates from the code and the traffic of a message the value
    which stands for it at the other side ([imports]). *)

From S2P Require Import Prelude Wire FrameCodec Prims Wave Subscriptions Resolve Conn Delivery Egress.
From S2P Require Import Introspect Encode Pack Decode Values ValuesStd Transmit Declared Resume Receive Exchange.
From S2P Require Import WasmCodec.

(** ** Messages *)

(** What a resource carries: its handle, or the contents of an input stream,
    which are ready or pending *)
Inductive handle :=
  | HBytes (buf : bytes)
  | HReady (buf : bytes)
  | HPending (chunks : list bytes).

Record future_msg := mkFutureMsg { fm_payload : payload; fm_item : pay_val fm_payload }.
Record stream_msg := mkStreamMsg { sm_payload : payload; sm_chunks : list (list (pay_val sm_payload)) }.

Abbreviation Msg := (Val handle future_msg stream_msg).

Definition opt_ind {A} (P : A → Prop) (f : ∀ a, P a) (o : option A) : from_option P True o :=
  match o with Some a => f a | None => I end.

(** Induction with the elements of values *)
Section val_ind.
Context {R F S : Type} (P : Val R F S → Prop).
Context (HBool : ∀ b, P (Val_Bool b)) (HS8 : ∀ z, P (Val_S8 z)) (HU8 : ∀ b, P (Val_U8 b)).
Context (HS16 : ∀ z, P (Val_S16 z)) (HU16 : ∀ n, P (Val_U16 n)) (HS32 : ∀ z, P (Val_S32 z)).
Context (HU32 : ∀ n, P (Val_U32 n)) (HS64 : ∀ z, P (Val_S64 z)) (HU64 : ∀ n, P (Val_U64 n)).
Context (HF32 : ∀ n, P (Val_Float32 n)) (HF64 : ∀ n, P (Val_Float64 n)) (HChar : ∀ c, P (Val_Char c)).
Context (HString : ∀ s, P (Val_String s)).
Context (HList : ∀ vs, Forall P vs → P (Val_List vs)).
Context (HRecord : ∀ vs, Forall P vs.*2 → P (Val_Record vs)).
Context (HTuple : ∀ vs, Forall P vs → P (Val_Tuple vs)).
Context (HVariant : ∀ c v, from_option P True v → P (Val_Variant c v)).
Context (HEnum : ∀ c, P (Val_Enum c)).
Context (HOption : ∀ v, from_option P True v → P (Val_Option v)).
Context (HResult : ∀ ok v, from_option P True v → P (Val_Result ok v)).
Context (HFlags : ∀ fs, P (Val_Flags fs)).
Context (HResource : ∀ r, P (Val_Resource r)) (HFuture : ∀ f, P (Val_Future f)).
Context (HStream : ∀ s, P (Val_Stream s)).

Fixpoint val_ind_nested (v : Val R F S) : P v :=
  let all := fix all vs : Forall P vs :=
    match vs with
    | [] => Forall_nil_2 P
    | v :: vs => Forall_cons_2 P v vs (val_ind_nested v) (all vs)
    end in
  match v with
  | Val_Bool b => HBool b | Val_S8 z => HS8 z | Val_U8 b => HU8 b | Val_S16 z => HS16 z
  | Val_U16 n => HU16 n | Val_S32 z => HS32 z | Val_U32 n => HU32 n | Val_S64 z => HS64 z
  | Val_U64 n => HU64 n | Val_Float32 n => HF32 n | Val_Float64 n => HF64 n | Val_Char c => HChar c
  | Val_String s => HString s
  | Val_List vs => HList vs (all vs)
  | Val_Record vs => HRecord vs ((fix go (vs : list (bytes * Val R F S)) : Forall P vs.*2 :=
      match vs with
      | [] => Forall_nil_2 P
      | (_, v) :: vs => Forall_cons_2 P v vs.*2 (val_ind_nested v) (go vs)
      end) vs)
  | Val_Tuple vs => HTuple vs (all vs)
  | Val_Variant c v => HVariant c v (opt_ind P val_ind_nested v)
  | Val_Enum c => HEnum c
  | Val_Option v => HOption v (opt_ind P val_ind_nested v)
  | Val_Result ok v => HResult ok v (opt_ind P val_ind_nested v)
  | Val_Flags fs => HFlags fs
  | Val_Resource r => HResource r
  | Val_Future f => HFuture f
  | Val_Stream s => HStream s
  end.
End val_ind.

(** A value without resources, futures and streams, as one with others *)
Definition leaf {R F S R' F' S'} (v : Val R F S) : option (Val R' F' S') :=
  match v with
  | Val_Bool b => Some (Val_Bool b) | Val_S8 z => Some (Val_S8 z) | Val_U8 b => Some (Val_U8 b)
  | Val_S16 z => Some (Val_S16 z) | Val_U16 n => Some (Val_U16 n) | Val_S32 z => Some (Val_S32 z)
  | Val_U32 n => Some (Val_U32 n) | Val_S64 z => Some (Val_S64 z) | Val_U64 n => Some (Val_U64 n)
  | Val_Float32 n => Some (Val_Float32 n) | Val_Float64 n => Some (Val_Float64 n)
  | Val_Char c => Some (Val_Char c) | Val_String s => Some (Val_String s)
  | Val_Enum c => Some (Val_Enum c) | Val_Flags fs => Some (Val_Flags fs)
  | _ => None
  end.

Section messages.
Context {RT : Type} `{Leb128, ValueWire, PrimCodec}.
Abbreviation Ty := (Type_ RT).

(** The elements of a message with their types *)
Fixpoint zip_codes (f : Msg → Ty → bytes) (ms : list Msg) (tys : list Ty) : bytes :=
  match ms, tys with
  | m :: ms, ty :: tys => f m ty ++ zip_codes f ms tys
  | _, _ => []
  end.

Fixpoint zip_field_codes (f : Msg → Ty → bytes) (ms : list (bytes * Msg)) (fields : list (bytes * Ty)) :
    bytes :=
  match ms, fields with
  | (_, m) :: ms, (_, ty) :: fields => f m ty ++ zip_field_codes f ms fields
  | _, _ => []
  end.

Definition case_index (case : bytes) (names : list bytes) : N :=
  from_option (λ x, N.of_nat x.1) 0%N (list_find (λ name, name = case) names).

Definition opt_code (f : Msg → Ty → bytes) (m : option Msg) (ty : option Ty) : bytes :=
  match m, ty with Some m, Some ty => f m ty | _, _ => [] end.

(** The code of a message: synchronous data, and placeholders *)
Fixpoint code (m : Msg) (ty : Ty) : bytes :=
  match m, ty with
  | Val_Bool b, _ => [byte_of_N (if b then 1 else 0)]
  | Val_S8 z, _ => [byte_of_Z z]
  | Val_U8 b, _ => [b]
  | Val_S16 z, _ | Val_S32 z, _ | Val_S64 z, _ => sleb_encode z
  | Val_U16 n, _ | Val_U32 n, _ | Val_U64 n, _ => leb_encode n
  | Val_Float32 n, _ => le_bytes 4 n
  | Val_Float64 n, _ => le_bytes 8 n
  | Val_Char c, _ => char_encode c
  | Val_String s, _ => leb_encode (len s) ++ s
  | Val_List ms, Type_List ty => leb_encode (len ms) ++ concat (map (λ m, code m ty) ms)
  | Val_Record ms, Type_Record fields => zip_field_codes code ms fields
  | Val_Tuple ms, Type_Tuple tys => zip_codes code ms tys
  | Val_Variant case m, Type_Variant cases =>
      leb_encode (case_index case cases.*1) ++
      opt_code code m (cases !! N.to_nat (case_index case cases.*1) ≫= snd)
  | Val_Enum case, Type_Enum names => leb_encode (case_index case names)
  | Val_Option None, _ => [x00]
  | Val_Option (Some m), Type_Option ty => x01 :: code m ty
  | Val_Result ok m, Type_Result ok_ty err_ty =>
      byte_of_N (if ok then 0 else 1) :: opt_code code m (if ok then ok_ty else err_ty)
  | Val_Flags flags, Type_Flags names => Wave.encode_flags names flags
  | Val_Resource (HBytes buf), _ => leb_encode (len buf) ++ buf
  | Val_Resource (HReady buf), _ => x01 :: leb_encode (len buf) ++ buf
  | Val_Resource (HPending _), _ => [x00]
  | Val_Future _, _ | Val_Stream _, _ => [x00]
  | _, _ => []
  end.

(** What is sent after the code *)
Fixpoint msg_traffic (m : Msg) : traffic :=
  match m with
  | Val_List ms | Val_Tuple ms => indexed 0 (map msg_traffic ms)
  | Val_Record ms => indexed 0 (map (λ x, msg_traffic x.2) ms)
  | Val_Variant _ (Some m) | Val_Option (Some m) | Val_Result _ (Some m) => msg_traffic m
  | Val_Resource (HPending chunks) => bytes_traffic chunks
  | Val_Future (mkFutureMsg P v) => streams (TFuture (pay_ty P)) (mkFuture false v)
  | Val_Stream (mkStreamMsg P chunks) => streams (TStream (pay_ty P)) (mkStream [] false chunks)
  | _ => []
  end.

Definition opt_ok {A B} (f : A → B → Prop) (m : option A) (ty : option B) : Prop :=
  match m, ty with Some m, Some ty => f m ty | None, None => True | _, _ => False end.

Fixpoint zip_ok {A B} (f : A → B → Prop) (ms : list A) (tys : list B) : Prop :=
  match ms, tys with
  | m :: ms, ty :: tys => f m ty ∧ zip_ok f ms tys
  | [], [] => True
  | _, _ => False
  end.

Fixpoint zip_fields_ok {A B} (f : A → B → Prop) (ms : list (bytes * A)) (fields : list (bytes * B)) :
    Prop :=
  match ms, fields with
  | (_, m) :: ms, (_, ty) :: fields => f m ty ∧ zip_fields_ok f ms fields
  | [], [] => True
  | _, _ => False
  end.

(** The message is one of the type: its integers and strings are those of the
    Rust types, and the lengths which are encoded fit [u32]. *)
Fixpoint msg_ok (m : Msg) (ty : Ty) : Prop :=
  match m, ty with
  | Val_Bool _, Type_Bool => True
  | Val_S8 z, Type_S8 => s_range 8 z
  | Val_U8 _, Type_U8 => True
  | Val_S16 z, Type_S16 => s_range 16 z
  | Val_U16 n, Type_U16 => (n < 2 ^ 16)%N
  | Val_S32 z, Type_S32 => s_range 32 z
  | Val_U32 n, Type_U32 => (n < 2 ^ 32)%N
  | Val_S64 z, Type_S64 => s_range 64 z
  | Val_U64 n, Type_U64 => (n < 2 ^ 64)%N
  | Val_Float32 n, Type_Float32 => (n < 2 ^ 32)%N
  | Val_Float64 n, Type_Float64 => (n < 2 ^ 64)%N
  | Val_Char c, Type_Char => is_char c = true
  | Val_String s, Type_String => utf8_valid s = true ∧ (len s ≤ u32_MAX)%N
  | Val_List ms, Type_List ty =>
      (len ms ≤ u32_MAX)%N ∧ foldr (λ m P, msg_ok m ty ∧ P) True ms
  | Val_Record ms, Type_Record fields => zip_fields_ok msg_ok ms fields
  | Val_Tuple ms, Type_Tuple tys => zip_ok msg_ok ms tys
  | Val_Variant case m, Type_Variant cases =>
      (len cases ≤ u32_MAX)%N ∧
      match list_find (λ name, name = case) cases.*1 with
      | Some (i, _) => opt_ok msg_ok m (cases !! i ≫= snd)
      | None => False
      end
  | Val_Enum case, Type_Enum names => (len names ≤ u32_MAX)%N ∧ case ∈ names
  | Val_Option None, Type_Option _ => True
  | Val_Option (Some m), Type_Option ty => msg_ok m ty
  | Val_Result ok m, Type_Result ok_ty err_ty => opt_ok msg_ok m (if ok then ok_ty else err_ty)
  | Val_Flags _, Type_Flags _ => True
  | Val_Resource (HBytes buf), Type_Own _ | Val_Resource (HBytes buf), Type_Borrow _
  | Val_Resource (HReady buf), Type_Own _ | Val_Resource (HReady buf), Type_Borrow _ =>
      (len buf ≤ u32_MAX)%N
  | Val_Resource (HPending chunks), Type_Own _ | Val_Resource (HPending chunks), Type_Borrow _ =>
      (len (concat chunks) ≤ u32_MAX)%N
  | Val_Future (mkFutureMsg P v), Type_Future ty => with_payload ty = Some P ∧ fits (pay_ty P) v
  | Val_Stream (mkStreamMsg P chunks), Type_Stream (Some ty) =>
      with_payload_some ty = Some P ∧ Forall (fits (pay_ty P)) (concat chunks) ∧
      (len (concat chunks) ≤ u32_MAX)%N ∧ Forall (.≠ []) chunks
  | _, _ => False
  end.

End messages.

Lemma zip_ok_list {A B} (f : A → B → Prop) vs ty :
  zip_ok f vs (replicate (length vs) ty) → foldr (λ v P, f v ty ∧ P) True vs.
Proof. induction vs as [|v vs IH]; [done|]. intros (Hv & Hvs). split; auto. Qed.

(** ** Flags *)

Lemma flags_cap_div n : flags_cap n = div_ceil n 8.
Proof.
  unfold flags_cap, div_ceil. pose proof (Nat.div_mod_eq n 8).
  pose proof (Nat.mod_upper_bound n 8 ltac:(done)).
  destruct (Nat.eqb_spec (n mod 8) 0) as [E|E].
  - replace (n + 8 - 1) with (n / 8 * 8 + 7) by lia. rewrite Nat.div_add_l by done. simpl. lia.
  - replace (n + 8 - 1) with ((n / 8 + 1) * 8 + (n mod 8 - 1)) by lia.
    rewrite Nat.div_add_l, (Nat.div_small (n mod 8 - 1)) by lia. lia.
Qed.

(** The encoder of flags is that of [crates/wave]. *)
Lemma encode_flags_wave names flags : encode_flags names flags = Wave.encode_flags names flags.
Proof.
  unfold encode_flags, Wave.encode_flags. by rewrite flags_cap_div.
Qed.

(** ** Sending *)

Section export.
Context `{Host} `{Leb128} {HL : Leb128Laws} `{CoreName} {HN : CoreNameLaws} `{ValueWire}.
Context `{PrimCodec} {HP : PrimLaws} (flush : nat → bool).
Context `{CmEncoder OutgoingFn} {HCM : CmEncoderLaws OutgoingFn}.
Context (types : ResourceTypes).
Abbreviation Ty := (Type_ ResourceType).
Abbreviation Value := (Val ResourceAny FutureAny StreamAny).

(** The type of a resource *)
Definition resource_of (ty : Ty) (rt : ResourceType) : Prop := ty = Type_Own rt ∨ ty = Type_Borrow rt.

(** The reads of an input stream do not fail, and fit [u32]. *)
Definition input_contents (stream : InputStream) (h : handle) : Prop :=
  ∃ now is_end later,
    input_reader stream = mkReader (Ok <$> now) is_end (Ok <$> later) ∧
    Forall (.≠ []) now ∧ Forall (.≠ []) later ∧
    (len (concat (now ++ later)) ≤ u32_MAX)%N ∧
    match read_ready READ_CHUNK_SIZE is_end [] (Ok <$> now) with
    | ReadEnd buf => h = HReady buf
    | ReadPending buf rest =>
        ∃ chunks, rest = Ok <$> chunks ∧
          h = HPending (buf :: chunks ++ (if is_end then [] else later))
    | ReadErr _ => False
    end.

(** The value of the type is sent as the message, in a store which becomes the
    other. *)
Inductive exports : Value → Ty → Store → Msg → Store → Prop :=
  | exports_leaf v ty st m : leaf v = Some m → msg_ok m ty → exports v ty st m st
  | exports_list vs ty st ms st' :
      (len vs ≤ u32_MAX)%N → exports_all vs (replicate (length vs) ty) st ms st' →
      exports (Val_List vs) (Type_List ty) st (Val_List ms) st'
  | exports_record vs fields st ms st' :
      exports_all vs.*2 fields.*2 st ms st' →
      exports (Val_Record vs) (Type_Record fields) st (Val_Record (zip vs.*1 ms)) st'
  | exports_tuple vs tys st ms st' :
      exports_all vs tys st ms st' → exports (Val_Tuple vs) (Type_Tuple tys) st (Val_Tuple ms) st'
  | exports_variant case v cases i ty st m st' :
      (len cases ≤ u32_MAX)%N → list_find (λ name, name = case) cases.*1 = Some (i, case) →
      cases !! i = Some (case, ty) → exports_opt v ty st m st' →
      exports (Val_Variant case v) (Type_Variant cases) st (Val_Variant case m) st'
  | exports_none ty st : exports (Val_Option None) (Type_Option ty) st (Val_Option None) st
  | exports_some v ty st m st' :
      exports v ty st m st' →
      exports (Val_Option (Some v)) (Type_Option ty) st (Val_Option (Some m)) st'
  | exports_result (ok : bool) v ok_ty err_ty st m st' :
      exports_opt v (if ok then ok_ty else err_ty) st m st' →
      exports (Val_Result ok v) (Type_Result ok_ty err_ty) st (Val_Result ok m) st'
  | exports_input r ty rt st rep h1 stream h2 h :
      resource_of ty rt → is_input_stream types rt = true →
      try_into_resource host_input_stream r (st_host st) = (Some (mkResource rep true), h1) →
      table_delete_stream rep h1 = (Some stream, h2) → input_contents stream h →
      exports (Val_Resource r) ty st (Val_Resource h) (set_host h2 st)
  | exports_remote r ty rt st rep owned h1 buf h2 :
      resource_of ty rt → is_input_stream types rt = false → resource_ty r = host_remote →
      try_into_resource host_remote r (st_host st) = (Some (mkResource rep owned), h1) →
      (if owned then table_delete_remote rep h1 else table_get_remote rep h1) = (Some buf, h2) →
      (len buf ≤ u32_MAX)%N →
      exports (Val_Resource r) ty st (Val_Resource (HBytes buf)) (set_host h2 st)
  | exports_guest r ty rt st id :
      resource_of ty rt → is_input_stream types rt = false → resource_ty r ≠ host_remote →
      rt ∈ rt_guest types → id = now_v7 (st_ids st) → (len (uuid_to_bytes_le id) ≤ u32_MAX)%N →
      exports (Val_Resource r) ty st (Val_Resource (HBytes (uuid_to_bytes_le id)))
        (mkStore (st_host st) (<[id := r]> (st_shared st)) (N.succ (st_ids st)))
  | exports_future f ty P st v h :
      with_payload ty = Some P → future_pipe P f (st_host st) = (Some (Some v), h) →
      fits (pay_ty P) v →
      exports (Val_Future f) (Type_Future ty) st (Val_Future (mkFutureMsg P v)) (set_host h st)
  | exports_stream s ty P st offers h :
      with_payload_some ty = Some P → stream_pipe P s (st_host st) = (Some offers, h) →
      Forall (fits (pay_ty P)) (concat offers) → (len (concat offers) ≤ u32_MAX)%N →
      exports (Val_Stream s) (Type_Stream (Some ty)) st
        (Val_Stream (mkStreamMsg P (filter (.≠ []) offers))) (set_host h st)
with exports_all : list Value → list Ty → Store → list Msg → Store → Prop :=
  | exports_nil st : exports_all [] [] st [] st
  | exports_cons v vs ty tys st m ms st1 st2 :
      exports v ty st m st1 → exports_all vs tys st1 ms st2 →
      exports_all (v :: vs) (ty :: tys) st (m :: ms) st2
with exports_opt : option Value → option Ty → Store → option Msg → Store → Prop :=
  | exports_opt_none st : exports_opt None None st None st
  | exports_opt_some v ty st m st' :
      exports v ty st m st' → exports_opt (Some v) (Some ty) st (Some m) st'.

Scheme exports_mut := Minimality for exports Sort Prop
  with exports_all_mut := Minimality for exports_all Sort Prop
  with exports_opt_mut := Minimality for exports_opt Sort Prop.
Combined Scheme exports_mutind from exports_mut, exports_all_mut, exports_opt_mut.

(** The encoder appends [e], in a store which becomes [st'], and its operation
    sends [tr]. *)
Definition encodes (m : ST (bytes * Store) EncodeError (option OutgoingFn)) (st : Store) (e : bytes)
    (tr : traffic) (st' : Store) : Prop :=
  ∀ dst, ∃ d, m (dst, st) = (Ok d, (dst ++ e, st')) ∧ delivers d tr.

Lemma put_sync_encodes e st : encodes (put_sync e) st e [] st.
Proof. intros dst. exists None. split; [done|apply delivers_none]. Qed.

Lemma put_encodes pre m st e tr st' :
  encodes m st e tr st' → encodes (bind (put pre) (λ _, m)) st (pre ++ e) tr st'.
Proof.
  intros Hm dst. destruct (Hm (dst ++ pre)) as (d & Hd & Ht). exists d. split; [|done].
  rewrite (bind_ok _ _ _ tt (dst ++ pre, st)) by done. by rewrite app_assoc.
Qed.

(** *** Elements *)

Lemma write_deferred_run w i ds futs :
  index_all w i ds = Ok futs → write_deferred_from i ds w = run_all futs.
Proof.
  revert i futs. induction ds as [|[f|] ds IH]; intros i futs Hf; cbn [index_all write_deferred_from] in *.
  - by injection Hf as <-.
  - destruct (Outgoing_index w [i]) as [w'|]; [|done]. cbn [rbind] in *.
    destruct (index_all w (N.succ i) ds) as [futs'|] eqn:E; [|done]. cbn [rbind] in Hf.
    injection Hf as <-. cbn [run_all]. by rewrite (IH _ _ E).
  - by apply IH.
Qed.

Lemma delivers_any ds trs : Forall2 delivers ds trs → delivers (deferred_any ds) (indexed 0 trs).
Proof.
  intros Hd. pose proof (delivers_all flush ds trs Hd) as (Hn & Hs).
  unfold deferred_all, deferred_any in *.
  replace (existsb (λ d : option OutgoingFn, match d with Some _ => true | None => false end) ds)
    with (existsb (λ d : option OutgoingFn, if d then true else false) ds) by done.
  destruct (existsb _ ds); [|by split].
  split; [by rewrite <- Hn|]. intros f o [= <-] Ho Hf. unfold write_deferred.
  destruct (index_all_transmits o 0 ds trs) as (futs & Hi & Ht); [done..|].
  by rewrite (write_deferred_run _ _ _ _ Hi).
Qed.

Definition encodes_all (m : ST (bytes * Store) EncodeError (list (option OutgoingFn))) (st : Store)
    (e : bytes) (trs : list traffic) (st' : Store) : Prop :=
  ∀ dst, ∃ ds, m (dst, st) = (Ok ds, (dst ++ e, st')) ∧ Forall2 delivers ds trs.

Lemma encodes_any m st e trs st' :
  encodes_all m st e trs st' →
  encodes (bind m (λ ds, ret (deferred_any ds))) st e (indexed 0 trs) st'.
Proof.
  intros Hm dst. destruct (Hm dst) as (ds & Hd & Ht). exists (deferred_any ds).
  split; [by rewrite (bind_ok _ _ _ _ _ Hd)|by apply delivers_any].
Qed.

Lemma encode_list_types (f : Value → Ty → ST (bytes * Store) EncodeError (option OutgoingFn)) vs ty s :
  encode_list (λ v, f v ty) vs s = encode_types f vs (replicate (length vs) ty) s.
Proof.
  revert s. induction vs as [|v vs IH]; intros s; [done|]. cbn [encode_list encode_types replicate length].
  unfold bind. destruct (f v ty s) as [[d|e] s']; [|done]. by rewrite IH.
Qed.

Lemma encode_fields_types (f : Value → Ty → ST (bytes * Store) EncodeError (option OutgoingFn)) vs fields s :
  encode_fields f vs fields s = encode_types f vs.*2 fields.*2 s.
Proof.
  revert fields s. induction vs as [|[n v] vs IH]; intros [|[n' ty] fields] s; try done.
  rewrite !fmap_cons. cbn [encode_fields encode_types snd]. unfold bind.
  destruct (f v ty s) as [[d|e] s']; [|done]. by rewrite IH.
Qed.

Lemma zip_codes_list (ms : list Msg) (ty : Ty) :
  zip_codes code ms (replicate (length ms) ty) = concat (map (λ m, code m ty) ms).
Proof. induction ms as [|m ms IH]; [done|]. cbn. by rewrite IH. Qed.

Lemma zip_codes_fields (names : list bytes) (ms : list Msg) (fields : list (bytes * Ty)) :
  length names = length ms →
  zip_field_codes code (zip names ms) fields = zip_codes code ms fields.*2.
Proof.
  revert names fields. induction ms as [|m ms IH]; intros [|n names] [|[n' ty] fields] Hl; try done.
  cbn. f_equal. apply IH. by injection Hl.
Qed.

Lemma zip_ok_fields (names : list bytes) (ms : list Msg) (fields : list (bytes * Ty)) :
  length names = length ms → zip_ok msg_ok ms fields.*2 → zip_fields_ok msg_ok (zip names ms) fields.
Proof.
  revert names fields. induction ms as [|m ms IH]; intros [|n names] [|[n' ty] fields] Hl Ho; try done.
  destruct Ho as (Hm & Ho). split; [done|]. apply IH; [by injection Hl|done].
Qed.

Lemma zip_traffic (names : list bytes) (ms : list Msg) :
  length names = length ms → map (λ x, msg_traffic x.2) (zip names ms) = map msg_traffic ms.
Proof.
  revert names. induction ms as [|m ms IH]; intros [|n names] Hl; try done. cbn. f_equal.
  apply IH. by injection Hl.
Qed.

(** *** Leaves *)

Lemma case_index_find case names i :
  list_find (λ name, name = case) names = Some (i, case) → case_index case names = N.of_nat i.
Proof. unfold case_index. by intros ->. Qed.

Lemma leaf_encodes v ty st m :
  leaf v = Some m → msg_ok m ty → encodes (encode flush types v ty) st (code m ty) (msg_traffic m) st.
Proof.
  destruct v; try done; intros [= <-]; destruct ty; try done; cbn [encode code msg_ok msg_traffic];
    intros Hm; try apply put_sync_encodes.
  - destruct Hm as (_ & Hlen). unfold encode_name. rewrite name_encode_fit by done. apply put_sync_encodes.
  - destruct Hm as (Hlen & Hin). unfold encode_enum.
    destruct (N.ltb_spec u32_MAX (len names)); [lia|].
    destruct (list_find_elem_of (λ name, name = case) names case Hin eq_refl) as ([i n] & Hf).
    unfold find_enum_discriminant, case_index. rewrite Hf. apply put_sync_encodes.
  - rewrite encode_flags_wave. apply put_sync_encodes.
Qed.

(** *** Futures and streams *)

Lemma on_host_ok {A} (op : HostStore → option A * HostStore) dst st a h :
  op (st_host st) = (Some a, h) → on_host op (dst, st) = (Ok a, (dst, set_host h st)).
Proof. unfold on_host. cbn [fst snd]. by intros ->. Qed.

Lemma future_encodes ty P f st v h :
  with_payload ty = Some P → future_pipe P f (st_host st) = (Some (Some v), h) → fits (pay_ty P) v →
  encodes (encode_val_future flush ty f) st [x00] (msg_traffic (Val_Future (mkFutureMsg P v)))
    (set_host h st).
Proof.
  intros HP' Hf Hv dst. unfold encode_val_future, encode_future. rewrite HP'. unfold bind.
  rewrite (on_host_ok _ dst st _ _ Hf). cbn [put ret fst snd]. eexists. split; [done|].
  cbn [msg_traffic]. apply delivers_some; [done|]. intros o Ho (_ & Hfit)%fit_traffic_own.
  apply (write_future_transmits (out_enc flush (pay_ty P)) _ v (part (pay_ty P) v)); [|done..].
  by apply sends_all.
Qed.

Lemma consume_filter {A} (offers : list (list A)) : consume offers = filter (.≠ []) offers.
Proof.
  induction offers as [|c offers IH]; [done|]. rewrite filter_cons.
  destruct c as [|x c]; [rewrite decide_False by tauto; exact IH|].
  rewrite decide_True by done. rewrite <- IH. done.
Qed.

Lemma stream_encodes ty P s st offers h :
  with_payload_some ty = Some P → stream_pipe P s (st_host st) = (Some offers, h) →
  Forall (fits (pay_ty P)) (concat offers) → (len (concat offers) ≤ u32_MAX)%N →
  encodes (encode_val_stream flush (Some ty) s) st [x00]
    (msg_traffic (Val_Stream (mkStreamMsg P (filter (.≠ []) offers)))) (set_host h st).
Proof.
  intros HP' Hs Hv Hlen dst. unfold encode_val_stream, encode_stream. cbn [mbind option_bind].
  rewrite HP'. unfold bind. rewrite (on_host_ok _ dst st _ _ Hs). cbn [put ret fst snd].
  eexists. split; [done|]. rewrite consume_filter. rewrite <- (concat_live offers) in Hv, Hlen.
  set (chunks := filter _ offers) in *. cbn [msg_traffic streams str_end str_now str_later concat].
  apply delivers_some; [done|]. intros o Ho (Hm & Hf)%fit_traffic_own.
  apply Forall_app in Hm as (Hm & _). rewrite Forall_fmap in Hm.
  unfold Outgoing_write_stream. unfold stream_traffic. cbn [map] in *. rewrite fmap_cons.
  apply (stream_loop_transmits flush (out_enc flush (pay_ty P)) o chunks
    (map (map (λ v, (plain (tokens (pay_ty P) v), streams (pay_ty P) v))) chunks) 0 0 [] [] []); try done.
  - clear Hm Hf Hlen. induction chunks as [|c chunks IH]; [constructor|]. cbn [concat] in Hv.
    apply Forall_app in Hv as (Hc & Hcs). cbn [map]. constructor; [|by apply IH].
    apply (parts_sends (pay_ty P)); [|done]. apply (sends_all flush (pay_ty P)).
  - by apply Forall_cons in Hm as (_ & Hm).
  - by apply len_chunks.
  - unfold u64_MAX, u32_MAX in *. lia.
  - apply transmits_nil.
  - constructor.
Qed.

(** *** Resources *)

#[local] Instance Ok_inj {E A} : Inj (=) (=) (@Ok E A).
Proof. by intros a b [= ->]. Qed.

(** What an input stream yields without waiting, up to the limit *)
Lemma read_ready_split max is_end ready now :
  Forall (.≠ []) now →
  match read_ready max is_end ready (Ok <$> now) with
  | ReadEnd buf => buf = ready ++ concat now
  | ReadPending buf rest =>
      ∃ chunks, rest = Ok <$> chunks ∧ Forall (.≠ []) chunks ∧ buf ++ concat chunks = ready ++ concat now
  | ReadErr _ => False
  end.
Proof.
  intros Hn. revert ready. induction Hn as [|c now Hc Hn IH]; intros ready.
  - cbn. destruct (_ =? 0)%N; [by exists []|]. destruct is_end; [by rewrite app_nil_r|by exists []].
  - rewrite fmap_cons. cbn [read_ready]. destruct (N.eqb_spec (max - len ready) 0) as [|Hm].
    { exists (c :: now). split; [done|]. split; [by constructor|done]. }
    destruct c as [|b c]; [done|]. set (chunk := b :: c) in *.
    destruct (N.leb_spec (len chunk) (max - len ready)) as [|Hlt].
    { specialize (IH (ready ++ chunk)). cbn [concat]. rewrite app_assoc. exact IH. }
    exists (drop (N.to_nat (max - len ready)) chunk :: now). split; [done|]. split.
    + constructor; [|done]. intros Hd%(f_equal length). rewrite length_drop in Hd.
      assert (N.to_nat (max - len ready) < length chunk) by (clear -Hlt; unfold len in Hlt at 2; lia).
      change (length []) with 0 in Hd. lia.
    + cbn [concat]. rewrite <- !app_assoc. f_equal. by rewrite app_assoc, take_drop.
Qed.

(** The data of the message is that of the stream. *)
Lemma input_contents_bound stream h :
  input_contents stream h →
  match h with
  | HBytes _ => False
  | HReady buf => (len buf ≤ u32_MAX)%N
  | HPending chunks => (len (concat chunks) ≤ u32_MAX)%N
  end.
Proof.
  intros (now & is_end & later & _ & Hn & _ & Hlen & Hh). rewrite concat_app, len_app in Hlen.
  pose proof (read_ready_split READ_CHUNK_SIZE is_end [] now Hn) as Hs.
  destruct (read_ready _ _ _ _) as [buf|buf rest|e]; [|..|done].
  - subst h buf. cbn [app]. lia.
  - destruct Hh as (chunks & -> & ->), Hs as (chunks' & Hc & _ & Hs).
    apply (inj (fmap Ok)) in Hc as <-. cbn [concat app] in *.
    rewrite concat_app, app_assoc, Hs, len_app. destruct is_end; cbn [concat]; rewrite ?len_nil; lia.
Qed.

Lemma input_encodes stream h st :
  input_contents stream h →
  encodes (put_encoded (λ dst,
      let E := @StreamEncoderRead _ (val_sink flush) _ READ_CHUNK_SIZE in
      let? (dst, s) := enc_encode E (enc_default E) (input_reader stream) dst in
      Ok (dst, (enc_take_deferred E s).1))) st
    (code (RT := ResourceType) (Val_Resource h) Type_Bool) (msg_traffic (Val_Resource h)) st.
Proof.
  intros Hi dst. pose proof (input_contents_bound _ _ Hi) as Hb.
  destruct Hi as (now & is_end & later & Hr & Hn & Hl & Hlen & Hh). unfold put_encoded. cbn [fst snd].
  rewrite Hr. cbn [StreamEncoderRead enc_encode enc_default enc_take_deferred rd_now rd_end rd_later].
  pose proof (read_ready_split READ_CHUNK_SIZE is_end [] now Hn) as Hs.
  destruct (read_ready _ _ _ _) as [buf|buf rest|e]; [|..|done].
  - subst h. cbn [app] in Hs.
    rewrite encode_ready_bytes_ok by (cbn [concat]; by rewrite app_nil_r). cbn [rbind concat fst snd].
    rewrite app_nil_r. exists None. split; [done|apply delivers_none].
  - destruct Hh as (chunks & -> & ->), Hs as (chunks' & Hc & Hne & _).
    apply (inj (fmap Ok)) in Hc as <-. cbn [rbind fst snd code msg_traffic].
    eexists. split; [done|]. apply delivers_some; [done|].
    intros o Ho (Hm & _)%fit_traffic_own. apply Forall_app in Hm as (Hm & _).
    rewrite Forall_fmap in Hm. apply write_stream_read_transmits; try done.
    + unfold Pack.reads. cbn [rd_now rd_end rd_later]. rewrite fmap_app. by destruct is_end.
    + apply Forall_app. split; [done|]. by destruct is_end.
    + by apply len_chunks.
Qed.

Lemma bytes_encodes buf st :
  (len buf ≤ u32_MAX)%N →
  encodes (put_encoded (λ dst, let? dst := vec_bytes_encode OutgoingFn buf dst in Ok (dst, None)))
    st (leb_encode (len buf) ++ buf) [] st.
Proof.
  intros Hlen dst. exists None. split; [|apply delivers_none]. unfold put_encoded. cbn [fst snd].
  rewrite vec_bytes_encode_spec, u32_try_from_fit by done. by cbn [rbind].
Qed.

Lemma code_resource h (ty ty' : Ty) :
  code (Val_Resource h) ty = code (Val_Resource h) ty'.
Proof. by destruct h. Qed.

Lemma encode_resource_of r ty rt :
  resource_of ty rt → encode flush types (Val_Resource r) ty = encode_resource flush types rt r.
Proof. by intros [->| ->]. Qed.

Lemma msg_ok_resource h ty rt :
  resource_of ty rt →
  match h with HBytes buf | HReady buf => (len buf ≤ u32_MAX)%N
  | HPending chunks => (len (concat chunks) ≤ u32_MAX)%N end → msg_ok (Val_Resource h) ty.
Proof. by intros [->| ->]; destruct h. Qed.

Lemma input_resource_encodes r ty rt st rep h1 stream h2 h :
  resource_of ty rt → is_input_stream types rt = true →
  try_into_resource host_input_stream r (st_host st) = (Some (mkResource rep true), h1) →
  table_delete_stream rep h1 = (Some stream, h2) → input_contents stream h →
  encodes (encode flush types (Val_Resource r) ty) st (code (Val_Resource h) ty)
    (msg_traffic (Val_Resource h)) (set_host h2 st).
Proof.
  intros Hty Hi Ht Hd Hc dst. rewrite (encode_resource_of _ _ _ Hty). unfold encode_resource. rewrite Hi.
  unfold encode_input_stream. rewrite (bind_ok _ _ _ _ _ (on_host_ok _ dst st _ _ Ht)). cbn [res_owned res_rep].
  rewrite (bind_ok _ _ _ _ _ (on_host_ok _ dst (set_host h1 st) _ _ Hd)).
  rewrite (code_resource _ ty Type_Bool). by apply (input_encodes stream).
Qed.

Lemma remote_encodes r ty rt st rep owned h1 buf h2 :
  resource_of ty rt → is_input_stream types rt = false → resource_ty r = host_remote →
  try_into_resource host_remote r (st_host st) = (Some (mkResource rep owned), h1) →
  (if owned then table_delete_remote rep h1 else table_get_remote rep h1) = (Some buf, h2) →
  (len buf ≤ u32_MAX)%N →
  encodes (encode flush types (Val_Resource r) ty) st (code (Val_Resource (HBytes buf)) ty) []
    (set_host h2 st).
Proof.
  intros Hty Hi Hr Ht Hd Hlen dst. rewrite (encode_resource_of _ _ _ Hty). unfold encode_resource.
  rewrite Hi, decide_True by done. unfold encode_remote.
  rewrite (bind_ok _ _ _ _ _ (on_host_ok _ dst st _ _ Ht)). cbn [res_owned res_rep].
  rewrite (bind_ok _ _ _ buf (dst, set_host h2 st)).
  - rewrite (code_resource _ ty Type_Bool). by apply bytes_encodes.
  - apply (on_host_ok _ dst (set_host h1 st)). by destruct owned.
Qed.

Lemma guest_encodes r ty rt st id :
  resource_of ty rt → is_input_stream types rt = false → resource_ty r ≠ host_remote →
  rt ∈ rt_guest types → id = now_v7 (st_ids st) → (len (uuid_to_bytes_le id) ≤ u32_MAX)%N →
  encodes (encode flush types (Val_Resource r) ty) st
    (code (Val_Resource (HBytes (uuid_to_bytes_le id))) ty) []
    (mkStore (st_host st) (<[id := r]> (st_shared st)) (N.succ (st_ids st))).
Proof.
  intros Hty Hi Hr Hg -> Hlen dst. rewrite (encode_resource_of _ _ _ Hty). unfold encode_resource.
  rewrite Hi, decide_False, decide_True by done. exists None. split; [|apply delivers_none].
  rewrite (code_resource _ ty Type_Bool). unfold encode_guest, bind, put_encoded. cbn [new_id fst snd st_ids].
  rewrite vec_bytes_encode_spec, u32_try_from_fit by done. by cbn.
Qed.

(** *** Values *)

Lemma find_variant_names (cases : list (bytes * option Ty)) case i ty :
  list_find (λ name, name = case) cases.*1 = Some (i, case) → cases !! i = Some (case, ty) →
  find_variant_discriminant cases case = Some (N.of_nat i, ty).
Proof.
  intros Hf Hi. unfold find_variant_discriminant. rewrite list_find_fmap in Hf.
  change ((λ name, name = case) ∘ fst) with (λ c : bytes * option Ty, c.1 = case) in Hf.
  destruct (list_find (λ c : bytes * option Ty, c.1 = case) cases) as [[j [c t]]|] eqn:E; [|done].
  injection Hf as -> _. apply list_find_Some in E as (Hj & _). rewrite Hi in Hj. by injection Hj as <- <-.
Qed.

Definition encodes_value (v : Value) (ty : Ty) (st : Store) (m : Msg) (st' : Store) : Prop :=
  msg_ok m ty ∧ encodes (encode flush types v ty) st (code m ty) (msg_traffic m) st'.

Definition encodes_values (vs : list Value) (tys : list Ty) (st : Store) (ms : list Msg) (st' : Store) :
    Prop :=
  length vs = length tys ∧ length ms = length tys ∧ zip_ok msg_ok ms tys ∧
  encodes_all (encode_types (encode flush types) vs tys) st (zip_codes code ms tys)
    (map msg_traffic ms) st'.

Definition encodes_opt (v : option Value) (ty : option Ty) (st : Store) (m : option Msg) (st' : Store) :
    Prop :=
  match v, ty, m with
  | Some v, Some ty, Some m => encodes_value v ty st m st'
  | None, None, None => st' = st
  | _, _, _ => False
  end.

Lemma encodes_values_cons v vs ty tys st m ms st1 st2 :
  encodes_value v ty st m st1 → encodes_values vs tys st1 ms st2 →
  encodes_values (v :: vs) (ty :: tys) st (m :: ms) st2.
Proof.
  intros (Hm & Hv) (Hl & Hl' & Hms & Hvs). split_and!; [simpl; lia|simpl; lia|done|].
  intros dst. cbn [encode_types zip_codes map].
  destruct (Hv dst) as (d & Hd & Ht). destruct (Hvs (dst ++ code m ty)) as (ds & Hds & Hts).
  exists (d :: ds). rewrite (bind_ok _ _ _ _ _ Hd), (bind_ok _ _ _ _ _ Hds), <- app_assoc.
  split; [done|]. by constructor.
Qed.

Lemma list_value vs ty st ms st' :
  (len vs ≤ u32_MAX)%N → encodes_values vs (replicate (length vs) ty) st ms st' →
  encodes_value (Val_List vs) (Type_List ty) st (Val_List ms) st'.
Proof.
  intros Hlen (_ & Hl & Hok & He). rewrite length_replicate in Hl.
  assert (len ms = len vs) as Hn by (unfold len; by rewrite Hl). rewrite <- Hl in Hok.
  split; [split; [by rewrite Hn|by apply zip_ok_list]|]. cbn [encode code msg_traffic].
  rewrite u32_try_from_fit by done. rewrite Hn, <- zip_codes_list, Hl. apply put_encodes, encodes_any.
  intros dst. rewrite encode_list_types. apply He.
Qed.

Lemma record_value vs fields st ms st' :
  encodes_values vs.*2 fields.*2 st ms st' →
  encodes_value (Val_Record vs) (Type_Record fields) st (Val_Record (zip vs.*1 ms)) st'.
Proof.
  intros (Hl & Hl' & Hok & He). rewrite !length_fmap in Hl. rewrite length_fmap in Hl'.
  assert (length vs.*1 = length ms) as Hn by (rewrite length_fmap; lia).
  split; [by apply zip_ok_fields|]. cbn [encode code msg_traffic]. rewrite Hl, Nat.eqb_refl.
  rewrite zip_codes_fields, zip_traffic by done. apply encodes_any.
  intros dst. rewrite encode_fields_types. apply He.
Qed.

Lemma variant_value case v cases i ty st m st' :
  (len cases ≤ u32_MAX)%N → list_find (λ name, name = case) cases.*1 = Some (i, case) →
  cases !! i = Some (case, ty) → encodes_opt v ty st m st' →
  encodes_value (Val_Variant case v) (Type_Variant cases) st (Val_Variant case m) st'.
Proof.
  intros Hlen Hf Hi Hv. split.
  - cbn [msg_ok]. split; [done|]. rewrite Hf, Hi. cbn [mbind option_bind snd].
    destruct v, ty, m; try done. by destruct Hv.
  - cbn [encode code]. unfold encode_variant. destruct (N.ltb_spec u32_MAX (len cases)); [lia|].
    rewrite (find_variant_names _ _ _ _ Hf Hi), (case_index_find _ _ _ Hf), Nat2N.id, Hi.
    cbn [mbind option_bind snd]. apply put_encodes.
    destruct v, ty, m; try done; cbn [opt_code msg_traffic]; [apply Hv|].
    cbn [encodes_opt] in Hv. subst st'. intros dst. exists None. rewrite app_nil_r.
    split; [done|apply delivers_none].
Qed.

Lemma result_value (ok : bool) v ok_ty err_ty st m st' :
  encodes_opt v (if ok then ok_ty else err_ty) st m st' →
  encodes_value (Val_Result ok v) (Type_Result ok_ty err_ty) st (Val_Result ok m) st'.
Proof.
  intros Hv. unfold encodes_value. cbn [msg_ok encode code].
  assert (∀ ty, encodes_opt v ty st m st' → opt_ok msg_ok m ty ∧
    encodes (encode_result (encode flush types) (byte_of_N (if ok then 0 else 1)) ty v) st
      (byte_of_N (if ok then 0 else 1) :: opt_code code m ty)
      (msg_traffic (Val_Result ok m)) st') as Hr.
  { intros ty Ht. destruct v, ty, m; try done; cbn [encodes_opt opt_ok encode_result opt_code msg_traffic] in *.
    - destruct Ht as (Hm & Ht). split; [done|]. by apply (put_encodes [_]).
    - subst st'. split; [done|]. apply put_sync_encodes. }
  by destruct ok; apply Hr.
Qed.

Lemma exports_encode :
  (∀ v ty st m st', exports v ty st m st' → encodes_value v ty st m st') ∧
  (∀ vs tys st ms st', exports_all vs tys st ms st' → encodes_values vs tys st ms st') ∧
  (∀ v ty st m st', exports_opt v ty st m st' → encodes_opt v ty st m st').
Proof.
  apply exports_mutind.
  - intros v ty st m Hl Hm. split; [done|by apply leaf_encodes].
  - intros vs ty st ms st' Hlen _. by apply list_value.
  - intros vs fields st ms st' _. apply record_value.
  - intros vs tys st ms st' _ (Hl & _ & Hok & He). split; [done|]. cbn [encode].
    rewrite Hl, Nat.eqb_refl. by apply encodes_any.
  - intros case v cases i ty st m st' Hlen Hf Hi _. by apply variant_value with (i := i) (ty := ty).
  - intros ty st. split; [done|apply put_sync_encodes].
  - intros v ty st m st' _ (Hm & Hv). split; [done|]. by apply (put_encodes [x01]).
  - intros ok v ok_ty err_ty st m st' _. apply result_value.
  - intros r ty rt st rep h1 stream h2 h Hty Hi Ht Hd Hc. split.
    + eapply msg_ok_resource; [done|]. pose proof (input_contents_bound _ _ Hc). by destruct h.
    + by eapply input_resource_encodes.
  - intros. split; [by eapply msg_ok_resource|by eapply remote_encodes].
  - intros. split; [by eapply msg_ok_resource|by eapply guest_encodes].
  - intros f ty P st v h HP' Hf Hv. split; [done|]. by apply future_encodes.
  - intros s ty P st offers h HP' Hs Hv Hlen. split; [|by apply stream_encodes].
    cbn [msg_ok]. rewrite concat_live. split_and!; try done. apply Forall_forall.
    by intros c (? & _)%list_elem_of_filter.
  - intros st. split_and!; try done. intros dst. exists []. by rewrite app_nil_r.
  - intros. by eapply encodes_values_cons.
  - done.
  - done.
Qed.

End export.

(** ** Receiving *)

Section import.
Context `{Host} (types : ResourceTypes).
Abbreviation Ty := (Type_ ResourceType).
Abbreviation Value := (Val ResourceAny FutureAny StreamAny).

(** The value which stands for the message is created in a store which becomes
    the other. *)
Inductive imports : Msg → Ty → Store → Value → Store → Prop :=
  | imports_leaf m ty st v :
      leaf m = Some v → (∀ flags, m ≠ Val_Flags flags) → imports m ty st v st
  | imports_flags flags names st :
      imports (Val_Flags flags) (Type_Flags names) st (Val_Flags (filter (.∈ flags) names)) st
  | imports_list ms ty st vs st' :
      imports_all ms (replicate (length ms) ty) st vs st' →
      imports (Val_List ms) (Type_List ty) st (Val_List vs) st'
  | imports_record ms fields st vs st' :
      imports_all ms.*2 fields.*2 st vs st' →
      imports (Val_Record ms) (Type_Record fields) st (Val_Record (zip fields.*1 vs)) st'
  | imports_tuple ms tys st vs st' :
      imports_all ms tys st vs st' → imports (Val_Tuple ms) (Type_Tuple tys) st (Val_Tuple vs) st'
  | imports_variant case m cases i ty st v st' :
      list_find (λ name, name = case) cases.*1 = Some (i, case) → cases !! i = Some (case, ty) →
      imports_opt m ty st v st' →
      imports (Val_Variant case m) (Type_Variant cases) st (Val_Variant case v) st'
  | imports_none ty st : imports (Val_Option None) (Type_Option ty) st (Val_Option None) st
  | imports_some m ty st v st' :
      imports m ty st v st' →
      imports (Val_Option (Some m)) (Type_Option ty) st (Val_Option (Some v)) st'
  | imports_result (ok : bool) m ok_ty err_ty st v st' :
      imports_opt m (if ok then ok_ty else err_ty) st v st' →
      imports (Val_Result ok m) (Type_Result ok_ty err_ty) st (Val_Result ok v) st'
  | imports_input h ty rt st stream rep h1 r h2 :
      resource_of ty rt → is_input_stream types rt = true →
      match h with
      | HBytes _ => False
      | HReady buf => stream = memory_input_pipe buf
      | HPending chunks => stream = async_read_stream (Ok <$> live_bytes chunks)
      end →
      table_push_stream stream (st_host st) = (Some rep, h1) →
      try_into_resource_any host_input_stream rep h1 = (Some r, h2) →
      imports (Val_Resource h) ty st (Val_Resource r) (set_host h2 st)
  | imports_guest buf ty rt st r :
      resource_of ty rt → is_input_stream types rt = false → rt ∈ rt_guest types → len buf = 16%N →
      st_shared st !! uuid_from_bytes_le buf = Some r →
      imports (Val_Resource (HBytes buf)) ty st (Val_Resource r) st
  | imports_remote buf ty rt st rep h1 r h2 :
      resource_of ty rt → is_input_stream types rt = false → rt ∉ rt_guest types →
      table_push_remote buf (st_host st) = (Some rep, h1) →
      try_into_resource_any host_remote rep h1 = (Some r, h2) →
      imports (Val_Resource (HBytes buf)) ty st (Val_Resource r) (set_host h2 st)
  | imports_future P item ty st f h :
      future_new P (FutureReceived (Some item)) (st_host st) = (Some f, h) →
      imports (Val_Future (mkFutureMsg P item)) ty st (Val_Future f) (set_host h st)
  | imports_stream P chunks ty st s h :
      stream_new P (StreamProduced chunks true) (st_host st) = (Some s, h) →
      imports (Val_Stream (mkStreamMsg P chunks)) ty st (Val_Stream s) (set_host h st)
with imports_all : list Msg → list Ty → Store → list Value → Store → Prop :=
  | imports_nil st : imports_all [] [] st [] st
  | imports_cons m ms ty tys st v vs st1 st2 :
      imports m ty st v st1 → imports_all ms tys st1 vs st2 →
      imports_all (m :: ms) (ty :: tys) st (v :: vs) st2
with imports_opt : option Msg → option Ty → Store → option Value → Store → Prop :=
  | imports_opt_none st : imports_opt None None st None st
  | imports_opt_some m ty st v st' :
      imports m ty st v st' → imports_opt (Some m) (Some ty) st (Some v) st'.

Scheme imports_mut := Minimality for imports Sort Prop
  with imports_all_mut := Minimality for imports_all Sort Prop
  with imports_opt_mut := Minimality for imports_opt Sort Prop.
Combined Scheme imports_mutind from imports_mut, imports_all_mut, imports_opt_mut.

Context `{Leb128} {HL : Leb128Laws} `{CoreName} `{ValueWire} {HV : ValueWireLaws}.
Context `{PrimCodec} {HP : PrimLaws} {HPR : PrimResume} `{FramedRead} {HF : FramedReadLaws}.
Context `{CmDecoder IncomingFn} {HCM : CmDecoderLaws IncomingFn} {HR : CmDecoderResume IncomingFn}.
Context (env : Env).

(** The data of the traffic is received on its paths within [path]. *)
Definition supplied_at (path : list N) (tr : traffic) : Prop :=
  ∀ q, q ∈ tr.*1 → ∃ cs, env_data env (path ++ q) = Some cs ∧ concat cs = content [] tr q.

Lemma supplied_at_cons path i tr trs :
  supplied_at path (indexed i (tr :: trs)) →
  supplied_at (path ++ [i]) tr ∧ supplied_at path (indexed (N.succ i) trs).
Proof.
  intros Hs. cbn [indexed] in Hs. split.
  - intros q Hq. destruct (Hs (i :: q)) as (cs & He & Hc).
    { rewrite (fmap_app fst). apply elem_of_app. left. unfold push.
      apply list_elem_of_fmap in Hq as (x & -> & Hx). apply list_elem_of_fmap.
      exists (i :: x.1, x.2). split; [done|]. apply list_elem_of_fmap. eauto. }
    exists cs. rewrite <- app_assoc. split; [done|].
    by rewrite Hc, content_app, content_push_same, content_indexed_lt, app_nil_r by lia.
  - intros q Hq. destruct (Hs q) as (cs & He & Hc).
    { rewrite (fmap_app fst). apply elem_of_app. by right. }
    exists cs. split; [done|]. rewrite Hc, content_app.
    apply list_elem_of_fmap in Hq as (x & -> & Hx).
    destruct (indexed_declared (λ j _, (N.succ i ≤ j)%N) (N.succ i) trs) with (x := x)
      as (j & p & -> & Hj); [intros; lia|done|].
    by rewrite content_push_ne by lia.
Qed.

(** What a pending part reads *)
Lemma supplied_at_own path ds tr :
  supplied_at path (([], ds) :: tr) → away tr →
  ∃ r, index_incoming env path = Ok r ∧ bi_data r = concat ds ∧ bi_path r = path.
Proof.
  intros Hs Ha. destruct (Hs []) as (cs & He & Hc); [by left|]. rewrite app_nil_r in He.
  exists (mkBufferedIncoming [] path cs). unfold index_incoming. rewrite He.
  split; [done|]. split; [|done]. unfold bi_data. cbn [bi_buffer bi_rest app].
  by rewrite Hc, content_own, content_away, app_nil_r by done.
Qed.

(** *** Payloads *)

Lemma pay_streams P v : streams (pay_ty P) v = [].
Proof. by destruct P. Qed.

Lemma pay_shallow P v : pay_dval P (shallow (pay_ty P) v) = v.
Proof. by destruct P. Qed.

Lemma pay_shallow_all P vs : pay_dval P <$> map (shallow (pay_ty P)) vs = vs.
Proof. induction vs as [|v vs IH]; [done|]. cbn [map]. by rewrite fmap_cons, pay_shallow, IH. Qed.

Lemma pay_future_received P v r :
  fits (pay_ty P) v → bi_data r = plain (tokens (pay_ty P) v) → receive_future_value P r = Some v.
Proof.
  intros Hv Hr. destruct (proj1 (gets_all (pay_ty P)) v Hv) as (d & Hc & _).
  cbn [item_of fst el_code el_val el_deferred] in Hc.
  destruct (framed_next_value _ _ _ _ [] r _ _ [] Hc) as (s' & buf & r' & Hf & _ & Hb & _).
  { cbn [app]. by rewrite app_nil_r. }
  unfold receive_future_value. change (decode_dec (pay_dec P)) with (in_dec (pay_ty P)). rewrite Hf.
  apply app_nil in Hb as (-> & _). by rewrite pay_shallow.
Qed.

(** The decoder of chunks is as it was after a chunk. *)
Lemma pay_list_default P s d :
  dec_take_deferred (decode_list (pay_dec P)) s = (d, dec_default (decode_list (pay_dec P))) →
  s = dec_default (decode_list (pay_dec P)).
Proof. destruct P; cbn; by intros [= _ ->]. Qed.

Lemma pay_chunk_next P vs buf r rest :
  Forall (fits (pay_ty P)) vs → (len vs ≤ u32_MAX)%N →
  buf ++ bi_data r = (leb_encode (len vs) ++ concat (map (λ v, plain (tokens (pay_ty P) v)) vs)) ++ rest →
  ∃ buf' r', framed_next (decode_list (pay_dec P)) (dec_default (decode_list (pay_dec P))) buf r =
      (Some (Ok (map (shallow (pay_ty P)) vs)), dec_default (decode_list (pay_dec P)), buf', r') ∧
    buf' ++ bi_data r' = rest.
Proof.
  intros Hv Hlen Hd. destruct (proj2 (gets_all (pay_ty P)) vs Hv Hlen) as (d & Hc & _).
  destruct (framed_next_value _ _ _ _ buf r _ _ rest Hc Hd) as (s' & buf' & r' & Hf & Hs & Hb & _).
  exists buf', r'. apply pay_list_default in Hs as ->. done.
Qed.

Lemma produce_chunks P chunks fuel buf r :
  Forall (.≠ []) chunks → Forall (fits (pay_ty P)) (concat chunks) → (len (concat chunks) ≤ u32_MAX)%N →
  length chunks < fuel →
  buf ++ bi_data r =
    concat (map (λ c, leb_encode (len c) ++ concat (map (λ v, plain (tokens (pay_ty P) v)) c)) chunks) ++ [x00] →
  produce P fuel (Some (dec_default (decode_list (pay_dec P)), buf, r)) = (chunks, true).
Proof.
  intros Hne. revert fuel buf r. induction Hne as [|c chunks Hc _ IH]; intros fuel buf r Hv Hlen Hf Hd;
    (destruct fuel as [|fuel]; [simpl in Hf; lia|]); cbn [produce]; unfold poll_produce;
    rewrite decide_False by done.
  - destruct (pay_chunk_next P [] buf r [] (Forall_nil_2 _)) as (buf' & r' & -> & Hb); [done| |].
    { rewrite Hd. change (len (A := pay_val P) []) with 0%N. by rewrite leb_encode_0. }
    by apply app_nil in Hb as (-> & _).
  - cbn [concat map] in Hv, Hlen, Hd. apply Forall_app in Hv as (Hv & Hvs). rewrite len_app in Hlen.
    destruct (pay_chunk_next P c buf r
      (concat (map (λ c, leb_encode (len c) ++ concat (map (λ v, plain (tokens (pay_ty P) v)) c)) chunks) ++ [x00]))
      as (buf' & r' & -> & Hb); [done|lia|by rewrite Hd, <- app_assoc|].
    destruct c as [|v c]; [done|]. cbn [map].
    rewrite IH; [|done|lia|simpl in Hf; lia|done].
    rewrite fmap_cons, pay_shallow. by rewrite pay_shallow_all.
Qed.

(** *** Readers *)

(** Reading [e] yields [v], in a store which becomes [st']. *)
Definition reads_to {A} (m : ST (bytes * Store) ErrorKind A) (st : Store) (e : bytes) (v : A)
    (st' : Store) : Prop :=
  ∀ rest, m (e ++ rest, st) = (Ok v, (rest, st')).

Lemma reads_bind {A B} (m : ST (bytes * Store) ErrorKind A) (k : A → ST (bytes * Store) ErrorKind B)
    st e a st1 e' b st2 :
  reads_to m st e a st1 → reads_to (k a) st1 e' b st2 → reads_to (bind m k) st (e ++ e') b st2.
Proof. intros Hm Hk rest. rewrite <- app_assoc, (bind_ok _ _ _ _ _ (Hm _)). apply Hk. Qed.

Lemma reads_ret {A} (a : A) st : reads_to (ret a) st [] a st.
Proof. by intros rest. Qed.

Lemma reads_map {A B} (m : ST (bytes * Store) ErrorKind A) (f : A → B) st e a st' :
  reads_to m st e a st' → reads_to (bind m (λ a, ret (f a))) st e (f a) st'.
Proof. intros Hm rest. by rewrite (bind_ok _ _ _ _ _ (Hm _)). Qed.

Lemma reads_lift {A} (rd : bytes → io_result (A * bytes)) st e v :
  (∀ rest, rd (e ++ rest) = Ok (v, rest)) → reads_to (lift_read rd) st e v st.
Proof. intros Hr rest. unfold lift_read. cbn [fst snd]. by rewrite Hr. Qed.

Lemma reads_store {A} e (op : HostStore → option A * HostStore) st a h :
  op (st_host st) = (Some a, h) → reads_to (with_store e op) st [] a (set_host h st).
Proof. intros Ho rest. unfold with_store. cbn [fst snd app]. by rewrite Ho. Qed.

(** *** Flags *)

Lemma testbit_of_le_bytes (buf : bytes) i :
  N.testbit (of_le_bytes buf) (N.of_nat i) =
  N.testbit (Byte.to_N (default x00 (buf !! (i / 8)))) (N.of_nat (i mod 8)).
Proof.
  revert i. induction buf as [|b buf IH]; intros i; cbn [of_le_bytes].
  { rewrite lookup_nil. cbn [default]. by rewrite !N.bits_0. }
  pose proof (to_N_lt b) as Hb. set (x := (Byte.to_N b + 256 * of_le_bytes buf)%N).
  assert (x mod 2 ^ 8 = Byte.to_N b ∧ x / 2 ^ 8 = of_le_bytes buf)%N as (Hm & Hd).
  { unfold x. change (2 ^ 8)%N with 256%N. split; lia. }
  destruct (decide (i < 8)).
  - rewrite Nat.div_small, Nat.mod_small by done. cbn [lookup list_lookup default].
    change (id b) with b. by rewrite <- Hm, N.mod_pow2_bits_low by lia.
  - replace (i / 8) with (S ((i - 8) / 8)) by lia. replace (i mod 8) with ((i - 8) mod 8) by lia.
    cbn [lookup list_lookup]. rewrite <- IH, <- Hd, N.div_pow2_bits. f_equal. lia.
Qed.

Lemma flag_names_set names buf i :
  flag_names (N.of_nat i) names (of_le_bytes buf) = flags_set i names buf.
Proof.
  revert i. induction names as [|name names IH]; intros i; [done|]. cbn [flag_names flags_set].
  rewrite testbit_of_le_bytes, <- Nat2N.inj_succ, IH. done.
Qed.

(** The bytes of flags, at every width *)
Lemma read_flags_value_general names rx :
  read_flags_value names rx =
  (let? (buf, rx) := read_exact (N.of_nat (flags_width names)) rx in Ok (flags_set 0 names buf, rx)).
Proof.
  assert (∀ k, k = flags_width names →
    (let? (flags, rx) := read_flags k rx in Ok (flag_names 0 names flags, rx)) =
    (let? (buf, rx) := read_exact (N.of_nat (flags_width names)) rx in Ok (flags_set 0 names buf, rx)))
    as Hb.
  { intros k ->. unfold read_flags. destruct (read_exact _ rx) as [[buf rx']|]; [|done]. cbn [rbind].
    by rewrite <- (flag_names_set names buf 0). }
  unfold read_flags_value, flags_width, div_ceil in *. rewrite flags_cap_div. unfold div_ceil.
  repeat match goal with
  | |- context [length names <=? ?k] => destruct (Nat.leb_spec (length names) k); [apply Hb; lia|]
  end.
  by rewrite Nat.max_l by lia.
Qed.

Lemma reads_flags names flags st :
  reads_to (lift_read (read_flags_value names)) st (Wave.encode_flags names flags)
    (filter (.∈ flags) names) st.
Proof.
  apply reads_lift. intros rest. rewrite read_flags_value_general.
  destruct (encode_flags_cases names flags) as (Hl & _).
  replace (N.of_nat (flags_width names)) with (len (Wave.encode_flags names flags)) by (by rewrite <- Hl).
  rewrite read_exact_app. cbn [rbind]. by rewrite flags_set_encode.
Qed.

(** *** Leaves *)

Lemma reads_leaf m ty st v path :
  leaf m = Some v → (∀ flags, m ≠ Val_Flags flags) → msg_ok m ty →
  reads_to (read_value env types ty path) st (code m ty) v st.
Proof.
  destruct m; try done; intros [= <-] Hfl; destruct ty; try done; cbn [read_value code msg_ok]; intros Hm.
  - apply (reads_map _ Val_Bool), reads_lift, (read_bool_spec (ValueWireLaws := HV) b).
  - apply (reads_map _ Val_S8), reads_lift. intros rest. by apply read_i8_byte_of_Z.
  - apply (reads_map _ Val_S16), reads_lift. intros rest.
    by apply (sleb_read_encode (ValueWireLaws := HV)); [set_solver|].
  - apply (reads_map _ Val_U16), reads_lift. intros rest. by apply leb_read_encode; [set_solver|].
  - apply (reads_map _ Val_S32), reads_lift. intros rest.
    by apply (sleb_read_encode (ValueWireLaws := HV)); [set_solver|].
  - apply (reads_map _ Val_U32), reads_lift. intros rest. by apply leb_read_encode; [set_solver|].
  - apply (reads_map _ Val_S64), reads_lift. intros rest.
    by apply (sleb_read_encode (ValueWireLaws := HV)); [set_solver|].
  - apply (reads_map _ Val_U64), reads_lift. intros rest. by apply leb_read_encode; [set_solver|].
  - apply (reads_map _ Val_Float32), reads_lift. intros rest. by apply read_le_le_bytes.
  - apply (reads_map _ Val_Float64), reads_lift. intros rest. by apply read_le_le_bytes.
  - apply (reads_map _ Val_Char), reads_lift. intros rest. by apply (char_read_encode (ValueWireLaws := HV)).
  - apply (reads_map _ Val_String), reads_lift. intros rest. destruct Hm as (Hu & Hlen).
    rewrite <- app_assoc. by apply (name_read_encode (ValueWireLaws := HV)).
  - destruct Hm as (Hlen & Hin).
    destruct (list_find_elem_of (λ name, name = case) names case Hin eq_refl) as ([i n] & Hf).
    pose proof Hf as (Hi & <- & _)%list_find_Some.
    assert (N.of_nat i < 2 ^ 32)%N as Hlt.
    { apply lookup_lt_Some in Hi. unfold len, u32_MAX in *. lia. }
    intros rest. rewrite (case_index_find _ _ _ Hf).
    rewrite (bind_ok _ _ _ (N.of_nat i) (rest, st)).
    + by rewrite Nat2N.id, Hi.
    + apply (reads_lift (leb_read 32)). intros rest'. by apply leb_read_encode; [set_solver|].
  - by destruct (Hfl flags).
Qed.

(** *** Futures and streams *)

Lemma reads_status_false st : reads_to (lift_read read_option_status) st [x00] false st.
Proof. apply reads_lift. intros rest. apply (read_option_status_spec (ValueWireLaws := HV) false). Qed.

Lemma reads_future P item ty st f h path :
  msg_ok (Val_Future (mkFutureMsg P item)) ty →
  supplied_at path (msg_traffic (Val_Future (mkFutureMsg P item))) →
  future_new P (FutureReceived (Some item)) (st_host st) = (Some f, h) →
  reads_to (read_value env types ty path) st [x00] (Val_Future f) (set_host h st).
Proof.
  destruct ty; try done. intros (HP' & Hv) Hs Hf. cbn [read_value]. rewrite HP'.
  cbn [msg_traffic streams fut_ready fut_item] in Hs. rewrite pay_streams in Hs.
  destruct (supplied_at_own _ _ _ Hs (Forall_nil_2 _)) as (r & Hi & Hd & _).
  cbn [concat] in Hd. rewrite app_nil_r in Hd. apply (reads_map _ Val_Future). unfold read_future.
  change [x00] with ([x00] ++ []). eapply reads_bind; [apply reads_status_false|].
  cbn iota. rewrite Hi. apply reads_store. by rewrite (pay_future_received P item r).
Qed.

Lemma reads_stream P chunks ty st s h path :
  msg_ok (Val_Stream (mkStreamMsg P chunks)) ty →
  supplied_at path (msg_traffic (Val_Stream (mkStreamMsg P chunks))) →
  stream_new P (StreamProduced chunks true) (st_host st) = (Some s, h) →
  reads_to (read_value env types ty path) st [x00] (Val_Stream s) (set_host h st).
Proof.
  destruct ty as [| | | | | | | | | | | | | | | | | | | | | | | |[ty|]| | |]; try done.
  intros (HP' & Hv & Hlen & Hne) Hs Hn. cbn [read_value]. rewrite HP'.
  cbn [msg_traffic streams str_end str_now str_later concat] in Hs. unfold stream_traffic in Hs.
  destruct (supplied_at_own _ _ _ Hs (away_indexed _ _)) as (r & Hi & Hd & _).
  apply (reads_map _ Val_Stream). unfold read_stream.
  change [x00] with ([x00] ++ []). eapply reads_bind; [apply reads_status_false|].
  cbn iota. rewrite Hi. apply reads_store. unfold receive_stream_chunks.
  rewrite stream_pieces, filter_cons, decide_False in Hd by tauto.
  assert (filter (λ c : list (pay_val P), c ≠ []) chunks = chunks) as Hfil.
  { clear -Hne. induction Hne as [|c chunks Hc _ IH]; [done|]. by rewrite filter_cons, decide_True, IH. }
  rewrite Hfil in Hd. rewrite (produce_chunks P chunks); [done..| |exact Hd].
  rewrite Hd, length_app. simpl.
  assert (Forall (.≠ []) (map (λ c, leb_encode (len c) ++
    concat (map (λ v, plain (tokens (pay_ty P) v)) c)) chunks)) as Hp%length_concat_pieces.
  { apply len_chunks in Hlen. clear -Hlen HL. induction Hlen as [|c chunks Hc _ IH]; constructor; [|done].
    intros (Hz & _)%app_nil. by apply leb_encode_nonempty in Hz. }
  rewrite length_map in Hp. lia.
Qed.

(** *** Resources *)

Lemma read_resource_of ty rt path :
  resource_of ty rt →
  read_value env types ty path = bind (read_resource env types rt path) (λ r, ret (Val_Resource r)).
Proof. by intros [->| ->]. Qed.

Lemma reads_bytes buf st :
  (len buf ≤ u32_MAX)%N → reads_to (lift_read read_bytes) st (leb_encode (len buf) ++ buf) buf st.
Proof.
  intros Hlen. apply reads_lift. intros rest. unfold read_bytes. rewrite <- app_assoc, leb_read_encode.
  - cbn [rbind]. apply read_exact_app.
  - set_solver.
  - unfold u32_MAX in Hlen. lia.
Qed.

Lemma receive_input_chunks chunks fuel buf r :
  Forall (λ c : bytes, c ≠ [] ∧ (len c ≤ u32_MAX)%N) chunks → length chunks < fuel →
  buf ++ bi_data r = concat ((λ c, leb_encode (len c) ++ c) <$> chunks) ++ [x00] →
  receive_input fuel (dec_default vec_bytes_decoder) buf r = Ok <$> chunks.
Proof.
  intros Hc. revert fuel buf r.
  induction Hc as [|c chunks (Hne & Hlen) _ IH]; intros fuel buf r Hf Hd;
    (destruct fuel as [|fuel]; [simpl in Hf; lia|]); cbn [receive_input].
  - destruct (framed_next_value _ vec_bytes_decoder _ (dec_default vec_bytes_decoder) buf r _ [] []
      (vec_bytes_resumes (D := IncomingFn) [] ltac:(done))) as (s' & buf' & r' & -> & _ & Hb & _).
    { rewrite Hd. change (len []) with 0%N. by rewrite leb_encode_0. }
    by apply app_nil in Hb as (-> & _).
  - destruct (framed_next_value _ vec_bytes_decoder _ (dec_default vec_bytes_decoder) buf r
      (leb_encode (len c) ++ c) c (concat ((λ c, leb_encode (len c) ++ c) <$> chunks) ++ [x00])
      (vec_bytes_resumes (D := IncomingFn) c Hlen)) as (s' & buf' & r' & -> & <- & Hb & Hp).
    { rewrite Hd, fmap_cons. cbn [concat]. by rewrite <- app_assoc. }
    destruct c as [|b c]; [done|]. rewrite fmap_cons. f_equal.
    apply IH; [simpl in Hf; lia|done].
Qed.

Lemma reads_input h ty rt st stream rep h1 r h2 path :
  msg_ok (Val_Resource h) ty → supplied_at path (msg_traffic (Val_Resource h)) →
  resource_of ty rt → is_input_stream types rt = true →
  match h with
  | HBytes _ => False
  | HReady buf => stream = memory_input_pipe buf
  | HPending chunks => stream = async_read_stream (Ok <$> live_bytes chunks)
  end →
  table_push_stream stream (st_host st) = (Some rep, h1) →
  try_into_resource_any host_input_stream rep h1 = (Some r, h2) →
  reads_to (read_value env types ty path) st (code (Val_Resource h) ty) (Val_Resource r) (set_host h2 st).
Proof.
  intros Hok Hs Hty Hi Hst Hp Hr.
  rewrite (read_resource_of _ _ _ Hty). apply (reads_map _ Val_Resource). unfold read_resource. rewrite Hi. unfold read_input_stream.
  assert (∀ e, reads_to (bind (with_store OutOfMemory (table_push_stream stream))
    (λ res, with_store e (try_into_resource_any host_input_stream res))) st [] r (set_host h2 st)) as Hpush.
  { intros e. change [] with ([] ++ [] : bytes). eapply reads_bind; [by apply reads_store|].
    change (set_host h2 st) with (set_host h2 (set_host h1 st)). by apply reads_store. }
  assert (∀ b, reads_to (lift_read read_u8) st [b] b st) as Hb by (intros b; by apply reads_lift).
  destruct h as [buf|buf|chunks]; [done|..]; cbn [code] in *.
  - change (x01 :: leb_encode (len buf) ++ buf) with ([x01] ++ leb_encode (len buf) ++ buf).
    eapply reads_bind; [apply Hb|]. rewrite decide_False, decide_True by done.
    rewrite <- (app_nil_r (leb_encode (len buf) ++ buf)). eapply reads_bind; [|apply Hpush].
    rewrite Hst. apply (reads_map _ memory_input_pipe), reads_bytes. by destruct Hty as [->| ->].
  - change [x00] with ([x00] ++ []). eapply reads_bind; [apply Hb|]. rewrite decide_True by done.
    cbn [msg_traffic] in Hs. unfold bytes_traffic in Hs.
    destruct (supplied_at_own _ _ _ Hs (Forall_nil_2 _)) as (rd & Hx & Hd & _). rewrite Hx.
    rewrite bytes_pieces in Hd. change [] with ([] ++ [] : bytes). eapply reads_bind; [|apply Hpush].
    rewrite Hst, (receive_input_chunks (live_bytes chunks)); [apply reads_ret| | |exact Hd].
    + assert (len (concat chunks) ≤ u32_MAX)%N as Hlen%len_chunks by (by destruct Hty as [->| ->]).
      apply Forall_forall. intros c (Hne & Hin)%list_elem_of_filter. split; [done|].
      by eapply Forall_forall in Hlen.
    + rewrite Hd, length_app, <- (length_fmap (λ c, leb_encode (len c) ++ c) (live_bytes chunks)).
      assert (Forall (.≠ []) ((λ c : bytes, leb_encode (len c) ++ c) <$> live_bytes chunks))
        as Hp'%length_concat_pieces; [|simpl; lia].
      apply Forall_fmap, Forall_forall. intros c (Hne & _)%list_elem_of_filter Hz. by apply app_nil in Hz as (_ & ?).
Qed.

Lemma reads_guest buf ty rt st r path :
  resource_of ty rt → is_input_stream types rt = false → rt ∈ rt_guest types → len buf = 16%N →
  st_shared st !! uuid_from_bytes_le buf = Some r →
  reads_to (read_value env types ty path) st (leb_encode (len buf) ++ buf) (Val_Resource r) st.
Proof.
  intros Hty Hi Hg Hlen Hr.
  rewrite (read_resource_of _ _ _ Hty). apply (reads_map _ Val_Resource). unfold read_resource. rewrite Hi, decide_True by done.
  unfold read_guest. rewrite Hlen. eapply reads_bind.
  { apply reads_lift. intros rest. apply leb_read_encode; [set_solver|done]. }
  rewrite decide_True by done. rewrite <- (app_nil_r buf) at 1. eapply reads_bind.
  { apply (reads_lift _ _ buf buf). intros rest. rewrite <- Hlen. apply read_exact_app. }
  intros rest. unfold get_shared. cbn [fst snd app]. by rewrite Hr.
Qed.

Lemma reads_remote buf ty rt st rep h1 r h2 path :
  (len buf ≤ u32_MAX)%N →
  resource_of ty rt → is_input_stream types rt = false → rt ∉ rt_guest types →
  table_push_remote buf (st_host st) = (Some rep, h1) →
  try_into_resource_any host_remote rep h1 = (Some r, h2) →
  reads_to (read_value env types ty path) st (leb_encode (len buf) ++ buf) (Val_Resource r) (set_host h2 st).
Proof.
  intros Hlen Hty Hi Hg Hp Hr.
  rewrite (read_resource_of _ _ _ Hty). apply (reads_map _ Val_Resource). unfold read_resource. rewrite Hi, decide_False by done.
  unfold read_remote. rewrite <- (app_nil_r (leb_encode (len buf) ++ buf)).
  eapply reads_bind; [by apply reads_bytes|]. change [] with ([] ++ [] : bytes).
  eapply reads_bind; [by apply reads_store|].
  change (set_host h2 st) with (set_host h2 (set_host h1 st)). by apply reads_store.
Qed.

(** *** Elements *)

Lemma read_list_types ty path i n s :
  read_list (read_value env types ty) path i n s =
  read_types (read_value env types) path i (replicate n ty) s.
Proof.
  revert i s. induction n as [|n IH]; intros i s; [done|]. cbn [read_list read_types replicate].
  unfold bind. destruct (read_value env types ty (path ++ [i]) s) as [[v|e] s']; [|done]. by rewrite IH.
Qed.

Lemma read_fields_types fields path i s :
  read_fields (read_value env types) path i fields s =
  bind (read_types (read_value env types) path i fields.*2) (λ vs, ret (zip fields.*1 vs)) s.
Proof.
  revert i s. induction fields as [|[name ty] fields IH]; intros i s; [done|].
  rewrite !fmap_cons. cbn [read_fields read_types fst snd]. unfold bind.
  destruct (read_value env types ty (path ++ [i]) s) as [[v|e] s']; [|done]. rewrite IH. unfold bind.
  by destruct (read_types _ path (N.succ i) fields.*2 s') as [[vs|e] s2].
Qed.

Lemma read_case_nth path cases i name ty :
  cases !! i = Some (name, ty) →
  read_case (read_value env types) path cases i =
  bind (read_opt (read_value env types) path ty) (λ v, ret (Val_Variant name v)).
Proof.
  revert i. induction cases as [|[n t] cases IH]; intros [|i] Hi; try done.
  - by injection Hi as -> ->.
  - by apply IH.
Qed.

Lemma zip_ok_replicate (ms : list Msg) (ty : Ty) :
  foldr (λ m P, msg_ok m ty ∧ P) True ms → zip_ok msg_ok ms (replicate (length ms) ty).
Proof. induction ms as [|m ms IH]; [done|]. intros (Hm & Hms). split; auto. Qed.

Lemma zip_ok_snd (ms : list (bytes * Msg)) (fields : list (bytes * Ty)) :
  zip_fields_ok msg_ok ms fields → zip_ok msg_ok ms.*2 fields.*2.
Proof.
  revert fields. induction ms as [|[n m] ms IH]; intros [|[n' ty] fields]; try done.
  intros (Hm & Hms). split; [done|]. by apply IH.
Qed.

Lemma zip_codes_snd (ms : list (bytes * Msg)) (fields : list (bytes * Ty)) :
  zip_field_codes code ms fields = zip_codes code ms.*2 fields.*2.
Proof.
  revert fields. induction ms as [|[n m] ms IH]; intros [|[n' ty] fields]; try done.
  cbn. f_equal. apply IH.
Qed.

Lemma traffic_snd (ms : list (bytes * Msg)) : map (λ x, msg_traffic x.2) ms = map msg_traffic ms.*2.
Proof. induction ms as [|x ms IH]; [done|]. cbn. f_equal. exact IH. Qed.

(** *** Values *)

Definition reads_value (m : Msg) (ty : Ty) (st : Store) (v : Value) (st' : Store) : Prop :=
  ∀ path, msg_ok m ty → supplied_at path (msg_traffic m) →
    reads_to (read_value env types ty path) st (code m ty) v st'.

Definition reads_values (ms : list Msg) (tys : list Ty) (st : Store) (vs : list Value) (st' : Store) :
    Prop :=
  ∀ path i, zip_ok msg_ok ms tys → supplied_at path (indexed i (map msg_traffic ms)) →
    reads_to (read_types (read_value env types) path i tys) st (zip_codes code ms tys) vs st'.

Definition reads_opt (m : option Msg) (ty : option Ty) (st : Store) (v : option Value) (st' : Store) :
    Prop :=
  ∀ path, opt_ok msg_ok m ty → supplied_at path (from_option msg_traffic [] m) →
    reads_to (read_opt (read_value env types) path ty) st (opt_code code m ty) v st'.

Lemma reads_values_cons m ms ty tys st v vs st1 st2 :
  reads_value m ty st v st1 → reads_values ms tys st1 vs st2 →
  reads_values (m :: ms) (ty :: tys) st (v :: vs) st2.
Proof.
  intros Hv Hvs path i (Hm & Hms) (Hs & Hss)%supplied_at_cons. cbn [read_types zip_codes].
  eapply reads_bind; [by apply Hv|]. by apply (reads_map _ (cons v)), Hvs.
Qed.

Lemma variant_reads case m cases i ty st v st' :
  list_find (λ name, name = case) cases.*1 = Some (i, case) → cases !! i = Some (case, ty) →
  reads_opt m ty st v st' →
  reads_value (Val_Variant case m) (Type_Variant cases) st (Val_Variant case v) st'.
Proof.
  intros Hf Hi Hv path (Hlen & Hok) Hs. rewrite Hf, Hi in Hok. cbn [mbind option_bind snd] in Hok.
  cbn [read_value code]. rewrite (case_index_find _ _ _ Hf), Nat2N.id, Hi. cbn [mbind option_bind snd].
  eapply reads_bind.
  - apply reads_lift. intros rest. apply leb_read_encode; [set_solver|].
    apply lookup_lt_Some in Hi. unfold len, u32_MAX in Hlen. lia.
  - rewrite Nat2N.id, (read_case_nth _ _ _ _ _ Hi). apply (reads_map _ (Val_Variant case)), Hv; [done|].
    by destruct m.
Qed.

Lemma result_value_reads (ok : bool) m ok_ty err_ty st v st' :
  reads_opt m (if ok then ok_ty else err_ty) st v st' →
  reads_value (Val_Result ok m) (Type_Result ok_ty err_ty) st (Val_Result ok v) st'.
Proof.
  intros Hv path Hok Hs. cbn [msg_ok read_value code] in *.
  change (?b :: ?e) with ([b] ++ e). eapply reads_bind.
  { apply reads_lift. intros rest. apply (read_result_status_spec (ValueWireLaws := HV) ok). }
  assert (supplied_at path (from_option msg_traffic [] m)) as Hs' by (by destruct m).
  by destruct ok; [apply (reads_map _ (Val_Result true))|apply (reads_map _ (Val_Result false))]; apply Hv.
Qed.

Lemma imports_read :
  (∀ m ty st v st', imports m ty st v st' → reads_value m ty st v st') ∧
  (∀ ms tys st vs st', imports_all ms tys st vs st' → reads_values ms tys st vs st') ∧
  (∀ m ty st v st', imports_opt m ty st v st' → reads_opt m ty st v st').
Proof.
  apply imports_mutind; unfold reads_value.
  - intros m ty st v Hl Hn path Hok _. by apply reads_leaf.
  - intros flags names st path _ _. apply (reads_map _ Val_Flags), reads_flags.
  - intros ms ty st vs st' _ IH path (Hlen & Hok) Hs. cbn [read_value code]. eapply reads_bind.
    + apply reads_lift. intros rest. apply leb_read_encode; [set_solver|]. unfold u32_MAX in Hlen. lia.
    + apply (reads_map _ Val_List). intros rest. rewrite to_nat_len, read_list_types, <- zip_codes_list.
      by apply (IH path 0%N); [apply zip_ok_replicate|].
  - intros ms fields st vs st' _ IH path Hok Hs. cbn [msg_ok msg_traffic read_value code] in *.
    apply (reads_map _ Val_Record). intros rest. rewrite read_fields_types, zip_codes_snd.
    rewrite traffic_snd in Hs.
    apply (reads_map _ (zip fields.*1)), (IH path 0%N); [by apply zip_ok_snd|done].
  - intros ms tys st vs st' _ IH path Hok Hs. by apply (reads_map _ Val_Tuple), (IH path 0%N).
  - intros case m cases i ty st v st' Hf Hi _ IH. by apply (variant_reads case m cases i ty).
  - intros ty st path _ _ rest. cbn [read_value code].
    by rewrite (bind_ok _ _ _ _ _ (reads_status_false st rest)).
  - intros m ty st v st' _ IH path Hok Hs. cbn [read_value code].
    change (x01 :: code m ty) with ([x01] ++ code m ty). eapply reads_bind.
    { apply reads_lift. intros rest. apply (read_option_status_spec (ValueWireLaws := HV) true). }
    by apply (reads_map _ (λ v, Val_Option (Some v))), IH.
  - intros ok m ok_ty err_ty st v st' _ IH. by apply result_value_reads.
  - intros. by eapply reads_input.
  - intros. by eapply reads_guest.
  - intros buf ty rt st rep h1 r h2 Hty ???? path Hok _. eapply reads_remote; try done.
    by destruct Hty as [->| ->].
  - intros. by apply reads_future with (P := P) (item := item).
  - intros. by apply reads_stream with (P := P) (chunks := chunks).
  - intros st path i _ _. apply reads_ret.
  - intros. by eapply reads_values_cons.
  - intros st path _ _. apply reads_ret.
  - intros m ty st v st' _ IH path Hok Hs. by apply (reads_map _ Some), IH.
Qed.

End import.
