(* ===== verification/WasmExchange.v ===== *)
(** * What two runtimes of components exchange

    The theorems on the codec of [crates/wasmtime/src/codec.rs], from the
    lemmas of [WasmValues]: a value which a component sends over a connection
    arrives at the component of the other side. *)

From S2P Require Import Prelude Wire FrameCodec Prims Wave Subscriptions Resolve Conn Delivery Egress.
From S2P Require Import Introspect Encode Pack Decode Values ValuesStd Transmit Declared Resume Receive Exchange.
From S2P Require Import WasmCodec WasmValues.

(** ** Types of the two sides *)

(** The same type with other resources *)
Fixpoint type_map {RT RT'} (f : RT → RT') (ty : Type_ RT) : Type_ RT' :=
  match ty with
  | Type_Bool => Type_Bool | Type_S8 => Type_S8 | Type_U8 => Type_U8 | Type_S16 => Type_S16
  | Type_U16 => Type_U16 | Type_S32 => Type_S32 | Type_U32 => Type_U32 | Type_S64 => Type_S64
  | Type_U64 => Type_U64 | Type_Float32 => Type_Float32 | Type_Float64 => Type_Float64
  | Type_Char => Type_Char | Type_String => Type_String
  | Type_List ty => Type_List (type_map f ty)
  | Type_Record fields => Type_Record (map (λ x, (x.1, type_map f x.2)) fields)
  | Type_Tuple tys => Type_Tuple (map (type_map f) tys)
  | Type_Variant cases => Type_Variant (map (λ x, (x.1, option_map (type_map f) x.2)) cases)
  | Type_Enum names => Type_Enum names
  | Type_Option ty => Type_Option (type_map f ty)
  | Type_Result ok err => Type_Result (option_map (type_map f) ok) (option_map (type_map f) err)
  | Type_Flags names => Type_Flags names
  | Type_Own rt => Type_Own (f rt)
  | Type_Borrow rt => Type_Borrow (f rt)
  | Type_Future ty => Type_Future (option_map (type_map f) ty)
  | Type_Stream ty => Type_Stream (option_map (type_map f) ty)
  | Type_ErrorContext => Type_ErrorContext
  | Type_Map k v => Type_Map (type_map f k) (type_map f v)
  | Type_FixedLengthList ty n => Type_FixedLengthList (type_map f ty) n
  end.

(** The types differ in their resources only. *)
Definition same_type {RT RT'} (ty : Type_ RT) (ty' : Type_ RT') : Prop :=
  type_map (λ _, tt) ty = type_map (λ _, tt) ty'.

Section shape.
Context {RT RT' : Type} (f : RT → RT') `{Leb128, ValueWire, PrimCodec}.

Lemma case_names (cases : list (bytes * option (Type_ RT))) :
  (map (λ x, (x.1, option_map (type_map f) x.2)) cases).*1 = cases.*1.
Proof. induction cases as [|c cases IH]; [done|]. cbn. f_equal. exact IH. Qed.

Lemma case_lookup (cases : list (bytes * option (Type_ RT))) i :
  map (λ x, (x.1, option_map (type_map f) x.2)) cases !! i ≫= snd =
  option_map (type_map f) (cases !! i ≫= snd).
Proof.
  change (map ?g cases) with (g <$> cases). rewrite list_lookup_fmap.
  by destruct (cases !! i) as [[name [ty|]]|].
Qed.

Lemma opt_code_map m (ty : option (Type_ RT)) :
  from_option (λ m, ∀ ty, code m (type_map f ty) = code m ty) True m →
  opt_code code m (option_map (type_map f) ty) = opt_code code m ty.
Proof. destruct m, ty; cbn; auto. Qed.

Lemma code_map m (ty : Type_ RT) : code m (type_map f ty) = code m ty.
Proof.
  revert ty. induction m using val_ind_nested; intros ty; try (by destruct ty).
  - destruct ty; try done. cbn [type_map code]. f_equal. f_equal. apply map_ext_Forall.
    induction H2; constructor; auto.
  - destruct ty; try done. cbn [type_map code]. revert fields.
    induction vs as [|[n m] vs IH]; intros [|[n' ty] fields]; try done. cbn. apply Forall_cons in H2 as (Hm & Hms).
    f_equal; [apply Hm|by apply IH].
  - destruct ty; try done. cbn [type_map code]. revert types.
    induction vs as [|m vs IH]; intros [|ty types]; try done. cbn. apply Forall_cons in H2 as (Hm & Hms).
    f_equal; [apply Hm|by apply IH].
  - destruct ty; try done. cbn [type_map code]. rewrite case_names, case_lookup. f_equal.
    by apply opt_code_map.
  - destruct ty, v; try done. cbn. f_equal. apply H2.
  - destruct ty; try done. cbn [type_map code]. f_equal. by destruct ok; apply opt_code_map.
Qed.

Lemma with_payload_some_map (ty : Type_ RT) : with_payload_some (type_map f ty) = with_payload_some ty.
Proof. by destruct ty. Qed.

Lemma opt_ok_map m (ty : option (Type_ RT)) :
  from_option (λ m, ∀ ty, msg_ok m (type_map f ty) ↔ msg_ok m ty) True m →
  opt_ok msg_ok m (option_map (type_map f) ty) ↔ opt_ok msg_ok m ty.
Proof. destruct m, ty; cbn; auto. Qed.

Lemma msg_ok_map m (ty : Type_ RT) : msg_ok m (type_map f ty) ↔ msg_ok m ty.
Proof.
  revert ty. induction m using val_ind_nested; intros ty; try (by destruct ty).
  - destruct ty; try done. cbn [type_map msg_ok]. apply and_iff_compat_l.
    induction H2 as [|m ms Hm _ IH]; [done|]. cbn. by rewrite Hm, IH.
  - destruct ty; try done. cbn [type_map msg_ok]. revert fields.
    induction vs as [|[n m] vs IH]; intros [|[n' ty] fields]; try done. cbn. apply Forall_cons in H2 as (Hm & Hms).
    rewrite (Hm ty). apply and_iff_compat_l. by apply IH.
  - destruct ty; try done. cbn [type_map msg_ok]. revert types.
    induction vs as [|m vs IH]; intros [|ty types]; try done. cbn. apply Forall_cons in H2 as (Hm & Hms).
    rewrite (Hm ty). apply and_iff_compat_l. by apply IH.
  - destruct ty; try done. cbn [type_map msg_ok]. rewrite case_names, len_map. apply and_iff_compat_l.
    destruct (list_find _ cases.*1) as [[i n]|]; [|done]. rewrite case_lookup. by apply opt_ok_map.
  - destruct ty, v; try done. cbn. apply H2.
  - destruct ty; try done. cbn [type_map msg_ok]. by destruct ok; apply opt_ok_map.
  - destruct f0 as [P v], ty as [| | | | | | | | | | | | | | | | | | | | | | |[ty|]| | | |]; try done.
    cbn. by rewrite with_payload_some_map.
  - destruct s as [P chunks], ty as [| | | | | | | | | | | | | | | | | | | | | | | |[ty|]| | |]; try done.
    cbn. by rewrite with_payload_some_map.
Qed.

End shape.

Lemma code_same {RT RT'} `{Leb128, ValueWire, PrimCodec} m (ty : Type_ RT) (ty' : Type_ RT') :
  same_type ty ty' → code m ty = code m ty'.
Proof. intros Hs. rewrite <- (code_map (λ _, tt) m ty), Hs. apply code_map. Qed.

Lemma msg_ok_same {RT RT'} m (ty : Type_ RT) (ty' : Type_ RT') :
  same_type ty ty' → msg_ok m ty → msg_ok m ty'.
Proof. intros Hs. rewrite <- (msg_ok_map (λ _, tt) m ty), Hs. apply msg_ok_map. Qed.

(** ** Typing *)

(** The value has the form which the type asks for. *)
Fixpoint typed {R F S RT} (v : Val R F S) (ty : Type_ RT) : Prop :=
  match v, ty with
  | Val_Bool _, Type_Bool | Val_S8 _, Type_S8 | Val_U8 _, Type_U8 | Val_S16 _, Type_S16
  | Val_U16 _, Type_U16 | Val_S32 _, Type_S32 | Val_U32 _, Type_U32 | Val_S64 _, Type_S64
  | Val_U64 _, Type_U64 | Val_Float32 _, Type_Float32 | Val_Float64 _, Type_Float64
  | Val_Char _, Type_Char | Val_String _, Type_String => True
  | Val_List vs, Type_List ty => foldr (λ v P, typed v ty ∧ P) True vs
  | Val_Record vs, Type_Record fields => zip_fields_ok typed vs fields
  | Val_Tuple vs, Type_Tuple tys => zip_ok typed vs tys
  | Val_Variant case v, Type_Variant cases =>
      match list_find (λ c, c.1 = case) cases with
      | Some (_, (_, ty)) => opt_ok typed v ty
      | None => False
      end
  | Val_Enum case, Type_Enum names => case ∈ names
  | Val_Option None, Type_Option _ => True
  | Val_Option (Some v), Type_Option ty => typed v ty
  | Val_Result ok v, Type_Result ok_ty err_ty => opt_ok typed v (if ok then ok_ty else err_ty)
  | Val_Flags _, Type_Flags _ => True
  | Val_Resource _, Type_Own _ | Val_Resource _, Type_Borrow _ => True
  | Val_Future _, Type_Future ty => is_Some (with_payload ty)
  | Val_Stream _, Type_Stream ty => is_Some (ty ≫= with_payload_some)
  | _, _ => False
  end.

Lemma bind_inv {S E A B} (m : ST S E A) (k : A → ST S E B) s b s' :
  bind m k s = (Ok b, s') → ∃ a s1, m s = (Ok a, s1) ∧ k a s1 = (Ok b, s').
Proof. unfold bind. destruct (m s) as [[a|e] s1]; [eauto|done]. Qed.

Lemma zip_typed_fields {A B} (f : A → B → Prop) (vs : list (bytes * A)) (fields : list (bytes * B)) :
  zip_ok f vs.*2 fields.*2 → zip_fields_ok f vs fields.
Proof.
  revert fields. induction vs as [|[n v] vs IH]; intros [|[n' ty] fields]; try done.
  intros (Hv & Hvs). split; [done|by apply IH].
Qed.

(** ** Exchange *)

Section exchange.
Context `{Host} `{Leb128} {HL : Leb128Laws} `{CoreName} {HN : CoreNameLaws}.
Context `{ValueWire} {HV : ValueWireLaws} `{PrimCodec} {HP : PrimLaws} {HPR : PrimResume}.
Context (flush : nat → bool) `{CmEncoder OutgoingFn} {HCE : CmEncoderLaws OutgoingFn}.
Context `{FramedRead} {HF : FramedReadLaws}.
Context `{CmDecoder IncomingFn} {HCM : CmDecoderLaws IncomingFn} {HR : CmDecoderResume IncomingFn}.

(** The encoder of component values appends the code of what the value
    carries and changes the store as its resources, futures and streams are
    taken from it; there is a deferred operation if a part is pending, and it
    sends exactly the data of the pending parts on the path of each. *)
Theorem val_sent types v ty st m st' dst :
  exports types v ty st m st' →
  ∃ d, encode flush types v ty (dst, st) = (Ok d, (dst ++ code m ty, st')) ∧
    (d = None ↔ msg_traffic m = []) ∧
    ∀ f o, d = Some f → outgoing_handle o → fit_traffic (out_path o) (msg_traffic m) →
      ∃ wrs, f o = Ok wrs ∧ Forall write_ok wrs ∧
        ∀ q, written_on q wrs = content (out_path o) (msg_traffic m) q.
Proof.
  intros (_ & He)%(proj1 (exports_encode flush types)). destruct (He dst) as (d & Hd & (Hn & Hs)).
  by exists d.
Qed.

(** [C10] What a component sends of a value over a connection is what the other
    side reads: once ingress completed successfully, the reader yields the value
    which the message stands for in its own store, whose futures and streams
    yield what was sent, and leaves the bytes after the code. *)
Theorem val_exchanged types v ty st m st' f buf types' ty' str v' str' cap paths wrs shutdown e tr w env rest :
  exports types v ty st m st' → imports types' m ty' str v' str' → same_type ty ty' →
  fit_traffic [] (msg_traffic m) →
  encode flush types v ty ([], st) = (Ok (Some f), (buf, st')) → f Outgoing_new = Ok wrs →
  (0 < cap)%N → compatible paths → do_writes wrs (mkEgress [] None) = Ok e →
  reachable cap paths (egress (λ w b, Ok (w ++ b)) shutdown [] (e_queue e)).2 tr w →
  w_done w = Some (Ok tt) →
  (∀ q, q ∈ (msg_traffic m).*1 →
     ∃ cs, env_data env q = Some cs ∧ concat cs = received_on q tr) →
  read_value env types' ty' [] (buf ++ rest, str) = (Ok v', (rest, str')).
Proof.
  intros Hx Hi Ht Hfit He Hw Hcap Hc Hd Hr Hdone Henv.
  destruct (proj1 (exports_encode flush types) _ _ _ _ _ Hx) as (Hok & He').
  destruct (He' []) as (d & Hd' & (Hn & Hs)). rewrite He in Hd'. injection Hd' as <- ->.
  destruct (Hs f Outgoing_new eq_refl outgoing_handle_new Hfit) as (wrs' & Hw' & Hwo & Hq).
  rewrite Hw in Hw'. injection Hw' as <-. cbn [out_path Outgoing_new] in Hq.
  destruct (writes_on_wire wrs shutdown e Hwo Hd) as (Hwire & Hff). rewrite Hwire in Hr.
  assert (∀ q, received_on q tr = content [] (msg_traffic m) q) as Hrec.
  { intros q. rewrite <- Hq, <- data_on_writes. by eapply received_complete. }
  rewrite (code_same m ty ty' Ht). apply (proj1 (imports_read types' env)) with (m := m).
  - done.
  - by eapply msg_ok_same.
  - intros q Hin. destruct (Henv q Hin) as (cs & Hcs & Hx'). exists cs. split; [done|]. by rewrite Hx', Hrec.
Qed.

Lemma encode_types_typed types vs tys s ds s' :
  Forall (λ v, ∀ ty s d s', encode flush types v ty s = (Ok d, s') → typed v ty) vs →
  length vs = length tys → encode_types (encode flush types) vs tys s = (Ok ds, s') →
  zip_ok typed vs tys.
Proof.
  intros Hvs. revert tys s ds. induction Hvs as [|v vs Hv _ IH]; intros [|ty tys] s ds E He; try done.
  cbn [encode_types] in He. apply bind_inv in He as (d & s1 & He & Hes).
  apply bind_inv in Hes as (ds' & s2 & Hes & [= _ ->]). split; [by eapply Hv|].
  eapply IH; [by injection E|done].
Qed.

(** [C12] Only a value of the type is encoded: whatever the store, if the
    encoder succeeds then the value has the form of the type at every depth,
    variants and enums name a case of it and have the payload it asks for, and
    the payloads of futures and streams are supported. *)
Theorem val_encode_typed types v ty s d s' :
  encode flush types v ty s = (Ok d, s') → typed v ty.
Proof.
  revert ty s d s'. induction v as [| | | | | | | | | | | | |vs IHs|vs IHs|vs IHs|c v IHv| |v IHv|ok v IHv| | | |]
    using val_ind_nested; intros ty s0 d s'; destruct ty as [| | | | | | | | | | | | | |fields|tys|cases|names| |ok_ty err_ty| | | |ty|ty| | |];
    try done; try (by destruct v); cbn [encode typed].
  - destruct (u32_try_from (len vs)); [|done]. intros (_ & s1 & _ & He)%bind_inv.
    apply bind_inv in He as (ds & s2 & He & _). rewrite encode_list_types in He.
    apply zip_ok_list. by eapply encode_types_typed; [| |exact He]; [|rewrite length_replicate].
  - destruct (Nat.eqb_spec (length vs) (length fields)) as [E|]; [|done].
    intros (ds & s2 & He & _)%bind_inv. rewrite encode_fields_types in He.
    apply zip_typed_fields. by eapply encode_types_typed; [| |exact He]; [|rewrite !length_fmap].
  - destruct (Nat.eqb_spec (length vs) (length tys)) as [E|]; [|done].
    intros (ds & s2 & He & _)%bind_inv. by eapply encode_types_typed.
  - unfold encode_variant, find_variant_discriminant. destruct (u32_MAX <? len cases)%N; [done|].
    destruct (list_find _ cases) as [[i [name ty]]|]; [|done]. cbn [fmap option_fmap option_map fst snd].
    intros (_ & s1 & _ & He)%bind_inv. destruct v, ty; try done. by eapply IHv.
  - unfold encode_enum, find_enum_discriminant. destruct (u32_MAX <? len names)%N; [done|].
    destruct (list_find _ names) as [[i name]|] eqn:E; [|done]. intros _.
    apply list_find_Some in E as (Hi & -> & _). by eapply list_elem_of_lookup_2.
  - destruct v; [|done]. intros (_ & s1 & _ & He)%bind_inv. by eapply IHv.
  - assert (∀ tag t, encode_result (encode flush types) tag t v s0 = (Ok d, s') → opt_ok typed v t) as Hr.
    { intros tag t. unfold encode_result. destruct v, t; try done.
      intros (_ & s1 & _ & He)%bind_inv. by eapply IHv. }
    by destruct ok; apply Hr.
  - unfold encode_val_future. destruct (with_payload ty); [done|].
    by intros (_ & s1 & _ & He)%bind_inv.
  - unfold encode_val_stream. destruct (ty ≫= with_payload_some); [done|].
    by intros (_ & s1 & _ & He)%bind_inv.
Qed.

End exchange.
