(* ===== verification/WasmPaths.v ===== *)
(** * Paths of Wasmtime values

    The traffic of the values which [crates/wasmtime/src/codec.rs] encodes is on
    paths which [crates/wasmtime/src/paths.rs] declares: a peer which serves a
    function with the asynchronous paths of its parameter types accepts every
    frame of the parameters of a component. *)

From S2P Require Import Prelude Wire FrameCodec Prims Wave Subscriptions Resolve SubsInv Conn Delivery Egress.
From S2P Require Import Introspect Encode Pack Decode Values ValuesStd Transmit Declared Resume Receive Exchange.
From S2P Require Import WasmCodec WasmValues.

Section types.
Context {RT : Type} (num : RT → nat).

(** The type as [async_paths] looks at it, with its resources numbered *)
Fixpoint wty (t : WasmCodec.Type_ RT) : Introspect.Ty :=
  match t with
  | Type_List t => WList (wty t)
  | Type_Record fields => WRecord (map (λ x, wty x.2) fields)
  | Type_Tuple ts => WTuple (map wty ts)
  | Type_Variant cases => WVariant (map (λ x, option_map wty x.2) cases)
  | Type_Option t => WOption (wty t)
  | Type_Result ok err => WResult (option_map wty ok) (option_map wty err)
  | Type_Own rt => WOwn (num rt)
  | Type_Borrow rt => WBorrow (num rt)
  | Type_Future t => WFuture (option_map wty t)
  | Type_Stream t => WStream (option_map wty t)
  | _ => WOther
  end.

(** The predicate holds of the resources of the values of a type. *)
Fixpoint all_resources (Q : RT → Prop) (t : WasmCodec.Type_ RT) : Prop :=
  match t with
  | Type_List t | Type_Option t => all_resources Q t
  | Type_Record fields => Forall id (map (λ x, all_resources Q x.2) fields)
  | Type_Tuple ts => Forall id (map (all_resources Q) ts)
  | Type_Variant cases => Forall id (map (λ x, from_option (all_resources Q) True x.2) cases)
  | Type_Result ok err => from_option (all_resources Q) True ok ∧ from_option (all_resources Q) True err
  | Type_Own rt | Type_Borrow rt => Q rt
  | _ => True
  end.
End types.

(** The cases of a variant are not indexed. *)
Lemma declared_variant (rs : list (gset (list (option N)) * bool)) r path :
  r ∈ rs → declared_in r path → declared_in (merge_wildcards (⋃ rs.*1), existsb snd rs) path.
Proof.
  intros Hr [[-> Hb]|(p & Hp & Hm)].
  - left. split; [done|]. cbn [snd]. apply existsb_exists. exists r. split; [by apply list_elem_of_In|done].
  - eapply declared_merge; [|exact Hm]. apply elem_of_union_list. exists r.1. split; [|done].
    by apply list_elem_of_fmap_2.
Qed.

Lemma all_replicate {RT} (Q : RT → Prop) (t : WasmCodec.Type_ RT) n :
  all_resources Q t → Forall id (map (all_resources Q) (replicate n t)).
Proof. intros Ht. induction n; constructor; auto. Qed.

Lemma map_snd {A B C} (g : B → C) (l : list (A * B)) : map (λ x, g x.2) l = map g l.*2.
Proof. induction l as [|x l IH]; [done|]. cbn. f_equal. exact IH. Qed.

Lemma lookup_zip_snd {A B} (l : list A) (k : list B) i y : (zip l k).*2 !! i = Some y → k !! i = Some y.
Proof.
  revert l i. induction k as [|z k IH]; intros [|a l] [|i]; try done. cbn. apply IH.
Qed.

Section paths.
Context `{Host} `{Leb128} `{CoreName} `{ValueWire} `{PrimCodec}.
Context (types : ResourceTypes) (num : ResourceType → nat) (io_streams : list nat).
Abbreviation Ty := (WasmCodec.Type_ ResourceType).

(** The resources which are sent as streams are known to the peer as streams. *)
Definition stream_known (rt : ResourceType) : Prop :=
  is_input_stream types rt = true → num rt ∈ io_streams.

Abbreviation declares t := (declared_in (async_paths io_streams (wty num t))).

Definition declared_msg (m : Msg) (t : Ty) : Prop :=
  all_resources stream_known t → ∀ x, x ∈ msg_traffic m → declares t x.1.

Definition declared_msgs (ms : list Msg) (ts : list Ty) : Prop :=
  Forall id (map (all_resources stream_known) ts) →
  ∀ j tr x, map msg_traffic ms !! j = Some tr → x ∈ tr →
    ∃ r, map (async_paths io_streams) (map (wty num) ts) !! j = Some r ∧ declared_in r x.1.

Definition declared_opt (m : option Msg) (t : option Ty) : Prop :=
  from_option (all_resources stream_known) True t →
  ∀ x, x ∈ from_option msg_traffic [] m → ∃ t', t = Some t' ∧ declares t' x.1.

Lemma leaf_no_traffic {R F S} (v : Val R F S) (m : Msg) : leaf v = Some m → msg_traffic m = [].
Proof. destruct v; intros [= <-]; done. Qed.

Lemma declared_msgs_cons m ms t ts :
  declared_msg m t → declared_msgs ms ts → declared_msgs (m :: ms) (t :: ts).
Proof.
  intros Hm Hms (Ht & Hts)%Forall_cons [|j] tr x; cbn.
  - intros [= <-] Hx. eexists. split; [done|by apply Hm].
  - by apply Hms.
Qed.

(** What is sent of a future and of a stream is on its own path. *)
Lemma pay_paths P : async_paths [] (component_ty (pay_ty P)) = (∅, false).
Proof. by destruct P. Qed.

Lemma future_declared P v r x :
  x ∈ streams (TFuture (pay_ty P)) v → declared_in (r, true) x.1.
Proof.
  intros Hx%streams_declared. cbn [component_ty async_paths] in Hx. rewrite pay_paths in Hx.
  destruct Hx as [Hx|(p & Hp & _)]; [by left|]. by apply elem_of_empty in Hp.
Qed.

Lemma stream_declared P v r x :
  x ∈ streams (TStream (pay_ty P)) v → declared_in (r, true) x.1.
Proof.
  intros Hx%streams_declared. cbn [component_ty async_paths] in Hx. rewrite pay_paths in Hx.
  destruct Hx as [Hx|(p & Hp & _)]; [by left|]. cbn [fst] in Hp.
  apply elem_of_push_paths in Hp as [(q & _ & Hq)|(Hq & _)]; [by apply elem_of_empty in Hq|done].
Qed.

Lemma input_declared h t rt :
  resource_of t rt → is_input_stream types rt = true → declared_msg (Val_Resource h) t.
Proof.
  intros Hr Hi Hk y Hy. destruct h as [| |chunks]; try by apply not_elem_of_nil in Hy.
  apply bytes_declared in Hy.
  destruct Hr as [-> | ->]; cbn [wty async_paths]; rewrite bool_decide_true; auto.
Qed.

Lemma exports_declared :
  (∀ v t st m st', exports types v t st m st' → declared_msg m t) ∧
  (∀ vs ts st ms st', exports_all types vs ts st ms st' → declared_msgs ms ts) ∧
  (∀ v t st m st', exports_opt types v t st m st' → declared_opt m t).
Proof.
  apply exports_mutind.
  - intros v t st m Hl _ _ x. rewrite (leaf_no_traffic _ _ Hl). by intros ?%not_elem_of_nil.
  - intros vs t st ms st' _ Hms IH Hk x Hx. right. eapply list_declared; [|exact Hx].
    intros tr y (j & Hj)%list_elem_of_lookup_1 Hy.
    destruct (IH (all_replicate _ t _ Hk) j tr y Hj Hy) as (r & Hr & Hd).
    rewrite !list_lookup_fmap in Hr. apply fmap_Some in Hr as (w & Hw & ->).
    apply fmap_Some in Hw as (t' & Ht & ->). by apply lookup_replicate in Ht as (-> & _).
  - intros vs fields st ms st' Hms IH Hk x Hx. right.
    cbn [wty async_paths msg_traffic all_resources] in *.
    rewrite (map_snd (wty num)). rewrite (map_snd (all_resources stream_known)) in Hk.
    rewrite (map_snd msg_traffic) in Hx. eapply fields_declared; [|exact Hx].
    intros j tr y Hj. apply IH; [done|].
    rewrite list_lookup_fmap in Hj |- *. apply fmap_Some in Hj as (m & Hm & ->).
    by rewrite (lookup_zip_snd _ _ _ _ Hm).
  - intros vs ts st ms st' Hms IH Hk x Hx. right. eapply fields_declared; [|exact Hx]. by apply IH.
  - intros case v cases i t st m st' _ _ Hi _ IH Hk x Hx.
    cbn [wty async_paths all_resources] in *.
    assert (map (λ x, from_option (all_resources stream_known) True x.2) cases !! i =
      Some (from_option (all_resources stream_known) True t)) as Hq
      by (rewrite list_lookup_fmap, Hi; done).
    rewrite Forall_lookup in Hk. destruct (IH (Hk i _ Hq) x ltac:(by destruct m)) as (t' & -> & Hd).
    eapply declared_variant; [|exact Hd]. apply (list_elem_of_lookup_2 _ i).
    by rewrite !list_lookup_fmap, Hi.
  - by intros t st _ x ?%not_elem_of_nil.
  - intros v t st m st' _ IH. exact IH.
  - intros ok v ok_ty err_ty st m st' _ IH (Hok & Herr) x Hx.
    destruct (IH ltac:(by destruct ok) x ltac:(by destruct m)) as (t & Ht & Hd).
    cbn [wty async_paths]. eapply declared_case; [|exact Hd]. destruct ok; subst; auto.
  - intros. by eapply input_declared.
  - by intros; intros ? x ?%not_elem_of_nil.
  - by intros; intros ? x ?%not_elem_of_nil.
  - intros f t P st v h _ _ _ _ x Hx. by eapply future_declared.
  - intros s t P st offers h _ _ _ _ _ x Hx. by eapply stream_declared.
  - by intros st _ [|j].
  - intros. by apply declared_msgs_cons.
  - by intros st _ x ?%not_elem_of_nil.
  - intros v t st m st' _ IH Hk x Hx. exists t. split; [done|by apply IH].
Qed.

(** [C13] Every path on which a pending part of the parameters of a component is
    sent resolves to a declared position of the subscriptions of a peer which
    declares the asynchronous paths of the parameter types, provided that it
    knows the resources which are sent as streams. *)
Theorem val_paths_declared vs ts st ms st' x tx :
  exports types (Val_Tuple vs) (Type_Tuple ts) st ms st' →
  all_resources stream_known (Type_Tuple ts) → x ∈ msg_traffic ms →
  let ps := elements (params_async_paths io_streams (map (wty num) ts)) in
  ∃ pt pat, resolve (Subscriptions_new ps tx) x.1 = Some (pt, pat) ∧ p_declared pt = true.
Proof.
  intros He Hk Hx ps. apply (resolve_declared_iff _ ps); [|apply s_patterns_new|].
  - apply (async_paths_compatible io_streams (WTuple (map (wty num) ts))).
  - destruct (proj1 exports_declared _ _ _ _ _ He Hk x Hx) as [[_ Hf]|(p & Hp & Hm)]; [done|].
    right. exists p. split; [|done]. by apply elem_of_elements.
Qed.

End paths.
