(* ===== verification/WasmPlain.v ===== *)
(** * Plain values and shared resources of components

    Two uses of the codec of [crates/wasmtime/src/codec.rs]: a value without
    resources, futures and streams is read back as it was encoded, and a resource
    of a component which was sent to a peer and is sent back by it is the same
    resource again. *)

From S2P Require Import Prelude Wire FrameCodec Prims Wave Subscriptions Resolve Conn Delivery Egress.
From S2P Require Import Introspect Encode Pack Decode Values ValuesStd Transmit Declared Resume Receive Exchange.
From S2P Require Import WasmCodec WasmValues WasmExchange.

(** ** Plain values *)

Abbreviation Plain := (Val Empty_set Empty_set Empty_set).

(** A plain value is one for any resources, futures and streams. *)
Fixpoint inject {R F S} (v : Plain) : Val R F S :=
  match v with
  | Val_Bool b => Val_Bool b | Val_S8 z => Val_S8 z | Val_U8 b => Val_U8 b | Val_S16 z => Val_S16 z
  | Val_U16 n => Val_U16 n | Val_S32 z => Val_S32 z | Val_U32 n => Val_U32 n | Val_S64 z => Val_S64 z
  | Val_U64 n => Val_U64 n | Val_Float32 n => Val_Float32 n | Val_Float64 n => Val_Float64 n
  | Val_Char c => Val_Char c | Val_String s => Val_String s
  | Val_List vs => Val_List (map inject vs)
  | Val_Record vs => Val_Record (map (λ x, (x.1, inject x.2)) vs)
  | Val_Tuple vs => Val_Tuple (map inject vs)
  | Val_Variant c v => Val_Variant c (option_map inject v)
  | Val_Enum c => Val_Enum c
  | Val_Option v => Val_Option (option_map inject v)
  | Val_Result ok v => Val_Result ok (option_map inject v)
  | Val_Flags fs => Val_Flags fs
  | Val_Resource r => match r with end
  | Val_Future f => match f with end
  | Val_Stream s => match s with end
  end.

(** Fields have the names of the type, and flags the order of the type. *)
Fixpoint in_order {R F S RT} (v : Val R F S) (ty : Type_ RT) : Prop :=
  match v, ty with
  | Val_List vs, Type_List ty => foldr (λ v P, in_order v ty ∧ P) True vs
  | Val_Record vs, Type_Record fields => vs.*1 = fields.*1 ∧ zip_fields_ok in_order vs fields
  | Val_Tuple vs, Type_Tuple tys => zip_ok in_order vs tys
  | Val_Variant case v, Type_Variant cases =>
      match list_find (λ name, name = case) cases.*1 with
      | Some (i, _) => opt_ok in_order v (cases !! i ≫= snd)
      | None => True
      end
  | Val_Option (Some v), Type_Option ty => in_order v ty
  | Val_Result ok v, Type_Result ok_ty err_ty => opt_ok in_order v (if ok then ok_ty else err_ty)
  | Val_Flags flags, Type_Flags names => flags = filter (.∈ flags) names
  | _, _ => True
  end.

Section plain.
Context `{Host} `{Leb128, CoreName, ValueWire, PrimCodec}.
Abbreviation Ty := (Type_ ResourceType).
Abbreviation Value := (Val ResourceAny FutureAny StreamAny).

(** The value is sent as itself, is received as itself, and nothing is pending. *)
Definition stable (v : Plain) (ty : Ty) : Prop :=
  (∀ types st, exports types (inject v) ty st (inject v) st) ∧
  (∀ types st, imports types (inject v) ty st (inject v) st) ∧
  msg_traffic (inject v) = [].

Definition stable_all (vs : list Plain) (tys : list Ty) : Prop :=
  (∀ types st, exports_all types (map inject vs) tys st (map inject vs) st) ∧
  (∀ types st, imports_all types (map inject vs) tys st (map inject vs) st) ∧
  ∀ i, indexed i (map msg_traffic (map inject vs)) = [].

Definition plain_ok (v : Plain) : Prop :=
  ∀ ty, msg_ok (inject v) ty → in_order v ty → stable v ty.

Lemma stable_zip vs tys :
  Forall plain_ok vs → zip_ok msg_ok (map inject vs) tys → zip_ok in_order vs tys → stable_all vs tys.
Proof.
  intros Hvs. revert tys. induction Hvs as [|v vs Hv _ IH]; intros [|ty tys]; try done.
  { intros _ _. by repeat split; constructor. }
  intros (Hm & Hms) (Ho & Hos). destruct (Hv ty Hm Ho) as (He & Hi & Ht).
  destruct (IH tys Hms Hos) as (Hes & His & Hts). repeat split.
  - intros types st. by econstructor.
  - intros types st. by econstructor.
  - intros i. cbn [map indexed]. by rewrite Ht, Hts.
Qed.

Lemma stable_opt v ty :
  from_option plain_ok True v → opt_ok msg_ok (option_map inject v) ty → opt_ok in_order v ty →
  (∀ types st, exports_opt types (option_map inject v) ty st (option_map inject v) st) ∧
  (∀ types st, imports_opt types (option_map inject v) ty st (option_map inject v) st) ∧
  from_option msg_traffic [] (option_map inject v) = [].
Proof.
  destruct v as [v|], ty as [ty|]; try done.
  - intros Hv Hm Ho. destruct (Hv ty Hm Ho) as (He & Hi & Ht). by repeat split; intros; try constructor.
  - intros _ _ _. by repeat split; constructor.
Qed.

Lemma zip_list {A B C} (g : A → C) (f : C → B → Prop) vs (ty : B) :
  foldr (λ v P, f v ty ∧ P) True (map g vs) → zip_ok f (map g vs) (replicate (length vs) ty).
Proof. induction vs as [|v vs IH]; [done|]. intros (Hv & Hvs). split; auto. Qed.

Lemma zip_fields {A B} (f : A → B → Prop) (vs : list (bytes * A)) (fields : list (bytes * B)) :
  zip_fields_ok f vs fields → zip_ok f vs.*2 fields.*2.
Proof.
  revert fields. induction vs as [|[n v] vs IH]; intros [|[n' ty] fields]; try done.
  intros (Hv & Hvs). split; [done|]. by apply IH.
Qed.

Lemma inject_snd {R F S} (vs : list (bytes * Plain)) :
  (map (λ x, (x.1, inject (R := R) (F := F) (S := S) x.2)) vs).*2 = map inject vs.*2.
Proof. induction vs as [|x vs IH]; [done|]. cbn. f_equal. exact IH. Qed.

Lemma inject_fst {R F S} (vs : list (bytes * Plain)) :
  (map (λ x, (x.1, inject (R := R) (F := F) (S := S) x.2)) vs).*1 = vs.*1.
Proof. induction vs as [|x vs IH]; [done|]. cbn. f_equal. exact IH. Qed.

Lemma inject_zip {R F S} (vs : list (bytes * Plain)) :
  zip vs.*1 (map (inject (R := R) (F := F) (S := S)) vs.*2) = map (λ x, (x.1, inject x.2)) vs.
Proof. induction vs as [|x vs IH]; [done|]. cbn. f_equal. exact IH. Qed.

Lemma stable_list vs : Forall plain_ok vs → plain_ok (Val_List vs).
Proof.
  intros Hvs ty Hm Ho. destruct ty; try done. cbn [inject msg_ok in_order] in *. destruct Hm as (Hl & Hm).
  destruct (stable_zip vs (replicate (length vs) ty)) as (He & Hi & Ht).
  { done. }
  { by apply zip_list. }
  { rewrite <- (map_id vs) at 1. apply zip_list. by rewrite map_id. }
  unfold len in Hl. rewrite length_map in Hl. repeat split.
  - intros types st. apply exports_list; [unfold len; by rewrite length_map|]. rewrite length_map. apply He.
  - intros types st. apply imports_list. rewrite length_map. apply Hi.
  - apply Ht.
Qed.

Lemma stable_record vs : Forall plain_ok vs.*2 → plain_ok (Val_Record vs).
Proof.
  intros Hvs ty Hm Ho. destruct ty; try done. cbn [inject msg_ok in_order] in *. destruct Ho as (Hn & Ho).
  destruct (stable_zip vs.*2 fields.*2) as (He & Hi & Ht).
  { done. }
  { rewrite <- inject_snd. by apply zip_fields. }
  { by apply zip_fields. }
  unfold stable. cbn [inject]. repeat split.
  - intros types st. rewrite <- (inject_zip (R := handle)).
    rewrite <- (inject_fst (R := ResourceAny) (F := FutureAny) (S := StreamAny)) at 1.
    apply exports_record. rewrite inject_snd. apply He.
  - intros types st. rewrite <- (inject_zip (R := ResourceAny)), Hn. apply imports_record.
    rewrite inject_snd. apply Hi.
  - cbn [msg_traffic]. rewrite traffic_snd, inject_snd. apply Ht.
Qed.

Lemma stable_variant c v : from_option plain_ok True v → plain_ok (Val_Variant c v).
Proof.
  intros Hv ty Hm Ho. destruct ty as [| | | | | | | | | | | | | | | |cases| | | | | | | | | | |]; try done.
  cbn [inject msg_ok in_order] in *. destruct Hm as (Hl & Hm).
  destruct (list_find (λ name, name = c) cases.*1) as [[i c']|] eqn:Hf; [|done].
  pose proof Hf as (Hi & -> & _)%list_find_Some. rewrite list_lookup_fmap in Hi.
  apply fmap_Some in Hi as ([c' ty] & Hi & Hc). cbn [fst] in Hc. subst c'. rewrite Hi in Hm, Ho. cbn [mbind option_bind snd fst] in *.
  repeat split.
  - intros types st. eapply exports_variant; try done. by apply stable_opt.
  - intros types st. eapply imports_variant; try done. by apply stable_opt.
  - destruct v as [v|], ty as [ty|]; try done. by apply Hv in Hm as (_ & _ & Ht).
Qed.

Lemma stable_option v : from_option plain_ok True v → plain_ok (Val_Option v).
Proof.
  intros Hv ty Hm Ho. destruct ty, v as [v|]; try done; cbn [inject option_map msg_ok in_order] in *.
  - destruct (Hv ty Hm Ho) as (He & Hi & Ht). by repeat split; intros; [constructor..|].
  - by repeat split; constructor.
Qed.

Lemma stable_value v : plain_ok v.
Proof.
  induction v using val_ind_nested; try match goal with e : Empty_set |- _ => destruct e end;
    try (by intros ty Hm _; repeat split; intros; [apply exports_leaf|apply imports_leaf]).
  - by apply stable_list.
  - by apply stable_record.
  - intros ty Hm Ho. destruct ty; try done. destruct (stable_zip vs types) as (He & Hi & Ht); [done..|].
    by repeat split; intros; [apply exports_tuple|apply imports_tuple|apply Ht].
  - by apply stable_variant.
  - by apply stable_option.
  - intros ty Hm Ho. destruct ty as [| | | | | | | | | | | | | | | | | | |ok_ty err_ty| | | | | | | |]; try done.
    match goal with IH : from_option _ _ v |- _ => pose proof (stable_opt v _ IH Hm Ho) as Hs end.
    unfold stable. cbn [inject]. repeat split.
    + intros types st. apply exports_result, Hs.
    + intros types st. apply imports_result, Hs.
    + destruct v as [v|]; [|done]. apply Hs.
  - intros ty Hm Ho. destruct ty; try done. cbn [inject in_order] in *. repeat split.
    + intros. by apply exports_leaf.
    + intros. rewrite Ho at 2. apply imports_flags.
Qed.
End plain.

Section roundtrip.
Context `{Host} `{Leb128} {HL : Leb128Laws} `{CoreName} {HN : CoreNameLaws}.
Context `{ValueWire} {HV : ValueWireLaws} `{PrimCodec} {HP : PrimLaws} {HPR : PrimResume}.
Context (flush : nat → bool) `{CmEncoder OutgoingFn} {HCE : CmEncoderLaws OutgoingFn}.
Context `{FramedRead} {HF : FramedReadLaws}.
Context `{CmDecoder IncomingFn} {HCM : CmDecoderLaws IncomingFn} {HR : CmDecoderResume IncomingFn}.

(** A value of a component without resources, futures and streams is
    encoded with nothing left to send and without any effect on the store, and is
    read back by any peer, whatever its store, as the same value, with what
    follows its encoding left to read. *)
Theorem val_roundtrip types v ty dst st :
  msg_ok (inject v) ty → in_order v ty →
  ∃ e, encode flush types (inject v) ty (dst, st) = (Ok None, (dst ++ e, st)) ∧
    ∀ env types' path rest st',
      read_value env types' ty path (e ++ rest, st') = (Ok (inject v), (rest, st')).
Proof.
  intros Hm Ho. destruct (stable_value v ty Hm Ho) as (He & Hi & Ht). exists (code (inject v) ty). split.
  - destruct (proj1 (exports_encode flush types) _ _ _ _ _ (He types st)) as (_ & Hd).
    destruct (Hd dst) as (d & Hd' & Hn & _). by rewrite Hd', (proj2 Hn Ht).
  - intros env types' path rest st'.
    apply (proj1 (imports_read types' env) _ _ _ _ _ (Hi types' st')); [done|].
    rewrite Ht. by intros q ?%not_elem_of_nil.
Qed.

End roundtrip.

(** ** Shared resources *)

(** What the codec relies on of Wasmtime and of [uuid] for resources: an
    identifier is 16 bytes which determine it, and a resource which was made of
    the handle in the table has the type of remote resources and the handle. *)
Class HostLaws `{Host} : Prop := {
  uuid_from_to id : uuid_from_bytes_le (uuid_to_bytes_le id) = id;
  uuid_len id : len (uuid_to_bytes_le id) = 16%N;
  remote_pushed buf h rep h1 r h2 :
    table_push_remote buf h = (Some rep, h1) →
    try_into_resource_any host_remote rep h1 = (Some r, h2) →
    resource_ty r = host_remote ∧
    ∃ owned h3 h4, try_into_resource host_remote r h2 = (Some (mkResource rep owned), h3) ∧
      (if owned then table_delete_remote rep h3 else table_get_remote rep h3) = (Some buf, h4)
}.

Section shared.
Context `{Host} {HH : HostLaws} `{Leb128} {HL : Leb128Laws} `{CoreName} {HN : CoreNameLaws}.
Context `{ValueWire} {HV : ValueWireLaws} `{PrimCodec} {HP : PrimLaws} {HPR : PrimResume}.
Context (flush : nat → bool) `{CmEncoder OutgoingFn} {HCE : CmEncoderLaws OutgoingFn}.
Context `{FramedRead} {HF : FramedReadLaws}.
Context `{CmDecoder IncomingFn} {HCM : CmDecoderLaws IncomingFn} {HR : CmDecoderResume IncomingFn}.

Lemma uuid_fits id : (len (uuid_to_bytes_le id) ≤ u32_MAX)%N.
Proof. by rewrite uuid_len. Qed.

(** A remote resource is made of what was read, which is what it is encoded as. *)
Lemma remote_read_encode env types ty rt path buf st v s :
  resource_of ty rt → is_input_stream types rt = false → rt ∉ rt_guest types →
  (len buf ≤ u32_MAX)%N →
  read_value env types ty path (leb_encode (len buf) ++ buf, st) = (Ok v, s) →
  s.1 = [] ∧ ∃ st', encode flush types v ty ([], s.2) = (Ok None, (leb_encode (len buf) ++ buf, st')).
Proof.
  intros Hty Hi Hg Hlen Hv. rewrite (read_resource_of types env _ _ _ Hty) in Hv.
  unfold read_resource in Hv. rewrite Hi, decide_False in Hv by done.
  apply bind_inv in Hv as (r & s1 & Hr & [= <- <-]). unfold read_remote in Hr.
  pose proof (reads_bytes buf st Hlen []) as Hb. rewrite !app_nil_r in Hb.
  rewrite (bind_ok _ _ _ _ _ Hb) in Hr. unfold with_store, bind in Hr. cbn [fst snd] in Hr.
  destruct (table_push_remote buf (st_host st)) as [[rep|] h1] eqn:Hp; [|done]. cbn [st_host set_host fst snd] in Hr.
  destruct (try_into_resource_any host_remote rep h1) as [[r'|] h2] eqn:Ha; [|done].
  injection Hr as -> <-. split; [done|].
  destruct (remote_pushed _ _ _ _ _ _ Hp Ha) as (Hr & owned & h3 & h4 & Ht & Hd).
  destruct (remote_encodes flush types r ty rt (set_host h2 st) rep owned h3 buf h4 Hty Hi Hr Ht Hd Hlen [])
    as (d & He & (Hn & _)). exists (set_host h4 (set_host h2 st)). rewrite (proj2 Hn eq_refl) in He.
  etransitivity; [exact He|]. by destruct Hty as [-> | ->].
Qed.

(** [C11] A resource of a component which is sent to a peer, where it is not a
    resource of the component, becomes a remote resource there; the peer encodes
    it exactly as it was sent, and the component reads that as the resource
    which it had shared, as long as its entry is in the table. *)
Theorem guest_resource_returns types types' ty rt ty' rt' r st e s env path st' v s' :
  resource_of ty rt → is_input_stream types rt = false → rt ∈ rt_guest types →
  resource_ty r ≠ host_remote →
  encode flush types (Val_Resource r) ty ([], st) = (Ok None, (e, s)) →
  resource_of ty' rt' → is_input_stream types' rt' = false → rt' ∉ rt_guest types' →
  read_value env types' ty' path (e, st') = (Ok v, s') →
  s'.1 = [] ∧
  (∃ st'', encode flush types' v ty' ([], s'.2) = (Ok None, (e, st''))) ∧
  ∀ env path rest s2, st_shared s ⊆ st_shared s2 →
    read_value env types ty path (e ++ rest, s2) = (Ok (Val_Resource r), (rest, s2)).
Proof.
  intros Hty Hi Hg Hr He Hty' Hi' Hg' Hv.
  destruct (guest_encodes flush types r ty rt st _ Hty Hi Hr Hg eq_refl (uuid_fits _) []) as (d & Hd & _).
  rewrite He in Hd. set (buf := uuid_to_bytes_le (now_v7 (st_ids st))) in *. injection Hd as _ Hc ->.
  assert (e = leb_encode (len buf) ++ buf) as -> by (rewrite Hc; by destruct Hty as [-> | ->]).
  destruct (remote_read_encode env types' ty' rt' path buf st' v s' Hty' Hi' Hg' (uuid_fits _) Hv) as (Hs & Hs').
  split; [done|]. split; [done|]. intros env' path' rest s2 Hsub.
  apply (reads_guest types env' buf ty rt s2 r path'); try done; [apply uuid_len|].
  unfold buf. rewrite uuid_from_to. eapply lookup_weaken; [|exact Hsub]. apply lookup_insert_eq.
Qed.

End shared.
