(* ===== verification/WasmCall.v ===== *)
(** * Calls of components

    Model of the calls which components make and answer: [call] of
    [crates/wasmtime/src/lib.rs], which serves an invocation by an export of a
    component, and [invoke], [call] and [link_function] of
    [crates/wasmtime/src/polyfill.rs], which satisfy an import by an invocation.
    The function of the component, the client and the transmission of the writes
    of a handle are parameters. *)

From S2P Require Import Prelude Wire FrameCodec Prims Wave Subscriptions Resolve SubsInv Conn Delivery Egress Server.
From S2P Require Import Introspect Encode Pack Decode Values ValuesStd Transmit Declared Resume Receive Exchange.
From S2P Require Import WasmCodec WasmValues WasmExchange WasmPaths.

(** ** Names *)

(** [str::strip_prefix] *)
Definition strip_prefix (prefix name : bytes) : option bytes :=
  if decide (take (length prefix) name = prefix) then Some (drop (length prefix) name) else None.

Definition constructor_prefix : bytes :=
  [x5b; x63; x6f; x6e; x73; x74; x72; x75; x63; x74; x6f; x72; x5d].
Definition static_prefix : bytes := [x5b; x73; x74; x61; x74; x69; x63; x5d].
Definition method_prefix : bytes := [x5b; x6d; x65; x74; x68; x6f; x64; x5d].

Definition rpc_func_name (name : bytes) : bytes :=
  match strip_prefix constructor_prefix name with
  | Some name => name
  | None =>
      match strip_prefix static_prefix name with
      | Some name => name
      | None => match strip_prefix method_prefix name with Some name => name | None => name end
      end
  end.

(** ** Errors *)

(** [rpc::Error] *)
Inductive RpcError :=
  | RpcInvoke (e : ErrorKind)
  | RpcTransmission (e : ErrorKind)
  | RpcIncomingIndex (e : ErrorKind)
  | RpcOutgoingIndex (e : ErrorKind)
  | RpcRead (e : ErrorKind)
  | RpcWrite (e : ErrorKind)
  | RpcDataTaken
  | RpcUndeclared.

(** [CallError]; [TypeMismatch] is with the error of the conversion of a
    resource as well. *)
Inductive CallError :=
  | CallDecode (e : ErrorKind)
  | CallEncode (e : EncodeError)
  | CallTable
  | CallCall
  | CallTypeMismatch
  | CallWrite (e : ErrorKind)
  | CallFlush (e : ErrorKind)
  | CallDeferred (e : ErrorKind)
  | CallPostReturn
  | CallGuest (e : RpcError).

(** What [invoke] of a polyfill fails with *)
Inductive InvokeError :=
  | InvocationFailed (e : ErrorKind)
  | ParamsFailed (e : ErrorKind)
  | FlushFailed (e : ErrorKind)
  | ResultsFailed (e : ErrorKind)
  | TransmissionTimedOut
  | ReceiptTimedOut.

Inductive PolyfillError :=
  | PolyfillEncode (e : EncodeError)
  | PolyfillInvoke (e : InvokeError)
  | PolyfillResults
  | PolyfillTable.

(** The errors of [wrpc:rpc] in the table of Wasmtime, and a numbering of the
    types of resources *)
Class RpcHost `{Host} := {
  host_error : ResourceType;
  table_push_error : RpcError → HostStore → option N * HostStore;
  table_delete_error : N → HostStore → option RpcError * HostStore;
  resource_num : ResourceType → nat;
  invoke_error : InvokeError → ErrorKind
}.

(** [wrpc:rpc/error@0.2.0] and [error] *)
Definition rpc_error_instance : bytes :=
  [x77; x72; x70; x63; x3a; x72; x70; x63; x2f; x65; x72; x72; x6f; x72; x40; x30; x2e; x32; x2e; x30].
Definition rpc_error_name : bytes := [x65; x72; x72; x6f; x72].

(** What the invocation of a client yields: the handle of the parameters, and
    the data of the root and of the other paths of the results *)
Record Invocation := mkInvocation {
  inv_tx : Outgoing;
  inv_rx : bytes;
  inv_env : Env
}.

Section call.
Context `{RpcHost} `{Leb128, CoreName, ValueWire, PrimCodec} (flush : nat → bool).
Context `{CmEncoder OutgoingFn} `{FramedRead} `{CmDecoder IncomingFn}.

Abbreviation Ty := (WasmCodec.Type_ ResourceType).
Abbreviation Value := (Val ResourceAny FutureAny StreamAny).
Abbreviation HostResources := (list (bytes * list (bytes * (ResourceType * ResourceType)))).

(** [HashMap::get] *)
Definition map_get {A} (key : bytes) (m : list (bytes * A)) : option A :=
  snd ∘ snd <$> list_find (λ x, x.1 = key) m.

Definition rpc_result_type (host_resources : HostResources) (results_ty : list Ty) :
    option (option Ty) :=
  match map_get rpc_error_instance host_resources ≫= map_get rpc_error_name, results_ty with
  | Some (guest_rpc_err_ty, host_rpc_err_ty), [Type_Result ok (Some (Type_Own err))] =>
      if decide (host_rpc_err_ty = host_error ∧ err = guest_rpc_err_ty) then Some ok else None
  | _, _ => None
  end.

(** ** Serving *)

(** [map_err] *)
Definition map_err {S E E' A} (f : E → E') (m : ST S E A) : ST S E' A := λ s,
  match m s with
  | (Ok a, s) => (Ok a, s)
  | (Err e, s) => (Err (f e), s)
  end.

(** An operation of Wasmtime, with an error of it as [e] *)
Definition host_op {E A} (e : E) (op : HostStore → option A * HostStore) : ST (bytes * Store) E A := λ s,
  match op (st_host s.2) with
  | (Some a, h) => (Ok a, (s.1, set_host h s.2))
  | (None, h) => (Err e, (s.1, set_host h s.2))
  end.

(** Encoding into a new buffer, while the bytes to read are kept *)
Definition with_buf {E A} (m : ST (bytes * Store) E A) : ST (bytes * Store) E (bytes * A) := λ s,
  match m ([], s.2) with
  | (Ok a, (buf, st)) => (Ok (buf, a), (s.1, st))
  | (Err e, (_, st)) => (Err e, (s.1, st))
  end.

(** The results of the function, with [rpc_result_type] of their types *)
Definition encode_results (types : ResourceTypes) (result_ty : option (option Ty)) (results_ty : list Ty)
    (results : list Value) : ST (bytes * Store) CallError (list (option OutgoingFn)) :=
  match result_ty, results with
  | None, results => map_err CallEncode (encode_types (WasmCodec.encode flush types) results results_ty)
  | Some None, [Val_Result true None] => ret []
  | Some (Some ty), [Val_Result true (Some v)] =>
      let! d := map_err CallEncode (WasmCodec.encode flush types v ty) in ret [d]
  | Some _, [Val_Result false (Some err)] =>
      match err with
      | Val_Resource err =>
          let! err := host_op CallTypeMismatch (try_into_resource host_error err) in
          let! err := host_op CallTable (table_delete_error (res_rep err)) in
          fail (CallGuest err)
      | _ => fail CallTypeMismatch
      end
  | _, _ => fail CallTypeMismatch
  end.

(** The function of the component, [None] being a trap *)
Definition Func : Type := list Value → Store → option (list Value) * Store.

(** [func.call_concurrent] *)
Definition call_concurrent (func : Func) (params : list Value) : ST (bytes * Store) CallError (list Value) :=
  λ s, match func params s.2 with
       | (Some results, st) => (Ok results, (s.1, st))
       | (None, st) => (Err CallCall, (s.1, st))
       end.

Definition from_io {S E A} (f : ErrorKind → E) (r : io_result A) : ST S E A :=
  match r with Ok a => ret a | Err e => fail (f e) end.

(** [call], on the data of the root; [env] has the data of the other paths.
    [written] and [flushed] are what writing the buffer and flushing yield.  The
    writes of the handles are the result. *)
Definition call (env : Env) (tx : Outgoing) (types : ResourceTypes) (host_resources : HostResources)
    (params_ty results_ty : list Ty) (func : Func) (written flushed : io_result unit) :
    ST (bytes * Store) CallError (list write) :=
  let! params := map_err CallDecode (read_types (read_value env types) [] 0 params_ty) in
  let! results := call_concurrent func params in
  let! (buf, deferred) :=
    with_buf (encode_results types (rpc_result_type host_resources results_ty) results_ty results) in
  let! _ := from_io CallWrite written in
  let! _ := from_io CallFlush flushed in
  let! wrs := from_io CallDeferred (write_deferred deferred tx) in
  ret (WriteBytes tx buf :: wrs).

(** The paths which a function is served with, and those of the results of an
    invocation *)
Definition async_paths_of (types : ResourceTypes) (tys : list Ty) : list (list (option N)) :=
  elements (params_async_paths (resource_num <$> rt_io_streams types) (map (wty resource_num) tys)).

(** ** Polyfills *)

Definition Client : Type := bytes → bytes → bytes → list (list (option N)) → io_result Invocation.

(** [invoke]: [flushed] is what flushing the parameters yields, and [timed]
    whether the transmission and the receipt time out.  The results which were
    read are yielded with the writes; transmission and receipt fail together, and
    the values are read before either failure is noticed. *)
Definition polyfill_invoke (types : ResourceTypes) (params : list Value) (params_ty results_ty : list Ty)
    (instance name : bytes) (clt : Client) (flushed : io_result unit) (timed : bool * bool) :
    ST Store EncodeError (result InvokeError (list Value * list write)) := λ st,
  match encode_types (WasmCodec.encode flush types) params params_ty ([], st) with
  | (Err e, (_, st)) => (Err e, st)
  | (Ok deferred, (buf, st)) =>
      match clt instance (rpc_func_name name) buf (async_paths_of types results_ty) with
      | Err e => (Ok (Err (InvocationFailed e)), st)
      | Ok inv =>
          let tx :=
            if timed.1 then Err TransmissionTimedOut
            else
              match write_deferred deferred (inv_tx inv), flushed with
              | Err e, _ => Err (ParamsFailed e)
              | _, Err e => Err (FlushFailed e)
              | Ok wrs, Ok _ => Ok wrs
              end in
          match read_types (read_value (inv_env inv) types) [] 0 results_ty (inv_rx inv, st) with
          | (r, (_, st)) =>
              let rx :=
                if timed.2 then Err ReceiptTimedOut
                else match r with Ok vs => Ok vs | Err e => Err (ResultsFailed e) end in
              (Ok (let? wrs := tx in let? vs := rx in Ok (vs, wrs)), st)
          end
      end
  end.

(** [call] of a polyfill: [slots] is the number of results *)
Definition polyfill_call (types : ResourceTypes) (params_ty results_ty : list Ty)
    (result_ty : option (option Ty)) (params : list Value) (slots : nat) (instance name : bytes)
    (clt : Client) (flushed : io_result unit) (timed : bool * bool) :
    ST Store PolyfillError (list Value * list write) :=
  match result_ty with
  | None =>
      let! res := map_err PolyfillEncode
        (polyfill_invoke types params params_ty results_ty instance name clt flushed timed) in
      match res with Ok r => ret r | Err e => fail (PolyfillInvoke e) end
  | Some result_ty =>
      if slots =? 1 then
        let! res := map_err PolyfillEncode
          (polyfill_invoke types params params_ty (option_list result_ty) instance name clt flushed timed) in
        match res with
        | Ok (ok, wrs) => ret ([Val_Result true (head ok)], wrs)
        | Err e => λ st,
            match table_push_error (RpcInvoke (invoke_error e)) (st_host st) with
            | (None, h) => (Err PolyfillTable, set_host h st)
            | (Some rep, h) =>
                match try_into_resource_any host_error rep h with
                | (None, h) => (Err PolyfillTable, set_host h st)
                | (Some err, h) =>
                    (Ok ([Val_Result false (Some (Val_Resource err))], []), set_host h st)
                end
            end
        end
      else fail PolyfillResults
  end.

(** [link_function]: the function which is linked, async or not *)
Definition link_function (guest_resources : list ResourceType) (host_resources : HostResources)
    (params_ty results_ty : list Ty) (instance name : bytes) (clt : Client) :
    list Value → nat → io_result unit → bool * bool → ST Store PolyfillError (list Value * list write) :=
  λ params slots, polyfill_call (mkResourceTypes guest_resources [host_input_stream]) params_ty results_ty
    (rpc_result_type host_resources results_ty) params slots instance name clt.

End call.
