(* ===== verification/WasmRpc.v ===== *)
(** * Remote calls of components

    The theorems on [WasmCall]: a component which calls an import, which is
    satisfied by an invocation of the function of a component elsewhere, gets the
    results of that function, with its resources, futures and streams at the
    other side; and what becomes of failures. *)

From S2P Require Import Prelude Wire FrameCodec Prims Wave Subscriptions Resolve SubsInv Conn Delivery Egress Server.
From S2P Require Import Introspect Encode Pack Decode Values ValuesStd Transmit Declared Resume Receive Exchange.
From S2P Require Import WasmCodec WasmValues WasmExchange WasmPaths WasmCall.

(** ** Specification *)

Section spec.
Context `{RpcHost}.
Abbreviation Ty := (WasmCodec.Type_ ResourceType).
Abbreviation Value := (Val ResourceAny FutureAny StreamAny).

(** What is sent of the results of a function: of [result<T, error>], where the
    error is that of [wrpc:rpc], it is the value of type [T]. *)
Definition sent_types (result_ty : option (option Ty)) (results_ty : list Ty) : list Ty :=
  match result_ty with None => results_ty | Some ty => option_list ty end.

Definition sent_results (result_ty : option (option Ty)) (results : list Value) : option (list Value) :=
  match result_ty, results with
  | None, results => Some results
  | Some None, [Val_Result true None] => Some []
  | Some (Some _), [Val_Result true (Some v)] => Some [v]
  | _, _ => None
  end.

(** The results as the caller gets them *)
Definition got_results (result_ty : option (option Ty)) (vs : list Value) : list Value :=
  match result_ty with None => vs | Some _ => [Val_Result true (head vs)] end.


End spec.

(** ** Values of a type *)

Section type_ind.
Context {RT : Type} (P : WasmCodec.Type_ RT → Prop).
Hypothesis Hleaf : ∀ ty, match ty with
  | Type_List _ | Type_Record _ | Type_Tuple _ | Type_Variant _ | Type_Option _ | Type_Result _ _ => True
  | _ => P ty end.
Hypothesis HList : ∀ ty, P ty → P (Type_List ty).
Hypothesis HRecord : ∀ fields, Forall (λ c, P c.2) fields → P (Type_Record fields).
Hypothesis HTuple : ∀ tys, Forall P tys → P (Type_Tuple tys).
Hypothesis HVariant : ∀ cases, Forall (λ c, from_option P True c.2) cases → P (Type_Variant cases).
Hypothesis HOption : ∀ ty, P ty → P (Type_Option ty).
Hypothesis HResult : ∀ ok err, from_option P True ok → from_option P True err → P (Type_Result ok err).

End type_ind.









(** The parameters of an invocation are the first frame of the root, unless
    there are none. *)
Definition root_frames (params : bytes) : list Frame :=
  if decide (params = []) then [] else [mkFrame [] params].

(** The bytes arrive at a peer which declares the paths: ingress completes, the
    data of the root is [rx], and [env] has the data of the paths [ps]. *)
Definition arrives `{Leb128} (cap : N) (paths : list (list (option N))) (wire : bytes) (rx : bytes)
    (env : Env) (ps : list (list N)) : Prop :=
  ∃ tr w, reachable cap paths wire tr w ∧ w_done w = Some (Ok tt) ∧ rx = received_on [] tr ∧
    ∀ q, q ∈ ps → ∃ cs, env_data env q = Some cs ∧ concat cs = received_on q tr.

(** The data of the messages of a call *)
Definition call_traffic `{Leb128, PrimCodec} (ms : list Msg) : traffic := indexed 0 (map msg_traffic ms).

(** ** Lemmas *)

Section values.
Context `{Leb128, ValueWire, PrimCodec}.

Lemma zip_codes_same {RT RT'} ms (tys : list (WasmCodec.Type_ RT)) (tys' : list (WasmCodec.Type_ RT')) :
  Forall2 same_type tys tys' → zip_codes code ms tys = zip_codes code ms tys'.
Proof.
  intros Hs. revert ms. induction Hs as [|ty ty' tys tys' Hty _ IH]; intros [|m ms]; try done.
  cbn [zip_codes]. by rewrite (code_same m ty ty' Hty), IH.
Qed.

Lemma zip_ok_same {RT RT'} ms (tys : list (WasmCodec.Type_ RT)) (tys' : list (WasmCodec.Type_ RT')) :
  Forall2 same_type tys tys' → zip_ok msg_ok ms tys → zip_ok msg_ok ms tys'.
Proof.
  intros Hs. revert ms. induction Hs as [|ty ty' tys tys' Hty _ IH]; intros [|m ms]; try done.
  intros (Hm & Hms). split; [by eapply msg_ok_same|by apply IH].
Qed.

End values.

Lemma stream_app `{Leb128} fs fs' : stream (fs ++ fs') = stream fs ++ stream fs'.
Proof. unfold stream. by rewrite fmap_app, concat_app. Qed.

Lemma data_on_root params q : data_on q (root_frames params) = if decide (q = []) then params else [].
Proof.
  unfold root_frames. destruct (decide (params = [])) as [->|Hne]; [by destruct (decide (q = []))|].
  rewrite data_on_singleton. cbn [f_path f_data].
  destruct (decide (q = [])) as [->|Hq]; [by rewrite decide_True|]. by rewrite decide_False.
Qed.

Lemma root_frames_fit params : (len params ≤ u32_MAX)%N → Forall frame_fits (root_frames params).
Proof.
  intros Hlen. unfold root_frames. destruct (decide _); [constructor|]. apply Forall_singleton. by split.
Qed.

Section rpc.
Context `{RpcHost} `{Leb128} {HL : Leb128Laws} `{CoreName} {HN : CoreNameLaws}.
Context `{ValueWire} {HV : ValueWireLaws} `{PrimCodec} {HP : PrimLaws} {HPR : PrimResume}.
Context (flush : nat → bool) `{CmEncoder OutgoingFn} {HCE : CmEncoderLaws OutgoingFn}.
Context `{FramedRead} {HF : FramedReadLaws}.
Context `{CmDecoder IncomingFn} {HCM : CmDecoderLaws IncomingFn} {HR : CmDecoderResume IncomingFn}.
Abbreviation Ty := (WasmCodec.Type_ ResourceType).
Abbreviation Value := (Val ResourceAny FutureAny StreamAny).
Abbreviation Rd := (ST (bytes * Store) ErrorKind).

(** The paths of parameters and results can be declared. *)
Lemma async_paths_of_compatible types (tys : list Ty) : compatible (async_paths_of types tys).
Proof. apply (async_paths_compatible _ (WTuple (map (wty resource_num) tys))). Qed.

(** The values are encoded, and their operations send the traffic. *)
Lemma values_encoded types vs (tys : list Ty) st ms st' o :
  exports_all types vs tys st ms st' → outgoing_handle o →
  fit_traffic (out_path o) (call_traffic ms) →
  zip_ok msg_ok ms tys ∧
  ∃ ds, encode_types (WasmCodec.encode flush types) vs tys ([], st) = (Ok ds, (zip_codes code ms tys, st')) ∧
    transmits (out_path o) (write_deferred ds o) (call_traffic ms).
Proof.
  intros (_ & _ & Hok & He)%(proj1 (proj2 (exports_encode flush types))) Ho Hf.
  split; [done|]. destruct (He []) as (ds & Hds & Hd). exists ds. split; [done|].
  destruct (index_all_transmits o 0 ds _ Ho Hd Hf) as (futs & Hi & Ht).
  unfold write_deferred. by rewrite (write_deferred_run _ _ _ _ Hi).
Qed.

(** What arrives of messages with their codes in the root is read as the values
    which stand for them. *)
Lemma values_arrived types ms (tys : list Ty) st vs st' cap paths fs rx env :
  imports_all types ms tys st vs st' → zip_ok msg_ok ms tys →
  (0 < cap)%N → Forall frame_fits fs → compatible paths →
  data_on [] fs = zip_codes code ms tys → (∀ q, q ≠ [] → data_on q fs = content [] (call_traffic ms) q) →
  arrives cap paths (stream fs) rx env (call_traffic ms).*1 →
  read_types (read_value env types) [] 0 tys (rx, st) = (Ok vs, ([], st')).
Proof.
  intros Hi Hok Hcap Hfit Hc Hroot Hpaths (tr & w & Hr & Hd & -> & Henv).
  assert (∀ q, received_on q tr = data_on q fs) as Hrec by (intros q; by eapply received_complete).
  rewrite Hrec, Hroot, <- (app_nil_r (zip_codes code ms tys)).
  apply (proj1 (proj2 (imports_read types env)) _ _ _ _ _ Hi); [done|].
  intros q Hq. destruct (Henv q Hq) as (cs & Hcs & Hx). exists cs. split; [done|].
  rewrite Hx, Hrec. apply Hpaths. intros ->.
  apply list_elem_of_fmap in Hq as (x & Hx' & Hin).
  pose proof (away_indexed 0 (map msg_traffic ms)) as Ha. unfold away in Ha.
  rewrite Forall_forall in Ha. by apply (Ha x Hin).
Qed.

(** ** Serving *)

Lemma encode_results_sent types result_ty results_ty results rs s :
  sent_results result_ty results = Some rs →
  encode_results flush types result_ty results_ty results s =
  map_err CallEncode (encode_types (WasmCodec.encode flush types) rs (sent_types result_ty results_ty)) s.
Proof.
  destruct result_ty as [[ty|]|]; cbn [sent_results]; [| |by intros [= <-]];
    (destruct results as [|[] [|]]; try done); destruct ok, v; try done; intros [= <-]; [|done].
  cbn [encode_results sent_types]. change (option_list (Some ty)) with [ty]. cbn [encode_types].
  unfold bind, map_err.
  by destruct (WasmCodec.encode flush types _ ty s) as [[d|e] s'].
Qed.

Lemma call_serves env tx types hr params_ty results_ty func vs results rs rx st st1 st2 ms st3 :
  read_types (read_value env types) [] 0 params_ty (rx, st) = (Ok vs, ([], st1)) →
  func vs st1 = (Some results, st2) →
  sent_results (rpc_result_type hr results_ty) results = Some rs →
  exports_all types rs (sent_types (rpc_result_type hr results_ty) results_ty) st2 ms st3 →
  outgoing_handle tx → fit_traffic (out_path tx) (call_traffic ms) →
  zip_ok msg_ok ms (sent_types (rpc_result_type hr results_ty) results_ty) ∧
  ∃ wrs, transmits (out_path tx) (Ok wrs) (call_traffic ms) ∧
    call flush env tx types hr params_ty results_ty func (Ok tt) (Ok tt) (rx, st) =
      (Ok (WriteBytes tx (zip_codes code ms (sent_types (rpc_result_type hr results_ty) results_ty)) :: wrs),
       ([], st3)).
Proof.
  intros Hr Hf Hs He Ho Hfit.
  destruct (values_encoded types rs _ st2 ms st3 tx He Ho Hfit) as (Hok & ds & Hds & wrs & Hw & Ht).
  split; [done|]. exists wrs. split; [by exists wrs|]. unfold call.
  assert (map_err CallDecode (read_types (read_value env types) [] 0 params_ty) (rx, st) = (Ok vs, ([], st1)))
    as Hr' by (unfold map_err; by rewrite Hr).
  rewrite (bind_ok _ _ _ _ _ Hr'), (bind_ok _ _ _ results ([], st2)) by (unfold call_concurrent; cbn [snd fst]; by rewrite Hf).
  erewrite (bind_ok _ _ _ (_, ds) ([], st3)).
  - cbn [from_io]. unfold ret, bind. by rewrite Hw.
  - unfold with_buf. cbn [snd fst]. rewrite (encode_results_sent _ _ _ _ _ _ Hs). unfold map_err.
    by rewrite Hds.
Qed.

(** ** Invoking *)

(** A polyfill, with what its client is asked for *)
Lemma polyfill_answered types params params_ty results_ty result_ty slots instance name st ds buf st1 wrs
    clt rx env vs st2 :
  encode_types (WasmCodec.encode flush types) params params_ty ([], st) = (Ok ds, (buf, st1)) →
  write_deferred ds Outgoing_new = Ok wrs → (result_ty = None ∨ slots = 1) →
  clt instance (rpc_func_name name) buf (async_paths_of types (sent_types result_ty results_ty)) =
    Ok (mkInvocation Outgoing_new rx env) →
  read_types (read_value env types) [] 0 (sent_types result_ty results_ty) (rx, st1) = (Ok vs, ([], st2)) →
  polyfill_call flush types params_ty results_ty result_ty params slots instance name clt (Ok tt) (false, false) st
    = (Ok (got_results result_ty vs, wrs), st2).
Proof.
  intros Hds Hw Hs Hc Hr.
  assert (map_err PolyfillEncode (polyfill_invoke flush types params params_ty (sent_types result_ty results_ty)
    instance name clt (Ok tt) (false, false)) st = (Ok (Ok (vs, wrs)), st2)) as Hi.
  { unfold map_err, polyfill_invoke. rewrite Hds, Hc. cbn [inv_tx inv_rx inv_env fst snd]. by rewrite Hw, Hr. }
  unfold polyfill_call. destruct result_ty as [ty|]; [|by rewrite (bind_ok _ _ _ _ _ Hi)].
  destruct Hs as [| ->]; [done|]. cbn [Nat.eqb]. by rewrite (bind_ok _ _ _ _ _ Hi).
Qed.

(** The frames of a call: what is in the root, and what its operations write *)
Lemma call_frames wrs ms shutdown e :
  transmits [] (Ok wrs) (call_traffic ms) → do_writes wrs (mkEgress [] None) = Ok e →
  (egress (λ w b, Ok (w ++ b)) shutdown [] (e_queue e)).2 = stream (wrs ≫= write_frames) ∧
  Forall frame_fits (wrs ≫= write_frames) ∧
  data_on [] (wrs ≫= write_frames) = [] ∧
  ∀ q, data_on q (wrs ≫= write_frames) = content [] (call_traffic ms) q.
Proof.
  intros (wrs' & [= <-] & Hok & Hq) Hd. destruct (writes_on_wire wrs shutdown e Hok Hd) as (Hw & Hf).
  assert (∀ q, data_on q (wrs ≫= write_frames) = content [] (call_traffic ms) q) as Hdata
    by (intros q; by rewrite data_on_writes).
  split_and!; [done|done| |done]. rewrite Hdata. apply content_away, away_indexed.
Qed.

(** The response: the buffer is written to the root first. *)
Lemma response_frames buf wrs ms shutdown e :
  transmits [] (Ok wrs) (call_traffic ms) →
  do_writes (WriteBytes Outgoing_new buf :: wrs) (mkEgress [] None) = Ok e →
  ∃ fs, (egress (λ w b, Ok (w ++ b)) shutdown [] (e_queue e)).2 = stream fs ∧ Forall frame_fits fs ∧
    data_on [] fs = buf ∧ ∀ q, q ≠ [] → data_on q fs = content [] (call_traffic ms) q.
Proof.
  intros (wrs' & [= <-] & Hok & Hq) Hd. exists ((WriteBytes Outgoing_new buf :: wrs) ≫= write_frames).
  assert (Forall write_ok (WriteBytes Outgoing_new buf :: wrs)) as Hok'.
  { constructor; [|done]. split; [constructor|done]. }
  destruct (writes_on_wire _ shutdown e Hok' Hd) as (Hw & Hf). split; [done|]. split; [done|].
  setoid_rewrite data_on_writes. unfold written_on. rewrite filter_cons, decide_True by done.
  rewrite fmap_cons. cbn [concat write_data]. split.
  - pose proof (Hq []) as Hn. unfold written_on in Hn. rewrite Hn.
    rewrite content_away by apply away_indexed. by rewrite app_nil_r.
  - intros q Hne. rewrite filter_cons, decide_False by (cbn; congruence). apply Hq.
Qed.

(** [C3] A remote call: the parameters of a component which calls an import
    arrive at the component which serves it, the results of its function arrive
    at the caller, and the import yields them.  The parameters are those of the
    first component, read in the store of the second; the results are those of
    the function, read in the store of the first; a result with the error of
    [wrpc:rpc] is sent as its value. *)
Theorem remote_call typesA typesB hr result_ty instance name params ptys ptys' rtys rtys' func cap slots
    stA ms stA1 vs stB stB1 results stB2 rs ms' stB3 rs' stA2 ds buf wrs e shutdown shutdown' rx env :
  exports_all typesA params ptys stA ms stA1 → imports_all typesB ms ptys' stB vs stB1 →
  Forall2 same_type ptys ptys' → func vs stB1 = (Some results, stB2) →
  sent_results (rpc_result_type hr rtys') results = Some rs →
  exports_all typesB rs (sent_types (rpc_result_type hr rtys') rtys') stB2 ms' stB3 →
  imports_all typesA ms' (sent_types result_ty rtys) stA1 rs' stA2 →
  Forall2 same_type (sent_types (rpc_result_type hr rtys') rtys') (sent_types result_ty rtys) →
  fit_traffic [] (call_traffic ms) → fit_traffic [] (call_traffic ms') → (len buf ≤ u32_MAX)%N →
  (0 < cap)%N → (result_ty = None ∨ slots = 1) →
  encode_types (WasmCodec.encode flush typesA) params ptys ([], stA) = (Ok ds, (buf, stA1)) →
  write_deferred ds Outgoing_new = Ok wrs → do_writes wrs (mkEgress [] None) = Ok e →
  arrives cap (async_paths_of typesB ptys')
    (stream (root_frames buf) ++ (egress (λ w b, Ok (w ++ b)) shutdown [] (e_queue e)).2)
    rx env (call_traffic ms).*1 →
  ∃ wrs',
    call flush env Outgoing_new typesB hr ptys' rtys' func (Ok tt) (Ok tt) (rx, stB) =
      (Ok wrs', ([], stB3)) ∧
    ∀ e' rx' env' clt,
      do_writes wrs' (mkEgress [] None) = Ok e' →
      arrives cap (async_paths_of typesA (sent_types result_ty rtys))
        (egress (λ w b, Ok (w ++ b)) shutdown' [] (e_queue e')).2 rx' env' (call_traffic ms').*1 →
      clt instance (rpc_func_name name) buf (async_paths_of typesA (sent_types result_ty rtys)) =
        Ok (mkInvocation Outgoing_new rx' env') →
      polyfill_call flush typesA ptys rtys result_ty params slots instance name clt (Ok tt) (false, false) stA
        = (Ok (got_results result_ty rs', wrs), stA2).
Proof.
  intros HxA HiB Hpt Hfunc Hsent HxB HiA Hrt HfA HfB Hlen Hcap Hslots Hds Hwrs He Harr.
  destruct (values_encoded typesA params ptys stA ms stA1 Outgoing_new HxA outgoing_handle_new HfA)
    as (HokA & ds' & Hds' & HtA).
  rewrite Hds in Hds'. injection Hds' as <- ->. rewrite Hwrs in HtA.
  destruct (call_frames wrs ms shutdown e HtA He) as (Hw & Hfit & Hroot & Hdata).
  rewrite Hw, <- stream_app in Harr.
  assert (read_types (read_value env typesB) [] 0 ptys' (rx, stB) = (Ok vs, ([], stB1))) as HrB.
  { eapply values_arrived; [done|by eapply zip_ok_same|done| |apply async_paths_of_compatible| | |exact Harr].
    - apply Forall_app. split; [by apply root_frames_fit|done].
    - rewrite data_on_app, data_on_root, Hroot, decide_True, app_nil_r by done. by apply zip_codes_same.
    - intros q Hq. by rewrite data_on_app, data_on_root, Hdata, decide_False. }
  destruct (call_serves env Outgoing_new typesB hr ptys' rtys' func vs results rs rx stB stB1 stB2 ms' stB3)
    as (HokB & wrsB & HtB & Hcall); [done..|constructor|done|].
  eexists. split; [exact Hcall|]. intros e' rx' env' clt He' Harr' Hclt.
  destruct (response_frames _ wrsB ms' shutdown' e' HtB He') as (fs & Hfs & Hfit' & Hroot' & Hdata').
  rewrite Hfs in Harr'.
  assert (read_types (read_value env' typesA) [] 0 (sent_types result_ty rtys) (rx', stA1) =
    (Ok rs', ([], stA2))) as HrA.
  { eapply values_arrived; [done|by eapply zip_ok_same|done|done|apply async_paths_of_compatible| |
      exact Hdata'|exact Harr']. rewrite Hroot'. by apply zip_codes_same. }
  by eapply polyfill_answered.
Qed.

(** ** What the caller gets *)



Section elements.
Context (f : Ty → list N → Rd Value).





End elements.





End rpc.
