(* ===== verification/WasmLink.v ===== *)
(** * Linking and serving of components

    Model of what is done with the types of a component before it is called: the
    collection of its resources in [crates/wasmtime/src/lib.rs] and
    [crates/wasmtime/src/paths.rs], and the polyfill of its imports by
    [link_item] and [link_instance] of [crates/wasmtime/src/polyfill.rs].

    A component is the tree of its items.  The linker of Wasmtime is a class of
    operations with the laws it documents: a name is defined once.  The theorems
    say which definitions a component is linked with, and which resources are
    collected. *)

From S2P Require Import Prelude Wire FrameCodec Prims Wave Subscriptions Resolve SubsInv Conn Delivery Egress Server.
From S2P Require Import Introspect Encode Pack Decode Values ValuesStd Transmit Declared Resume Receive Exchange.
From S2P Require Import WasmCodec WasmValues WasmExchange WasmPaths WasmCall.

(** ** Items *)

Section item.
Context {RT : Type}.

(** [types::ComponentItem]; a component has imports and exports. *)
Inductive ComponentItem :=
  | ComponentFunc (is_async : bool) (params results : list (WasmCodec.Type_ RT))
  | CoreFunc
  | Module_
  | Component (imports exports : list (bytes * ComponentItem))
  | ComponentInstance (exports : list (bytes * ComponentItem))
  | Type__
  | Resource_ (ty : RT).

(** Induction with the hypothesis for the items of instances and components *)
Definition ComponentItem_ind_nested (P : ComponentItem → Prop)
    (Hfunc : ∀ a ps rs, P (ComponentFunc a ps rs)) (Hcore : P CoreFunc) (Hmodule : P Module_)
    (Hcomponent : ∀ imps es, Forall (λ x, P x.2) imps → Forall (λ x, P x.2) es → P (Component imps es))
    (Hinstance : ∀ es, Forall (λ x, P x.2) es → P (ComponentInstance es))
    (Htype : P Type__) (Hresource : ∀ ty, P (Resource_ ty)) : ∀ item, P item :=
  fix go item :=
    let all := fix all (l : list (bytes * ComponentItem)) : Forall (λ x, P x.2) l :=
      match l with [] => Forall_nil_2 _ | x :: l => Forall_cons_2 _ x l (go x.2) (all l) end in
    match item with
    | ComponentFunc a ps rs => Hfunc a ps rs
    | CoreFunc => Hcore
    | Module_ => Hmodule
    | Component imps es => Hcomponent imps es (all imps) (all es)
    | ComponentInstance es => Hinstance es (all es)
    | Type__ => Htype
    | Resource_ ty => Hresource ty
    end.

(** ** Collecting resources *)

(** [collect_item_resource_exports], with those of instances and components;
    [resources.extend] appends. *)
Fixpoint collect_item_resource_exports (ty : ComponentItem) (resources : list RT) : list RT :=
  match ty with
  | ComponentFunc _ _ _ | CoreFunc | Module_ | Type__ => resources
  | Component _ exports | ComponentInstance exports =>
      (fix go (exports : list (bytes * ComponentItem)) (resources : list RT) :=
         match exports with
         | [] => resources
         | (_, ty) :: exports => go exports (collect_item_resource_exports ty resources)
         end) exports resources
  | Resource_ ty => resources ++ [ty]
  end.

(** [collect_instance_resource_exports] and [collect_component_resource_exports] *)
Definition collect_exports (exports : list (bytes * ComponentItem)) (resources : list RT) : list RT :=
  foldl (λ resources x, collect_item_resource_exports x.2 resources) resources exports.

(** [resources.get_mut(instance)] and [insert] of [collect_component_resource_imports] *)
Definition insert_resource (resources : gmap bytes (gmap bytes RT)) (instance name : bytes) (ty : RT) :
    gmap bytes (gmap bytes RT) :=
  match resources !! instance with
  | Some m => <[instance := <[name := ty]> m]> resources
  | None => <[instance := {[name := ty]}]> resources
  end.

Definition collect_import (resources : gmap bytes (gmap bytes RT)) (import : bytes * ComponentItem) :
    gmap bytes (gmap bytes RT) :=
  match import.2 with
  | ComponentFunc _ _ _ | CoreFunc | Module_ | Type__ | Component _ _ => resources
  | ComponentInstance exports =>
      foldl (λ resources x,
        match x.2 with
        | Resource_ ty => insert_resource resources import.1 x.1 ty
        | _ => resources
        end) resources exports
  | Resource_ ty => insert_resource resources [] import.1 ty
  end.

Definition collect_component_resource_imports (imports : list (bytes * ComponentItem))
    (resources : gmap bytes (gmap bytes RT)) : gmap bytes (gmap bytes RT) :=
  foldl collect_import resources imports.

(** [instance.split('@').next()] *)
Fixpoint split_at (s : bytes) : bytes :=
  match s with
  | [] | x40 :: _ => []
  | c :: s => c :: split_at s
  end.

(** [wasi:io/streams] and [input-stream] *)
Definition io_streams_instance : bytes :=
  [x77; x61; x73; x69; x3a; x69; x6f; x2f; x73; x74; x72; x65; x61; x6d; x73].
Definition input_stream_name : bytes :=
  [x69; x6e; x70; x75; x74; x2d; x73; x74; x72; x65; x61; x6d].

Definition wasi_io_stream_resources `{EqDecision RT} (imports : list (bytes * ComponentItem)) : list RT :=
  foldl (λ out x,
    if decide (split_at x.1 = io_streams_instance) then
      match x.2 !! input_stream_name with
      | Some ty => if decide (ty ∈ out) then out else out ++ [ty]
      | None => out
      end
    else out) [] (map_to_list (collect_component_resource_imports imports ∅)).

(** *** Specification *)

(** The resource is exported at a path of names. *)
Inductive exported : ComponentItem → list bytes → RT → Prop :=
  | exported_here ty : exported (Resource_ ty) [] ty
  | exported_component imps es name item path ty :
      (name, item) ∈ es → exported item path ty → exported (Component imps es) (name :: path) ty
  | exported_instance es name item path ty :
      (name, item) ∈ es → exported item path ty → exported (ComponentInstance es) (name :: path) ty.

(** The resource is imported by the name of its instance, which is empty for a
    resource which is imported itself, and its own name. *)
Definition imported (imports : list (bytes * ComponentItem)) (instance name : bytes) (ty : RT) : Prop :=
  instance = [] ∧ (name, Resource_ ty) ∈ imports ∨
  ∃ es, (instance, ComponentInstance es) ∈ imports ∧ (name, Resource_ ty) ∈ es.

(** The names of imports, and of the exports of an instance, are different, and
    no instance has the empty name. *)
Definition names_unique (imports : list (bytes * ComponentItem)) : Prop :=
  NoDup imports.*1 ∧
  ∀ i es, (i, ComponentInstance es) ∈ imports → i ≠ [] ∧ NoDup es.*1.

(** *** Lemmas *)

Lemma collect_exports_eq exports resources :
  (fix go (exports : list (bytes * ComponentItem)) (resources : list RT) :=
     match exports with
     | [] => resources
     | (_, ty) :: exports => go exports (collect_item_resource_exports ty resources)
     end) exports resources = collect_exports exports resources.
Proof. revert resources. induction exports as [|[n ty] exports IH]; intros resources; [done|]. apply IH. Qed.

Lemma collect_exports_elem exports r :
  Forall (λ x, ∀ resources, r ∈ collect_item_resource_exports x.2 resources ↔
    r ∈ resources ∨ ∃ path, exported x.2 path r) exports →
  ∀ resources, r ∈ collect_exports exports resources ↔
    r ∈ resources ∨ ∃ name item path, (name, item) ∈ exports ∧ exported item path r.
Proof.
  induction 1 as [|[name item] exports Hx _ IH]; intros resources.
  { split; [by left|]. intros [?|(? & ? & ? & []%elem_of_nil & _)]. done. }
  cbn [collect_exports foldl] in *. unfold collect_exports in IH. rewrite IH, Hx. cbn [snd]. split.
  - intros [[?|(path & ?)]|(n & i & path & ? & ?)]; [by left|right; exists name, item, path|right; exists n, i, path];
      set_solver.
  - intros [?|(n & i & path & Hin & ?)]; [by left; left|]. apply elem_of_cons in Hin as [[= -> ->]|?]; eauto 10.
Qed.

Lemma collect_elem item r resources :
  r ∈ collect_item_resource_exports item resources ↔ r ∈ resources ∨ ∃ path, exported item path r.
Proof.
  revert resources. induction item using ComponentItem_ind_nested; intros resources;
    cbn [collect_item_resource_exports]; rewrite ?collect_exports_eq, ?(collect_exports_elem _ r) by done.
  all: try (split; [by left|]; intros [?|(path & He)]; [done|inversion He]).
  - split; (intros [?|He]; [by left|right]).
    + destruct He as (n & i & path & ? & ?). exists (n :: path). by econstructor.
    + destruct He as (path & He). inversion He; subst; eauto.
  - split; (intros [?|He]; [by left|right]).
    + destruct He as (n & i & path & ? & ?). exists (n :: path). by econstructor.
    + destruct He as (path & He). inversion He; subst; eauto.
  - rewrite elem_of_app, list_elem_of_singleton. split; (intros [?|He]; [by left|right]).
    + subst. exists []. constructor.
    + destruct He as (path & He). by inversion He.
Qed.

(** The exported resources of a component are collected: exactly those
    which are exported by it, or by an instance or component it exports, at any
    depth. *)
Theorem resource_exports_collected item r :
  r ∈ collect_item_resource_exports item [] ↔ ∃ path, exported item path r.
Proof. rewrite collect_elem. split; [by intros [?%elem_of_nil|?]|by right]. Qed.

(** *** Imports *)

Definition get_resource (resources : gmap bytes (gmap bytes RT)) (key : bytes * bytes) : option RT :=
  resources !! key.1 ≫= lookup key.2.

Lemma get_insert_resource resources i n ty key :
  get_resource (insert_resource resources i n ty) key =
  if decide (key = (i, n)) then Some ty else get_resource resources key.
Proof.
  destruct key as [j k]. unfold get_resource, insert_resource. cbn [fst snd].
  destruct (decide (j = i)) as [->|Hj].
  - destruct (resources !! i) as [m|] eqn:Hi; rewrite lookup_insert_eq; cbn;
      (destruct (decide (k = n)) as [->|Hk]; [rewrite decide_True by done|rewrite decide_False by congruence]).
    + by rewrite lookup_insert_eq.
    + by rewrite lookup_insert_ne.
    + by rewrite lookup_singleton_eq.
    + by rewrite lookup_singleton_ne.
  - rewrite decide_False by congruence. destruct (resources !! i); by rewrite lookup_insert_ne.
Qed.

(** The imported resources with their names, in order *)
Definition instance_resources (i : bytes) (es : list (bytes * ComponentItem)) : list (bytes * bytes * RT) :=
  es ≫= λ x, match x.2 with Resource_ ty => [(i, x.1, ty)] | _ => [] end.
Definition import_resources (x : bytes * ComponentItem) : list (bytes * bytes * RT) :=
  match x.2 with
  | ComponentInstance es => instance_resources x.1 es
  | Resource_ ty => [([], x.1, ty)]
  | _ => []
  end.

Definition insert_all (resources : gmap bytes (gmap bytes RT)) (l : list (bytes * bytes * RT)) :
    gmap bytes (gmap bytes RT) :=
  foldl (λ resources x, insert_resource resources x.1.1 x.1.2 x.2) resources l.

Lemma insert_all_app resources l l' : insert_all resources (l ++ l') = insert_all (insert_all resources l) l'.
Proof. apply foldl_app. Qed.

Lemma collect_import_all resources x : collect_import resources x = insert_all resources (import_resources x).
Proof.
  destruct x as [i []]; try done. cbn. unfold instance_resources. revert resources.
  induction exports as [|[n item] es IH]; intros resources; [done|].
  rewrite bind_cons, insert_all_app. cbn [foldl fst snd]. rewrite IH. by destruct item.
Qed.

Lemma collect_imports_all imports resources :
  collect_component_resource_imports imports resources = insert_all resources (imports ≫= import_resources).
Proof.
  revert resources. induction imports as [|x imports IH]; intros resources; [done|].
  rewrite bind_cons, insert_all_app, <- collect_import_all. apply IH.
Qed.

(** The last of the insertions of a key counts, and is the only one. *)
Lemma get_insert_all l resources key ty :
  NoDup l.*1 → (∀ x, x ∈ l → get_resource resources x.1 = None) →
  get_resource (insert_all resources l) key = Some ty ↔
  (key, ty) ∈ l ∨ get_resource resources key = Some ty.
Proof.
  revert resources. induction l as [|[k t] l IH]; intros resources Hnd Hnone.
  { split; [by right|]. by intros [[]%elem_of_nil|]. }
  apply NoDup_cons in Hnd as (Hk & Hnd). cbn [insert_all foldl].
  fold (insert_all (insert_resource resources k.1 k.2 t) l). rewrite IH; [|done|].
  - cbn [fst snd]. rewrite get_insert_resource, elem_of_cons. destruct k as [i n]. cbn [fst snd].
    destruct (decide (key = (i, n))) as [->|Hne].
    + split; [intros [?|[= ->]]; auto|]. intros [[[= ->]|?]|Hr]; [by right|by left|].
      assert (get_resource resources (i, n) = None) by (apply (Hnone ((i, n), t)); by left). congruence.
    + split; [intros [?|?]; auto|]. intros [[[= ]|?]|?]; [congruence|by left|by right].
  - intros x Hx. rewrite get_insert_resource. destruct k as [i n]. cbn [fst snd]. rewrite decide_False.
    + apply Hnone. by right.
    + intros Heq. apply Hk. rewrite <- Heq. apply list_elem_of_fmap. by exists x.
Qed.

Lemma elem_of_instance_resources i es key ty :
  (key, ty) ∈ instance_resources i es ↔ key.1 = i ∧ (key.2, Resource_ ty) ∈ es.
Proof.
  unfold instance_resources. rewrite list_elem_of_bind. split.
  - intros ([n item] & Hin & Hx). destruct item; try (by apply elem_of_nil in Hin).
    apply list_elem_of_singleton in Hin as [= -> ->]. by split.
  - intros (<- & Hx). exists (key.2, Resource_ ty). split; [|done]. apply list_elem_of_singleton. by destruct key.
Qed.

Lemma elem_of_import_resources imports key ty :
  (key, ty) ∈ imports ≫= import_resources ↔ imported imports key.1 key.2 ty.
Proof.
  rewrite list_elem_of_bind. unfold imported. split.
  - intros ([i item] & Hin & Hx). unfold import_resources in Hin. destruct item; try (by apply elem_of_nil in Hin).
    + apply elem_of_instance_resources in Hin as (-> & Hin). right. by eexists.
    + apply list_elem_of_singleton in Hin as [= -> ->]. by left.
  - intros [(Hi & Hx)|(es & Hx & Hin)].
    + exists (key.2, Resource_ ty). split; [|done]. apply list_elem_of_singleton. destruct key. cbn in *. by subst.
    + exists (key.1, ComponentInstance es). split; [|done]. by apply elem_of_instance_resources.
Qed.
(** The keys of resources are different. *)
Lemma instance_resources_unique i es : NoDup es.*1 → NoDup (instance_resources i es).*1.
Proof.
  induction es as [|[n item] es IH]; [constructor|]. rewrite fmap_cons. intros (Hn & Hes)%NoDup_cons.
  unfold instance_resources. rewrite bind_cons. fold (instance_resources i es).
  destruct item; try by apply IH. cbn [app fst snd]. rewrite fmap_cons. constructor; [|by apply IH].
  intros ([key ty'] & Heq & Hin)%list_elem_of_fmap. cbn in Heq. subst key.
  apply elem_of_instance_resources in Hin as (_ & Hin). apply Hn, list_elem_of_fmap. by exists (n, Resource_ ty').
Qed.

Lemma import_resources_key x key ty :
  (key, ty) ∈ import_resources x → (∀ es, x.2 = ComponentInstance es → x.1 ≠ []) →
  (if decide (key.1 = []) then key.2 else key.1) = x.1.
Proof.
  destruct x as [i item]. unfold import_resources. cbn [fst snd]. destruct item; try by intros []%elem_of_nil.
  - intros (-> & _)%elem_of_instance_resources Hne. by rewrite decide_False by eauto.
  - by intros [= -> ->]%list_elem_of_singleton.
Qed.

Lemma imports_unique imports : names_unique imports → NoDup (imports ≫= import_resources).*1.
Proof.
  intros (Hnd & Hes). induction imports as [|[i item] imports IH]; [constructor|].
  rewrite fmap_cons in Hnd. apply NoDup_cons in Hnd as (Hi & Hnd).
  rewrite bind_cons, fmap_app. apply NoDup_app. split; [|split].
  - destruct item; cbn; try apply NoDup_nil_2; [|apply NoDup_singleton].
    apply instance_resources_unique. eapply (Hes i). by left.
  - intros key ([key1 ty1] & -> & H1)%list_elem_of_fmap ([key2 ty2] & Heq & H2)%list_elem_of_fmap.
    cbn in Heq. subst key2. apply list_elem_of_bind in H2 as (x & H2 & Hx). apply Hi, list_elem_of_fmap.
    exists x. split; [|done].
    apply import_resources_key in H1; [|intros es Hes'; cbn in *; subst; by eapply (Hes i); left].
    apply import_resources_key in H2; [|intros es Hes'; destruct x; cbn in *; subst; by eapply Hes; right].
    cbn in *. congruence.
  - apply IH; [done|]. intros j es Hj. apply Hes. by right.
Qed.

(** The map of the imported resources *)
Lemma resource_imports_collected' imports i n ty :
  names_unique imports →
  collect_component_resource_imports imports ∅ !! i ≫= lookup n = Some ty ↔ imported imports i n ty.
Proof.
  intros Hu. rewrite collect_imports_all.
  pose proof (get_insert_all (imports ≫= import_resources) ∅ (i, n) ty (imports_unique imports Hu)) as Hg.
  change (get_resource ?m (i, n)) with (m !! i ≫= lookup n) in Hg. rewrite Hg.
  - rewrite elem_of_import_resources. cbn [fst snd]. rewrite lookup_empty. by split; [intros [?|?]|left].
  - intros x _. unfold get_resource. by rewrite lookup_empty.
Qed.

(** The imported resources of a component are collected by the names of
    their instances and their own: the map has exactly those which the component
    imports itself, under the empty name, and those of the instances it
    imports. *)
Theorem resource_imports_collected imports i n ty :
  names_unique imports →
  collect_component_resource_imports imports ∅ !! i ≫= lookup n = Some ty ↔ imported imports i n ty.
Proof. apply resource_imports_collected'. Qed.

Lemma io_streams_elem `{EqDecision RT} (l : list (bytes * gmap bytes RT)) out ty :
  ty ∈ foldl (λ out x,
    if decide (split_at x.1 = io_streams_instance) then
      match x.2 !! input_stream_name with
      | Some ty => if decide (ty ∈ out) then out else out ++ [ty]
      | None => out
      end
    else out) out l ↔
  ty ∈ out ∨ ∃ i m, (i, m) ∈ l ∧ split_at i = io_streams_instance ∧ m !! input_stream_name = Some ty.
Proof.
  revert out. induction l as [|[i m] l IH]; intros out; cbn [foldl fst snd].
  { split; [by left|]. by intros [|(? & ? & []%elem_of_nil & _)]. }
  rewrite IH. clear IH. setoid_rewrite elem_of_cons. destruct (decide (split_at i = io_streams_instance)) as [Hi|Hi].
  - destruct (m !! input_stream_name) as [t|] eqn:Hm; [case_decide|]; rewrite ?elem_of_app, ?list_elem_of_singleton;
      naive_solver.
  - naive_solver.
Qed.

(** The resources which are served as streams of bytes are the input streams of
    the versions of [wasi:io/streams] which the component imports. *)
Theorem io_streams_collected `{EqDecision RT} imports ty :
  names_unique imports →
  ty ∈ wasi_io_stream_resources imports ↔
  ∃ i, split_at i = io_streams_instance ∧ imported imports i input_stream_name ty.
Proof.
  intros Hu. unfold wasi_io_stream_resources. rewrite io_streams_elem. split.
  - intros [[]%elem_of_nil|(i & m & Hin%elem_of_map_to_list & Hi & Hm)]. exists i. split; [done|].
    apply resource_imports_collected'; [done|]. by rewrite Hin.
  - intros (i & Hi & Him). right. apply resource_imports_collected' in Him as Hc; [|done].
    apply bind_Some in Hc as (m & Hm & Hn). exists i, m. split; [by apply elem_of_map_to_list|done].
Qed.

End item.
Arguments ComponentItem : clear implicits.

(** ** Polyfilling imports *)

Section definition.
Context `{Host}.

(** What an import is linked with: the invocation of the function of an instance,
    or a resource of the host *)
Inductive Definition_ :=
  | LinkedFunc (instance name : bytes) (is_async : bool) (params results : list (WasmCodec.Type_ ResourceType))
  | LinkedResource (host_ty : ResourceType).

(** [Linker] of Wasmtime: definitions by the path of their instance and their
    name *)
Class Linker := {
  linker : Type;
  defined : linker → list bytes → bytes → option Definition_;
  linker_define : list bytes → bytes → Definition_ → linker → option linker;
  linker_instance : list bytes → bytes → linker → option linker
}.

(** A name is defined once, and nothing else changes. *)
Class LinkerLaws `{Linker} : Prop := {
  linker_define_spec p n d L L' :
    linker_define p n d L = Some L' →
    defined L p n = None ∧
    ∀ p' n', defined L' p' n' = if decide ((p', n') = (p, n)) then Some d else defined L p' n';
  linker_instance_spec p n L L' :
    linker_instance p n L = Some L' → ∀ p' n', defined L' p' n' = defined L p' n'
}.

End definition.

Section link.
Context `{RpcHost} `{!Linker}.
Abbreviation Item := (ComponentItem ResourceType).
Context (host_resources : list (bytes * list (bytes * (ResourceType * ResourceType)))).

Inductive LinkError :=
  | CoreFuncUnsupported
  | ModuleUnsupported
  | ResourceUndefined
  | ResourceMismatch
  | LinkRefused.

Definition host_resource (instance name : bytes) : option (ResourceType * ResourceType) :=
  map_get instance host_resources ≫= map_get name.

(** An operation of the linker, which it refuses without a change *)
Definition link_op (f : linker → option linker) : ST linker LinkError unit := λ L,
  match f L with Some L => (Ok tt, L) | None => (Err LinkRefused, L) end.

(** [link_item] in the instance at [path]; the items of components and instances
    are linked in order, and those which precede an item that fails stay. *)
Fixpoint link_item (path : list bytes) (ty : Item) (instance name : bytes) : ST linker LinkError unit :=
  match ty with
  | ComponentFunc a params results => link_op (linker_define path name (LinkedFunc instance name a params results))
  | CoreFunc => fail CoreFuncUnsupported
  | Module_ => fail ModuleUnsupported
  | Component imports _ =>
      (fix go (imports : list (bytes * Item)) : ST linker LinkError unit :=
         match imports with
         | [] => ret tt
         | (name, ty) :: imports => let! _ := link_item path ty [] name in go imports
         end) imports
  | ComponentInstance exports =>
      let! _ := link_op (linker_instance path name) in
      (fix go (exports : list (bytes * Item)) : ST linker LinkError unit :=
         match exports with
         | [] => ret tt
         | (name', ty) :: exports => let! _ := link_item (path ++ [name]) ty name name' in go exports
         end) exports
  | Type__ => ret tt
  | Resource_ ty =>
      match host_resource instance name with
      | None => fail ResourceUndefined
      | Some (guest_ty, host_ty) =>
          if decide (ty = guest_ty) then link_op (linker_define path name (LinkedResource host_ty))
          else fail ResourceMismatch
      end
  end.

(** The loops over items *)
Fixpoint link_items (path : list bytes) (instance : bytes) (items : list (bytes * Item)) : ST linker LinkError unit :=
  match items with
  | [] => ret tt
  | (name, ty) :: items => let! _ := link_item path ty instance name in link_items path instance items
  end.

(** [link_instance] *)
Definition link_instance (path : list bytes) (exports : list (bytes * Item)) (name : bytes) : ST linker LinkError unit :=
  link_items path name exports.

(** *** Specification *)

(** The item of the name in the instance is linked with the definition at the
    path.  The items of an instance are invoked by the name of that instance;
    those of a component by the empty one. *)
Inductive polyfilled (path : list bytes) (instance name : bytes) : Item → list bytes → bytes → Definition_ → Prop :=
  | polyfilled_func a ps rs :
      polyfilled path instance name (ComponentFunc a ps rs) path name (LinkedFunc instance name a ps rs)
  | polyfilled_resource guest_ty host_ty :
      host_resource instance name = Some (guest_ty, host_ty) →
      polyfilled path instance name (Resource_ guest_ty) path name (LinkedResource host_ty)
  | polyfilled_component imps es name' item p n d :
      (name', item) ∈ imps → polyfilled path [] name' item p n d →
      polyfilled path instance name (Component imps es) p n d
  | polyfilled_instance es name' item p n d :
      (name', item) ∈ es → polyfilled (path ++ [name]) name name' item p n d →
      polyfilled path instance name (ComponentInstance es) p n d.

(** The items which can be polyfilled *)
Fixpoint supported (instance name : bytes) (ty : Item) : bool :=
  match ty with
  | ComponentFunc _ _ _ | Type__ => true
  | CoreFunc | Module_ => false
  | Component imports _ => forallb (λ x, supported [] x.1 x.2) imports
  | ComponentInstance exports => forallb (λ x, supported name x.1 x.2) exports
  | Resource_ ty =>
      match host_resource instance name with Some (guest_ty, _) => bool_decide (ty = guest_ty) | None => false end
  end.

(** *** Lemmas *)

Lemma link_component path imports exports instance name :
  link_item path (Component imports exports) instance name = link_items path [] imports.
Proof. cbn [link_item]. induction imports as [|[n ty] imports IH]; [done|]. cbn [link_items]. by rewrite IH. Qed.

Lemma link_component_instance path exports instance name :
  link_item path (ComponentInstance exports) instance name =
  let! _ := link_op (linker_instance path name) in link_instance (path ++ [name]) exports name.
Proof.
  cbn [link_item]. f_equal. unfold link_instance.
  induction exports as [|[n ty] exports IH]; [done|]. cbn [link_items]. by rewrite IH.
Qed.

Context {HLL : LinkerLaws}.

(** What linking an item does: it only adds definitions of the item, and all of
    them if it succeeds. *)
Definition links (ty : Item) : Prop := ∀ path instance name L,
  let '(r, L') := link_item path ty instance name L in
  (∀ p n d, defined L' p n = Some d → polyfilled path instance name ty p n d ∨ defined L p n = Some d) ∧
  (∀ p n d, defined L p n = Some d → defined L' p n = Some d) ∧
  (r = Ok tt → ∀ p n d, polyfilled path instance name ty p n d → defined L' p n = Some d).

Lemma links_define path n d L :
  let '(r, L') := link_op (linker_define path n d) L in
  (∀ p' n' d', defined L' p' n' = Some d' → (p' = path ∧ n' = n ∧ d' = d) ∨ defined L p' n' = Some d') ∧
  (∀ p' n' d', defined L p' n' = Some d' → defined L' p' n' = Some d') ∧
  (r = Ok tt → defined L' path n = Some d).
Proof.
  unfold link_op. destruct (linker_define path n d L) as [L'|] eqn:Hd; [|split_and!; [by right|done|done]].
  apply linker_define_spec in Hd as (Hn & Hd). split_and!.
  - intros p' n' d'. rewrite Hd. case_decide; [simplify_eq|]; naive_solver.
  - intros p' n' d' Hx. rewrite Hd. case_decide as Heq; [|done]. injection Heq as -> ->. congruence.
  - intros _. by rewrite Hd, decide_True.
Qed.

Lemma links_items items path instance L :
  Forall (λ x, links x.2) items →
  let '(r, L') := link_items path instance items L in
  (∀ p n d, defined L' p n = Some d →
     (∃ name item, (name, item) ∈ items ∧ polyfilled path instance name item p n d) ∨ defined L p n = Some d) ∧
  (∀ p n d, defined L p n = Some d → defined L' p n = Some d) ∧
  (r = Ok tt → ∀ name item p n d, (name, item) ∈ items → polyfilled path instance name item p n d →
     defined L' p n = Some d).
Proof.
  intros Hl. revert L. induction Hl as [|[name item] items Hx _ IH]; intros L; cbn [link_items].
  { split_and!; [by right|done|]. intros _ ????? []%elem_of_nil. }
  specialize (Hx path instance name L). unfold bind. cbn [snd] in Hx.
  destruct (link_item path item instance name L) as [[[]|e] L1]; destruct Hx as (Hx1 & Hx2 & Hx3).
  - specialize (IH L1). destruct (link_items path instance items L1) as [r L2]. destruct IH as (IH1 & IH2 & IH3).
    split_and!; [|by eauto|].
    + intros p n d [(n' & i' & ? & ?)|[?|?]%Hx1]%IH1; [left|left|by right];
        [exists n', i'|exists name, item]; set_solver.
    + intros Hr n' i' p n d [[= -> ->]|?]%elem_of_cons; eauto.
  - split_and!; [|done..]. intros p n d [?|?]%Hx1; [left; exists name, item; set_solver|by right].
Qed.

Lemma links_all ty : links ty.
Proof.
  induction ty as [a ps rs| | |imps es Himps _|es Hes| |ty] using ComponentItem_ind_nested;
    intros path instance name L.
  - cbn [link_item]. pose proof (links_define path name (LinkedFunc instance name a ps rs) L) as Hd.
    destruct (link_op _ L) as [r L']. destruct Hd as (Hd1 & Hd2 & Hd3). split_and!; [|done|].
    + intros p n d [(-> & -> & ->)|?]%Hd1; [left; constructor|by right].
    + intros Hr p n d Hp. inversion Hp; subst. by apply Hd3.
  - split_and!; [by right|done|done].
  - split_and!; [by right|done|done].
  - rewrite link_component. pose proof (links_items _ path [] L Himps) as Hd.
    destruct (link_items _ _ _ L) as [r L']. destruct Hd as (Hd1 & Hd2 & Hd3). split_and!; [|done|].
    + intros p n d [(n' & i' & ? & ?)|?]%Hd1; [left; by econstructor|by right].
    + intros Hr p n d Hp. inversion Hp; subst. eauto.
  - rewrite link_component_instance. unfold bind, link_op.
    destruct (linker_instance path name L) as [L1|] eqn:Hi; [|split_and!; [by right|done|done]].
    pose proof (links_items _ (path ++ [name]) name L1 Hes) as Hd. unfold link_instance.
    destruct (link_items _ _ _ L1) as [r L']. destruct Hd as (Hd1 & Hd2 & Hd3).
    pose proof (linker_instance_spec _ _ _ _ Hi) as Heq. split_and!.
    + intros p n d [(n' & i' & ? & ?)|?]%Hd1; [left; by econstructor|right; by rewrite <- Heq].
    + intros p n d Hx. apply Hd2. by rewrite Heq.
    + intros Hr p n d Hp. inversion Hp; subst. eauto.
  - split_and!; [by right|done|]. intros _ p n d Hx. inversion Hx.
  - cbn [link_item]. destruct (host_resource instance name) as [[guest host]|] eqn:Hh;
      [|split_and!; [by right|done|done]].
    case_decide; [subst|split_and!; [by right|done|done]].
    pose proof (links_define path name (LinkedResource host) L) as Hd.
    destruct (link_op _ L) as [r L']. destruct Hd as (Hd1 & Hd2 & Hd3). split_and!; [|done|].
    + intros p n d [(-> & -> & ->)|?]%Hd1; [left; by constructor|by right].
    + intros Hr p n d Hp. inversion Hp; subst. simplify_eq. by apply Hd3.
Qed.

(** A component which is linked has exactly the definitions of its items,
    besides those which were there: each function of an imported instance, at any
    depth, is the invocation of that name on that instance, and each resource is
    that of the host.  If linking fails, the definitions are some of these. *)
Theorem link_item_defines path ty instance name L :
  let '(r, L') := link_item path ty instance name L in
  (∀ p n d, defined L' p n = Some d → polyfilled path instance name ty p n d ∨ defined L p n = Some d) ∧
  (∀ p n d, defined L p n = Some d → defined L' p n = Some d) ∧
  (r = Ok tt → ∀ p n d, polyfilled path instance name ty p n d → defined L' p n = Some d).
Proof. apply links_all. Qed.

(** What the result of linking tells of whether the item can be polyfilled *)
Definition tells (r : result LinkError unit) (b : bool) : Prop :=
  match r with Ok _ => b = true | Err LinkRefused => True | Err _ => b = false end.

Lemma link_items_supported items path instance L :
  Forall (λ x, ∀ path instance name L, tells (link_item path x.2 instance name L).1 (supported instance name x.2)) items →
  tells (link_items path instance items L).1 (forallb (λ x, supported instance x.1 x.2) items).
Proof.
  intros Hx. revert L. induction Hx as [|[n ty'] items Hx _ IH]; intros L; [done|].
  cbn [link_items forallb fst snd] in *. specialize (Hx path instance n L). unfold bind.
  destruct (link_item path ty' instance n L) as [[[]|e] L1]; cbn [fst tells] in *.
  - rewrite Hx. apply IH.
  - destruct e; [..|done]; by rewrite Hx.
Qed.

(** Linking fails for items which cannot be polyfilled; for others it fails only
    if the linker refuses a definition. *)
Theorem link_item_supported path ty instance name L :
  tells (link_item path ty instance name L).1 (supported instance name ty).
Proof.
  revert path instance name L.
  assert (∀ f L, tells (link_op f L).1 true) as Hop by (intros f L; unfold link_op; by destruct (f L)).
  induction ty as [a ps rs| | |imps es Himps _|es Hes| |ty] using ComponentItem_ind_nested;
    intros path instance name L; try done.
  - apply Hop.
  - rewrite link_component. by apply link_items_supported.
  - rewrite link_component_instance. unfold bind, link_op. destruct (linker_instance path name L) as [L1|]; [|done].
    by apply link_items_supported.
  - cbn [link_item supported]. destruct (host_resource instance name) as [[guest host]|]; [|done].
    destruct (decide (ty = guest)); [rewrite bool_decide_true by done; apply Hop|by rewrite bool_decide_false].
Qed.

End link.
