(* ===== verification/WasmServe.v ===== *)
(** * Serving components

    Model of [crates/wasmtime/src/serve.rs]: [SharedStore], the store whose tasks
    are driven by one event loop, and [serve_function] and
    [serve_function_shared], which serve the function of a component.

    The event loop, the callers of [run] and the handles of the store are a state
    machine; the store may trap at any time.  The theorem says what becomes of
    calls of [run]: none is lost, and none fails unless the store trapped. *)

From S2P Require Import Prelude Wire FrameCodec Prims Wave Subscriptions Resolve SubsInv Conn Delivery Egress Server.
From S2P Require Import Introspect Encode Pack Decode Values ValuesStd Transmit Declared Resume Receive Exchange.
From S2P Require Import WasmCodec WasmValues WasmExchange WasmPaths WasmCall WasmLink.

(** ** The shared store *)

(** [mpsc::channel::<Task<T>>(1)] *)
Definition TASK_QUEUE : nat := 1.

Section shared_store.
Context {R : Type}.
(** What the function which is run yields *)
Context (f : N → R).

(** The loop, waiting for the tasks of the guest after it, and its results *)
Inductive event_loop := LoopRunning | LoopDraining | LoopFinished | LoopTrapped.

(** A call of [run]: it waits for room in the queue, or for the result; the
    result is in its channel; it has returned, [None] being that the event loop
    stopped; or it was dropped. *)
Inductive run_state :=
  | RunSending
  | RunSent
  | RunResolved (r : R)
  | RunReturned (r : option R)
  | RunDropped.

(** [SharedStore] with its event loop; calls are named by numbers. *)
Record SharedStore := mkSharedStore {
  ss_loop : event_loop;
  ss_handles : nat;
  ss_queue : list N;
  ss_tasks : gset N;
  ss_runs : gmap N run_state
}.

(** [SharedStore::new] *)
Definition SharedStore_new : SharedStore := mkSharedStore LoopRunning 1 [] ∅ ∅.

(** A call which has not returned borrows a handle. *)
Definition active (r : run_state) : bool :=
  match r with RunSending | RunSent | RunResolved _ => true | _ => false end.
Definition no_calls (s : SharedStore) : Prop := ∀ id r, ss_runs s !! id = Some r → active r = false.

Definition set_run (id : N) (r : run_state) (s : SharedStore) : SharedStore :=
  mkSharedStore (ss_loop s) (ss_handles s) (ss_queue s) (ss_tasks s) (<[id := r]> (ss_runs s)).
Definition set_loop (l : event_loop) (s : SharedStore) : SharedStore :=
  mkSharedStore l (ss_handles s) (ss_queue s) (ss_tasks s) (ss_runs s).

(** [Clone::clone] and [drop] of a handle *)
Definition SharedStore_clone (s : SharedStore) : SharedStore :=
  mkSharedStore (ss_loop s) (S (ss_handles s)) (ss_queue s) (ss_tasks s) (ss_runs s).
Definition SharedStore_drop (s : SharedStore) : SharedStore :=
  mkSharedStore (ss_loop s) (pred (ss_handles s)) (ss_queue s) (ss_tasks s) (ss_runs s).

(** [self.tx.send(task)]: [None] waits. *)
Definition run_send (id : N) (s : SharedStore) : option SharedStore :=
  match ss_loop s with
  | LoopFinished | LoopTrapped => Some (set_run id (RunReturned None) s)
  | _ =>
      if length (ss_queue s) <? TASK_QUEUE then
        Some (set_run id RunSent
          (mkSharedStore (ss_loop s) (ss_handles s) (ss_queue s ++ [id]) (ss_tasks s) (ss_runs s)))
      else None
  end.

(** The task has the sender of the result. *)
Definition task_alive (s : SharedStore) (id : N) : bool :=
  bool_decide (id ∈ ss_queue s) || bool_decide (id ∈ ss_tasks s).

(** [rx.await]: [None] waits. *)
Definition run_recv (id : N) (s : SharedStore) : option SharedStore :=
  match ss_runs s !! id with
  | Some (RunResolved r) => Some (set_run id (RunReturned (Some r)) s)
  | Some RunSent => if task_alive s id then None else Some (set_run id (RunReturned None) s)
  | _ => None
  end.

(** The branches of the event loop: a task is received; one completes, with the
    result or since its call was dropped; there are none left *)
Definition loop_recv (s : SharedStore) : option SharedStore :=
  match ss_queue s with
  | [] => None
  | id :: queue => Some (mkSharedStore (ss_loop s) (ss_handles s) queue ({[id]} ∪ ss_tasks s) (ss_runs s))
  end.

Definition loop_next (id : N) (s : SharedStore) : SharedStore :=
  mkSharedStore (ss_loop s) (ss_handles s) (ss_queue s) (ss_tasks s ∖ {[id]})
    (match ss_runs s !! id with
     | Some RunSent => <[id := RunResolved (f id)]> (ss_runs s)
     | _ => ss_runs s
     end).

Definition loop_break (s : SharedStore) : option SharedStore :=
  match ss_handles s, ss_queue s with
  | 0, [] => if decide (ss_tasks s = ∅) then Some (set_loop LoopDraining s) else None
  | _, _ => None
  end.

(** The store traps: the tasks and the receiver of the queue are dropped. *)
Definition loop_trap (s : SharedStore) : SharedStore :=
  mkSharedStore LoopTrapped (ss_handles s) [] ∅ (ss_runs s).

Inductive store_step : SharedStore → SharedStore → Prop :=
  | step_clone s : ss_handles s ≠ 0 → store_step s (SharedStore_clone s)
  | step_drop s : ss_handles s ≠ 0 → (1 < ss_handles s ∨ no_calls s) → store_step s (SharedStore_drop s)
  | step_run s id : ss_handles s ≠ 0 → ss_runs s !! id = None → store_step s (set_run id RunSending s)
  | step_send s id s' : ss_runs s !! id = Some RunSending → run_send id s = Some s' → store_step s s'
  | step_result s id s' : run_recv id s = Some s' → store_step s s'
  | step_cancel s id r : ss_runs s !! id = Some r → active r = true → store_step s (set_run id RunDropped s)
  | step_recv s s' : ss_loop s = LoopRunning → loop_recv s = Some s' → store_step s s'
  | step_next s id : ss_loop s = LoopRunning → id ∈ ss_tasks s → store_step s (loop_next id s)
  | step_break s s' : ss_loop s = LoopRunning → loop_break s = Some s' → store_step s s'
  | step_finish s : ss_loop s = LoopDraining → store_step s (set_loop LoopFinished s)
  | step_trap s : ss_loop s = LoopRunning ∨ ss_loop s = LoopDraining → store_step s (loop_trap s).

(** ** Invariant *)

Record store_inv (s : SharedStore) : Prop := {
  si_queue : length (ss_queue s) ≤ TASK_QUEUE;
  si_handles id r : ss_runs s !! id = Some r → active r = true → ss_handles s ≠ 0;
  si_sent id : ss_loop s = LoopRunning → ss_runs s !! id = Some RunSent → task_alive s id = true;
  si_resolved id r : ss_runs s !! id = Some (RunResolved r) ∨ ss_runs s !! id = Some (RunReturned (Some r)) → r = f id;
  si_failed id : ss_runs s !! id = Some (RunReturned None) → ss_loop s = LoopTrapped;
  si_done : ss_loop s = LoopDraining ∨ ss_loop s = LoopFinished →
    ss_handles s = 0 ∧ ss_queue s = [] ∧ ss_tasks s = ∅;
  si_trapped : ss_loop s = LoopTrapped → ss_queue s = [] ∧ ss_tasks s = ∅
}.

Lemma store_inv_new : store_inv SharedStore_new.
Proof. split; cbn; intros *; rewrite ?lookup_empty; try done; [lia|by intros [|]..]. Qed.

(** A call which is not finished when the loop is draining does not exist. *)
Lemma no_calls_done s : store_inv s → ss_loop s = LoopDraining ∨ ss_loop s = LoopFinished → no_calls s.
Proof.
  intros Hi Hl id r Hr. destruct (si_done s Hi Hl) as (Hh & _). destruct (active r) eqn:Ha; [|done].
  by destruct (si_handles s Hi id r Hr Ha).
Qed.

(** Setting a call *)
Lemma store_inv_set id r s :
  store_inv s → (active r = true → ss_handles s ≠ 0) → (r = RunSent → ss_loop s = LoopRunning → task_alive s id = true) →
  (∀ x, r = RunResolved x ∨ r = RunReturned (Some x) → x = f id) → (r = RunReturned None → ss_loop s = LoopTrapped) →
  store_inv (set_run id r s).
Proof.
  intros [Hq Hh Hs Hr Hf Hd Ht] Ha Hsent Hres Hfail. split; cbn [set_run ss_loop ss_handles ss_queue ss_tasks ss_runs];
    try done.
  - intros j x. rewrite lookup_insert. case_decide; [intros [= <-]; apply Ha|apply Hh].
  - intros j Hl. rewrite lookup_insert. case_decide; [subst; intros [= ->]; by apply Hsent|by apply Hs].
  - intros j x. rewrite !lookup_insert. case_decide; [subst|apply Hr]. intros [[= ->]|[= ->]]; apply Hres; auto.
  - intros j. rewrite lookup_insert. case_decide; [intros [= ->]; by apply Hfail|apply Hf].
Qed.
(** The loop keeps the tasks of the calls which wait for their results. *)
Lemma store_inv_tasks queue tasks s :
  store_inv s → ss_loop s = LoopRunning → length queue ≤ TASK_QUEUE →
  (∀ id, ss_runs s !! id = Some RunSent → id ∈ queue ∨ id ∈ tasks) →
  store_inv (mkSharedStore (ss_loop s) (ss_handles s) queue tasks (ss_runs s)).
Proof.
  intros [Hq Hh Hs Hr Hf Hd Ht] Hl Hlen Hsent. split; cbn; try done.
  - intros id _ Hid. unfold task_alive. cbn. apply orb_true_iff. rewrite !bool_decide_eq_true. by apply Hsent.
  - rewrite Hl. by intros [|].
  - by rewrite Hl.
Qed.

Lemma task_alive_spec s id : task_alive s id = true ↔ id ∈ ss_queue s ∨ id ∈ ss_tasks s.
Proof. unfold task_alive. by rewrite orb_true_iff, !bool_decide_eq_true. Qed.

Lemma store_inv_send s id s' :
  store_inv s → ss_runs s !! id = Some RunSending → run_send id s = Some s' → store_inv s'.
Proof.
  intros Hi Hid Hs. pose proof (si_handles s Hi id _ Hid eq_refl) as Hh. unfold run_send in Hs.
  destruct (ss_loop s) eqn:Hl.
  - destruct (Nat.ltb_spec (length (ss_queue s)) TASK_QUEUE) as [Hlt|]; [|done]. injection Hs as <-.
    apply store_inv_set; cbn [ss_handles ss_loop]; [|done| |by intros x [|]|done].
    + rewrite <- Hl. apply store_inv_tasks; [done|done|rewrite length_app; cbn; lia|]. intros j Hj.
      apply (si_sent s Hi) in Hj; [|done]. apply task_alive_spec in Hj. set_solver.
    + intros _ _. apply task_alive_spec. cbn. set_solver.
  - destruct (si_done s Hi) as (H0 & _); [by left|]. done.
  - destruct (si_done s Hi) as (H0 & _); [by right|]. done.
  - injection Hs as <-. apply store_inv_set; try done. by intros x [|].
Qed.

Lemma store_inv_result s id s' : store_inv s → run_recv id s = Some s' → store_inv s'.
Proof.
  intros Hi. unfold run_recv. destruct (ss_runs s !! id) as [[| |r|r|]|] eqn:Hid; try done.
  - destruct (task_alive s id) eqn:Ha; [done|]. intros [= <-]. apply store_inv_set; try done; [by intros x [|]|].
    intros _. destruct (ss_loop s) eqn:Hl; [|..|done].
    + by rewrite (si_sent s Hi id Hl Hid) in Ha.
    + by specialize (no_calls_done s Hi (or_introl Hl) id _ Hid).
    + by specialize (no_calls_done s Hi (or_intror Hl) id _ Hid).
  - intros [= <-]. apply store_inv_set; try done. intros x [|[= <-]]; [done|]. apply (si_resolved s Hi). by left.
Qed.

Lemma store_inv_next s id : store_inv s → ss_loop s = LoopRunning → store_inv (loop_next id s).
Proof.
  intros Hi Hl.
  assert (ss_runs s !! id = Some RunSent ∨ ss_runs s !! id ≠ Some RunSent) as [Hid|Hid]
    by (destruct (ss_runs s !! id) as [[]|]; auto).
  - assert (loop_next id s = mkSharedStore (ss_loop (set_run id (RunResolved (f id)) s))
      (ss_handles (set_run id (RunResolved (f id)) s)) (ss_queue s) (ss_tasks s ∖ {[id]})
      (ss_runs (set_run id (RunResolved (f id)) s))) as -> by (unfold loop_next; by rewrite Hid).
    apply store_inv_tasks; [|done|apply Hi|].
    + apply store_inv_set; try done; [by intros _; apply (si_handles s Hi id _ Hid)|by intros x [[= <-]|]].
    + intros j. cbn. rewrite lookup_insert. case_decide; [done|]. intros Hj%(si_sent s Hi); [|done].
      apply task_alive_spec in Hj. set_solver.
  - assert (loop_next id s = mkSharedStore (ss_loop s) (ss_handles s) (ss_queue s) (ss_tasks s ∖ {[id]}) (ss_runs s))
      as -> by (unfold loop_next; by destruct (ss_runs s !! id) as [[]|]).
    apply store_inv_tasks; [done|done|apply Hi|]. intros j Hj. pose proof Hj as Ha. apply (si_sent s Hi) in Ha; [|done].
    apply task_alive_spec in Ha. assert (j ≠ id) by congruence. set_solver.
Qed.

Lemma store_inv_step s s' : store_step s s' → store_inv s → store_inv s'.
Proof.
  intros Hstep Hi. destruct Hstep as [s Hh|s Hh Hc|s id Hh Hid|s id s' Hid Hs|s id s' Hs|s id r Hid Ha|s s' Hl Hs|
    s id Hl Hid|s s' Hl Hs|s Hl|s Hl].
  - destruct Hi as [Hq Hh' Hs Hr Hf Hd Ht]. split; cbn; auto. intros Hl. by destruct (Hd Hl) as (? & _).
  - destruct Hi as [Hq Hh' Hs Hr Hf Hd Ht]. split; cbn; auto; [|intros Hl; by destruct (Hd Hl) as (? & _)].
    intros id r Hid Ha. destruct Hc as [?|Hc]; [lia|]. rewrite (Hc id r Hid) in Ha. done.
  - apply store_inv_set; try done. by intros x [|].
  - by eapply store_inv_send.
  - by eapply store_inv_result.
  - apply store_inv_set; try done. by intros x [|].
  - unfold loop_recv in Hs. destruct (ss_queue s) as [|id queue] eqn:Hq; [done|]. injection Hs as <-.
    pose proof (si_queue s Hi) as Hlen. rewrite Hq in Hlen. cbn in Hlen.
    apply store_inv_tasks; [done|done|lia|]. intros j Hj%(si_sent s Hi); [|done]. apply task_alive_spec in Hj.
    rewrite Hq in Hj. set_solver.
  - by apply store_inv_next.
  - unfold loop_break in Hs. destruct (ss_handles s) eqn:Hh, (ss_queue s) eqn:Hq; try done.
    case_decide as Ht; [|done]. injection Hs as <-. destruct Hi as [Hq' Hh' Hs Hr Hf Hd Ht'].
    split; cbn; try done. intros id Hid. by rewrite (Hf id Hid) in Hl.
  - destruct Hi as [Hq Hh Hs Hr Hf Hd Ht]. split; cbn; auto; try done. intros id Hid. by rewrite (Hf id Hid) in Hl.
  - destruct Hi as [Hq Hh Hs Hr Hf Hd Ht]. split; cbn; auto; try done; [lia|by intros [|]].
Qed.

(** The states of a store *)
Definition store_reachable : SharedStore → Prop := rtc store_step SharedStore_new.

Lemma store_inv_reachable s : store_reachable s → store_inv s.
Proof.
  apply (rtc_ind_r (R := store_step) store_inv SharedStore_new); [apply store_inv_new|].
  intros s1 s2 _ Hstep. by apply store_inv_step.
Qed.

(** [C17] No call of [run] is lost: in every reachable state, a call which has
    returned has the result of its function, or the store trapped; one which
    waits for its result is held by the running event loop, or returns at once;
    and once the store trapped, every call returns at once.  The event loop
    completes only without handles, tasks and calls. *)
Theorem shared_store_runs s :
  store_reachable s →
  (∀ id r, ss_runs s !! id = Some (RunReturned r) → r = Some (f id) ∨ r = None ∧ ss_loop s = LoopTrapped) ∧
  (∀ id, ss_runs s !! id = Some RunSent →
     ss_loop s = LoopRunning ∧ (id ∈ ss_queue s ∨ id ∈ ss_tasks s) ∨
     ss_loop s = LoopTrapped ∧ run_recv id s = Some (set_run id (RunReturned None) s)) ∧
  (∀ id, ss_loop s = LoopTrapped → ss_runs s !! id = Some RunSending →
     run_send id s = Some (set_run id (RunReturned None) s)) ∧
  (∀ id r, ss_runs s !! id = Some (RunResolved r) → run_recv id s = Some (set_run id (RunReturned (Some (f id))) s)) ∧
  (ss_loop s = LoopDraining ∨ ss_loop s = LoopFinished → ss_handles s = 0 ∧ ss_tasks s = ∅ ∧ no_calls s).
Proof.
  intros Hs%store_inv_reachable. split_and!.
  - intros id [r|] Hr; [left|right]; [|split; [done|by apply (si_failed s Hs id)]].
    f_equal. apply (si_resolved s Hs). by right.
  - intros id Hid. destruct (ss_loop s) eqn:Hl.
    + left. split; [done|]. by apply task_alive_spec, (si_sent s Hs).
    + by specialize (no_calls_done s Hs (or_introl Hl) id _ Hid).
    + by specialize (no_calls_done s Hs (or_intror Hl) id _ Hid).
    + right. split; [done|]. unfold run_recv. rewrite Hid. destruct (si_trapped s Hs Hl) as (Hq & Ht).
      assert (task_alive s id = false) as ->; [|done]. unfold task_alive. rewrite Hq, Ht.
      rewrite !bool_decide_false; set_solver.
  - intros id Hl Hid. unfold run_send. by rewrite Hl.
  - intros id r Hr. unfold run_recv. rewrite Hr. by rewrite (si_resolved s Hs id r) by (by left).
  - intros Hl. destruct (si_done s Hs Hl) as (? & _ & ?). split_and!; [done..|by apply no_calls_done].
Qed.

End shared_store.

(** ** Serving functions *)

(** A function which is served has a new channel. *)
Lemma Server_serve_new {C O} (srv : Server C O) instance func c srv' :
  Server_serve srv instance func = (Some c, srv') →
  handler srv' instance func = Some c ∧ srv_chans srv' !! c = Some [] ∧ srv_header srv' = srv_header srv.
Proof.
  intros Hs. pose proof (handler_serve srv instance func instance func) as Hh. rewrite decide_True, Hs in Hh by done.
  unfold Server_serve in Hs. rewrite handler_default in Hs. destruct (handler srv instance func); [done|].
  injection Hs as <- <-. cbn [srv_chans srv_header] in *. by rewrite lookup_insert_eq.
Qed.

Section serve.
Context `{RpcHost} `{Leb128, CoreName, ValueWire, PrimCodec} (flush : nat → bool).
Context `{CmEncoder OutgoingFn} `{FramedRead} `{CmDecoder IncomingFn}.
Abbreviation Ty := (WasmCodec.Type_ ResourceType).
Abbreviation HostResources := (list (bytes * list (bytes * (ResourceType * ResourceType)))).

Inductive ServeError :=
  | ExportNotFound (name : bytes)
  | AlreadyServed
  | InstantiateFailed
  | FuncNotFound
  | LoopStopped
  | CallFailed (e : CallError).

(** [get_export_index] of the component *)
Context {Idx : Type} (get_export_index : option Idx → bytes → option Idx).

(** What a function is served with: the channel of its connections, its export,
    the resource types and the paths of its parameters *)
Record Served := mkServed {
  sv_chan : N;
  sv_idx : Idx;
  sv_types : ResourceTypes;
  sv_paths : list (list (option N))
}.

(** [self.serve] *)
Definition serve_paths {C O} (srv : Server C O) (instance name : bytes) : result ServeError N * Server C O :=
  let '(r, srv) := Server_serve srv instance (rpc_func_name name) in (ok_or AlreadyServed r, srv).

(** [serve_function], for a component with the imports *)
Definition serve_function {C O} (imports : list (bytes * ComponentItem ResourceType)) (params_ty : list Ty)
    (instance name : bytes) (srv : Server C O) : result ServeError Served * Server C O :=
  match (let? idx :=
           match instance with
           | [] => Ok None
           | _ => let? idx := ok_or (ExportNotFound instance) (get_export_index None instance) in Ok (Some idx)
           end in
         ok_or (ExportNotFound name) (get_export_index idx name)) with
  | Err e => (Err e, srv)
  | Ok idx =>
      let types := mkResourceTypes [] (wasi_io_stream_resources imports) in
      let '(c, srv) := serve_paths srv instance name in
      (let? c := c in Ok (mkServed c idx types (async_paths_of types params_ty)), srv)
  end.

(** [serve_function_shared]: the export and the resource types are given. *)
Definition serve_function_shared {C O} (idx : Idx) (types : ResourceTypes) (params_ty : list Ty)
    (instance name : bytes) (srv : Server C O) : result ServeError Served * Server C O :=
  let '(c, srv) := serve_paths srv instance name in
  (let? c := c in Ok (mkServed c idx types (async_paths_of types params_ty)), srv).

(** An invocation of [serve_function]: the component is instantiated in a new
    store, [instantiated] being its function, and called. *)
Definition serve_invocation (instantiated : option (option Func)) (env : Env) (tx : Outgoing) (types : ResourceTypes)
    (host_resources : HostResources) (params_ty results_ty : list Ty) (written flushed : io_result unit) :
    ST (bytes * Store) ServeError (list write) :=
  match instantiated with
  | None => fail InstantiateFailed
  | Some None => fail FuncNotFound
  | Some (Some func) =>
      WasmCall.map_err CallFailed (call flush env tx types host_resources params_ty results_ty func written flushed)
  end.

(** An invocation of [serve_function_shared]: the task of a call of [run] of the
    store; [stopped] is that the call returned since the event loop stopped. *)
Definition serve_invocation_shared (stopped : bool) (get_func : option Func) (env : Env) (tx : Outgoing)
    (types : ResourceTypes) (host_resources : HostResources) (params_ty results_ty : list Ty)
    (written flushed : io_result unit) : ST (bytes * Store) ServeError (list write) :=
  if stopped then fail LoopStopped
  else
    match get_func with
    | None => fail FuncNotFound
    | Some func =>
        WasmCall.map_err CallFailed (call flush env tx types host_resources params_ty results_ty func written flushed)
    end.

Context {HL : Leb128Laws} {HN : CoreNameLaws}.

(** A function which is linked to an invocation reaches the function which
    is served by the same names: once [serve_function] succeeds, a connection of
    an invocation of the function of the instance, with whatever parameters and
    frames, is queued for the channel it returned, which declares the
    asynchronous paths of the parameters of the function. *)
Theorem linked_function_served {C O} imports params_ty instance name (srv srv' : Server C O) served
    cx tx params fs out written :
  serve_function imports params_ty instance name srv = (Ok served, srv') →
  utf8_valid instance = true → utf8_valid (rpc_func_name name) = true →
  (len instance ≤ hd_max_instance_len (srv_header srv) ≤ u32_MAX)%N →
  (len (rpc_func_name name) ≤ hd_max_name_len (srv_header srv) ≤ u32_MAX)%N → (len params ≤ u32_MAX)%N →
  invoke (λ w b, Ok (w ++ b)) instance (rpc_func_name name) params = Ok (out, written) →
  sv_paths served = async_paths_of (sv_types served) params_ty ∧
  ∃ srv'', Server_accept srv' cx tx (written ++ stream fs) = Accepted srv'' ∧
    srv_chans srv'' !! sv_chan served =
      Some [(cx, stream ((if decide (params = []) then [] else [mkFrame [] params]) ++ fs), tx)].
Proof.
  intros Hs Hu1 Hu2 (Hl1 & Hm1) (Hl2 & Hm2) Hp Hinv. unfold serve_function in Hs.
  destruct (let? idx := _ in _) as [idx|e]; [|done]. unfold serve_paths in Hs.
  destruct (Server_serve srv instance (rpc_func_name name)) as [[c|] srv1] eqn:Hsv; [|done].
  injection Hs as <- <-. cbn [sv_paths sv_types sv_chan ok_or rbind]. split; [done|].
  apply Server_serve_new in Hsv as (Hh & Hc & Hhd).
  eexists. split.
  { apply (accept_invocation srv1 cx tx instance (rpc_func_name name) params fs out written c []);
      rewrite ?Hhd; try done. apply Nat.lt_0_succ. }
  cbn [srv_chans]. by rewrite lookup_insert_eq.
Qed.

End serve.
