(* ===== verification/WasmStd.v ===== *)
(** * An instance of the codec of Wasmtime values

    A store of components which satisfies the laws of the development, and the
    witnesses of the theorems on the codec: a component sends a future, a stream,
    an input stream and a resource over a connection to another one. *)

From S2P Require Import Prelude Wire FrameCodec Prims Wave Subscriptions Resolve Conn Delivery Egress.
From S2P Require Import Introspect Encode Pack Decode Values ValuesStd Transmit Declared Resume Receive Exchange ExchangeStd.
From S2P Require Import WasmCodec WasmValues WasmExchange WasmPaths WasmPlain WasmCall WasmRpc.

(** ** A store of components *)

(** The tables of the host, and the next index *)
Record TestStore := mkTestStore {
  t_streams : gmap N InputReads;
  t_remotes : gmap N bytes;
  t_errors : gmap N RpcError;
  t_next : N
}.

Definition of_pay {R F S} (P : payload) : pay_val P → option (Val R F S) :=
  match P with
  | PayUnit => λ _, None
  | PayU8 => λ b, Some (Val_U8 b)
  | PayPrim p =>
      match p with
      | PBool => λ v, Some (Val_Bool v) | PS8 => λ v, Some (Val_S8 v) | PS16 => λ v, Some (Val_S16 v)
      | PU16 => λ v, Some (Val_U16 v) | PS32 => λ v, Some (Val_S32 v) | PU32 => λ v, Some (Val_U32 v)
      | PS64 => λ v, Some (Val_S64 v) | PU64 => λ v, Some (Val_U64 v)
      | PF32 => λ v, Some (Val_Float32 v) | PF64 => λ v, Some (Val_Float64 v)
      | PChar => λ v, Some (Val_Char v) | PString => λ v, Some (Val_String v)
      end
  end.

#[local] Instance byte_countable : Countable byte := inj_countable' Byte.to_N byte_of_N byte_of_N_to_N.

(** Resources are their type and index, identifiers a byte; futures and streams
    are what they yield. *)
Definition test_host : Host := {|
  ResourceType := nat;
  ResourceAny := nat * N;
  FutureAny := option (option Plain);
  StreamAny := list (list Plain);
  InputStream := InputReads;
  Uuid := byte;
  HostStore := TestStore;
  host_input_stream := 0;
  host_remote := 1;
  resource_ty := fst;
  try_into_resource ty r h := (if r.1 =? ty then Some (mkResource r.2 true) else None, h);
  try_into_resource_any ty rep h := (Some (ty, rep), h);
  table_delete_stream rep h :=
    (t_streams h !! rep, mkTestStore (delete rep (t_streams h)) (t_remotes h) (t_errors h) (t_next h));
  table_get_stream rep h := ((λ _, tt) <$> t_streams h !! rep, h);
  table_push_stream s h :=
    (Some (t_next h), mkTestStore (<[t_next h := s]> (t_streams h)) (t_remotes h) (t_errors h) (N.succ (t_next h)));
  table_delete_remote rep h :=
    (t_remotes h !! rep, mkTestStore (t_streams h) (delete rep (t_remotes h)) (t_errors h) (t_next h));
  table_get_remote rep h := (t_remotes h !! rep, h);
  table_push_remote b h :=
    (Some (t_next h), mkTestStore (t_streams h) (<[t_next h := b]> (t_remotes h)) (t_errors h) (N.succ (t_next h)));
  input_reads s := s;
  memory_input_pipe b := mkInputReads [Ok b] true [];
  async_read_stream rs :=
    mkInputReads [] false ((λ r, match r with Ok b => Ok b | Err _ => Err tt end) <$> rs);
  uuid_to_bytes_le b := b :: replicate 15 x00;
  uuid_from_bytes_le bs := default x00 (head bs);
  now_v7 k := byte_of_N k;
  future_pipe P f h := (Some (match f with Some v => from_val P v | None => None end), h);
  future_close f h := (Some tt, h);
  future_new P src h :=
    (Some (match src with
           | FutureReady v => Some (of_pay P v)
           | FutureReceived v => option_map (of_pay P) v
           end), h);
  stream_pipe P s h := (Some (map (omap (λ v : Plain, from_val P (Some v))) s), h);
  stream_close s h := (Some tt, h);
  stream_new P src h :=
    (Some (match src with
           | StreamVec vs => [omap (λ v, of_pay P v : option Plain) vs]
           | StreamProduced chunks _ => map (omap (λ v, of_pay P v : option Plain)) chunks
           end), h)
|}.
#[local] Existing Instance test_host.

#[local] Instance test_rpc : RpcHost := {|
  host_error := 2;
  table_push_error e h :=
    (Some (t_next h),
     mkTestStore (t_streams h) (t_remotes h) (<[t_next h := e]> (t_errors h)) (N.succ (t_next h)));
  table_delete_error rep h :=
    (t_errors h !! rep, mkTestStore (t_streams h) (t_remotes h) (delete rep (t_errors h)) (t_next h));
  resource_num := λ rt, rt;
  invoke_error e :=
    match e with
    | InvocationFailed e | ParamsFailed e | FlushFailed e | ResultsFailed e => e
    | TransmissionTimedOut | ReceiptTimedOut => Other
    end
|}.

Lemma test_host_laws : HostLaws.
Proof.
  split.
  - done.
  - done.
  - intros buf h rep h1 r h2 [= <- <-] [= <- <-]. split; [done|]. exists true. eexists _, _.
    split; [done|]. cbn. by rewrite lookup_insert_eq.
Qed.

#[local] Existing Instance test_host_laws.
#[local] Existing Instance leb128_std.
#[local] Existing Instance leb128_std_laws.
#[local] Existing Instance name_std.
#[local] Existing Instance name_std_laws.
#[local] Existing Instance value_wire_std.
#[local] Existing Instance value_wire_std_laws.
#[local] Existing Instance prim_codec_std_laws.
#[local] Existing Instance prim_std_resume.
#[local] Existing Instance cm_encoder_std_laws.
#[local] Existing Instance cm_decoder_std_laws.
#[local] Existing Instance cm_decoder_std_resume.
#[local] Existing Instance framed_std_laws.
#[local] Instance test_framed : FramedRead := framed_std 2.

(** ** A value *)

(** [3] is a resource of the sender and [0] an input stream. *)
Definition sender : ResourceTypes := mkResourceTypes [3] [0].
Definition receiver : ResourceTypes := mkResourceTypes [] [0].

Definition call_ty : WasmCodec.Type_ ResourceType :=
  Type_Tuple [Type_List (Type_Future (Some Type_U32)); Type_Stream (Some Type_U16); Type_Own 0; Type_Borrow 3].

Definition call_val : Val ResourceAny FutureAny StreamAny :=
  Val_Tuple [Val_List [Val_Future (Some (Some (Val_U32 42)))];
    Val_Stream [[Val_U16 7]; []; [Val_U16 8; Val_U16 9]]; Val_Resource (0, 5%N); Val_Resource (3, 6%N)].

Definition call_store : Store :=
  mkStore (mkTestStore {[5%N := mkInputReads [Ok [x61]] false [Ok [x62; x63]]]} ∅ ∅ 6) ∅ 11.

Definition call_msg : Msg :=
  Val_Tuple [Val_List [Val_Future (mkFutureMsg (PayPrim PU32) 42%N)];
    Val_Stream (mkStreamMsg (PayPrim PU16) [[7]; [8; 9]]%N);
    Val_Resource (HPending [[x61]; [x62; x63]]);
    Val_Resource (HBytes (x0b :: replicate 15 x00))].

(** Its components *)
Definition call_params : list (Val ResourceAny FutureAny StreamAny) :=
  match call_val with Val_Tuple vs => vs | _ => [] end.
Definition call_tys : list (WasmCodec.Type_ ResourceType) :=
  match call_ty with Type_Tuple tys => tys | _ => [] end.
Definition call_msgs : list Msg := match call_msg with Val_Tuple ms => ms | _ => [] end.
Definition call_sent : option OutgoingFn * bytes * Store :=
  match WasmCodec.encode (λ _, true) sender call_val call_ty ([], call_store) with
  | (Ok d, (bs, st)) => (d, bs, st)
  | (Err _, (bs, st)) => (None, bs, st)
  end.

(** The input stream was taken from its table and the resource was shared. *)
Definition call_store' : Store :=
  mkStore (mkTestStore ∅ ∅ ∅ 6) {[x0b := (3, 6%N)]} 12.

Lemma params_exports : exports_all sender call_params call_tys call_store call_msgs call_store'.
Proof.
  unfold call_params, call_tys, call_msgs, call_store'. cbn [call_val call_ty call_msg].
  repeat eapply (exports_cons sender); try apply (exports_nil sender).
  - apply (exports_list sender); [done|]. eapply (exports_cons sender); [|apply (exports_nil sender)].
    by eapply (exports_future sender).
  - apply (exports_stream sender _ Type_U16 (PayPrim PU16) call_store [[7]; []; [8; 9]]%N); [done..| |done].
    repeat apply Forall_cons_2; try apply Forall_nil_2; reflexivity.
  - eapply (exports_input sender); [by left|done..|].
    exists [[x61]], false, [[x62; x63]]. split; [done|].
    do 2 (split; [by repeat constructor|]). split; [done|]. by exists [].
  - apply (exports_guest sender (3, 6%N) (Type_Borrow 3) 3 (@mkStore test_host (mkTestStore ∅ ∅ ∅ 6) ∅ 11) x0b); try done.
    + by right.
    + by left.
Qed.

Lemma call_exports : exports sender call_val call_ty call_store call_msg call_store'.
Proof. exact (exports_tuple sender _ _ _ _ _ params_exports). Qed.

Definition test_traffic : traffic :=
  [([0; 0], [[x2a]]); ([1], [[]; [x01; x07]; [x02; x08; x09]; [x00]]);
   ([2], [[x01; x61]; [x02; x62; x63]; [x00]])]%N.

Lemma test_traffic_eq : msg_traffic call_msg = test_traffic.
Proof. vm_compute. reflexivity. Qed.

Lemma call_fit : fit_traffic [] (msg_traffic call_msg).
Proof.
  rewrite test_traffic_eq. unfold fit_traffic, fit_path.
  repeat apply Forall_cons_2; try apply Forall_nil_2;
    (split; [split; [vm_compute; discriminate|]|]); repeat apply Forall_cons_2; try apply Forall_nil_2;
    vm_compute; discriminate.
Qed.

(** The writes of the operation, and the bytes of the connection *)
Definition call_fn : OutgoingFn := default (λ _, Ok []) call_sent.1.1.
Definition call_writes : list write :=
  match call_fn Outgoing_new with Ok wrs => wrs | Err _ => [] end.
Definition call_egress : Egress :=
  match do_writes call_writes (mkEgress [] None) with Ok e => e | Err _ => mkEgress [] None end.
Definition call_wire : bytes := (egress (λ w b, Ok (w ++ b)) (λ _, Ok tt) [] (e_queue call_egress)).2.
Definition call_paths : list (list (option N)) := [[Some 0; None]; [Some 1]; [Some 2]]%N.

(** The peer receives the frames, reads them from handles of their paths, and
    drops the handles. *)
Definition call_receive : list action :=
  [AFrame; AAcquire; AForward; AFrame; AForward; AFrame; AForward; AFrame; AForward; AFrame; AForward;
   AFrame; AForward; AFrame; AForward; AFrame; AForward; AFrame;
   AIndex 0 [0; 0]; AIndex 0 [1]; AIndex 0 [2]; ARead 1 8; ARead 1 8; ARead 2 8; ARead 2 8; ARead 2 8;
   ARead 2 8; ARead 3 8; ARead 3 8; ARead 3 8; ARead 3 8; ARead 3 8;
   ADrop 3; ADrop 2; ADrop 1; ADrop 0; ADropped]%N.
Definition call_received : list event * World :=
  default ([], Incoming_new call_paths [])
    (exec 1024 call_receive [] (Incoming_new call_paths call_wire)).

(** What the peer reads: the resource of the sender is a remote one. *)
Definition peer_val : Val ResourceAny FutureAny StreamAny :=
  Val_Tuple [Val_List [Val_Future (Some (Some (Val_U32 42)))];
    Val_Stream [[Val_U16 7]; [Val_U16 8; Val_U16 9]]; Val_Resource (0, 1%N); Val_Resource (1, 2%N)].

Definition peer_store : Store := mkStore (mkTestStore ∅ ∅ ∅ 1) ∅ 0.
Definition peer_store' : Store :=
  mkStore (mkTestStore {[1%N := mkInputReads [] false [Ok [x61]; Ok [x62; x63]]]}
    {[2%N := x0b :: replicate 15 x00]} ∅ 3) ∅ 0.

Definition peer_params : list (Val ResourceAny FutureAny StreamAny) :=
  match peer_val with Val_Tuple vs => vs | _ => [] end.

Lemma params_imports : imports_all receiver call_msgs call_tys peer_store peer_params peer_store'.
Proof.
  unfold peer_params, call_tys, call_msgs, peer_store'. cbn [peer_val call_ty call_msg].
  repeat eapply (imports_cons receiver); try apply (imports_nil receiver).
  - apply (imports_list receiver). eapply (imports_cons receiver); [|apply (imports_nil receiver)].
    by eapply (imports_future receiver).
  - by eapply (imports_stream receiver).
  - eapply (imports_input receiver); [by left|done..].
  - eapply (imports_remote receiver _ _ 3); [by right|done| |done..]. by intros ?%not_elem_of_nil.
Qed.

Lemma call_imports : imports receiver call_msg call_ty peer_store peer_val peer_store'.
Proof. exact (imports_tuple receiver _ _ _ _ _ params_imports). Qed.

(** ** Witnesses *)

Lemma val_sent_witness :
  ∃ wrs, call_fn Outgoing_new = Ok wrs ∧ written_on [1]%N wrs = [x01; x07; x02; x08; x09; x00].
Proof.
  destruct (val_sent (λ _, true) sender call_val call_ty call_store call_msg call_store' [] call_exports)
    as (d & He & Hn & Hs).
  assert (d = Some call_fn) as Hd.
  { unfold call_fn, call_sent. rewrite He. cbn [fst default]. destruct d as [f|]; [done|].
    by destruct (proj1 Hn eq_refl). }
  destruct (Hs call_fn Outgoing_new Hd) as (wrs & Hw & _ & Hq); [constructor|exact call_fit|].
  exists wrs. split; [exact Hw|]. rewrite Hq, test_traffic_eq. vm_compute. reflexivity.
Defined.

Lemma val_exchanged_witness :
  read_value (test_env (λ q, received_on q call_received.1)) receiver call_ty []
    (call_sent.1.2 ++ [x2a], peer_store) = (Ok peer_val, ([x2a], peer_store')).
Proof.
  apply (val_exchanged (λ _, true) sender call_val call_ty call_store call_msg call_store' call_fn
    call_sent.1.2 receiver call_ty peer_store peer_val peer_store' 1024 call_paths call_writes
    (λ _, Ok tt) call_egress call_received.1 call_received.2).
  - exact call_exports.
  - exact call_imports.
  - reflexivity.
  - exact call_fit.
  - reflexivity.
  - vm_compute. reflexivity.
  - done.
  - apply compatibleb_sound. vm_compute. reflexivity.
  - vm_compute. reflexivity.
  - apply exec_reachable with call_receive. vm_compute. reflexivity.
  - vm_compute. reflexivity.
  - intros q _. apply test_env_data.
Defined.

Lemma val_encode_typed_witness : typed call_val call_ty.
Proof.
  apply (val_encode_typed (λ _, true) sender call_val call_ty ([], call_store) call_sent.1.1
    (call_sent.1.2, call_store')).
  reflexivity.
Defined.

Lemma val_paths_declared_witness :
  ∃ pt pat,
    resolve (Subscriptions_new (elements (params_async_paths [7]
      [WList (WFuture (Some WOther)); WStream (Some WOther); WOwn 7; WBorrow 10])) 0) [0; 0]%N
    = Some (pt, pat) ∧ p_declared pt = true.
Proof.
  apply (val_paths_declared sender (λ rt, rt + 7) [7] _ _ _ _ _ ([0; 0], [[x2a]])%N 0%N call_exports).
  - repeat apply Forall_cons_2; try apply Forall_nil_2; cbn.
    + exact I.
    + exact I.
    + by left.
    + vm_compute. discriminate.
  - rewrite test_traffic_eq. by left.
Defined.

(** A record with flags, in the order of the type *)
Definition plain_ty : WasmCodec.Type_ ResourceType :=
  Type_Record [([x61], Type_List (Type_Option Type_S16));
    ([x62], Type_Variant [([x63], None); ([x64], Some (Type_Flags [[x65]; [x66]]))])].
Definition plain_val : Plain :=
  Val_Record [([x61], Val_List [Val_Option (Some (Val_S16 (-300))); Val_Option None]);
    ([x62], Val_Variant [x64] (Some (Val_Flags [[x66]])))].

Lemma val_roundtrip_witness :
  ∃ e, WasmCodec.encode (λ _, true) sender (inject plain_val) plain_ty ([], call_store) =
         (Ok None, (e, call_store)) ∧
    read_value (test_env (λ _, [])) receiver plain_ty [] (e ++ [x2a], peer_store) =
      (Ok (inject plain_val), ([x2a], peer_store)).
Proof.
  destruct (val_roundtrip (λ _, true) sender plain_val plain_ty [] call_store) as (e & He & Hr).
  - by repeat split.
  - by repeat split.
  - exists e. split; [exact He|]. apply Hr.
Defined.

(** The resource of the sender, as the peer gets it *)
Definition shared_sent : bytes * Store :=
  (WasmCodec.encode (λ _, true) sender (Val_Resource (3, 6%N) : Val ResourceAny FutureAny StreamAny)
    (Type_Own 3) ([], call_store)).2.

Lemma guest_resource_returns_witness :
  read_value (test_env (λ _, [])) sender (Type_Own 3) [] (shared_sent.1 ++ [x2a], shared_sent.2) =
    (Ok (Val_Resource (3, 6%N)), ([x2a], shared_sent.2)).
Proof.
  eapply (guest_resource_returns (λ _, true) sender receiver (Type_Own 3) 3 (Type_Own 3) 3 (3, 6%N)
    call_store shared_sent.1 shared_sent.2 (test_env (λ _, [])) [] peer_store (Val_Resource (1, 1%N)));
    try done.
  - by left.
  - by left.
  - by left.
  - by intros ?%not_elem_of_nil.
Defined.

(** *** A remote call *)

(** The function yields its second parameter, as the value of a result with the
    error of [wrpc:rpc]. *)
Definition echo : Func := λ vs st,
  match vs !! 1 with
  | Some v => (Some [Val_Result true (Some v)], st)
  | None => (None, st)
  end.

Definition rpc_resources : list (bytes * list (bytes * (ResourceType * ResourceType))) :=
  [(rpc_error_instance, [(rpc_error_name, (9, 2))])].
Definition echo_tys : list (WasmCodec.Type_ ResourceType) :=
  [Type_Result (Some (Type_Stream (Some Type_U16))) (Some (Type_Own 9))].

Example echo_result_type :
  rpc_result_type rpc_resources echo_tys = Some (Some (Type_Stream (Some Type_U16))).
Proof. reflexivity. Qed.

Definition echo_request : bytes :=
  stream (root_frames call_sent.1.2) ++ call_wire.
Definition echo_paths : list (list (option N)) := async_paths_of receiver call_tys.

(** The peer receives the request, as it received the value before, with the
    parameters in the root. *)
Definition request_receive : list action :=
  [AFrame; AForward] ++ take 21 call_receive ++ [ARead 0 64; ARead 0 64] ++ drop 21 call_receive.
Definition request_received : list event * World :=
  default ([], Incoming_new echo_paths [])
    (exec 1024 request_receive [] (Incoming_new echo_paths echo_request)).

Definition request_env : Env := test_env (λ q, received_on q request_received.1).

(** The writes of the response *)
Definition echo_served : result CallError (list write) * (bytes * Store) :=
  call (λ _, true) request_env Outgoing_new receiver rpc_resources call_tys echo_tys echo (Ok tt) (Ok tt)
    (received_on [] request_received.1, peer_store).
Definition echo_writes : list write := match echo_served.1 with Ok wrs => wrs | Err _ => [] end.
Definition echo_egress : Egress :=
  match do_writes echo_writes (mkEgress [] None) with Ok e => e | Err _ => mkEgress [] None end.
Definition echo_response : bytes := (egress (λ w b, Ok (w ++ b)) (λ _, Ok tt) [] (e_queue echo_egress)).2.
Definition response_paths : list (list (option N)) :=
  async_paths_of sender (sent_types (Some (Some (Type_Stream (Some Type_U16)))) echo_tys).
Definition response_receive : list action :=
  [AFrame; AForward; AFrame; AForward; AFrame; AForward; AFrame; AForward; AFrame;
   AIndex 0 [0]; ARead 0 8; ARead 0 8; ARead 1 8; ARead 1 8; ARead 1 8; ARead 1 8;
   ADrop 1; ADrop 0; ADropped]%N.
Definition response_received : list event * World :=
  default ([], Incoming_new response_paths [])
    (exec 1024 response_receive [] (Incoming_new response_paths echo_response)).

Definition call_ds : list (option OutgoingFn) :=
  match encode_types (WasmCodec.encode (λ _, true) sender) call_params call_tys ([], call_store) with
  | (Ok ds, _) => ds
  | (Err _, _) => []
  end.

Definition echo_client : Client := λ _ _ _ _,
  Ok (mkInvocation Outgoing_new (received_on [] response_received.1)
    (test_env (λ q, received_on q response_received.1))).

Definition echo_msg : Msg := Val_Stream (mkStreamMsg (PayPrim PU16) [[7]; [8; 9]]%N).

Lemma echo_arrives :
  arrives 1024 echo_paths echo_request (received_on [] request_received.1) request_env
    (WasmRpc.call_traffic call_msgs).*1.
Proof.
  exists request_received.1, request_received.2. split_and!; [|vm_compute; reflexivity|done|].
  - apply exec_reachable with request_receive. vm_compute. reflexivity.
  - intros q _. apply test_env_data.
Qed.

Lemma response_arrives :
  arrives 1024 response_paths echo_response (received_on [] response_received.1)
    (test_env (λ q, received_on q response_received.1)) (WasmRpc.call_traffic [echo_msg]).*1.
Proof.
  exists response_received.1, response_received.2. split_and!; [|vm_compute; reflexivity|done|].
  - apply exec_reachable with response_receive. vm_compute. reflexivity.
  - intros q _. apply test_env_data.
Qed.

Lemma echo_exports :
  exports_all receiver [Val_Stream [[Val_U16 7]; [Val_U16 8; Val_U16 9]]]
    (sent_types (rpc_result_type rpc_resources echo_tys) echo_tys) peer_store' [echo_msg] peer_store'.
Proof.
  rewrite echo_result_type. eapply (exports_cons receiver); [|apply (exports_nil receiver)].
  apply (exports_stream receiver _ Type_U16 (PayPrim PU16) peer_store' [[7]; [8; 9]]%N); [done..| |done].
  repeat apply Forall_cons_2; try apply Forall_nil_2; reflexivity.
Qed.

Lemma echo_imports :
  imports_all sender [echo_msg] (sent_types (Some (Some (Type_Stream (Some Type_U16)))) echo_tys) call_store'
    [Val_Stream [[Val_U16 7]; [Val_U16 8; Val_U16 9]]] call_store'.
Proof.
  eapply (imports_cons sender); [|apply (imports_nil sender)]. by eapply (imports_stream sender).
Qed.

Lemma echo_fit : fit_traffic [] (WasmRpc.call_traffic [echo_msg]).
Proof.
  unfold fit_traffic, fit_path.
  assert (WasmRpc.call_traffic [echo_msg] = [([0%N], [[]; [x01; x07]; [x02; x08; x09]; [x00]])]) as ->
    by (vm_compute; reflexivity).
  repeat apply Forall_cons_2; try apply Forall_nil_2;
    (split; [split; [vm_compute; discriminate|]|]); repeat apply Forall_cons_2; try apply Forall_nil_2;
    vm_compute; discriminate.
Qed.

Lemma remote_call_witness :
  polyfill_call (λ _, true) sender call_tys echo_tys (Some (Some (Type_Stream (Some Type_U16)))) call_params 1
    [x61] [x62] echo_client (Ok tt) (false, false) call_store =
  (Ok ([Val_Result true (Some (Val_Stream [[Val_U16 7]; [Val_U16 8; Val_U16 9]]))], call_writes), call_store').
Proof.
  destruct (remote_call (λ _, true) sender receiver rpc_resources (Some (Some (Type_Stream (Some Type_U16))))
    [x61] [x62] call_params call_tys call_tys echo_tys echo_tys echo 1024 1 call_store call_msgs call_store'
    peer_params peer_store peer_store' [Val_Result true (Some (Val_Stream [[Val_U16 7]; [Val_U16 8; Val_U16 9]]))]
    peer_store' [Val_Stream [[Val_U16 7]; [Val_U16 8; Val_U16 9]]] [echo_msg] peer_store'
    [Val_Stream [[Val_U16 7]; [Val_U16 8; Val_U16 9]]] call_store' call_ds call_sent.1.2 call_writes call_egress
    (λ _, Ok tt) (λ _, Ok tt) (received_on [] request_received.1) request_env) as (wrs & Hcall & Hpoly).
  - exact params_exports.
  - exact params_imports.
  - repeat constructor.
  - reflexivity.
  - reflexivity.
  - exact echo_exports.
  - exact echo_imports.
  - repeat constructor.
  - exact call_fit.
  - exact echo_fit.
  - vm_compute. discriminate.
  - done.
  - by right.
  - reflexivity.
  - vm_compute. reflexivity.
  - vm_compute. reflexivity.
  - exact echo_arrives.
  - assert (wrs = echo_writes) as -> by (unfold echo_writes, echo_served; by rewrite Hcall).
    apply (Hpoly echo_egress (received_on [] response_received.1)
      (test_env (λ q, received_on q response_received.1))).
    + vm_compute. reflexivity.
    + exact response_arrives.
    + reflexivity.
Defined.

Abbreviation TestVal := (Val ResourceAny FutureAny StreamAny).

