(* ===== verification/WasmLinkStd.v ===== *)
(** * Witnesses of linking and serving

    A linker which satisfies the laws, a component which is linked with it, and
    the executions of a shared store and of a server. *)

From S2P Require Import Prelude Wire FrameCodec Prims Wave Subscriptions Resolve SubsInv Conn Delivery Egress Server.
From S2P Require Import Introspect Encode Pack Decode Values ValuesStd Transmit Declared Resume Receive Exchange ExchangeStd.
From S2P Require Import WasmCodec WasmValues WasmExchange WasmPaths WasmPlain WasmCall WasmLink WasmServe WasmStd.

#[local] Existing Instance test_host.
#[local] Existing Instance test_rpc.

(** ** Linking *)

#[export] Instance test_linker : Linker := {|
  linker := gmap (list bytes * bytes) Definition_;
  defined L p n := L !! (p, n);
  linker_define p n d L := match L !! (p, n) with Some _ => None | None => Some (<[(p, n) := d]> L) end;
  linker_instance _ _ L := Some L
|}.

Lemma test_define_spec (p : list bytes) (n : bytes) (d : Definition_) (L L' : gmap (list bytes * bytes) Definition_) :
  match L !! (p, n) with Some _ => None | None => Some (<[(p, n) := d]> L) end = Some L' →
  L !! (p, n) = None ∧
  ∀ p' n', L' !! (p', n') = if decide ((p', n') = (p, n)) then Some d else L !! (p', n').
Proof.
  destruct (L !! (p, n)) eqn:Hn; [done|]. intros [= <-]. split; [done|].
  intros p' n'. rewrite lookup_insert. by repeat case_decide; simplify_eq.
Qed.

Lemma test_linker_laws : LinkerLaws.
Proof. split; [exact test_define_spec|]. by intros p n L L' [= <-]. Qed.

#[local] Existing Instance test_linker_laws.

(** An import [a:b] with a function and a resource, which is [2] in the host *)
Definition link_instance_name : bytes := [x61; x3a; x62].
Definition link_func_name : bytes := [x66].
Definition link_resource_name : bytes := [x72].
Definition test_imports : list (bytes * ComponentItem ResourceType) :=
  [(link_instance_name,
    ComponentInstance [(link_resource_name, Resource_ 5);
                       (link_func_name, ComponentFunc false [Type_U32] [Type_Own 5])])].
Definition test_host_resources : list (bytes * list (bytes * (ResourceType * ResourceType))) :=
  [(link_instance_name, [(link_resource_name, (5, 2))])].

Definition empty_linker : linker := (∅ : gmap (list bytes * bytes) Definition_).
Definition test_linked : linker :=
  (link_item test_host_resources [] (Component test_imports []) [] [] empty_linker).2.

Lemma link_item_defines_witness :
  defined test_linked [link_instance_name] link_func_name =
    Some (LinkedFunc link_instance_name link_func_name false [Type_U32] [Type_Own 5]).
Proof.
  pose proof (link_item_defines test_host_resources [] (Component test_imports []) [] [] empty_linker) as Hl.
  assert ((link_item test_host_resources [] (Component test_imports []) [] [] empty_linker).1 = Ok tt) as Hok
    by (vm_compute; reflexivity).
  unfold test_linked. destruct (link_item _ _ _ _ _ _) as [r L']. destruct Hl as (_ & _ & Hl). apply Hl; [exact Hok|].
  eapply (@polyfilled_component test_host); [by left|].
  eapply (@polyfilled_instance test_host); [by right; left|]. apply (@polyfilled_func test_host).
Defined.

Lemma resource_imports_collected_witness :
  collect_component_resource_imports test_imports ∅ !! link_instance_name ≫= lookup link_resource_name = Some 5 ∧
  imported test_imports link_instance_name link_resource_name 5.
Proof.
  split; [vm_compute; reflexivity|].
  apply (resource_imports_collected test_imports link_instance_name link_resource_name 5).
  - split; [apply NoDup_singleton|]. intros i es [= -> ->]%list_elem_of_singleton. split; [done|].
    apply NoDup_cons. split; [|apply NoDup_singleton]. intros Hx%list_elem_of_singleton. done.
  - vm_compute. reflexivity.
Defined.

(** ** The shared store *)

(** A call is queued, taken by the loop and resolved, a second one is queued, and
    the store traps. *)
Definition test_store : SharedStore := mkSharedStore LoopTrapped 1 [] ∅ {[0%N := RunResolved 7; 1%N := RunSent]}.

Lemma test_store_reachable : store_reachable (λ _, 7) test_store.
Proof.
  eapply rtc_l; [by apply (step_run _ _ 0%N)|].
  eapply rtc_l; [by apply (step_send _ _ 0%N)|].
  eapply rtc_l; [by apply step_recv|].
  eapply rtc_l; [by apply (step_next _ _ 0%N); [|vm_compute; constructor]|].
  eapply rtc_l; [by apply (step_run _ _ 1%N)|].
  eapply rtc_l; [by apply (step_send _ _ 1%N)|].
  eapply rtc_l; [by apply step_trap; left|].
  vm_compute. apply rtc_refl.
Qed.

Lemma shared_store_runs_witness :
  run_recv 0 test_store = Some (set_run 0 (RunReturned (Some 7)) test_store) ∧
  run_recv 1 test_store = Some (set_run 1 (RunReturned None) test_store).
Proof.
  destruct (shared_store_runs (λ _, 7) test_store test_store_reachable) as (_ & Hsent & _ & Hres & _).
  split; [by apply (Hres 0%N 7)|]. by destruct (Hsent 1%N eq_refl) as [([=] & _)|(_ & Hr)].
Defined.

(** ** Serving *)

(** The export of the function is [1]; the instance is [0]. *)
Definition test_export_index (parent : option nat) (name : bytes) : option nat :=
  match parent with
  | None => if decide (name = link_instance_name) then Some 0 else None
  | Some _ => if decide (name = link_func_name) then Some 1 else None
  end.
Definition test_served : result ServeError Served * Server nat nat :=
  serve_function test_export_index test_imports [Type_Future (Some Type_U32)] link_instance_name link_func_name
    Server_new.

Lemma linked_function_served_witness :
  ∃ srv, @Server_accept nat nat leb128_std test_served.2 7 8
    ([x01; x03; x61; x3a; x62; x01; x66; x00; x01; x00] ++ @stream leb128_std [mkFrame [0%N] [x2a]]) = Accepted srv ∧
    srv_chans srv !! 0%N = Some [(7, @stream leb128_std [mkFrame [] [x00]; mkFrame [0%N] [x2a]], 8)].
Proof.
  destruct (@linked_function_served test_host test_rpc leb128_std name_std nat test_export_index leb128_std_laws
    name_std_laws nat nat test_imports [Type_Future (Some Type_U32)] link_instance_name link_func_name Server_new
    test_served.2 (mkServed 0%N 1 (mkResourceTypes [] []) [[Some 0%N]]) 7 8 [x00] [mkFrame [0%N] [x2a]] Outgoing_new
    [x01; x03; x61; x3a; x62; x01; x66; x00; x01; x00]) as (_ & srv & Hacc & Hq).
  - vm_compute. reflexivity.
  - reflexivity.
  - reflexivity.
  - vm_compute. split; discriminate.
  - vm_compute. split; discriminate.
  - vm_compute. discriminate.
  - vm_compute. reflexivity.
  - exists srv. split; [exact Hacc|exact Hq].
Defined.
