(* ===== verification/Channels.v ===== *)
(** * Channels of invocations

    Model of [crates/wasmtime/src/rpc/mod.rs]: the channels by which a component
    accesses an invocation it makes itself.  Channels may be indexed before the
    invocation is transmitted; the positions which are indexed then are recorded
    in [PendingChannels] and are indexed on the handle of the connection when it
    is there.

    A slot is [Arc<Slot>]: a number, with the number of its strong references;
    it is alive as long as there is one.  The handle of the connection is that
    of [Conn]. *)

From S2P Require Import Prelude Wire FrameCodec Subscriptions Resolve Elements Conn.

(** ** Pending channels *)

(** The components of a path but for the last one *)
Definition split_last (path : list N) : option (N * list N) :=
  match reverse path with
  | [] => None
  | i :: parent => Some (i, reverse parent)
  end.

(** [Pending] *)
Record Pending := mkPending {
  pd_path : list N;
  pd_pattern : list (option N);
  pd_slot : N;
  pd_declared : bool
}.

(** [Pending::elements] *)
Definition pd_elements (entry : Pending) : list (list N) :=
  (λ k, take (S k) (pd_path entry)) <$> wildcards (pd_pattern entry).

Record PendingChannels := mkPendingChannels {
  pc_channels : list Pending;
  pc_next : gmap (list N) N;
  pc_elements : gmap (list N) (list N);
  pc_declared : gset (list N);
  pc_prune_at : nat
}.

(** [Default::default] *)
Definition PendingChannels_default : PendingChannels := mkPendingChannels [] ∅ ∅ ∅ 0.

Section pending.
(** The slots with strong references *)
Context (alive : gset N).

(** [is_released] *)
Definition is_released (next : gmap (list N) N) (elements : gmap (list N) (list N)) (path : list N) : bool :=
  match split_last path with
  | None => false
  | Some (i, parent) =>
      match next !! parent with
      | Some next => bool_decide (i < next)%N
      | None => false
      end &&
      negb match elements !! path with
           | Some slots => existsb (λ slot, bool_decide (slot ∈ alive)) slots
           | None => false
           end
  end.

(** [PendingChannels::is_released] *)
Definition pc_is_released (pc : PendingChannels) : list N → bool :=
  is_released (pc_next pc) (pc_elements pc).

(** The nonempty prefixes [path[..k]] *)
Definition prefixes (path : list N) : list (list N) := (λ k, take (S k) path) <$> seq 0 (length path).

(** [PendingChannels::prune] *)
Definition prune (pc : PendingChannels) : PendingChannels :=
  let elements :=
    omap (λ slots, match filter (.∈ alive) slots with [] => None | slots => Some slots end)
      (pc_elements pc) in
  let next :=
    filter (λ kv, existsb (is_released (pc_next pc) elements) (prefixes kv.1) = false) (pc_next pc) in
  let channels :=
    filter (λ entry,
      bool_decide (pd_slot entry ∈ alive) ||
      pd_declared entry && negb (existsb (is_released next elements) (pd_elements entry)) = true)
      (pc_channels pc) in
  mkPendingChannels channels next elements
    (list_to_set (pd_path <$> filter (λ entry, pd_declared entry = true) channels)) (pc_prune_at pc).

(** The elements of an entry are recorded. *)
Definition record_element (slot : N) (acc : gmap (list N) N * gmap (list N) (list N)) (element : list N) :
    gmap (list N) N * gmap (list N) (list N) :=
  match split_last element with
  | None => acc
  | Some (i, parent) =>
      (<[parent := N.max (default 0%N (acc.1 !! parent)) (usize_saturating_add i 1)]> acc.1,
       <[element := default [] (acc.2 !! element) ++ [slot]]> acc.2)
  end.

(** [PendingChannels::push] *)
Definition push (entry : Pending) (pc : PendingChannels) : io_result unit * PendingChannels :=
  if existsb (pc_is_released pc) (pd_elements entry) then (Err NotFound, pc)
  else if pd_declared entry && bool_decide (pd_path entry ∈ pc_declared pc) then (Err AlreadyExists, pc)
  else
    let declared :=
      if pd_declared entry then {[pd_path entry]} ∪ pc_declared pc else pc_declared pc in
    let '(next, elements) :=
      foldl (record_element (pd_slot entry)) (pc_next pc, pc_elements pc) (pd_elements entry) in
    let pc := mkPendingChannels (pc_channels pc ++ [entry]) next elements declared (pc_prune_at pc) in
    if pc_prune_at pc <=? length (pc_channels pc) then
      let pc := prune pc in
      (Ok tt, mkPendingChannels (pc_channels pc) (pc_next pc) (pc_elements pc) (pc_declared pc)
                ((length (pc_channels pc) * 2) `max` 64))
    else (Ok tt, pc).

End pending.
