(* ===== verification/ChannelsSpec.v ===== *)
(** * What pending channels promise

    [PendingChannels] of [crates/wasmtime/src/rpc/mod.rs] ([Channels]) keeps, for
    every list or stream, the index which follows its last element, for every
    element the channels within it, and forgets dropped channels and released
    elements from time to time.  Here is the specification it implements: a
    channel is refused by the history of the channels which were returned
    before, and nothing is forgotten. *)

From S2P Require Import Prelude Wire FrameCodec Subscriptions Resolve Elements Conn Channels.

(** ** Specification *)

Section spec.
Context (alive : gset N).

(** The path is that of an element of the list or stream at [parent], at [i] or
    after it. *)
Definition at_or_after (i : N) (parent e : list N) : bool :=
  match split_last e with
  | Some (j, parent') => bool_decide (parent' = parent ∧ (i ≤ j)%N)
  | None => false
  end.

(** A channel was returned within the element or a following one, and none
    within it is alive. *)
Definition released (h : list Pending) (e : list N) : bool :=
  match split_last e with
  | None => false
  | Some (i, parent) =>
      existsb (λ x, existsb (at_or_after i parent) (pd_elements x)) h &&
      negb (existsb (λ x, bool_decide (e ∈ pd_elements x) && bool_decide (pd_slot x ∈ alive)) h)
  end.

(** A channel within a released element is refused, and so is a second one of a
    declared position. *)
Definition spec_push (entry : Pending) (h : list Pending) : io_result unit * list Pending :=
  if existsb (released h) (pd_elements entry) then (Err NotFound, h)
  else if pd_declared entry &&
          existsb (λ x, pd_declared x && bool_decide (pd_path x = pd_path entry)) h
  then (Err AlreadyExists, h)
  else (Ok tt, h ++ [entry]).

End spec.

(** Channels are returned, with a new slot, and dropped. *)
Inductive op := OpIndex (entry : Pending) | OpDrop (slot : N).

Fixpoint run {A} (push : gset N → Pending → A → io_result unit * A) (ops : list op) (alive : gset N) (a : A) :
    list (io_result unit) :=
  match ops with
  | [] => []
  | OpDrop slot :: ops => run push ops (alive ∖ {[slot]}) a
  | OpIndex entry :: ops =>
      let '(r, a) := push ({[pd_slot entry]} ∪ alive) entry a in
      r :: run push ops ({[pd_slot entry]} ∪ alive) a
  end.

(** The slots which are created *)
Fixpoint new_slots (ops : list op) : list N :=
  match ops with
  | [] => []
  | OpDrop _ :: ops => new_slots ops
  | OpIndex entry :: ops => pd_slot entry :: new_slots ops
  end.

(** The pattern of an entry is the one its path resolves to. *)
Definition entry_ok (ps : gmap (list (option N)) Pattern) (x : Pending) : Prop :=
  ∃ node, resolve_in ps (pd_path x) = Some (node, pd_pattern x) ∧ pd_declared x = p_declared node ∧
    Forall (λ i, i < usize_MAX)%N (pd_path x).

Definition op_ok (ps : gmap (list (option N)) Pattern) (o : op) : Prop :=
  match o with OpIndex entry => entry_ok ps entry | OpDrop _ => True end.

(** ** Lemmas *)

Lemma split_last_snoc q i : split_last (q ++ [i]) = Some (i, q).
Proof. unfold split_last. rewrite reverse_snoc. by rewrite reverse_involutive. Qed.

Lemma split_last_inv e i q : split_last e = Some (i, q) → e = q ++ [i].
Proof.
  unfold split_last. destruct (reverse e) as [|j r] eqn:E; [done|]. intros [= -> <-].
  rewrite <- (reverse_involutive e), E. by rewrite reverse_cons.
Qed.

Lemma at_or_after_spec i q e : at_or_after i q e = true ↔ ∃ j, e = q ++ [j] ∧ (i ≤ j)%N.
Proof.
  unfold at_or_after. split.
  - destruct (split_last e) as [[j q']|] eqn:E; [|done]. apply split_last_inv in E as ->.
    intros (-> & Hj)%bool_decide_eq_true. by exists j.
  - intros (j & -> & Hj). rewrite split_last_snoc. by apply bool_decide_eq_true.
Qed.

Lemma existsb_elem {A} (f : A → bool) l : existsb f l = true ↔ ∃ x, x ∈ l ∧ f x = true.
Proof. rewrite existsb_exists. by setoid_rewrite <- list_elem_of_In. Qed.

Lemma existsb_elem_false {A} (f : A → bool) l : existsb f l = false ↔ ∀ x, x ∈ l → f x = false.
Proof.
  rewrite <- not_true_iff_false, existsb_elem. split.
  - intros Hn x Hx. apply not_true_iff_false. naive_solver.
  - intros Hf (x & Hx & Ht). by rewrite (Hf x Hx) in Ht.
Qed.

(** Some channel of the history is of an element of [q], at [i] or after it. *)
Definition reached (h : list Pending) (q : list N) (i : N) : Prop :=
  ∃ x j, x ∈ h ∧ (i ≤ j)%N ∧ q ++ [j] ∈ pd_elements x.

Definition live_in (alive : gset N) (h : list Pending) (e : list N) : Prop :=
  ∃ x, x ∈ h ∧ e ∈ pd_elements x ∧ pd_slot x ∈ alive.

Lemma released_spec alive h e :
  released alive h e = true ↔ ∃ q i, e = q ++ [i] ∧ reached h q i ∧ ¬ live_in alive h e.
Proof.
  assert (∀ q i, released alive h (q ++ [i]) = true ↔ reached h q i ∧ ¬ live_in alive h (q ++ [i])) as Hq.
  { intros q i. unfold released. rewrite split_last_snoc, andb_true_iff, negb_true_iff, existsb_elem.
    rewrite <- not_true_iff_false, existsb_elem. f_equiv.
    - setoid_rewrite existsb_elem. setoid_rewrite at_or_after_spec. unfold reached. naive_solver.
    - f_equiv. unfold live_in. setoid_rewrite andb_true_iff.
      setoid_rewrite bool_decide_eq_true. naive_solver. }
  split.
  - intros Hr. destruct (split_last e) as [[i q]|] eqn:E; [|unfold released in Hr; by rewrite E in Hr].
    apply split_last_inv in E as ->. exists q, i. split; [done|]. by apply Hq.
  - intros (q & i & -> & Hr). by apply Hq.
Qed.

(** The path is within a released element. *)
Definition gone (alive : gset N) (h : list Pending) (path : list N) : Prop :=
  ∃ e, e `prefix_of` path ∧ released alive h e = true.

(** *** The elements of entries *)

Section entries.
Context (ps : gmap (list (option N)) Pattern).

Lemma elem_of_pd_elements x e :
  entry_ok ps x → e ∈ pd_elements x ↔ e `prefix_of` pd_path x ∧ is_element ps e.
Proof.
  intros (node & Hr & _). rewrite (element_prefix _ _ _ _ _ Hr). unfold pd_elements.
  rewrite list_elem_of_fmap. setoid_rewrite elem_of_wildcards. naive_solver.
Qed.

(** A released element which contains the path of an entry is one of the
    elements of the entry. *)
Lemma released_element alive h x e :
  Forall (entry_ok ps) h → entry_ok ps x → e `prefix_of` pd_path x → released alive h e = true →
  e ∈ pd_elements x.
Proof.
  intros Hh Hx He (q & i & -> & (y & j & Hy & _ & Hj) & _)%released_spec.
  apply elem_of_pd_elements; [done|]. split; [done|]. rewrite Forall_forall in Hh.
  apply (elem_of_pd_elements y _ (Hh y Hy)) in Hj as (_ & Hj). by eapply is_element_sibling.
Qed.

Lemma gone_elements alive h x :
  Forall (entry_ok ps) h → entry_ok ps x →
  gone alive h (pd_path x) ↔ existsb (released alive h) (pd_elements x) = true.
Proof.
  intros Hh Hx. rewrite existsb_elem. split.
  - intros (e & He & Hr). exists e. split; [by eapply released_element|done].
  - intros (e & He & Hr). exists e. split; [|done]. by apply (elem_of_pd_elements x e Hx) in He as (? & _).
Qed.

End entries.

(** ** Simulation *)

(** The state of [PendingChannels] after the history: the data of released
    elements may be missing. *)
Record sim (ps : gmap (list (option N)) Pattern) (alive : gset N) (pc : PendingChannels) (h : list Pending) :
    Prop := {
  sim_ok : Forall (entry_ok ps) h;
  sim_slots e s : s ∈ default [] (pc_elements pc !! e) → ∃ x, x ∈ h ∧ pd_slot x = s ∧ e ∈ pd_elements x;
  sim_live x e : x ∈ h → pd_slot x ∈ alive → e ∈ pd_elements x →
    pd_slot x ∈ default [] (pc_elements pc !! e);
  sim_next q : (pc_next pc !! q = None ∧ gone alive h q) ∨
    ∀ i, (i < default 0 (pc_next pc !! q))%N ↔ reached h q i;
  sim_channels x : x ∈ pc_channels pc → x ∈ h;
  sim_kept x : x ∈ h → pd_slot x ∈ alive ∨ pd_declared x = true ∧ ¬ gone alive h (pd_path x) →
    x ∈ pc_channels pc;
  sim_declared p : ¬ gone alive h p →
    p ∈ pc_declared pc ↔ ∃ x, x ∈ h ∧ pd_declared x = true ∧ pd_path x = p
}.

Lemma sim_default ps : sim ps ∅ PendingChannels_default [].
Proof.
  split; cbn [PendingChannels_default pc_channels pc_next pc_elements pc_declared].
  - constructor.
  - intros e s. rewrite lookup_empty. by intros ?%not_elem_of_nil.
  - by intros x e ?%not_elem_of_nil.
  - intros q. right. intros i. rewrite lookup_empty. cbn. split; [lia|].
    by intros (x & j & ?%not_elem_of_nil & _).
  - by intros x ?%not_elem_of_nil.
  - by intros x ?%not_elem_of_nil.
  - intros p _. split; [set_solver|]. by intros (x & ?%not_elem_of_nil & _).
Qed.

Section sim.
Context (ps : gmap (list (option N)) Pattern).

Lemma live_elements alive pc h e :
  sim ps alive pc h →
  match pc_elements pc !! e with
  | Some slots => existsb (λ slot, bool_decide (slot ∈ alive)) slots
  | None => false
  end = true ↔ live_in alive h e.
Proof.
  intros Hs. transitivity (∃ s, s ∈ default [] (pc_elements pc !! e) ∧ s ∈ alive).
  - destruct (pc_elements pc !! e) as [slots|]; cbn.
    + rewrite existsb_elem. by setoid_rewrite bool_decide_eq_true.
    + split; [done|]. by intros (s & ?%not_elem_of_nil & _).
  - split.
    + intros (s & (x & Hx & <- & He)%(sim_slots _ _ _ _ Hs) & Ha). by exists x.
    + intros (x & Hx & He & Ha). exists (pd_slot x). split; [|done]. by eapply sim_live.
Qed.

(** What is released is released by the specification. *)
Lemma is_released_sound alive pc h e :
  sim ps alive pc h → pc_is_released alive pc e = true → released alive h e = true.
Proof.
  intros Hs. unfold pc_is_released, is_released.
  destruct (split_last e) as [[i q]|] eqn:E; [|done]. apply split_last_inv in E as ->.
  rewrite andb_true_iff, negb_true_iff. intros (Hn & Hl). apply released_spec. exists q, i. split; [done|].
  destruct (pc_next pc !! q) as [n|] eqn:En; [|done]. apply bool_decide_eq_true in Hn. split.
  - destruct (sim_next _ _ _ _ Hs q) as [(? & _)|Hi]; [congruence|]. apply Hi. by rewrite En.
  - rewrite <- (live_elements _ _ _ _ Hs). by rewrite Hl.
Qed.

Lemma is_released_complete alive pc h e :
  sim ps alive pc h → released alive h e = true →
  pc_is_released alive pc e = true ∨ ∃ q i, e = q ++ [i] ∧ gone alive h q.
Proof.
  intros Hs (q & i & -> & Hr & Hl)%released_spec.
  destruct (sim_next _ _ _ _ Hs q) as [(_ & Hg)|Hi]; [right; by exists q, i|]. left.
  unfold pc_is_released, is_released. rewrite split_last_snoc, andb_true_iff, negb_true_iff.
  apply Hi in Hr. split.
  - destruct (pc_next pc !! q) as [n|]; cbn in Hr; [by apply bool_decide_eq_true|lia].
  - apply not_true_iff_false. by rewrite (live_elements _ _ _ _ Hs).
Qed.

(** A path is within a released element exactly if one of its prefixes is
    released. *)
Lemma gone_is_released alive pc h path :
  sim ps alive pc h → gone alive h path ↔ ∃ e, e `prefix_of` path ∧ pc_is_released alive pc e = true.
Proof.
  intros Hs. split; [|intros (e & He & Hr); exists e; split; [done|by eapply is_released_sound]].
  induction path as [path IH] using (induction_ltof1 _ length). unfold ltof in IH.
  intros (e & He & Hr). destruct (is_released_complete _ _ _ _ Hs Hr) as [Hr'|(q & i & -> & Hg)].
  - by exists e.
  - destruct (IH q) as (e' & He' & Hr'); [|done|].
    + destruct He as (k & ->). rewrite !length_app. simpl. lia.
    + exists e'. split; [|done]. etrans; [exact He'|]. etrans; [|exact He]. by apply prefix_app_r.
Qed.

Lemma elements_released alive pc h x :
  sim ps alive pc h → entry_ok ps x →
  existsb (pc_is_released alive pc) (pd_elements x) = existsb (released alive h) (pd_elements x).
Proof.
  intros Hs Hx. apply eq_true_iff_eq. rewrite <- (gone_elements ps alive h x (sim_ok _ _ _ _ Hs) Hx).
  rewrite (gone_is_released _ _ _ _ Hs), existsb_elem. split.
  - intros (e & He & Hr). exists e. split; [|done]. by apply (elem_of_pd_elements ps x e Hx) in He as (? & _).
  - intros (e & He & Hr). exists e. split; [|done].
    eapply (released_element ps); [by eapply sim_ok|done|done|by eapply is_released_sound].
Qed.

(** *** Pruning *)

Lemma sim_elements alive pc h elements :
  sim ps alive pc h →
  (∀ e, default [] (elements !! e) = filter (.∈ alive) (default [] (pc_elements pc !! e))) →
  sim ps alive (mkPendingChannels (pc_channels pc) (pc_next pc) elements (pc_declared pc) (pc_prune_at pc)) h.
Proof.
  intros Hs He. split; cbn [pc_channels pc_next pc_elements pc_declared]; try apply Hs.
  - intros e s. rewrite He, list_elem_of_filter. intros (_ & Hin). by eapply sim_slots.
  - intros x e Hx Ha Hin. rewrite He, list_elem_of_filter. split; [done|]. by eapply sim_live.
Qed.

Lemma sim_next_forget alive pc h next :
  sim ps alive pc h →
  (∀ q, next !! q = pc_next pc !! q ∨ next !! q = None ∧ gone alive h q) →
  sim ps alive (mkPendingChannels (pc_channels pc) next (pc_elements pc) (pc_declared pc) (pc_prune_at pc)) h.
Proof.
  intros Hs Hn. split; cbn [pc_channels pc_next pc_elements pc_declared]; try apply Hs.
  intros q. destruct (Hn q) as [Hq|Hq]; [rewrite Hq; by apply (sim_next _ _ _ _ Hs)|by left].
Qed.

Lemma sim_channels_forget alive pc h channels n :
  sim ps alive pc h → (∀ x, x ∈ channels → x ∈ pc_channels pc) →
  (∀ x, x ∈ pc_channels pc → pd_slot x ∈ alive ∨ pd_declared x = true ∧ ¬ gone alive h (pd_path x) →
     x ∈ channels) →
  sim ps alive (mkPendingChannels channels (pc_next pc) (pc_elements pc)
    (list_to_set (pd_path <$> filter (λ x, pd_declared x = true) channels)) n) h.
Proof.
  intros Hs Hsub Hkeep. split; cbn [pc_channels pc_next pc_elements pc_declared]; try apply Hs.
  - intros x Hx. by apply (sim_channels _ _ _ _ Hs), Hsub.
  - intros x Hx Hk. apply Hkeep; [by eapply sim_kept|done].
  - intros p Hp. rewrite elem_of_list_to_set, list_elem_of_fmap. split.
    + intros (x & -> & (Hd & Hx)%list_elem_of_filter). exists x. split; [|done].
      by apply (sim_channels _ _ _ _ Hs), Hsub.
    + intros (x & Hx & Hd & <-). exists x. split; [done|]. apply list_elem_of_filter. split; [done|].
      apply Hkeep; [|by right]. eapply sim_kept; [done..|by right].
Qed.

Lemma sim_prune_at alive pc h n :
  sim ps alive pc h →
  sim ps alive (mkPendingChannels (pc_channels pc) (pc_next pc) (pc_elements pc) (pc_declared pc) n) h.
Proof. intros Hs. split; apply Hs. Qed.

Lemma prune_slots (alive : gset N) (slots : option (list N)) :
  default [] (slots ≫= λ slots, match filter (.∈ alive) slots with [] => None | slots => Some slots end) =
  filter (.∈ alive) (default [] slots).
Proof. destruct slots as [slots|]; [|done]. cbn. by destruct (filter _ slots). Qed.

Lemma elem_of_prefixes path e : e ∈ prefixes path ↔ e `prefix_of` path ∧ e ≠ [].
Proof.
  unfold prefixes. rewrite list_elem_of_fmap. setoid_rewrite elem_of_seq. split.
  - intros (k & -> & Hk). split; [by apply prefix_take|]. destruct path; simpl in *; [lia|done].
  - intros ((k & ->) & He). exists (length e - 1). destruct e as [|i e]; [done|].
    split; [|rewrite length_app; simpl; lia]. cbn [length].
    replace (S (S (length e) - 1)) with (length (i :: e)) by (simpl; lia). by rewrite take_app_length.
Qed.

Lemma sim_prune alive pc h : sim ps alive pc h → sim ps alive (prune alive pc) h.
Proof.
  intros Hs. unfold prune.
  set (elements := omap _ (pc_elements pc)).
  assert (sim ps alive (mkPendingChannels (pc_channels pc) (pc_next pc) elements (pc_declared pc)
    (pc_prune_at pc)) h) as H1.
  { apply sim_elements; [done|]. intros e. unfold elements. rewrite lookup_omap. apply prune_slots. }
  set (next := filter _ (pc_next pc)).
  assert (sim ps alive (mkPendingChannels (pc_channels pc) next elements (pc_declared pc)
    (pc_prune_at pc)) h) as H2.
  { apply (sim_next_forget _ _ _ next H1). cbn [pc_next]. intros q.
    destruct (existsb (is_released alive (pc_next pc) elements) (prefixes q)) eqn:E.
    - right. split.
      + apply map_lookup_filter_None. right. intros n _ Hp. cbn [fst] in Hp. congruence.
      + apply (gone_is_released _ _ _ _ H1). apply existsb_elem in E as (e & He & Hr).
        apply elem_of_prefixes in He as (He & _). by exists e.
    - left. unfold next. destruct (pc_next pc !! q) as [n|] eqn:En.
      + by apply map_lookup_filter_Some.
      + apply map_lookup_filter_None. by left. }
  apply (sim_channels_forget _ _ _ _ _ H2); cbn [pc_channels].
  - intros x Hx. by apply list_elem_of_filter in Hx as (_ & Hx).
  - intros x Hx Hk. apply list_elem_of_filter. split; [|done]. apply orb_true_iff.
    destruct Hk as [Ha|(Hd & Hg)]; [left; by apply bool_decide_eq_true|right].
    rewrite Hd. cbn [andb]. apply negb_true_iff, not_true_iff_false. intros (e & He & Hr)%existsb_elem. apply Hg.
    apply (gone_is_released _ _ _ _ H2). exists e. split; [|exact Hr].
    assert (entry_ok ps x) as Hok.
    { pose proof (sim_ok _ _ _ _ Hs) as Hh. rewrite Forall_forall in Hh. by apply Hh, (sim_channels _ _ _ _ Hs). }
    by apply (elem_of_pd_elements ps x e Hok) in He as (? & _).
Qed.

(** *** Returning channels *)

Lemma record_elements s es nx el :
  (∀ e, e ∈ es → e ≠ []) →
  let '(nx', el') := foldl (record_element s) (nx, el) es in
  (∀ e t, t ∈ default [] (el' !! e) ↔ t ∈ default [] (el !! e) ∨ t = s ∧ e ∈ es) ∧
  (∀ q i, (i < default 0 (nx' !! q))%N ↔
     (i < default 0 (nx !! q))%N ∨ ∃ j, q ++ [j] ∈ es ∧ (i < usize_saturating_add j 1)%N) ∧
  ∀ q, nx !! q = None → (∀ j, q ++ [j] ∉ es) → nx' !! q = None.
Proof.
  revert nx el. induction es as [|e es IH]; intros nx el Hne; cbn [foldl].
  { split_and!; [set_solver|set_solver|done]. }
  assert (∃ q i, e = q ++ [i]) as (q & i & ->).
  { destruct e as [|i e] using rev_ind; [by destruct (Hne [] ltac:(by left))|by exists e, i]. }
  unfold record_element at 2. rewrite split_last_snoc. cbn [fst snd].
  specialize (IH (<[q := N.max (default 0%N (nx !! q)) (usize_saturating_add i 1)]> nx)
    (<[q ++ [i] := default [] (el !! (q ++ [i])) ++ [s]]> el)).
  destruct (foldl _ _ es) as [nx' el']. destruct IH as (He & Hn & Hz); [set_solver|]. split_and!.
  - intros e t. rewrite He, elem_of_cons. destruct (decide (e = q ++ [i])) as [->|Hq].
    + rewrite lookup_insert_eq. cbn. rewrite elem_of_app, list_elem_of_singleton. naive_solver.
    + rewrite lookup_insert_ne by done. naive_solver.
  - intros q' n. rewrite Hn. destruct (decide (q' = q)) as [->|Hq].
    + rewrite lookup_insert_eq. change (default 0%N (Some ?x)) with x. setoid_rewrite elem_of_cons. split.
      * intros [Hm|(j & Hj & Hm)]; [|right; exists j; auto].
        destruct (N.max_spec (default 0%N (nx !! q)) (usize_saturating_add i 1)) as [(_ & Ee)|(_ & Ee)];
          rewrite Ee in Hm; [right; exists i; auto|by left].
      * intros [Hm|(j & [(_ & ->)%app_inj_tail|Hj] & Hm)].
        -- left. eapply N.lt_le_trans; [exact Hm|apply N.le_max_l].
        -- left. eapply N.lt_le_trans; [exact Hm|apply N.le_max_r].
        -- right. by exists j.
    + rewrite lookup_insert_ne by done. setoid_rewrite elem_of_cons. split; [naive_solver|].
      intros [Hm|(j & [(-> & _)%app_inj_tail|Hj] & Hm)]; [by left|done|right; by exists j].
  - intros q' Hq Hj. apply Hz.
    + rewrite lookup_insert_ne; [done|]. intros <-. apply (Hj i). by left.
    + intros j Hin. apply (Hj j). by right.
Qed.

Lemma live_in_app alive h x e :
  live_in alive (h ++ [x]) e ↔ live_in alive h e ∨ e ∈ pd_elements x ∧ pd_slot x ∈ alive.
Proof. unfold live_in. setoid_rewrite elem_of_app. setoid_rewrite list_elem_of_singleton. naive_solver. Qed.

Lemma reached_app h x q i :
  reached (h ++ [x]) q i ↔ reached h q i ∨ ∃ j, (i ≤ j)%N ∧ q ++ [j] ∈ pd_elements x.
Proof. unfold reached. setoid_rewrite elem_of_app. setoid_rewrite list_elem_of_singleton. naive_solver. Qed.

(** A released element stays released: nothing is returned within it. *)
Lemma released_mono alive alive' h h' e :
  (∀ q i, reached h q i → reached h' q i) → (live_in alive' h' e → live_in alive h e) →
  released alive h e = true → released alive' h' e = true.
Proof. rewrite !released_spec. naive_solver. Qed.

(** A slot which is new *)
Definition new_slot (h : list Pending) (s : N) : Prop := ∀ x, x ∈ h → pd_slot x ≠ s.

Lemma sim_new_slot alive pc h s :
  sim ps alive pc h → new_slot h s → sim ps ({[s]} ∪ alive) pc h.
Proof.
  intros Hs Hn.
  assert (∀ e, live_in ({[s]} ∪ alive) h e ↔ live_in alive h e) as Hl.
  { intros e. unfold live_in. split; intros (x & Hx & He & Ha); exists x; (split; [done|split; [done|]]);
      [|set_solver]. apply elem_of_union in Ha as [E%elem_of_singleton|Ha]; [by destruct (Hn x Hx)|done]. }
  assert (∀ p, gone ({[s]} ∪ alive) h p ↔ gone alive h p) as Hg.
  { intros p. unfold gone. split; intros (e & He & Hr); exists e; (split; [done|]);
      (eapply released_mono; [| |exact Hr]); [done|apply Hl|done|apply Hl]. }
  split; try apply Hs.
  - intros x e Hx Ha. apply (sim_live _ _ _ _ Hs); [done|].
    apply elem_of_union in Ha as [E%elem_of_singleton|Ha]; [by destruct (Hn x Hx)|done].
  - intros q. rewrite Hg. apply (sim_next _ _ _ _ Hs).
  - intros x Hx Hk. apply (sim_kept _ _ _ _ Hs); [done|]. rewrite Hg in Hk.
    destruct Hk as [Ha|?]; [left|by right].
    apply elem_of_union in Ha as [E%elem_of_singleton|Ha]; [by destruct (Hn x Hx)|done].
  - intros p. rewrite Hg. apply (sim_declared _ _ _ _ Hs).
Qed.

Lemma sim_drop alive pc h s : sim ps alive pc h → sim ps (alive ∖ {[s]}) pc h.
Proof.
  intros Hs.
  assert (∀ p, gone alive h p → gone (alive ∖ {[s]}) h p) as Hg.
  { intros p (e & He & Hr). exists e. split; [done|]. eapply released_mono; [| |exact Hr]; [done|].
    intros (x & Hx & Hin & Ha). exists x. set_solver. }
  split; try apply Hs.
  - intros x e Hx Ha. apply (sim_live _ _ _ _ Hs); [done|set_solver].
  - intros q. destruct (sim_next _ _ _ _ Hs q) as [(Hq & Hq')|Hq]; [left; auto|by right].
  - intros x Hx Hk. apply (sim_kept _ _ _ _ Hs); [done|].
    destruct Hk as [Ha|(Hd & Hp)]; [left; set_solver|right; auto].
  - intros p Hp. apply (sim_declared _ _ _ _ Hs). auto.
Qed.

Lemma elements_nonempty x e : entry_ok ps x → e ∈ pd_elements x → e ≠ [].
Proof.
  intros Hx (_ & (node & pat & Hr))%(elem_of_pd_elements ps x e Hx) ->.
  apply resolve_in_length in Hr. rewrite length_app in Hr. simpl in Hr. lia.
Qed.

Lemma next_reached x q i :
  entry_ok ps x →
  (∃ j, q ++ [j] ∈ pd_elements x ∧ (i < usize_saturating_add j 1)%N) ↔
  ∃ j, (i ≤ j)%N ∧ q ++ [j] ∈ pd_elements x.
Proof.
  intros Hx. apply exist_proper. intros j.
  assert (q ++ [j] ∈ pd_elements x → (i < usize_saturating_add j 1)%N ↔ (i ≤ j)%N) as Hj; [|tauto].
  intros (Hp & _)%(elem_of_pd_elements ps x _ Hx). destruct Hx as (node & _ & _ & Hlt).
  destruct Hp as (k & Hp). rewrite Hp, !Forall_app, Forall_singleton in Hlt. destruct Hlt as ((_ & Hlt) & _).
  unfold usize_saturating_add. lia.
Qed.

(** The entry is added to the history. *)
Lemma sim_add alive pc h x next elements n :
  sim ps alive pc h → entry_ok ps x → pd_slot x ∈ alive → ¬ gone alive h (pd_path x) →
  foldl (record_element (pd_slot x)) (pc_next pc, pc_elements pc) (pd_elements x) = (next, elements) →
  sim ps alive (mkPendingChannels (pc_channels pc ++ [x]) next elements
    (if pd_declared x then {[pd_path x]} ∪ pc_declared pc else pc_declared pc) n) (h ++ [x]).
Proof.
  intros Hs Hx Ha Hg Hf.
  pose proof (record_elements (pd_slot x) (pd_elements x) (pc_next pc) (pc_elements pc)) as Hr.
  rewrite Hf in Hr. destruct Hr as (He & Hn & Hz); [intros e; by apply elements_nonempty|].
  assert (∀ e, released alive h e = true → released alive (h ++ [x]) e = true) as Hrel.
  { intros e Hr. apply (released_mono alive alive h _ e); [| |done].
    - intros q i. rewrite reached_app. auto.
    - rewrite live_in_app. intros [?|(Hin & _)]; [done|]. destruct Hg. exists e. split; [|done].
      by apply (elem_of_pd_elements ps x e Hx) in Hin as (? & _). }
  assert (∀ p, gone alive h p → gone alive (h ++ [x]) p) as Hgone.
  { intros p (e & ? & Hr). exists e. auto. }
  split; cbn [pc_channels pc_next pc_elements pc_declared].
  - apply Forall_app. split; [apply Hs|by apply Forall_singleton].
  - intros e t. rewrite He. setoid_rewrite elem_of_app. setoid_rewrite list_elem_of_singleton.
    intros [(y & ?)%(sim_slots _ _ _ _ Hs)|(-> & ?)]; naive_solver.
  - intros y e Hy Hal Hin. rewrite He. apply elem_of_app in Hy as [Hy| ->%list_elem_of_singleton].
    + left. by apply (sim_live _ _ _ _ Hs).
    + by right.
  - intros q. destruct (sim_next _ _ _ _ Hs q) as [(Hq & Hgq)|Hi].
    + left. split; [|by apply Hgone]. apply Hz; [done|]. intros j Hin. apply Hg.
      destruct Hgq as (e & Hpre & Hrl). exists e. split; [|done]. etrans; [exact Hpre|].
      apply (elem_of_pd_elements ps x _ Hx) in Hin as (Hin & _). etrans; [|exact Hin]. by apply prefix_app_r.
    + right. intros i. rewrite Hn, reached_app, Hi, (next_reached x q i Hx). done.
  - intros y. rewrite !elem_of_app. intros [Hy|?]; [left; by apply (sim_channels _ _ _ _ Hs)|by right].
  - intros y. rewrite !elem_of_app. intros [Hy|?] Hk; [|by right]. left. apply (sim_kept _ _ _ _ Hs); [done|].
    destruct Hk as [?|(? & ?)]; [by left|right]. split; [done|]. auto.
  - intros p Hp. setoid_rewrite elem_of_app. setoid_rewrite list_elem_of_singleton.
    assert (¬ gone alive h p) as Hp' by auto. pose proof (sim_declared _ _ _ _ Hs p Hp') as Hd.
    transitivity ((pd_declared x = true ∧ p = pd_path x) ∨ p ∈ pc_declared pc).
    { destruct (pd_declared x); [rewrite elem_of_union, elem_of_singleton|]; intuition congruence. }
    rewrite Hd. split.
    + intros [(? & ->)|(y & ? & ? & ?)]; [exists x|exists y]; auto.
    + intros (y & [Hy| ->] & ? & <-); [right; by exists y|by left].
Qed.

Lemma push_sim alive pc h x :
  sim ps alive pc h → entry_ok ps x → pd_slot x ∈ alive →
  (push alive x pc).1 = (spec_push alive x h).1 ∧ sim ps alive (push alive x pc).2 (spec_push alive x h).2.
Proof.
  intros Hs Hx Ha. unfold push, spec_push. rewrite (elements_released _ _ _ _ Hs Hx).
  destruct (existsb (released alive h) (pd_elements x)) eqn:Er; [done|].
  assert (¬ gone alive h (pd_path x)) as Hg.
  { rewrite (gone_elements ps alive h x (sim_ok _ _ _ _ Hs) Hx). by rewrite Er. }
  assert (bool_decide (pd_path x ∈ pc_declared pc) =
    existsb (λ y, pd_declared y && bool_decide (pd_path y = pd_path x)) h) as ->.
  { apply eq_true_iff_eq. rewrite bool_decide_eq_true, existsb_elem, (sim_declared _ _ _ _ Hs _ Hg).
    setoid_rewrite andb_true_iff. by setoid_rewrite bool_decide_eq_true. }
  destruct (pd_declared x && _) eqn:Ed; [done|].
  destruct (foldl _ _ _) as [next elements] eqn:Ef.
  pose proof (sim_add _ _ _ _ _ _ (pc_prune_at pc) Hs Hx Ha Hg Ef) as Hadd.
  case_if; [|done]. split; [done|]. by apply sim_prune_at, sim_prune.
Qed.

Lemma run_sim ops alive pc h :
  sim ps alive pc h → Forall (op_ok ps) ops → NoDup (new_slots ops) →
  (∀ s, s ∈ new_slots ops → new_slot h s) →
  run push ops alive pc = run spec_push ops alive h.
Proof.
  revert alive pc h. induction ops as [|[x|s] ops IH]; intros alive pc h Hs Hok Hnd Hnew; [done|..];
    apply Forall_cons in Hok as (Hx & Hok); cbn [run new_slots] in *.
  - apply NoDup_cons in Hnd as (Hni & Hnd).
    destruct (push_sim ({[pd_slot x]} ∪ alive) pc h x) as (Hr & Hs');
      [apply sim_new_slot; [done|apply Hnew; by left]|done|set_solver|].
    assert (∀ s, s ∈ new_slots ops → new_slot (spec_push ({[pd_slot x]} ∪ alive) x h).2 s) as Hnew'.
    { intros s Hin y Hy. unfold spec_push in Hy. repeat case_match; cbn [snd] in Hy;
        try (by eapply Hnew; [by right|]).
      apply elem_of_app in Hy as [Hy| ->%list_elem_of_singleton]; [by eapply Hnew; [by right|]|].
      intros <-. done. }
    destruct (push _ x pc) as [r pc'], (spec_push _ x h) as [r' h']. cbn [fst snd] in *. subst r'.
    f_equal. by apply IH.
  - apply IH; [by apply sim_drop|done..].
Qed.

End sim.

(** ** Properties *)

(** [C37] pending channels are refused as the specification says, and only then:
    whichever channels are returned and dropped before an invocation is
    transmitted, and in whatever order, [push] yields what the history of the
    channels demands, although it keeps but a summary of it and forgets dropped
    channels and released elements when they become many. *)
Theorem pending_refines_history paths ops :
  let ps := patterns_of paths in
  Forall (op_ok ps) ops → NoDup (new_slots ops) →
  run push ops ∅ PendingChannels_default = run spec_push ops ∅ [].
Proof.
  intros ps Hok Hnd. apply (run_sim ps); [apply sim_default|done..|]. by intros s _ x ?%not_elem_of_nil.
Qed.

(** ** Witnesses *)

Definition test_decl : list (list (option N)) := [[Some 0; None]; [Some 0; None; None]; [Some 1; None]]%N.

Definition test_entry (path : list N) (slot : N) : Pending :=
  match resolve_in (patterns_of test_decl) path with
  | Some (node, pattern) => mkPending path pattern slot (p_declared node)
  | None => mkPending path [] slot false
  end.

(** A channel of an element within another one is refused once the outer one is
    released, and an element before one which was returned is refused. *)
Definition test_ops : list op :=
  [OpIndex (test_entry [0; 1] 1); OpIndex (test_entry [0; 1; 0] 2); OpIndex (test_entry [0; 1] 3);
   OpDrop 1; OpIndex (test_entry [0; 1] 4); OpDrop 2; OpIndex (test_entry [0; 1; 5] 5);
   OpIndex (test_entry [1; 4] 6); OpIndex (test_entry [1; 2] 7)]%N.

Example test_ops_results :
  run spec_push test_ops ∅ [] =
  [Ok tt; Ok tt; Err AlreadyExists; Err AlreadyExists; Err NotFound; Ok tt; Err NotFound].
Proof. vm_compute. reflexivity. Qed.

Lemma pending_refines_history_witness :
  run push test_ops ∅ PendingChannels_default =
  [Ok tt; Ok tt; Err AlreadyExists; Err AlreadyExists; Err NotFound; Ok tt; Err NotFound].
Proof.
  rewrite (pending_refines_history test_decl test_ops).
  - vm_compute. reflexivity.
  - repeat (apply Forall_cons_2; [first [exact I|eexists; split; [vm_compute; reflexivity|];
      split; [reflexivity|repeat (apply Forall_cons_2; [vm_compute; reflexivity|]); apply Forall_nil_2]]|]).
    apply Forall_nil_2.
  - apply (bool_decide_unpack _). vm_compute. exact I.
Defined.
