(* ===== verification/Mirror.v ===== *)
(** * The transport and the history of its handles

    [ChannelsSpec] specifies which channels are refused by the history of the
    channels which were returned.  Here is that [Subscriptions] of
    [frame/conn/mod.rs] follows the same history: an element is released exactly
    if the history says so, and the data of a declared position is taken exactly
    if a handle at it is in the history ([mirror]).  Indexing, dropping handles
    and the steps of ingress maintain it. *)

From S2P Require Import Prelude Wire FrameCodec Subscriptions Resolve SubsInv Elements Conn ConnInv.
From S2P Require Import Channels ChannelsSpec.

(** [hs] are the paths of the handles but for the root. *)
Record mirror (ps : gmap (list (option N)) Pattern) (alive : gset N) (h : list Pending) (hs : list (list N))
    (st : Subscriptions) : Prop := {
  mi_patterns : s_patterns st = ps;
  mi_elements : elements_ok hs st;
  mi_ok : Forall (entry_ok ps) h;
  mi_live e : is_element ps e → (∃ p, p ∈ hs ∧ e `prefix_of` p) ↔ live_in alive h e;
  mi_next q i : ¬ gone alive h q → (i < next st q)%N ↔ reached h q i;
  mi_rx p node pat :
    resolve_in ps p = Some (node, pat) → p_declared node = true → p ≠ [] → ¬ gone alive h p →
    rx_taken st p = true ↔ ∃ x, x ∈ h ∧ pd_path x = p
}.

(** ** Released elements *)

Lemma released_nil alive h : released alive h [] = false.
Proof. done. Qed.

Lemma gone_existsb alive h p : gone alive h p ↔ existsb (released alive h) (prefixes p) = true.
Proof.
  rewrite existsb_elem. setoid_rewrite elem_of_prefixes. unfold gone. split; intros (e & He & Hr); exists e.
  - split; [|done]. split; [done|]. intros ->. by rewrite released_nil in Hr.
  - naive_solver.
Qed.

#[global] Instance gone_decision alive h p : Decision (gone alive h p).
Proof. refine (cast_if (decide (existsb (released alive h) (prefixes p) = true))); by rewrite gone_existsb. Defined.

Lemma gone_prefix alive h p q : gone alive h p → p `prefix_of` q → gone alive h q.
Proof. intros (e & He & Hr) Hp. exists e. split; [by trans p|done]. Qed.

(** The outermost released element *)
Lemma gone_outermost alive h p :
  gone alive h p → ∃ q i, q ++ [i] `prefix_of` p ∧ released alive h (q ++ [i]) = true ∧ ¬ gone alive h q.
Proof.
  induction p as [p IH] using (induction_ltof1 _ length). unfold ltof in IH.
  intros (e & He & Hr). pose proof Hr as (q & i & -> & _)%released_spec.
  destruct (decide (gone alive h q)) as [Hg|Hg]; [|by exists q, i].
  destruct (IH q) as (q' & i' & Hp & Hr'); [|done|].
  - apply prefix_length in He. rewrite length_app in He. simpl in He. lia.
  - exists q', i'. split; [|done]. trans q; [done|]. trans (q ++ [i]); [by apply prefix_app_r|done].
Qed.

(** A fold over the elements of a list keeps an invariant. *)
Lemma foldl_inv_elem {A B} (P : A → Prop) (f : A → B → A) l a :
  P a → (∀ a b, b ∈ l → P a → P (f a b)) → P (foldl f a l).
Proof.
  revert a. induction l as [|b l IH]; intros a Ha Hf; simpl; [done|]. apply IH.
  - apply Hf; [by left|done].
  - intros a' b' Hb. apply Hf. by right.
Qed.

Section mirror.
Context (ps : gmap (list (option N)) Pattern).

Lemma reached_is_element h q i : Forall (entry_ok ps) h → reached h q i → is_element ps (q ++ [i]).
Proof.
  intros Hh (x & j & Hx & _ & Hj). rewrite Forall_forall in Hh.
  apply (elem_of_pd_elements ps x _ (Hh x Hx)) in Hj as (_ & Hj). by eapply is_element_sibling.
Qed.

Lemma entry_element h x e :
  Forall (entry_ok ps) h → x ∈ h → e `prefix_of` pd_path x → is_element ps e → e ∈ pd_elements x.
Proof.
  intros Hh Hx He Hel. rewrite Forall_forall in Hh. by apply (elem_of_pd_elements ps x e (Hh x Hx)).
Qed.

(** The element has handles exactly if a channel within it is alive. *)
Lemma mirror_handles alive h hs st e v :
  mirror ps alive h hs st → is_element ps e → view st !! e = Some v → (0 < v.1)%N ↔ live_in alive h e.
Proof.
  intros Hm He Hv. rewrite <- (mi_live _ _ _ _ _ Hm e He).
  pose proof (mi_elements _ _ _ _ _ Hm) as Hok. unfold elements_ok in Hok. rewrite (mi_patterns _ _ _ _ _ Hm) in Hok.
  rewrite (ei_handles _ _ _ _ _ Hok _ _ Hv He), decide_False by apply not_elem_of_nil.
  split.
  - intros Hp. destruct (decide (Exists (λ p, e `prefix_of` p) hs)) as [Hx|Hx].
    + apply Exists_exists in Hx as (p & ? & ?). eauto.
    + exfalso. assert (handles_in hs e = 0%N); [|lia]. apply handles_in_0. intros p Hin Hpre. apply Hx.
      apply Exists_exists. eauto.
  - intros (p & Hp & Hpre). destruct (N.eq_0_gt_0_cases (handles_in hs e)) as [H0|]; [|lia].
    exfalso. rewrite handles_in_0 in H0. by eapply H0.
Qed.

Lemma mirror_live_sub alive h hs st e :
  mirror ps alive h hs st → is_element ps e → live_in alive h e → is_Some (view st !! e).
Proof.
  intros Hm He Hl. pose proof (mi_elements _ _ _ _ _ Hm) as Hok. unfold elements_ok in Hok.
  rewrite (mi_patterns _ _ _ _ _ Hm) in Hok. apply (mi_live _ _ _ _ _ Hm e He) in Hl as (p & Hp & Hpre).
  by apply (ei_live _ _ _ _ _ Hok p Hp).
Qed.

Lemma mirror_elem alive h hs st :
  mirror ps alive h hs st → elem_inv ps hs [] (view st) (s_next st).
Proof. intros Hm. pose proof (mi_elements _ _ _ _ _ Hm) as Hok. unfold elements_ok in Hok. by rewrite (mi_patterns _ _ _ _ _ Hm) in Hok. Qed.

(** A subscribed element without handles was not reached. *)
Lemma mirror_unindexed alive h hs st q i v :
  mirror ps alive h hs st → view st !! (q ++ [i]) = Some v → v.1 = 0%N → is_element ps (q ++ [i]) →
  ¬ gone alive h q → ¬ reached h q i.
Proof.
  intros Hm Hv H0 He Hg Hr%(mi_next _ _ _ _ _ Hm q i Hg).
  destruct (ei_unindexed _ _ _ _ _ (mirror_elem _ _ _ _ Hm) _ _ _ Hv He H0) as (Hn & _).
  rewrite next_next_in in Hr. lia.
Qed.

(** What the transport has released is what the history says. *)
Lemma mirror_gone alive h hs st x :
  mirror ps alive h hs st → entry_ok ps x →
  existsb (element_released st (pd_path x)) (wildcards (pd_pattern x)) = true ↔ gone alive h (pd_path x).
Proof.
  intros Hm (node & Hr & _). pose proof (resolve_in_length _ _ _ _ Hr) as Hlen.
  rewrite existsb_elem. split.
  - intros (k & Hk%elem_of_wildcards & He). unfold element_released in He.
    apply andb_true_iff in He as (Hs & Hn). apply N.ltb_lt in Hn.
    assert (k < length (pd_path x)) as Hlt by (rewrite <- Hlen; by eapply lookup_lt_Some).
    destruct (decide (gone alive h (take k (pd_path x)))) as [Hg|Hg].
    { eapply gone_prefix; [exact Hg|apply prefix_take]. }
    exists (take (S k) (pd_path x)). split; [apply prefix_take|]. apply released_spec.
    exists (take k (pd_path x)), (path_at (pd_path x) k). split; [by apply take_S_path_at|].
    split; [by apply (mi_next _ _ _ _ _ Hm)|]. intros Hl.
    apply (mirror_live_sub _ _ _ _ _ Hm) in Hl as (v & Hv); [|by eapply is_element_take].
    rewrite view_lookup in Hv. by destruct (s_subs st !! _).
  - intros (q & i & Hp & Hrel & Hg)%gone_outermost.
    apply released_spec in Hrel as (q' & i' & E & Hre & Hl). apply app_inj_tail in E as (<- & <-).
    pose proof (reached_is_element _ _ _ (mi_ok _ _ _ _ _ Hm) Hre) as He.
    destruct (proj1 (element_prefix _ _ _ _ (q ++ [i]) Hr) (conj Hp He)) as (k & Hk & E).
    assert (k < length (pd_path x)) as Hlt by (rewrite <- Hlen; by eapply lookup_lt_Some).
    exists k. split; [by apply elem_of_wildcards|]. unfold element_released. rewrite <- E.
    rewrite take_S_path_at in E by done. apply app_inj_tail in E as (<- & <-).
    apply andb_true_iff. split; [|by apply N.ltb_lt, (mi_next _ _ _ _ _ Hm)].
    destruct (s_subs st !! (q ++ [i])) as [sub|] eqn:Es; [|done]. exfalso.
    assert (view st !! (q ++ [i]) = Some (sub_view sub)) as Hv by (by rewrite view_lookup, Es).
    destruct (N.eq_0_gt_0_cases (sub_view sub).1) as [H0|H0].
    + by eapply mirror_unindexed.
    + by apply Hl, (mirror_handles _ _ _ _ _ _ Hm He Hv).
Qed.

(** ** Receivers *)

(** The receivers of declared positions which are taken stay the same. *)
Definition same_taken (st st' : Subscriptions) : Prop :=
  s_patterns st' = s_patterns st ∧
  (s_patterns st = ps → ∀ p node pat,
     resolve_in ps p = Some (node, pat) → p_declared node = true → rx_taken st' p = rx_taken st p).

#[global] Instance same_taken_preorder : PreOrder same_taken.
Proof.
  split; [done|]. intros st1 st2 st3 (E1 & H1) (E2 & H2). split; [congruence|]. intros Hp p node pat Hr Hd.
  rewrite (H2 ltac:(congruence) p node pat), (H1 Hp p node pat); done.
Qed.

Lemma resolve_from_node n pre p node pat :
  ps !! pre = Some n → resolve_from ps n pre p = Some (node, pat) → ps !! pat = Some node.
Proof.
  revert n pre. induction p as [|i p IH]; intros n pre Hn; simpl; [by intros [= <- <-]|].
  destruct (p_wildcard n) as [w|]; simpl; [|done].
  destruct (ps !! (pre ++ _)) as [n'|] eqn:E; simpl; [|done]. by apply IH.
Qed.

Lemma resolve_in_node p node pat : resolve_in ps p = Some (node, pat) → ps !! pat = Some node.
Proof.
  unfold resolve_in. destruct (ps !! []) as [n|] eqn:E; simpl; [|done]. by apply resolve_from_node.
Qed.

Lemma same_taken_subs st st' :
  s_patterns st' = s_patterns st →
  (∀ p, sub_rx <$> s_subs st' !! p = sub_rx <$> s_subs st !! p) → same_taken st st'.
Proof.
  intros Hp Hs. split; [done|]. intros _ p node pat _ _. unfold rx_taken. specialize (Hs p).
  destruct (s_subs st' !! p), (s_subs st !! p); simpl in *; congruence.
Qed.

Lemma same_taken_subscribe p pat st :
  (s_patterns st = ps → ∃ node, resolve_in ps p = Some (node, pat)) → same_taken st (subscribe p pat st).
Proof.
  intros Hr. destruct (view_subscribe p pat st) as (_ & _ & Ep). split; [done|].
  intros Hps q nd pt Hq Hd. destruct (Hr Hps) as (node & Hn). clear Hr. unfold rx_taken, subscribe.
  destruct (s_subs st !! p) as [sub|] eqn:Es; [done|].
  destruct (Subscription_new _ st) as [sub st1] eqn:En. cbn [set_subs s_subs].
  assert (s_subs st1 = s_subs st ∧ (p = q → is_Some (sub_rx sub))) as (E1 & Hrx).
  { unfold Subscription_new in En. destruct (match s_patterns st !! pat with Some _ => _ | None => _ end) eqn:Ed.
    - injection En as <- <-. simpl. eauto.
    - injection En as <- <-. split; [done|]. intros ->. rewrite Hn in Hq. injection Hq as -> ->.
      rewrite Hps, (resolve_in_node _ _ _ Hn) in Ed. congruence. }
  destruct (decide (p = q)) as [->|Hne].
  - rewrite lookup_insert_eq, Es. destruct (Hrx eq_refl) as (c & Hc). destruct (s_closed st1); simpl; by rewrite Hc.
  - rewrite lookup_insert_ne by done. by rewrite E1.
Qed.

Lemma same_taken_update p sub tx n b st st' :
  s_subs st !! p = Some sub → s_patterns st' = s_patterns st →
  s_subs st' = <[p := mkSubscription tx (sub_rx sub) n b]> (s_subs st) → same_taken st st'.
Proof.
  intros Hs Hp Hst. apply same_taken_subs; [done|]. intros q. rewrite Hst.
  destruct (decide (p = q)) as [->|]; [by rewrite lookup_insert_eq, Hs|by rewrite lookup_insert_ne].
Qed.

Lemma same_taken_claim path node pat st k :
  resolve_in ps path = Some (node, pat) → k < length path → same_taken st (claim_element path pat st k).
Proof.
  intros Hr Hk. unfold claim_element. cbn zeta. destruct (resolve_in_take _ _ _ _ (S k) Hr) as (node' & Hk'); [lia|].
  transitivity (subscribe (take (S k) path) (take (S k) pat) st); [apply same_taken_subscribe; eauto|].
  set (st1 := subscribe _ _ st). clearbody st1.
  destruct (s_subs st1 !! take (S k) path) as [sub|] eqn:Es; [|by apply same_taken_subs].
  by eapply same_taken_update.
Qed.

Lemma same_taken_claims path node pat st ks :
  resolve_in ps path = Some (node, pat) → (∀ k, k ∈ ks → k < length path) →
  same_taken st (foldl (claim_element path pat) st ks).
Proof.
  intros Hr. revert st. induction ks as [|k ks IH]; intros st Hks; cbn [foldl]; [done|].
  etrans; [|apply IH; set_solver]. eapply same_taken_claim; [done|]. apply Hks. by left.
Qed.

(** ** Changes which are not seen *)

Lemma mirror_same alive h hs st st' :
  mirror ps alive h hs st → elements_ok hs st' → same_taken st st' → s_next st' = s_next st →
  mirror ps alive h hs st'.
Proof.
  intros Hm Hok (Hp & Ht) Hn. split; try apply Hm; try done.
  - rewrite Hp. apply Hm.
  - intros q i. rewrite next_next_in, Hn. apply (mi_next _ _ _ _ _ Hm).
  - intros p node pat Hr Hd. rewrite (Ht (mi_patterns _ _ _ _ _ Hm) p node pat Hr Hd). by apply (mi_rx _ _ _ _ _ Hm p node pat).
Qed.

(** ** Removing elements *)

Lemma rx_taken_remove p q st :
  rx_taken (remove p st).2 q = if decide (p `prefix_of` q) then false else rx_taken st q.
Proof.
  destruct (remove_eq p st) as (removed & _ & ->). unfold rx_taken. cbn [snd s_subs].
  rewrite lookup_remove_nested. by destruct (decide _).
Qed.

Lemma next_remove p q st :
  next (remove p st).2 q = if decide (p `prefix_of` q) then 0%N else next st q.
Proof.
  rewrite !next_next_in. destruct (view_remove p st) as (_ & -> & _). unfold next_in.
  rewrite lookup_remove_nested. by destruct (decide _).
Qed.

(** An element without handles is removed: nothing was returned within it, or it
    is gone. *)
Lemma mirror_remove alive h hs st e :
  mirror ps alive h hs st → is_element ps e → (∀ v, view st !! e = Some v → v.1 = 0%N) →
  mirror ps alive h hs (remove e st).2.
Proof.
  intros Hm He H0. pose proof (mirror_elem _ _ _ _ Hm) as Hok.
  assert (¬ live_in alive h e) as Hdead.
  { intros Hl. destruct (mirror_live_sub _ _ _ _ _ Hm He Hl) as (v & Hv).
    apply (mirror_handles _ _ _ _ _ _ Hm He Hv) in Hl. rewrite (H0 v Hv) in Hl. lia. }
  split; try apply Hm.
  - destruct (view_remove e st) as (_ & _ & ->). apply Hm.
  - apply elements_remove; [|apply Hm]. intros p Hp Hpre. apply Hdead, (mi_live _ _ _ _ _ Hm e He). eauto.
  - intros q i Hg. rewrite <- (mi_next _ _ _ _ _ Hm q i Hg), next_remove.
    destruct (decide _) as [Hpre|]; [|done]. rewrite next_next_in. unfold next_in.
    destruct (s_next st !! q) as [n|] eqn:En; [|done].
    destruct (ei_next _ _ _ _ _ Hok q e) as (v & Hv & Hpos); [eauto|done|done|]. rewrite (H0 v Hv) in Hpos. lia.
  - intros p node pat Hr Hd Hne Hg. rewrite rx_taken_remove.
    rewrite <- (mi_rx _ _ _ _ _ Hm p node pat Hr Hd Hne Hg). destruct (decide _) as [Hpre|]; [|done].
    split; [done|]. intros Ht. exfalso.
    pose proof Ht as (x & Hx & <-)%(mi_rx _ _ _ _ _ Hm p node pat Hr Hd Hne Hg).
    unfold rx_taken in Ht. destruct (s_subs st !! pd_path x) as [sub|] eqn:Es; [|done].
    destruct (ei_subs _ _ _ _ _ Hok (pd_path x) (sub_view sub)) as (_ & Hel); [by rewrite view_lookup, Es|].
    destruct (Hel e Hpre He) as (v & Hv). pose proof He as (nd & pt & Hre).
    pose proof (entry_element _ _ _ (mi_ok _ _ _ _ _ Hm) Hx Hpre He) as Hin.
    destruct e as [|i q _] using rev_ind.
    { apply resolve_in_length in Hre. rewrite length_app in Hre. simpl in Hre. lia. }
    eapply (mirror_unindexed _ _ _ _ _ _ _ Hm Hv (H0 v Hv) He).
    + intros Hq. apply Hg. eapply gone_prefix; [exact Hq|]. trans (q ++ [i]); [by apply prefix_app_r|done].
    + by exists x, i.
Qed.

Lemma mirror_remove_all alive h hs l acc :
  mirror ps alive h hs acc.2 → Forall (is_element ps) l →
  (∀ e v, e ∈ l → view acc.2 !! e = Some v → v.1 = 0%N) →
  mirror ps alive h hs (remove_all l acc).2.
Proof.
  revert acc. induction l as [|e l IH]; intros acc Hm Hl H0; [done|]. apply Forall_cons in Hl as (He & Hl).
  rewrite remove_all_cons. apply IH; [|done|]; cbn [snd].
  - apply mirror_remove; [done|done|]. intros v. apply H0. by left.
  - intros e' v Hin Hv. apply (H0 e' v); [by right|]. eapply lookup_weaken; [exact Hv|apply remove_subseteq].
Qed.

Lemma mirror_skip_at alive h hs path node pat acc k :
  resolve_in ps path = Some (node, pat) → pat !! k = Some None →
  mirror ps alive h hs acc.2 → mirror ps alive h hs (skip_at path acc k).2.
Proof.
  intros Hr Hk Hm. unfold skip_at. destruct (_ <=? _)%N; [done|]. fold (remove_all (skipped path acc.2 k) acc).
  assert (k < length path) as Hlt.
  { rewrite <- (resolve_in_length _ _ _ _ Hr). by eapply lookup_lt_Some. }
  apply mirror_remove_all; [done| |].
  - apply Forall_forall. intros e (j & -> & _)%elem_of_skipped; [|done]. eapply is_element_sibling.
    rewrite <- take_S_path_at by done. by eapply is_element_take.
  - intros e v (j & -> & _ & Hh)%elem_of_skipped Hv; [|done]. rewrite view_lookup in Hv.
    destruct (s_subs acc.2 !! _) as [sub|]; simpl in *; [|done]. by simplify_eq.
Qed.

Lemma mirror_skip alive h hs path st :
  mirror ps alive h hs st → mirror ps alive h hs (skip path st).2.
Proof.
  intros Hm. unfold skip. destruct (resolve st path) as [[node pat]|] eqn:Hr; [|done].
  rewrite resolve_resolve_in, (mi_patterns _ _ _ _ _ Hm) in Hr.
  apply (foldl_inv_elem (λ acc, mirror ps alive h hs acc.2)); [done|].
  intros acc k Hk%elem_of_wildcards Hacc. by eapply mirror_skip_at.
Qed.

(** ** Indexing *)

Lemma next_claims path pat st ks q i :
  (∀ k, k ∈ ks → k < length path) →
  (i < next (foldl (claim_element path pat) st ks) q)%N ↔
  (i < next st q)%N ∨ ∃ j, q ++ [j] ∈ els path ks ∧ (i < usize_saturating_add j 1)%N.
Proof.
  revert st. induction ks as [|k ks IH]; intros st Hks; cbn [foldl].
  { unfold els. simpl. set_solver. }
  assert (k < length path) as Hk by (apply Hks; by left).
  rewrite IH by (intros k' ?; apply Hks; by right).
  destruct (view_claim_element path pat st k Hk) as (_ & Hn & _). cbn zeta in Hn.
  rewrite !next_next_in. unfold next_in in *. rewrite Hn.
  unfold els. rewrite fmap_cons, take_S_path_at by done. setoid_rewrite elem_of_cons.
  destruct (decide (q = take k path)) as [->|Hq].
  - rewrite lookup_insert_eq. change (default 0%N (Some ?x)) with x. split.
    + intros [Hm|(j & Hj & Hm)]; [|right; exists j; auto].
      destruct (N.max_spec (default 0%N (s_next st !! take k path)) (usize_saturating_add (path_at path k) 1))
        as [(_ & Ee)|(_ & Ee)]; rewrite Ee in Hm; [right; eexists; auto|by left].
    + intros [Hm|(j & [(_ & ->)%app_inj_tail|Hj] & Hm)].
      * left. eapply N.lt_le_trans; [exact Hm|apply N.le_max_l].
      * left. eapply N.lt_le_trans; [exact Hm|apply N.le_max_r].
      * right. by exists j.
  - rewrite lookup_insert_ne by done. split; [naive_solver|].
    intros [Hm|(j & [(-> & _)%app_inj_tail|Hj] & Hm)]; [by left|done|right; by exists j].
Qed.

Lemma pd_elements_els x : pd_elements x = els (pd_path x) (wildcards (pd_pattern x)).
Proof. done. Qed.

(** A handle at the path of [x] was returned before. *)
Definition was_taken (h : list Pending) (x : Pending) : Prop :=
  pd_declared x = true ∧ ∃ y, y ∈ h ∧ pd_path y = pd_path x.

(** The position of [x] has no positions nested in it. *)
Definition leaf (x : Pending) : Prop := ∀ node pat, resolve_in ps (pd_path x) = Some (node, pat) → p_wildcard node = None.

Lemma gone_push alive h x p :
  entry_ok ps x → ¬ gone alive h (pd_path x) → gone alive h p → gone alive (h ++ [x]) p.
Proof.
  intros Hx Hg (e & He & Hr). exists e. split; [done|]. apply (released_mono alive alive h _ e); [| |done].
  - intros q i. rewrite reached_app. auto.
  - rewrite live_in_app. intros [?|(Hin & _)]; [done|]. destruct Hg. exists e. split; [|done].
    by apply (elem_of_pd_elements ps x e Hx) in Hin as (? & _).
Qed.

(** The handle which is created is in the history. *)
Lemma mirror_add alive h hs st x st' :
  mirror ps alive h hs st → entry_ok ps x → pd_slot x ∈ alive → ¬ gone alive h (pd_path x) →
  elements_ok (pd_path x :: hs) st' → s_patterns st' = ps →
  (∀ q i, (i < next st' q)%N ↔
     (i < next st q)%N ∨ ∃ j, q ++ [j] ∈ pd_elements x ∧ (i < usize_saturating_add j 1)%N) →
  (∀ p node pat, resolve_in ps p = Some (node, pat) → p_declared node = true → p ≠ pd_path x →
     rx_taken st' p = rx_taken st p) →
  (pd_declared x = true → rx_taken st' (pd_path x) = true) →
  mirror ps alive (h ++ [x]) (pd_path x :: hs) st'.
Proof.
  intros Hm Hx Ha Hg Hok Hp Hn Hrx Ht. split; try done.
  - apply Forall_app. split; [apply Hm|by apply Forall_singleton].
  - intros e He. rewrite live_in_app, <- (mi_live _ _ _ _ _ Hm e He). setoid_rewrite elem_of_cons.
    rewrite (elem_of_pd_elements ps x e Hx). naive_solver.
  - intros q i Hgq. rewrite Hn, reached_app, <- (next_reached ps x q i Hx).
    rewrite (mi_next _ _ _ _ _ Hm q i); [done|]. intros Hq. by apply Hgq, gone_push.
  - intros p node pat Hr Hd Hne Hgp. setoid_rewrite elem_of_app. setoid_rewrite list_elem_of_singleton.
    destruct (decide (p = pd_path x)) as [->|Hpx].
    + split; [intros _; exists x; auto|]. intros _. apply Ht. destruct Hx as (nd & Hr' & -> & _). congruence.
    + rewrite (Hrx p node pat Hr Hd Hpx), (mi_rx _ _ _ _ _ Hm p node pat Hr Hd Hne); [naive_solver|].
      intros Hq. by apply Hgp, gone_push.
Qed.

(** [take_rx]: the path is refused if it is within a released element, and if its
    data was taken and nothing is nested in it. *)
Lemma mirror_take_rx alive h hs st x :
  mirror ps alive h hs st → entry_ok ps x → pd_slot x ∈ alive → pd_path x ≠ [] →
  (∀ k, pd_pattern x !! k = Some None → skipped_at (pd_path x) st k) →
  match take_rx (pd_path x) st with
  | (None, st') => st' = st ∧ (gone alive h (pd_path x) ∨ was_taken h x ∧ leaf x)
  | (Some rx, st') =>
      ¬ gone alive h (pd_path x) ∧ ¬ (was_taken h x ∧ leaf x) ∧
      (is_Some rx ↔ pd_declared x = true ∧ ¬ was_taken h x) ∧
      mirror ps alive (h ++ [x]) (pd_path x :: hs) st'
  end.
Proof.
  intros Hm Hx Ha Hne Hsk. destruct (take_rx (pd_path x) st) as [r st'] eqn:Et.
  pose proof (elements_take_rx hs _ _ _ _ Et (mi_elements _ _ _ _ _ Hm)) as Hok.
  pose proof Hx as (node & Hr & Hd & _).
  assert (resolve st (pd_path x) = Some (node, pd_pattern x)) as Hr'
    by (by rewrite resolve_resolve_in, (mi_patterns _ _ _ _ _ Hm)).
  assert (∀ node pat k, resolve st (pd_path x) = Some (node, pat) → pat !! k = Some None →
    skipped_at (pd_path x) st k) as Hsk'.
  { intros nd pat k Hrr. rewrite Hr' in Hrr. injection Hrr as <- <-. apply Hsk. }
  specialize (Hok Hsk'). unfold take_rx in Et. rewrite Hr' in Et.
  assert (leaf x ↔ p_wildcard node = None) as Hleaf.
  { unfold leaf. split; [intros Hl; by apply (Hl node (pd_pattern x))|]. intros Hw nd pat Hr2. congruence. }
  destruct (existsb _ _) eqn:Eg.
  { injection Et as <- <-. split; [done|]. left. by apply (mirror_gone _ _ _ _ _ Hm Hx). }
  assert (¬ gone alive h (pd_path x)) as Hg.
  { rewrite <- (mirror_gone _ _ _ _ _ Hm Hx). by rewrite Eg. }
  assert (was_taken h x ↔ pd_declared x = true ∧ rx_taken st (pd_path x) = true) as Hwt.
  { unfold was_taken. split; intros (Hdx & Hy); (split; [done|]); rewrite Hd in Hdx;
      by apply (mi_rx _ _ _ _ _ Hm _ node _ Hr Hdx Hne Hg). }
  destruct (p_declared node && is_none (p_wildcard node) && rx_taken st (pd_path x)) eqn:Ed.
  { injection Et as <- <-. split; [done|]. right. rewrite Hwt, Hleaf, Hd.
    apply andb_true_iff in Ed as ((? & Hw)%andb_true_iff & ?). by destruct (p_wildcard node). }
  assert (∀ k, k ∈ wildcards (pd_pattern x) → k < length (pd_path x)) as Hks.
  { intros k Hk%elem_of_wildcards. rewrite <- (resolve_in_length _ _ _ _ Hr). by eapply lookup_lt_Some. }
  pose proof (same_taken_claims _ _ _ st _ Hr Hks) as Hst.
  pose proof (λ q i, next_claims _ (pd_pattern x) st _ q i Hks) as Hnx. rewrite <- pd_elements_els in Hnx.
  set (st1 := foldl _ _ _) in *. clearbody st1. destruct Hst as (Ep & Hst).
  rewrite (mi_patterns _ _ _ _ _ Hm) in Ep. specialize (Hst (mi_patterns _ _ _ _ _ Hm)).
  destruct (p_declared node) eqn:Edn.
  2: { injection Et as <- <-. split; [done|]. split; [rewrite Hwt, Hd; by intros ((? & _) & _)|].
       split; [rewrite Hd; split; [by intros (? & ?)|by intros (? & _)]|].
       apply (mirror_add alive h hs st); try done; [|congruence].
       intros p nd pat Hrp Hdp _. by apply (Hst p nd pat). }
  pose proof (same_taken_subscribe (pd_path x) (pd_pattern x) st1 (λ _, ex_intro _ node Hr)) as (Ep2 & Hst2).
  destruct (view_subscribe (pd_path x) (pd_pattern x) st1) as (Hv2 & Hn2 & _).
  set (st2 := subscribe _ _ st1) in *. specialize (Hst2 Ep).
  assert (is_Some (s_subs st2 !! pd_path x)) as (sub & Hsub).
  { assert (is_Some (view st2 !! pd_path x)) as (v & Hv).
    { rewrite Hv2. destruct (view st1 !! pd_path x) eqn:E; [by rewrite E|]. rewrite lookup_insert_eq. eauto. }
    rewrite view_lookup in Hv. destruct (s_subs st2 !! _); [eauto|done]. }
  assert (rx_taken st (pd_path x) = is_none (sub_rx sub)) as Hrt.
  { rewrite <- (Hst _ _ _ Hr Edn), <- (Hst2 _ _ _ Hr Edn). unfold rx_taken. by rewrite Hsub. }
  clearbody st2. unfold take_sub_rx in Et. rewrite Hsub in Et. injection Et as <- <-.
  split; [done|]. split.
  { rewrite Hwt, Hleaf. intros ((_ & Ht) & Hw). rewrite Hw, Ht in Ed. done. }
  split.
  { rewrite Hwt, Hrt, Hd. destruct (sub_rx sub); simpl; split; try done; [intros _; split; [done|]; by intros (_ & ?)|].
    intros (_ & Hn). by destruct Hn. }
  apply (mirror_add alive h hs st); try done; cbn [set_subs s_patterns].
  - congruence.
  - intros q i. rewrite <- Hnx. rewrite !next_next_in. cbn [set_subs s_next]. by rewrite Hn2.
  - intros p nd pat Hrp Hdp Hpx. rewrite <- (Hst p nd pat Hrp Hdp), <- (Hst2 p nd pat Hrp Hdp). unfold rx_taken.
    cbn [set_subs s_subs]. by rewrite lookup_insert_ne.
  - intros _. unfold rx_taken. cbn [set_subs s_subs]. by rewrite lookup_insert_eq.
Qed.

(** ** Dropping *)

(** [release] keeps everything but what is within an element which it removes. *)
Lemma release_elements_cut path node pat ks st :
  resolve_in ps path = Some (node, pat) → (∀ k, k ∈ ks → pat !! k = Some None) →
  let st' := (release_elements path ks st).2 in
  (same_taken st st' ∧ s_next st' = s_next st) ∨
  ∃ e, e `prefix_of` path ∧ is_element ps e ∧ view st' !! e = None ∧
    ∀ q, ¬ e `prefix_of` q → rx_taken st' q = rx_taken st q ∧ next st' q = next st q.
Proof.
  intros Hr. revert st. induction ks as [|k ks IH]; intros st Hks; simpl; [by left|].
  destruct (s_subs st !! take (S k) path) as [sub|] eqn:Es; [|by left].
  set (st1 := set_subs _ st).
  assert (same_taken st st1) as H1 by (by eapply same_taken_update).
  assert (∀ q, rx_taken st1 q = rx_taken st q) as Hrx.
  { intros q. unfold rx_taken, st1. cbn [set_subs s_subs].
    destruct (decide (q = take (S k) path)) as [->|]; [by rewrite lookup_insert_eq, Es|by rewrite lookup_insert_ne]. }
  destruct (_ =? _)%N.
  - right. exists (take (S k) path). split; [apply prefix_take|].
    split; [eapply is_element_take; [done|apply Hks; by left]|]. split.
    + destruct (view_remove (take (S k) path) st1) as (-> & _). by rewrite lookup_remove_nested, decide_True.
    + intros q Hq. by rewrite rx_taken_remove, next_remove, !decide_False, Hrx.
  - destruct (IH st1) as [(H2 & H3)|(e & H2 & H3 & H4 & H5)]; [set_solver| |].
    + left. split; [by etrans|done].
    + right. exists e. split_and!; [done..|]. intros q Hq. destruct (H5 q Hq) as (-> & ->). by rewrite Hrx.
Qed.

Lemma release_patterns path st : s_patterns (release path st).2 = s_patterns st.
Proof.
  unfold release. destruct (resolve st path) as [[node pat]|]; [|done]. generalize (wildcards pat). intros ks.
  revert st. induction ks as [|k ks IH]; intros st; simpl; [done|].
  destruct (s_subs st !! _) as [sub|]; [|done]. destruct (_ =? _)%N; [|by rewrite IH].
  by destruct (view_remove (take (S k) path) (set_subs (<[take (S k) path := mkSubscription (sub_tx sub) (sub_rx sub)
    (sub_handles sub - 1)%N (sub_permit sub)]> (s_subs st)) st)) as (_ & _ & ->).
Qed.

Lemma gone_alive alive alive' h p :
  alive' ⊆ alive → gone alive h p → gone alive' h p.
Proof.
  intros Ha (e & He & Hr). exists e. split; [done|]. eapply released_mono; [| |exact Hr]; [done|].
  intros (x & Hx & Hin & Hs). exists x. set_solver.
Qed.

Lemma mirror_release alive alive' h hs path st :
  mirror ps alive h (path :: hs) st → alive' ⊆ alive →
  (∀ e, is_element ps e → (∃ p, p ∈ hs ∧ e `prefix_of` p) ↔ live_in alive' h e) →
  mirror ps alive' h hs (release path st).2.
Proof.
  intros Hm Hsub Hlive. pose proof (elements_release _ _ _ (mi_elements _ _ _ _ _ Hm)) as Hok.
  assert (s_patterns (release path st).2 = ps) as Hps by (rewrite release_patterns; apply Hm).
  assert (∀ p, ¬ gone alive' h p → ¬ gone alive h p) as Hmono by (intros p Hn Hg; by apply Hn, (gone_alive alive)).
  assert ((same_taken st (release path st).2 ∧ s_next (release path st).2 = s_next st) ∨
    ∃ e, gone alive' h e ∧ ∀ q, ¬ e `prefix_of` q →
      rx_taken (release path st).2 q = rx_taken st q ∧ next (release path st).2 q = next st q) as Hcut.
  { unfold elements_ok in Hok. rewrite Hps in Hok. revert Hok. unfold release.
    destruct (resolve st path) as [[node pat]|] eqn:Hr; [|by left].
    rewrite resolve_resolve_in, (mi_patterns _ _ _ _ _ Hm) in Hr. intros Hok.
    destruct (release_elements_cut path node pat (wildcards pat) st Hr) as [?|(e & Hpre & He & Hv & Hq)];
      [intros k; by rewrite elem_of_wildcards|by left|].
    right. exists e. split; [|done]. exists e. split; [done|]. pose proof He as (nd & pt & Hre).
    destruct e as [|i q _] using rev_ind.
    { apply resolve_in_length in Hre. rewrite length_app in Hre. simpl in Hre. lia. }
    apply released_spec. exists q, i. split; [done|]. split.
    - assert (live_in alive h (q ++ [i])) as (x & Hx & Hin & _).
      { apply (mi_live _ _ _ _ _ Hm _ He). exists path. split; [by left|done]. }
      by exists x, i.
    - intros (p & Hp & Hpp)%(Hlive _ He). destruct (ei_live _ _ _ _ _ Hok p Hp) as (_ & Hel).
      destruct (Hel _ Hpp He) as (v & Hv'). congruence. }
  split; try done.
  - apply Hm.
  - intros q i Hg. rewrite <- (mi_next _ _ _ _ _ Hm q i (Hmono q Hg)). destruct Hcut as [(_ & Hn)|(e & He & Hq)].
    + rewrite !next_next_in. by rewrite Hn.
    + destruct (Hq q) as (_ & ->); [|done]. intros Hpre. by apply Hg, (gone_prefix _ _ e).
  - intros p node pat Hr Hd Hne Hg. rewrite <- (mi_rx _ _ _ _ _ Hm p node pat Hr Hd Hne (Hmono p Hg)).
    destruct Hcut as [((_ & Ht) & _)|(e & He & Hq)].
    + by rewrite (Ht (mi_patterns _ _ _ _ _ Hm) p node pat).
    + destruct (Hq p) as (-> & _); [|done]. intros Hpre. by apply Hg, (gone_prefix _ _ e).
Qed.

(** ** Ingress *)

(** What the history depends on stays the same. *)
Definition quiet (st st' : Subscriptions) : Prop := same_taken st st' ∧ s_next st' = s_next st.

#[global] Instance quiet_preorder : PreOrder quiet.
Proof.
  split; [by intros st; split|]. intros st1 st2 st3 (H1 & E1) (H2 & E2). split; [by etrans|congruence].
Qed.

Lemma quiet_subs st st' :
  s_patterns st' = s_patterns st → s_next st' = s_next st →
  (∀ p, sub_rx <$> s_subs st' !! p = sub_rx <$> s_subs st !! p) → quiet st st'.
Proof. intros. split; [by apply same_taken_subs|done]. Qed.

Lemma quiet_subscribe p pat st :
  (s_patterns st = ps → ∃ node, resolve_in ps p = Some (node, pat)) → quiet st (subscribe p pat st).
Proof. intros Hr. split; [by apply same_taken_subscribe|]. by destruct (view_subscribe p pat st) as (_ & ? & _). Qed.

Lemma quiet_route_elements path pat ks b st :
  (s_patterns st = ps → ∃ node, resolve_in ps path = Some (node, pat)) →
  (∀ k, k ∈ ks → k < length path) → quiet st (route_elements path pat ks b st).2.
Proof.
  revert b st. induction ks as [|k ks IH]; intros b st Hr Hks; simpl; [done|].
  destruct (s_subs st !! take (S k) path) eqn:Es; [apply IH; set_solver|].
  destruct (_ <? _)%N; [done|]. destruct b; [|done].
  assert (s_patterns st = ps → ∃ node', resolve_in ps (take (S k) path) = Some (node', take (S k) pat)) as Hk.
  { intros Hp. destruct (Hr Hp) as (node & Hn). eapply resolve_in_take; [done|]. assert (k < length path) by (apply Hks; by left). lia. }
  pose proof (quiet_subscribe _ _ st Hk) as H1.
  set (st1 := subscribe _ _ st) in *. etrans; [exact H1|].
  destruct H1 as ((Hp1 & _) & _). clearbody st1.
  destruct (s_subs st1 !! take (S k) path) as [sub|] eqn:Es1.
  - etrans; [|apply IH; [cbn [set_subs s_patterns]; by rewrite Hp1|set_solver]].
    split; [by eapply same_taken_update|done].
  - apply IH; [by rewrite Hp1|set_solver].
Qed.

Lemma quiet_route path b st r b' st' : route path b st = (r, b', st') → quiet st st'.
Proof.
  unfold route. destruct (get_tx_mut path st); [by intros [= <- <- <-]|].
  destruct (resolve st path) as [[[[] w] pat]|] eqn:Hr; try (by intros [= <- <- <-]).
  rewrite resolve_resolve_in in Hr.
  assert (s_patterns st = ps → ∃ node, resolve_in ps path = Some (node, pat)) as Hr' by (intros <-; eauto).
  assert (quiet st (route_elements path pat (wildcards pat) b st).2) as H1.
  { apply quiet_route_elements; [done|]. intros k Hk%elem_of_wildcards.
    rewrite <- (resolve_in_length _ _ _ _ Hr). by eapply lookup_lt_Some. }
  destruct (route_elements _ _ _ _ _) as [[r1 held1] st1]. cbn [snd] in H1.
  destruct r1 as [r1|]; intros [= <- <- <-]; [done|]. etrans; [exact H1|].
  apply quiet_subscribe. destruct H1 as ((-> & _) & _). done.
Qed.

Lemma quiet_close_slot path st : quiet st (close_slot path st).
Proof.
  unfold close_slot. destruct (s_subs st !! path) as [sub|] eqn:Es; [|done].
  split; [by eapply same_taken_update|done].
Qed.

Lemma quiet_close_tx st : quiet st (close_tx st).
Proof.
  apply quiet_subs; [done..|]. intros p. cbn. rewrite lookup_fmap. destruct (s_subs st !! p) as [sub|]; [|done].
  cbn. unfold close_tx_sub. by destruct (sub_tx sub) as [[]|].
Qed.

Lemma quiet_dispatch path n b st ev p st' : dispatch path n b st = (ev, p, st') → quiet st st'.
Proof.
  unfold dispatch. destruct (route path b st) as [[r b'] st1] eqn:Er. apply quiet_route in Er.
  assert (quiet st (if b' then set_permits (S (s_permits st1)) st1 else st1)) as H1.
  { etrans; [exact Er|]. destruct b'; [by apply quiet_subs|done]. }
  destruct r as [[c|]| | |]; try (by intros [= <- <- <-]).
  destruct (n =? 0)%N; intros [= <- <- <-]; [|done]. etrans; [exact H1|apply quiet_close_slot].
Qed.

Lemma quiet_io_complete res d w : quiet (w_index w) (w_index (io_complete res d w)).
Proof.
  unfold io_complete, err_set. destruct d, res; simpl; try destruct (w_err w); apply quiet_close_tx.
Qed.

Lemma quiet_advance p d w : quiet (w_index w) (w_index (advance p d w)).
Proof. destruct p; simpl; [done|apply quiet_io_complete]. Qed.

Lemma handles_io_complete res d w : w_handles (io_complete res d w) = w_handles w.
Proof. unfold io_complete, err_set. destruct d, res; simpl; try done; by destruct (w_err w). Qed.

Lemma handles_advance p d w : w_handles (advance p d w) = w_handles w.
Proof. destruct p; simpl; [done|apply handles_io_complete]. Qed.

(** Ingress is not seen by the history as long as there is a handle. *)
Lemma quiet_task_step `{Leb128} cap w ev w' :
  task_step cap w ev w' → w_handles w ≠ ∅ → quiet (w_index w) (w_index w') ∧ w_handles w' = w_handles w.
Proof.
  intros Hs Hh. destruct Hs; rewrite ?handles_advance, ?handles_io_complete; try done; (split; [|done]).
  - etrans; [|apply quiet_advance]. by eapply quiet_dispatch.
  - apply quiet_io_complete.
  - apply quiet_io_complete.
  - etrans; [|apply quiet_advance]. etrans; [|by eapply quiet_dispatch]. by apply quiet_subs.
  - apply quiet_io_complete.
  - etrans; [|apply quiet_advance]. etrans; [|by eapply quiet_dispatch]. by apply quiet_subs.
  - etrans; [|apply quiet_advance]. unfold forward in *. repeat case_match; simplify_eq; done.
  - etrans; [|apply quiet_io_complete]. done.
Qed.

Lemma rx_new paths p sub :
  s_subs (Subscriptions_new paths 0) !! p = Some sub → p ≠ [] → is_Some (sub_rx sub).
Proof.
  unfold Subscriptions_new. intros Hs Hp. revert p sub Hs Hp.
  apply (foldl_inv (λ st, ∀ p sub, s_subs st !! p = Some sub → p ≠ [] → is_Some (sub_rx sub))).
  - intros p sub Hs Hp. cbn in Hs. by apply lookup_singleton_Some in Hs as (<- & _).
  - intros st [|i path] Hst; [done|]. unfold declare_path. destruct (collect (i :: path)) as [key|]; [|done].
    cbn. intros p sub Hs. unfold insert_subscription in Hs.
    assert (<[key := mkSubscription (Some (Open (s_fresh st))) (Some (s_fresh st)) 0 false]> (s_subs st) !! p = Some sub) as Hs'.
    { revert Hs. cbn. by destruct (s_subs st !! key). }
    apply lookup_insert_Some in Hs' as [(_ & <-)|(_ & Hs')]; [eauto|by apply Hst].
Qed.

Lemma next_new paths : s_next (Subscriptions_new paths 0) = ∅.
Proof.
  unfold Subscriptions_new. apply (foldl_inv (λ st, s_next st = ∅)); [done|].
  intros st [|i path] Hst; [done|]. unfold declare_path. destruct (collect (i :: path)) as [key|]; [|done].
  cbn. unfold insert_subscription. cbn. by destruct (s_subs st !! key).
Qed.

(** A new connection has no history. *)
Lemma mirror_new paths :
  compatible paths → ps = patterns_of paths → mirror ps ∅ [] [] (Subscriptions_new paths 0).
Proof.
  intros Hc ->. split.
  - apply s_patterns_new.
  - by apply elements_new.
  - constructor.
  - intros e He. split; [by intros (p & ?%not_elem_of_nil & _)|by intros (x & ?%not_elem_of_nil & _)].
  - intros q i _. rewrite next_next_in, next_new. unfold next_in. rewrite lookup_empty. cbn.
    split; [lia|by intros (x & j & ?%not_elem_of_nil & _)].
  - intros p node pat Hr Hd Hne _. split; [|by intros (x & ?%not_elem_of_nil & _)].
    unfold rx_taken. destruct (s_subs _ !! p) as [sub|] eqn:Es; [|done].
    destruct (rx_new _ _ _ Es Hne) as (c & ->). done.
Qed.

(** ** Histories which say the same *)

Lemma live_in_ext alive alive' h e :
  (∀ x, x ∈ h → pd_slot x ∈ alive ↔ pd_slot x ∈ alive') → live_in alive h e ↔ live_in alive' h e.
Proof. intros Ha. unfold live_in. naive_solver. Qed.

Lemma released_ext alive alive' h e :
  (∀ x, x ∈ h → pd_slot x ∈ alive ↔ pd_slot x ∈ alive') → released alive h e = released alive' h e.
Proof.
  intros Ha. apply eq_true_iff_eq. rewrite !released_spec.
  by setoid_rewrite (live_in_ext alive alive' h e Ha).
Qed.

Lemma gone_ext alive alive' h p :
  (∀ x, x ∈ h → pd_slot x ∈ alive ↔ pd_slot x ∈ alive') → gone alive h p ↔ gone alive' h p.
Proof. intros Ha. apply exist_proper. intros e. by rewrite (released_ext alive alive' h e Ha). Qed.

Lemma mirror_ext alive alive' h hs st :
  (∀ x, x ∈ h → pd_slot x ∈ alive ↔ pd_slot x ∈ alive') →
  mirror ps alive h hs st → mirror ps alive' h hs st.
Proof.
  intros Ha Hm. split; try apply Hm.
  - intros e He. rewrite <- (live_in_ext alive alive' h e Ha). by apply (mi_live _ _ _ _ _ Hm).
  - intros q i. rewrite <- (gone_ext alive alive' h q Ha). apply (mi_next _ _ _ _ _ Hm).
  - intros p node pat ???. rewrite <- (gone_ext alive alive' h p Ha). by apply (mi_rx _ _ _ _ _ Hm p node pat).
Qed.

Lemma mirror_perm alive h hs hs' st :
  hs ≡ₚ hs' → mirror ps alive h hs st → mirror ps alive h hs' st.
Proof.
  intros Hp Hm. split; try apply Hm.
  - eapply elements_perm; [exact Hp|apply Hm].
  - intros e He. rewrite <- (mi_live _ _ _ _ _ Hm e He). apply exist_proper. intros p. by rewrite Hp.
Qed.

(** A dropped channel is forgotten if its elements are in the history already and
    its data, if it was taken, is as well or is within a released element. *)
Lemma mirror_forget alive h x hs st :
  mirror ps alive (h ++ [x]) hs st → pd_slot x ∉ alive →
  (∀ e, e ∈ pd_elements x → ∃ y, y ∈ h ∧ e ∈ pd_elements y) →
  gone alive h (pd_path x) ∨ (pd_declared x = true → ∃ y, y ∈ h ∧ pd_path y = pd_path x) →
  mirror ps alive h hs st.
Proof.
  intros Hm Hx Hel Hd.
  assert (∀ q i, reached (h ++ [x]) q i ↔ reached h q i) as Hre.
  { intros q i. rewrite reached_app. split; [|by left]. intros [?|(j & Hj & Hin)]; [done|].
    destruct (Hel _ Hin) as (y & Hy & Hy'). by exists y, j. }
  assert (∀ e, live_in alive (h ++ [x]) e ↔ live_in alive h e) as Hl.
  { intros e. rewrite live_in_app. naive_solver. }
  assert (∀ p, gone alive (h ++ [x]) p ↔ gone alive h p) as Hg.
  { intros p. unfold gone. apply exist_proper. intros e. rewrite !released_spec. setoid_rewrite Hl.
    by setoid_rewrite Hre. }
  split; try apply Hm.
  - pose proof (mi_ok _ _ _ _ _ Hm) as Hok. by apply Forall_app in Hok as (? & _).
  - intros e He. rewrite <- Hl. by apply (mi_live _ _ _ _ _ Hm).
  - intros q i. rewrite <- Hg, <- Hre. apply (mi_next _ _ _ _ _ Hm).
  - intros p node pat Hr Hdp Hne Hgp. rewrite (mi_rx _ _ _ _ _ Hm p node pat Hr Hdp Hne) by (by rewrite Hg).
    setoid_rewrite elem_of_app. setoid_rewrite list_elem_of_singleton. split; [|naive_solver].
    intros (y & [Hy| ->] & <-); [by exists y|]. destruct Hd as [?|Hd]; [done|]. apply Hd.
    pose proof (mi_ok _ _ _ _ _ Hm) as Hok. apply Forall_app in Hok as (_ & (nd & Hr' & -> & _)%Forall_singleton).
    congruence.
Qed.

End mirror.
