(* ===== verification/RpcChannels.v ===== *)
(** * The channels of an invocation of a component

    Model of the rest of [crates/wasmtime/src/rpc/mod.rs]: the channels of an
    invocation which a component makes itself, before and after the invocation
    is transmitted.

    A [Slot] is shared by the channel and by the future which takes its data: it
    is a number, and [iv_slots] has the number of its strong references and what
    it holds; it is removed with the last one, and the handle it holds is dropped
    then.  [IncomingInvocation] and [IncomingRoot] are one record, which all the
    channels of the invocation share; [iv_root] is the handle of the root, once it
    is set, and the connection it is of.  An operation yields [None] only for a
    slot or a handle which does not exist. *)

From S2P Require Import Prelude Wire FrameCodec Subscriptions Resolve Elements Conn Egress WasmCodec WasmCall.
From S2P Require Import Channels.

(** [Transmission]: the shared future of the transmission; the errors of the
    channels do not depend on why it failed. *)
Inductive Transmission := NotYet | Transmitted | NotTransmitted.

Record Slot := mkSlot { sl_strong : nat; sl_value : option (io_result N) }.

(** [iv_returned] are the patterns with [returned]. *)
Record IncomingInvocation := mkIncomingInvocation {
  iv_transmission : Transmission;
  iv_root : option (N * World);
  iv_pending : PendingChannels;
  iv_patterns : gmap (list (option N)) Pattern;
  iv_returned : gset (list (option N));
  iv_slots : gmap N Slot;
  iv_fresh : N
}.

Record IncomingChannel := mkIncomingChannel {
  ch_path : list N;
  ch_incoming : N;
  ch_declared : bool;
  ch_data_taken : bool
}.

(** The futures of [take_data]: [future::ready], the data of the root, and the
    data of the handle in a slot, which it holds a reference of. *)
Inductive DataFuture := FutReady (r : io_result N) | FutRoot | FutSlot (slot : N).

Inductive Deferred := DeferredPending (fut : DataFuture) | DeferredReady (handle : N).

Definition set_transmission t iv := mkIncomingInvocation t (iv_root iv) (iv_pending iv) (iv_patterns iv)
  (iv_returned iv) (iv_slots iv) (iv_fresh iv).
Definition set_root r iv := mkIncomingInvocation (iv_transmission iv) r (iv_pending iv) (iv_patterns iv)
  (iv_returned iv) (iv_slots iv) (iv_fresh iv).
Definition set_pending pc iv := mkIncomingInvocation (iv_transmission iv) (iv_root iv) pc (iv_patterns iv)
  (iv_returned iv) (iv_slots iv) (iv_fresh iv).
Definition set_returned s iv := mkIncomingInvocation (iv_transmission iv) (iv_root iv) (iv_pending iv)
  (iv_patterns iv) s (iv_slots iv) (iv_fresh iv).
Definition set_slots s iv := mkIncomingInvocation (iv_transmission iv) (iv_root iv) (iv_pending iv)
  (iv_patterns iv) (iv_returned iv) s (iv_fresh iv).

Definition error_data_taken : ErrorKind := AlreadyExists.
Definition error_not_transmitted : ErrorKind := NotConnected.
Definition error_ended : ErrorKind := NotConnected.
Definition error_returned : ErrorKind := AlreadyExists.
Definition error_undeclared : ErrorKind := NotFound.

(** ** Slots *)

(** The slots with strong references *)
Definition alive (iv : IncomingInvocation) : gset N := dom (iv_slots iv).

(** [Arc::<Slot>::default()], which holds [v] then *)
Definition slot_new (v : option (io_result N)) (iv : IncomingInvocation) : N * IncomingInvocation :=
  (iv_fresh iv,
   mkIncomingInvocation (iv_transmission iv) (iv_root iv) (iv_pending iv) (iv_patterns iv) (iv_returned iv)
     (<[iv_fresh iv := mkSlot 1 v]> (iv_slots iv)) (iv_fresh iv + 1)).

(** [Arc::clone] *)
Definition slot_clone (s : N) (iv : IncomingInvocation) : option IncomingInvocation :=
  sl ← iv_slots iv !! s;
  Some (set_slots (<[s := mkSlot (S (sl_strong sl)) (sl_value sl)]> (iv_slots iv)) iv).

(** The handle is dropped. *)
Definition handle_drop (r : io_result N) (iv : IncomingInvocation) : option IncomingInvocation :=
  match r with
  | Err _ => Some iv
  | Ok handle =>
      '(root, w) ← iv_root iv;
      w ← Incoming_drop handle w;
      Some (set_root (Some (root, w)) iv)
  end.

(** A reference is dropped. *)
Definition slot_drop (s : N) (iv : IncomingInvocation) : option IncomingInvocation :=
  sl ← iv_slots iv !! s;
  match sl_strong sl with
  | S (S n) => Some (set_slots (<[s := mkSlot (S n) (sl_value sl)]> (iv_slots iv)) iv)
  | _ =>
      let iv := set_slots (delete s (iv_slots iv)) iv in
      match sl_value sl with Some r => handle_drop r iv | None => Some iv end
  end.

(** ** The root *)

(** The positions of the channels are indexed in the order they were returned:
    the handles of the ones which are alive are set, the others are kept in
    [dropped]. *)
Fixpoint index_pending (root : N) (channels : list Pending) (w : World) (slots : gmap N Slot)
    (dropped : list (io_result N)) : option (World * gmap N Slot * list (io_result N)) :=
  match channels with
  | [] => Some (w, slots, dropped)
  | entry :: channels =>
      '(handle, w) ← Incoming_index root (pd_path entry) w;
      match slots !! pd_slot entry with
      | Some sl =>
          index_pending root channels w (<[pd_slot entry := mkSlot (sl_strong sl) (Some handle)]> slots) dropped
      | None => index_pending root channels w slots (dropped ++ [handle])
      end
  end.

Definition drop_handle (r : io_result N) (w : World) : option World :=
  match r with Ok handle => Incoming_drop handle w | Err _ => Some w end.

(** [_ = incoming.index(&element)] *)
Fixpoint index_released (root : N) (released : list (list N)) (w : World) : option World :=
  match released with
  | [] => Some w
  | element :: released =>
      '(handle, w) ← Incoming_index root element w;
      w ← drop_handle handle w;
      index_released root released w
  end.

(** [drop(dropped)] *)
Fixpoint drop_all (dropped : list (io_result N)) (w : World) : option World :=
  match dropped with
  | [] => Some w
  | r :: dropped => w ← drop_handle r w; drop_all dropped w
  end.

(** The last elements of the lists and streams which are released *)
Definition released_elements (alive : gset N) (pc : PendingChannels) : list (list N) :=
  filter (λ element, pc_is_released alive pc element = true)
    ((λ parent, parent ++ [default 0%N (pc_next pc !! parent) - 1]%N) <$> btree_keys (pc_next pc)).

(** [IncomingRoot::set]: [incoming] is a handle of the connection [w]. *)
Definition IncomingRoot_set (incoming : N) (w : World) (iv : IncomingInvocation) : option IncomingInvocation :=
  let released := released_elements (alive iv) (iv_pending iv) in
  '(w, slots, dropped) ← index_pending incoming (pc_channels (iv_pending iv)) w (iv_slots iv) [];
  w ← index_released incoming released w;
  w ← drop_all dropped w;
  Some (set_root (Some (incoming, w)) (set_pending PendingChannels_default (set_slots slots iv))).

(** The transmission resolves: with the incoming handle of the connection, or
    with an error. *)
Definition transmit (r : option (N * World)) (iv : IncomingInvocation) : option IncomingInvocation :=
  match r with
  | Some (incoming, w) => iv ← IncomingRoot_set incoming w iv; Some (set_transmission Transmitted iv)
  | None => Some (set_transmission NotTransmitted iv)
  end.

(** ** Incoming channels *)

(** [IncomingChannel::new]: the channel of the root *)
Definition IncomingChannel_new (paths : list (list (option N))) : IncomingChannel * IncomingInvocation :=
  let patterns :=
    foldl (λ patterns path, alter_pattern set_declared path (declare_prefixes [] path patterns))
      {[ [] := mkPattern true None ]} paths in
  (mkIncomingChannel [] 0 true false,
   mkIncomingInvocation NotYet None PendingChannels_default patterns ∅ {[ 0%N := mkSlot 1 None ]} 1).

(** [for i in &path] *)
Fixpoint channel_pattern (patterns : gmap (list (option N)) Pattern) (pattern : list (option N)) (path : list N) :
    option (list (option N)) :=
  match path with
  | [] => Some pattern
  | i :: path =>
      node ← patterns !! pattern;
      wildcard ← p_wildcard node;
      channel_pattern patterns (pattern ++ [if (wildcard : bool) then None else Some i]) path
  end.

Definition is_concrete (pattern : list (option N)) : bool := forallb (λ o, negb (is_none o)) pattern.

(** The channel of [path], with the slot [slot]; [returned] is set for a declared
    path without wildcards. *)
Definition returned_channel (path : list N) (pattern : list (option N)) (node : Pattern) (slot : N)
    (iv : IncomingInvocation) : io_result IncomingChannel * IncomingInvocation :=
  (Ok (mkIncomingChannel path slot (p_declared node) false),
   if p_declared node && is_concrete pattern then set_returned ({[pattern]} ∪ iv_returned iv) iv else iv).

(** [IncomingChannel::index] *)
Definition IncomingChannel_index (ch : IncomingChannel) (path : list N) (iv : IncomingInvocation) :
    option (io_result IncomingChannel * IncomingInvocation) :=
  match path with
  | [] => Some (Err InvalidInput, iv)
  | _ =>
      let path := ch_path ch ++ path in
      match channel_pattern (iv_patterns iv) [] path with
      | None => Some (Err error_undeclared, iv)
      | Some pattern =>
          match iv_patterns iv !! pattern with
          | None => Some (Err error_undeclared, iv)
          | Some node =>
              if p_declared node && is_concrete pattern && bool_decide (pattern ∈ iv_returned iv) then
                Some (Err error_returned, iv)
              else
                match iv_root iv with
                | Some (root, w) =>
                    '(handle, w) ← Incoming_index root path w;
                    match handle with
                    | Err e => Some (Err e, set_root (Some (root, w)) iv)
                    | Ok handle =>
                        subscribed ← Incoming_is_subscribed handle w;
                        if p_declared node && negb subscribed then
                          w ← Incoming_drop handle w;
                          Some (Err error_returned, set_root (Some (root, w)) iv)
                        else
                          let '(slot, iv) := slot_new (Some (Ok handle)) (set_root (Some (root, w)) iv) in
                          Some (returned_channel path pattern node slot iv)
                    end
                | None =>
                    let slot := iv_fresh iv in
                    let '(r, pending) :=
                      push ({[slot]} ∪ alive iv) (mkPending path pattern slot (p_declared node)) (iv_pending iv) in
                    let v := match r with Ok _ => None | Err e => Some (Err e) end in
                    let '(slot, iv) := slot_new v (set_pending pending iv) in
                    Some (returned_channel path pattern node slot iv)
                end
          end
      end
  end.

(** [take_reader] *)
Definition take_reader (slot : N) (iv : IncomingInvocation) : option (option (io_result N) * IncomingInvocation) :=
  sl ← iv_slots iv !! slot;
  match sl_value sl with
  | None => Some (None, iv)
  | Some (Ok handle) =>
      '(root, w) ← iv_root iv;
      '(r, w) ← Incoming_take_reader handle w;
      Some (Some (match r with Some reader => Ok reader | None => Err error_data_taken end),
            set_root (Some (root, w)) iv)
  | Some (Err e) => Some (Some (Err e), set_slots (<[slot := mkSlot (sl_strong sl) None]> (iv_slots iv)) iv)
  end.

(** [IncomingChannel::take_data] *)
Definition IncomingChannel_take_data (ch : IncomingChannel) (iv : IncomingInvocation) :
    option (result RpcError Deferred * IncomingChannel * IncomingInvocation) :=
  if ch_data_taken ch then Some (Err RpcDataTaken, ch, iv)
  else if negb (ch_declared ch) then Some (Err RpcUndeclared, ch, iv)
  else
    let ch := mkIncomingChannel (ch_path ch) (ch_incoming ch) (ch_declared ch) true in
    match ch_path ch with
    | [] => Some (Ok (DeferredPending FutRoot), ch, iv)
    | _ =>
        '(r, iv) ← take_reader (ch_incoming ch) iv;
        match r with
        | Some r => Some (Ok (DeferredPending (FutReady r)), ch, iv)
        | None =>
            iv ← slot_clone (ch_incoming ch) iv;
            Some (Ok (DeferredPending (FutSlot (ch_incoming ch))), ch, iv)
        end
    end.

(** The channel is dropped. *)
Definition IncomingChannel_drop (ch : IncomingChannel) (iv : IncomingInvocation) : option IncomingInvocation :=
  slot_drop (ch_incoming ch) iv.

(** ** The data of channels *)

(** The future is polled: [None] is [Poll::Pending].  The reference of the slot
    is dropped when the future is complete. *)
Definition future_poll (fut : DataFuture) (iv : IncomingInvocation) :
    option (option (io_result N) * IncomingInvocation) :=
  match fut with
  | FutReady r => Some (Some r, iv)
  | FutRoot =>
      match iv_transmission iv with
      | NotYet => Some (None, iv)
      | NotTransmitted => Some (Some (Err error_not_transmitted), iv)
      | Transmitted =>
          match iv_root iv with
          | None => Some (Some (Err error_ended), iv)
          | Some (root, w) =>
              '(r, w) ← Incoming_take_reader root w;
              Some (Some (match r with Some reader => Ok reader | None => Err error_data_taken end),
                    set_root (Some (root, w)) iv)
          end
      end
  | FutSlot slot =>
      match iv_transmission iv with
      | NotYet => Some (None, iv)
      | NotTransmitted => iv ← slot_drop slot iv; Some (Some (Err error_not_transmitted), iv)
      | Transmitted =>
          '(r, iv) ← take_reader slot iv;
          iv ← slot_drop slot iv;
          Some (Some (default (Err error_ended) r), iv)
      end
  end.

(** [Deferred::poll_ready] *)
Definition Deferred_poll_ready (d : Deferred) (iv : IncomingInvocation) :
    option (option (io_result N) * Deferred * IncomingInvocation) :=
  match d with
  | DeferredReady handle => Some (Some (Ok handle), d, iv)
  | DeferredPending fut =>
      '(r, iv) ← future_poll fut iv;
      Some (r, match r with Some (Ok handle) => DeferredReady handle | _ => d end, iv)
  end.

(** ** The end of the incoming direction *)

(** The future of [IncomingInvocation::finished]: it waits for the transmission
    first unless the root is set. *)
Inductive FinishedFuture := FinishedWait | FinishedConn.

Definition IncomingInvocation_finished (iv : IncomingInvocation) : option (FinishedFuture * IncomingInvocation) :=
  match iv_root iv with
  | Some (root, w) => w ← Incoming_finished root w; Some (FinishedConn, set_root (Some (root, w)) iv)
  | None => Some (FinishedWait, iv)
  end.

(** The future is polled: [None] is [Poll::Pending]. *)
Definition finished_poll (fut : FinishedFuture) (iv : IncomingInvocation) :
    option (option (io_result unit) * FinishedFuture * IncomingInvocation) :=
  match fut with
  | FinishedConn => '(_, w) ← iv_root iv; Some (finished w, FinishedConn, iv)
  | FinishedWait =>
      match iv_transmission iv with
      | NotYet => Some (None, FinishedWait, iv)
      | NotTransmitted => Some (Some (Err error_not_transmitted), FinishedWait, iv)
      | Transmitted =>
          match iv_root iv with
          | None => Some (Some (Err error_ended), FinishedWait, iv)
          | Some (root, w) =>
              w ← Incoming_finished root w;
              Some (finished w, FinishedConn, set_root (Some (root, w)) iv)
          end
      end
  end.

(** ** Outgoing channels *)

Record OutgoingChannel := mkOutgoingChannel { oc_path : list N; oc_data_taken : bool }.

Section outgoing.
Context `{Leb128}.

Definition OutgoingChannel_new : OutgoingChannel := mkOutgoingChannel [] false.

Definition OutgoingChannel_index (ch : OutgoingChannel) (path : list N) : io_result OutgoingChannel :=
  match path with
  | [] => Err InvalidInput
  | _ => Ok (mkOutgoingChannel (oc_path ch ++ path) false)
  end.

(** [OutgoingChannel::outgoing], polled with the root which is set, if any *)
Definition OutgoingChannel_outgoing (ch : OutgoingChannel) (transmission : Transmission) (root : option Outgoing) :
    option (io_result Outgoing) :=
  match transmission with
  | NotYet => None
  | NotTransmitted => Some (Err error_not_transmitted)
  | Transmitted =>
      Some match root with
           | None => Err error_ended
           | Some root => match oc_path ch with [] => Ok root | path => Outgoing_index root path end
           end
  end.

Definition OutgoingChannel_take_data (ch : OutgoingChannel) :
    result RpcError (Transmission → option Outgoing → option (io_result Outgoing)) * OutgoingChannel :=
  if oc_data_taken ch then (Err RpcDataTaken, ch)
  else (Ok (OutgoingChannel_outgoing ch), mkOutgoingChannel (oc_path ch) true).

End outgoing.
