(* ===== verification/RpcConn.v ===== *)
(** * The handles of a connection and the history of channels

    [conn_ok] relates a connection ([Conn]) to the history of the handles which
    were taken from its root: [owner] has the handle of every entry of the history
    which was not dropped.  Indexing the root, dropping a handle and the steps of
    ingress maintain it. *)

From S2P Require Import Prelude Wire FrameCodec Subscriptions Resolve SubsInv Elements Conn ConnInv.
From S2P Require Import Channels ChannelsSpec Mirror.

(** The handle [0] is that of the root. *)
Record conn_ok (ps : gmap (list (option N)) Pattern) (h : list Pending) (owner : gmap N N) (w : World) : Prop := {
  co_inv : ∃ tr, winv tr w;
  co_root : ∃ hd, w_handles w !! 0%N = Some hd ∧ in_path hd = [];
  co_mirror : mirror ps (dom owner) h (handle_paths (w_handles w)) (w_index w);
  co_slots : NoDup (pd_slot <$> h);
  co_paths x : x ∈ h → pd_path x ≠ [];
  co_owner s id : owner !! s = Some id → id ≠ 0%N ∧ ∃ x hd, x ∈ h ∧ pd_slot x = s ∧
    w_handles w !! id = Some hd ∧ in_path hd = pd_path x;
  co_handles id : is_Some (w_handles w !! id) → id = 0%N ∨ ∃ s, owner !! s = Some id;
  co_inj s s' id : owner !! s = Some id → owner !! s' = Some id → s = s'
}.

Section conn.
Context (ps : gmap (list (option N)) Pattern).

Lemma conn_init paths rx :
  compatible paths → ps = patterns_of paths → conn_ok ps [] ∅ (Incoming_new paths rx).
Proof.
  intros Hc Hps. split.
  - exists []. by apply winv_init.
  - eexists. split; [apply lookup_singleton_eq|done].
  - rewrite dom_empty_L. unfold Incoming_new. cbn [w_handles w_index]. unfold handle_paths.
    rewrite map_to_list_singleton. by apply mirror_new.
  - constructor.
  - by intros x ?%not_elem_of_nil.
  - intros s id. by rewrite lookup_empty.
  - intros id. cbn. rewrite lookup_singleton_is_Some. by left.
  - intros s s' id. by rewrite lookup_empty.
Qed.

Lemma conn_task `{Leb128} cap h owner w ev w' :
  conn_ok ps h owner w → task_step cap w ev w' → conn_ok ps h owner w'.
Proof.
  intros Hc Hs. destruct (co_root _ _ _ _ Hc) as (hd & Hroot & Hp). destruct (co_inv _ _ _ _ Hc) as (tr & Hw).
  destruct (quiet_task_step ps cap w ev w' Hs) as ((Hq1 & Hq2) & Hh).
  { intros E. by rewrite E in Hroot. }
  pose proof (winv_task_step cap tr w ev w' Hw Hs) as Hw'.
  split; rewrite ?Hh; try apply Hc.
  - by exists (tr ++ [ev]).
  - eapply mirror_same; [apply Hc| |done|done]. rewrite <- Hh. by eapply wi_elements.
Qed.

(** The handles of elements are those of the entries which were not dropped. *)
Lemma handle_paths_elem (hs : gmap N Incoming) p :
  p ∈ handle_paths hs ↔ p ≠ [] ∧ ∃ id hd, hs !! id = Some hd ∧ in_path hd = p.
Proof.
  unfold handle_paths. rewrite list_elem_of_bind. setoid_rewrite list_elem_of_fmap. split.
  - intros (hd & Hp & ((id & hd') & -> & Hin)). apply elem_of_map_to_list in Hin. cbn in *.
    unfold handle_path in Hp. destruct (in_path hd') eqn:E; [by apply not_elem_of_nil in Hp|].
    apply list_elem_of_singleton in Hp as ->. split; [done|]. eauto.
  - intros (Hne & id & hd & Hid & <-). exists hd. split.
    + unfold handle_path. destruct (in_path hd); [done|by left].
    + exists (id, hd). split; [done|]. by apply elem_of_map_to_list.
Qed.

Lemma NoDup_slot (h : list Pending) x y :
  NoDup (pd_slot <$> h) → x ∈ h → y ∈ h → pd_slot x = pd_slot y → x = y.
Proof.
  intros Hnd Hx Hy E. apply list_elem_of_lookup in Hx as (i & Hi). apply list_elem_of_lookup in Hy as (j & Hj).
  assert (i = j) as ->; [|congruence]. eapply (NoDup_lookup (pd_slot <$> h)); [done|..]; rewrite list_lookup_fmap.
  - rewrite Hi. done.
  - rewrite Hj. cbn. by rewrite E.
Qed.

Lemma conn_index h owner w x :
  conn_ok ps h owner w → entry_ok ps x → pd_path x ≠ [] → (∀ y, y ∈ h → pd_slot y ≠ pd_slot x) →
  ∃ r w', Incoming_index 0 (pd_path x) w = Some (r, w') ∧
  w_handles w ⊆ w_handles w' ∧
  match r with
  | Err e => e = NotFound ∧ conn_ok ps h owner w' ∧
      (gone (dom owner) h (pd_path x) ∨ was_taken h x ∧ leaf ps x)
  | Ok id => ¬ gone (dom owner) h (pd_path x) ∧ ¬ (was_taken h x ∧ leaf ps x) ∧
      (∃ b, Incoming_is_subscribed id w' = Some b ∧ (b = true ↔ pd_declared x = true ∧ ¬ was_taken h x) ∧
         ∃ hd, w_handles w' !! id = Some hd ∧ (b = true → is_Some (in_rx hd))) ∧
      conn_ok ps (h ++ [x]) (<[pd_slot x := id]> owner) w'
  end.
Proof.
  intros Hc Hx Hne Hnew. destruct (co_root _ _ _ _ Hc) as (hd & Hroot & Hp).
  destruct (co_inv _ _ _ _ Hc) as (tr & Hw).
  assert (pd_slot x ∉ dom owner) as Hfresh.
  { rewrite elem_of_dom. intros (id & Hid). destruct (co_owner _ _ _ _ Hc _ _ Hid) as (_ & y & _ & Hy & E & _).
    by apply (Hnew y). }
  destruct (Incoming_index 0 (pd_path x) w) as [[r w']|] eqn:Ei.
  2: { unfold Incoming_index in Ei. by rewrite Hroot in Ei. }
  exists r, w'. split; [done|]. pose proof (winv_index _ _ _ _ _ _ Hw Ei) as Hw'.
  unfold Incoming_index in Ei. rewrite Hroot in Ei. cbn in Ei. rewrite Hp in Ei.
  destruct (pd_path x) as [|i0 p0] eqn:Epath; [done|]. rewrite <- Epath in *.
  pose proof (mirror_skip ps _ _ _ (pd_path x) _ (co_mirror _ _ _ _ Hc)) as Hsk.
  destruct (elements_skip _ (pd_path x) _ (mi_elements _ _ _ _ _ (co_mirror _ _ _ _ Hc))) as (_ & Hpsk & Hskat).
  destruct (skip (pd_path x) (w_index w)) as [pending st1]. cbn [snd] in *.
  destruct (fail_if_fields pending (set_index st1 w)) as (F1 & F2 & F3 & F4 & F5 & F6).
  set (w1 := fail_if pending (set_index st1 w)) in *. cbn [set_index w_index w_handles w_next_handle] in F1, F2, F5.
  rewrite F1 in Ei.
  pose proof (mirror_ext ps (dom owner) ({[pd_slot x]} ∪ dom owner) h _ _
    ltac:(intros y Hy; specialize (Hnew y Hy); set_solver) Hsk) as Hsk'.
  assert (∀ k, pd_pattern x !! k = Some None → skipped_at (pd_path x) st1 k) as Hat.
  { intros k Hk. destruct Hx as (node & Hr & _). apply (Hskat node (pd_pattern x)); [|done].
    by rewrite resolve_resolve_in, (mi_patterns _ _ _ _ _ (co_mirror _ _ _ _ Hc)). }
  pose proof (mirror_take_rx ps _ _ _ _ x Hsk' Hx ltac:(set_solver) Hne Hat) as Htk.
  pose proof (gone_ext ({[pd_slot x]} ∪ dom owner) (dom owner) h (pd_path x)
    ltac:(intros y Hy; specialize (Hnew y Hy); set_solver)) as Hge.
  destruct (take_rx (pd_path x) st1) as [[rx|] st2] eqn:Et; simplify_eq.
  - destruct Htk as (Hg & Hwl & Hrx & Hm). rewrite Hge in Hg.
    assert (w_handles w1 !! w_next_handle w1 = None) as Hnone.
    { destruct (w_handles w1 !! w_next_handle w1) eqn:E; [|done]. rewrite F2, F5 in E.
      pose proof (wi_fresh _ _ Hw (w_next_handle w) ltac:(eauto)). lia. }
    assert (w_next_handle w1 ≠ 0%N) as Hn0.
    { intros E. rewrite E, F2, Hroot in Hnone. done. }
    assert (∀ s id, owner !! s = Some id → w_next_handle w1 ≠ id) as Hno.
    { intros s id (_ & y & hy & _ & _ & Hid & _)%(co_owner _ _ _ _ Hc) E. rewrite <- F2, <- E in Hid. congruence. }
    split; [cbn; rewrite F2 in *; by apply insert_subseteq|]. split; [done|]. split; [done|]. split.
    { eexists. split; [unfold Incoming_is_subscribed; cbn; by rewrite lookup_insert_eq|]. cbn.
      rewrite <- Hrx. split; [by destruct rx|]. eexists. rewrite lookup_insert_eq. split; [done|]. by destruct rx. }
    split; cbn [new_handle snd set_index w_handles w_index].
    + by exists (tr ++ [EvTau]).
    + rewrite lookup_insert_ne, F2 by done. eauto.
    + rewrite dom_insert_L. eapply mirror_perm; [|exact Hm].
      rewrite handle_paths_insert by done. rewrite F2. unfold handle_path. cbn. by destruct (pd_path x).
    + rewrite fmap_app. apply NoDup_app. split; [apply Hc|]. split; [|apply NoDup_singleton].
      intros s (y & -> & Hy)%list_elem_of_fmap ?%list_elem_of_singleton. by apply (Hnew y).
    + intros y [Hy| ->%list_elem_of_singleton]%elem_of_app; [by apply (co_paths _ _ _ _ Hc)|done].
    + intros s id [(<- & <-)|(Hs & Hid)]%lookup_insert_Some.
      * split; [done|]. exists x. eexists. rewrite lookup_insert_eq. split; [set_solver|done].
      * destruct (co_owner _ _ _ _ Hc _ _ Hid) as (? & y & hy & ? & ? & ? & ?). split; [done|].
        exists y, hy. rewrite lookup_insert_ne, F2 by (by eapply Hno). set_solver.
    + intros id. rewrite lookup_insert_is_Some'. rewrite F2. intros [<-|Hid].
      * right. exists (pd_slot x). apply lookup_insert_eq.
      * destruct (co_handles _ _ _ _ Hc id Hid) as [?|(s & Hs)]; [by left|right]. exists s.
        rewrite lookup_insert_ne; [done|]. intros <-. apply Hfresh, elem_of_dom. eauto.
    + intros s s' id [(<- & <-)|(Hs & Hid)]%lookup_insert_Some [(<- & E)|(Hs' & Hid')]%lookup_insert_Some; try done.
      * by destruct (Hno s' _ Hid').
      * by destruct (Hno s _ Hid).
      * by eapply co_inj.
  - destruct Htk as (-> & Hg). rewrite Hge in Hg. split; [cbn; by rewrite F2|]. split; [done|]. split; [|done].
    split; cbn [set_index w_handles w_index]; rewrite ?F2; try apply Hc; [|done]. by exists (tr ++ [EvTau]).
Qed.

(** The elements with handles after a drop *)
Lemma live_delete h owner w s id e :
  conn_ok ps h owner w → owner !! s = Some id → is_element ps e →
  (∃ p, p ∈ handle_paths (delete id (w_handles w)) ∧ e `prefix_of` p) ↔ live_in (dom (delete s owner)) h e.
Proof.
  intros Hc Hs He. split.
  - intros (p & (Hne & id' & hd & Hid & <-)%handle_paths_elem & Hpre).
    apply lookup_delete_Some in Hid as (Hn & Hid).
    destruct (co_handles _ _ _ _ Hc id') as [->|(s' & Hs')]; [eauto| |].
    { destruct (co_root _ _ _ _ Hc) as (hr & Hr & Hp). rewrite Hr in Hid. by simplify_eq. }
    destruct (co_owner _ _ _ _ Hc _ _ Hs') as (_ & x & hx & Hx & <- & Hhx & Hpx). rewrite Hid in Hhx.
    simplify_eq. rewrite Hpx in Hpre. exists x. split; [done|]. split.
    + eapply entry_element; [apply (mi_ok _ _ _ _ _ (co_mirror _ _ _ _ Hc))|done..].
    + rewrite dom_delete_L. apply elem_of_difference. split; [apply elem_of_dom; eauto|].
      rewrite elem_of_singleton. intros <-. congruence.
  - intros (x & Hx & Hin & Ha). rewrite dom_delete_L in Ha. apply elem_of_difference in Ha as (Ha & Hxs).
    rewrite elem_of_singleton in Hxs. apply elem_of_dom in Ha as (id' & Hid').
    destruct (co_owner _ _ _ _ Hc _ _ Hid') as (_ & y & hy & Hy & Ey & Hhy & Hpy).
    rewrite (NoDup_slot h y x (co_slots _ _ _ _ Hc) Hy Hx Ey) in Hpy. exists (pd_path x).
    pose proof (mi_ok _ _ _ _ _ (co_mirror _ _ _ _ Hc)) as Hok. rewrite Forall_forall in Hok.
    apply (elem_of_pd_elements ps x e (Hok x Hx)) in Hin as (Hpre & _). split; [|done].
    apply handle_paths_elem. split; [by apply (co_paths _ _ _ _ Hc)|]. exists id', hy. split; [|done].
    rewrite lookup_delete_ne; [done|]. intros <-. apply Hxs. by eapply co_inj.
Qed.

Lemma conn_drop h owner w s id :
  conn_ok ps h owner w → owner !! s = Some id →
  ∃ w', Incoming_drop id w = Some w' ∧ w_handles w' = delete id (w_handles w) ∧
    conn_ok ps h (delete s owner) w'.
Proof.
  intros Hc Hs. destruct (co_inv _ _ _ _ Hc) as (tr & Hw).
  destruct (co_owner _ _ _ _ Hc _ _ Hs) as (Hid0 & x & hd & Hx & Hxs & Hid & Hpx).
  destruct (Incoming_drop id w) as [w'|] eqn:Ed.
  2: { unfold Incoming_drop in Ed. by rewrite Hid in Ed. }
  exists w'. split; [done|]. pose proof (winv_drop _ _ _ _ Hw Ed) as Hw'.
  assert (w_handles w' = delete id (w_handles w) ∧ ∃ st, w_index w' = (release (pd_path x) st).2 ∧
    quiet ps (w_index w) st ∧ view st = view (w_index w) ∧ s_next st = s_next (w_index w)) as (Hh & st & Hi & Hq & Hv & Hn).
  { unfold Incoming_drop in Ed. rewrite Hid in Ed. cbn in Ed. rewrite Hpx in Ed.
    pose proof (co_paths _ _ _ _ Hc x Hx) as Hne. destruct (pd_path x) as [|i p] eqn:Ep; [done|]. rewrite <- Ep in *.
    set (w1 := match in_rx hd with Some _ => _ | None => _ end) in Ed.
    assert (w_handles w1 = delete id (w_handles w) ∧ quiet ps (w_index w) (w_index w1) ∧
      view (w_index w1) = view (w_index w) ∧ s_next (w_index w1) = s_next (w_index w)) as (E1 & E2 & E3 & E4).
    { unfold w1. destruct (in_rx hd) as [[c chunk]|]; [|done]. cbn zeta.
      match goal with |- context [fail_if ?b ?v] => destruct (fail_if_fields b v) as (-> & -> & _) end.
      split; [done|]. split; [by apply quiet_subs|done]. }
    clearbody w1. destruct (release (pd_path x) (w_index w1)) as [pending index] eqn:Er. injection Ed as <-.
    destruct (fail_if_fields pending (set_index index w1)) as (-> & -> & _). cbn [set_index w_handles w_index].
    split; [done|]. exists (w_index w1). by rewrite Er. }
  pose proof (co_mirror _ _ _ _ Hc) as Hm.
  assert (mirror ps (dom owner) h (pd_path x :: handle_paths (delete id (w_handles w))) st) as Hm1.
  { apply (mirror_perm ps _ _ (handle_paths (w_handles w))).
    - rewrite (handle_paths_delete _ _ _ Hid). unfold handle_path. rewrite Hpx. pose proof (co_paths _ _ _ _ Hc x Hx). by destruct (pd_path x).
    - destruct Hq as (Hq1 & Hq2). eapply mirror_same; [exact Hm| |done|done].
      eapply elements_same; [done|done| |apply Hm]. by destruct Hq1. }
  split; [done|]. split; rewrite ?Hh, ?Hi.
  - by exists (tr ++ [EvTau]).
  - rewrite lookup_delete_ne by done. apply Hc.
  - eapply mirror_release; [exact Hm1|rewrite dom_delete_L; set_solver|]. intros e He. by eapply live_delete.
  - apply Hc.
  - apply (co_paths _ _ _ _ Hc).
  - intros s' id' (Hs' & Hid')%lookup_delete_Some.
    destruct (co_owner _ _ _ _ Hc _ _ Hid') as (? & y & hy & ? & ? & ? & ?). split; [done|]. exists y, hy.
    rewrite lookup_delete_ne; [done|]. intros <-. apply Hs'. by eapply co_inj.
  - intros id' Hid'. destruct (decide (id' = id)) as [->|Hne]; [rewrite lookup_delete_eq in Hid'; by destruct Hid'|].
    rewrite lookup_delete_ne in Hid' by done. destruct (co_handles _ _ _ _ Hc id' Hid') as [?|(s' & Hs')]; [by left|].
    right. exists s'. apply lookup_delete_Some. split; [|done]. intros ->. congruence.
  - intros s1 s2 id' (_ & H1)%lookup_delete_Some (_ & H2)%lookup_delete_Some. by eapply co_inj.
Qed.

Lemma conn_forget h x owner w :
  conn_ok ps (h ++ [x]) owner w → pd_slot x ∉ dom owner →
  (∀ e, e ∈ pd_elements x → ∃ y, y ∈ h ∧ e ∈ pd_elements y) →
  gone (dom owner) h (pd_path x) ∨ (pd_declared x = true → ∃ y, y ∈ h ∧ pd_path y = pd_path x) →
  conn_ok ps h owner w.
Proof.
  intros Hc Hx Hel Hd. split; try apply Hc.
  - eapply mirror_forget; [apply Hc|done..].
  - pose proof (co_slots _ _ _ _ Hc) as Hn. rewrite fmap_app in Hn. by apply NoDup_app in Hn as (? & _).
  - intros y Hy. apply (co_paths _ _ _ _ Hc), elem_of_app. by left.
  - intros s id Hs. destruct (co_owner _ _ _ _ Hc s id Hs) as (? & y & hy & Hy & Ey & ?). split; [done|].
    exists y, hy. split; [|done]. apply elem_of_app in Hy as [Hy| ->%list_elem_of_singleton]; [done|].
    destruct Hx. apply elem_of_dom. rewrite Ey. eauto.
Qed.
End conn.
