(* ===== verification/RpcSet.v ===== *)
(** * The root is set

    [IncomingRoot::set] ([RpcChannels]) indexes, on the handle of a connection, the
    positions of the channels which were returned before.  As long as none was
    pruned, the connection then has the history of those channels, and every
    channel which is held has the handle of its position ([set_ok]). *)

From S2P Require Import Prelude Wire FrameCodec Subscriptions Resolve SubsInv Elements Conn ConnInv.
From S2P Require Import WasmCodec WasmCall Channels RpcChannels ChannelsSpec Mirror RpcConn.

(** ** Histories *)

(** The entry may follow the history whichever of its channels are held: an
    element before one which was reached was reached itself, and the data of the
    position was not taken. *)
Definition fits (h : list Pending) (x : Pending) : Prop :=
  (∀ q i, q ++ [i] ∈ pd_elements x → reached h q i → ∃ y, y ∈ h ∧ q ++ [i] ∈ pd_elements y) ∧ ¬ was_taken h x.

Definition hist_ok (h : list Pending) : Prop := ∀ prev x rest, h = prev ++ x :: rest → fits prev x.

Lemma hist_ok_nil : hist_ok [].
Proof. intros [|y prev] x rest; by intros ?. Qed.

Lemma hist_ok_snoc h x : hist_ok h → fits h x → hist_ok (h ++ [x]).
Proof.
  intros Hh Hx prev y rest E. destruct rest as [|z rest _] using rev_ind.
  - apply app_inj_tail in E as (-> & ->). done.
  - rewrite app_comm_cons, app_assoc in E. apply app_inj_tail in E as (-> & _). by eapply Hh.
Qed.

Section set.
Context (ps : gmap (list (option N)) Pattern).

(** What the specification accepts fits. *)
Lemma spec_push_fits A h x :
  Forall (entry_ok ps) h → entry_ok ps x → (spec_push A x h).1 = Ok tt → fits h x.
Proof.
  intros Hh Hx. unfold spec_push. destruct (existsb (released A h) (pd_elements x)) eqn:Er; [done|].
  destruct (_ && _) eqn:Ed; [done|]. intros _. rewrite existsb_elem_false in Er. split.
  - intros q i Hin Hre. specialize (Er _ Hin). apply not_true_iff_false in Er.
    destruct (decide (Exists (λ y, q ++ [i] ∈ pd_elements y) h)) as [Hy|Hn].
    + apply Exists_exists in Hy as (y & ? & ?). eauto.
    + destruct Er. apply released_spec. exists q, i. split_and!; [done..|].
      intros (y & Hy & Hin' & _). apply Hn, Exists_exists. eauto.
  - intros (Hd & y & Hy & Ep). rewrite Hd in Ed. cbn in Ed. rewrite existsb_elem_false in Ed.
    specialize (Ed y Hy). rewrite (bool_decide_eq_true_2 _ Ep), andb_true_r in Ed.
    rewrite Forall_forall in Hh. destruct (Hh y Hy) as (n1 & Hr1 & Hd1 & _). destruct Hx as (n2 & Hr2 & Hd2 & _).
    rewrite Ep, Hr2 in Hr1. injection Hr1 as -> _. congruence.
Qed.

(** An entry which fits is accepted as long as all channels are held. *)
Lemma fits_not_gone A h x :
  Forall (entry_ok ps) h → entry_ok ps x → (∀ y, y ∈ h → pd_slot y ∈ A) → fits h x → ¬ gone A h (pd_path x).
Proof.
  intros Hh Hx Ha (Hf & _) (e & He & Hr). pose proof (released_element ps A h x e Hh Hx He Hr) as Hin.
  apply released_spec in Hr as (q & i & -> & Hre & Hl). destruct (Hf q i Hin Hre) as (y & Hy & Hiy).
  apply Hl. exists y. auto.
Qed.

(** ** The channels are indexed *)

Definition slots_of (h : list Pending) : gset N := list_to_set (pd_slot <$> h).

Lemma elem_of_slots_of h s : s ∈ slots_of h ↔ ∃ x, x ∈ h ∧ pd_slot x = s.
Proof. unfold slots_of. rewrite elem_of_list_to_set, list_elem_of_fmap. naive_solver. Qed.

(** The handle of the slot [s] after [index_pending] *)
Definition filled (owner : gmap N N) (h : list Pending) (s : N) (sl : Slot) : Slot :=
  if decide (s ∈ slots_of h) then mkSlot (sl_strong sl) (Ok <$> owner !! s) else sl.

Lemma index_pending_ok rest prev owner w slots dropped :
  conn_ok ps prev owner w → dom owner = slots_of prev → hist_ok (prev ++ rest) →
  Forall (entry_ok ps) rest → NoDup (pd_slot <$> prev ++ rest) → (∀ x, x ∈ rest → pd_path x ≠ []) →
  ∃ w' owner',
    index_pending 0 rest w slots dropped =
      Some (w', map_imap (λ s sl, Some (filled owner' rest s sl)) slots,
            dropped ++ ((λ s, Ok (default 0%N (owner' !! s))) <$> filter (λ s, slots !! s = None) (pd_slot <$> rest))) ∧
    conn_ok ps (prev ++ rest) owner' w' ∧ dom owner' = slots_of (prev ++ rest) ∧ owner ⊆ owner' ∧
    w_handles w ⊆ w_handles w' ∧
    (∀ x, x ∈ rest → pd_declared x = true → ∃ id hd, owner' !! pd_slot x = Some id ∧
       w_handles w' !! id = Some hd ∧ is_Some (in_rx hd)).
Proof.
  revert prev owner w slots dropped.
  induction rest as [|x rest IH]; intros prev owner w slots dropped Hc Hd Hh Hok Hnd Hne.
  { exists w, owner. rewrite !app_nil_r. cbn [index_pending]. split; [|by split_and!; try done; intros x ?%not_elem_of_nil].
    do 3 f_equal. symmetry. apply map_eq. intros s. rewrite map_lookup_imap.
    destruct (slots !! s) as [sl|]; [|done]. cbn. unfold filled. rewrite decide_False; [done|]. set_solver. }
  apply Forall_cons in Hok as (Hx & Hok).
  assert (∀ y, y ∈ prev → pd_slot y ≠ pd_slot x) as Hnew.
  { intros y Hy E. rewrite fmap_app in Hnd. apply NoDup_app in Hnd as (_ & Hnd & _).
    apply (Hnd (pd_slot y)); [apply list_elem_of_fmap; eauto|]. rewrite E. by left. }
  assert (fits prev x) as Hfit by (by eapply Hh).
  destruct (conn_index ps prev owner w x Hc Hx (Hne x ltac:(by left)) Hnew) as (r & w1 & Ei & Hsub & Hr).
  pose proof (fits_not_gone (dom owner) prev x (mi_ok _ _ _ _ _ (co_mirror _ _ _ _ Hc)) Hx
    ltac:(intros y Hy; rewrite Hd; apply elem_of_slots_of; eauto) Hfit) as Hng.
  destruct r as [id|e]; [|destruct Hr as (_ & _ & [?|((? & ?) & _)]); [done|by destruct Hfit as (_ & [])]].
  destruct Hr as (_ & _ & (b & _ & Hb & hd & Hhd & Hrx) & Hc1).
  set (owner1 := <[pd_slot x := id]> owner) in *.
  set (slots1 := match slots !! pd_slot x with
                 | Some sl => <[pd_slot x := mkSlot (sl_strong sl) (Some (Ok id))]> slots | None => slots end).
  set (dropped1 := if decide (slots !! pd_slot x = None) then dropped ++ [Ok id] else dropped).
  assert (index_pending 0 (x :: rest) w slots dropped = index_pending 0 rest w1 slots1 dropped1) as ->.
  { cbn [index_pending]. rewrite Ei. cbn. unfold slots1, dropped1. by destruct (slots !! pd_slot x). }
  destruct (IH (prev ++ [x]) owner1 w1 slots1 dropped1) as (w' & owner' & Ep & Hc' & Hd' & Hsub' & Hhs & Hrx').
  { done. }
  { unfold owner1. rewrite dom_insert_L, Hd. unfold slots_of. rewrite fmap_app, list_to_set_app_L. set_solver. }
  { by rewrite <- app_assoc. }
  { done. }
  { by rewrite <- app_assoc. }
  { intros y Hy. apply Hne. by right. }
  rewrite <- app_assoc in Hc', Hd'. cbn [app] in Hc', Hd'.
  assert (owner' !! pd_slot x = Some id) as Hid.
  { eapply lookup_weaken; [|exact Hsub']. apply lookup_insert_eq. }
  assert (pd_slot x ∉ slots_of rest) as Hxr.
  { intros (y & Hy & E)%elem_of_slots_of. rewrite fmap_app in Hnd. apply NoDup_app in Hnd as (_ & _ & Hnd).
    apply NoDup_cons in Hnd as (Hnx & _). apply Hnx. rewrite <- E. apply list_elem_of_fmap. eauto. }
  assert (∀ s, slots1 !! s = None ↔ slots !! s = None) as Hs1.
  { intros s. unfold slots1. destruct (slots !! pd_slot x) as [sl|] eqn:E; [|done].
    destruct (decide (s = pd_slot x)) as [->|]; [rewrite lookup_insert_eq, E; done|by rewrite lookup_insert_ne]. }
  exists w', owner'. split; [|split_and!; try done].
  - rewrite Ep. do 2 f_equal; [f_equal|].
    + apply map_eq. intros s. rewrite !map_lookup_imap. unfold slots1, filled.
      destruct (decide (s = pd_slot x)) as [->|Hne'].
      * destruct (slots !! pd_slot x) as [sl|] eqn:E; [|by rewrite E]. rewrite lookup_insert_eq. cbn.
        rewrite (decide_False (P := pd_slot x ∈ slots_of rest)), decide_True, Hid by (done || set_solver). done.
      * assert (match slots !! pd_slot x with
                | Some sl => <[pd_slot x := mkSlot (sl_strong sl) (Some (Ok id))]> slots | None => slots end !! s
                = slots !! s) as -> by (destruct (slots !! pd_slot x); [by rewrite lookup_insert_ne|done]).
        destruct (slots !! s) as [sl|]; [|done]. cbn. f_equal. apply decide_ext.
        unfold slots_of. cbn. rewrite elem_of_union, elem_of_singleton. naive_solver.
    + unfold dropped1. rewrite fmap_cons, filter_cons.
      rewrite (list_filter_iff _ (λ s, slots !! s = None)) by apply Hs1.
      destruct (decide (slots !! pd_slot x = None)); [|done]. rewrite fmap_cons, Hid, <- app_assoc. done.
  - etrans; [|exact Hsub']. apply insert_subseteq. apply not_elem_of_dom. rewrite Hd. intros (y & Hy & E)%elem_of_slots_of.
    by apply (Hnew y).
  - by etrans.
  - intros y [->|Hy]%elem_of_cons Hdy; [|by apply Hrx']. exists id, hd. split; [done|].
    split; [by eapply lookup_weaken|]. apply Hrx, Hb. split; [done|]. apply Hfit.
Qed.

(** ** Released elements and dropped channels *)

(** The positions which [set] indexes and drops at once *)
Definition extra_ok (es : list (list N)) (owner : gmap N N) (x : Pending) : Prop :=
  pd_path x ∈ es ∧ pd_slot x ∉ dom owner ∧ entry_ok ps x.

Lemma entry_at path slot :
  is_Some (resolve_in ps path) → Forall (λ i, i < usize_MAX)%N path →
  ∃ x, pd_path x = path ∧ pd_slot x = slot ∧ entry_ok ps x.
Proof.
  intros ([node pat] & Hr) Hlt. exists (mkPending path pat slot (p_declared node)).
  split_and!; [done..|]. by exists node.
Qed.

Lemma index_released_ok es h owner w :
  conn_ok ps h owner w →
  Forall (λ e, is_Some (resolve_in ps e) ∧ e ≠ [] ∧ Forall (λ i, i < usize_MAX)%N e) es →
  ∃ w' ex, index_released 0 es w = Some w' ∧ conn_ok ps (h ++ ex) owner w' ∧ Forall (extra_ok es owner) ex ∧
    ∀ id hd, (∃ s, owner !! s = Some id) → w_handles w !! id = Some hd → w_handles w' !! id = Some hd.
Proof.
  revert h w. induction es as [|e es IH]; intros h w Hc Hes.
  { exists w, []. rewrite app_nil_r. by split_and!. }
  apply Forall_cons in Hes as ((Hr & Hne & Hlt) & Hes). cbn [index_released].
  set (f := fresh (slots_of h ∪ dom owner)). assert (f ∉ slots_of h ∪ dom owner) as Hf by apply is_fresh.
  destruct (entry_at e f Hr Hlt) as (x & <- & Hs & Hx).
  destruct (conn_index ps h owner w x Hc Hx Hne) as (r & w1 & Ei & Hsub & Hi).
  { intros y Hy E. apply Hf, elem_of_union. left. apply elem_of_slots_of. exists y. by rewrite E. }
  rewrite Ei. cbn. destruct r as [id|err]; cbn [drop_handle].
  - destruct Hi as (_ & _ & _ & Hc1).
    destruct (conn_drop ps _ _ w1 (pd_slot x) id Hc1) as (w2 & Ed & Hh & Hc2); [apply lookup_insert_eq|].
    assert (owner !! pd_slot x = None) as Hn by (apply not_elem_of_dom; rewrite Hs; set_solver).
    rewrite delete_insert_id in Hc2 by done. rewrite Ed. cbn.
    destruct (IH (h ++ [x]) w2 Hc2 Hes) as (w' & ex & E' & Hc' & Hex & Hhs).
    exists w', (x :: ex). rewrite <- app_assoc in Hc'. split_and!; [done|done| |].
    + apply Forall_cons. split; [split; [by left|]; split; [by apply not_elem_of_dom|done]|].
      eapply Forall_impl; [exact Hex|]. intros y (? & ? & ?). split; [by right|done].
    + intros id' hd (s & Hs') Hid. apply Hhs; [eauto|]. rewrite Hh, lookup_delete_ne; [by eapply lookup_weaken|].
      intros <-. assert (pd_slot x ≠ s) as Hne' by (intros <-; congruence). apply Hne'.
      apply (co_inj _ _ _ _ Hc1 _ _ id); [apply lookup_insert_eq|by rewrite lookup_insert_ne].
  - destruct Hi as (_ & Hc1 & _). destruct (IH h w1 Hc1 Hes) as (w' & ex & E' & Hc' & Hex & Hhs).
    exists w', ex. split_and!; [done|done| |].
    + eapply Forall_impl; [exact Hex|]. intros y (? & ? & ?). split; [by right|done].
    + intros id' hd Hs' Hid. apply Hhs; [done|]. by eapply lookup_weaken.
Qed.

Lemma drop_all_ok ds h owner w :
  conn_ok ps h owner w → NoDup ds → (∀ s, s ∈ ds → s ∈ dom owner) →
  ∃ w' owner', drop_all ((λ s, Ok (default 0%N (owner !! s))) <$> ds) w = Some w' ∧ conn_ok ps h owner' w' ∧
    (∀ s, owner' !! s = if decide (s ∈ ds) then None else owner !! s) ∧
    ∀ s id, s ∉ ds → owner !! s = Some id → w_handles w' !! id = w_handles w !! id.
Proof.
  revert owner w. induction ds as [|s ds IH]; intros owner w Hc Hnd Hds.
  { exists w, owner. split_and!; [done|done| |done]. intros s. rewrite decide_False; [done|]. by apply not_elem_of_nil. }
  apply NoDup_cons in Hnd as (Hs & Hnd). destruct (proj1 (elem_of_dom owner s) (Hds s ltac:(by left))) as (id & Hid).
  destruct (conn_drop ps h owner w s id Hc Hid) as (w1 & Ed & Hh & Hc1).
  rewrite fmap_cons. cbn [drop_all drop_handle]. rewrite Hid. change (default 0%N (Some id)) with id. rewrite Ed. cbn.
  assert ((λ s, Ok (default 0%N (owner !! s))) <$> ds =
    (λ s', Ok (E := ErrorKind) (default 0%N (delete s owner !! s'))) <$> ds) as ->.
  { apply list_fmap_ext. intros i s' Hi. rewrite lookup_delete_ne; [done|]. intros <-.
    apply Hs. by eapply list_elem_of_lookup_2. }
  destruct (IH (delete s owner) w1 Hc1 Hnd) as (w' & owner' & Ed' & Hc' & Ho & Hw).
  { intros s' Hs'. rewrite dom_delete_L. apply elem_of_difference. split; [apply Hds; by right|].
    rewrite elem_of_singleton. by intros ->. }
  exists w', owner'. split_and!; [done|done| |].
  - intros s'. rewrite Ho. destruct (decide (s' = s)) as [->|Hne].
    + rewrite lookup_delete_eq, (decide_True (P := s ∈ s :: ds)) by (by left). by destruct (decide _).
    + rewrite lookup_delete_ne by done. apply decide_ext. rewrite elem_of_cons. naive_solver.
  - intros s' id' Hs' Hid'. rewrite not_elem_of_cons in Hs'. destruct Hs' as (Hne & Hs').
    rewrite (Hw s' id') by (done || by rewrite lookup_delete_ne). rewrite Hh. apply lookup_delete_ne. intros <-.
    apply Hne. by apply (co_inj _ _ _ _ Hc _ _ id).
Qed.

Lemma gone_dead A h ex p :
  (∀ x, x ∈ ex → pd_slot x ∉ A) → gone A h p → gone A (h ++ ex) p.
Proof.
  intros Hex (e & He & Hr). exists e. split; [done|]. eapply released_mono; [| |exact Hr].
  - intros q i (x & j & Hx & ? & ?). exists x, j. set_solver.
  - intros (x & Hx & Hin & Ha). exists x. split; [|done]. apply elem_of_app in Hx as [Hx|Hx]; [done|by destruct (Hex x)].
Qed.

Lemma forget_extras ex es h owner w :
  conn_ok ps (h ++ ex) owner w → Forall (extra_ok es owner) ex → Forall (entry_ok ps) h →
  (∀ e, e ∈ es → gone (dom owner) h e ∧ ∃ y, y ∈ h ∧ e ∈ pd_elements y) → conn_ok ps h owner w.
Proof.
  intros Hc Hex Hok Hes. induction ex as [|x ex IH] using rev_ind; [by rewrite app_nil_r in Hc|].
  apply Forall_app in Hex as (Hex & Hx). apply Forall_singleton in Hx as (Hp & Hs & Hx). apply IH; [|done].
  rewrite app_assoc in Hc. destruct (Hes _ Hp) as (Hg & y & Hy & Hin). apply (conn_forget ps _ x); [done|done| |left].
  - intros e (Hpre & He)%(elem_of_pd_elements ps x e Hx). exists y. split; [set_solver|].
    rewrite Forall_forall in Hok. apply (elem_of_pd_elements ps y e (Hok y Hy)). split; [|done].
    apply (elem_of_pd_elements ps y _ (Hok y Hy)) in Hin as (Hpy & _). by trans (pd_path x).
  - apply gone_dead; [|done]. intros z Hz. rewrite Forall_forall in Hex. by destruct (Hex z Hz) as (_ & ? & _).
Qed.

Lemma released_elements_ok A pc h e :
  sim ps A pc h → e ∈ released_elements A pc →
  gone A h e ∧ (∃ y, y ∈ h ∧ e ∈ pd_elements y) ∧
  is_Some (resolve_in ps e) ∧ e ≠ [] ∧ Forall (λ i, i < usize_MAX)%N e.
Proof.
  intros Hs (Hr & (q & -> & Hq%elem_of_btree_keys)%list_elem_of_fmap)%list_elem_of_filter.
  destruct Hq as (n & Hn). rewrite Hn in *. change (default 0%N (Some n)) with n in *.
  pose proof (is_released_sound ps _ _ _ _ Hs Hr) as Hrel. split; [by exists (q ++ [(n - 1)%N])|].
  destruct (sim_next _ _ _ _ Hs q) as [(? & _)|Hi]; [congruence|]. rewrite Hn in Hi. cbn in Hi.
  apply released_spec in Hrel as (q' & i & E & Hre & _). apply app_inj_tail in E as (<- & <-).
  destruct Hre as (y & j & Hy & Hj & Hin). assert (j < n)%N as Hjn by (apply Hi; by exists y, j).
  assert (j = n - 1)%N as -> by lia. pose proof (sim_ok _ _ _ _ Hs) as Hok. rewrite Forall_forall in Hok.
  split; [eauto|]. pose proof Hin as (Hpre & He)%(elem_of_pd_elements ps y _ (Hok y Hy)).
  split; [by apply is_element_resolve|]. split; [by destruct q|].
  destruct (Hok y Hy) as (node & _ & _ & Hlt). destruct Hpre as (k & Hk). rewrite Hk in Hlt.
  by apply Forall_app in Hlt as (? & _).
Qed.

(** [IncomingRoot::set]: the connection has the history of the channels, and every
    channel which is held has its handle. *)
Lemma set_ok h iv w :
  sim ps (alive iv) (iv_pending iv) h → pc_channels (iv_pending iv) = h → hist_ok h →
  NoDup (pd_slot <$> h) → (∀ x, x ∈ h → pd_path x ≠ []) → conn_ok ps [] ∅ w →
  ∃ w' owner,
    IncomingRoot_set 0 w iv =
      Some (set_root (Some (0%N, w')) (set_pending PendingChannels_default
        (set_slots (map_imap (λ s sl, Some (filled owner h s sl)) (iv_slots iv)) iv))) ∧
    conn_ok ps h owner w' ∧ dom owner = slots_of h ∩ alive iv ∧
    ∀ x, x ∈ h → pd_declared x = true → pd_slot x ∈ alive iv → ∃ id hd, owner !! pd_slot x = Some id ∧
      w_handles w' !! id = Some hd ∧ is_Some (in_rx hd).
Proof.
  intros Hs Hch Hh Hnd Hne Hc. unfold IncomingRoot_set. rewrite Hch.
  destruct (index_pending_ok h [] ∅ w (iv_slots iv) [] Hc) as (w1 & o1 & -> & Hc1 & Hd1 & _ & _ & Hrx);
    [by rewrite dom_empty_L|done|apply Hs|done|done|]. cbn [app] in Hc1, Hd1. cbn [mbind option_bind].
  set (es := released_elements (alive iv) (iv_pending iv)).
  assert (∀ e, e ∈ es → _) as Hes by (intros e He; exact (released_elements_ok _ _ _ e Hs He)).
  destruct (index_released_ok es h o1 w1 Hc1) as (w2 & ex & -> & Hc2 & Hex & Hh2).
  { apply Forall_forall. intros e He. by destruct (Hes e He) as (_ & _ & ?). }
  cbn [mbind option_bind app].
  set (ds := filter (λ s, iv_slots iv !! s = None) (pd_slot <$> h)).
  destruct (drop_all_ok ds (h ++ ex) o1 w2 Hc2) as (w3 & o3 & -> & Hc3 & Ho & Hh3).
  { by apply NoDup_filter. }
  { intros s (_ & (x & -> & Hx)%list_elem_of_fmap)%list_elem_of_filter. rewrite Hd1. apply elem_of_slots_of. eauto. }
  cbn [mbind option_bind].
  assert (∀ s, s ∈ alive iv → o3 !! s = o1 !! s) as Hkeep.
  { intros s Hal. rewrite Ho, decide_False; [done|]. intros (Hn & _)%list_elem_of_filter.
    unfold alive in Hal. apply elem_of_dom in Hal as (? & ?). congruence. }
  assert (dom o3 = slots_of h ∩ alive iv) as Hd3.
  { apply set_eq. intros s. rewrite elem_of_intersection, <- Hd1. unfold alive. rewrite !elem_of_dom, Ho.
    destruct (decide (s ∈ ds)) as [(Hn & Hin)%list_elem_of_filter|Hn].
    - rewrite Hn. split; intros H'; [by destruct H'|by destruct H' as (_ & ?%is_Some_None)].
    - split; [|by intros (? & _)]. intros Hs1. split; [done|].
      destruct (iv_slots iv !! s) eqn:E; [done|]. destruct Hn. apply list_elem_of_filter. split; [done|].
      apply elem_of_dom in Hs1. rewrite Hd1 in Hs1. apply elem_of_slots_of in Hs1 as (x & ? & <-).
      apply list_elem_of_fmap. eauto. }
  exists w3, o3. split_and!; [|  |done|].
  - do 4 f_equal. apply map_eq. intros s. rewrite !map_lookup_imap. destruct (iv_slots iv !! s) as [sl|] eqn:E; [|done].
    cbn. unfold filled. rewrite Hkeep; [done|]. unfold alive. apply elem_of_dom. eauto.
  - assert (Forall (extra_ok es o3) ex) as Hex3.
    { eapply Forall_impl; [exact Hex|]. intros x (? & Hx & ?). split_and!; try done. apply not_elem_of_dom.
      rewrite Ho. apply not_elem_of_dom in Hx. by destruct (decide _). }
    eapply forget_extras; [exact Hc3|exact Hex3|apply Hs|]. intros e He.
    destruct (Hes e He) as (Hg & Hy & _). split; [|done]. eapply gone_ext; [|exact Hg].
    intros x Hx. rewrite Hd3. rewrite elem_of_intersection, elem_of_slots_of. naive_solver.
  - intros x Hx Hd Hal. destruct (Hrx x Hx Hd) as (id & hd & Hid & Hhd & Hi). exists id, hd.
    rewrite Hkeep by done. split; [done|]. split; [|done].
    rewrite (Hh3 (pd_slot x) id); [apply Hh2; eauto| |done].
    intros (Hn & _)%list_elem_of_filter. unfold alive in Hal. apply elem_of_dom in Hal as (? & ?). congruence.
Qed.
End set.
