(* ===== verification/RpcSpec.v ===== *)
(** * Channels before and after transmission

    The comment of [PendingChannels] says that indexing behaves the same before and
    after an invocation is transmitted.  An execution of an invocation ([exec])
    indexes and drops channels, is transmitted at some point, and receives frames
    at any time after it.  In every state of it, a channel is returned or refused
    as the history of the channels demands, whenever the transmission was
    ([index_by_history]), as long as fewer than 64 channels were returned before
    it: from then on channels are pruned, and [prune_breaks_channel] is an
    execution in which a channel that is held loses its position. *)

From S2P Require Import Prelude Wire FrameCodec Subscriptions Resolve SubsInv Elements Conn ConnInv.
From S2P Require Import WasmCodec WasmCall Channels RpcChannels ChannelsSpec Mirror RpcConn RpcSet.

(** ** Executions *)

(** [LIndex] has the slot of the channel which was returned or the error it was
    refused with. *)
Inductive label :=
  | LIndex (path : list N) (r : io_result N)
  | LDrop (slot : N)
  | LTransmit
  | LFail
  | LTask.

(** A channel which is returned before the transmission may hold the error
    instead. *)
Definition outcome (r : io_result IncomingChannel) (iv : IncomingInvocation) : io_result N :=
  match r with
  | Err e => Err e
  | Ok ch =>
      match iv_slots iv !! ch_incoming ch with
      | Some (mkSlot _ (Some (Err e))) => Err e
      | _ => Ok (ch_incoming ch)
      end
  end.

Section exec.
Context `{Leb128} (cap : N) (paths : list (list (option N))).

Definition task_runs (w w' : World) : Prop := ∃ ev, task_step cap w ev w'.

Inductive exec : list label → IncomingInvocation → Prop :=
  | exec_new : exec [] (IncomingChannel_new paths).2
  | exec_index tr iv ch path r iv' :
      exec tr iv → path ≠ [] → Forall (λ i, i < usize_MAX)%N (ch_path ch ++ path) →
      IncomingChannel_index ch path iv = Some (r, iv') →
      exec (tr ++ [LIndex (ch_path ch ++ path) (outcome r iv')]) iv'
  | exec_drop tr iv s iv' :
      exec tr iv → slot_drop s iv = Some iv' → exec (tr ++ [LDrop s]) iv'
  | exec_transmit tr iv rx w iv' :
      exec tr iv → iv_transmission iv = NotYet → rtc task_runs (Incoming_new paths rx) w →
      transmit (Some (0%N, w)) iv = Some iv' → exec (tr ++ [LTransmit]) iv'
  | exec_fail tr iv iv' :
      exec tr iv → iv_transmission iv = NotYet → transmit None iv = Some iv' → exec (tr ++ [LFail]) iv'
  | exec_task tr iv w w' :
      exec tr iv → iv_root iv = Some (0%N, w) → task_runs w w' →
      exec (tr ++ [LTask]) (set_root (Some (0%N, w')) iv).

(** ** Specification *)

(** The channel at [path] *)
Definition entry_of (path : list N) (slot : N) : Pending :=
  match resolve_in (patterns_of paths) path with
  | Some (node, pattern) => mkPending path pattern slot (p_declared node)
  | None => mkPending path [] slot false
  end.

Definition hist_step (acc : gset N * list Pending) (l : label) : gset N * list Pending :=
  match l with
  | LIndex path (Ok slot) => ({[slot]} ∪ acc.1, acc.2 ++ [entry_of path slot])
  | LDrop slot => (acc.1 ∖ {[slot]}, acc.2)
  | _ => acc
  end.

(** The slots which are held, and the channels which were returned *)
Definition history (tr : list label) : gset N * list Pending := foldl hist_step (∅, []) tr.

(** What the history demands *)
Definition spec_index (hist : gset N * list Pending) (path : list N) : io_result unit :=
  match resolve_in (patterns_of paths) path with
  | None => Err NotFound
  | Some _ => (spec_push hist.1 (entry_of path 0) hist.2).1
  end.

(** The number of the channels which were returned before the transmission *)
Fixpoint returned_before (tr : list label) : nat :=
  match tr with
  | [] => 0
  | LTransmit :: _ => 0
  | LIndex _ (Ok _) :: tr => S (returned_before tr)
  | _ :: tr => returned_before tr
  end.

End exec.

(** The result is the one of the specification; after the transmission, a second
    channel of a position may be refused with the error of the transport instead. *)
Definition agrees {A B} (transmitted : bool) (r : io_result A) (spec : io_result B) : Prop :=
  match r, spec with
  | Ok _, Ok _ => True
  | Err e, Err e' => e = e' ∨ transmitted = true ∧ e = NotFound ∧ e' = AlreadyExists
  | _, _ => False
  end.

Definition is_transmitted (iv : IncomingInvocation) : bool := match iv_root iv with Some _ => true | None => false end.

(** ** Patterns *)

Lemma channel_pattern_from ps pre n path :
  ps !! pre = Some n →
  (pattern ← channel_pattern ps pre path; node ← ps !! pattern; Some (node, pattern)) = resolve_from ps n pre path.
Proof.
  revert pre n. induction path as [|i path IH]; intros pre n Hn; cbn.
  { by rewrite Hn. }
  rewrite Hn. cbn. destruct (p_wildcard n) as [b|]; cbn; [|done].
  destruct (ps !! (pre ++ [if b then None else Some i])) as [n'|] eqn:E; cbn; [by apply IH|].
  destruct path as [|j path]; cbn; by rewrite E.
Qed.

Lemma channel_pattern_resolve ps path :
  is_Some (ps !! []) →
  (pattern ← channel_pattern ps [] path; node ← ps !! pattern; Some (node, pattern)) = resolve_in ps path.
Proof. intros (n & Hn). unfold resolve_in. rewrite Hn. cbn. by apply channel_pattern_from. Qed.

Lemma new_patterns paths : iv_patterns (IncomingChannel_new paths).2 = patterns_of paths ∧ is_Some (patterns_of paths !! []).
Proof.
  cbn. unfold patterns_of.
  assert (∀ ps p, ps !! [] = Some p → p_declared p = true →
    foldl (λ patterns path, alter_pattern set_declared path (declare_prefixes [] path patterns)) ps paths =
      foldl declare_patterns ps paths ∧ is_Some (foldl declare_patterns ps paths !! [])) as Hgen.
  2: { by eapply (Hgen _ (mkPattern true None)); [apply lookup_singleton_eq|]. }
  induction paths as [|path paths IH]; intros ps p Hp Hd; cbn [foldl]; [eauto|].
  destruct path as [|i path]; cbn [declare_patterns declare_prefixes].
  - assert (alter_pattern set_declared [] ps = ps) as ->; [|by eapply IH].
    unfold alter_pattern. apply insert_id. rewrite Hp. cbn. unfold set_declared. destruct p; cbn in *. by subst.
  - assert (∀ path pre ps p, ps !! [] = Some p → p_declared p = true →
      ∃ p', declare_prefixes pre path ps !! [] = Some p' ∧ p_declared p' = true) as Hpre.
    { clear. induction path as [|j path IH]; intros pre ps p Hp Hd; cbn; [eauto|].
      unfold alter_pattern. destruct (decide (pre = [])) as [->|Hne].
      - eapply IH; [apply lookup_insert_eq|]. rewrite Hp. done.
      - eapply IH; [by rewrite lookup_insert_ne|done]. }
    destruct (Hpre (i :: path) [] ps p Hp Hd) as (p' & Hp' & Hd'). cbn [declare_prefixes] in Hp'.
    eapply IH; [|exact Hd']. unfold alter_pattern at 1. by rewrite lookup_insert_ne.
Qed.

Lemma concrete_pattern ps path node pat :
  resolve_in ps path = Some (node, pat) → is_concrete pat = true → pat = Some <$> path.
Proof.
  assert (∀ path n pre, resolve_from ps n pre path = Some (node, pat) →
    ∃ suf, pat = pre ++ suf ∧ (is_concrete suf = true → suf = Some <$> path)) as Hgen.
  { clear. induction path as [|i path IH]; intros n pre; cbn; [intros [= -> ->]; exists []; by rewrite app_nil_r|].
    destruct (p_wildcard n) as [b|]; cbn; [|done]. destruct (ps !! _) as [n'|]; cbn; [|done].
    intros (suf & -> & Hs)%IH. exists ((if b then None else Some i) :: suf). rewrite <- app_assoc. split; [done|].
    cbn. destruct b; cbn; [done|]. intros ?. by rewrite Hs. }
  unfold resolve_in. destruct (ps !! []) as [n|]; cbn; [|done]. intros (suf & -> & Hs)%Hgen. apply Hs.
Qed.

Lemma and_iff_compat_l' (P Q R : Prop) : (P → Q ↔ R) → P ∧ Q ↔ P ∧ R.
Proof. tauto. Qed.

Lemma concrete_wildcards pat : is_concrete pat = true → wildcards pat = [].
Proof.
  unfold wildcards. generalize 0. induction pat as [|[i|] pat IH]; intros k; cbn; [done|apply IH|done].
Qed.

(** ** Invariant *)

Section inv.
Context (ps : gmap (list (option N)) Pattern).

Record pending_ok (h : list Pending) (iv : IncomingInvocation) : Prop := {
  pk_sim : sim ps (alive iv) (iv_pending iv) h;
  pk_channels : length h < 64 → pc_channels (iv_pending iv) = h ∧
    (pc_prune_at (iv_pending iv) = 64 ∨ h = [] ∧ pc_prune_at (iv_pending iv) = 0);
  pk_values s sl id : iv_slots iv !! s = Some sl → sl_value sl ≠ Some (Ok id);
  pk_empty x sl : x ∈ h → iv_slots iv !! pd_slot x = Some sl → sl_value sl = None
}.

Record transmitted_ok (h : list Pending) (iv : IncomingInvocation) (w : World) (owner : gmap N N) : Prop := {
  tk_conn : conn_ok ps h owner w;
  tk_owner s id : owner !! s = Some id ↔ ∃ sl, iv_slots iv !! s = Some sl ∧ sl_value sl = Some (Ok id);
  tk_held x : x ∈ h → pd_slot x ∈ alive iv → pd_slot x ∈ dom owner;
  tk_rx x id : x ∈ h → pd_declared x = true → owner !! pd_slot x = Some id →
    ∃ hd, w_handles w !! id = Some hd ∧ is_Some (in_rx hd)
}.

Record cinv (A : gset N) (h : list Pending) (iv : IncomingInvocation) : Prop := {
  cv_patterns : iv_patterns iv = ps;
  cv_entries : Forall (entry_ok ps) h;
  cv_hist : hist_ok h;
  cv_nodup : NoDup (pd_slot <$> h);
  cv_paths x : x ∈ h → pd_path x ≠ [];
  cv_returned pattern : is_concrete pattern = true →
    pattern ∈ iv_returned iv ↔ ∃ x, x ∈ h ∧ pd_pattern x = pattern ∧ pd_declared x = true;
  cv_fresh x : x ∈ h → (pd_slot x < iv_fresh iv)%N;
  cv_fresh_slots s : s ∈ alive iv → (s < iv_fresh iv)%N;
  cv_strong s sl : iv_slots iv !! s = Some sl → sl_strong sl = 1;
  cv_alive x : x ∈ h → pd_slot x ∈ A ↔ pd_slot x ∈ alive iv;
  cv_phase : match iv_root iv with
             | None => pending_ok h iv
             | Some (root, w) => root = 0%N ∧ ∃ owner, transmitted_ok h iv w owner
             end
}.

(** ** The results of the specification *)

Lemma spec_push_ext A A' x h :
  (∀ y, y ∈ h → pd_slot y ∈ A ↔ pd_slot y ∈ A') → spec_push A x h = spec_push A' x h.
Proof.
  intros Ha. unfold spec_push. assert (existsb (released A h) (pd_elements x) = existsb (released A' h) (pd_elements x)) as ->;
    [|done]. induction (pd_elements x) as [|e es IH]; cbn; [done|]. by rewrite IH, (released_ext A A' h e Ha).
Qed.

Lemma spec_push_slot A x y h :
  pd_path x = pd_path y → pd_pattern x = pd_pattern y → pd_declared x = pd_declared y →
  (spec_push A x h).1 = (spec_push A y h).1.
Proof.
  intros E1 E2 E3. unfold spec_push. assert (pd_elements x = pd_elements y) as ->.
  { unfold pd_elements. by rewrite E1, E2. }
  rewrite E1, E3. by repeat case_match.
Qed.

Definition dup (h : list Pending) (x : Pending) : bool :=
  existsb (λ y, pd_declared y && bool_decide (pd_path y = pd_path x)) h.

Lemma was_taken_dup h x :
  Forall (entry_ok ps) h → entry_ok ps x → was_taken h x ↔ pd_declared x && dup h x = true.
Proof.
  intros Hh Hx. unfold was_taken, dup. rewrite andb_true_iff. apply and_iff_compat_l'. intros Hd.
  rewrite existsb_elem. setoid_rewrite andb_true_iff. setoid_rewrite bool_decide_eq_true.
  rewrite Forall_forall in Hh. split; [|naive_solver]. intros (y & Hy & E). exists y. split_and!; [done| |done].
  destruct (Hh y Hy) as (n1 & Hr1 & -> & _). destruct Hx as (n2 & Hr2 & Hd2 & _).
  rewrite E, Hr2 in Hr1. injection Hr1 as -> _. congruence.
Qed.

(** What the specification says, in terms of the history *)
Lemma spec_push_cases A h x :
  Forall (entry_ok ps) h → entry_ok ps x →
  (gone A h (pd_path x) ∧ spec_push A x h = (Err NotFound, h)) ∨
  (¬ gone A h (pd_path x) ∧ was_taken h x ∧ spec_push A x h = (Err AlreadyExists, h)) ∨
  (¬ gone A h (pd_path x) ∧ ¬ was_taken h x ∧ spec_push A x h = (Ok tt, h ++ [x])).
Proof.
  intros Hh Hx. unfold spec_push. rewrite (gone_elements ps A h x Hh Hx), (was_taken_dup h x Hh Hx). unfold dup.
  destruct (existsb (released A h) _); [by left|right]. destruct (_ && _); [by left|by right].
Qed.


(** ** Channels are returned *)

(** The fields of the invocation which change with a new channel [x] *)
Record returns (iv : IncomingInvocation) (x : Pending) (v : option (io_result N)) (iv' : IncomingInvocation) : Prop := {
  re_patterns : iv_patterns iv' = iv_patterns iv;
  re_slot : pd_slot x = iv_fresh iv;
  re_fresh : iv_fresh iv' = (iv_fresh iv + 1)%N;
  re_slots : iv_slots iv' = <[iv_fresh iv := mkSlot 1 v]> (iv_slots iv);
  re_returned : iv_returned iv' =
    if pd_declared x && is_concrete (pd_pattern x) then {[pd_pattern x]} ∪ iv_returned iv else iv_returned iv
}.

Lemma returns_alive iv x v iv' : returns iv x v iv' → alive iv' = {[iv_fresh iv]} ∪ alive iv.
Proof. intros Hr. unfold alive. rewrite (re_slots _ _ _ _ Hr). apply dom_insert_L. Qed.

Lemma concrete_not_gone A h x :
  Forall (entry_ok ps) h → entry_ok ps x → is_concrete (pd_pattern x) = true → ¬ gone A h (pd_path x).
Proof.
  intros Hh Hx Hc. rewrite (gone_elements ps A h x Hh Hx). unfold pd_elements.
  by rewrite (concrete_wildcards _ Hc).
Qed.

Lemma pattern_path x y :
  entry_ok ps x → entry_ok ps y → is_concrete (pd_pattern x) = true →
  pd_pattern y = pd_pattern x ↔ pd_path y = pd_path x.
Proof.
  intros (n1 & H1 & _) (n2 & H2 & _) Hc. split; intros E.
  - rewrite (concrete_pattern _ _ _ _ H1 Hc) in E. rewrite E in H2.
    assert (pd_pattern y = Some <$> pd_path y) as E' by (eapply concrete_pattern; [|by rewrite E, <- (concrete_pattern _ _ _ _ H1 Hc)]; by rewrite E).
    rewrite E in E'. apply (inj (fmap Some)) in E'. done.
  - rewrite E, H1 in H2. by injection H2.
Qed.

(** The channel is new. *)
Lemma cinv_accept A h iv x v iv' :
  cinv A h iv → returns iv x v iv' → entry_ok ps x → pd_path x ≠ [] → fits h x →
  match iv_root iv' with
  | None => pending_ok (h ++ [x]) iv'
  | Some (root, w) => root = 0%N ∧ ∃ owner, transmitted_ok (h ++ [x]) iv' w owner
  end →
  cinv ({[iv_fresh iv]} ∪ A) (h ++ [x]) iv'.
Proof.
  intros Hc Hr Hx Hp Hf Hph. pose proof (returns_alive _ _ _ _ Hr) as Hal.
  pose proof (re_slot _ _ _ _ Hr) as Hs. split; try done.
  - rewrite (re_patterns _ _ _ _ Hr). apply Hc.
  - apply Forall_app. split; [apply Hc|by apply Forall_singleton].
  - apply hist_ok_snoc; [apply Hc|done].
  - rewrite fmap_app. apply NoDup_app. split; [apply Hc|]. split; [|apply NoDup_singleton].
    intros s (y & -> & Hy)%list_elem_of_fmap E%list_elem_of_singleton.
    pose proof (cv_fresh _ _ _ Hc y Hy). rewrite E, Hs in *. lia.
  - intros y [Hy| ->%list_elem_of_singleton]%elem_of_app; [by apply (cv_paths _ _ _ Hc)|done].
  - intros pattern Hpat. rewrite (re_returned _ _ _ _ Hr). setoid_rewrite elem_of_app.
    setoid_rewrite list_elem_of_singleton. pose proof (cv_returned _ _ _ Hc pattern Hpat) as Hret.
    destruct (pd_declared x && is_concrete (pd_pattern x)) eqn:E.
    + apply andb_true_iff in E as (? & ?). rewrite elem_of_union, elem_of_singleton, Hret. naive_solver.
    + rewrite Hret. split; [naive_solver|]. intros (y & [Hy| ->] & <- & Hd); [eauto|].
      rewrite Hd, Hpat in E. done.
  - rewrite (re_fresh _ _ _ _ Hr). intros y [Hy| ->%list_elem_of_singleton]%elem_of_app; [|rewrite Hs; lia].
    pose proof (cv_fresh _ _ _ Hc y Hy). lia.
  - rewrite (re_fresh _ _ _ _ Hr), Hal. intros s [->%elem_of_singleton|Hin]%elem_of_union; [lia|].
    pose proof (cv_fresh_slots _ _ _ Hc s Hin). lia.
  - rewrite (re_slots _ _ _ _ Hr). intros s sl [(<- & <-)|(_ & Hsl)]%lookup_insert_Some; [done|].
    by eapply cv_strong.
  - intros y Hy. rewrite Hal, !elem_of_union, !elem_of_singleton.
    apply elem_of_app in Hy as [Hy| ->%list_elem_of_singleton]; [|rewrite Hs; tauto].
    rewrite (cv_alive _ _ _ Hc y Hy). done.
Qed.

(** The channel holds the error it was refused with. *)
Lemma cinv_refuse A h iv x e iv' :
  cinv A h iv → returns iv x (Some (Err e)) iv' → entry_ok ps x → iv_root iv = None → iv_root iv' = None →
  gone A h (pd_path x) ∨ was_taken h x →
  pc_prune_at (iv_pending iv') = pc_prune_at (iv_pending iv) → pc_channels (iv_pending iv') = pc_channels (iv_pending iv) →
  sim ps (alive iv') (iv_pending iv') h →
  cinv A h iv'.
Proof.
  intros Hc Hr Hx Hn Hn' Href Epr Ech Hsim. pose proof (returns_alive _ _ _ _ Hr) as Hal.
  pose proof (cv_phase _ _ _ Hc) as Hph. rewrite Hn in Hph.
  assert (∀ y, y ∈ h → pd_slot y ≠ iv_fresh iv) as Hne.
  { intros y Hy E. pose proof (cv_fresh _ _ _ Hc y Hy). lia. }
  split; try apply Hc.
  - rewrite (re_patterns _ _ _ _ Hr). apply Hc.
  - intros pattern Hpat. rewrite (re_returned _ _ _ _ Hr). pose proof (cv_returned _ _ _ Hc pattern Hpat) as Hret.
    destruct (pd_declared x && is_concrete (pd_pattern x)) eqn:E; [|done].
    apply andb_true_iff in E as (Hd & Hcx). rewrite elem_of_union, elem_of_singleton, <- Hret.
    split; [|tauto]. intros [->|?]; [|done]. apply Hret.
    destruct Href as [Hg|Hw]; [by destruct (concrete_not_gone A h x (cv_entries _ _ _ Hc) Hx Hcx)|].
    pose proof Hw as (_ & y & Hy & Ey). pose proof (cv_entries _ _ _ Hc) as Hh. rewrite Forall_forall in Hh.
    exists y. split; [done|]. split; [by apply (pattern_path x y Hx (Hh y Hy) Hcx)|].
    destruct (Hh y Hy) as (n1 & Hr1 & -> & _). destruct Hx as (n2 & Hr2 & Hd2 & _).
    rewrite Ey, Hr2 in Hr1. injection Hr1 as -> _. congruence.
  - rewrite (re_fresh _ _ _ _ Hr). intros y Hy. pose proof (cv_fresh _ _ _ Hc y Hy). lia.
  - rewrite (re_fresh _ _ _ _ Hr), Hal. intros s [->%elem_of_singleton|Hin]%elem_of_union; [lia|].
    pose proof (cv_fresh_slots _ _ _ Hc s Hin). lia.
  - rewrite (re_slots _ _ _ _ Hr). intros s sl [(<- & <-)|(_ & Hsl)]%lookup_insert_Some; [done|].
    by eapply cv_strong.
  - intros y Hy. rewrite Hal, elem_of_union, elem_of_singleton, (cv_alive _ _ _ Hc y Hy).
    pose proof (Hne y Hy). tauto.
  - rewrite Hn'. split; [done| | |].
    + rewrite Epr, Ech. apply (pk_channels _ _ Hph).
    + rewrite (re_slots _ _ _ _ Hr). intros s sl id [(<- & <-)|(_ & Hsl)]%lookup_insert_Some; [done|].
      by eapply pk_values.
    + rewrite (re_slots _ _ _ _ Hr). intros y sl Hy. rewrite lookup_insert_ne by (by apply not_eq_sym, Hne).
      by apply (pk_empty _ _ Hph).
Qed.

(** *** Before the transmission *)

Lemma push_channels A x pc h r pc' :
  push A x pc = (r, pc') → pd_slot x ∈ A →
  match r with
  | Ok _ => length (h ++ [x]) < 64 →
      pc_channels pc = h ∧ (pc_prune_at pc = 64 ∨ h = [] ∧ pc_prune_at pc = 0) →
      pc_channels pc' = h ++ [x] ∧ pc_prune_at pc' = 64
  | Err _ => pc' = pc
  end.
Proof.
  unfold push. intros Hp Hs. destruct (existsb _ _); [by simplify_eq|]. destruct (_ && _); [by simplify_eq|].
  destruct (foldl _ _ _) as [next elements]. cbn [pc_prune_at pc_channels] in Hp.
  destruct (pc_prune_at pc <=? length (pc_channels pc ++ [x])) eqn:El; injection Hp as <- <-.
  - intros Hlen (Hch & Hpr). rewrite Hch in *. apply Nat.leb_le in El.
    destruct Hpr as [E|(-> & E)]; [lia|]. cbn [prune pc_channels pc_prune_at app].
    rewrite filter_cons, decide_True; [done|]. apply orb_true_iff. left. by apply bool_decide_eq_true.
  - intros Hlen (Hch & Hpr). rewrite Hch in *. apply Nat.leb_gt in El. split; [done|]. cbn.
    destruct Hpr as [?|(-> & E)]; [done|]. rewrite E in El. lia.
Qed.
End inv.

Section steps.
Context (paths : list (list (option N))).
Abbreviation ps := (patterns_of paths).

Lemma entry_of_ok path slot node pat :
  resolve_in ps path = Some (node, pat) → Forall (λ i, i < usize_MAX)%N path →
  entry_of paths path slot = mkPending path pat slot (p_declared node) ∧ entry_ok ps (entry_of paths path slot).
Proof. intros Hr Hlt. unfold entry_of. rewrite Hr. split; [done|]. by exists node. Qed.

Lemma index_pending_phase A h iv node pat path :
  cinv ps A h iv → iv_root iv = None → resolve_in ps path = Some (node, pat) →
  Forall (λ i, i < usize_MAX)%N path → path ≠ [] →
  let x := entry_of paths path (iv_fresh iv) in
  let '(r, pending) := push ({[iv_fresh iv]} ∪ alive iv) x (iv_pending iv) in
  let v := match r with Ok _ => None | Err e => Some (Err e) end in
  let '(slot, iv1) := slot_new v (set_pending pending iv) in
  let '(ret, iv') := returned_channel path pat node slot iv1 in
  r = (spec_push A x h).1 ∧
  outcome ret iv' = (match r with Ok _ => Ok (iv_fresh iv) | Err e => Err e end) ∧
  match r with
  | Ok _ => cinv ps ({[iv_fresh iv]} ∪ A) (h ++ [x]) iv'
  | Err _ => cinv ps A h iv'
  end.
Proof.
  intros Hc Hn Hres Hlt Hp x. destruct (entry_of_ok path (iv_fresh iv) node pat Hres Hlt) as (Ex & Hx). fold x in Ex, Hx.
  pose proof (cv_phase _ _ _ _ Hc) as Hph. rewrite Hn in Hph.
  assert (new_slot h (iv_fresh iv)) as Hnew.
  { intros y Hy E. pose proof (cv_fresh _ _ _ _ Hc y Hy). lia. }
  assert (pd_slot x = iv_fresh iv) as Hs by (by rewrite Ex).
  destruct (push_sim ps ({[iv_fresh iv]} ∪ alive iv) (iv_pending iv) h x) as (Hr & Hsim);
    [apply sim_new_slot; [apply Hph|done]|done|set_solver|].
  rewrite (spec_push_ext ({[iv_fresh iv]} ∪ alive iv) A) in Hr, Hsim.
  2,3: intros y Hy; rewrite (cv_alive _ _ _ _ Hc y Hy), elem_of_union, elem_of_singleton;
    pose proof (Hnew y Hy); tauto.
  destruct (push _ x (iv_pending iv)) as [r pending] eqn:Epush.
  pose proof (push_channels _ _ _ h _ _ Epush ltac:(set_solver)) as Hch. cbn [fst snd] in Hr, Hsim.
  cbn [slot_new returned_channel set_pending iv_fresh].
  set (v := match r with Ok _ => None | Err e => Some (Err e) end).
  set (iv' := if p_declared node && is_concrete pat then _ else _).
  assert (returns iv x v iv') as Hret.
  { unfold iv'. rewrite Ex. destruct (p_declared node && is_concrete pat) eqn:E; split; try done;
      cbn [pd_declared pd_pattern]; by rewrite E. }
  assert (iv_root iv' = None ∧ iv_pending iv' = pending) as (Hn' & Epe).
  { unfold iv'. by destruct (p_declared node && is_concrete pat). }
  split; [done|]. split.
  { unfold outcome. cbn [ch_incoming]. rewrite (re_slots _ _ _ _ Hret), lookup_insert_eq. by destruct r. }
  clearbody iv'. pose proof (returns_alive _ _ _ _ Hret) as Hal.
  destruct (spec_push_cases ps A h x (cv_entries _ _ _ _ Hc) Hx) as [(Hg & E)|[(_ & Hw & E)|(Hg & Hw & E)]];
    rewrite E in Hr, Hsim; cbn [fst snd] in Hr, Hsim; subst r.
  1,2: subst pending; eapply cinv_refuse; [done|exact Hret|done|done|done|by auto|by rewrite Epe..|];
    by rewrite Hal, Epe.
  eapply cinv_accept; [done|exact Hret|done|by rewrite Ex| |].
  { eapply (spec_push_fits ps A); [apply Hc|done|by rewrite E]. }
  rewrite Hn'. split.
  - by rewrite Hal, Epe.
  - intros Hlen. rewrite Epe. destruct Hch as (Hch & Hpr); [done| |split; [done|by left]].
    apply (pk_channels _ _ _ Hph). rewrite length_app in Hlen. cbn in Hlen. lia.
  - rewrite (re_slots _ _ _ _ Hret). intros s sl id [(<- & <-)|(_ & Hsl)]%lookup_insert_Some; [done|].
    by eapply pk_values.
  - rewrite (re_slots _ _ _ _ Hret). intros y sl [Hy| ->%list_elem_of_singleton]%elem_of_app.
    + rewrite lookup_insert_ne by (by apply not_eq_sym, Hnew). by apply (pk_empty _ _ _ Hph).
    + rewrite Hs, lookup_insert_eq. by intros [= <-].
Qed.

(** *** After the transmission *)

(** Neither the handles nor the slots of the other channels change. *)
Lemma cinv_world A h iv w w' owner owner' :
  cinv ps A h iv → iv_root iv = Some (0%N, w) → transmitted_ok ps h iv w owner →
  conn_ok ps h owner' w' → owner' = owner →
  (∀ s id hd, owner !! s = Some id → w_handles w !! id = Some hd → w_handles w' !! id = Some hd) →
  cinv ps A h (set_root (Some (0%N, w')) iv).
Proof.
  intros Hc Hroot Ht Hco -> Hh. split; try apply Hc. cbn. split; [done|]. exists owner. split; [done|..].
  - apply (tk_owner _ _ _ _ _ Ht).
  - apply (tk_held _ _ _ _ _ Ht).
  - intros x id Hx Hd Hid. destruct (tk_rx _ _ _ _ _ Ht x id Hx Hd Hid) as (hd & Hhd & ?). exists hd. eauto.
Qed.

Lemma index_transmitted_phase A h iv w node pat path :
  cinv ps A h iv → iv_root iv = Some (0%N, w) → resolve_in ps path = Some (node, pat) →
  Forall (λ i, i < usize_MAX)%N path → path ≠ [] →
  let x := entry_of paths path (iv_fresh iv) in
  ∃ r w', Incoming_index 0 path w = Some (r, w') ∧
  match r with
  | Err e => agrees true (Err (A := N) e) (spec_push A x h).1 ∧ cinv ps A h (set_root (Some (0%N, w')) iv)
  | Ok id => ∃ b, Incoming_is_subscribed id w' = Some b ∧
      if p_declared node && negb b then
        (spec_push A x h).1 = Err AlreadyExists ∧
        ∃ w'', Incoming_drop id w' = Some w'' ∧ cinv ps A h (set_root (Some (0%N, w'')) iv)
      else
        (spec_push A x h).1 = Ok tt ∧
        let '(slot, iv1) := slot_new (Some (Ok id)) (set_root (Some (0%N, w')) iv) in
        let '(ret, iv') := returned_channel path pat node slot iv1 in
        outcome ret iv' = Ok (iv_fresh iv) ∧ cinv ps ({[iv_fresh iv]} ∪ A) (h ++ [x]) iv'
  end.
Proof.
  intros Hc Hroot Hres Hlt Hp x. destruct (entry_of_ok path (iv_fresh iv) node pat Hres Hlt) as (Ex & Hx). fold x in Ex, Hx.
  pose proof (cv_phase _ _ _ _ Hc) as Hph. rewrite Hroot in Hph. destruct Hph as (_ & owner & Ht).
  assert (∀ y, y ∈ h → pd_slot y ≠ iv_fresh iv) as Hnew.
  { intros y Hy E. pose proof (cv_fresh _ _ _ _ Hc y Hy). lia. }
  assert (pd_slot x = iv_fresh iv ∧ pd_path x = path ∧ pd_declared x = p_declared node) as (Hs & Hpx & Hdx) by (by rewrite Ex).
  assert (∀ y, y ∈ h → pd_slot y ∈ A ↔ pd_slot y ∈ dom owner) as Hdom.
  { intros y Hy. rewrite (cv_alive _ _ _ _ Hc y Hy). split; [by apply (tk_held _ _ _ _ _ Ht)|].
    intros (id & Hid)%elem_of_dom. apply (tk_owner _ _ _ _ _ Ht) in Hid as (sl & Hsl & _).
    unfold alive. apply elem_of_dom. eauto. }
  assert (owner !! iv_fresh iv = None) as Hno.
  { destruct (owner !! iv_fresh iv) as [id|] eqn:E; [|done]. apply (tk_owner _ _ _ _ _ Ht) in E as (sl & Hsl & _).
    pose proof (cv_fresh_slots _ _ _ _ Hc (iv_fresh iv) ltac:(apply elem_of_dom; eauto)). lia. }
  destruct (conn_index ps h owner w x (tk_conn _ _ _ _ _ Ht) Hx) as (r & w' & Ei & Hsub & Hr);
    [by rewrite Hpx|by rewrite Hs|]. rewrite Hpx in Ei. exists r, w'. split; [done|].
  pose proof (spec_push_cases ps A h x (cv_entries _ _ _ _ Hc) Hx) as Hcases.
  rewrite (gone_ext A (dom owner) h (pd_path x) Hdom) in Hcases.
  destruct r as [id|e].
  - destruct Hr as (Hg & _ & (b & Hb & Hbx & hd & Hhd & Hrx) & Hco). exists b. split; [done|].
    destruct Hcases as [(? & _)|[(_ & Hw & E)|(_ & Hw & E)]]; [done|..]; rewrite E; cbn [fst].
    + assert (b = false) as -> by (destruct b; [|done]; exfalso; by apply Hbx).
      pose proof Hw as (Hd & y & Hy & Ey). rewrite <- Hdx, Hd. cbn [andb negb]. split; [done|].
      destruct (conn_drop ps _ _ w' (pd_slot x) id Hco) as (w'' & Ed & Hh & Hco'); [apply lookup_insert_eq|].
      exists w''. split; [done|]. rewrite Hs in Hco'. rewrite delete_insert_id in Hco' by done.
      eapply cinv_world; [done|done|exact Ht| |done|].
      * eapply (conn_forget ps h x); [done|rewrite Hs; by apply not_elem_of_dom| |right; eauto].
        intros e He. exists y. split; [done|]. pose proof (cv_entries _ _ _ _ Hc) as Hh'. rewrite Forall_forall in Hh'.
        apply (elem_of_pd_elements ps y e (Hh' y Hy)). rewrite Ey. by apply (elem_of_pd_elements ps x e Hx).
      * intros s id' hd' Hid' Hhd'. rewrite Hh, lookup_delete_ne; [by eapply lookup_weaken|]. intros <-.
        assert (iv_fresh iv = s) as <-; [|congruence]. rewrite <- Hs. apply (co_inj _ _ _ _ Hco _ _ id); [apply lookup_insert_eq|].
        rewrite lookup_insert_ne; [done|]. rewrite Hs. intros <-. congruence.
    + assert (p_declared node && negb b = false) as ->.
      { rewrite <- Hdx. destruct (pd_declared x) eqn:Ed; [|done]. destruct b; [done|].
        exfalso. assert (false = true) by (by apply Hbx). done. }
      split; [done|]. cbn [slot_new returned_channel set_root iv_fresh].
      set (iv' := if p_declared node && is_concrete pat then _ else _).
      assert (returns iv x (Some (Ok id)) iv') as Hret.
      { unfold iv'. rewrite Ex. destruct (p_declared node && is_concrete pat) eqn:E'; split; try done;
          cbn [pd_declared pd_pattern]; by rewrite E'. }
      assert (iv_root iv' = Some (0%N, w')) as Hroot'.
      { unfold iv'. by destruct (p_declared node && is_concrete pat). }
      clearbody iv'. split.
      { unfold outcome. cbn [ch_incoming]. by rewrite (re_slots _ _ _ _ Hret), lookup_insert_eq. }
      eapply cinv_accept; [done|exact Hret|done|by rewrite Hpx| |].
      { eapply (spec_push_fits ps A); [apply Hc|done|by rewrite E]. }
      rewrite Hroot'. split; [done|]. rewrite Hs in Hco. exists (<[iv_fresh iv := id]> owner). split; [done|..].
      * intros s id'. rewrite (re_slots _ _ _ _ Hret).
        destruct (decide (s = iv_fresh iv)) as [->|Hne]; [rewrite !lookup_insert_eq; naive_solver|].
        rewrite !lookup_insert_ne by done. apply (tk_owner _ _ _ _ _ Ht).
      * intros y. rewrite (returns_alive _ _ _ _ Hret), dom_insert_L, !elem_of_union.
        intros [Hy| ->%list_elem_of_singleton]%elem_of_app [?|Hal]; try (by left); [right; by eapply tk_held|].
        rewrite Hs, elem_of_singleton. by left.
      * intros y id' [Hy| ->%list_elem_of_singleton]%elem_of_app Hdy.
        -- rewrite lookup_insert_ne by (by apply not_eq_sym, Hnew). intros Hid.
           destruct (tk_rx _ _ _ _ _ Ht y id' Hy Hdy Hid) as (hy & Hhy & ?). exists hy. split; [by eapply lookup_weaken|done].
        -- rewrite Hs, lookup_insert_eq. intros [= <-]. exists hd. split; [done|]. apply Hrx, Hbx. done.
  - destruct Hr as (-> & Hco & Hg). split.
    + destruct Hcases as [(? & E)|[(? & Hw & E)|(? & Hw & E)]]; rewrite E; cbn; [by left|by right|].
      destruct Hg as [?|(? & _)]; done.
    + eapply cinv_world; [done|done|exact Ht|done|done|]. intros s id hd _ Hhd. by eapply lookup_weaken.
Qed.

(** ** The operations *)

Definition index_spec (A : gset N) (h : list Pending) (path : list N) (o : io_result N) (b : bool)
    (iv' : IncomingInvocation) : Prop :=
  agrees b o (spec_index paths (A, h) path) ∧
  match o with
  | Ok s => cinv ps ({[s]} ∪ A) (h ++ [entry_of paths path s]) iv'
  | Err _ => cinv ps A h iv'
  end.

Lemma spec_index_resolved A h path slot node pat :
  resolve_in ps path = Some (node, pat) → Forall (λ i, i < usize_MAX)%N path →
  spec_index paths (A, h) path = (spec_push A (entry_of paths path slot) h).1.
Proof.
  intros Hr Hlt. unfold spec_index. rewrite Hr. apply spec_push_slot; unfold entry_of; by rewrite Hr.
Qed.

Lemma cinv_index A h iv ch path :
  cinv ps A h iv → path ≠ [] → Forall (λ i, i < usize_MAX)%N (ch_path ch ++ path) →
  ∃ r iv', IncomingChannel_index ch path iv = Some (r, iv') ∧
    index_spec A h (ch_path ch ++ path) (outcome r iv') (is_transmitted iv) iv'.
Proof.
  intros Hc Hp Hlt. unfold IncomingChannel_index. destruct path as [|i path0]; [done|].
  set (full := ch_path ch ++ i :: path0) in *. assert (full ≠ []) as Hfull by (unfold full; by destruct (ch_path ch)).
  rewrite (cv_patterns _ _ _ _ Hc). pose proof (channel_pattern_resolve ps full (proj2 (new_patterns paths))) as Hres.
  destruct (channel_pattern ps [] full) as [pat|]; cbn in Hres.
  2: { exists (Err error_undeclared), iv. split; [done|]. split; [|done]. unfold spec_index. rewrite <- Hres. by left. }
  destruct (ps !! pat) as [node|]; cbn in Hres.
  2: { exists (Err error_undeclared), iv. split; [done|]. split; [|done]. unfold spec_index. rewrite <- Hres. by left. }
  symmetry in Hres. pose proof (spec_index_resolved A h full (iv_fresh iv) node pat Hres Hlt) as Hspec.
  destruct (entry_of_ok full (iv_fresh iv) node pat Hres Hlt) as (Ex & Hx).
  destruct (p_declared node && is_concrete pat && bool_decide (pat ∈ iv_returned iv)) eqn:Eret.
  { exists (Err error_returned), iv. split; [done|]. split; [|done]. rewrite Hspec. cbn [outcome].
    apply andb_true_iff in Eret as ((Hd & Hcon)%andb_true_iff & Hin). apply bool_decide_eq_true in Hin.
    apply (cv_returned _ _ _ _ Hc pat Hcon) in Hin as (y & Hy & Ey & Hdy).
    pose proof (cv_entries _ _ _ _ Hc) as Hh. rewrite Forall_forall in Hh.
    set (x := entry_of paths full (iv_fresh iv)) in *.
    assert (is_concrete (pd_pattern x) = true) as Hcx by (by rewrite Ex).
    destruct (spec_push_cases ps A h x (cv_entries _ _ _ _ Hc) Hx) as [(Hg & E)|[(_ & _ & E)|(_ & Hw & E)]]; rewrite E.
    - by destruct (concrete_not_gone ps A h x (cv_entries _ _ _ _ Hc) Hx Hcx).
    - by left.
    - destruct Hw. split; [by rewrite Ex|]. exists y. split; [done|].
      apply (pattern_path ps x y Hx (Hh y Hy) Hcx). by rewrite Ex. }
  unfold index_spec, is_transmitted. destruct (iv_root iv) as [[root w]|] eqn:Hroot.
  - pose proof (cv_phase _ _ _ _ Hc) as Hph. rewrite Hroot in Hph. destruct Hph as (-> & _).
    destruct (index_transmitted_phase A h iv w node pat full Hc Hroot Hres Hlt Hfull) as (r & w' & -> & Hr). cbn [mbind option_bind].
    rewrite Hspec. destruct r as [id|e].
    + destruct Hr as (b & -> & Hr). cbn [mbind option_bind]. destruct (p_declared node && negb b).
      * destruct Hr as (-> & w'' & -> & Hc'). eexists _, _. split; [done|]. split; [by left|done].
      * destruct Hr as (-> & Hr). destruct (slot_new _ _) as [slot iv1]. destruct (returned_channel _ _ _ _ _) as [ret iv'].
        destruct Hr as (Ho & Hc'). exists ret, iv'. split; [done|]. by rewrite Ho.
    + destruct Hr as (Ha & Hc'). eexists _, _. split; [done|]. by split.
  - pose proof (index_pending_phase A h iv node pat full Hc Hroot Hres Hlt Hfull) as Hr. cbn zeta in Hr |- *.
    rewrite <- Ex. revert Hr. destruct (push _ _ _) as [r pending]. destruct (slot_new _ _) as [slot iv1].
    destruct (returned_channel _ _ _ _ _) as [ret iv']. intros Hr. destruct Hr as (Hr & Ho & Hc'). exists ret, iv'. split; [done|].
    rewrite Ho, Hspec, <- Hr. destruct r as [[]|e]; [done|]. split; [by left|done].
Qed.

Lemma cinv_drop A h iv s iv' :
  cinv ps A h iv → slot_drop s iv = Some iv' → cinv ps (A ∖ {[s]}) h iv'.
Proof.
  intros Hc. unfold slot_drop. destruct (iv_slots iv !! s) as [sl|] eqn:Es; [|done]. cbn.
  rewrite (cv_strong _ _ _ _ Hc s sl Es).
  assert (∀ root, match root with
    | None => pending_ok ps h (set_slots (delete s (iv_slots iv)) iv)
    | Some (r, w) => r = 0%N ∧ ∃ owner, transmitted_ok ps h (set_slots (delete s (iv_slots iv)) iv) w owner end →
    cinv ps (A ∖ {[s]}) h (set_root root (set_slots (delete s (iv_slots iv)) iv))) as Hgen.
  { intros root Hph. split; try apply Hc.
    - intros s' Hs'. apply (cv_fresh_slots _ _ _ _ Hc). unfold alive in *. cbn in Hs'. rewrite dom_delete_L in Hs'. set_solver.
    - cbn. intros s' sl' (_ & Hsl)%lookup_delete_Some. by eapply cv_strong.
    - intros x Hx. unfold alive. cbn. rewrite dom_delete_L, !elem_of_difference, (cv_alive _ _ _ _ Hc x Hx). done.
    - cbn. destruct root as [[r w]|].
      + destruct Hph as (-> & owner & Ht). split; [done|]. exists owner. split; apply Ht.
      + split; apply Hph. }
  assert (∀ iv, set_root (iv_root iv) iv = iv) as Hid by (by intros []).
  pose proof (cv_phase _ _ _ _ Hc) as Hph. destruct (iv_root iv) as [[root w]|] eqn:Hroot.
  - destruct Hph as (-> & owner & Ht). destruct (sl_value sl) as [[id|e]|] eqn:Ev; cbn; rewrite ?Hroot; cbn.
    { assert (owner !! s = Some id) as Ho by (apply (tk_owner _ _ _ _ _ Ht); eauto).
      destruct (conn_drop ps h owner w s id (tk_conn _ _ _ _ _ Ht) Ho) as (w' & -> & Hh & Hco). cbn. intros [= <-].
      apply (Hgen (Some (0%N, w'))). split; [done|]. exists (delete s owner). split; [done|..]; cbn [set_slots iv_slots].
      - intros s' id'. destruct (decide (s' = s)) as [->|Hne]; [rewrite !lookup_delete_eq; naive_solver|].
        rewrite !lookup_delete_ne by done. apply (tk_owner _ _ _ _ _ Ht).
      - intros x Hx. unfold alive. cbn. rewrite !dom_delete_L, !elem_of_difference.
        intros (? & ?). split; [by eapply tk_held|done].
      - intros x id' Hx Hd (Hne & Hid')%lookup_delete_Some. destruct (tk_rx _ _ _ _ _ Ht x id' Hx Hd Hid') as (hd & Hhd & ?).
        exists hd. split; [|done]. rewrite Hh, lookup_delete_ne; [done|]. intros <-.
        apply Hne. by apply (co_inj _ _ _ _ (tk_conn _ _ _ _ _ Ht) _ _ id). }
    all: intros [= <-]; rewrite <- Hid; cbn [set_slots iv_root]; rewrite Hroot; apply Hgen; (split; [done|]);
      exists owner; (assert (owner !! s = None) as Hno by (destruct (owner !! s) as [id|] eqn:E; [|done];
        apply (tk_owner _ _ _ _ _ Ht) in E as (sl' & ? & ?); congruence)); split; try apply Ht; cbn.
    all: try (intros s' id; destruct (decide (s' = s)) as [->|Hne];
      [rewrite lookup_delete_eq, Hno; naive_solver|rewrite lookup_delete_ne by done; apply (tk_owner _ _ _ _ _ Ht)]).
    all: intros x Hx; unfold alive; cbn; rewrite dom_delete_L, elem_of_difference; intros (? & _); by eapply tk_held.
  - assert (∀ iv0, match sl_value sl with Some r => handle_drop r iv0 | None => Some iv0 end = Some iv0) as ->.
    { intros iv0. destruct (sl_value sl) as [[id|e]|] eqn:Ev; [|done..]. by destruct (pk_values _ _ _ Hph s sl id). }
    intros [= <-]. rewrite <- Hid. cbn [set_slots iv_root]. rewrite Hroot. apply Hgen. split; cbn.
    + unfold alive. cbn. rewrite dom_delete_L. apply sim_drop, Hph.
    + apply (pk_channels _ _ _ Hph).
    + intros s' sl' id (_ & Hsl)%lookup_delete_Some. by eapply pk_values.
    + intros x sl' Hx (_ & Hsl)%lookup_delete_Some. by eapply pk_empty.
Qed.

(** What [set] leaves in the slots *)
Lemma filled_owner h iv owner s id :
  dom owner = slots_of h ∩ alive iv → (∀ s sl id, iv_slots iv !! s = Some sl → sl_value sl ≠ Some (Ok id)) →
  owner !! s = Some id ↔ ∃ sl, map_imap (λ s sl, Some (filled owner h s sl)) (iv_slots iv) !! s = Some sl ∧
    sl_value sl = Some (Ok id).
Proof.
  intros Hd Hv. rewrite map_lookup_imap. split.
  - intros Ho. assert (s ∈ slots_of h ∩ alive iv) as (Hs & Ha)%elem_of_intersection.
    { rewrite <- Hd. apply elem_of_dom. eauto. }
    unfold alive in Ha. apply elem_of_dom in Ha as (sl & Hsl). rewrite Hsl. cbn. eexists. split; [done|].
    unfold filled. rewrite decide_True by done. cbn. by rewrite Ho.
  - destruct (iv_slots iv !! s) as [sl|] eqn:Es; cbn; [|naive_solver]. intros (sl' & [= <-] & Hval). revert Hval.
    unfold filled. destruct (decide _); cbn; [|intros E; by destruct (Hv s sl id)].
    destruct (owner !! s); cbn; by intros [= ->].
Qed.

Lemma filled_alive h iv owner root pc :
  alive (set_root root (set_pending pc (set_slots (map_imap (λ s sl, Some (filled owner h s sl)) (iv_slots iv)) iv))) = alive iv.
Proof.
  unfold alive. cbn. apply set_eq. intros s. rewrite !elem_of_dom, map_lookup_imap.
  by destruct (iv_slots iv !! s); cbn; split; intros [? ?].
Qed.

(** [set] of the channels of the history *)
Lemma cinv_set A h iv w :
  cinv ps A h iv → iv_root iv = None → length h < 64 → conn_ok ps [] ∅ w →
  ∃ iv', IncomingRoot_set 0 w iv = Some iv' ∧ iv_transmission iv' = iv_transmission iv ∧ cinv ps A h iv' ∧ is_Some (iv_root iv').
Proof.
  intros Hc Hroot Hlen Hw. pose proof (cv_phase _ _ _ _ Hc) as Hph. rewrite Hroot in Hph.
  destruct (pk_channels _ _ _ Hph Hlen) as (Hch & _).
  destruct (set_ok ps h iv w) as (w' & owner & E & Hco & Hd & Hrx); [apply Hph|done|apply Hc|apply Hc|apply Hc|done|].
  eexists. split; [exact E|]. split; [done|]. split; [|done]. pose proof (filled_alive h iv owner (Some (0%N, w')) PendingChannels_default) as Hal.
  split; try apply Hc.
  - intros s. rewrite Hal. apply (cv_fresh_slots _ _ _ _ Hc).
  - cbn. intros s sl. rewrite map_lookup_imap. destruct (iv_slots iv !! s) as [sl0|] eqn:Es; [|done]. intros [= <-].
    unfold filled. pose proof (cv_strong _ _ _ _ Hc s sl0 Es). by destruct (decide _).
  - intros x Hx. rewrite Hal. by apply (cv_alive _ _ _ _ Hc).
  - cbn. split; [done|]. exists owner. split; [done|..].
    + intros s id. by apply filled_owner; [|apply Hph].
    + intros x Hx. rewrite Hal, Hd. intros Ha. apply elem_of_intersection. split; [|done]. apply elem_of_slots_of. eauto.
    + intros x id Hx Hdx Hid. destruct (Hrx x Hx Hdx) as (id' & hd & ? & ? & ?); [|exists hd; naive_solver].
      assert (pd_slot x ∈ dom owner) as Hin by (apply elem_of_dom; eauto). rewrite Hd in Hin. set_solver.
Qed.

Lemma cinv_transmission A h iv t : cinv ps A h iv → cinv ps A h (set_transmission t iv).
Proof.
  intros Hc. split; try apply Hc. pose proof (cv_phase _ _ _ _ Hc) as Hph. cbn.
  destruct (iv_root iv) as [[root w]|]; [|split; apply Hph].
  destruct Hph as (-> & owner & Ht). split; [done|]. exists owner. split; apply Ht.
Qed.

Lemma cinv_new : cinv ps ∅ [] (IncomingChannel_new paths).2.
Proof.
  split.
  - apply new_patterns.
  - constructor.
  - apply hist_ok_nil.
  - constructor.
  - by intros x ?%not_elem_of_nil.
  - intros pattern _. split; [set_solver|]. by intros (x & ?%not_elem_of_nil & _).
  - by intros x ?%not_elem_of_nil.
  - intros s. unfold alive. cbn. rewrite dom_singleton_L, elem_of_singleton. lia.
  - cbn. by intros s sl (_ & <-)%lookup_singleton_Some.
  - by intros x ?%not_elem_of_nil.
  - cbn. split; cbn.
    + unfold alive. cbn. rewrite dom_singleton_L.
      assert (sim ps ({[0%N]} ∪ ∅) PendingChannels_default []) as Hs.
      { apply sim_new_slot; [apply sim_default|]. by intros x ?%not_elem_of_nil. }
      by rewrite union_empty_r_L in Hs.
    + intros _. split; [done|]. by right.
    + intros s sl id (_ & <-)%lookup_singleton_Some. done.
    + by intros x sl ?%not_elem_of_nil.
Qed.

(** ** Executions *)

Context `{Leb128} (cap : N).

Lemma conn_runs rx w :
  compatible paths → rtc (task_runs cap) (Incoming_new paths rx) w → conn_ok ps [] ∅ w.
Proof.
  intros Hc Hr. assert (conn_ok ps [] ∅ (Incoming_new paths rx)) as Hi by (by apply (conn_init ps paths rx)).
  revert Hi. induction Hr as [|w1 w2 w3 (ev & Hs) _ IH]; [done|]. intros Hi. apply IH. by eapply conn_task.
Qed.

Lemma history_snoc tr l : history paths (tr ++ [l]) = hist_step paths (history paths tr) l.
Proof. unfold history. by rewrite foldl_app. Qed.

Lemma returned_before_snoc tr l : returned_before tr ≤ returned_before (tr ++ [l]).
Proof. induction tr as [|[? []| | | |] tr IH]; cbn; lia. Qed.

Lemma returned_before_count tr l :
  LTransmit ∉ tr → returned_before (tr ++ [l]) = returned_before tr + match l with LIndex _ (Ok _) => 1 | _ => 0 end.
Proof.
  induction tr as [|k tr IH]; intros Hn; [by destruct l as [? []| | | |]|]. rewrite not_elem_of_cons in Hn.
  destruct Hn as (Hk & Hn). specialize (IH Hn). by destruct k as [? []| | | |]; cbn; rewrite ?IH.
Qed.

(** Indexing does not change the transmission. *)
Lemma index_frame ch path iv r iv' :
  IncomingChannel_index ch path iv = Some (r, iv') →
  iv_transmission iv' = iv_transmission iv ∧ (iv_root iv' = None ↔ iv_root iv = None).
Proof.
  assert (∀ p pat node slot iv0, iv_transmission (returned_channel p pat node slot iv0).2 = iv_transmission iv0 ∧
    iv_root (returned_channel p pat node slot iv0).2 = iv_root iv0) as Hret.
  { intros p pat node slot iv0. unfold returned_channel. by destruct (_ && _). }
  unfold IncomingChannel_index. destruct path as [|i path]; [by intros [= <- <-]|].
  destruct (channel_pattern _ _ _) as [pat|]; [|by intros [= <- <-]].
  destruct (iv_patterns iv !! pat) as [node|]; [|by intros [= <- <-]]. destruct (_ && _); [by intros [= <- <-]|].
  destruct (iv_root iv) as [[root w]|] eqn:Hroot.
  - destruct (Incoming_index _ _ w) as [[[id|e] w']|]; cbn; [|by intros [= <- <-]|done].
    destruct (Incoming_is_subscribed id w') as [b|]; cbn; [|done]. destruct (_ && _).
    + destruct (Incoming_drop id w') as [w''|]; cbn; [|done]. by intros [= <- <-].
    + intros [= <- <-]. by destruct (p_declared node && is_concrete pat).
  - destruct (push _ _ _) as [r0 pending]. cbn. intros [= <- <-]. by destruct (p_declared node && is_concrete pat).
Qed.

Lemma handle_drop_frame v iv iv' :
  handle_drop v iv = Some iv' → iv_transmission iv' = iv_transmission iv ∧ (iv_root iv' = None ↔ iv_root iv = None).
Proof.
  destruct v as [id|e]; cbn; [|by intros [= <-]]. destruct (iv_root iv) as [[root w]|] eqn:E; cbn; [|done].
  destruct (Incoming_drop id w) as [w'|]; cbn; [|done]. by intros [= <-].
Qed.

Lemma slot_drop_frame s iv iv' :
  slot_drop s iv = Some iv' → iv_transmission iv' = iv_transmission iv ∧ (iv_root iv' = None ↔ iv_root iv = None).
Proof.
  unfold slot_drop. destruct (iv_slots iv !! s) as [sl|]; cbn; [|done].
  destruct (sl_strong sl) as [|[|n]]; [| |by intros [= <-]];
    (destruct (sl_value sl) as [v|]; [|by intros [= <-]]); intros (-> & ->)%handle_drop_frame; done.
Qed.

Lemma exec_inv tr iv :
  compatible paths → exec cap paths tr iv → returned_before tr < 64 →
  cinv ps (history paths tr).1 (history paths tr).2 iv ∧ (iv_transmission iv = NotYet → iv_root iv = None) ∧
  (iv_root iv = None → LTransmit ∉ tr ∧ returned_before tr = length (history paths tr).2).
Proof.
  intros Hcomp He. induction He as [|tr iv ch path r iv' He IH Hp Hlt Ei|tr iv s iv' He IH Ed|tr iv rx w iv' He IH Hn Hr Et
    |tr iv iv' He IH Hn Et|tr iv w w' He IH Hroot (ev & Hs)]; intros Hlen.
  { split; [apply cinv_new|]. cbn. split; [done|]. intros _. split; [apply not_elem_of_nil|done]. }
  all: match type of Hlen with returned_before (_ ++ [?l]) < _ => pose proof (returned_before_snoc tr l) as Hle end.
  all: destruct IH as (Hc & Hny & Hcnt); [lia|].
  all: rewrite history_snoc; destruct (history paths tr) as [A h] eqn:Eh; cbn [hist_step fst snd] in *.
  - destruct (cinv_index A h iv ch path Hc Hp Hlt) as (r0 & iv0 & E0 & _ & Hc'). rewrite Ei in E0. injection E0 as <- <-.
    destruct (index_frame _ _ _ _ _ Ei) as (Et & Er). rewrite Et, Er. split; [|split; [done|]].
    + by destruct (outcome r iv').
    + intros Hroot. destruct (Hcnt Hroot) as (Hni & Hl). split; [set_solver|]. rewrite returned_before_count, Hl by done.
      destruct (outcome r iv'); cbn; rewrite ?length_app; cbn; lia.
  - destruct (slot_drop_frame _ _ _ Ed) as (Et & Er). rewrite Et, Er. split; [by eapply cinv_drop|]. split; [done|].
    intros Hroot. destruct (Hcnt Hroot) as (Hni & Hl). split; [set_solver|]. rewrite returned_before_count, Hl by done. lia.
  - specialize (Hny Hn). destruct (Hcnt Hny) as (Hni & Hl). rewrite returned_before_count, Hl in Hlen by done.
    destruct (cinv_set A h iv w Hc Hny) as (iv1 & E1 & Et1 & Hc1 & Hr1); [lia|by eapply conn_runs|].
    unfold transmit in Et. rewrite E1 in Et. cbn in Et. injection Et as <-. split; [by apply cinv_transmission|].
    split; [done|]. cbn. intros E. rewrite E in Hr1. by destruct Hr1.
  - cbn in Et. injection Et as <-. split; [by apply cinv_transmission|]. split; [done|]. cbn. intros Hroot.
    destruct (Hcnt Hroot) as (Hni & Hl). split; [set_solver|]. rewrite returned_before_count, Hl by done. lia.
  - split; [|split; [|done]].
    + pose proof (cv_phase _ _ _ _ Hc) as Hph. rewrite Hroot in Hph. destruct Hph as (_ & owner & Ht).
      eapply cinv_world; [done|done|exact Ht|eapply conn_task; [apply Ht|exact Hs]|done|].
      destruct (co_root _ _ _ _ (tk_conn _ _ _ _ _ Ht)) as (hr & Hhr & _).
      destruct (quiet_task_step ps cap w ev w' Hs) as (_ & ->); [|done]. intros E. by rewrite E in Hhr.
    + cbn. intros E. apply Hny in E. congruence.
Qed.
End steps.
