(* ===== verification/RpcStd.v ===== *)
(** * What the channels of an invocation promise

    The theorems on the channels of [crates/wasmtime/src/rpc/mod.rs] and their
    witnesses: executions of invocations ([RpcSpec.exec]) which are computed by
    [run_ops]. *)

From S2P Require Import Prelude Wire FrameCodec Subscriptions Resolve SubsInv Elements Conn ConnInv.
From S2P Require Import WasmCodec WasmCall Channels RpcChannels ChannelsSpec Mirror RpcConn RpcSet RpcSpec.

(** The data of a channel is available: the handle of its position, which reads
    the data. *)
Definition data_ready (path : list N) (d : Deferred) (iv : IncomingInvocation) : Prop :=
  ∃ reader d' iv' root w hd,
    Deferred_poll_ready d iv = Some (Some (Ok reader), d', iv') ∧ iv_root iv' = Some (root, w) ∧
    w_handles w !! reader = Some hd ∧ in_path hd = path ∧ is_Some (in_rx hd).

(** The channel of an entry of the history *)
Definition channel_of (x : Pending) : IncomingChannel :=
  mkIncomingChannel (pd_path x) (pd_slot x) (pd_declared x) false.

Section available.
Context `{Leb128} (cap : N) (paths : list (list (option N))).
Abbreviation ps := (patterns_of paths).

Lemma take_reader_ok w id hd :
  w_handles w !! id = Some hd → is_Some (in_rx hd) →
  ∃ reader w' hd', Incoming_take_reader id w = Some (Some reader, w') ∧ w_handles w' !! reader = Some hd' ∧
    in_path hd' = in_path hd ∧ is_Some (in_rx hd').
Proof.
  intros Hid (rx & Hrx). unfold Incoming_take_reader. rewrite Hid. cbn. rewrite Hrx.
  eexists _, _, _. split; [done|]. cbn. rewrite lookup_insert_eq. split; [done|]. by split.
Qed.

(** The data of a channel which is held, once there is a connection *)
Lemma take_data_transmitted A h iv w owner x :
  cinv ps A h iv → iv_root iv = Some (0%N, w) → transmitted_ok ps h iv w owner →
  x ∈ h → pd_slot x ∈ alive iv → pd_declared x = true →
  ∃ d ch iv', IncomingChannel_take_data (channel_of x) iv = Some (Ok d, ch, iv') ∧ data_ready (pd_path x) d iv'.
Proof.
  intros Hc Hroot Ht Hx Ha Hd. pose proof (tk_held _ _ _ _ _ Ht x Hx Ha) as Ho. apply elem_of_dom in Ho as (id & Ho).
  destruct (tk_rx _ _ _ _ _ Ht x id Hx Hd Ho) as (hd & Hhd & Hrx).
  destruct (co_owner _ _ _ _ (tk_conn _ _ _ _ _ Ht) _ _ Ho) as (_ & y & hy & Hy & Ey & Hhy & Hpy).
  rewrite Hhd in Hhy. injection Hhy as <-.
  rewrite (NoDup_slot h y x (cv_nodup _ _ _ _ Hc) Hy Hx Ey) in Hpy.
  apply (tk_owner _ _ _ _ _ Ht) in Ho as (sl & Hsl & Hv).
  destruct (take_reader_ok w id hd Hhd Hrx) as (reader & w' & hd' & Et & Hr & Hp & Hrx').
  unfold IncomingChannel_take_data, channel_of. cbn [ch_data_taken ch_declared ch_path ch_incoming]. rewrite Hd.
  cbn [negb]. pose proof (cv_paths _ _ _ _ Hc x Hx) as Hne. destruct (pd_path x) as [|i p] eqn:Ep; [done|].
  unfold take_reader. rewrite Hsl. cbn. rewrite Hv, Hroot. cbn. rewrite Et. cbn.
  eexists _, _, _. split; [done|]. exists reader. eexists _, _, _, _, hd'. split; [done|]. cbn.
  split; [done|]. split; [done|]. split; [congruence|done].
Qed.

(** Before the connection, the future waits for it. *)
Lemma take_data_pending A h iv x :
  cinv ps A h iv → iv_root iv = None → x ∈ h → pd_slot x ∈ alive iv → pd_declared x = true → length h < 64 →
  ∃ ch iv', IncomingChannel_take_data (channel_of x) iv = Some (Ok (DeferredPending (FutSlot (pd_slot x))), ch, iv') ∧
    ∀ w, conn_ok ps [] ∅ w → ∃ iv'', transmit (Some (0%N, w)) iv' = Some iv'' ∧
      data_ready (pd_path x) (DeferredPending (FutSlot (pd_slot x))) iv''.
Proof.
  intros Hc Hroot Hx Ha Hd Hlen. pose proof (cv_phase _ _ _ _ Hc) as Hph. rewrite Hroot in Hph.
  pose proof Ha as Ha'. unfold alive in Ha'. apply elem_of_dom in Ha' as (sl & Hsl).
  pose proof (cv_strong _ _ _ _ Hc _ _ Hsl) as Hst. pose proof (pk_empty _ _ _ Hph x sl Hx Hsl) as Hv.
  unfold IncomingChannel_take_data, channel_of. cbn [ch_data_taken ch_declared ch_path ch_incoming]. rewrite Hd.
  cbn [negb]. pose proof (cv_paths _ _ _ _ Hc x Hx) as Hne. destruct (pd_path x) as [|i p] eqn:Ep; [done|].
  rewrite <- Ep in *. unfold take_reader. rewrite Hsl. cbn. rewrite Hv. cbn. unfold slot_clone. rewrite Hsl. cbn.
  rewrite Hst, Hv. eexists _, _. split; [done|]. intros w Hw.
  set (iv' := set_slots _ iv).
  assert (alive iv' = alive iv) as Hal.
  { unfold alive, iv'. cbn. rewrite dom_insert_L. unfold alive in Ha. set_solver. }
  destruct (set_ok ps h iv' w) as (w' & owner & E & Hco & Hdo & Hrx).
  { rewrite Hal. apply Hph. }
  { by apply (pk_channels _ _ _ Hph). }
  { apply Hc. }
  { apply Hc. }
  { apply Hc. }
  { done. }
  unfold transmit. rewrite E. cbn. eexists. split; [done|].
  destruct (Hrx x Hx Hd) as (id & hd & Ho & Hhd & Hrxd); [by rewrite Hal|].
  destruct (co_owner _ _ _ _ Hco _ _ Ho) as (_ & y & hy & Hy & Ey & Hhy & Hpy). rewrite Hhd in Hhy. injection Hhy as <-.
  rewrite (NoDup_slot h y x (cv_nodup _ _ _ _ Hc) Hy Hx Ey) in Hpy.
  destruct (take_reader_ok w' id hd Hhd Hrxd) as (reader & w'' & hd' & Et & Hr & Hp & Hrx').
  unfold data_ready, Deferred_poll_ready, future_poll, take_reader, slot_drop. cbn. rewrite map_lookup_imap. cbn.
  rewrite lookup_insert_eq. cbn. unfold filled. rewrite decide_True by (apply elem_of_slots_of; eauto). cbn. rewrite Ho.
  cbn. rewrite Et. cbn. rewrite map_lookup_imap, lookup_insert_eq. cbn. rewrite decide_True by (apply elem_of_slots_of; eauto).
  cbn. rewrite Ho. cbn. eexists _, _, _, _, _, hd'. split; [done|]. cbn. split; [done|]. split; [done|].
  split; [congruence|done].
Qed.

(** ** Properties *)

(** [C18] Indexing a channel behaves the same before and after the invocation is
    transmitted, as long as fewer than 64 channels were returned before the
    transmission and the declared paths are compatible: in every such execution,
    whichever channels were returned and dropped and whatever was received, a
    channel is returned exactly if the history of the channels demands it, and is
    refused otherwise.  The error is the one of the specification before the
    transmission; after it, [NotFound] may be reported in place of
    [AlreadyExists]. *)
Theorem index_by_history tr iv ch path :
  compatible paths → exec cap paths tr iv → returned_before tr < 64 → path ≠ [] →
  Forall (λ i, i < usize_MAX)%N (ch_path ch ++ path) →
  ∃ r iv', IncomingChannel_index ch path iv = Some (r, iv') ∧
    agrees (is_transmitted iv) (outcome r iv') (spec_index paths (history paths tr) (ch_path ch ++ path)).
Proof.
  intros Hcomp He Hlen Hp Hlt. destruct (exec_inv paths cap tr iv Hcomp He Hlen) as (Hc & _).
  destruct (history paths tr) as [A h].
  destruct (cinv_index paths A h iv ch path Hc Hp Hlt) as (r & iv' & E & Ha & _). eauto.
Qed.

(** [C19] The data of a channel becomes available, as long as fewer than 64
    channels were returned before the transmission and the declared paths are
    compatible: taking the data of a declared channel which was returned and is
    held succeeds in every state of such an execution; if the invocation was transmitted then the future is complete, and
    otherwise it completes once the invocation is transmitted, in both cases with
    a handle which reads the data of the position of the channel. *)
Theorem channel_data_available tr iv x rx w :
  compatible paths → exec cap paths tr iv → returned_before tr < 64 →
  x ∈ (history paths tr).2 → pd_slot x ∈ (history paths tr).1 → pd_declared x = true →
  rtc (task_runs cap) (Incoming_new paths rx) w →
  ∃ d ch iv', IncomingChannel_take_data (channel_of x) iv = Some (Ok d, ch, iv') ∧
    if iv_root iv is Some _ then data_ready (pd_path x) d iv'
    else ∃ iv'', transmit (Some (0%N, w)) iv' = Some iv'' ∧ data_ready (pd_path x) d iv''.
Proof.
  intros Hcomp He Hlen Hx Hs Hd Hw. destruct (exec_inv paths cap tr iv Hcomp He Hlen) as (Hc & _ & Hcnt).
  destruct (history paths tr) as [A h]. cbn [fst snd] in *. apply (cv_alive _ _ _ _ Hc x Hx) in Hs.
  pose proof (cv_phase _ _ _ _ Hc) as Hph. destruct (iv_root iv) as [[root w0]|] eqn:Hroot.
  - destruct Hph as (-> & owner & Ht). by eapply take_data_transmitted.
  - destruct (Hcnt eq_refl) as (_ & Hl). destruct (take_data_pending A h iv x) as (ch & iv' & E & Ht); try done; [lia|].
    eexists _, ch, iv'. split; [exact E|]. apply Ht. by eapply conn_runs.
Qed.
End available.

(** ** Computed executions *)

(** Operations on the channel of the root; the connection has received nothing
    yet. *)
Inductive cop := CIndex (path : list N) | CDrop (slot : N) | CTransmit.

Section run_ops.
Context `{Leb128} (cap : N) (paths : list (list (option N))).

Definition root_channel : IncomingChannel := (IncomingChannel_new paths).1.

Definition run_op (o : cop) (iv : IncomingInvocation) : option (label * IncomingInvocation) :=
  match o with
  | CIndex path =>
      if bool_decide (path ≠ [] ∧ Forall (λ i, i < usize_MAX)%N path) then
        '(r, iv) ← IncomingChannel_index root_channel path iv; Some (LIndex path (outcome r iv), iv)
      else None
  | CDrop slot => iv ← slot_drop slot iv; Some (LDrop slot, iv)
  | CTransmit =>
      match iv_transmission iv with
      | NotYet => iv ← transmit (Some (0%N, Incoming_new paths [])) iv; Some (LTransmit, iv)
      | _ => None
      end
  end.

Fixpoint run_ops (ops : list cop) (iv : IncomingInvocation) : option (list label * IncomingInvocation) :=
  match ops with
  | [] => Some ([], iv)
  | o :: ops => '(l, iv) ← run_op o iv; '(tr, iv) ← run_ops ops iv; Some (l :: tr, iv)
  end.

Lemma run_op_exec o tr iv l iv' :
  exec cap paths tr iv → run_op o iv = Some (l, iv') → exec cap paths (tr ++ [l]) iv'.
Proof.
  intros He. destruct o as [path|slot|]; cbn [run_op].
  - case_bool_decide as Hp; [|done]. destruct Hp as (Hp & Hlt).
    destruct (IncomingChannel_index root_channel path iv) as [[r iv1]|] eqn:E; cbn; [|done]. intros [= <- <-].
    by apply (exec_index cap paths tr iv root_channel path r iv1).
  - destruct (slot_drop slot iv) as [iv1|] eqn:E; cbn; [|done]. intros [= <- <-]. by eapply exec_drop.
  - destruct (iv_transmission iv) eqn:Et; [|done..]. destruct (transmit _ iv) as [iv1|] eqn:E; cbn [mbind option_bind]; [|done].
    intros [= <- <-]. by eapply exec_transmit.
Qed.

Lemma run_ops_exec ops tr iv tr' iv' :
  exec cap paths tr iv → run_ops ops iv = Some (tr', iv') → exec cap paths (tr ++ tr') iv'.
Proof.
  revert tr iv tr'. induction ops as [|o ops IH]; intros tr iv tr' He; cbn [run_ops].
  { intros [= <- <-]. by rewrite app_nil_r. }
  destruct (run_op o iv) as [[l iv1]|] eqn:Eo; cbn; [|done].
  destruct (run_ops ops iv1) as [[tr2 iv2]|] eqn:Er; cbn; [|done]. intros [= <- <-].
  rewrite cons_middle, app_assoc. eapply IH; [|exact Er]. by eapply run_op_exec.
Qed.

Definition run_new (ops : list cop) : option (list label * IncomingInvocation) :=
  run_ops ops (IncomingChannel_new paths).2.

Lemma run_new_exec ops tr iv : run_new ops = Some (tr, iv) → exec cap paths tr iv.
Proof. intros Hr. change tr with ([] ++ tr). eapply run_ops_exec; [apply exec_new|exact Hr]. Qed.
End run_ops.

(** ** Channels are pruned *)

(** A list of elements, each with two asynchronous values *)
Definition prune_paths : list (list (option N)) := [[None; Some 0]; [None; Some 1]]%N.

(** The channel of an element, which is not declared, is dropped while a channel
    within it is held; later channels make it pruned. *)
Definition prune_ops : list cop :=
  [CIndex [3]; CIndex [5]; CIndex [3; 0]; CDrop 1]%N ++ ((λ i, CIndex [N.of_nat i]) <$> seq 6 61) ++ [CTransmit].

Definition prune_run : option (list label * IncomingInvocation) := run_new prune_paths prune_ops.

(** [C33] A channel may lose its position: there is an execution in which a
    declared channel was returned before the transmission and is held, but whose
    data fails as not found once the invocation is transmitted.  64 channels were
    returned by then: [prune] forgot the dropped channel of the element the channel
    is within, so that [set] indexes a later element first and is refused the
    channel. *)
Theorem prune_breaks_channel `{Leb128} cap :
  ∃ tr iv x ch, exec cap prune_paths tr iv ∧ x ∈ (history prune_paths tr).2 ∧
    pd_slot x ∈ (history prune_paths tr).1 ∧ pd_declared x = true ∧ iv_transmission iv = Transmitted ∧
    IncomingChannel_take_data (channel_of x) iv = Some (Ok (DeferredPending (FutReady (Err NotFound))), ch,
      set_slots (<[pd_slot x := mkSlot 1 None]> (iv_slots iv)) iv).
Proof.
  destruct prune_run as [[tr iv]|] eqn:E; [|by vm_compute in E].
  exists tr, iv, (entry_of prune_paths [3; 0]%N 3%N), (mkIncomingChannel [3; 0]%N 3%N true true).
  split; [by eapply run_new_exec|]. vm_compute in E. injection E as <- <-.
  split; [by apply (list_elem_of_lookup_2 _ 2)|].
  split; [apply (bool_decide_unpack _); vm_compute; exact I|]. by vm_compute.
Qed.

(** ** Witnesses *)

Definition witness_ops : list cop :=
  [CIndex [0; 1]; CIndex [0; 1; 0]; CDrop 1; CIndex [0; 1]; CTransmit; CIndex [0; 1; 4]]%N.

Definition witness_run : option (list label * IncomingInvocation) := run_new test_decl witness_ops.

(** The results: the second channel of a declared position is refused. *)
Example witness_run_results :
  fst <$> witness_run =
  Some [LIndex [0; 1] (Ok 1); LIndex [0; 1; 0] (Ok 2); LDrop 1; LIndex [0; 1] (Err AlreadyExists); LTransmit;
        LIndex [0; 1; 4] (Ok 4)]%N.
Proof. vm_compute. reflexivity. Qed.

Lemma index_by_history_witness :
  ∃ tr iv, witness_run = Some (tr, iv) ∧
  ∃ r iv', IncomingChannel_index (root_channel test_decl) [0; 1; 4]%N iv = Some (r, iv') ∧
    agrees (is_transmitted iv) (outcome r iv') (Err (A := unit) AlreadyExists).
Proof.
  destruct witness_run as [[tr iv]|] eqn:E; [|by vm_compute in E]. exists tr, iv. split; [done|].
  assert (spec_index test_decl (history test_decl tr) [0; 1; 4]%N = Err AlreadyExists) as <-.
  { vm_compute in E. injection E as <- _. vm_compute. reflexivity. }
  apply (@index_by_history leb128_std 1024 test_decl tr iv (root_channel test_decl) [0; 1; 4]%N).
  - apply compatibleb_sound. vm_compute. reflexivity.
  - by eapply run_new_exec.
  - vm_compute in E. injection E as <- _. apply Nat.ltb_lt. vm_compute. reflexivity.
  - done.
  - apply (bool_decide_unpack _). vm_compute. exact I.
Defined.

Definition pending_run : option (list label * IncomingInvocation) :=
  run_new test_decl [CIndex [0; 1]; CIndex [0; 1; 0]; CDrop 1]%N.

Lemma channel_data_available_witness :
  ∃ tr iv, pending_run = Some (tr, iv) ∧ ∃ d ch iv' iv'',
    IncomingChannel_take_data (mkIncomingChannel [0; 1; 0]%N 2 true false) iv = Some (Ok d, ch, iv') ∧
    transmit (Some (0%N, Incoming_new test_decl [])) iv' = Some iv'' ∧ data_ready [0; 1; 0]%N d iv''.
Proof.
  destruct pending_run as [[tr iv]|] eqn:E; [|by vm_compute in E]. exists tr, iv. split; [done|].
  destruct (@channel_data_available leb128_std 1024 test_decl tr iv (entry_of test_decl [0; 1; 0]%N 2%N) []
    (Incoming_new test_decl [])) as (d & ch & iv' & Ed & Ht).
  - apply compatibleb_sound. vm_compute. reflexivity.
  - by eapply run_new_exec.
  - vm_compute in E. injection E as <- _. apply Nat.ltb_lt. vm_compute. reflexivity.
  - vm_compute in E. injection E as <- _. by apply (list_elem_of_lookup_2 _ 1).
  - vm_compute in E. injection E as <- _. apply (bool_decide_unpack _). vm_compute. exact I.
  - vm_compute. reflexivity.
  - done.
  - assert (iv_root iv = None) as Hroot by (vm_compute in E; by injection E as _ <-). rewrite Hroot in Ht.
    destruct Ht as (iv'' & Et & Hd). exists d, ch, iv', iv''.
    assert (entry_of test_decl [0; 1; 0]%N 2%N = mkPending [0; 1; 0]%N [Some 0%N; None; None] 2 true) as Ex
      by (vm_compute; reflexivity).
    rewrite Ex in Ed, Hd. split; [exact Ed|]. split; [exact Et|exact Hd].
Defined.
