(* ===== verification/RpcStreams.v ===== *)
(** * The host functions of [wrpc:rpc]

    Model of [crates/wasmtime/src/rpc/host]: the paths which a component declares
    with an invocation ([invoker.rs]), the result of an invocation, and the streams
    by which a component reads and writes the data of channels ([transport.rs]).

    A stream is a state machine which Wasmtime polls: an input is what a poll finds,
    such as the room at its destination and whether there is data.  The theorems
    show that the streams lose no data, that their results are sent exactly once,
    and that what is declared meets the requirements of [Incoming::new]. *)

From S2P Require Import Prelude Wire FrameCodec Prims Subscriptions Resolve Conn Delivery Egress Introspect.
From S2P Require Import Encode Pack Decode Values ValuesStd Transmit Resume Receive WasmCodec WasmCall.

(** ** Declared paths *)

Definition count_indices (paths : list (list (option N))) : nat := sum_list (length <$> paths).

(** The paths which [invoke] declares, and whether the limit is exceeded: then the
    transmission fails, and nothing is declared. *)
Definition invocation_paths (limit : nat) (paths : list (list (option N))) : list (list (option N)) * bool :=
  let exceeded := limit <? count_indices paths in
  let paths := if exceeded then [] else paths in
  (elements (merge_wildcards (list_to_set paths)), exceeded).

(** The result of an invocation once it is transmitted, from those of its
    directions; both are awaited. *)
Definition invocation_result (transmitted : result ErrorKind unit) (finished : option (io_result unit * io_result unit)) :
    result RpcError unit :=
  match transmitted, finished with
  | Err e, _ => Err (RpcTransmission e)
  | Ok _, None => Err (RpcInvoke Other)
  | Ok _, Some (Err e, _) => Err (RpcInvoke e)
  | Ok _, Some (_, Err e) => Err (RpcInvoke e)
  | Ok _, Some (Ok _, Ok _) => Ok tt
  end.

(** ** Reading *)

(** [StreamResult] *)
Inductive StreamResult := Completed | Cancelled | Dropped.

(** [ReadOutcome]: what is awaited for a stream which was dropped before its end
    is the result of the handle, of the invocation, or nothing. *)
Inductive ReadOutcome :=
  | Finished (res : result RpcError unit)
  | DroppedHandle
  | DroppedInvocation
  | DroppedReady.

(** [IncomingProducer]: [ip_incoming] is whether its handle is ready, and
    [ip_rest] what the handle still yields; [ip_result] is whether the sender of
    the outcome is held. *)
Record IncomingProducer := mkIncomingProducer {
  ip_incoming : option bool;
  ip_rest : list bytes;
  ip_result : bool;
  ip_invocation : bool
}.

Definition IncomingProducer_new (rest : list bytes) : IncomingProducer :=
  mkIncomingProducer (Some false) rest true true.

(** [finish]: the outcome which is sent *)
Definition IncomingProducer_finish (res : result RpcError unit) (p : IncomingProducer) :
    list ReadOutcome * IncomingProducer :=
  if ip_result p then
    ([Finished res], mkIncomingProducer (ip_incoming p) (ip_rest p) false (ip_invocation p))
  else ([], p).

(** What a poll finds: the room at the destination, [None] being that of the
    host, whether the handle is ready, and whether there is data, or an error *)
Record produce_input := mkProduceInput {
  pi_remaining : option nat;
  pi_ready : option (io_result unit);
  pi_read : option (io_result unit);
  pi_finish : bool
}.

(** The room which [as_direct] offers *)
Definition direct_room (remaining : option nat) : nat :=
  match remaining with Some n => n `min` N.to_nat READ_CHUNK_SIZE | None => N.to_nat READ_CHUNK_SIZE end.

(** What a poll yields: its result, [None] being pending, the data which is
    written to the destination, the outcomes which are sent, and the producer *)
Definition produced : Type := option StreamResult * bytes * list ReadOutcome * IncomingProducer.

Definition waiting (i : produce_input) (p : IncomingProducer) : produced :=
  (if pi_finish i then Some Cancelled else None, [], [], p).
Definition finished (res : result RpcError unit) (p : IncomingProducer) : produced :=
  let '(sent, p) := IncomingProducer_finish res p in (Some Dropped, [], sent, p).

(** [poll_produce] once its handle is ready *)
Definition produce_ready (i : produce_input) (p : IncomingProducer) : produced :=
  match pi_read i with
  | None => waiting i p
  | Some (Err e) => finished (Err (RpcRead e)) p
  | Some (Ok _) =>
      let '(chunk, rest) := inner_read (direct_room (pi_remaining i)) (ip_rest p) in
      let p := mkIncomingProducer (ip_incoming p) rest (ip_result p) (ip_invocation p) in
      match chunk with
      | [] => finished (Ok tt) p
      | _ => (Some Completed, chunk, [], p)
      end
  end.

(** [poll_produce] *)
Definition IncomingProducer_poll_produce (i : produce_input) (p : IncomingProducer) : produced :=
  match pi_remaining i with
  | Some 0 => (Some Completed, [], [], p)
  | _ =>
      match ip_incoming p with
      | None => (Some Dropped, [], [], p)
      | Some ready =>
          match (if ready then Some (Ok tt) else pi_ready i) with
          | None => waiting i p
          | Some (Err e) => finished (Err (RpcRead e)) p
          | Some (Ok _) => produce_ready i (mkIncomingProducer (Some true) (ip_rest p) (ip_result p) false)
          end
      end
  end.

(** [drop]: the outcome which is sent *)
Definition IncomingProducer_drop (p : IncomingProducer) : list ReadOutcome :=
  match ip_incoming p, ip_result p with
  | Some ready, true =>
      [if ready then DroppedHandle else if ip_invocation p then DroppedInvocation else DroppedReady]
  | _, _ => []
  end.

(** The result of [read_via_stream], from the outcome and the results of the
    directions; without an outcome the sender was lost. *)
Definition read_result (outcome : option ReadOutcome) (handle invocation : io_result unit) : result RpcError unit :=
  match outcome with
  | Some (Finished res) => res
  | Some DroppedHandle => Prelude.map_err RpcRead handle
  | Some DroppedInvocation => Prelude.map_err RpcRead invocation
  | Some DroppedReady => Ok tt
  | None => Err (RpcRead BrokenPipe)
  end.

(** Polls in order: the data which is written and the outcomes which are sent *)
Fixpoint produce (inputs : list produce_input) (p : IncomingProducer) : bytes * list ReadOutcome * IncomingProducer :=
  match inputs with
  | [] => ([], [], p)
  | i :: inputs =>
      let '(_, data, sent, p) := IncomingProducer_poll_produce i p in
      let '(data', sent', p) := produce inputs p in
      (data ++ data', sent ++ sent', p)
  end.

(** ** Writing *)

(** [OutgoingConsumer]: whether its handle is ready, and whether the sender of the
    result is held *)
Record OutgoingConsumer := mkOutgoingConsumer { oc_outgoing : bool; oc_result : bool }.

Definition OutgoingConsumer_new : OutgoingConsumer := mkOutgoingConsumer false true.

Definition OutgoingConsumer_finish (res : result RpcError unit) (c : OutgoingConsumer) :
    list (result RpcError unit) * OutgoingConsumer :=
  if oc_result c then ([res], mkOutgoingConsumer (oc_outgoing c) false) else ([], c).

(** What a poll finds: whether the handle is ready, how much the source offers, and
    whether there is room in the queue of frames, or an error *)
Record consume_input := mkConsumeInput {
  ci_ready : option (io_result unit);
  ci_offered : nat;
  ci_write : option (io_result unit);
  ci_finish : bool
}.

(** [poll_consume], on what the source still has: its result, the data which is
    written, the results which are sent, and the consumer *)
Definition OutgoingConsumer_poll_consume (i : consume_input) (rest : bytes) (c : OutgoingConsumer) :
    option StreamResult * bytes * list (result RpcError unit) * OutgoingConsumer :=
  let waiting := if ci_finish i then Some Cancelled else None in
  match (if oc_outgoing c then Some (Ok tt) else ci_ready i) with
  | None => (waiting, [], [], c)
  | Some (Err e) =>
      let '(sent, c) := OutgoingConsumer_finish (Err (RpcWrite e)) c in (Some Dropped, [], sent, c)
  | Some (Ok _) =>
      let c := mkOutgoingConsumer true (oc_result c) in
      match take (ci_offered i) rest with
      | [] => (Some Completed, [], [], c)
      | buf =>
          match ci_write i with
          | None => (waiting, [], [], c)
          | Some (Err e) =>
              let '(sent, c) := OutgoingConsumer_finish (Err (RpcWrite e)) c in (Some Dropped, [], sent, c)
          | Some (Ok _) => (Some Completed, take (N.to_nat (N.min (len buf) MAX_FRAME_DATA)) buf, [], c)
          end
      end
  end.

(** [drop] *)
Definition OutgoingConsumer_drop (c : OutgoingConsumer) : list (result RpcError unit) :=
  (OutgoingConsumer_finish (Ok tt) c).1.

(** Polls in order; the source has what was not written. *)
Fixpoint consume (inputs : list consume_input) (rest : bytes) (c : OutgoingConsumer) :
    bytes * list (result RpcError unit) * bytes * OutgoingConsumer :=
  match inputs with
  | [] => ([], [], rest, c)
  | i :: inputs =>
      let '(_, data, sent, c) := OutgoingConsumer_poll_consume i rest c in
      let '(data', sent', rest, c) := consume inputs (drop (length data) rest) c in
      (data ++ data', sent ++ sent', rest, c)
  end.

(** *** Lemmas *)

Lemma direct_room_S remaining : remaining ≠ Some 0 → ∃ n, direct_room remaining = S n.
Proof.
  intros Hr. exists (pred (direct_room remaining)). unfold direct_room, READ_CHUNK_SIZE.
  destruct remaining as [[|n]|]; [done|lia..].
Qed.

(** A poll writes what it reads, and sends the outcome at most once: success at
    the end of the data alone. *)
Definition polled (p : IncomingProducer) (data : bytes) (sent : list ReadOutcome) (p' : IncomingProducer) : Prop :=
  data ++ concat (ip_rest p') = concat (ip_rest p) ∧ is_Some (ip_incoming p') ∧
  (ip_result p' = ip_result p ∧ sent = [] ∨
   ip_result p = true ∧ ip_result p' = false ∧
     ∃ res, sent = [Finished res] ∧ (res = Ok tt → concat (ip_rest p') = [])).

Lemma polled_same p : is_Some (ip_incoming p) → polled p [] [] p.
Proof. intros Hi. split; [done|]. split; [done|]. by left. Qed.

(** A handle which becomes ready changes neither the data nor the outcome. *)
Lemma polled_from p p1 data sent p' :
  ip_rest p1 = ip_rest p → ip_result p1 = ip_result p → polled p1 data sent p' → polled p data sent p'.
Proof. unfold polled. by intros -> ->. Qed.

Lemma polled_finished res p r data sent p' :
  is_Some (ip_incoming p) → (res = Ok tt → concat (ip_rest p) = []) → finished res p = (r, data, sent, p') →
  polled p data sent p'.
Proof.
  intros Hi Hres. unfold finished, IncomingProducer_finish. destruct (ip_result p) eqn:Hr; intros [= <- <- <- <-];
    (split; [done|]); (split; [done|]); [right|by left].
  split; [done|]. split; [done|]. by eexists.
Qed.

Lemma polled_ready i p r data sent p' :
  is_Some (ip_incoming p) → pi_remaining i ≠ Some 0 → produce_ready i p = (r, data, sent, p') →
  polled p data sent p'.
Proof.
  intros Hi Hroom. unfold produce_ready. destruct (pi_read i) as [[[]|e]|].
  - destruct (direct_room_S _ Hroom) as (n & ->). destruct (inner_read _ _) as [[|b chunk] rest] eqn:Hread.
    + apply inner_read_spec in Hread as (Hread & Hend). specialize (Hend eq_refl). cbn [app] in Hread.
      intros (Hd & Hs)%polled_finished; [|done|by intros _; cbn; rewrite Hread]. split; [|done]. cbn [ip_rest] in Hd. by rewrite Hd.
    + apply inner_read_spec in Hread as (Hread & _). intros [= <- <- <- <-]. split; [done|]. split; [done|]. by left.
  - by apply polled_finished.
  - intros [= <- <- <- <-]. by apply polled_same.
Qed.

Lemma polled_poll i p r data sent p' :
  is_Some (ip_incoming p) → IncomingProducer_poll_produce i p = (r, data, sent, p') → polled p data sent p'.
Proof.
  intros Hi. unfold IncomingProducer_poll_produce. destruct (decide (pi_remaining i = Some 0)) as [->|Hroom].
  { intros [= <- <- <- <-]. by apply polled_same. }
  replace (match pi_remaining i with Some 0 => (Some Completed, [], [], p) | _ => _ end)
    with (match ip_incoming p with
          | None => (Some Dropped, [], [], p)
          | Some ready =>
              match (if ready then Some (Ok tt) else pi_ready i) with
              | None => waiting i p
              | Some (Err e) => finished (Err (RpcRead e)) p
              | Some (Ok _) => produce_ready i (mkIncomingProducer (Some true) (ip_rest p) (ip_result p) false)
              end
          end) by (by destruct (pi_remaining i) as [[]|]).
  destruct Hi as (ready & Hready). rewrite Hready. destruct (if ready then _ else _) as [[[]|e]|].
  - intros Hp%polled_ready; [|by eexists|done]. by eapply polled_from; [..|exact Hp].
  - apply polled_finished; [by eexists|done].
  - intros [= <- <- <- <-]. apply polled_same. by eexists.
Qed.

Lemma polled_produce inputs p data sent p' :
  is_Some (ip_incoming p) → produce inputs p = (data, sent, p') → polled p data sent p'.
Proof.
  revert p data sent p'. induction inputs as [|i inputs IH]; intros p data sent p' Hi; cbn [produce].
  { intros [= <- <- <-]. by apply polled_same. }
  destruct (IncomingProducer_poll_produce i p) as [[[r d1] s1] p1] eqn:Hpoll.
  apply polled_poll in Hpoll as (Hd1 & Hi1 & Hs1); [|done].
  destruct (produce inputs p1) as [[d2 s2] p2] eqn:Hp. apply IH in Hp as (Hd2 & Hi2 & Hs2); [|done].
  intros [= <- <- <-]. split; [by rewrite <- app_assoc, Hd2|]. split; [done|].
  destruct Hs1 as [(Hr1 & ->)|(Hr & Hr1 & res & -> & Hres)].
  - rewrite <- Hr1. exact Hs2.
  - destruct Hs2 as [(Hr2 & ->)|(Hr2 & _)]; [|congruence]. right. split; [done|]. split; [congruence|].
    exists res. split; [done|]. intros Hok. specialize (Hres Hok). rewrite <- Hd2 in Hres. by apply app_nil in Hres as (_ & ?).
Qed.

(** ** Properties *)

(** [C20] A component reads the data of a channel: whatever the polls of its
    stream find, and in whichever pieces, the data which is written is what was
    read, in order, and what is left is what the handle still yields; by the time
    the stream is dropped exactly one outcome was sent, so that its result is never
    that of a lost stream; and the result is a success before the stream is dropped
    only if all the data was read. *)
Theorem channel_read inputs rest data sent p :
  produce inputs (IncomingProducer_new rest) = (data, sent, p) →
  data ++ concat (ip_rest p) = concat rest ∧
  ∃ outcome, sent ++ IncomingProducer_drop p = [outcome] ∧
    (outcome = Finished (Ok tt) → data = concat rest).
Proof.
  intros Hp. apply polled_produce in Hp as (Hd & (ready & Hi) & Hs); [|by eexists].
  cbn [IncomingProducer_new ip_rest ip_result] in Hd, Hs. split; [done|]. unfold IncomingProducer_drop. rewrite Hi.
  destruct Hs as [(Hr & ->)|(_ & Hr & res & -> & Hres)]; rewrite Hr.
  - eexists. split; [done|]. by destruct ready, (ip_invocation p).
  - eexists. split; [done|]. intros [= ->]. by rewrite <- Hd, (Hres eq_refl), app_nil_r.
Qed.

(** *** Writing *)

(** A poll writes the next data, and sends the result at most once: an error. *)
Definition consumed (c : OutgoingConsumer) (rest data : bytes) (sent : list (result RpcError unit)) (rest' : bytes)
    (c' : OutgoingConsumer) : Prop :=
  data ++ rest' = rest ∧
  (oc_result c' = oc_result c ∧ sent = [] ∨
   oc_result c = true ∧ oc_result c' = false ∧ ∃ e, sent = [Err (RpcWrite e)]).

Lemma consumed_poll i rest c r data sent c' :
  OutgoingConsumer_poll_consume i rest c = (r, data, sent, c') →
  consumed c rest data sent (drop (length data) rest) c'.
Proof.
  unfold OutgoingConsumer_poll_consume, OutgoingConsumer_finish, consumed.
  destruct (if oc_outgoing c then _ else _) as [[[]|e]|].
  - destruct (take (ci_offered i) rest) as [|b buf] eqn:Hbuf; [intros [= <- <- <- <-]; auto|].
    destruct (ci_write i) as [[[]|e]|].
    + intros [= _ <- <- <-]. split; [|by left].
      rewrite <- Hbuf, take_take, length_take.
      set (n := N.to_nat _ `min` ci_offered i). destruct (decide (n ≤ length rest)).
      * by rewrite Nat.min_l, take_drop.
      * by rewrite Nat.min_r, drop_ge, take_ge, app_nil_r by lia.
    + cbn [oc_result]. destruct (oc_result c) eqn:Hr; intros [= <- <- <- <-]; eauto 10.
    + intros [= <- <- <- <-]. auto.
  - destruct (oc_result c) eqn:Hr; intros [= <- <- <- <-]; eauto 10.
  - intros [= <- <- <- <-]. auto.
Qed.

Lemma consumed_all inputs rest c data sent rest' c' :
  consume inputs rest c = (data, sent, rest', c') → consumed c rest data sent rest' c'.
Proof.
  revert rest c data sent rest' c'. induction inputs as [|i inputs IH]; intros rest c data sent rest' c'; cbn [consume].
  { intros [= <- <- <- <-]. split; [done|]. by left. }
  destruct (OutgoingConsumer_poll_consume i rest c) as [[[r d1] s1] c1] eqn:Hpoll.
  apply consumed_poll in Hpoll as (Hd1 & Hs1).
  destruct (consume inputs _ c1) as [[[d2 s2] rest2] c2] eqn:Hc. apply IH in Hc as (Hd2 & Hs2).
  intros [= <- <- <- <-]. split; [by rewrite <- app_assoc, Hd2|].
  destruct Hs1 as [(Hr1 & ->)|(Hr & Hr1 & e & ->)]; [by rewrite <- Hr1|].
  destruct Hs2 as [(Hr2 & ->)|(Hr2 & _)]; [|congruence]. right. split; [done|]. split; [congruence|]. by eexists.
Qed.

(** A component writes the data of a channel: what is written is a prefix of what
    its stream yields, in order, and by the time the stream is dropped exactly one
    result was sent, which is the error of the first write which failed, if one
    did. *)
Theorem channel_written inputs rest data sent rest' c :
  consume inputs rest OutgoingConsumer_new = (data, sent, rest', c) →
  data ++ rest' = rest ∧
  (sent = [] ∧ OutgoingConsumer_drop c = [Ok tt] ∨
   ∃ e, sent = [Err (RpcWrite e)] ∧ OutgoingConsumer_drop c = []).
Proof.
  intros (Hd & Hs)%consumed_all. split; [done|]. unfold OutgoingConsumer_drop, OutgoingConsumer_finish.
  destruct Hs as [(-> & ->)|(_ & -> & e & ->)]; [by left|right; by exists e].
Qed.

(** *** Declared paths *)

Lemma count_elements (l : list (list (option N))) :
  count_indices (elements (list_to_set l : gset (list (option N)))) ≤ count_indices l.
Proof.
  unfold count_indices. induction l as [|p l IH]; [by rewrite list_to_set_nil, elements_empty|].
  rewrite list_to_set_cons, fmap_cons. cbn [sum_list].
  destruct (decide (p ∈ (list_to_set l : gset (list (option N))))) as [Hp|Hp].
  - replace ({[p]} ∪ list_to_set l : gset (list (option N))) with (list_to_set l : gset (list (option N)))
      by set_solver. lia.
  - rewrite elements_union_singleton by done. cbn. lia.
Qed.

Lemma count_covers ps ps' : Forall2 covers ps ps' → count_indices ps = count_indices ps'.
Proof.
  unfold count_indices. induction 1 as [|p p' ps ps' Hp _ IH]; [done|]. cbn. f_equal; [|done].
  by apply Forall2_length in Hp.
Qed.

Lemma count_merge ps : count_indices (elements (merge_wildcards (list_to_set ps))) ≤ count_indices ps.
Proof.
  unfold merge_wildcards. etrans; [apply count_elements|].
  destruct (merge_fold (elements (list_to_set ps : gset (list (option N)))) 0
    (max_len (elements (list_to_set ps : gset (list (option N)))))) as [_ Hc]; [lia|].
  rewrite (count_covers _ _ Hc). apply count_elements.
Qed.

(** Whatever paths a component declares with an invocation, those which the
    transport is given meet the requirement of [Incoming::new], have at most as
    many indices as the limit, and cover all the paths of the component; above the
    limit none are declared. *)
Theorem invocation_paths_declarable limit paths :
  let '(declared, exceeded) := invocation_paths limit paths in
  compatible declared ∧ count_indices declared ≤ limit ∧
  (exceeded = true ↔ limit < count_indices paths) ∧
  (exceeded = true → declared = []) ∧
  (exceeded = false → ∀ p, p ∈ paths → ∃ p', p' ∈ declared ∧ covers p' p).
Proof.
  unfold invocation_paths. split_and!.
  - apply merge_wildcards_compatible.
  - etrans; [apply count_merge|]. destruct (Nat.ltb_spec limit (count_indices paths)); [cbn|]; lia.
  - apply Nat.ltb_lt.
  - intros ->. vm_compute. reflexivity.
  - intros -> p Hp. destruct (merge_wildcards_covers (list_to_set paths)) as (Hc & _).
    destruct (Hc p) as (p' & Hp' & Hcov); [by apply elem_of_list_to_set|].
    exists p'. split; [by apply elem_of_elements|done].
Qed.

(** ** Witnesses *)

(** The handle is not ready at first, and the data is read in pieces of two bytes
    until its end. *)
Definition test_inputs : list produce_input :=
  [mkProduceInput (Some 2) None None false; mkProduceInput (Some 2) (Some (Ok tt)) (Some (Ok tt)) false;
   mkProduceInput (Some 0) None None false; mkProduceInput (Some 2) None None false;
   mkProduceInput (Some 2) None (Some (Ok tt)) false; mkProduceInput None None (Some (Ok tt)) false].

Lemma channel_read_witness :
  ∃ p, produce test_inputs (IncomingProducer_new [[x01; x02; x03]]) = ([x01; x02; x03], [Finished (Ok tt)], p) ∧
    [x01; x02; x03] ++ concat (ip_rest p) = [x01; x02; x03].
Proof.
  eexists. split; [vm_compute; reflexivity|].
  apply (channel_read test_inputs [[x01; x02; x03]] [x01; x02; x03] [Finished (Ok tt)]). vm_compute. reflexivity.
Defined.
