(* ===== verification/RpcHost.v ===== *)
(** * The resources of [wrpc:rpc]

    Model of the functions which [crates/wasmtime/src/rpc/host] provides to
    components, with the helpers of [WrpcViewExt] of [crates/wasmtime/src/lib.rs]:
    contexts, errors and channels are resources of the table of the store, and the
    component has their indices.

    The table of Wasmtime is a map of indices; which index a new resource gets is
    a parameter.  A trap ends the component.  The channels of an invocation share
    its state ([RpcChannels]), by the number of the invocation.  The theorem is
    that the functions keep the table in order: what they return is a new resource
    of the right kind, and the resources which are not theirs are left alone. *)

From S2P Require Import Prelude Wire FrameCodec Subscriptions Resolve Elements Conn Egress Introspect WasmCodec WasmCall.
From S2P Require Import Channels RpcChannels RpcStreams.

(** ** The table *)

(** The contexts of the errors of the functions *)
Inductive Trap :=
  | FailedPush
  | FailedGet
  | FailedDelete
  | InvalidContextType
  | LostChannel.

Section table.
Context {Cx : Type}.

(** A context has a value of the client, or is of another one. *)
Inductive Entry :=
  | EContext (cx : option Cx)
  | EError (e : RpcError)
  | EIncoming (inv : N) (ch : IncomingChannel)
  | EOutgoing (inv : N) (ch : OutgoingChannel).

(** What the channels of an invocation share *)
Record HostInvocation := mkHostInvocation { hi_incoming : IncomingInvocation; hi_outgoing : option Outgoing }.

(** The store, with the context and the limit of the view *)
Record HostState := mkHostState {
  hs_table : gmap N Entry;
  hs_invocations : gmap N HostInvocation;
  hs_fresh : N;
  hs_context : Cx;
  hs_limit : nat
}.

(** [ResourceTable::push] yields an index which is not used, unless it is full. *)
Class ResourceTable := {
  table_alloc : gmap N Entry → option N;
  table_alloc_fresh t k : table_alloc t = Some k → t !! k = None
}.

Context `{!ResourceTable}.

Definition HostM A : Type := ST HostState Trap A.

Definition set_table (t : gmap N Entry) (st : HostState) : HostState :=
  mkHostState t (hs_invocations st) (hs_fresh st) (hs_context st) (hs_limit st).
Definition set_invocation (inv : N) (hi : HostInvocation) (st : HostState) : HostState :=
  mkHostState (hs_table st) (<[inv := hi]> (hs_invocations st)) (hs_fresh st) (hs_context st) (hs_limit st).

Definition table_push (e : Entry) : HostM N := λ st,
  match table_alloc (hs_table st) with
  | Some k => (Ok k, set_table (<[k := e]> (hs_table st)) st)
  | None => (Err FailedPush, st)
  end.

(** [get] and [delete] of a resource of a kind, which [f] tells *)
Definition table_get {A} (f : Entry → option A) (k : N) : HostM A := λ st,
  (ok_or FailedGet (e ← hs_table st !! k; f e), st).
Definition table_delete {A} (f : Entry → option A) (k : N) : HostM A := λ st,
  match hs_table st !! k with
  | Some e => (ok_or FailedDelete (f e), set_table (delete k (hs_table st)) st)
  | None => (Err FailedDelete, st)
  end.

(** [get_mut] is written to. *)
Definition table_set (k : N) (e : Entry) : HostM unit := λ st, (Ok tt, set_table (<[k := e]> (hs_table st)) st).

Definition as_context (e : Entry) : option (option Cx) := match e with EContext cx => Some cx | _ => None end.
Definition as_error (e : Entry) : option RpcError := match e with EError e => Some e | _ => None end.
Definition as_incoming (e : Entry) : option (N * IncomingChannel) :=
  match e with EIncoming inv ch => Some (inv, ch) | _ => None end.
Definition as_outgoing (e : Entry) : option (N * OutgoingChannel) :=
  match e with EOutgoing inv ch => Some (inv, ch) | _ => None end.

(** An operation on the incoming direction of an invocation; the channel holds
    it, so that it is there. *)
Definition on_incoming {A} (inv : N) (f : IncomingInvocation → option (A * IncomingInvocation)) : HostM A := λ st,
  match (hi ← hs_invocations st !! inv; '(a, iv) ← f (hi_incoming hi); Some (a, mkHostInvocation iv (hi_outgoing hi))) with
  | Some (a, hi) => (Ok a, set_invocation inv hi st)
  | None => (Err LostChannel, st)
  end.

(** ** Helpers of [WrpcViewExt] *)

Definition push_error (e : RpcError) : HostM N := table_push (EError e).
Definition get_error (k : N) : HostM RpcError := table_get as_error k.
Definition delete_error (k : N) : HostM RpcError := table_delete as_error k.
Definition push_context (cx : Cx) : HostM N := table_push (EContext (Some cx)).
Definition delete_context (k : N) : HostM Cx :=
  let! cx := table_delete as_context k in
  match cx with Some cx => ret cx | None => fail InvalidContextType end.

(** ** Contexts and errors *)

Definition context_default : HostM N := λ st, push_context (hs_context st) st.
Definition context_drop (cx : N) : HostM unit := let! _ := delete_context cx in ret tt.

(** The error which [to_debug_string] formats *)
Definition error_to_debug_string (error : N) : HostM RpcError := get_error error.
Definition error_drop (error : N) : HostM unit := let! _ := delete_error error in ret tt.

(** ** Invocations *)

(** A new invocation, with its channels of both roots *)
Definition new_invocation (declared : list (list (option N))) : HostM (N * IncomingChannel) := λ st,
  let '(rx, iv) := IncomingChannel_new declared in
  let inv := hs_fresh st in
  (Ok (inv, rx),
   mkHostState (hs_table st) (<[inv := mkHostInvocation iv None]> (hs_invocations st)) (inv + 1) (hs_context st)
     (hs_limit st)).

(** [invoke]: the channels; its transmission and its result are [RpcStreams]. *)
Definition host_invoke (cx : N) (paths : list (list (option N))) : HostM (N * N) :=
  let! _ := delete_context cx in
  let! limit := (λ st, (Ok (hs_limit st), st)) in
  let '(declared, _) := invocation_paths limit paths in
  let! (inv, rx) := new_invocation declared in
  let! tx := table_push (EOutgoing inv OutgoingChannel_new) in
  let! rx := table_push (EIncoming inv rx) in
  ret (tx, rx).

(** The transmission of an invocation resolves. *)
Definition host_transmit (inv : N) (outgoing : option Outgoing) (incoming : option (N * World)) : HostM unit := λ st,
  match (hi ← hs_invocations st !! inv; iv ← transmit incoming (hi_incoming hi); Some (mkHostInvocation iv outgoing)) with
  | Some hi => (Ok tt, set_invocation inv hi st)
  | None => (Err LostChannel, st)
  end.

(** ** Channels *)

(** What a function which may fail with an error of [wrpc:rpc] returns *)
Definition or_error {A B} (r : result RpcError A) (k : A → HostM B) : HostM (result N B) :=
  match r with
  | Ok a => let! b := k a in ret (Ok b)
  | Err e => let! err := push_error e in ret (Err err)
  end.

(** [index] of an incoming channel *)
Definition incoming_index (incoming : N) (path : list N) : HostM (result N N) :=
  let! (inv, ch) := table_get as_incoming incoming in
  let! r := on_incoming inv (IncomingChannel_index ch path) in
  or_error (Prelude.map_err RpcIncomingIndex r) (λ ch, table_push (EIncoming inv ch)).

Definition incoming_drop (incoming : N) : HostM unit :=
  let! (inv, ch) := table_delete as_incoming incoming in
  on_incoming inv (λ iv, iv ← IncomingChannel_drop ch iv; Some (tt, iv)).

(** [read_via_stream]: the data which its stream reads *)
Definition read_via_stream (incoming : N) : HostM (result N (N * Deferred)) :=
  let! (inv, ch) := table_get as_incoming incoming in
  let! (r, ch) := on_incoming inv (IncomingChannel_take_data ch) in
  let! _ := table_set incoming (EIncoming inv ch) in
  or_error r (λ data, ret (inv, data)).

Section outgoing.
Context `{Leb128}.

Definition outgoing_index (outgoing : N) (path : list N) : HostM (result N N) :=
  let! (inv, ch) := table_get as_outgoing outgoing in
  or_error (Prelude.map_err RpcOutgoingIndex (OutgoingChannel_index ch path)) (λ ch, table_push (EOutgoing inv ch)).

Definition outgoing_drop (outgoing : N) : HostM unit :=
  let! _ := table_delete as_outgoing outgoing in ret tt.

(** [write_via_stream]: the handle which its stream is written to *)
Definition write_via_stream (outgoing : N) :
    HostM (result N (N * (Transmission → option Outgoing → option (io_result Outgoing)))) :=
  let! (inv, ch) := table_get as_outgoing outgoing in
  let '(r, ch) := OutgoingChannel_take_data ch in
  let! _ := table_set outgoing (EOutgoing inv ch) in
  or_error r (λ data, ret (inv, data)).

(** [close], once the future of the handle is complete; [closed] is what closing
    it yields. *)
Definition outgoing_close (outgoing : N) (closed : Outgoing → io_result unit) : HostM (option (result N unit)) :=
  let! (inv, ch) := table_get as_outgoing outgoing in
  let! handle := (λ st,
    (ok_or LostChannel
       (hi ← hs_invocations st !! inv;
        Some (OutgoingChannel_outgoing ch (iv_transmission (hi_incoming hi)) (hi_outgoing hi))), st)) in
  match handle with
  | None => ret None
  | Some r =>
      let! res := or_error (Prelude.map_err RpcWrite (let? o := r in closed o)) ret in
      ret (Some res)
  end.

(** ** Results *)

(** [ResultProducer::poll_produce]: [None] is pending, [Some None] is cancelled. *)
Definition ResultProducer_poll_produce (res : option (result RpcError unit)) (finish : bool) :
    HostM (option (option (result N unit))) :=
  match res with
  | Some res => let! r := or_error res ret in ret (Some (Some r))
  | None => ret (if finish then Some None else None)
  end.

(** ** Calls *)

(** The functions which a component calls, with what their environment yields:
    the transmission of an invocation, the close of a handle, and the polls of
    results *)
Inductive host_call :=
  | CallContextDefault
  | CallContextDrop (cx : N)
  | CallErrorString (error : N)
  | CallErrorDrop (error : N)
  | CallInvoke (cx : N) (paths : list (list (option N)))
  | CallTransmit (inv : N) (outgoing : option Outgoing) (incoming : option (N * World))
  | CallIncomingIndex (incoming : N) (path : list N)
  | CallIncomingDrop (incoming : N)
  | CallRead (incoming : N)
  | CallOutgoingIndex (outgoing : N) (path : list N)
  | CallOutgoingDrop (outgoing : N)
  | CallWrite (outgoing : N)
  | CallClose (outgoing : N) (closed : Outgoing → io_result unit)
  | CallResult (res : option (result RpcError unit)) (finish : bool).

Inductive kind := KContext | KError | KIncoming | KOutgoing.

Definition entry_kind (e : Entry) : kind :=
  match e with EContext _ => KContext | EError _ => KError | EIncoming _ _ => KIncoming | EOutgoing _ _ => KOutgoing end.

(** The resources which a result has *)
Definition error_of {A} (r : result N A) : list (N * kind) := match r with Ok _ => [] | Err k => [(k, KError)] end.
Definition handle_of (kd : kind) (r : result N N) : list (N * kind) :=
  match r with Ok k => [(k, kd)] | Err k => [(k, KError)] end.

(** A call, with the resources which it returns *)
Definition host_run (c : host_call) : HostM (list (N * kind)) :=
  match c with
  | CallContextDefault => let! k := context_default in ret [(k, KContext)]
  | CallContextDrop cx => let! _ := context_drop cx in ret []
  | CallErrorString error => let! _ := error_to_debug_string error in ret []
  | CallErrorDrop error => let! _ := error_drop error in ret []
  | CallInvoke cx paths => let! (tx, rx) := host_invoke cx paths in ret [(tx, KOutgoing); (rx, KIncoming)]
  | CallTransmit inv outgoing incoming => let! _ := host_transmit inv outgoing incoming in ret []
  | CallIncomingIndex incoming path => let! r := incoming_index incoming path in ret (handle_of KIncoming r)
  | CallIncomingDrop incoming => let! _ := incoming_drop incoming in ret []
  | CallRead incoming => let! r := read_via_stream incoming in ret (error_of r)
  | CallOutgoingIndex outgoing path => let! r := outgoing_index outgoing path in ret (handle_of KOutgoing r)
  | CallOutgoingDrop outgoing => let! _ := outgoing_drop outgoing in ret []
  | CallWrite outgoing => let! r := write_via_stream outgoing in ret (error_of r)
  | CallClose outgoing closed =>
      let! r := outgoing_close outgoing closed in ret (match r with Some r => error_of r | None => [] end)
  | CallResult res finish =>
      let! r := ResultProducer_poll_produce res finish in ret (match r with Some (Some r) => error_of r | _ => [] end)
  end.

(** The resource which a call takes *)
Definition consumed (c : host_call) : gset N :=
  match c with
  | CallContextDrop k | CallErrorDrop k | CallInvoke k _ | CallIncomingDrop k | CallOutgoingDrop k => {[k]}
  | _ => ∅
  end.

(** ** Effects on the table *)

(** The invocations of channels exist. *)
Record host_wf (st : HostState) : Prop := {
  hw_incoming k inv ch : hs_table st !! k = Some (EIncoming inv ch) → is_Some (hs_invocations st !! inv);
  hw_outgoing k inv ch : hs_table st !! k = Some (EOutgoing inv ch) → is_Some (hs_invocations st !! inv)
}.

(** The same resource, whose data may have been taken in between *)
Definition same_resource (e e' : Entry) : Prop :=
  match e, e' with
  | EContext cx, EContext cx' => cx = cx'
  | EError e, EError e' => e = e'
  | EIncoming inv ch, EIncoming inv' ch' =>
      inv = inv' ∧ ch_path ch = ch_path ch' ∧ ch_incoming ch = ch_incoming ch' ∧ ch_declared ch = ch_declared ch'
  | EOutgoing inv ch, EOutgoing inv' ch' => inv = inv' ∧ oc_path ch = oc_path ch'
  | _, _ => False
  end.

#[local] Instance same_resource_preorder : PreOrder same_resource.
Proof.
  split.
  - by intros [].
  - intros [] [] [] H1 H2; cbn in *; naive_solver congruence.
Qed.

Lemma same_resource_kind e e' : same_resource e e' → entry_kind e' = entry_kind e.
Proof. by destruct e, e'. Qed.

(** What calls did since [s0]: the resources [taken] are gone, the ones of
    [returned] are new, and the others are the same. *)
Record effect (s0 : HostState) (taken : gset N) (returned : list (N * kind)) (st : HostState) : Prop := {
  ef_keep k e : hs_table s0 !! k = Some e → k ∉ taken → ∃ e', hs_table st !! k = Some e' ∧ same_resource e e';
  ef_known k e' : hs_table st !! k = Some e' →
    (k ∉ taken ∧ ∃ e, hs_table s0 !! k = Some e ∧ same_resource e e') ∨ (k, entry_kind e') ∈ returned;
  ef_returned k kd : (k, kd) ∈ returned →
    (hs_table s0 !! k = None ∨ k ∈ taken) ∧ ∃ e, hs_table st !! k = Some e ∧ entry_kind e = kd;
  ef_wf : host_wf st
}.

Section wp.
Context (s0 : HostState) (may_take : gset N).

(** A computation from [st] yields a result in [Q], or a trap with an effect
    which takes no other resources. *)
Definition wp {A} (m : HostM A) (st : HostState) (Q : A → HostState → Prop) : Prop :=
  match m st with
  | (Ok a, st') => Q a st'
  | (Err _, st') => ∃ taken returned, taken ⊆ may_take ∧ effect s0 taken returned st'
  end.

Lemma wp_ret {A} (a : A) st Q : Q a st → wp (ret a) st Q.
Proof. done. Qed.

Lemma wp_bind {A B} (m : HostM A) (k : A → HostM B) st Q :
  wp m st (λ a st', wp (k a) st' Q) → wp (bind m k) st Q.
Proof. unfold wp, bind. destruct (m st) as [[a|e] st']; done. Qed.

Lemma wp_trap {A} (m : HostM A) st Q e taken returned :
  m st = (Err e, st) → taken ⊆ may_take → effect s0 taken returned st → wp m st Q.
Proof. unfold wp. intros ->. eauto. Qed.

(** Which invocation a resource is of *)
Definition entry_invocation (e : Entry) : option N :=
  match e with EIncoming inv _ | EOutgoing inv _ => Some inv | _ => None end.

Lemma wf_entry st k e inv :
  host_wf st → hs_table st !! k = Some e → entry_invocation e = Some inv → is_Some (hs_invocations st !! inv).
Proof. intros [Hi Ho] Hk. destruct e; cbn; intros [= <-]; eauto. Qed.

Lemma wf_intro st :
  (∀ k e inv, hs_table st !! k = Some e → entry_invocation e = Some inv → is_Some (hs_invocations st !! inv)) →
  host_wf st.
Proof. intros Hw. split; intros k inv ch Hk; exact (Hw k _ inv Hk eq_refl). Qed.

(** A change which leaves the table, and keeps the invocations *)
Lemma effect_invocations taken returned st st' :
  effect s0 taken returned st → hs_table st' = hs_table st →
  (∀ inv, is_Some (hs_invocations st !! inv) → is_Some (hs_invocations st' !! inv)) → effect s0 taken returned st'.
Proof.
  intros [Hk Hn Hr Hw] Ht Hi. split; rewrite ?Ht; try done.
  apply wf_intro. intros k e inv. rewrite Ht. intros. by eapply Hi, wf_entry.
Qed.

Lemma effect_push taken returned st k e :
  effect s0 taken returned st → hs_table st !! k = None →
  (∀ inv, entry_invocation e = Some inv → is_Some (hs_invocations st !! inv)) →
  effect s0 taken (returned ++ [(k, entry_kind e)]) (set_table (<[k := e]> (hs_table st)) st).
Proof.
  intros [Hkeep Hn Hr Hw] Hk Hinv. split; cbn.
  - intros k' e' He' Ht. destruct (Hkeep _ _ He' Ht) as (e1 & He1 & Hs). exists e1. split; [|done].
    rewrite lookup_insert_ne by congruence. done.
  - intros k' e'. rewrite lookup_insert_Some. intros [[<- <-]|[Hne He']]; [right; set_solver|].
    destruct (Hn _ _ He') as [|]; [by left|right; set_solver].
  - intros k' kd. rewrite elem_of_app, list_elem_of_singleton. intros [Hin|[= -> ->]].
    + destruct (Hr _ _ Hin) as (? & e' & He' & ?). split; [done|]. exists e'. split; [|done].
      rewrite lookup_insert_ne by congruence. done.
    + split; [|exists e; by rewrite lookup_insert_eq].
      destruct (hs_table s0 !! k) as [e'|] eqn:He'; [right|by left].
      destruct (decide (k ∈ taken)); [done|]. destruct (Hkeep _ _ He') as (? & ? & _); congruence.
  - apply wf_intro. cbn. intros k' e' inv. rewrite lookup_insert_Some. intros [[<- <-]|[_ He']]; [apply Hinv|].
    by apply (wf_entry st k' e').
Qed.

Lemma effect_set taken returned st k e e' :
  effect s0 taken returned st → hs_table st !! k = Some e → same_resource e e' →
  effect s0 taken returned (set_table (<[k := e']> (hs_table st)) st).
Proof.
  intros [Hkeep Hn Hr Hw] Hk Hs. pose proof (same_resource_kind _ _ Hs) as Hkd. split; cbn.
  - intros k' e1 He1 Ht. destruct (Hkeep _ _ He1 Ht) as (e2 & He2 & Hs2). destruct (decide (k = k')) as [<-|].
    + rewrite lookup_insert_eq. exists e'. split; [done|]. simplify_eq. by etrans.
    + rewrite lookup_insert_ne by done. eauto.
  - intros k' e1. rewrite lookup_insert_Some. intros [[<- <-]|[_ He1]]; [|by apply Hn].
    rewrite Hkd. destruct (Hn _ _ Hk) as [(? & e2 & ? & ?)|]; [left|by right]. split; [done|]. exists e2. split; [done|]. by etrans.
  - intros k' kd Hin. destruct (Hr _ _ Hin) as (? & e1 & He1 & <-). split; [done|]. destruct (decide (k = k')) as [<-|].
    + rewrite lookup_insert_eq. exists e'. simplify_eq. done.
    + rewrite lookup_insert_ne by done. eauto.
  - apply wf_intro. cbn. intros k' e1 inv. rewrite lookup_insert_Some. intros [[<- <-]|[_ He1]]; [|by apply (wf_entry st k' e1)].
    intros He. apply (wf_entry st k e); [done..|]. by destruct e, e'; cbn in *; naive_solver.
Qed.

Lemma effect_delete k st :
  effect s0 ∅ [] st → effect s0 {[k]} [] (set_table (delete k (hs_table st)) st).
Proof.
  intros [Hkeep Hn Hr Hw]. split; cbn; [| |by intros ? ? ?%not_elem_of_nil|].
  - intros k' e He Ht. rewrite lookup_delete_ne by set_solver. apply Hkeep; [done|set_solver].
  - intros k' e'. rewrite lookup_delete_Some. intros [Hne He']. destruct (Hn _ _ He') as [(_ & ?)|?%not_elem_of_nil]; [|done].
    left. split; [set_solver|done].
  - apply wf_intro. cbn. intros k' e inv. rewrite lookup_delete_Some. intros [_ He]. by apply (wf_entry st k' e).
Qed.

Section rules.
Context (taken : gset N) (returned : list (N * kind)) (st : HostState).
Context (Heff : effect s0 taken returned st) (Hsub : taken ⊆ may_take).

Lemma wp_push e Q :
  (∀ inv, entry_invocation e = Some inv → is_Some (hs_invocations st !! inv)) →
  (∀ k st', effect s0 taken (returned ++ [(k, entry_kind e)]) st' → hs_invocations st' = hs_invocations st → Q k st') →
  wp (table_push e) st Q.
Proof.
  intros Hinv HQ. unfold wp, table_push. destruct (table_alloc (hs_table st)) as [k|] eqn:Ha; [|eauto].
  apply table_alloc_fresh in Ha. apply HQ; [by apply effect_push|done].
Qed.

Lemma wp_get {A} (f : Entry → option A) k Q :
  (∀ e a, hs_table st !! k = Some e → f e = Some a → Q a st) → wp (table_get f k) st Q.
Proof.
  intros HQ. unfold wp, table_get. destruct (hs_table st !! k) as [e|]; cbn; [|eauto]. destruct (f e) eqn:Hf; cbn; eauto.
Qed.

Lemma wp_set k e e' Q :
  hs_table st !! k = Some e → same_resource e e' →
  (∀ st', effect s0 taken returned st' → hs_invocations st' = hs_invocations st → Q tt st') → wp (table_set k e') st Q.
Proof. intros Hk Hs HQ. apply HQ; [by eapply effect_set|done]. Qed.

Lemma wp_on_incoming {A} inv (f : IncomingInvocation → option (A * IncomingInvocation)) Q :
  (∀ a iv iv' st', f iv = Some (a, iv') → effect s0 taken returned st' → hs_table st' = hs_table st →
     is_Some (hs_invocations st' !! inv) → Q a st') →
  wp (on_incoming inv f) st Q.
Proof.
  intros HQ. unfold wp, on_incoming. destruct (hs_invocations st !! inv) as [hi|] eqn:Hi; cbn; [|eauto].
  destruct (f (hi_incoming hi)) as [[a iv']|] eqn:Hf; cbn; [|eauto]. eapply HQ; [done| |done|].
  - eapply effect_invocations; [done..|]. cbn. intros inv' ?. rewrite lookup_insert_is_Some'. by right.
  - cbn. rewrite lookup_insert_eq. by eexists.
Qed.

Lemma wp_or_error {A B} (r : result RpcError A) (k : A → HostM B) Q :
  (∀ a, r = Ok a → wp (k a) st (λ b, Q (Ok b))) →
  (∀ err st', effect s0 taken (returned ++ [(err, KError)]) st' → Q (Err err) st') →
  wp (or_error r k) st Q.
Proof.
  intros Hok Herr. unfold or_error. destruct r as [a|e]; apply wp_bind; [by apply Hok|].
  apply wp_push; [done|]. intros err st' He _. by apply Herr.
Qed.

End rules.

Lemma wp_delete {A} (f : Entry → option A) k st Q :
  effect s0 ∅ [] st → k ∈ may_take →
  (∀ e a st', hs_table st !! k = Some e → f e = Some a → effect s0 {[k]} [] st' → hs_invocations st' = hs_invocations st →
     Q a st') →
  wp (table_delete f k) st Q.
Proof.
  intros He Hk HQ. unfold wp, table_delete. destruct (hs_table st !! k) as [e|] eqn:Hl.
  - pose proof (effect_delete k st He) as Hd. destruct (f e) as [a|] eqn:Hf; cbn; [by eapply HQ|].
    exists {[k]}, []. split; [set_solver|done].
  - exists ∅, []. split; [set_solver|done].
Qed.

End wp.

(** Taking the data of a channel leaves the channel where it is. *)
Lemma take_data_same inv ch iv r ch' iv' :
  IncomingChannel_take_data ch iv = Some (r, ch', iv') → same_resource (EIncoming inv ch) (EIncoming inv ch').
Proof.
  unfold IncomingChannel_take_data. destruct (ch_data_taken ch); [by intros [= _ <- _]|].
  destruct (ch_declared ch) eqn:Hd; cbn; [|by intros [= _ <- _]].
  destruct (ch_path ch) eqn:Hp; cbn; [by intros [= _ <- _]|].
  destruct (take_reader _ iv) as [[[r'|] iv1]|]; cbn; [by intros [= _ <- _]| |done].
  destruct (slot_clone _ iv1) as [iv2|]; cbn; [by intros [= _ <- _]|done].
Qed.

Lemma effect_refl s0 : host_wf s0 → effect s0 ∅ [] s0.
Proof.
  intros Hw. split; [| |by intros ? ? ?%not_elem_of_nil|done].
  - intros k e He _. exists e. by split.
  - intros k e He. left. split; [set_solver|]. exists e. by split.
Qed.

(** What a call does, as a weakest precondition *)
Definition called (s0 : HostState) (c : host_call) (returned : list (N * kind)) (st : HostState) : Prop :=
  effect s0 (consumed c) returned st.

Lemma wp_invoke s0 cx paths :
  host_wf s0 → wp s0 {[cx]} (host_invoke cx paths) s0 (λ '(tx, rx), effect s0 {[cx]} [(tx, KOutgoing); (rx, KIncoming)]).
Proof.
  intros Hw. pose proof (effect_refl s0 Hw) as Hrefl. unfold host_invoke. apply wp_bind. unfold delete_context. apply wp_bind.
  apply wp_delete; [done|set_solver|]. intros e cx' st' _ _ He _.
  destruct cx' as [cx'|]; [|by eapply wp_trap; [done| |exact He]]. apply wp_ret, wp_bind. cbn [wp].
  unfold wp at 1. destruct (invocation_paths (hs_limit st') paths) as [declared ex]. apply wp_bind.
  unfold wp at 1, new_invocation. destruct (IncomingChannel_new declared) as [ch iv].
  set (st1 := mkHostState _ _ _ _ _).
  assert (effect s0 {[cx]} [] st1 ∧ is_Some (hs_invocations st1 !! hs_fresh st')) as [He1 Hi1].
  { split; [|cbn; rewrite lookup_insert_eq; by eexists].
    eapply effect_invocations; [exact He|done|]. cbn. intros inv ?. rewrite lookup_insert_is_Some'. by right. }
  apply wp_bind. eapply wp_push; [exact He1|done|by intros inv [= <-]|]. intros tx st2 He2 Hi2.
  apply wp_bind. eapply wp_push; [exact He2|done|intros inv [= <-]; by rewrite Hi2|]. intros rx st3 He3 _. exact He3.
Qed.

(** The functions of a channel, which look it up first *)
Section channel.
Context (s0 : HostState) (Hw : host_wf s0).

Lemma wp_incoming_index k path :
  wp s0 ∅ (incoming_index k path) s0 (λ r, effect s0 ∅ (handle_of KIncoming r)).
Proof.
  pose proof (effect_refl s0 Hw) as Hrefl. apply wp_bind. eapply wp_get; [exact Hrefl|done|]. intros e [inv ch] He Hf.
  apply wp_bind. eapply wp_on_incoming; [exact Hrefl|done|]. intros r iv iv' st' _ He' _ Hinv.
  eapply wp_or_error; [exact He'|done| |by intros err st2 He2].
  intros ch' _. eapply wp_push; [exact He'|done|by intros ? [= <-]|]. by intros k' st2 He2 _.
Qed.

Lemma wp_read k : wp s0 ∅ (read_via_stream k) s0 (λ r, effect s0 ∅ (error_of r)).
Proof.
  pose proof (effect_refl s0 Hw) as Hrefl. apply wp_bind. eapply wp_get; [exact Hrefl|done|]. intros e [inv ch] He Hf.
  apply wp_bind. eapply wp_on_incoming; [exact Hrefl|done|]. intros [r ch'] iv iv' st' Htake He' Ht _. apply wp_bind.
  eapply wp_set; [exact He'|rewrite Ht; exact He| |].
  { destruct e; cbn in Hf; simplify_eq. by eapply take_data_same. }
  intros st2 He2 _. eapply wp_or_error; [exact He2|done|by intros data _|by intros err st3 He3].
Qed.

Lemma wp_outgoing_index k path :
  wp s0 ∅ (outgoing_index k path) s0 (λ r, effect s0 ∅ (handle_of KOutgoing r)).
Proof.
  pose proof (effect_refl s0 Hw) as Hrefl. apply wp_bind. eapply wp_get; [exact Hrefl|done|]. intros e [inv ch] He Hf.
  eapply wp_or_error; [exact Hrefl|done| |by intros err st2 He2].
  intros ch' _. eapply wp_push; [exact Hrefl|done| |by intros k' st2 He2 _].
  intros ? [= <-]. destruct e; cbn in Hf; simplify_eq. by eapply wf_entry.
Qed.

Lemma wp_write k : wp s0 ∅ (write_via_stream k) s0 (λ r, effect s0 ∅ (error_of r)).
Proof.
  pose proof (effect_refl s0 Hw) as Hrefl. apply wp_bind. eapply wp_get; [exact Hrefl|done|]. intros e [inv ch] He Hf.
  destruct (OutgoingChannel_take_data ch) as [r ch'] eqn:Htake. apply wp_bind.
  eapply wp_set; [exact Hrefl|exact He| |].
  { destruct e; cbn in Hf; simplify_eq. unfold OutgoingChannel_take_data in Htake.
    destruct (oc_data_taken ch); by injection Htake as <- <-. }
  intros st2 He2 _. eapply wp_or_error; [exact He2|done|by intros data _|by intros err st3 He3].
Qed.

Lemma wp_close k closed :
  wp s0 ∅ (outgoing_close k closed) s0 (λ r, effect s0 ∅ (match r with Some r => error_of r | None => [] end)).
Proof.
  pose proof (effect_refl s0 Hw) as Hrefl. apply wp_bind. eapply wp_get; [exact Hrefl|done|]. intros e [inv ch] He Hf.
  apply wp_bind. unfold wp at 1.
  destruct (hs_invocations s0 !! inv) as [hi|]; cbn [ok_or mbind option_bind]; [|by eexists ∅, []].
  destruct (OutgoingChannel_outgoing ch _ _) as [r|]; [|exact Hrefl]. apply wp_bind.
  eapply wp_or_error; [exact Hrefl|done|by intros a _|by intros err st2 He2].
Qed.

Lemma wp_transmit inv outgoing incoming :
  wp s0 ∅ (host_transmit inv outgoing incoming) s0 (λ _, effect s0 ∅ []).
Proof.
  pose proof (effect_refl s0 Hw) as Hrefl. unfold wp, host_transmit.
  destruct (hs_invocations s0 !! inv) as [hi|] eqn:Hi; cbn; [|by eexists ∅, []].
  destruct (transmit incoming (hi_incoming hi)) as [iv|]; cbn; [|by eexists ∅, []].
  eapply effect_invocations; [exact Hrefl|done|]. cbn. intros inv' ?. rewrite lookup_insert_is_Some'. by right.
Qed.

Lemma wp_drop {A B} (f : Entry → option A) k (m : A → HostM B) :
  (∀ a st, effect s0 {[k]} [] st → wp s0 {[k]} (m a) st (λ _, effect s0 {[k]} [])) →
  wp s0 {[k]} (let! a := table_delete f k in m a) s0 (λ _, effect s0 {[k]} []).
Proof.
  intros Hm. apply wp_bind, wp_delete; [by apply effect_refl|set_solver|]. intros e a st' _ _ He _. by apply Hm.
Qed.

End channel.

(** The rule of a call whose result is mapped to the resources it returns *)
Lemma wp_map {A B} s0 may (m : HostM A) (f : A → B) st Q :
  wp s0 may m st (λ a, Q (f a)) → wp s0 may (let! a := m in ret (f a)) st Q.
Proof. intros Hm. by apply wp_bind. Qed.

Lemma wp_call s0 c : host_wf s0 → wp s0 (consumed c) (host_run c) s0 (called s0 c).
Proof.
  intros Hw. pose proof (effect_refl s0 Hw) as Hrefl. unfold called. destruct c; cbn [host_run consumed].
  - apply wp_map. apply (wp_push s0 ∅ ∅ [] s0 Hrefl); [done..|]. by intros k st' He _.
  - apply wp_map. unfold context_drop, delete_context. apply wp_bind, wp_drop; [done|].
    intros [cx'|] st He; [exact He|by eapply wp_trap; [done| |exact He]].
  - apply wp_map. by eapply wp_get; [exact Hrefl|done|].
  - by apply wp_map, wp_drop.
  - pose proof (wp_invoke s0 cx paths Hw) as Hi. apply wp_bind. revert Hi. unfold wp.
    by destruct (host_invoke cx paths s0) as [[[tx rx]|] st'].
  - by apply wp_map, wp_transmit.
  - by apply wp_map, wp_incoming_index.
  - apply wp_map. unfold incoming_drop. apply wp_drop; [done|]. intros [inv ch] st He.
    eapply wp_on_incoming; [exact He|done|]. by intros [] iv iv' st2 _ He2 _ _.
  - by apply wp_map, wp_read.
  - by apply wp_map, wp_outgoing_index.
  - by apply wp_map, wp_drop.
  - by apply wp_map, wp_write.
  - by apply wp_map, wp_close.
  - apply wp_map. destruct res as [res|]; [|by destruct finish]. apply wp_bind.
    eapply wp_or_error; [exact Hrefl|done|by intros a _|by intros err st2 He2].
Qed.

(** ** Properties *)

(** [C21] The functions of [wrpc:rpc] keep the resources of a component in order:
    whichever one it calls, the invocations of its channels exist, the resources
    which the call does not take are the same, up to whether the data of a channel
    was taken, also if it traps; and if it succeeds, the one it takes is gone,
    what it returns are new resources of their kinds, and there are no other new
    ones. *)
Theorem host_resources_confined s0 c r st :
  host_wf s0 → host_run c s0 = (r, st) →
  host_wf st ∧
  (∀ k e, hs_table s0 !! k = Some e → k ∉ consumed c → ∃ e', hs_table st !! k = Some e' ∧ same_resource e e') ∧
  (∀ returned, r = Ok returned →
     (∀ k kd, (k, kd) ∈ returned →
        (hs_table s0 !! k = None ∨ k ∈ consumed c) ∧ ∃ e, hs_table st !! k = Some e ∧ entry_kind e = kd) ∧
     (∀ k e, hs_table st !! k = Some e →
        (k ∉ consumed c ∧ is_Some (hs_table s0 !! k)) ∨ (k, entry_kind e) ∈ returned)).
Proof.
  intros Hw Hr. pose proof (wp_call s0 c Hw) as Hc. unfold wp in Hc. rewrite Hr in Hc. destruct r as [returned|e].
  - destruct Hc as [Hk Hn Hret Hwf]. split_and!; [done..|]. intros ? [= <-]. split; [done|].
    intros k e He. destruct (Hn k e He) as [(Ht & e0 & He0 & _)|]; [left; eauto|by right].
  - destruct Hc as (taken & returned & Hsub & [Hk Hn Hret Hwf]). split_and!; [done| |done].
    intros k e' He Ht. apply Hk; [done|set_solver].
Qed.

(** The data of a channel is read by one stream: once [read_via_stream] of it
    succeeded, it fails with [DataTaken]. *)
Theorem data_read_once s0 k d s1 r s2 :
  read_via_stream k s0 = (Ok (Ok d), s1) → read_via_stream k s1 = (Ok r, s2) →
  ∃ err, r = Err err ∧ hs_table s2 !! err = Some (EError RpcDataTaken).
Proof.
  unfold read_via_stream, or_error, push_error, table_push, table_get, on_incoming, table_set, bind. intros H1 H2.
  destruct (hs_table s0 !! k) as [e|]; cbn in H1; [|done]. destruct e as [| |inv ch|]; cbn in H1; try done.
  destruct (hs_invocations s0 !! inv) as [hi|]; cbn in H1; [|done].
  destruct (IncomingChannel_take_data ch (hi_incoming hi)) as [[[r1 ch1] iv1]|] eqn:Ht; cbn in H1; [|done].
  destruct r1 as [d1|e1]; cbn in H1; [|by destruct (table_alloc (<[k:=_]> _))].
  assert (ch_data_taken ch1 = true) as Htaken.
  { unfold IncomingChannel_take_data in Ht. destruct (ch_data_taken ch); [done|].
    destruct (ch_declared ch); cbn in Ht; [|done]. destruct (ch_path ch); [by injection Ht as _ <- _|].
    destruct (take_reader _ _) as [[[?|] ?]|]; cbn in Ht; [by injection Ht as _ <- _| |done].
    destruct (slot_clone _ _); cbn in Ht; [by injection Ht as _ <- _|done]. }
  injection H1 as _ <-. cbn in H2. rewrite lookup_insert_eq in H2. cbn in H2. rewrite lookup_insert_eq in H2. cbn in H2.
  unfold IncomingChannel_take_data in H2. rewrite Htaken in H2. cbn in H2.
  destruct (table_alloc (<[k:=_]> _)) as [err|]; [|done]. injection H2 as <- <-. exists err. split; [done|]. cbn. apply lookup_insert_eq.
Qed.

End outgoing.
End table.

(** ** Witnesses *)

#[local] Instance test_table : ResourceTable (Cx := unit).
Proof.
  refine (Build_ResourceTable (λ t, Some (fresh (dom t : gset N))) _).
  intros t k [= <-]. apply not_elem_of_dom, is_fresh.
Defined.

(** A component with a context and an error makes an invocation. *)
Definition test_host_state : HostState (Cx := unit) :=
  mkHostState {[ 0%N := EContext (Some tt); 1%N := EError RpcDataTaken ]} ∅ 0 tt 8.

Lemma test_host_state_wf : host_wf test_host_state.
Proof.
  split; intros k inv ch; cbn; rewrite lookup_insert_Some, lookup_singleton_Some; by intros [[_ ?]|[_ [_ ?]]].
Qed.

Definition test_invoked : result Trap (list (N * kind)) * HostState (Cx := unit) :=
  @host_run unit test_table leb128_std (CallInvoke 0 [[Some 0%N]]) test_host_state.

Lemma host_resources_confined_witness :
  host_wf test_invoked.2 ∧
  (∃ e', hs_table test_invoked.2 !! 1%N = Some e' ∧ same_resource (EError RpcDataTaken) e') ∧
  match test_invoked.1 with Ok [(_, KOutgoing); (_, KIncoming)] => true | _ => false end = true.
Proof.
  destruct (@host_resources_confined unit test_table leb128_std test_host_state (CallInvoke 0 [[Some 0%N]]) _ _ test_host_state_wf
    (surjective_pairing test_invoked)) as (Hw & Hk & _).
  split; [exact Hw|]. split; [|vm_compute; reflexivity]. apply (Hk 1%N (EError RpcDataTaken)); [reflexivity|].
  cbn. set_solver.
Defined.
