(* ===== verification/Wit.v ===== *)
(** * The worlds which bindings are generated for

    The data of [wit_parser] as the generators of bindings use it: types,
    functions, interfaces, packages and worlds with their names.  [kinds] forgets
    the names, which is what the asynchronous paths of types depend on
    ([Introspect]).  [WitParser] has the functions of [wit_parser] and
    [wit_bindgen_core] which the generators call. *)

From stdpp Require Export strings.
From S2P Require Import Prelude Subscriptions Resolve Introspect.

#[global] Open Scope stdpp_scope.

(** ** Types *)

(** [TypeDefKind] *)
Inductive DefKind :=
  | DRecord (fields : list (string * Type_))
  | DResource
  | DOwn (id : nat)
  | DBorrow (id : nat)
  | DFlags (flags : list string)
  | DTuple (types : list Type_)
  | DVariant (cases : list (string * option Type_))
  | DEnum (cases : list string)
  | DOption (ty : Type_)
  | DResult (ok err : option Type_)
  | DList (ty : Type_)
  | DFixedLengthList (ty : Type_) (n : N)
  | DMap (key value : Type_)
  | DFuture (ty : option Type_)
  | DStream (element : option Type_)
  | DType (ty : Type_)
  | DUnknown.

Inductive TypeOwner := OwnerWorld (id : nat) | OwnerInterface (id : nat) | OwnerNone.

#[global] Instance TypeOwner_eq_dec : EqDecision TypeOwner.
Proof. solve_decision. Defined.

Record TypeDef := mkTypeDef {
  td_name : option string;
  td_kind : DefKind;
  td_owner : TypeOwner;
  td_docs : option string
}.

(** The kind without its names *)
Definition erase (k : DefKind) : TypeDefKind :=
  match k with
  | DRecord fields => KRecord fields.*2
  | DResource => KResource
  | DOwn id => KOwn id
  | DBorrow id => KBorrow id
  | DFlags flags => KFlags (length flags)
  | DTuple types => KTuple types
  | DVariant cases => KVariant cases.*2
  | DEnum cases => KEnum (length cases)
  | DOption ty => KOption ty
  | DResult ok err => KResult ok err
  | DList ty => KList ty
  | DFixedLengthList ty n => KFixedLengthList ty n
  | DMap key value => KMap key value
  | DFuture ty => KFuture ty
  | DStream element => KStream element
  | DType ty => KType ty
  | DUnknown => KUnknown
  end.

(** ** Functions, interfaces and worlds *)

(** [fn_id] is the resource which the kind of a function names. *)
Record Function := mkFunction {
  fn_name : string;
  fn_kind : FunctionKind;
  fn_id : nat;
  fn_params : list (string * Type_);
  fn_result : option Type_;
  fn_docs : option string
}.

Record Interface := mkInterface {
  if_name : option string;
  if_package : option nat;
  if_types : list nat;
  if_functions : list Function
}.

Record Package := mkPackage { pk_namespace : string; pk_name : string; pk_version : option string }.

Inductive WorldKey := KeyName (name : string) | KeyInterface (id : nat).
Inductive WorldItem := ItemInterface (id : nat) | ItemFunction | ItemType.

Record WitWorld := mkWitWorld {
  wd_name : string;
  wd_package : option nat;
  wd_imports : list (WorldKey * WorldItem);
  wd_exports : list (WorldKey * WorldItem)
}.

Record WitResolve := mkWitResolve {
  rs_types : list TypeDef;
  rs_interfaces : list Interface;
  rs_packages : list Package;
  rs_worlds : list WitWorld
}.

Definition kinds (r : WitResolve) : list TypeDefKind := (λ d, erase (td_kind d)) <$> rs_types r.

(** The functions of [wit_parser] and [wit_bindgen_core] *)
Class WitParser := {
  name_world_key : WitResolve → WorldKey → string;
  id_of_name : WitResolve → nat → string → string;
  dealias : WitResolve → nat → nat
}.

(** ** Strings *)

Lemma string_app_cons c (s1 s2 : string) : String c s1 +:+ s2 = String c (s1 +:+ s2).
Proof. done. Qed.

Lemma string_app_assoc (s1 s2 s3 : string) : s1 +:+ (s2 +:+ s3) = (s1 +:+ s2) +:+ s3.
Proof. induction s1 as [|c s1 IH]; [done|]. by rewrite !string_app_cons, IH. Qed.

Lemma string_app_nil (s : string) : s +:+ "" = s.
Proof. induction s as [|c s IH]; [done|]. by rewrite string_app_cons, IH. Qed.

Lemma string_nil_app (s : string) : "" +:+ s = s.
Proof. done. Qed.

#[global] Instance string_app_assoc' : Assoc (=@{string}) String.append.
Proof. intros s1 s2 s3. apply string_app_assoc. Qed.

(** [join] *)
Fixpoint join (sep : string) (l : list string) : string :=
  match l with
  | [] => ""
  | [s] => s
  | s :: l => s +:+ sep +:+ join sep l
  end.

Definition concat_str (l : list string) : string := foldr String.append "" l.

Lemma concat_str_app l1 l2 : concat_str (l1 ++ l2) = concat_str l1 +:+ concat_str l2.
Proof.
  induction l1 as [|s l1 IH]; [done|]. change (s +:+ concat_str (l1 ++ l2) = (s +:+ concat_str l1) +:+ concat_str l2).
  by rewrite IH, string_app_assoc.
Qed.

(** [split] on a character; there is one part at least. *)
Fixpoint split_on (sep : Ascii.ascii) (s : string) : list string :=
  match s with
  | EmptyString => [""]
  | String c s =>
      if decide (c = sep) then "" :: split_on sep s
      else match split_on sep s with [] => [String c ""] | w :: ws => String c w :: ws end
  end.

Lemma split_on_nonempty sep s : split_on sep s ≠ [].
Proof. destruct s as [|c s]; cbn; [done|]. destruct (decide _); [done|]. by destruct (split_on sep s). Qed.

Lemma join_split sep s : join (String sep "") (split_on sep s) = s.
Proof.
  induction s as [|c s IH]; [done|]. cbn. pose proof (split_on_nonempty sep s) as Hn.
  destruct (decide (c = sep)) as [->|]; destruct (split_on sep s) as [|w ws]; try done; cbn in *.
  - by rewrite string_nil_app, string_app_cons, IH.
  - rewrite <- IH. by destruct ws.
Qed.

(** A character which does not occur in a string *)
Fixpoint lacks (sep : Ascii.ascii) (s : string) : Prop :=
  match s with EmptyString => True | String c s => c ≠ sep ∧ lacks sep s end.

Lemma lacks_app c s1 s2 : lacks c (s1 +:+ s2) ↔ lacks c s1 ∧ lacks c s2.
Proof. induction s1 as [|d s1 IH]; [by split; [|intros []]|]. rewrite string_app_cons. cbn. rewrite IH. tauto. Qed.

Lemma split_on_lacks sep s : lacks sep s → split_on sep s = [s].
Proof. induction s as [|c s IH]; cbn; [done|]. intros [Hc Hs]. rewrite decide_False, IH by done. done. Qed.

Lemma split_on_app sep s1 s2 : lacks sep s1 → split_on sep (s1 +:+ String sep s2) = s1 :: split_on sep s2.
Proof.
  induction s1 as [|c s1 IH]; intros Hs; rewrite ?string_nil_app, ?string_app_cons; cbn [split_on]; [by rewrite decide_True|].
  destruct Hs as [Hc Hs]. by rewrite decide_False, IH by done.
Qed.

Lemma split_lacks sep s : Forall (lacks sep) (split_on sep s).
Proof.
  induction s as [|c s IH]; cbn; [by repeat constructor|]. destruct (decide (c = sep)); [by constructor|].
  destruct (split_on sep s) as [|w ws]; [by repeat constructor|]. apply Forall_cons in IH as [Hw Hws].
  by constructor.
Qed.

(** [{:?}] of a string: it is quoted, and quotes, backslashes and control
    characters are escaped. *)
Definition quote : Ascii.ascii := Ascii.ascii_of_nat 34.
Definition backslash : Ascii.ascii := Ascii.ascii_of_nat 92.

Definition hex_digit (n : nat) : Ascii.ascii :=
  Ascii.ascii_of_nat (if n <? 10 then 48 + n else 87 + n).

Definition escape_char (c : Ascii.ascii) : string :=
  let n := Ascii.nat_of_ascii c in
  if n =? 0 then String backslash "0"
  else if n =? 9 then String backslash "t"
  else if n =? 10 then String backslash "n"
  else if n =? 13 then String backslash "r"
  else if n =? 34 then String backslash (String quote "")
  else if n =? 92 then String backslash (String backslash "")
  else if (n <? 16) then String backslash "u{" +:+ String (hex_digit n) "}"
  else if (n <? 32) || (n =? 127) then
    String backslash "u{" +:+ String (hex_digit (n / 16)) (String (hex_digit (n mod 16)) "}")
  else String c "".

Fixpoint escape (s : string) : string :=
  match s with EmptyString => "" | String c s => escape_char c +:+ escape s end.

Definition debug (s : string) : string := String quote "" +:+ escape s +:+ String quote "".
