(* ===== verification/JsNames.v ===== *)
(** * Names of JavaScript bindings

    Model of the functions of [crates/wit-bindgen-js/src/lib.rs] which name what
    is generated: identifiers, types, functions and the specifiers of modules.
    The identifiers of WIT are ASCII, so that the case of a character is that of
    ASCII.

    The theorems show that the identifiers are valid and not reserved, that names
    are told apart, and that a relative specifier resolves to its module. *)

From stdpp Require Import pretty.
From S2P Require Import Prelude Subscriptions Resolve Introspect Wit.

(** ** Characters *)

Definition between (a b : nat) (c : Ascii.ascii) : bool :=
  (a <=? Ascii.nat_of_ascii c) && (Ascii.nat_of_ascii c <=? b).
Definition is_lower : Ascii.ascii → bool := between 97 122.
Definition is_upper : Ascii.ascii → bool := between 65 90.
Definition is_digit : Ascii.ascii → bool := between 48 57.

Definition to_upper (c : Ascii.ascii) : Ascii.ascii :=
  if is_lower c then Ascii.ascii_of_nat (Ascii.nat_of_ascii c - 32) else c.
Definition to_lower (c : Ascii.ascii) : Ascii.ascii :=
  if is_upper c then Ascii.ascii_of_nat (Ascii.nat_of_ascii c + 32) else c.

Fixpoint all_chars (p : Ascii.ascii → bool) (s : string) : bool :=
  match s with EmptyString => true | String c s => p c && all_chars p s end.

Fixpoint map_chars (f : Ascii.ascii → Ascii.ascii) (s : string) : string :=
  match s with EmptyString => "" | String c s => String (f c) (map_chars f s) end.

(** ** Identifiers *)

Definition dash : Ascii.ascii := Ascii.ascii_of_nat 45.
Definition slash : Ascii.ascii := Ascii.ascii_of_nat 47.

Definition is_acronym (s : string) : bool := all_chars (λ c, is_digit c || is_upper c) s.

Definition capitalize (s : string) : string :=
  match s with String c s => String (to_upper c) s | EmptyString => "" end.

Definition camel_part (part : string) : string := if is_acronym part then part else capitalize part.

Definition camel_case (name : string) : string :=
  match split_on dash name with
  | [] => ""
  | part :: parts => map_chars to_lower part +:+ concat_str (camel_part <$> parts)
  end.

Definition upper_camel_case (name : string) : string := concat_str (camel_part <$> split_on dash name).

Definition type_name (name : string) : string :=
  let s := upper_camel_case name in if decide (s = "Handler") then "Handler_" else s.

Definition reserved : list string :=
  ["arguments"; "await"; "break"; "case"; "catch"; "class"; "const"; "continue"; "debugger"; "default"; "delete";
   "do"; "else"; "enum"; "eval"; "export"; "extends"; "false"; "finally"; "for"; "function"; "globalThis"; "if";
   "implements"; "import"; "in"; "instanceof"; "interface"; "let"; "new"; "null"; "package"; "private"; "protected";
   "public"; "return"; "static"; "super"; "switch"; "then"; "this"; "throw"; "true"; "try"; "typeof"; "var"; "void";
   "while"; "with"; "yield"].

Definition js_ident (name : string) : string :=
  let name := camel_case name in if decide (name ∈ reserved) then name +:+ "_" else name.

Definition param_ident (name : string) : string :=
  let s := js_ident name in if decide (s = "transport") then "transport_" else s.

(** ** Functions *)

Definition func_resource (func : Function) : option nat :=
  match fn_kind func with
  | Constructor | Method | Static | AsyncMethod | AsyncStatic => Some (fn_id func)
  | Freestanding | AsyncFreestanding => None
  end.

(** [split_once] *)
Fixpoint split_once (sep : Ascii.ascii) (s : string) : option (string * string) :=
  match s with
  | EmptyString => None
  | String c s =>
      if decide (c = sep) then Some ("", s)
      else '(l, r) ← split_once sep s; Some (String c l, r)
  end.

Definition dot : Ascii.ascii := Ascii.ascii_of_nat 46.

Definition func_name (func : Function) : option string :=
  match fn_kind func with
  | Constructor => Some "new"
  | Freestanding | AsyncFreestanding => Some (js_ident (fn_name func))
  | kind =>
      name ← rpc_func_name kind (fn_name func);
      '(_, name) ← split_once dot name;
      let s := camel_case name in
      Some (if decide (s = "new") then "new_" else s)
  end.

(** ** Modules *)

Fixpoint repeat_str (s : string) (n : nat) : string :=
  match n with 0 => "" | S n => s +:+ repeat_str s n end.

Definition relative (from to : string) : string :=
  let depth := length (split_on slash from) in
  if 1 <? depth then repeat_str "../" (depth - 1) +:+ to +:+ ".js" else "./" +:+ to +:+ ".js".

(** *** Lemmas *)

Lemma all_chars_app p s1 s2 : all_chars p (s1 +:+ s2) = all_chars p s1 && all_chars p s2.
Proof. induction s1 as [|c s1 IH]; [done|]. rewrite string_app_cons. cbn. by rewrite IH, andb_assoc. Qed.

Lemma all_chars_impl (p q : Ascii.ascii → bool) s :
  (∀ c, p c = true → q c = true) → all_chars p s = true → all_chars q s = true.
Proof. intros Hpq. induction s as [|c s IH]; [done|]. cbn. intros [? ?]%andb_prop. apply andb_true_intro. auto. Qed.

Lemma all_chars_map p q f s :
  (∀ c, p c = true → q (f c) = true) → all_chars p s = true → all_chars q (map_chars f s) = true.
Proof. intros Hpq. induction s as [|c s IH]; [done|]. cbn. intros [? ?]%andb_prop. apply andb_true_intro. auto. Qed.

(** A fact about every character *)
Definition all_ascii : list Ascii.ascii := Ascii.ascii_of_nat <$> seq 0 256.

Lemma ascii_forall (p : Ascii.ascii → bool) : forallb p all_ascii = true → ∀ c, p c = true.
Proof.
  rewrite forallb_forall. intros Hp c. apply Hp. apply list_elem_of_In, list_elem_of_fmap.
  exists (Ascii.nat_of_ascii c). split; [by rewrite Ascii.ascii_nat_embedding|].
  apply elem_of_seq. pose proof (Ascii.nat_ascii_bounded c). lia.
Qed.

Lemma ascii_impl (p q : Ascii.ascii → bool) :
  forallb (λ c, implb (p c) (q c)) all_ascii = true → ∀ c, p c = true → q c = true.
Proof. intros Ha c Hc. pose proof (ascii_forall _ Ha c) as Hi. cbn in Hi. by rewrite Hc in Hi. Qed.

(** ** Names of WIT *)

(** A word is of lower case or an acronym, and a name is words with dashes in
    between. *)
Definition lower_word (w : string) : bool :=
  match w with String c s => is_lower c && all_chars (λ c, is_lower c || is_digit c) s | EmptyString => false end.
Definition acronym (w : string) : bool :=
  match w with String c s => is_upper c && all_chars (λ c, is_upper c || is_digit c) s | EmptyString => false end.
Definition wit_name (name : string) : Prop := Forall (λ w, lower_word w || acronym w = true) (split_on dash name).
Definition lower_name (name : string) : Prop := Forall (λ w, lower_word w = true) (split_on dash name).

Definition is_letter (c : Ascii.ascii) : bool := is_lower c || is_upper c.
Definition ident_char (c : Ascii.ascii) : bool := is_letter c || is_digit c || Ascii.eqb c (Ascii.ascii_of_nat 95).
Definition valid_ident (s : string) : bool :=
  match s with String c s => is_letter c && all_chars ident_char s | EmptyString => false end.

Lemma word_chars w : lower_word w || acronym w = true → all_chars ident_char w = true.
Proof.
  destruct w as [|c w]; [done|]. cbn. intros [[H1 H2]%andb_prop|[H1 H2]%andb_prop]%orb_prop; apply andb_true_intro; split.
  - by apply (ascii_impl is_lower ident_char); [vm_compute|].
  - revert H2. apply all_chars_impl, ascii_impl. by vm_compute.
  - by apply (ascii_impl is_upper ident_char); [vm_compute|].
  - revert H2. apply all_chars_impl, ascii_impl. by vm_compute.
Qed.

Lemma camel_part_chars w : lower_word w || acronym w = true → all_chars ident_char (camel_part w) = true.
Proof.
  intros Hw%word_chars. unfold camel_part. destruct (is_acronym w); [done|]. destruct w as [|c w]; [done|].
  cbn in *. apply andb_prop in Hw as [H1 H2]. rewrite H2, andb_true_r. revert c H1. apply ascii_impl. by vm_compute.
Qed.

Lemma camel_case_valid name : wit_name name → valid_ident (camel_case name) = true.
Proof.
  unfold wit_name, camel_case. destruct (split_on dash name) as [|w ws] eqn:Hs; [by apply split_on_nonempty in Hs|].
  intros [Hw Hws]%Forall_cons. pose proof (word_chars w Hw) as Hc.
  assert (all_chars ident_char (concat_str (camel_part <$> ws)) = true) as Hrest.
  { clear -Hws. induction Hws as [|w ws Hw _ IH]; [done|]. rewrite fmap_cons.
    change (all_chars ident_char (camel_part w +:+ concat_str (camel_part <$> ws)) = true).
    by rewrite all_chars_app, IH, camel_part_chars. }
  destruct w as [|c w]; [done|]. cbn [map_chars]. rewrite string_app_cons. cbn [valid_ident].
  cbn in Hc. apply andb_prop in Hc as [_ Hc]. rewrite all_chars_app, Hrest, andb_true_r. apply andb_true_intro. split.
  - cbn in Hw. assert (is_letter c = true) as Hl.
    { apply orb_prop in Hw as [[H _]%andb_prop|[H _]%andb_prop]; unfold is_letter; rewrite H; [done|by destruct (is_lower c)]. }
    clear -Hl. revert c Hl. apply ascii_impl. by vm_compute.
  - revert Hc. apply all_chars_map, ascii_impl. by vm_compute.
Qed.

Lemma reserved_suffix w : w ∈ reserved → w +:+ "_" ∉ reserved.
Proof.
  intros Hw. assert (Forall (λ w, w +:+ "_" ∉ reserved) reserved) as Hr.
  { apply (bool_decide_unpack _). by vm_compute. }
  rewrite Forall_forall in Hr. by apply Hr.
Qed.

(** The identifiers of bindings are valid in JavaScript: that of a name of WIT is
    an identifier and is not reserved. *)
Theorem js_ident_valid name :
  wit_name name → valid_ident (js_ident name) = true ∧ js_ident name ∉ reserved.
Proof.
  intros Hv%camel_case_valid. unfold js_ident. destruct (decide _) as [Hr|]; [|done].
  split; [|by apply reserved_suffix]. destruct (camel_case name) as [|c s]; [done|]. rewrite string_app_cons. cbn in *.
  apply andb_prop in Hv as [Hc Hs]. by rewrite Hc, all_chars_app, Hs.
Qed.

(** ** Names are told apart *)

(** The name which camel case is of *)
Fixpoint uncamel (s : string) : string :=
  match s with
  | EmptyString => ""
  | String c s => if is_upper c then String dash (String (to_lower c) (uncamel s)) else String c (uncamel s)
  end.

Lemma join_cons sep w ws : join sep (w :: ws) = w +:+ concat_str ((λ v, sep +:+ v) <$> ws).
Proof.
  revert w. induction ws as [|v ws IH]; intros w; [by rewrite string_app_nil|].
  change (w +:+ sep +:+ join sep (v :: ws) = w +:+ ((sep +:+ v) +:+ concat_str ((λ v, sep +:+ v) <$> ws))).
  by rewrite IH, !string_app_assoc.
Qed.

Lemma uncamel_lower w s :
  all_chars (λ c, is_lower c || is_digit c) w = true → uncamel (w +:+ s) = w +:+ uncamel s.
Proof.
  induction w as [|c w IH]; [done|]. rewrite !string_app_cons. cbn. intros [Hc Hw]%andb_prop. rewrite IH by done.
  assert (negb (is_upper c) = true) as Hu by (clear -Hc; revert c Hc; apply ascii_impl; by vm_compute).
  by destruct (is_upper c).
Qed.

Lemma uncamel_part w s : lower_word w = true → uncamel (camel_part w +:+ s) = String dash (w +:+ uncamel s).
Proof.
  destruct w as [|c w]; [done|]. cbn [lower_word]. intros [Hc Hw]%andb_prop. unfold camel_part.
  assert (negb (is_digit c || is_upper c) = true ∧ is_upper (to_upper c) = true ∧
    Ascii.eqb (to_lower (to_upper c)) c = true) as (Hn & Hu & He%Ascii.eqb_eq).
  { clear -Hc. split_and!; revert c Hc; apply ascii_impl; by vm_compute. }
  assert (is_acronym (String c w) = false) as ->.
  { unfold is_acronym. cbn. by destruct (is_digit c || is_upper c). }
  cbn [capitalize]. rewrite string_app_cons. cbn [uncamel]. by rewrite Hu, He, uncamel_lower.
Qed.

Lemma map_lower_word w : lower_word w = true → map_chars to_lower w = w.
Proof.
  intros Hw. assert (all_chars (λ c, is_lower c || is_digit c) w = true) as Hc.
  { destruct w as [|c w]; [done|]. cbn in *. apply andb_prop in Hw as [-> Hw]. by rewrite Hw. }
  clear Hw. induction w as [|c w IH]; [done|]. cbn in *. apply andb_prop in Hc as [Hc Hw]. rewrite IH by done. f_equal.
  apply Ascii.eqb_eq. revert c Hc. apply ascii_impl. by vm_compute.
Qed.

Lemma uncamel_parts ws :
  Forall (λ w, lower_word w = true) ws →
  uncamel (concat_str (camel_part <$> ws)) = concat_str ((λ v, String dash "" +:+ v) <$> ws).
Proof.
  induction 1 as [|v ws Hv _ IH]; [done|]. rewrite !fmap_cons.
  change (uncamel (camel_part v +:+ concat_str (camel_part <$> ws)) =
    (String dash "" +:+ v) +:+ concat_str ((λ v, String dash "" +:+ v) <$> ws)).
  by rewrite uncamel_part, IH.
Qed.

(** Names of WIT in lower case are told apart by their camel case: it is
    that of one name only, which can be recovered from it. *)
Theorem camel_case_roundtrip name : lower_name name → uncamel (camel_case name) = name.
Proof.
  unfold lower_name, camel_case. rewrite <- (join_split dash name) at 3.
  destruct (split_on dash name) as [|w ws]; [done|]. intros [Hw Hws]%Forall_cons.
  rewrite join_cons, map_lower_word, uncamel_lower by (done || by destruct w; [|apply andb_prop in Hw as [H1 H2]; cbn; rewrite H1, H2]).
  f_equal. by apply uncamel_parts.
Qed.

Lemma uncamel_upper name : lower_name name → uncamel (upper_camel_case name) = String dash name.
Proof.
  unfold lower_name, upper_camel_case. intros Hn. rewrite uncamel_parts by done.
  rewrite <- (join_split dash name) at 2. destruct (split_on dash name) as [|w ws] eqn:Hs; [by apply split_on_nonempty in Hs|].
  by rewrite join_cons.
Qed.

(** The name of a type in JavaScript is that of one type in lower case. *)
Definition untype (s : string) : string :=
  if decide (s = "Handler_") then "handler"
  else match uncamel s with String _ name => name | EmptyString => "" end.

Lemma untype_type_name name : lower_name name → untype (type_name name) = name.
Proof.
  intros Hn. pose proof (uncamel_upper name Hn) as Hu. unfold type_name. destruct (decide _) as [He|He].
  - rewrite He in Hu. by injection Hu as <-.
  - unfold untype. rewrite decide_False, Hu; [done|]. intros Hx. rewrite Hx in Hu. injection Hu as <-.
    apply (bool_decide_pack _) in Hn. by vm_compute in Hn.
Qed.

Lemma type_name_inj n1 n2 : lower_name n1 → lower_name n2 → type_name n1 = type_name n2 → n1 = n2.
Proof. intros H1 H2 He. by rewrite <- (untype_type_name n1), <- (untype_type_name n2), He. Qed.

(** Acronyms are not: these names are different in WIT and the same in
    JavaScript. *)
Example camel_case_acronyms :
  wit_name "a-BC" ∧ wit_name "a-b-c" ∧ camel_case "a-BC" = camel_case "a-b-c" ∧ type_name "a-BC" = type_name "a-b-c".
Proof. split_and!; [by apply (bool_decide_unpack _); vm_compute..|by vm_compute|by vm_compute]. Qed.

(** ** Relative specifiers *)

(** A specifier is resolved against the directory of the module which imports
    it. *)
Fixpoint walk (dir segments : list string) : list string :=
  match segments with
  | [] => dir
  | s :: segments =>
      if decide (s = ".") then walk dir segments
      else if decide (s = "..") then walk (removelast dir) segments
      else walk (dir ++ [s]) segments
  end.

Definition resolve_specifier (from spec : string) : list string :=
  walk (removelast (split_on slash from)) (split_on slash spec).

Definition plain (s : string) : Prop := s ≠ "." ∧ s ≠ "..".

Lemma walk_plain dir segments : Forall plain segments → walk dir segments = dir ++ segments.
Proof.
  intros Hp. revert dir. induction Hp as [|s segments [H1 H2] _ IH]; intros dir; cbn; [by rewrite app_nil_r|].
  by rewrite !decide_False, IH, <- app_assoc by done.
Qed.

Lemma split_up n s : split_on slash (repeat_str "../" n +:+ s) = repeat ".." n ++ split_on slash s.
Proof.
  induction n as [|n IH]; [done|]. cbn [repeat_str repeat app]. rewrite <- IH, <- string_app_assoc. done.
Qed.

Lemma walk_up dir n segments : length dir = n → walk dir (repeat ".." n ++ segments) = walk [] segments.
Proof.
  revert dir. induction n as [|n IH]; intros dir Hd; [by destruct dir|]. cbn.
  apply IH. rewrite removelast_firstn_len, length_take. lia.
Qed.

(** The segments of a path with an extension *)
Lemma split_ext s e : lacks slash e →
  split_on slash (s +:+ e) = removelast (split_on slash s) ++ [List.last (split_on slash s) "" +:+ e].
Proof.
  intros He. induction s as [|c s IH]; [cbn; by rewrite string_nil_app, split_on_lacks|].
  rewrite string_app_cons. cbn [split_on]. pose proof (split_on_nonempty slash s) as Hn.
  rewrite IH. destruct (split_on slash s) as [|w ws]; [done|].
  destruct (decide (c = slash)) as [->|Hc]; [by destruct ws|]. by destruct ws.
Qed.

(** The specifier of a module resolves to the module: whatever the
    directories of the two generated modules, importing [relative from to] from
    [from] imports the file which [to] is written to. *)
Theorem relative_resolves from to :
  Forall plain (split_on slash to) → resolve_specifier from (relative from to) = split_on slash (to +:+ ".js").
Proof.
  intros Hp. assert (Forall plain (split_on slash (to +:+ ".js"))) as Hjs.
  { rewrite split_ext by (vm_compute; repeat split; discriminate). apply Forall_app. split.
    - rewrite removelast_firstn_len. by apply Forall_take.
    - constructor; [|done]. destruct (List.last _ _) as [|c [|c' [|? ?]]]; by split. }
  unfold resolve_specifier, relative. pose proof (split_on_nonempty slash from) as Hn.
  destruct (Nat.ltb_spec 1 (length (split_on slash from))) as [Hd|Hd].
  - rewrite split_up, walk_up; [by rewrite walk_plain|]. rewrite removelast_firstn_len, length_take. lia.
  - change (walk (removelast (split_on slash from)) ("." :: split_on slash (to +:+ ".js")) = split_on slash (to +:+ ".js")).
    destruct (split_on slash from) as [|w [|? ?]]; [done| |cbn in Hd; lia]. cbn. by rewrite walk_plain.
Qed.

Lemma camel_case_roundtrip_witness : camel_case "get-u8-value" = "getU8Value" ∧ uncamel (camel_case "get-u8-value") = "get-u8-value".
Proof. split; [reflexivity|]. apply camel_case_roundtrip. repeat constructor. Defined.
