(* ===== verification/JsTypes.v ===== *)
(** * Types of JavaScript bindings

    Model of [Module], [Gen] and its functions on types of
    [crates/wit-bindgen-js/src/lib.rs]: the trees of types, which describe values
    to the runtime, their declarations in TypeScript, and the definitions of the
    named types of a module.

    A [Gen] is its borrows ([Gen]) and the module which it writes ([Module_]),
    which is the state of [GenM]; [None] is a panic or the lack of fuel.  Types
    refer to entries of an arena, and recursion follows the references with
    fuel. *)

From stdpp Require Import pretty.
From S2P Require Import Prelude Subscriptions Resolve Introspect Wit JsNames.

(** ** Modules *)

Inductive ModulePath := Local (path : string) | External (spec : string).

#[global] Instance ModulePath_eq_dec : EqDecision ModulePath.
Proof. solve_decision. Defined.

Record Module_ := mkModule {
  m_js : string;
  m_dts : string;
  m_runtime : list string;
  m_wrpc_types : bool;
  m_deps : list (string * bool)
}.

(** [Module::default] *)
Definition Module_default : Module_ := mkModule "" "" [] false [].

(** [BTreeSet::insert] *)
Fixpoint btree_insert (x : string) (l : list string) : list string :=
  match l with
  | [] => [x]
  | y :: l' =>
      match String.compare x y with
      | Lt => x :: l
      | Eq => l
      | Gt => y :: btree_insert x l'
      end
  end.

Definition newline : Ascii.ascii := Ascii.ascii_of_nat 10.
Definition nl : string := String newline "".

(** [uwriteln!] *)
Definition writeln (out line : string) : string := out +:+ line +:+ nl.

(** ** Generators *)

Record Gen := mkGen {
  g_interfaces : gmap nat ModulePath;
  g_world : string;
  g_path : string
}.

Definition GenM (A : Type) : Type := Module_ → option (A * Module_).

#[global] Instance GenM_ret : MRet GenM := λ A x m, Some (x, m).
#[global] Instance GenM_bind : MBind GenM := λ A B f a m, '(x, m) ← a m; f x m.

Definition panic {A} : GenM A := λ _, None.
Definition lift {A} (o : option A) : GenM A := λ m, x ← o; Some (x, m).

Definition push_js (s : string) : GenM () := λ m,
  Some ((), mkModule (m_js m +:+ s) (m_dts m) (m_runtime m) (m_wrpc_types m) (m_deps m)).
Definition push_dts (s : string) : GenM () := λ m,
  Some ((), mkModule (m_js m) (m_dts m +:+ s) (m_runtime m) (m_wrpc_types m) (m_deps m)).
Definition use_runtime (name : string) : GenM () := λ m,
  Some ((), mkModule (m_js m) (m_dts m) (btree_insert name (m_runtime m)) (m_wrpc_types m) (m_deps m)).
Definition use_wrpc_types : GenM () := λ m,
  Some ((), mkModule (m_js m) (m_dts m) (m_runtime m) true (m_deps m)).

(** ** Documentation *)

Definition is_whitespace (c : Ascii.ascii) : bool :=
  between 9 13 c || Ascii.eqb c (Ascii.ascii_of_nat 32).

Fixpoint trim_start (s : string) : string :=
  match s with
  | EmptyString => ""
  | String c s' => if is_whitespace c then trim_start s' else s
  end.

Fixpoint trim_end (s : string) : string :=
  match s with
  | EmptyString => ""
  | String c s' =>
      let s' := trim_end s' in
      if is_whitespace c && bool_decide (s' = "") then "" else String c s'
  end.

Definition trim (s : string) : string := trim_end (trim_start s).

Definition carriage_return : Ascii.ascii := Ascii.ascii_of_nat 13.

Fixpoint strip_cr (s : string) : string :=
  match s with
  | EmptyString => ""
  | String c s' => if Ascii.eqb c carriage_return && bool_decide (s' = "") then "" else String c (strip_cr s')
  end.

(** [lines] *)
Definition lines (s : string) : list string :=
  let parts := split_on newline s in
  (strip_cr <$> removelast parts) ++ (if decide (List.last parts "" = "") then [] else [List.last parts ""]).

Definition star : Ascii.ascii := Ascii.ascii_of_nat 42.

(** [replace] of the end of a comment *)
Fixpoint replace_close (s : string) : string :=
  match s with
  | String c (String d s' as tail) =>
      if Ascii.eqb c star && Ascii.eqb d slash then String star (String backslash (String slash (replace_close s')))
      else String c (replace_close tail)
  | _ => s
  end.

Definition docs_line (indent line : string) : string :=
  let line := replace_close line in
  if decide (line = "") then indent +:+ " *" +:+ nl else indent +:+ " * " +:+ line +:+ nl.

Definition ts_docs (docs : option string) (indent : string) : string :=
  match docs with
  | None => ""
  | Some contents =>
      indent +:+ "/**" +:+ nl +:+ concat_str (docs_line indent <$> lines (trim contents)) +:+
      indent +:+ " */" +:+ nl
  end.

(** ** Aliases of types *)

(** [while let Type::Id(id) = ty && let TypeDefKind::Type(t) = ...] *)
Fixpoint peel (fuel : nat) (resolve : WitResolve) (ty : Type_) : option Type_ :=
  match ty with
  | TyId id =>
      def ← rs_types resolve !! id;
      match td_kind def with
      | DType t => match fuel with 0 => None | S fuel => peel fuel resolve t end
      | _ => Some ty
      end
  | _ => Some ty
  end.

Definition is_option (fuel : nat) (resolve : WitResolve) (ty : Type_) : option bool :=
  t ← peel fuel resolve ty;
  match t with
  | TyId id => def ← rs_types resolve !! id; Some (match td_kind def with DOption _ => true | _ => false end)
  | _ => Some false
  end.

Fixpoint may_be_promise (fuel : nat) (resolve : WitResolve) (ty : Type_) : option bool :=
  t ← peel fuel resolve ty;
  match t with
  | TyId id =>
      def ← rs_types resolve !! id;
      match td_kind def with
      | DFuture _ => Some true
      | DOption ty =>
          match fuel with
          | 0 => None
          | S fuel => b ← is_option fuel resolve ty; if b : bool then Some false else may_be_promise fuel resolve ty
          end
      | _ => Some false
      end
  | _ => Some false
  end.

Section gen.
Context `{WitParser} (resolve : WitResolve) (g : Gen).

(** An alias can be followed as often as there are types. *)
Abbreviation peel_fuel := (length (rs_types resolve)) (only parsing).

(** ** References *)

Definition specifier (target : ModulePath) : string :=
  match target with Local path => relative (g_path g) path | External spec => spec end.

Definition alias (i : nat) : string := "$" +:+ pretty i.

(** [Gen::dep] *)
Definition dep (target : ModulePath) (js : bool) : GenM string := λ m,
  let spec := specifier target in
  let '(i, deps) :=
    match list_find (λ d, d.1 = spec) (m_deps m) with
    | Some (i, _) => (i, m_deps m)
    | None => (length (m_deps m), m_deps m ++ [(spec, false)])
    end in
  let deps := if js then alter (λ d, (d.1, true)) i deps else deps in
  Some (alias i, mkModule (m_js m) (m_dts m) (m_runtime m) (m_wrpc_types m) deps).

(** The module of the owner of a type *)
Definition owner_path (owner : TypeOwner) : option ModulePath :=
  match owner with
  | OwnerInterface id => g_interfaces g !! id
  | OwnerWorld _ => Some (Local (g_world g))
  | OwnerNone => None
  end.

(** [Gen::type_ref] *)
Definition type_ref (id : nat) (js : bool) : GenM (option string) :=
  def ← lift (rs_types resolve !! id);
  match td_name def, owner_path (td_owner def) with
  | Some name, Some path =>
      let name := type_name name in
      if decide (path = Local (g_path g)) then mret (Some name)
      else d ← dep path js; mret (Some (d +:+ "." +:+ name))
  | _, _ => mret None
  end.

(** ** Trees of types *)

(** The trees of types without identifier; an [error-context] is empty. *)
Definition prim_name (ty : Type_) : string :=
  match ty with
  | TyBool => "bool"
  | TyU8 => "u8"
  | TyU16 => "u16"
  | TyU32 => "u32"
  | TyU64 => "u64"
  | TyS8 => "s8"
  | TyS16 => "s16"
  | TyS32 => "s32"
  | TyS64 => "s64"
  | TyF32 => "f32"
  | TyF64 => "f64"
  | TyChar => "char"
  | TyString => "string"
  | TyErrorContext => "tuple()"
  | TyId _ => ""
  end.

(** [Gen::js_ty], [f] being its first case *)
Definition js_ty_with (f : nat → GenM string) (ty : Type_) : GenM string :=
  match ty with
  | TyId id => f id
  | ty => use_runtime "t";; mret ("$t." +:+ prim_name ty)
  end.

Definition js_opt_ty_with (f : Type_ → GenM string) (ty : option Type_) : GenM string :=
  match ty with Some ty => f ty | None => mret "null" end.

(** The name of the resource of a handle *)
Definition handle_name (id : nat) : option string :=
  def ← rs_types resolve !! dealias resolve id; Some (default "" (td_name def)).

Definition braces (s : string) : string := "{ " +:+ s +:+ " }".

(** [Gen::js_kind], [f] being [js_ty] *)
Definition js_kind_with (f : Type_ → GenM string) (kind : DefKind) : GenM string :=
  match kind with
  | DType ty => f ty
  | _ =>
      use_runtime "t";;
      match kind with
      | DRecord fields =>
          fields ← mapM (λ field, s ← f field.2; mret (debug field.1 +:+ ": " +:+ s)) fields;
          mret ("$t.record(" +:+ braces (join ", " fields) +:+ ")")
      | DOwn id => name ← lift (handle_name id); mret ("$t.own(" +:+ debug name +:+ ")")
      | DBorrow id => name ← lift (handle_name id); mret ("$t.borrow(" +:+ debug name +:+ ")")
      | DFlags flags => mret ("$t.flags([" +:+ join ", " (debug <$> flags) +:+ "])")
      | DTuple types => types ← mapM f types; mret ("$t.tuple(" +:+ join ", " types +:+ ")")
      | DVariant cases =>
          cases ← mapM (λ case, s ← js_opt_ty_with f case.2; mret (debug case.1 +:+ ": " +:+ s)) cases;
          mret ("$t.variant(" +:+ braces (join ", " cases) +:+ ")")
      | DEnum cases => mret ("$t.enum([" +:+ join ", " (debug <$> cases) +:+ "])")
      | DOption ty => s ← f ty; mret ("$t.option(" +:+ s +:+ ")")
      | DResult ok err =>
          ok ← js_opt_ty_with f ok;
          err ← js_opt_ty_with f err;
          mret ("$t.result(" +:+ ok +:+ ", " +:+ err +:+ ")")
      | DList ty => s ← f ty; mret ("$t.list(" +:+ s +:+ ")")
      | DFuture (Some ty) => s ← f ty; mret ("$t.future(" +:+ s +:+ ")")
      | DFuture None => mret "$t.future()"
      | DStream (Some ty) => s ← f ty; mret ("$t.stream(" +:+ s +:+ ")")
      | DStream None => mret "$t.stream($t.tuple())"
      | DResource | DMap _ _ | DFixedLengthList _ _ | DType _ | DUnknown => panic
      end
  end.

Fixpoint js_tyid (fuel : nat) (id : nat) : GenM string :=
  match fuel with
  | 0 => panic
  | S fuel =>
      r ← type_ref id true;
      match r with
      | Some r => mret r
      | None => def ← lift (rs_types resolve !! id); js_kind_with (js_ty_with (js_tyid fuel)) (td_kind def)
      end
  end.

Definition js_ty (fuel : nat) : Type_ → GenM string := js_ty_with (js_tyid fuel).
Definition js_opt_ty (fuel : nat) : option Type_ → GenM string := js_opt_ty_with (js_ty fuel).
Definition js_kind (fuel : nat) : DefKind → GenM string := js_kind_with (js_ty fuel).

(** ** Declarations *)

(** [Gen::ts_ty], [f] being its first case *)
Definition ts_ty_with (f : nat → GenM string) (ty : Type_) : GenM string :=
  match ty with
  | TyId id => f id
  | TyBool => mret "boolean"
  | TyU8 | TyU16 | TyU32 | TyS8 | TyS16 | TyS32 | TyF32 | TyF64 => mret "number"
  | TyU64 | TyS64 => mret "bigint"
  | TyChar | TyString => mret "string"
  | TyErrorContext => mret "[]"
  end.

Definition ts_opt_ty_with (f : Type_ → GenM string) (ty : option Type_) : GenM string :=
  match ty with Some ty => f ty | None => mret "void" end.

(** The arrays of numbers *)
Definition ts_array (ty : Type_) : option string :=
  match ty with
  | TyU8 => Some "globalThis.Uint8Array"
  | TyS8 => Some "globalThis.Int8Array"
  | TyU16 => Some "globalThis.Uint16Array"
  | TyS16 => Some "globalThis.Int16Array"
  | TyU32 => Some "globalThis.Uint32Array"
  | TyS32 => Some "globalThis.Int32Array"
  | TyU64 => Some "globalThis.BigUint64Array"
  | TyS64 => Some "globalThis.BigInt64Array"
  | TyF32 => Some "globalThis.Float32Array"
  | TyF64 => Some "globalThis.Float64Array"
  | _ => None
  end.

Definition ts_list_with (f : Type_ → GenM string) (ty : Type_) : GenM string :=
  t ← lift (peel peel_fuel resolve ty);
  match ts_array t with
  | Some array => mret array
  | None => s ← f ty; mret ("globalThis.Array<" +:+ s +:+ ">")
  end.

Definition ts_tagged_with (f : Type_ → GenM string) (kind : string) (ty : option Type_) : GenM string :=
  match ty with
  | Some ty => s ← f ty; mret (braces ("kind: " +:+ debug kind +:+ "; value: " +:+ s))
  | None => mret (braces ("kind: " +:+ debug kind))
  end.

(** [Gen::ts_kind], [f] being [ts_ty] *)
Definition ts_kind_with (f : Type_ → GenM string) (kind : DefKind) : GenM string :=
  match kind with
  | DRecord fields =>
      fields ← mapM (λ field, s ← f field.2; mret (camel_case field.1 +:+ ": " +:+ s)) fields;
      mret (braces (join "; " fields))
  | DResource => mret "globalThis.Uint8Array"
  | DOwn id | DBorrow id => f (TyId id)
  | DFlags flags => mret (braces (join "; " ((λ flag, camel_case flag +:+ ": boolean") <$> flags)))
  | DTuple types => types ← mapM f types; mret ("[" +:+ join ", " types +:+ "]")
  | DVariant cases =>
      cases ← mapM (λ case, ts_tagged_with f case.1 case.2) cases; mret (join " | " cases)
  | DEnum cases => mret (join " | " (debug <$> cases))
  | DOption ty =>
      b ← lift (is_option peel_fuel resolve ty);
      if b : bool then
        s ← ts_tagged_with f "some" (Some ty); mret (s +:+ " | " +:+ braces ("kind: " +:+ debug "none"))
      else s ← f ty; mret (s +:+ " | undefined")
  | DResult ok err =>
      ok ← ts_tagged_with f "ok" ok;
      err ← ts_tagged_with f "error" err;
      mret (ok +:+ " | " +:+ err)
  | DList ty => ts_list_with f ty
  | DFuture ty => s ← ts_opt_ty_with f ty; mret ("globalThis.Promise<" +:+ s +:+ ">")
  | DStream (Some ty) => s ← ts_list_with f ty; mret ("globalThis.AsyncIterable<" +:+ s +:+ ">")
  | DStream None => mret "globalThis.AsyncIterable<globalThis.Array<[]>>"
  | DType ty => f ty
  | DMap _ _ | DFixedLengthList _ _ | DUnknown => panic
  end.

Fixpoint ts_tyid (fuel : nat) (id : nat) : GenM string :=
  match fuel with
  | 0 => panic
  | S fuel =>
      r ← type_ref id false;
      match r with
      | Some r => mret r
      | None => def ← lift (rs_types resolve !! id); ts_kind_with (ts_ty_with (ts_tyid fuel)) (td_kind def)
      end
  end.

Definition ts_ty (fuel : nat) : Type_ → GenM string := ts_ty_with (ts_tyid fuel).
Definition ts_opt_ty (fuel : nat) : option Type_ → GenM string := ts_opt_ty_with (ts_ty fuel).
Definition ts_list (fuel : nat) : Type_ → GenM string := ts_list_with (ts_ty fuel).
Definition ts_tagged (fuel : nat) : string → option Type_ → GenM string := ts_tagged_with (ts_ty fuel).
Definition ts_kind (fuel : nat) : DefKind → GenM string := ts_kind_with (ts_ty fuel).

(** ** Definitions *)

(** [Gen::local_kind_deps], [f] being [local_deps] *)
Definition local_kind_deps_with (f : Type_ → option (list nat)) (kind : DefKind) : option (list nat) :=
  match kind with
  | DRecord fields => mjoin <$> mapM (λ field, f field.2) fields
  | DTuple types => mjoin <$> mapM f types
  | DVariant cases => mjoin <$> mapM f (omap snd cases)
  | DResult ok err => mjoin <$> mapM f (omap id [ok; err])
  | DOption ty | DList ty | DType ty | DFuture (Some ty) | DStream (Some ty) => f ty
  | _ => Some []
  end.

(** [Gen::local_deps] *)
Fixpoint local_deps (fuel : nat) (owner : TypeOwner) (ty : Type_) : option (list nat) :=
  match ty with
  | TyId id =>
      match fuel with
      | 0 => None
      | S fuel =>
          def ← rs_types resolve !! id;
          match td_name def with
          | Some _ => Some (if decide (td_owner def = owner) then [id] else [])
          | None => local_kind_deps_with (local_deps fuel owner) (td_kind def)
          end
      end
  | _ => Some []
  end.

Definition local_kind_deps (fuel : nat) (owner : TypeOwner) : DefKind → option (list nat) :=
  local_kind_deps_with (local_deps fuel owner).

(** [matches!(resolve.types[dealias(resolve, id)].kind, TypeDefKind::Resource)] *)
Definition is_resource (id : nat) : option bool :=
  def ← rs_types resolve !! dealias resolve id;
  Some (match td_kind def with DResource => true | _ => false end).

(** What [Gen::define_type] writes once the dependencies are defined *)
Definition emit_type (fuel : nat) (id : nat) (def : TypeDef) : GenM () :=
  name ← lift (td_name def);
  let name := type_name name in
  ts ← ts_kind fuel (td_kind def);
  push_dts (ts_docs (td_docs def) "");;
  push_dts ("export type " +:+ name +:+ " = " +:+ ts +:+ ";" +:+ nl);;
  resource ← lift (is_resource id);
  if resource : bool then mret ()
  else
    use_wrpc_types;;
    push_dts ("export declare const " +:+ name +:+ ": $wrpc.Type;" +:+ nl);;
    js ← js_kind fuel (td_kind def);
    push_js ("export const " +:+ name +:+ " = " +:+ js +:+ ";" +:+ nl).

(** [for id in ids { self.define_type(resolve, id, done) }] *)
Fixpoint define_all (f : nat → gset nat → GenM (gset nat)) (ids : list nat) (done : gset nat) : GenM (gset nat) :=
  match ids with
  | [] => mret done
  | id :: ids => done ← f id done; define_all f ids done
  end.

(** [Gen::define_type] *)
Fixpoint define_type (fuel : nat) (id : nat) (done : gset nat) : GenM (gset nat) :=
  match fuel with
  | 0 => panic
  | S fuel' =>
      if decide (id ∈ done) then mret done
      else
        def ← lift (rs_types resolve !! id);
        deps ← lift (local_kind_deps fuel' (td_owner def) (td_kind def));
        done ← define_all (define_type fuel') deps ({[ id ]} ∪ done);
        emit_type fuel' id def;;
        mret done
  end.

(** [Gen::define_types] *)
Definition define_types (fuel : nat) (ids : list nat) : GenM () :=
  define_all (define_type fuel) ids ∅;; mret ().

End gen.
