(* ===== verification/JsTrees.v ===== *)
(** * Trees of types in JavaScript bindings

    What the text of a tree of a type means: [JsTree] is the syntax of the
    expressions which [js_ty] writes ([show]), [eval] their evaluation in a module,
    and [tree_of] the tree which a type of WIT has.  [js_ty] writes an expression
    which evaluates to the tree of its type ([js_tyid_yields]): every alias is
    imported, and every name is bound if the local dependencies of the type are. *)

From stdpp Require Import pretty.
From S2P Require Import Prelude Subscriptions Resolve Introspect Wit JsNames JsTypes.

(** ** Expressions *)

Inductive JsTree :=
  | JPrim (ty : Type_)
  | JRecord (fields : list (string * JsTree))
  | JOwn (name : string)
  | JBorrow (name : string)
  | JFlags (flags : list string)
  | JTuple (types : list JsTree)
  | JVariant (cases : list (string * option JsTree))
  | JEnum (cases : list string)
  | JOption (ty : JsTree)
  | JResult (ok err : option JsTree)
  | JList (ty : JsTree)
  | JFuture (ty : option JsTree)
  | JStream (ty : option JsTree)
  | JLocal (name : string)
  | JImport (i : nat) (name : string).

Definition show_opt (show : JsTree → string) (o : option JsTree) : string :=
  match o with Some e => show e | None => "null" end.

Fixpoint show (e : JsTree) : string :=
  match e with
  | JPrim ty => "$t." +:+ prim_name ty
  | JRecord fields =>
      "$t.record(" +:+ braces (join ", " (map (λ f, debug f.1 +:+ ": " +:+ show f.2) fields)) +:+ ")"
  | JOwn name => "$t.own(" +:+ debug name +:+ ")"
  | JBorrow name => "$t.borrow(" +:+ debug name +:+ ")"
  | JFlags flags => "$t.flags([" +:+ join ", " (debug <$> flags) +:+ "])"
  | JTuple types => "$t.tuple(" +:+ join ", " (map show types) +:+ ")"
  | JVariant cases =>
      "$t.variant(" +:+ braces (join ", " (map (λ c, debug c.1 +:+ ": " +:+ show_opt show c.2) cases)) +:+ ")"
  | JEnum cases => "$t.enum([" +:+ join ", " (debug <$> cases) +:+ "])"
  | JOption ty => "$t.option(" +:+ show ty +:+ ")"
  | JResult ok err => "$t.result(" +:+ show_opt show ok +:+ ", " +:+ show_opt show err +:+ ")"
  | JList ty => "$t.list(" +:+ show ty +:+ ")"
  | JFuture (Some ty) => "$t.future(" +:+ show ty +:+ ")"
  | JFuture None => "$t.future()"
  | JStream (Some ty) => "$t.stream(" +:+ show ty +:+ ")"
  | JStream None => "$t.stream($t.tuple())"
  | JLocal name => name
  | JImport i name => alias i +:+ "." +:+ name
  end.

(** ** Evaluation *)

(** The trees which modules export, by specifier *)
Abbreviation Modules := (string → string → option JsTree) (only parsing).

(** In a module, the builders of trees are bound if they are imported from the
    runtime, an alias if its module is imported, and a name if it is defined. *)
Section eval.
Context (mods : Modules) (m : Module_) (locals : string → option JsTree).

Definition imported (i : nat) (name : string) : option JsTree :=
  '(spec, used) ← m_deps m !! i; if used : bool then mods spec name else None.

Definition eval_opt (eval : JsTree → option JsTree) (o : option JsTree) : option (option JsTree) :=
  match o with Some e => Some <$> eval e | None => Some None end.

Fixpoint eval (e : JsTree) : option JsTree :=
  match e with
  | JLocal name => locals name
  | JImport i name => imported i name
  | _ =>
      guard ("t" ∈ m_runtime m);;
      match e with
      | JRecord fields => JRecord <$> mapM (λ f, pair f.1 <$> eval f.2) fields
      | JTuple types => JTuple <$> mapM eval types
      | JVariant cases => JVariant <$> mapM (λ c, pair c.1 <$> eval_opt eval c.2) cases
      | JOption ty => JOption <$> eval ty
      | JResult ok err => ok ← eval_opt eval ok; err ← eval_opt eval err; Some (JResult ok err)
      | JList ty => JList <$> eval ty
      | JFuture ty => JFuture <$> eval_opt eval ty
      | JStream ty => JStream <$> eval_opt eval ty
      | e => Some e
      end
  end.
End eval.

(** ** The tree of a type *)

Section trees.
Context `{WitParser} (resolve : WitResolve).

Definition tree_ty_with (f : nat → option JsTree) (ty : Type_) : option JsTree :=
  match ty with TyId id => f id | ty => Some (JPrim ty) end.

Definition tree_opt_with (f : Type_ → option JsTree) (ty : option Type_) : option (option JsTree) :=
  match ty with Some ty => Some <$> f ty | None => Some None end.

Definition tree_kind (f : Type_ → option JsTree) (kind : DefKind) : option JsTree :=
  match kind with
  | DRecord fields => JRecord <$> mapM (λ x, pair x.1 <$> f x.2) fields
  | DOwn id => JOwn <$> handle_name resolve id
  | DBorrow id => JBorrow <$> handle_name resolve id
  | DFlags flags => Some (JFlags flags)
  | DTuple types => JTuple <$> mapM f types
  | DVariant cases => JVariant <$> mapM (λ x, pair x.1 <$> tree_opt_with f x.2) cases
  | DEnum cases => Some (JEnum cases)
  | DOption ty => JOption <$> f ty
  | DResult ok err => ok ← tree_opt_with f ok; err ← tree_opt_with f err; Some (JResult ok err)
  | DList ty => JList <$> f ty
  | DFuture ty => JFuture <$> tree_opt_with f ty
  | DStream ty => JStream <$> tree_opt_with f ty
  | DType ty => f ty
  | DResource | DFixedLengthList _ _ | DMap _ _ | DUnknown => None
  end.

(** Aliases and names are followed, so that the tree has neither. *)
Fixpoint tree_of (fuel : nat) (id : nat) : option JsTree :=
  match fuel with
  | 0 => None
  | S fuel => def ← rs_types resolve !! id; tree_kind (tree_ty_with (tree_of fuel)) (td_kind def)
  end.

Definition tree_ty (fuel : nat) : Type_ → option JsTree := tree_ty_with (tree_of fuel).

(** More fuel does not change it. *)
Lemma mapM_mono {A B} (f g : A → option B) l ys :
  (∀ x y, x ∈ l → f x = Some y → g x = Some y) → mapM f l = Some ys → mapM g l = Some ys.
Proof.
  rewrite !mapM_Some. intros Hfg Hl. induction Hl as [|x y l ys Hxy Hl IH]; constructor.
  - apply Hfg; [set_solver|done].
  - apply IH. intros. apply Hfg; [set_solver|done].
Qed.

Lemma fmap_Some_mono {A B} (k : A → B) (o1 o2 : option A) y :
  (∀ x, o1 = Some x → o2 = Some x) → k <$> o1 = Some y → k <$> o2 = Some y.
Proof. intros Ho (x & Hx & ->)%fmap_Some. by rewrite (Ho x). Qed.

Lemma tree_opt_mono (f g : Type_ → option JsTree) o t :
  (∀ ty t, f ty = Some t → g ty = Some t) → tree_opt_with f o = Some t → tree_opt_with g o = Some t.
Proof. intros Hfg. destruct o; cbn; [|done]. apply fmap_Some_mono, Hfg. Qed.

Lemma tree_kind_mono (f g : Type_ → option JsTree) kind t :
  (∀ ty t, f ty = Some t → g ty = Some t) → tree_kind f kind = Some t → tree_kind g kind = Some t.
Proof.
  intros Hfg. destruct kind; cbn [tree_kind]; try done; try apply fmap_Some_mono; try (intros ?; apply Hfg).
  - intros ys. apply mapM_mono. intros x y _. apply fmap_Some_mono. intros ?. apply Hfg.
  - intros ys. apply mapM_mono. intros x y _. apply Hfg.
  - intros ys. apply mapM_mono. intros x y _. apply fmap_Some_mono. intros ?. by apply tree_opt_mono.
  - intros (a & Ha & (b & Hb & Ht)%bind_Some)%bind_Some. apply bind_Some. exists a. split; [by eapply tree_opt_mono|].
    apply bind_Some. exists b. split; [by eapply tree_opt_mono|done].
  - intros ?. by apply tree_opt_mono.
  - intros ?. by apply tree_opt_mono.
  - done.
Qed.

Lemma tree_of_mono fuel fuel' id t : tree_of fuel id = Some t → fuel ≤ fuel' → tree_of fuel' id = Some t.
Proof.
  revert fuel' id t. induction fuel as [|fuel IH]; intros fuel' id t; [done|]. destruct fuel' as [|fuel']; [lia|].
  cbn [tree_of]. intros (def & Hd & Ht)%bind_Some Hle. rewrite Hd. cbn. revert Ht. apply tree_kind_mono.
  intros [] t'; cbn; try done. intros Hty. apply IH; [done|lia].
Qed.

Lemma tree_ty_mono fuel fuel' ty t : tree_ty fuel ty = Some t → fuel ≤ fuel' → tree_ty fuel' ty = Some t.
Proof. destruct ty; try done. apply tree_of_mono. Qed.

End trees.

(** ** What a module uses *)

(** A later module has the imports of an earlier one, by the same aliases. *)
Record uses_le (m m' : Module_) : Prop := {
  le_runtime : m_runtime m ⊆ m_runtime m';
  le_types : m_wrpc_types m = true → m_wrpc_types m' = true;
  le_deps i spec used : m_deps m !! i = Some (spec, used) →
    ∃ used', m_deps m' !! i = Some (spec, used') ∧ (used = true → used' = true)
}.

#[global] Instance uses_le_preorder : PreOrder uses_le.
Proof.
  split.
  - intros m. split; [done..|]. intros i spec used Hi. by exists used.
  - intros m1 m2 m3 [H1 H2 H3] [H4 H5 H6]. split; [by etrans|by auto|]. intros i spec used Hi.
    apply H3 in Hi as (u2 & Hi & Hu). apply H6 in Hi as (u3 & Hi & Hu'). exists u3. auto.
Qed.

(** A step which writes nothing *)
Definition silent (m m' : Module_) : Prop := uses_le m m' ∧ m_js m' = m_js m ∧ m_dts m' = m_dts m.

#[global] Instance silent_preorder : PreOrder silent.
Proof.
  split; [by intros m|]. intros m1 m2 m3 (H1 & H2 & H3) (H4 & H5 & H6). split; [by etrans|]. split; congruence.
Qed.

Lemma btree_insert_elem x y l : y ∈ btree_insert x l ↔ y = x ∨ y ∈ l.
Proof.
  induction l as [|z l IH]; cbn; [set_solver|]. destruct (String.compare x z) eqn:Hc.
  - apply String.compare_eq_iff in Hc as ->. set_solver.
  - set_solver.
  - rewrite elem_of_cons, IH. set_solver.
Qed.

Lemma use_runtime_silent name m :
  ∃ m', use_runtime name m = Some ((), m') ∧ silent m m' ∧ name ∈ m_runtime m' ∧ m_wrpc_types m' = m_wrpc_types m.
Proof.
  eexists. split; [done|]. split_and!; [|cbn; apply btree_insert_elem; by left|done].
  split; [|done]. split; cbn; [|done|].
  - intros y. rewrite btree_insert_elem. by right.
  - intros i spec used Hi. by exists used.
Qed.

Lemma alter_used_lookup (deps : list (string * bool)) (i j : nat) spec used :
  deps !! j = Some (spec, used) →
  ∃ used', alter (λ d, (d.1, true)) i deps !! j = Some (spec, used') ∧ (used = true → used' = true).
Proof.
  intros Hj. destruct (decide (i = j)) as [->|Hn].
  - rewrite list_lookup_alter_eq, Hj. by eexists.
  - rewrite list_lookup_alter_ne by done. by exists used.
Qed.

(** The alias of a module is that of its specifier, and stays so. *)
Lemma dep_spec g target b m :
  ∃ i m', dep g target b m = Some (alias i, m') ∧ silent m m' ∧
    ∃ used, m_deps m' !! i = Some (specifier g target, used) ∧ (b = true → used = true).
Proof.
  unfold dep.
  assert (∃ i deps, match list_find (λ d, d.1 = specifier g target) (m_deps m) with
      | Some (i, _) => (i, m_deps m)
      | None => (length (m_deps m), m_deps m ++ [(specifier g target, false)]) end = (i, deps) ∧
    m_deps m `prefix_of` deps ∧ ∃ used, deps !! i = Some (specifier g target, used)) as (i & deps & -> & [ext Hp] & u & Hu).
  { destruct (list_find _ _) as [[i [s u]]|] eqn:Hf.
    - apply list_find_Some in Hf as (Hi & Hs & _). cbn in Hs. subst s. exists i, (m_deps m). eauto.
    - exists (length (m_deps m)), (m_deps m ++ [(specifier g target, false)]). split_and!; [done|by eexists|].
      exists false. by rewrite lookup_app_r, Nat.sub_diag. }
  eexists i, _. split; [done|]. split.
  - split; [|done]. split; cbn; [done..|]. intros j spec used Hj.
    assert (deps !! j = Some (spec, used)) as Hj' by (rewrite Hp; by apply lookup_app_l_Some).
    destruct b; [by apply alter_used_lookup|by exists used].
  - cbn. destruct b; [|by exists u]. rewrite list_lookup_alter_eq, Hu. by eexists.
Qed.

Lemma type_ref_anonymous resolve g id b m def :
  rs_types resolve !! id = Some def → td_name def = None → type_ref resolve g id b m = Some (None, m).
Proof. intros Hd Hn. unfold type_ref, mbind, GenM_bind, lift. cbn. rewrite Hd. cbn. by rewrite Hn. Qed.

Lemma type_ref_local resolve g id b m def name :
  rs_types resolve !! id = Some def → td_name def = Some name →
  owner_path g (td_owner def) = Some (Local (g_path g)) →
  type_ref resolve g id b m = Some (Some (type_name name), m).
Proof.
  intros Hd Hn Ho. unfold type_ref, mbind, GenM_bind, lift. cbn. rewrite Hd. cbn. rewrite Hn, Ho. by rewrite decide_True.
Qed.

Lemma type_ref_import resolve g id b m def name path :
  rs_types resolve !! id = Some def → td_name def = Some name →
  owner_path g (td_owner def) = Some path → path ≠ Local (g_path g) →
  ∃ i m', type_ref resolve g id b m = Some (Some (alias i +:+ "." +:+ type_name name), m') ∧ silent m m' ∧
    ∃ used, m_deps m' !! i = Some (specifier g path, used) ∧ (b = true → used = true).
Proof.
  intros Hd Hn Ho Hp. destruct (dep_spec g path b m) as (i & m' & Hdep & Hs). exists i, m'. split; [|done].
  unfold type_ref, mbind, GenM_bind, lift. cbn. rewrite Hd. cbn. rewrite Hn, Ho. rewrite decide_False by done.
  by rewrite Hdep.
Qed.

(** ** Writing a tree *)

Abbreviation Locals := (string → option JsTree) (only parsing).

(** [a] writes something which evaluates to [t] in every later module whose names
    are bound as [P] says. *)
Definition yields {W E T : Type} (P : Locals → Prop) (sh : E → W) (ev : Module_ → Locals → E → option T)
    (a : GenM W) (t : T) : Prop :=
  ∀ m, ∃ e m', a m = Some (sh e, m') ∧ silent m m' ∧
    ∀ m'' locals, uses_le m' m'' → P locals → ev m'' locals e = Some t.

Lemma gen_bind {A B} (a : GenM A) (f : A → GenM B) m x m' : a m = Some (x, m') → (a ≫= f) m = f x m'.
Proof. intros Hm. unfold mbind, GenM_bind. by rewrite Hm. Qed.

Section yields.
Context {P : Locals → Prop}.

Lemma yields_ret {W E T} (sh : E → W) (ev : Module_ → Locals → E → option T) e t :
  (∀ m locals, P locals → ev m locals e = Some t) → yields P sh ev (mret (sh e)) t.
Proof. intros He m. exists e, m. split_and!; [done|reflexivity|auto]. Qed.

Lemma yields_fmap {W W' E E' T T'} (sh : E → W) (sh' : E' → W') ev ev' (k : E → E') (kt : T → T') fmt (a : GenM W) t :
  yields P sh ev a t → (∀ e, fmt (sh e) = sh' (k e)) →
  (∀ m locals e, ev m locals e = Some t → ev' m locals (k e) = Some (kt t)) →
  yields P sh' ev' (s ← a; mret (fmt s)) (kt t).
Proof.
  intros Ha Hf He m. destruct (Ha m) as (e & m' & Hm & Hs & Hev). exists (k e), m'. split_and!; [|done|].
  - rewrite (gen_bind _ _ _ _ _ Hm). unfold mret, GenM_ret. by rewrite Hf.
  - intros m'' locals Hle Hp. by apply He, Hev.
Qed.

Lemma yields_bind2 {W E T E' T'} (sh : E → W) ev (sh' : E' → W) ev' (k : E → E → E') (kt : T → T → T') fmt
    (a b : GenM W) t u :
  yields P sh ev a t → yields P sh ev b u → (∀ d e, fmt (sh d) (sh e) = sh' (k d e)) →
  (∀ m locals d e, ev m locals d = Some t → ev m locals e = Some u → ev' m locals (k d e) = Some (kt t u)) →
  yields P sh' ev' (x ← a; y ← b; mret (fmt x y)) (kt t u).
Proof.
  intros Ha Hb Hf He m. destruct (Ha m) as (d & m1 & Hm1 & Hs1 & Hd). destruct (Hb m1) as (e & m2 & Hm2 & Hs2 & He').
  exists (k d e), m2. split_and!; [|by etrans|].
  - rewrite (gen_bind _ _ _ _ _ Hm1), (gen_bind _ _ _ _ _ Hm2). unfold mret, GenM_ret. by rewrite Hf.
  - intros m'' locals Hle Hp. apply He; [apply Hd; [|done]; etrans; [apply Hs2|done]|by apply He'].
Qed.

Lemma yields_mapM {A W E T} (sh : E → W) (ev : Module_ → Locals → E → option T) (f : A → GenM W) l ts :
  Forall2 (λ x t, yields P sh ev (f x) t) l ts →
  yields P (map sh) (λ m locals, mapM (ev m locals)) (mapM f l) ts.
Proof.
  induction 1 as [|x t l ts Hx _ IH]; intros m.
  - exists [], m. split_and!; [done|reflexivity|done].
  - destruct (Hx m) as (e & m1 & Hm1 & Hs1 & He). destruct (IH m1) as (es & m2 & Hm2 & Hs2 & Hes).
    exists (e :: es), m2. split_and!; [|by etrans|].
    + change ((y ← f x; k ← mapM f l; mret (y :: k)) m = Some (map sh (e :: es), m2)).
      by rewrite (gen_bind _ _ _ _ _ Hm1), (gen_bind _ _ _ _ _ Hm2).
    + intros m'' locals Hle Hp. cbn [mapM]. rewrite (He m'' locals); [cbn; by rewrite Hes| |done].
      etrans; [apply Hs2|done].
Qed.

(** The builders of trees are imported before they are used. *)
Lemma yields_runtime {W E T} (sh : E → W) (ev ev' : Module_ → Locals → E → option T) (a : GenM W) t :
  yields P sh ev a t →
  (∀ m locals e, "t" ∈ m_runtime m → ev m locals e = Some t → ev' m locals e = Some t) →
  yields P sh ev' (use_runtime "t";; a) t.
Proof.
  intros Ha He m. destruct (use_runtime_silent "t" m) as (m1 & Hm1 & Hs1 & Ht & _).
  destruct (Ha m1) as (e & m2 & Hm2 & Hs2 & Hev). exists e, m2. split_and!; [|by etrans|].
  - by rewrite (gen_bind _ _ _ _ _ Hm1).
  - intros m'' locals Hle Hp. apply He; [|by apply Hev]. apply Hle, Hs2, Ht.
Qed.

Lemma yields_impl {W E T} (Q : Locals → Prop) (sh : E → W) (ev : Module_ → Locals → E → option T) a t :
  yields P sh ev a t → (∀ locals, Q locals → P locals) → yields Q sh ev a t.
Proof. intros Ha HQ m. destruct (Ha m) as (e & m' & Hm & Hs & Hev). exists e, m'. auto. Qed.

End yields.

Lemma lift_Some {A B} (o : option A) x (f : A → GenM B) : o = Some x → (y ← lift o; f y) = f x.
Proof. by intros ->. Qed.

(** The types which the declaration of a kind refers to *)
Definition ts_references (kind : DefKind) : list Type_ :=
  match kind with DOwn j | DBorrow j => [TyId j] | kind => references (erase kind) end.

Lemma references_ts kind ty : ty ∈ references (erase kind) → ty ∈ ts_references kind.
Proof. destruct kind; try done; cbn; set_solver. Qed.

Section js.
Context `{WitParser} (resolve : WitResolve) (g : Gen) (owner : TypeOwner) (mods : Modules).

(** The trees of types, with the fuel which suffices for all of them *)
Definition tree (id : nat) : option JsTree := tree_of resolve (length (rs_types resolve)) id.

(** The names of types are bound to their trees. *)
Definition bound (ids : list nat) (locals : Locals) : Prop :=
  ∀ j def name t, j ∈ ids → rs_types resolve !! j = Some def → td_name def = Some name → tree j = Some t →
  locals (type_name name) = Some t.

(** The types which are written for [roots] in the module of [owner]: they refer
    to others, as far as those have no name or are of the module too. *)
Inductive reached (roots : list Type_) : nat → Prop :=
  | reached_root id : TyId id ∈ roots → reached roots id
  | reached_ref id def j :
      reached roots id → rs_types resolve !! id = Some def → td_name def = None ∨ td_owner def = owner →
      TyId j ∈ ts_references (td_kind def) → reached roots j.

(** Each of them which has a name is in the module of its owner: that of [owner]
    is the module which is generated, and the others are imported and export the
    trees of their types. *)
Definition located (roots : list Type_) : Prop :=
  ∀ id def name, reached roots id → rs_types resolve !! id = Some def → td_name def = Some name →
  ∃ path, owner_path g (td_owner def) = Some path ∧ (path = Local (g_path g) ↔ td_owner def = owner).
Definition exported (roots : list Type_) : Prop :=
  ∀ id def name path t, reached roots id → rs_types resolve !! id = Some def → td_name def = Some name →
  owner_path g (td_owner def) = Some path → path ≠ Local (g_path g) → tree id = Some t →
  mods (specifier g path) (type_name name) = Some t.

Abbreviation yields_tree ids := (yields (bound ids) show (eval mods)) (only parsing).

(** A builder, once it is imported *)
Definition built (t : JsTree) (m : Module_) (locals : Locals) (e : JsTree) : option JsTree :=
  if decide ("t" ∈ m_runtime m) then eval mods m locals e else Some t.

Lemma yields_built P (a : GenM string) t :
  yields P show (built t) a t → yields P show (eval mods) (use_runtime "t";; a) t.
Proof. intros Ha. eapply yields_runtime; [done|]. intros m locals e Ht. unfold built. by rewrite decide_True. Qed.

Lemma eval_opt_yields ids f F o t :
  (∀ ty u, o = Some ty → F ty = Some u → yields_tree ids (f ty) u) → tree_opt_with F o = Some t →
  yields (bound ids) (show_opt show) (λ m locals, eval_opt (eval mods m locals)) (js_opt_ty_with f o) t.
Proof.
  intros Hf. destruct o as [ty|]; cbn.
  - intros (u & Hu & ->)%fmap_Some m. destruct (Hf ty u eq_refl Hu m) as (e & m' & Hm & Hs & He).
    exists (Some e), m'. split_and!; [done..|]. intros m'' locals Hle Hb. cbn. by rewrite He.
  - intros [= <-]. by apply (yields_ret (show_opt show) _ None).
Qed.

Lemma Forall2_mapM {A B} (f : A → option B) l ys (R : A → B → Prop) :
  mapM f l = Some ys → (∀ x y, x ∈ l → f x = Some y → R x y) → Forall2 R l ys.
Proof.
  intros Hl%mapM_Some HR. induction Hl as [|x y l ys Hxy Hl IH]; constructor.
  - apply HR; [set_solver|done].
  - apply IH. intros. apply HR; [set_solver|done].
Qed.

Ltac node := intros; unfold built; case_decide; [|done]; cbn [eval]; rewrite option_guard_True by done; cbn; simplify_option_eq; done.

Lemma js_kind_yields ids f F kind t :
  (∀ ty u, ty ∈ references (erase kind) → F ty = Some u → yields_tree ids (f ty) u) →
  tree_kind resolve F kind = Some t → yields_tree ids (js_kind_with resolve f kind) t.
Proof.
  intros Hf. destruct kind; cbn [tree_kind js_kind_with]; try done.
  - intros (ts & Hts & ->)%fmap_Some. apply yields_built.
    eapply (yields_fmap (map (λ f, debug f.1 +:+ ": " +:+ show f.2)) _
      (λ m locals, mapM (λ f, pair f.1 <$> eval mods m locals f.2)) _ JRecord JRecord); [|done|node].
    apply yields_mapM. eapply Forall2_mapM; [done|]. intros [n ty] y Hx (u & Hu & ->)%fmap_Some. cbn in *.
    eapply (yields_fmap show _ (eval mods) _ (pair n) (pair n)); [apply Hf; [|done]|done|].
    + apply list_elem_of_fmap. by exists (n, ty).
    + intros m locals e He. cbn. by rewrite He.
  - intros (n & Hn & ->)%fmap_Some. apply yields_built. rewrite (lift_Some _ n) by done. apply (yields_ret show _ (JOwn n)). node.
  - intros (n & Hn & ->)%fmap_Some. apply yields_built. rewrite (lift_Some _ n) by done. apply (yields_ret show _ (JBorrow n)). node.
  - intros [= <-]. apply yields_built, (yields_ret show _ (JFlags flags)). node.
  - intros (ts & Hts & ->)%fmap_Some. apply yields_built.
    eapply (yields_fmap (map show) _ (λ m locals, mapM (eval mods m locals)) _ JTuple JTuple); [|done|node].
    apply yields_mapM. eapply Forall2_mapM; [done|]. intros ty u Hx. by apply Hf.
  - intros (ts & Hts & ->)%fmap_Some. apply yields_built.
    eapply (yields_fmap (map (λ c, debug c.1 +:+ ": " +:+ show_opt show c.2)) _
      (λ m locals, mapM (λ c, pair c.1 <$> eval_opt (eval mods m locals) c.2)) _ JVariant JVariant); [|done|node].
    apply yields_mapM. eapply Forall2_mapM; [done|]. intros [n o] y Hx (u & Hu & ->)%fmap_Some. cbn in *.
    eapply (yields_fmap (show_opt show) _ (λ m locals, eval_opt (eval mods m locals)) _ (pair n) (pair n)); [eapply eval_opt_yields; [|done]|done|].
    + intros ty v -> Hv. apply Hf; [|done]. apply list_elem_of_omap. exists (Some ty). split; [|done].
      apply list_elem_of_fmap. by exists (n, Some ty).
    + intros m locals e He. cbn. by rewrite He.
  - intros [= <-]. apply yields_built, (yields_ret show _ (JEnum cases)). node.
  - intros (u & Hu & ->)%fmap_Some. apply yields_built.
    eapply (yields_fmap show _ (eval mods) _ JOption JOption); [apply Hf; [cbn; set_solver|done]|done|node].
  - intros (a & Ha & (b & Hb & [= <-])%bind_Some)%bind_Some. apply yields_built.
    eapply (yields_bind2 (show_opt show) (λ m locals, eval_opt (eval mods m locals)) _ _ JResult JResult); [| |done|node].
    + eapply eval_opt_yields; [|done]. intros ty v -> Hv. apply Hf; [cbn; set_solver|done].
    + eapply eval_opt_yields; [|done]. intros ty v -> Hv. apply Hf; [|done]. destruct ok; cbn; set_solver.
  - intros (u & Hu & ->)%fmap_Some. apply yields_built.
    eapply (yields_fmap show _ (eval mods) _ JList JList); [apply Hf; [cbn; set_solver|done]|done|node].
  - intros (u & Hu & ->)%fmap_Some. apply yields_built. destruct ty as [ty|]; cbn in Hu.
    + apply fmap_Some in Hu as (v & Hv & ->).
      eapply (yields_fmap show _ (eval mods) _ (λ e, JFuture (Some e)) (λ e, JFuture (Some e))); [apply Hf; [cbn; set_solver|done]|done|node].
    + simplify_eq. apply (yields_ret show _ (JFuture None)). node.
  - intros (u & Hu & ->)%fmap_Some. apply yields_built. destruct element as [ty|]; cbn in Hu.
    + apply fmap_Some in Hu as (v & Hv & ->).
      eapply (yields_fmap show _ (eval mods) _ (λ e, JStream (Some e)) (λ e, JStream (Some e))); [apply Hf; [cbn; set_solver|done]|done|node].
    + simplify_eq. apply (yields_ret show _ (JStream None)). node.
  - apply Hf. cbn. set_solver.
Qed.

(** *** Local dependencies *)

(** The types which a type with a tree refers to have trees. *)
Lemma tree_opt_refs (F : Type_ → option JsTree) o u ty :
  tree_opt_with F o = Some u → o = Some ty → is_Some (F ty).
Proof. intros Hu ->. cbn in Hu. apply fmap_Some in Hu as (v & -> & _). by eexists. Qed.

Lemma mapM_elem_Some {A B} (f : A → option B) l x : is_Some (mapM f l) → x ∈ l → is_Some (f x).
Proof.
  intros [ys Hys%mapM_Some] [i Hi]%list_elem_of_lookup. apply (Forall2_lookup_l _ _ _ _ _ Hys) in Hi as (y & _ & ->).
  by eexists.
Qed.

Lemma tree_kind_refs F kind t ty :
  tree_kind resolve F kind = Some t → ty ∈ references (erase kind) → is_Some (F ty).
Proof.
  destruct kind; cbn [tree_kind erase references]; try set_solver.
  - intros (ts & Hts & _)%fmap_Some ([n ty'] & -> & Hx)%list_elem_of_fmap. cbn [snd].
    assert (is_Some (pair n <$> F ty')) as [y (u & -> & _)%fmap_Some]
      by exact (mapM_elem_Some (λ x, pair x.1 <$> F x.2) _ _ (ex_intro _ _ Hts) Hx). by eexists.
  - intros (ts & Hts & _)%fmap_Some Hx. eapply mapM_elem_Some; [|done]. by eexists.
  - intros (ts & Hts & _)%fmap_Some (o & ([n o'] & -> & Hx)%list_elem_of_fmap & Ho)%list_elem_of_omap. cbn in Ho. subst o'.
    assert (is_Some (pair n <$> tree_opt_with F (Some ty))) as [y (u & Hu & _)%fmap_Some]
      by exact (mapM_elem_Some (λ x, pair x.1 <$> tree_opt_with F x.2) _ _ (ex_intro _ _ Hts) Hx). by eapply tree_opt_refs.
  - intros (u & Hu & _)%fmap_Some ->%list_elem_of_singleton. by eexists.
  - intros (a & Ha & (b & Hb & _)%bind_Some)%bind_Some (o & Ho & Hty)%list_elem_of_omap.
    cbn in Hty. subst o. apply elem_of_cons in Ho as [Ho|Ho%list_elem_of_singleton];
      [by apply (tree_opt_refs F ok a)|by apply (tree_opt_refs F err b)].
  - intros (u & Hu & _)%fmap_Some ->%list_elem_of_singleton. by eexists.
  - intros (u & Hu & _)%fmap_Some (o & Ho%list_elem_of_singleton & Hty)%list_elem_of_omap.
    cbn in Hty. subst. by eapply tree_opt_refs.
  - intros (u & Hu & _)%fmap_Some (o & Ho%list_elem_of_singleton & Hty)%list_elem_of_omap.
    cbn in Hty. subst. by eapply tree_opt_refs.
Qed.

Lemma mapM_snd {A B C} (f : B → option C) (l : list (A * B)) : mapM (λ x, f x.2) l = mapM f l.*2.
Proof.
  induction l as [|x l IH]; [done|].
  change ((y ← f x.2; k ← mapM (λ x, f x.2) l; Some (y :: k)) = (y ← f x.2; k ← mapM f l.*2; Some (y :: k))).
  by rewrite IH.
Qed.

Lemma mapM_one {A} (f : Type_ → option (list A)) ty : f ty = mjoin <$> mapM f [ty].
Proof. cbn. destruct (f ty); cbn; [by rewrite app_nil_r|done]. Qed.

Lemma omap_snd {A B} (l : list (A * option B)) : omap snd l = omap id l.*2.
Proof. induction l as [|[a [b|]] l IH]; [done|..]; cbn in *; by rewrite <- IH. Qed.

Lemma local_kind_deps_eq f kind :
  (∀ ty n, kind ≠ DFixedLengthList ty n) →
  local_kind_deps_with f kind = mjoin <$> mapM f (references (erase kind)).
Proof.
  intros Hk. destruct kind as [| | | | | | | | | | |ty n| |[]|[]| |]; cbn [local_kind_deps_with erase references];
    try done; try apply mapM_one; [by rewrite mapM_snd|by rewrite omap_snd|by destruct (Hk ty n)].
Qed.

Lemma local_kind_deps_refs f kind :
  (∀ ty n, kind ≠ DFixedLengthList ty n) → (∀ ty, ty ∈ references (erase kind) → is_Some (f ty)) →
  ∃ ids, local_kind_deps_with f kind = Some ids ∧
    ∀ ty l, ty ∈ references (erase kind) → f ty = Some l → l ⊆ ids.
Proof.
  intros Hk Hf. rewrite local_kind_deps_eq by done. destruct (mapM f (references (erase kind))) as [ls|] eqn:Hls.
  - exists (mjoin ls). split; [done|]. intros ty l [i Hi]%list_elem_of_lookup Hl.
    apply mapM_Some in Hls. apply (Forall2_lookup_l _ _ _ _ _ Hls) in Hi as (l' & Hl' & Hf').
    assert (l' = l) as -> by congruence. intros j Hj. apply list_elem_of_join. exists l. split; [done|]. by apply list_elem_of_lookup_2 in Hl'.
  - apply mapM_None, Exists_exists in Hls as (ty & Hty & Hn). apply Hf in Hty as [? ?]. congruence.
Qed.

Lemma tree_kind_supported F kind t ty n : tree_kind resolve F kind = Some t → kind ≠ DFixedLengthList ty n.
Proof. by destruct kind. Qed.

Lemma local_deps_total fuel ty t :
  tree_ty resolve fuel ty = Some t → is_Some (local_deps resolve fuel owner ty).
Proof.
  revert ty t. induction fuel as [|fuel IH]; intros [] t; cbn; try done.
  intros (def & -> & Ht)%bind_Some. cbn. destruct (td_name def); [done|].
  destruct (local_kind_deps_refs (local_deps resolve fuel owner) (td_kind def)) as (ids & -> & _); [|..|done].
  - intros. by eapply tree_kind_supported.
  - intros ty Hty. eapply tree_kind_refs in Ht as [u Hu]; [|done]. by eapply IH.
Qed.

Lemma bound_subset ids ids' locals : ids ⊆ ids' → bound ids' locals → bound ids locals.
Proof. intros Hs Hb j def name t Hj. apply Hb. by apply Hs. Qed.

(** ** Trees are written faithfully *)

Context (roots : list Type_) (Hlocated : located roots) (Hexported : exported roots).

Definition reached_ty (ty : Type_) : Prop := ∀ id, ty = TyId id → reached roots id.

Lemma reached_kind id def ty :
  reached roots id → rs_types resolve !! id = Some def → td_name def = None ∨ td_owner def = owner →
  ty ∈ references (erase (td_kind def)) → reached_ty ty.
Proof. intros Hr Hd Ho Hty j ->. eapply reached_ref; [done..|by apply references_ts]. Qed.

Lemma js_ty_with_yields ids (f : nat → GenM string) (F : nat → option JsTree) ty t :
  (∀ id, ty = TyId id → F id = Some t → yields_tree ids (f id) t) →
  tree_ty_with F ty = Some t → yields_tree ids (js_ty_with f ty) t.
Proof.
  intros Hf. destruct ty; cbn; [intros [= <-]; apply yields_built;
    match goal with |- context [JPrim ?ty] => apply (yields_ret show _ (JPrim ty)) end;
    intros; unfold built; case_decide; [cbn; by rewrite option_guard_True|done]..|]. by apply Hf.
Qed.

Lemma js_named_yields fuel id def name t ids :
  reached roots id → rs_types resolve !! id = Some def → td_name def = Some name → tree id = Some t →
  (td_owner def = owner → id ∈ ids) →
  yields_tree ids (js_tyid resolve g (S fuel) id) t.
Proof.
  intros Hr Hd Hn Ht Hid m. destruct (Hlocated id def name Hr Hd Hn) as (path & Hp & Hown). cbn [js_tyid].
  destruct (decide (path = Local (g_path g))) as [->|Hne].
  - exists (JLocal (type_name name)), m. split_and!; [|reflexivity|].
    + by rewrite (gen_bind _ _ _ _ _ (type_ref_local resolve g id true m def name Hd Hn Hp)).
    + intros m'' locals _ Hb. cbn. eapply Hb; [|done..]. by apply Hid, Hown.
  - destruct (type_ref_import resolve g id true m def name path Hd Hn Hp Hne) as (i & m' & Href & Hs & used & Hi & Hu).
    exists (JImport i (type_name name)), m'. split_and!; [|done|].
    + by rewrite (gen_bind _ _ _ _ _ Href).
    + intros m'' locals [_ _ Hle] _. cbn. unfold imported. apply Hle in Hi as (used' & -> & Hu'). cbn.
      rewrite Hu' by (by apply Hu). by eapply Hexported.
Qed.

(** [js_ty] writes the tree of its type. *)
Lemma js_tyid_yields fuel id t ids :
  fuel ≤ length (rs_types resolve) → reached roots id → tree_of resolve fuel id = Some t →
  local_deps resolve fuel owner (TyId id) = Some ids →
  yields_tree ids (js_tyid resolve g fuel id) t.
Proof.
  revert id t ids. induction fuel as [|fuel IH]; intros id t ids Hfuel Hr; [done|]. intros Htree.
  assert (tree id = Some t) as HT by (by eapply tree_of_mono). revert Htree. cbn [tree_of local_deps].
  intros (def & Hd & Ht)%bind_Some. rewrite Hd. cbn. destruct (td_name def) as [name|] eqn:Hn.
  - intros Hids. eapply js_named_yields; [done..|]. intros Ho. rewrite decide_True in Hids by done. set_solver.
  - intros Hids m. rewrite (gen_bind _ _ _ _ _ (type_ref_anonymous resolve g id true m def Hd Hn)).
    rewrite (lift_Some _ def) by done. revert m. eapply js_kind_yields; [|done]. intros ty u Hty Hu.
    destruct (local_deps_total fuel ty u Hu) as [l Hl].
    destruct (local_kind_deps_refs (local_deps resolve fuel owner) (td_kind def)) as (ids' & Hids' & Hsub).
    { intros. by eapply tree_kind_supported. }
    { intros ty' Hty'. eapply tree_kind_refs in Ht as [u' Hu']; [|done]. by eapply local_deps_total. }
    simplify_eq. eapply js_ty_with_yields; [|done]. intros id' -> Hu'.
    eapply yields_impl; [apply IH; [lia| |done|done]|].
    + eapply reached_kind; [done|done|by left|done|done].
    + intros locals. apply bound_subset. by eapply Hsub.
Qed.

Lemma js_ty_yields fuel ty t ids :
  fuel ≤ length (rs_types resolve) → reached_ty ty → tree_ty resolve fuel ty = Some t →
  local_deps resolve fuel owner ty = Some ids → yields_tree ids (js_ty resolve g fuel ty) t.
Proof. intros Hf Hr Ht Hd. eapply js_ty_with_yields; [|done]. intros id -> Hid. apply js_tyid_yields; auto. Qed.

(** [js_kind] writes the tree of the type which it is the kind of. *)
Lemma js_def_yields fuel id def t ids :
  S fuel ≤ length (rs_types resolve) → reached roots id → rs_types resolve !! id = Some def → td_owner def = owner →
  tree_of resolve (S fuel) id = Some t →
  local_kind_deps resolve fuel owner (td_kind def) = Some ids →
  yields_tree ids (js_kind resolve g fuel (td_kind def)) t.
Proof.
  intros Hf Hr Hd Ho Ht Hids. cbn in Ht. rewrite Hd in Ht. cbn in Ht. eapply js_kind_yields; [|done]. intros ty u Hty Hu.
  destruct (local_deps_total fuel ty u Hu) as [l Hl]. eapply yields_impl; [apply js_ty_yields; [lia|by eapply reached_kind; eauto|done|done]|].
  intros locals. apply bound_subset.
  destruct (local_kind_deps_refs (local_deps resolve fuel owner) (td_kind def)) as (ids' & Hids' & Hsub).
  - intros. by eapply tree_kind_supported.
  - intros ty' Hty'. eapply tree_kind_refs in Ht as [u' Hu']; [|done]. by eapply local_deps_total.
  - unfold local_kind_deps in Hids. simplify_eq. by eapply Hsub.
Qed.

End js.
