(* ===== verification/JsDefine.v ===== *)
(** * Definitions of types in JavaScript bindings

    [define_types] succeeds for the types of a well-formed arena, and the module
    which it writes evaluates: the statements are in an order in which every name
    is bound before it is used, no name is bound twice, and each name is bound to
    the tree of its type ([define_types_evaluates]). *)

From S2P Require Import Prelude Subscriptions Resolve Introspect Wit JsNames JsTypes JsTrees.

(** ** Well-formed arenas *)

(** [dealias] follows the aliases of types. *)
Class DealiasLaws `{WitParser} (resolve : WitResolve) : Prop := {
  dealias_alias id def j : rs_types resolve !! id = Some def → td_kind def = DType (TyId j) →
    dealias resolve id = dealias resolve j;
  dealias_self id def : rs_types resolve !! id = Some def → (∀ j, td_kind def ≠ DType (TyId j)) →
    dealias resolve id = id
}.

Definition named (resolve : WitResolve) (id : nat) : bool :=
  match rs_types resolve !! id with
  | Some def => match td_name def with Some _ => true | None => false end
  | None => false
  end.

(** Each type is supported and refers to preceding types; values are not
    resources, which have names and are behind handles or aliases. *)
Section wf.
Context `{WitParser} (resolve : WitResolve).

Definition valueb (ty : Type_) : bool :=
  match ty with TyId j => bool_decide (is_resource resolve j = Some false) | _ => true end.

Definition precedes (id : nat) (ty : Type_) : bool := match ty with TyId j => j <? id | _ => true end.

Definition wf_kind (id : nat) (kind : DefKind) : bool :=
  forallb (precedes id) (references (erase kind)) &&
  match kind with
  | DMap _ _ | DFixedLengthList _ _ | DUnknown => false
  | DOwn j | DBorrow j => (j <? id) && named resolve j
  | DType (TyId j) => valueb (TyId j) || named resolve j
  | DType _ => true
  | kind => forallb valueb (references (erase kind))
  end.

Definition wf_types : Prop := ∀ id def, rs_types resolve !! id = Some def → wf_kind id (td_kind def) = true.

Definition wf_typesb : bool := forallb (λ p, wf_kind p.1 (td_kind p.2)) (imap pair (rs_types resolve)).

Lemma wf_typesb_sound : wf_typesb = true → wf_types.
Proof.
  unfold wf_typesb. rewrite forallb_forall. intros Hw id def Hd.
  apply (Hw (id, def)), list_elem_of_In, elem_of_lookup_imap. by exists id, def.
Qed.
End wf.

(** ** Steps which write nothing *)

(** It returns, and writes nothing. *)
Definition succeeds {A} (a : GenM A) : Prop := ∀ m, ∃ x m', a m = Some (x, m') ∧ silent m m'.

Lemma succeeds_ret {A} (x : A) : succeeds (mret x).
Proof. intros m. by exists x, m. Qed.

Lemma succeeds_bind {A B} (a : GenM A) (f : A → GenM B) :
  succeeds a → (∀ x, succeeds (f x)) → succeeds (a ≫= f).
Proof.
  intros Ha Hf m. destruct (Ha m) as (x & m1 & Hm1 & Hs1). destruct (Hf x m1) as (y & m2 & Hm2 & Hs2).
  exists y, m2. rewrite (gen_bind _ _ _ _ _ Hm1). split; [done|by etrans].
Qed.

Lemma succeeds_lift {A} (o : option A) : is_Some o → succeeds (lift o).
Proof. intros [x ->] m. by exists x, m. Qed.

Lemma succeeds_mapM {A B} (f : A → GenM B) l : (∀ x, x ∈ l → succeeds (f x)) → succeeds (mapM f l).
Proof.
  induction l as [|x l IH]; intros Hf; [apply succeeds_ret|]. cbn [mapM].
  apply succeeds_bind; [apply Hf; set_solver|]. intros y.
  apply succeeds_bind; [apply IH; intros; apply Hf; set_solver|]. intros ys. apply succeeds_ret.
Qed.

Section total.
Context `{WitParser} (resolve : WitResolve) `{!DealiasLaws resolve} (Hwf : wf_types resolve).

Lemma wf_refs id def ty :
  rs_types resolve !! id = Some def → ty ∈ references (erase (td_kind def)) → precedes id ty = true.
Proof.
  intros Hd Hty. apply Hwf, andb_prop in Hd as [Hd _]. rewrite forallb_forall in Hd. by apply Hd, list_elem_of_In.
Qed.

Lemma lookup_preceding id def j : rs_types resolve !! id = Some def → j < id → is_Some (rs_types resolve !! j).
Proof. intros Hd%lookup_lt_Some Hj. apply lookup_lt_is_Some. lia. Qed.

Lemma kind_alias (kind : DefKind) : (∃ j, kind = DType (TyId j)) ∨ ∀ j, kind ≠ DType (TyId j).
Proof. destruct kind as [| | | | | | | | | | | | | | |[]|]; eauto. Qed.

Lemma dealias_total id : is_Some (rs_types resolve !! id) → is_Some (rs_types resolve !! dealias resolve id).
Proof.
  induction (lt_wf id) as [id _ IH]. intros [def Hd]. destruct (kind_alias (td_kind def)) as [[j Hk]|Hk].
  - rewrite (dealias_alias id def j Hd Hk). pose proof (wf_refs id def (TyId j) Hd) as Hj. rewrite Hk in Hj.
    assert (j < id) by (apply Nat.ltb_lt, Hj; cbn; set_solver). apply IH; [done|]. by eapply lookup_preceding.
  - rewrite (dealias_self id def Hd Hk). by eexists.
Qed.

Lemma is_resource_total id : is_Some (rs_types resolve !! id) → is_Some (is_resource resolve id).
Proof. intros [def Hd]%dealias_total. unfold is_resource. rewrite Hd. cbn. by eexists. Qed.

Lemma handle_name_total id : is_Some (rs_types resolve !! id) → is_Some (handle_name resolve id).
Proof. intros [def Hd]%dealias_total. unfold handle_name. rewrite Hd. cbn. by eexists. Qed.

Lemma is_resource_alias id def j :
  rs_types resolve !! id = Some def → td_kind def = DType (TyId j) → is_resource resolve id = is_resource resolve j.
Proof. intros Hd Hk. unfold is_resource. by rewrite (dealias_alias id def j Hd Hk). Qed.

Lemma is_resource_self id def :
  rs_types resolve !! id = Some def → (∀ j, td_kind def ≠ DType (TyId j)) →
  is_resource resolve id = Some (match td_kind def with DResource => true | _ => false end).
Proof. intros Hd Hk. unfold is_resource. rewrite (dealias_self id def Hd Hk), Hd. done. Qed.

(** A resource is the type itself or an alias of a type with a name. *)
Lemma resource_kind id def :
  rs_types resolve !! id = Some def → is_resource resolve id = Some true →
  td_kind def = DResource ∨ ∃ j, td_kind def = DType (TyId j) ∧ j < id ∧ named resolve j = true.
Proof.
  intros Hd Hr. destruct (kind_alias (td_kind def)) as [[j Hk]|Hk].
  - right. exists j. pose proof (Hwf id def Hd) as Hw. rewrite Hk in Hw.
    rewrite (is_resource_alias id def j Hd Hk) in Hr.
    change ((j <? id) && true && (valueb resolve (TyId j) || named resolve j) = true) in Hw.
    apply andb_prop in Hw as [[Hlt _]%andb_prop Hw]. unfold valueb in Hw.
    split_and!; [done|by apply Nat.ltb_lt|]. rewrite Hr in Hw. by rewrite bool_decide_false in Hw.
  - left. rewrite (is_resource_self id def Hd Hk) in Hr. by destruct (td_kind def).
Qed.

(** ** Types have trees *)

Lemma mapM_total {A B} (f : A → option B) l : (∀ x, x ∈ l → is_Some (f x)) → is_Some (mapM f l).
Proof. intros Hf. apply mapM_is_Some_2, Forall_forall. done. Qed.

Lemma tree_opt_total (F : Type_ → option JsTree) o :
  (∀ ty, o = Some ty → is_Some (F ty)) → is_Some (tree_opt_with F o).
Proof. intros Hf. destruct o as [ty|]; cbn; [|by eexists]. apply fmap_is_Some. by apply Hf. Qed.

(** A value: a supported kind of which the types are values *)
Definition value_kind (id : nat) (kind : DefKind) : Prop :=
  wf_kind resolve id kind = true ∧ kind ≠ DResource ∧
  ∀ j, TyId j ∈ references (erase kind) → is_resource resolve j = Some false.

Lemma value_kind_intro id def :
  rs_types resolve !! id = Some def → is_resource resolve id = Some false → value_kind id (td_kind def).
Proof.
  intros Hd Hr. pose proof (Hwf id def Hd) as Hw. destruct (kind_alias (td_kind def)) as [[j Hk]|Hk].
  - split_and!; [done|by rewrite Hk|]. rewrite Hk. cbn. intros j' [= ->]%list_elem_of_singleton.
    by rewrite <- (is_resource_alias id def j Hd Hk).
  - rewrite (is_resource_self id def Hd Hk) in Hr. split_and!; [done|by intros He; rewrite He in Hr|].
    intros j Hj. apply andb_prop in Hw as [_ Hw]. clear Hr Hd.
    assert (forallb (valueb resolve) (references (erase (td_kind def))) = true) as Hv.
    { destruct (td_kind def) as [| | | | | | | | | | | | | | |[]|]; try done. by destruct (Hk id0). }
    rewrite forallb_forall in Hv. apply list_elem_of_In, Hv in Hj. by apply bool_decide_eq_true in Hj.
Qed.

Lemma tree_kind_total id def F :
  rs_types resolve !! id = Some def → value_kind id (td_kind def) →
  (∀ ty, ty ∈ references (erase (td_kind def)) → is_Some (F ty)) → is_Some (tree_kind resolve F (td_kind def)).
Proof.
  intros Hd (Hw & Hr & _) HF. apply andb_prop in Hw as [_ Hw].
  destruct (td_kind def) as [fields| |j|j|fl|tys|cases|cs|ty|ok err|ty|ty n|k v|o|o|ty|]; cbn in *; try done; try apply fmap_is_Some.
  - apply mapM_total. intros [n ty] Hx. apply fmap_is_Some, HF, list_elem_of_fmap. by exists (n, ty).
  - apply andb_prop in Hw as [Hj%Nat.ltb_lt _]. by eapply handle_name_total, lookup_preceding.
  - apply andb_prop in Hw as [Hj%Nat.ltb_lt _]. by eapply handle_name_total, lookup_preceding.
  - by apply mapM_total.
  - apply mapM_total. intros [n o] Hx. apply fmap_is_Some, tree_opt_total. cbn. intros ty ->.
    apply HF, list_elem_of_omap. exists (Some ty). split; [|done]. apply list_elem_of_fmap. by exists (n, Some ty).
  - apply HF. set_solver.
  - destruct (tree_opt_total F ok) as [a ->]; [intros ty ->; apply HF; cbn; set_solver|].
    destruct (tree_opt_total F err) as [b ->]; [intros ty ->; apply HF; destruct ok; cbn; set_solver|]. by eexists.
  - apply HF. set_solver.
  - apply tree_opt_total. intros ty ->. apply HF. cbn. set_solver.
  - apply tree_opt_total. intros ty ->. apply HF. cbn. set_solver.
  - apply HF. set_solver.
Qed.

Lemma tree_of_total fuel id :
  id < fuel → is_Some (rs_types resolve !! id) → is_resource resolve id = Some false → is_Some (tree_of resolve fuel id).
Proof.
  revert id. induction fuel as [|fuel IH]; intros id Hid [def Hd] Hr; [lia|]. cbn. rewrite Hd. cbn.
  pose proof (value_kind_intro id def Hd Hr) as Hv. apply (tree_kind_total id); [done..|]. intros ty Hty.
  pose proof (wf_refs id def ty Hd Hty) as Hlt. destruct ty; cbn; try by eexists. apply Nat.ltb_lt in Hlt.
  apply IH; [lia|by eapply lookup_preceding|by apply Hv].
Qed.

(** ** Declarations *)

Lemma peel_total fuel ty :
  precedes fuel ty = true → (∀ id, ty = TyId id → is_Some (rs_types resolve !! id)) → is_Some (peel fuel resolve ty).
Proof.
  revert ty. induction fuel as [|fuel IH]; intros [] Hlt Hd; try done; try by eexists.
  assert (id < S fuel) as Hid' by (by apply Nat.ltb_lt). clear Hlt.
  destruct (Hd id eq_refl) as [def Hid]. cbn. rewrite Hid. cbn. destruct (td_kind def) eqn:Hk; try by eexists.
  pose proof (wf_refs id def ty Hid) as Hty. rewrite Hk in Hty. specialize (Hty ltac:(cbn; set_solver)).
  apply IH; [destruct ty; try done; apply Nat.ltb_lt; apply Nat.ltb_lt in Hty; lia|].
  intros j ->. apply Nat.ltb_lt in Hty. by eapply lookup_preceding.
Qed.

Lemma peel_lookup fuel ty t id :
  peel fuel resolve ty = Some t → t = TyId id → is_Some (rs_types resolve !! id).
Proof.
  revert ty. induction fuel as [|fuel IH]; intros [] Hp ->; cbn in Hp; try done.
  - apply bind_Some in Hp as (def & Hd & Hp). destruct (td_kind def); simplify_eq; by eexists.
  - apply bind_Some in Hp as (def & Hd & Hp). destruct (td_kind def); simplify_eq; try by eexists. by eapply IH.
Qed.

(** A type which an entry refers to *)
Definition in_range (ty : Type_) : Prop := ∀ id, ty = TyId id → is_Some (rs_types resolve !! id).

Lemma peel_in_range ty : in_range ty → is_Some (peel (length (rs_types resolve)) resolve ty).
Proof.
  intros Hr. apply peel_total; [|done]. destruct ty; try done. apply Nat.ltb_lt, lookup_lt_is_Some. by apply Hr.
Qed.

Lemma is_option_total ty : in_range ty → is_Some (is_option (length (rs_types resolve)) resolve ty).
Proof.
  intros [t Hp]%peel_in_range. unfold is_option. rewrite Hp. cbn. destruct t; try by eexists.
  destruct (peel_lookup _ _ _ id Hp eq_refl) as [def ->]. cbn. by eexists.
Qed.

Lemma ts_opt_succeeds f o : (∀ ty, o = Some ty → succeeds (f ty)) → succeeds (ts_opt_ty_with f o).
Proof. intros Hf. destruct o; [by apply Hf|apply succeeds_ret]. Qed.

Lemma ts_tagged_succeeds f kind o : (∀ ty, o = Some ty → succeeds (f ty)) → succeeds (ts_tagged_with f kind o).
Proof. intros Hf. destruct o; [|apply succeeds_ret]. apply succeeds_bind; [by apply Hf|]. intros s. apply succeeds_ret. Qed.

Lemma ts_list_succeeds f ty : in_range ty → succeeds (f ty) → succeeds (ts_list_with resolve f ty).
Proof.
  intros Hr Hf. apply succeeds_bind; [by apply succeeds_lift, peel_in_range|]. intros t.
  destruct (ts_array t); [apply succeeds_ret|]. apply succeeds_bind; [done|]. intros s. apply succeeds_ret.
Qed.

Create HintDb js_succeeds.
#[local] Hint Resolve succeeds_ret succeeds_bind succeeds_lift succeeds_mapM ts_opt_succeeds ts_tagged_succeeds
  ts_list_succeeds : js_succeeds.

Lemma ts_kind_succeeds f kind id :
  wf_kind resolve id kind = true → (∀ ty, ty ∈ ts_references kind → in_range ty ∧ succeeds (f ty)) →
  succeeds (ts_kind_with resolve f kind).
Proof.
  intros [_ Hw]%andb_prop Hf.
  destruct kind as [fields| |j|j|fl|tys|cases|cs|ty|ok err|ty|ty n|k v|o|[ty|]|ty|]; cbn in Hf, Hw |- *; try done;
    auto with js_succeeds.
  - apply succeeds_bind; [|auto with js_succeeds]. apply succeeds_mapM. intros [n ty] Hx.
    apply succeeds_bind; [|auto with js_succeeds]. apply Hf, list_elem_of_fmap. by exists (n, ty).
  - apply Hf. set_solver.
  - apply Hf. set_solver.
  - apply succeeds_bind; [|auto with js_succeeds]. apply succeeds_mapM. intros ty Hx. by apply Hf.
  - apply succeeds_bind; [|auto with js_succeeds]. apply succeeds_mapM. intros [n o] Hx. apply ts_tagged_succeeds.
    cbn. intros ty ->. apply Hf, list_elem_of_omap. exists (Some ty). split; [|done].
    apply list_elem_of_fmap. by exists (n, Some ty).
  - destruct (Hf ty) as [Hr Hs]; [set_solver|].
    apply succeeds_bind; [by apply succeeds_lift, is_option_total|]. intros []; auto with js_succeeds.
  - apply succeeds_bind; [apply ts_tagged_succeeds; intros ty ->; apply Hf; cbn; set_solver|]. intros s.
    apply succeeds_bind; [apply ts_tagged_succeeds; intros ty ->; apply Hf; destruct ok; cbn; set_solver|].
    auto with js_succeeds.
  - apply ts_list_succeeds; apply Hf; set_solver.
  - apply succeeds_bind; [|auto with js_succeeds]. apply ts_opt_succeeds. intros ty ->. apply Hf. cbn. set_solver.
  - apply succeeds_bind; [|auto with js_succeeds]. apply ts_list_succeeds; apply Hf; set_solver.
  - apply Hf. set_solver.
Qed.

Lemma ts_references_named id def ty :
  rs_types resolve !! id = Some def → ty ∈ ts_references (td_kind def) →
  ∀ j, ty = TyId j → j < id ∧ (named resolve j = true ∨ is_resource resolve j = Some false).
Proof.
  intros Hd Hty j ->. pose proof (Hwf id def Hd) as [Hlt Hw]%andb_prop. rewrite forallb_forall in Hlt.
  destruct (is_resource_total id) as [[] Hr]; [by eexists|..].
  - destruct (resource_kind id def Hd Hr) as [Hk|(j' & Hk & Hj' & Hn)]; rewrite Hk in Hty; cbn in Hty; [set_solver|].
    apply list_elem_of_singleton in Hty as [= ->]. auto.
  - pose proof (value_kind_intro id def Hd Hr) as (_ & _ & Hvals).
    destruct (td_kind def); cbn [ts_references] in Hty; try (split;
      [by apply Nat.ltb_lt, (Hlt (TyId j)), list_elem_of_In|right; by apply Hvals]);
      apply list_elem_of_singleton in Hty as [= ->]; apply andb_prop in Hw as [Hlt'%Nat.ltb_lt ?]; auto.
Qed.

Section gen.
Context (g : Gen) (owner : TypeOwner) (roots : list Type_) (Hlocated : located resolve g owner roots).

Lemma type_ref_named id b :
  reached resolve owner roots id → named resolve id = true → ∀ m, ∃ r m', type_ref resolve g id b m = Some (Some r, m') ∧ silent m m'.
Proof.
  intros Hrd. unfold named. destruct (rs_types resolve !! id) as [def|] eqn:Hd; [|done]. destruct (td_name def) as [name|] eqn:Hn; [|done].
  intros _ m. destruct (Hlocated id def name Hrd Hd Hn) as (path & Hp & _). destruct (decide (path = Local (g_path g))) as [->|Hne].
  - eexists _, m. split; [by apply (type_ref_local _ _ _ _ _ def)|reflexivity].
  - destruct (type_ref_import resolve g id b m def name path Hd Hn Hp Hne) as (i & m' & Hr & Hs & _). eauto.
Qed.

Lemma ts_tyid_succeeds fuel id :
  id < fuel → reached resolve owner roots id → is_Some (rs_types resolve !! id) →
  named resolve id = true ∨ is_resource resolve id = Some false → succeeds (ts_tyid resolve g fuel id).
Proof.
  revert id. induction fuel as [|fuel IH]; intros id Hid Hrd [def Hd] Hv; [lia|]. cbn [ts_tyid].
  destruct (named resolve id) eqn:Hn.
  - intros m. destruct (type_ref_named id false Hrd Hn m) as (r & m' & Hr & Hs). exists r, m'.
    by rewrite (gen_bind _ _ _ _ _ Hr).
  - destruct Hv as [?|Hv]; [done|]. unfold named in Hn. rewrite Hd in Hn. destruct (td_name def) eqn:Hname; [done|].
    intros m. rewrite (gen_bind _ _ _ _ _ (type_ref_anonymous resolve g id false m def Hd Hname)).
    rewrite (lift_Some _ def) by done. revert m. apply (ts_kind_succeeds _ _ id); [by apply Hwf|].
    intros ty Hty. pose proof (ts_references_named id def ty Hd Hty) as Hj.
    split; [intros j ->; by eapply lookup_preceding, Hj|]. destruct ty; try apply succeeds_ret. destruct (Hj _ eq_refl).
    apply IH; [lia|eapply reached_ref; [done|done|by left|done]|by eapply lookup_preceding|done].
Qed.

(** The declaration of a definition *)
Lemma ts_def_succeeds fuel id def :
  id ≤ fuel → reached resolve owner roots id → rs_types resolve !! id = Some def → td_owner def = owner →
  succeeds (ts_kind resolve g fuel (td_kind def)).
Proof.
  intros Hid Hrd Hd Ho. apply (ts_kind_succeeds _ _ id); [by apply Hwf|]. intros ty Hty.
  pose proof (ts_references_named id def ty Hd Hty) as Hj.
  split; [intros j ->; by eapply lookup_preceding, Hj|]. destruct ty; try apply succeeds_ret. destruct (Hj _ eq_refl).
  apply ts_tyid_succeeds; [lia|eapply reached_ref; [done|done|by right|done]|by eapply lookup_preceding|done].
Qed.

End gen.

End total.

(** ** Evaluation of a module *)

(** [export const name = tree;] *)
Definition show_const (c : string * JsTree) : string := "export const " +:+ c.1 +:+ " = " +:+ show c.2 +:+ ";" +:+ nl.

(** Statements are evaluated in order: a name which is not bound yet cannot be
    used, and no name can be bound twice. *)
Fixpoint run (mods : string → string → option JsTree) (m : Module_) (ρ : gmap string JsTree)
    (consts : list (string * JsTree)) : option (gmap string JsTree) :=
  match consts with
  | [] => Some ρ
  | (name, e) :: consts =>
      t ← eval mods m (λ x, ρ !! x) e;
      if decide (ρ !! name = None) then run mods m (<[name := t]> ρ) consts else None
  end.

Lemma run_app mods m ρ cs1 cs2 : run mods m ρ (cs1 ++ cs2) = (ρ' ← run mods m ρ cs1; run mods m ρ' cs2).
Proof.
  revert ρ. induction cs1 as [|[n e] cs1 IH]; intros ρ; [done|]. cbn. destruct (eval _ _ _ _); [|done]. cbn.
  destruct (decide _); [apply IH|done].
Qed.

Section define.
Context `{WitParser} (resolve : WitResolve) `{!DealiasLaws resolve} (g : Gen) (owner : TypeOwner).
Context (mods : string → string → option JsTree).

Definition js_name (id : nat) : option string :=
  def ← rs_types resolve !! id; name ← td_name def; Some (type_name name).

(** The types of a module have names, which are told apart in WIT and are words
    of lower case. *)
Definition owned (id : nat) : Prop :=
  ∃ def name, rs_types resolve !! id = Some def ∧ td_name def = Some name ∧ td_owner def = owner.
Definition wit_name_of (id : nat) : option string := rs_types resolve !! id ≫= td_name.
Record distinct_names : Prop := {
  dn_lower id name : owned id → wit_name_of id = Some name → lower_name name;
  dn_distinct i j name : owned i → owned j → wit_name_of i = Some name → wit_name_of j = Some name → i = j
}.

Lemma js_names_distinct i j name :
  distinct_names → owned i → owned j → js_name i = Some name → js_name j = Some name → i = j.
Proof.
  intros [Hl Hd] Hi Hj Hni Hnj.
  assert (∀ k, js_name k = Some name → ∃ n, wit_name_of k = Some n ∧ type_name n = name) as Hk.
  { intros k (def & Hdef & (n & Hn & [= <-])%bind_Some)%bind_Some. exists n. unfold wit_name_of. by rewrite Hdef. }
  destruct (Hk i Hni) as (n1 & Hn1 & <-), (Hk j Hnj) as (n2 & Hn2 & He).
  assert (n2 = n1) as -> by (eapply type_name_inj; [by apply (Hl j)|by apply (Hl i)|done]). by eapply Hd.
Qed.

Context (Hwf : wf_types resolve) (roots : list Type_).
Context (Hlocated : located resolve g owner roots) (Hexported : exported resolve g owner mods roots).

Lemma push_js_spec s m :
  ∃ m', push_js s m = Some ((), m') ∧ uses_le m m' ∧ m_js m' = m_js m +:+ s ∧ m_dts m' = m_dts m.
Proof. eexists. split_and!; [done| |done..]. split; [done..|]. intros i spec used ?. by exists used. Qed.

Lemma push_dts_spec s m :
  ∃ m', push_dts s m = Some ((), m') ∧ uses_le m m' ∧ m_js m' = m_js m ∧ m_dts m' = m_dts m +:+ s.
Proof. eexists. split_and!; [done| |done..]. split; [done..|]. intros i spec used ?. by exists used. Qed.

Lemma use_wrpc_types_spec m :
  ∃ m', use_wrpc_types m = Some ((), m') ∧ silent m m' ∧ m_wrpc_types m' = true.
Proof. eexists. split_and!; [done| |done]. split; [|done]. split; [done..|]. intros i spec used ?. by exists used. Qed.

(** What is written for a type: nothing for a resource, and otherwise the
    definition of its name. *)
Definition emitted (id : nat) (name : string) (ids : list nat) (m' : Module_) (cs : list (string * JsTree)) : Prop :=
  (is_resource resolve id = Some true ∧ cs = []) ∨
  ∃ e t, is_resource resolve id = Some false ∧ tree resolve id = Some t ∧ cs = [(type_name name, e)] ∧
    ∀ m'' locals, uses_le m' m'' → bound resolve ids locals → eval mods m'' locals e = Some t.

Lemma emit_type_spec fuel id def name ids m :
  id ≤ fuel → fuel < length (rs_types resolve) → reached resolve owner roots id →
  rs_types resolve !! id = Some def → td_name def = Some name → td_owner def = owner →
  local_kind_deps resolve fuel owner (td_kind def) = Some ids →
  ∃ m' cs, emit_type resolve g fuel id def m = Some ((), m') ∧ uses_le m m' ∧
    m_js m' = m_js m +:+ concat_str (show_const <$> cs) ∧ emitted id name ids m' cs.
Proof.
  intros Hid Hf Hrd Hd Hn Ho Hids. unfold emit_type. rewrite (lift_Some _ name) by done. cbv zeta.
  destruct (ts_def_succeeds resolve Hwf g owner roots Hlocated fuel id def Hid Hrd Hd Ho m) as (ts & m1 & Hm1 & Hs1 & Hj1 & _).
  rewrite (gen_bind _ _ _ _ _ Hm1).
  destruct (push_dts_spec (ts_docs (td_docs def) "") m1) as (m2 & Hm2 & Hs2 & Hj2 & _). rewrite (gen_bind _ _ _ _ _ Hm2).
  destruct (push_dts_spec ("export type " +:+ type_name name +:+ " = " +:+ ts +:+ ";" +:+ nl) m2) as (m3 & Hm3 & Hs3 & Hj3 & _).
  rewrite (gen_bind _ _ _ _ _ Hm3).
  destruct (is_resource_total resolve Hwf id) as [[] Hr]; [by eexists|..]; rewrite Hr; rewrite (lift_Some (Some _) _ _ eq_refl).
  - exists m3, []. split_and!; [done|by do 2 (etrans; [done|])| |by left]. cbn. by rewrite string_app_nil, Hj3, Hj2, Hj1.
  - destruct (use_wrpc_types_spec m3) as (m4 & Hm4 & (Hs4 & Hj4 & _) & _). rewrite (gen_bind _ _ _ _ _ Hm4).
    destruct (push_dts_spec ("export declare const " +:+ type_name name +:+ ": $wrpc.Type;" +:+ nl) m4) as (m5 & Hm5 & Hs5 & Hj5 & _).
    rewrite (gen_bind _ _ _ _ _ Hm5).
    destruct (tree_of_total resolve Hwf (S fuel) id) as [t Ht]; [lia|by eexists|done|].
    destruct (js_def_yields resolve g owner mods roots Hlocated Hexported fuel id def t ids Hf Hrd Hd Ho Ht Hids m5) as (e & m6 & Hm6 & (Hs6 & Hj6 & _) & He).
    rewrite (gen_bind _ _ _ _ _ Hm6).
    destruct (push_js_spec ("export const " +:+ type_name name +:+ " = " +:+ show e +:+ ";" +:+ nl) m6) as (m7 & Hm7 & Hs7 & Hj7 & _).
    exists m7, [(type_name name, e)]. split_and!; [done|by do 6 (etrans; [done|])| |].
    + rewrite Hj7, Hj6, Hj5, Hj4, Hj3, Hj2, Hj1. cbn. by rewrite string_app_nil.
    + right. exists e, t. split_and!; [done|by eapply tree_of_mono|done|]. intros m'' locals Hle. apply He. by etrans.
Qed.

(** *** Dependencies *)

Lemma tree_not_resource fuel id t : tree_of resolve fuel id = Some t → is_resource resolve id = Some false.
Proof.
  revert id t. induction fuel as [|fuel IH]; intros id t; cbn; [done|]. intros (def & Hd & Ht)%bind_Some.
  destruct (is_resource_total resolve Hwf id) as [[] Hr]; [by eexists| |done].
  destruct (resource_kind resolve Hwf id def Hd Hr) as [Hk|(j & Hk & _)]; rewrite Hk in Ht; [done|].
  rewrite (is_resource_alias resolve id def j Hd Hk). by eapply IH.
Qed.

Lemma local_kind_deps_elem f kind ids j id :
  wf_kind resolve id kind = true → local_kind_deps_with f kind = Some ids → j ∈ ids →
  ∃ ty l, ty ∈ references (erase kind) ∧ f ty = Some l ∧ j ∈ l.
Proof using Hwf.
  clear Hlocated Hexported DealiasLaws0.
  intros [_ Hw]%andb_prop Hids Hj. rewrite local_kind_deps_eq in Hids by (intros ty n ->; done).
  apply fmap_Some in Hids as (ls & Hls%mapM_Some & ->). apply list_elem_of_join in Hj as (l & Hj & [i Hl]%list_elem_of_lookup).
  apply (Forall2_lookup_r _ _ _ _ _ Hls) in Hl as (ty & Hty%list_elem_of_lookup_2 & Hf). eauto.
Qed.

Lemma local_deps_owned fuel ty ids j b :
  local_deps resolve fuel owner ty = Some ids → j ∈ ids → precedes b ty = true → reached_ty resolve owner roots ty →
  owned j ∧ j < b ∧ reached resolve owner roots j.
Proof using Hwf.
  clear Hlocated Hexported DealiasLaws0.
  revert ty ids b. induction fuel as [|fuel IH]; intros ty ids b Hids Hj Hp Hr;
    (destruct ty; try (clear Hr; cbn in Hids; simplify_eq; by apply not_elem_of_nil in Hj)).
  cbn in Hids. apply bind_Some in Hids as (def & Hd & Hids). apply Nat.ltb_lt in Hp. destruct (td_name def) as [name|] eqn:Hn.
  - simplify_eq. case_decide; [|set_solver]. apply list_elem_of_singleton in Hj as ->.
    split_and!; [by exists def, name|done|by apply Hr].
  - destruct (local_kind_deps_elem _ _ _ _ _ (Hwf id def Hd) Hids Hj) as (ty & l & Hty & Hl & Hjl).
    destruct (IH ty l id Hl Hjl) as (? & ? & ?); [by eapply wf_refs| |by split_and!; [|lia|]].
    eapply reached_kind; [by apply Hr|done|by left|done].
Qed.

Lemma local_kind_deps_owned fuel id def ids j :
  rs_types resolve !! id = Some def → td_owner def = owner → reached resolve owner roots id →
  local_kind_deps resolve fuel owner (td_kind def) = Some ids → j ∈ ids →
  owned j ∧ j < id ∧ reached resolve owner roots j.
Proof using Hwf.
  clear Hlocated Hexported DealiasLaws0.
  intros Hd Ho Hr Hids Hj. destruct (local_kind_deps_elem _ _ _ _ _ (Hwf id def Hd) Hids Hj) as (ty & l & Hty & Hl & Hjl).
  eapply local_deps_owned; [done..|by eapply wf_refs|]. eapply reached_kind; [done|done|by right|done].
Qed.

Lemma local_deps_fuel fuel ty : precedes fuel ty = true → in_range resolve ty → is_Some (local_deps resolve fuel owner ty).
Proof.
  revert ty. induction fuel as [|fuel IH]; intros [] Hp Hr; try done; try by eexists.
  assert (id < S fuel) as Hid by (by apply Nat.ltb_lt). destruct (Hr id eq_refl) as [def Hd]. cbn. rewrite Hd. cbn.
  destruct (td_name def); [by eexists|].
  destruct (local_kind_deps_refs (local_deps resolve fuel owner) (td_kind def)) as (ids & -> & _); [|..|by eexists].
  - intros ty n Hk. pose proof (Hwf id def Hd) as [_ Hw]%andb_prop. by rewrite Hk in Hw.
  - intros ty Hty. pose proof (wf_refs resolve Hwf id def ty Hd Hty) as Hlt. apply IH.
    + destruct ty; try done. apply Nat.ltb_lt. apply Nat.ltb_lt in Hlt. lia.
    + intros j ->. apply Nat.ltb_lt in Hlt. by eapply lookup_preceding.
Qed.

Lemma local_kind_deps_fuel fuel id def :
  id ≤ fuel → rs_types resolve !! id = Some def → is_Some (local_kind_deps resolve fuel owner (td_kind def)).
Proof.
  intros Hid Hd.
  destruct (local_kind_deps_refs (local_deps resolve fuel owner) (td_kind def)) as (ids & Hids & _); [| |by exists ids].
  - intros ty n Hk. pose proof (Hwf id def Hd) as [_ Hw]%andb_prop. by rewrite Hk in Hw.
  - intros ty Hty. pose proof (wf_refs resolve Hwf id def ty Hd Hty) as Hlt. apply local_deps_fuel.
    + destruct ty; try done. apply Nat.ltb_lt. apply Nat.ltb_lt in Hlt. lia.
    + intros j ->. apply Nat.ltb_lt in Hlt. by eapply lookup_preceding.
Qed.

(** *** The definitions so far *)

Context (Hdistinct : distinct_names).

Record progress (m0 m : Module_) (cs : list (string * JsTree)) (ρ : gmap string JsTree) (B : gset nat) : Prop := {
  p_text : m_js m = m_js m0 +:+ concat_str (show_const <$> cs);
  p_run m' : uses_le m m' → run mods m' ∅ cs = Some ρ;
  p_names name t : ρ !! name = Some t → ∃ j, j ∈ B ∧ js_name j = Some name;
  p_owned j : j ∈ B → owned j;
  p_bound j t : j ∈ B → tree resolve j = Some t → ∃ name, js_name j = Some name ∧ ρ !! name = Some t
}.

Lemma progress_bound m0 m cs ρ B ids : progress m0 m cs ρ B → (∀ j, j ∈ ids → j ∈ B) → bound resolve ids (λ x, ρ !! x).
Proof.
  intros Hp Hids j def name t Hj Hd Hn Ht. destruct (p_bound _ _ _ _ _ Hp j t (Hids j Hj) Ht) as (name' & Hname & Hρ).
  unfold js_name in Hname. rewrite Hd in Hname. cbn in Hname. rewrite Hn in Hname. by simplify_eq/=.
Qed.

Lemma progress_emit m0 m m' cs ρ B id def name ids cs' :
  progress m0 m cs ρ B → rs_types resolve !! id = Some def → td_name def = Some name → td_owner def = owner →
  id ∉ B → (∀ j, j ∈ ids → j ∈ B) → uses_le m m' →
  m_js m' = m_js m +:+ concat_str (show_const <$> cs') → emitted id name ids m' cs' →
  ∃ ρ', progress m0 m' (cs ++ cs') ρ' ({[ id ]} ∪ B).
Proof.
  intros Hp Hd Hn Ho Hid Hids Hle Hjs Hem. assert (owned id) as Hown by (by exists def, name).
  assert (js_name id = Some (type_name name)) as Hname by (unfold js_name; rewrite Hd; cbn; by rewrite Hn).
  assert (m_js m' = m_js m0 +:+ concat_str (show_const <$> cs ++ cs')) as Htext.
  { by rewrite Hjs, (p_text _ _ _ _ _ Hp), fmap_app, concat_str_app, string_app_assoc. }
  assert (∀ j, j ∈ {[ id ]} ∪ B → owned j) as Hall.
  { intros j [->%elem_of_singleton|Hj]%elem_of_union; [done|by eapply p_owned]. }
  destruct Hem as [[Hr ->]|(e & t & Hr & Ht & -> & He)].
  - exists ρ. split; [done|..|done|].
    + intros m'' Hle'. rewrite app_nil_r. eapply p_run; [done|]. by etrans.
    + intros n t Hρ. destruct (p_names _ _ _ _ _ Hp n t Hρ) as (j & ? & ?). exists j. set_solver.
    + intros j t [->%elem_of_singleton|Hj]%elem_of_union Ht; [|by eapply p_bound].
      apply tree_not_resource in Ht. congruence.
  - assert (ρ !! type_name name = None) as Hnone.
    { destruct (ρ !! type_name name) as [u|] eqn:Hu; [|done]. apply (p_names _ _ _ _ _ Hp) in Hu as (j & Hj & Hjn).
      assert (j = id) as -> by (eapply (js_names_distinct _ _ _ Hdistinct); [by eapply p_owned|done..]). done. }
    exists (<[type_name name := t]> ρ). split; [done|..|done|].
    + intros m'' Hle'. rewrite run_app, (p_run _ _ _ _ _ Hp) by (by etrans). cbn.
      rewrite He; [cbn; by rewrite decide_True|done|by eapply progress_bound].
    + intros n u [[<- <-]|[_ Hρ]]%lookup_insert_Some; [exists id; set_solver|].
      destruct (p_names _ _ _ _ _ Hp n u Hρ) as (j & ? & ?). exists j. set_solver.
    + intros j u [->%elem_of_singleton|Hj]%elem_of_union Hu.
      * exists (type_name name). split; [done|]. rewrite lookup_insert_eq. congruence.
      * destruct (p_bound _ _ _ _ _ Hp j u Hj Hu) as (n & Hjn & Hρ). exists n. split; [done|].
        rewrite lookup_insert_ne; [done|]. intros <-. congruence.
Qed.

(** A step defines [ids], which are below [b]: the types which are done and
    below [b] are defined, and so they stay. *)
Record step (m0 : Module_) (ids : list nat) (b : nat) (done : gset nat) (B : gset nat) (m : Module_)
    (done' : gset nat) (m' : Module_) : Prop := mkStep {
  s_le : uses_le m m';
  s_done : done ⊆ done';
  s_progress : ∃ cs ρ B', progress m0 m' cs ρ B' ∧ B ⊆ B' ∧ B' ⊆ done' ∧ (∀ j, j ∈ ids → j ∈ B') ∧
    (∀ j, j ∈ B' → j ∈ B ∨ j < b) ∧ (∀ j, j ∈ done' → j ∈ done ∨ j ∈ B')
}.

Definition ready (b : nat) (done B : gset nat) : Prop := B ⊆ done ∧ ∀ j, j ∈ done → j < b → j ∈ B.

Lemma define_all_step f ids b m0 m cs ρ B done :
  (∀ id m cs ρ B done, id ∈ ids → progress m0 m cs ρ B → ready (S id) done B →
    ∃ done' m', f id done m = Some (done', m') ∧ step m0 [id] (S id) done B m done' m') →
  (∀ id, id ∈ ids → id < b) → progress m0 m cs ρ B → ready b done B →
  ∃ done' m', define_all f ids done m = Some (done', m') ∧ step m0 ids b done B m done' m'.
Proof.
  revert m cs ρ B done. induction ids as [|id ids IH]; intros m cs ρ B done Hf Hlt Hp [Hsub Hready].
  - exists done, m. split; [done|]. split; [done..|]. exists cs, ρ, B. split_and!; [done..|set_solver|auto|auto].
  - assert (id < b) by (apply Hlt; set_solver).
    destruct (Hf id m cs ρ B done) as (done1 & m1 & Hm1 & [Hle1 Hdone1 (cs1 & ρ1 & B1 & Hp1 & HB1 & Hd1 & Hi1 & Hb1 & Hn1)]); [set_solver|done|..].
    { split; [done|]. intros j Hj Hjid. apply Hready; [done|lia]. }
    destruct (IH m1 cs1 ρ1 B1 done1) as (done2 & m2 & Hm2 & [Hle2 Hdone2 (cs2 & ρ2 & B2 & Hp2 & HB2 & Hd2 & Hi2 & Hb2 & Hn2)]).
    { intros. eapply Hf; [set_solver|done..]. }
    { intros. apply Hlt. set_solver. }
    { done. }
    { split; [done|]. intros j [Hj|Hj]%Hn1 Hjb; [|done]. apply HB1. by apply Hready. }
    exists done2, m2. split; [cbn; by rewrite (gen_bind _ _ _ _ _ Hm1)|]. split; [by etrans..|].
    exists cs2, ρ2, B2. split_and!; [done|set_solver|done|..].
    + intros j [->|Hj]%elem_of_cons; [apply HB2, Hi1; set_solver|by apply Hi2].
    + intros j [Hj|Hj]%Hb2; [|by right]. apply Hb1 in Hj as [?|?]; [by left|right; lia].
    + intros j [Hj|Hj]%Hn2; [|by right]. apply Hn1 in Hj as [?|?]; [by left|right; by apply HB2].
Qed.

Lemma define_type_step fuel id m0 m cs ρ B done :
  fuel ≤ length (rs_types resolve) → id < fuel → owned id → reached resolve owner roots id →
  progress m0 m cs ρ B → ready (S id) done B →
  ∃ done' m', define_type resolve g fuel id done m = Some (done', m') ∧ step m0 [id] (S id) done B m done' m'.
Proof.
  revert id m cs ρ B done. induction fuel as [|fuel IH]; intros id m cs ρ B done Hf Hid Hown Hrd Hp [Hsub Hready]; [lia|].
  cbn [define_type]. destruct (decide (id ∈ done)) as [Hin|Hnin].
  { exists done, m. split; [done|]. split; [done..|]. exists cs, ρ, B. split_and!; [done..| |auto|auto].
    intros j ->%list_elem_of_singleton. apply Hready; [done|lia]. }
  pose proof Hown as (def & name & Hd & Hn & Ho). rewrite (lift_Some _ def) by done. rewrite Ho.
  destruct (local_kind_deps_fuel fuel id def) as [ids Hids]; [lia|done|]. rewrite (lift_Some _ ids) by done.
  destruct (define_all_step (define_type resolve g fuel) ids id m0 m cs ρ B ({[ id ]} ∪ done))
    as (done1 & m1 & Hm1 & [Hle1 Hdone1 (cs1 & ρ1 & B1 & Hp1 & HB1 & Hd1 & Hi1 & Hb1 & Hn1)]); [| |done|..].
  { intros j m' cs' ρ' B' done' Hj Hp' Hr'. destruct (local_kind_deps_owned fuel id def ids j Hd Ho Hrd Hids Hj) as (? & ? & ?).
    apply (IH j m' cs' ρ' B' done'); [lia|lia|done..]. }
  { intros j Hj. by destruct (local_kind_deps_owned fuel id def ids j Hd Ho Hrd Hids Hj) as (? & ? & ?). }
  { split; [set_solver|]. intros j [->%elem_of_singleton|Hj]%elem_of_union Hlt; [lia|]. apply Hready; [done|lia]. }
  rewrite (gen_bind _ _ _ _ _ Hm1).
  destruct (emit_type_spec fuel id def name ids m1) as (m2 & cs2 & Hm2 & Hle2 & Hjs2 & He2); [lia|lia|done..|].
  assert (id ∉ B1) as HidB by (intros [?%Hsub|?]%Hb1; [done|lia]).
  destruct (progress_emit m0 m1 m2 cs1 ρ1 B1 id def name ids cs2) as (ρ2 & Hp2); [done..|].
  exists done1, m2. split; [by rewrite (gen_bind _ _ _ _ _ Hm2)|]. split; [by etrans|set_solver|].
  eexists _, ρ2, ({[ id ]} ∪ B1). split_and!; [done|set_solver|set_solver|set_solver|..].
  - intros j [->%elem_of_singleton|[Hj|Hj]%Hb1]%elem_of_union; [right; lia|by left|right; lia].
  - intros j [[->%elem_of_singleton|Hj]%elem_of_union|Hj]%Hn1; [right; set_solver|by left|right; set_solver].
Qed.

End define.

(** [C27] The definitions of a module evaluate to the types of WIT:
    [define_types] succeeds, and what it writes are statements which evaluate one
    after the other, whatever the order of [ids]; dependencies are defined
    before they are used, every alias is imported, and no name is bound twice.
    The name of each type, resources apart, is bound to its tree.  The types are
    of one owner, whose types have distinct names of words of lower case; those
    of other owners which they refer to are of interfaces with a module, which
    exports their trees. *)
Theorem define_types_evaluates `{WitParser} (resolve : WitResolve) `{!DealiasLaws resolve} g owner mods ids m :
  wf_types resolve → located resolve g owner (TyId <$> ids) → exported resolve g owner mods (TyId <$> ids) →
  distinct_names resolve owner → (∀ id, id ∈ ids → owned resolve owner id) →
  ∃ cs ρ m', define_types resolve g (length (rs_types resolve)) ids m = Some ((), m') ∧
    m_js m' = m_js m +:+ concat_str (show_const <$> cs) ∧ run mods m' ∅ cs = Some ρ ∧
    ∀ id, id ∈ ids → is_resource resolve id = Some false →
      ∃ name t, js_name resolve id = Some name ∧ tree resolve id = Some t ∧ ρ !! name = Some t.
Proof.
  intros Hwf Hlocated Hexported Hdistinct Hown. assert (∀ id, id ∈ ids → id < length (rs_types resolve)) as Hlt.
  { intros id (def & name & Hd & _)%Hown. by eapply lookup_lt_Some. }
  destruct (define_all_step resolve g owner mods Hwf (TyId <$> ids) Hlocated Hexported Hdistinct (define_type resolve g (length (rs_types resolve))) ids
    (length (rs_types resolve)) m m [] ∅ ∅ ∅)
    as (done' & m' & Hm' & [Hle Hdone (cs & ρ & B & Hp & _ & _ & Hids & _)]); [|done|..].
  - intros id m1 cs ρ B done Hid Hp Hr.
    apply (define_type_step resolve g owner mods Hwf (TyId <$> ids) Hlocated Hexported Hdistinct _ id m m1 cs ρ B done); auto.
    apply reached_root. by apply list_elem_of_fmap_2.
  - split; cbn; [by rewrite string_app_nil|done|by intros ?? ?%lookup_empty_Some|set_solver|set_solver].
  - split; [done|]. set_solver.
  - exists cs, ρ, m'. unfold define_types. rewrite (gen_bind _ _ _ _ _ Hm'). split_and!; [done|by apply Hp|by apply Hp|].
    intros id Hid Hr. destruct (tree_of_total resolve Hwf (length (rs_types resolve)) id) as [t Ht]; [auto| |done|].
    { destruct (Hown id Hid) as (def & name & Hd & _). by eexists. }
    destruct (p_bound _ _ _ _ _ _ _ _ Hp id t (Hids id Hid) Ht) as (name & Hn & Hρ). eauto.
Qed.

(** ** An arena *)

Fixpoint dealias_fuel (fuel : nat) (resolve : WitResolve) (id : nat) : nat :=
  match fuel with
  | 0 => id
  | S fuel =>
      match rs_types resolve !! id with
      | Some def => match td_kind def with DType (TyId j) => dealias_fuel fuel resolve j | _ => id end
      | None => id
      end
  end.

Definition test_parser : WitParser := {|
  name_world_key := λ _ key, match key with KeyName name => name | KeyInterface _ => "interface" end;
  id_of_name := λ _ _ name, name;
  dealias := λ resolve id, dealias_fuel (length (rs_types resolve)) resolve id
|}.

(** A type of another interface, a resource, a record and a variant which uses
    them, and a type of an interface which is not in the world *)
Definition test_types : list TypeDef := [
  mkTypeDef (Some "size") (DType TyU32) (OwnerInterface 1) None;
  mkTypeDef (Some "file") DResource (OwnerInterface 0) None;
  mkTypeDef None (DOwn 1) OwnerNone None;
  mkTypeDef (Some "point") (DRecord [("x", TyU8); ("y", TyId 0)]) (OwnerInterface 0) (Some "A point.");
  mkTypeDef None (DList (TyId 3)) OwnerNone None;
  mkTypeDef (Some "shape") (DVariant [("points", Some (TyId 4)); ("file", Some (TyId 2)); ("empty", None)]) (OwnerInterface 0) None;
  mkTypeDef (Some "unused") (DType TyU64) (OwnerInterface 2) None
].
Definition test_resolve : WitResolve := mkWitResolve test_types [] [] [].
Definition test_gen : Gen := mkGen {[ 0 := Local "a/b/c"; 1 := Local "a/d/e" ]} "w" "a/b/c".
Definition test_mods (spec name : string) : option JsTree :=
  if decide (spec = "../../a/d/e.js" ∧ name = "Size") then Some (JPrim TyU32) else None.

Ltac each_type id := destruct id as [|[|[|[|[|[|[|?]]]]]]]; cbn in *; intros; simplify_eq/=.

#[local] Existing Instance test_parser.

Lemma test_dealias : DealiasLaws test_resolve.
Proof.
  split.
  - intros id def j. each_type id.
  - intros id def. each_type id; done.
Qed.

Lemma test_reached roots id :
  (∀ id, TyId id ∈ roots → id < 6) → reached test_resolve (OwnerInterface 0) roots id → id < 6.
Proof.
  intros Hroots. induction 1 as [id Hid|id def j _ IH Hd _ Hj]; [by apply Hroots|].
  each_type id; set_unfold; naive_solver lia.
Qed.

Lemma test_located roots : (∀ id, TyId id ∈ roots → id < 6) → located test_resolve test_gen (OwnerInterface 0) roots.
Proof.
  intros Hroots id def name Hid%(test_reached roots _ Hroots).
  each_type id; try lia; eexists; (split; [reflexivity|]); cbn; naive_solver.
Qed.

Lemma test_exported roots :
  (∀ id, TyId id ∈ roots → id < 6) → exported test_resolve test_gen (OwnerInterface 0) test_mods roots.
Proof.
  intros Hroots id def name path t Hid%(test_reached roots _ Hroots).
  each_type id; try lia; rename select (_ !! _ = Some path) into H1.
  - rewrite lookup_insert_ne, lookup_singleton_eq in H1 by done. simplify_eq. by vm_compute.
  - rewrite lookup_insert_eq in H1. by simplify_eq.
  - rewrite lookup_insert_eq in H1. by simplify_eq.
Qed.

Lemma test_roots id : TyId id ∈ TyId <$> [5; 1; 3] → id < 6.
Proof. cbn. set_unfold. naive_solver lia. Qed.

Lemma test_owned id : id ∈ [5; 1; 3] → owned test_resolve (OwnerInterface 0) id.
Proof. set_unfold. intros [?|[?|[?|?]]]; subst; [by eexists _, _..|done]. Qed.

Lemma test_distinct : distinct_names test_resolve (OwnerInterface 0).
Proof.
  split.
  - intros id name (def & n & Hd & Hn & Ho) Hname. unfold wit_name_of in Hname. rewrite Hd in Hname. cbn in Hname.
    rewrite Hn in Hname. simplify_eq. each_type id; repeat constructor.
  - intros i j name (d1 & n1 & H1 & H2 & H3) (d2 & n2 & H4 & H5 & H6) Hi Hj.
    each_type i; each_type j; done.
Qed.

Lemma define_types_evaluates_witness :
  ∃ cs ρ m', define_types test_resolve test_gen 7 [5; 1; 3] Module_default = Some ((), m') ∧
    m_js m' = m_js Module_default +:+ concat_str (show_const <$> cs) ∧ run test_mods m' ∅ cs = Some ρ ∧
    ∀ id, id ∈ [5; 1; 3] → is_resource test_resolve id = Some false →
      ∃ name t, js_name test_resolve id = Some name ∧ tree test_resolve id = Some t ∧ ρ !! name = Some t.
Proof.
  apply (@define_types_evaluates test_parser test_resolve test_dealias test_gen (OwnerInterface 0) test_mods [5; 1; 3]).
  - apply wf_typesb_sound. by vm_compute.
  - apply test_located, test_roots.
  - apply test_exported, test_roots.
  - apply test_distinct.
  - apply test_owned.
Defined.

(** What is written for them *)
Example test_module_js :
  (λ r, m_js r.2) <$> define_types test_resolve test_gen 7 [5; 1; 3] Module_default =
  Some ("export const Point = $t.record({ " +:+ debug "x" +:+ ": $t.u8, " +:+ debug "y" +:+ ": $0.Size });" +:+ nl +:+
    "export const Shape = $t.variant({ " +:+ debug "points" +:+ ": $t.list(Point), " +:+ debug "file" +:+ ": $t.own(" +:+
    debug "file" +:+ "), " +:+ debug "empty" +:+ ": null });" +:+ nl).
Proof. by vm_compute. Qed.
