(* ===== verification/JsGen.v ===== *)
(** * JavaScript bindings of functions and worlds

    Model of the functions of [Gen] on functions and of [JsWrpc], the
    [WorldGenerator] of [crates/wit-bindgen-js/src/lib.rs]: the clients of imported
    functions, the handlers of exported ones, and the modules of a world.

    The state of [JsWrpc] is a record, and its operations return the state or an
    error; [None] is a panic, as for [GenM].  Identifiers of interfaces, packages
    and worlds are indices. *)

From stdpp Require Import pretty.
From S2P Require Import Prelude Subscriptions Resolve Introspect Wit JsNames JsTypes.

(** ** Functions *)

(** [Gen::group] *)
Fixpoint group_push (id : nat) (func : Function) (resources : list (nat * list Function)) : list (nat * list Function) :=
  match resources with
  | [] => [(id, [func])]
  | (r, funcs) :: resources' =>
      if decide (r = id) then (r, funcs ++ [func]) :: resources' else (r, funcs) :: group_push id func resources'
  end.

Definition group_step (acc : list Function * list (nat * list Function)) (func : Function) :
    list Function * list (nat * list Function) :=
  match func_resource func with
  | None => (acc.1 ++ [func], acc.2)
  | Some id => (acc.1, group_push id func acc.2)
  end.

Definition group (funcs : list Function) : list Function * list (nat * list Function) :=
  foldl group_step ([], []) funcs.

Section gen.
Context `{WitParser} (resolve : WitResolve) (g : Gen).

Abbreviation fuel := (length (rs_types resolve)) (only parsing).

(** [Gen::is_async] *)
Definition is_async (ty : Type_) : option bool :=
  '(paths, fut) ← async_paths_ty fuel (kinds resolve) ty;
  Some (fut || negb (bool_decide (paths = ∅))).

(** [any] *)
Fixpoint any {A} (p : A → option bool) (l : list A) : option bool :=
  match l with
  | [] => Some false
  | x :: l => b ← p x; if b : bool then Some true else any p l
  end.

Definition func_is_async (func : Function) : option bool :=
  b ← any (λ p, is_async p.2) (fn_params func);
  if b : bool then Some true
  else match fn_result func with Some ty => is_async ty | None => Some false end.

Definition ts_params (func : Function) : GenM (list string) :=
  mapM (λ p, s ← ts_ty resolve g fuel p.2; mret (param_ident p.1 +:+ ": " +:+ s)) (fn_params func).

(** [Gen::client_signature] *)
Definition client_signature (func : Function) : GenM (string * string) :=
  let params := "transport" :: (param_ident ∘ fst <$> fn_params func) in
  use_wrpc_types;;
  ts ← ts_params func;
  let ts_params := "transport: $wrpc.Transport" :: ts in
  result ← ts_opt_ty resolve g fuel (fn_result func);
  b ← lift (func_is_async func);
  let result :=
    if b : bool then
      match fn_result func with
      | Some _ => braces ("result: " +:+ result +:+ "; finished: globalThis.Promise<void>")
      | None => braces "finished: globalThis.Promise<void>"
      end
    else result in
  mret (join ", " params, "(" +:+ join ", " ts_params +:+ "): globalThis.Promise<" +:+ result +:+ ">").

Definition rpc_name (func : Function) : option string := rpc_func_name (fn_kind func) (fn_name func).

Definition brackets (s : string) : string := "[" +:+ s +:+ "]".

(** The call of [$invoke] in [Gen::client_body] *)
Definition invoke_line (indent instance name : string) (types args : list string) (results : string) : string :=
  indent +:+ "const $r = await $invoke(transport, " +:+ debug instance +:+ ", " +:+ debug name +:+ ", " +:+
  brackets (join ", " types) +:+ ", " +:+ brackets (join ", " args) +:+ ", " +:+ brackets results +:+ ");" +:+ nl.

(** What [Gen::client_body] returns of it *)
Definition return_lines (indent : string) (is_async has_result : bool) : string :=
  if is_async then
    if has_result then indent +:+ "return { result: $r.results[0], finished: $r.finished };" +:+ nl
    else indent +:+ "return { finished: $r.finished };" +:+ nl
  else
    indent +:+ "await $r.finished;" +:+ nl +:+
    (if has_result then indent +:+ "return $r.results[0];" +:+ nl else "").

Definition has_result (func : Function) : bool := match fn_result func with Some _ => true | None => false end.

Definition client_body (instance : string) (func : Function) (indent : string) : GenM string :=
  use_runtime "invoke";;
  types ← mapM (λ p, js_ty resolve g fuel p.2) (fn_params func);
  let args := param_ident ∘ fst <$> fn_params func in
  results ← (match fn_result func with Some ty => js_ty resolve g fuel ty | None => mret "" end : GenM string);
  name ← lift (rpc_name func);
  b ← lift (func_is_async func);
  mret (invoke_line indent instance name types args results +:+ return_lines indent b (has_result func)).

(** A loop over functions *)
Fixpoint for_each {A} (f : A → GenM ()) (l : list A) : GenM () :=
  match l with [] => mret () | x :: l => f x;; for_each f l end.

(** The names of functions which the module of a world has of its own *)
Definition client_name (name : string) : string :=
  if decide (name ∈ ["serve"; "serveInterface"; "served"] ∧ g_path g = g_world g) then name +:+ "_" else name.

Definition client_func (instance : string) (func : Function) : GenM () :=
  name ← lift (func_name func);
  let name := client_name name in
  '(params, sig) ← client_signature func;
  body ← client_body instance func "  ";
  push_dts (ts_docs (fn_docs func) "");;
  push_dts ("export function " +:+ name +:+ sig +:+ ";" +:+ nl);;
  push_js ("export async function " +:+ name +:+ "(" +:+ params +:+ ") {" +:+ nl +:+ body +:+ "}" +:+ nl).

Definition resource_name (id : nat) : option string :=
  def ← rs_types resolve !! id; name ← td_name def; Some (type_name name).

Definition client_method (instance : string) (func : Function) : GenM () :=
  key ← lift (func_name func);
  '(params, sig) ← client_signature func;
  body ← client_body instance func "    ";
  push_dts (ts_docs (fn_docs func) "  ");;
  push_dts ("  " +:+ debug key +:+ sig +:+ ";" +:+ nl);;
  push_js ("  async " +:+ key +:+ "(" +:+ params +:+ ") {" +:+ nl +:+ body +:+ "  }," +:+ nl).

Definition client_resource (instance : string) (resource : nat * list Function) : GenM () :=
  name ← lift (resource_name resource.1);
  push_dts ("export declare const " +:+ name +:+ ": {" +:+ nl);;
  push_js ("export const " +:+ name +:+ " = {" +:+ nl);;
  for_each (client_method instance) resource.2;;
  push_dts ("};" +:+ nl);;
  push_js ("};" +:+ nl).

(** [Gen::client_funcs] *)
Definition client_funcs (instance : string) (funcs : list Function) : GenM () :=
  let '(free, resources) := group funcs in
  for_each (client_func instance) free;;
  for_each (client_resource instance) resources.

(** ** Handlers *)

Definition result_may_be_promise (func : Function) : option bool :=
  match fn_result func with Some ty => may_be_promise fuel resolve ty | None => Some false end.

(** [Gen::handler_signature] *)
Definition handler_signature (func : Function) : GenM string :=
  params ← ts_params func;
  result ← ts_opt_ty resolve g fuel (fn_result func);
  b ← lift (result_may_be_promise func);
  mret (if b : bool then "(" +:+ join ", " params +:+ "): " +:+ result
        else "(" +:+ join ", " params +:+ "): " +:+ result +:+ " | globalThis.Promise<" +:+ result +:+ ">").

(** The text of a case *)
Definition case_text (name : string) (params : list string) (results : string) : string :=
  "    case " +:+ debug name +:+ ": {" +:+ nl +:+
  "      const { params } = await inv.receiveParams(" +:+ brackets (join ", " params) +:+ ");" +:+ nl +:+
  results +:+ "      return;" +:+ nl +:+ "    }" +:+ nl.

Definition results_text (ty call handler : string) : string :=
  "      await inv.sendResults(" +:+ brackets ty +:+ ", " +:+ brackets (call +:+ handler +:+ "(...params)") +:+ ");" +:+ nl.

Definition no_results_text (handler : string) : string :=
  "      await " +:+ handler +:+ "(...params);" +:+ nl +:+ "      await inv.sendResults([], []);" +:+ nl.

(** [Gen::serve_case] *)
Definition serve_case (func : Function) (handler : string) : GenM string :=
  params ← mapM (λ p, js_ty resolve g fuel p.2) (fn_params func);
  name ← lift (rpc_name func);
  results ← (match fn_result func with
             | Some ty =>
                 b ← lift (may_be_promise fuel resolve ty);
                 ty ← js_ty resolve g fuel ty;
                 mret (results_text ty (if b : bool then "" else "await ") handler)
             | None => mret (no_results_text handler)
             end : GenM string);
  mret (case_text name params results).

(** The member of [Handler] of a function, [prefix] being the handler of its
    resource, and its case *)
Definition serve_func (indent key prefix : string) (func : Function) : GenM string :=
  sig ← handler_signature func;
  push_dts (ts_docs (fn_docs func) indent);;
  push_dts (indent +:+ debug key +:+ sig +:+ ";" +:+ nl);;
  serve_case func (prefix +:+ "." +:+ key).

Definition serve_free (func : Function) : GenM string :=
  serve_func "  " (camel_case (fn_name func)) "handler" func.

Definition serve_method (name : string) (func : Function) : GenM string :=
  key ← lift (func_name func);
  serve_func "    " key ("handler." +:+ name) func.

Definition serve_resource (resource : nat * list Function) : GenM string :=
  name ← lift (resource_name resource.1);
  push_dts ("  " +:+ name +:+ ": {" +:+ nl);;
  cases ← mapM (serve_method name) resource.2;
  push_dts ("  };" +:+ nl);;
  mret (concat_str cases).

Definition backquote : string := String (Ascii.ascii_of_nat 96) "".
Definition escaped_backquote : string := String backslash backquote.

Definition unknown_function : string :=
  "    default:" +:+ nl +:+ "      throw new globalThis.Error(" +:+ backquote +:+ "unknown function " +:+
  escaped_backquote +:+ "${inv.func}" +:+ escaped_backquote +:+ " of instance " +:+ escaped_backquote +:+
  "${inv.instance}" +:+ escaped_backquote +:+ backquote +:+ ");" +:+ nl +:+ "  }" +:+ nl +:+ "}" +:+ nl.

(** [Gen::serve_funcs] *)
Definition serve_funcs (funcs : list Function) : GenM (list string) :=
  match funcs with
  | [] => mret []
  | _ =>
      let '(free, resources) := group funcs in
      push_dts ("export interface Handler {" +:+ nl);;
      cases ← mapM serve_free free;
      cases' ← mapM serve_resource resources;
      push_dts ("}" +:+ nl);;
      use_wrpc_types;;
      push_dts ("export function serveInterface(inv: $wrpc.Invocation, handler: Handler): globalThis.Promise<void>;" +:+ nl);;
      push_js ("export async function serveInterface(inv, handler) {" +:+ nl);;
      push_js ("  switch (inv.func) {" +:+ nl);;
      push_js (concat_str cases +:+ concat_str cases');;
      push_js unknown_function;;
      mapM (λ func, lift (rpc_name func)) funcs
  end.

End gen.

(** ** Worlds *)

Inductive WithOption := Path (path : string) | Generate.

Record Opts := mkOpts {
  o_with : list (string * WithOption);
  o_generate_all : bool;
  o_wrpc_path : option string
}.

(** [parse_with] *)
Definition parse_with (s : string) : option (string * WithOption) :=
  '(k, v) ← split_once (Ascii.ascii_of_nat 61) s;
  Some (k, if decide (v = "generate") then Generate else Path v).

Record JsWrpc := mkJsWrpc {
  w_opts : Opts;
  w_with : gmap string WithOption;
  w_used_with : gset string;
  w_world : string;
  w_interfaces : gmap nat ModulePath;
  w_modules : list (string * Module_);
  w_world_module : Module_;
  w_exports : list (string * option ModulePath * list string)
}.

(** [Opts::build] *)
Definition build (opts : Opts) : JsWrpc := mkJsWrpc opts ∅ ∅ "" ∅ [] Module_default [].

Inductive JsError := NoRemapping (name : string) | UnusedRemappings (names : list string).

Definition set_with (w : JsWrpc) (world : string) (with_ : gmap string WithOption) : JsWrpc :=
  mkJsWrpc (w_opts w) with_ (w_used_with w) world (w_interfaces w) (w_modules w) (w_world_module w) (w_exports w).
Definition use_with (w : JsWrpc) (name : string) : JsWrpc :=
  mkJsWrpc (w_opts w) (w_with w) ({[ name ]} ∪ w_used_with w) (w_world w) (w_interfaces w) (w_modules w)
    (w_world_module w) (w_exports w).
Definition set_interface (w : JsWrpc) (id : nat) (path : ModulePath) : JsWrpc :=
  mkJsWrpc (w_opts w) (w_with w) (w_used_with w) (w_world w) (<[id := path]> (w_interfaces w)) (w_modules w)
    (w_world_module w) (w_exports w).
Definition push_module (w : JsWrpc) (path : string) (m : Module_) : JsWrpc :=
  mkJsWrpc (w_opts w) (w_with w) (w_used_with w) (w_world w) (w_interfaces w) (w_modules w ++ [(path, m)])
    (w_world_module w) (w_exports w).
Definition set_world_module (w : JsWrpc) (m : Module_) : JsWrpc :=
  mkJsWrpc (w_opts w) (w_with w) (w_used_with w) (w_world w) (w_interfaces w) (w_modules w) m (w_exports w).
Definition push_export (w : JsWrpc) (e : string * option ModulePath * list string) : JsWrpc :=
  mkJsWrpc (w_opts w) (w_with w) (w_used_with w) (w_world w) (w_interfaces w) (w_modules w) (w_world_module w)
    (w_exports w ++ [e]).

Section world.
Context `{WitParser} (resolve : WitResolve).

(** [name_package_module] *)
Definition name_package_module (id : nat) : option string :=
  pkg ← rs_packages resolve !! id;
  let versions := length (filter (λ p, pk_namespace p = pk_namespace pkg ∧ pk_name p = pk_name pkg) (rs_packages resolve)) in
  Some (match pk_version pkg with
        | Some version => if 1 <? versions then pk_name pkg +:+ "@" +:+ version else pk_name pkg
        | None => pk_name pkg
        end).

(** [interface_instance] *)
Definition interface_instance (name : WorldKey) (id : nat) : option string :=
  iface ← rs_interfaces resolve !! id;
  name ← match name with KeyName s => Some s | KeyInterface _ => if_name iface end;
  Some (match if_package iface with Some pkg => id_of_name resolve pkg name | None => name end).

(** The path of the module of an interface *)
Definition interface_path (name : WorldKey) (is_export : bool) : option (list string) :=
  rest ← match name with
         | KeyName name => Some (if is_export then [name] else ["imports"; name])
         | KeyInterface id =>
             iface ← rs_interfaces resolve !! id;
             pkg ← if_package iface;
             package ← rs_packages resolve !! pkg;
             module ← name_package_module pkg;
             name ← if_name iface;
             Some [pk_namespace package; module; name]
         end;
  Some (if is_export then "exports" :: rest else rest).

(** [JsWrpc::name_interface]; the path is that of a module to generate. *)
Definition name_interface (w : JsWrpc) (id : nat) (name : WorldKey) (is_export : bool) :
    option (result JsError (JsWrpc * option string)) :=
  let generate := λ w : JsWrpc, path ← interface_path name is_export;
    let path := join "/" path in
    Some (Ok (set_interface w id (Local path), Some path)) in
  if is_export then generate w
  else
    let with_name := name_world_key resolve name in
    match w_with w !! with_name with
    | Some Generate => generate (use_with w with_name)
    | Some (Path path) => Some (Ok (use_with (set_interface w id (External path)) with_name, None))
    | None => if o_generate_all (w_opts w) then generate w else Some (Err (NoRemapping with_name))
    end.

(** [JsWrpc::module] *)
Definition module (w : JsWrpc) (path : string) : Gen := mkGen (w_interfaces w) (w_world w) path.

(** [preprocess] *)
Definition preprocess (w : JsWrpc) (world : nat) : option JsWrpc :=
  world ← rs_worlds resolve !! world;
  with_ ← foldl (λ acc entry,
      with_ ← acc;
      match entry.2 with
      | ItemInterface id =>
          iface ← rs_interfaces resolve !! id;
          Some (if decide (if_package iface = wd_package world)
                then <[name_world_key resolve entry.1 := Generate]> with_ else with_)
      | _ => Some with_
      end) (Some (w_with w)) (wd_imports world ++ wd_exports world);
  Some (set_with w (wd_name world) (foldl (λ with_ kv, <[kv.1 := kv.2]> with_) with_ (o_with (w_opts w)))).

Abbreviation fuel := (length (rs_types resolve)) (only parsing).

(** [import_interface] *)
Definition import_interface (w : JsWrpc) (name : WorldKey) (id : nat) : option (result JsError JsWrpc) :=
  r ← name_interface w id name false;
  match r with
  | Err e => Some (Err e)
  | Ok (w, None) => Some (Ok w)
  | Ok (w, Some path) =>
      iface ← rs_interfaces resolve !! id;
      instance ← interface_instance name id;
      let g := module w path in
      '(_, m) ← (define_types resolve g fuel (if_types iface);;
                 client_funcs resolve g instance (if_functions iface)) Module_default;
      Some (Ok (push_module w path m))
  end.

(** [import_types] *)
Definition import_types (w : JsWrpc) (types : list nat) : option JsWrpc :=
  '(_, m) ← define_types resolve (module w (w_world w)) fuel types (w_world_module w);
  Some (set_world_module w m).

(** [import_funcs] *)
Definition import_funcs (w : JsWrpc) (funcs : list Function) : option JsWrpc :=
  '(_, m) ← client_funcs resolve (module w (w_world w)) "" funcs (w_world_module w);
  Some (set_world_module w m).

(** [export_interface] *)
Definition export_interface (w : JsWrpc) (name : WorldKey) (id : nat) : option (result JsError JsWrpc) :=
  instance ← interface_instance name id;
  r ← name_interface w id name true;
  match r with
  | Err e => Some (Err e)
  | Ok (_, None) => None
  | Ok (w, Some path) =>
      iface ← rs_interfaces resolve !! id;
      let g := module w path in
      '(served, m) ← (define_types resolve g fuel (if_types iface);;
                      serve_funcs resolve g (if_functions iface)) Module_default;
      let w := push_module w path m in
      Some (Ok (match served with [] => w | _ => push_export w (instance, Some (Local path), served) end))
  end.

(** [export_funcs] *)
Definition export_funcs (w : JsWrpc) (funcs : list Function) : option (result JsError JsWrpc) :=
  '(served, m) ← serve_funcs resolve (module w (w_world w)) funcs (w_world_module w);
  let w := set_world_module w m in
  Some (Ok (match served with [] => w | _ => push_export w ("", None, served) end)).

(** ** Files *)

Definition generated_preamble (version : string) : string :=
  "// Generated by " +:+ backquote +:+ "wit-bindgen-wrpc-js" +:+ backquote +:+ " " +:+ version +:+ ". DO NOT EDIT!" +:+ nl.

(** The imports of the modules of [deps], by their aliases *)
Definition import_js (i : nat) (d : string * bool) : string :=
  if d.2 then "import * as " +:+ alias i +:+ " from " +:+ debug d.1 +:+ ";" +:+ nl else "".
Definition import_dts (i : nat) (d : string * bool) : string :=
  "import type * as " +:+ alias i +:+ " from " +:+ debug d.1 +:+ ";" +:+ nl.

(** [Module::render]; the version is that of the package. *)
Definition render (version wrpc : string) (m : Module_) : string * string :=
  (generated_preamble version +:+
   (match m_runtime m with
    | [] => ""
    | runtime =>
        "import " +:+ braces (join ", " ((λ n, n +:+ " as $" +:+ n) <$> runtime)) +:+ " from " +:+ debug wrpc +:+ ";" +:+ nl
    end) +:+
   concat_str (imap import_js (m_deps m)) +:+ nl +:+ m_js m,
   generated_preamble version +:+
   (if m_wrpc_types m then "import type * as $wrpc from " +:+ debug wrpc +:+ ";" +:+ nl else "") +:+
   concat_str (imap import_dts (m_deps m)) +:+ nl +:+ m_dts m).

(** [sort] *)
Fixpoint insert_sorted (x : string) (l : list string) : list string :=
  match l with
  | [] => [x]
  | y :: l' => if String.leb x y then x :: l else y :: insert_sorted x l'
  end.
Definition sort_strings (l : list string) : list string := foldr insert_sorted [] l.

(** The handler and the function which serve an export *)
Definition export_names (g : Gen) (path : option ModulePath) : GenM (string * string) :=
  match path with
  | Some path => d ← dep g path true; mret (d +:+ ".Handler", d +:+ ".serveInterface")
  | None => mret ("Handler", "serveInterface")
  end.

Definition instance_case (i : nat) (instance serve : string) : string :=
  "      case " +:+ debug instance +:+ ":" +:+ nl +:+
  "        await " +:+ serve +:+ "(inv, h" +:+ pretty i +:+ ");" +:+ nl +:+ "        break;" +:+ nl.

(** The parameter of the [i]th export and its case *)
Fixpoint export_cases (g : Gen) (i : nat) (exports : list (string * option ModulePath * list string)) :
    GenM (list (string * string)) :=
  match exports with
  | [] => mret []
  | (instance, path, _) :: exports =>
      '(handler, serve) ← export_names g path;
      rest ← export_cases g (S i) exports;
      mret (("h" +:+ pretty i +:+ ": " +:+ handler, instance_case i instance serve) :: rest)
  end.

Definition serve_text (params cases : string) : string :=
  "export async function serve(" +:+ params +:+ ") {" +:+ nl +:+
  "  const inv = await $accept(transport);" +:+ nl +:+
  "  try {" +:+ nl +:+
  "    switch (inv.instance) {" +:+ nl +:+
  cases +:+ "      default:" +:+ nl +:+
  "        throw new globalThis.Error(" +:+ backquote +:+ "unknown instance " +:+ escaped_backquote +:+
  "${inv.instance}" +:+ escaped_backquote +:+ backquote +:+ ");" +:+ nl +:+
  "    }" +:+ nl +:+
  "    await inv.finished;" +:+ nl +:+
  "  } catch (err) {" +:+ nl +:+
  "    inv.mux.abort(err);" +:+ nl +:+
  "    throw err;" +:+ nl +:+
  "  }" +:+ nl +:+
  "}" +:+ nl.

(** The pairs which [serve] dispatches *)
Definition served_pairs (exports : list (string * option ModulePath * list string)) : list (string * string) :=
  exports ≫= λ e, pair e.1.1 <$> e.2.

Definition show_pair (p : string * string) : string := brackets (debug p.1 +:+ ", " +:+ debug p.2).

(** [serve] and [served] of the module of the world *)
Definition finish_world (g : Gen) (exports : list (string * option ModulePath * list string)) : GenM () :=
  match exports with
  | [] => mret ()
  | _ =>
      use_runtime "accept";;
      use_wrpc_types;;
      cases ← export_cases g 0 exports;
      push_dts ("export function serve(" +:+ join ", " ("transport: $wrpc.Transport" :: cases.*1) +:+
        "): globalThis.Promise<void>;" +:+ nl);;
      push_js (serve_text (join ", " ("transport" :: imap (λ i _, "h" +:+ pretty i) exports)) (concat_str cases.*2));;
      push_dts ("/** The " +:+ backquote +:+ "[instance, function]" +:+ backquote +:+ " pairs " +:+ backquote +:+
        "serve" +:+ backquote +:+ " dispatches. */" +:+ nl +:+
        "export const served: readonly (readonly [string, string])[];" +:+ nl);;
      push_js ("export const served = " +:+ brackets (join ", " (show_pair <$> served_pairs exports)) +:+ ";" +:+ nl)
  end.

(** [finish]; the result is the files. *)
Definition finish (version : string) (w : JsWrpc) : option (result JsError (list (string * string))) :=
  match sort_strings (filter (λ k, k ∉ w_used_with w) (o_with (w_opts w)).*1) with
  | [] =>
      '(_, m) ← finish_world (module w (w_world w)) (w_exports w) (w_world_module w);
      let wrpc := default "@bytecodealliance/wrpc" (o_wrpc_path (w_opts w)) in
      Some (Ok ((w_modules w ++ [(w_world w, m)]) ≫= λ pm,
        let '(js, dts) := render version wrpc pm.2 in
        [(pm.1 +:+ ".js", js); (pm.1 +:+ ".d.ts", dts)]))
  | unused => Some (Err (UnusedRemappings unused))
  end.

End world.
