(* ===== verification/JsFuncs.v ===== *)
(** * Functions of JavaScript bindings

    The functions which are grouped by resource are those of the interface, each
    once; a comment ends where its documentation does; a client returns what the
    streams and futures of its function need; and the client and the server of a
    function describe its values by the same trees, though they are in modules of
    their own ([invocation_types_agree]). *)

From S2P Require Import Prelude Subscriptions Resolve Introspect Wit JsNames JsTypes JsTrees JsDefine JsGen.

(** ** Comments *)

Definition starts_with (c : Ascii.ascii) (s : string) : bool :=
  match s with String d _ => Ascii.eqb c d | EmptyString => false end.

(** A text which ends a comment *)
Fixpoint closes (s : string) : bool :=
  match s with
  | EmptyString => false
  | String c s => (Ascii.eqb c star && starts_with slash s) || closes s
  end.

Fixpoint ends_with (c : Ascii.ascii) (s : string) : bool :=
  match s with
  | EmptyString => false
  | String d EmptyString => Ascii.eqb c d
  | String _ s => ends_with c s
  end.

Lemma starts_with_app c s1 s2 :
  starts_with c (s1 +:+ s2) = match s1 with EmptyString => starts_with c s2 | _ => starts_with c s1 end.
Proof. by destruct s1. Qed.

Lemma closes_app s1 s2 :
  closes (s1 +:+ s2) = closes s1 || closes s2 || (ends_with star s1 && starts_with slash s2).
Proof.
  induction s1 as [|c s1 IH]; [by rewrite string_nil_app, orb_false_r|]. rewrite string_app_cons. cbn [closes].
  rewrite IH, starts_with_app. destruct s1 as [|d s1].
  - cbn [closes ends_with starts_with]. rewrite (Ascii.eqb_sym star c).
    destruct (Ascii.eqb c star), (starts_with slash s2), (closes s2); done.
  - change (ends_with star (String c (String d s1))) with (ends_with star (String d s1)).
    destruct (Ascii.eqb c star && starts_with slash (String d s1)), (closes (String d s1)), (closes s2); done.
Qed.

Lemma ends_with_app c s1 s2 :
  ends_with c (s1 +:+ s2) = match s2 with EmptyString => ends_with c s1 | _ => ends_with c s2 end.
Proof.
  induction s1 as [|d s1 IH]; [by destruct s2|]. rewrite string_app_cons.
  destruct s1 as [|e s1]; [by destruct s2|]. rewrite string_app_cons in IH |- *. exact IH.
Qed.

(** Texts which can be followed by any other without ending a comment *)
Definition tame (s : string) : Prop := closes s = false ∧ ends_with star s = false.

Lemma tame_app s1 s2 : tame s1 → tame s2 → tame (s1 +:+ s2).
Proof.
  intros [H1 H2] [H3 H4]. split; [by rewrite closes_app, H1, H2, H3|]. rewrite ends_with_app. by destruct s2.
Qed.

Lemma tame_concat l : Forall tame l → tame (concat_str l).
Proof. induction 1 as [|s l Hs _ IH]; [done|]. by apply tame_app. Qed.

Lemma tame_nl s : closes s = false → tame (s +:+ nl).
Proof. intros Hs. split; [rewrite closes_app, Hs; apply andb_false_r|by rewrite ends_with_app]. Qed.

Lemma replace_close_cons c d s :
  replace_close (String c (String d s)) =
  if Ascii.eqb c star && Ascii.eqb d slash then String star (String backslash (String slash (replace_close s)))
  else String c (replace_close (String d s)).
Proof. done. Qed.

Lemma replace_close_spec s :
  closes (replace_close s) = false ∧ starts_with slash (replace_close s) = starts_with slash s.
Proof.
  assert (∀ n s, String.length s ≤ n → closes (replace_close s) = false ∧
    starts_with slash (replace_close s) = starts_with slash s) as Hn; [|by eapply Hn].
  clear s. intros n. induction n as [|n IH]; intros [|c [|d s]] Hs; try done; try (cbn in Hs; lia).
  - split; [|done]. cbn [replace_close closes starts_with]. by rewrite andb_false_r.
  - cbn [String.length] in Hs. rewrite replace_close_cons. destruct (Ascii.eqb c star && Ascii.eqb d slash) eqn:Hc.
    + apply andb_prop in Hc as [->%Ascii.eqb_eq ->%Ascii.eqb_eq]. cbn. destruct (IH s) as [-> _]; [lia|done].
    + destruct (IH (String d s)) as [H1 H2]; [cbn; lia|]. cbn [closes]. rewrite H1, H2, orb_false_r.
      cbn [starts_with]. rewrite (Ascii.eqb_sym slash d). done.
Qed.

(** Documentation does not end its comment: whatever its contents, the
    comment which is generated for it is ended by its last line only. *)
Theorem ts_docs_contained contents indent :
  all_chars (Ascii.eqb (Ascii.ascii_of_nat 32)) indent = true →
  ∃ comment, ts_docs (Some contents) indent = comment +:+ "*/" +:+ nl ∧ closes (comment +:+ "*") = false.
Proof.
  intros Hi. assert (tame indent) as Hindent.
  { induction indent as [|c s IH]; [done|]. cbn in Hi. apply andb_prop in Hi as [<-%Ascii.eqb_eq Hs].
    destruct (IH Hs) as [H1 H2]. split; cbn; [done|]. by destruct s. }
  exists (indent +:+ "/**" +:+ nl +:+ concat_str (docs_line indent <$> lines (trim contents)) +:+ indent +:+ " ").
  split; [cbn [ts_docs]; by rewrite <- !string_app_assoc|].
  assert (Forall tame (docs_line indent <$> lines (trim contents))) as Hl.
  { apply Forall_fmap, Forall_forall. intros line _. unfold compose, docs_line. cbv zeta.
    pose proof (replace_close_spec line) as [Hc _]. destruct (decide _); apply tame_app; try done.
    apply tame_app; [done|]. by apply tame_nl. }
  assert (∀ s, tame s → closes (s +:+ "*") = false) as Hstar by (intros s [H1 H2]; by rewrite closes_app, H1, H2).
  apply Hstar. apply tame_app; [done|]. rewrite (string_app_assoc "/**"). apply tame_app; [done|].
  apply tame_app; [by apply tame_concat|]. by apply tame_app.
Qed.

Lemma ts_docs_contained_witness :
  ∃ comment, ts_docs (Some "ends */ here") "  " = comment +:+ "*/" +:+ nl ∧ closes (comment +:+ "*") = false.
Proof. apply ts_docs_contained. reflexivity. Defined.

(** ** Grouping *)

Lemma group_snoc funcs func : group (funcs ++ [func]) = group_step (group funcs) func.
Proof. unfold group. by rewrite foldl_app. Qed.

(** The functions of a resource *)
Definition of_resource (r : option nat) (func : Function) : bool := bool_decide (func_resource func = r).

(** The groups of functions: each has a resource of its own, and has the
    functions of the resource in order. *)
Record grouped (funcs : list Function) (r : list Function * list (nat * list Function)) : Prop := {
  gr_free : r.1 = filter (of_resource None) funcs;
  gr_nodup : NoDup r.2.*1;
  gr_funcs id fs : (id, fs) ∈ r.2 → fs = filter (of_resource (Some id)) funcs ∧ fs ≠ [];
  gr_all func id : func ∈ funcs → func_resource func = Some id → id ∈ r.2.*1
}.

Lemma filter_snoc {A} (p : A → bool) l x : filter p (l ++ [x]) = filter p l ++ (if p x then [x] else []).
Proof. rewrite filter_app. f_equal. rewrite filter_cons. destruct (p x); by case_decide. Qed.

Lemma group_push_ids id func l id' :
  id' ∈ (group_push id func l).*1 ↔ id' = id ∨ id' ∈ l.*1.
Proof.
  induction l as [|[r fs] l IH]; cbn; [set_solver|]. destruct (decide (r = id)) as [->|]; cbn.
  - set_solver.
  - rewrite elem_of_cons, IH. set_solver.
Qed.

Lemma group_push_nodup id func l : NoDup l.*1 → NoDup (group_push id func l).*1.
Proof.
  induction l as [|[r fs] l IH]; cbn; [intros _; apply NoDup_singleton|]. intros [Hr Hl]%NoDup_cons.
  destruct (decide (r = id)) as [->|Hne]; cbn; [by constructor|]. constructor; [|by apply IH].
  rewrite group_push_ids. intros [?|?]; done.
Qed.

Lemma group_push_elem id func l id' fs :
  NoDup l.*1 → (id', fs) ∈ group_push id func l →
  (id' ≠ id ∧ (id', fs) ∈ l) ∨ (id' = id ∧ id ∉ l.*1 ∧ fs = [func]) ∨ (id' = id ∧ ∃ fs', (id, fs') ∈ l ∧ fs = fs' ++ [func]).
Proof.
  induction l as [|[r gs] l IH]; cbn; intros Hnd.
  - intros [= -> ->]%list_elem_of_singleton. right; left. set_solver.
  - apply NoDup_cons in Hnd as [Hr Hnd]. destruct (decide (r = id)) as [->|Hne]; intros [Heq|Hin]%elem_of_cons; simplify_eq.
    + right; right. split; [done|]. exists gs. set_solver.
    + left. split; [|set_solver]. intros ->. apply Hr, list_elem_of_fmap. by exists (id, fs).
    + left. set_solver.
    + apply (IH Hnd) in Hin as [[? ?]|[(-> & ? & ->)|(-> & fs' & ? & ->)]]; [left|right; left|right; right]; set_solver.
Qed.

Lemma of_resource_true r func : func_resource func = r → of_resource r func = true.
Proof. apply bool_decide_true. Qed.

Lemma of_resource_false r func : func_resource func ≠ r → of_resource r func = false.
Proof. apply bool_decide_false. Qed.

Lemma group_step_grouped funcs func r : grouped funcs r → grouped (funcs ++ [func]) (group_step r func).
Proof.
  intros [Hfree Hnd Hfs Hall]. unfold group_step. destruct (func_resource func) as [id|] eqn:Hr.
  - split; cbn.
    + by rewrite filter_snoc, Hfree, of_resource_false, app_nil_r by congruence.
    + by apply group_push_nodup.
    + intros id' fs Hin. rewrite filter_snoc.
      apply group_push_elem in Hin as [(Hne & Hin)|[(-> & Hnin & ->)|(-> & fs' & Hin & ->)]]; [..|done].
      * rewrite of_resource_false, app_nil_r by congruence. by apply Hfs.
      * rewrite of_resource_true by done. split; [|done]. rewrite filter_none; [done|].
        intros f Hf Hf'%bool_decide_unpack. destruct Hnin. by eapply Hall.
      * rewrite of_resource_true by done. apply Hfs in Hin as [<- _]. split; [done|]. by destruct fs'.
    + intros f id' [Hf| ->%list_elem_of_singleton]%elem_of_app Hid; apply group_push_ids.
      * right. by eapply Hall.
      * left. congruence.
  - split; cbn.
    + by rewrite filter_snoc, Hfree, of_resource_true.
    + done.
    + intros id fs Hin. rewrite filter_snoc, of_resource_false, app_nil_r by congruence. by apply Hfs.
    + intros f id [Hf| ->%list_elem_of_singleton]%elem_of_app Hid; [by eapply Hall|congruence].
Qed.

(** The groups have the functions: those which are free, and for each resource
    which has a function those of the resource, in their order. *)
Theorem group_grouped funcs : grouped funcs (group funcs).
Proof.
  induction funcs as [|func funcs IH] using rev_ind; [by split; [done|constructor|set_solver|set_solver]|].
  rewrite group_snoc. by apply group_step_grouped.
Qed.

(** ** Promises *)

(** A value which is a promise, or may be one: an option which is not of an
    option is its value. *)
Fixpoint promise_tree (t : JsTree) : bool :=
  match t with
  | JFuture _ => true
  | JOption (JOption _) => false
  | JOption t => promise_tree t
  | _ => false
  end.

Section promises.
Context `{WitParser} (resolve : WitResolve).

Lemma peel_tree fuel ty t :
  tree_ty resolve fuel ty = Some t →
  ∃ ty', peel fuel resolve ty = Some ty' ∧ tree_ty resolve fuel ty' = Some t ∧
    ∀ id def u, ty' = TyId id → rs_types resolve !! id = Some def → td_kind def ≠ DType u.
Proof.
  revert ty t. induction fuel as [|fuel IH]; intros ty t Ht; destruct ty as [| | | | | | | | | | | | | |id];
    try done; try (eexists; split_and!; [done|done|done]).
  pose proof Ht as Ht'. cbn in Ht'. apply bind_Some in Ht' as (def & Hd & Hk). cbn [peel]. rewrite Hd. cbn.
  destruct (td_kind def) eqn:Hkind; try (eexists; split_and!; [done|done|];
    intros ??? [= <-] ?; simplify_eq; by rewrite Hkind). cbn in Hk. destruct (IH ty t Hk) as (ty' & Hp & Hty & Hn).
  exists ty'. split_and!; [done|eapply tree_ty_mono; [done|lia]|done].
Qed.

Definition option_tree (t : JsTree) : bool := match t with JOption _ => true | _ => false end.

(** The kind of a type which is not an alias and that of its tree *)
Lemma tree_kind_option F kind t :
  tree_kind resolve F kind = Some t → (∀ ty, kind ≠ DType ty) →
  option_tree t = match kind with DOption _ => true | _ => false end.
Proof.
  intros Ht Hn. destruct kind; cbn in Ht; try done; try (apply fmap_Some in Ht as (? & _ & ->); done); try (simplify_eq; done).
  - by apply bind_Some in Ht as (? & _ & (? & _ & [= <-])%bind_Some).
  - by destruct (Hn ty).
Qed.

Lemma is_option_tree fuel ty t : tree_ty resolve fuel ty = Some t → is_option fuel resolve ty = Some (option_tree t).
Proof.
  intros (ty' & Hp & Ht & Hn)%peel_tree. unfold is_option. rewrite Hp. cbn.
  destruct ty' as [| | | | | | | | | | | | | |id]; try (by simplify_eq/=). destruct fuel as [|fuel]; [done|]. cbn in Ht.
  apply bind_Some in Ht as (def & Hd & Ht). rewrite Hd. cbn. f_equal. symmetry. eapply tree_kind_option; [done|]. eauto.
Qed.

Lemma may_be_promise_tree fuel ty t :
  tree_ty resolve fuel ty = Some t → may_be_promise fuel resolve ty = Some (promise_tree t).
Proof.
  revert ty t. induction fuel as [|fuel IH]; intros ty t (ty' & Hp & Ht & Hn)%peel_tree;
    cbn [may_be_promise]; rewrite Hp; cbn; destruct ty' as [| | | | | | | | | | | | | |id]; try (by simplify_eq/=).
  cbn in Ht. apply bind_Some in Ht as (def & Hd & Ht). rewrite Hd. cbn. specialize (Hn id def).
  destruct (td_kind def) eqn:Hk; cbn in Ht; try done; try (apply fmap_Some in Ht as (? & _ & ->); done); try (by simplify_eq).
  - apply fmap_Some in Ht as (u & Hu & ->). pose proof (is_option_tree _ _ _ Hu) as Ho. rewrite Ho. cbn.
    destruct u; try (by apply IH). done.
  - by apply bind_Some in Ht as (? & _ & (? & _ & [= <-])%bind_Some).
  - by destruct (Hn ty0 eq_refl Hd).
Qed.

End promises.

(** ** Asynchronous functions *)

Section async.
Context `{WitParser} (resolve : WitResolve) (Hwf : wf_resolve (kinds resolve)).

Lemma is_async_spec ty :
  in_range resolve ty → ∃ b, is_async resolve ty = Some b ∧ (b = true ↔ ∃ p, async_at (kinds resolve) ty p).
Proof.
  intros Hr. assert (is_Some (async_paths_ty (length (rs_types resolve)) (kinds resolve) ty)) as [[ps fut] Hps].
  { destruct ty; try (by eexists). destruct (Hr id eq_refl) as [def Hd%lookup_lt_Some].
    apply async_paths_total_fuel; [done| |done]. unfold kinds. by rewrite length_fmap. }
  unfold is_async. rewrite Hps. cbn. eexists. split; [done|].
  apply async_paths_ty_spec in Hps as [H1 H2 H3]. cbn in *. rewrite orb_true_iff, negb_true_iff, bool_decide_eq_false. split.
  - intros [Hf|[p' Hp']%set_choose_L]; [eauto|]. apply H3 in Hp' as (p & _ & Hp & _). eauto.
  - intros [p Hp]. apply H1 in Hp as [(_ & ?)|(_ & p' & ? & _)]; [by left|right; set_solver].
Qed.

Lemma any_spec {A} (p : A → option bool) (P : A → Prop) l :
  (∀ x, x ∈ l → ∃ b, p x = Some b ∧ (b = true ↔ P x)) →
  ∃ b, any p l = Some b ∧ (b = true ↔ ∃ x, x ∈ l ∧ P x).
Proof.
  induction l as [|x l IH]; intros Hp; cbn; [exists false; set_solver|].
  destruct (Hp x) as ([] & -> & Hx); [set_solver|..]; cbn; [exists true; set_solver|].
  destruct IH as (b & -> & Hb); [intros; apply Hp; set_solver|]. exists b. split; [done|]. rewrite Hb. set_solver.
Qed.

(** The types of the values of a function *)
Definition func_types (func : Function) : list Type_ := (fn_params func).*2 ++ omap id [fn_result func].

(** A client waits for its invocation to finish, or returns the promise of it,
    as its function has streams or futures. *)
Lemma func_is_async_spec func :
  (∀ ty, ty ∈ func_types func → in_range resolve ty) →
  ∃ b, func_is_async resolve func = Some b ∧
    (b = true ↔ ∃ ty p, ty ∈ func_types func ∧ async_at (kinds resolve) ty p).
Proof.
  intros Hr. unfold func_is_async, func_types in *.
  destruct (any_spec (λ p, is_async resolve p.2) (λ p, ∃ q, async_at (kinds resolve) p.2 q) (fn_params func)) as (b & -> & Hb).
  { intros [n ty] Hx. apply is_async_spec, Hr, elem_of_app. left. apply list_elem_of_fmap. by exists (n, ty). }
  assert ((∃ x, x ∈ fn_params func ∧ ∃ q, async_at (kinds resolve) x.2 q) ↔
    ∃ ty q, ty ∈ (fn_params func).*2 ∧ async_at (kinds resolve) ty q) as He.
  { setoid_rewrite list_elem_of_fmap. naive_solver. }
  rewrite He in Hb. destruct b; cbn.
  - exists true. split; [done|]. split; [|done]. intros _. destruct Hb as [(ty & q & Hty & Hq) _]; [done|].
    exists ty, q. set_solver.
  - destruct (fn_result func) as [ty|].
    + destruct (is_async_spec ty) as (c & -> & Hc); [apply Hr; set_solver|]. exists c. split; [done|]. rewrite Hc.
      setoid_rewrite elem_of_app. setoid_rewrite list_elem_of_singleton. naive_solver.
    + exists false. split; [done|]. rewrite app_nil_r. done.
Qed.

End async.

(** ** Clients and servers *)

(** The names of the types of a module are bound to their trees. *)
Definition binds `{WitParser} (resolve : WitResolve) (owner : TypeOwner) (locals : string → option JsTree) : Prop :=
  ∀ j def name t, rs_types resolve !! j = Some def → td_name def = Some name → td_owner def = owner →
  tree resolve j = Some t → locals (type_name name) = Some t.

Definition show_result (o : option JsTree) : string := match o with Some e => show e | None => "" end.

Section side.
Context `{WitParser} (resolve : WitResolve) (g : Gen) (owner : TypeOwner) (mods : string → string → option JsTree).
Context (roots : list Type_) (Hlocated : located resolve g owner roots) (Hexported : exported resolve g owner mods roots).
Context (Hwf : wf_types resolve).

Abbreviation fuel := (length (rs_types resolve)) (only parsing).

Lemma binds_bound ids locals ty :
  local_deps resolve fuel owner ty = Some ids → in_range resolve ty → ty ∈ roots →
  binds resolve owner locals → bound resolve ids locals.
Proof.
  intros Hids Hr Hroot Hb j def name t Hj Hd Hn. apply (Hb j def name t); [done..|].
  assert (precedes fuel ty = true) as Hp by (destruct ty; try done; by apply Nat.ltb_lt, lookup_lt_is_Some, Hr).
  destruct (local_deps_owned resolve owner Hwf roots fuel ty ids j _ Hids Hj Hp) as [(def' & name' & Hd' & Hn' & Ho) _];
    [|congruence]. intros id ->. by apply reached_root.
Qed.

Lemma tree_in_range ty t : tree_ty resolve fuel ty = Some t → in_range resolve ty.
Proof.
  intros Ht id ->. unfold tree_ty, tree_ty_with in Ht. destruct fuel; [done|]. cbn in Ht.
  apply bind_Some in Ht as (def & Hd & _). by eexists.
Qed.

Lemma value_yields ty t :
  ty ∈ roots → tree_ty resolve fuel ty = Some t → yields (binds resolve owner) show (eval mods) (js_ty resolve g fuel ty) t.
Proof.
  intros Hroot Ht. destruct (local_deps_total resolve owner _ _ _ Ht) as [ids Hids].
  eapply yields_impl; [eapply (js_ty_yields resolve g owner mods roots); try done|].
  - intros id ->. by apply reached_root.
  - intros locals. apply (binds_bound ids locals ty); [done| |done]. by eapply tree_in_range.
Qed.

Lemma params_yield (params : list (string * Type_)) ts :
  (∀ ty, ty ∈ params.*2 → ty ∈ roots) → mapM (tree_ty resolve fuel) params.*2 = Some ts →
  yields (binds resolve owner) (map show) (λ m locals, mapM (eval mods m locals))
    (mapM (λ p, js_ty resolve g fuel p.2) params) ts.
Proof.
  intros Hroots Hts%mapM_Some. apply yields_mapM. apply Forall2_fmap_l in Hts.
  apply Forall2_same_length_lookup. split; [by eapply Forall2_length|]. intros i p t Hp Ht.
  apply value_yields; [|by apply (Forall2_lookup_lr _ _ _ i p t Hts)].
  apply Hroots, list_elem_of_fmap. exists p. split; [done|by eapply list_elem_of_lookup_2].
Qed.

Lemma result_yields o t :
  (∀ ty, o = Some ty → ty ∈ roots) → tree_opt_with (tree_ty resolve fuel) o = Some t →
  yields (binds resolve owner) show_result (λ m locals, eval_opt (eval mods m locals))
    (match o with Some ty => js_ty resolve g fuel ty | None => mret "" end : GenM string) t.
Proof.
  intros Hroots. destruct o as [ty|]; cbn.
  - intros (u & Hu & ->)%fmap_Some m. destruct (value_yields ty u (Hroots ty eq_refl) Hu m) as (e & m' & Hm & Hs & He).
    exists (Some e), m'. split_and!; [done..|]. intros m'' locals Hle Hb. cbn. by rewrite He.
  - intros [= <-]. by apply (yields_ret show_result _ None).
Qed.

End side.

(** The results of a case *)
Definition case_results (handler : string) (o : option JsTree) (t : option JsTree) : string :=
  match o, t with
  | Some e, Some t => results_text (show e) (if promise_tree t then "" else "await ") handler
  | _, _ => no_results_text handler
  end.

Section sides.
Context `{WitParser} (resolve : WitResolve) (g : Gen) (owner : TypeOwner) (mods : string → string → option JsTree).
Context (func : Function) (Hlocated : located resolve g owner (func_types func)).
Context (Hexported : exported resolve g owner mods (func_types func)).
Context (Hwf : wf_types resolve) (Hkinds : wf_resolve (kinds resolve)).
Context (name : string) (ts : list JsTree) (tr : option JsTree).
Context (Hname : rpc_name func = Some name).
Context (Hts : mapM (tree_ty resolve (length (rs_types resolve))) (fn_params func).*2 = Some ts).
Context (Htr : tree_opt_with (tree_ty resolve (length (rs_types resolve))) (fn_result func) = Some tr).

Lemma func_types_in_range ty : ty ∈ func_types func → in_range resolve ty.
Proof.
  intros [Hty|Hty]%elem_of_app.
  - destruct (mapM_elem_Some _ _ ty (ex_intro _ _ Hts) Hty) as [t Ht]. by eapply tree_in_range.
  - destruct (fn_result func) as [ty'|]; [|set_solver]. apply list_elem_of_singleton in Hty as ->.
    cbn in Htr. apply fmap_Some in Htr as (t & Ht & _). by eapply tree_in_range.
Qed.

Lemma params_in_types ty : ty ∈ (fn_params func).*2 → ty ∈ func_types func.
Proof. intros Hty. apply elem_of_app. by left. Qed.
Lemma result_in_types ty : fn_result func = Some ty → ty ∈ func_types func.
Proof. intros Hty. apply elem_of_app. right. rewrite Hty. by apply list_elem_of_singleton. Qed.

(** What a side writes evaluates to the trees of its function. *)
Definition describes (es : list JsTree) (er : option JsTree) (m' : Module_) : Prop :=
  ∀ m'' locals, uses_le m' m'' → binds resolve owner locals →
  mapM (eval mods m'' locals) es = Some ts ∧ eval_opt (eval mods m'' locals) er = Some tr.

Lemma client_body_spec instance indent m :
  ∃ b es er m', client_body resolve g instance func indent m =
      Some (invoke_line indent instance name (map show es) (param_ident ∘ fst <$> fn_params func) (show_result er) +:+
        return_lines indent b (has_result func), m') ∧
    "invoke" ∈ m_runtime m' ∧ describes es er m' ∧
    (b = true ↔ ∃ ty p, ty ∈ func_types func ∧ async_at (kinds resolve) ty p).
Proof.
  destruct (func_is_async_spec resolve Hkinds func func_types_in_range) as (b & Hb & Hasync).
  unfold client_body. destruct (use_runtime_silent "invoke" m) as (m1 & Hm1 & _ & Hinv & _). rewrite (gen_bind _ _ _ _ _ Hm1).
  destruct (params_yield resolve g owner mods (func_types func) Hlocated Hexported Hwf _ _ params_in_types Hts m1) as (es & m2 & Hm2 & Hs2 & Hes).
  rewrite (gen_bind _ _ _ _ _ Hm2).
  destruct (result_yields resolve g owner mods (func_types func) Hlocated Hexported Hwf _ _ result_in_types Htr m2) as (er & m3 & Hm3 & Hs3 & Her).
  cbv zeta. rewrite (gen_bind _ _ _ _ _ Hm3), (lift_Some _ name), (lift_Some _ b) by done.
  exists b, es, er, m3. split_and!; [done|by apply Hs3, Hs2| |done].
  intros m'' locals Hle Hl. split; [|by apply Her]. apply Hes; [|done]. etrans; [apply Hs3|done].
Qed.

Lemma serve_case_spec handler m :
  ∃ es er m', serve_case resolve g func handler m =
      Some (case_text name (map show es) (case_results handler er tr), m') ∧ describes es er m'.
Proof.
  unfold serve_case.
  destruct (params_yield resolve g owner mods (func_types func) Hlocated Hexported Hwf _ _ params_in_types Hts m) as (es & m2 & Hm2 & Hs2 & Hes).
  rewrite (gen_bind _ _ _ _ _ Hm2), (lift_Some _ name) by done.
  destruct (fn_result func) as [ty|] eqn:Hresult; cbn in Htr.
  - apply fmap_Some in Htr as (t & Ht & Htr'). rewrite (lift_Some _ (promise_tree t)) by (by apply may_be_promise_tree).
    destruct (value_yields resolve g owner mods (func_types func) Hlocated Hexported Hwf ty t (result_in_types ty Hresult) Ht m2) as (e & m3 & Hm3 & Hs3 & He).
    exists es, (Some e), m3. rewrite Htr'. split.
    + unfold mbind at 1, GenM_bind. by rewrite (gen_bind _ _ _ _ _ Hm3).
    + intros m'' locals Hle Hl. rewrite Htr'. cbn. rewrite He by done. split; [|done].
      apply Hes; [|done]. etrans; [apply Hs3|done].
  - exists es, None, m2. split; [done|]. intros m'' locals Hle Hl. split; [by apply Hes|done].
Qed.
End sides.

(** [C28] The client and the server of a function agree on its values: the case
    which serves it is that of the name which the client invokes, and the trees
    which the two describe parameters and results by, each with the imports of its
    own module, evaluate to the same trees, those of the types of WIT.  The client
    returns before the invocation has finished if and only if a stream or a future
    occurs in these types, and the server awaits the result of its handler unless
    it may be a promise itself.  For either module, the types which the function
    refers to are of interfaces with a module, which exports their trees, and
    the names of the types of the module itself are bound to theirs. *)
Theorem invocation_types_agree `{WitParser} resolve g1 owner1 mods1 g2 owner2 mods2 func name ts tr
    instance indent handler m1 m2 :
  wf_types resolve → wf_resolve (kinds resolve) →
  located resolve g1 owner1 (func_types func) → exported resolve g1 owner1 mods1 (func_types func) →
  located resolve g2 owner2 (func_types func) → exported resolve g2 owner2 mods2 (func_types func) →
  rpc_name func = Some name →
  mapM (tree_ty resolve (length (rs_types resolve))) (fn_params func).*2 = Some ts →
  tree_opt_with (tree_ty resolve (length (rs_types resolve))) (fn_result func) = Some tr →
  ∃ b es1 er1 m1' es2 er2 m2',
    client_body resolve g1 instance func indent m1 =
      Some (invoke_line indent instance name (map show es1) (param_ident ∘ fst <$> fn_params func) (show_result er1) +:+
        return_lines indent b (has_result func), m1') ∧
    serve_case resolve g2 func handler m2 =
      Some (case_text name (map show es2) (case_results handler er2 tr), m2') ∧
    describes resolve owner1 mods1 ts tr es1 er1 m1' ∧ describes resolve owner2 mods2 ts tr es2 er2 m2' ∧
    (b = true ↔ ∃ ty p, ty ∈ func_types func ∧ async_at (kinds resolve) ty p).
Proof.
  intros Hwf Hk Hl1 He1 Hl2 He2 Hn Hts Htr.
  destruct (client_body_spec resolve g1 owner1 mods1 func Hl1 He1 Hwf Hk name ts tr Hn Hts Htr instance indent m1)
    as (b & es1 & er1 & m1' & H1 & _ & Hd1 & Hb).
  destruct (serve_case_spec resolve g2 owner2 mods2 func Hl2 He2 Hwf name ts tr Hn Hts Htr handler m2)
    as (es2 & er2 & m2' & H2 & Hd2).
  exists b, es1, er1, m1', es2, er2, m2'. done.
Qed.

(** *** A function *)

#[local] Existing Instance test_parser.

Definition test_func : Function :=
  mkFunction "draw" Freestanding 0 [("shape", TyId 5); ("scale", TyU8)] (Some (TyId 3)) None.
Definition test_server : Gen := mkGen {[ 0 := Local "exports/a/b/c"; 1 := Local "a/d/e" ]} "w" "exports/a/b/c".
Definition test_server_mods (spec name : string) : option JsTree :=
  if decide (spec = "../../../a/d/e.js" ∧ name = "Size") then Some (JPrim TyU32) else None.

Lemma test_kinds : wf_resolve (kinds test_resolve).
Proof. intros id kind. each_type id; (split_and!; [done|by vm_compute|]); intros j; cbn; set_unfold; naive_solver lia. Qed.

Lemma test_server_located roots :
  (∀ id, TyId id ∈ roots → id < 6) → located test_resolve test_server (OwnerInterface 0) roots.
Proof.
  intros Hroots id def name Hid%(test_reached roots _ Hroots).
  each_type id; try lia; eexists; (split; [reflexivity|]); cbn; naive_solver.
Qed.

Lemma test_server_exported roots :
  (∀ id, TyId id ∈ roots → id < 6) → exported test_resolve test_server (OwnerInterface 0) test_server_mods roots.
Proof.
  intros Hroots id def name path t Hid%(test_reached roots _ Hroots).
  each_type id; try lia; rename select (_ !! _ = Some path) into H1.
  - rewrite lookup_insert_ne, lookup_singleton_eq in H1 by done. simplify_eq. by vm_compute.
  - rewrite lookup_insert_eq in H1. by simplify_eq.
  - rewrite lookup_insert_eq in H1. by simplify_eq.
Qed.

Lemma test_func_roots id : TyId id ∈ func_types test_func → id < 6.
Proof. cbn. set_unfold. naive_solver lia. Qed.

Definition test_point : JsTree := JRecord [("x", JPrim TyU8); ("y", JPrim TyU32)].
Definition test_shape : JsTree :=
  JVariant [("points", Some (JList test_point)); ("file", Some (JOwn "file")); ("empty", None)].

Lemma invocation_types_agree_witness :
  ∃ b es1 er1 m1' es2 er2 m2',
    client_body test_resolve test_gen "a:b/c" test_func "  " Module_default =
      Some (invoke_line "  " "a:b/c" "draw" (map show es1) ["shape"; "scale"] (show_result er1) +:+
        return_lines "  " b true, m1') ∧
    serve_case test_resolve test_server test_func "handler.draw" Module_default =
      Some (case_text "draw" (map show es2) (case_results "handler.draw" er2 (Some test_point)), m2') ∧
    describes test_resolve (OwnerInterface 0) test_mods [test_shape; JPrim TyU8] (Some test_point) es1 er1 m1' ∧
    describes test_resolve (OwnerInterface 0) test_server_mods [test_shape; JPrim TyU8] (Some test_point) es2 er2 m2' ∧
    (b = true ↔ ∃ ty p, ty ∈ func_types test_func ∧ async_at (kinds test_resolve) ty p).
Proof.
  apply (invocation_types_agree test_resolve test_gen (OwnerInterface 0) test_mods test_server (OwnerInterface 0)
    test_server_mods test_func "draw").
  - apply wf_typesb_sound. by vm_compute.
  - apply test_kinds.
  - apply test_located, test_func_roots.
  - apply test_exported, test_func_roots.
  - apply test_server_located, test_func_roots.
  - apply test_server_exported, test_func_roots.
  - reflexivity.
  - by vm_compute.
  - by vm_compute.
Defined.
