(* ===== verification/JsServe.v ===== *)
(** * Clients and handlers of JavaScript bindings

    [client_funcs] and [serve_funcs] succeed on the functions of a well-formed
    interface.  Each function has one client ([client_funcs_complete]), and one
    case of the [switch] which serves its interface ([serve_funcs_complete]),
    whichever resource it belongs to. *)

From S2P Require Import Prelude Subscriptions Resolve Introspect Wit JsNames JsTypes JsTrees JsDefine JsGen JsFuncs.

(** ** Writing *)

(** [a] returns, writes [s] to the module, whatever it declares, and returns what
    [P] says. *)
Definition writes {A} (a : GenM A) (s : string) (P : A → Prop) : Prop :=
  ∀ m, ∃ x m', a m = Some (x, m') ∧ uses_le m m' ∧ m_js m' = m_js m +:+ s ∧ P x.

Lemma writes_ret {A} (x : A) (P : A → Prop) : P x → writes (mret x) "" P.
Proof. intros Hx m. exists x, m. by rewrite string_app_nil. Qed.

Lemma writes_bind {A B} (a : GenM A) (f : A → GenM B) s1 s2 P Q :
  writes a s1 P → (∀ x, P x → writes (f x) s2 Q) → writes (a ≫= f) (s1 +:+ s2) Q.
Proof.
  intros Ha Hf m. destruct (Ha m) as (x & m1 & Hm1 & Hl1 & Hj1 & Hx). destruct (Hf x Hx m1) as (y & m2 & Hm2 & Hl2 & Hj2 & Hy).
  exists y, m2. rewrite (gen_bind _ _ _ _ _ Hm1). split_and!; [done|by etrans| |done]. by rewrite Hj2, Hj1, string_app_assoc.
Qed.

(** A step which writes nothing *)
Lemma writes_seq {A B} (a : GenM A) (f : A → GenM B) s P Q :
  writes a "" P → (∀ x, P x → writes (f x) s Q) → writes (a ≫= f) s Q.
Proof. intros Ha Hf. rewrite <- (string_nil_app s). by eapply writes_bind. Qed.

Lemma writes_weaken {A} (a : GenM A) s (P Q : A → Prop) : writes a s P → (∀ x, P x → Q x) → writes a s Q.
Proof. intros Ha HPQ m. destruct (Ha m) as (x & m' & ? & ? & ? & ?). exists x, m'. auto. Qed.

Lemma writes_succeeds {A} (a : GenM A) : succeeds a → writes a "" (λ _, True).
Proof.
  intros Ha m. destruct (Ha m) as (x & m' & Hm & Hl & Hj & _). exists x, m'. rewrite string_app_nil. done.
Qed.

Lemma writes_lift {A} (o : option A) x : o = Some x → writes (lift o) "" (λ y, y = x).
Proof. intros -> m. exists x, m. by rewrite string_app_nil. Qed.

Lemma writes_push_js s : writes (push_js s) s (λ _, True).
Proof. intros m. destruct (push_js_spec s m) as (m' & Hm & Hl & Hj & _). by exists (), m'. Qed.

Lemma writes_push_dts s : writes (push_dts s) "" (λ _, True).
Proof. intros m. destruct (push_dts_spec s m) as (m' & Hm & Hl & Hj & _). exists (), m'. by rewrite string_app_nil. Qed.

Lemma writes_use_wrpc_types : writes use_wrpc_types "" (λ _, True).
Proof. intros m. destruct (use_wrpc_types_spec m) as (m' & Hm & (Hl & Hj & _) & _). exists (), m'. by rewrite string_app_nil. Qed.

Lemma writes_use_runtime n : writes (use_runtime n) "" (λ _, True).
Proof. intros m. destruct (use_runtime_silent n m) as (m' & Hm & (Hl & Hj & _) & _). exists (), m'. by rewrite string_app_nil. Qed.

Lemma writes_mapM {A B} (f : A → GenM B) l (P : A → B → Prop) :
  (∀ x, x ∈ l → writes (f x) "" (P x)) → writes (mapM f l) "" (Forall2 P l).
Proof.
  induction l as [|x l IH]; intros Hf; [by apply writes_ret|]. cbn [mapM].
  eapply writes_seq; [apply Hf; set_solver|]. intros y Hy.
  eapply writes_seq; [apply IH; intros; apply Hf; set_solver|]. intros ys Hys. apply writes_ret. by constructor.
Qed.

(** Each step writes a text of its own. *)
Lemma writes_for_each {A} (f : A → GenM ()) l (P : A → string → Prop) m :
  (∀ x m, x ∈ l → ∃ s m', f x m = Some ((), m') ∧ uses_le m m' ∧ m_js m' = m_js m +:+ s ∧ P x s) →
  ∃ ss m', for_each f l m = Some ((), m') ∧ uses_le m m' ∧ m_js m' = m_js m +:+ concat_str ss ∧ Forall2 P l ss.
Proof.
  revert m. induction l as [|x l IH]; intros m Hf.
  - exists [], m. split_and!; [done..| |constructor]. by rewrite string_app_nil.
  - destruct (Hf x m) as (s & m1 & Hm1 & Hl1 & Hj1 & Hx); [set_solver|].
    destruct (IH m1) as (ss & m2 & Hm2 & Hl2 & Hj2 & Hss); [intros; apply Hf; set_solver|].
    exists (s :: ss), m2. split_and!; [|by etrans| |by constructor].
    + cbn. by rewrite (gen_bind _ _ _ _ _ Hm1).
    + rewrite Hj2, Hj1, <- string_app_assoc. done.
Qed.

(** ** Groups *)

Definition all_grouped (r : list Function * list (nat * list Function)) : list Function := r.1 ++ mjoin r.2.*2.

Lemma group_push_permutation id func l : mjoin (group_push id func l).*2 ≡ₚ func :: mjoin l.*2.
Proof.
  induction l as [|[r fs] l IH]; cbn; [done|]. destruct (decide (r = id)); cbn.
  - rewrite <- app_assoc. cbn. apply Permutation_sym, Permutation_middle.
  - unfold mjoin in IH. rewrite IH. apply Permutation_sym, Permutation_middle.
Qed.

Lemma group_permutation funcs : all_grouped (group funcs) ≡ₚ funcs.
Proof.
  induction funcs as [|func funcs IH] using rev_ind; [done|]. rewrite group_snoc.
  transitivity (all_grouped (group funcs) ++ [func]); [|by rewrite IH]. unfold group_step, all_grouped. destruct (func_resource func); cbn [fst snd].
  - rewrite group_push_permutation, <- app_assoc. apply Permutation_app_head, Permutation_cons_append.
  - rewrite <- !app_assoc. apply Permutation_app_head, Permutation_app_comm.
Qed.

Lemma group_free_elem funcs func : func ∈ (group funcs).1 → func ∈ funcs.
Proof. intros Hf. rewrite <- (group_permutation funcs). apply elem_of_app. by left. Qed.

Lemma group_resource_elem funcs id fs func : (id, fs) ∈ (group funcs).2 → func ∈ fs → func ∈ funcs ∧ func_resource func = Some id.
Proof.
  intros Hin Hf. apply (gr_funcs _ _ (group_grouped funcs)) in Hin as [-> _].
  apply list_elem_of_filter in Hf as [Hr Hf]. split; [done|]. unfold of_resource in Hr. by apply bool_decide_unpack in Hr.
Qed.

(** A resource of a group has a function. *)
Lemma group_resource_nonempty funcs id fs : (id, fs) ∈ (group funcs).2 → ∃ func, func ∈ fs.
Proof.
  intros Hin. apply (gr_funcs _ _ (group_grouped funcs)) in Hin as [_ Hne]. destruct fs as [|f fs]; [done|].
  exists f. set_solver.
Qed.

(** ** Functions of an interface *)

(** The functions of a module whose types are [roots] *)
Record wf_func `{WitParser} (resolve : WitResolve) (roots : list Type_) (func : Function) : Prop := {
  wf_rpc_name : is_Some (rpc_name func);
  wf_func_name : is_Some (func_name func);
  wf_func_types ty : ty ∈ func_types func → is_Some (tree_ty resolve (length (rs_types resolve)) ty);
  wf_func_roots ty : ty ∈ func_types func → ty ∈ roots;
  wf_func_resource id : func_resource func = Some id → is_Some (resource_name resolve id)
}.

Section funcs.
Context `{WitParser} (resolve : WitResolve) `{!DealiasLaws resolve} (g : Gen) (owner : TypeOwner).
Context (mods : string → string → option JsTree).
Context (Hwf : wf_types resolve) (Hkinds : wf_resolve (kinds resolve)).
Context (roots : list Type_) (Hlocated : located resolve g owner roots) (Hexported : exported resolve g owner mods roots).

Abbreviation fuel := (length (rs_types resolve)) (only parsing).

Lemma func_trees func :
  wf_func resolve roots func →
  ∃ ts tr, mapM (tree_ty resolve fuel) (fn_params func).*2 = Some ts ∧
    tree_opt_with (tree_ty resolve fuel) (fn_result func) = Some tr.
Proof.
  intros [_ _ Ht _ _]. unfold func_types in Ht.
  destruct (mapM_total (tree_ty resolve fuel) (fn_params func).*2) as [ts Hts]; [intros; apply Ht; set_solver|].
  destruct (tree_opt_total (tree_ty resolve fuel) (fn_result func)) as [tr Htr]; [|eauto].
  intros ty Hty. apply Ht. rewrite Hty. set_solver.
Qed.

Lemma func_params_roots func : wf_func resolve roots func → ∀ ty, ty ∈ (fn_params func).*2 → ty ∈ roots.
Proof. intros Hf ty Hty. eapply wf_func_roots; [done|by apply params_in_types]. Qed.
Lemma func_result_roots func : wf_func resolve roots func → ∀ ty, fn_result func = Some ty → ty ∈ roots.
Proof. intros Hf ty Hty. eapply wf_func_roots; [done|by apply result_in_types]. Qed.

Lemma ts_value_succeeds ty t : ty ∈ roots → tree_ty resolve fuel ty = Some t → succeeds (ts_ty resolve g fuel ty).
Proof.
  intros Hroot Ht. pose proof (tree_in_range resolve ty t Ht) as Hr. destruct ty; try apply succeeds_ret.
  destruct (Hr id eq_refl) as [def Hd]. apply (ts_tyid_succeeds resolve Hwf g owner roots Hlocated); [| |by eexists|].
  - by eapply lookup_lt_Some.
  - by apply reached_root.
  - right. by eapply tree_not_resource.
Qed.

Lemma ts_params_succeeds func : wf_func resolve roots func → succeeds (ts_params resolve g func).
Proof.
  intros Hf. apply succeeds_mapM. intros [n ty] Hx. apply succeeds_bind; [|intros; apply succeeds_ret].
  assert (ty ∈ func_types func) as Hty.
  { apply params_in_types, list_elem_of_fmap. by exists (n, ty). }
  destruct (wf_func_types resolve roots _ Hf ty Hty) as [t Ht].
  by eapply ts_value_succeeds; [eapply wf_func_roots|].
Qed.

Lemma ts_result_succeeds func : wf_func resolve roots func → succeeds (ts_opt_ty resolve g fuel (fn_result func)).
Proof.
  intros Hf. apply ts_opt_succeeds. intros ty Hty. apply result_in_types in Hty.
  destruct (wf_func_types resolve roots _ Hf ty Hty) as [t Ht].
  by eapply ts_value_succeeds; [eapply wf_func_roots|].
Qed.

Lemma use_wrpc_types_succeeds : succeeds use_wrpc_types.
Proof. intros m. destruct (use_wrpc_types_spec m) as (m' & Hm & Hs & _). by exists (), m'. Qed.

Lemma func_is_async_total func : wf_func resolve roots func → is_Some (func_is_async resolve func).
Proof.
  intros Hf. destruct (func_is_async_spec resolve Hkinds func) as (b & Hb & _); [|by exists b].
  intros ty Hty. destruct (wf_func_types resolve roots _ Hf ty Hty) as [t Ht]. by eapply tree_in_range.
Qed.

(** The parameters of the client of a function *)
Definition client_params (func : Function) : string := join ", " ("transport" :: (param_ident ∘ fst <$> fn_params func)).

Lemma client_signature_writes func :
  wf_func resolve roots func → writes (client_signature resolve g func) "" (λ r, r.1 = client_params func).
Proof.
  intros Hf. unfold client_signature. cbv zeta.
  eapply writes_seq; [apply writes_use_wrpc_types|]. intros _ _.
  eapply writes_seq; [by apply writes_succeeds, ts_params_succeeds|]. intros ts _.
  eapply writes_seq; [by apply writes_succeeds, ts_result_succeeds|]. intros res _.
  destruct (func_is_async_total func Hf) as [b Hb].
  eapply writes_seq; [by apply (writes_lift _ b)|]. intros _ ->. by apply writes_ret.
Qed.

Lemma handler_signature_succeeds func : wf_func resolve roots func → succeeds (handler_signature resolve g func).
Proof.
  intros Hf. apply succeeds_bind; [by apply ts_params_succeeds|]. intros ps.
  apply succeeds_bind; [by apply ts_result_succeeds|]. intros res.
  apply succeeds_bind; [|intros; apply succeeds_ret]. apply succeeds_lift. unfold result_may_be_promise.
  destruct (fn_result func) as [ty|] eqn:Hr; [|by eexists]. destruct (wf_func_types resolve roots _ Hf ty) as [t Ht].
  { unfold func_types. rewrite Hr. set_solver. }
  rewrite (may_be_promise_tree _ _ _ _ Ht). by eexists.
Qed.

(** ** Servers *)

(** The case of a function: it is that of its name, and describes its values
    by expressions of its module. *)
Definition case_of (func : Function) (s : string) : Prop :=
  ∃ name es er tr handler, rpc_name func = Some name ∧
    s = case_text name (map show es) (case_results handler er tr).

Lemma serve_case_writes func handler : wf_func resolve roots func → writes (serve_case resolve g func handler) "" (case_of func).
Proof.
  intros Hf m. destruct (func_trees func Hf) as (ts & tr & Hts & Htr). destruct (wf_rpc_name _ _ _ Hf) as [name Hn].
  destruct (params_yield resolve g owner mods roots Hlocated Hexported Hwf _ _ (func_params_roots func Hf) Hts m) as (es & m2 & Hm2 & Hs2 & _).
  unfold serve_case. rewrite (gen_bind _ _ _ _ _ Hm2), (lift_Some _ name) by done.
  destruct (fn_result func) as [ty|] eqn:Hr; cbn in Htr.
  - apply fmap_Some in Htr as (t & Ht & ->). rewrite (lift_Some _ (promise_tree t)) by (by apply may_be_promise_tree).
    destruct (value_yields resolve g owner mods roots Hlocated Hexported Hwf ty t (func_result_roots func Hf ty Hr) Ht m2) as (e & m3 & Hm3 & Hs3 & _).
    destruct (transitivity Hs2 Hs3) as (Hl & Hj & _).
    eexists _, m3. split_and!; [unfold mbind at 1, GenM_bind; by rewrite (gen_bind _ _ _ _ _ Hm3)|done| |].
    + by rewrite Hj, string_app_nil.
    + by exists name, es, (Some e), (Some t), handler.
  - destruct Hs2 as (Hl & Hj & _). eexists _, m2. split_and!; [done|done|by rewrite Hj, string_app_nil|].
    by exists name, es, None, None, handler.
Qed.

Lemma serve_func_writes indent key prefix func :
  wf_func resolve roots func → writes (serve_func resolve g indent key prefix func) "" (case_of func).
Proof.
  intros Hf. eapply writes_seq; [by apply writes_succeeds, handler_signature_succeeds|]. intros sig _.
  eapply writes_seq; [apply writes_push_dts|]. intros _ _. eapply writes_seq; [apply writes_push_dts|]. intros _ _.
  by apply serve_case_writes.
Qed.

(** The cases of the functions of a resource *)
Definition cases_of (funcs : list Function) (s : string) : Prop := ∃ cases, s = concat_str cases ∧ Forall2 case_of funcs cases.

Lemma serve_resource_writes id fs :
  is_Some (resource_name resolve id) → (∀ func, func ∈ fs → wf_func resolve roots func) →
  writes (serve_resource resolve g (id, fs)) "" (cases_of fs).
Proof.
  intros [name Hn] Hf. eapply writes_seq; [by apply (writes_lift _ name)|]. intros _ ->.
  eapply writes_seq; [apply writes_push_dts|]. intros _ _.
  eapply writes_seq; [apply (writes_mapM _ _ case_of)|].
  - intros func Hin. pose proof (Hf func Hin) as Hw. destruct (wf_func_name _ _ _ Hw) as [key Hk].
    eapply writes_seq; [by apply (writes_lift _ key)|]. intros _ ->. by apply serve_func_writes.
  - intros cases Hc. cbn in *. eapply writes_seq; [apply writes_push_dts|]. intros _ _. apply writes_ret. by exists cases.
Qed.

Lemma cases_of_concat (rs : list (nat * list Function)) ss :
  Forall2 (λ r s, cases_of r.2 s) rs ss →
  ∃ cases, concat_str ss = concat_str cases ∧ Forall2 case_of (mjoin rs.*2) cases.
Proof.
  induction 1 as [|[id fs] s rs ss (cs & -> & Hcs) _ (cases & He & Hc)]; [by exists []|]. exists (cs ++ cases). split.
  - change (concat_str cs +:+ concat_str ss = concat_str (cs ++ cases)). by rewrite concat_str_app, He.
  - cbn. by apply Forall2_app.
Qed.

Definition serve_header : string :=
  "export async function serveInterface(inv, handler) {" +:+ nl +:+ "  switch (inv.func) {" +:+ nl.

(** The text of [serveInterface] with the cases [cases] *)
Lemma writes_tail cases (names : GenM (list string)) P :
  writes names "" P →
  writes (push_dts ("}" +:+ nl);; use_wrpc_types;;
    push_dts ("export function serveInterface(inv: $wrpc.Invocation, handler: Handler): globalThis.Promise<void>;" +:+ nl);;
    push_js ("export async function serveInterface(inv, handler) {" +:+ nl);;
    push_js ("  switch (inv.func) {" +:+ nl);;
    push_js cases;; push_js unknown_function;; names)
  (serve_header +:+ cases +:+ unknown_function) P.
Proof.
  intros Hn. eapply writes_seq; [apply writes_push_dts|]. intros _ _. eapply writes_seq; [apply writes_use_wrpc_types|]. intros _ _.
  eapply writes_seq; [apply writes_push_dts|]. intros _ _. unfold serve_header.
  assert (∀ a b c d e f : string, (a +:+ b +:+ c +:+ d) +:+ e +:+ f = (a +:+ b) +:+ (c +:+ d) +:+ e +:+ f +:+ "") as ->.
  { intros. by rewrite string_app_nil, <- !string_app_assoc. }
  do 4 (eapply writes_bind; [apply writes_push_js|]; intros _ _). done.
Qed.

(** Every function of an exported interface is served: [serve_funcs]
    succeeds, [serveInterface] has one case for each function, of those of
    resources too, and an error for the others, and the names which are returned
    to be dispatched are those of the functions. *)
Theorem serve_funcs_complete funcs m :
  funcs ≠ [] → (∀ func, func ∈ funcs → wf_func resolve roots func) →
  ∃ fs cases served m', serve_funcs resolve g funcs m = Some (served, m') ∧
    m_js m' = m_js m +:+ serve_header +:+ concat_str cases +:+ unknown_function ∧
    fs ≡ₚ funcs ∧ Forall2 case_of fs cases ∧ Forall2 (λ func name, rpc_name func = Some name) funcs served.
Proof.
  intros Hne Hf. unfold serve_funcs. destruct funcs as [|f0 fs0] eqn:E; [done|]. rewrite <- E in *. clear E f0 fs0 Hne.
  rewrite (surjective_pairing (group funcs)).
  destruct (writes_push_dts ("export interface Handler {" +:+ nl) m) as ([] & m1 & Hm1 & _ & Hj1 & _).
  rewrite (gen_bind _ _ _ _ _ Hm1).
  destruct (writes_mapM (serve_free resolve g) (group funcs).1 case_of) with (m := m1) as (cs & m2 & Hm2 & _ & Hj2 & Hcs).
  { intros func Hin. by apply serve_func_writes, Hf, group_free_elem. }
  rewrite (gen_bind _ _ _ _ _ Hm2).
  destruct (writes_mapM (serve_resource resolve g) (group funcs).2 (λ r s, cases_of r.2 s)) with (m := m2)
    as (ss & m3 & Hm3 & _ & Hj3 & Hss).
  { intros [id fs] Hin. destruct (group_resource_nonempty _ _ _ Hin) as [func Hfunc].
    destruct (group_resource_elem _ _ _ _ Hin Hfunc) as [Hin' Hr]. apply serve_resource_writes.
    - by apply (wf_func_resource _ _ _ (Hf func Hin')).
    - intros func' Hfunc'. apply Hf. by eapply group_resource_elem. }
  rewrite (gen_bind _ _ _ _ _ Hm3). destruct (cases_of_concat _ _ Hss) as (cs' & He & Hcs').
  assert (writes (mapM (λ func, lift (rpc_name func)) funcs) "" (Forall2 (λ func name, rpc_name func = Some name) funcs)) as Hnames.
  { apply writes_mapM. intros func Hin. destruct (wf_rpc_name _ _ _ (Hf func Hin)) as [name Hn].
    eapply writes_weaken; [by apply (writes_lift _ name)|]. by intros ? ->. }
  edestruct (writes_tail (concat_str cs +:+ concat_str ss) _ _ Hnames m3) as (served & m' & Hm' & _ & Hj' & Hserved).
  exists (all_grouped (group funcs)), (cs ++ cs'), served, m'. split_and!; [done| |apply group_permutation| |done].
  - rewrite Hj', Hj3, Hj2, Hj1, !string_app_nil, concat_str_app, He. done.
  - by apply Forall2_app.
Qed.

(** ** Clients *)

(** The body of a client: it invokes the function by its name. *)
Definition invokes (instance indent : string) (func : Function) (body : string) : Prop :=
  ∃ name es er b, rpc_name func = Some name ∧
    body = invoke_line indent instance name (map show es) (param_ident ∘ fst <$> fn_params func) (show_result er) +:+
      return_lines indent b (has_result func).

Lemma client_body_writes instance indent func :
  wf_func resolve roots func → writes (client_body resolve g instance func indent) "" (invokes instance indent func).
Proof.
  intros Hf m. destruct (func_trees func Hf) as (ts & tr & Hts & Htr). destruct (wf_rpc_name _ _ _ Hf) as [name Hn].
  destruct (func_is_async_total func Hf) as [b Hb]. unfold client_body.
  destruct (use_runtime_silent "invoke" m) as (m1 & Hm1 & Hs1 & _). rewrite (gen_bind _ _ _ _ _ Hm1).
  destruct (params_yield resolve g owner mods roots Hlocated Hexported Hwf _ _ (func_params_roots func Hf) Hts m1) as (es & m2 & Hm2 & Hs2 & _).
  rewrite (gen_bind _ _ _ _ _ Hm2).
  destruct (result_yields resolve g owner mods roots Hlocated Hexported Hwf _ _ (func_result_roots func Hf) Htr m2) as (er & m3 & Hm3 & Hs3 & _).
  cbv zeta. rewrite (gen_bind _ _ _ _ _ Hm3), (lift_Some _ name), (lift_Some _ b) by done.
  destruct (transitivity Hs1 (transitivity Hs2 Hs3)) as (Hl & Hj & _).
  eexists _, m3. split_and!; [done|done|by rewrite Hj, string_app_nil|]. by exists name, es, er, b.
Qed.

(** The clients of a function and of a method *)
Definition client_of (instance : string) (func : Function) (s : string) : Prop :=
  ∃ key body, func_name func = Some key ∧ invokes instance "  " func body ∧
    s = "export async function " +:+ client_name g key +:+ "(" +:+ client_params func +:+ ") {" +:+ nl +:+ body +:+ "}" +:+ nl.
Definition method_of (instance : string) (func : Function) (s : string) : Prop :=
  ∃ key body, func_name func = Some key ∧ invokes instance "    " func body ∧
    s = "  async " +:+ key +:+ "(" +:+ client_params func +:+ ") {" +:+ nl +:+ body +:+ "  }," +:+ nl.
Definition resource_of (instance : string) (r : nat * list Function) (s : string) : Prop :=
  ∃ name methods, resource_name resolve r.1 = Some name ∧ Forall2 (method_of instance) r.2 methods ∧
    s = "export const " +:+ name +:+ " = {" +:+ nl +:+ concat_str methods +:+ "};" +:+ nl.

(** What [a] writes is what [P] says, and depends on the module. *)
Definition writes_some (a : GenM ()) (P : string → Prop) : Prop :=
  ∀ m, ∃ s m', a m = Some ((), m') ∧ uses_le m m' ∧ m_js m' = m_js m +:+ s ∧ P s.

Lemma writes_some_bind {A} (a : GenM A) (f : A → GenM ()) (P : A → Prop) (Q : string → Prop) :
  writes a "" P → (∀ x, P x → writes_some (f x) Q) → writes_some (a ≫= f) Q.
Proof.
  intros Ha Hf m. destruct (Ha m) as (x & m1 & Hm1 & Hl1 & Hj1 & Hx). destruct (Hf x Hx m1) as (s & m2 & Hm2 & Hl2 & Hj2 & Hs).
  exists s, m2. rewrite (gen_bind _ _ _ _ _ Hm1). rewrite Hj1, string_app_nil in Hj2. split_and!; [done|by etrans|done..].
Qed.

Lemma writes_some_push_js s (P : string → Prop) : P s → writes_some (push_js s) P.
Proof. intros Hs m. destruct (push_js_spec s m) as (m' & Hm & Hl & Hj & _). by exists s, m'. Qed.

Lemma client_func_writes instance func :
  wf_func resolve roots func → writes_some (client_func resolve g instance func) (client_of instance func).
Proof.
  intros Hf. destruct (wf_func_name _ _ _ Hf) as [key Hk].
  eapply writes_some_bind; [by apply (writes_lift _ key)|]. intros _ ->. cbv zeta.
  eapply writes_some_bind; [by apply client_signature_writes|]. intros [params sig] Hp. cbn in Hp. subst params.
  eapply writes_some_bind; [by apply client_body_writes|]. intros body Hb.
  eapply writes_some_bind; [apply writes_push_dts|]. intros _ _. eapply writes_some_bind; [apply writes_push_dts|]. intros _ _.
  apply writes_some_push_js. by exists key, body.
Qed.

Lemma client_method_writes instance func :
  wf_func resolve roots func → writes_some (client_method resolve g instance func) (method_of instance func).
Proof.
  intros Hf. destruct (wf_func_name _ _ _ Hf) as [key Hk].
  eapply writes_some_bind; [by apply (writes_lift _ key)|]. intros _ ->.
  eapply writes_some_bind; [by apply client_signature_writes|]. intros [params sig] Hp. cbn in Hp. subst params.
  eapply writes_some_bind; [by apply client_body_writes|]. intros body Hb.
  eapply writes_some_bind; [apply writes_push_dts|]. intros _ _. eapply writes_some_bind; [apply writes_push_dts|]. intros _ _.
  apply writes_some_push_js. by exists key, body.
Qed.

Lemma client_resource_writes instance r :
  is_Some (resource_name resolve r.1) → (∀ func, func ∈ r.2 → wf_func resolve roots func) →
  writes_some (client_resource resolve g instance r) (resource_of instance r).
Proof.
  intros [name Hn] Hf. eapply writes_some_bind; [by apply (writes_lift _ name)|]. intros _ ->.
  eapply writes_some_bind; [apply writes_push_dts|]. intros _ _ m.
  destruct (push_js_spec ("export const " +:+ name +:+ " = {" +:+ nl) m) as (m1 & Hm1 & Hl1 & Hj1 & _). rewrite (gen_bind _ _ _ _ _ Hm1).
  destruct (writes_for_each (client_method resolve g instance) r.2 (method_of instance) m1) as (ms & m2 & Hm2 & Hl2 & Hj2 & Hms).
  { intros func m' Hin. by apply client_method_writes, Hf. }
  rewrite (gen_bind _ _ _ _ _ Hm2). destruct (push_dts_spec ("};" +:+ nl) m2) as (m3 & Hm3 & Hl3 & Hj3 & _).
  rewrite (gen_bind _ _ _ _ _ Hm3). destruct (push_js_spec ("};" +:+ nl) m3) as (m4 & Hm4 & Hl4 & Hj4 & _).
  eexists _, m4. split_and!; [done|by do 3 (etrans; [done|])| |by exists name, ms].
  by rewrite Hj4, Hj3, Hj2, Hj1, <- !string_app_assoc.
Qed.

(** Every function of an imported interface has a client, which invokes it
    by its name: those of a resource are the methods of one object, in their
    order. *)
Theorem client_funcs_complete instance funcs m :
  (∀ func, func ∈ funcs → wf_func resolve roots func) →
  ∃ free resources m', client_funcs resolve g instance funcs m = Some ((), m') ∧
    m_js m' = m_js m +:+ concat_str free +:+ concat_str resources ∧
    Forall2 (client_of instance) (group funcs).1 free ∧ Forall2 (resource_of instance) (group funcs).2 resources ∧
    grouped funcs (group funcs).
Proof.
  intros Hf. unfold client_funcs. rewrite (surjective_pairing (group funcs)).
  destruct (writes_for_each (client_func resolve g instance) (group funcs).1 (client_of instance) m) as (ss & m1 & Hm1 & _ & Hj1 & Hss).
  { intros func m' Hin. by apply client_func_writes, Hf, group_free_elem. }
  rewrite (gen_bind _ _ _ _ _ Hm1).
  destruct (writes_for_each (client_resource resolve g instance) (group funcs).2 (resource_of instance) m1) as (rs & m2 & Hm2 & _ & Hj2 & Hrs).
  { intros [id fs] m' Hin. destruct (group_resource_nonempty _ _ _ Hin) as [func Hfunc].
    destruct (group_resource_elem _ _ _ _ Hin Hfunc) as [Hin' Hr]. apply client_resource_writes.
    - by apply (wf_func_resource _ _ _ (Hf func Hin')).
    - intros func' Hfunc'. apply Hf. by eapply group_resource_elem. }
  exists ss, rs, m2. split_and!; [done|by rewrite Hj2, Hj1, <- string_app_assoc|done|done|].
  rewrite <- surjective_pairing. apply group_grouped.
Qed.

End funcs.

(** ** An interface *)

#[local] Existing Instance test_parser.

Definition test_method : Function :=
  mkFunction "[method]file.read-all" Method 1 [("offset", TyId 0)] (Some TyString) None.

Definition test_funcs : list Function := [test_func; test_method].

Definition served_types : list Type_ := test_funcs ≫= func_types.

Lemma test_wf_funcs func : func ∈ test_funcs → wf_func test_resolve served_types func.
Proof.
  intros Hf. assert (∀ ty, ty ∈ func_types func → ty ∈ served_types) as Hroots.
  { intros ty Hty. apply list_elem_of_bind. by exists func. }
  unfold test_funcs in Hf. repeat (apply elem_of_cons in Hf as [->|Hf]); [..|by apply not_elem_of_nil in Hf];
    (split; [by eexists|by eexists| |exact Hroots|]).
  - intros ty Hty. cbn in Hty. repeat (apply elem_of_cons in Hty as [->|Hty]); [by eexists..|by apply not_elem_of_nil in Hty].
  - done.
  - intros ty Hty. cbn in Hty. repeat (apply elem_of_cons in Hty as [->|Hty]); [by eexists..|by apply not_elem_of_nil in Hty].
  - intros id [= <-]. by eexists.
Qed.

Lemma test_funcs_roots id : TyId id ∈ served_types → id < 6.
Proof. cbn. set_unfold. naive_solver lia. Qed.

Lemma serve_funcs_complete_witness :
  ∃ fs cases served m', serve_funcs test_resolve test_server test_funcs Module_default = Some (served, m') ∧
    m_js m' = m_js Module_default +:+ serve_header +:+ concat_str cases +:+ unknown_function ∧
    fs ≡ₚ test_funcs ∧ Forall2 case_of fs cases ∧ Forall2 (λ func name, rpc_name func = Some name) test_funcs served.
Proof.
  eapply (@serve_funcs_complete test_parser test_resolve test_dealias test_server (OwnerInterface 0) test_server_mods).
  - apply wf_typesb_sound. by vm_compute.
  - apply test_kinds.
  - apply test_server_located, test_funcs_roots.
  - apply test_server_exported, test_funcs_roots.
  - discriminate.
  - apply test_wf_funcs.
Defined.

(** What is written for the method *)
Example test_method_case :
  fst <$> serve_case test_resolve test_server test_method "handler.File.readAll" Module_default =
  Some ("    case " +:+ debug "file.read-all" +:+ ": {" +:+ nl +:+
    "      const { params } = await inv.receiveParams([$0.Size]);" +:+ nl +:+
    "      await inv.sendResults([$t.string], [await handler.File.readAll(...params)]);" +:+ nl +:+
    "      return;" +:+ nl +:+ "    }" +:+ nl).
Proof. by vm_compute. Qed.
