(* ===== verification/JsWorld.v ===== *)
(** * Worlds of JavaScript bindings

    The modules of a world: each interface which is imported or exported has a file
    of its own ([module_paths_distinct]); the remappings which are given are all of
    imported interfaces, or generation fails and says which are not
    ([remappings_checked]); and [serve] dispatches each exported instance to the
    module which serves it ([world_dispatches]). *)

From stdpp Require Import pretty.
From S2P Require Import Prelude Subscriptions Resolve Introspect Wit JsNames JsTypes JsTrees JsDefine JsGen JsFuncs JsServe.

(** ** Paths *)

Lemma split_join l : l ≠ [] → Forall (lacks slash) l → split_on slash (join "/" l) = l.
Proof.
  intros Hne Hl. induction Hl as [|s l Hs Hl IH]; [done|]. destruct l as [|s' l]; [by apply split_on_lacks|].
  change (split_on slash (s +:+ String slash (join "/" (s' :: l))) = s :: s' :: l). rewrite split_on_app by done. by rewrite IH.
Qed.

Definition at_sign : Ascii.ascii := Ascii.ascii_of_nat 64.

Lemma app_at_inj s1 s2 t1 t2 :
  lacks at_sign s1 → lacks at_sign s2 → s1 +:+ String at_sign t1 = s2 +:+ String at_sign t2 → s1 = s2 ∧ t1 = t2.
Proof.
  revert s2. induction s1 as [|c s1 IH]; intros [|d s2] H1 H2; rewrite ?string_nil_app, ?string_app_cons; cbn in *.
  - by intros [= ->].
  - intros [= <- _]. by destruct H2.
  - intros [= -> _]. by destruct H1.
  - intros [= <- Heq]. destruct (IH s2) as [-> ->]; tauto.
Qed.

Lemma filter_two {A} (P : A → Prop) `{!∀ x, Decision (P x)} l i j x y :
  l !! i = Some x → l !! j = Some y → i ≠ j → P x → P y → 1 < length (filter P l).
Proof.
  revert i j. induction l as [|z l IH]; intros i j Hi Hj Hij Hx Hy; [done|].
  assert (∀ k w, l !! k = Some w → P w → 0 < length (filter P l)) as Hpos.
  { intros k w Hk%list_elem_of_lookup_2 Hw. assert (w ∈ filter P l) as Hin by (by apply list_elem_of_filter).
    destruct (filter P l); [by apply not_elem_of_nil in Hin|cbn; lia]. }
  rewrite filter_cons. destruct i as [|i], j as [|j]; cbn in Hi, Hj; simplify_eq; try done.
  - rewrite decide_True by done. cbn. specialize (Hpos j y Hj Hy). lia.
  - rewrite decide_True by done. cbn. specialize (Hpos i x Hi Hx). lia.
  - assert (1 < length (filter P l)) by (eapply (IH i j); [done..|lia|done|done]). destruct (decide (P z)); cbn; lia.
Qed.

Section paths.
Context `{WitParser} (resolve : WitResolve).

(** Names have no separators, packages are told apart by their names, and so are
    the interfaces of a package which have one; those defined in a world do not. *)
Record wf_names : Prop := {
  wf_package i p : rs_packages resolve !! i = Some p →
    lacks slash (pk_namespace p) ∧ lacks slash (pk_name p) ∧ lacks at_sign (pk_name p) ∧
    ∀ v, pk_version p = Some v → lacks slash v;
  wf_interface i f name : rs_interfaces resolve !! i = Some f → if_name f = Some name → lacks slash name;
  wf_packages i j p : rs_packages resolve !! i = Some p → rs_packages resolve !! j = Some p → i = j;
  wf_interfaces i j f f' name : rs_interfaces resolve !! i = Some f → rs_interfaces resolve !! j = Some f' →
    if_package f = if_package f' → if_name f = Some name → if_name f' = Some name → i = j
}.

Definition wf_key (name : WorldKey) : Prop := match name with KeyName s => lacks slash s | KeyInterface _ => True end.

Context (Hn : wf_names).

Lemma package_module_lacks i s : name_package_module resolve i = Some s → lacks slash s.
Proof.
  unfold name_package_module. intros (p & Hp & [= <-])%bind_Some. destruct (wf_package Hn i p Hp) as (_ & H1 & _ & Hv).
  destruct (pk_version p) as [v|]; [|done]. destruct (1 <? _); [|done]. rewrite !lacks_app. split_and!; [done| |by apply Hv].
  by vm_compute.
Qed.

(** The module of a package has its version if there is another of its name. *)
Lemma package_module_inj i j p q s :
  rs_packages resolve !! i = Some p → rs_packages resolve !! j = Some q → pk_namespace p = pk_namespace q →
  name_package_module resolve i = Some s → name_package_module resolve j = Some s → i = j.
Proof.
  intros Hi Hj Hns. unfold name_package_module. rewrite Hi, Hj. cbn [mbind option_bind]. destruct (decide (i = j)) as [|Hne]; [done|].
  intros [= Hs] [= Ht]. destruct (wf_package Hn i p Hi) as (_ & _ & Hp & _), (wf_package Hn j q Hj) as (_ & _ & Hq & _).
  assert (∀ (a b : bool) v w, (pk_name p = pk_name q → a = true ∧ b = true) →
    (match v with Some v => if a then pk_name p +:+ "@" +:+ v else pk_name p | None => pk_name p end) =
    (match w with Some w => if b then pk_name q +:+ "@" +:+ w else pk_name q | None => pk_name q end) →
    pk_name p = pk_name q ∧ v = w) as Hinj.
  { clear -Hp Hq. intros a b v w Hab. assert (∀ n u, lacks at_sign (n +:+ "@" +:+ u) → False) as Hat.
    { intros n u [_ Hu]%lacks_app. by destruct Hu. }
    destruct v as [v|], w as [w|]; [destruct a eqn:?, b eqn:?|destruct a eqn:?|destruct b eqn:?|]; intros Heq;
      try (exfalso; eapply Hat; rewrite <- Heq || rewrite Heq; done);
      try (destruct (Hab Heq); done); try done.
    by apply app_at_inj in Heq as [-> ->]. }
  destruct p as [ns n v], q as [ns' n' w]. cbn [pk_namespace pk_name pk_version] in *. subst ns'.
  edestruct Hinj as [Hname Hver]; [|by rewrite Hs, Ht|].
  - intros ->. split; apply Nat.ltb_lt; by eapply (filter_two _ _ i j).
  - subst. eapply (wf_packages Hn); done.
Qed.

(** The segments of the path of an interface *)
Lemma interface_segments id segments :
  interface_path resolve (KeyInterface id) false = Some segments →
  ∃ f i p module name, rs_interfaces resolve !! id = Some f ∧ if_package f = Some i ∧ rs_packages resolve !! i = Some p ∧
    name_package_module resolve i = Some module ∧ if_name f = Some name ∧ segments = [pk_namespace p; module; name].
Proof.
  unfold interface_path.
  intros (rest & (f & Hf & (i & Hi & (p & Hp & (module & Hm & (name & Hname & [= <-])%bind_Some)%bind_Some)%bind_Some)%bind_Some)%bind_Some & [= <-])%bind_Some.
  by exists f, i, p, module, name.
Qed.

Lemma interface_path_export name segments :
  interface_path resolve name true = Some segments →
  ∃ rest, segments = "exports" :: rest ∧
    match name with KeyName s => rest = [s] | KeyInterface _ => interface_path resolve name false = Some rest end.
Proof.
  unfold interface_path. destruct name as [s|id]; [by intros [= <-]; exists [s]|].
  intros (rest & Hr & [= <-])%bind_Some. exists rest. split; [done|]. by rewrite Hr.
Qed.

Lemma interface_path_lacks name is_export segments :
  wf_key name → interface_path resolve name is_export = Some segments → Forall (lacks slash) segments ∧ segments ≠ [].
Proof.
  assert (∀ segments, wf_key name → interface_path resolve name false = Some segments → Forall (lacks slash) segments ∧ segments ≠ []) as Hf.
  { clear segments. intros segments Hk. destruct name as [s|id].
    - intros [= <-]. split; [|done]. constructor; [vm_compute; repeat split; discriminate|]. by apply Forall_singleton.
    - intros (f & i & p & module & name & Hf & Hi & Hp & Hm & Hname & ->)%interface_segments. split; [|done].
      apply Forall_cons. split; [exact (proj1 (wf_package Hn i p Hp))|]. apply Forall_cons. split; [by eapply package_module_lacks|].
      apply Forall_singleton. by apply (wf_interface Hn id f name). }
  destruct is_export; [|by apply Hf]. intros Hk (rest & -> & Hr)%interface_path_export. split; [|done].
  constructor; [vm_compute; repeat split; discriminate|]. destruct name as [s|id]; [subst; by apply Forall_singleton|by apply Hf].
Qed.

Lemma interface_path_inj id1 id2 segments :
  interface_path resolve (KeyInterface id1) false = Some segments →
  interface_path resolve (KeyInterface id2) false = Some segments → id1 = id2.
Proof.
  intros (f1 & i1 & p1 & module1 & name1 & Hf1 & Hi1 & Hp1 & Hm1 & Hname1 & ->)%interface_segments.
  intros (f2 & i2 & p2 & module2 & name2 & Hf2 & Hi2 & Hp2 & Hm2 & Hname2 & [= Hns <- <-])%interface_segments.
  assert (i1 = i2) as -> by (by eapply (package_module_inj i1 i2 p1 p2)).
  by eapply (wf_interfaces Hn _ _ f1 f2); [| |congruence| |].
Qed.

Lemma interface_path_length id segments : interface_path resolve (KeyInterface id) false = Some segments → length segments = 3.
Proof. by intros (? & ? & ? & ? & ? & _ & _ & _ & _ & _ & ->)%interface_segments. Qed.

Ltac by_length := exfalso; repeat match goal with
  | H : interface_path _ (KeyInterface _) _ = Some _ |- _ => apply interface_path_length in H
  end; subst; cbn in *; lia.

(** [C31] Generated modules do not overwrite each other: the files of two
    interfaces are the same only if they are of the same interface, imported or
    exported both; imports and exports, interfaces with a name in the world and
    those of packages, and versions of a package are told apart, and none is the
    file of the world. *)
Theorem module_paths_distinct name1 export1 name2 export2 p1 p2 world :
  wf_key name1 → wf_key name2 → lacks slash world →
  interface_path resolve name1 export1 = Some p1 → interface_path resolve name2 export2 = Some p2 →
  join "/" p1 ≠ world ∧ (join "/" p1 = join "/" p2 → name1 = name2 ∧ export1 = export2).
Proof.
  intros Hk1 Hk2 Hw H1 H2. pose proof (interface_path_lacks _ _ _ Hk1 H1) as [Hl1 Hne1].
  pose proof (interface_path_lacks _ _ _ Hk2 H2) as [Hl2 Hne2]. split.
  - intros <-. apply split_on_lacks in Hw. rewrite split_join in Hw by done. destruct export1.
    + apply interface_path_export in H1 as (rest & -> & Hr). injection Hw as _ ->. destruct name1; [done|].
      by apply interface_path_length in Hr.
    + destruct name1; [injection H1 as <-; discriminate Hw|]. apply interface_path_length in H1. by rewrite Hw in H1.
  - intros Hj. assert (p1 = p2) as -> by (rewrite <- (split_join p1), <- (split_join p2) by done; by rewrite Hj).
    destruct export1, export2.
    + apply interface_path_export in H1 as (r1 & -> & H1). apply interface_path_export in H2 as (r2 & [= <-] & H2).
      destruct name1, name2; subst; try by_length; [by simplify_eq|]. split; [|done]. f_equal. by eapply interface_path_inj.
    + apply interface_path_export in H1 as (r1 & -> & H1). destruct name1, name2; subst; try by_length; discriminate H2.
    + apply interface_path_export in H2 as (r2 & -> & H2). destruct name1, name2; subst; try by_length; discriminate H1.
    + destruct name1, name2; try (injection H1 as <-); try (injection H2 as H2); try by_length.
      * by simplify_eq.
      * split; [|done]. f_equal. by eapply interface_path_inj.
Qed.

End paths.

(** ** Remappings *)

(** The calls which generate a world, in any order *)
Inductive Op :=
  | ImportInterface (name : WorldKey) (id : nat)
  | ImportTypes (types : list nat)
  | ImportFuncs (funcs : list Function)
  | ExportInterface (name : WorldKey) (id : nat)
  | ExportFuncs (funcs : list Function).

Section remappings.
Context `{WitParser} (resolve : WitResolve).

Definition run_op (w : JsWrpc) (op : Op) : option (result JsError JsWrpc) :=
  match op with
  | ImportInterface name id => import_interface resolve w name id
  | ImportTypes types => Ok <$> import_types resolve w types
  | ImportFuncs funcs => Ok <$> import_funcs resolve w funcs
  | ExportInterface name id => export_interface resolve w name id
  | ExportFuncs funcs => export_funcs resolve w funcs
  end.

Fixpoint run_ops (w : JsWrpc) (ops : list Op) : option (result JsError JsWrpc) :=
  match ops with
  | [] => Some (Ok w)
  | op :: ops => r ← run_op w op; match r with Ok w => run_ops w ops | Err e => Some (Err e) end
  end.

(** The names of the interfaces which are imported *)
Definition imported_name (op : Op) : option string :=
  match op with ImportInterface name _ => Some (name_world_key resolve name) | _ => None end.
Definition imported_names (ops : list Op) : list string := omap imported_name ops.

(** The options are kept, and those of imported interfaces are used. *)
Record uses (w : JsWrpc) (names : list string) (w' : JsWrpc) : Prop := {
  u_opts : w_opts w' = w_opts w;
  u_with : w_with w' = w_with w;
  u_used k : k ∈ w_used_with w' ↔ k ∈ w_used_with w ∨ (k ∈ names ∧ is_Some (w_with w !! k))
}.

Lemma uses_refl w : uses w [] w.
Proof. split; [done..|]. set_solver. Qed.

Lemma uses_trans w1 ns1 w2 ns2 w3 : uses w1 ns1 w2 → uses w2 ns2 w3 → uses w1 (ns1 ++ ns2) w3.
Proof. intros [H1 H2 H3] [H4 H5 H6]. split; [congruence..|]. intros k. rewrite H6, H3, H2, elem_of_app. tauto. Qed.

Lemma name_interface_uses w id name w' path :
  name_interface resolve w id name false = Some (Ok (w', path)) →
  uses w [name_world_key resolve name] w' ∧ (o_generate_all (w_opts w) = true ∨ is_Some (w_with w !! name_world_key resolve name)).
Proof.
  unfold name_interface. destruct (w_with w !! name_world_key resolve name) as [[p|]|] eqn:Hw.
  - intros [= <- <-]. split; [|by eauto]. split; [done..|]. intros k. cbn. set_solver.
  - intros (segments & _ & [= <- <-])%bind_Some. split; [|by eauto]. split; [done..|]. intros k. cbn. set_solver.
  - destruct (o_generate_all (w_opts w)); [|done]. intros (segments & _ & [= <- <-])%bind_Some. split; [|by left].
    split; [done..|]. intros k. cbn. rewrite list_elem_of_singleton. split; [by left|]. intros [?|[-> [? ?]]]; [done|congruence].
Qed.

Lemma name_interface_export w id name w' path :
  name_interface resolve w id name true = Some (Ok (w', path)) → uses w [] w'.
Proof. unfold name_interface. intros (segments & _ & [= <- <-])%bind_Some. split; [done..|]. set_solver. Qed.

(** An import fails if and only if it has no remapping. *)
Definition remapped (w : JsWrpc) (name : string) : Prop := o_generate_all (w_opts w) = true ∨ is_Some (w_with w !! name).

Lemma run_op_uses w op w' :
  run_op w op = Some (Ok w') → uses w (imported_names [op]) w' ∧ ∀ name, name ∈ imported_names [op] → remapped w name.
Proof.
  destruct op as [name id|types|funcs|name id|funcs]; cbn [run_op imported_names imported_name omap list_omap].
  - unfold import_interface. intros ([[w1 [path|]]|e] & Hn & Hr)%bind_Some; [..|done].
    + apply name_interface_uses in Hn as [Hu Hm].
      apply bind_Some in Hr as (iface & _ & (instance & _ & ([[] m] & _ & [= <-])%bind_Some)%bind_Some). split; [|set_solver].
      destruct Hu as [H1 H2 H3]. by split.
    + apply name_interface_uses in Hn as [Hu Hm]. simplify_eq. split; [done|set_solver].
  - unfold import_types. intros (w1 & ([[] m] & _ & [= <-])%bind_Some & [= ->])%fmap_Some. split; [|set_solver]. split; [done..|]. set_solver.
  - unfold import_funcs. intros (w1 & ([[] m] & _ & [= <-])%bind_Some & [= ->])%fmap_Some. split; [|set_solver]. split; [done..|]. set_solver.
  - unfold export_interface. intros (instance & _ & ([[w1 [path|]]|e] & Hn & Hr)%bind_Some)%bind_Some; [|done..].
    apply name_interface_export in Hn as [H1 H2 H3].
    apply bind_Some in Hr as (iface & _ & ([served m] & _ & [= <-])%bind_Some). split; [|set_solver]. by destruct served; split.
  - unfold export_funcs. intros ([served m] & _ & [= <-])%bind_Some. split; [|set_solver].
    destruct served; (split; [done..|set_solver]).
Qed.

Lemma run_ops_uses w ops w' :
  run_ops w ops = Some (Ok w') → uses w (imported_names ops) w' ∧ ∀ name, name ∈ imported_names ops → remapped w name.
Proof.
  revert w. induction ops as [|op ops IH]; intros w; cbn [run_ops].
  - intros [= <-]. split; [apply uses_refl|set_solver].
  - intros ([w1|e] & H1 & H2)%bind_Some; [|done]. apply run_op_uses in H1 as [Hu1 Hm1]. apply IH in H2 as [Hu2 Hm2].
    rewrite (omap_app imported_name [op] ops : imported_names (op :: ops) = imported_names [op] ++ imported_names ops). split; [by eapply uses_trans|].
    intros name [Hin|Hin]%elem_of_app; [by apply Hm1|]. apply Hm2 in Hin. unfold remapped in *.
    by rewrite (u_opts _ _ _ Hu1), (u_with _ _ _ Hu1) in Hin.
Qed.

End remappings.

(** ** Dispatch *)

(** The function which serves an export: that of the module of the world, or of
    a module which is imported *)
Definition serves (g : Gen) (m : Module_) (path : option ModulePath) (serve : string) : Prop :=
  match path with
  | None => serve = "serveInterface"
  | Some path => ∃ a, serve = alias a +:+ ".serveInterface" ∧ m_deps m !! a = Some (specifier g path, true)
  end.

Lemma serves_le g m m' path serve : uses_le m m' → serves g m path serve → serves g m' path serve.
Proof.
  intros [_ _ Hle]. destruct path; [|done]. intros (a & -> & Ha). exists a. split; [done|].
  apply Hle in Ha as (used & -> & Hu). by rewrite Hu.
Qed.

Lemma export_names_spec g path m :
  ∃ handler serve m', export_names g path m = Some ((handler, serve), m') ∧ silent m m' ∧ serves g m' path serve.
Proof.
  destruct path as [path|]; [|by eexists _, _, m]. unfold export_names.
  destruct (dep_spec g path true m) as (a & m' & Hm & Hs & used & Ha & Hu). rewrite (gen_bind _ _ _ _ _ Hm).
  eexists _, _, m'. split; [done|]. split; [done|]. exists a. split; [done|]. by rewrite Ha, Hu.
Qed.

Lemma export_cases_spec g i exports m :
  ∃ cases m', export_cases g i exports m = Some (cases, m') ∧ silent m m' ∧ length cases = length exports ∧
    ∀ k instance path fs, exports !! k = Some (instance, path, fs) →
      ∃ param serve, cases !! k = Some (param, instance_case (i + k) instance serve) ∧ serves g m' path serve.
Proof.
  revert i m. induction exports as [|[[instance path] fs] exports IH]; intros i m; [by exists [], m|]. cbn [export_cases].
  destruct (export_names_spec g path m) as (handler & serve & m1 & Hm1 & Hs1 & Hserve). rewrite (gen_bind _ _ _ _ _ Hm1).
  destruct (IH (S i) m1) as (cases & m2 & Hm2 & Hs2 & Hlen & Hcases). rewrite (gen_bind _ _ _ _ _ Hm2).
  eexists _, m2. split; [done|]. split; [by etrans|]. split; [cbn; by rewrite Hlen|].
  intros [|k] instance' path' fs' Hk; cbn in Hk |- *.
  - simplify_eq. eexists _, serve. rewrite Nat.add_0_r. split; [done|]. eapply serves_le; [apply Hs2|done].
  - rewrite <- Nat.add_succ_comm. by eapply Hcases.
Qed.

(** The segments of the path of a module are names of files. *)
Definition plain_path (path : option ModulePath) : Prop :=
  match path with Some (Local p) => Forall plain (split_on slash p) | _ => True end.

(** The file which is imported to serve an export *)
Definition served_by (g : Gen) (m : Module_) (path : option ModulePath) (serve : string) : Prop :=
  match path with
  | None => serve = "serveInterface"
  | Some path =>
      ∃ a spec, serve = alias a +:+ ".serveInterface" ∧ m_deps m !! a = Some (spec, true) ∧
        match path with
        | Local p => resolve_specifier (g_path g) spec = split_on slash (p +:+ ".js")
        | External p => spec = p
        end
  end.

Lemma serves_served_by g m path serve : plain_path path → serves g m path serve → served_by g m path serve.
Proof.
  intros Hp. destruct path as [path|]; [|done]. intros (a & -> & Ha). eexists a, _. split_and!; [done..|].
  destruct path; [by apply relative_resolves|done].
Qed.

Definition world_text (exports : list (string * option ModulePath * list string)) (cases : list string) : string :=
  serve_text (join ", " ("transport" :: imap (λ i _, "h" +:+ pretty i) exports)) (concat_str cases) +:+
  "export const served = " +:+ brackets (join ", " (show_pair <$> served_pairs exports)) +:+ ";" +:+ nl.

(** [C30] The world dispatches its exports: [serve] has a case for each exported
    instance, which calls [serveInterface] of the module generated for it with
    the handler of its position; the module is imported, by a specifier which
    resolves to its file, and [served] has the pairs of instances and functions. *)
Theorem world_dispatches g exports m :
  exports ≠ [] → Forall (λ e, plain_path e.1.2) exports →
  ∃ cases m', finish_world g exports m = Some ((), m') ∧ m_js m' = m_js m +:+ world_text exports cases ∧
    "accept" ∈ m_runtime m' ∧ length cases = length exports ∧
    ∀ k instance path fs, exports !! k = Some (instance, path, fs) →
      ∃ serve, cases !! k = Some (instance_case k instance serve) ∧ served_by g m' path serve.
Proof.
  intros Hne Hp. unfold finish_world. destruct exports as [|e0 es0] eqn:E; [done|]. rewrite <- E in *. clear E e0 es0 Hne.
  destruct (use_runtime_silent "accept" m) as (m1 & Hm1 & (_ & Hj1 & _) & Ha1 & _). rewrite (gen_bind _ _ _ _ _ Hm1).
  destruct (use_wrpc_types_spec m1) as (m2 & Hm2 & (Hl2 & Hj2 & _) & _). rewrite (gen_bind _ _ _ _ _ Hm2).
  destruct (export_cases_spec g 0 exports m2) as (cases & m3 & Hm3 & (Hl3 & Hj3 & _) & Hlen & Hcases). rewrite (gen_bind _ _ _ _ _ Hm3).
  edestruct (push_dts_spec) as (m4 & Hm4 & Hl4 & Hj4 & _). rewrite (gen_bind _ _ _ _ _ Hm4).
  edestruct (push_js_spec) as (m5 & Hm5 & Hl5 & Hj5 & _). rewrite (gen_bind _ _ _ _ _ Hm5).
  edestruct (push_dts_spec) as (m6 & Hm6 & Hl6 & Hj6 & _). rewrite (gen_bind _ _ _ _ _ Hm6).
  edestruct (push_js_spec) as (m7 & Hm7 & Hl7 & Hj7 & _).
  exists cases.*2, m7. split; [exact Hm7|]. assert (uses_le m3 m7) as Hl by (by do 3 (etrans; [done|])).
  split_and!; [| |by rewrite length_fmap|].
  - by rewrite Hj7, Hj6, Hj5, Hj4, Hj3, Hj2, Hj1, <- string_app_assoc.
  - apply Hl, Hl3, Hl2, Ha1.
  - intros k instance path fs Hk. destruct (Hcases k instance path fs Hk) as (param & serve & Hc & Hs).
    exists serve. split; [by rewrite list_lookup_fmap, Hc|]. eapply serves_served_by, serves_le; [|done..].
    rewrite Forall_lookup in Hp. apply (Hp k _ Hk).
Qed.

Lemma world_dispatches_witness :
  ∃ cases m', finish_world (mkGen ∅ "w" "w") [("a:b/c", Some (Local "exports/a/b/c"), ["draw"]); ("", None, ["run"])] Module_default = Some ((), m') ∧
    m_js m' = m_js Module_default +:+ world_text [("a:b/c", Some (Local "exports/a/b/c"), ["draw"]); ("", None, ["run"])] cases ∧
    "accept" ∈ m_runtime m' ∧ length cases = 2 ∧
    ∀ k instance path fs, [("a:b/c", Some (Local "exports/a/b/c"), ["draw"]); ("", None, ["run"])] !! k = Some (instance, path, fs) →
      ∃ serve, cases !! k = Some (instance_case k instance serve) ∧ served_by (mkGen ∅ "w" "w") m' path serve.
Proof.
  apply world_dispatches; [discriminate|]. repeat constructor; discriminate.
Defined.

(** ** A world is generated *)

Section finish.
Context `{WitParser} (resolve : WitResolve).

Lemma foldl_with_options (l : list (string * WithOption)) (with_ : gmap string WithOption) k :
  is_Some (with_ !! k) ∨ k ∈ l.*1 → is_Some (foldl (λ with_ kv, <[kv.1 := kv.2]> with_) with_ l !! k).
Proof.
  revert with_. induction l as [|[k' v] l IH]; intros with_ Hk; cbn in *; [by destruct Hk as [?|?%not_elem_of_nil]|].
  apply IH. destruct (decide (k = k')) as [->|Hne]; [left; by rewrite lookup_insert_eq|].
  rewrite lookup_insert_ne by done. set_solver.
Qed.

Lemma preprocess_with opts world w :
  preprocess resolve (build opts) world = Some w →
  w_opts w = opts ∧ w_used_with w = ∅ ∧ ∀ k, k ∈ (o_with opts).*1 → is_Some (w_with w !! k).
Proof.
  unfold preprocess. intros (wd & _ & (with_ & _ & [= <-])%bind_Some)%bind_Some. split_and!; [done..|].
  intros k Hk. apply foldl_with_options. by right.
Qed.

Lemma sort_strings_nil l : sort_strings l = [] → l = [].
Proof.
  destruct l as [|x l]; [done|]. change (insert_sorted x (sort_strings l) = [] → x :: l = []).
  destruct (sort_strings l) as [|y l']; cbn; [done|]. by destruct (String.leb x y).
Qed.

Lemma filter_elem_iff {A} (P Q : A → Prop) `{!∀ x, Decision (P x), !∀ x, Decision (Q x)} (l : list A) :
  (∀ x, x ∈ l → P x ↔ Q x) → filter P l = filter Q l.
Proof.
  induction l as [|x l IH]; intros HPQ; [done|]. rewrite !filter_cons, IH by (intros; apply HPQ; set_solver).
  specialize (HPQ x ltac:(set_solver)). destruct (decide (P x)), (decide (Q x)); tauto.
Qed.

Lemma finish_world_total g exports m : ∃ m', finish_world g exports m = Some ((), m').
Proof.
  destruct exports as [|e es] eqn:E; [by exists m|]. unfold finish_world. rewrite <- E. cbn [mbind].
  edestruct (use_runtime_silent "accept" m) as (m1 & Hm1 & _). rewrite (gen_bind _ _ _ _ _ Hm1).
  destruct (use_wrpc_types_spec m1) as (m2 & Hm2 & _). rewrite (gen_bind _ _ _ _ _ Hm2).
  destruct (export_cases_spec g 0 exports m2) as (cases & m3 & Hm3 & _). rewrite (gen_bind _ _ _ _ _ Hm3). by eexists.
Qed.

(** The files of the modules *)
Definition file_names (paths : list string) : list string := paths ≫= λ path, [path +:+ ".js"; path +:+ ".d.ts"].

Lemma file_names_render version wrpc (modules : list (string * Module_)) :
  (modules ≫= λ pm, let '(js, dts) := render version wrpc pm.2 in [(pm.1 +:+ ".js", js); (pm.1 +:+ ".d.ts", dts)]).*1 =
  file_names modules.*1.
Proof. induction modules as [|[p m] modules IH]; [done|]. by rewrite bind_cons, fmap_app, IH. Qed.

(** Remappings are checked: however a world is generated, each imported
    interface has a remapping or all are generated, and if a remapping is given
    which is of no imported interface then generation fails with those which are
    not, and otherwise it succeeds with two files for each module and for the
    world. *)
Theorem remappings_checked version opts world w0 ops w :
  preprocess resolve (build opts) world = Some w0 → run_ops resolve w0 ops = Some (Ok w) →
  let unused := filter (λ k, k ∉ imported_names resolve ops) (o_with opts).*1 in
  (∀ name, name ∈ imported_names resolve ops → remapped w0 name) ∧
  (unused ≠ [] → finish version w = Some (Err (UnusedRemappings (sort_strings unused)))) ∧
  (unused = [] → ∃ files, finish version w = Some (Ok files) ∧ files.*1 = file_names ((w_modules w).*1 ++ [w_world w])).
Proof.
  intros (Ho & Hu & Hw)%preprocess_with ([H1 H2 H3] & Hm)%run_ops_uses unused. split; [done|].
  assert (filter (λ k, k ∉ w_used_with w) (o_with (w_opts w)).*1 = unused) as Hunused.
  { unfold unused. rewrite H1, Ho. apply filter_elem_iff. intros k Hk. rewrite H3, Hu. apply Hw in Hk. set_solver. }
  unfold finish. rewrite Hunused. split.
  - intros Hne. destruct (sort_strings unused) eqn:Hs; [by apply sort_strings_nil in Hs|done].
  - intros ->. cbn [sort_strings foldr].
    destruct (finish_world_total (module w (w_world w)) (w_exports w) (w_world_module w)) as (m' & Hf). rewrite Hf. cbn [mbind option_bind].
    eexists. split; [done|]. by rewrite file_names_render, fmap_app.
Qed.

End finish.

(** ** A world *)

#[local] Existing Instance test_parser.

(** Two interfaces are defined in the world. *)
Definition test_world : WitResolve := mkWitResolve []
  [mkInterface (Some "c") (Some 0) [] [mkFunction "run" Freestanding 0 [] None None];
   mkInterface (Some "c") (Some 1) [] []; mkInterface (Some "c") (Some 2) [] [];
   mkInterface None (Some 0) [] []; mkInterface None (Some 0) [] []]
  [mkPackage "a" "b" None; mkPackage "a" "d" (Some "1.0.0"); mkPackage "a" "d" (Some "2.0.0")]
  [mkWitWorld "w" (Some 0) [(KeyInterface 0, ItemInterface 0)] []].

Lemma test_wf_names : wf_names test_world.
Proof.
  split.
  - intros i p. destruct i as [|[|[|i]]]; cbn; intros; simplify_eq; split_and!; try (vm_compute; repeat split; discriminate);
      intros v [= <-]; vm_compute; repeat split; discriminate.
  - intros i f name. destruct i as [|[|[|[|[|i]]]]]; cbn; intros; simplify_eq/=; vm_compute; repeat split; discriminate.
  - intros i j p. destruct i as [|[|[|i]]], j as [|[|[|j]]]; cbn; intros; simplify_eq; done.
  - intros i j f f' name. destruct i as [|[|[|[|[|i]]]]], j as [|[|[|[|[|j]]]]]; cbn; intros; simplify_eq/=; done.
Qed.

Lemma module_paths_distinct_witness :
  interface_path test_world (KeyInterface 1) false = Some ["a"; "d@1.0.0"; "c"] ∧
  interface_path test_world (KeyInterface 2) false = Some ["a"; "d@2.0.0"; "c"] ∧
  join "/" ["a"; "d@1.0.0"; "c"] ≠ "w" ∧
  (join "/" ["a"; "d@1.0.0"; "c"] = join "/" ["a"; "d@2.0.0"; "c"] → KeyInterface 1 = KeyInterface 2 ∧ false = false) ∧
  interface_path test_world (KeyName "x") true = Some ["exports"; "x"] ∧
  (join "/" ["exports"; "x"] = join "/" ["exports"; "y"] → KeyName "x" = KeyName "y" ∧ true = true).
Proof.
  pose proof (module_paths_distinct test_world test_wf_names) as Hp.
  assert (lacks slash "w" ∧ lacks slash "x" ∧ lacks slash "y") as (Hw & Hx & Hy)
    by (vm_compute; repeat split; discriminate).
  split; [reflexivity|]. split; [reflexivity|].
  destruct (Hp (KeyInterface 1) false (KeyInterface 2) false ["a"; "d@1.0.0"; "c"] ["a"; "d@2.0.0"; "c"] "w") as [H1 H2];
    [exact I|exact I|exact Hw|reflexivity|reflexivity|].
  split; [exact H1|]. split; [exact H2|]. split; [reflexivity|].
  apply (Hp (KeyName "x") true (KeyName "y") true ["exports"; "x"] ["exports"; "y"] "w");
    [exact Hx|exact Hy|exact Hw|reflexivity|reflexivity].
Defined.

Definition test_opts : Opts := mkOpts [("other", Generate)] false None.

Lemma remappings_checked_witness :
  ∃ w0 w, preprocess test_world (build test_opts) 0 = Some w0 ∧
    run_ops test_world w0 [ImportInterface (KeyInterface 0) 0] = Some (Ok w) ∧
    let unused := filter (λ k, k ∉ imported_names test_world [ImportInterface (KeyInterface 0) 0]) (o_with test_opts).*1 in
    (∀ name, name ∈ imported_names test_world [ImportInterface (KeyInterface 0) 0] → remapped w0 name) ∧
    (unused ≠ [] → finish "1.0.0" w = Some (Err (UnusedRemappings (sort_strings unused)))) ∧
    (unused = [] → ∃ files, finish "1.0.0" w = Some (Ok files) ∧ files.*1 = file_names ((w_modules w).*1 ++ [w_world w])).
Proof.
  eexists _, _. split; [reflexivity|]. split; [reflexivity|].
  apply (remappings_checked test_world "1.0.0" test_opts 0 _ [ImportInterface (KeyInterface 0) 0]); reflexivity.
Defined.
