(* ===== verification/WasmCli.v ===== *)
(** * The host of components

    Model of [crates/wasmtime-cli/src/lib.rs], the host which links a component and
    serves its exports: which imports are those of WASI and of [wrpc:rpc], which
    resources of the host the imported resources are, and the functions which are
    served.

    Wasmtime, the types of its resources and the parser of versions are
    parameters; tasks are what they serve.  The theorems say that each
    imported resource has one type of the host ([linked_resource_unique],
    [host_resources_typed]) and that every function which a component exports can be
    invoked ([exports_served]). *)

From Stdlib Require Import String.
From S2P Require Import Prelude Wire FrameCodec Prims Wave Subscriptions Resolve SubsInv Conn Delivery Egress Server.
From S2P Require Import Introspect Encode Pack Decode Values ValuesStd Transmit Declared Resume Receive Exchange.
From S2P Require Import WasmCodec WasmValues WasmExchange WasmPaths WasmCall WasmLink WasmServe.

#[local] Open Scope string_scope.

Definition str (s : string) : bytes := list_byte_of_string s.

(** ** Interfaces which are linked *)

(** [str::split_once] *)
Fixpoint split_once (sep : Byte.byte) (s : bytes) : option (bytes * bytes) :=
  match s with
  | [] => None
  | c :: s => if decide (c = sep) then Some ([], s) else '(l, r) ← split_once sep s; Some (c :: l, r)
  end.

(** [parse_env] of [tcp.rs] *)
Definition parse_env (s : bytes) : option (bytes * bytes) := split_once x3d s.

(** [semver::Version] *)
Record Version := mkVersion { v_major : N; v_minor : N; v_patch : N; v_pre : bytes; v_build : bytes }.

Section linked.
Context (parse_version : bytes → option Version).

Definition is_0_x (version : bytes) (x min_patch : N) : bool :=
  match parse_version version with
  | Some v =>
      (v_major v =? 0)%N && (v_minor v =? x)%N && (min_patch <=? v_patch v)%N &&
      bool_decide (v_pre v = []) && bool_decide (v_build v = [])
  | None => false
  end.

Definition is_0_2 (version : bytes) (min_patch : N) : bool := is_0_x version 2 min_patch.
Definition is_0_3 (version : bytes) : bool := is_0_x version 3 0.

Definition one_of (s : bytes) (l : list string) : bool := bool_decide (s ∈ str <$> l).

Definition is_linked (name : bytes) : bool :=
  match split_once x2f name with
  | None => false
  | Some (pkg, suffix) =>
      match split_once x40 suffix with
      | None => false
      | Some (iface, version) =>
          (one_of pkg ["wrpc:rpc"] && one_of iface ["transport"; "error"; "context"; "invoker"] && one_of version ["0.2.0"]) ||
          (one_of pkg ["wasi:cli"] &&
           one_of iface ["environment"; "exit"; "stderr"; "stdin"; "stdout"; "terminal-input"; "terminal-output";
             "terminal-stderr"; "terminal-stdin"; "terminal-stdout"] && is_0_2 version 0) ||
          (one_of pkg ["wasi:cli"] &&
           one_of iface ["environment"; "exit"; "stderr"; "stdin"; "stdout"; "terminal-input"; "terminal-output";
             "terminal-stderr"; "terminal-stdin"; "terminal-stdout"; "types"] && is_0_3 version) ||
          (one_of pkg ["wasi:clocks"] && one_of iface ["monotonic-clock"; "wall-clock"] && is_0_2 version 0) ||
          (one_of pkg ["wasi:clocks"] && one_of iface ["timezone"] && is_0_2 version 1) ||
          (one_of pkg ["wasi:clocks"] && one_of iface ["monotonic-clock"; "system-clock"; "types"] && is_0_3 version) ||
          (one_of pkg ["wasi:filesystem"] && one_of iface ["preopens"; "types"] && (is_0_2 version 0 || is_0_3 version)) ||
          (one_of pkg ["wasi:http"] && one_of iface ["incoming-handler"; "outgoing-handler"; "types"] && is_0_2 version 0) ||
          (one_of pkg ["wasi:http"] && one_of iface ["client"; "types"] && is_0_3 version) ||
          (one_of pkg ["wasi:io"] && one_of iface ["error"; "poll"; "streams"] && is_0_2 version 0) ||
          (one_of pkg ["wasi:random"] && one_of iface ["insecure-seed"; "insecure"; "random"] &&
           (is_0_2 version 0 || is_0_3 version)) ||
          (one_of pkg ["wasi:sockets"] &&
           one_of iface ["instance-network"; "ip-name-lookup"; "network"; "tcp-create-socket"; "tcp";
             "udp-create-socket"; "udp"] && is_0_2 version 0) ||
          (one_of pkg ["wasi:sockets"] && one_of iface ["ip-name-lookup"; "types"] && is_0_3 version)
      end
  end.

End linked.

(** ** Resources of the host *)

(** [Bound] *)
Inductive Bound := Included (s : string) | Excluded (s : string).

(** The instances, the name of a resource and the type of the host *)
Definition LINKED_RESOURCES : list (Bound * Bound * string * string) := [
  (Included "wasi:cli/terminal-input@0.2", Excluded "wasi:cli/terminal-input@0.3",
   "terminal-input", "wasmtime_wasi::p2::bindings::cli::terminal_input::TerminalInput");
  (Included "wasi:cli/terminal-output@0.2", Excluded "wasi:cli/terminal-output@0.3",
   "terminal-output", "wasmtime_wasi::p2::bindings::cli::terminal_output::TerminalOutput");
  (Included "wasi:cli/terminal-input@0.3", Excluded "wasi:cli/terminal-input@0.4",
   "terminal-input", "wasmtime_wasi::p3::bindings::cli::terminal_input::TerminalInput");
  (Included "wasi:cli/terminal-output@0.3", Excluded "wasi:cli/terminal-output@0.4",
   "terminal-output", "wasmtime_wasi::p3::bindings::cli::terminal_output::TerminalOutput");
  (Included "wasi:filesystem/types@0.2", Excluded "wasi:filesystem/types@0.3",
   "descriptor", "wasmtime_wasi::p2::bindings::filesystem::types::Descriptor");
  (Included "wasi:filesystem/types@0.2", Excluded "wasi:filesystem/types@0.3",
   "directory-entry-stream", "wasmtime_wasi::p2::bindings::filesystem::types::DirectoryEntryStream");
  (Included "wasi:filesystem/types@0.3", Excluded "wasi:filesystem/types@0.4",
   "descriptor", "wasmtime_wasi::p3::bindings::filesystem::types::Descriptor");
  (Included "wasi:http/types@0.2", Excluded "wasi:http/types@0.3",
   "fields", "wasmtime_wasi_http::p2::bindings::http::types::Fields");
  (Included "wasi:http/types@0.2", Excluded "wasi:http/types@0.3",
   "future-incoming-response", "wasmtime_wasi_http::p2::bindings::http::types::FutureIncomingResponse");
  (Included "wasi:http/types@0.2", Excluded "wasi:http/types@0.3",
   "future-trailers", "wasmtime_wasi_http::p2::bindings::http::types::FutureTrailers");
  (Included "wasi:http/types@0.2", Excluded "wasi:http/types@0.3",
   "incoming-body", "wasmtime_wasi_http::p2::bindings::http::types::IncomingBody");
  (Included "wasi:http/types@0.2", Excluded "wasi:http/types@0.3",
   "incoming-request", "wasmtime_wasi_http::p2::bindings::http::types::IncomingRequest");
  (Included "wasi:http/types@0.2", Excluded "wasi:http/types@0.3",
   "incoming-response", "wasmtime_wasi_http::p2::bindings::http::types::IncomingResponse");
  (Included "wasi:http/types@0.2", Excluded "wasi:http/types@0.3",
   "outgoing-body", "wasmtime_wasi_http::p2::bindings::http::types::OutgoingBody");
  (Included "wasi:http/types@0.2", Excluded "wasi:http/types@0.3",
   "outgoing-request", "wasmtime_wasi_http::p2::bindings::http::types::OutgoingRequest");
  (Included "wasi:http/types@0.2", Excluded "wasi:http/types@0.3",
   "outgoing-response", "wasmtime_wasi_http::p2::bindings::http::types::OutgoingResponse");
  (Included "wasi:http/types@0.2", Excluded "wasi:http/types@0.3",
   "request-options", "wasmtime_wasi_http::p2::bindings::http::types::RequestOptions");
  (Included "wasi:http/types@0.2", Excluded "wasi:http/types@0.3",
   "response-outparam", "wasmtime_wasi_http::p2::bindings::http::types::ResponseOutparam");
  (Included "wasi:http/types@0.3", Excluded "wasi:http/types@0.4",
   "fields", "wasmtime_wasi_http::p3::bindings::http::types::Fields");
  (Included "wasi:http/types@0.3", Excluded "wasi:http/types@0.4",
   "request", "wasmtime_wasi_http::p3::bindings::http::types::Request");
  (Included "wasi:http/types@0.3", Excluded "wasi:http/types@0.4",
   "request-options", "wasmtime_wasi_http::p3::bindings::http::types::RequestOptions");
  (Included "wasi:http/types@0.3", Excluded "wasi:http/types@0.4",
   "response", "wasmtime_wasi_http::p3::bindings::http::types::Response");
  (Included "wasi:io/error@0.2", Excluded "wasi:io/error@0.3",
   "error", "wasmtime_wasi::p2::bindings::io::error::Error");
  (Included "wasi:io/poll@0.2", Excluded "wasi:io/poll@0.3",
   "pollable", "wasmtime_wasi::p2::bindings::io::poll::Pollable");
  (Included "wasi:io/streams@0.2", Excluded "wasi:io/streams@0.3",
   "input-stream", "wasmtime_wasi::p2::bindings::io::streams::InputStream");
  (Included "wasi:io/streams@0.2", Excluded "wasi:io/streams@0.3",
   "output-stream", "wasmtime_wasi::p2::bindings::io::streams::OutputStream");
  (Included "wasi:sockets/ip-name-lookup@0.2", Excluded "wasi:sockets/ip-name-lookup@0.3",
   "resolve-address-stream", "wasmtime_wasi::p2::bindings::sockets::ip_name_lookup::ResolveAddressStream");
  (Included "wasi:sockets/network@0.2", Excluded "wasi:sockets/network@0.3",
   "network", "wasmtime_wasi::p2::bindings::sockets::network::Network");
  (Included "wasi:sockets/tcp@0.2", Excluded "wasi:sockets/tcp@0.3",
   "tcp-socket", "wasmtime_wasi::p2::bindings::sockets::tcp::TcpSocket");
  (Included "wasi:sockets/udp@0.2", Excluded "wasi:sockets/udp@0.3",
   "incoming-datagram-stream", "wasmtime_wasi::p2::bindings::sockets::udp::IncomingDatagramStream");
  (Included "wasi:sockets/udp@0.2", Excluded "wasi:sockets/udp@0.3",
   "outgoing-datagram-stream", "wasmtime_wasi::p2::bindings::sockets::udp::OutgoingDatagramStream");
  (Included "wasi:sockets/udp@0.2", Excluded "wasi:sockets/udp@0.3",
   "udp-socket", "wasmtime_wasi::p2::bindings::sockets::udp::UdpSocket");
  (Included "wasi:sockets/types@0.3", Excluded "wasi:sockets/types@0.4",
   "tcp-socket", "wasmtime_wasi::p3::bindings::sockets::types::TcpSocket");
  (Included "wasi:sockets/types@0.3", Excluded "wasi:sockets/types@0.4",
   "udp-socket", "wasmtime_wasi::p3::bindings::sockets::types::UdpSocket");
  (Included "wrpc:rpc/context@0.2.0", Included "wrpc:rpc/context@0.2.0",
   "context", "wrpc_wasmtime::bindings::rpc::context::Context");
  (Included "wrpc:rpc/error@0.2.0", Included "wrpc:rpc/error@0.2.0",
   "error", "wrpc_wasmtime::bindings::rpc::error::Error");
  (Included "wrpc:rpc/transport@0.2.0", Included "wrpc:rpc/transport@0.2.0",
   "incoming-channel", "wrpc_wasmtime::bindings::rpc::transport::IncomingChannel");
  (Included "wrpc:rpc/transport@0.2.0", Included "wrpc:rpc/transport@0.2.0",
   "outgoing-channel", "wrpc_wasmtime::bindings::rpc::transport::OutgoingChannel")
].

#[local] Close Scope string_scope.

(** The order of [str] *)
Fixpoint bytes_le (s t : bytes) : bool :=
  match s, t with
  | [], _ => true
  | _ :: _, [] => false
  | a :: s, b :: t => (Byte.to_N a <? Byte.to_N b)%N || ((Byte.to_N a =? Byte.to_N b)%N && bytes_le s t)
  end.
Definition bytes_lt (s t : bytes) : bool := negb (bytes_le t s).

Definition above (b : Bound) (s : bytes) : bool :=
  match b with Included t => bytes_le (str t) s | Excluded t => bytes_lt (str t) s end.
Definition below (b : Bound) (s : bytes) : bool :=
  match b with Included t => bytes_le s (str t) | Excluded t => bytes_lt s (str t) end.

(** The entries of a [BTreeMap] in order *)
Fixpoint insert_entry {A} (x : bytes * A) (l : list (bytes * A)) : list (bytes * A) :=
  match l with
  | [] => [x]
  | y :: l' => if bytes_le x.1 y.1 then x :: l else y :: insert_entry x l'
  end.
Definition btree_entries {A} (m : gmap bytes A) : list (bytes * A) := foldr insert_entry [] (map_to_list m).

(** *** Lemmas *)

Lemma bytes_le_trans s t u : bytes_le s t = true → bytes_le t u = true → bytes_le s u = true.
Proof.
  revert t u. induction s as [|a s IH]; intros [|b t] [|c u]; try done. cbn [bytes_le].
  rewrite !orb_true_iff, !andb_true_iff, !N.ltb_lt, !N.eqb_eq. intros [H1|(H1 & H2)] [H3|(H3 & H4)]; [left; lia..|].
  right. split; [lia|by eapply IH].
Qed.

Lemma bytes_le_total s t : bytes_le s t = false → bytes_le t s = true.
Proof.
  revert t. induction s as [|a s IH]; intros [|b t]; try done. cbn [bytes_le].
  rewrite orb_false_iff, N.ltb_ge, andb_false_iff, N.eqb_neq, orb_true_iff, andb_true_iff, N.ltb_lt, N.eqb_eq.
  intros (H1 & H2). destruct (decide (Byte.to_N b = Byte.to_N a)) as [Heq|]; [right|left; lia]. split; [done|].
  destruct H2 as [|H2]; [congruence|by apply IH].
Qed.

(** No instance is below the one bound and above the other. *)
Definition apart (stop start : Bound) : bool :=
  match stop, start with
  | Included s, Included t => bytes_lt (str s) (str t)
  | Included s, Excluded t | Excluded s, Included t | Excluded s, Excluded t => bytes_le (str s) (str t)
  end.

Lemma apart_spec stop start s : apart stop start = true → below stop s = true → above start s = true → False.
Proof.
  destruct stop as [t|t], start as [u|u]; cbn [apart below above]; unfold bytes_lt; rewrite ?negb_true_iff; intros H1 H2 H3.
  - pose proof (bytes_le_trans _ _ _ H3 H2). congruence.
  - pose proof (bytes_le_trans _ _ _ H2 H1). congruence.
  - pose proof (bytes_le_trans _ _ _ H1 H3). congruence.
  - apply bytes_le_total in H3. pose proof (bytes_le_trans _ _ _ H1 H3). congruence.
Qed.

Lemma insert_entry_perm {A} (x : bytes * A) l : insert_entry x l ≡ₚ x :: l.
Proof.
  induction l as [|y l IH]; [done|]. cbn [insert_entry]. case_match; [done|]. rewrite IH. apply Permutation_swap.
Qed.

Lemma btree_entries_perm {A} (m : gmap bytes A) : btree_entries m ≡ₚ map_to_list m.
Proof.
  unfold btree_entries. induction (map_to_list m) as [|x l IH]; [done|]. cbn [foldr]. by rewrite insert_entry_perm, IH.
Qed.

Lemma elem_of_btree_entries {A} (m : gmap bytes A) k a : (k, a) ∈ btree_entries m ↔ m !! k = Some a.
Proof. rewrite btree_entries_perm. apply elem_of_map_to_list. Qed.

(** The entries of a map, with what is computed of them *)
Lemma map_get_elem {A B} (f : bytes * A → B) l k a :
  NoDup l.*1 → (k, a) ∈ l → map_get k ((λ x, (x.1, f x)) <$> l) = Some (f (k, a)).
Proof.
  unfold map_get. induction l as [|[k' a'] l IH]; [by intros _ []%elem_of_nil|]. rewrite fmap_cons.
  intros (Hk & Hnd)%NoDup_cons Hin. rewrite fmap_cons. simpl. case_decide as Hd; simpl in Hd.
  - subst. apply elem_of_cons in Hin as [[= ->]|Hin]; [done|]. destruct Hk. apply list_elem_of_fmap. by exists (k, a).
  - apply elem_of_cons in Hin as [[= -> ->]|Hin]; [done|]. specialize (IH Hnd Hin).
    by destruct (list_find _ (_ <$> l)) as [[? [? ?]]|].
Qed.

Lemma map_get_map {A B} (f : bytes * A → B) (m : gmap bytes A) k :
  map_get k ((λ x, (x.1, f x)) <$> map_to_list m) = (λ a, f (k, a)) <$> m !! k.
Proof.
  destruct (m !! k) as [a|] eqn:Hk.
  - apply map_get_elem; [apply NoDup_fst_map_to_list|by apply elem_of_map_to_list].
  - unfold map_get. assert (list_find (λ x, x.1 = k) ((λ x, (x.1, f x)) <$> map_to_list m) = None) as ->; [|done].
    apply list_find_None, Forall_fmap, Forall_forall. intros [k' a] Hin%elem_of_map_to_list Heq. simpl in Heq.
    congruence.
Qed.

Section resources.
Context `{Host} (parse_version : bytes → option Version).
(** [ResourceType::host] of a type *)
Context (host_ty : string → ResourceType).

(** An entry of the table for the resource of an instance *)
Definition applies (e : Bound * Bound * string * string) (instance name : bytes) : bool :=
  let '(start, stop, resource, _) := e in
  above start instance && below stop instance && is_linked parse_version instance && bool_decide (str resource = name).

(** The resources of an entry, in the order of the instances *)
Definition entry_resources (host_resources : gmap bytes (gmap bytes ResourceType)) (e : Bound * Bound * string * string) :
    list (ResourceType * ResourceType) :=
  let '(start, stop, name, host) := e in
  omap (λ x, if above start x.1 && below stop x.1 && is_linked parse_version x.1
             then (λ ty, (ty, host_ty host)) <$> x.2 !! str name else None) (btree_entries host_resources).

Definition linked_resources (host_resources : gmap bytes (gmap bytes ResourceType)) : list (ResourceType * ResourceType) :=
  LINKED_RESOURCES ≫= entry_resources host_resources.

(** [find_map] and [unwrap_or_else] *)
Definition resource_host_ty (linked : list (ResourceType * ResourceType)) (ty : ResourceType) : ResourceType :=
  match list_find (λ x, x.1 = ty) linked with Some (_, (_, host)) => host | None => host_remote end.

Definition host_resources_of (host_resources : gmap bytes (gmap bytes ResourceType)) :
    list (bytes * list (bytes * (ResourceType * ResourceType))) :=
  let linked := linked_resources host_resources in
  (λ x, (x.1, (λ r, (r.1, (r.2, resource_host_ty linked r.2))) <$> map_to_list x.2)) <$> map_to_list host_resources.

(** The loop which links the imports: those which are not linked, the errors of
    which are logged *)
Definition link_import `{!RpcHost} `{!Linker} (host_resources : list (bytes * list (bytes * (ResourceType * ResourceType))))
    (L : linker) (import : bytes * ComponentItem ResourceType) : linker :=
  if is_linked parse_version import.1 then L else (link_item host_resources [] import.2 [] import.1 L).2.

(** [instantiate_pre], for a component with the imports; the linker has the
    interfaces of WASI and [wrpc:rpc] already. *)
Definition instantiate_pre `{!RpcHost} `{!Linker} (imports : list (bytes * ComponentItem ResourceType)) (L : linker) :
    linker * list (bytes * list (bytes * (ResourceType * ResourceType))) :=
  let host_resources := host_resources_of (collect_component_resource_imports imports ∅) in
  (foldl (link_import host_resources) L imports, host_resources).

(** *** Types of resources *)

(** Whether the ranges of two entries for a resource of the same name are apart *)
Definition entries_apart (e e' : Bound * Bound * string * string) : bool :=
  let '(start, stop, name, _) := e in
  let '(start', stop', name', _) := e' in
  negb (bool_decide (name = name')) || apart stop start' || apart stop' start.

Lemma table_apart :
  forallb (λ i, forallb (λ j, (i =? j) ||
    match LINKED_RESOURCES !! i, LINKED_RESOURCES !! j with Some e, Some e' => entries_apart e e' | _, _ => true end)
    (seq 0 (length LINKED_RESOURCES))) (seq 0 (length LINKED_RESOURCES)) = true.
Proof. vm_compute. reflexivity. Qed.

Lemma str_inj s t : str s = str t → s = t.
Proof. unfold str. intros Heq%(f_equal string_of_list_byte). by rewrite !string_of_list_byte_of_string in Heq. Qed.

(** A resource of an instance has at most one entry of the table. *)
Lemma linked_resource_unique i j e e' instance name :
  LINKED_RESOURCES !! i = Some e → LINKED_RESOURCES !! j = Some e' →
  applies e instance name = true → applies e' instance name = true → i = j.
Proof.
  intros Hi Hj He He'. pose proof table_apart as Ht. rewrite forallb_forall in Ht.
  pose proof (lookup_lt_Some _ _ _ Hi). pose proof (lookup_lt_Some _ _ _ Hj).
  specialize (Ht i ltac:(apply in_seq; lia)). rewrite forallb_forall in Ht. specialize (Ht j ltac:(apply in_seq; lia)).
  rewrite Hi, Hj in Ht. apply orb_true_iff in Ht as [->%Nat.eqb_eq|Ht]; [done|].
  destruct e as [[[start stop] r] h], e' as [[[start' stop'] r'] h']. cbn [applies entries_apart] in *.
  rewrite !andb_true_iff, bool_decide_eq_true in He, He'. destruct He as (((Ha & Hb) & _) & Hn), He' as (((Ha' & Hb') & _) & Hn').
  rewrite <- Hn' in Hn. apply str_inj in Hn. rewrite bool_decide_true in Ht by done.
  apply orb_true_iff in Ht as [Ht|Ht]; [cbn in Ht|].
  - by destruct (apart_spec _ _ _ Ht Hb Ha').
  - by destruct (apart_spec _ _ _ Ht Hb' Ha).
Qed.

Definition entry_host (e : Bound * Bound * string * string) : string := e.2.

Lemma elem_of_linked_resources m ty h :
  (ty, h) ∈ linked_resources m ↔
  ∃ e i n, e ∈ LINKED_RESOURCES ∧ applies e i n = true ∧ m !! i ≫= lookup n = Some ty ∧ h = host_ty (entry_host e).
Proof.
  unfold linked_resources. rewrite list_elem_of_bind. split.
  - intros (e & Hin & He). destruct e as [[[start stop] r] host]. cbn [entry_resources] in Hin.
    apply list_elem_of_omap in Hin as ([i res] & Hin%elem_of_btree_entries & Hx). cbn [fst snd] in Hx.
    destruct (above start i && below stop i && is_linked parse_version i) eqn:Hb; [|done].
    apply fmap_Some in Hx as (ty' & Hr & [= -> ->]). exists (start, stop, r, host), i, (str r).
    split_and!; [done|..|done]; [|by rewrite Hin]. cbn [applies]. by rewrite Hb, bool_decide_true.
  - intros (e & i & n & He & Ha & Hm & ->). exists e. split; [|done]. destruct e as [[[start stop] r] host].
    cbn [applies entry_resources] in *. apply andb_true_iff in Ha as (Hb & ->%bool_decide_eq_true).
    apply bind_Some in Hm as (res & Hi & Hr). apply list_elem_of_omap. exists (i, res).
    split; [by apply elem_of_btree_entries|]. cbn [fst snd]. by rewrite Hb, Hr.
Qed.

(** What the type of the host of a resource is *)
Definition host_typed (imports : list (bytes * ComponentItem ResourceType)) (ty h : ResourceType) : Prop :=
  (∃ e i n, e ∈ LINKED_RESOURCES ∧ applies e i n = true ∧ imported imports i n ty ∧ h = host_ty (entry_host e)) ∨
  h = host_remote ∧ ∀ e i n, e ∈ LINKED_RESOURCES → imported imports i n ty → applies e i n = false.

Lemma resource_host_ty_spec imports ty :
  names_unique imports →
  host_typed imports ty (resource_host_ty (linked_resources (collect_component_resource_imports imports ∅)) ty).
Proof.
  intros Hu. unfold resource_host_ty.
  destruct (list_find _ _) as [[k [ty' h]]|] eqn:Hf; [left|right].
  - apply list_find_Some in Hf as (Hk & Heq & _). cbn in Heq. subst ty'. apply list_elem_of_lookup_2 in Hk.
    apply elem_of_linked_resources in Hk as (e & i & n & ? & ? & Hm & ?). exists e, i, n.
    split_and!; try done. by apply resource_imports_collected'.
  - split; [done|]. intros e i n He Him. destruct (applies e i n) eqn:Ha; [|done].
    apply list_find_None, Forall_forall with (x := (ty, host_ty (entry_host e))) in Hf; [done|].
    apply elem_of_linked_resources. exists e, i, n. split_and!; try done. by apply resource_imports_collected'.
Qed.

(** The types of the imported resources *)
Lemma host_resource_of imports i n ty :
  names_unique imports → imported imports i n ty →
  ∃ h, host_resource (host_resources_of (collect_component_resource_imports imports ∅)) i n = Some (ty, h) ∧
    host_typed imports ty h.
Proof.
  intros Hu Him. eexists. split; [|by apply resource_host_ty_spec]. unfold host_resource, host_resources_of.
  apply resource_imports_collected' in Him; [|done]. apply bind_Some in Him as (res & Hres & Hty).
  generalize (linked_resources (collect_component_resource_imports imports ∅)). intros linked.
  rewrite (map_get_map (λ x, (λ r, (r.1, (r.2, resource_host_ty linked r.2))) <$> map_to_list x.2)), Hres.
  cbn [fmap option_fmap option_map mbind option_bind snd].
  rewrite (map_get_map (λ r, (r.2, resource_host_ty linked r.2))), Hty. done.
Qed.

(** *** Linking imports *)

Context `{!RpcHost} `{!Linker} {HLL : LinkerLaws}.

(** The items which are linked: functions, types and resources, in an instance or
    not *)
Definition plain_item (ty : ComponentItem ResourceType) : bool :=
  match ty with ComponentFunc _ _ _ | Type__ | Resource_ _ => true | _ => false end.
Definition plain_import (ty : ComponentItem ResourceType) : bool :=
  match ty with ComponentInstance es => forallb (λ x, plain_item x.2) es | _ => plain_item ty end.

Lemma resource_supported imports i n ty :
  names_unique imports → imported imports i n ty →
  supported (host_resources_of (collect_component_resource_imports imports ∅)) i n (Resource_ ty) = true.
Proof.
  intros Hu Him. destruct (host_resource_of imports i n ty Hu Him) as (h & Hh & _). cbn [supported]. rewrite Hh.
  by apply bool_decide_true.
Qed.

Lemma plain_supported imports name ty :
  names_unique imports → (name, ty) ∈ imports → plain_import ty = true →
  supported (host_resources_of (collect_component_resource_imports imports ∅)) [] name ty = true.
Proof.
  intros Hu Hin Hp. destruct ty as [| | | |es| |ty]; try done.
  - cbn [supported plain_import] in *. rewrite forallb_forall in Hp |- *. intros [n item] Hx. specialize (Hp _ Hx).
    destruct item; try done. apply resource_supported; [done|]. right. exists es. split; [done|]. by apply list_elem_of_In.
  - apply resource_supported; [done|]. by left.
Qed.

Lemma link_import_spec host_resources L name ty :
  (∀ p n d, defined (link_import host_resources L (name, ty)) p n = Some d →
     is_linked parse_version name = false ∧ polyfilled host_resources [] [] name ty p n d ∨ defined L p n = Some d) ∧
  (∀ p n d, defined L p n = Some d → defined (link_import host_resources L (name, ty)) p n = Some d) ∧
  (is_linked parse_version name = false → (link_item host_resources [] ty [] name L).1 = Ok tt →
   ∀ p n d, polyfilled host_resources [] [] name ty p n d →
     defined (link_import host_resources L (name, ty)) p n = Some d).
Proof.
  pose proof (links_all host_resources ty [] [] name L) as Hl. unfold link_import. cbn [fst snd].
  destruct (is_linked parse_version name); [split_and!; [by right|done|done]|].
  destruct (link_item host_resources [] ty [] name L) as [r L1]. destruct Hl as (Hl1 & Hl2 & Hl3).
  split_and!; [|done|by auto]. intros p n d [?|?]%Hl1; [by left|by right].
Qed.

Lemma link_imports_spec host_resources imports L :
  let L' := foldl (link_import host_resources) L imports in
  (∀ p n d, defined L' p n = Some d →
     (∃ name ty, (name, ty) ∈ imports ∧ is_linked parse_version name = false ∧
        polyfilled host_resources [] [] name ty p n d) ∨ defined L p n = Some d) ∧
  (∀ p n d, defined L p n = Some d → defined L' p n = Some d).
Proof.
  revert L. induction imports as [|[name ty] imports IH]; intros L; cbn [foldl]; [split; [by right|done]|].
  destruct (link_import_spec host_resources L name ty) as (Hl1 & Hl2 & _).
  destruct (IH (link_import host_resources L (name, ty))) as (IH1 & IH2). split.
  - intros p n d [(name' & ty' & ? & ?)|[(? & ?)|?]%Hl1]%IH1; [left; exists name', ty'|left; exists name, ty|by right];
      (split_and!; [by constructor|naive_solver..]).
  - intros p n d Hd. by apply IH2, Hl2.
Qed.

(** [C15] The imports of a component are linked: the linker of [instantiate_pre] has
    no definitions but those it had and those of imports which are not linked by
    their names; an import of functions, types and resources is not refused
    but by the linker, and has all its definitions then; and each imported
    resource has the type of the host which the table has for it, or that of remote
    resources. *)
Theorem imports_linked imports L :
  names_unique imports →
  let '(L', host_resources) := instantiate_pre imports L in
  (∀ p n d, defined L' p n = Some d →
     (∃ name ty, (name, ty) ∈ imports ∧ is_linked parse_version name = false ∧
        polyfilled host_resources [] [] name ty p n d) ∨ defined L p n = Some d) ∧
  (∀ p n d, defined L p n = Some d → defined L' p n = Some d) ∧
  (∀ i n ty, imported imports i n ty → ∃ h, host_resource host_resources i n = Some (ty, h) ∧ host_typed imports ty h) ∧
  ∀ before name ty after, imports = before ++ (name, ty) :: after →
    is_linked parse_version name = false → plain_import ty = true →
    match (link_item host_resources [] ty [] name (foldl (link_import host_resources) L before)).1 with
    | Ok _ => ∀ p n d, polyfilled host_resources [] [] name ty p n d → defined L' p n = Some d
    | Err e => e = LinkRefused
    end.
Proof.
  intros Hu. unfold instantiate_pre. set (host_resources := host_resources_of _).
  destruct (link_imports_spec host_resources imports L) as (Hd1 & Hd2). split_and!; [done|done| |].
  { intros i n ty Him. by apply host_resource_of. }
  intros before name ty after Heq Hl Hp.
  assert (supported host_resources [] name ty = true) as Hs by (apply plain_supported; [done|set_solver|done]).
  pose proof (link_item_supported host_resources [] ty [] name (foldl (link_import host_resources) L before)) as Ht.
  rewrite Hs in Ht. set (L1 := foldl _ L before) in *.
  destruct (link_import_spec host_resources L1 name ty) as (_ & _ & Hl3). specialize (Hl3 Hl).
  destruct (link_item host_resources [] ty [] name L1).1 as [[]|[]]; try done.
  intros p n d Hpf. rewrite Heq, foldl_app. cbn [foldl]. by apply link_imports_spec, Hl3.
Qed.

End resources.

(** ** Serving *)

(** A loop over the items of a component or instance *)
Fixpoint each {S E RT} (f : bytes → ComponentItem RT → ST S E unit) (items : list (bytes * ComponentItem RT)) :
    ST S E unit :=
  match items with
  | [] => ret tt
  | (name, ty) :: items => let! _ := f name ty in each f items
  end.

Section serve.
Context `{RpcHost} {Idx : Type} (get_export_index : option Idx → bytes → option Idx) {C O : Type}.
Abbreviation Ty := (WasmCodec.Type_ ResourceType).
Abbreviation Item := (ComponentItem ResourceType).

(** The tasks of [handlers]: the event loop of a shared store, and
    [handle_invocations] of the invocations of a function *)
Inductive Handler := EventLoop | Invocations (served : Served (Idx := Idx)).

(** The tasks which were spawned and the server *)
Definition Serving (A : Type) : Type := ST (list Handler * Server C O) ServeError A.

Definition spawn (h : Handler) : Serving unit := λ s, (Ok tt, (s.1 ++ [h], s.2)).

Definition spawn_invocations (f : Server C O → result ServeError Served * Server C O) : Serving unit := λ s,
  let '(r, srv) := f s.2 in
  match r with
  | Ok served => spawn (Invocations served) (s.1, srv)
  | Err e => (Err e, (s.1, srv))
  end.

Definition export_index (parent : option Idx) (name : bytes) : Serving Idx :=
  match get_export_index parent name with Some idx => ret idx | None => fail (ExportNotFound name) end.

(** [serve_stateless], for a component with the imports and exports *)
Definition serve_stateless (imports exports : list (bytes * Item)) : Serving unit :=
  each (λ name ty,
    match ty with
    | ComponentFunc _ params _ => spawn_invocations (serve_function get_export_index imports params [] name)
    | ComponentInstance exports =>
        each (λ name' ty,
          match ty with
          | ComponentFunc _ params _ => spawn_invocations (serve_function get_export_index imports params name name')
          | CoreFunc | Module_ | Component _ _ | ComponentInstance _ | Type__ | Resource_ _ => ret tt
          end) exports
    | CoreFunc | Module_ | Component _ _ | Type__ | Resource_ _ => ret tt
    end) exports.

(** [serve_shared]: the body of the loop over the exports *)
Definition serve_shared_export (types : ResourceTypes) (name : bytes) (ty : Item) : Serving unit :=
  match ty with
  | ComponentFunc _ params _ =>
      let! idx := export_index None name in
      spawn_invocations (serve_function_shared idx types params [] name)
  | ComponentInstance exports =>
      let! instance_idx := export_index None name in
      each (λ name' ty,
        match ty with
        | ComponentFunc _ params _ =>
            let! idx := export_index (Some instance_idx) name' in
            spawn_invocations (serve_function_shared idx types params name name')
        | CoreFunc | Module_ | Component _ _ | ComponentInstance _ | Type__ | Resource_ _ => ret tt
        end) exports
  | CoreFunc | Module_ | Component _ _ | Type__ | Resource_ _ => ret tt
  end.

(** [instantiated] is that the component can be instantiated. *)
Definition serve_shared (instantiated : bool) (guest_resources : list ResourceType) (imports exports : list (bytes * Item)) :
    Serving unit :=
  let! _ := if instantiated then ret tt else fail InstantiateFailed in
  let types := mkResourceTypes guest_resources (wasi_io_stream_resources imports) in
  let! _ := spawn EventLoop in
  each (serve_shared_export types) exports.

(** [serve]: the store is shared if the component exports resources. *)
Definition serve (instantiated : bool) (imports exports : list (bytes * Item)) (srv : Server C O) :
    result ServeError (list Handler) * Server C O :=
  let guest_resources := collect_exports exports [] in
  let '(r, (handlers, srv)) :=
    match guest_resources with
    | [] => serve_stateless imports exports ([], srv)
    | _ => serve_shared instantiated guest_resources imports exports ([], srv)
    end in
  (let? _ := r in Ok handlers, srv).

(** *** Specification *)

(** The functions which are served: instances, names and types of parameters *)
Definition item_functions (instance name : bytes) (ty : Item) : list (bytes * bytes * list Ty) :=
  match ty with ComponentFunc _ params _ => [(instance, name, params)] | _ => [] end.
Definition export_functions (name : bytes) (ty : Item) : list (bytes * bytes * list Ty) :=
  match ty with
  | ComponentInstance exports => exports ≫= λ x, item_functions name x.1 x.2
  | _ => item_functions [] name ty
  end.
Definition exported_functions (exports : list (bytes * Item)) : list (bytes * bytes * list Ty) :=
  exports ≫= λ x, export_functions x.1 x.2.

(** The name a function is invoked by *)
Definition invoked_name (f : bytes * bytes * list Ty) : bytes * bytes := (f.1.1, rpc_func_name f.1.2).

(** The index of a function of an instance *)
Definition function_index (instance name : bytes) : option Idx :=
  match instance with
  | [] => get_export_index None name
  | _ => idx ← get_export_index None instance; get_export_index (Some idx) name
  end.

(** The exports are found, and no instance has the empty name. *)
Definition exports_indexed (exports : list (bytes * Item)) : Prop :=
  ∀ name ty, (name, ty) ∈ exports →
    match ty with
    | ComponentFunc _ _ _ => is_Some (get_export_index None name)
    | ComponentInstance es =>
        name ≠ [] ∧ ∃ idx, get_export_index None name = Some idx ∧
          ∀ name' a ps rs, (name', ComponentFunc a ps rs) ∈ es → is_Some (get_export_index (Some idx) name')
    | _ => True
    end.

(** The function has a task, for its channel in the server. *)
Definition function_served (types : ResourceTypes) (srv : Server C O) (f : bytes * bytes * list Ty) (h : Handler) : Prop :=
  ∃ served, h = Invocations served ∧ handler srv f.1.1 (rpc_func_name f.1.2) = Some (sv_chan served) ∧
    srv_chans srv !! sv_chan served = Some [] ∧ function_index f.1.1 f.1.2 = Some (sv_idx served) ∧
    sv_types served = types ∧ sv_paths served = async_paths_of types f.2.

(** What a computation does which serves functions *)
Definition serves (types : ResourceTypes) (m : Serving unit) (fs : list (bytes * bytes * list Ty)) : Prop :=
  ∀ hs srv, server_wf srv → NoDup (invoked_name <$> fs) →
    (∀ i n, (i, n) ∈ invoked_name <$> fs → handler srv i n = None) →
    ∃ hs' srv', m (hs, srv) = (Ok tt, (hs ++ hs', srv')) ∧ server_wf srv' ∧ srv_header srv' = srv_header srv ∧
      Forall2 (function_served types srv') fs hs' ∧
      (∀ i n, (i, n) ∉ invoked_name <$> fs → handler srv' i n = handler srv i n) ∧
      (∀ c queue, srv_chans srv !! c = Some queue → srv_chans srv' !! c = Some queue).

Lemma serves_nil types : serves types (ret tt) [].
Proof. intros hs srv Hwf _ _. exists [], srv. rewrite app_nil_r. split_and!; try done. Qed.

Lemma Forall2_impl_elem {A B} (P Q : A → B → Prop) l k :
  Forall2 P l k → (∀ x y, x ∈ l → P x y → Q x y) → Forall2 Q l k.
Proof.
  induction 1 as [|x y l k Hx _ IH]; intros Hi; constructor; [apply Hi; [by constructor|done]|].
  apply IH. intros x' y' Hin. apply Hi. by constructor.
Qed.

Lemma serves_app types m k fs gs :
  serves types m fs → serves types k gs → serves types (let! _ := m in k) (fs ++ gs).
Proof.
  intros Hm Hk hs srv Hwf Hnd Hnone. rewrite fmap_app in Hnd, Hnone. apply NoDup_app in Hnd as (Hf & Hfg & Hg).
  destruct (Hm hs srv Hwf Hf) as (h1 & srv1 & E1 & Hwf1 & Hh1 & F1 & N1 & C1); [set_solver|].
  destruct (Hk (hs ++ h1) srv1 Hwf1 Hg) as (h2 & srv2 & E2 & Hwf2 & Hh2 & F2 & N2 & C2).
  { intros i n Hin. rewrite N1; [apply Hnone; set_solver|]. intros Hx. by apply (Hfg (i, n)). }
  exists (h1 ++ h2), srv2. unfold bind. rewrite E1, E2, (assoc_L (++)). split_and!; [done|done|congruence|..].
  - apply Forall2_app; [|done]. apply (Forall2_impl_elem _ _ _ _ F1). intros f h Hin (served & ? & Hh & Hc & ?).
    exists served. split_and!; [done| |by apply C2|naive_solver..]. rewrite N2; [done|]. apply (Hfg (invoked_name f)).
    by apply list_elem_of_fmap_2.
  - intros i n Hx. rewrite fmap_app, not_elem_of_app in Hx. rewrite N2, N1; naive_solver.
  - auto.
Qed.

Lemma serves_each types f items (fs : bytes → Item → list (bytes * bytes * list Ty)) :
  (∀ name ty, (name, ty) ∈ items → serves types (f name ty) (fs name ty)) →
  serves types (each f items) (items ≫= λ x, fs x.1 x.2).
Proof.
  induction items as [|[name ty] items IH]; intros Hf; [apply serves_nil|]. cbn [each]. rewrite bind_cons.
  apply serves_app; [apply Hf; by constructor|]. apply IH. intros name' ty' Hin. apply Hf. by constructor.
Qed.

(** Serving a function by an operation which succeeds if the function is not
    served *)
Lemma serves_function types op i n ps idx :
  function_index i n = Some idx →
  (∀ srv, op srv = (let '(c, srv') := serve_paths srv i n in
                    (let? c := c in Ok (mkServed c idx types (async_paths_of types ps)), srv'))) →
  serves types (spawn_invocations op) [(i, n, ps)].
Proof.
  intros Hidx Hop hs srv Hwf _ Hnone. unfold spawn_invocations, spawn. cbn [fst snd]. rewrite Hop. unfold serve_paths.
  pose proof (serve_registers srv i (rpc_func_name n) Hwf) as Hr.
  rewrite (Hnone i (rpc_func_name n)) in Hr by (by left).
  assert (srv_header (Server_serve srv i (rpc_func_name n)).2 = srv_header srv) as Hhd
    by (unfold Server_serve; by destruct (_ !! _)).
  destruct (Server_serve srv i (rpc_func_name n)) as [r srv']. destruct Hr as (Hwf' & -> & Hc & Hh & Hhs & Hcs).
  cbn [ok_or rbind]. eexists [_], srv'. split_and!; [done|done|done|..].
  - constructor; [|constructor]. eexists. split; [done|]. cbn. by split_and!.
  - intros i' n' Hx. apply Hhs. intros (-> & ->). by apply Hx; left.
  - intros c queue Hq. rewrite Hcs; [done|]. intros ->. pose proof (srv_chan_bound srv Hwf (srv_fresh srv)) as Hb.
    rewrite Hq in Hb. specialize (Hb ltac:(eauto)). lia.
Qed.

Lemma serve_stateless_serves imports exports :
  exports_indexed exports →
  serves (mkResourceTypes [] (wasi_io_stream_resources imports)) (serve_stateless imports exports)
    (exported_functions exports).
Proof.
  intros Hix. apply (serves_each _ _ _ export_functions). intros name ty Hin. specialize (Hix name ty Hin).
  destruct ty as [a ps rs| | | |es| |]; try apply serves_nil.
  - destruct Hix as (idx & Hix). apply (serves_function _ _ [] name ps idx); [done|]. intros srv.
    unfold serve_function. cbn [rbind]. by rewrite Hix.
  - destruct Hix as (Hne & j & Hj & Hix). apply (serves_each _ _ _ (item_functions name)). intros name' ty' Hin'.
    destruct ty' as [a ps rs| | | | | |]; try apply serves_nil. destruct (Hix _ _ _ _ Hin') as (idx & Hidx).
    apply (serves_function _ _ name name' ps idx).
    + unfold function_index. destruct name; [done|]. by rewrite Hj.
    + intros srv. unfold serve_function. destruct name; [done|]. by rewrite Hj; cbn; rewrite Hidx.
Qed.

Lemma serves_bind types (m : Serving Idx) k fs idx :
  (∀ s, m s = (Ok idx, s)) → serves types (k idx) fs → serves types (let! idx := m in k idx) fs.
Proof. intros Hm Hk hs srv. unfold bind. rewrite Hm. apply Hk. Qed.

Lemma export_index_found parent name idx s : get_export_index parent name = Some idx → export_index parent name s = (Ok idx, s).
Proof. unfold export_index. by intros ->. Qed.

Lemma serve_shared_serves types exports :
  exports_indexed exports → serves types (each (serve_shared_export types) exports) (exported_functions exports).
Proof.
  intros Hix. apply (serves_each _ _ _ export_functions). intros name ty Hin. specialize (Hix name ty Hin).
  destruct ty as [a ps rs| | | |es| |]; try apply serves_nil.
  - destruct Hix as (idx & Hix). eapply serves_bind; [intros s; by apply export_index_found|].
    by apply (serves_function _ _ [] name ps idx).
  - destruct Hix as (Hne & j & Hj & Hix). eapply serves_bind; [intros s; by apply export_index_found|].
    apply (serves_each _ _ _ (item_functions name)). intros name' ty' Hin'.
    destruct ty' as [a ps rs| | | | | |]; try apply serves_nil. destruct (Hix _ _ _ _ Hin') as (idx & Hidx).
    eapply serves_bind; [intros s; by apply export_index_found|]. apply (serves_function _ _ name name' ps idx); [|done].
    unfold function_index. destruct name; [done|]. by rewrite Hj.
Qed.

(** The types of resources and the tasks besides those of functions *)
Definition served_types (imports exports : list (bytes * Item)) : ResourceTypes :=
  mkResourceTypes (collect_exports exports []) (wasi_io_stream_resources imports).
Definition first_tasks (exports : list (bytes * Item)) : list Handler :=
  match collect_exports exports [] with [] => [] | _ => [EventLoop] end.

Lemma serve_serves imports exports srv :
  exports_indexed exports → server_wf srv → NoDup (invoked_name <$> exported_functions exports) →
  (∀ i n, (i, n) ∈ invoked_name <$> exported_functions exports → handler srv i n = None) →
  ∃ hs srv', serve true imports exports srv = (Ok (first_tasks exports ++ hs), srv') ∧
    srv_header srv' = srv_header srv ∧
    Forall2 (function_served (served_types imports exports) srv') (exported_functions exports) hs ∧
    (∀ i n, (i, n) ∉ invoked_name <$> exported_functions exports → handler srv' i n = handler srv i n).
Proof.
  intros Hix Hwf Hnd Hnone. unfold serve, first_tasks, served_types. destruct (collect_exports exports []) as [|r rs].
  - destruct (serve_stateless_serves imports exports Hix [] srv Hwf Hnd Hnone)
      as (hs & srv' & -> & _ & Hhd & Hfs & Hh & _). exists hs, srv'. by split_and!.
  - destruct (serve_shared_serves (mkResourceTypes (r :: rs) (wasi_io_stream_resources imports)) exports Hix
      [EventLoop] srv Hwf Hnd Hnone) as (hs & srv' & E & _ & Hhd & Hfs & Hh & _).
    exists hs, srv'. unfold serve_shared, bind, spawn, ret. cbn [fst snd app]. rewrite E. by split_and!.
Qed.

Context `{Leb128, CoreName, ValueWire, PrimCodec} {HL : Leb128Laws} {HN : CoreNameLaws}.

(** [C16] A component is served: if its exports are found, and the names its
    functions are invoked by are different and not served, [serve] succeeds with a
    task for each exported function of the component and of the instances it
    exports, besides the event loop of a shared store if it exports
    resources.  The task of a function has the index of its export and the paths
    of its parameters, and a connection of an invocation of the function,
    with whatever parameters and frames, is queued for this task.  Other
    functions are served as before. *)
Theorem exports_served imports exports srv :
  exports_indexed exports → server_wf srv → NoDup (invoked_name <$> exported_functions exports) →
  (∀ i n, (i, n) ∈ invoked_name <$> exported_functions exports → handler srv i n = None) →
  ∃ hs srv', serve true imports exports srv = (Ok (first_tasks exports ++ hs), srv') ∧
    (∀ i n, (i, n) ∉ invoked_name <$> exported_functions exports → handler srv' i n = handler srv i n) ∧
    Forall2 (λ '(instance, name, params_ty) h, ∃ served, h = Invocations served ∧
      function_index instance name = Some (sv_idx served) ∧
      sv_paths served = async_paths_of (served_types imports exports) params_ty ∧
      ∀ cx tx params fs out written,
        utf8_valid instance = true → utf8_valid (rpc_func_name name) = true →
        (len instance ≤ hd_max_instance_len (srv_header srv) ≤ u32_MAX)%N →
        (len (rpc_func_name name) ≤ hd_max_name_len (srv_header srv) ≤ u32_MAX)%N → (len params ≤ u32_MAX)%N →
        invoke (λ w b, Ok (w ++ b)) instance (rpc_func_name name) params = Ok (out, written) →
        ∃ srv'', Server_accept srv' cx tx (written ++ stream fs) = Accepted srv'' ∧
          srv_chans srv'' !! sv_chan served =
            Some [(cx, stream ((if decide (params = []) then [] else [mkFrame [] params]) ++ fs), tx)])
      (exported_functions exports) hs.
Proof.
  intros Hix Hwf Hnd Hnone. destruct (serve_serves imports exports srv Hix Hwf Hnd Hnone) as (hs & srv' & E & Hhd & Hfs & Hh).
  exists hs, srv'. split_and!; [done|done|]. apply (Forall2_impl_elem _ _ _ _ Hfs).
  intros [[i n] ps] h _ (served & -> & Hhi & Hc & Hidx & Ht & Hp). exists served. split_and!; [done..|].
  intros cx tx params fs out written Hu1 Hu2 (Hl1 & Hm1) (Hl2 & Hm2) Hlen Hinv. eexists. split.
  { apply (accept_invocation srv' cx tx i (rpc_func_name n) params fs out written (sv_chan served) []);
      rewrite ?Hhd; try done. apply Nat.lt_0_succ. }
  cbn [srv_chans]. by rewrite lookup_insert_eq.
Qed.

End serve.
