(* ===== verification/WasmCliStd.v ===== *)
(** * Witnesses of the host of components

    A component which imports a resource of WASI and an interface which is
    polyfilled, and exports an interface. *)

From Stdlib Require Import String.
From S2P Require Import Prelude Wire FrameCodec Prims Wave Subscriptions Resolve SubsInv Conn Delivery Egress Server.
From S2P Require Import Introspect Encode Pack Decode Values ValuesStd Transmit Declared Resume Receive Exchange ExchangeStd.
From S2P Require Import WasmCodec WasmValues WasmExchange WasmPaths WasmPlain WasmCall WasmLink WasmServe WasmStd WasmLinkStd.
From S2P Require Import WasmCli.

#[local] Existing Instance test_host.
#[local] Existing Instance test_rpc.
#[local] Existing Instance test_linker.
#[local] Existing Instance test_linker_laws.

(** ** Linking *)

Definition test_version (v : bytes) : option Version :=
  if decide (v = str "0.2.0") then Some (mkVersion 0 2 0 [] []) else None.
Definition test_host_ty (ty : string) : ResourceType := String.length ty.

Definition streams_name : bytes := str "wasi:io/streams@0.2.0".
Definition cli_imports : list (bytes * ComponentItem ResourceType) :=
  (streams_name, ComponentInstance [(input_stream_name, Resource_ 7)]) :: test_imports.

(** The streams are linked, and the type of the host is that of the table. *)
Lemma cli_linked :
  (is_linked test_version <$> cli_imports.*1) = [true; false] ∧
  host_resource (instantiate_pre test_version test_host_ty cli_imports empty_linker).2 streams_name input_stream_name =
    Some (7, test_host_ty "wasmtime_wasi::p2::bindings::io::streams::InputStream").
Proof. split; vm_compute; reflexivity. Qed.

Lemma imports_linked_witness :
  defined (instantiate_pre test_version test_host_ty cli_imports empty_linker).1 [link_instance_name] link_func_name =
    Some (LinkedFunc link_instance_name link_func_name false [Type_U32] [Type_Own 5]) ∧
  ∃ h, host_resource (instantiate_pre test_version test_host_ty cli_imports empty_linker).2 streams_name
         input_stream_name = Some (7, h) ∧ host_typed test_version test_host_ty cli_imports 7 h.
Proof.
  assert (names_unique cli_imports) as Hu.
  { split; [apply (bool_decide_unpack _); vm_compute; exact I|].
    intros i es [[= -> ->]|[= -> ->]%list_elem_of_singleton]%elem_of_cons;
      (split; [done|apply (bool_decide_unpack _); vm_compute; exact I]). }
  pose proof (imports_linked test_version test_host_ty cli_imports empty_linker Hu) as Hl.
  unfold instantiate_pre in Hl |- *. cbn [fst snd]. cbv zeta iota in Hl. destruct Hl as (_ & _ & Him & Hdef). split.
  - specialize (Hdef [(streams_name, ComponentInstance [(input_stream_name, Resource_ 7)])] _ _ [] eq_refl
      ltac:(vm_compute; reflexivity) ltac:(vm_compute; reflexivity)).
    match type of Hdef with match ?r with _ => _ end => assert (r = Ok tt) as Hok by (vm_compute; reflexivity) end.
    rewrite Hok in Hdef. apply Hdef.
    eapply (@polyfilled_instance test_host); [by right; left|]. apply (@polyfilled_func test_host).
  - apply Him. right. eexists. split; by left.
Defined.

(** ** Serving *)

(** The component exports an interface with a resource and a function. *)
Definition cli_exports : list (bytes * ComponentItem ResourceType) :=
  [(link_instance_name,
    ComponentInstance [(link_resource_name, Resource_ 9);
                       (link_func_name, ComponentFunc false [Type_Future (Some Type_U32)] [])])].

Lemma exports_served_witness :
  ∃ served srv, serve test_export_index true cli_imports cli_exports (Server_new (C := nat) (O := nat)) =
    (Ok [EventLoop; Invocations served], srv) ∧ sv_idx served = 1 ∧ sv_paths served = [[Some 0%N]] ∧
  ∃ srv', @Server_accept nat nat leb128_std srv 7 8
    ([x01; x03; x61; x3a; x62; x01; x66; x00; x01; x00] ++ @stream leb128_std [mkFrame [0%N] [x2a]]) = Accepted srv' ∧
    srv_chans srv' !! sv_chan served = Some [(7, @stream leb128_std [mkFrame [] [x00]; mkFrame [0%N] [x2a]], 8)].
Proof.
  destruct (@exports_served test_host test_rpc nat test_export_index nat nat leb128_std name_std leb128_std_laws
    name_std_laws cli_imports cli_exports Server_new) as (hs & srv & E & _ & Hf).
  - intros name ty [= -> ->]%list_elem_of_singleton. split; [done|]. exists 0. split; [reflexivity|].
    intros name' a ps rs [[=]|[= -> _ _ _]%list_elem_of_singleton]%elem_of_cons. by eexists.
  - apply server_wf_new.
  - apply NoDup_singleton.
  - done.
  - destruct hs as [|h [|h' hs]]; [by inversion Hf| |by apply Forall2_cons in Hf as (_ & Hf); inversion Hf].
    apply Forall2_cons in Hf as ((served & -> & Hidx & Hp & Hacc) & _).
    exists served, srv. split; [exact E|]. split; [by injection Hidx|]. split; [rewrite Hp; vm_compute; reflexivity|].
    apply (Hacc 7 8 [x00] [mkFrame [0%N] [x2a]] Outgoing_new [x01; x03; x61; x3a; x62; x01; x66; x00; x01; x00]);
      vm_compute; first [reflexivity|discriminate|split; discriminate].
Defined.
