(* ===== verification/Heck.v ===== *)
(** * Cases of identifiers

    The bindings generators of Rust and Go convert the case of names by the crate
    [heck], which is a parameter here with what it documents: a name is split into
    words, which are joined in the case.  The words of a name of WIT are those
    between its dashes, each of which is of lower case or an acronym.

    [heck_std] is an instance, for the names of WIT. *)

From stdpp Require Import pretty.
From S2P Require Import Prelude Subscriptions Resolve Introspect Wit JsNames.

Definition underscore : Ascii.ascii := Ascii.ascii_of_nat 95.

(** Letters of one case and digits *)
Definition cased_word (w : string) : bool :=
  negb (bool_decide (w = "")) &&
  (all_chars (λ c, is_lower c || is_digit c) w || all_chars (λ c, is_upper c || is_digit c) w).

Definition lower_case (w : string) : string := map_chars to_lower w.
Definition title_case (w : string) : string := capitalize (lower_case w).

(** [ToSnakeCase], [ToLowerCamelCase] and [ToUpperCamelCase] *)
Class Heck := {
  to_snake_case : string → string;
  to_lower_camel_case : string → string;
  heck_upper_camel_case : string → string
}.

Definition separator (sep : Ascii.ascii) : Prop := sep = dash ∨ sep = underscore.

Class HeckLaws `{Heck} : Prop := {
  heck_snake sep ws :
    separator sep → Forall (λ w, cased_word w = true) ws →
    to_snake_case (join (String sep "") ws) = join "_" (lower_case <$> ws);
  heck_lower_camel sep w ws :
    separator sep → Forall (λ w, cased_word w = true) (w :: ws) →
    to_lower_camel_case (join (String sep "") (w :: ws)) = lower_case w +:+ concat_str (title_case <$> ws);
  heck_upper_camel sep ws :
    separator sep → Forall (λ w, cased_word w = true) ws →
    heck_upper_camel_case (join (String sep "") ws) = concat_str (title_case <$> ws)
}.

(** ** The instance *)

(** The words between separators *)
Definition heck_words (s : string) : list string :=
  filter (λ w, w ≠ "") (split_on dash s ≫= split_on underscore).

#[export] Instance heck_std : Heck := {|
  to_snake_case s := join "_" (lower_case <$> heck_words s);
  to_lower_camel_case s :=
    match heck_words s with [] => "" | w :: ws => lower_case w +:+ concat_str (title_case <$> ws) end;
  heck_upper_camel_case s := concat_str (title_case <$> heck_words s)
|}.

Lemma cased_lacks sep w : separator sep → cased_word w = true → lacks sep w ∧ w ≠ "".
Proof.
  intros Hs [Hn Hw]%andb_prop. apply negb_true_iff, bool_decide_eq_false in Hn. split; [|done].
  assert (all_chars (λ c, negb (Ascii.eqb c dash || Ascii.eqb c underscore)) w = true) as Hc.
  { apply orb_prop in Hw as [Hw|Hw]; revert Hw; apply all_chars_impl, ascii_impl; by vm_compute. }
  clear Hn Hw. induction w as [|c w IH]; [done|]. cbn in *. apply andb_prop in Hc as [Hc Hw]. split; [|by apply IH].
  apply negb_true_iff, orb_false_iff in Hc as [H1 H2]. rewrite Ascii.eqb_neq in H1, H2. by destruct Hs as [-> | ->].
Qed.

Lemma join_split_on sep ws : ws ≠ [] → Forall (lacks sep) ws → split_on sep (join (String sep "") ws) = ws.
Proof.
  intros Hne Hl. destruct ws as [|w ws]; [done|]. clear Hne. revert w Hl.
  induction ws as [|v ws IH]; intros w [Hw Hws]%Forall_cons; [by apply split_on_lacks|].
  change (split_on sep (w +:+ (String sep (join (String sep "") (v :: ws)))) = w :: v :: ws).
  by rewrite split_on_app, IH.
Qed.

Lemma filter_words ws : Forall (λ w, cased_word w = true) ws → filter (λ w, w ≠ "") ws = ws.
Proof.
  induction 1 as [|w ws Hw _ IH]; [done|]. rewrite filter_cons_True, IH; [done|].
  by apply (cased_lacks dash); [left|].
Qed.

Lemma bind_split sep ws : Forall (lacks sep) ws → ws ≫= split_on sep = ws.
Proof. induction 1 as [|w ws Hw _ IH]; [done|]. by rewrite bind_cons, IH, split_on_lacks. Qed.

Lemma lacks_join sep sep' ws : sep ≠ sep' → Forall (lacks sep) ws → lacks sep (join (String sep' "") ws).
Proof.
  intros Hne. destruct ws as [|w ws]; [done|]. intros [Hw Hws]%Forall_cons. rewrite join_cons. apply lacks_app. split; [done|].
  clear Hw. induction Hws as [|v ws Hv _ IH]; [done|]. rewrite fmap_cons.
  change (lacks sep ((String sep' "" +:+ v) +:+ concat_str ((λ v, String sep' "" +:+ v) <$> ws))).
  apply lacks_app. split; [|done]. by split.
Qed.

Lemma heck_words_join sep ws :
  separator sep → Forall (λ w, cased_word w = true) ws → heck_words (join (String sep "") ws) = ws.
Proof.
  intros Hs Hw. destruct ws as [|w ws]; [done|]. unfold heck_words.
  assert (∀ sep', separator sep' → Forall (lacks sep') (w :: ws)) as Hl.
  { intros sep' Hs'. eapply Forall_impl; [exact Hw|]. intros v Hv. by apply (cased_lacks sep'). }
  pose proof (Hl dash (or_introl eq_refl)) as Hd. pose proof (Hl underscore (or_intror eq_refl)) as Hu.
  rewrite <- (filter_words (w :: ws)) at 2 by done. f_equal. destruct Hs as [-> | ->].
  - by rewrite join_split_on, bind_split.
  - rewrite (split_on_lacks dash) by (by apply lacks_join). rewrite bind_cons. cbn [mbind list_bind]. rewrite app_nil_r.
    by apply join_split_on.
Qed.

Lemma heck_std_laws : HeckLaws.
Proof.
  split; intros sep; intros *; intros Hs Hw; cbn [to_snake_case to_lower_camel_case heck_upper_camel_case heck_std];
    by rewrite heck_words_join.
Qed.

(** ** Names of WIT *)

Lemma lower_word_cased w : lower_word w = true → cased_word w = true.
Proof.
  destruct w as [|c w]; [done|]. cbn [lower_word]. intros [Hc Hw]%andb_prop. unfold cased_word. cbn [all_chars].
  by rewrite Hc, Hw.
Qed.

Lemma lower_word_chars w : lower_word w = true → all_chars (λ c, is_lower c || is_digit c) w = true.
Proof. destruct w as [|c w]; [done|]. cbn. intros [-> ->]%andb_prop. done. Qed.

Lemma snake_chars ws :
  Forall (λ w, lower_word w = true) ws → ws ≠ [] → valid_ident (join "_" ws) = true.
Proof.
  intros Hws Hne. destruct ws as [|w ws]; [done|]. rewrite join_cons. apply Forall_cons in Hws as [Hw Hws].
  assert (all_chars ident_char (concat_str ((λ v, "_" +:+ v) <$> ws)) = true) as Hr.
  { clear -Hws. induction Hws as [|v ws Hv _ IH]; [done|]. rewrite fmap_cons.
    change (all_chars ident_char (("_" +:+ v) +:+ concat_str ((λ v, "_" +:+ v) <$> ws)) = true).
    rewrite !all_chars_app, IH, andb_true_r. apply word_chars. by rewrite Hv. }
  pose proof (word_chars w ltac:(by rewrite Hw)) as Hc. destruct w as [|c w]; [done|]. rewrite string_app_cons.
  cbn in *. apply andb_prop in Hw as [Hw _], Hc as [_ Hc]. rewrite all_chars_app, Hc, Hr, andb_true_r.
  unfold is_letter. by rewrite Hw.
Qed.

Lemma valid_suffix s : valid_ident s = true → valid_ident (s +:+ "_") = true.
Proof.
  destruct s as [|c s]; [done|]. rewrite string_app_cons. cbn. intros [-> Hs]%andb_prop. by rewrite all_chars_app, Hs.
Qed.

Lemma split_on_suffix sep w : split_on sep (w +:+ String sep "") = split_on sep w ++ [""].
Proof.
  induction w as [|c w IH]; [rewrite string_nil_app; cbn [split_on]; by rewrite decide_True|].
  rewrite string_app_cons. cbn [split_on]. rewrite IH.
  case_decide; [done|]. pose proof (split_on_nonempty sep w). by destruct (split_on sep w).
Qed.

Lemma suffix_inj s1 s2 : s1 +:+ "_" = s2 +:+ "_" → s1 = s2.
Proof.
  intros Heq%(f_equal (split_on underscore)). rewrite !(split_on_suffix underscore) in Heq. apply app_inj_tail in Heq as [Heq _].
  by rewrite <- (join_split underscore s1), Heq, join_split.
Qed.

(** Names which are converted but for keywords, which are escaped *)
Section escape.
Context (f : string → string) (keywords : list string).

Definition escaped (name : string) : string := if decide (name ∈ keywords) then name +:+ "_" else f name.

Context (Hinj : ∀ n1 n2, lower_name n1 → lower_name n2 → f n1 = f n2 → n1 = n2).
Context (Hkeeps : Forall (λ w, lower_name w ∧ f w = w) keywords).
Context (Hvalid : ∀ name, lower_name name → valid_ident (f name) = true).
Context (Hsuffix : ∀ name w, lower_name name → f name ≠ w +:+ "_").

(** A conversion is of no word which it keeps but the word itself. *)
Lemma escaped_not_keyword name : lower_name name → escaped name ∉ keywords.
Proof.
  rewrite Forall_forall in Hkeeps. intros Hn Hin. unfold escaped in Hin. case_decide as Hk.
  - destruct (Hkeeps _ Hin) as (Hl & Heq). by apply (Hsuffix (name +:+ "_") name).
  - destruct (Hkeeps _ Hin) as (Hl & Heq). apply Hk. by rewrite (Hinj name (f name)).
Qed.

Lemma escaped_valid name : lower_name name → valid_ident (escaped name) = true.
Proof.
  rewrite Forall_forall in Hkeeps. intros Hn. unfold escaped. case_decide as Hk; [|by apply Hvalid].
  apply valid_suffix. destruct (Hkeeps _ Hk) as (Hl & Heq). rewrite <- Heq. by apply Hvalid.
Qed.

Lemma escaped_inj n1 n2 : lower_name n1 → lower_name n2 → escaped n1 = escaped n2 → n1 = n2.
Proof.
  intros H1 H2. unfold escaped. repeat case_decide; [intros Heq..|by apply Hinj].
  - by apply suffix_inj.
  - by destruct (Hsuffix n2 n1 H2).
  - by destruct (Hsuffix n1 n2 H1).
Qed.

End escape.

Section names.
Context `{HeckLaws}.

(** The dashes of a name in lower case become underscores. *)
Lemma snake_lower name : lower_name name → to_snake_case name = join "_" (split_on dash name).
Proof.
  intros Hn. rewrite <- (join_split dash name) at 1. rewrite heck_snake; [|by left|].
  - f_equal. clear -Hn. induction Hn as [|w ws Hw _ IH]; [done|]. rewrite fmap_cons, IH. unfold lower_case.
    by rewrite map_lower_word.
  - eapply Forall_impl; [exact Hn|]. intros w. apply lower_word_cased.
Qed.

(** Names in lower case are told apart by their snake case. *)
Lemma snake_inj n1 n2 : lower_name n1 → lower_name n2 → to_snake_case n1 = to_snake_case n2 → n1 = n2.
Proof.
  intros H1 H2. rewrite !snake_lower by done. intros Heq%(f_equal (split_on underscore)).
  rewrite !(join_split_on underscore) in Heq;
    try apply split_on_nonempty;
    try (eapply Forall_impl; [eassumption|]; intros w Hw; apply cased_lacks; [by right|by apply lower_word_cased]).
  by rewrite <- (join_split dash n1), <- (join_split dash n2), Heq.
Qed.

(** [to_lower_camel_case] of a name in lower case is that of JavaScript. *)
Lemma lower_camel_lower name : lower_name name → to_lower_camel_case name = camel_case name.
Proof.
  intros Hn. rewrite <- (join_split dash name) at 1. unfold lower_name, camel_case in *.
  destruct (split_on dash name) as [|w ws] eqn:Hs; [by apply split_on_nonempty in Hs|].
  rewrite heck_lower_camel; [|by left|].
  - unfold lower_case. f_equal. apply Forall_cons in Hn as [_ Hws]. clear Hs. f_equal.
    induction Hws as [|v ws Hv _ IH]; [done|]. rewrite !fmap_cons, IH. f_equal. unfold title_case, lower_case.
    rewrite map_lower_word by done. unfold camel_part. destruct (is_acronym v) eqn:Ha; [|done].
    destruct v as [|c v]; [done|]. cbn in *. apply andb_prop in Ha as [Ha _], Hv as [Hv _].
    assert (negb (is_digit c || is_upper c) = true) as Hx by (clear -Hv; revert c Hv; apply ascii_impl; by vm_compute).
    by rewrite Ha in Hx.
  - eapply Forall_impl; [exact Hn|]. intros v. apply lower_word_cased.
Qed.

Lemma lower_camel_inj n1 n2 :
  lower_name n1 → lower_name n2 → to_lower_camel_case n1 = to_lower_camel_case n2 → n1 = n2.
Proof.
  intros H1 H2. rewrite !lower_camel_lower by done. intros Heq%(f_equal uncamel). by rewrite !camel_case_roundtrip in Heq.
Qed.

Lemma lower_name_wit name : lower_name name → wit_name name.
Proof. intros Hn. eapply Forall_impl; [exact Hn|]. cbn. by intros w ->. Qed.

Lemma keywords_lower (keywords : list string) :
  bool_decide (Forall (λ w, lower_name w ∧ join "_" (split_on dash w) = w ∧ camel_case w = w) keywords) = true →
  Forall (λ w, lower_name w ∧ to_snake_case w = w) keywords ∧
  Forall (λ w, lower_name w ∧ to_lower_camel_case w = w) keywords.
Proof.
  intros Hk%bool_decide_eq_true. split; (eapply Forall_impl; [exact Hk|]; intros w (Hl & Hs & Hc)).
  - by rewrite snake_lower.
  - by rewrite lower_camel_lower.
Qed.

Lemma snake_valid name : lower_name name → valid_ident (to_snake_case name) = true.
Proof. intros Hn. rewrite snake_lower by done. apply snake_chars; [done|apply split_on_nonempty]. Qed.

(** An escaped keyword is not the snake case of a name. *)
Lemma snake_no_suffix name w : lower_name name → to_snake_case name ≠ w +:+ "_".
Proof.
  intros Hn Heq. rewrite snake_lower in Heq by done. apply (f_equal (split_on underscore)) in Heq.
  rewrite join_split_on in Heq; [|apply split_on_nonempty|].
  - assert ("" ∈ split_on underscore (w +:+ "_")) as Hin by (rewrite (split_on_suffix underscore); set_solver).
    rewrite <- Heq in Hin. unfold lower_name in Hn. rewrite Forall_forall in Hn. by apply Hn in Hin.
  - eapply Forall_impl; [exact Hn|]. intros v Hv. apply cased_lacks; [by right|by apply lower_word_cased].
Qed.

Lemma camel_no_suffix name w : lower_name name → to_lower_camel_case name ≠ w +:+ "_".
Proof.
  intros Hn Heq. rewrite lower_camel_lower in Heq by done.
  assert (all_chars (λ c, is_letter c || is_digit c) (camel_case name) = true) as Hc.
  { clear Heq. unfold lower_name, camel_case in *. destruct (split_on dash name) as [|v vs]; [done|].
    apply Forall_cons in Hn as [Hv Hvs]. rewrite map_lower_word, all_chars_app by done. apply andb_true_intro. split.
    - apply lower_word_chars in Hv. revert Hv. apply all_chars_impl, ascii_impl. by vm_compute.
    - induction Hvs as [|u us Hu _ IH]; [done|]. rewrite fmap_cons.
      change (all_chars (λ c, is_letter c || is_digit c) (camel_part u +:+ concat_str (camel_part <$> us)) = true).
      rewrite all_chars_app, IH, andb_true_r. apply lower_word_chars in Hu. unfold camel_part.
      destruct (is_acronym u); [revert Hu; apply all_chars_impl, ascii_impl; by vm_compute|].
      destruct u as [|c u]; [done|]. cbn in *. apply andb_prop in Hu as [H1 H2]. apply andb_true_intro. split.
      + revert c H1. apply ascii_impl. by vm_compute.
      + revert H2. apply all_chars_impl, ascii_impl. by vm_compute. }
  rewrite Heq, all_chars_app in Hc. by apply andb_prop in Hc as [_ Hc].
Qed.

End names.
