(* ===== verification/GoWorld.v ===== *)
(** * Names and modules of Go bindings

    Model of [crates/wit-bindgen-go/src/lib.rs], with the helpers of
    [crates/wit-bindgen-go/src/interface.rs] which name what is generated:
    identifiers, the paths of modules, the remapping of interfaces and the files
    which are written.  The text of interfaces is not modelled: a module is its
    text with its path.

    The theorems show that identifiers are valid and told apart, that the files
    of modules do not overwrite each other unless a package has several
    versions, and that they do for some packages which have
    ([go_modules_collide]). *)

From stdpp Require Import pretty.
From S2P Require Import Prelude Subscriptions Resolve Introspect Wit JsNames Heck.

(** ** Identifiers *)

(** The names which [to_package_ident] escapes *)
Definition package_keywords : list string :=
  ["break"; "case"; "chan"; "const"; "continue"; "default"; "defer"; "else"; "enum"; "exports"; "fallthrough"; "false";
   "for"; "func"; "go"; "goto"; "if"; "import"; "interface"; "map"; "package"; "range"; "return"; "select"; "struct";
   "switch"; "true"; "type"; "var"].

(** The names which [to_go_ident] escapes *)
Definition ident_keywords : list string :=
  ["break"; "case"; "chan"; "const"; "continue"; "default"; "defer"; "else"; "enum"; "fallthrough"; "false"; "for";
   "func"; "go"; "goto"; "if"; "import"; "interface"; "len"; "map"; "package"; "range"; "return"; "select"; "struct";
   "switch"; "true"; "type"; "var"].

(** The keywords of Go *)
Definition go_keywords : list string :=
  ["break"; "case"; "chan"; "const"; "continue"; "default"; "defer"; "else"; "fallthrough"; "for"; "func"; "go"; "goto";
   "if"; "import"; "interface"; "map"; "package"; "range"; "return"; "select"; "struct"; "switch"; "type"; "var"].

Section idents.
Context `{Heck}.

Definition to_package_ident (name : string) : string :=
  if decide (name ∈ package_keywords) then name +:+ "_" else to_snake_case name.

Definition to_go_ident (name : string) : string :=
  if decide (name ∈ ident_keywords) then name +:+ "_" else to_lower_camel_case name.

Definition to_upper_camel_case (name : string) : string :=
  if decide (name = "handler") then "Handler_" else heck_upper_camel_case name.

(** The name of a function of a resource *)
Definition resource_func_name (prefix name : string) : option string :=
  name ← Introspect.strip_prefix prefix name;
  '(head, tail) ← split_once dot name;
  Some (heck_upper_camel_case head +:+ "_" +:+ heck_upper_camel_case tail).

Definition go_func_name (func : Function) : option string :=
  match fn_kind func with
  | Constructor => to_upper_camel_case <$> Introspect.strip_prefix "[constructor]" (fn_name func)
  | Static | AsyncStatic => resource_func_name "[static]" (fn_name func)
  | Method | AsyncMethod => resource_func_name "[method]" (fn_name func)
  | AsyncFreestanding | Freestanding => Some (to_upper_camel_case (fn_name func))
  end.

(** ** Modules *)

Section world.
Context `{WitParser} (resolve : WitResolve).

(** [replace(['.', '-', '+'], _)] *)
Definition version_char (c : Ascii.ascii) : Ascii.ascii :=
  if decide (c = dot ∨ c = dash ∨ c = Ascii.ascii_of_nat 43) then underscore else c.

Definition name_package_module (id : nat) : option string :=
  pkg ← rs_packages resolve !! id;
  let versions := length (filter (λ p, pk_namespace p = pk_namespace pkg ∧ pk_name p = pk_name pkg) (rs_packages resolve)) in
  let base := to_snake_case (pk_name pkg) in
  Some (if versions =? 1 then base
        else match pk_version pkg with
             | Some version => base +:+ to_snake_case (map_chars version_char version)
             | None => base
             end).

Definition compute_module_path (name : WorldKey) (is_export : bool) : option (list string) :=
  rest ← match name with
         | KeyName name => Some [to_package_ident name]
         | KeyInterface id =>
             iface ← rs_interfaces resolve !! id;
             pkg ← if_package iface;
             pkgname ← rs_packages resolve !! pkg;
             module ← name_package_module pkg;
             name ← if_name iface;
             Some [to_package_ident (pk_namespace pkgname); module; to_package_ident name]
         end;
  Some (if is_export then "exports" :: rest else rest).

(** [start_append_submodule] *)
Definition start_append_submodule (in_import : bool) (name : WorldKey) : option (string * list string) :=
  snake ← match name with
          | KeyName name => Some (to_package_ident name)
          | KeyInterface id => iface ← rs_interfaces resolve !! id; to_package_ident <$> if_name iface
          end;
  module_path ← compute_module_path name (negb in_import);
  Some (snake, module_path).

(** ** Remapping *)

Inductive WithOption := Path (p : string) | Generate.
Inductive InterfaceGeneration := Remap (p : string) | GenerateInterface.

Definition generation_from (opt : WithOption) : InterfaceGeneration :=
  match opt with Path p => Remap p | Generate => GenerateInterface end.

Definition parse_with (s : string) : option (string * WithOption) :=
  '(k, v) ← split_once (Ascii.ascii_of_nat 61) s;
  Some (k, if decide (v = "generate") then Generate else Path v).

Record GenerationConfiguration := mkConfig { cf_map : gmap string InterfaceGeneration; cf_default : bool }.

Definition Config_get (c : GenerationConfiguration) (key : string) : option InterfaceGeneration :=
  match cf_map c !! key with
  | Some g => Some g
  | None => if cf_default c then Some GenerateInterface else None
  end.
Definition Config_insert (c : GenerationConfiguration) (name : string) (g : InterfaceGeneration) :
    GenerationConfiguration := mkConfig (<[name := g]> (cf_map c)) (cf_default c).

Record InterfaceName := mkInterfaceName { in_remapped : bool; in_import_name : string; in_import_path : string }.

Record Opts := mkOpts { o_gofmt : bool; o_package : string; o_with : list (string * WithOption); o_generate_all : bool }.

Definition Opts_default : Opts := mkOpts true "" [] false.

(** [GoWrpc]: what names interfaces, and the modules *)
Record GoWrpc := mkGoWrpc {
  go_opts : Opts;
  go_import_modules : list (string * list string);
  go_export_modules : list (string * list string);
  go_interface_names : gmap nat InterfaceName;
  go_counter : nat;
  go_with : GenerationConfiguration
}.

Definition Opts_build (opts : Opts) : GoWrpc := mkGoWrpc opts [] [] ∅ 0 (mkConfig ∅ false).

Definition preprocess (w : GoWrpc) (world : nat) : option GoWrpc :=
  world ← rs_worlds resolve !! world;
  config ← foldl (λ acc entry,
      config ← acc;
      match entry.2 with
      | ItemInterface id =>
          iface ← rs_interfaces resolve !! id;
          let name := name_world_key resolve entry.1 in
          Some (if decide (if_package iface = wd_package world)
                then match Config_get config name with
                     | Some _ => config
                     | None => Config_insert config name GenerateInterface
                     end
                else config)
      | _ => Some config
      end) (Some (go_with w)) (wd_imports world ++ wd_exports world);
  let config := foldl (λ config kv, Config_insert config kv.1 (generation_from kv.2)) config (o_with (go_opts w)) in
  Some (mkGoWrpc (go_opts w) (go_import_modules w) (go_export_modules w) (go_interface_names w) (go_counter w)
          (mkConfig (cf_map config) (o_generate_all (go_opts w)))).

Inductive GoError := NoRemapping (name : string).

Definition with_name (i : nat) : string := "__with_name" +:+ pretty i.

(** [name_interface]: whether the interface is remapped *)
Definition name_interface (w : GoWrpc) (id : nat) (name : WorldKey) (is_export : bool) :
    option (result GoError (GoWrpc * bool)) :=
  let insert := λ (e : InterfaceName) (counter : nat),
    (mkGoWrpc (go_opts w) (go_import_modules w) (go_export_modules w) (<[id := e]> (go_interface_names w)) counter
       (go_with w), in_remapped e) in
  match Config_get (go_with w) (name_world_key resolve name) with
  | None => Some (Err (NoRemapping (name_world_key resolve name)))
  | Some (Remap path) => Some (Ok (insert (mkInterfaceName true (with_name (go_counter w)) path) (S (go_counter w))))
  | Some GenerateInterface =>
      path ← compute_module_path name is_export;
      let import_path :=
        if decide (o_package (go_opts w) = "") then join "/" path
        else o_package (go_opts w) +:+ "/" +:+ join "/" path in
      Some (Ok (insert (mkInterfaceName false (join "__" path) import_path) (go_counter w)))
  end.

(** ** Files *)

Definition generated_preamble (version : string) : string :=
  let backquote := String (Ascii.ascii_of_nat 96) "" in
  "// Generated by " +:+ backquote +:+ "wit-bindgen-wrpc-go" +:+ backquote +:+ " " +:+ version +:+ ". DO NOT EDIT!" +:+
  String (Ascii.ascii_of_nat 10) "".

Definition module_file (path : list string) : string := join "/" path +:+ "/bindings.wrpc.go".
Definition world_file (world : string) : string := to_package_ident world +:+ ".wrpc.go".

(** [emit_modules]: what is pushed to the files; [gofmt] is the program. *)
Definition emit_modules (version : string) (gofmt : string → string) (opts : Opts) (modules : list (string * list string)) :
    list (string * string) :=
  modules ≫= λ '(module, path),
    [(module_file path, generated_preamble version);
     (module_file path, if o_gofmt opts then gofmt module else module)].

End world.
End idents.

(** ** Identifiers are valid *)

Section valid.
Context `{HeckLaws}.

Lemma elem_of_go_keywords w : w ∈ go_keywords → w ∈ package_keywords ∧ w ∈ ident_keywords.
Proof.
  intros Hw. assert (Forall (λ w, w ∈ package_keywords ∧ w ∈ ident_keywords) go_keywords) as Hk
    by (apply (bool_decide_unpack _); by vm_compute).
  rewrite Forall_forall in Hk. by apply Hk.
Qed.

Lemma package_facts :
  (∀ name, lower_name name → to_package_ident name ∉ package_keywords) ∧
  (∀ name, lower_name name → valid_ident (to_package_ident name) = true) ∧
  (∀ n1 n2, lower_name n1 → lower_name n2 → to_package_ident n1 = to_package_ident n2 → n1 = n2).
Proof.
  pose proof (keywords_lower package_keywords ltac:(by vm_compute)) as [Hk _].
  split_and!; intros *; change to_package_ident with (escaped to_snake_case package_keywords);
    eauto using escaped_not_keyword, escaped_valid, escaped_inj, snake_inj, snake_no_suffix, snake_valid.
Qed.

Lemma ident_facts :
  (∀ name, lower_name name → to_go_ident name ∉ ident_keywords) ∧
  (∀ name, lower_name name → valid_ident (to_go_ident name) = true) ∧
  (∀ n1 n2, lower_name n1 → lower_name n2 → to_go_ident n1 = to_go_ident n2 → n1 = n2).
Proof.
  pose proof (keywords_lower ident_keywords ltac:(by vm_compute)) as [_ Hk].
  assert (∀ name, lower_name name → valid_ident (to_lower_camel_case name) = true) as Hv.
  { intros name Hn. rewrite lower_camel_lower by done. by apply camel_case_valid, lower_name_wit. }
  split_and!; intros *; change to_go_ident with (escaped to_lower_camel_case ident_keywords);
    eauto using escaped_not_keyword, escaped_valid, escaped_inj, lower_camel_inj, camel_no_suffix.
Qed.

(** The identifiers of Go bindings are valid: that of a name of WIT in lower
    case is an identifier and not a keyword, and no package has the name of the
    directory of exports; different names have different identifiers. *)
Theorem go_idents_valid name :
  lower_name name →
  (valid_ident (to_package_ident name) = true ∧ to_package_ident name ∉ go_keywords ∧ to_package_ident name ≠ "exports") ∧
  (valid_ident (to_go_ident name) = true ∧ to_go_ident name ∉ go_keywords) ∧
  (∀ name', lower_name name' → to_package_ident name' = to_package_ident name → name' = name) ∧
  (∀ name', lower_name name' → to_go_ident name' = to_go_ident name → name' = name).
Proof.
  intros Hn. destruct package_facts as (Hk1 & Hv1 & Hi1). destruct ident_facts as (Hk2 & Hv2 & Hi2). split_and!; auto.
  - intros [Hg _]%elem_of_go_keywords. by apply (Hk1 name).
  - intros Heq. apply (Hk1 name); [done|]. rewrite Heq. apply (bool_decide_unpack _). by vm_compute.
  - intros [_ Hg]%elem_of_go_keywords. by apply (Hk2 name).
Qed.

(** Keywords are escaped in lower case only: a name which is an acronym may be a
    keyword once it is converted. *)
Lemma acronym_not_escaped :
  wit_name "GO" ∧ to_package_ident "GO" = "go" ∧ to_go_ident "GO" = "go" ∧ "go" ∈ go_keywords.
Proof.
  split_and!; [by apply (bool_decide_unpack _); vm_compute|..|by apply (bool_decide_unpack _); vm_compute].
  - change (to_snake_case (join (String dash "") ["GO"]) = "go"). by rewrite heck_snake; [|left|repeat constructor].
  - change (to_lower_camel_case (join (String dash "") ["GO"]) = "go"). by rewrite heck_lower_camel; [|left|repeat constructor].
Qed.

(** ** Modules are told apart *)

Context `{WitParser} (resolve : WitResolve).

(** The names which a key stands for *)
Inductive key_names : WorldKey → list string → Prop :=
  | key_name name : key_names (KeyName name) [name]
  | key_interface id iface pkg package name :
      rs_interfaces resolve !! id = Some iface → if_package iface = Some pkg →
      rs_packages resolve !! pkg = Some package → if_name iface = Some name →
      key_names (KeyInterface id) [pk_namespace package; pk_name package; name].

(** No package has several versions. *)
Definition single_versions : Prop :=
  ∀ id pkg, rs_packages resolve !! id = Some pkg →
    length (filter (λ p, pk_namespace p = pk_namespace pkg ∧ pk_name p = pk_name pkg) (rs_packages resolve)) = 1.

(** The path of a module, for names and whether it is an export *)
Definition path_of (names : list string) (is_export : bool) : list string :=
  (if is_export then ["exports"] else []) ++
  match names with
  | [ns; pkg; name] => [to_package_ident ns; to_snake_case pkg; to_package_ident name]
  | _ => to_package_ident <$> names
  end.

Lemma compute_path_of key names is_export :
  single_versions → key_names key names → compute_module_path resolve key is_export = Some (path_of names is_export).
Proof.
  intros Hs Hk. destruct Hk as [name|id iface pkg package name Hi Hp Hpk Hn]; unfold compute_module_path.
  - by destruct is_export.
  - rewrite Hi. cbn. rewrite Hp. cbn. rewrite Hpk. cbn. unfold name_package_module. rewrite Hpk. cbn [mbind option_bind].
    rewrite (Hs pkg package Hpk). cbn. rewrite Hn. cbn. by destruct is_export.
Qed.

Lemma key_names_shape key names :
  key_names key names → (∃ n, names = [n]) ∨ ∃ a b c, names = [a; b; c].
Proof. intros []; eauto 10. Qed.

Definition rest_of (names : list string) : list string :=
  match names with
  | [ns; pkg; name] => [to_package_ident ns; to_snake_case pkg; to_package_ident name]
  | _ => to_package_ident <$> names
  end.

Lemma rest_of_head key names :
  key_names key names → Forall lower_name names → ∃ p rest, rest_of names = p :: rest ∧ p ≠ "exports".
Proof.
  intros Hk Hl. assert (∀ n, lower_name n → to_package_ident n ≠ "exports") as Hne by (intros n Hn; by apply go_idents_valid).
  apply key_names_shape in Hk as [(n & ->)|(x & y & z & ->)]; apply Forall_cons in Hl as [Hx _];
    (eexists _, _; split; [done|by apply Hne]).
Qed.

Lemma rest_of_inj key1 key2 names1 names2 :
  key_names key1 names1 → key_names key2 names2 → Forall lower_name names1 → Forall lower_name names2 →
  rest_of names1 = rest_of names2 → names1 = names2.
Proof.
  intros Hk1%key_names_shape Hk2%key_names_shape Hl1 Hl2. pose proof (proj2 (proj2 package_facts)) as Hi.
  destruct Hk1 as [(n1 & ->)|(x1 & y1 & z1 & ->)], Hk2 as [(n2 & ->)|(x2 & y2 & z2 & ->)]; try done; cbn.
  - intros [= Heq]. apply Forall_cons in Hl1 as [Hl1 _], Hl2 as [Hl2 _]. f_equal. by apply Hi.
  - intros [= Hx Hy Hz]. rewrite !Forall_cons in Hl1, Hl2. destruct Hl1 as (? & ? & ? & _), Hl2 as (? & ? & ? & _).
    f_equal; [by apply Hi|]. f_equal; [by apply snake_inj|]. f_equal. by apply Hi.
Qed.

(** The modules of Go bindings are told apart: if no package has several versions,
    the paths of two keys, of interfaces with names in lower case, are the same
    only if the keys stand for the same names, and both are imports or
    both exports; so are the files. *)
Theorem go_module_paths key1 key2 names1 names2 b1 b2 path :
  single_versions → key_names key1 names1 → key_names key2 names2 → Forall lower_name names1 → Forall lower_name names2 →
  compute_module_path resolve key1 b1 = Some path → compute_module_path resolve key2 b2 = Some path →
  names1 = names2 ∧ b1 = b2.
Proof.
  intros Hs Hk1 Hk2 Hl1 Hl2. rewrite (compute_path_of key1 names1), (compute_path_of key2 names2) by done.
  intros [= <-] [= Heq]. change (path_of ?n ?b) with ((if b : bool then ["exports"] else []) ++ rest_of n) in Heq.
  destruct (rest_of_head _ _ Hk1 Hl1) as (p1 & r1 & E1 & Hp1). destruct (rest_of_head _ _ Hk2 Hl2) as (p2 & r2 & E2 & Hp2).
  destruct b1, b2; cbn in Heq.
  - injection Heq as Heq. split; [|done]. by eapply rest_of_inj; eauto.
  - rewrite E2 in Heq. congruence.
  - rewrite E1 in Heq. congruence.
  - split; [|done]. by eapply rest_of_inj; eauto.
Qed.

(** ** Remapped interfaces *)

(** The calls which name interfaces *)
Inductive names_step : GoWrpc → GoWrpc → Prop :=
  | step_preprocess w world w' : preprocess resolve w world = Some w' → names_step w w'
  | step_name w id key is_export w' remapped :
      name_interface resolve w id key is_export = Some (Ok (w', remapped)) → names_step w w'.

(** The names of remapped interfaces are those which were counted, and different. *)
Definition names_inv (w : GoWrpc) : Prop :=
  ∃ number : gmap nat nat, (∀ id k, number !! id = Some k → k < go_counter w) ∧
    (∀ id1 id2 k, number !! id1 = Some k → number !! id2 = Some k → id1 = id2) ∧
    ∀ id e, go_interface_names w !! id = Some e → in_remapped e = true →
      ∃ k, number !! id = Some k ∧ in_import_name e = with_name k.

Lemma names_inv_step w w' : names_step w w' → names_inv w → names_inv w'.
Proof.
  intros Hstep (number & Hlt & Hinj & Hn). destruct Hstep as [w world w' Hp|w id key is_export w' remapped Hp].
  - unfold preprocess in Hp. apply bind_Some in Hp as (wd & _ & Hp). apply bind_Some in Hp as (config & _ & [= <-]).
    by exists number.
  - unfold name_interface in Hp. destruct (Config_get _ _) as [[path|]|]; [| |done].
    + injection Hp as <- <-. exists (<[id := go_counter w]> number). cbn. split_and!.
      * intros j k. rewrite lookup_insert. case_decide; [intros [= <-]; lia|]. intros Hk%Hlt. lia.
      * intros i j k. rewrite !lookup_insert. do 2 case_decide; subst; try done.
        -- intros [= <-] Hk%Hlt. lia.
        -- intros Hk%Hlt [= <-]. lia.
        -- apply Hinj.
      * intros j e. rewrite !lookup_insert. case_decide; [|apply Hn]. intros [= <-] _. by eexists.
    + apply bind_Some in Hp as (path & _ & [= <- <-]). exists number. cbn. split_and!; [done|done|].
      intros j e. rewrite lookup_insert. case_decide; [|apply Hn]. by intros [= <-].
Qed.

Lemma with_name_inj i j : with_name i = with_name j → i = j.
Proof. unfold with_name. intros Heq%(inj _)%(inj _). done. Qed.

(** Remapped interfaces have import names of their own, however the calls which
    name interfaces are ordered. *)
Theorem remapped_names_unique opts w id1 id2 e1 e2 :
  rtc names_step (Opts_build opts) w →
  go_interface_names w !! id1 = Some e1 → go_interface_names w !! id2 = Some e2 →
  in_remapped e1 = true → in_remapped e2 = true → in_import_name e1 = in_import_name e2 → id1 = id2.
Proof.
  intros Hr He1 He2 Hm1 Hm2 Heq.
  assert (names_inv w) as (number & _ & Hinj & Hn).
  { revert Hr. apply (rtc_ind_r (R := names_step) names_inv (Opts_build opts)); [by exists ∅|].
    intros w1 w2 _ Hs. by apply names_inv_step. }
  destruct (Hn _ _ He1 Hm1) as (k1 & Hk1 & E1). destruct (Hn _ _ He2 Hm2) as (k2 & Hk2 & E2).
  rewrite E1, E2 in Heq. apply with_name_inj in Heq. subst. by eapply Hinj.
Qed.

End valid.

(** ** Packages with several versions *)

Definition versions_resolve : WitResolve :=
  mkWitResolve [] [mkInterface (Some "types") (Some 0) [] []; mkInterface (Some "types") (Some 2) [] []]
    [mkPackage "ns" "foo" (Some "10.1.0"); mkPackage "ns" "foo" (Some "1.0.0");
     mkPackage "ns" "foo1" (Some "0.1.0"); mkPackage "ns" "foo1" (Some "0.2.0")] [].

(** [C32] The modules of different interfaces are written to the same file: the name of a
    package and its version are concatenated, so that [ns:foo@10.1.0] and
    [ns:foo1@0.1.0] have the same module if both packages have another
    version. *)
Theorem go_modules_collide `{HeckLaws} :
  compute_module_path versions_resolve (KeyInterface 0) false = Some ["ns"; "foo10_1_0"; "types"] ∧
  compute_module_path versions_resolve (KeyInterface 1) false = Some ["ns"; "foo10_1_0"; "types"].
Proof.
  assert (∀ ws, Forall (λ w, cased_word w = true) ws → to_snake_case (join "_" ws) = join "_" (lower_case <$> ws)) as Hs
    by (intros ws Hw; apply (heck_snake underscore); [by right|done]).
  assert (to_snake_case "foo" = "foo") as H1 by exact (Hs ["foo"] ltac:(repeat constructor)).
  assert (to_snake_case "foo1" = "foo1") as H2 by exact (Hs ["foo1"] ltac:(repeat constructor)).
  assert (to_snake_case "ns" = "ns") as H3 by exact (Hs ["ns"] ltac:(repeat constructor)).
  assert (to_snake_case "types" = "types") as H4 by exact (Hs ["types"] ltac:(repeat constructor)).
  assert (to_snake_case "10_1_0" = "10_1_0") as H5 by exact (Hs ["10"; "1"; "0"] ltac:(repeat constructor)).
  assert (to_snake_case "0_1_0" = "0_1_0") as H6 by exact (Hs ["0"; "1"; "0"] ltac:(repeat constructor)).
  vm_compute in H1, H2, H3, H4, H5, H6. vm_compute. by rewrite H1, H2, H3, H4, H5, H6.
Qed.

Lemma go_modules_collide_witness :
  ∃ path, @compute_module_path heck_std versions_resolve (KeyInterface 0) false = Some path ∧
    @compute_module_path heck_std versions_resolve (KeyInterface 1) false = Some path ∧
    module_file path = "ns/foo10_1_0/types/bindings.wrpc.go".
Proof.
  exists ["ns"; "foo10_1_0"; "types"]. destruct (@go_modules_collide heck_std heck_std_laws) as (H1 & H2). by split_and!.
Defined.
