(* ===== verification/RustWorld.v ===== *)
(** * Names and modules of Rust bindings

    Model of [crates/wit-bindgen-rust/src/lib.rs], with the helpers of
    [crates/wit-bindgen-rust/src/interface.rs] which refer to what is
    generated: identifiers, the paths of modules and of types, the remapping of
    interfaces and types, and the nested modules which are written.  The text of
    interfaces is not modelled: a module is its text with its path.

    The theorems show that identifiers are valid, that each module is written
    once, in the modules of its path ([modules_emitted]), that the paths of types
    lead to the modules of their interfaces ([type_path_resolves]), and
    which remappings are reported. *)

From stdpp Require Import pretty.
From S2P Require Import Prelude Subscriptions Resolve Introspect Wit JsNames Heck.

(** ** Identifiers *)

(** The names which [to_rust_ident] escapes *)
Definition rust_escapes : list string :=
  ["as"; "break"; "const"; "continue"; "crate"; "else"; "enum"; "extern"; "false"; "fn"; "for"; "if"; "impl"; "in"; "let";
   "loop"; "match"; "mod"; "move"; "mut"; "pub"; "ref"; "return"; "self"; "static"; "struct"; "super"; "trait"; "true";
   "type"; "unsafe"; "use"; "where"; "while"; "async"; "await"; "dyn"; "abstract"; "become"; "box"; "do"; "final"; "macro";
   "override"; "priv"; "typeof"; "unsized"; "virtual"; "yield"; "try"].

Inductive Int := U8 | U16 | U32 | U64.

Definition int_repr (repr : Int) : string :=
  match repr with U8 => "u8" | U16 => "u16" | U32 => "u32" | U64 => "u64" end.

(** [FlagsRepr] of [wit_parser] *)
Inductive FlagsRepr := ReprU8 | ReprU16 | ReprU32 (n : nat).
Inductive RustFlagsRepr := FlagsU8 | FlagsU16 | FlagsU32 | FlagsU64 | FlagsU128.

(** [RustFlagsRepr::new] panics for more than 128 flags. *)
Definition RustFlagsRepr_new (repr : FlagsRepr) : option RustFlagsRepr :=
  match repr with
  | ReprU8 => Some FlagsU8
  | ReprU16 => Some FlagsU16
  | ReprU32 1 => Some FlagsU32
  | ReprU32 2 => Some FlagsU64
  | ReprU32 3 | ReprU32 4 => Some FlagsU128
  | ReprU32 _ => None
  end.

Definition RustFlagsRepr_fmt (r : RustFlagsRepr) : string :=
  match r with
  | FlagsU8 => "u8" | FlagsU16 => "u16" | FlagsU32 => "u32" | FlagsU64 => "u64" | FlagsU128 => "u128"
  end.

(** ** Remapping *)

Inductive WithOption := Path (p : string) | Generate.
Inductive TypeGeneration := Remap (p : string) | GenerateType.

Definition generated (g : TypeGeneration) : bool := match g with GenerateType => true | Remap _ => false end.

Definition generation_from (opt : WithOption) : TypeGeneration :=
  match opt with Path p => Remap p | Generate => GenerateType end.

Definition parse_with (s : string) : option (string * WithOption) :=
  '(k, v) ← split_once (Ascii.ascii_of_nat 61) s;
  Some (k, if decide (v = "generate") then Generate else Path v).

Record GenerationConfiguration := mkConfig { cf_map : gmap string TypeGeneration; cf_default : bool }.

Definition Config_get (c : GenerationConfiguration) (key : string) : option TypeGeneration :=
  match cf_map c !! key with
  | Some g => Some g
  | None => if cf_default c then Some GenerateType else None
  end.
Definition Config_insert (c : GenerationConfiguration) (name : string) (g : TypeGeneration) : GenerationConfiguration :=
  mkConfig (<[name := g]> (cf_map c)) (cf_default c).

Record InterfaceName := mkInterfaceName { in_remapped : bool; in_path : string }.

Record Opts := mkOpts { o_format : bool; o_with : list (string * WithOption); o_generate_all : bool }.

(** [RustWrpc]: what names interfaces and types, the modules and the text *)
Record RustWrpc := mkRustWrpc {
  rw_opts : Opts;
  rw_src : string;
  rw_interface_names : gmap nat InterfaceName;
  rw_counter : nat;
  rw_generated_types : gset string;
  rw_with : GenerationConfiguration
}.

Definition Opts_build (opts : Opts) : RustWrpc := mkRustWrpc opts "" ∅ 0 ∅ (mkConfig ∅ false).

Inductive RustError := NoRemapping (name : string) | UnusedRemappings (names : list string).

(** Functions of [wit_parser] and [wit_bindgen_core] besides those of [WitParser] *)
Class BindgenCore := {
  core_name_package_module : WitResolve → nat → string;
  id_of : WitResolve → nat → option string
}.

Definition nl : string := String (Ascii.ascii_of_nat 10) "".

Section world.
Context `{Heck} `{WitParser} `{BindgenCore} (resolve : WitResolve).

Definition to_rust_ident (name : string) : string :=
  if decide (name ∈ rust_escapes) then name +:+ "_" else to_snake_case name.

Definition to_upper_camel_case (name : string) : string :=
  if decide (name = "handler") then "Handler_" else heck_upper_camel_case name.

Definition compute_module_path (name : WorldKey) (is_export : bool) : option (list string) :=
  rest ← match name with
         | KeyName name => Some [to_rust_ident name]
         | KeyInterface id =>
             iface ← rs_interfaces resolve !! id;
             pkg ← if_package iface;
             pkgname ← rs_packages resolve !! pkg;
             name ← if_name iface;
             Some [to_rust_ident (pk_namespace pkgname); to_rust_ident (core_name_package_module resolve pkg);
                   to_rust_ident name]
         end;
  Some (if is_export then "exports" :: rest else rest).

(** [start_append_submodule] *)
Definition start_append_submodule (in_import : bool) (name : WorldKey) : option (string * list string) :=
  snake ← match name with
          | KeyName name => Some (to_rust_ident name)
          | KeyInterface id => iface ← rs_interfaces resolve !! id; to_rust_ident <$> if_name iface
          end;
  module_path ← compute_module_path name (negb in_import);
  Some (snake, module_path).

Definition with_name (i : nat) : string := "__with_name" +:+ pretty i.

(** [name_interface]: whether the interface is remapped *)
Definition name_interface (w : RustWrpc) (id : nat) (name : WorldKey) (is_export : bool) :
    option (result RustError (RustWrpc * bool)) :=
  let with_key := name_world_key resolve name in
  let insert := λ (e : InterfaceName) (src : string) (counter : nat),
    (mkRustWrpc (rw_opts w) src (<[id := e]> (rw_interface_names w)) counter ({[with_key]} ∪ rw_generated_types w)
       (rw_with w), in_remapped e) in
  match (if is_export then Some GenerateType else Config_get (rw_with w) with_key) with
  | None => Some (Err (NoRemapping with_key))
  | Some (Remap path) =>
      let name := with_name (rw_counter w) in
      Some (Ok (insert (mkInterfaceName true name)
        (rw_src w +:+ "#[allow(unfulfilled_lint_expectations, unused_imports)]" +:+ nl +:+
         "use " +:+ path +:+ " as " +:+ name +:+ ";" +:+ nl) (S (rw_counter w))))
  | Some GenerateType =>
      path ← compute_module_path name is_export;
      Some (Ok (insert (mkInterfaceName false (join "::" path)) (rw_src w) (rw_counter w)))
  end.

(** The loops of [preprocess] which name interfaces *)
Fixpoint name_interfaces (w : RustWrpc) (items : list (WorldKey * WorldItem)) (is_export : bool) :
    option (result RustError RustWrpc) :=
  match items with
  | [] => Some (Ok w)
  | (key, ItemInterface id) :: items =>
      r ← name_interface w id key is_export;
      match r with
      | Ok (w, _) => name_interfaces w items is_export
      | Err e => Some (Err e)
      end
  | _ :: items => name_interfaces w items is_export
  end.

(** The loop of [preprocess] which generates the imports of the package *)
Definition local_config (world : WitWorld) (config : GenerationConfiguration) : option GenerationConfiguration :=
  foldl (λ acc entry,
    config ← acc;
    match entry.2 with
    | ItemInterface id =>
        iface ← rs_interfaces resolve !! id;
        let name := name_world_key resolve entry.1 in
        Some (if decide (if_package iface = wd_package world)
              then match Config_get config name with
                   | Some _ => config
                   | None => Config_insert config name GenerateType
                   end
              else config)
    | _ => Some config
    end) (Some config) (wd_imports world).

(** [preprocess], but for the preamble *)
Definition preprocess (w : RustWrpc) (world : nat) : option (result RustError RustWrpc) :=
  world ← rs_worlds resolve !! world;
  config ← local_config world (rw_with w);
  let config := foldl (λ config kv, Config_insert config kv.1 (generation_from kv.2)) config (o_with (rw_opts w)) in
  let w := mkRustWrpc (rw_opts w) (rw_src w) (rw_interface_names w) (rw_counter w) (rw_generated_types w)
             (mkConfig (cf_map config) (o_generate_all (rw_opts w))) in
  r ← name_interfaces w (wd_imports world) false;
  match r with
  | Ok w => name_interfaces w (wd_exports world) true
  | Err e => Some (Err e)
  end.

(** ** Types *)

Definition full_wit_type_name (id : nat) : option string :=
  type_def ← rs_types resolve !! dealias resolve id;
  name ← td_name type_def;
  interface_name ← match td_owner type_def with
                   | OwnerWorld w => world ← rs_worlds resolve !! w; Some (Some (wd_name world))
                   | OwnerInterface id => Some (id_of resolve id)
                   | OwnerNone => Some None
                   end;
  Some (match interface_name with Some interface_name => interface_name +:+ "/" +:+ name | None => name end).

(** The types of [import_interface] and [import_types] to define: those which are
    not remapped *)
Fixpoint types_to_define (w : RustWrpc) (types : list nat) : option (list nat * RustWrpc) :=
  match types with
  | [] => Some ([], w)
  | id :: types =>
      full_name ← full_wit_type_name id;
      let w' := mkRustWrpc (rw_opts w) (rw_src w) (rw_interface_names w) (rw_counter w)
                  ({[full_name]} ∪ rw_generated_types w) (rw_with w) in
      '(to_define, w') ← types_to_define w' types;
      Some (match Config_get (rw_with w) full_name with
            | Some type_gen => if generated type_gen then id :: to_define else to_define
            | None => id :: to_define
            end, w')
  end.

(** ** Paths *)

(** [Identifier] *)
Inductive Identifier := World_ | Interface_ (id : nat) (name : WorldKey).

Definition path_to_root (identifier : Identifier) (in_import : bool) : string :=
  match identifier with
  | World_ => ""
  | Interface_ _ key =>
      "super::" +:+ (if in_import then "" else "super::") +:+
      match key with KeyName _ => "" | KeyInterface _ => "super::super::" end
  end.

(** [None] is that the interface has no name, and [Some None] that it is that of
    the generator. *)
Definition path_to_interface (w : RustWrpc) (identifier : Identifier) (in_import : bool) (interface : nat) :
    option (option string) :=
  e ← rw_interface_names w !! interface;
  Some (
    if in_remapped e then Some (path_to_root identifier in_import +:+ in_path e)
    else match identifier with
         | World_ => Some (in_path e)
         | Interface_ cur name =>
             if decide (cur = interface) then None
             else Some ((if in_import then "" else "super::") +:+
                        match name with KeyName _ => "super::" | KeyInterface _ => "super::super::super::" end +:+ in_path e)
         end).

Definition type_path_with_name (w : RustWrpc) (identifier : Identifier) (in_import : bool) (id : nat) (name : string)
    (submodule : bool) : option string :=
  type_def ← rs_types resolve !! id;
  path ← match td_owner type_def with
         | OwnerInterface i => path_to_interface w identifier in_import i
         | _ => Some None
         end;
  let super := if submodule then "super::" else "" in
  Some (match path with Some path => super +:+ path +:+ "::" +:+ name | None => super +:+ name end).

(** ** Modules *)

(** [Module] of [emit_modules]; the submodules of a [BTreeMap] are in order. *)
Inductive Module_ := mkModule (submodules : list (string * Module_)) (contents : list string).

Definition Module_default : Module_ := mkModule [] [].

(** [entry(name).or_insert(Module::default())], changed by [f] *)
Fixpoint update_entry (f : Module_ → Module_) (name : string) (l : list (string * Module_)) : list (string * Module_) :=
  match l with
  | [] => [(name, f Module_default)]
  | (n, m) :: l' =>
      if decide (n = name) then (n, f m) :: l'
      else if String.leb n name then (n, m) :: update_entry f name l' else (name, f Module_default) :: l
  end.

(** The walk to the module of a path *)
Fixpoint push_contents (module : string) (path : list string) (m : Module_) : Module_ :=
  let '(mkModule submodules contents) := m in
  match path with
  | [] => mkModule submodules (contents ++ [module])
  | name :: path => mkModule (update_entry (push_contents module path) name submodules) contents
  end.

(** [path[..path.len() - 1]] panics for an empty path, which no interface has. *)
Definition module_tree (modules : list (string * list string)) : Module_ :=
  foldl (λ m x, push_contents x.1 (removelast x.2) m) Module_default modules.

(** What [emit] writes: a module is opened and closed, and contents *)
Inductive Event := Open (toplevel : bool) (name : string) | Close | Contents (s : string).

Fixpoint emit (toplevel : bool) (m : Module_) : list Event :=
  let '(mkModule submodules contents) := m in
  (fix go (l : list (string * Module_)) :=
     match l with
     | [] => []
     | (name, sub) :: l => Open toplevel name :: emit false sub ++ Close :: go l
     end) submodules ++ (Contents <$> contents).

Definition render_event (format : bool) (e : Event) : string :=
  match e with
  | Open toplevel name =>
      (if toplevel then
         (if format then "#[rustfmt::skip]" +:+ nl else "") +:+ "#[allow(dead_code, clippy::all)]" +:+ nl
       else "") +:+ "pub mod " +:+ name +:+ " {" +:+ nl
  | Close => "}" +:+ nl
  | Contents s => s +:+ nl
  end.

Definition emit_modules (w : RustWrpc) (modules : list (string * list string)) : RustWrpc :=
  mkRustWrpc (rw_opts w)
    (rw_src w +:+ concat_str (render_event (o_format (rw_opts w)) <$> emit true (module_tree modules)))
    (rw_interface_names w) (rw_counter w) (rw_generated_types w) (rw_with w).

(** The end of [finish]: the remappings which were not used, in order *)
Fixpoint insert_sorted (x : string) (l : list string) : list string :=
  match l with
  | [] => [x]
  | y :: l' => if String.leb x y then x :: l else y :: insert_sorted x l'
  end.
Definition unused_keys (w : RustWrpc) : list string :=
  foldr insert_sorted [] (elements (dom (cf_map (rw_with w)) ∖ rw_generated_types w)).
Definition finish_check (w : RustWrpc) : result RustError unit :=
  match unused_keys w with [] => Ok tt | keys => Err (UnusedRemappings keys) end.

End world.

(** ** Identifiers are valid *)

(** The identifiers of Rust bindings are valid: that of a name of WIT in lower
    case is an identifier and none of the keywords which are escaped; different
    names have different identifiers. *)
Theorem rust_idents_valid `{HeckLaws} name :
  lower_name name →
  valid_ident (to_rust_ident name) = true ∧ to_rust_ident name ∉ rust_escapes ∧
  ∀ name', lower_name name' → to_rust_ident name' = to_rust_ident name → name' = name.
Proof.
  intros Hn. pose proof (keywords_lower rust_escapes ltac:(by vm_compute)) as [Hk _].
  change to_rust_ident with (escaped to_snake_case rust_escapes). split_and!; intros *;
    eauto using escaped_not_keyword, escaped_valid, escaped_inj, snake_inj, snake_no_suffix, snake_valid.
Qed.

(** [gen], which is a keyword since the edition of 2024, is not escaped; nor is
    [exports], so that the module of an import may have the name of the
    module of all exports. *)
Lemma gen_not_escaped `{HeckLaws} : to_rust_ident "gen" = "gen".
Proof.
  change (to_snake_case (join (String dash "") ["gen"]) = "gen"). by rewrite heck_snake; [|left|repeat constructor].
Qed.

Lemma exports_not_escaped `{HeckLaws} `{BindgenCore} resolve :
  compute_module_path resolve (KeyName "exports") false = Some ["exports"].
Proof.
  change (Some [to_snake_case (join (String dash "") ["exports"])] = Some ["exports"]).
  by rewrite heck_snake; [|left|repeat constructor].
Qed.

(** ** Modules which are written *)

(** Induction with the hypothesis for the submodules *)
Definition Module_ind_nested (P : Module_ → Prop)
    (Hmod : ∀ subs cs, Forall (λ x, P x.2) subs → P (mkModule subs cs)) : ∀ m, P m :=
  fix go m :=
    let '(mkModule subs cs) := m in
    Hmod subs cs ((fix all (l : list (string * Module_)) : Forall (λ x, P x.2) l :=
      match l with [] => Forall_nil_2 _ | x :: l => Forall_cons_2 _ x l (go x.2) (all l) end) subs).

(** The contents which are written, with the modules they are in *)
Fixpoint nested (path : list string) (es : list Event) : list (list string * string) :=
  match es with
  | [] => []
  | Open _ name :: es => nested (path ++ [name]) es
  | Close :: es => nested (removelast path) es
  | Contents s :: es => (path, s) :: nested path es
  end.

Fixpoint contents_at (path : list string) (m : Module_) : list (list string * string) :=
  let '(mkModule subs cs) := m in
  (fix go (l : list (string * Module_)) :=
     match l with [] => [] | (name, sub) :: l => contents_at (path ++ [name]) sub ++ go l end) subs ++ (pair path <$> cs).

Definition subs_at (path : list string) (l : list (string * Module_)) : list (list string * string) :=
  l ≫= λ x, contents_at (path ++ [x.1]) x.2.

Lemma contents_at_eq path subs cs : contents_at path (mkModule subs cs) = subs_at path subs ++ (pair path <$> cs).
Proof.
  cbn [contents_at]. f_equal. unfold subs_at. induction subs as [|[n sub] subs IH]; [done|]. by rewrite bind_cons, <- IH.
Qed.

Definition emit_subs (toplevel : bool) (l : list (string * Module_)) : list Event :=
  l ≫= λ x, Open toplevel x.1 :: emit false x.2 ++ [Close].

Lemma emit_eq toplevel subs cs : emit toplevel (mkModule subs cs) = emit_subs toplevel subs ++ (Contents <$> cs).
Proof.
  cbn [emit]. f_equal. unfold emit_subs. induction subs as [|[n sub] subs IH]; [done|]. rewrite bind_cons, <- IH. cbn.
  by rewrite <- app_assoc.
Qed.

Lemma nested_contents path cs es : nested path ((Contents <$> cs) ++ es) = (pair path <$> cs) ++ nested path es.
Proof. induction cs as [|c cs IH]; [done|]. cbn. by rewrite IH. Qed.

Lemma nested_emit m : ∀ toplevel path es, nested path (emit toplevel m ++ es) = contents_at path m ++ nested path es.
Proof.
  induction m as [subs cs Hs] using Module_ind_nested. intros toplevel path es.
  rewrite emit_eq, contents_at_eq, <- !app_assoc, <- nested_contents. generalize ((Contents <$> cs) ++ es). clear es cs.
  induction Hs as [|[n sub] subs Hx _ IH]; intros es; [done|]. unfold emit_subs, subs_at in *. rewrite !bind_cons.
  cbn [fst snd] in *. cbn [app nested]. rewrite <- !app_assoc, Hx. cbn [app nested]. rewrite removelast_last, IH.
  by rewrite app_assoc.
Qed.

Lemma subs_at_update path f name l x :
  (∀ m, contents_at (path ++ [name]) (f m) ≡ₚ x :: contents_at (path ++ [name]) m) →
  subs_at path (update_entry f name l) ≡ₚ x :: subs_at path l.
Proof.
  intros Hf. unfold subs_at. induction l as [|[n m] l IH]; cbn [update_entry].
  - rewrite bind_cons. cbn [fst snd]. rewrite Hf. by rewrite app_nil_r.
  - case_decide; [|destruct (String.leb n name)].
    + subst. rewrite !bind_cons. cbn [fst snd]. by rewrite Hf.
    + rewrite !bind_cons. cbn [fst snd]. rewrite IH. by rewrite Permutation_middle.
    + rewrite bind_cons. cbn [fst snd]. by rewrite Hf.
Qed.

Lemma contents_push s path : ∀ p m, contents_at p (push_contents s path m) ≡ₚ (p ++ path, s) :: contents_at p m.
Proof.
  induction path as [|name path IH]; intros p [subs cs]; cbn [push_contents]; rewrite !contents_at_eq.
  - rewrite fmap_app, app_nil_r. rewrite app_assoc. cbn. by rewrite <- Permutation_cons_append.
  - rewrite (subs_at_update p _ name subs (p ++ name :: path, s)); [done|]. intros m. rewrite IH.
    by rewrite <- app_assoc.
Qed.

(** *** No module is opened twice *)

Definition str_lt (s t : string) : Prop := String.compare s t = Lt.

Lemma str_lt_trans s t u : str_lt s t → str_lt t u → str_lt s u.
Proof.
  unfold str_lt. revert t u. induction s as [|a s IH]; intros [|b t] [|c u]; cbn; try done.
  unfold Ascii.compare.
  destruct (N.compare_spec (Ascii.N_of_ascii a) (Ascii.N_of_ascii b)) as [H1|H1|H1],
    (N.compare_spec (Ascii.N_of_ascii b) (Ascii.N_of_ascii c)) as [H2|H2|H2],
    (N.compare_spec (Ascii.N_of_ascii a) (Ascii.N_of_ascii c)) as [H3|H3|H3]; try done; try lia. apply IH.
Qed.

Lemma leb_lt s t : s ≠ t → String.leb s t = true → str_lt s t.
Proof.
  unfold String.leb, str_lt. destruct (String.compare s t) eqn:Hc; [|done..]. by apply String.compare_eq_iff in Hc.
Qed.

Lemma leb_gt s t : String.leb s t = false → str_lt t s.
Proof.
  unfold String.leb, str_lt. rewrite (String.compare_antisym t s). by destruct (String.compare s t).
Qed.

Inductive ordered : Module_ → Prop :=
  | ordered_intro subs cs :
      StronglySorted str_lt subs.*1 → Forall (λ x, ordered x.2) subs → ordered (mkModule subs cs).

Lemma update_entry_keys f name l k : k ∈ (update_entry f name l).*1 → k = name ∨ k ∈ l.*1.
Proof.
  induction l as [|[n m] l IH]; cbn [update_entry]; [set_solver|].
  case_decide; [set_solver|]. destruct (String.leb n name); set_solver.
Qed.

Lemma update_entry_ordered f name l :
  (∀ m, ordered m → ordered (f m)) → StronglySorted str_lt l.*1 → Forall (λ x, ordered x.2) l →
  StronglySorted str_lt (update_entry f name l).*1 ∧ Forall (λ x, ordered x.2) (update_entry f name l).
Proof.
  intros Hf. assert (ordered (f Module_default)) as Hd by (apply Hf; by repeat constructor).
  induction l as [|[n m] l IH]; cbn [update_entry]; [by repeat constructor|]. rewrite !fmap_cons.
  intros (Hs & Hlt)%StronglySorted_inv (Ho & Hos)%Forall_cons. cbn [fst snd] in *. destruct (IH Hs Hos) as (IH1 & IH2).
  case_decide as Hn; [|destruct (String.leb n name) eqn:Hleb].
  - subst. split; constructor; auto. by apply Hf.
  - split; constructor; auto. rewrite Forall_forall in Hlt |- *. intros k [-> |Hk]%update_entry_keys; [by apply leb_lt|by apply Hlt].
  - apply leb_gt in Hleb. split; [|by repeat constructor]. repeat constructor; [done|done|done|].
    eapply Forall_impl; [exact Hlt|]. intros k. by apply str_lt_trans.
Qed.

Lemma push_ordered s path : ∀ m, ordered m → ordered (push_contents s path m).
Proof.
  induction path as [|name path IH]; intros [subs cs] Ho; cbn [push_contents]; inversion Ho; subst; [by constructor|].
  destruct (update_entry_ordered (push_contents s path) name subs) as (? & ?); [done..|]. by constructor.
Qed.

Lemma tree_ordered modules : ordered (module_tree modules).
Proof.
  unfold module_tree. assert (∀ m, ordered m → ordered (foldl (λ m x, push_contents x.1 (removelast x.2) m) m modules)) as Hm.
  { induction modules as [|x modules IH]; intros m Ho; [done|]. cbn. by apply IH, push_ordered. }
  apply Hm. by repeat constructor.
Qed.

(** The modules which are opened *)
Fixpoint opened (path : list string) (es : list Event) : list (list string) :=
  match es with
  | [] => []
  | Open _ name :: es => (path ++ [name]) :: opened (path ++ [name]) es
  | Close :: es => opened (removelast path) es
  | Contents _ :: es => opened path es
  end.

Fixpoint paths_at (path : list string) (m : Module_) : list (list string) :=
  let '(mkModule subs _) := m in
  (fix go (l : list (string * Module_)) :=
     match l with
     | [] => []
     | (name, sub) :: l => (path ++ [name]) :: paths_at (path ++ [name]) sub ++ go l
     end) subs.

Lemma paths_at_eq path subs cs :
  paths_at path (mkModule subs cs) = subs ≫= λ x, (path ++ [x.1]) :: paths_at (path ++ [x.1]) x.2.
Proof. cbn [paths_at]. induction subs as [|[n sub] subs IH]; [done|]. by rewrite bind_cons, <- IH. Qed.

Lemma opened_contents path cs es : opened path ((Contents <$> cs) ++ es) = opened path es.
Proof. by induction cs as [|c cs IH]. Qed.

Lemma opened_emit m : ∀ toplevel path es, opened path (emit toplevel m ++ es) = paths_at path m ++ opened path es.
Proof.
  induction m as [subs cs Hs] using Module_ind_nested. intros toplevel path es.
  rewrite emit_eq, paths_at_eq, <- app_assoc, <- (opened_contents path cs es). generalize ((Contents <$> cs) ++ es).
  clear es cs. induction Hs as [|[n sub] subs Hx _ IH]; intros es; [done|]. unfold emit_subs in *. rewrite !bind_cons.
  cbn [fst snd] in *. cbn [app opened]. rewrite <- !app_assoc, Hx. cbn [app opened]. by rewrite removelast_last, IH.
Qed.

Lemma paths_at_prefix m : ∀ path p, p ∈ paths_at path m → ∃ name rest, p = path ++ name :: rest.
Proof.
  induction m as [subs cs Hs] using Module_ind_nested. intros path p. rewrite paths_at_eq.
  intros ([n sub] & Hp & Hin)%list_elem_of_bind. cbn [fst snd] in Hp.
  apply elem_of_cons in Hp as [-> |Hp]; [by exists n, []|]. rewrite Forall_forall in Hs.
  apply (Hs _ Hin) in Hp as (n' & rest & ->). exists n, (n' :: rest). by rewrite <- app_assoc.
Qed.

Lemma paths_at_NoDup m : ordered m → ∀ path, NoDup (paths_at path m).
Proof.
  induction m as [subs cs Hs] using Module_ind_nested. intros Ho path. inversion Ho as [? ? Hsort Hos]; subst. clear Ho.
  rewrite paths_at_eq. induction subs as [|[n sub] subs IH]; [constructor|]. rewrite bind_cons. cbn [fst snd].
  apply Forall_cons in Hs as (Hx & Hs), Hos as (Ho & Hos). rewrite fmap_cons in Hsort.
  apply StronglySorted_inv in Hsort as (Hsort & Hlt). cbn [fst snd] in *.
  assert (∀ p, p ∈ subs ≫= (λ x, (path ++ [x.1]) :: paths_at (path ++ [x.1]) x.2) →
    ∃ k rest, k ∈ subs.*1 ∧ p = path ++ k :: rest) as Hrest.
  { intros p ([k s] & Hp & Hin)%list_elem_of_bind. cbn [fst snd] in Hp.
    assert (k ∈ subs.*1) as Hk by (apply list_elem_of_fmap; by exists (k, s)).
    apply elem_of_cons in Hp as [-> |(n' & rest & ->)%paths_at_prefix]; [by exists k, []|].
    exists k, (n' :: rest). by rewrite <- app_assoc. }
  assert (∀ k rest rest', k ∈ subs.*1 → path ++ n :: rest ≠ path ++ k :: rest') as Hne.
  { intros k r r' Hk Heq. rewrite Forall_forall in Hlt. apply Hlt in Hk. apply app_inv_head in Heq. injection Heq as -> _.
    unfold str_lt in Hk. pose proof (String.compare_antisym k k) as Ha. by rewrite Hk in Ha. }
  cbn [app]. rewrite NoDup_cons, NoDup_app. split_and!; [|by apply Hx| |by apply IH].
  - intros [(n' & rest & Heq)%paths_at_prefix|(k & rest & Hk & Heq)%Hrest]%elem_of_app.
    + apply (f_equal length) in Heq. rewrite !length_app in Heq. cbn in Heq. lia.
    + by apply (Hne k [] rest) in Hk.
  - intros p (n' & rest & ->)%paths_at_prefix (k & rest' & Hk & Heq)%Hrest. rewrite <- app_assoc in Heq.
    by apply (Hne k (n' :: rest) rest') in Hk.
Qed.

Lemma contents_tree modules : contents_at [] (module_tree modules) ≡ₚ (λ x, (removelast x.2, x.1)) <$> modules.
Proof.
  unfold module_tree. assert (∀ m, contents_at [] (foldl (λ m x, push_contents x.1 (removelast x.2) m) m modules) ≡ₚ
    ((λ x, (removelast x.2, x.1)) <$> modules) ++ contents_at [] m) as Hm.
  { induction modules as [|x modules IH]; intros m; [done|]. cbn [foldl]. rewrite IH, contents_push, fmap_cons. cbn.
    by rewrite Permutation_middle. }
  rewrite Hm. by rewrite app_nil_r.
Qed.

(** [C29] Each module of Rust bindings is written once, in the modules of its path:
    whatever modules are emitted, in whichever order, the modules which are
    opened and closed around each text are those of its path but the last, which the
    text itself opens, and no module is opened twice. *)
Theorem modules_emitted modules :
  nested [] (emit true (module_tree modules)) ≡ₚ ((λ x, (removelast x.2, x.1)) <$> modules) ∧
  NoDup (opened [] (emit true (module_tree modules))).
Proof.
  split.
  - rewrite <- contents_tree, <- (app_nil_r (emit true _)), nested_emit. by rewrite app_nil_r.
  - rewrite <- (app_nil_r (emit true _)), opened_emit, app_nil_r. apply paths_at_NoDup, tree_ordered.
Qed.

(** ** Paths of types *)

Section paths.
Context `{Heck} `{WitParser} `{BindgenCore} (resolve : WitResolve).

(** The module in which a generator writes *)
Definition module_of (identifier : Identifier) (in_import : bool) : option (list string) :=
  match identifier with World_ => Some [] | Interface_ _ key => compute_module_path resolve key (negb in_import) end.

Definition is_current (identifier : Identifier) (i : nat) : bool :=
  match identifier with World_ => false | Interface_ cur _ => bool_decide (cur = i) end.

Lemma module_depth cur key in_import here :
  module_of (Interface_ cur key) in_import = Some here →
  length here = (if in_import then 0 else 1) + match key with KeyName _ => 1 | KeyInterface _ => 3 end.
Proof.
  cbn [module_of]. unfold compute_module_path. intros (rest & Hrest & [= <-])%bind_Some.
  assert (length rest = match key with KeyName _ => 1 | KeyInterface _ => 3 end) as Hl.
  { destruct key as [name|id]; [by injection Hrest as <-|]. repeat (apply bind_Some in Hrest as (? & _ & Hrest)).
    by injection Hrest as <-. }
  destruct in_import; cbn; by rewrite Hl.
Qed.

Lemma path_to_interface_spec w identifier in_import here i e :
  module_of identifier in_import = Some here → rw_interface_names w !! i = Some e →
  path_to_interface w identifier in_import i =
    Some (if is_current identifier i && negb (in_remapped e) then None
          else Some (repeat_str "super::" (length here) +:+ in_path e)).
Proof.
  intros Hh He. unfold path_to_interface. rewrite He. cbn [mbind option_bind]. f_equal.
  destruct identifier as [|cur key].
  - injection Hh as <-. cbn. by destruct (in_remapped e).
  - apply module_depth in Hh. rewrite Hh. cbn [is_current]. destruct (in_remapped e); cbn [negb].
    + rewrite andb_false_r. by destruct in_import, key.
    + rewrite andb_true_r. case_decide; [by rewrite bool_decide_true|rewrite bool_decide_false by done].
      by destruct in_import, key.
Qed.

(** The path of a type leads to the module of its interface: from
    wherever it is used, in the world, an import or an export, it leaves as
    many modules as there are around it and goes on by the path of the interface
    from the root; a type of the interface itself is named alone. *)
Theorem type_path_resolves w identifier in_import here id type_def i e name submodule :
  rs_types resolve !! id = Some type_def → td_owner type_def = OwnerInterface i →
  module_of identifier in_import = Some here → rw_interface_names w !! i = Some e →
  type_path_with_name resolve w identifier in_import id name submodule =
    Some (if is_current identifier i && negb (in_remapped e) then repeat_str "super::" (if submodule then 1 else 0) +:+ name
          else repeat_str "super::" ((if submodule then 1 else 0) + length here) +:+ in_path e +:+ "::" +:+ name).
Proof.
  intros Hid Ho Hh He. unfold type_path_with_name. rewrite Hid. cbn [mbind option_bind]. rewrite Ho.
  rewrite (path_to_interface_spec w identifier in_import here i e) by done. cbn [mbind option_bind].
  destruct (is_current identifier i && negb (in_remapped e)); destruct submodule; try done;
    cbn [repeat_str Nat.add]; f_equal; by rewrite <- ?string_app_assoc.
Qed.

(** ** Remappings *)

(** The entry of an interface for a key *)
Definition entry_of (w : RustWrpc) (key : WorldKey) (is_export : bool) (e : InterfaceName) : Prop :=
  match (if is_export then Some GenerateType else Config_get (rw_with w) (name_world_key resolve key)) with
  | Some (Remap _) => in_remapped e = true ∧ ∃ k, in_path e = with_name k
  | Some GenerateType =>
      in_remapped e = false ∧ ∃ path, compute_module_path resolve key is_export = Some path ∧ in_path e = join "::" path
  | None => False
  end.

Lemma name_interface_spec w id key is_export w' remapped :
  name_interface resolve w id key is_export = Some (Ok (w', remapped)) →
  rw_with w' = rw_with w ∧ rw_generated_types w' = {[name_world_key resolve key]} ∪ rw_generated_types w ∧
  ∃ e, rw_interface_names w' = <[id := e]> (rw_interface_names w) ∧ entry_of w key is_export e.
Proof.
  unfold name_interface, entry_of. destruct (if is_export then _ else _) as [[path|]|]; [| |done].
  - intros [= <- <-]. split_and!; [done|done|]. eexists. split; [done|]. split; [done|by eexists].
  - intros (path & Hp & [= <- <-])%bind_Some. split_and!; [done|done|]. eexists. split; [done|]. split; [done|by exists path].
Qed.

Lemma name_interfaces_spec w items is_export w' :
  name_interfaces resolve w items is_export = Some (Ok w') →
  rw_with w' = rw_with w ∧ rw_generated_types w ⊆ rw_generated_types w' ∧
  (∀ key id, (key, ItemInterface id) ∈ items → name_world_key resolve key ∈ rw_generated_types w') ∧
  (∀ id, rw_interface_names w' !! id = rw_interface_names w !! id ∨
     ∃ key e, (key, ItemInterface id) ∈ items ∧ rw_interface_names w' !! id = Some e ∧ entry_of w key is_export e) ∧
  (∀ key id, (key, ItemInterface id) ∈ items → ∃ key' e, (key', ItemInterface id) ∈ items ∧
     rw_interface_names w' !! id = Some e ∧ entry_of w key' is_export e).
Proof.
  revert w. induction items as [|[key item] items IH]; intros w; cbn [name_interfaces].
  { intros [= <-]. split_and!; [done|done|by intros ?? []%elem_of_nil|by left|by intros ?? []%elem_of_nil]. }
  destruct item as [id| |].
  2,3: intros (Hx1 & Hx2 & Hx3 & Hx4 & Hx5)%IH; split_and!; [done|done|..];
    [intros k j [[=]|?]%elem_of_cons; eauto|
     intros j; destruct (Hx4 j) as [?|(k & e & ? & ?)]; [by left|right; exists k, e; split; [by right|done]]|
     intros k j [[=]|Hk]%elem_of_cons; destruct (Hx5 k j Hk) as (k' & e & ? & ?); exists k', e; split; [by right|done]].
  intros (r & Hr & Hn)%bind_Some. destruct r as [[w1 b]|err]; [|done].
  apply name_interface_spec in Hr as (Hw & Hg & e & Hnames & He). apply IH in Hn as (Hx1 & Hx2 & Hx3 & Hx4 & Hx5).
  assert (∀ k e, entry_of w1 k is_export e → entry_of w k is_export e) as Hentry.
  { intros k e'. unfold entry_of. by rewrite Hw. }
  split_and!.
  - congruence.
  - set_solver.
  - intros k j [[= -> ->]|?]%elem_of_cons; [|by eauto]. apply Hx2. set_solver.
  - intros j. destruct (Hx4 j) as [Hj|(k & e' & Hin & Hj & He')]; [|right; exists k, e'; split_and!; [by right|done|by auto]].
    rewrite Hj, Hnames, lookup_insert. case_decide; [|by left]. subst. right. exists key, e.
    split_and!; [by left|done|done].
  - intros k j [[= -> ->]|Hk]%elem_of_cons.
    + destruct (Hx4 id) as [Hj|(k & e' & Hin & Hj & He')]; [|exists k, e'; split_and!; [by right|done|by auto]].
      rewrite Hnames, lookup_insert_eq in Hj. exists key, e. split_and!; [by left|done|done].
    + destruct (Hx5 k j Hk) as (k' & e' & ? & ? & ?). exists k', e'. split_and!; [by right|done|by auto].
Qed.

(** Remappings apply to imports only: once a world is preprocessed, every exported
    interface is generated at its own path, also if it is imported too and its
    import is remapped; an interface which is only imported is remapped exactly if
    it is configured to be. *)
Theorem interfaces_named w world wd w' :
  rs_worlds resolve !! world = Some wd → preprocess resolve w world = Some (Ok w') →
  (∀ key id, (key, ItemInterface id) ∈ wd_exports wd → ∃ key' path e, (key', ItemInterface id) ∈ wd_exports wd ∧
     compute_module_path resolve key' true = Some path ∧ rw_interface_names w' !! id = Some e ∧
     in_remapped e = false ∧ in_path e = join "::" path) ∧
  (∀ key id, (key, ItemInterface id) ∈ wd_imports wd → (∀ key', (key', ItemInterface id) ∉ wd_exports wd) →
     ∃ key' e, (key', ItemInterface id) ∈ wd_imports wd ∧ rw_interface_names w' !! id = Some e ∧ entry_of w' key' false e) ∧
  (∀ key id, (key, ItemInterface id) ∈ wd_imports wd ++ wd_exports wd →
     name_world_key resolve key ∈ rw_generated_types w').
Proof.
  intros Hwd. unfold preprocess. rewrite Hwd. cbn [mbind option_bind]. intros (config & _ & Hp)%bind_Some.
  apply bind_Some in Hp as (r & Hi & Hp). destruct r as [w1|err]; [|done].
  apply name_interfaces_spec in Hi as (Hw1 & _ & Hg1 & _ & Hn1).
  apply name_interfaces_spec in Hp as (Hw2 & Hsub & Hg2 & Hs2 & Hn2). split_and!.
  - intros key id Hin. destruct (Hn2 key id Hin) as (key' & e & Hin' & He & Hr & path & Hpath & Hj).
    by exists key', path, e.
  - intros key id Hin Hnot. destruct (Hn1 key id Hin) as (key' & e & Hin' & He & Hent). exists key', e. split_and!; [done|..].
    + destruct (Hs2 id) as [-> |(k & e' & Hk & _)]; [done|]. by apply Hnot in Hk.
    + unfold entry_of in Hent |- *. by rewrite Hw2, Hw1.
  - intros key id [Hin|Hin]%elem_of_app; [|by eapply Hg2]. by apply Hsub, (Hg1 key id).
Qed.

Lemma elem_of_insert_sorted x y l : y ∈ insert_sorted x l ↔ y = x ∨ y ∈ l.
Proof. induction l as [|z l IH]; cbn; [set_solver|]. destruct (String.leb x z); set_solver. Qed.

(** The remappings which were not used, and only those, are reported. *)
Theorem unused_remappings w :
  match finish_check w with
  | Ok _ => dom (cf_map (rw_with w)) ⊆ rw_generated_types w
  | Err (UnusedRemappings keys) =>
      keys ≠ [] ∧ ∀ k, k ∈ keys ↔ k ∈ dom (cf_map (rw_with w)) ∧ k ∉ rw_generated_types w
  | Err (NoRemapping _) => False
  end.
Proof.
  unfold finish_check. assert (∀ k, k ∈ unused_keys w ↔ k ∈ dom (cf_map (rw_with w)) ∧ k ∉ rw_generated_types w) as Hk.
  { intros k. unfold unused_keys. rewrite <- elem_of_difference, <- elem_of_elements.
    induction (elements _) as [|x l IH]; [done|]. cbn [foldr]. rewrite elem_of_insert_sorted, IH. set_solver. }
  destruct (unused_keys w) as [|key keys]; [|done]. intros k Hin. destruct (decide (k ∈ rw_generated_types w)); [done|].
  exfalso. apply (elem_of_nil k), Hk. done.
Qed.

End paths.
